(* ===== verification/_CoqProject ===== *)
-Q . S2P
Prelude.v
Ring.v
Buffer.v
PacketFramer.v
DeadlineQueue.v
Transport.v
Session.v
GameLogic.v
Broadcast.v
Dispatcher.v
TimerQueue.v
ReadinessPort.v
Reactor.v
OutputMemory.v
Connection.v
ControlSources.v
LifecycleNodes.v
LoopWork.v
Connector.v
ThreadPool.v
ServerAdmission.v
ServerStop.v
TcpClient.v
Acceptor.v
CompletionPort.v
MemoryRetention.v
IocpTransport.v
