(* ===== verification/Prelude.v ===== *)
(** * game-net-core: a verification development

    game-net-core is a C++ networking core for game servers.  An [EventLoop] per
    I/O thread polls sockets through an engine and dispatches [Channel]s; TCP
    connections buffer what they read in a [Buffer], a [PacketFramer] cuts the
    stream into packets, packets become commands of a session, a [LogicLoop]
    executes them in ticks, and a broadcast router and dispatcher send results
    back to many endpoints.  Deadlines and timers drive idle expiration and
    ticks; budgets bound the memory of pending output and broadcasts.

    ** Files

    - [Prelude] (this file): machine integers with explicit wrap-around, the
      error monad [M] over a state, vectors with capacity, loops with fuel, sums
      over lists and maps, tactics and hints shared by the components.
    - [Ring]: reading and writing a list modulo its length.
    - [Buffer]: [gamenet::net::Buffer] (src/core/net/Buffer.cc).
    - [PacketFramer]: [gamenet::protocol::PacketFramer]
      (src/protocol/PacketFramer.cc).
    - [DeadlineQueue]: [gamenet::net::DeadlineQueue]
      (src/core/net/DeadlineQueue.cc).
    - [Transport]: admission results and [TcpTransportEndpoint]
      (src/transport/TcpTransportEndpoint.cc).
    - [Session]: [PlayerSession], [SessionBinding] and [SessionManager]
      (src/game_session/), on the interface [DeadlineIndex] that
      [DeadlineQueue] implements.
    - [GameLogic]: [GameCommandQueue] and [LogicLoop] (src/game_logic/).
    - [Broadcast]: broadcast plans and [BroadcastRouter]
      (src/broadcast/BroadcastRouter.cc).
    - [Dispatcher]: [BroadcastDispatcher] (src/broadcast/BroadcastDispatcher.cc);
      [Module Reservation] its counters, [Module Dispatch] a dispatch call with
      the tasks it posts.
    - [TimerQueue]: [gamenet::net::TimerQueue] (src/core/net/TimerQueue.cc).
    - [ReadinessPort]: [EpollReadinessPort]
      (src/core/net/detail/EpollReadinessPort.cc) on the interface
      [EpollKernel].
    - [Reactor]: [Channel] (src/core/net/Channel.cc), the registration and
      dispatch half of [EventLoop] (src/core/net/EventLoop.cc) and the readiness
      half of [PollerIoEngineAdapter], on top of [ReadinessPort].
    - [OutputMemory]: [TcpOutputMemoryBudget]
      (src/core/net/TcpOutputMemoryBudget.cc) and the output accounting of
      [TcpConnection] (src/core/net/TcpConnection.cc).
    - [Connection]: [TcpConnection] on POSIX as a whole, with
      [ConnectionBackpressureController]
      (src/core/net/detail/ConnectionBackpressureController.cc), on top of the
      accounting words of [OutputMemory].
    - [ControlSources]: the control sources of [EventLoop]: their table and the
      selection of due sources (src/core/net/EventLoop.cc).
    - [LifecycleNodes]: the intrusive lists of lifecycle nodes, attached, signalled
      and served (src/core/net/EventLoop.cc).
    - [LoopWork]: the rest of [EventLoop]: functors, timers' and sources' rounds,
      wake-ups, [quit] and the final drain, on top of the two files before.
    - [Connector]: [gamenet::net::Connector] (src/core/net/Connector.cc).
    - [ThreadPool]: [Module Thread] is [EventLoopThread]
      (src/core/net/EventLoopThread.cc), [Module Pool] is [EventLoopThreadPool]
      (src/core/net/EventLoopThreadPool.cc).
    - [ServerAdmission]: the books of [TcpServer] (src/core/net/TcpServer.cc):
      admission limits, the connection map, peers, loads and deadlines.
    - [ServerStop]: the stop handshake of [TcpServer] between the base loop and
      its workers.
    - [TcpClient]: [gamenet::net::TcpClient] and its control handle
      (src/core/net/TcpClient.cc), on top of what [Connector] promises.
    - [Acceptor]: [gamenet::net::Acceptor] (src/core/net/Acceptor.cc) on both
      platforms: the POSIX accept loop with its spare descriptor and the Windows
      pool of AcceptEx slots.
    - [CompletionPort]: [gamenet::net::IocpPoller]
      (src/core/net/poller/IocpPoller.cc) with the state of its operations
      (src/core/net/detail/IocpOperationState.h), and the Windows half of
      [PollerIoEngineAdapter] and [EventLoop], on the channels of [Reactor].
    - [MemoryRetention]: the process-wide counters of fixed storage
      (src/core/net/NetworkMemoryRetention.cc).
    - [IocpTransport]: [gamenet::net::IocpTcpTransport]
      (src/core/net/platform/IocpTcpTransport_win.cc), the reads and writes of a
      connection on Windows, on the operations of [CompletionPort].

    ** Modelling conventions

    State is a record with the source's member names, an operation a function of
    the source's name.  Operations that throw are in the monad [M] of this file:
    they return a value or an exception and the state at that point.  What C++
    leaves undefined (a dangling iterator, an overlapping [memcpy], a read out of
    bounds, an overflowing signed addition) is the exception
    [undefined_behaviour], which the theorems exclude.  [std::size_t] and
    [std::uint64_t] are [Z] with wrapping operators written where the source
    computes.  Objects that the source shares by pointer live in stores indexed
    by address, and the pointers are addresses ([Session], [TimerQueue],
    [Reactor], the list nodes of [DeadlineQueue]).

    Concurrent code is a machine whose labels choose the next step; theorems
    quantify over all sequences of labels, so over all interleavings.  A step is
    one atomic access ([Dispatcher.Reservation], [OutputMemory],
    [MemoryRetention], the calls of other threads in [Connection]), one critical section ([GameLogic],
    [LoopWork], [ThreadPool.Thread], [ServerStop], [TcpClient]) or the code
    between two callbacks ([Reactor], [TimerQueue], [LogicLoop], [Connector], the
    owner thread in [Connection]).
    User callbacks are labels: what they may call is offered as further labels,
    and they may throw.

    ** What the theorems show

    - Refinement: [Buffer] implements a byte queue, [PacketFramer.push] a
      reference decoder on lists, [DeadlineQueue] a map of deadlines with fresh
      generations, [route] a per-target decision function; a budget used alone
      does what it promises.
    - Round trips: encoded packets cut anywhere come out of a framer in order.
    - Invariants over all runs: session indexes, bindings and deadlines agree;
      commands are conserved; reservations are exact and within limits, for
      broadcasts and for output memory; the bytes of every accepted send are
      written, waiting or counted as lost; timers and their indexes agree; channels,
      registrations, the kernel's interest list and the active batch agree; a
      connection's pending count, buffers, interests and state agree; the loads of
      a pool and the peer counts, loads and deadlines of a server are exactly those
      of the connections that are open; every descriptor an acceptor opens is
      held in one place, handed over once or closed once; a
      completion that the system owes is delivered exactly once; the bytes of a
      Windows connection keep their order, and the counters of fixed storage and
      their peaks are exact.
    - Safety: stale bindings, stale registration tokens and cancelled timers stay
      dead; callbacks run only on channels still registered as polled; a stopped
      loop or a shut down manager stays so; a sealed connection drains; its
      output leaves in order and its write half is shut down only after the last
      byte; its callbacks come in one order, each end at most once; functors run
      once and in order; a connector closes or hands over every descriptor once;
      the threads of a server are joined only when every connection is closed; a
      client has at most one connection, and none after its destruction; a stopped
      acceptor hands nothing over; the completion port touches only storage that
      somebody holds, and calls no observer current whose registration was revoked.
    - Termination and liveness: idle expiration, [push], [dispatch], the output
      of a Windows connection that the system keeps writing and the lock-free
      operations left alone come to their end, with explicit bounds; a
      graceful shutdown of an established connection is never forgotten, nor is an
      accepted functor (no wake-up is lost), a connector's request or a client's;
      a listening acceptor always has an event or a timer to go on with.
    - Errors: every refusal names its cause and changes nothing else; what a
      failed allocation or a refused post leaves behind is part of the statements,
      and where that is a defect it is a finding.

    ** Fuel and bounds

    Loops whose number of iterations depends on the data are run by [loop] with
    fuel; [loop_total] and the lemmas on it show that the fuel given is never
    exhausted: 2^64 for loops that count a [std::size_t], queue size + 1 for
    [expireIdle], length + 1 for the chunks of a batch.  Lock-free operations
    have no fuel in the machines; the bounds of 30 steps ([tryReserve] of the
    dispatcher), 44 steps (an output operation), 7 steps (a budget's loop) and 6
    steps (a counter of fixed storage) are for an operation that nobody disturbs.

    ** Assumptions

    Owner-thread assertions ([assertInLoopThread]) hold.  Atomics behave as
    sequentially consistent interleavings.  The iteration order of an
    [unordered_map] is arbitrary.  Allocation may fail in the storage of
    [Buffer], in the storage, payloads and frames of [PacketFramer], in [schedule]
    and [advance] of [DeadlineQueue], in [GameCommandQueue::submit], in the output
    buffer of [Connection], in the set-up of a connection, the posts and the
    deadline driver of [ServerAdmission], and in the storage, write queue, input
    buffer and leases of [IocpTransport]; it succeeds elsewhere.  The arguments of
    [Buffer]'s operations are at most [PTRDIFF_MAX].  Fewer than 2^64 - 1
    reservations and poll batches, 2^63 - 1 timers and 2^64 - 2 registrations
    occur.  [epoll_ctl] obeys the laws of [EpollKernel] and descriptors stay open
    while registered.  In [Reactor] the loop's callback-exception handler does
    not itself change channels, and in [TimerQueue] runs in which rescheduling
    overflows the clock are excluded, since C++ gives them no meaning.  In
    [Connection] the owner's code between two callbacks is one step for other
    threads; [publishCloseInfo] acts as one compare-exchange, since only the owner
    adds native errors; a signal of an attached lifecycle node reaches the loop;
    [connectEstablished] finds its connection owned by a [shared_ptr]; and the
    storage of the input buffer can be allocated there.  What is
    said of cancelled timers is about timers that are registered when the
    cancellation takes effect.  In [LoopWork] [loop] is called
    once, and functors that the owner queues before its first round wait for that
    round (they wake nobody).  In [Connector] and [TcpClient] fewer than 2^64
    requests are made, delays stay below 146 years and the loop accepts timers.
    The worker loops of a pool are distinct.  The times a server reads are in
    range and its steady clock is monotone.  In [ServerStop] there is at least one
    worker, the server is not destroyed, the base loop keeps running and lifecycle
    signals are accepted (what destruction and a refused signal do to the future
    is stated apart).  In [CompletionPort] the system takes the sockets that are
    associated, but where a refusal is what a statement is about, it ends every operation it has taken at most once, an
    operation is submitted only while its owner holds its block, a socket that has
    been used gets a new channel only if its association was preserved, and
    generations stay below 2^64 - 1.  In [IocpTransport] the system reads no more
    than it was given room for, less than 2^64 bytes are buffered, and a run ends
    when the engine refuses the lease of an operation that the system has taken.  In [MemoryRetention] a
    client releases only what it holds, and its calls do not overlap.  In
    [Acceptor] channel registration and timers succeed, runs are those in which
    [listen] is called neither while listening nor again after AcceptEx failed to
    load, and fewer than 2^64 generations pass.

    ** Not modelled

    - The Windows branches of [TcpConnection] and [Connector]: calls of IOCP
      sockets whose other side is the operating system.
    - The setters, snapshots and buffer trimming of [TcpConnection], and the
      setters and statistics of [TcpServer] and [TcpClient]: they store or report
      values.
    - Socket and platform calls ([SocketsOps], [Socket], [Wakeup]) and the epoll
      poller shell, which no event loop uses: calls of the operating system.
    - The io_uring engine and its TCP stack (src/experimental), which no default
      build uses.
    - Logging, metrics recorders and exporters, [InetAddress]: formatting and
      forwarding.
    - Examples, benchmarks and tests. *)

From Stdlib Require Export ZArith Lia NArith.
From Stdlib.Strings Require Export Byte.
From stdpp Require Export base gmap list sorting.

Local Open Scope Z_scope.

(** ** Machine integers

    [std::size_t] and [std::uint64_t] are values of [Z]; every addition and
    subtraction the source performs on them is written with the wrapping
    operators below, so that an overflow is visible in the model. *)

Declare Scope usize_scope.
Delimit Scope usize_scope with usize.

Abbreviation usize_lim := 18446744073709551616%Z (only parsing).
Abbreviation usize_max := 18446744073709551615%Z (only parsing).
Abbreviation ptrdiff_max := 9223372036854775807%Z (only parsing).
Abbreviation i64_max := 9223372036854775807%Z (only parsing).
Abbreviation i64_min := (-9223372036854775808)%Z (only parsing).
Abbreviation u32_max := 4294967295%Z (only parsing).
Abbreviation i32_max := 2147483647%Z (only parsing).

Definition uwrap (z : Z) : Z := z mod usize_lim.

Notation "a ⊕ b" := (uwrap (a + b)) (at level 50, left associativity) : usize_scope.
Notation "a ⊖ b" := (uwrap (a - b)) (at level 50, left associativity) : usize_scope.
Notation "a ⊗ b" := (uwrap (a * b)) (at level 40, left associativity) : usize_scope.
Open Scope usize_scope.

Definition is_usize (z : Z) : Prop := 0 <= z < usize_lim.

Lemma uwrap_small z : 0 <= z < usize_lim -> uwrap z = z.
Proof. intros H. unfold uwrap. apply Z.mod_small. lia. Qed.

Lemma uwrap_bound z : 0 <= uwrap z < usize_lim.
Proof. apply Z.mod_pos_bound. lia. Qed.

(** Both operands fit: a carry is the only way the sum differs. *)
Lemma uadd_carry a b :
  is_usize a -> is_usize b -> usize_lim <= a + b -> a ⊕ b = a + b - usize_lim.
Proof.
  unfold is_usize, uwrap. intros Ha Hb Hc.
  symmetry. apply (Z.mod_unique _ _ 1); lia.
Qed.

(** [unwrap] removes every wrapping operator whose operands provably stay in
    range, in the goal and in the hypotheses. *)
Ltac unwrap :=
  repeat match goal with
  | |- context [uwrap ?z] => rewrite (uwrap_small z) by lia
  | H : context [uwrap ?z] |- _ => rewrite (uwrap_small z) in H by lia
  end.

(** ** Boolean tests of the source

    [zify_bools] turns the comparisons of the code into propositions. *)

Ltac zify_bools :=
  repeat match goal with
  | H : (_ && _)%bool = true |- _ => apply andb_true_iff in H; destruct H
  | H : (_ && _)%bool = false |- _ => apply andb_false_iff in H
  | H : (_ || _)%bool = true |- _ => apply orb_true_iff in H
  | H : (_ || _)%bool = false |- _ => apply orb_false_iff in H; destruct H
  | H : negb _ = true |- _ => apply negb_true_iff in H
  | H : negb _ = false |- _ => apply negb_false_iff in H
  | H : (_ <? _) = true |- _ => apply Z.ltb_lt in H
  | H : (_ <? _) = false |- _ => apply Z.ltb_ge in H
  | H : (_ <=? _) = true |- _ => apply Z.leb_le in H
  | H : (_ <=? _) = false |- _ => apply Z.leb_gt in H
  | H : (_ =? _) = true |- _ => apply Z.eqb_eq in H
  | H : (_ =? _) = false |- _ => apply Z.eqb_neq in H
  end.

(** Case analysis on the test of the leftmost conditional, with the outcome
    recorded as a proposition. *)
Ltac case_if :=
  match goal with
  | |- context [if ?b then _ else _] =>
      let E := fresh "E" in destruct b eqn:E; zify_bools
  | H : context [if ?b then _ else _] |- _ =>
      let E := fresh "E" in destruct b eqn:E; zify_bools
  end.

(** [first_time x] succeeds once per [x]: it lets a fact-collecting tactic visit
    each hypothesis a single time. *)
Definition seen {A : Type} (_ : A) : Prop := True.

Ltac first_time x :=
  lazymatch goal with
  | _ : seen x |- _ => fail
  | _ => assert (seen x) by exact I
  end.

Ltac clear_seen := repeat match goal with H : seen _ |- _ => clear H end.

(** ** Exceptions, and the state-and-error monad of the throwing operations *)

Inductive exn :=
  | invalid_argument
  | out_of_range
  | logic_error
  | runtime_error
  | overflow_error
  | length_error
  | bad_alloc
  | log_fatal            (** [LOG_FATAL]: the process terminates *)
  | undefined_behaviour. (** e.g. a dangling iterator is dereferenced *)

Inductive result (A : Type) :=
  | Ok (a : A)
  | Throw (e : exn).
Arguments Ok {A} a.
Arguments Throw {A} e.

Global Instance exn_eq_dec : EqDecision exn.
Proof. solve_decision. Defined.

(** A throwing member function: the state survives the exception, with
    whatever the function had already changed. *)
Definition M (S A : Type) : Type := S -> result A * S.

Definition ret {S A} (a : A) : M S A := fun s => (Ok a, s).
Definition throw {S A} (e : exn) : M S A := fun s => (Throw e, s).
Definition bindM {S A B} (m : M S A) (k : A -> M S B) : M S B :=
  fun s => match m s with
           | (Ok a, s') => k a s'
           | (Throw e, s') => (Throw e, s')
           end.
Definition get {S} : M S S := fun s => (Ok s, s).
Definition gets {S A} (f : S -> A) : M S A := fun s => (Ok (f s), s).
Definition modify {S} (f : S -> S) : M S unit := fun s => (Ok tt, f s).
(** [if (b) throw e;] *)
Definition throw_if {S} (b : bool) (e : exn) : M S unit :=
  if b then throw e else ret tt.
(** [try { m } catch (...) { return d; }] *)
Definition try_or {S A} (m : M S A) (d : A) : M S A :=
  fun s => match m s with
           | (Ok a, s') => (Ok a, s')
           | (Throw _, s') => (Ok d, s')
           end.

Declare Scope exec_scope.
Delimit Scope exec_scope with exec.
Notation "'do' x <- m ;; k" := (bindM m (fun x => k))
  (at level 60, x name, m at next level, right associativity) : exec_scope.
Notation "'do' ' p <- m ;; k" := (bindM m (fun x => match x with p => k end))
  (at level 60, p pattern, m at next level, right associativity) : exec_scope.
Notation "'run' m ;; k" := (bindM m (fun _ => k))
  (at level 60, m at next level, right associativity) : exec_scope.
Open Scope exec_scope.

Lemma bindM_ok {S A B} (m : M S A) (k : A -> M S B) s a s' :
  m s = (Ok a, s') -> bindM m k s = k a s'.
Proof. intros H. unfold bindM. by rewrite H. Qed.

Lemma bindM_throw {S A B} (m : M S A) (k : A -> M S B) s e s' :
  m s = (Throw e, s') -> bindM m k s = (Throw e, s').
Proof. intros H. unfold bindM. by rewrite H. Qed.

Lemma bindM_assoc {S A B C} (m : M S A) (k : A -> M S B) (h : B -> M S C) s :
  bindM (bindM m k) h s = bindM m (fun a => bindM (k a) h) s.
Proof. unfold bindM. destruct (m s) as [[a|e] s']; done. Qed.

(** *** Weakest preconditions *)

Definition wp {S A} (m : M S A) (Q : result A -> S -> Prop) (s : S) : Prop := Q (fst (m s)) (snd (m s)).

Section weakest_preconditions.
Context {S : Type}.
Implicit Types s : S.

Lemma wp_ret {A} (x : A) (Q : result A -> S -> Prop) s : Q (Ok x) s -> wp (ret x) Q s.
Proof. done. Qed.

Lemma wp_throw {A} e (Q : result A -> S -> Prop) s : Q (Throw e) s -> wp (throw e) Q s.
Proof. done. Qed.

Lemma wp_modify f (Q : result unit -> S -> Prop) s : Q (Ok tt) (f s) -> wp (modify f) Q s.
Proof. done. Qed.

Lemma wp_get {A} (k : S -> M S A) Q s : wp (k s) Q s -> wp (bindM get k) Q s.
Proof. done. Qed.

Lemma wp_bind {A B} (m : M S A) (k : A -> M S B) Q s :
  wp m (fun r s' => match r with Ok x => wp (k x) Q s' | Throw e => Q (Throw e) s' end) s -> wp (bindM m k) Q s.
Proof. unfold wp, bindM. destruct (m s) as [[x|e] s']; done. Qed.

Lemma wp_throw_if b e (Q : result unit -> S -> Prop) s :
  (b = false -> Q (Ok tt) s) -> (b = true -> Q (Throw e) s) -> wp (throw_if b e) Q s.
Proof. intros H1 H2. destruct b; [by apply H2|by apply H1]. Qed.

Lemma wp_try {A} (m : M S A) d Q s :
  wp m (fun r s' => match r with Ok x => Q (Ok x) s' | Throw _ => Q (Ok d) s' end) s -> wp (try_or m d) Q s.
Proof. unfold wp, try_or. destruct (m s) as [[x|e] s']; done. Qed.

Lemma wp_weaken {A} (m : M S A) (Q Q' : result A -> S -> Prop) s :
  wp m Q s -> (forall r s', Q r s' -> Q' r s') -> wp m Q' s.
Proof. unfold wp. auto. Qed.

(** What an equation says, as a weakest precondition. *)
Lemma wp_eq {A} (m : M S A) (Q : result A -> S -> Prop) s r s' : m s = (r, s') -> Q r s' -> wp m Q s.
Proof. unfold wp. by intros ->. Qed.
End weakest_preconditions.

(** ** Bytes *)

Definition byte_val (b : byte) : Z := Z.of_N (Byte.to_N b).

(** [static_cast<char>(z & 0xff)] *)
Definition byte_of (z : Z) : byte :=
  match Byte.of_N (Z.to_N (z mod 256)) with
  | Some b => b
  | None => Byte.x00
  end.

Lemma byte_val_bound b : 0 <= byte_val b < 256.
Proof. unfold byte_val. pose proof (Byte.to_N_bounded b). lia. Qed.

Lemma byte_val_of z : byte_val (byte_of z) = z mod 256.
Proof.
  unfold byte_val, byte_of.
  pose proof (Z.mod_pos_bound z 256 ltac:(lia)) as Hb.
  destruct (Byte.of_N (Z.to_N (z mod 256))) as [b|] eqn:E.
  - apply Byte.to_of_N in E. rewrite E. lia.
  - apply Byte.of_N_None_iff in E. lia.
Qed.

(** ** Lists indexed by machine integers *)

Definition zlen {A} (l : list A) : Z := Z.of_nat (length l).
Definition ztake {A} (n : Z) (l : list A) : list A := take (Z.to_nat n) l.
Definition zdrop {A} (n : Z) (l : list A) : list A := drop (Z.to_nat n) l.
(** The elements of [l] in the index range [lo, hi). *)
Definition slice {A} (lo hi : Z) (l : list A) : list A :=
  ztake (hi - lo) (zdrop lo l).
(** [memcpy(dst + pos, src, size)] *)
Definition blit {A} (pos : Z) (src dst : list A) : list A :=
  ztake pos dst ++ src ++ zdrop (pos + zlen src) dst.
Definition zeros (n : Z) : list byte := replicate (Z.to_nat n) Byte.x00.

Section slices.
Context {A : Type}.
Implicit Types l src dst : list A.

Lemma zlen_nonneg l : 0 <= zlen l.
Proof. unfold zlen. lia. Qed.

Lemma zlen_app l src : zlen (l ++ src) = zlen l + zlen src.
Proof. unfold zlen. rewrite length_app. lia. Qed.

Lemma zlen_nil_inv l : zlen l = 0 -> l = [].
Proof. unfold zlen. destruct l; simpl; [done | lia]. Qed.

Lemma zlen_slice lo hi l :
  0 <= lo <= hi -> hi <= zlen l -> zlen (slice lo hi l) = hi - lo.
Proof.
  unfold zlen, slice, ztake, zdrop. intros.
  rewrite length_take, length_drop. lia.
Qed.

Lemma slice_all l : slice 0 (zlen l) l = l.
Proof.
  unfold slice, ztake, zdrop, zlen. simpl. rewrite drop_0.
  apply take_ge. lia.
Qed.

Lemma slice_empty lo l : slice lo lo l = [].
Proof. unfold slice, ztake. by rewrite Z.sub_diag. Qed.

Lemma slice_split lo mid hi l :
  0 <= lo <= mid -> mid <= hi -> hi <= zlen l ->
  slice lo mid l ++ slice mid hi l = slice lo hi l.
Proof.
  unfold slice, ztake, zdrop, zlen. intros.
  replace (Z.to_nat (hi - lo)) with (Z.to_nat (mid - lo) + Z.to_nat (hi - mid))%nat by lia.
  rewrite <- take_take_drop. do 2 f_equal. rewrite drop_drop. f_equal. lia.
Qed.

Lemma zdrop_slice n lo hi l :
  0 <= n -> 0 <= lo -> lo + n <= hi -> hi <= zlen l ->
  zdrop n (slice lo hi l) = slice (lo + n) hi l.
Proof.
  intros. unfold slice, ztake, zdrop, zlen in *.
  rewrite skipn_firstn_comm, drop_drop.
  f_equal; [lia | f_equal; lia].
Qed.

Lemma ztake_slice n lo hi l :
  0 <= n -> lo + n <= hi -> ztake n (slice lo hi l) = slice lo (lo + n) l.
Proof.
  intros. unfold slice, ztake. rewrite take_take. f_equal. lia.
Qed.

Lemma zlen_blit pos src dst :
  0 <= pos -> pos + zlen src <= zlen dst -> zlen (blit pos src dst) = zlen dst.
Proof.
  unfold blit, zlen, ztake, zdrop. intros.
  rewrite !length_app, length_take, length_drop. lia.
Qed.

Lemma blit_nil dst : blit 0 [] dst = dst.
Proof. unfold blit, ztake, zdrop. simpl. by rewrite drop_0. Qed.

Lemma slice_blit_in pos src dst :
  0 <= pos -> pos + zlen src <= zlen dst ->
  slice pos (pos + zlen src) (blit pos src dst) = src.
Proof.
  unfold slice, blit, zlen, ztake, zdrop. intros.
  rewrite drop_app_ge; rewrite length_take; [|lia].
  replace (Z.to_nat pos - Z.to_nat pos `min` length dst)%nat with 0%nat by lia.
  rewrite drop_0, take_app_le by lia. apply take_ge. lia.
Qed.

Lemma slice_blit_before pos src dst lo hi :
  0 <= lo <= hi -> hi <= pos -> pos <= zlen dst ->
  slice lo hi (blit pos src dst) = slice lo hi dst.
Proof.
  unfold slice, blit, zlen, ztake, zdrop. intros.
  rewrite drop_app_le; [|rewrite length_take; lia].
  rewrite take_app_le; [|rewrite length_drop, length_take; lia].
  rewrite skipn_firstn_comm, take_take. f_equal. lia.
Qed.

(** A write followed by reading the old region and the new one. *)
Lemma slice_blit_append pos src dst lo :
  0 <= lo <= pos -> pos + zlen src <= zlen dst ->
  slice lo (pos + zlen src) (blit pos src dst) = slice lo pos dst ++ src.
Proof.
  intros. pose proof (zlen_nonneg src).
  rewrite <- (slice_split lo pos); [|lia|lia|rewrite zlen_blit; lia].
  rewrite slice_blit_before, slice_blit_in by lia. done.
Qed.

Lemma slice_app_l lo hi l src :
  0 <= lo <= hi -> hi <= zlen l -> slice lo hi (l ++ src) = slice lo hi l.
Proof.
  unfold slice, zlen, ztake, zdrop. intros.
  rewrite drop_app_le by lia. apply take_app_le. rewrite length_drop. lia.
Qed.

Lemma slice_ztake lo hi n l :
  0 <= lo <= hi -> hi <= n -> slice lo hi (ztake n l) = slice lo hi l.
Proof.
  unfold slice, ztake, zdrop. intros.
  rewrite skipn_firstn_comm, take_take. f_equal. lia.
Qed.
Lemma zdrop_0 l : zdrop 0 l = l.
Proof. by unfold zdrop. Qed.

Lemma zlen_zdrop n l : 0 <= n <= zlen l -> zlen (zdrop n l) = zlen l - n.
Proof. unfold zlen, zdrop. intros. rewrite length_drop. lia. Qed.

Lemma zdrop_zdrop n k l : 0 <= n -> 0 <= k -> zdrop n (zdrop k l) = zdrop (k + n) l.
Proof. unfold zdrop. intros. rewrite drop_drop. f_equal. lia. Qed.

Lemma zdrop_app n l src : n <= zlen l -> zdrop n (l ++ src) = zdrop n l ++ src.
Proof. unfold zdrop, zlen. intros. rewrite drop_app_le by lia. done. Qed.

(** The front of what is left is the slice that is given to the system. *)
Lemma slice_zdrop lo n k l : 0 <= lo -> 0 <= n <= k -> lo + k <= zlen l ->
  ztake n (slice lo (lo + k) l) ++ zdrop n (zdrop lo l) = zdrop lo l.
Proof.
  intros. rewrite ztake_slice by lia. unfold slice. replace (lo + n - lo) with n by lia. unfold ztake, zdrop. apply take_drop.
Qed.
End slices.

Lemma zlen_zeros n : 0 <= n -> zlen (zeros n) = n.
Proof. unfold zlen, zeros. rewrite length_replicate. lia. Qed.

Create Rewrite HintDb slices.
#[export] Hint Rewrite @zlen_app @slice_empty @slice_all : slices.
#[export] Hint Rewrite @zlen_slice @zlen_blit @slice_blit_append zlen_zeros
  using lia : slices.

(** ** Sums over lists *)

Definition zsum {A} (w : A -> Z) (l : list A) : Z := foldr (fun a acc => w a + acc) 0 l.

Section sums.
Context {A : Type} (w : A -> Z).
Implicit Types l : list A.

Lemma zsum_app l1 l2 : zsum w (l1 ++ l2) = zsum w l1 + zsum w l2.
Proof. unfold zsum. induction l1; simpl; lia. Qed.

Lemma zsum_nonneg l : (forall a, 0 <= w a) -> 0 <= zsum w l.
Proof.
  intros Hw. unfold zsum. induction l as [|a l IH]; simpl; [lia|]. specialize (Hw a). lia.
Qed.

Lemma zsum_perm l1 l2 : l1 ≡ₚ l2 -> zsum w l1 = zsum w l2.
Proof. unfold zsum. induction 1; simpl; lia. Qed.
End sums.

(** ** [std::vector<char>]

    A vector is its elements together with [capacity()].  How much storage an
    allocation request is rounded up to, and whether it succeeds, is the
    implementation's choice: an [Allocator] says so, under the guarantees the
    language standard gives. *)

Record vec := Vec { vdata : list byte; vcap : Z }.

Class Allocator := {
  (** a request for [n] bytes is served *)
  alloc_ok : Z -> bool;
  (** [capacity()] of a vector constructed with [n] elements *)
  fresh_cap : Z -> Z;
  (** [capacity()] after a reallocating [resize(n)] of a vector of capacity [c] *)
  grow_cap : Z -> Z -> Z;
  fresh_cap_ge : forall n, 0 <= n -> n <= fresh_cap n;
  grow_cap_ge : forall c n, c < n -> n <= grow_cap c n;
  alloc_ok_max : forall n, alloc_ok n = true -> n <= ptrdiff_max;
}.

(** A concrete allocator: exact construction, doubling growth, and requests
    served up to 1 GiB. *)
Definition doubling_allocator : Allocator.
Proof.
  refine {| alloc_ok n := n <=? 1073741824;
            fresh_cap n := n;
            grow_cap c n := Z.max n (2 * c) |}; intros; zify_bools; lia.
Defined.

Definition vsize (v : vec) : Z := zlen (vdata v).

Definition vec_ok (v : vec) : Prop := vsize v <= vcap v /\ vsize v <= ptrdiff_max.

Section vectors.
Context `{Allocator}.

(** [std::vector<char> v(n)] *)
Definition vec_new (n : Z) : result vec :=
  if ptrdiff_max <? n then Throw length_error
  else if alloc_ok n then Ok (Vec (zeros n) (fresh_cap n))
  else Throw bad_alloc.

(** [v.resize(n)]: truncation, or value-initialised elements at the end. *)
Definition vec_resize (v : vec) (n : Z) : result vec :=
  if n <=? vsize v then Ok (Vec (ztake n (vdata v)) (vcap v))
  else if ptrdiff_max <? n then Throw length_error
  else if n <=? vcap v then Ok (Vec (vdata v ++ zeros (n - vsize v)) (vcap v))
  else if alloc_ok n then Ok (Vec (vdata v ++ zeros (n - vsize v)) (grow_cap (vcap v) n))
  else Throw bad_alloc.

Lemma vec_new_ok n v :
  0 <= n -> vec_new n = Ok v -> vsize v = n /\ vcap v = fresh_cap n /\ vec_ok v.
Proof.
  unfold vec_new, vec_ok, vsize. intros Hn Hv.
  repeat case_if; simplify_eq; simpl.
  rewrite zlen_zeros by lia. pose proof (fresh_cap_ge n Hn). lia.
Qed.

Lemma vec_resize_throw v n e :
  vec_resize v n = Throw e -> e = length_error \/ e = bad_alloc.
Proof. unfold vec_resize. intros. repeat case_if; simplify_eq; auto. Qed.

Lemma vec_resize_grow v n v' :
  vec_ok v -> vsize v < n -> vec_resize v n = Ok v' ->
  vsize v' = n /\ vec_ok v' /\
  vdata v' = vdata v ++ zeros (n - vsize v) /\ vcap v <= vcap v'.
Proof.
  unfold vec_resize, vec_ok. intros [Hc Hm] Hn Hv.
  assert (forall c, vsize (Vec (vdata v ++ zeros (n - vsize v)) c) = n) as Hs.
  { intros c. unfold vsize in *. simpl. rewrite zlen_app, zlen_zeros; lia. }
  repeat case_if; simplify_eq; rewrite ?Hs; simpl;
    try pose proof (grow_cap_ge (vcap v) n ltac:(lia)); repeat split; try done; lia.
Qed.
End vectors.

(** ** Bounds-checked memory access

    A read or write outside the elements of a vector is undefined behaviour in
    the source; the model makes it the value [undefined_behaviour], which the
    safety theorems exclude. *)

(** the bytes at [data() + lo .. data() + hi) *)
Definition vec_read (v : vec) (lo hi : Z) : result (list byte) :=
  if (0 <=? lo) && (lo <=? hi) && (hi <=? vsize v)
  then Ok (slice lo hi (vdata v)) else Throw undefined_behaviour.

(** [memcpy(data() + pos, src, size)] *)
Definition vec_write (v : vec) (pos : Z) (src : list byte) : result vec :=
  if (0 <=? pos) && (pos + zlen src <=? vsize v)
  then Ok (Vec (blit pos src (vdata v)) (vcap v)) else Throw undefined_behaviour.

Lemma vec_read_ok v lo hi :
  0 <= lo <= hi -> hi <= vsize v -> vec_read v lo hi = Ok (slice lo hi (vdata v)).
Proof.
  intros. unfold vec_read.
  destruct (_ && _)%bool eqn:E; [done|]. zify_bools. lia.
Qed.

Lemma vec_write_ok v pos src :
  0 <= pos -> pos + zlen src <= vsize v ->
  vec_write v pos src = Ok (Vec (blit pos src (vdata v)) (vcap v)).
Proof.
  intros. unfold vec_write.
  destruct (_ && _)%bool eqn:E; [done|]. zify_bools. lia.
Qed.

(** A computation without state, run inside a member function. *)
Definition lift {S A} (r : result A) : M S A := fun s => (r, s).

(** The outcome of a read or write system call. *)
Inductive sys_result (A : Type) :=
  | SysOk (a : A)
  | SysErr (errno : Z).
Arguments SysOk {A} a.
Arguments SysErr {A} errno.

(** [step_m] runs the monadic plumbing of a member function one layer down,
    leaving the operations of the source folded. *)
Ltac step_m :=
  cbv beta iota zeta delta
    [bindM get gets modify ret throw throw_if lift try_or] in *.

(** ** Loops

    [loop fuel step s] runs [step] until it leaves the loop.  The fuel is binary,
    so that a bound such as 2^64 costs nothing to write down and a run that
    stops early is cheap to evaluate; [loop_total] shows that a fuel above the
    loop's measure is enough. *)

Fixpoint loop_steps {S R} (fuel : positive) (step : S -> S + R) (s : S) : S + R :=
  match fuel with
  | xH => step s
  | xO p =>
      match loop_steps p step s with
      | inl s' => loop_steps p step s'
      | inr r => inr r
      end
  | xI p =>
      match step s with
      | inl s1 =>
          match loop_steps p step s1 with
          | inl s2 => loop_steps p step s2
          | inr r => inr r
          end
      | inr r => inr r
      end
  end.

Definition loop {S R} (fuel : positive) (step : S -> S + R) (s : S) : option R :=
  match loop_steps fuel step s with
  | inl _ => None
  | inr r => Some r
  end.

Section loops.
Context {S R : Type} (step : S -> S + R).
Context (I : S -> Prop) (m : S -> Z) (Q : R -> Prop).
Context (Hstep : forall s, I s ->
  match step s with
  | inl s' => I s' /\ 0 <= m s' < m s
  | inr r => Q r
  end).

Lemma loop_steps_progress fuel s :
  I s ->
  match loop_steps fuel step s with
  | inl s' => I s' /\ 0 <= m s' /\ m s' + Zpos fuel <= m s
  | inr r => Q r
  end.
Proof using Hstep.
  revert s. induction fuel as [p IH|p IH|]; intros s Hs; simpl.
  - specialize (Hstep s Hs). destruct (step s) as [s1|r]; [|done]. destruct Hstep as [H1 Hm1].
    specialize (IH s1 H1) as IH1. destruct (loop_steps p step s1) as [s2|]; [|done].
    destruct IH1 as (H2 & Hp2 & Hm2). specialize (IH s2 H2).
    destruct (loop_steps p step s2) as [s3|]; [|done]. destruct IH as (? & ? & ?).
    split_and!; [done..|]. lia.
  - specialize (IH s Hs) as IH1. destruct (loop_steps p step s) as [s2|]; [|done].
    destruct IH1 as (H2 & Hp2 & Hm2). specialize (IH s2 H2).
    destruct (loop_steps p step s2) as [s3|]; [|done]. destruct IH as (? & ? & ?).
    split_and!; [done..|]. lia.
  - specialize (Hstep s Hs). destruct (step s) as [s'|]; [|done].
    destruct Hstep. split_and!; [done|lia|lia].
Qed.

Lemma loop_total fuel s :
  I s -> m s < Zpos fuel -> exists r, loop fuel step s = Some r /\ Q r.
Proof using Hstep.
  intros Hs Hm. pose proof (loop_steps_progress fuel s Hs) as Hp. unfold loop.
  destruct (loop_steps fuel step s) as [s'|r]; [lia|eauto].
Qed.
End loops.

(** Fuel for loops that make at most 2^64 - 1 steps. *)
Definition usize_fuel : positive := 18446744073709551616.

(** ** Signed 64-bit time arithmetic

    [std::chrono] durations and time points are [std::int64_t] ticks; an
    overflow is undefined behaviour in the source. *)

Definition i64 (z : Z) : result Z :=
  if (i64_min <=? z) && (z <=? i64_max) then Ok z else Throw undefined_behaviour.

Lemma i64_ok z : i64_min <= z <= i64_max -> i64 z = Ok z.
Proof. intros Hz. unfold i64. destruct (_ && _) eqn:E; [done|]. zify_bools. lia. Qed.

(** Readings of a steady clock: ticks since its epoch. *)
Definition is_time (t : Z) : Prop := 0 <= t <= i64_max.

(** ** Ordered maps

    [std::map] as a finite map whose [begin()] is the binding of the least key. *)

Definition map_min {A} (m : gmap Z A) : option (Z * A) :=
  map_fold (fun k v acc =>
    match acc with
    | Some (k', _) => if k' <=? k then acc else Some (k, v)
    | None => Some (k, v)
    end) None m.

Section ordered_maps.
Context {A : Type}.
Implicit Types m : gmap Z A.

Lemma map_min_spec m :
  match map_min m with
  | Some (k, v) => m !! k = Some v /\ forall k' v', m !! k' = Some v' -> k <= k'
  | None => m = ∅
  end.
Proof.
  unfold map_min.
  refine (map_fold_weak_ind
    (fun (r : option (Z * A)) (m : gmap Z A) => match r with
                | Some (k, v) => m !! k = Some v /\ forall k' v', m !! k' = Some v' -> k <= k'
                | None => m = ∅
                end) _ None _ _ m); [done|].
  intros k v m' [[k1 v1]|] Hk IH.
  - destruct IH as [H1 Hmin]. destruct (Z.leb_spec k1 k) as [Hle|Hlt]; split.
    + rewrite lookup_insert_ne by congruence. done.
    + intros k' v' [[<- <-]|[Hne Hl]]%lookup_insert_Some; eauto.
    + apply lookup_insert_eq.
    + intros k' v' [[<- <-]|[Hne Hl]]%lookup_insert_Some; [lia|].
      apply Hmin in Hl. lia.
  - subst m'. split; [apply lookup_insert_eq|].
    intros k' v' [[<- <-]|[Hne Hl]]%lookup_insert_Some; [lia|]. by rewrite lookup_empty in Hl.
Qed.

Lemma map_min_None m : map_min m = None <-> m = ∅.
Proof.
  pose proof (map_min_spec m) as Hm. split; intros E.
  - by rewrite E in Hm.
  - subst. destruct (map_min ∅) as [[k v]|]; [|done]. destruct Hm as [Hm _].
    by rewrite lookup_empty in Hm.
Qed.

Lemma map_min_Some m k v :
  map_min m = Some (k, v) -> m !! k = Some v /\ forall k' v', m !! k' = Some v' -> k <= k'.
Proof. intros E. pose proof (map_min_spec m) as Hm. by rewrite E in Hm. Qed.
End ordered_maps.

(** ** Strictly ordered lists *)

Section sorted_lists.
Context {A : Type}.
Implicit Types (R : relation A) (l : list A).

Lemma StronglySorted_filter (P : A -> Prop) `{!forall x, Decision (P x)} R l :
  StronglySorted R l -> StronglySorted R (filter P l).
Proof.
  induction 1 as [|x l Hl IH Hx]; [constructor|]. rewrite filter_cons.
  destruct (decide (P x)); [|done]. constructor; [done|].
  rewrite Forall_forall in *. intros y [_ Hy]%list_elem_of_filter. auto.
Qed.

Lemma StronglySorted_snoc R l x :
  StronglySorted R (l ++ [x]) <-> StronglySorted R l /\ Forall (fun y => R y x) l.
Proof.
  induction l as [|y l IH]; simpl.
  - split; [by split; constructor|]. intros _. repeat constructor.
  - rewrite !StronglySorted_cons, IH, Forall_app, !Forall_cons, Forall_nil. tauto.
Qed.

(** Only the order among the elements of the list matters. *)
Lemma StronglySorted_agree R1 R2 l :
  (forall x y, x ∈ l -> y ∈ l -> R1 x y -> R2 x y) -> StronglySorted R1 l -> StronglySorted R2 l.
Proof.
  intros HR Hs. induction Hs as [|x l Hl IH Hx]; constructor.
  - apply IH. intros. apply HR; [by constructor..|done].
  - rewrite Forall_forall in *. intros y Hy. apply HR; [by constructor..|auto].
Qed.

Lemma filter_agree (P Q : A -> Prop) `{!forall x, Decision (P x), !forall x, Decision (Q x)} l :
  (forall x, x ∈ l -> P x <-> Q x) -> filter P l = filter Q l.
Proof.
  induction l as [|x l IH]; intros HPQ; [done|]. rewrite !filter_cons, IH by (intros; apply HPQ; by constructor).
  destruct (HPQ x ltac:(constructor)). by repeat case_decide; try tauto.
Qed.

Lemma filter_all (P : A -> Prop) `{!forall x, Decision (P x)} l :
  (forall x, x ∈ l -> P x) -> filter P l = l.
Proof.
  induction l as [|x l IH]; intros Hl; [done|]. rewrite filter_cons_True by (apply Hl; constructor).
  f_equal. apply IH. intros. apply Hl. by constructor.
Qed.

Lemma filter_none (P : A -> Prop) `{!forall x, Decision (P x)} l :
  (forall x, x ∈ l -> ~ P x) -> filter P l = [].
Proof.
  induction l as [|x l IH]; intros Hl; [done|]. rewrite filter_cons_False by (apply Hl; constructor).
  apply IH. intros. apply Hl. by constructor.
Qed.
End sorted_lists.

(** ** Sums over a finite map

    [msum w m] adds [w] over the entries of [m]: what the holders recorded in
    [m] hold together. *)

Definition msum {K} `{Countable K} {A} (w : A -> Z) (m : gmap K A) : Z :=
  map_fold (fun _ a acc => w a + acc) 0 m.

Section map_sums.
Context {K} `{Countable K} {A : Type}.
Implicit Types (w v : A -> Z) (m : gmap K A).

Lemma msum_empty w : msum w (∅ : gmap K A) = 0.
Proof. apply map_fold_empty. Qed.

Lemma msum_new w m i x : m !! i = None -> msum w (<[i:=x]> m) = msum w m + w x.
Proof.
  intros Hw. unfold msum. rewrite map_fold_insert_L; [lia| |done]. intros. lia.
Qed.

Lemma msum_delete w m i x : m !! i = Some x -> msum w (delete i m) = msum w m - w x.
Proof.
  intros Hw. rewrite <- (insert_delete_id m i x Hw) at 2.
  rewrite msum_new; [lia|]. apply lookup_delete_eq.
Qed.

Lemma msum_update w m i y x :
  m !! i = Some y -> msum w (<[i:=x]> m) = msum w m - w y + w x.
Proof.
  intros Hw. rewrite <- insert_delete_eq, msum_new by apply lookup_delete_eq.
  by rewrite (msum_delete w m i y).
Qed.

Lemma msum_ind_le w v m :
  (forall i x, m !! i = Some x -> w x <= v x) -> msum w m <= msum v m.
Proof.
  induction m as [|i x m Hi IH] using map_ind; intros Hw; [by rewrite !msum_empty|].
  rewrite !msum_new by done.
  pose proof (Hw i x (lookup_insert_eq _ _ _)).
  assert (msum w m <= msum v m); [|lia].
  apply IH. intros j y Hj. apply (Hw j). rewrite lookup_insert_ne; congruence.
Qed.

Lemma msum_ext w v m : (forall i x, m !! i = Some x -> w x = v x) -> msum w m = msum v m.
Proof. intros Hw. apply Z.le_antisymm; apply msum_ind_le; intros i x Hi; by rewrite (Hw i x Hi). Qed.

Lemma msum_add w v m : msum (fun x => w x + v x) m = msum w m + msum v m.
Proof. induction m as [|i x m Hi IH] using map_ind; [by rewrite !msum_empty|]. rewrite !msum_new, IH by done. cbn beta. lia. Qed.

Lemma msum_nonneg w m : (forall i x, m !! i = Some x -> 0 <= w x) -> 0 <= msum w m.
Proof.
  induction m as [|i x m Hi IH] using map_ind; intros Hw; [by rewrite msum_empty|].
  rewrite msum_new by done. pose proof (Hw i x (lookup_insert_eq _ _ _)).
  assert (0 <= msum w m); [|lia]. apply IH. intros j y Hj. apply (Hw j). rewrite lookup_insert_ne; congruence.
Qed.

Lemma msum_member w m i x :
  (forall i x, m !! i = Some x -> 0 <= w x) -> m !! i = Some x -> w x <= msum w m.
Proof.
  intros Hw Hi. assert (0 <= msum w (delete i m)) as Hd.
  { apply msum_nonneg. intros j y Hj. apply lookup_delete_Some in Hj as [_ Hj]. eauto. }
  rewrite (msum_delete w m i x) in Hd; [lia|done].
Qed.

Lemma msum_zero w m : (forall i x, m !! i = Some x -> w x = 0) -> msum w m = 0.
Proof.
  induction m as [|i x m Hi IH] using map_ind; intros Hw; [by rewrite msum_empty|].
  rewrite msum_new, (Hw i x), IH; [done| |apply lookup_insert_eq|done].
  intros j y Hj. apply (Hw j). rewrite lookup_insert_ne; congruence.
Qed.

Lemma msum_count w m : (forall x, w x <= 1) -> msum w m <= Z.of_nat (size m).
Proof.
  intros Hw. induction m as [|i x m Hi IH] using map_ind; [by rewrite msum_empty|].
  rewrite msum_new, map_size_insert_None by done. specialize (Hw x). lia.
Qed.

(** How many entries satisfy a test. *)
Definition tally (f : A -> bool) m : Z := msum (fun a => if f a then 1 else 0) m.

Lemma tally_new f m i x : m !! i = None -> tally f (<[i:=x]> m) = tally f m + (if f x then 1 else 0).
Proof. apply msum_new. Qed.

Lemma tally_delete f m i x : m !! i = Some x -> tally f (delete i m) = tally f m - (if f x then 1 else 0).
Proof. apply msum_delete. Qed.

Lemma tally_bounds f m : 0 <= tally f m <= Z.of_nat (size m).
Proof. split; [apply msum_nonneg|apply msum_count]; intros; case_match; lia. Qed.

Lemma tally_member f m i x : m !! i = Some x -> f x = true -> 1 <= tally f m.
Proof.
  intros Hi Hx. pose proof (msum_member (fun a => if f a then 1 else 0) m i x) as Hm. cbn in Hm. rewrite Hx in Hm. apply Hm; [|done].
  intros. case_match; lia.
Qed.

Lemma tally_empty f : tally f (∅ : gmap K A) = 0.
Proof. apply msum_empty. Qed.

End map_sums.
