(* ===== verification/Ring.v ===== *)
(** * Ring storage

    Lists read and written modulo their length: the arithmetic behind
    [PacketFramer]'s wrapped [memcpy] pairs. *)

From S2P Require Import Prelude.

Local Open Scope Z_scope.

(** ** Rotations, for ring buffers *)

Definition rot {A} (h : Z) (l : list A) : list A := zdrop h l ++ ztake h l.

Section rotations.
Context {A : Type}.
Implicit Types l src dst : list A.

Lemma zlen_rot h l : zlen (rot h l) = zlen l.
Proof.
  unfold rot, zlen, zdrop, ztake. rewrite length_app, length_drop, length_take. lia.
Qed.

Lemma lookup_rot h l (i : nat) :
  (Z.to_nat h <= length l)%nat -> (i < length l)%nat ->
  rot h l !! i = l !! (if decide (Z.to_nat h + i < length l)%nat
                       then Z.to_nat h + i else Z.to_nat h + i - length l)%nat.
Proof.
  intros Hh Hi. unfold rot, zdrop, ztake. case_decide as Hd.
  - rewrite lookup_app_l by (rewrite length_drop; lia). by rewrite lookup_drop.
  - rewrite lookup_app_r by (rewrite length_drop; lia). rewrite length_drop.
    rewrite lookup_take_lt by lia. f_equal. lia.
Qed.

Lemma lookup_blit pos src dst (i : nat) :
  0 <= pos -> pos + zlen src <= zlen dst ->
  blit pos src dst !! i =
    if decide (Z.to_nat pos <= i < Z.to_nat pos + length src)%nat
    then src !! (i - Z.to_nat pos)%nat else dst !! i.
Proof.
  intros Hp Hl. unfold blit, zlen, ztake, zdrop in *.
  destruct (decide (i < Z.to_nat pos)%nat).
  - rewrite lookup_app_l by (rewrite length_take; lia).
    rewrite decide_False by lia. by apply lookup_take_lt.
  - rewrite lookup_app_r by (rewrite length_take; lia).
    rewrite length_take, Nat.min_l by lia. case_decide.
    + by rewrite lookup_app_l by lia.
    + rewrite lookup_app_r by lia. rewrite lookup_drop. f_equal. lia.
Qed.

Lemma rot_0 l : rot 0 l = l.
Proof. unfold rot, zdrop, ztake. simpl. by rewrite drop_0, app_nil_r. Qed.

(** Reading [len] elements at ring offset [o]. *)
Lemma slice_rot h o len l :
  0 <= h < zlen l -> 0 <= o -> 0 <= len -> o + len <= zlen l ->
  slice o (o + len) (rot h l) = ztake len (rot ((h + o) mod zlen l) l).
Proof.
  intros Hh Ho Hlen Hol. pose proof (Z.mod_pos_bound (h + o) (zlen l) ltac:(lia)) as Hm.
  assert ((h + o) mod zlen l = if decide (h + o < zlen l) then h + o else h + o - zlen l) as Hmod.
  { case_decide; [apply Z.mod_small; lia|].
    symmetry. apply (Z.mod_unique _ _ 1); lia. }
  apply list_eq_same_length with (n := Z.to_nat len).
  { unfold ztake. rewrite length_take. pose proof (zlen_rot ((h + o) mod zlen l) l).
    unfold zlen in *. lia. }
  { unfold slice, ztake, zdrop. rewrite length_take, length_drop.
    pose proof (zlen_rot h l). unfold zlen in *. lia. }
  intros i x y Hi. unfold slice, ztake, zdrop. rewrite !lookup_take_lt by lia.
  rewrite lookup_drop. unfold zlen in *. rewrite !lookup_rot by lia. intros H1 H2.
  assert (Some x = Some y) as ?; [|congruence]. rewrite <- H1, <- H2. f_equal.
  rewrite Hmod. repeat case_decide; lia.
Qed.

(** Writing behind the first [n] elements of a ring, in at most two segments. *)
Lemma rot_write h n src l :
  0 <= h < zlen l -> 0 <= n -> n + zlen src <= zlen l ->
  let tail := (h + n) mod zlen l in
  let first := Z.min (zlen src) (zlen l - tail) in
  rot h (blit 0 (zdrop first src) (blit tail (ztake first src) l)) = blit n src (rot h l).
Proof.
  intros Hh Hn Hl tail first. pose proof (Z.mod_pos_bound (h + n) (zlen l) ltac:(lia)) as Hm.
  fold tail in Hm. pose proof (zlen_nonneg src) as Hs.
  assert (tail = if decide (h + n < zlen l) then h + n else h + n - zlen l) as Ht.
  { unfold tail. case_decide; [apply Z.mod_small; lia|].
    symmetry. apply (Z.mod_unique _ _ 1); lia. }
  assert (zlen (ztake first src) = first) as H1.
  { unfold first, zlen, ztake in *. rewrite length_take. lia. }
  assert (zlen (zdrop first src) = zlen src - first) as H2.
  { unfold first, zlen, zdrop in *. rewrite length_drop. lia. }
  assert (zlen (blit tail (ztake first src) l) = zlen l) as H3.
  { apply zlen_blit; [lia|]. rewrite H1. unfold first. lia. }
  assert (zlen (blit 0 (zdrop first src) (blit tail (ztake first src) l)) = zlen l) as H4.
  { rewrite zlen_blit; [done|lia|]. rewrite H2, H3. unfold first. lia. }
  apply list_eq_same_length with (n := length l).
  { pose proof (zlen_blit n src (rot h l) Hn ltac:(rewrite zlen_rot; lia)) as Hb.
    rewrite zlen_rot in Hb. unfold zlen in Hb. lia. }
  { pose proof (zlen_rot h (blit 0 (zdrop first src) (blit tail (ztake first src) l))) as Hb.
    unfold zlen in *. lia. }
  intros i x y Hi. unfold zlen in H1, H2, H3, H4.
  rewrite lookup_rot by (unfold zlen in *; lia).
  rewrite lookup_blit by (unfold zlen in *; lia).
  rewrite lookup_blit by (unfold zlen in *; lia).
  rewrite lookup_blit by (rewrite ?zlen_rot; unfold zlen in *; lia).
  rewrite lookup_rot by (unfold zlen in *; lia).
  replace (length (blit 0 (zdrop first src) (blit tail (ztake first src) l)))
    with (length l) by lia.
  intros Hx Hy. assert (Some x = Some y) as ?; [|congruence]. rewrite <- Hx, <- Hy.
  unfold first, zlen, ztake, zdrop in *. rewrite Ht in *.
  repeat case_decide; try lia; rewrite ?lookup_drop, ?lookup_take_lt by lia; f_equal; lia.
Qed.
End rotations.
