(* ===== verification/Buffer.v ===== *)
(** * The connection byte buffer

    Model of [gamenet::net::Buffer] (include/gamenet/core/net/Buffer.h and
    src/core/net/Buffer.cc): one contiguous vector with a cheap-prepend region,
    the readable bytes between [readerIndex_] and [writerIndex_], and the
    bounded-retention policy that replaces an oversized vector once the
    readable bytes have fallen to the trim threshold.  The specification is a
    byte queue: [contents]. *)

From S2P Require Import Prelude.

Local Open Scope Z_scope.

(** ** State *)

Record BufferRetentionOptions := {
  maxRetainedCapacityBytes : Z;
  trimThresholdBytes : Z;
}.

Definition kCheapPrepend : Z := 8.
Definition kInitialSize : Z := 1024.

Record Buffer := mkBuffer {
  retentionOptions_ : BufferRetentionOptions;
  buffer_ : vec;
  readerIndex_ : Z;
  writerIndex_ : Z;
  peakRetainedCapacityBytes_ : Z;
  trimCount_ : Z;
  trimArmed_ : bool;
}.

Record BufferRetentionSnapshot := {
  retainedCapacityBytes : Z;
  peakRetainedCapacityBytes : Z;
  trimCount : Z;
  trimArmed : bool;
}.

Definition set_storage (v : vec) (b : Buffer) : Buffer :=
  mkBuffer (retentionOptions_ b) v (readerIndex_ b) (writerIndex_ b)
    (peakRetainedCapacityBytes_ b) (trimCount_ b) (trimArmed_ b).
Definition set_indexes (r w : Z) (b : Buffer) : Buffer :=
  mkBuffer (retentionOptions_ b) (buffer_ b) r w
    (peakRetainedCapacityBytes_ b) (trimCount_ b) (trimArmed_ b).
Definition set_retention (peak count : Z) (armed : bool) (b : Buffer) : Buffer :=
  mkBuffer (retentionOptions_ b) (buffer_ b) (readerIndex_ b) (writerIndex_ b)
    peak count armed.

(** ** Observers *)

Definition readableBytes (b : Buffer) : Z := writerIndex_ b ⊖ readerIndex_ b.
Definition writableBytes (b : Buffer) : Z := vsize (buffer_ b) ⊖ writerIndex_ b.
Definition prependableBytes (b : Buffer) : Z := readerIndex_ b.

Definition retentionSnapshot (b : Buffer) : BufferRetentionSnapshot :=
  {| retainedCapacityBytes := vcap (buffer_ b);
     peakRetainedCapacityBytes := peakRetainedCapacityBytes_ b;
     trimCount := trimCount_ b;
     trimArmed := trimArmed_ b |}.

(** ** Operations *)

Section operations.
Context `{Allocator}.

Definition validate (o : BufferRetentionOptions) : result unit :=
  if maxRetainedCapacityBytes o <? kCheapPrepend + kInitialSize
  then Throw invalid_argument
  else if (maxRetainedCapacityBytes o ⊖ kCheapPrepend) <? trimThresholdBytes o
  then Throw invalid_argument
  else Ok tt.

Definition Buffer_new (o : BufferRetentionOptions) : result Buffer :=
  match vec_new (kCheapPrepend + kInitialSize) with
  | Throw e => Throw e
  | Ok v =>
      match validate o with
      | Throw e => Throw e
      | Ok _ => Ok (mkBuffer o v kCheapPrepend kCheapPrepend (vcap v) 0 false)
      end
  end.

(** The body of the [try] block: everything it does before the [swap] works
    on the local vector, so an exception leaves the buffer as it was. *)
Definition trimRetainedCapacity : M Buffer bool := fun b =>
  if negb (trimArmed_ b) || (trimThresholdBytes (retentionOptions_ b) <? readableBytes b)
  then (Ok false, b)
  else
    let target := maxRetainedCapacityBytes (retentionOptions_ b) in
    match vec_new target with
    | Throw _ => (Ok false, b)
    | Ok trimmed =>
        let readable := readableBytes b in
        let copied :=
          if readable =? 0 then Ok trimmed
          else match vec_read (buffer_ b) (readerIndex_ b) (writerIndex_ b) with
               | Ok bytes => vec_write trimmed kCheapPrepend bytes
               | Throw e => Throw e
               end in
        match copied with
        | Throw e => (Throw e, b)
        | Ok v =>
            (Ok true,
             set_retention (peakRetainedCapacityBytes_ b) (trimCount_ b ⊕ 1)
               (target <? vcap v)
               (set_indexes kCheapPrepend (kCheapPrepend ⊕ readable) (set_storage v b)))
        end
    end.

Definition updateRetentionState : M Buffer unit :=
  modify (fun b =>
    set_retention (Z.max (peakRetainedCapacityBytes_ b) (vcap (buffer_ b))) (trimCount_ b)
      (if maxRetainedCapacityBytes (retentionOptions_ b) <? vcap (buffer_ b)
       then true else trimArmed_ b) b).

(** [std::copy] onto the same vector: undefined when the destination starts
    inside the source range. *)
Definition compact : M Buffer unit :=
  do b <- get ;;
  let readable := readableBytes b in
  run throw_if ((readerIndex_ b <=? kCheapPrepend) && (kCheapPrepend <? writerIndex_ b))
        undefined_behaviour ;;
  do bytes <- lift (vec_read (buffer_ b) (readerIndex_ b) (writerIndex_ b)) ;;
  do v <- lift (vec_write (buffer_ b) kCheapPrepend bytes) ;;
  modify (fun b => set_indexes kCheapPrepend (kCheapPrepend ⊕ readable) (set_storage v b)).

Definition makeSpace (len : Z) : M Buffer unit :=
  do b <- get ;;
  if ((writableBytes b ⊕ prependableBytes b) ⊖ kCheapPrepend) <? len then
    do v <- lift (vec_resize (buffer_ b) (writerIndex_ b ⊕ len)) ;;
    run modify (set_storage v) ;;
    updateRetentionState
  else compact.

Definition ensureWritableBytes (len : Z) : M Buffer unit :=
  do b <- get ;;
  if writableBytes b <? len then makeSpace len else ret tt.

Definition hasWritten (len : Z) : M Buffer unit :=
  do b <- get ;;
  run throw_if (writableBytes b <? len) out_of_range ;;
  modify (fun b => set_indexes (readerIndex_ b) (writerIndex_ b ⊕ len) b).

Definition retrieveAll : M Buffer unit :=
  run modify (set_indexes kCheapPrepend kCheapPrepend) ;;
  run trimRetainedCapacity ;;
  ret tt.

Definition retrieve (len : Z) : M Buffer unit :=
  do b <- get ;;
  if len <? readableBytes b then
    run modify (fun b => set_indexes (readerIndex_ b ⊕ len) (writerIndex_ b) b) ;;
    run trimRetainedCapacity ;;
    ret tt
  else retrieveAll.

(** [end_] is the pointer as an offset from [begin()]. *)
Definition retrieveUntil (end_ : Z) : M Buffer unit :=
  do b <- get ;;
  let first := readerIndex_ b in
  let last := readerIndex_ b + readableBytes b in
  run throw_if ((end_ <? first) || (last <? end_)) out_of_range ;;
  retrieve (end_ - first).

Definition retrieveAsString (len : Z) : M Buffer (list byte) :=
  do b <- get ;;
  let len := Z.min len (readableBytes b) in
  do bytes <- lift (vec_read (buffer_ b) (readerIndex_ b) (readerIndex_ b + len)) ;;
  run retrieve len ;;
  ret bytes.

Definition retrieveAllAsString : M Buffer (list byte) :=
  do b <- get ;; retrieveAsString (readableBytes b).

(** [append(const char* data, size_t len)]; [None] is the null pointer. *)
Definition append (data : option (list byte)) (len : Z) : M Buffer unit :=
  if len =? 0 then ret tt
  else match data with
  | None => throw invalid_argument
  | Some bytes =>
      run throw_if (zlen bytes <? len) undefined_behaviour ;;
      run ensureWritableBytes len ;;
      do b <- get ;;
      do v <- lift (vec_write (buffer_ b) (writerIndex_ b) (ztake len bytes)) ;;
      run modify (set_storage v) ;;
      hasWritten len
  end.

(** The [std::string_view] and [std::string] overloads. *)
Definition append_string (data : list byte) : M Buffer unit :=
  append (Some data) (zlen data).

(** The result of [readFd]: the [ssize_t] return value and the errno stored. *)
Definition io_result : Type := Z * option Z.

(** POSIX: scatter into the writable region and a 64 KiB stack buffer.
    [readv total] is what the kernel delivers into [total] bytes of iovecs. *)
Definition readFd (savedErrno : bool) (maxReadBytes : Z)
    (readv : Z -> sys_result (list byte)) : M Buffer io_result :=
  run throw_if (negb savedErrno) invalid_argument ;;
  if maxReadBytes =? 0 then ret (0, None)
  else
    do b <- get ;;
    let writable := Z.min (writableBytes b) maxReadBytes in
    let extra := Z.min 65536 (maxReadBytes ⊖ writable) in
    match readv (writable + (if 0 <? extra then extra else 0)) with
    | SysErr e => ret (-1, Some e)
    | SysOk data =>
        let n := zlen data in
        do v <- lift (vec_write (buffer_ b) (writerIndex_ b) (ztake writable data)) ;;
        run modify (set_storage v) ;;
        if n <=? writable then
          run modify (fun b => set_indexes (readerIndex_ b) (writerIndex_ b ⊕ n) b) ;;
          ret (n, None)
        else
          run modify (fun b => set_indexes (readerIndex_ b) (vsize (buffer_ b)) b) ;;
          run append (Some (zdrop writable data)) (n ⊖ writable) ;;
          ret (n, None)
    end.

(** Windows: make room for one read of at most 64 KiB. *)
Definition readFd_win (savedErrno : bool) (maxReadBytes : Z)
    (read : Z -> sys_result (list byte)) : M Buffer io_result :=
  run throw_if (negb savedErrno) invalid_argument ;;
  if maxReadBytes =? 0 then ret (0, None)
  else
    let readLimit := Z.min 65536 maxReadBytes in
    run ensureWritableBytes readLimit ;;
    do b <- get ;;
    match read readLimit with
    | SysErr e => ret (-1, Some e)
    | SysOk data =>
        do v <- lift (vec_write (buffer_ b) (writerIndex_ b) data) ;;
        run modify (set_storage v) ;;
        run modify (fun b => set_indexes (readerIndex_ b) (writerIndex_ b ⊕ zlen data) b) ;;
        ret (zlen data, None)
    end.

(** [writeFd] hands the readable bytes to the kernel and consumes nothing. *)
Definition writeFd (savedErrno : bool)
    (write : list byte -> sys_result Z) : M Buffer io_result :=
  run throw_if (negb savedErrno) invalid_argument ;;
  do b <- get ;;
  do bytes <- lift (vec_read (buffer_ b) (readerIndex_ b)
                      (readerIndex_ b + readableBytes b)) ;;
  match write bytes with
  | SysErr e => ret (-1, Some e)
  | SysOk n => ret (n, None)
  end.
End operations.

(** ** Specification

    [contents] is the abstraction: the readable bytes, oldest first. *)

Definition contents (b : Buffer) : list byte :=
  slice (readerIndex_ b) (writerIndex_ b) (vdata (buffer_ b)).

Definition options_ok (o : BufferRetentionOptions) : Prop :=
  kCheapPrepend + kInitialSize <= maxRetainedCapacityBytes o < usize_lim /\
  0 <= trimThresholdBytes o <= maxRetainedCapacityBytes o - kCheapPrepend.

Record buf_ok (b : Buffer) : Prop := {
  ok_options : options_ok (retentionOptions_ b);
  ok_storage : vec_ok (buffer_ b);
  ok_indexes : kCheapPrepend <= readerIndex_ b <= writerIndex_ b;
  ok_writer : writerIndex_ b <= vsize (buffer_ b);
  ok_armed : trimArmed_ b = true ->
    maxRetainedCapacityBytes (retentionOptions_ b) < vcap (buffer_ b);
}.

(** The arithmetic content of [buf_ok], for [lia]. *)
Ltac buf_facts :=
  repeat match goal with
  | H : buf_ok ?b |- _ =>
      first_time b;
      let Ho := fresh "Ho" in let Hs := fresh "Hs" in let Hi := fresh "Hidx" in
      let Hw := fresh "Hwr" in let Ha := fresh "Harm" in
      pose proof (ok_options b H) as Ho; pose proof (ok_storage b H) as Hs;
      pose proof (ok_indexes b H) as Hi; pose proof (ok_writer b H) as Hw;
      pose proof (ok_armed b H) as Ha;
      unfold options_ok in Ho; unfold vec_ok in Hs
  end; clear_seen; unfold kCheapPrepend, kInitialSize in *.

Section buffer_lemmas.
Context `{Allocator}.

Lemma readableBytes_eq b : buf_ok b -> readableBytes b = writerIndex_ b - readerIndex_ b.
Proof. intros. unfold readableBytes. buf_facts. by unwrap. Qed.

Lemma writableBytes_eq b : buf_ok b -> writableBytes b = vsize (buffer_ b) - writerIndex_ b.
Proof. intros. unfold writableBytes. buf_facts. by unwrap. Qed.

Lemma zlen_contents b : buf_ok b -> zlen (contents b) = writerIndex_ b - readerIndex_ b.
Proof. intros. buf_facts. unfold contents. apply zlen_slice; unfold vsize in *; lia. Qed.

Lemma set_indexes_ok b r w :
  buf_ok b -> kCheapPrepend <= r <= w -> w <= vsize (buffer_ b) -> buf_ok (set_indexes r w b).
Proof. intros [] ??. by constructor. Qed.

Lemma set_storage_ok b v :
  buf_ok b -> vcap v = vcap (buffer_ b) -> vsize v = vsize (buffer_ b) ->
  buf_ok (set_storage v b).
Proof.
  intros [] Hc Hs. constructor; simpl; rewrite ?Hc, ?Hs; try done.
  unfold vec_ok in *. by rewrite Hc, Hs.
Qed.

(** Trimming never throws; a failed trim changes nothing, a successful one
    replaces the storage and keeps the readable bytes. *)
Lemma trim_spec b :
  buf_ok b ->
  exists r b', trimRetainedCapacity b = (Ok r, b') /\ buf_ok b' /\
    contents b' = contents b /\
    retentionOptions_ b' = retentionOptions_ b /\
    (r = false -> b' = b) /\
    (r = true -> vsize (buffer_ b') = maxRetainedCapacityBytes (retentionOptions_ b) /\
                 vcap (buffer_ b') = fresh_cap (maxRetainedCapacityBytes (retentionOptions_ b)) /\
                 trimCount_ b' = trimCount_ b ⊕ 1) /\
    (trimArmed_ b = true -> zlen (contents b) <= trimThresholdBytes (retentionOptions_ b) ->
     alloc_ok (maxRetainedCapacityBytes (retentionOptions_ b)) = true -> r = true).
Proof.
  intros Hb. unfold trimRetainedCapacity.
  destruct (_ || _) eqn:E.
  { exists false, b. split_and!; try done. intros Ha Hc _. rewrite Ha in E. simpl in E.
    rewrite readableBytes_eq in E by done. rewrite zlen_contents in Hc by done.
    zify_bools. lia. }
  zify_bools.
  destruct (vec_new _) as [trimmed|e] eqn:Hnew.
  2: { exists false, b. split_and!; try done. intros _ _ Hal. unfold vec_new in Hnew.
       rewrite Hal in Hnew. pose proof (alloc_ok_max _ Hal). case_if; [lia|done]. }
  rewrite readableBytes_eq in * by done.
  pose proof (zlen_contents b Hb) as Hlen. buf_facts.
  destruct (vec_new_ok (maxRetainedCapacityBytes (retentionOptions_ b)) trimmed
    ltac:(lia) Hnew) as (Hsz & Hcap & Hvok).
  rewrite vec_read_ok by lia.
  assert (exists v, (if writerIndex_ b - readerIndex_ b =? 0 then Ok trimmed
            else vec_write trimmed 8 (contents b)) = Ok v /\
            vsize v = vsize trimmed /\ vcap v = vcap trimmed /\
            slice 8 (8 + (writerIndex_ b - readerIndex_ b)) (vdata v) = contents b)
    as (v & Hv & Hvs & Hvc & Hsl).
  { destruct (Z.eqb_spec (writerIndex_ b - readerIndex_ b) 0) as [E0|E0].
    - exists trimmed. split_and!; try done.
      rewrite (zlen_nil_inv (contents b)) by lia. rewrite E0. apply slice_empty.
    - rewrite vec_write_ok by lia. eexists; split_and!; [done| |done|]; unfold vsize; simpl.
      + apply zlen_blit; unfold vsize in *; lia.
      + rewrite <- Hlen. apply slice_blit_in; unfold vsize in *; lia. }
  unfold contents at 1 in Hv. rewrite Hv.
  eexists true, _. split; [done|].
  pose proof (uwrap_small (8 + (writerIndex_ b - readerIndex_ b)) ltac:(lia)) as Hw.
  split_and!; try done.
  - constructor; simpl; rewrite ?Hw, ?Hvs, ?Hvc; try done; unfold kCheapPrepend;
      [by unfold vec_ok in *; rewrite Hvs, Hvc | lia | lia |].
    intros ?. zify_bools. done.
  - unfold contents; simpl. rewrite Hw. apply Hsl.
  - intros _. simpl. rewrite Hvs, Hvc. by split_and!.
Qed.

Lemma grow_spec b len v :
  buf_ok b -> vsize (buffer_ b) < writerIndex_ b + len ->
  vec_resize (buffer_ b) (writerIndex_ b + len) = Ok v ->
  let b' := snd (updateRetentionState (set_storage v b)) in
  buf_ok b' /\ contents b' = contents b /\ vsize (buffer_ b') = writerIndex_ b + len.
Proof.
  intros Hb Hn Hv b'. unfold b', updateRetentionState, contents. step_m. simpl.
  destruct (vec_resize_grow _ _ _ (ok_storage b Hb) Hn Hv) as (Hs & Hok & Hd & Hc).
  buf_facts. split_and!; [|rewrite Hd; apply slice_app_l; unfold vsize in *; lia|done].
  constructor; simpl; try done; unfold kCheapPrepend; try lia.
  case_if; [done|]. intros Ha. specialize (Harm Ha). lia.
Qed.

Lemma compact_spec b :
  buf_ok b -> kCheapPrepend < readerIndex_ b ->
  exists b', compact b = (Ok tt, b') /\ buf_ok b' /\ contents b' = contents b /\
    retentionOptions_ b' = retentionOptions_ b /\
    vsize (buffer_ b') = vsize (buffer_ b) /\ trimArmed_ b' = trimArmed_ b /\
    writerIndex_ b' = kCheapPrepend + (writerIndex_ b - readerIndex_ b).
Proof.
  intros Hb Hr. pose proof (zlen_contents b Hb) as Hlen. buf_facts.
  unfold compact. step_m. unfold kCheapPrepend.
  rewrite (proj2 (Z.leb_gt (readerIndex_ b) 8)) by lia. simpl.
  rewrite vec_read_ok by lia. fold (contents b).
  rewrite vec_write_ok by lia. rewrite readableBytes_eq by done. unwrap.
  eexists. split; [done|].
  assert (zlen (blit 8 (contents b) (vdata (buffer_ b))) = zlen (vdata (buffer_ b))) as Hz.
  { apply zlen_blit; unfold vsize in *; lia. }
  split_and!; try done.
  - apply set_indexes_ok; [apply set_storage_ok; done|unfold kCheapPrepend; lia|].
    unfold vsize in *. simpl. lia.
  - unfold contents at 1. simpl. rewrite <- Hlen.
    apply slice_blit_in; unfold vsize in *; lia.
Qed.

Lemma makeSpace_spec b len :
  buf_ok b -> writableBytes b < len <= ptrdiff_max ->
  exists r b', makeSpace len b = (r, b') /\ buf_ok b' /\ contents b' = contents b /\
    match r with
    | Ok _ => len <= writableBytes b'
    | Throw e => (e = length_error \/ e = bad_alloc) /\ b' = b
    end.
Proof.
  intros Hb Hl. unfold makeSpace, prependableBytes. step_m.
  rewrite writableBytes_eq in * by done. buf_facts.
  rewrite (uwrap_small (vsize (buffer_ b) - _ + _)) by lia.
  rewrite (uwrap_small (_ - 8)) by lia.
  case_if.
  - rewrite (uwrap_small (writerIndex_ b + len)) by lia.
    destruct (vec_resize _ _) as [v|e] eqn:Hv.
    + destruct (grow_spec b len v Hb ltac:(lia) Hv) as (Hb' & Hc & Hs').
      exists (Ok tt), (updateRetentionState (set_storage v b)).2.
      split_and!; [done..|].
      rewrite writableBytes_eq by done. rewrite Hs'. simpl. lia.
    + eexists _, _. split; [done|]. split_and!; try done. by eapply vec_resize_throw.
  - destruct (compact_spec b Hb ltac:(unfold kCheapPrepend; lia))
      as (b' & Hr & Hb' & Hc & _ & Hs' & _ & Hw).
    exists (Ok tt), b'. split_and!; try done.
    rewrite writableBytes_eq by done. unfold kCheapPrepend in *. lia.
Qed.

Lemma ensureWritable_spec b len :
  buf_ok b -> 0 <= len <= ptrdiff_max ->
  exists r b', ensureWritableBytes len b = (r, b') /\ buf_ok b' /\
    contents b' = contents b /\
    match r with
    | Ok _ => len <= writableBytes b'
    | Throw e => (e = length_error \/ e = bad_alloc) /\ b' = b
    end.
Proof.
  intros Hb Hl. unfold ensureWritableBytes. step_m. case_if.
  - apply makeSpace_spec; [done | lia].
  - by exists (Ok tt), b.
Qed.

Lemma hasWritten_ok b len :
  0 <= len <= writableBytes b -> is_usize (writerIndex_ b + len) ->
  hasWritten len b = (Ok tt, set_indexes (readerIndex_ b) (writerIndex_ b + len) b).
Proof.
  intros Hl Hu. unfold hasWritten, is_usize in *. step_m.
  rewrite (proj2 (Z.ltb_ge _ _)) by lia. by unwrap.
Qed.

(** [b] after [memcpy(beginWrite(), src, size)]. *)
Definition written (src : list byte) (b : Buffer) : Buffer :=
  set_storage (Vec (blit (writerIndex_ b) src (vdata (buffer_ b))) (vcap (buffer_ b))) b.

(** Bytes written at [writerIndex_] and then published. *)
Lemma write_publish_ok b src :
  buf_ok b -> zlen src <= writableBytes b ->
  let b' := set_indexes (readerIndex_ b) (writerIndex_ b + zlen src) (written src b) in
  vec_write (buffer_ b) (writerIndex_ b) src = Ok (buffer_ (written src b)) /\
  vsize (buffer_ (written src b)) = vsize (buffer_ b) /\
  hasWritten (zlen src) (written src b) = (Ok tt, b') /\
  buf_ok b' /\ contents b' = contents b ++ src.
Proof.
  intros Hb Hl b'. rewrite writableBytes_eq in Hl by done.
  pose proof (zlen_nonneg src). buf_facts.
  assert (vsize (buffer_ (written src b)) = vsize (buffer_ b)) as Hz.
  { unfold vsize. simpl. apply zlen_blit; unfold vsize in *; lia. }
  assert (buf_ok (written src b)) as Hok by (apply set_storage_ok; done).
  split_and!; [apply vec_write_ok; lia | done | | |].
  - rewrite hasWritten_ok; [done| |unfold is_usize; simpl; lia].
    rewrite writableBytes_eq by done. rewrite Hz. simpl. lia.
  - apply set_indexes_ok; [done|unfold kCheapPrepend; lia|]. lia.
  - unfold b', contents. simpl. apply slice_blit_append; unfold vsize in *; lia.
Qed.

(** Appending either extends the readable bytes by exactly the input, or
    fails to allocate and leaves them alone. *)
Lemma append_spec b bytes len :
  buf_ok b -> zlen bytes = len -> len <= ptrdiff_max ->
  exists r b', append (Some bytes) len b = (r, b') /\ buf_ok b' /\
    match r with
    | Ok _ => contents b' = contents b ++ bytes
    | Throw e => (e = length_error \/ e = bad_alloc) /\ b' = b
    end.
Proof.
  intros Hb Hlen Hm. pose proof (zlen_nonneg bytes). unfold append.
  destruct (Z.eqb_spec len 0) as [E0|E0].
  { exists (Ok tt), b. split_and!; [done..|].
    rewrite (zlen_nil_inv bytes) by lia. by rewrite app_nil_r. }
  step_m. rewrite (proj2 (Z.ltb_ge (zlen bytes) len)) by lia.
  destruct (ensureWritable_spec b len Hb ltac:(lia)) as (r & b1 & Hr & Hb1 & Hc1 & Hpost).
  rewrite Hr. destruct r as [[]|e]; [|by exists (Throw e), b1].
  rewrite <- Hlen in *. unfold ztake, zlen. rewrite Nat2Z.id, take_ge by done.
  destruct (write_publish_ok b1 bytes Hb1 Hpost) as (Hw & _ & Hp & Hb' & Hc').
  rewrite Hw. eexists (Ok tt), _. split; [exact Hp|]. split; [exact Hb'|].
  by rewrite Hc', Hc1.
Qed.

(** Consuming [n] bytes drops exactly the first [n] readable ones. *)
Lemma retrieve_spec b n :
  buf_ok b -> 0 <= n ->
  exists b', retrieve n b = (Ok tt, b') /\ buf_ok b' /\ contents b' = zdrop n (contents b).
Proof.
  intros Hb Hn. pose proof (zlen_contents b Hb) as Hlen.
  unfold retrieve, retrieveAll. step_m. rewrite readableBytes_eq by done. buf_facts. case_if.
  - rewrite (uwrap_small (readerIndex_ b + n)) by lia.
    assert (buf_ok (set_indexes (readerIndex_ b + n) (writerIndex_ b) b)) as Hok.
    { apply set_indexes_ok; unfold kCheapPrepend; [done|lia|lia]. }
    destruct (trim_spec _ Hok) as (r & b' & Ht & Hb' & Hc & _).
    rewrite Ht. exists b'. split_and!; [done..|]. rewrite Hc. unfold contents at 1. simpl.
    unfold contents. rewrite zdrop_slice; unfold vsize in *; [done|lia..].
  - assert (buf_ok (set_indexes kCheapPrepend kCheapPrepend b)) as Hok.
    { apply set_indexes_ok; unfold kCheapPrepend; [done|lia|lia]. }
    destruct (trim_spec _ Hok) as (r & b' & Ht & Hb' & Hc & _).
    unfold kCheapPrepend in *. rewrite Ht. exists b'. split_and!; [done..|].
    rewrite Hc. unfold contents at 1. simpl. rewrite slice_empty.
    unfold zdrop. symmetry. apply drop_ge. unfold zlen in Hlen. lia.
Qed.

(** What the kernel may do with [total] bytes of room. *)
Definition read_contract (read : Z -> sys_result (list byte)) : Prop :=
  forall total data, 0 <= total -> read total = SysOk data -> zlen data <= total.

(** The room [readFd] offers the kernel. *)
Definition read_room (b : Buffer) (maxReadBytes : Z) : Z :=
  let writable := Z.min (vsize (buffer_ b) - writerIndex_ b) maxReadBytes in
  writable + Z.min 65536 (maxReadBytes - writable).

Definition read_post (b b' : Buffer) (sys : sys_result (list byte))
    (r : result io_result) : Prop :=
  match sys, r with
  | SysErr e, Ok (n, errno) => n = -1 /\ errno = Some e /\ contents b' = contents b
  | SysOk data, Ok (n, errno) =>
      n = zlen data /\ errno = None /\ contents b' = contents b ++ data
  | SysOk data, Throw e =>
      (e = length_error \/ e = bad_alloc) /\
      exists k, contents b' = contents b ++ ztake k data
  | SysErr _, Throw _ => False
  end.

(** Data that overflows the writable region goes through the stack buffer. *)
Lemma readFd_spill b data :
  buf_ok b -> 0 <= zlen data - (vsize (buffer_ b) - writerIndex_ b) <= ptrdiff_max ->
  let w := vsize (buffer_ b) - writerIndex_ b in
  let b1 := set_indexes (readerIndex_ b) (vsize (buffer_ b)) (written (ztake w data) b) in
  exists r b', append (Some (zdrop w data)) (zlen data - w) b1 = (r, b') /\ buf_ok b' /\
    match r with
    | Ok _ => contents b' = contents b ++ data
    | Throw e => (e = length_error \/ e = bad_alloc) /\
                 contents b' = contents b ++ ztake w data
    end.
Proof.
  intros Hb Hl w b1. fold w in Hl. assert (0 <= w) by (unfold w; buf_facts; lia).
  assert (zlen (ztake w data) = w) as Hz.
  { unfold zlen, ztake in *. rewrite length_take. lia. }
  assert (zlen (zdrop w data) = zlen data - w) as Hz2.
  { unfold zlen, zdrop in *. rewrite length_drop. lia. }
  destruct (write_publish_ok b (ztake w data) Hb) as (_ & _ & _ & Hb1 & Hc1).
  { rewrite writableBytes_eq by done. unfold w in *. lia. }
  rewrite Hz in Hb1, Hc1. replace (writerIndex_ b + w) with (vsize (buffer_ b)) in Hb1, Hc1
    by (unfold w; lia). fold b1 in Hb1, Hc1.
  destruct (append_spec b1 (zdrop w data) (zlen data - w) Hb1 Hz2 ltac:(lia))
    as (r & b' & Hr & Hb' & Hpost).
  exists r, b'. split_and!; [done..|]. destruct r as [[]|e].
  - rewrite Hpost, Hc1, <- app_assoc. f_equal. unfold ztake, zdrop. apply take_drop.
  - destruct Hpost as [? ->]. by rewrite Hc1.
Qed.

Lemma readFd_spec b maxRead readv :
  buf_ok b -> 0 < maxRead < usize_lim -> read_contract readv ->
  exists r b', readFd true maxRead readv b = (r, b') /\ buf_ok b' /\
    read_post b b' (readv (read_room b maxRead)) r.
Proof.
  intros Hb Hm Hos. unfold readFd, read_post. step_m. simpl.
  rewrite (proj2 (Z.eqb_neq maxRead 0)) by lia. rewrite writableBytes_eq by done.
  set (w := Z.min (vsize (buffer_ b) - writerIndex_ b) maxRead).
  assert (0 <= w <= maxRead) by (unfold w; buf_facts; lia).
  rewrite (uwrap_small (maxRead - w)) by lia.
  assert (w + (if 0 <? Z.min 65536 (maxRead - w) then Z.min 65536 (maxRead - w) else 0)
    = read_room b maxRead) as -> by (unfold read_room, w in *; case_if; lia).
  destruct (readv _) as [data|e] eqn:Hread;
    [|by eexists (Ok _), b; split_and!].
  assert (0 <= read_room b maxRead) as Hroom by (unfold read_room; fold w; lia).
  pose proof (Hos _ _ Hroom Hread) as Hn. unfold read_room in Hn. fold w in Hn.
  pose proof (zlen_nonneg data).
  assert (zlen (ztake w data) = Z.min w (zlen data)) as Hz.
  { unfold zlen, ztake in *. rewrite length_take. lia. }
  destruct (write_publish_ok b (ztake w data) Hb) as (Hw & Hs & _ & Hb1 & Hc1).
  { rewrite writableBytes_eq by done. unfold w in *. lia. }
  rewrite Hw. buf_facts. case_if.
  - rewrite Z.min_r in Hz by lia. rewrite Hz in Hb1, Hc1.
    unfold ztake in Hb1, Hc1. rewrite take_ge in Hb1, Hc1 by (unfold zlen in *; lia).
    eexists (Ok _), _. split; [done|]. unfold set_storage; simpl.
    rewrite (uwrap_small (writerIndex_ b + zlen data)) by lia.
    unfold ztake. rewrite take_ge by (unfold zlen in *; lia). by split_and!.
  - assert (w = vsize (buffer_ b) - writerIndex_ b) as Ew by (unfold w in *; lia).
    rewrite (uwrap_small (zlen data - w)) by lia.
    change (set_storage (buffer_ (written (ztake w data) b)) b) with (written (ztake w data) b).
    rewrite Hs. simpl readerIndex_. rewrite Ew.
    destruct (readFd_spill b data Hb ltac:(lia)) as (r & b' & Hr & Hb' & Hpost).
    rewrite Hr. destruct r as [[]|e].
    + eexists (Ok _), b'. by split_and!.
    + exists (Throw e), b'. destruct Hpost. split_and!; eauto.
Qed.
End buffer_lemmas.

(** ** Refinement: a buffer is a byte queue *)

Inductive buf_op :=
  | OpAppend (data : list byte)
  | OpEnsureWritable (len : Z)
  | OpRetrieve (len : Z)
  | OpRetrieveUntil (offset : Z)
  | OpRetrieveAll
  | OpRetrieveAsString (len : Z)
  | OpTrim.

(** Arguments a caller can produce: no object is larger than [PTRDIFF_MAX]. *)
Definition op_ok (o : buf_op) : Prop :=
  match o with
  | OpAppend data => zlen data <= ptrdiff_max
  | OpEnsureWritable len => 0 <= len <= ptrdiff_max
  | OpRetrieve len | OpRetrieveAsString len => 0 <= len
  | _ => True
  end.

(** One step of the byte queue [q]: the bytes returned, or an exception that
    leaves the queue alone. *)
Inductive queue_step (q : list byte) : buf_op -> result (list byte) -> list byte -> Prop :=
  | QAppend data : queue_step q (OpAppend data) (Ok []) (q ++ data)
  | QEnsure len : queue_step q (OpEnsureWritable len) (Ok []) q
  | QRetrieve len : queue_step q (OpRetrieve len) (Ok []) (zdrop len q)
  | QRetrieveUntil off : 0 <= off <= zlen q ->
      queue_step q (OpRetrieveUntil off) (Ok []) (zdrop off q)
  | QRetrieveUntilOut off : ~ (0 <= off <= zlen q) ->
      queue_step q (OpRetrieveUntil off) (Throw out_of_range) q
  | QRetrieveAll : queue_step q OpRetrieveAll (Ok []) []
  | QRetrieveAsString len :
      queue_step q (OpRetrieveAsString len) (Ok (ztake len q)) (zdrop len q)
  | QTrim : queue_step q OpTrim (Ok []) q
  | QNoMemory o e : (e = length_error \/ e = bad_alloc) -> queue_step q o (Throw e) q.

Inductive queue_run : list byte -> list buf_op -> list (result (list byte)) -> list byte -> Prop :=
  | RunNil q : queue_run q [] [] q
  | RunCons q o r q1 os rs q2 :
      queue_step q o r q1 -> queue_run q1 os rs q2 -> queue_run q (o :: os) (r :: rs) q2.

Section refinement.
Context `{Allocator}.

Definition quiet {A} (r : result A) : result (list byte) :=
  match r with Ok _ => Ok [] | Throw e => Throw e end.

(** [OpRetrieveUntil] takes its pointer relative to [peek()]. *)
Definition exec_op (o : buf_op) (b : Buffer) : result (list byte) * Buffer :=
  match o with
  | OpAppend data => let '(r, b') := append_string data b in (quiet r, b')
  | OpEnsureWritable len => let '(r, b') := ensureWritableBytes len b in (quiet r, b')
  | OpRetrieve len => let '(r, b') := retrieve len b in (quiet r, b')
  | OpRetrieveUntil off =>
      let '(r, b') := retrieveUntil (readerIndex_ b + off) b in (quiet r, b')
  | OpRetrieveAll => let '(r, b') := retrieveAll b in (quiet r, b')
  | OpRetrieveAsString len => retrieveAsString len b
  | OpTrim => let '(r, b') := trimRetainedCapacity b in (quiet r, b')
  end.

Fixpoint exec_ops (os : list buf_op) (b : Buffer) : list (result (list byte)) * Buffer :=
  match os with
  | [] => ([], b)
  | o :: os =>
      let '(r, b1) := exec_op o b in
      let '(rs, b2) := exec_ops os b1 in
      (r :: rs, b2)
  end.

Lemma retrieveUntil_spec b off :
  buf_ok b ->
  exists r b', retrieveUntil (readerIndex_ b + off) b = (r, b') /\ buf_ok b' /\
    queue_step (contents b) (OpRetrieveUntil off) (quiet r) (contents b').
Proof.
  intros Hb. pose proof (zlen_contents b Hb) as Hl.
  unfold retrieveUntil. step_m. rewrite readableBytes_eq by done.
  destruct (_ || _) eqn:E.
  - apply orb_true_iff in E. rewrite !Z.ltb_lt in E.
    eexists _, _. split_and!; [done..|]. apply QRetrieveUntilOut. lia.
  - zify_bools. replace (readerIndex_ b + off - readerIndex_ b) with off by lia.
    destruct (retrieve_spec b off Hb ltac:(lia)) as (b' & -> & Hb' & Hc).
    eexists _, _. split_and!; [done..|]. rewrite Hc. apply QRetrieveUntil. lia.
Qed.

Lemma retrieveAsString_spec b len :
  buf_ok b -> 0 <= len ->
  exists b', retrieveAsString len b = (Ok (ztake len (contents b)), b') /\ buf_ok b' /\
    contents b' = zdrop len (contents b).
Proof.
  intros Hb Hl. pose proof (zlen_contents b Hb) as Hz. unfold retrieveAsString. step_m.
  rewrite readableBytes_eq by done. set (k := Z.min _ _).
  assert (0 <= k) by (unfold k; buf_facts; lia).
  destruct (retrieve_spec b k Hb ltac:(lia)) as (b' & -> & Hb' & Hc).
  rewrite vec_read_ok by (unfold k; buf_facts; lia).
  exists b'. split_and!; [|done|].
  - assert (ztake len (contents b) = slice (readerIndex_ b) (readerIndex_ b + k)
      (vdata (buffer_ b))) as ->; [|done].
    unfold contents, ztake, slice, ztake, k. rewrite take_take. f_equal. lia.
  - rewrite Hc. unfold zdrop, zlen, k in *. destruct (Z.min_spec len (writerIndex_ b - readerIndex_ b))
      as [[? ->]|[? ->]]; [done|]. rewrite !drop_ge by lia. done.
Qed.

Lemma exec_op_refines o b :
  buf_ok b -> op_ok o ->
  buf_ok (exec_op o b).2 /\ queue_step (contents b) o (exec_op o b).1 (contents (exec_op o b).2).
Proof.
  intros Hb Ho. destruct o; simpl in *.
  - destruct (append_spec b data _ Hb eq_refl Ho) as (r & b' & Hr & Hb' & Hp).
    unfold append_string. rewrite Hr. split; [done|]. destruct r as [[]|e]; simpl.
    + rewrite Hp. constructor.
    + destruct Hp as [? ->]. by constructor.
  - destruct (ensureWritable_spec b len Hb Ho) as (r & b' & -> & Hb' & Hc & Hp).
    split; [done|]. simpl. rewrite Hc. destruct r; simpl; constructor. tauto.
  - destruct (retrieve_spec b len Hb Ho) as (b' & -> & Hb' & Hc). simpl. rewrite Hc.
    split; [done|constructor].
  - destruct (retrieveUntil_spec b offset Hb) as (r & b' & -> & Hb' & Hq). done.
  - unfold retrieveAll. step_m.
    assert (buf_ok (set_indexes kCheapPrepend kCheapPrepend b)) as Hok.
    { apply set_indexes_ok; [done|unfold kCheapPrepend; lia|]. buf_facts. lia. }
    destruct (trim_spec _ Hok) as (r & b' & -> & Hb' & Hc & _). simpl. split; [done|].
    rewrite Hc. unfold contents at 2. simpl. rewrite slice_empty. constructor.
  - destruct (retrieveAsString_spec b len Hb Ho) as (b' & -> & Hb' & Hc). simpl.
    rewrite Hc. split; [done|constructor].
  - destruct (trim_spec b Hb) as (r & b' & -> & Hb' & Hc & _). simpl.
    rewrite Hc. split; [done|constructor].
Qed.

(** C20. Every sequence of buffer operations behaves as the byte queue does:
    the outputs and the final readable bytes are those of the queue, an
    allocation failure leaves the bytes alone, the index invariant holds
    throughout, and no out-of-bounds access or overlapping copy occurs.  The
    arguments are those of [op_ok]: no span longer than [PTRDIFF_MAX], and no
    request for more writable room than that, which the code does not check
    ([ensureWritableBytes_wraps]). *)
Theorem buffer_refines_byte_queue os b :
  buf_ok b -> Forall op_ok os ->
  buf_ok (exec_ops os b).2 /\
  queue_run (contents b) os (exec_ops os b).1 (contents (exec_ops os b).2).
Proof.
  revert b. induction os as [|o os IH]; intros b Hb Hos; simpl; [by split; [|constructor]|].
  apply Forall_cons in Hos as [Ho Hos].
  destruct (exec_op_refines o b Hb Ho) as [Hb1 Hq].
  destruct (exec_op o b) as [r b1]. specialize (IH b1 Hb1 Hos).
  destruct (exec_ops os b1) as [rs b2]. simpl in *. destruct IH. split; [done|].
  by econstructor.
Qed.

(** One [readFd] appends exactly the bytes the kernel delivered, whether
    they fit the writable region or spill through the stack buffer, never
    offers the kernel more than [maxReadBytes], and reports an error without
    touching the readable bytes. *)
Theorem readFd_appends_delivered b maxRead readv :
  buf_ok b -> 0 < maxRead < usize_lim -> read_contract readv ->
  exists r b', readFd true maxRead readv b = (r, b') /\ buf_ok b' /\
    read_room b maxRead <= maxRead /\
    read_post b b' (readv (read_room b maxRead)) r.
Proof.
  intros Hb Hm Hr. destruct (readFd_spec b maxRead readv Hb Hm Hr) as (r & b' & ? & ? & ?).
  exists r, b'. split_and!; try done. unfold read_room. lia.
Qed.

(** Retention is bounded: once the readable bytes of an armed buffer have
    fallen to the trim threshold, the next [retrieve] replaces its storage by
    one of the configured size (if the allocator serves it) and counts the
    trim; the remaining readable bytes are unchanged. *)
Theorem retrieve_bounds_retention b n :
  buf_ok b -> trimArmed_ b = true -> 0 <= n ->
  zlen (contents b) - n <= trimThresholdBytes (retentionOptions_ b) ->
  alloc_ok (maxRetainedCapacityBytes (retentionOptions_ b)) = true ->
  exists b', retrieve n b = (Ok tt, b') /\ contents b' = zdrop n (contents b) /\
    vcap (buffer_ b') = fresh_cap (maxRetainedCapacityBytes (retentionOptions_ b)) /\
    trimCount_ b' = trimCount_ b ⊕ 1.
Proof.
  intros Hb Harmed Hn Hthr Hal.
  assert (forall r w, kCheapPrepend <= r <= w -> w <= vsize (buffer_ b) ->
    w - r <= trimThresholdBytes (retentionOptions_ b) ->
    exists b', trimRetainedCapacity (set_indexes r w b) = (Ok true, b') /\
      vcap (buffer_ b') = fresh_cap (maxRetainedCapacityBytes (retentionOptions_ b)) /\
      trimCount_ b' = trimCount_ b ⊕ 1) as Htrim.
  { intros r w Hrw Hw Hl. assert (buf_ok (set_indexes r w b)) as Hok by (by apply set_indexes_ok).
    destruct (trim_spec _ Hok) as (r' & b' & Ht & _ & _ & _ & _ & Htrue & Hyes).
    rewrite zlen_contents in Hyes by done. specialize (Hyes Harmed Hl Hal). subst r'.
    destruct (Htrue eq_refl) as (_ & ? & ?). by exists b'. }
  destruct (retrieve_spec b n Hb Hn) as (b' & Hr & Hb' & Hc). exists b'.
  rewrite zlen_contents in Hthr by done. buf_facts.
  revert Hr. unfold retrieve, retrieveAll, kCheapPrepend. step_m.
  rewrite readableBytes_eq by done. case_if.
  - rewrite (uwrap_small (readerIndex_ b + n)) by lia.
    destruct (Htrim (readerIndex_ b + n) (writerIndex_ b)) as (b2 & -> & ? & ?); try lia.
    intros. by simplify_eq.
  - destruct (Htrim 8 8) as (b2 & -> & ? & ?); try lia. intros. by simplify_eq.
Qed.
End refinement.

(** ** Construction and concrete runs *)

Lemma Buffer_new_ok `{Allocator} o b :
  is_usize (maxRetainedCapacityBytes o) -> 0 <= trimThresholdBytes o ->
  Buffer_new o = Ok b -> buf_ok b /\ contents b = [].
Proof.
  unfold Buffer_new, validate, is_usize. intros Hm Ht Hb.
  destruct (vec_new _) as [v|] eqn:Hv; [|done].
  destruct (vec_new_ok (kCheapPrepend + kInitialSize) v
    ltac:(unfold kCheapPrepend, kInitialSize; lia) Hv) as (Hs & Hc & Hok).
  unfold kCheapPrepend, kInitialSize in *.
  repeat case_if; simplify_eq. unwrap. split; [|apply slice_empty].
  constructor; simpl; try done; unfold kCheapPrepend, options_ok, kCheapPrepend, kInitialSize;
    simpl; lia.
Qed.

Definition default_retention : BufferRetentionOptions :=
  {| maxRetainedCapacityBytes := 8 + 64 * 1024; trimThresholdBytes := 16 * 1024 |}.

(** A freshly constructed buffer, and one grown past its retention target. *)
Definition buffer0 : Buffer :=
  mkBuffer default_retention (Vec (zeros 1032) 1032) 8 8 1032 0 false.
Definition grown_buffer : Buffer :=
  mkBuffer default_retention (Vec (zeros 70000) 70000) 8 69000 70000 0 true.

Lemma buffer0_new : @Buffer_new doubling_allocator default_retention = Ok buffer0.
Proof. vm_compute. reflexivity. Qed.

Lemma buffer0_ok : buf_ok buffer0.
Proof.
  apply (Buffer_new_ok (H := doubling_allocator) default_retention buffer0);
    [unfold is_usize; simpl; lia | simpl; lia | apply buffer0_new].
Qed.

Lemma grown_buffer_ok : buf_ok grown_buffer.
Proof.
  constructor; unfold options_ok, vec_ok, vsize, kCheapPrepend, kInitialSize; simpl;
    rewrite ?zlen_zeros; lia.
Qed.

Definition demo_ops : list buf_op :=
  [OpAppend [Byte.x61; Byte.x62; Byte.x63]; OpRetrieveAsString 2;
   OpRetrieveUntil 9; OpEnsureWritable 4000; OpAppend [Byte.x64]; OpRetrieveAll].

Lemma buffer_refines_byte_queue_witness :
  let '(rs, b') := @exec_ops doubling_allocator demo_ops buffer0 in
  rs = [Ok []; Ok [Byte.x61; Byte.x62]; Throw out_of_range; Ok []; Ok []; Ok []] /\
  queue_run [] demo_ops rs (contents b').
Proof.
  destruct (buffer_refines_byte_queue (H := doubling_allocator) demo_ops buffer0) as [_ Hrun].
  - apply buffer0_ok.
  - unfold demo_ops. repeat constructor; simpl; unfold zlen; simpl; lia.
  - change (contents buffer0) with (@nil byte) in Hrun.
    destruct (exec_ops demo_ops buffer0) as [rs b'] eqn:E. simpl in Hrun. split; [|exact Hrun].
    assert ((@exec_ops doubling_allocator demo_ops buffer0).1 = rs) as <- by (by rewrite E).
    vm_compute. reflexivity.
Defined.

Definition demo_readv (total : Z) : sys_result (list byte) :=
  SysOk (zeros (Z.min total 2000)).

Lemma readFd_appends_delivered_witness :
  exists r b', @readFd doubling_allocator true 4096 demo_readv buffer0 = (r, b') /\
    r = Ok (2000, None) /\ contents b' = contents buffer0 ++ zeros 2000.
Proof.
  destruct (readFd_appends_delivered (H := doubling_allocator) buffer0 4096 demo_readv)
    as (r & b' & Hr & _ & _ & Hpost).
  - apply buffer0_ok.
  - lia.
  - intros total data Ht Hd. unfold demo_readv in Hd. simplify_eq.
    rewrite zlen_zeros; lia.
  - exists r, b'. split; [exact Hr|].
    assert (r = (@readFd doubling_allocator true 4096 demo_readv buffer0).1) as Hrr
      by (by rewrite Hr).
    assert (r = Ok (2000, None)) as -> by (rewrite Hrr; vm_compute; reflexivity).
    split; [reflexivity|]. unfold read_post, demo_readv in Hpost.
    assert (Z.min (read_room buffer0 4096) 2000 = 2000) as E by (vm_compute; reflexivity).
    rewrite E in Hpost. apply Hpost.
Defined.

Lemma retrieve_bounds_retention_witness :
  exists b', @retrieve doubling_allocator 60000 grown_buffer = (Ok tt, b') /\
    vcap (buffer_ b') = 65544 /\ trimCount_ b' = 1.
Proof.
  destruct (retrieve_bounds_retention (H := doubling_allocator) grown_buffer 60000)
    as (b' & Hr & _ & Hc & Ht).
  - apply grown_buffer_ok.
  - reflexivity.
  - lia.
  - rewrite zlen_contents by apply grown_buffer_ok. simpl. lia.
  - reflexivity.
  - exists b'. split; [exact Hr|]. rewrite Hc, Ht. split; reflexivity.
Defined.

(** A request for writable space within 2^64 of the write index wraps
    [writerIndex_ + len]: [makeSpace] then shrinks the vector below the write
    index, [ensureWritableBytes] returns normally, and the index invariant is
    broken ([writableBytes] reports almost 2^64 bytes of room). *)
Theorem ensureWritableBytes_wraps :
  let '(r, b') := @ensureWritableBytes doubling_allocator usize_max buffer0 in
  r = Ok tt /\ vsize (buffer_ b') = 7 /\ writerIndex_ b' = 8 /\
  writableBytes b' = usize_max.
Proof. vm_compute. auto. Qed.
