(* ===== verification/PacketFramer.v ===== *)
(** * The length-prefixed packet framer

    Model of [gamenet::protocol::PacketFramer]
    (include/gamenet/protocol/PacketFramer.h, src/protocol/PacketFramer.cc):
    a growable ring buffer of received bytes from which frames with a 4-byte
    big-endian length prefix are cut, under per-push frame and byte budgets, a
    payload limit and a total buffering limit that latch a fault. *)

From S2P Require Import Prelude Ring.

Local Open Scope Z_scope.

(** ** Data *)

Inductive FrameStatus :=
  | NeedMoreData
  | FramesReady
  | BudgetExhausted
  | FrameTooLarge
  | BufferLimitExceeded
  | Faulted.

Global Instance FrameStatus_eq_dec : EqDecision FrameStatus.
Proof. solve_decision. Defined.

Record FrameResult := mkFrameResult {
  status : FrameStatus;
  frames : list (list byte);
  needsContinuation : bool;
}.

Record PacketFramerOptions := mkOptions {
  maxPayloadBytes : Z;
  maxBufferedBytes : Z;
  maxFramesPerPush : Z;
  maxFrameBytesPerPush : Z;
  maxRetainedCapacityBytes : option Z;
  trimThresholdBytes : option Z;
}.

(** The options as the constructor leaves them: both optionals engaged. *)
Record PacketFramer := mkFramer {
  options_ : PacketFramerOptions;
  storage_ : vec;
  head_ : Z;
  bufferedBytes_ : Z;
  peakRetainedCapacityBytes_ : Z;
  trimCount_ : Z;
  trimArmed_ : bool;
  faulted_ : bool;
}.

Definition kLengthBytes : Z := 4.

Definition retainedTarget (f : PacketFramer) : Z :=
  default 0 (maxRetainedCapacityBytes (options_ f)).
Definition trimThreshold (f : PacketFramer) : Z :=
  default 0 (trimThresholdBytes (options_ f)).

Definition set_ring (v : vec) (head buffered : Z) (f : PacketFramer) : PacketFramer :=
  mkFramer (options_ f) v head buffered (peakRetainedCapacityBytes_ f) (trimCount_ f)
    (trimArmed_ f) (faulted_ f).
Definition set_retention (peak count : Z) (armed : bool) (f : PacketFramer) : PacketFramer :=
  mkFramer (options_ f) (storage_ f) (head_ f) (bufferedBytes_ f) peak count armed (faulted_ f).
Definition set_faulted (b : bool) (f : PacketFramer) : PacketFramer :=
  mkFramer (options_ f) (storage_ f) (head_ f) (bufferedBytes_ f)
    (peakRetainedCapacityBytes_ f) (trimCount_ f) (trimArmed_ f) b.

Record PacketFramerRetentionSnapshot := mkRetentionSnapshot {
  retainedCapacityBytes : Z;
  peakRetainedCapacityBytes : Z;
  trimCount : Z;
  trimArmed : bool;
}.

Definition retentionSnapshot (f : PacketFramer) : PacketFramerRetentionSnapshot :=
  mkRetentionSnapshot (vcap (storage_ f)) (peakRetainedCapacityBytes_ f) (trimCount_ f)
    (trimArmed_ f).

(** ** Construction *)

Definition optionsForPayloadLimit (maxPayload : Z) : result PacketFramerOptions :=
  if (u32_max <? maxPayload) || ((usize_max - kLengthBytes) <? maxPayload)
  then Throw invalid_argument
  else
    let frameBytes := kLengthBytes ⊕ maxPayload in
    let maxBuffered :=
      if frameBytes <=? usize_max / 2 then frameBytes ⊗ 2 else frameBytes in
    Ok (mkOptions maxPayload maxBuffered 64 frameBytes None None).

Definition PacketFramer_new (o : PacketFramerOptions) : result PacketFramer :=
  if (u32_max <? maxPayloadBytes o) || ((usize_max - kLengthBytes) <? maxPayloadBytes o)
  then Throw invalid_argument
  else
    let maximumFrameBytes := kLengthBytes ⊕ maxPayloadBytes o in
    if (maxBufferedBytes o <? maximumFrameBytes) || (maxFramesPerPush o =? 0)
       || (maxFrameBytesPerPush o <? maximumFrameBytes)
    then Throw invalid_argument
    else
      let retained := default maximumFrameBytes (maxRetainedCapacityBytes o) in
      let threshold := default retained (trimThresholdBytes o) in
      if (maxBufferedBytes o <? retained) || (retained <? threshold)
      then Throw invalid_argument
      else Ok (mkFramer
                 (mkOptions (maxPayloadBytes o) (maxBufferedBytes o) (maxFramesPerPush o)
                    (maxFrameBytesPerPush o) (Some retained) (Some threshold))
                 (Vec [] 0) 0 0 0 0 false false).

(** [PacketFramer(std::size_t maxPayloadBytes)] delegates. *)
Definition PacketFramer_new_limit (maxPayload : Z) : result PacketFramer :=
  match optionsForPayloadLimit maxPayload with
  | Ok o => PacketFramer_new o
  | Throw e => Throw e
  end.

(** ** Ring access *)

(** The two-segment [memcpy] of [n] bytes out of the ring at index [begin]. *)
Definition ring_copy (v : vec) (begin n : Z) : result (list byte) :=
  let first := Z.min n (vsize v ⊖ begin) in
  match vec_read v begin (begin + first) with
  | Throw e => Throw e
  | Ok l1 =>
      if first =? n then Ok l1
      else match vec_read v 0 (n - first) with
           | Throw e => Throw e
           | Ok l2 => Ok (l1 ++ l2)
           end
  end.

(** [storage_[(head_ + offset) % storage_.size()]] *)
Definition byteAt (f : PacketFramer) (offset : Z) : result byte :=
  if vsize (storage_ f) =? 0 then Throw undefined_behaviour
  else match vdata (storage_ f) !! Z.to_nat ((head_ f ⊕ offset) mod vsize (storage_ f)) with
       | Some b => Ok b
       | None => Throw undefined_behaviour
       end.

(** The memory of the extracted frames: whether a string of [n] bytes can be allocated, and
    whether the vector of frames can take one more than the [n] it has. *)
Class FrameAllocator := {
  payload_ok : Z -> bool;
  frame_slot_ok : Z -> bool;
}.

Definition copyPayload `{FrameAllocator} (f : PacketFramer) (offset length : Z) : result (list byte) :=
  if negb (payload_ok length) then Throw bad_alloc
  else if length =? 0 then Ok []
  else if vsize (storage_ f) =? 0 then Throw undefined_behaviour
  else ring_copy (storage_ f) ((head_ f ⊕ offset) mod vsize (storage_ f)) length.

(** ** Operations *)

Section operations.
Context `{Allocator} `{FrameAllocator}.

Definition trimRetainedCapacity : M PacketFramer bool := fun f =>
  if negb (trimArmed_ f) || (trimThreshold f <? bufferedBytes_ f) then (Ok false, f)
  else match vec_new (retainedTarget f) with
  | Throw _ => (Ok false, f)
  | Ok trimmed =>
      let copied :=
        if bufferedBytes_ f =? 0 then Ok trimmed
        else match ring_copy (storage_ f) (head_ f) (bufferedBytes_ f) with
             | Ok bytes => vec_write trimmed 0 bytes
             | Throw e => Throw e
             end in
      match copied with
      | Throw e => (Throw e, f)
      | Ok v =>
          (Ok true,
           set_retention (peakRetainedCapacityBytes_ f) (trimCount_ f ⊕ 1)
             (retainedTarget f <? vcap v)
             (set_ring v 0 (bufferedBytes_ f) f))
      end
  end.

Definition updateRetentionState : M PacketFramer unit :=
  modify (fun f =>
    set_retention (Z.max (peakRetainedCapacityBytes_ f) (vcap (storage_ f))) (trimCount_ f)
      (if retainedTarget f <? vcap (storage_ f) then true else trimArmed_ f) f).

Definition clearBuffer : M PacketFramer unit :=
  run modify (fun f => set_ring (storage_ f) 0 0 f) ;;
  run trimRetainedCapacity ;;
  ret tt.

Definition consume (bytes : Z) : M PacketFramer unit :=
  do f <- get ;;
  run throw_if (vsize (storage_ f) =? 0) undefined_behaviour ;;
  let head := (head_ f ⊕ bytes) mod vsize (storage_ f) in
  let buffered := bufferedBytes_ f ⊖ bytes in
  run modify (set_ring (storage_ f) (if buffered =? 0 then 0 else head) buffered) ;;
  run trimRetainedCapacity ;;
  ret tt.

(** One turn of the growth loop of [appendBytes]. *)
Definition grow_step (maxBuffered required grown : Z) : Z + Z :=
  if grown <? required then
    let availableGrowth := maxBuffered ⊖ grown in
    let growth := Z.min availableGrowth (Z.max (grown / 2) 1) in
    let grown := grown ⊕ growth in
    inl (if (grown <? required) && (grown =? maxBuffered) then required else grown)
  else inr grown.

Definition grownCapacity (maxBuffered size required : Z) : option Z :=
  loop usize_fuel (grow_step maxBuffered required)
    (if size =? 0 then Z.min 64 maxBuffered else size).

Definition growStorage (required : Z) : M PacketFramer unit :=
  do f <- get ;;
  match grownCapacity (maxBufferedBytes (options_ f)) (vsize (storage_ f)) required with
  | None => throw undefined_behaviour
  | Some capacity =>
      do grown <- lift (vec_new capacity) ;;
      do v <- (if bufferedBytes_ f =? 0 then ret grown
               else do bytes <- lift (ring_copy (storage_ f) (head_ f) (bufferedBytes_ f)) ;;
                    lift (vec_write grown 0 bytes)) ;;
      run modify (set_ring v 0 (bufferedBytes_ f)) ;;
      updateRetentionState
  end.

Definition writeTail (bytes : list byte) : M PacketFramer unit :=
  do f <- get ;;
  run throw_if (vsize (storage_ f) =? 0) undefined_behaviour ;;
  let tail := (head_ f ⊕ bufferedBytes_ f) mod vsize (storage_ f) in
  let first := Z.min (zlen bytes) (vsize (storage_ f) ⊖ tail) in
  do v1 <- lift (vec_write (storage_ f) tail (ztake first bytes)) ;;
  do v2 <- (if first =? zlen bytes then ret v1
            else lift (vec_write v1 0 (zdrop first bytes))) ;;
  modify (set_ring v2 (head_ f) (bufferedBytes_ f ⊕ zlen bytes)).

Definition appendBytes (bytes : list byte) : M PacketFramer unit :=
  do f <- get ;;
  let required := bufferedBytes_ f ⊕ zlen bytes in
  run (if vsize (storage_ f) <? required then growStorage required else ret tt) ;;
  writeTail bytes.

(** The locals of the extraction loop of [push]. *)
Record ParseState := mkParse {
  consumed : Z;
  processedFrameBytes : Z;
  outFrames : list (list byte);
}.

(** How the loop ends: a payload above the limit, the [break]s (with
    [budgetExhausted]), or the end of the buffered bytes. *)
Inductive ParseExit :=
  | ExitTooLarge
  | ExitDone (p : ParseState) (budgetExhausted : bool)
  | ExitError (e : exn).

(** The big-endian length at offset [o]. *)
Definition readLength (f : PacketFramer) (o : Z) : result Z :=
  match byteAt f o, byteAt f (o ⊕ 1), byteAt f (o ⊕ 2), byteAt f (o ⊕ 3) with
  | Ok b0, Ok b1, Ok b2, Ok b3 =>
      Ok (Z.lor (Z.lor (Z.lor (Z.shiftl (byte_val b0) 24) (Z.shiftl (byte_val b1) 16))
                  (Z.shiftl (byte_val b2) 8)) (byte_val b3))
  | _, _, _, _ => Throw undefined_behaviour
  end.

Definition parse_step (f : PacketFramer) (p : ParseState) : ParseState + ParseExit :=
  if kLengthBytes <=? (bufferedBytes_ f ⊖ consumed p) then
    match readLength f (consumed p) with
    | Throw e => inr (ExitError e)
    | Ok payloadBytes =>
        if maxPayloadBytes (options_ f) <? payloadBytes then inr ExitTooLarge
        else
          let frameBytes := kLengthBytes ⊕ payloadBytes in
          if (bufferedBytes_ f ⊖ consumed p) <? frameBytes then inr (ExitDone p false)
          else if (maxFramesPerPush (options_ f) <=? zlen (outFrames p))
               || ((maxFrameBytesPerPush (options_ f) ⊖ processedFrameBytes p) <? frameBytes)
          then inr (ExitDone p true)
          else match copyPayload f (consumed p ⊕ kLengthBytes) payloadBytes with
               | Throw e => inr (ExitError e)
               | Ok payload =>
                   if negb (frame_slot_ok (zlen (outFrames p))) then inr (ExitError bad_alloc)
                   else inl (mkParse (consumed p ⊕ frameBytes) (processedFrameBytes p ⊕ frameBytes)
                          (outFrames p ++ [payload]))
               end
    end
  else inr (ExitDone p false).

Definition push (bytes : list byte) : M PacketFramer FrameResult :=
  do f <- get ;;
  if faulted_ f then ret (mkFrameResult Faulted [] false)
  else if (maxBufferedBytes (options_ f) ⊖ bufferedBytes_ f) <? zlen bytes then
    run clearBuffer ;;
    run modify (set_faulted true) ;;
    ret (mkFrameResult BufferLimitExceeded [] false)
  else
    run (if zlen bytes =? 0 then ret tt else appendBytes bytes) ;;
    do f <- get ;;
    match loop usize_fuel (parse_step f) (mkParse 0 0 []) with
    | None => throw undefined_behaviour
    | Some (ExitError e) => throw e
    | Some ExitTooLarge =>
        run clearBuffer ;;
        run modify (set_faulted true) ;;
        ret (mkFrameResult FrameTooLarge [] false)
    | Some (ExitDone p budgetExhausted) =>
        run (if consumed p =? 0 then ret tt else consume (consumed p)) ;;
        run trimRetainedCapacity ;;
        ret (mkFrameResult
               (if budgetExhausted then BudgetExhausted
                else match outFrames p with [] => NeedMoreData | _ => FramesReady end)
               (outFrames p) budgetExhausted)
    end.

Definition reset : M PacketFramer unit :=
  run clearBuffer ;;
  modify (set_faulted false).
End operations.

(** ** Encoding *)

Definition appendLength (output : list byte) (length : Z) : list byte :=
  output ++ [byte_of (Z.land (Z.shiftr length 24) 255); byte_of (Z.land (Z.shiftr length 16) 255);
             byte_of (Z.land (Z.shiftr length 8) 255); byte_of (Z.land length 255)].

Definition encode (o : PacketFramerOptions) (payload : list byte) : option (list byte) :=
  if (maxPayloadBytes o <? zlen payload) || (u32_max <? zlen payload) then None
  else Some (appendLength [] (zlen payload) ++ payload).

(** ** Specification

    The reference decoder works on the list of buffered bytes. *)

(** The buffered bytes, oldest first. *)
Definition pending (f : PacketFramer) : list byte :=
  ztake (bufferedBytes_ f) (rot (head_ f) (vdata (storage_ f))).

Definition be32 (b0 b1 b2 b3 : byte) : Z :=
  byte_val b0 * 16777216 + byte_val b1 * 65536 + byte_val b2 * 256 + byte_val b3.

Inductive cut :=
  | CutShort
  | CutTooLarge
  | CutFrame (payload rest : list byte).

(** The first frame of a byte stream. *)
Definition cut_frame (maxPayload : Z) (l : list byte) : cut :=
  match l with
  | b0 :: b1 :: b2 :: b3 :: rest =>
      let n := be32 b0 b1 b2 b3 in
      if maxPayload <? n then CutTooLarge
      else if zlen rest <? n then CutShort
      else CutFrame (ztake n rest) (zdrop n rest)
  | _ => CutShort
  end.

Inductive parse_end := EndOfData | EndOfBudget | EndTooLarge.

(** Cut frames until the data, the budgets or the payload limit stop it;
    [cnt] frames and [used] bytes of the budgets are already spent. *)
Fixpoint spec_parse (fuel : nat) (o : PacketFramerOptions) (cnt used : Z) (l : list byte) :
    list (list byte) * list byte * parse_end :=
  match cut_frame (maxPayloadBytes o) l with
  | CutShort => ([], l, EndOfData)
  | CutTooLarge => ([], l, EndTooLarge)
  | CutFrame p rest =>
      if (maxFramesPerPush o <=? cnt)
         || (maxFrameBytesPerPush o - used <? kLengthBytes + zlen p)
      then ([], l, EndOfBudget)
      else match fuel with
           | O => ([], l, EndOfData)
           | S k =>
               let '(fs, r, e) :=
                 spec_parse k o (cnt + 1) (used + (kLengthBytes + zlen p)) rest in
               (p :: fs, r, e)
           end
  end.

(** What one [push] does to the abstract state: the buffered bytes and the
    fault latch. *)
Definition spec_push (o : PacketFramerOptions) (q : list byte) (fault : bool)
    (bytes : list byte) : FrameResult * (list byte * bool) :=
  if fault then (mkFrameResult Faulted [] false, (q, true))
  else if maxBufferedBytes o <? zlen q + zlen bytes
  then (mkFrameResult BufferLimitExceeded [] false, ([], true))
  else
    match spec_parse (length (q ++ bytes)) o 0 0 (q ++ bytes) with
    | (_, _, EndTooLarge) => (mkFrameResult FrameTooLarge [] false, ([], true))
    | (fs, rest, EndOfBudget) => (mkFrameResult BudgetExhausted fs true, (rest, false))
    | ([], rest, EndOfData) => (mkFrameResult NeedMoreData [] false, (rest, false))
    | (fs, rest, EndOfData) => (mkFrameResult FramesReady fs false, (rest, false))
    end.

(** ** Invariant *)

Record framer_options_ok (o : PacketFramerOptions) : Prop := {
  opt_payload : 0 <= maxPayloadBytes o <= u32_max;
  opt_buffered : kLengthBytes + maxPayloadBytes o <= maxBufferedBytes o < usize_lim;
  opt_frames : 1 <= maxFramesPerPush o < usize_lim;
  opt_frame_bytes : kLengthBytes + maxPayloadBytes o <= maxFrameBytesPerPush o < usize_lim;
  opt_retained : exists r t, maxRetainedCapacityBytes o = Some r /\
    trimThresholdBytes o = Some t /\ 0 <= t <= r /\ r <= maxBufferedBytes o;
}.

Record framer_ok (f : PacketFramer) : Prop := {
  fr_options : framer_options_ok (options_ f);
  fr_storage : vec_ok (storage_ f);
  fr_limit : vsize (storage_ f) <= maxBufferedBytes (options_ f);
  fr_buffered : 0 <= bufferedBytes_ f <= vsize (storage_ f);
  fr_head : 0 <= head_ f /\ (head_ f < vsize (storage_ f) \/ head_ f = 0);
}.

Ltac framer_facts :=
  repeat match goal with
  | H : framer_ok ?f |- _ =>
      first_time f;
      let Ho := fresh "Hopt" in let Hs := fresh "Hst" in let Hl := fresh "Hlim" in
      let Hb := fresh "Hbuf" in let Hh := fresh "Hhd" in
      pose proof (fr_options f H) as Ho; pose proof (fr_storage f H) as Hs;
      pose proof (fr_limit f H) as Hl; pose proof (fr_buffered f H) as Hb;
      pose proof (fr_head f H) as Hh; unfold vec_ok in Hs
  end;
  repeat match goal with
  | H : framer_options_ok ?o |- _ =>
      first_time o;
      let H1 := fresh "Hpay" in let H2 := fresh "Hmax" in
      let H3 := fresh "Hcnt" in let H4 := fresh "Hfrb" in
      pose proof (opt_payload o H) as H1; pose proof (opt_buffered o H) as H2;
      pose proof (opt_frames o H) as H3; pose proof (opt_frame_bytes o H) as H4
  end; clear_seen; unfold kLengthBytes in *.

Section framer_lemmas.
Context `{Allocator} `{FrameAllocator}.

Lemma zlen_pending f : framer_ok f -> zlen (pending f) = bufferedBytes_ f.
Proof.
  intros Hf. framer_facts. pose proof (zlen_rot (head_ f) (vdata (storage_ f))) as Hr.
  unfold pending, ztake, zlen, vsize in *. rewrite length_take. unfold zlen in *. lia.
Qed.

Lemma ring_copy_ok v begin n :
  vec_ok v -> 0 <= begin -> (begin < vsize v \/ begin = 0) -> 0 <= n <= vsize v ->
  ring_copy v begin n = Ok (ztake n (rot begin (vdata v))).
Proof.
  intros [Hc Hm] Hb Hb' Hn. unfold ring_copy.
  rewrite (uwrap_small (vsize v - begin)) by lia.
  rewrite vec_read_ok by lia. rewrite (vec_read_ok v 0) by lia.
  unfold rot, vsize, zlen, slice, ztake, zdrop in *. case_if.
  - f_equal. rewrite take_app_le by (rewrite length_drop; lia). f_equal. lia.
  - f_equal. rewrite take_app, length_drop. rewrite drop_0, take_take.
    rewrite !(take_ge (drop _ _)) by (rewrite length_drop; lia). do 2 f_equal. lia.
Qed.

(** The buffered bytes copied to the front of a fresh vector. *)
Lemma copy_pending_ok f c g :
  framer_ok f -> bufferedBytes_ f <= c -> vec_new c = Ok g ->
  exists v, (if bufferedBytes_ f =? 0 then Ok g else vec_write g 0 (pending f)) = Ok v /\
    vec_ok v /\ vsize v = c /\ ztake (bufferedBytes_ f) (vdata v) = pending f.
Proof.
  intros Hf Hc Hnew. pose proof (zlen_pending f Hf) as Hlen. framer_facts.
  destruct (vec_new_ok c g ltac:(lia) Hnew) as (Hsz & _ & Hvok).
  destruct (Z.eqb_spec (bufferedBytes_ f) 0) as [E0|E0].
  - exists g. split_and!; try done. rewrite (zlen_nil_inv (pending f)) by lia. by rewrite E0.
  - rewrite vec_write_ok by lia. eexists. split; [done|].
    assert (zlen (blit 0 (pending f) (vdata g)) = zlen (vdata g)) as Hz
      by (apply zlen_blit; unfold vsize in *; lia).
    unfold vec_ok, vsize in *. simpl. rewrite Hz. split_and!; try done; try lia.
    pose proof (slice_blit_in 0 (pending f) (vdata g)) as Hs.
    unfold slice, zdrop in Hs. simpl in Hs. rewrite drop_0 in Hs.
    rewrite Z.sub_0_r, Hlen in Hs. apply Hs; unfold vsize in *; lia.
Qed.

Lemma trim_preserves f :
  framer_ok f ->
  exists r f', trimRetainedCapacity f = (Ok r, f') /\ framer_ok f' /\
    pending f' = pending f /\ options_ f' = options_ f /\ faulted_ f' = faulted_ f /\
    (r = false -> f' = f).
Proof.
  intros Hf. unfold trimRetainedCapacity, trimThreshold, retainedTarget.
  pose proof (zlen_pending f Hf) as Hlen. framer_facts.
  destruct (opt_retained _ Hopt) as (rt & th & Hr & Ht & Hth & Hrm). rewrite Hr, Ht. simpl.
  destruct (_ || _) eqn:E; [by exists false, f; split_and!|]. zify_bools.
  destruct (vec_new rt) as [trimmed|] eqn:Hnew; [|by exists false, f; split_and!].
  rewrite ring_copy_ok by (done || lia || tauto). fold (pending f).
  destruct (copy_pending_ok f rt trimmed Hf ltac:(lia) Hnew) as (v & -> & Hvo & Hvs & Hsl).
  eexists true, _. split; [done|]. split_and!; try done.
  - constructor; simpl; rewrite ?Hvs; try done; lia.
  - unfold pending; simpl. rewrite rot_0. apply Hsl.
Qed.

Lemma clear_preserves f :
  framer_ok f ->
  exists f', clearBuffer f = (Ok tt, f') /\ framer_ok f' /\ pending f' = [] /\
    options_ f' = options_ f /\ faulted_ f' = faulted_ f.
Proof.
  intros Hf. unfold clearBuffer. step_m.
  assert (framer_ok (set_ring (storage_ f) 0 0 f)) as Hok.
  { framer_facts. constructor; simpl; try done; lia. }
  destruct (trim_preserves _ Hok) as (r & f' & -> & Hf' & Hp & Ho & Hfl & _).
  exists f'. split_and!; try done.
Qed.

(** The growth loop ends, at a capacity that holds the request and respects the
    buffering limit. *)
Lemma grownCapacity_ok maxBuffered size required :
  0 <= size <= maxBuffered -> size < required <= maxBuffered -> maxBuffered < usize_lim ->
  exists c, grownCapacity maxBuffered size required = Some c /\ required <= c <= maxBuffered.
Proof.
  intros Hs Hr Hm. unfold grownCapacity.
  apply (loop_total (grow_step maxBuffered required) (fun g => 0 < g <= maxBuffered)
           (fun g => Z.max 0 (required - g)) (fun c => required <= c <= maxBuffered)).
  - intros g Hg. unfold grow_step. case_if; [|lia].
    rewrite (uwrap_small (maxBuffered - g)) by lia.
    pose proof (Z.div_pos g 2 ltac:(lia) ltac:(lia)) as Hd.
    pose proof (Z.div_le_upper_bound g 2 g ltac:(lia) ltac:(lia)).
    set (growth := Z.min _ _). assert (1 <= growth <= maxBuffered - g) by (unfold growth; lia).
    rewrite (uwrap_small (g + growth)) by lia. case_if; lia.
  - case_if; lia.
  - unfold usize_fuel. case_if; lia.
Qed.

Definition same_config (f f' : PacketFramer) : Prop :=
  options_ f' = options_ f /\ faulted_ f' = faulted_ f.

Lemma growStorage_ok f required :
  framer_ok f -> vsize (storage_ f) < required <= maxBufferedBytes (options_ f) ->
  exists r f', growStorage required f = (r, f') /\ framer_ok f' /\ same_config f f' /\
    pending f' = pending f /\ bufferedBytes_ f' = bufferedBytes_ f /\
    match r with
    | Ok _ => required <= vsize (storage_ f')
    | Throw e => (e = length_error \/ e = bad_alloc) /\ f' = f
    end.
Proof.
  intros Hf Hr. unfold growStorage. step_m. pose proof (zlen_pending f Hf) as Hlen. framer_facts.
  destruct (grownCapacity_ok (maxBufferedBytes (options_ f)) (vsize (storage_ f)) required)
    as (c & -> & Hc); try lia.
  destruct (vec_new c) as [g|e] eqn:Hnew.
  2: { eexists _, f. split_and!; try done. unfold vec_new in Hnew. repeat case_if; simplify_eq; auto. }
  rewrite ring_copy_ok by (done || lia || tauto). fold (pending f).
  destruct (copy_pending_ok f c g Hf ltac:(lia) Hnew) as (v & Hv & Hvo & Hvs & Hsl).
  assert (forall k, (if bufferedBytes_ f =? 0 then fun s => (Ok g, s)
             else fun s : PacketFramer => (vec_write g 0 (pending f), s)) k = (Ok v, k)) as Hk.
  { intros k. revert Hv. destruct (bufferedBytes_ f =? 0); intros ->; done. }
  rewrite Hk. unfold updateRetentionState. step_m. eexists (Ok tt), _. split; [done|].
  split_and!; try done; simpl.
  - constructor; simpl; rewrite ?Hvs; try done; lia.
  - unfold pending; simpl. rewrite rot_0. apply Hsl.
  - lia.
Qed.

Lemma writeTail_ok f bytes :
  framer_ok f -> 0 < zlen bytes -> bufferedBytes_ f + zlen bytes <= vsize (storage_ f) ->
  exists f', writeTail bytes f = (Ok tt, f') /\ framer_ok f' /\ same_config f f' /\
    pending f' = pending f ++ bytes.
Proof.
  intros Hf Hb Hl. unfold writeTail. step_m. framer_facts.
  rewrite (proj2 (Z.eqb_neq _ _)) by lia.
  rewrite (uwrap_small (head_ f + bufferedBytes_ f)) by lia.
  set (tail := (head_ f + bufferedBytes_ f) mod vsize (storage_ f)).
  pose proof (Z.mod_pos_bound (head_ f + bufferedBytes_ f) (vsize (storage_ f)) ltac:(lia)) as Ht.
  fold tail in Ht. rewrite (uwrap_small (vsize (storage_ f) - tail)) by lia.
  set (first := Z.min (zlen bytes) (vsize (storage_ f) - tail)).
  pose proof (rot_write (head_ f) (bufferedBytes_ f) bytes (vdata (storage_ f))) as Hw.
  cbv zeta in Hw. fold (vsize (storage_ f)) in Hw. fold tail in Hw. fold first in Hw.
  specialize (Hw ltac:(lia) ltac:(lia) ltac:(lia)).
  assert (zlen (ztake first bytes) = first) as Hz1.
  { unfold first, zlen, ztake in *. rewrite length_take. lia. }
  assert (zlen (zdrop first bytes) = zlen bytes - first) as Hz2.
  { unfold first, zlen, zdrop in *. rewrite length_drop. lia. }
  rewrite vec_write_ok by (rewrite ?Hz1; unfold first; lia).
  set (v1 := Vec (blit tail (ztake first bytes) (vdata (storage_ f))) _).
  assert (vsize v1 = vsize (storage_ f)) as Hs1.
  { unfold vsize. simpl. apply zlen_blit; [lia|]. rewrite Hz1. fold (vsize (storage_ f)). unfold first. lia. }
  assert (vec_write v1 0 (zdrop first bytes) =
            Ok (Vec (blit 0 (zdrop first bytes) (vdata v1)) (vcap v1))) as Hw2.
  { apply vec_write_ok; [lia|]. rewrite Hz2, Hs1. unfold first. lia. }
  rewrite Hw2.
  set (v2 := Vec (blit 0 (zdrop first bytes) (vdata v1)) (vcap v1)).
  assert (vsize v2 = vsize (storage_ f)) as Hs2.
  { unfold vsize at 1. simpl. rewrite zlen_blit; [exact Hs1|lia|]. rewrite Hz2.
    unfold vsize in Hs1 at 1. simpl in Hs1. rewrite Hs1. unfold first. lia. }
  assert (first = zlen bytes -> v2 = v1) as Hsame.
  { intros E. unfold v2. rewrite (zlen_nil_inv (zdrop first bytes)) by lia.
    by rewrite blit_nil. }
  assert (forall k : PacketFramer, (if first =? zlen bytes then fun s => (Ok v1, s)
            else fun s => (Ok v2, s)) k = (Ok v2, k)) as Hk.
  { intros k. case_if; [|done]. by rewrite Hsame. }
  rewrite Hk. rewrite (uwrap_small (bufferedBytes_ f + zlen bytes)) by lia.
  eexists. split; [done|]. split_and!; try done.
  - constructor; simpl; rewrite ?Hs2; try done; try lia. split; rewrite ?Hs2; simpl; lia.
  - unfold pending at 1. simpl. unfold v2, v1. simpl. rewrite Hw.
    pose proof (slice_blit_append (bufferedBytes_ f) bytes
      (rot (head_ f) (vdata (storage_ f))) 0) as Ha.
    unfold slice in Ha. rewrite !Z.sub_0_r in Ha. unfold zdrop in Ha. simpl in Ha.
    rewrite !drop_0 in Ha. apply Ha; [lia|]. rewrite zlen_rot. unfold vsize in *. lia.
Qed.

Lemma appendBytes_ok f bytes :
  framer_ok f -> 0 < zlen bytes ->
  bufferedBytes_ f + zlen bytes <= maxBufferedBytes (options_ f) ->
  exists r f', appendBytes bytes f = (r, f') /\ framer_ok f' /\ same_config f f' /\
    match r with
    | Ok _ => pending f' = pending f ++ bytes
    | Throw e => (e = length_error \/ e = bad_alloc) /\ f' = f
    end.
Proof.
  intros Hf Hb Hl. unfold appendBytes. step_m. framer_facts.
  rewrite (uwrap_small (bufferedBytes_ f + zlen bytes)) by lia. case_if.
  - destruct (growStorage_ok f (bufferedBytes_ f + zlen bytes) Hf ltac:(lia))
      as (r & f1 & -> & Hf1 & Hc1 & Hp1 & Hb1 & Hpost).
    destruct r as [[]|e]; [|by eexists _, _; split_and!].
    destruct (writeTail_ok f1 bytes Hf1 Hb ltac:(lia)) as (f2 & -> & Hf2 & Hc2 & Hp2).
    exists (Ok tt), f2. split_and!; [done..| |by rewrite Hp2, Hp1].
    unfold same_config in *. destruct Hc1, Hc2. split; congruence.
  - destruct (writeTail_ok f bytes Hf Hb ltac:(lia)) as (f2 & -> & Hf2 & Hc2 & Hp2).
    by exists (Ok tt), f2.
Qed.

Lemma consume_ok f n :
  framer_ok f -> 0 < n <= bufferedBytes_ f ->
  exists f', consume n f = (Ok tt, f') /\ framer_ok f' /\ same_config f f' /\
    pending f' = zdrop n (pending f).
Proof.
  intros Hf Hn. unfold consume. step_m. framer_facts.
  rewrite (proj2 (Z.eqb_neq _ _)) by lia.
  rewrite (uwrap_small (head_ f + n)), (uwrap_small (bufferedBytes_ f - n)) by lia.
  set (h := (head_ f + n) mod vsize (storage_ f)).
  pose proof (Z.mod_pos_bound (head_ f + n) (vsize (storage_ f)) ltac:(lia)) as Hh. fold h in Hh.
  set (f1 := set_ring _ _ _ f).
  assert (framer_ok f1) as Hok.
  { unfold f1. constructor; simpl; try done; try lia. case_if; lia. }
  assert (pending f1 = zdrop n (pending f)) as Hp.
  { unfold pending, f1. simpl.
    pose proof (slice_rot (head_ f) n (bufferedBytes_ f - n) (vdata (storage_ f))) as Hs.
    fold (vsize (storage_ f)) in Hs. fold h in Hs.
    rewrite Z.add_sub_assoc, Z.add_simpl_l in Hs.
    assert (zdrop n (ztake (bufferedBytes_ f) (rot (head_ f) (vdata (storage_ f)))) =
            slice n (bufferedBytes_ f) (rot (head_ f) (vdata (storage_ f)))) as ->.
    { unfold slice, ztake, zdrop. rewrite skipn_firstn_comm. f_equal. lia. }
    rewrite Hs by lia. case_if; [|done].
    unfold ztake. by replace (Z.to_nat (bufferedBytes_ f - n)) with 0%nat by lia. }
  destruct (trim_preserves _ Hok) as (r & f' & -> & Hf' & Hp' & Ho & Hfl & _).
  exists f'. split_and!; [done..| |by rewrite Hp']. by split.
Qed.

Lemma lor_shiftl_add a b k : 0 <= k -> 0 <= b < 2 ^ k -> Z.lor (Z.shiftl a k) b = a * 2 ^ k + b.
Proof.
  intros Hk Hb. rewrite <- Z.shiftl_mul_pow2 by lia.
  assert (Z.land (Z.shiftl a k) b = 0) as Hz.
  { apply Z.bits_inj'. intros n Hn. rewrite Z.land_spec, Z.bits_0.
    destruct (Z.lt_ge_cases n k) as [Hlt|Hge].
    - rewrite Z.shiftl_spec_low by lia. done.
    - rewrite <- (Z.mod_small b (2 ^ k)) by lia.
      rewrite Z.mod_pow2_bits_high by lia. apply andb_false_r. }
  rewrite Z.add_nocarry_lxor, Z.lxor_lor by done. done.
Qed.

Lemma be32_lor b0 b1 b2 b3 :
  Z.lor (Z.lor (Z.lor (Z.shiftl (byte_val b0) 24) (Z.shiftl (byte_val b1) 16))
           (Z.shiftl (byte_val b2) 8)) (byte_val b3) = be32 b0 b1 b2 b3.
Proof.
  pose proof (byte_val_bound b0). pose proof (byte_val_bound b1).
  pose proof (byte_val_bound b2). pose proof (byte_val_bound b3). unfold be32.
  rewrite (Z.shiftl_mul_pow2 (byte_val b1)), (Z.shiftl_mul_pow2 (byte_val b2)) by lia.
  rewrite (lor_shiftl_add (byte_val b0)) by lia.
  replace (byte_val b0 * 2 ^ 24 + byte_val b1 * 2 ^ 16)
    with (Z.shiftl (byte_val b0 * 256 + byte_val b1) 16) by (rewrite Z.shiftl_mul_pow2; lia).
  rewrite lor_shiftl_add by lia.
  replace ((byte_val b0 * 256 + byte_val b1) * 2 ^ 16 + byte_val b2 * 2 ^ 8)
    with (Z.shiftl ((byte_val b0 * 256 + byte_val b1) * 256 + byte_val b2) 8)
    by (rewrite Z.shiftl_mul_pow2; lia).
  rewrite lor_shiftl_add by lia. lia.
Qed.

Lemma byteAt_ok f o :
  framer_ok f -> 0 <= o < bufferedBytes_ f ->
  exists b, byteAt f o = Ok b /\ pending f !! Z.to_nat o = Some b.
Proof.
  intros Hf Ho. unfold byteAt, pending. framer_facts.
  rewrite (proj2 (Z.eqb_neq _ _)) by lia. rewrite (uwrap_small (head_ f + o)) by lia.
  set (n := vsize (storage_ f)) in *.
  assert ((head_ f + o) mod n = if decide (head_ f + o < n) then head_ f + o
            else head_ f + o - n) as Hm.
  { case_decide; [apply Z.mod_small; lia|]. symmetry. apply (Z.mod_unique _ _ 1); lia. }
  unfold ztake. rewrite lookup_take_lt by lia.
  rewrite lookup_rot by (unfold n, vsize, zlen in *; lia).
  assert (is_Some (vdata (storage_ f) !! Z.to_nat ((head_ f + o) mod n))) as [b Hb].
  { apply lookup_lt_is_Some. rewrite Hm. unfold n, vsize, zlen in *. case_decide; lia. }
  rewrite Hb. exists b. split; [done|]. rewrite <- Hb. f_equal. rewrite Hm.
  unfold n, vsize, zlen in *. repeat case_decide; lia.
Qed.

Lemma readLength_ok f c :
  framer_ok f -> 0 <= c -> c + 4 <= bufferedBytes_ f ->
  exists b0 b1 b2 b3, readLength f c = Ok (be32 b0 b1 b2 b3) /\
    zdrop c (pending f) = b0 :: b1 :: b2 :: b3 :: zdrop (c + 4) (pending f).
Proof.
  intros Hf Hc Hl. unfold readLength. framer_facts.
  rewrite !(uwrap_small (c + _)) by lia.
  destruct (byteAt_ok f c Hf ltac:(lia)) as (b0 & -> & Hb0).
  destruct (byteAt_ok f (c + 1) Hf ltac:(lia)) as (b1 & -> & Hb1).
  destruct (byteAt_ok f (c + 2) Hf ltac:(lia)) as (b2 & -> & Hb2).
  destruct (byteAt_ok f (c + 3) Hf ltac:(lia)) as (b3 & -> & Hb3).
  exists b0, b1, b2, b3. rewrite be32_lor. split; [done|]. unfold zdrop.
  rewrite (drop_S _ b0 (Z.to_nat c)) by done. f_equal.
  replace (S (Z.to_nat c)) with (Z.to_nat (c + 1)) by lia. rewrite (drop_S _ b1) by done. f_equal.
  replace (S (Z.to_nat (c + 1))) with (Z.to_nat (c + 2)) by lia. rewrite (drop_S _ b2) by done.
  f_equal. replace (S (Z.to_nat (c + 2))) with (Z.to_nat (c + 3)) by lia.
  rewrite (drop_S _ b3) by done. do 2 f_equal. lia.
Qed.

Lemma copyPayload_ok f o len :
  framer_ok f -> 0 <= o -> 0 <= len -> o + len <= bufferedBytes_ f ->
  copyPayload f o len = if payload_ok len then Ok (ztake len (zdrop o (pending f))) else Throw bad_alloc.
Proof.
  intros Hf Ho Hl Hol. unfold copyPayload. destruct (payload_ok len); [cbn [negb]|done]. framer_facts.
  destruct (Z.eqb_spec len 0) as [->|E]; [done|].
  rewrite (proj2 (Z.eqb_neq _ _)) by lia. rewrite (uwrap_small (head_ f + o)) by lia.
  pose proof (Z.mod_pos_bound (head_ f + o) (vsize (storage_ f)) ltac:(lia)) as Hm.
  rewrite ring_copy_ok; [|done|lia|lia|lia]. f_equal. unfold pending.
  unfold vsize at 1. rewrite <- slice_rot by (unfold vsize in *; lia).
  unfold slice, ztake, zdrop. rewrite skipn_firstn_comm, take_take. f_equal. lia.
Qed.

Lemma be32_bound b0 b1 b2 b3 : 0 <= be32 b0 b1 b2 b3 <= u32_max.
Proof.
  pose proof (byte_val_bound b0). pose proof (byte_val_bound b1).
  pose proof (byte_val_bound b2). pose proof (byte_val_bound b3). unfold be32. lia.
Qed.

(** A cut frame is a strict prefix of the stream. *)
Lemma cut_frame_length maxPayload l p rest :
  cut_frame maxPayload l = CutFrame p rest ->
  zlen l = kLengthBytes + zlen p + zlen rest /\ zlen p <= maxPayload /\
  rest = zdrop (kLengthBytes + zlen p) l.
Proof.
  unfold cut_frame. destruct l as [|b0 [|b1 [|b2 [|b3 l]]]]; try done.
  pose proof (be32_bound b0 b1 b2 b3) as Hb. intros Hc. repeat case_if; simplify_eq.
  assert (zlen (ztake (be32 b0 b1 b2 b3) l) = be32 b0 b1 b2 b3) as Hp.
  { unfold zlen, ztake in *. rewrite length_take. lia. }
  rewrite Hp. unfold kLengthBytes. split_and!.
  - unfold zlen, zdrop in *. rewrite length_drop. simpl. lia.
  - lia.
  - unfold zdrop. by replace (Z.to_nat (4 + be32 b0 b1 b2 b3))
      with (S (S (S (S (Z.to_nat (be32 b0 b1 b2 b3)))))) by lia.
Qed.

Lemma spec_parse_fuel k1 k2 o cnt used l :
  (length l <= k1)%nat -> (length l <= k2)%nat ->
  spec_parse k1 o cnt used l = spec_parse k2 o cnt used l.
Proof.
  revert k2 cnt used l. induction k1 as [|k1 IH]; intros k2 cnt used l Hk1 Hk2;
    (destruct k2 as [|k2]; simpl; destruct (cut_frame _ _) as [| |p rest] eqn:E; try done;
     pose proof (cut_frame_length _ _ _ _ E) as (Hl & _); unfold zlen, kLengthBytes in Hl;
     try lia).
  case_if; [done|]. by rewrite (IH k2) by lia.
Qed.

Definition parse_all (o : PacketFramerOptions) (l : list byte) :=
  spec_parse (length l) o 0 0 l.

(** The loop invariant: what is left to do finishes the reference parse. *)
Definition parse_inv (f : PacketFramer) (p : ParseState) : Prop :=
  0 <= consumed p <= bufferedBytes_ f /\ processedFrameBytes p = consumed p /\
  consumed p <= maxFrameBytesPerPush (options_ f) /\
  parse_all (options_ f) (pending f) =
    let rest := zdrop (consumed p) (pending f) in
    let '(fs, r, e) :=
      spec_parse (length rest) (options_ f) (zlen (outFrames p)) (consumed p) rest in
    (outFrames p ++ fs, r, e).

Definition parse_post (f : PacketFramer) (ex : ParseExit) : Prop :=
  match ex with
  | ExitTooLarge => (parse_all (options_ f) (pending f)).2 = EndTooLarge
  | ExitDone p b =>
      0 <= consumed p <= bufferedBytes_ f /\
      parse_all (options_ f) (pending f) =
        (outFrames p, zdrop (consumed p) (pending f), if b then EndOfBudget else EndOfData)
  | ExitError e => e = bad_alloc
  end.

Lemma parse_step_ok f p :
  framer_ok f -> parse_inv f p ->
  match parse_step f p with
  | inl p' => parse_inv f p' /\
      0 <= bufferedBytes_ f - consumed p' < bufferedBytes_ f - consumed p
  | inr ex => parse_post f ex
  end.
Proof.
  intros Hf (Hc & Hpr & Hmx & Heq). pose proof (zlen_pending f Hf) as Hlen.
  unfold parse_step, parse_post. framer_facts.
  rewrite (uwrap_small (bufferedBytes_ f - consumed p)) by lia.
  set (rest := zdrop (consumed p) (pending f)) in *.
  assert (zlen rest = bufferedBytes_ f - consumed p) as Hrest.
  { unfold rest, zlen, zdrop in *. rewrite length_drop. lia. }
  destruct (Z.leb_spec 4 (bufferedBytes_ f - consumed p)) as [H4|H4].
  2: { split; [done|]. rewrite Heq.
       assert (cut_frame (maxPayloadBytes (options_ f)) rest = CutShort) as Hcut.
       { unfold zlen in Hrest. destruct rest as [|? [|? [|? [|? ?]]]]; try done. simpl in Hrest. lia. }
       destruct (length rest); simpl; rewrite Hcut; by rewrite app_nil_r. }
  destruct (readLength_ok f (consumed p) Hf ltac:(lia) ltac:(lia)) as (b0 & b1 & b2 & b3 & -> & Hd).
  fold rest in Hd. pose proof (be32_bound b0 b1 b2 b3) as Hbe.
  set (n := be32 b0 b1 b2 b3) in *. set (tl := zdrop (consumed p + 4) (pending f)) in *.
  assert (zlen tl = bufferedBytes_ f - consumed p - 4) as Htl.
  { rewrite Hd in Hrest. unfold zlen in *. simpl in Hrest. lia. }
  assert (cut_frame (maxPayloadBytes (options_ f)) rest =
    if maxPayloadBytes (options_ f) <? n then CutTooLarge
    else if zlen tl <? n then CutShort else CutFrame (ztake n tl) (zdrop n tl)) as Hcut
    by (by rewrite Hd).
  assert (length rest = S (length rest - 1)) as Hlr by (rewrite Hd; simpl; lia).
  rewrite Hlr in Heq. simpl in Heq. rewrite Hcut in Heq.
  destruct (Z.ltb_spec (maxPayloadBytes (options_ f)) n) as [Hbig|Hbig].
  { rewrite Heq. done. }
  rewrite (uwrap_small (4 + n)) by lia.
  assert ((bufferedBytes_ f - consumed p <? 4 + n) = (zlen tl <? n)) as ->.
  { rewrite Htl. destruct (Z.ltb_spec (bufferedBytes_ f - consumed p) (4 + n));
      destruct (Z.ltb_spec (bufferedBytes_ f - consumed p - 4) n); lia. }
  destruct (Z.ltb_spec (zlen tl) n) as [Hshort|Hshort].
  { split; [done|]. rewrite Heq. by rewrite app_nil_r. }
  assert (zlen (ztake n tl) = n) as Hpayl.
  { unfold zlen, ztake in *. rewrite length_take. lia. }
  rewrite Hpr, (uwrap_small (maxFrameBytesPerPush (options_ f) - consumed p)) by lia.
  rewrite Hpayl in Heq. unfold kLengthBytes in Heq.
  destruct (_ || _) eqn:Hbud.
  { split; [done|]. rewrite Heq. by rewrite app_nil_r. }
  zify_bools. rewrite (uwrap_small (consumed p + 4)), (uwrap_small (consumed p + (4 + n))) by lia.
  rewrite copyPayload_ok by (done || lia). fold tl. destruct (payload_ok n); [|done]. destruct (frame_slot_ok _); [cbn [negb]|done].
  split; [|simpl; lia]. unfold parse_inv. simpl. split_and!; try lia.
  rewrite Heq. rewrite zlen_app. change (zlen [ztake n tl]) with 1.
  assert (zdrop (consumed p + (4 + n)) (pending f) = zdrop n tl) as ->.
  { unfold tl, zdrop. rewrite drop_drop. f_equal. lia. }
  rewrite (spec_parse_fuel (length rest - 1) (length (zdrop n tl))).
  - destruct (spec_parse (length (zdrop n tl)) _ _ _ _) as [[fs r] e]. cbn.
    by rewrite <- app_assoc.
  - rewrite Hd. unfold zdrop. rewrite length_drop. simpl. lia.
  - lia.
Qed.

Lemma parse_loop_ok f :
  framer_ok f ->
  exists ex, loop usize_fuel (parse_step f) (mkParse 0 0 []) = Some ex /\ parse_post f ex.
Proof.
  intros Hf.
  apply (loop_total (parse_step f) (parse_inv f) (fun p => bufferedBytes_ f - consumed p)
           (parse_post f)).
  - intros p Hp. by apply parse_step_ok.
  - framer_facts. unfold parse_inv, parse_all. simpl. split_and!; try lia.
    unfold zdrop. simpl. rewrite drop_0. change (zlen (@nil (list byte))) with 0.
    by destruct (spec_parse _ _ _ _ _) as [[fs r] e].
  - framer_facts. unfold usize_fuel. simpl. lia.
Qed.

Lemma set_faulted_ok b f : framer_ok f -> framer_ok (set_faulted b f).
Proof. intros []. by constructor. Qed.

(** Dropping everything and latching the fault. *)
Lemma fault_ok f (r : FrameResult) :
  framer_ok f ->
  exists f', bindM clearBuffer (fun _ => bindM (modify (set_faulted true)) (fun _ => ret r)) f
               = (Ok r, f') /\ framer_ok f' /\ pending f' = [] /\
             options_ f' = options_ f /\ faulted_ f' = true.
Proof.
  intros Hf. destruct (clear_preserves f Hf) as (f' & Hc & Hf' & Hp & Ho & _).
  unfold bindM. rewrite Hc. step_m. eexists. split; [done|].
  split_and!; try done. by apply set_faulted_ok.
Qed.

(** Leaving the loop normally. *)
Lemma finish_ok f c (res : FrameResult) :
  framer_ok f -> 0 <= c <= bufferedBytes_ f ->
  exists f', bindM (if c =? 0 then ret tt else consume c)
               (fun _ => bindM trimRetainedCapacity (fun _ => ret res)) f = (Ok res, f') /\
    framer_ok f' /\ same_config f f' /\ pending f' = zdrop c (pending f).
Proof.
  intros Hf Hc.
  assert (exists f1, (if c =? 0 then ret tt else consume c) f = (Ok tt, f1) /\ framer_ok f1 /\
            same_config f f1 /\ pending f1 = zdrop c (pending f)) as (f1 & H1 & Hf1 & Hs1 & Hp1).
  { destruct (Z.eqb_spec c 0) as [->|E]; [by exists f; split_and!|]. apply consume_ok; [done|lia]. }
  destruct (trim_preserves f1 Hf1) as (r & f' & Ht & Hf' & Hp & Ho & Hfl & _).
  exists f'. unfold bindM. rewrite H1, Ht. split_and!; [done..| |by rewrite Hp].
  destruct Hs1. split; congruence.
Qed.

(** What a push that throws leaves: either everything as it was, when the storage could not
    grow; or the chunk is buffered behind what was there, when a frame could not be
    extracted: then the frames extracted before are given up with the result, but none has
    been consumed. *)
Definition spec_throw (f : PacketFramer) (bytes : list byte) (f' : PacketFramer) : Prop :=
  f' = f \/ faulted_ f = false /\ faulted_ f' = false /\ pending f' = pending f ++ bytes /\ options_ f' = options_ f.

Lemma push_ok f bytes :
  framer_ok f -> zlen bytes <= ptrdiff_max ->
  exists r f', push bytes f = (r, f') /\ framer_ok f' /\ options_ f' = options_ f /\
    match r with
    | Ok res =>
        spec_push (options_ f) (pending f) (faulted_ f) bytes = (res, (pending f', faulted_ f'))
    | Throw e => (e = length_error \/ e = bad_alloc) /\ spec_throw f bytes f'
    end.
Proof.
  intros Hf Hb. pose proof (zlen_pending f Hf) as Hlen. pose proof (zlen_nonneg bytes) as Hnn.
  unfold push, spec_push. rewrite (bindM_ok get _ f f f) by done.
  destruct (faulted_ f) eqn:Hfl.
  { eexists (Ok _), f. rewrite Hfl. by split_and!. }
  assert ((maxBufferedBytes (options_ f) ⊖ bufferedBytes_ f <? zlen bytes) =
          (maxBufferedBytes (options_ f) <? zlen (pending f) + zlen bytes)) as ->.
  { framer_facts. rewrite uwrap_small by lia.
    destruct (Z.ltb_spec (maxBufferedBytes (options_ f) - bufferedBytes_ f) (zlen bytes));
      destruct (Z.ltb_spec (maxBufferedBytes (options_ f)) (zlen (pending f) + zlen bytes)); lia. }
  destruct (Z.ltb_spec (maxBufferedBytes (options_ f)) (zlen (pending f) + zlen bytes)) as [Hov|Hov].
  { destruct (fault_ok f (mkFrameResult BufferLimitExceeded [] false) Hf)
      as (f' & -> & Hf' & Hp & Ho & Hfl').
    eexists (Ok _), f'. rewrite Hp, Hfl'. by split_and!. }
  assert (exists r f1, (if zlen bytes =? 0 then ret tt else appendBytes bytes) f = (r, f1) /\
            framer_ok f1 /\ same_config f f1 /\
            match r with
            | Ok _ => pending f1 = pending f ++ bytes
            | Throw e => (e = length_error \/ e = bad_alloc) /\ f1 = f
            end) as (r & f1 & H1 & Hf1 & [Ho1 Hfl1] & Hpost).
  { destruct (Z.eqb_spec (zlen bytes) 0) as [E|E].
    - exists (Ok tt), f. split_and!; try done. rewrite (zlen_nil_inv bytes) by done.
      by rewrite app_nil_r.
    - apply appendBytes_ok; [done|lia|]. lia. }
  unfold bindM at 1. rewrite H1. destruct r as [[]|e].
  2: { exists (Throw e), f1. destruct Hpost as [? ->]. split_and!; try done. by left. }
  rewrite (bindM_ok get _ f1 f1 f1) by done.
  destruct (parse_loop_ok f1 Hf1) as (ex & -> & Hex). unfold parse_post, parse_all in Hex.
  rewrite Ho1, Hpost in Hex. destruct ex as [|p b|e].
  - destruct (fault_ok f1 (mkFrameResult FrameTooLarge [] false) Hf1)
      as (f' & -> & Hf' & Hp & Ho & Hfl').
    eexists (Ok _), f'. rewrite Hp, Hfl', Ho. split_and!; try done. revert Hex.
    destruct (spec_parse _ _ _ _ _) as [[fs rest] pe]. simpl. intros ->. by destruct fs.
  - destruct Hex as [Hc Hex]. rewrite Hex.
    edestruct (finish_ok f1 (consumed p)) as (f' & Hfin & Hf' & [Ho' Hfl'] & Hp); [done..|].
    rewrite Hfin. eexists (Ok _), f'. split; [done|]. split; [done|]. split; [congruence|].
    rewrite Hp, Hpost, Hfl', Hfl1, Hfl. by destruct b, (outFrames p).
  - subst e. exists (Throw bad_alloc), f1. split_and!; try done; [by right|]. right. split_and!; congruence.
Qed.
End framer_lemmas.

(** ** Streams *)

(** Every frame of a byte stream, up to the first incomplete or oversized one. *)
Fixpoint decode (fuel : nat) (maxPayload : Z) (l : list byte) : list (list byte) :=
  match fuel, cut_frame maxPayload l with
  | S k, CutFrame p rest => p :: decode k maxPayload rest
  | _, _ => []
  end.
Definition decode_all (maxPayload : Z) (l : list byte) := decode (length l) maxPayload l.

Lemma decode_fuel k1 k2 mx l :
  (length l <= k1)%nat -> (length l <= k2)%nat -> decode k1 mx l = decode k2 mx l.
Proof.
  revert k2 l. induction k1 as [|k1 IH]; intros k2 l H1 H2.
  - assert (l = []) as -> by (destruct l; [done|simpl in H1; lia]). by destruct k2.
  - destruct k2 as [|k2]; [assert (l = []) as -> by (destruct l; [done|simpl in H2; lia]); done|].
    simpl. destruct (cut_frame mx l) as [| |p rest] eqn:E; try done.
    pose proof (cut_frame_length _ _ _ _ E) as (Hl & _). unfold zlen, kLengthBytes in Hl.
    f_equal. apply IH; lia.
Qed.

Lemma decode_all_cons mx l p rest :
  cut_frame mx l = CutFrame p rest -> decode_all mx l = p :: decode_all mx rest.
Proof.
  intros E. pose proof (cut_frame_length _ _ _ _ E) as (Hl & _). unfold zlen, kLengthBytes in Hl.
  unfold decode_all. destruct (length l) as [|k] eqn:Ek; [lia|]. simpl. rewrite E. f_equal.
  apply decode_fuel; lia.
Qed.

(** A complete frame stays the first frame when more bytes arrive. *)
Lemma cut_frame_app mx l p rest x :
  cut_frame mx l = CutFrame p rest -> cut_frame mx (l ++ x) = CutFrame p (rest ++ x).
Proof.
  unfold cut_frame. destruct l as [|b0 [|b1 [|b2 [|b3 l]]]]; try done. simpl.
  pose proof (be32_bound b0 b1 b2 b3). intros Hc. repeat case_if; simplify_eq; try done.
  - rewrite zlen_app in *. pose proof (zlen_nonneg x). lia.
  - unfold zlen, ztake, zdrop in *. f_equal.
    + apply take_app_le. lia.
    + apply drop_app_le. lia.
Qed.

(** The frames of one push are the first frames of the stream. *)
Lemma spec_parse_decode k o cnt used l x fs rest e :
  (length l <= k)%nat -> spec_parse k o cnt used l = (fs, rest, e) ->
  decode_all (maxPayloadBytes o) (l ++ x) = fs ++ decode_all (maxPayloadBytes o) (rest ++ x).
Proof.
  revert cnt used l fs rest e. induction k as [|k IH]; intros cnt used l fs rest e Hk Hs;
    simpl in Hs; destruct (cut_frame _ l) as [| |p r] eqn:E; simplify_eq; try done.
  - case_if; by simplify_eq.
  - case_if; [by simplify_eq|]. pose proof (cut_frame_length _ _ _ _ E) as (Hl & _).
    unfold zlen, kLengthBytes in Hl.
    destruct (spec_parse k _ _ _ r) as [[fs' r'] e'] eqn:Hr. simplify_eq.
    rewrite (decode_all_cons _ _ p (r ++ x)) by (by apply cut_frame_app).
    simpl. f_equal. eapply IH; [lia|done].
Qed.

(** Wire size of a list of frames. *)
Definition frame_bytes (fs : list (list byte)) : Z := zsum (fun p => kLengthBytes + zlen p) fs.

(** Budgets: the frames of one push, their total size, and the reason to stop. *)
Lemma spec_parse_budget k o cnt used l fs rest e :
  (length l <= k)%nat ->
  0 <= cnt <= maxFramesPerPush o -> 0 <= used <= maxFrameBytesPerPush o ->
  spec_parse k o cnt used l = (fs, rest, e) ->
  cnt + zlen fs <= maxFramesPerPush o /\
  used + frame_bytes fs <= maxFrameBytesPerPush o /\
  (e = EndOfBudget -> exists p r, cut_frame (maxPayloadBytes o) rest = CutFrame p r /\
     (maxFramesPerPush o <= cnt + zlen fs \/
      maxFrameBytesPerPush o < used + frame_bytes fs + (kLengthBytes + zlen p))) /\
  (e = EndOfData -> cut_frame (maxPayloadBytes o) rest = CutShort).
Proof.
  revert cnt used l fs rest e. induction k as [|k IH]; intros cnt used l fs rest e Hk Hc Hu Hs;
    simpl in Hs; destruct (cut_frame _ l) as [| |p r] eqn:E; simplify_eq; simpl;
    try (unfold zlen, frame_bytes; simpl; split_and!; [lia|lia|done..]).
  { pose proof (cut_frame_length _ _ _ _ E) as (Hl & _). unfold zlen, kLengthBytes in Hl. lia. }
  pose proof (cut_frame_length _ _ _ _ E) as (Hl & _). unfold kLengthBytes in *.
  destruct (_ || _) eqn:Hb.
  - simplify_eq. unfold zlen, frame_bytes in *. simpl. split_and!; [lia|lia| |done].
    intros _. exists p, r. split; [done|]. apply orb_true_iff in Hb.
    rewrite Z.leb_le, Z.ltb_lt in Hb. unfold kLengthBytes. lia.
  - zify_bools. destruct (spec_parse k _ _ _ r) as [[fs' r'] e'] eqn:Hr. simplify_eq.
    pose proof (zlen_nonneg p).
    apply IH in Hr as (Hn1 & Hn2 & Hn3 & Hn4); [|unfold zlen in *; lia|lia|lia].
    assert (zlen (p :: fs') = 1 + zlen fs') as -> by (unfold zlen; simpl; lia).
    change (frame_bytes (p :: fs')) with (4 + zlen p + frame_bytes fs').
    split_and!; [lia|lia| |done].
    intros He. destruct (Hn3 He) as (p' & r'' & Hcut & Hor). exists p', r''.
    split; [done|]. lia.
Qed.

Definition healthy (r : FrameResult) : Prop :=
  status r = NeedMoreData \/ status r = FramesReady \/ status r = BudgetExhausted.

(** A stream that is a sequence of whole frames within the payload limit. *)
Definition well_framed (mx : Z) (l : list byte) : Prop :=
  frame_bytes (decode_all mx l) = zlen l.

Lemma cut_too_large_app mx l x :
  cut_frame mx l = CutTooLarge -> cut_frame mx (l ++ x) = CutTooLarge.
Proof.
  unfold cut_frame. destruct l as [|b0 [|b1 [|b2 [|b3 l]]]]; try done. simpl.
  intros Hc. repeat case_if; by simplify_eq.
Qed.

Lemma cut_stuck_decode mx l :
  match cut_frame mx l with CutFrame _ _ => False | _ => True end -> decode_all mx l = [].
Proof. unfold decode_all. destruct (length l); simpl; [done|]. by destruct (cut_frame mx l). Qed.

(** Cutting frames from a prefix of a well-framed stream never meets an
    oversized length, and what remains is well framed. *)
Lemma spec_parse_well_framed k o cnt used l x fs rest e :
  (length l <= k)%nat -> well_framed (maxPayloadBytes o) (l ++ x) ->
  spec_parse k o cnt used l = (fs, rest, e) ->
  e <> EndTooLarge /\ well_framed (maxPayloadBytes o) (rest ++ x).
Proof.
  revert cnt used l fs rest e. induction k as [|k IH]; intros cnt used l fs rest e Hk Hw Hs;
    simpl in Hs; destruct (cut_frame _ l) as [| |p r] eqn:E; simplify_eq; try done.
  1,3: exfalso; unfold well_framed in Hw; apply (cut_too_large_app _ _ x) in E as E';
    rewrite cut_stuck_decode in Hw by (by rewrite E'); symmetry in Hw;
    apply zlen_nil_inv in Hw; apply app_eq_nil in Hw as [-> _]; done.
  - case_if; by simplify_eq.
  - case_if; [by simplify_eq|]. pose proof (cut_frame_length _ _ _ _ E) as (Hl & _).
    unfold kLengthBytes in Hl.
    destruct (spec_parse k _ _ _ r) as [[fs' r'] e'] eqn:Hr. simplify_eq.
    refine (IH _ _ r _ _ _ _ _ Hr); [unfold zlen in Hl; lia|]. unfold well_framed in *.
    rewrite (decode_all_cons _ _ p (r ++ x)) in Hw by (by apply cut_frame_app).
    rewrite zlen_app in *. change (frame_bytes (p :: ?fs)) with (kLengthBytes + zlen p + frame_bytes fs) in Hw.
    unfold kLengthBytes in *. lia.
Qed.

Section streams.
Context `{Allocator} `{FrameAllocator}.

(** Pushing a sequence of received chunks; an empty chunk is a continuation. *)
Fixpoint push_all (chunks : list (list byte)) : M PacketFramer (list FrameResult) :=
  match chunks with
  | [] => ret []
  | c :: cs =>
      do r <- push c ;;
      do rs <- push_all cs ;;
      ret (r :: rs)
  end.

Definition delivered (rs : list FrameResult) : list (list byte) := concat (frames <$> rs).

(** The last push did not ask for a continuation. *)
Definition settled (rs : list FrameResult) : Prop :=
  match last rs with Some r => needsContinuation r = false | None => False end.

Lemma spec_push_stream o q bytes res q' fl x :
  well_framed (maxPayloadBytes o) (q ++ bytes ++ x) ->
  spec_push o q false bytes = (res, (q', fl)) -> status res <> BufferLimitExceeded ->
  healthy res /\ fl = false /\ well_framed (maxPayloadBytes o) (q' ++ x) /\
  decode_all (maxPayloadBytes o) (q ++ bytes ++ x)
    = frames res ++ decode_all (maxPayloadBytes o) (q' ++ x).
Proof.
  unfold spec_push, healthy. intros Hw Hs Hh. case_if; [by simplify_eq|].
  destruct (spec_parse _ _ _ _ _) as [[fs rest] e] eqn:Hp. rewrite app_assoc in Hw |- *.
  pose proof (spec_parse_well_framed _ _ _ _ _ _ _ _ _ (le_n _) Hw Hp) as [He Hw'].
  apply (spec_parse_decode _ _ _ _ _ x) in Hp; [|done].
  destruct e, fs; simplify_eq; simpl in *; split_and!; auto.
Qed.

Lemma spec_push_settled o q bytes res q' fl :
  framer_options_ok o ->
  spec_push o q false bytes = (res, (q', fl)) -> healthy res -> needsContinuation res = false ->
  decode_all (maxPayloadBytes o) q' = [].
Proof.
  unfold spec_push, healthy. intros Ho Hs Hh Hn.
  case_if; [simplify_eq; simpl in *; intuition congruence|].
  destruct (spec_parse _ _ _ _ _) as [[fs rest] e] eqn:Hp. framer_facts.
  apply spec_parse_budget in Hp as (_ & _ & _ & Hd); [|done|lia|lia].
  assert (e = EndOfData /\ rest = q') as [-> <-].
  { destruct e, fs; simplify_eq; simpl in *; intuition congruence. }
  apply cut_stuck_decode. by rewrite Hd.
Qed.

Lemma push_all_total chunks f :
  framer_ok f -> Forall (fun c => zlen c <= ptrdiff_max) chunks ->
  exists r f', push_all chunks f = (r, f') /\ framer_ok f' /\ options_ f' = options_ f /\
    match r with Ok _ => True | Throw e => e = length_error \/ e = bad_alloc end.
Proof.
  revert f. induction chunks as [|c cs IH]; intros f Hf Hcs; simpl.
  { eexists _, f. by split_and!. }
  apply Forall_cons in Hcs as [Hc Hcs].
  destruct (push_ok f c Hf Hc) as (r & f1 & Hpush & Hf1 & Ho1 & Hpost).
  unfold bindM at 1. rewrite Hpush. destruct r as [res|e]; [|by exists (Throw e), f1; destruct Hpost].
  destruct (IH f1 Hf1 Hcs) as (r & f2 & Hall & Hf2 & Ho2 & Hr).
  unfold bindM. rewrite Hall. destruct r as [rs|e]; eexists _, f2; split_and!; try done; congruence.
Qed.

(** The pushes deliver the frames of the stream in order, wherever the chunk
    boundaries fall, unless the backlog outgrows the buffering limit. *)
Definition stream_post (mx : Z) (stream q' : list byte) (rs : list FrameResult) : Prop :=
  (Forall healthy rs /\ delivered rs ++ decode_all mx q' = decode_all mx stream /\
   (settled rs -> q' = [])) \/
  Exists (fun r => status r = BufferLimitExceeded) rs.

Lemma push_all_stream chunks f :
  framer_ok f -> faulted_ f = false -> Forall (fun c => zlen c <= ptrdiff_max) chunks ->
  well_framed (maxPayloadBytes (options_ f)) (pending f ++ concat chunks) ->
  exists r f', push_all chunks f = (r, f') /\ framer_ok f' /\ options_ f' = options_ f /\
    match r with
    | Ok rs => stream_post (maxPayloadBytes (options_ f)) (pending f ++ concat chunks) (pending f') rs
    | Throw e => e = length_error \/ e = bad_alloc
    end.
Proof.
  revert f. induction chunks as [|c cs IH]; intros f Hf Hfl Hcs Hw.
  { eexists (Ok []), f. split_and!; try done. left. split; [done|].
    split; [by rewrite app_nil_r|done]. }
  simpl. apply Forall_cons in Hcs as [Hc Hcs].
  destruct (push_ok f c Hf Hc) as (r & f1 & Hpush & Hf1 & Ho1 & Hpost).
  unfold bindM at 1. rewrite Hpush. destruct r as [res|e]; [|by exists (Throw e), f1; destruct Hpost].
  destruct (decide (status res = BufferLimitExceeded)) as [Hb|Hb].
  { destruct (push_all_total cs f1 Hf1 Hcs) as (r & f2 & Hall & Hf2 & Ho2 & Hr).
    unfold bindM. rewrite Hall. destruct r as [rs|e]; eexists _, f2; split_and!; try done;
      try congruence. right. by constructor. }
  rewrite Hfl in Hpost.
  destruct (spec_push_stream _ _ _ _ _ _ (concat cs) Hw Hpost Hb) as (Hh & Hfl1 & Hw1 & Hdec).
  rewrite <- Ho1 in Hw1.
  destruct (IH f1 Hf1 Hfl1 Hcs Hw1) as (r & f2 & Hall & Hf2 & Ho2 & Hr). rewrite Ho1 in Hr, Hw1.
  unfold bindM. rewrite Hall. destruct r as [rs|e]; [|by exists (Throw e), f2; rewrite Ho2].
  eexists (Ok _), f2. split_and!; [done..|congruence|].
  destruct Hr as [(Hrs & Heq & Hset)|Hbad]; [left|right; by constructor 2].
  split; [by constructor|]. change (delivered (res :: rs)) with (frames res ++ delivered rs).
  split; [by rewrite <- app_assoc, Heq, <- Hdec|].
  destruct rs as [|r' rs']; [|exact Hset].
  destruct cs; simpl in Hall; [|unfold bindM in Hall; repeat case_match; simplify_eq].
  unfold ret in Hall. simplify_eq. unfold settled. simpl. intros Hn.
  rewrite app_nil_r in Hw1. apply zlen_nil_inv. rewrite <- Hw1.
  by rewrite (spec_push_settled _ _ _ _ _ _ (fr_options f Hf) Hpost Hh Hn).
Qed.
End streams.

(** ** Encoding round trip *)

Lemma land_255 z : Z.land z 255 = z mod 256.
Proof. change 255 with (Z.ones 8). rewrite Z.land_ones by lia. done. Qed.

Lemma encode_cut o p x bytes :
  0 <= maxPayloadBytes o -> encode o p = Some bytes ->
  zlen p <= maxPayloadBytes o /\ cut_frame (maxPayloadBytes o) (bytes ++ x) = CutFrame p x.
Proof.
  unfold encode. intros Hm He. case_if; [done|]. simplify_eq. split; [done|].
  pose proof (zlen_nonneg p). simpl. unfold be32. rewrite !byte_val_of, !land_255.
  rewrite !Z.shiftr_div_pow2 by lia.
  assert (((zlen p / 2 ^ 24) mod 256) mod 256 * 16777216 +
          ((zlen p / 2 ^ 16) mod 256) mod 256 * 65536 +
          ((zlen p / 2 ^ 8) mod 256) mod 256 * 256 + (zlen p mod 256) mod 256 = zlen p) as ->.
  { change (2 ^ 24) with 16777216. change (2 ^ 16) with 65536. change (2 ^ 8) with 256.
    rewrite !Z.mod_mod by lia. Z.to_euclidean_division_equations. lia. }
  rewrite (proj2 (Z.ltb_ge _ _)) by done. rewrite zlen_app.
  rewrite (proj2 (Z.ltb_ge _ _)) by (pose proof (zlen_nonneg x); lia).
  f_equal; unfold ztake, zdrop, zlen; rewrite Nat2Z.id; [apply take_app_length|apply drop_app_length].
Qed.

Lemma decode_encoded o ps encs x :
  0 <= maxPayloadBytes o -> Forall2 (fun p e => encode o p = Some e) ps encs ->
  decode_all (maxPayloadBytes o) (concat encs ++ x) = ps ++ decode_all (maxPayloadBytes o) x.
Proof.
  intros Hm. induction 1 as [|p e ps encs He _ IH]; simpl; [done|]. rewrite <- app_assoc.
  destruct (encode_cut o p (concat encs ++ x) e Hm He) as [_ Hcut].
  rewrite (decode_all_cons _ _ _ _ Hcut). by f_equal.
Qed.

Lemma PacketFramer_new_ok o f :
  0 <= maxPayloadBytes o -> is_usize (maxBufferedBytes o) -> is_usize (maxFramesPerPush o) ->
  is_usize (maxFrameBytesPerPush o) -> default 0 (trimThresholdBytes o) >= 0 ->
  default 0 (maxRetainedCapacityBytes o) >= 0 ->
  PacketFramer_new o = Ok f ->
  framer_ok f /\ pending f = [] /\ faulted_ f = false /\
  maxPayloadBytes (options_ f) = maxPayloadBytes o.
Proof.
  unfold PacketFramer_new, is_usize, kLengthBytes. intros Hp Hb Hc Hy Ht Hr Hn.
  case_if; [done|]. rewrite uwrap_small in Hn by lia.
  repeat (case_if; [done|]). simplify_eq. split_and!; try done.
  constructor; simpl; unfold vec_ok, vsize, zlen; simpl; try lia; try done.
  constructor; unfold kLengthBytes; simpl; try lia.
  eexists _, _. split_and!; try done; try lia.
  destruct (trimThresholdBytes o), (maxRetainedCapacityBytes o); simpl in *; lia.
Qed.

Lemma encode_length o p bytes :
  encode o p = Some bytes -> zlen bytes = kLengthBytes + zlen p.
Proof. unfold encode. intros. case_if; simplify_eq. unfold zlen, kLengthBytes. simpl. lia. Qed.

Lemma encoded_decode o ps encs :
  0 <= maxPayloadBytes o -> Forall2 (fun p e => encode o p = Some e) ps encs ->
  decode_all (maxPayloadBytes o) (concat encs) = ps.
Proof.
  intros Hm He. pose proof (decode_encoded o ps encs [] Hm He) as Hd.
  rewrite app_nil_r in Hd. rewrite Hd. apply app_nil_r.
Qed.

Lemma encoded_well_framed o ps encs :
  0 <= maxPayloadBytes o -> Forall2 (fun p e => encode o p = Some e) ps encs ->
  well_framed (maxPayloadBytes o) (concat encs).
Proof.
  intros Hm He. unfold well_framed. rewrite (encoded_decode o ps encs Hm He).
  induction He as [|p e ps encs He _ IH]; [done|]. simpl. rewrite zlen_app, (encode_length o p e He).
  change (frame_bytes (p :: ps)) with (kLengthBytes + zlen p + frame_bytes ps). lia.
Qed.

(** Options as a caller may write them: every field a [std::size_t]. *)
Definition usize_options (o : PacketFramerOptions) : Prop :=
  0 <= maxPayloadBytes o /\ is_usize (maxBufferedBytes o) /\ is_usize (maxFramesPerPush o) /\
  is_usize (maxFrameBytesPerPush o) /\ 0 <= default 0 (trimThresholdBytes o) /\
  0 <= default 0 (maxRetainedCapacityBytes o).

Section framer_claims.
Context `{Allocator} `{FrameAllocator}.

(** C12. [push] on the ring buffer implements the reference decoder on the list
    of buffered bytes: same frames, same status, same remaining bytes and same
    fault latch, for every state and every chunk.  It ends, touches no byte
    outside the ring and keeps at most [maxBufferedBytes] buffered in storage of
    at most that size.  When the storage cannot grow, it throws and leaves the framer as it
    was; when a frame cannot be extracted, it throws with the chunk buffered behind what was
    there and nothing consumed ([spec_throw]), so that no byte is lost. *)
Theorem push_refines_reference f bytes :
  framer_ok f -> zlen bytes <= ptrdiff_max ->
  exists r f', push bytes f = (r, f') /\ framer_ok f' /\
    zlen (pending f') <= vsize (storage_ f') <= maxBufferedBytes (options_ f) /\
    match r with
    | Ok res =>
        spec_push (options_ f) (pending f) (faulted_ f) bytes = (res, (pending f', faulted_ f'))
    | Throw e => (e = length_error \/ e = bad_alloc) /\ spec_throw f bytes f'
    end.
Proof.
  intros Hf Hb. destruct (push_ok f bytes Hf Hb) as (r & f' & Hp & Hf' & Ho & Hpost).
  exists r, f'. split_and!; try done; rewrite ?zlen_pending by done; framer_facts; rewrite <- ?Ho; lia.
Qed.

(** C4. Encoded payloads survive any chunking: a fresh framer that is pushed
    the concatenation of encoded frames, cut at arbitrary chunk boundaries
    (empty chunks ask for a continuation), delivers the payloads in order
    and complete once no continuation is pending, unless a push reports
    [BufferLimitExceeded] or an allocation fails. *)
Theorem framed_stream_round_trip o f ps encs chunks :
  usize_options o -> PacketFramer_new o = Ok f ->
  Forall2 (fun p e => encode o p = Some e) ps encs ->
  concat chunks = concat encs -> Forall (fun c => zlen c <= ptrdiff_max) chunks ->
  exists r f', push_all chunks f = (r, f') /\
    match r with
    | Ok rs =>
        (Forall healthy rs /\ delivered rs ++ decode_all (maxPayloadBytes o) (pending f') = ps /\
         (settled rs -> delivered rs = ps /\ pending f' = [])) \/
        Exists (fun r => status r = BufferLimitExceeded) rs
    | Throw e => e = length_error \/ e = bad_alloc
    end.
Proof.
  intros (Hm & Hb & Hc & Hy & Ht & Hr) Hnew Henc Hcat Hcs.
  destruct (PacketFramer_new_ok o f Hm Hb Hc Hy) as (Hf & Hp & Hfl & Ho); [lia..|done|].
  destruct (push_all_stream chunks f Hf Hfl Hcs) as (r & f' & Hall & _ & _ & Hpost).
  { rewrite Hp, Ho, Hcat. by apply (encoded_well_framed o ps). }
  exists r, f'. split; [done|]. destruct r as [rs|e]; [|done].
  rewrite Hp, Ho, Hcat in Hpost. simpl in Hpost.
  destruct Hpost as [(Hh & Hd & Hs)|?]; [left|by right].
  rewrite (encoded_decode o ps encs Hm Henc) in Hd. split_and!; try done.
  intros Hset. specialize (Hs Hset). split; [|done].
  rewrite Hs in Hd. by rewrite app_nil_r in Hd.
Qed.

(** What a push that left [q'] buffered promises about its budgets. *)
Definition budget_post (o : PacketFramerOptions) (res : FrameResult) (q' : list byte) : Prop :=
  zlen (frames res) <= maxFramesPerPush o /\
  frame_bytes (frames res) <= maxFrameBytesPerPush o /\
  (needsContinuation res = true <-> status res = BudgetExhausted) /\
  (needsContinuation res = true ->
     frames res <> [] /\ exists p rest, cut_frame (maxPayloadBytes o) q' = CutFrame p rest) /\
  (healthy res -> needsContinuation res = false ->
     cut_frame (maxPayloadBytes o) q' = CutShort).

Lemma budget_refused o st q' :
  framer_options_ok o -> st = Faulted \/ st = BufferLimitExceeded \/ st = FrameTooLarge ->
  budget_post o (mkFrameResult st [] false) q'.
Proof.
  intros Ho Hst. framer_facts. unfold budget_post, healthy, zlen, frame_bytes. simpl.
  split_and!; [lia|lia|split; [done|]|done|]; intuition congruence.
Qed.

Lemma spec_push_budgets o q fl bytes res q' fl' :
  framer_options_ok o -> spec_push o q fl bytes = (res, (q', fl')) -> budget_post o res q'.
Proof.
  intros Ho. unfold spec_push.
  destruct fl; [intros; simplify_eq; apply budget_refused; auto|].
  case_if; [intros; simplify_eq; apply budget_refused; auto|].
  destruct (spec_parse _ _ _ _ _) as [[fs rest] e] eqn:Hs. framer_facts.
  apply spec_parse_budget in Hs as (Hn & Hy & Hbud & Hend); [|done|lia|lia].
  destruct e; [| |destruct fs; intros; simplify_eq; apply budget_refused; auto].
  - specialize (Hend eq_refl). unfold budget_post.
    destruct fs; intros; simplify_eq; simpl in *; (split_and!; [lia|lia|done..]).
  - destruct (Hbud eq_refl) as (p & r & Hcut & Hor). intros Heq.
    assert (res = mkFrameResult BudgetExhausted fs true /\ q' = rest) as [-> ->]
      by (destruct fs; by simplify_eq).
    unfold budget_post. simpl. split_and!; [lia|lia|done| |done]. intros _. split; [|eauto].
    intros ->. pose proof (cut_frame_length _ _ _ _ Hcut) as (? & ? & ?).
    unfold frame_bytes, zlen, kLengthBytes in *. simpl in *. lia.
Qed.

(** The work of one [push] is bounded: at most [maxFramesPerPush] frames of
    at most [maxFrameBytesPerPush] bytes are delivered.  A continuation is
    requested exactly when a budget ran out, which leaves a complete frame
    buffered and has delivered at least one; without it no complete frame is
    left behind. *)
Theorem push_budgets f bytes res f' :
  framer_ok f -> zlen bytes <= ptrdiff_max -> push bytes f = (Ok res, f') ->
  budget_post (options_ f) res (pending f').
Proof.
  intros Hf Hb Hp. destruct (push_ok f bytes Hf Hb) as (r & f1 & Hp' & _ & _ & Hpost).
  rewrite Hp in Hp'. simplify_eq. by eapply spec_push_budgets; [apply fr_options|].
Qed.

(** A protocol fault latches: after a push reports [FrameTooLarge] or
    [BufferLimitExceeded] the buffered bytes are gone and every later push
    reports [Faulted] and changes nothing, until [reset] makes the framer
    usable again, empty and with the same options. *)
Theorem fault_latches_until_reset f bytes res f1 chunks :
  framer_ok f -> zlen bytes <= ptrdiff_max -> push bytes f = (Ok res, f1) -> ~ healthy res ->
  pending f1 = (if faulted_ f then pending f else []) /\
  push_all chunks f1 = (Ok (replicate (length chunks) (mkFrameResult Faulted [] false)), f1) /\
  exists f2, reset f1 = (Ok tt, f2) /\ framer_ok f2 /\ pending f2 = [] /\
    faulted_ f2 = false /\ options_ f2 = options_ f.
Proof.
  intros Hf Hb Hp Hh. destruct (push_ok f bytes Hf Hb) as (r & f' & Hp' & Hf' & Ho & Hpost).
  rewrite Hp in Hp'. injection Hp' as <- <-.
  assert (faulted_ f1 = true /\ pending f1 = (if faulted_ f then pending f else [])) as [Hfl Hq].
  { unfold spec_push, healthy in *. destruct (faulted_ f); [by simplify_eq|].
    case_if; [by simplify_eq|]. destruct (spec_parse _ _ _ _ _) as [[fs rest] []], fs;
      simplify_eq; simpl in *; intuition congruence. }
  split_and!; [done| |].
  - induction chunks as [|c cs IH]; [done|]. simpl.
    rewrite (bindM_ok _ _ _ (mkFrameResult Faulted [] false) f1)
      by (unfold push; step_m; by rewrite Hfl).
    by rewrite (bindM_ok _ _ _ _ _ IH).
  - destruct (clear_preserves f1 Hf') as (f2 & Hc & Hf2 & Hp2 & Ho2 & _).
    exists (set_faulted false f2). unfold reset, bindM. rewrite Hc. split_and!; try done.
    + by apply set_faulted_ok.
    + simpl. congruence.
Qed.
End framer_claims.

(** [encode] accepts exactly the payloads within the configured and the
    32-bit limit; the frame it makes is four bytes longer than the payload,
    and cutting it off the front of any stream gives the payload back. *)
Theorem encode_round_trip o p x :
  0 <= maxPayloadBytes o ->
  match encode o p with
  | Some bytes => zlen p <= maxPayloadBytes o /\ zlen bytes = 4 + zlen p /\
      cut_frame (maxPayloadBytes o) (bytes ++ x) = CutFrame p x
  | None => maxPayloadBytes o < zlen p \/ u32_max < zlen p
  end.
Proof.
  intros Hm. destruct (encode o p) as [bytes|] eqn:He.
  - destruct (encode_cut o p x bytes Hm He). split_and!; [done|exact (encode_length o p bytes He)|done].
  - unfold encode in He. destruct (_ || _) eqn:E; [|done]. apply orb_true_iff in E.
    rewrite !Z.ltb_lt in E. done.
Qed.

(** ** Concrete runs *)

(** Memory for everything, and for one frame of a push. *)
Definition ample_frames : FrameAllocator := {| payload_ok _ := true; frame_slot_ok _ := true |}.
Definition one_frame : FrameAllocator := {| payload_ok _ := true; frame_slot_ok n := n <? 1 |}.

Definition demo_options : PacketFramerOptions := mkOptions 16 64 2 40 None None.
Definition demo_framer : PacketFramer :=
  mkFramer (mkOptions 16 64 2 40 (Some 20) (Some 20)) (Vec [] 0) 0 0 0 0 false false.
Definition demo_payloads : list (list byte) :=
  [[Byte.x61]; []; [Byte.x62; Byte.x63]; [Byte.x64]].
Definition demo_encoded : list (list byte) :=
  [[Byte.x00; Byte.x00; Byte.x00; Byte.x01; Byte.x61]; [Byte.x00; Byte.x00; Byte.x00; Byte.x00];
   [Byte.x00; Byte.x00; Byte.x00; Byte.x02; Byte.x62; Byte.x63];
   [Byte.x00; Byte.x00; Byte.x00; Byte.x01; Byte.x64]].
(** Cut inside a length prefix, everything else at once, then a continuation. *)
Definition demo_chunks : list (list byte) :=
  [take 2 (concat demo_encoded); drop 2 (concat demo_encoded); []].

Lemma demo_framer_new : PacketFramer_new demo_options = Ok demo_framer.
Proof. vm_compute. reflexivity. Qed.

Lemma demo_usize_options : usize_options demo_options.
Proof. unfold usize_options, is_usize. simpl. lia. Qed.

Lemma demo_framer_ok : framer_ok demo_framer.
Proof.
  destruct demo_usize_options as (Hm & Hb & Hc & Hy & Ht & Hr).
  refine (proj1 (PacketFramer_new_ok demo_options demo_framer Hm Hb Hc Hy _ _ demo_framer_new)); lia.
Qed.

Lemma push_refines_reference_witness :
  exists r f', @push doubling_allocator ample_frames (concat demo_encoded) demo_framer = (r, f') /\
    r = Ok (mkFrameResult BudgetExhausted [[Byte.x61]; []] true) /\ zlen (pending f') <= 64.
Proof.
  destruct (push_refines_reference (H := doubling_allocator) (H0 := ample_frames) demo_framer (concat demo_encoded))
    as (r & f' & Hp & _ & Hlen & _).
  - apply demo_framer_ok.
  - vm_compute. discriminate.
  - exists r, f'. split; [exact Hp|]. split; [|simpl in Hlen; lia].
    transitivity (@push doubling_allocator ample_frames (concat demo_encoded) demo_framer).1;
      [by rewrite Hp|vm_compute; reflexivity].
Defined.

(** The second frame cannot be extracted: the push throws, and holds the whole chunk. *)
Lemma push_throws_midway :
  exists f', @push doubling_allocator one_frame (concat demo_encoded) demo_framer = (Throw bad_alloc, f') /\
    pending f' = concat demo_encoded.
Proof. eexists. split; [vm_compute; reflexivity|vm_compute; reflexivity]. Qed.

Lemma framed_stream_round_trip_witness :
  exists rs f', @push_all doubling_allocator ample_frames demo_chunks demo_framer = (Ok rs, f') /\
    delivered rs = demo_payloads.
Proof.
  destruct (framed_stream_round_trip (H := doubling_allocator) (H0 := ample_frames) demo_options demo_framer
    demo_payloads demo_encoded demo_chunks) as (r & f' & Hp & Hpost).
  - apply demo_usize_options.
  - apply demo_framer_new.
  - unfold demo_payloads, demo_encoded. repeat constructor.
  - reflexivity.
  - unfold demo_chunks. repeat constructor; vm_compute; discriminate.
  - assert ((@push_all doubling_allocator ample_frames demo_chunks demo_framer).1 = r) as Hr by (by rewrite Hp).
    vm_compute in Hr. destruct r as [rs|e]; [|discriminate Hr].
    exists rs, f'. split; [exact Hp|]. injection Hr as <-.
    destruct Hpost as [(_ & _ & Hs)|He].
    + apply Hs. reflexivity.
    + repeat (apply Exists_cons in He as [He|He]; [discriminate He|]). inversion He.
Defined.

Lemma push_budgets_witness :
  exists res f', @push doubling_allocator ample_frames (concat demo_encoded) demo_framer = (Ok res, f') /\
    needsContinuation res = true /\ frames res <> [].
Proof.
  destruct (@push doubling_allocator ample_frames (concat demo_encoded) demo_framer) as [r f'] eqn:Hp.
  assert ((@push doubling_allocator ample_frames (concat demo_encoded) demo_framer).1 = r) as Hr by (by rewrite Hp).
  vm_compute in Hr. destruct r as [res|e]; [|discriminate Hr]. injection Hr as Hr.
  exists res, f'. split; [done|].
  assert (needsContinuation res = true) as Hn by (by rewrite <- Hr). split; [exact Hn|].
  refine (proj1 (proj1 (proj2 (proj2 (proj2
    (push_budgets (H := doubling_allocator) (H0 := ample_frames) demo_framer _ res f' demo_framer_ok _ Hp)))) Hn)).
  vm_compute. discriminate.
Defined.

(** A length prefix above the payload limit. *)
Definition oversized : list byte := [Byte.x00; Byte.x00; Byte.x01; Byte.x00].

Lemma fault_latches_until_reset_witness :
  exists res f1, @push doubling_allocator ample_frames oversized demo_framer = (Ok res, f1) /\
    status res = FrameTooLarge /\
    @push_all doubling_allocator ample_frames demo_chunks f1
      = (Ok (replicate 3 (mkFrameResult Faulted [] false)), f1).
Proof.
  destruct (@push doubling_allocator ample_frames oversized demo_framer) as [r f1] eqn:Hp.
  assert ((@push doubling_allocator ample_frames oversized demo_framer).1 = r) as Hr by (by rewrite Hp).
  vm_compute in Hr. destruct r as [res|e]; [|discriminate Hr]. injection Hr as Hr.
  exists res, f1. split; [done|]. split; [by rewrite <- Hr|].
  refine (proj1 (proj2 (fault_latches_until_reset (H := doubling_allocator) (H0 := ample_frames) demo_framer oversized
    res f1 demo_chunks demo_framer_ok _ Hp _))).
  - vm_compute. discriminate.
  - rewrite <- Hr. unfold healthy. simpl. intros [?|[?|?]]; discriminate.
Defined.

Lemma encode_round_trip_witness :
  encode demo_options [Byte.x62; Byte.x63]
    = Some [Byte.x00; Byte.x00; Byte.x00; Byte.x02; Byte.x62; Byte.x63] /\
  cut_frame 16 ([Byte.x00; Byte.x00; Byte.x00; Byte.x02; Byte.x62; Byte.x63] ++ oversized)
    = CutFrame [Byte.x62; Byte.x63] oversized.
Proof.
  pose proof (encode_round_trip demo_options [Byte.x62; Byte.x63] oversized) as He.
  split; [reflexivity|]. apply He. simpl. lia.
Defined.
