(* ===== verification/DeadlineQueue.v ===== *)
(** * The bucketed deadline queue

    Model of [gamenet::net::DeadlineQueue]
    (include/gamenet/core/net/DeadlineQueue.h, src/core/net/DeadlineQueue.cc):
    an index from keys to deadlines that rounds each deadline up to a bucket
    boundary and expires due entries in bucket order, under a budget per
    [advance].  The nodes of the [std::list] buckets live in a store of their
    own, so that the iterators kept in the key index are addresses and a
    dangling one shows up as [undefined_behaviour].

    Every member function runs on the owner loop's thread ([assertOwner]). *)

From S2P Require Import Prelude.

Local Open Scope Z_scope.

(** ** Data *)

Record DeadlineToken := mkToken { key : Z; generation : Z }.

Global Instance DeadlineToken_eq_dec : EqDecision DeadlineToken.
Proof. solve_decision. Defined.

Definition valid (t : DeadlineToken) : bool := negb (generation t =? 0).
Definition token_eqb (a b : DeadlineToken) : bool := bool_decide (a = b).

Record DeadlineQueueOptions := mkOptions { resolution : Z; maxExpiredPerAdvance : Z }.

Definition validate (o : DeadlineQueueOptions) : result unit :=
  if resolution o <=? 0 then Throw invalid_argument
  else if maxExpiredPerAdvance o =? 0 then Throw invalid_argument
  else Ok tt.

Record Entry := mkEntry { token : DeadlineToken; deadline : Z }.
(** An iterator into a bucket is the address of its node. *)
Record Location := mkLocation { bucketDeadline : Z; entry : Z }.

Record DeadlineExpiration := mkExpiration { exp_token : DeadlineToken; exp_deadline : Z }.
Record DeadlineAdvanceResult := mkAdvance {
  expired : list DeadlineExpiration;
  readyRemaining : bool;
  oldestReadyLatency : Z;
}.

(** [nodes] and [nextNode] are the store of list nodes. *)
Record DeadlineQueue := mkQueue {
  options : DeadlineQueueOptions;
  nextGeneration : Z;
  buckets : gmap Z (list Z);
  entries : gmap Z Location;
  nodes : gmap Z Entry;
  nextNode : Z;
}.

Definition set_buckets (f : gmap Z (list Z) -> gmap Z (list Z)) (q : DeadlineQueue) :=
  mkQueue (options q) (nextGeneration q) (f (buckets q)) (entries q) (nodes q) (nextNode q).
Definition set_entries (f : gmap Z Location -> gmap Z Location) (q : DeadlineQueue) :=
  mkQueue (options q) (nextGeneration q) (buckets q) (f (entries q)) (nodes q) (nextNode q).
Definition set_nodes (f : gmap Z Entry -> gmap Z Entry) (n : Z) (q : DeadlineQueue) :=
  mkQueue (options q) (nextGeneration q) (buckets q) (entries q) (f (nodes q)) n.
Definition set_generation (g : Z) (q : DeadlineQueue) :=
  mkQueue (options q) g (buckets q) (entries q) (nodes q) (nextNode q).

Definition DeadlineQueue_new (o : DeadlineQueueOptions) : result DeadlineQueue :=
  match validate o with
  | Throw e => Throw e
  | Ok _ => Ok (mkQueue o 1 ∅ ∅ ∅ 0)
  end.

(** Integer division of durations truncates toward zero. *)
Definition quantize (o : DeadlineQueueOptions) (deadline : Z) : Z :=
  let quotient := Z.quot deadline (resolution o) in
  let rounded := resolution o * quotient in
  if rounded <? deadline then
    if (i64_max - rounded) <? resolution o then i64_max else rounded + resolution o
  else rounded.

(** ** Bucket lists *)

(** [bucket->second.push_back(e)] and [std::prev(end())]: a fresh node. *)
Definition push_back (b : Z) (e : Entry) : M DeadlineQueue Z :=
  do q <- get ;;
  let a := nextNode q in
  run modify (set_nodes (fun ns => <[a := e]> ns) (a + 1)) ;;
  run modify (set_buckets (fun bs => <[b := default [] (bs !! b) ++ [a]]> bs)) ;;
  ret a.

(** [it->...]: reading through an iterator. *)
Definition deref (a : Z) : M DeadlineQueue Entry :=
  do q <- get ;;
  match nodes q !! a with
  | Some e => ret e
  | None => throw undefined_behaviour
  end.

(** [bucket->second.erase(it)]: the iterator must point into that list. *)
Definition bucket_erase (b a : Z) : M DeadlineQueue unit :=
  do q <- get ;;
  match buckets q !! b with
  | None => throw undefined_behaviour
  | Some l =>
      if bool_decide (a ∈ l) then
        run modify (set_buckets (fun bs => <[b := filter (fun x => x <> a) l]> bs)) ;;
        modify (set_nodes (fun ns => delete a ns) (nextNode q))
      else throw undefined_behaviour
  end.

(** [if (bucket->second.empty()) buckets.erase(bucket);] *)
Definition drop_if_empty (b : Z) : M DeadlineQueue unit :=
  modify (set_buckets (fun bs =>
    match bs !! b with
    | Some [] => delete b bs
    | _ => bs
    end)).

Definition eraseLocation (k : Z) (loc : Location) : M DeadlineQueue unit :=
  do q <- get ;;
  match buckets q !! bucketDeadline loc with
  | None => throw logic_error
  | Some _ =>
      run bucket_erase (bucketDeadline loc) (entry loc) ;;
      run modify (set_entries (fun es => delete k es)) ;;
      drop_if_empty (bucketDeadline loc)
  end.

(** ** Operations *)

(** Which of the allocations of [schedule] succeed: the bucket, the list node
    and the index entry. *)
Record schedule_alloc := mkAlloc { bucket_ok : bool; node_ok : bool; index_ok : bool }.
Definition all_ok : schedule_alloc := mkAlloc true true true.

(** The index update of [schedule], with the new node [a] in bucket [b]. *)
Definition schedule_index (mem : schedule_alloc) (k b a : Z) (old : option Location) :
    M DeadlineQueue unit :=
  match old with
  | Some existing =>
      run modify (set_entries (fun es => <[k := mkLocation b a]> es)) ;;
      do q2 <- get ;;
      match buckets q2 !! bucketDeadline existing with
      | None => throw logic_error
      | Some _ =>
          run bucket_erase (bucketDeadline existing) (entry existing) ;;
          drop_if_empty (bucketDeadline existing)
      end
  | None =>
      if index_ok mem then modify (set_entries (fun es => <[k := mkLocation b a]> es))
      else run bucket_erase b a ;; run drop_if_empty b ;; throw bad_alloc
  end.

Definition schedule (mem : schedule_alloc) (k d : Z) : M DeadlineQueue DeadlineToken :=
  do q <- get ;;
  run throw_if (nextGeneration q =? usize_max) overflow_error ;;
  let token := mkToken k (nextGeneration q) in
  let bucketDeadline := quantize (options q) d in
  let insertedBucket := bool_decide (buckets q !! bucketDeadline = None) in
  run throw_if (insertedBucket && negb (bucket_ok mem)) bad_alloc ;;
  run (if insertedBucket then modify (set_buckets (fun bs => <[bucketDeadline := []]> bs))
       else ret tt) ;;
  run (if node_ok mem then ret tt
       else run (if insertedBucket then drop_if_empty bucketDeadline else ret tt) ;;
            throw bad_alloc) ;;
  do newEntry <- push_back bucketDeadline (mkEntry token d) ;;
  run schedule_index mem k bucketDeadline newEntry (entries q !! k) ;;
  run modify (fun q => set_generation (nextGeneration q ⊕ 1) q) ;;
  ret token.

Definition cancel (t : DeadlineToken) : M DeadlineQueue bool :=
  if negb (valid t) then ret false
  else
    do q <- get ;;
    match entries q !! key t with
    | None => ret false
    | Some loc =>
        do e <- deref (entry loc) ;;
        if negb (token_eqb (token e) t) then ret false
        else run eraseLocation (key t) loc ;; ret true
    end.

(** [buckets.empty() || buckets.begin()->first > now], negated. *)
Definition ready (now : Z) (q : DeadlineQueue) : bool :=
  match map_min (buckets q) with
  | Some (b, _) => b <=? now
  | None => false
  end.

(** Which allocations of [advance] succeed: [expired.reserve], and the growth
    of the vector by a [push_back] beyond its capacity. *)
Record advance_alloc := mkAdvanceAlloc { reserve_ok : bool; grow_ok : bool }.
Definition advance_all_ok : advance_alloc := mkAdvanceAlloc true true.

(** The body of the loop of [advance]: expire the first entry of the first
    bucket; [room] says whether [expired.push_back] finds or obtains room. *)
Definition expire_first (room : bool) : M DeadlineQueue DeadlineExpiration :=
  do q <- get ;;
  match map_min (buckets q) with
  | Some (b, a :: _) =>
      do e <- deref a ;;
      run throw_if (negb room) bad_alloc ;;
      match entries q !! key (token e) with
      | None => throw logic_error
      | Some loc =>
          do e2 <- deref (entry loc) ;;
          run throw_if (negb (token_eqb (token e2) (token e))) logic_error ;;
          run modify (set_entries (fun es => delete (key (token e)) es)) ;;
          run bucket_erase b a ;;
          run drop_if_empty b ;;
          ret (mkExpiration (token e) (deadline e))
      end
  | _ => throw undefined_behaviour
  end.

Definition advance_step (mem : advance_alloc) (capacity now : Z) (s : list DeadlineExpiration * DeadlineQueue) :
    (list DeadlineExpiration * DeadlineQueue)
    + (result (list DeadlineExpiration) * DeadlineQueue) :=
  let '(acc, q) := s in
  if (zlen acc <? maxExpiredPerAdvance (options q)) && ready now q then
    match expire_first ((zlen acc <? capacity) || grow_ok mem) q with
    | (Ok x, q') => inl (acc ++ [x], q')
    | (Throw e, q') => inr (Throw e, q')
    end
  else inr (Ok acc, q).

Definition advance_loop (mem : advance_alloc) (capacity now : Z) :
    M DeadlineQueue (list DeadlineExpiration) := fun q =>
  match loop usize_fuel (advance_step mem capacity now) ([], q) with
  | Some r => r
  | None => (Throw undefined_behaviour, q)
  end.

Definition advance (mem : advance_alloc) (now : Z) : M DeadlineQueue DeadlineAdvanceResult :=
  do q <- get ;;
  match map_min (buckets q) with
  | None => ret (mkAdvance [] false 0)
  | Some (b, _) =>
      if now <? b then ret (mkAdvance [] false 0)
      else
        do latency <- lift (i64 (now - b)) ;;
        let capacity := Z.min (maxExpiredPerAdvance (options q)) (Z.of_nat (base.size (entries q))) in
        run throw_if (negb (reserve_ok mem)) bad_alloc ;;
        do xs <- advance_loop mem capacity now ;;
        do remaining <- gets (ready now) ;;
        ret (mkAdvance xs remaining latency)
  end.

Definition clear : M DeadlineQueue unit :=
  modify (fun q => mkQueue (options q) (nextGeneration q) ∅ ∅ ∅ (nextNode q)).

Definition size (q : DeadlineQueue) : Z := Z.of_nat (base.size (entries q)).

Definition nextBucketDeadline (q : DeadlineQueue) : option Z := fst <$> map_min (buckets q).

(** ** Rounding *)

Lemma quantize_bounds o d :
  0 < resolution o <= i64_max -> is_time d ->
  d <= quantize o d <= i64_max /\ quantize o d < d + resolution o.
Proof.
  unfold quantize, is_time. intros Hr Hd.
  pose proof (Z.quot_rem' d (resolution o)) as Hq.
  pose proof (Z.rem_bound_pos d (resolution o) ltac:(lia) ltac:(lia)) as Hm.
  repeat case_if; lia.
Qed.

(** ** Invariant

    [store_inv g q]: the buckets partition the nodes by rounded deadline, each
    in the order of their generations, all below [g].  [index_inv q]: the key
    index points at exactly those nodes. *)

Definition gen_of (q : DeadlineQueue) (a : Z) : Z :=
  match nodes q !! a with Some e => generation (token e) | None => 0 end.

Record store_inv (g : Z) (q : DeadlineQueue) : Prop := {
  st_node : forall a e, nodes q !! a = Some e ->
    is_Some (buckets q !! quantize (options q) (deadline e)) /\
    1 <= generation (token e) < g /\ is_time (deadline e) /\ a < nextNode q;
  st_bucket : forall b l, buckets q !! b = Some l ->
    l <> [] /\ StronglySorted (fun x y => gen_of q x < gen_of q y) l /\
    forall a, a ∈ l <-> exists e, nodes q !! a = Some e /\ quantize (options q) (deadline e) = b;
}.

Definition index_inv (q : DeadlineQueue) : Prop :=
  forall k loc, entries q !! k = Some loc <->
    exists e, nodes q !! entry loc = Some e /\ key (token e) = k /\
      quantize (options q) (deadline e) = bucketDeadline loc.

Definition options_ok (o : DeadlineQueueOptions) : Prop :=
  0 < resolution o <= i64_max /\ 1 <= maxExpiredPerAdvance o < usize_lim.

Record dq_inv (q : DeadlineQueue) : Prop := {
  dq_options : options_ok (options q);
  dq_generation : 1 <= nextGeneration q <= usize_max;
  dq_store : store_inv (nextGeneration q) q;
  dq_index : index_inv q;
}.

(** ** Abstraction: the pending deadlines by key *)

Definition abs (q : DeadlineQueue) : gmap Z (Z * Z) :=
  omap (fun loc => (fun e => (generation (token e), deadline e)) <$> nodes q !! entry loc) (entries q).

Lemma abs_lookup q k g d :
  index_inv q ->
  abs q !! k = Some (g, d) <-> exists a, nodes q !! a = Some (mkEntry (mkToken k g) d).
Proof.
  intros Hi. unfold abs. rewrite lookup_omap. split.
  - destruct (entries q !! k) as [loc|] eqn:Hk; [|done]. simpl.
    apply Hi in Hk as ([[k' g'] d'] & Hn & Hk & _). rewrite Hn. simpl in *. intros. simplify_eq. eauto.
  - intros [a Ha]. assert (entries q !! k = Some (mkLocation (quantize (options q) d) a)) as ->.
    { apply Hi. eexists. simpl. by split_and!. }
    simpl. by rewrite Ha.
Qed.

(** ** The state transformers behind the list operations *)

Definition add_node (b : Z) (e : Entry) (q : DeadlineQueue) : DeadlineQueue :=
  set_buckets (fun bs => <[b := default [] (bs !! b) ++ [nextNode q]]> bs)
    (set_nodes (fun ns => <[nextNode q := e]> ns) (nextNode q + 1) q).

Definition remove_node (b a : Z) (q : DeadlineQueue) : DeadlineQueue :=
  set_nodes (fun ns => delete a ns) (nextNode q)
    (set_buckets (fun bs =>
       match filter (fun x => x <> a) (default [] (bs !! b)) with
       | [] => delete b bs
       | l => <[b := l]> bs
       end) q).

Lemma add_node_inv g q e :
  store_inv g q -> generation (token e) = g -> 1 <= g -> is_time (deadline e) ->
  store_inv (g + 1) (add_node (quantize (options q) (deadline e)) e q).
Proof.
  intros [Hn Hb] Hg Hg1 Ht. set (b := quantize _ _).
  assert (forall a e', nodes q !! a = Some e' -> nextNode q <> a) as Hfresh.
  { intros a e' Ha. apply Hn in Ha. lia. }
  split; simpl.
  - intros a e' [[<- <-]|[Hne Ha]]%lookup_insert_Some.
    + split_and!; [|lia..|done|lia]. fold b. rewrite lookup_insert_eq. eauto.
    + apply Hn in Ha as ([l Hl] & ? & ? & ?). split_and!; [|lia..|done|lia].
      destruct (decide (b = quantize (options q) (deadline e'))) as [<-|].
      * rewrite lookup_insert_eq. eauto.
      * rewrite lookup_insert_ne by done. eauto.
  - assert (forall l, (forall a, a ∈ l -> exists e', nodes q !! a = Some e') ->
      StronglySorted (fun x y => gen_of q x < gen_of q y) l ->
      StronglySorted (fun x y => gen_of (add_node b e q) x < gen_of (add_node b e q) y) l) as Hagree.
    { intros l Hl. apply StronglySorted_agree. intros x y [ex Hx]%Hl [ey Hy]%Hl.
      unfold gen_of. simpl. by rewrite !lookup_insert_ne by eauto. }
    intros b' l' [[<- <-]|[Hne Hl]]%lookup_insert_Some.
    + assert (exists l, default [] (buckets q !! b) = l /\
        StronglySorted (fun x y => gen_of q x < gen_of q y) l /\
        (forall a, a ∈ l <-> exists e', nodes q !! a = Some e' /\ quantize (options q) (deadline e') = b))
        as (l & -> & Hs & Hl).
      { destruct (buckets q !! b) as [l|] eqn:E.
        - exists l. destruct (Hb b l E) as (_ & ? & ?). done.
        - exists []. split_and!; [done|constructor|]. intros a. rewrite elem_of_nil.
          split; [done|]. intros (e' & Ha & Hq). apply Hn in Ha as ([? Ha] & _). congruence. }
      split_and!.
      * by destruct l.
      * apply StronglySorted_snoc. split.
        -- apply Hagree; [|done]. intros a (e' & ? & _)%Hl. eauto.
        -- apply Forall_forall. intros a (e' & Ha & _)%Hl. unfold gen_of. simpl.
           rewrite lookup_insert_eq, lookup_insert_ne, Ha by eauto. apply Hn in Ha. lia.
      * intros a. rewrite elem_of_app, list_elem_of_singleton, Hl. split.
        -- intros [(e' & Ha & Hq)| ->]; [|by exists e; rewrite lookup_insert_eq].
           exists e'. by rewrite lookup_insert_ne by eauto.
        -- intros (e' & [[<- <-]|[? Ha]]%lookup_insert_Some & Hq); eauto.
    + destruct (Hb b' l' Hl) as (? & Hs & Hmem). split_and!; [done|apply Hagree; [|done]|].
      * intros a (e' & ? & _)%Hmem. eauto.
      * intros a. rewrite Hmem. split; intros (e' & Ha & Hq).
        -- exists e'. by rewrite lookup_insert_ne by eauto.
        -- apply lookup_insert_Some in Ha as [[<- <-]|[? Ha]]; [by destruct Hne|eauto].
Qed.

Lemma remove_node_inv g q a e :
  store_inv g q -> nodes q !! a = Some e ->
  store_inv g (remove_node (quantize (options q) (deadline e)) a q).
Proof.
  intros [Hn Hb] Ha. set (b := quantize _ _).
  destruct (Hn a e Ha) as ([l Hl] & _). fold b in Hl.
  destruct (Hb b l Hl) as (_ & Hs & Hmem).
  assert (forall l', (forall x, x ∈ l' -> x <> a) ->
    StronglySorted (fun x y => gen_of q x < gen_of q y) l' ->
    StronglySorted (fun x y => gen_of (remove_node b a q) x < gen_of (remove_node b a q) y) l')
    as Hagree.
  { intros l' Hx. apply StronglySorted_agree. intros x y Hx1%Hx Hy1%Hx.
    unfold gen_of. simpl. by rewrite !lookup_delete_ne by done. }
  assert (forall b' l', buckets (remove_node b a q) !! b' = Some l' <->
    (b' = b /\ l' = filter (fun x => x <> a) l /\ l' <> []) \/ (b' <> b /\ buckets q !! b' = Some l'))
    as Hlook.
  { intros b' l'. simpl. rewrite Hl. simpl. destruct (filter _ l) as [|x lf] eqn:Ef.
    - rewrite lookup_delete_Some. naive_solver.
    - rewrite lookup_insert_Some. naive_solver. }
  split.
  - simpl nodes. intros a' e' [Hne Ha']%lookup_delete_Some. apply Hn in Ha' as Hn'.
    destruct Hn' as ([l' Hl'] & ? & ? & ?). split_and!; try done; try lia.
    destruct (decide (quantize (options q) (deadline e') = b)) as [Eb|Eb]; simpl.
    + exists (filter (fun x => x <> a) l). apply Hlook. left. split_and!; try done.
      assert (a' ∈ filter (fun x => x <> a) l) as Hin.
      { apply list_elem_of_filter. split; [congruence|]. apply Hmem. eauto. }
      intros E. rewrite E in Hin. by apply elem_of_nil in Hin.
    + exists l'. apply Hlook. auto.
  - intros b' l' [(-> & -> & Hne)|(Hne & Hl')]%Hlook.
    + split_and!; [done|apply Hagree; [by intros ? [? _]%list_elem_of_filter|]|].
      * by apply StronglySorted_filter.
      * intros x. rewrite list_elem_of_filter, Hmem. simpl. split.
        -- intros [Hx (e' & Hx' & Hq)]. exists e'. by rewrite lookup_delete_ne by congruence.
        -- intros (e' & [? ?]%lookup_delete_Some & Hq). split; [congruence|eauto].
    + destruct (Hb b' l' Hl') as (? & Hs' & Hmem'). split_and!; [done|apply Hagree; [|done]|].
      * intros x (e' & Hx & Hq)%Hmem' ->. by simplify_eq.
      * intros x. rewrite Hmem'. simpl. split; intros (e' & Hx & Hq); exists e'.
        -- rewrite lookup_delete_ne; [done|]. intros ->. by simplify_eq.
        -- apply lookup_delete_Some in Hx as [_ ?]. done.
Qed.

(** A node just added and removed again leaves the buckets as they were. *)
Lemma remove_add_node g q e :
  store_inv g q -> let b := quantize (options q) (deadline e) in
  remove_node b (nextNode q) (add_node b e q) = set_nodes (fun ns => ns) (nextNode q + 1) q.
Proof.
  intros [Hn Hb] b. unfold remove_node, add_node, set_buckets, set_nodes. simpl. f_equal.
  - rewrite lookup_insert_eq. simpl. destruct (buckets q !! b) as [l|] eqn:El; simpl.
    + rewrite list.filter_app. destruct (Hb b l El) as (Hne & _ & Hmem).
      rewrite (filter_all _ l).
      2: { intros x (e' & Hx & _)%Hmem ->. apply Hn in Hx. lia. }
      rewrite filter_cons_False by (intros ?; done). rewrite filter_nil, app_nil_r.
      destruct l; [done|]. by rewrite insert_insert_eq, insert_id.
    + rewrite filter_cons_False by (intros ?; done). rewrite filter_nil.
      by rewrite delete_insert_id.
  - apply delete_insert_id. destruct (nodes q !! nextNode q) eqn:E; [|done].
    apply Hn in E. lia.
Qed.

(** ** The list operations compute the transformers *)

Lemma push_back_eq b e q :
  push_back b e q = (Ok (nextNode q), add_node b e q).
Proof. done. Qed.

(** [bucket->second.erase(it)] followed by dropping an empty bucket. *)
Lemma erase_drop_eq g q a e :
  store_inv g q -> nodes q !! a = Some e -> let b := quantize (options q) (deadline e) in
  is_Some (buckets q !! b) /\
  (run bucket_erase b a ;; drop_if_empty b) q = (Ok tt, remove_node b a q).
Proof.
  intros [Hn Hb] Ha b. destruct (Hn a e Ha) as ([l Hl] & _). fold b in Hl. split; [eauto|].
  destruct (Hb b l Hl) as (_ & _ & Hmem). unfold bucket_erase, drop_if_empty. step_m.
  rewrite Hl, bool_decide_true by (apply Hmem; eauto). cbn. do 2 f_equal.
  unfold remove_node, set_buckets, set_nodes. simpl. rewrite Hl. simpl. f_equal.
  rewrite lookup_insert_eq. destruct (filter _ l); [|done]. by rewrite delete_insert_eq.
Qed.

(** The index may change in between. *)
Lemma erase_index_drop_eq g q a e f :
  store_inv g q -> nodes q !! a = Some e -> let b := quantize (options q) (deadline e) in
  (run bucket_erase b a ;; run modify (set_entries f) ;; drop_if_empty b) q
    = (Ok tt, set_entries f (remove_node b a q)).
Proof.
  intros Hs Ha b. destruct (erase_drop_eq g q a e Hs Ha) as [_ He]. fold b in He.
  revert He. unfold bindM, modify, drop_if_empty. step_m.
  destruct (bucket_erase b a q) as [[[]|] q1] eqn:E1; [|done].
  intros Hrm. apply (f_equal snd) in Hrm. cbn [snd] in Hrm. by rewrite <- Hrm.
Qed.

Lemma store_inv_entries g f q : store_inv g q -> store_inv g (set_entries f q).
Proof. intros [Hn Hb]. split; [exact Hn|exact Hb]. Qed.

(** ** How the index and the abstraction follow the nodes *)

Lemma abs_eq q (m : gmap Z (Z * Z)) :
  index_inv q ->
  (forall k g d, m !! k = Some (g, d) <-> exists a, nodes q !! a = Some (mkEntry (mkToken k g) d)) ->
  abs q = m.
Proof.
  intros Hi Hm. apply map_eq. intros k. apply option_eq. intros [g d].
  by rewrite abs_lookup, Hm.
Qed.

(** The node of a key is unique. *)
Lemma node_unique q a1 a2 e1 e2 :
  index_inv q -> nodes q !! a1 = Some e1 -> nodes q !! a2 = Some e2 ->
  key (token e1) = key (token e2) -> a1 = a2 /\ e1 = e2.
Proof.
  intros Hi H1 H2 Hk.
  assert (entries q !! key (token e1) = Some (mkLocation (quantize (options q) (deadline e1)) a1)) as L1
    by (apply Hi; eexists; simpl; by split_and!).
  assert (entries q !! key (token e1) = Some (mkLocation (quantize (options q) (deadline e2)) a2)) as L2
    by (apply Hi; eexists; simpl; by split_and!).
  assert (a1 = a2) as -> by congruence. by simplify_eq.
Qed.

Lemma index_replaced q q' a e :
  index_inv q -> options q' = options q ->
  entries q' = <[key (token e) := mkLocation (quantize (options q) (deadline e)) a]> (entries q) ->
  (forall a' e', nodes q' !! a' = Some e' <->
    (a' = a /\ e' = e) \/ (nodes q !! a' = Some e' /\ key (token e') <> key (token e) /\ a' <> a)) ->
  (forall e', nodes q !! a = Some e' -> False) ->
  index_inv q' /\ abs q' = <[key (token e) := (generation (token e), deadline e)]> (abs q).
Proof.
  intros Hi Ho He Hn Hfresh.
  assert (index_inv q') as Hi'.
  { intros k [b' a']. rewrite He, Ho. split.
    - intros [[<- [= <- <-]]|[Hne Hl]]%lookup_insert_Some.
      + exists e. split_and!; try done. apply Hn. auto.
      + apply Hi in Hl as (e' & Ha' & Hk & Hb). exists e'. split_and!; try done. apply Hn. right.
        simpl in *. split_and!; [done|congruence|]. intros ->. by eapply Hfresh.
    - intros (e' & [[Ha' ->]|(Ha' & Hk' & _)]%Hn & Hk & Hb); simpl in *.
      + subst. apply lookup_insert_eq.
      + subst. rewrite lookup_insert_ne by congruence. apply Hi. simpl. eauto. }
  split; [done|]. apply abs_eq; [done|]. intros k g d. rewrite lookup_insert_Some. split.
  - intros [[<- [= <- <-]]|[Hne Hl]].
    + exists a. apply Hn. left. destruct e as [[??]?]. done.
    + apply (abs_lookup q) in Hl as [a' Ha']; [|done]. exists a'. apply Hn. right. simpl.
      split_and!; [done|congruence|]. intros ->. by eapply Hfresh.
  - intros [a' [[-> <-]|(Ha' & Hk & _)]%Hn]; [by left|right]. simpl in *. split; [done|].
    apply abs_lookup; eauto.
Qed.

Lemma index_removed q q' k :
  index_inv q -> options q' = options q -> entries q' = delete k (entries q) ->
  (forall a' e', nodes q' !! a' = Some e' <-> nodes q !! a' = Some e' /\ key (token e') <> k) ->
  index_inv q' /\ abs q' = delete k (abs q).
Proof.
  intros Hi Ho He Hn. assert (index_inv q') as Hi'.
  { intros k' [b' a']. rewrite He, Ho, lookup_delete_Some. split.
    - intros [Hne (e' & Ha' & Hk & Hb)%Hi]. exists e'. split_and!; try done. apply Hn.
      split; [done|congruence].
    - intros (e' & [Ha' Hk']%Hn & Hk & Hb). split; [congruence|]. apply Hi. eauto. }
  split; [done|]. apply abs_eq; [done|]. intros k' g d. rewrite lookup_delete_Some. split.
  - intros [Hne [a' Ha']%abs_lookup]; [|done]. exists a'. apply Hn. split; [done|]. simpl. congruence.
  - intros [a' [Ha' Hk]%Hn]. simpl in Hk. split; [congruence|]. apply abs_lookup; eauto.
Qed.

(** Removing the node of [k] and its index entry. *)
Lemma removed_ok q a e :
  dq_inv q -> nodes q !! a = Some e ->
  let q' := set_entries (fun es => delete (key (token e)) es)
              (remove_node (quantize (options q) (deadline e)) a q) in
  dq_inv q' /\ abs q' = delete (key (token e)) (abs q).
Proof.
  intros [Ho Hg Hs Hi] Ha q'.
  destruct (index_removed q q' (key (token e)) Hi eq_refl eq_refl) as [Hi' Habs].
  { intros a' e'. simpl. rewrite lookup_delete_Some. split; intros [? ?]; split; try done.
    - intros Hk. destruct (node_unique q a' a e' e Hi) as [-> _]; done.
    - congruence. }
  split; [|done]. constructor; try done. by apply store_inv_entries, remove_node_inv.
Qed.

Lemma eraseLocation_ok q k loc :
  dq_inv q -> entries q !! k = Some loc ->
  exists q', eraseLocation k loc q = (Ok tt, q') /\ dq_inv q' /\ abs q' = delete k (abs q) /\
    options q' = options q /\ nextGeneration q' = nextGeneration q.
Proof.
  intros Hq Hk. destruct Hq as [Ho Hg Hs Hi] eqn:E. clear E.
  apply Hi in Hk as Hn. destruct Hn as (e & Ha & <- & Hb).
  destruct (erase_drop_eq _ q _ e Hs Ha) as [[l Hl] _].
  unfold eraseLocation. rewrite (bindM_ok get _ q q q) by done. rewrite <- Hb, Hl.
  rewrite (erase_index_drop_eq _ q _ e _ Hs Ha). eexists. split; [done|].
  destruct (removed_ok q _ e Hq Ha). done.
Qed.

(** ** Operations against the abstraction *)

(** Equal but for the addresses the next nodes will get. *)
Definition same_queue (q q' : DeadlineQueue) : Prop :=
  exists n, q' = set_nodes (fun ns => ns) n q /\ nextNode q <= n.

Lemma same_queue_inv q q' : same_queue q q' -> dq_inv q -> dq_inv q' /\ abs q' = abs q.
Proof.
  intros (n & -> & Hn) [Ho Hg [Hsn Hsb] Hi]. split; [|done]. constructor; try done.
  split; [|done]. simpl. intros a e Ha. destruct (Hsn a e Ha) as (? & ? & ? & ?).
  split_and!; try done; lia.
Qed.

Lemma add_node_fresh_bucket b e q :
  buckets q !! b = None -> add_node b e (set_buckets (fun bs => <[b := []]> bs) q) = add_node b e q.
Proof.
  intros Hb. unfold add_node, set_buckets, set_nodes. simpl. f_equal.
  by rewrite lookup_insert_eq, Hb, insert_insert_eq.
Qed.

Lemma drop_fresh_bucket b q :
  buckets q !! b = None ->
  drop_if_empty b (set_buckets (fun bs => <[b := []]> bs) q) = (Ok tt, q).
Proof.
  intros Hb. unfold drop_if_empty, modify, set_buckets. simpl.
  rewrite lookup_insert_eq, delete_insert_id by done. by destruct q.
Qed.

Lemma schedule_index_ok mem q k d :
  dq_inv q -> is_time d -> nextGeneration q < usize_max ->
  let b := quantize (options q) d in
  let e := mkEntry (mkToken k (nextGeneration q)) d in
  exists r q', schedule_index mem k b (nextNode q) (entries q !! k) (add_node b e q) = (r, q') /\
    match r with
    | Ok _ => dq_inv (set_generation (nextGeneration q' ⊕ 1) q') /\ options q' = options q /\
        nextGeneration q' = nextGeneration q /\ abs q' = <[k := (nextGeneration q, d)]> (abs q)
    | Throw x => x = bad_alloc /\ mem <> all_ok /\ same_queue q q'
    end.
Proof.
  intros [Ho Hg Hs Hi] Hd Hmax b e.
  assert (store_inv (nextGeneration q + 1) (add_node b e q)) as Hs1
    by (apply add_node_inv; simpl; done || lia).
  assert (forall x, nodes q !! nextNode q = Some x -> False) as Hfresh.
  { intros x Hx. apply Hs in Hx. lia. }
  assert (nextGeneration q ⊕ 1 = nextGeneration q + 1) as Hw by (apply uwrap_small; lia).
  set (idx := set_entries (fun es => <[k := mkLocation b (nextNode q)]> es)).
  assert (forall q', options q' = options q -> nextGeneration q' = nextGeneration q ->
    store_inv (nextGeneration q + 1) q' -> index_inv q' ->
    dq_inv (set_generation (nextGeneration q' ⊕ 1) q')) as Hfin.
  { intros q' Ho' Hg' [Hn' Hb'] Hi'. rewrite Hg', Hw. constructor; simpl; rewrite ?Ho'; try done.
    lia. }
  unfold schedule_index. destruct (entries q !! k) as [loc|] eqn:Hk.
  - apply Hi in Hk as (e0 & Ha0 & Hk0 & Hb0).
    assert (nodes (idx (add_node b e q)) !! entry loc = Some e0) as Ha1.
    { simpl. rewrite lookup_insert_ne; [done|]. intros E. rewrite <- E in Ha0. eauto. }
    destruct (erase_drop_eq _ (idx (add_node b e q)) _ e0 (store_inv_entries _ _ _ Hs1) Ha1)
      as [[l Hl] He].
    change (options (idx (add_node b e q))) with (options q) in Hl, He. rewrite Hb0 in Hl, He.
    rewrite (bindM_ok (modify _) _ _ tt (idx (add_node b e q))) by done.
    rewrite (bindM_ok get _ _ (idx (add_node b e q)) _) by done.
    rewrite Hl, He. eexists (Ok tt), _. split; [done|].
    destruct (index_replaced q (remove_node (bucketDeadline loc) (entry loc) (idx (add_node b e q)))
      (nextNode q) e Hi) as [Hi' Habs]; try done.
    { intros a' e'. simpl. rewrite lookup_delete_Some, lookup_insert_Some. split.
      - intros [Hne [[<- <-]|[Hne' Ha']]]; [by left|right]. split_and!; try done.
        intros Hkk. destruct (node_unique q a' (entry loc) e' e0 Hi) as [-> _]; done || congruence.
      - intros [[-> ->]|(Ha' & Hkk & Hne)].
        + split; [|by left]. intros E. rewrite E in Ha0. eauto.
        + split; [|by right]. intros E. subst a'. rewrite Ha0 in Ha'. simplify_eq. }
    split_and!; try done. apply Hfin; try done.
    rewrite <- Hb0. apply (remove_node_inv _ (idx (add_node b e q))); [|done].
    by apply store_inv_entries.
  - destruct (index_ok mem) eqn:Hm.
    + eexists (Ok tt), _. split; [done|].
      destruct (index_replaced q (idx (add_node b e q)) (nextNode q) e Hi) as [Hi' Habs]; try done.
      { intros a' e'. simpl. rewrite lookup_insert_Some. split.
        - intros [[<- <-]|[Hne' Ha']]; [by left|right]. split_and!; try done. intros Hkk.
          assert (entries q !! key (token e') = Some (mkLocation (quantize (options q) (deadline e')) a'))
            by (apply Hi; simpl; eauto). congruence.
        - intros [[-> ->]|(? & ? & ?)]; auto. }
      split_and!; try done. apply Hfin; try done. by apply store_inv_entries.
    + destruct (erase_drop_eq _ (add_node b e q) (nextNode q) e Hs1) as [_ He].
      { simpl. apply lookup_insert_eq. }
      change (quantize (options (add_node b e q)) (deadline e)) with b in He.
      rewrite <- bindM_assoc, (bindM_ok _ _ _ _ _ He).
      eexists (Throw bad_alloc), _. split; [done|]. split_and!; [done|intros ->; done|].
      exists (nextNode q + 1). split; [|lia]. by apply (remove_add_node _ q e Hs).
Qed.

Lemma schedule_ok mem q k d :
  dq_inv q -> is_time d ->
  exists r q', schedule mem k d q = (r, q') /\ dq_inv q' /\ options q' = options q /\
    match r with
    | Ok t => t = mkToken k (nextGeneration q) /\ nextGeneration q' = nextGeneration q + 1 /\
        abs q' = <[k := (nextGeneration q, d)]> (abs q)
    | Throw e => same_queue q q' /\
        (e = overflow_error /\ nextGeneration q = usize_max \/ e = bad_alloc /\ mem <> all_ok)
    end.
Proof.
  intros Hq Hd. unfold schedule. rewrite (bindM_ok get _ q q q) by done.
  assert (same_queue q q) as Hrefl by (exists (nextNode q); split; [by destruct q|lia]).
  destruct (Z.eqb_spec (nextGeneration q) usize_max) as [Hmax|Hmax].
  { eexists (Throw _), q. split; [done|]. split_and!; try done. auto. }
  pose proof (dq_generation q Hq) as Hg.
  rewrite (bindM_ok (throw_if false _) _ q tt q) by done. cbv zeta.
  set (b := quantize (options q) d). set (e := mkEntry (mkToken k (nextGeneration q)) d).
  set (ib := bool_decide (buckets q !! b = None)).
  destruct (ib && negb (bucket_ok mem)) eqn:Hbm.
  { eexists (Throw _), q. split; [done|]. split_and!; try done. right. split; [done|].
    apply andb_true_iff in Hbm as [_ Hbm]. intros ->. done. }
  rewrite (bindM_ok (throw_if false _) _ q tt q) by done.
  set (q0 := if ib then set_buckets (fun bs => <[b := []]> bs) q else q).
  rewrite (bindM_ok _ _ q tt q0) by (unfold q0; by destruct ib).
  assert (ib = true -> buckets q !! b = None) as Hib by (intros ?%bool_decide_eq_true; done).
  destruct (node_ok mem) eqn:Hnm; cycle 1.
  { eexists (Throw bad_alloc), q. split; [|split_and!; try done; right; split; [done|intros ->; done]].
    unfold q0. unfold bindM at 1 2. destruct ib; [|done]. by rewrite drop_fresh_bucket by auto. }
  rewrite (bindM_ok (ret tt) _ q0 tt q0) by done.
  assert (push_back b e q0 = (Ok (nextNode q), add_node b e q)) as Hpush.
  { rewrite push_back_eq. unfold q0. destruct ib; [|done]. simpl.
    by rewrite add_node_fresh_bucket by auto. }
  rewrite (bindM_ok _ _ _ _ _ Hpush).
  destruct (schedule_index_ok mem q k d Hq Hd ltac:(lia)) as (r & q' & Hidx & Hpost).
  fold b in Hidx. fold e in Hidx. unfold bindM at 1. rewrite Hidx.
  destruct r as [[]|x].
  - destruct Hpost as (Hinv & Ho & Hg' & Habs). eexists (Ok _), _. split; [done|].
    split_and!; try done. simpl. rewrite Hg'. apply uwrap_small. lia.
  - destruct Hpost as (-> & Hne & Hsame). eexists (Throw _), q'. split; [done|].
    destruct (same_queue_inv q q' Hsame Hq) as [? _]. split_and!; try done; [|auto].
    by destruct Hsame as (n & -> & _).
Qed.

Lemma abs_node q k g d :
  dq_inv q -> abs q !! k = Some (g, d) ->
  exists a, nodes q !! a = Some (mkEntry (mkToken k g) d) /\
    1 <= g < nextGeneration q /\ is_time d /\ is_Some (buckets q !! quantize (options q) d).
Proof.
  intros [Ho Hg Hs Hi] [a Ha]%abs_lookup; [|done]. exists a. split; [done|].
  apply Hs in Ha as (? & ? & ? & _). done.
Qed.

Lemma cancel_ok q t :
  dq_inv q ->
  exists r q', cancel t q = (Ok r, q') /\ dq_inv q' /\
    options q' = options q /\ nextGeneration q' = nextGeneration q /\
    (if r then (exists d, abs q !! key t = Some (generation t, d)) /\ abs q' = delete (key t) (abs q)
     else q' = q /\ forall d, abs q !! key t <> Some (generation t, d)).
Proof.
  intros Hq. destruct t as [k g]. unfold cancel, valid. simpl.
  destruct (Z.eqb_spec g 0) as [->|Hg]; simpl.
  { exists false, q. split_and!; try done. intros d Hd.
    apply abs_node in Hd as (? & _ & ? & _); [lia|done]. }
  rewrite (bindM_ok get _ q q q) by done. destruct (entries q !! k) as [loc|] eqn:Hk.
  2: { exists false, q. split_and!; try done. unfold abs. intros d. by rewrite lookup_omap, Hk. }
  pose proof (dq_index q Hq k loc) as [(e & Ha & Hke & Hb) _]; [done|].
  rewrite (bindM_ok (deref _) _ q e q) by (unfold deref; step_m; by rewrite Ha).
  assert (abs q !! k = Some (generation (token e), deadline e)) as Habs
    by (unfold abs; rewrite lookup_omap, Hk; simpl; by rewrite Ha).
  unfold token_eqb. destruct (bool_decide_reflect (token e = mkToken k g)) as [Ht|Ht]; simpl.
  - destruct (eraseLocation_ok q k loc Hq Hk) as (q' & He & ? & ? & ? & ?).
    rewrite (bindM_ok _ _ _ _ _ He). exists true, q'. split_and!; try done.
    rewrite Habs, Ht. simpl. eauto.
  - exists false, q. split_and!; try done. rewrite Habs. intros d Hd. simplify_eq.
    apply Ht. by destruct (token e).
Qed.

Lemma clear_ok q :
  dq_inv q -> exists q', clear q = (Ok tt, q') /\ dq_inv q' /\ abs q' = ∅ /\
    options q' = options q /\ nextGeneration q' = nextGeneration q.
Proof.
  intros [Ho Hg Hs Hi]. eexists. split; [done|]. split_and!; try done.
  constructor; try done. intros k loc. simpl. split; [by rewrite lookup_empty|].
  intros (e & He & _). by rewrite lookup_empty in He.
Qed.

Lemma size_abs q : dq_inv q -> size q = Z.of_nat (base.size (abs q)).
Proof.
  intros Hq. unfold size. f_equal. rewrite <- !size_dom. f_equal.
  apply set_eq. intros k. rewrite !elem_of_dom. unfold abs. rewrite lookup_omap. split.
  - intros [loc Hk]. rewrite Hk. simpl. apply (dq_index q Hq) in Hk as (e & -> & _). simpl. eauto.
  - destruct (entries q !! k); [eauto|]. by intros [? ?].
Qed.

(** ** Expiration *)

(** The order in which due entries leave the queue: by bucket, then by the
    order in which they were scheduled. *)
Definition precedes (o : DeadlineQueueOptions) (x y : Z * Z) : Prop :=
  quantize o (snd x) < quantize o (snd y) \/
  (quantize o (snd x) = quantize o (snd y) /\ fst x < fst y).

Lemma expire_first_ok q b l :
  dq_inv q -> map_min (buckets q) = Some (b, l) ->
  exists k g d q', expire_first true q = (Ok (mkExpiration (mkToken k g) d), q') /\ dq_inv q' /\
    options q' = options q /\ nextGeneration q' = nextGeneration q /\
    abs q !! k = Some (g, d) /\ abs q' = delete k (abs q) /\ quantize (options q) d = b /\
    forall k' x, abs q' !! k' = Some x -> precedes (options q) (g, d) x.
Proof.
  intros Hq Hmin. destruct Hq as [Ho Hg Hs Hi] eqn:Eq. clear Eq.
  destruct (map_min_Some _ _ _ Hmin) as [Hl Hfirst].
  destruct (st_bucket _ _ Hs b l Hl) as (Hne & Hsort & Hmem).
  destruct l as [|a l]; [done|]. destruct (proj1 (Hmem a)) as ([[k g] d] & Ha & Hb); [constructor|].
  simpl in Hb.
  assert (entries q !! k = Some (mkLocation b a)) as Hk by (apply Hi; simpl; eauto).
  unfold expire_first. rewrite (bindM_ok get _ q q q), Hmin by done.
  rewrite (bindM_ok (deref _) _ q (mkEntry (mkToken k g) d) q) by (unfold deref; step_m; by rewrite Ha).
  rewrite (bindM_ok (throw_if (negb true) bad_alloc) _ q tt q) by done.
  simpl. rewrite Hk. simpl.
  rewrite (bindM_ok (deref _) _ q (mkEntry (mkToken k g) d) q) by (unfold deref; step_m; by rewrite Ha).
  unfold token_eqb. rewrite bool_decide_true by done. simpl.
  rewrite (bindM_ok (throw_if false logic_error) _ q tt q) by done.
  set (q1 := set_entries (fun es => delete k es) q).
  rewrite (bindM_ok (modify _) _ q tt q1) by done.
  destruct (erase_drop_eq _ q1 a _ (store_inv_entries _ _ _ Hs) Ha) as [_ He].
  change (options q1) with (options q) in He. simpl deadline in He. rewrite Hb in He.
  rewrite <- bindM_assoc, (bindM_ok _ _ _ _ _ He).
  destruct (removed_ok q a _ Hq Ha) as [Hq' Habs]. simpl in Hq', Habs. rewrite Hb in Hq', Habs.
  exists k, g, d. eexists. split; [done|]. split; [exact Hq'|]. split; [done|]. split; [done|].
  split; [apply abs_lookup; eauto|]. split; [exact Habs|]. split; [done|].
  intros k' [g' d'] Hx. pose proof (eq_trans (f_equal (lookup k') (eq_sym Habs)) Hx) as Hx'. clear Hx. rename Hx' into Hx.
  apply lookup_delete_Some in Hx as [Hkk Hx].
  apply abs_node in Hx as (a' & Ha' & Hg' & Hd' & [l' Hl']); [|done].
  unfold precedes. simpl. rewrite Hb. apply Hfirst in Hl' as Hle.
  destruct (Z.eq_dec b (quantize (options q) d')) as [Eb|]; [|lia]. right. split; [done|].
  assert (a' ∈ a :: l) as Hin by (apply Hmem; eauto).
  apply elem_of_cons in Hin as [->|Hin]; [rewrite Ha in Ha'; congruence|].
  apply StronglySorted_inv in Hsort as [_ Hall]. rewrite Forall_forall in Hall.
  specialize (Hall a' Hin). unfold gen_of in Hall. rewrite Ha, Ha' in Hall. exact Hall.
Qed.

Definition exp_pair (x : DeadlineExpiration) : Z * Z := (generation (exp_token x), exp_deadline x).
Definition exp_key (x : DeadlineExpiration) : Z := key (exp_token x).

(** [xs] left the pending deadlines [m] at [now], which are [m'] afterwards. *)
Record expired_from (o : DeadlineQueueOptions) (now : Z) (m m' : gmap Z (Z * Z))
    (xs : list DeadlineExpiration) : Prop := {
  ex_rest : forall k, m' !! k = if bool_decide (k ∈ exp_key <$> xs) then None else m !! k;
  ex_due : forall x, x ∈ xs ->
    m !! exp_key x = Some (exp_pair x) /\ quantize o (exp_deadline x) <= now;
  ex_order : StronglySorted (fun x y => precedes o (exp_pair x) (exp_pair y)) xs;
  ex_first : forall x k y, x ∈ xs -> m' !! k = Some y -> precedes o (exp_pair x) y;
}.

Lemma expired_from_nil o now m : expired_from o now m m [].
Proof.
  split; [done|..].
  - intros x Hx. by apply elem_of_nil in Hx.
  - constructor.
  - intros x k y Hx. by apply elem_of_nil in Hx.
Qed.

Lemma expired_from_snoc o now m m' xs x :
  expired_from o now m m' xs -> m' !! exp_key x = Some (exp_pair x) ->
  quantize o (exp_deadline x) <= now ->
  (forall k y, delete (exp_key x) m' !! k = Some y -> precedes o (exp_pair x) y) ->
  expired_from o now m (delete (exp_key x) m') (xs ++ [x]).
Proof.
  intros [Hrest Hdue Hord Hfirst] Hx Hnow Hmin.
  assert (forall y, y ∈ xs ++ [x] <-> y ∈ xs \/ y = x) as Hel
    by (intros; by rewrite elem_of_app, list_elem_of_singleton).
  split.
  - intros k. rewrite fmap_app. simpl. destruct (decide (k = exp_key x)) as [->|Hne].
    + rewrite lookup_delete_eq, bool_decide_true; [done|]. rewrite elem_of_app, list_elem_of_singleton. auto.
    + rewrite lookup_delete_ne, Hrest by done.
      assert (bool_decide (k ∈ (exp_key <$> xs) ++ [exp_key x]) = bool_decide (k ∈ exp_key <$> xs)) as ->;
        [|done].
      apply bool_decide_ext. rewrite elem_of_app, list_elem_of_singleton. tauto.
  - intros y [Hy| ->]%Hel; [auto|]. split; [|done]. rewrite Hrest in Hx. by case_bool_decide.
  - apply StronglySorted_snoc. split; [done|]. apply Forall_forall. intros y Hy. eauto.
  - intros y k z [Hy| ->]%Hel Hz; [|eauto]. apply lookup_delete_Some in Hz as [_ Hz]. eauto.
Qed.

(** No key expires twice. *)
Lemma expired_keys_NoDup o now m m' xs : expired_from o now m m' xs -> NoDup (exp_key <$> xs).
Proof.
  intros [_ Hdue Hord _]. induction Hord as [|x xs Hs IH Hx]; [constructor|]. simpl. constructor.
  - intros (y & Ey & Hy)%list_elem_of_fmap. rewrite Forall_forall in Hx. specialize (Hx y Hy).
    destruct (Hdue x) as [Hmx _]; [constructor|]. destruct (Hdue y) as [Hmy _]; [by constructor|].
    rewrite <- Ey, Hmx in Hmy. injection Hmy as Hg Hd. unfold precedes, exp_pair in Hx. simpl in Hx.
    rewrite Hg, Hd in Hx. lia.
  - apply IH. intros y Hy. apply Hdue. by constructor.
Qed.

(** The result of one [advance]: the due entries in order, up to the budget. *)
Record advance_post (o : DeadlineQueueOptions) (now : Z) (m m' : gmap Z (Z * Z))
    (res : DeadlineAdvanceResult) : Prop := {
  ad_expired : expired_from o now m m' (expired res);
  ad_budget : zlen (expired res) <= maxExpiredPerAdvance o;
  ad_remaining : readyRemaining res = true <->
    exists k g d, m' !! k = Some (g, d) /\ quantize o d <= now;
  ad_full : readyRemaining res = true -> zlen (expired res) = maxExpiredPerAdvance o;
  ad_latency : oldestReadyLatency res =
    match expired res with
    | x :: _ => now - quantize o (exp_deadline x)
    | [] => 0
    end;
}.

Lemma ready_abs now q :
  dq_inv q -> ready now q = true <->
    exists k g d, abs q !! k = Some (g, d) /\ quantize (options q) d <= now.
Proof.
  intros Hq. unfold ready. destruct (map_min (buckets q)) as [[b l]|] eqn:Hm.
  - destruct (expire_first_ok q b l Hq Hm) as (k & g & d & _ & _ & _ & _ & _ & Hk & _ & Hb & _).
    rewrite Z.leb_le. split; [intros; exists k, g, d; split; [done|lia]|].
    intros (k' & g' & d' & Hk' & Hd'). apply abs_node in Hk' as (_ & _ & _ & _ & [l' Hl']); [|done].
    apply map_min_Some in Hm as [_ Hm]. apply Hm in Hl'. lia.
  - apply map_min_None in Hm. split; [done|]. intros (k & g & d & Hk & _).
    apply abs_node in Hk as (_ & _ & _ & _ & [l Hl]); [|done]. by rewrite Hm, lookup_empty in Hl.
Qed.

(** The reserved capacity is never exceeded: no [push_back] allocates. *)
Lemma advance_loop_ok mem now q :
  dq_inv q ->
  exists xs q', advance_loop mem
      (Z.min (maxExpiredPerAdvance (options q)) (Z.of_nat (base.size (entries q)))) now q = (Ok xs, q') /\ dq_inv q' /\
    options q' = options q /\ nextGeneration q' = nextGeneration q /\
    expired_from (options q) now (abs q) (abs q') xs /\
    zlen xs <= maxExpiredPerAdvance (options q) /\
    (ready now q' = true -> zlen xs = maxExpiredPerAdvance (options q)).
Proof.
  intros Hq. destruct (dq_options q Hq) as [_ Hbud].
  set (good := fun (xs : list DeadlineExpiration) q' => dq_inv q' /\
    options q' = options q /\ nextGeneration q' = nextGeneration q /\
    expired_from (options q) now (abs q) (abs q') xs /\
    zlen xs + size q' = size q /\
    zlen xs <= maxExpiredPerAdvance (options q)).
  destruct (loop_total (advance_step mem
      (Z.min (maxExpiredPerAdvance (options q)) (Z.of_nat (base.size (entries q)))) now) (fun s => good s.1 s.2)
    (fun s => maxExpiredPerAdvance (options q) - zlen s.1)
    (fun r => exists xs, r.1 = Ok xs /\ good xs r.2 /\
       (ready now r.2 = true -> zlen xs = maxExpiredPerAdvance (options q))))
    with (fuel := usize_fuel) (s := (@nil DeadlineExpiration, q)) as ([r q'] & Hl & xs & Hr & Hgood & Hfull).
  - intros [acc q1] (Hq1 & Ho1 & Hg1 & Hex & Hsz & Hlen). unfold advance_step. cbn [fst snd] in *. rewrite Ho1.
    destruct (Z.ltb_spec (zlen acc) (maxExpiredPerAdvance (options q))) as [Hlt|Hge]; simpl.
    + destruct (ready now q1) eqn:Hrd.
      * unfold ready in Hrd. destruct (map_min (buckets q1)) as [[b l]|] eqn:Hm; [|done].
        apply Z.leb_le in Hrd.
        destruct (expire_first_ok q1 b l Hq1 Hm)
          as (k & g & d & q2 & He & Hq2 & Ho2 & Hg2 & Hk & Habs & Hb & Hmin).
        assert (size q1 = size q2 + 1) as Hsz2.
        { rewrite !size_abs, Habs, map_size_delete_Some by eauto.
          assert (0 < base.size (abs q1))%nat; [|lia].
          apply Nat.neq_0_lt_0. intros E%map_size_empty_iff. by rewrite E, lookup_empty in Hk. }
        assert (0 <= size q2) by (unfold size; lia).
        change (Z.of_nat (base.size (entries q))) with (size q).
        rewrite (proj2 (Z.ltb_lt (zlen acc) _)) by lia. cbn [orb]. rewrite He.
        rewrite Ho1 in *. cbn [fst snd]. assert (zlen (acc ++ [mkExpiration (mkToken k g) d]) = zlen acc + 1)
          as Hz by (rewrite zlen_app; unfold zlen; simpl; lia).
        rewrite Hz. split; [|lia]. unfold good. rewrite Hz. split_and!; try done; try congruence; try lia.
        rewrite Habs. apply (expired_from_snoc (options q) now _ _ acc (mkExpiration (mkToken k g) d));
          [done|done|simpl; lia|]. cbn [exp_key exp_token key]. rewrite <- Habs. exact Hmin.
      * exists acc. split; [done|]. split; [by unfold good|]. simpl. congruence.
    + exists acc. split; [done|]. split; [by unfold good|]. simpl. intros. lia.
  - cbn. split_and!; try done; [apply expired_from_nil|unfold zlen; simpl; lia].
  - cbn. unfold usize_fuel, zlen. simpl. lia.
  - simpl in Hr, Hfull, Hgood. subst r. unfold advance_loop. rewrite Hl.
    destruct Hgood as (? & ? & ? & ? & _ & ?). exists xs, q'. split_and!; done.
Qed.

(** The first expired entry has the least rounded deadline of all. *)
Lemma expired_head_least o now m m' x xs k g d :
  expired_from o now m m' (x :: xs) -> m !! k = Some (g, d) ->
  quantize o (exp_deadline x) <= quantize o d.
Proof.
  intros [Hrest Hdue Hord Hfirst] Hk. destruct (m' !! k) as [y|] eqn:Hky.
  - specialize (Hfirst x k y ltac:(constructor) Hky). rewrite Hrest in Hky.
    case_bool_decide; [done|]. rewrite Hk in Hky. simplify_eq.
    unfold precedes in Hfirst. simpl in Hfirst. lia.
  - rewrite Hrest in Hky. case_bool_decide as Hin; [|congruence].
    apply list_elem_of_fmap in Hin as (z & Ez & Hz).
    destruct (Hdue z Hz) as [Hzm _]. rewrite <- Ez, Hk in Hzm. unfold exp_pair in Hzm. simplify_eq.
    apply elem_of_cons in Hz as [->|Hz]; [lia|].
    apply StronglySorted_inv in Hord as [_ Hall]. rewrite Forall_forall in Hall.
    specialize (Hall z Hz). unfold precedes in Hall. simpl in Hall. lia.
Qed.

Lemma advance_alloc_ok mem now q :
  dq_inv q -> is_time now ->
  exists r q', advance mem now q = (r, q') /\ dq_inv q' /\
    options q' = options q /\ nextGeneration q' = nextGeneration q /\
    match r with
    | Ok res => advance_post (options q) now (abs q) (abs q') res
    | Throw e => e = bad_alloc /\ reserve_ok mem = false /\ ready now q = true /\ q' = q
    end.
Proof.
  intros Hq Ht. unfold advance. rewrite (bindM_ok get _ q q q) by done.
  assert (ready now q = false -> advance_post (options q) now (abs q) (abs q) (mkAdvance [] false 0)) as Hno.
  { intros Hr. destruct (dq_options q Hq) as [_ ?]. split; simpl; try done.
    - apply expired_from_nil.
    - unfold zlen. simpl. lia.
    - rewrite <- (ready_abs now q Hq), Hr. done. }
  destruct (map_min (buckets q)) as [[b l]|] eqn:Hm.
  2: { eexists (Ok _), q. split; [done|]. split_and!; try done. apply Hno. unfold ready. by rewrite Hm. }
  destruct (Z.ltb_spec now b) as [Hlt|Hge].
  { eexists (Ok _), q. split; [done|]. split_and!; try done. apply Hno. unfold ready. rewrite Hm.
    apply Z.leb_gt. lia. }
  destruct (expire_first_ok q b l Hq Hm) as (k & g & d & _ & _ & _ & _ & _ & Hk & _ & Hb & _).
  apply abs_node in Hk as Hkn; [|done]. destruct Hkn as (_ & _ & _ & Hd & _).
  destruct (dq_options q Hq) as [Hres Hbud].
  pose proof (quantize_bounds (options q) d Hres Hd) as [Hqb _]. unfold is_time in *.
  unfold lift at 1. rewrite i64_ok by lia.
  rewrite (bindM_ok (fun s => (Ok (now - b), s)) _ q (now - b) q) by done.
  cbv zeta. destruct (reserve_ok mem) eqn:Hres_ok; cycle 1.
  { eexists (Throw _), q. split; [done|]. split_and!; try done. unfold ready. rewrite Hm. lia. }
  rewrite (bindM_ok (throw_if (negb true) bad_alloc) _ q tt q) by done.
  destruct (advance_loop_ok mem now q Hq) as (xs & q' & Hl & Hq' & Ho' & Hg' & Hex & Hlen & Hfull).
  rewrite (bindM_ok _ _ _ _ _ Hl). rewrite (bindM_ok (gets _) _ _ (ready now q') q') by done.
  eexists (Ok _), q'. split; [done|]. split_and!; try done. split; simpl; try done.
  - rewrite <- Ho'. by apply ready_abs.
  - destruct xs as [|x xs].
    + exfalso. destruct (ready now q') eqn:Hr; [specialize (Hfull eq_refl); unfold zlen in Hfull; simpl in Hfull; lia|].
      apply not_true_iff_false in Hr. apply Hr. apply ready_abs; [done|]. exists k, g, d.
      rewrite Ho'. split; [|lia]. rewrite (ex_rest _ _ _ _ _ Hex). done.
    + f_equal. destruct (ex_due _ _ _ _ _ Hex x) as [Hx Hxd]; [constructor|].
      apply abs_node in Hx as Hxn; [|done]. destruct Hxn as (_ & _ & _ & _ & [l' Hl']).
      apply map_min_Some in Hm as [_ Hm]. apply Hm in Hl'. simpl in Hl'.
      pose proof (expired_head_least _ _ _ _ _ _ _ _ _ Hex Hk). lia.
Qed.

(** With memory available, [advance] succeeds. *)
Lemma advance_ok now q :
  dq_inv q -> is_time now ->
  exists res q', advance advance_all_ok now q = (Ok res, q') /\ dq_inv q' /\
    options q' = options q /\ nextGeneration q' = nextGeneration q /\
    advance_post (options q) now (abs q) (abs q') res.
Proof.
  intros Hq Ht. destruct (advance_alloc_ok advance_all_ok now q Hq Ht) as ([res|e] & q' & Hp); [by eauto|].
  by destruct Hp as (_ & _ & _ & _ & _ & ? & _).
Qed.

(** With memory available and generations left, [schedule] succeeds. *)
Lemma schedule_all_ok q k d :
  dq_inv q -> is_time d -> nextGeneration q < usize_max ->
  exists q', schedule all_ok k d q = (Ok (mkToken k (nextGeneration q)), q') /\ dq_inv q' /\
    options q' = options q /\ nextGeneration q' = nextGeneration q + 1 /\
    abs q' = <[k := (nextGeneration q, d)]> (abs q).
Proof.
  intros Hq Hd Hn. destruct (schedule_ok all_ok q k d Hq Hd) as (r & q' & Hr & Hq' & Ho & Hp).
  destruct r as [t|e].
  - destruct Hp as (-> & ? & ?). exists q'. done.
  - destruct Hp as [_ [[_ ?]|[_ ?]]]; [lia|done].
Qed.

(** ** Interface

    What a client of the queue relies on: the pending deadlines as a finite
    map, unique generations, and expiration in order and never early. *)

Class DeadlineIndex (Q : Type) := {
  di_inv : Q -> Prop;
  di_options : Q -> DeadlineQueueOptions;
  di_next : Q -> Z;
  di_abs : Q -> gmap Z (Z * Z);
  di_schedule : Z -> Z -> M Q DeadlineToken;
  di_cancel : DeadlineToken -> M Q bool;
  di_advance : Z -> M Q DeadlineAdvanceResult;
  di_clear : M Q unit;
  di_inv_options : forall q, di_inv q -> options_ok (di_options q);
  di_inv_next : forall q, di_inv q -> 1 <= di_next q <= usize_max;
  di_abs_bounds : forall q k g d, di_inv q -> di_abs q !! k = Some (g, d) ->
    1 <= g < di_next q /\ is_time d;
  di_schedule_spec : forall q k d, di_inv q -> is_time d -> di_next q < usize_max ->
    exists q', di_schedule k d q = (Ok (mkToken k (di_next q)), q') /\ di_inv q' /\
      di_options q' = di_options q /\ di_next q' = di_next q + 1 /\
      di_abs q' = <[k := (di_next q, d)]> (di_abs q);
  di_cancel_spec : forall q t, di_inv q ->
    exists r q', di_cancel t q = (Ok r, q') /\ di_inv q' /\
      di_options q' = di_options q /\ di_next q' = di_next q /\
      (if r then (exists d, di_abs q !! key t = Some (generation t, d)) /\
                 di_abs q' = delete (key t) (di_abs q)
       else q' = q /\ forall d, di_abs q !! key t <> Some (generation t, d));
  di_advance_spec : forall q now, di_inv q -> is_time now ->
    exists res q', di_advance now q = (Ok res, q') /\ di_inv q' /\
      di_options q' = di_options q /\ di_next q' = di_next q /\
      advance_post (di_options q) now (di_abs q) (di_abs q') res;
  di_clear_spec : forall q, di_inv q ->
    exists q', di_clear q = (Ok tt, q') /\ di_inv q' /\ di_abs q' = ∅ /\
      di_options q' = di_options q /\ di_next q' = di_next q;
}.

(** The bucketed queue, with its allocations succeeding, is such an index. *)
Global Instance DeadlineQueue_index : DeadlineIndex DeadlineQueue.
Proof.
  refine {| di_inv := dq_inv; di_options := options; di_next := nextGeneration; di_abs := abs;
            di_schedule := schedule all_ok; di_cancel := cancel;
            di_advance := advance advance_all_ok; di_clear := clear |}.
  - exact dq_options.
  - exact dq_generation.
  - intros q k g d Hq Hk. apply abs_node in Hk as (_ & _ & ? & ? & _); done.
  - exact schedule_all_ok.
  - exact cancel_ok.
  - intros q now Hq Ht. by apply advance_ok.
  - exact clear_ok.
Defined.

(** ** Traces *)

Inductive dq_op :=
  | OpSchedule (mem : schedule_alloc) (k d : Z)
  | OpCancel (t : DeadlineToken)
  | OpAdvance (mem : advance_alloc) (now : Z)
  | OpClear.

Inductive dq_out :=
  | OutToken (t : DeadlineToken)
  | OutBool (b : bool)
  | OutAdvance (res : DeadlineAdvanceResult)
  | OutUnit
  | OutThrow (e : exn).

Definition out {A} (f : A -> dq_out) (x : result A * DeadlineQueue) : dq_out * DeadlineQueue :=
  match x with (Ok a, q) => (f a, q) | (Throw e, q) => (OutThrow e, q) end.

Definition exec_op (op : dq_op) (q : DeadlineQueue) : dq_out * DeadlineQueue :=
  match op with
  | OpSchedule mem k d => out OutToken (schedule mem k d q)
  | OpCancel t => out OutBool (cancel t q)
  | OpAdvance mem now => out OutAdvance (advance mem now q)
  | OpClear => out (fun _ => OutUnit) (clear q)
  end.

Fixpoint exec_ops (ops : list dq_op) (q : DeadlineQueue) : list dq_out * DeadlineQueue :=
  match ops with
  | [] => ([], q)
  | op :: ops => let '(x, q1) := exec_op op q in
                 let '(xs, q2) := exec_ops ops q1 in (x :: xs, q2)
  end.

Definition op_ok (op : dq_op) : Prop :=
  match op with
  | OpSchedule _ _ d => is_time d
  | OpAdvance _ now => is_time now
  | _ => True
  end.

(** The abstract queue: pending deadlines and the next generation. *)
Inductive spec_step (o : DeadlineQueueOptions) :
    gmap Z (Z * Z) * Z -> dq_op -> dq_out -> gmap Z (Z * Z) * Z -> Prop :=
  | SpecSchedule mem m g k d :
      spec_step o (m, g) (OpSchedule mem k d) (OutToken (mkToken k g)) (<[k := (g, d)]> m, g + 1)
  | SpecExhausted mem m k d :
      spec_step o (m, usize_max) (OpSchedule mem k d) (OutThrow overflow_error) (m, usize_max)
  | SpecNoMemory mem m g k d :
      mem <> all_ok -> spec_step o (m, g) (OpSchedule mem k d) (OutThrow bad_alloc) (m, g)
  | SpecCancel m g t d :
      m !! key t = Some (generation t, d) ->
      spec_step o (m, g) (OpCancel t) (OutBool true) (delete (key t) m, g)
  | SpecCancelStale m g t :
      (forall d, m !! key t <> Some (generation t, d)) ->
      spec_step o (m, g) (OpCancel t) (OutBool false) (m, g)
  | SpecAdvance mem m m' g now res :
      advance_post o now m m' res -> spec_step o (m, g) (OpAdvance mem now) (OutAdvance res) (m', g)
  | SpecAdvanceNoMemory mem m g now k g' d :
      reserve_ok mem = false -> m !! k = Some (g', d) -> quantize o d <= now ->
      spec_step o (m, g) (OpAdvance mem now) (OutThrow bad_alloc) (m, g)
  | SpecClear m g : spec_step o (m, g) OpClear OutUnit (∅, g).

Inductive spec_run (o : DeadlineQueueOptions) :
    gmap Z (Z * Z) * Z -> list dq_op -> list dq_out -> gmap Z (Z * Z) * Z -> Prop :=
  | SpecNil s : spec_run o s [] [] s
  | SpecCons s1 op x s2 ops xs s3 :
      spec_step o s1 op x s2 -> spec_run o s2 ops xs s3 -> spec_run o s1 (op :: ops) (x :: xs) s3.

Definition spec_state (q : DeadlineQueue) : gmap Z (Z * Z) * Z := (abs q, nextGeneration q).

Lemma dq_exec_op_refines op q :
  dq_inv q -> op_ok op ->
  exists x q', exec_op op q = (x, q') /\ dq_inv q' /\ options q' = options q /\
    spec_step (options q) (spec_state q) op x (spec_state q').
Proof.
  intros Hq Hop. unfold spec_state. destruct op as [mem k d|t|mem now|]; cbn [exec_op op_ok] in *.
  - destruct (schedule_ok mem q k d Hq Hop) as (r & q' & -> & Hq' & Ho & Hp).
    destruct r as [t|e]; eexists _, q'; (split; [done|]); split_and!; try done.
    + destruct Hp as (-> & -> & ->). constructor.
    + destruct Hp as [Hs He]. destruct (same_queue_inv q q' Hs Hq) as [_ ->].
      destruct Hs as (n & -> & _). simpl.
      destruct He as [[-> ->]|[-> ?]]; [apply SpecExhausted|by apply SpecNoMemory].
  - destruct (cancel_ok q t Hq) as (r & q' & -> & Hq' & Ho & Hg & Hp). exists (OutBool r), q'.
    split_and!; try done. rewrite Hg. destruct r.
    + destruct Hp as [[d Hd] ->]. by econstructor.
    + destruct Hp as [-> ?]. by constructor.
  - destruct (advance_alloc_ok mem now q Hq Hop) as (r & q' & -> & Hq' & Ho & Hg & Hp).
    destruct r as [res|e]; eexists _, q'; (split; [done|]); split_and!; try done.
    + rewrite Hg. by constructor.
    + destruct Hp as (-> & Hmem & Hrd & ->).
      apply (ready_abs now q Hq) in Hrd as (k & g & d & Hk & Hd). by econstructor.
  - destruct (clear_ok q Hq) as (q' & -> & Hq' & Ha & Ho & Hg). exists OutUnit, q'.
    split_and!; try done. rewrite Ha, Hg. constructor.
Qed.

Lemma DeadlineQueue_new_ok o q :
  0 <= maxExpiredPerAdvance o < usize_lim -> resolution o <= i64_max ->
  DeadlineQueue_new o = Ok q -> dq_inv q /\ abs q = ∅ /\ options q = o.
Proof.
  unfold DeadlineQueue_new, validate. intros Hm Hr Hn. repeat case_if; simplify_eq.
  split_and!; try done. constructor; simpl; [unfold options_ok; lia|lia|split; simpl|]; try done.
  intros k loc. simpl. split; [by rewrite lookup_empty|].
  intros (e & He & _). by rewrite lookup_empty in He.
Qed.

(** C18. Every sequence of operations on a deadline queue, with allocations
    failing anywhere, behaves as the abstract map of pending deadlines does:
    [schedule] replaces the deadline of its key and returns a fresh token or
    throws and changes nothing, [cancel] removes exactly the current token,
    [advance] removes due entries in order up to its budget or, when entries
    are due and the storage for its result cannot be reserved, throws and
    changes nothing: once it is reserved no [push_back] has to allocate.  The bucket lists
    and the key index stay coherent, no iterator dangles, and neither
    [std::logic_error] is reached. *)
Theorem deadline_queue_refines_map ops q :
  dq_inv q -> Forall op_ok ops ->
  let '(xs, q') := exec_ops ops q in
  dq_inv q' /\ spec_run (options q) (spec_state q) ops xs (spec_state q').
Proof.
  revert q. induction ops as [|op ops IH]; intros q Hq Hops; simpl; [by split; [|constructor]|].
  apply Forall_cons in Hops as [Hop Hops].
  destruct (dq_exec_op_refines op q Hq Hop) as (x & q1 & -> & Hq1 & Ho & Hstep).
  specialize (IH q1 Hq1 Hops). destruct (exec_ops ops q1) as [xs q2]. rewrite Ho in IH.
  destruct IH. split; [done|]. by econstructor.
Qed.

(** Expiration is never early and late by less than one resolution: every
    entry [advance] returns is past its deadline and was pending with that
    very token; when the call reports nothing remaining, no entry is left
    whose deadline plus the resolution has passed, and none at all at the end
    of time. *)
Theorem advance_never_early q now :
  dq_inv q -> is_time now ->
  exists res q', advance advance_all_ok now q = (Ok res, q') /\
    (forall x, x ∈ expired res ->
       exp_deadline x <= now /\
       abs q !! key (exp_token x) = Some (generation (exp_token x), exp_deadline x) /\
       abs q' !! key (exp_token x) = None) /\
    zlen (expired res) <= maxExpiredPerAdvance (options q) /\
    (readyRemaining res = false -> forall k g d, abs q' !! k = Some (g, d) ->
       now < d + resolution (options q) /\ now < i64_max).
Proof.
  intros Hq Ht. destruct (advance_ok now q Hq Ht) as (res & q' & Hr & Hq' & Ho & Hg & Hp).
  destruct Hp as [[Hrest Hdue _ _] Hbud Hrem _ _]. destruct (dq_options q Hq) as [Hres _].
  exists res, q'. split_and!; [done| |done|].
  - intros x Hx. destruct (Hdue x Hx) as [Hm Hn]. apply abs_node in Hm as Hmn; [|done].
    destruct Hmn as (_ & _ & _ & Hd & _). pose proof (quantize_bounds _ _ Hres Hd).
    split_and!; [lia|done|]. rewrite Hrest, bool_decide_true; [done|].
    apply list_elem_of_fmap. eauto.
  - intros Hf k g d Hk. apply abs_node in Hk as Hkn; [|done].
    destruct Hkn as (_ & _ & _ & Hd & _). pose proof (quantize_bounds _ _ Hres Hd) as [? ?].
    assert (~ quantize (options q) d <= now) as Hlate; [|lia].
    intros Hle. assert (readyRemaining res = true) by (apply Hrem; eauto). congruence.
Qed.

(** Rounding computes the ceiling of a deadline to a multiple of the
    resolution, capped at the largest time point. *)
Theorem quantize_ceil o d :
  0 < resolution o <= i64_max -> is_time d ->
  quantize o d = Z.min i64_max (resolution o * ((d + (resolution o - 1)) / resolution o)).
Proof.
  unfold quantize, is_time. intros Hr Hd.
  pose proof (Z.quot_rem' d (resolution o)) as Hq.
  pose proof (Z.rem_bound_pos d (resolution o) ltac:(lia) ltac:(lia)) as Hm.
  set (c := Z.quot d (resolution o)) in *. set (r := Z.rem d (resolution o)) in *.
  case_if.
  - rewrite <- (Z.div_unique (d + (resolution o - 1)) (resolution o) (c + 1) (r - 1)) by lia.
    case_if; lia.
  - rewrite <- (Z.div_unique (d + (resolution o - 1)) (resolution o) c (r + resolution o - 1)) by lia.
    lia.
Qed.

(** A token is current until its key is scheduled again: after a second
    [schedule] of the key the first token cannot be cancelled and the queue is
    unchanged by trying, while the second one can, exactly once. *)
Theorem rescheduled_token_is_stale q k d1 d2 :
  dq_inv q -> is_time d1 -> is_time d2 -> nextGeneration q < usize_max - 1 ->
  exists t1 q1 t2 q2 q3, schedule all_ok k d1 q = (Ok t1, q1) /\ schedule all_ok k d2 q1 = (Ok t2, q2) /\
    generation t1 < generation t2 /\
    cancel t1 q2 = (Ok false, q2) /\
    cancel t2 q2 = (Ok true, q3) /\ abs q3 = delete k (abs q) /\
    cancel t2 q3 = (Ok false, q3).
Proof.
  intros Hq H1 H2 Hn.
  destruct (schedule_all_ok q k d1 Hq H1) as (q1 & Hs1 & Hq1 & _ & Hn1 & Ha1); [lia|].
  destruct (schedule_all_ok q1 k d2 Hq1 H2) as (q2 & Hs2 & Hq2 & _ & Hn2 & Ha2); [lia|].
  rewrite Ha1, insert_insert_eq in Ha2.
  eexists _, q1, _, q2. destruct (cancel_ok q2 (mkToken k (nextGeneration q1)) Hq2)
    as (r & q3 & Hc & Hq3 & _ & _ & Hp).
  destruct r; cycle 1.
  { exfalso. destruct Hp as [_ Hp]. apply (Hp d2). rewrite Ha2. simpl. by rewrite lookup_insert_eq. }
  destruct Hp as [_ Ha3]. simpl in Ha3. rewrite Ha2, delete_insert_eq in Ha3.
  exists q3. split_and!; try done; simpl; [lia| |].
  - destruct (cancel_ok q2 (mkToken k (nextGeneration q)) Hq2) as (r & q4 & Hc4 & _ & _ & _ & Hp4).
    destruct r; simpl in Hp4.
    + destruct Hp4 as [[d Hd] _]. rewrite Ha2, lookup_insert_eq in Hd. simplify_eq. lia.
    + by destruct Hp4 as [-> _].
  - destruct (cancel_ok q3 (mkToken k (nextGeneration q1)) Hq3) as (r & q4 & Hc4 & _ & _ & _ & Hp4).
    destruct r; simpl in Hp4.
    + destruct Hp4 as [[d Hd] _]. by rewrite Ha3, lookup_delete_eq in Hd.
    + by destruct Hp4 as [-> _].
Qed.

(** ** Concrete runs *)

Definition demo_options : DeadlineQueueOptions := mkOptions 10 2.
Definition demo_queue : DeadlineQueue := mkQueue demo_options 1 ∅ ∅ ∅ 0.

Lemma demo_queue_ok : dq_inv demo_queue.
Proof.
  refine (proj1 (DeadlineQueue_new_ok demo_options demo_queue _ _ _)); simpl; [lia|lia|reflexivity].
Qed.

(** Three entries in one bucket, one replaced, then an [advance] that runs out
    of budget and one that finishes. *)
Definition demo_ops : list dq_op :=
  [OpSchedule all_ok 7 11; OpSchedule all_ok 8 12; OpSchedule (mkAlloc true true false) 9 3;
   OpSchedule all_ok 9 20; OpSchedule all_ok 7 14; OpAdvance advance_all_ok 19;
   OpAdvance (mkAdvanceAlloc false true) 20; OpAdvance (mkAdvanceAlloc true false) 20;
   OpAdvance advance_all_ok 20].

Definition demo_outs : list dq_out :=
  [OutToken (mkToken 7 1); OutToken (mkToken 8 2); OutThrow bad_alloc;
   OutToken (mkToken 9 3); OutToken (mkToken 7 4);
   OutAdvance (mkAdvance [] false 0); OutThrow bad_alloc;
   OutAdvance (mkAdvance [mkExpiration (mkToken 8 2) 12; mkExpiration (mkToken 9 3) 20] true 0);
   OutAdvance (mkAdvance [mkExpiration (mkToken 7 4) 14] false 0)].

Lemma deadline_queue_refines_map_witness :
  exists q', exec_ops demo_ops demo_queue = (demo_outs, q') /\
    spec_run demo_options (∅, 1) demo_ops demo_outs (spec_state q').
Proof.
  pose proof (deadline_queue_refines_map demo_ops demo_queue demo_queue_ok) as Hrun.
  destruct (exec_ops demo_ops demo_queue) as [xs q'] eqn:E.
  assert ((exec_ops demo_ops demo_queue).1 = xs) as Hx by (by rewrite E).
  vm_compute in Hx. subst xs. exists q'. split; [reflexivity|].
  apply Hrun. unfold demo_ops. repeat constructor; unfold is_time; lia.
Defined.

Lemma advance_never_early_witness :
  exists res q', advance advance_all_ok 20 (exec_ops (take 5 demo_ops) demo_queue).2 = (Ok res, q') /\
    map exp_deadline (expired res) = [12; 20] /\ zlen (expired res) <= 2.
Proof.
  destruct (advance_never_early (exec_ops (take 5 demo_ops) demo_queue).2 20) as (res & q' & Hr & _ & Hb & _).
  - assert (Forall op_ok (take 5 demo_ops)) as Hops
      by (unfold demo_ops; simpl; repeat constructor; unfold is_time; lia).
    revert Hops. generalize (take 5 demo_ops), demo_queue_ok. generalize demo_queue.
    intros q ops Hq. revert q Hq. induction ops as [|op ops IH]; intros q Hq Hops; [exact Hq|].
    apply Forall_cons in Hops as [Hop Hops].
    destruct (dq_exec_op_refines op q Hq Hop) as (x & q1 & He & Hq1 & _ & _). simpl. rewrite He.
    specialize (IH q1 Hq1 Hops). by destruct (exec_ops ops q1).
  - unfold is_time. lia.
  - exists res, q'. split; [exact Hr|]. split; [|exact Hb].
    assert ((advance advance_all_ok 20 (exec_ops (take 5 demo_ops) demo_queue).2).1 = Ok res) as Hx by (by rewrite Hr).
    vm_compute in Hx. injection Hx as <-. reflexivity.
Defined.

Lemma rescheduled_token_is_stale_witness :
  exists t1 q1 t2 q2, schedule all_ok 7 11 demo_queue = (Ok t1, q1) /\
    schedule all_ok 7 14 q1 = (Ok t2, q2) /\ t1 = mkToken 7 1 /\ cancel t1 q2 = (Ok false, q2).
Proof.
  destruct (rescheduled_token_is_stale demo_queue 7 11 14 demo_queue_ok)
    as (t1 & q1 & t2 & q2 & q3 & H1 & H2 & _ & H4 & _); [unfold is_time; lia..|simpl; lia|].
  exists t1, q1, t2, q2. split_and!; [exact H1|exact H2| |exact H4].
  assert ((schedule all_ok 7 11 demo_queue).1 = Ok t1) as Hx by (by rewrite H1).
  vm_compute in Hx. by injection Hx as <-.
Defined.

Lemma quantize_ceil_witness :
  quantize demo_options 11 = Z.min i64_max (10 * ((11 + (10 - 1)) / 10)) /\ quantize demo_options 11 = 20.
Proof.
  split; [|reflexivity].
  refine (quantize_ceil demo_options 11 _ _); [simpl; lia|unfold is_time; lia].
Defined.
