(* ===== verification/Transport.v ===== *)
(** * Admission results and the transport endpoint

    Models of [gamenet::DispatchResult] (include/gamenet/core/DispatchResult.h),
    [gamenet::net::PostResult] (include/gamenet/core/net/PostResult.h), the
    abstract [gamenet::transport::TransportEndpoint]
    (include/gamenet/transport/TransportEndpoint.h) and its TCP implementation
    (src/transport/TcpTransportEndpoint.cc).

    An endpoint decides from what it can observe of its connection and of the
    owner loop's executor; an operation returns its result and the action it
    requested of the connection, if any. *)

From S2P Require Import Prelude.

Local Open Scope Z_scope.

Inductive PostResult := PostAccepted | PostQueueFull | PostOwnerUnavailable | PostShutdown.

Inductive DispatchResult :=
  | Accepted
  | QueueFull
  | OwnerUnavailable
  | Shutdown
  | EndpointClosed
  | EndpointOverloaded
  | PolicyRejected.

Global Instance DispatchResult_eq_dec : EqDecision DispatchResult.
Proof. solve_decision. Defined.

Definition dispatchResult (r : PostResult) : DispatchResult :=
  match r with
  | PostAccepted => Accepted
  | PostQueueFull => QueueFull
  | PostOwnerUnavailable => OwnerUnavailable
  | PostShutdown => Shutdown
  end.

Inductive CloseReason := Normal | GoingAway | ProtocolError | Replaced | IdleTimeout | Overloaded.

Global Instance CloseReason_eq_dec : EqDecision CloseReason.
Proof. solve_decision. Defined.

Inductive EndpointResult :=
  | EpAccepted | EpClosed | EpWrongThread | EpOwnerUnavailable | EpOverloaded.

Global Instance EndpointResult_eq_dec : EqDecision EndpointResult.
Proof. solve_decision. Defined.

Inductive TcpSendResult :=
  | SendAccepted | SendClosed | SendOverloaded | SendLoopOverloaded | SendServerOverloaded
  | SendGlobalOverloaded | SendOwnerUnavailable | SendSchedulingQueueFull | SendOwnerShutdown.

Global Instance TcpSendResult_eq_dec : EqDecision TcpSendResult.
Proof. solve_decision. Defined.

(** ** The executor and the connection as an endpoint observes them *)

Record Executor := mkExecutor { available : bool; isInOwnerThread : bool }.

(** What the endpoint reads of a live [TcpConnection], and how its admission
    calls answer. *)
Record Connection := mkConnection {
  connected : bool;
  disconnected : bool;
  trySend : list byte -> TcpSendResult;
  tryShutdown : PostResult;
  tryForceClose : PostResult;
}.

(** Requests made of the connection. *)
Inductive action := DoSend (bytes : list byte) | DoShutdown | DoForceClose.

(** [connection_] is a weak pointer: [None] when it cannot be locked. *)
Record TcpTransportEndpoint := mkEndpoint {
  id_ : Z;
  ownerExecutor_ : Executor;
  connection_ : option Connection;
}.

Definition gracefulReason (reason : CloseReason) : bool :=
  match reason with Normal | GoingAway => true | _ => false end.

Definition send (e : TcpTransportEndpoint) (bytes : list byte) : EndpointResult * list action :=
  match connection_ e with
  | None => (EpClosed, [])
  | Some c =>
      if negb (isInOwnerThread (ownerExecutor_ e)) then
        (if available (ownerExecutor_ e) then EpWrongThread else EpOwnerUnavailable, [])
      else if negb (connected c) then (EpClosed, [])
      else
        (match trySend c bytes with
         | SendAccepted => EpAccepted
         | SendClosed => EpClosed
         | SendOverloaded | SendLoopOverloaded | SendServerOverloaded | SendGlobalOverloaded =>
             EpOverloaded
         | SendOwnerUnavailable => EpOwnerUnavailable
         | SendSchedulingQueueFull | SendOwnerShutdown => EpClosed  (** past the switch *)
         end, [DoSend bytes])
  end.

Definition close (e : TcpTransportEndpoint) (reason : CloseReason) : EndpointResult * list action :=
  match connection_ e with
  | None => (EpClosed, [])
  | Some c =>
      if negb (isInOwnerThread (ownerExecutor_ e)) then
        (if available (ownerExecutor_ e) then EpWrongThread else EpOwnerUnavailable, [])
      else if disconnected c then (EpClosed, [])
      else if gracefulReason reason then (EpAccepted, [DoShutdown])
      else (EpAccepted, [DoForceClose])
  end.

Definition requestClose (e : TcpTransportEndpoint) (reason : CloseReason) :
    DispatchResult * list action :=
  match connection_ e with
  | None => (EndpointClosed, [])
  | Some c =>
      if disconnected c then (EndpointClosed, [])
      else if gracefulReason reason then (dispatchResult (tryShutdown c), [DoShutdown])
      else (dispatchResult (tryForceClose c), [DoForceClose])
  end.

Definition isOpen (e : TcpTransportEndpoint) : bool :=
  match connection_ e with
  | None => false
  | Some c => available (ownerExecutor_ e) && connected c
  end.

(** The inherited [TransportEndpoint::requestClose]: inline on the owner thread
    only, through the virtual [close]. *)
Definition requestClose_default (executor : Executor)
    (close : CloseReason -> EndpointResult * list action) (reason : CloseReason) :
    DispatchResult * list action :=
  if negb (isInOwnerThread executor) then
    (if available executor then PolicyRejected else OwnerUnavailable, [])
  else
    let '(r, acts) := close reason in
    (match r with
     | EpAccepted => Accepted
     | EpClosed => EndpointClosed
     | EpOwnerUnavailable => OwnerUnavailable
     | EpOverloaded => EndpointOverloaded
     | EpWrongThread => PolicyRejected
     end, acts).

(** ** Properties *)

Ltac crush_endpoint :=
  split_and!; try (split; intros); repeat match goal with
  | H : exists _, _ |- _ => destruct H
  | H : _ /\ _ |- _ => destruct H
  end; simplify_eq/=; try done; eauto 10; try (intros; congruence).

(** A TCP endpoint touches its connection only from the owner thread and
    only while the connection is open: [send] passes bytes on in exactly that
    case and then reports acceptance only if the connection accepted them;
    [close] shuts down gracefully for [Normal] and [GoingAway] and force-closes
    otherwise; every refusal names its cause and requests nothing. *)
Theorem endpoint_owner_affinity e bytes reason :
  (snd (send e bytes) = [DoSend bytes] <->
     exists c, connection_ e = Some c /\ isInOwnerThread (ownerExecutor_ e) = true /\
       connected c = true) /\
  (snd (send e bytes) = [] \/ snd (send e bytes) = [DoSend bytes]) /\
  (fst (send e bytes) = EpAccepted ->
     exists c, connection_ e = Some c /\ connected c = true /\ trySend c bytes = SendAccepted) /\
  (fst (close e reason) = EpAccepted <->
     snd (close e reason) = [if gracefulReason reason then DoShutdown else DoForceClose]) /\
  (fst (close e reason) <> EpAccepted -> snd (close e reason) = []) /\
  (isInOwnerThread (ownerExecutor_ e) = false ->
     snd (send e bytes) = [] /\ snd (close e reason) = []).
Proof.
  unfold send, close. destruct (connection_ e) as [c|]; [|crush_endpoint].
  destruct (isInOwnerThread _) eqn:Ho; simpl; [|destruct (available _); crush_endpoint].
  destruct (connected c) eqn:Hc, (disconnected c), (gracefulReason reason);
    destruct (trySend c bytes) eqn:Ht; simpl; crush_endpoint.
Qed.

(** The two [requestClose] paths agree where both may run: on the owner
    thread, for a connection whose admission calls accept, the TCP override
    and the inherited default through [close] return the same result and make
    the same request. *)
Theorem requestClose_agrees_with_default e reason :
  isInOwnerThread (ownerExecutor_ e) = true ->
  (forall c, connection_ e = Some c -> tryShutdown c = PostAccepted /\ tryForceClose c = PostAccepted) ->
  requestClose e reason = requestClose_default (ownerExecutor_ e) (close e) reason.
Proof.
  unfold requestClose, requestClose_default, close. intros -> Hc. simpl.
  destruct (connection_ e) as [c|]; [|done]. destruct (Hc c eq_refl) as [-> ->].
  by destruct (disconnected c), (gracefulReason reason).
Qed.

Definition demo_connection : Connection :=
  mkConnection true false (fun _ => SendAccepted) PostAccepted PostAccepted.
Definition demo_endpoint : TcpTransportEndpoint :=
  mkEndpoint 5 (mkExecutor true true) (Some demo_connection).

Lemma requestClose_agrees_with_default_witness :
  requestClose demo_endpoint IdleTimeout
    = requestClose_default (ownerExecutor_ demo_endpoint) (close demo_endpoint) IdleTimeout /\
  requestClose demo_endpoint IdleTimeout = (Accepted, [DoForceClose]).
Proof.
  split; [|reflexivity].
  refine (requestClose_agrees_with_default demo_endpoint IdleTimeout _ _); [reflexivity|].
  intros c [= <-]. split; reflexivity.
Defined.
