(* ===== verification/Session.v ===== *)
(** * Player sessions and their manager

    Model of [gamenet::game_session::PlayerSession], [SessionBinding]
    (include/gamenet/game_session/PlayerSession.h, src/game_session/PlayerSession.cc)
    and [SessionManager] (include/gamenet/game_session/SessionManager.h,
    src/game_session/SessionManager.cc).

    Sessions and their binding states are shared objects: both indexes, the
    callers' [shared_ptr<const PlayerSession>] and the cross-thread
    [SessionBinding]s alias them, so they live in stores indexed by address and
    the indexes hold addresses.  Endpoints are addresses too; [ep_id] is their
    virtual [id()].  Close requests are appended to a log.

    The idle-deadline queue is used through the [DeadlineIndex] interface only. *)

From stdpp Require Import strings.
From S2P Require Import Prelude DeadlineQueue Transport.

Local Open Scope Z_scope.

(** ** Data *)

Inductive SessionState := Authenticating | Online | Offline.

Record PlayerSession := mkSession {
  sessionId_ : Z;
  playerId_ : string;
  state_ : SessionState;
  endpoint_ : Z;
  lastActivity_ : Z;
  generation_ : Z;
  bindingState_ : Z;            (** address of the shared [State] *)
  idleDeadline_ : DeadlineToken;
}.

(** An immutable capability; [None] is a null [state_]. *)
Record SessionBinding := mkBinding {
  sb_sessionId : Z;
  sb_transportId : Z;
  sb_generation : Z;
  sb_state : option Z;
}.

Definition tracked (b : SessionBinding) : bool :=
  match sb_state b with Some _ => negb (sb_generation b =? 0) | None => false end.

(** [currentGeneration] of every binding state *)
Definition isCurrent (states : gmap Z Z) (b : SessionBinding) : bool :=
  negb (tracked b) ||
  match sb_state b with
  | Some a => default 0 (states !! a) =? sb_generation b
  | None => false
  end.

Inductive DuplicateLoginPolicy := ReplaceExisting | RejectNew.
Inductive AuthenticateStatus := Created | Existing | Rebound | Rejected.
Inductive LifecycleState := Running | LifecycleShutdown.

Global Instance LifecycleState_eq_dec : EqDecision LifecycleState.
Proof. solve_decision. Defined.

Record AuthenticateResult := mkAuth {
  status : AuthenticateStatus;
  session : option Z;
  dispatch : DispatchResult;
}.

Record IdleExpirationResult := mkIdle { idle_expired : Z; idle_remaining : bool }.

Record Options := mkSessionOptions {
  duplicateLogin : DuplicateLoginPolicy;
  idleTimeout : Z;
  idleDeadlineResolution : Z;
  maxIdleExpirationsPerAdvance : Z;
}.

Section manager.
Context {Q : Type} `{DeadlineIndex Q}.
(** [endpoint->id()] *)
Context (ep_id : Z -> Z).

Record SessionManager := mkManager {
  lifecycleState_ : LifecycleState;
  terminal : DispatchResult;           (** of the shared [LifetimeState] *)
  options_ : Options;
  idleDeadlines_ : Q;
  nextSessionId_ : Z;
  nextBindingGeneration_ : Z;
  byPlayer_ : gmap string Z;
  byTransport_ : gmap Z Z;
  sessions : gmap Z PlayerSession;     (** the objects *)
  states : gmap Z Z;                   (** [currentGeneration] of the binding states *)
  nextObject : Z;
  closes : list (Z * CloseReason);     (** close requests, latest last *)
}.

Abbreviation SM := (M SessionManager).

Definition set_lifecycle (l : LifecycleState) (t : DispatchResult) (s : SessionManager) :=
  mkManager l t (options_ s) (idleDeadlines_ s) (nextSessionId_ s) (nextBindingGeneration_ s)
    (byPlayer_ s) (byTransport_ s) (sessions s) (states s) (nextObject s) (closes s).
Definition set_idle (q : Q) (s : SessionManager) :=
  mkManager (lifecycleState_ s) (terminal s) (options_ s) q (nextSessionId_ s)
    (nextBindingGeneration_ s) (byPlayer_ s) (byTransport_ s) (sessions s) (states s)
    (nextObject s) (closes s).
Definition set_counters (sid gen : Z) (s : SessionManager) :=
  mkManager (lifecycleState_ s) (terminal s) (options_ s) (idleDeadlines_ s) sid gen
    (byPlayer_ s) (byTransport_ s) (sessions s) (states s) (nextObject s) (closes s).
Definition set_byPlayer (f : gmap string Z -> gmap string Z) (s : SessionManager) :=
  mkManager (lifecycleState_ s) (terminal s) (options_ s) (idleDeadlines_ s) (nextSessionId_ s)
    (nextBindingGeneration_ s) (f (byPlayer_ s)) (byTransport_ s) (sessions s) (states s)
    (nextObject s) (closes s).
Definition set_byTransport (f : gmap Z Z -> gmap Z Z) (s : SessionManager) :=
  mkManager (lifecycleState_ s) (terminal s) (options_ s) (idleDeadlines_ s) (nextSessionId_ s)
    (nextBindingGeneration_ s) (byPlayer_ s) (f (byTransport_ s)) (sessions s) (states s)
    (nextObject s) (closes s).
Definition set_objects (f : gmap Z PlayerSession -> gmap Z PlayerSession) (g : gmap Z Z -> gmap Z Z)
    (n : Z) (s : SessionManager) :=
  mkManager (lifecycleState_ s) (terminal s) (options_ s) (idleDeadlines_ s) (nextSessionId_ s)
    (nextBindingGeneration_ s) (byPlayer_ s) (byTransport_ s) (f (sessions s)) (g (states s))
    n (closes s).
Definition add_close (e : Z) (r : CloseReason) (s : SessionManager) :=
  mkManager (lifecycleState_ s) (terminal s) (options_ s) (idleDeadlines_ s) (nextSessionId_ s)
    (nextBindingGeneration_ s) (byPlayer_ s) (byTransport_ s) (sessions s) (states s)
    (nextObject s) (closes s ++ [(e, r)]).

(** ** The manager's objects *)

Definition load (a : Z) : SM PlayerSession :=
  do s <- get ;;
  match sessions s !! a with
  | Some p => ret p
  | None => throw undefined_behaviour
  end.

Definition update (a : Z) (f : PlayerSession -> PlayerSession) : SM unit :=
  do p <- load a ;;
  modify (fun s => set_objects (fun m => <[a := f p]> m) (fun m => m) (nextObject s) s).

(** [bindingState_->currentGeneration.store(g)] *)
Definition store_generation (a g : Z) : SM unit :=
  do p <- load a ;;
  modify (fun s => set_objects (fun m => m) (fun m => <[bindingState_ p := g]> m) (nextObject s) s).

Definition transportId (p : PlayerSession) : Z := ep_id (endpoint_ p).

Definition binding (p : PlayerSession) : SessionBinding :=
  mkBinding (sessionId_ p) (transportId p) (generation_ p) (Some (bindingState_ p)).

Definition no_token : DeadlineToken := mkToken 0 0.

(** [new PlayerSession(...)], with its binding state. *)
Definition PlayerSession_new (sid : Z) (player : string) (endpoint gen now : Z) : SM Z :=
  do s <- get ;;
  let a := nextObject s in
  run throw_if ((player =? "")%string || (gen =? 0)) invalid_argument ;;
  run modify (set_objects
    (fun m => <[a := mkSession sid player Authenticating endpoint now gen a no_token]> m)
    (fun m => <[a := gen]> m) (a + 1)) ;;
  ret a.

Definition with_state (st : SessionState) (p : PlayerSession) :=
  mkSession (sessionId_ p) (playerId_ p) st (endpoint_ p) (lastActivity_ p) (generation_ p)
    (bindingState_ p) (idleDeadline_ p).
Definition with_activity (now : Z) (p : PlayerSession) :=
  mkSession (sessionId_ p) (playerId_ p) (state_ p) (endpoint_ p) now (generation_ p)
    (bindingState_ p) (idleDeadline_ p).
Definition with_deadline (t : DeadlineToken) (p : PlayerSession) :=
  mkSession (sessionId_ p) (playerId_ p) (state_ p) (endpoint_ p) (lastActivity_ p)
    (generation_ p) (bindingState_ p) t.
Definition with_binding (e gen : Z) (p : PlayerSession) :=
  mkSession (sessionId_ p) (playerId_ p) (state_ p) e (lastActivity_ p) gen
    (bindingState_ p) (idleDeadline_ p).

Definition markOnline (a now : Z) : SM unit :=
  update a (fun p => with_activity now (with_state Online p)).

Definition markOffline (a : Z) : SM unit :=
  run store_generation a 0 ;;
  update a (with_state Offline).

Definition rebind (a endpoint gen now : Z) : SM unit :=
  run throw_if (gen =? 0) invalid_argument ;;
  run store_generation a 0 ;;
  run update a (with_binding endpoint gen) ;;
  run store_generation a gen ;;
  markOnline a now.

Definition refreshBinding (a gen now : Z) : SM unit :=
  run store_generation a 0 ;;
  run update a (fun p => with_binding (endpoint_ p) gen p) ;;
  run store_generation a gen ;;
  markOnline a now.

Definition session_heartbeat (a now : Z) : SM unit := update a (with_activity now).

(** ** The manager *)

(** A call on the deadline queue. *)
Definition on_idle {A} (m : M Q A) : SM A := fun s =>
  let '(r, q) := m (idleDeadlines_ s) in (r, set_idle q s).

(** [closeEndpoint]; the endpoint is never null here. *)
Definition closeEndpoint (e : Z) (r : CloseReason) : SM unit := modify (add_close e r).

(** [nextBindingGeneration_++] and [nextSessionId_++] *)
Definition take_generation : SM Z :=
  do s <- get ;;
  run modify (fun s => set_counters (nextSessionId_ s) (nextBindingGeneration_ s ⊕ 1) s) ;;
  ret (nextBindingGeneration_ s).
Definition take_sessionId : SM Z :=
  do s <- get ;;
  run modify (fun s => set_counters (nextSessionId_ s ⊕ 1) (nextBindingGeneration_ s) s) ;;
  ret (nextSessionId_ s).

(** [session->idleDeadline_ = idleDeadlines_->schedule(transportId, since + idleTimeout)] *)
Definition scheduleIdle (a since : Z) : SM unit :=
  do s <- get ;;
  do p <- load a ;;
  do d <- lift (i64 (since + idleTimeout (options_ s))) ;;
  do t <- on_idle (di_schedule (transportId p) d) ;;
  update a (with_deadline t).

Definition findMutableByTransport (t : Z) : SM (option Z) := gets (fun s => byTransport_ s !! t).
Definition findByPlayer (player : string) : SM (option Z) := gets (fun s => byPlayer_ s !! player).

Definition eraseSession (a : Z) : SM unit :=
  do p <- load a ;;
  run on_idle (di_cancel (idleDeadline_ p)) ;;
  run update a (with_deadline no_token) ;;
  run modify (set_byTransport (fun m => delete (transportId p) m)) ;;
  run modify (set_byPlayer (fun m =>
        if bool_decide (m !! playerId_ p = Some a) then delete (playerId_ p) m else m)) ;;
  markOffline a.

Definition rejected (d : DispatchResult) (a : option Z) : AuthenticateResult := mkAuth Rejected a d.

(** The binding check against the session that owns the transport id:
    [Some r] is the early return. *)
Definition authenticate_bound (player : string) (endpoint : Z) : SM (option AuthenticateResult) :=
  do owner <- findMutableByTransport (ep_id endpoint) ;;
  match owner with
  | None => ret None
  | Some a =>
      do b <- load a ;;
      if (playerId_ b =? player)%string && (endpoint_ b =? endpoint) then ret None
      else
        run (if endpoint_ b =? endpoint then ret tt else closeEndpoint endpoint ProtocolError) ;;
        ret (Some (rejected PolicyRejected None))
  end.

Definition authenticate_create (player : string) (endpoint now : Z) : SM AuthenticateResult :=
  do sid <- take_sessionId ;;
  do gen <- take_generation ;;
  do a <- PlayerSession_new sid player endpoint gen now ;;
  run markOnline a now ;;
  run scheduleIdle a now ;;
  run modify (set_byTransport (fun m => <[ep_id endpoint := a]> m)) ;;
  run modify (set_byPlayer (fun m => <[player := a]> m)) ;;
  ret (mkAuth Created (Some a) Accepted).

Definition authenticate_rebind (a endpoint now : Z) : SM AuthenticateResult :=
  do p <- load a ;;
  run on_idle (di_cancel (idleDeadline_ p)) ;;
  run modify (set_byTransport (fun m => delete (transportId p) m)) ;;
  do gen <- take_generation ;;
  run rebind a endpoint gen now ;;
  run scheduleIdle a now ;;
  run modify (set_byTransport (fun m => <[ep_id endpoint := a]> m)) ;;
  run closeEndpoint (endpoint_ p) Replaced ;;
  ret (mkAuth Rebound (Some a) Accepted).

(** [endpoint = None] is a null pointer. *)
Definition authenticate (player : string) (endpoint : option Z) (now : Z) : SM AuthenticateResult :=
  do s <- get ;;
  if negb (bool_decide (lifecycleState_ s = Running)) then ret (rejected Shutdown None)
  else match endpoint with
  | None => ret (rejected PolicyRejected None)
  | Some e =>
      if (player =? "")%string then ret (rejected PolicyRejected None)
      else
        do early <- authenticate_bound player e ;;
        match early with
        | Some r => ret r
        | None =>
            do existing <- findByPlayer player ;;
            match existing with
            | None => authenticate_create player e now
            | Some a =>
                do p <- load a ;;
                if transportId p =? ep_id e then
                  do gen <- take_generation ;;
                  run refreshBinding a gen now ;;
                  run scheduleIdle a now ;;
                  ret (mkAuth Existing (Some a) Accepted)
                else match duplicateLogin (options_ s) with
                | RejectNew => ret (rejected PolicyRejected (Some a))
                | ReplaceExisting => authenticate_rebind a e now
                end
            end
        end
  end.

Definition offline (t : Z) : SM bool :=
  do s <- get ;;
  if negb (bool_decide (lifecycleState_ s = Running)) then ret false
  else match byTransport_ s !! t with
  | None => ret false
  | Some a =>
      do p <- load a ;;
      if transportId p =? t then run eraseSession a ;; ret true
      else ret false
  end.

Definition heartbeat (t now : Z) : SM bool :=
  do s <- get ;;
  if negb (bool_decide (lifecycleState_ s = Running)) then ret false
  else
    do found <- findMutableByTransport t ;;
    match found with
    | None => ret false
    | Some a =>
        do p <- load a ;;
        if transportId p =? t then
          run session_heartbeat a now ;;
          run scheduleIdle a now ;;
          ret true
        else ret false
    end.

(** The loop body of [expireIdleBatch]; true when the session expired. *)
Definition expire_one (now : Z) (x : DeadlineExpiration) : SM bool :=
  do found <- findMutableByTransport (key (exp_token x)) ;;
  match found with
  | None => ret false
  | Some a =>
      do p <- load a ;;
      if negb (token_eqb (idleDeadline_ p) (exp_token x)) then ret false
      else
        do s <- get ;;
        do idle <- lift (i64 (now - lastActivity_ p)) ;;
        if idle <? idleTimeout (options_ s) then
          run scheduleIdle a (lastActivity_ p) ;;
          ret false
        else
          run eraseSession a ;;
          run closeEndpoint (endpoint_ p) IdleTimeout ;;
          ret true
  end.

Fixpoint expire_each (now : Z) (xs : list DeadlineExpiration) : SM Z :=
  match xs with
  | [] => ret 0
  | x :: xs =>
      do b <- expire_one now x ;;
      do n <- expire_each now xs ;;
      ret (if b then 1 ⊕ n else n)
  end.

Definition expireIdleBatch (now : Z) : SM IdleExpirationResult :=
  do s <- get ;;
  if negb (bool_decide (lifecycleState_ s = Running)) then ret (mkIdle 0 false)
  else
    do ready <- on_idle (di_advance now) ;;
    do n <- expire_each now (expired ready) ;;
    ret (mkIdle n (readyRemaining ready)).

Fixpoint expireIdle_loop (fuel : nat) (now n : Z) : SM Z :=
  match fuel with
  | O => throw undefined_behaviour
  | S k =>
      do batch <- expireIdleBatch now ;;
      let n := n ⊕ idle_expired batch in
      if idle_remaining batch then expireIdle_loop k now n else ret n
  end.

(** Every batch that reports more work has taken at least one entry off the
    queue, and an entry put back is not due: one turn per entry, and a last one. *)
Definition expireIdle (now : Z) : SM Z :=
  do s <- get ;;
  expireIdle_loop (S (base.size (di_abs (idleDeadlines_ s)))) now 0.

(** [size()] *)
Definition manager_size (s : SessionManager) : Z := Z.of_nat (base.size (byPlayer_ s)).

(** [LifetimeState::revoke]: the first terminal result stays. *)
Definition revoke (r : DispatchResult) (s : SessionManager) : SessionManager :=
  set_lifecycle (lifecycleState_ s) (if bool_decide (terminal s = Accepted) then r else terminal s) s.

(** The first loop of [shutdown]: collect endpoints, mark offline. *)
Fixpoint shutdown_collect (l : list (string * Z)) : SM (list Z) :=
  match l with
  | [] => ret []
  | (_, a) :: l =>
      do p <- load a ;;
      run markOffline a ;;
      do es <- shutdown_collect l ;;
      ret (endpoint_ p :: es)
  end.

Fixpoint close_all (es : list Z) (r : CloseReason) : SM unit :=
  match es with
  | [] => ret tt
  | e :: es => run closeEndpoint e r ;; close_all es r
  end.

Definition shutdown : SM unit :=
  do s <- get ;;
  if bool_decide (lifecycleState_ s = LifecycleShutdown) then ret tt
  else
    run modify (revoke Shutdown) ;;
    run modify (fun s => set_lifecycle LifecycleShutdown (terminal s) s) ;;
    do es <- shutdown_collect (map_to_list (byPlayer_ s)) ;;
    run modify (set_byTransport (fun _ => ∅)) ;;
    run modify (set_byPlayer (fun _ => ∅)) ;;
    run on_idle di_clear ;;
    close_all es GoingAway.

(** ** Posted operations

    [post...] captures a task for the owner loop; the executor's answer is its
    argument.  [run_task] is the posted callable, with the result handed to the
    callback; [alive] says whether [lifetime.lock()] finds the state. *)

Inductive Task :=
  | TaskAuthenticate (player : string) (endpoint : option Z)
  | TaskOffline (t : Z)
  | TaskHeartbeat (t : Z).

Inductive TaskResult :=
  | RAuthenticate (r : AuthenticateResult)
  | RMutation (r : DispatchResult).

Definition post (posted : PostResult) (t : Task) (s : SessionManager) :
    DispatchResult * option Task :=
  if negb (bool_decide (terminal s = Accepted)) then (terminal s, None)
  else (dispatchResult posted, match posted with PostAccepted => Some t | _ => None end).

Definition postAuthenticate (posted : PostResult) (player : string) (endpoint : option Z) :=
  post posted (TaskAuthenticate player endpoint).
Definition postOffline (posted : PostResult) (t : Z) := post posted (TaskOffline t).
Definition postHeartbeat (posted : PostResult) (t : Z) := post posted (TaskHeartbeat t).

Definition refuse_task (t : Task) (d : DispatchResult) : TaskResult :=
  match t with
  | TaskAuthenticate _ _ => RAuthenticate (rejected d None)
  | _ => RMutation d
  end.

Definition run_task (alive : bool) (now : Z) (t : Task) : SM TaskResult :=
  if negb alive then ret (refuse_task t OwnerUnavailable)
  else
    do s <- get ;;
    if negb (bool_decide (terminal s = Accepted)) then ret (refuse_task t (terminal s))
    else match t with
    | TaskAuthenticate p e => do r <- authenticate p e now ;; ret (RAuthenticate r)
    | TaskOffline t => do b <- offline t ;; ret (RMutation (if b then Accepted else PolicyRejected))
    | TaskHeartbeat t =>
        do b <- heartbeat t now ;; ret (RMutation (if b then Accepted else PolicyRejected))
    end.

(** ** Invariant

    [eff] holds the deadline every indexed session is waiting for; outside
    [expireIdleBatch] it is the content of the deadline queue. *)

Record core_inv (eff : gmap Z (Z * Z)) (s : SessionManager) : Prop := {
  c_player : forall player a, byPlayer_ s !! player = Some a ->
    exists x, sessions s !! a = Some x /\ playerId_ x = player /\
      byTransport_ s !! transportId x = Some a;
  c_transport : forall t a, byTransport_ s !! t = Some a ->
    exists x, sessions s !! a = Some x /\ transportId x = t /\
      byPlayer_ s !! playerId_ x = Some a /\ state_ x = Online /\
      states s !! a = Some (generation_ x) /\ 1 <= generation_ x /\
      key (idleDeadline_ x) = t /\ is_time (lastActivity_ x) /\
      eff !! t = Some (generation (idleDeadline_ x), lastActivity_ x + idleTimeout (options_ s));
  c_deadline : forall t y, eff !! t = Some y -> is_Some (byTransport_ s !! t);
  c_object : forall a x, sessions s !! a = Some x ->
    a < nextObject s /\ bindingState_ x = a /\ playerId_ x <> ""%string /\
    (byPlayer_ s !! playerId_ x = Some a \/ state_ x = Offline /\ states s !! a = Some 0);
  c_generation : forall a g, states s !! a = Some g -> 0 <= g < nextBindingGeneration_ s;
}.

Record sm_inv (s : SessionManager) : Prop := {
  sm_queue : di_inv (idleDeadlines_ s);
  sm_core : core_inv (di_abs (idleDeadlines_ s)) s;
  sm_timeout : 0 < idleTimeout (options_ s);
  sm_next : 1 <= nextBindingGeneration_ s;
  sm_lifecycle : match lifecycleState_ s with
    | Running => terminal s = Accepted
    | LifecycleShutdown => terminal s = Shutdown /\ byPlayer_ s = ∅ /\ byTransport_ s = ∅
    end;
}.

(** Times an operation may be called with. *)
Definition time_ok (s : SessionManager) (now : Z) : Prop :=
  is_time now /\ now + idleTimeout (options_ s) <= i64_max.

(** Generations are left. *)
Definition room (s : SessionManager) : Prop :=
  nextBindingGeneration_ s < usize_max /\ di_next (idleDeadlines_ s) < usize_max.

(** What every operation leaves alone, and how binding states move: a stored
    generation is kept, cleared, or newly issued. *)
Record evolves (s s' : SessionManager) : Prop := {
  ev_options : options_ s' = options_ s;
  ev_next : nextBindingGeneration_ s <= nextBindingGeneration_ s' <= nextBindingGeneration_ s + 1;
  ev_queue : di_next (idleDeadlines_ s) <= di_next (idleDeadlines_ s') <= di_next (idleDeadlines_ s) + 1;
  ev_resolution : di_options (idleDeadlines_ s') = di_options (idleDeadlines_ s);
  ev_states : forall a g, states s' !! a = Some g ->
    states s !! a = Some g \/ g = 0 \/ nextBindingGeneration_ s <= g;
  ev_closes : exists l, closes s' = closes s ++ l;
}.

(** ** Working on one session

    [put a p g s] is [s] with session [p] at address [a] and [g] in its binding
    state. *)

Definition put (a : Z) (p : PlayerSession) (g : Z) (s : SessionManager) : SessionManager :=
  set_objects (fun m => <[a := p]> m) (fun m => <[a := g]> m) (nextObject s) s.

Lemma put_put a p g p' g' s : put a p g (put a p' g' s) = put a p g s.
Proof. unfold put, set_objects. simpl. by rewrite !insert_insert_eq. Qed.

Lemma put_id a p g s : sessions s !! a = Some p -> states s !! a = Some g -> put a p g s = s.
Proof. intros. unfold put, set_objects. rewrite !insert_id by done. by destruct s. Qed.

Lemma load_ok a p s : sessions s !! a = Some p -> load a s = (Ok p, s).
Proof. intros Hp. unfold load. step_m. by rewrite Hp. Qed.

Lemma load_put a p g s : load a (put a p g s) = (Ok p, put a p g s).
Proof. apply load_ok. simpl. apply lookup_insert_eq. Qed.

Lemma update_put a p g f s : update a f (put a p g s) = (Ok tt, put a (f p) g s).
Proof.
  unfold update. rewrite (bindM_ok _ _ _ _ _ (load_put a p g s)). step_m.
  unfold put, set_objects. simpl. by rewrite !insert_insert_eq.
Qed.

Lemma store_put a p g g' s :
  bindingState_ p = a -> store_generation a g' (put a p g s) = (Ok tt, put a p g' s).
Proof.
  intros Hb. unfold store_generation. rewrite (bindM_ok _ _ _ _ _ (load_put a p g s)). step_m.
  rewrite Hb. unfold put, set_objects. simpl. by rewrite !insert_insert_eq.
Qed.

Lemma markOnline_put a p g now s :
  markOnline a now (put a p g s) = (Ok tt, put a (with_activity now (with_state Online p)) g s).
Proof. unfold markOnline. by rewrite update_put. Qed.

Lemma markOffline_put a p g s :
  bindingState_ p = a -> markOffline a (put a p g s) = (Ok tt, put a (with_state Offline p) 0 s).
Proof.
  intros Hb. unfold markOffline. rewrite (bindM_ok _ _ _ _ _ (store_put a p g 0 s Hb)).
  apply update_put.
Qed.

(** The session after a (re)binding. *)
Definition rebound (e gen now : Z) (p : PlayerSession) : PlayerSession :=
  with_activity now (with_state Online (with_binding e gen p)).

Lemma refresh_put a p g gen now s :
  bindingState_ p = a ->
  refreshBinding a gen now (put a p g s) = (Ok tt, put a (rebound (endpoint_ p) gen now p) gen s).
Proof.
  intros Hb. unfold refreshBinding. rewrite (bindM_ok _ _ _ _ _ (store_put a p g 0 s Hb)).
  rewrite (bindM_ok _ _ _ _ _ (update_put _ _ _ _ _)).
  rewrite (bindM_ok _ _ _ tt (put a (with_binding (endpoint_ p) gen p) gen s)) by (by apply store_put).
  by rewrite markOnline_put.
Qed.

Lemma rebind_put a p g e gen now s :
  bindingState_ p = a -> gen <> 0 ->
  rebind a e gen now (put a p g s) = (Ok tt, put a (rebound e gen now p) gen s).
Proof.
  intros Hb Hg. unfold rebind. rewrite (proj2 (Z.eqb_neq gen 0)) by done.
  rewrite (bindM_ok (throw_if false _) _ _ tt (put a p g s)) by done.
  rewrite (bindM_ok _ _ _ _ _ (store_put a p g 0 s Hb)).
  rewrite (bindM_ok _ _ _ _ _ (update_put _ _ _ _ _)).
  rewrite (bindM_ok _ _ _ tt (put a (with_binding e gen p) gen s)) by (by apply store_put).
  by rewrite markOnline_put.
Qed.

Lemma scheduleIdle_put a p g since s :
  di_inv (idleDeadlines_ s) -> di_next (idleDeadlines_ s) < usize_max ->
  is_time (since + idleTimeout (options_ s)) ->
  exists q, scheduleIdle a since (put a p g s)
      = (Ok tt, put a (with_deadline (mkToken (transportId p) (di_next (idleDeadlines_ s))) p) g
                  (set_idle q s)) /\
    di_inv q /\ di_next q = di_next (idleDeadlines_ s) + 1 /\
    di_options q = di_options (idleDeadlines_ s) /\
    di_abs q = <[transportId p := (di_next (idleDeadlines_ s), since + idleTimeout (options_ s))]>
                 (di_abs (idleDeadlines_ s)).
Proof.
  intros Hq Hn Ht.
  destruct (di_schedule_spec (idleDeadlines_ s) (transportId p) (since + idleTimeout (options_ s)) Hq Ht Hn)
    as (q & Hs & Hq' & Hdo & Hn' & Ha).
  exists q. split_and!; try done. unfold scheduleIdle.
  rewrite (bindM_ok get _ _ (put a p g s) (put a p g s)) by done.
  rewrite (bindM_ok _ _ _ _ _ (load_put a p g s)).
  unfold lift. simpl. rewrite i64_ok by (unfold is_time in Ht; lia).
  rewrite (bindM_ok _ _ _ (since + idleTimeout (options_ s)) (put a p g s)) by done.
  rewrite (bindM_ok _ _ _ (mkToken (transportId p) (di_next (idleDeadlines_ s)))
    (put a p g (set_idle q s))) by (unfold on_idle; simpl; by rewrite Hs).
  apply update_put.
Qed.

(** ** How the invariant follows the indexes *)

(** Session [x] goes into both indexes at address [a]: a new object, or the
    indexed session of its player, which leaves transport id [told]. *)
Lemma core_put eff eff' s s' a x told :
  core_inv eff s ->
  (sessions s !! a = None /\ byPlayer_ s !! playerId_ x = None /\ told = transportId x) \/
  (exists x0, sessions s !! a = Some x0 /\ byPlayer_ s !! playerId_ x = Some a /\
     playerId_ x0 = playerId_ x /\ told = transportId x0) ->
  byTransport_ s !! transportId x = None \/ byTransport_ s !! transportId x = Some a ->
  byPlayer_ s' = <[playerId_ x := a]> (byPlayer_ s) ->
  byTransport_ s' = <[transportId x := a]> (delete told (byTransport_ s)) ->
  sessions s' = <[a := x]> (sessions s) -> states s' = <[a := generation_ x]> (states s) ->
  options_ s' = options_ s -> nextBindingGeneration_ s <= nextBindingGeneration_ s' ->
  nextObject s <= nextObject s' -> a < nextObject s' ->
  eff' = <[transportId x := (generation (idleDeadline_ x), lastActivity_ x + idleTimeout (options_ s))]>
           (delete told eff) ->
  playerId_ x <> ""%string -> state_ x = Online -> bindingState_ x = a ->
  1 <= generation_ x < nextBindingGeneration_ s' -> is_time (lastActivity_ x) ->
  key (idleDeadline_ x) = transportId x ->
  core_inv eff' s'.
Proof.
  intros [Hp Ht Hd Ho Hg] Hwho Hfree Ebp Ebt Ese Est Eop Enx Eno Han -> Hne Hon Hbs Hgen Hact Hkey.
  assert (byTransport_ s !! told = None \/ byTransport_ s !! told = Some a) as Htold.
  { destruct Hwho as [(_ & _ & ->)|(x0 & Hx0 & Hpl & _ & ->)]; [done|].
    apply Hp in Hpl as (z & Hz & _ & Hbz). rewrite Hx0 in Hz. simplify_eq. auto. }
  assert (forall t a', a' <> a -> byTransport_ s !! t = Some a' -> told <> t /\ transportId x <> t) as Hother.
  { intros t a' Hna Hl. split; intros <-; [destruct Htold|destruct Hfree]; congruence. }
  assert (forall player a', byPlayer_ s !! player = Some a' -> player <> playerId_ x -> a' <> a) as Hpo.
  { intros player a' Hl Hn ->. apply Hp in Hl as (y & Hy & Hpy & _).
    destruct Hwho as [(Hn0 & _)|(x0 & Hx0 & _ & Hpp & _)]; congruence. }
  split.
  - intros player a'. rewrite Ebp, Ese, Ebt. intros [[<- <-]|[Hn Hl]]%lookup_insert_Some.
    { exists x. rewrite !lookup_insert_eq. done. }
    pose proof (Hpo player a' Hl ltac:(done)) as Hna.
    apply Hp in Hl as (y & Hy & Hpy & Hbt). exists y. destruct (Hother _ _ Hna Hbt).
    rewrite !lookup_insert_ne, lookup_delete_ne by done. done.
  - intros t a'. rewrite Ebt, Ese, Ebp, Est, Eop. intros [[<- <-]|[Hn Hl]]%lookup_insert_Some.
    { exists x. rewrite !lookup_insert_eq. split_and!; try done. lia. }
    apply lookup_delete_Some in Hl as [Hnt Hl]. apply Ht in Hl as Hl'.
    destruct Hl' as (y & Hy & Hty & Hpy & Hys & Hst & Hgy & Hk & Hla & Heff).
    assert (a' <> a) as Hna.
    { intros ->. destruct Hwho as [(Hn0 & _)|(x0 & Hx0 & _ & _ & ->)]; congruence. }
    exists y. rewrite (lookup_insert_ne _ a a') by done. rewrite (lookup_insert_ne (states s) a a') by done.
    rewrite (lookup_insert_ne _ (transportId x) t), lookup_delete_ne by done.
    rewrite lookup_insert_ne; [done|]. intros E. destruct Hwho as [(_ & Hnone & _)|(_ & _ & Hsome & _)]; congruence.
  - intros t y Hy. rewrite Ebt. apply lookup_insert_Some in Hy as [[<- _]|[Hn Hy]].
    { rewrite lookup_insert_eq. eauto. }
    apply lookup_delete_Some in Hy as [Hnt Hy].
    rewrite lookup_insert_ne, lookup_delete_ne by done. eauto.
  - intros a' y. rewrite Ese, Ebp, Est. intros [[<- <-]|[Hn Hl]]%lookup_insert_Some.
    { split_and!; try done; try lia. left. apply lookup_insert_eq. }
    apply Ho in Hl as (? & ? & ? & Hor). split_and!; try done; [lia|].
    rewrite (lookup_insert_ne (states s)) by done.
    destruct Hor as [Hor|]; [|auto]. left. destruct (decide (playerId_ y = playerId_ x)) as [E|E].
    + rewrite E in Hor. destruct Hwho as [(_ & Hnone & _)|(_ & _ & Hsome & _)]; congruence.
    + by rewrite lookup_insert_ne.
  - intros a' g. rewrite Est. intros [[_ <-]|[_ Hl]]%lookup_insert_Some; [lia|].
    apply Hg in Hl. lia.
Qed.

(** The indexed session [x] leaves both indexes. *)
Lemma core_erase eff s s' a x :
  core_inv eff s -> sessions s !! a = Some x -> byPlayer_ s !! playerId_ x = Some a ->
  byPlayer_ s' = delete (playerId_ x) (byPlayer_ s) ->
  byTransport_ s' = delete (transportId x) (byTransport_ s) ->
  sessions s' = <[a := with_state Offline (with_deadline no_token x)]> (sessions s) ->
  states s' = <[a := 0]> (states s) -> options_ s' = options_ s ->
  nextBindingGeneration_ s' = nextBindingGeneration_ s -> 1 <= nextBindingGeneration_ s ->
  nextObject s' = nextObject s ->
  core_inv (delete (transportId x) eff) s'.
Proof.
  intros [Hp Ht Hd Ho Hg] Hx Hpx Ebp Ebt Ese Est Eop Enx Hnx Eno.
  assert (byTransport_ s !! transportId x = Some a) as Htx.
  { destruct (Hp _ _ Hpx) as (z & Hz & _ & Hbz). congruence. }
  split.
  - intros player a'. rewrite Ebp, Ebt, Ese. intros [Hn Hl]%lookup_delete_Some.
    apply Hp in Hl as (y & Hy & Hpy & Hbt). exists y.
    assert (a <> a') as Hna by congruence.
    rewrite lookup_insert_ne, lookup_delete_ne by congruence. done.
  - intros t a'. rewrite Ebt, Ese, Ebp, Est, Eop. intros [Hn Hl]%lookup_delete_Some.
    apply Ht in Hl as Hl'. destruct Hl' as (y & Hy & Hty & Hpy & Hrest).
    assert (a <> a') as Hna by congruence. exists y.
    rewrite !lookup_insert_ne by done. rewrite !lookup_delete_ne by congruence.
    done.
  - intros t y [Hn Hy]%lookup_delete_Some. rewrite Ebt, lookup_delete_ne by done. eauto.
  - intros a' y. rewrite Ese, Ebp, Est, Eno. intros [[<- <-]|[Hn Hl]]%lookup_insert_Some.
    { destruct (Ho a x Hx) as (? & ? & ? & _). split_and!; try done. right. simpl.
      by rewrite lookup_insert_eq. }
    apply Ho in Hl as (? & ? & ? & Hor). split_and!; try done.
    rewrite (lookup_insert_ne (states s)) by done. destruct Hor as [Hor|]; [left|auto].
    rewrite lookup_delete_ne; [done|]. congruence.
  - intros a' g. rewrite Est, Enx. intros [[_ <-]|[_ Hl]]%lookup_insert_Some; [lia|].
    by apply Hg in Hl.
Qed.

(** The session behind a transport id, as the operations find it. *)
Lemma indexed eff s t a :
  core_inv eff s -> byTransport_ s !! t = Some a ->
  exists x, sessions s !! a = Some x /\ transportId x = t /\ byPlayer_ s !! playerId_ x = Some a /\
    states s !! a = Some (generation_ x) /\ bindingState_ x = a /\ s = put a x (generation_ x) s /\
    a < nextObject s /\ playerId_ x <> ""%string /\ state_ x = Online.
Proof.
  intros Hc Ht. destruct (c_transport _ _ Hc t a Ht) as (x & Hx & Htx & Hpx & Hon & Hst & _).
  destruct (c_object _ _ Hc a x Hx) as (? & ? & ? & _).
  exists x. rewrite put_id by done. split_and!; done.
Qed.

Lemma indexed_player eff s player a :
  core_inv eff s -> byPlayer_ s !! player = Some a ->
  exists x, byTransport_ s !! transportId x = Some a /\ sessions s !! a = Some x /\ playerId_ x = player.
Proof. intros Hc Hp. destruct (c_player _ _ Hc player a Hp) as (x & ? & ? & ?). eauto. Qed.

Lemma isCurrent_tracked st b a :
  sb_state b = Some a -> 1 <= sb_generation b ->
  isCurrent st b = (default 0 (st !! a) =? sb_generation b).
Proof.
  intros Hb Hg. unfold isCurrent, tracked. rewrite Hb.
  by rewrite (proj2 (Z.eqb_neq _ _)) by lia.
Qed.

(** ** Erasing a session *)

Definition erased (a : Z) (x : PlayerSession) (q : Q) (s : SessionManager) : SessionManager :=
  put a (with_state Offline (with_deadline no_token x)) 0
    (set_byPlayer (fun m => delete (playerId_ x) m)
      (set_byTransport (fun m => delete (transportId x) m) (set_idle q s))).

Lemma eraseSession_ok eff s t a :
  di_inv (idleDeadlines_ s) -> core_inv eff s -> 1 <= nextBindingGeneration_ s ->
  byTransport_ s !! t = Some a ->
  di_abs (idleDeadlines_ s) !! t = None \/ di_abs (idleDeadlines_ s) !! t = eff !! t ->
  exists x q, sessions s !! a = Some x /\ transportId x = t /\
    eraseSession a s = (Ok tt, erased a x q s) /\ core_inv (delete t eff) (erased a x q s) /\
    di_inv q /\ di_next q = di_next (idleDeadlines_ s) /\
    di_options q = di_options (idleDeadlines_ s) /\
    di_abs q = delete t (di_abs (idleDeadlines_ s)).
Proof.
  intros Hq Hc Hnx Ht Habs.
  destruct (indexed _ _ _ _ Hc Ht) as (x & Hx & Htx & Hpx & Hst & Hbs & Hput & _).
  destruct (c_transport _ _ Hc t a Ht) as (x' & Hx' & _ & _ & _ & _ & _ & Hk & _ & Heff).
  rewrite Hx in Hx'. injection Hx' as <-.
  destruct (di_cancel_spec (idleDeadlines_ s) (idleDeadline_ x) Hq) as (r & q & Hcan & Hq' & Hdo & Hn & Hr).
  exists x, q. rewrite Hk in Hr. split_and!; try done.
  - unfold eraseSession. rewrite (bindM_ok _ _ _ _ _ (load_ok a x s Hx)).
    rewrite (bindM_ok (on_idle _) _ s r (set_idle q s)) by (unfold on_idle; by rewrite Hcan).
    rewrite (bindM_ok _ _ _ tt (put a (with_deadline no_token x) (generation_ x) (set_idle q s))).
    2: { rewrite <- (put_id a x (generation_ x) (set_idle q s)) at 1 by done. apply update_put. }
    rewrite (bindM_ok (modify _) _ _ tt (put a (with_deadline no_token x) (generation_ x)
      (set_byTransport (fun m => delete (transportId x) m) (set_idle q s)))) by done.
    rewrite (bindM_ok (modify _) _ _ tt (put a (with_deadline no_token x) (generation_ x)
      (set_byPlayer (fun m => delete (playerId_ x) m)
        (set_byTransport (fun m => delete (transportId x) m) (set_idle q s))))).
    2: { unfold modify. do 2 f_equal. unfold set_byPlayer, put, set_objects. simpl.
         by rewrite bool_decide_true. }
    by rewrite markOffline_put.
  - rewrite <- Htx. by apply (core_erase eff s _ a x).
  - destruct r; [by destruct Hr as [_ ->]|]. destruct Hr as [-> Hr].
    destruct Habs as [Habs|Habs]; [by rewrite delete_id|].
    rewrite Heff in Habs. by apply Hr in Habs.
Qed.

Lemma evolves_erased a x q s :
  1 <= nextBindingGeneration_ s -> di_next q = di_next (idleDeadlines_ s) ->
  di_options q = di_options (idleDeadlines_ s) -> evolves s (erased a x q s).
Proof.
  intros Hn Hq Hdo. split; simpl; try done; try lia.
  - intros a' g [[_ <-]|[_ ?]]%lookup_insert_Some; auto.
  - exists []. by rewrite app_nil_r.
Qed.

(** ** Operations *)

Lemma offline_ok s t :
  sm_inv s ->
  exists b s', offline t s = (Ok b, s') /\ sm_inv s' /\ evolves s s' /\
    closes s' = closes s /\
    if b then exists a x, byTransport_ s !! t = Some a /\ sessions s !! a = Some x /\
           byTransport_ s' = delete t (byTransport_ s) /\
           byPlayer_ s' = delete (playerId_ x) (byPlayer_ s) /\
           isCurrent (states s') (binding x) = false
    else s' = s /\ (lifecycleState_ s = LifecycleShutdown \/ byTransport_ s !! t = None).
Proof.
  intros Hs. assert (evolves s s) as Hrefl.
  { split; try done; try lia; auto. exists []. by rewrite app_nil_r. }
  destruct Hs as [Hq Hc Hto Hnx Hl] eqn:E. clear E. unfold offline.
  rewrite (bindM_ok get _ s s s) by done.
  destruct (lifecycleState_ s) eqn:Hrun; simpl.
  2: { exists false, s. split_and!; try done. auto. }
  destruct (byTransport_ s !! t) as [a|] eqn:Ht.
  2: { exists false, s. split_and!; try done. auto. }
  destruct (eraseSession_ok _ s t a Hq Hc Hnx Ht) as (x & q & Hx & Htx & He & Hc' & Hq' & Hn & Hdo & Ha); [auto|].
  rewrite (bindM_ok _ _ _ _ _ (load_ok a x s Hx)). rewrite (proj2 (Z.eqb_eq _ _)) by done.
  rewrite (bindM_ok _ _ _ _ _ He). exists true, (erased a x q s).
  split; [done|]. split_and!; try done.
  - constructor; simpl; try done; rewrite ?Ha, ?Hrun; done.
  - by apply evolves_erased.
  - exists a, x. simpl. rewrite Htx. split_and!; try done.
    destruct (c_object _ _ Hc a x Hx) as (_ & Hbs & _).
    destruct (c_transport _ _ Hc t a Ht) as (x' & Hx' & _ & _ & _ & _ & Hg & _).
    rewrite Hx in Hx'. injection Hx' as <-.
    rewrite (isCurrent_tracked _ (binding x) a); [|by simpl; rewrite Hbs|simpl; lia].
    simpl. rewrite lookup_insert_eq. apply Z.eqb_neq. simpl. lia.
Qed.

(** An indexed session is updated in place and gets a new deadline. *)
Lemma updated_in_place s t a x y q gen' :
  sm_inv s -> lifecycleState_ s = Running -> byTransport_ s !! t = Some a ->
  sessions s !! a = Some x -> transportId y = t -> playerId_ y = playerId_ x ->
  state_ y = Online -> bindingState_ y = a -> is_time (lastActivity_ y) ->
  generation_ y = generation_ x /\ gen' = nextBindingGeneration_ s \/
    generation_ y = nextBindingGeneration_ s /\ gen' = nextBindingGeneration_ s + 1 ->
  di_inv q -> di_next q = di_next (idleDeadlines_ s) + 1 ->
  di_options q = di_options (idleDeadlines_ s) ->
  di_abs q = <[t := (di_next (idleDeadlines_ s), lastActivity_ y + idleTimeout (options_ s))]>
               (di_abs (idleDeadlines_ s)) ->
  let s' := put a (with_deadline (mkToken t (di_next (idleDeadlines_ s))) y) (generation_ y)
              (set_idle q (set_counters (nextSessionId_ s) gen' s)) in
  sm_inv s' /\ evolves s s'.
Proof.
  intros [Hq Hc Hto Hnx Hl] Hrun Ht Hx Hty Hpy Hon Hbs Hact Hgen Hq' Hn' Hdo Ha s'.
  destruct (indexed _ _ _ _ Hc Ht) as (x' & Hx' & Htx & Hpx & Hst & _ & _ & Hob & Hne & _).
  rewrite Hx in Hx'. injection Hx' as <-.
  pose proof (c_generation _ _ Hc a _ Hst) as Hgx.
  destruct (c_transport _ _ Hc t a Ht) as (x' & Hx' & _ & _ & _ & _ & Hg1 & _).
  rewrite Hx in Hx'. injection Hx' as <-.
  split.
  - constructor; simpl; try done; [|lia].
    eapply (core_put _ _ s s' a (with_deadline (mkToken t (di_next (idleDeadlines_ s))) y) t Hc);
      simpl; try done; try lia.
    + right. exists x. rewrite Hpy. done.
    + right. change (transportId (with_deadline _ y)) with (transportId y). by rewrite Hty.
    + by rewrite insert_id by (by rewrite Hpy).
    + change (transportId (with_deadline _ y)) with (transportId y).
      by rewrite Hty, insert_delete_eq, insert_id.
    + change (transportId (with_deadline _ y)) with (transportId y).
      by rewrite Ha, Hty, insert_delete_eq.
    + congruence.
  - split; simpl; try done; try lia.
    + intros a' g [[<- <-]|[_ ?]]%lookup_insert_Some; [|auto].
      destruct Hgen as [[-> _]|[-> _]]; [auto|right; right; lia].
    + exists []. by rewrite app_nil_r.
Qed.

Lemma evolves_refl s : evolves s s.
Proof. split; try done; try lia; auto. exists []. by rewrite app_nil_r. Qed.

Lemma add_close_ok s e r : sm_inv s -> sm_inv (add_close e r s) /\ evolves s (add_close e r s).
Proof.
  intros [? [] ? ? ?]. split; [constructor; try done; by constructor|].
  split; simpl; try done; try lia; eauto.
Qed.

Lemma heartbeat_ok s t now :
  sm_inv s -> room s -> time_ok s now ->
  exists b s', heartbeat t now s = (Ok b, s') /\ sm_inv s' /\ evolves s s' /\
    closes s' = closes s /\ byPlayer_ s' = byPlayer_ s /\ byTransport_ s' = byTransport_ s /\
    nextBindingGeneration_ s' = nextBindingGeneration_ s /\
    if b then exists a x, byTransport_ s !! t = Some a /\ sessions s' !! a = Some x /\
           lastActivity_ x = now
    else s' = s /\ (lifecycleState_ s = LifecycleShutdown \/ byTransport_ s !! t = None).
Proof.
  intros Hs [_ Hroom] [Htm Hsum]. pose proof (evolves_refl s) as Hrefl.
  destruct Hs as [Hq Hc Hto Hnx Hl] eqn:E. clear E. unfold heartbeat.
  rewrite (bindM_ok get _ s s s) by done.
  destruct (lifecycleState_ s) eqn:Hrun; simpl.
  2: { exists false, s. split_and!; try done. auto. }
  unfold findMutableByTransport. rewrite (bindM_ok (gets _) _ s (byTransport_ s !! t) s) by done.
  destruct (byTransport_ s !! t) as [a|] eqn:Ht.
  2: { exists false, s. split_and!; try done. auto. }
  destruct (indexed _ _ _ _ Hc Ht) as (x & Hx & Htx & Hpx & Hst & Hbs & Hput & Hob & Hne & Hon).
  rewrite (bindM_ok _ _ _ _ _ (load_ok a x s Hx)). rewrite (proj2 (Z.eqb_eq _ _)) by done.
  rewrite (bindM_ok _ _ s tt (put a (with_activity now x) (generation_ x) s)).
  2: { rewrite Hput at 1. unfold session_heartbeat. by rewrite update_put. }
  destruct (scheduleIdle_put a (with_activity now x) (generation_ x) now s Hq Hroom)
    as (q & Hsch & Hq' & Hn' & Hdo & Ha); [unfold is_time in *; lia|].
  rewrite (bindM_ok _ _ _ _ _ Hsch). eexists true, _. split; [done|].
  change (transportId (with_activity now x)) with (transportId x) in *. rewrite Htx in *.
  destruct (updated_in_place s t a x (with_activity now x) q (nextBindingGeneration_ s))
    as [Hinv Hev]; try done; [by left|].
  assert (set_counters (nextSessionId_ s) (nextBindingGeneration_ s) s = s) as Heta by (by destruct s).
  rewrite Heta in Hinv, Hev. split_and!; try done. exists a. eexists. split; [done|]. simpl.
  rewrite lookup_insert_eq. done.
Qed.

(** The outcome of [authenticate], branch by branch. *)
Inductive auth_case (s : SessionManager) (player : string) (now : Z) :
    option Z -> AuthenticateResult -> SessionManager -> Prop :=
  | AuthShutdown oe :
      lifecycleState_ s = LifecycleShutdown -> auth_case s player now oe (rejected Shutdown None) s
  | AuthInvalid oe :
      lifecycleState_ s = Running -> oe = None \/ player = ""%string ->
      auth_case s player now oe (rejected PolicyRejected None) s
  | AuthTransportTaken e a x s' :
      byTransport_ s !! ep_id e = Some a -> sessions s !! a = Some x ->
      playerId_ x <> player \/ endpoint_ x <> e ->
      s' = (if endpoint_ x =? e then s else add_close e ProtocolError s) ->
      auth_case s player now (Some e) (rejected PolicyRejected None) s'
  | AuthCreated e a x' s' :
      byTransport_ s !! ep_id e = None -> byPlayer_ s !! player = None -> sessions s !! a = None ->
      byTransport_ s' = <[ep_id e := a]> (byTransport_ s) ->
      byPlayer_ s' = <[player := a]> (byPlayer_ s) -> closes s' = closes s ->
      sessions s' = <[a := x']> (sessions s) -> sessionId_ x' = nextSessionId_ s ->
      playerId_ x' = player -> endpoint_ x' = e -> generation_ x' = nextBindingGeneration_ s ->
      lastActivity_ x' = now -> isCurrent (states s') (binding x') = true ->
      auth_case s player now (Some e) (mkAuth Created (Some a) Accepted) s'
  | AuthExisting e a x x' s' :
      byTransport_ s !! ep_id e = Some a -> sessions s !! a = Some x ->
      playerId_ x = player -> endpoint_ x = e ->
      byTransport_ s' = byTransport_ s -> byPlayer_ s' = byPlayer_ s -> closes s' = closes s ->
      sessions s' = <[a := x']> (sessions s) ->
      generation_ x' = nextBindingGeneration_ s -> lastActivity_ x' = now ->
      isCurrent (states s') (binding x') = true -> isCurrent (states s') (binding x) = false ->
      auth_case s player now (Some e) (mkAuth Existing (Some a) Accepted) s'
  | AuthRejectNew e a x :
      byPlayer_ s !! player = Some a -> sessions s !! a = Some x -> transportId x <> ep_id e ->
      duplicateLogin (options_ s) = RejectNew ->
      auth_case s player now (Some e) (rejected PolicyRejected (Some a)) s
  | AuthRebound e a x x' s' :
      byPlayer_ s !! player = Some a -> sessions s !! a = Some x ->
      byTransport_ s !! ep_id e = None -> duplicateLogin (options_ s) = ReplaceExisting ->
      byTransport_ s' = <[ep_id e := a]> (delete (transportId x) (byTransport_ s)) ->
      byPlayer_ s' = byPlayer_ s -> closes s' = closes s ++ [(endpoint_ x, Replaced)] ->
      sessions s' = <[a := x']> (sessions s) -> endpoint_ x' = e ->
      generation_ x' = nextBindingGeneration_ s -> lastActivity_ x' = now ->
      isCurrent (states s') (binding x') = true -> isCurrent (states s') (binding x) = false ->
      auth_case s player now (Some e) (mkAuth Rebound (Some a) Accepted) s'.

(** Bindings of a session whose stored generation is [g]. *)
Lemma binding_current st x a g :
  bindingState_ x = a -> 1 <= generation_ x -> st !! a = Some g ->
  isCurrent st (binding x) = (g =? generation_ x).
Proof.
  intros Hb Hg Hst. rewrite (isCurrent_tracked st (binding x) a); [|by simpl; rewrite Hb|done].
  rewrite Hst. done.
Qed.

Lemma take_generation_ok s :
  nextBindingGeneration_ s < usize_max -> 1 <= nextBindingGeneration_ s ->
  take_generation s = (Ok (nextBindingGeneration_ s),
    set_counters (nextSessionId_ s) (nextBindingGeneration_ s + 1) s).
Proof. intros. unfold take_generation. step_m. by rewrite uwrap_small by lia. Qed.

Lemma authenticate_create_ok s player e now :
  sm_inv s -> room s -> time_ok s now -> lifecycleState_ s = Running ->
  player <> ""%string -> byTransport_ s !! ep_id e = None -> byPlayer_ s !! player = None ->
  exists r s', authenticate_create player e now s = (Ok r, s') /\ sm_inv s' /\ evolves s s' /\
    auth_case s player now (Some e) r s'.
Proof.
  intros [Hq Hc Hto Hnx Hl] [Hroom1 Hroom2] [Htm Hsum] Hrun Hne Hbt Hbp. unfold authenticate_create.
  set (sid := nextSessionId_ s). set (s1 := set_counters (sid ⊕ 1) (nextBindingGeneration_ s) s).
  rewrite (bindM_ok take_sessionId _ s sid s1) by done.
  rewrite (bindM_ok _ _ _ _ _ (take_generation_ok s1 Hroom1 Hnx)). cbv beta.
  set (gen := nextBindingGeneration_ s1). set (s2 := set_counters _ _ s1). set (a := nextObject s).
  set (x0 := mkSession sid player Authenticating e now gen a no_token).
  set (s3 := set_objects (fun m => m) (fun m => m) (a + 1) s2).
  rewrite (bindM_ok (PlayerSession_new sid player e gen now) _ s2 a (put a x0 gen s3)).
  2: { unfold PlayerSession_new. step_m. rewrite (proj2 (String.eqb_neq player "")) by done.
       simpl. rewrite (proj2 (Z.eqb_neq gen 0)) by (unfold gen; simpl; lia). done. }
  rewrite (bindM_ok _ _ _ _ _ (markOnline_put a x0 gen now s3)).
  destruct (scheduleIdle_put a (with_activity now (with_state Online x0)) gen now s3 Hq Hroom2)
    as (q & Hsch & Hq' & Hn' & Hdo & Ha); [unfold is_time in *; simpl in *; lia|].
  rewrite (bindM_ok _ _ _ _ _ Hsch).
  set (x := with_deadline _ _) in *. change (transportId _) with (ep_id e) in x, Ha.
  change (idleDeadlines_ s3) with (idleDeadlines_ s) in *. change (options_ s3) with (options_ s) in *.
  rewrite (bindM_ok (modify _) _ _ tt (put a x gen (set_byTransport (fun m => <[ep_id e := a]> m)
    (set_idle q s3)))) by done.
  rewrite (bindM_ok (modify _) _ _ tt (put a x gen (set_byPlayer (fun m => <[player := a]> m)
    (set_byTransport (fun m => <[ep_id e := a]> m) (set_idle q s3))))) by done.
  set (s' := put a x gen _). eexists _, s'. split; [done|].
  assert (sessions s !! a = None) as Hfresh.
  { destruct (sessions s !! a) as [y|] eqn:Ey; [|done].
    apply (c_object _ _ Hc) in Ey as (? & _). unfold a in *. lia. }
  assert (core_inv (di_abs q) s') as Hcore.
  { eapply (core_put _ _ s s' a x (ep_id e) Hc); try done; simpl; try (unfold gen; simpl; lia); auto.
    - unfold s', put, set_objects. simpl. f_equal. by rewrite delete_id.
    - rewrite Ha. symmetry. f_equal. rewrite delete_id; [done|].
      destruct (di_abs (idleDeadlines_ s) !! ep_id e) eqn:Ee; [|done].
      apply (c_deadline _ _ Hc) in Ee as [? ?]. congruence. }
  split_and!.
  - constructor; simpl; try done; [unfold gen; simpl; lia|by rewrite Hrun in *].
  - split; simpl; try done; try (unfold gen; simpl; lia).
    + intros a' g [[_ <-]|[_ ?]]%lookup_insert_Some; [|auto]. right. right. unfold gen. simpl. lia.
    + exists []. by rewrite app_nil_r.
  - eapply (AuthCreated s player now e a x s'); try done.
    rewrite (binding_current _ x a gen); try done; [apply Z.eqb_refl|].
    simpl. apply lookup_insert_eq.
Qed.

Lemma authenticate_rebind_ok s player e a x now :
  sm_inv s -> room s -> time_ok s now -> lifecycleState_ s = Running ->
  byTransport_ s !! ep_id e = None -> byPlayer_ s !! player = Some a -> sessions s !! a = Some x ->
  playerId_ x = player -> duplicateLogin (options_ s) = ReplaceExisting ->
  exists r s', authenticate_rebind a e now s = (Ok r, s') /\ sm_inv s' /\ evolves s s' /\
    auth_case s player now (Some e) r s'.
Proof.
  intros [Hq Hc Hto Hnx Hl] [Hroom1 Hroom2] [Htm Hsum] Hrun Hbt Hbp Hx Hpx Hpol.
  destruct (indexed_player _ _ _ _ Hc Hbp) as (x' & Htx & Hx' & _). rewrite Hx in Hx'. injection Hx' as <-.
  destruct (indexed _ _ _ _ Hc Htx) as (x' & Hx' & _ & _ & Hst & Hbs & Hput & Hob & Hne & Hon).
  rewrite Hx in Hx'. injection Hx' as <-.
  destruct (c_transport _ _ Hc _ a Htx) as (x' & Hx' & _ & _ & _ & _ & Hgx & Hk & _ & Heff).
  rewrite Hx in Hx'. injection Hx' as <-. pose proof (c_generation _ _ Hc _ _ Hst) as Hgn.
  set (t0 := transportId x) in *.
  destruct (di_cancel_spec (idleDeadlines_ s) (idleDeadline_ x) Hq) as (r & q1 & Hcan & Hq1 & Hdo1 & Hn1 & Hr).
  rewrite Hk in Hr. assert (di_abs q1 = delete t0 (di_abs (idleDeadlines_ s))) as Ha1.
  { destruct r; [by destruct Hr|]. destruct Hr as [_ Hr]. by apply Hr in Heff. }
  unfold authenticate_rebind. rewrite (bindM_ok _ _ _ _ _ (load_ok a x s Hx)).
  rewrite (bindM_ok (on_idle _) _ s r (set_idle q1 s)) by (unfold on_idle; by rewrite Hcan).
  set (s1 := set_byTransport (fun m => delete t0 m) (set_idle q1 s)).
  rewrite (bindM_ok (modify _) _ _ tt s1) by done.
  rewrite (bindM_ok _ _ _ _ _ (take_generation_ok s1 Hroom1 Hnx)).
  set (gen := nextBindingGeneration_ s1). set (s2 := set_counters _ _ s1).
  rewrite (bindM_ok _ _ s2 tt (put a (rebound e gen now x) gen s2)).
  2: { rewrite <- (put_id a x (generation_ x) s2) at 1 by done. apply rebind_put; [done|].
       unfold gen. simpl. lia. }
  destruct (scheduleIdle_put a (rebound e gen now x) gen now s2 Hq1)
    as (q & Hsch & Hq' & Hn' & Hdo & Ha); [simpl; lia|unfold is_time in *; simpl in *; lia|].
  rewrite (bindM_ok _ _ _ _ _ Hsch).
  change (transportId (rebound e gen now x)) with (ep_id e) in *.
  change (idleDeadlines_ s2) with q1 in *. change (options_ s2) with (options_ s) in *.
  set (y := with_deadline _ _) in *.
  rewrite (bindM_ok (modify _) _ _ tt (put a y gen (set_byTransport (fun m => <[ep_id e := a]> m)
    (set_idle q s2)))) by done.
  rewrite (bindM_ok (closeEndpoint _ _) _ _ tt (put a y gen (add_close (endpoint_ x) Replaced
    (set_byTransport (fun m => <[ep_id e := a]> m) (set_idle q s2))))) by done.
  set (s' := put a y gen _). eexists _, s'. split; [done|].
  assert (core_inv (di_abs q) s') as Hcore.
  { eapply (core_put _ _ s s' a y t0 Hc); try done; simpl; try (unfold gen; simpl; lia); auto.
    - right. exists x. rewrite Hpx. done.
    - symmetry. apply insert_id. by rewrite Hpx.
    - by rewrite Ha, Ha1. }
  split_and!.
  - constructor; simpl; try done; [unfold gen; simpl; lia|by rewrite Hrun in *].
  - split; simpl; try done; try (unfold gen; simpl; lia); try congruence.
    + intros a' g [[_ <-]|[_ ?]]%lookup_insert_Some; [|auto]. right. right. unfold gen. simpl. lia.
    + eauto.
  - eapply (AuthRebound s player now e a x y s'); try done.
    + rewrite (binding_current _ y a gen); try done; [apply Z.eqb_refl|simpl; apply lookup_insert_eq].
    + rewrite (binding_current _ x a gen); try done; [|simpl; apply lookup_insert_eq].
      apply Z.eqb_neq. unfold gen. simpl. lia.
Qed.

Lemma authenticate_refresh_ok s player e a x now :
  sm_inv s -> room s -> time_ok s now -> lifecycleState_ s = Running ->
  byTransport_ s !! ep_id e = Some a -> sessions s !! a = Some x ->
  playerId_ x = player -> endpoint_ x = e ->
  exists r s', (do gen <- take_generation ;; run refreshBinding a gen now ;; run scheduleIdle a now ;;
                ret (mkAuth Existing (Some a) Accepted)) s = (Ok r, s') /\ sm_inv s' /\ evolves s s' /\
    auth_case s player now (Some e) r s'.
Proof.
  intros Hs [Hroom1 Hroom2] [Htm Hsum] Hrun Hbt Hx Hpx Hex.
  destruct Hs as [Hq Hc Hto Hnx Hl] eqn:E. clear E.
  destruct (indexed _ _ _ _ Hc Hbt) as (x' & Hx' & Htx & _ & Hst & Hbs & Hput & Hob & Hne & Hon).
  rewrite Hx in Hx'. injection Hx' as <-.
  destruct (c_transport _ _ Hc _ a Hbt) as (x' & Hx' & _ & _ & _ & _ & Hgx & _).
  rewrite Hx in Hx'. injection Hx' as <-. pose proof (c_generation _ _ Hc _ _ Hst) as Hgn.
  rewrite (bindM_ok _ _ _ _ _ (take_generation_ok s Hroom1 Hnx)).
  set (gen := nextBindingGeneration_ s). set (s1 := set_counters _ _ s).
  rewrite (bindM_ok _ _ s1 tt (put a (rebound (endpoint_ x) gen now x) gen s1)).
  2: { rewrite <- (put_id a x (generation_ x) s1) at 1 by done. by apply refresh_put. }
  destruct (scheduleIdle_put a (rebound (endpoint_ x) gen now x) gen now s1 Hq Hroom2)
    as (q & Hsch & Hq' & Hn' & Hdo & Ha); [unfold is_time in *; simpl in *; lia|].
  rewrite (bindM_ok _ _ _ _ _ Hsch).
  change (transportId (rebound (endpoint_ x) gen now x)) with (transportId x) in *. rewrite Htx in *.
  eexists _, _. split; [done|].
  destruct (updated_in_place s (ep_id e) a x (rebound (endpoint_ x) gen now x) q (gen + 1)) as [Hinv Hev];
    try done; [right; done|].
  split_and!; try done. eapply (AuthExisting s player now e a x); try done.
  - rewrite (binding_current _ _ a gen); try done; [apply Z.eqb_refl|simpl; apply lookup_insert_eq].
  - rewrite (binding_current _ x a gen); try done; [|simpl; apply lookup_insert_eq].
    apply Z.eqb_neq. unfold gen. lia.
Qed.

Lemma authenticate_ok s player oe now :
  sm_inv s -> room s -> time_ok s now ->
  exists r s', authenticate player oe now s = (Ok r, s') /\ sm_inv s' /\ evolves s s' /\
    auth_case s player now oe r s'.
Proof.
  intros Hs Hroom Htm. pose proof (evolves_refl s) as Hrefl.
  unfold authenticate. rewrite (bindM_ok get _ s s s) by done.
  destruct (lifecycleState_ s) eqn:Hrun; simpl.
  2: { eexists _, s. split; [done|]. split_and!; try done. by constructor. }
  destruct oe as [e|].
  2: { eexists _, s. split; [done|]. split_and!; try done. constructor; auto. }
  destruct (String.eqb_spec player "") as [Hp|Hp].
  { eexists _, s. split; [done|]. split_and!; try done. constructor; auto. }
  pose proof (sm_core s Hs) as Hc. unfold authenticate_bound, findMutableByTransport, findByPlayer.
  destruct (byTransport_ s !! ep_id e) as [a|] eqn:Hbt.
  - destruct (indexed _ _ _ _ Hc Hbt) as (x & Hx & Htx & Hpx & _).
    rewrite (bindM_ok _ _ s
      (if (playerId_ x =? player)%string && (endpoint_ x =? e) then None else Some (rejected PolicyRejected None))
      (if (playerId_ x =? player)%string && (endpoint_ x =? e) then s
       else if endpoint_ x =? e then s else add_close e ProtocolError s)).
    2: { rewrite (bindM_ok (gets _) _ s (Some a) s) by (unfold gets; by rewrite Hbt).
         rewrite (bindM_ok _ _ _ _ _ (load_ok a x s Hx)).
         destruct (_ && _); [done|]. by destruct (endpoint_ x =? e). }
    destruct (String.eqb_spec (playerId_ x) player) as [Hpp|Hpp]; simpl.
    + destruct (Z.eqb_spec (endpoint_ x) e) as [Hee|Hee].
      * rewrite (bindM_ok (gets _) _ s (Some a) s) by (unfold gets; by rewrite <- Hpp, Hpx).
        rewrite (bindM_ok _ _ _ _ _ (load_ok a x s Hx)). rewrite (proj2 (Z.eqb_eq _ _)) by done.
        by eapply authenticate_refresh_ok.
      * destruct (add_close_ok s e ProtocolError Hs).
        eexists _, _. split; [done|]. split_and!; [done..|].
        eapply AuthTransportTaken; eauto. by rewrite (proj2 (Z.eqb_neq _ _)) by done.
    + destruct (add_close_ok s e ProtocolError Hs).
      eexists _, _. split; [done|]. split_and!; [by destruct (endpoint_ x =? e)..|].
      eapply AuthTransportTaken; eauto.
  - rewrite (bindM_ok _ _ s None s) by (unfold bindM, gets; rewrite Hbt; done).
    rewrite (bindM_ok (gets _) _ s (byPlayer_ s !! player) s) by done.
    destruct (byPlayer_ s !! player) as [a|] eqn:Hbp; [|by apply authenticate_create_ok].
    destruct (indexed_player _ _ _ _ Hc Hbp) as (x & Htx & Hx & Hpx).
    rewrite (bindM_ok _ _ _ _ _ (load_ok a x s Hx)).
    destruct (Z.eqb_spec (transportId x) (ep_id e)) as [Hee|Hee]; [congruence|].
    destruct (duplicateLogin (options_ s)) eqn:Hpol; [by eapply authenticate_rebind_ok|].
    eexists _, s. split; [done|]. split_and!; try done. by eapply AuthRejectNew.
Qed.

(** ** Idle expiration *)

(** Counters, options and lifecycle are kept; binding states are kept or
    cleared. *)
Record quiet (s s' : SessionManager) : Prop := {
  qu_options : options_ s' = options_ s;
  qu_next : nextBindingGeneration_ s' = nextBindingGeneration_ s;
  qu_queue : di_next (idleDeadlines_ s') = di_next (idleDeadlines_ s) /\
    di_options (idleDeadlines_ s') = di_options (idleDeadlines_ s);
  qu_lifecycle : lifecycleState_ s' = lifecycleState_ s /\ terminal s' = terminal s;
  qu_states : forall a, states s' !! a = states s !! a \/ states s' !! a = Some 0;
}.

Lemma quiet_refl s : quiet s s.
Proof. split; auto. Qed.

Lemma quiet_trans s1 s2 s3 : quiet s1 s2 -> quiet s2 s3 -> quiet s1 s3.
Proof.
  intros [? ? [] [] Hst1] [? ? [] [] Hst2]. split; try congruence; [split; congruence..|].
  intros a. destruct (Hst2 a) as [->| ->]; auto.
Qed.

(** The sessions that left between [s] and [s'] were idle for the timeout at
    [now]; each got one close request and its bindings are stale.  The others
    are untouched. *)
Record idle_expired_to (now : Z) (s s' : SessionManager) : Prop := {
  ie_quiet : quiet s s';
  ie_kept : forall t a, byTransport_ s' !! t = Some a ->
    byTransport_ s !! t = Some a /\ sessions s' !! a = sessions s !! a;
  ie_gone : forall t a x, byTransport_ s !! t = Some a -> sessions s !! a = Some x ->
    byTransport_ s' !! t = None ->
    idleTimeout (options_ s) <= now - lastActivity_ x /\ states s' !! a = Some 0 /\
    exists l, closes s' = closes s ++ l /\ (endpoint_ x, IdleTimeout) ∈ l;
  ie_closes : exists l, closes s' = closes s ++ l /\ Forall (fun c => snd c = IdleTimeout) l /\
    (length l + base.size (byTransport_ s') = base.size (byTransport_ s))%nat;
}.

Lemma idle_expired_refl now s : idle_expired_to now s s.
Proof.
  split; [apply quiet_refl|done|congruence|]. exists []. rewrite app_nil_r. done.
Qed.

Lemma idle_expired_trans now s1 s2 s3 :
  idle_expired_to now s1 s2 -> idle_expired_to now s2 s3 -> idle_expired_to now s1 s3.
Proof.
  intros [Hq1 Hk1 Hg1 (l1 & Hc1 & Hf1 & Hl1)] [Hq2 Hk2 Hg2 (l2 & Hc2 & Hf2 & Hl2)].
  assert (closes s3 = closes s1 ++ l1 ++ l2) as Hc by (by rewrite Hc2, Hc1, app_assoc).
  split; [by eapply quiet_trans|..].
  - intros t a [Ht Hs]%Hk2. apply Hk1 in Ht as [? ?]. split; [done|congruence].
  - intros t a x Ht Hx Hn. destruct (byTransport_ s2 !! t) as [a'|] eqn:Ht2.
    + apply Hk1 in Ht2 as Ht1. destruct Ht1 as [Ht1 Hs1]. assert (a' = a) as -> by congruence.
      rewrite Hx in Hs1. destruct (Hg2 t a x Ht2 Hs1 Hn) as (Hi & Hst & l & Hl & Hin).
      rewrite (qu_options _ _ Hq1) in Hi. split_and!; try done.
      exists (l1 ++ l). rewrite Hl, Hc1, app_assoc. split; [done|]. apply elem_of_app. auto.
    + destruct (Hg1 t a x Ht Hx Ht2) as (Hi & Hst & l & Hl & Hin). split_and!; try done.
      * destruct (qu_states _ _ Hq2 a) as [->| ->]; done.
      * assert (l = l1) as -> by (apply (app_inv_head (closes s1)); congruence).
        exists (l1 ++ l2). split; [done|]. apply elem_of_app. auto.
  - exists (l1 ++ l2). rewrite length_app, Forall_app. split_and!; try done. lia.
Qed.

(** One entry taken off the queue, its session still indexed. *)
Lemma expire_one_ok now eff s x :
  di_inv (idleDeadlines_ s) -> core_inv eff s -> 1 <= nextBindingGeneration_ s -> is_time now ->
  0 < idleTimeout (options_ s) ->
  eff !! exp_key x = Some (exp_pair x) -> exp_deadline x <= now ->
  di_abs (idleDeadlines_ s) !! exp_key x = None ->
  exists s', expire_one now x s = (Ok true, s') /\ di_inv (idleDeadlines_ s') /\
    core_inv (delete (exp_key x) eff) s' /\ idle_expired_to now s s' /\
    di_abs (idleDeadlines_ s') = di_abs (idleDeadlines_ s) /\
    base.size (byTransport_ s) = S (base.size (byTransport_ s')).
Proof.
  intros Hq Hc Hnx Hnow Hto Heff Hdl Habs. unfold exp_key in *. set (t := key (exp_token x)) in *.
  destruct (c_deadline _ _ Hc t _ Heff) as [a Ht].
  destruct (c_transport _ _ Hc t a Ht) as (p & Hp & Htp & Hpp & Hon & Hst & Hg & Hk & Hla & Hep).
  rewrite Heff in Hep. unfold exp_pair in Hep. injection Hep as Hgen Hd.
  destruct (eraseSession_ok eff s t a Hq Hc Hnx Ht) as (p' & q & Hp' & _ & He & Hc' & Hq' & Hn & Hdo & Ha); [auto|].
  rewrite Hp in Hp'. injection Hp' as <-.
  unfold expire_one, findMutableByTransport. fold t.
  rewrite (bindM_ok (gets _) _ s (Some a) s) by (unfold gets; by rewrite Ht).
  rewrite (bindM_ok _ _ _ _ _ (load_ok a p s Hp)).
  assert (idleDeadline_ p = exp_token x) as Htok.
  { destruct (idleDeadline_ p), (exp_token x). simpl in *. unfold t in *. simpl in *. congruence. }
  unfold token_eqb. rewrite bool_decide_true by done. simpl.
  rewrite (bindM_ok get _ s s s) by done. unfold lift. unfold is_time in *.
  rewrite i64_ok by lia. rewrite (bindM_ok _ _ s (now - lastActivity_ p) s) by done.
  rewrite (proj2 (Z.ltb_ge _ _)) by lia. rewrite (bindM_ok _ _ _ _ _ He).
  assert (base.size (byTransport_ s) = S (base.size (delete t (byTransport_ s)))) as Hsize.
  { rewrite map_size_delete_Some by eauto.
    assert (base.size (byTransport_ s) <> 0%nat); [|lia].
    intros E%map_size_empty_iff. by rewrite E, lookup_empty in Ht. }
  eexists. split; [done|]. split_and!; try done.
  - destruct Hc'. by constructor.
  - split; simpl.
    + split; simpl; try done. intros a'. destruct (decide (a = a')) as [<-|].
      * rewrite lookup_insert_eq. auto.
      * rewrite lookup_insert_ne by done. auto.
    + rewrite Htp. intros t' a' [Hne Hl]%lookup_delete_Some. split; [done|].
      apply lookup_insert_ne. intros <-.
      destruct (c_transport _ _ Hc t' a Hl) as (? & ? & ? & _). congruence.
    + rewrite Htp. intros t' a' x' Hl Hx' Hnone. destruct (decide (t = t')) as [<-|]; cycle 1.
      { rewrite lookup_delete_ne in Hnone by done. congruence. }
      rewrite Ht in Hl. injection Hl as <-. rewrite Hp in Hx'. injection Hx' as <-.
      rewrite lookup_insert_eq. split_and!; [lia|done|]. eexists. split; [done|]. constructor.
    + eexists. split; [done|]. split; [by repeat constructor|]. rewrite Htp.
      rewrite Hsize. simpl. lia.
  - simpl. rewrite Ha. by apply delete_id.
  - simpl. by rewrite Htp.
Qed.

Lemma expire_each_ok now xs : forall eff s,
  di_inv (idleDeadlines_ s) -> core_inv eff s -> 1 <= nextBindingGeneration_ s -> is_time now ->
  0 < idleTimeout (options_ s) -> zlen xs < usize_lim ->
  NoDup (exp_key <$> xs) ->
  (forall x, x ∈ xs -> eff !! exp_key x = Some (exp_pair x) /\ exp_deadline x <= now) ->
  (forall t, di_abs (idleDeadlines_ s) !! t =
     if bool_decide (t ∈ exp_key <$> xs) then None else eff !! t) ->
  exists s', expire_each now xs s = (Ok (zlen xs), s') /\ di_inv (idleDeadlines_ s') /\
    core_inv (di_abs (idleDeadlines_ s')) s' /\ idle_expired_to now s s' /\
    di_abs (idleDeadlines_ s') = di_abs (idleDeadlines_ s) /\
    base.size (byTransport_ s) = (length xs + base.size (byTransport_ s'))%nat.
Proof.
  induction xs as [|x xs IH]; intros eff s Hq Hc Hnx Hnow Hto Hlen Hnd Hdue Habs; simpl.
  { exists s. split_and!; try done; [|apply idle_expired_refl].
    assert (di_abs (idleDeadlines_ s) = eff) as ->; [|done].
    apply map_eq. intros t. rewrite Habs. by rewrite bool_decide_false by apply not_elem_of_nil. }
  simpl in Hnd. apply NoDup_cons in Hnd as [Hnin Hnd].
  destruct (Hdue x) as [Hx Hd]; [constructor|].
  assert (di_abs (idleDeadlines_ s) !! exp_key x = None) as Hnone.
  { rewrite Habs, bool_decide_true; [done|]. simpl. constructor. }
  destruct (expire_one_ok now eff s x) as (s1 & H1 & Hq1 & Hc1 & Hie1 & Ha1 & Hsz1); try done.
  pose proof (ie_quiet _ _ _ Hie1) as Hqu.
  rewrite (bindM_ok _ _ _ _ _ H1).
  assert (zlen (x :: xs) = 1 + zlen xs) as Hz by (unfold zlen; simpl; lia).
  destruct (IH (delete (exp_key x) eff) s1) as (s2 & H2 & Hq2 & Hc2 & Hie2 & Ha2 & Hsz2); try done.
  - by rewrite (qu_next _ _ Hqu).
  - by rewrite (qu_options _ _ Hqu).
  - lia.
  - intros y Hy. destruct (Hdue y) as [? ?]; [by constructor|]. rewrite lookup_delete_ne; [done|].
    intros E. apply Hnin. rewrite E. apply list_elem_of_fmap. eauto.
  - intros t. rewrite Ha1, Habs. destruct (decide (t = exp_key x)) as [->|Hne].
    + rewrite bool_decide_true by (simpl; constructor). rewrite lookup_delete_eq. by case_bool_decide.
    + rewrite lookup_delete_ne by done. simpl. erewrite bool_decide_ext; [done|].
      rewrite elem_of_cons. tauto.
  - rewrite (bindM_ok _ _ _ _ _ H2). exists s2. pose proof (zlen_nonneg xs).
    split_and!; try done;
      [by rewrite Hz, uwrap_small by lia|by eapply idle_expired_trans|congruence|simpl; lia].
Qed.

Lemma expireIdleBatch_ok now s :
  sm_inv s -> is_time now ->
  exists r s', expireIdleBatch now s = (Ok r, s') /\ sm_inv s' /\ idle_expired_to now s s' /\
    match lifecycleState_ s with
    | LifecycleShutdown => s' = s /\ r = mkIdle 0 false
    | Running => exists res,
        advance_post (di_options (idleDeadlines_ s)) now (di_abs (idleDeadlines_ s))
          (di_abs (idleDeadlines_ s')) res /\
        r = mkIdle (zlen (expired res)) (readyRemaining res) /\
        base.size (byTransport_ s) = (length (expired res) + base.size (byTransport_ s'))%nat /\
        di_options (idleDeadlines_ s') = di_options (idleDeadlines_ s)
    end.
Proof.
  intros Hs Hnow. unfold expireIdleBatch. rewrite (bindM_ok get _ s s s) by done.
  destruct (lifecycleState_ s) eqn:Hrun; simpl.
  2: { exists (mkIdle 0 false), s. split_and!; try done. apply idle_expired_refl. }
  destruct Hs as [Hq Hc Hto Hnx Hl].
  destruct (di_advance_spec (idleDeadlines_ s) now Hq Hnow) as (res & q & Hadv & Hq' & Ho & Hn & Hpost).
  rewrite (bindM_ok (on_idle _) _ s res (set_idle q s)) by (unfold on_idle; by rewrite Hadv).
  pose proof (ad_expired _ _ _ _ _ Hpost) as Hexp.
  destruct (di_inv_options _ Hq) as [Hres Hbud].
  destruct (expire_each_ok now (expired res) (di_abs (idleDeadlines_ s)) (set_idle q s))
    as (s' & He & Hq2 & Hc2 & Hie & Ha2 & Hsz); try done.
  - destruct Hc. by constructor.
  - pose proof (ad_budget _ _ _ _ _ Hpost). lia.
  - by eapply expired_keys_NoDup.
  - intros x Hx. destruct (ex_due _ _ _ _ _ Hexp x Hx) as [Hm Hle]. split; [done|].
    apply di_abs_bounds in Hm as [_ Hd]; [|done].
    destruct (quantize_bounds _ _ Hres Hd) as [? _]. simpl in *. lia.
  - apply (ex_rest _ _ _ _ _ Hexp).
  - rewrite (bindM_ok _ _ _ _ _ He). eexists _, s'. split; [done|].
    destruct (ie_quiet _ _ _ Hie) as [Hqo Hqn [Hqq Hqd] [Hql Hqt] Hqs]. simpl in *.
    split_and!.
    + constructor; try done; [by rewrite Hqo|by rewrite Hqn|]. rewrite Hql, Hqt, Hrun. by rewrite Hrun in Hl.
    + destruct Hie as [_ Hk Hg Hcl]. split; try done. split; try done; simpl; split; congruence.
    + exists res. split_and!; [by rewrite Ha2|done|done|congruence].
Qed.

Lemma core_size eff s : core_inv eff s -> base.size eff = base.size (byTransport_ s).
Proof.
  intros Hc. rewrite <- !size_dom. f_equal. apply set_eq. intros t. rewrite !elem_of_dom. split.
  - intros [y Hy]. by eapply c_deadline.
  - intros [a Ha]. apply (c_transport _ _ Hc) in Ha as (x & _ & _ & _ & _ & _ & _ & _ & _ & Hy). eauto.
Qed.

(** Nothing due is left: every remaining deadline rounds to the future. *)
Definition none_ready (now : Z) (s : SessionManager) : Prop :=
  forall t g d, di_abs (idleDeadlines_ s) !! t = Some (g, d) ->
    now < quantize (di_options (idleDeadlines_ s)) d.

Lemma expireIdle_loop_ok now fuel : forall s n,
  sm_inv s -> is_time now -> lifecycleState_ s = Running ->
  (base.size (byTransport_ s) < fuel)%nat ->
  exists s', expireIdle_loop fuel now n s =
      (Ok (uwrap (n + Z.of_nat (base.size (byTransport_ s) - base.size (byTransport_ s')))), s') /\
    sm_inv s' /\ idle_expired_to now s s' /\ none_ready now s'.
Proof.
  induction fuel as [|fuel IH]; intros s n Hs Hnow Hrun Hfuel; [lia|]. simpl.
  destruct (expireIdleBatch_ok now s Hs Hnow) as (r & s1 & H1 & Hs1 & Hie1 & Hr). rewrite Hrun in Hr.
  destruct Hr as (res & Hpost & -> & Hsz & Hdo). rewrite (bindM_ok _ _ _ _ _ H1). simpl.
  destruct (readyRemaining res) eqn:Hrem.
  - destruct (di_inv_options _ (sm_queue s Hs)) as [_ Hbud].
    pose proof (ad_full _ _ _ _ _ Hpost Hrem) as Hfull. unfold zlen in Hfull.
    destruct (IH s1 (n ⊕ zlen (expired res)) Hs1 Hnow) as (s2 & H2 & Hs2 & Hie2 & Hno); [|lia|].
    { rewrite <- Hrun. apply (qu_lifecycle _ _ (ie_quiet _ _ _ Hie1)). }
    exists s2. split_and!; try done; [|by eapply idle_expired_trans].
    rewrite H2. do 2 f_equal. unfold uwrap. rewrite Zplus_mod_idemp_l. f_equal.
    destruct (ie_closes _ _ _ Hie2) as (l2 & _ & _ & Hl2). unfold zlen. lia.
  - exists s1. split_and!; try done.
    + replace (Z.of_nat (base.size (byTransport_ s) - base.size (byTransport_ s1)))
        with (zlen (expired res)) by (unfold zlen; lia). done.
    + intros t g d Hd. rewrite Hdo. destruct (Z.lt_ge_cases now (quantize (di_options (idleDeadlines_ s)) d));
        [done|]. exfalso. assert (readyRemaining res = true) as E; [|congruence].
      apply (ad_remaining _ _ _ _ _ Hpost). eauto.
Qed.

(** [expireIdle] ends, and its count is the number of sessions it removed. *)
Lemma expireIdle_ok now s :
  sm_inv s -> is_time now -> lifecycleState_ s = Running ->
  exists s', expireIdle now s =
      (Ok (uwrap (Z.of_nat (base.size (byTransport_ s) - base.size (byTransport_ s')))), s') /\
    sm_inv s' /\ idle_expired_to now s s' /\ none_ready now s'.
Proof.
  intros Hs Hnow Hrun. unfold expireIdle. rewrite (bindM_ok get _ s s s) by done.
  apply (expireIdle_loop_ok now _ s 0); try done. rewrite (core_size _ s (sm_core s Hs)). lia.
Qed.

Lemma idle_expired_evolves now s s' : idle_expired_to now s s' -> 1 <= nextBindingGeneration_ s -> evolves s s'.
Proof.
  intros [[Ho Hn [Hq1 Hq2] _ Hst] _ _ (l & Hc & _)] Hnx. split; try done; try lia; eauto.
  intros a g Hg. destruct (Hst a) as [E|E]; rewrite E in Hg; [auto|]. simplify_eq. auto.
Qed.

(** ** Shutdown *)

Lemma markOffline_ok a x s :
  sessions s !! a = Some x -> bindingState_ x = a ->
  markOffline a s = (Ok tt, put a (with_state Offline x) 0 s).
Proof.
  intros Hx Hb. unfold markOffline, store_generation. rewrite bindM_assoc.
  rewrite (bindM_ok _ _ _ _ _ (load_ok a x s Hx)).
  rewrite (bindM_ok (modify _) _ s tt (put a x 0 s)).
  2: { unfold modify, put, set_objects. simpl. by rewrite Hb, (insert_id (sessions s)). }
  by rewrite update_put.
Qed.

(** The objects after the sessions at addresses [l] went offline. *)
Record offline_at (l : list Z) (s s' : SessionManager) : Prop := {
  of_frame : s' = set_objects (fun _ => sessions s') (fun _ => states s') (nextObject s) s;
  of_in : forall a, a ∈ l -> exists x, sessions s !! a = Some x /\
    sessions s' !! a = Some (with_state Offline x) /\ states s' !! a = Some 0;
  of_out : forall a, a ∉ l -> sessions s' !! a = sessions s !! a /\ states s' !! a = states s !! a;
}.

Lemma shutdown_collect_ok l : forall s,
  (forall a x, sessions s !! a = Some x -> bindingState_ x = a) ->
  Forall (fun pa => is_Some (sessions s !! pa.2)) l ->
  exists es s', shutdown_collect l s = (Ok es, s') /\ offline_at l.*2 s s' /\
    Forall2 (fun pa e => exists x, sessions s !! pa.2 = Some x /\ endpoint_ x = e) l es.
Proof.
  induction l as [|[player a] l IH]; intros s Hbs Hl; simpl.
  { exists [], s. split_and!; [done| |constructor]. split; [by destruct s| |done].
    intros a Ha. by apply elem_of_nil in Ha. }
  apply Forall_cons in Hl as [[x Hx] Hl]. simpl in Hx.
  rewrite (bindM_ok _ _ _ _ _ (load_ok a x s Hx)).
  rewrite (bindM_ok _ _ _ _ _ (markOffline_ok a x s Hx (Hbs a x Hx))).
  set (s1 := put a (with_state Offline x) 0 s).
  assert (forall a' y, sessions s1 !! a' = Some y ->
    exists z, sessions s !! a' = Some z /\ endpoint_ y = endpoint_ z /\ bindingState_ y = bindingState_ z /\
      with_state Offline y = with_state Offline z) as Hs1.
  { intros a' y. simpl sessions. intros [[<- <-]|[_ Hy]]%lookup_insert_Some; [|eauto 10].
    exists x. by split_and!. }
  destruct (IH s1) as (es & s2 & Hes & [Hfr Hin Hout] & Hall).
  { intros a' y Hy. destruct (Hs1 a' y Hy) as (z & Hz & _ & -> & _). auto. }
  { eapply Forall_impl; [exact Hl|]. intros [p' a'] [y Hy]. simpl in *.
    destruct (decide (a = a')) as [->|]; [rewrite lookup_insert_eq; eauto|].
    rewrite lookup_insert_ne by done. eauto. }
  rewrite (bindM_ok _ _ _ _ _ Hes). eexists _, s2. split; [done|]. split.
  - split.
    + rewrite Hfr at 1. done.
    + intros a' Ha'. destruct (decide (a' ∈ l.*2)) as [Hl'|Hl'].
      * destruct (Hin a' Hl') as (y & Hy & -> & ->). destruct (Hs1 a' y Hy) as (z & Hz & _ & _ & ->). eauto.
      * apply elem_of_cons in Ha' as [->|]; [|done]. destruct (Hout a Hl') as [-> ->].
        exists x. simpl. by rewrite !lookup_insert_eq.
    + intros a' Ha'. apply not_elem_of_cons in Ha' as [Hne Hl'].
      destruct (Hout a' Hl') as [-> ->]. simpl. by rewrite !lookup_insert_ne.
  - constructor; [eauto|]. eapply Forall2_impl; [exact Hall|]. intros [p' a'] e (y & Hy & <-).
    destruct (Hs1 _ y Hy) as (z & Hz & -> & _). eauto.
Qed.

Lemma close_all_ok es r s :
  close_all es r s = (Ok tt, foldl (fun s e => add_close e r s) s es).
Proof. revert s. induction es as [|e es IH]; intros s; [done|]. simpl. apply IH. Qed.

Lemma foldl_add_close es r s :
  let s' := foldl (fun s e => add_close e r s) s es in
  closes s' = closes s ++ ((fun e => (e, r)) <$> es) /\
  (sm_inv s -> sm_inv s') /\ sessions s' = sessions s /\ states s' = states s /\
  byPlayer_ s' = byPlayer_ s /\ byTransport_ s' = byTransport_ s /\ options_ s' = options_ s /\
  idleDeadlines_ s' = idleDeadlines_ s /\ lifecycleState_ s' = lifecycleState_ s /\
  nextBindingGeneration_ s' = nextBindingGeneration_ s.
Proof.
  revert s. induction es as [|e es IH]; intros s; simpl; [by rewrite app_nil_r; split_and!|].
  specialize (IH (add_close e r s)). destruct IH as (Hc & Hi & ? & ? & ? & ? & ? & ? & ? & ?).
  split_and!; try done.
  - rewrite Hc. simpl. by rewrite <- app_assoc.
  - intros Hs. apply Hi. by apply add_close_ok.
Qed.

(** What [shutdown] of a running manager does. *)
Record shut_down (s s' : SessionManager) : Prop := {
  sd_state : lifecycleState_ s' = LifecycleShutdown /\ byPlayer_ s' = ∅ /\ byTransport_ s' = ∅ /\
    di_abs (idleDeadlines_ s') = ∅;
  sd_sessions : forall a x, sessions s !! a = Some x ->
    exists x', sessions s' !! a = Some x' /\ state_ x' = Offline /\ states s' !! a = Some 0;
  sd_closes : exists es, closes s' = closes s ++ ((fun e => (e, GoingAway)) <$> es) /\
    length es = base.size (byPlayer_ s) /\
    forall player a x, byPlayer_ s !! player = Some a -> sessions s !! a = Some x -> endpoint_ x ∈ es;
}.

Lemma shutdown_ok s :
  sm_inv s ->
  exists s', shutdown s = (Ok tt, s') /\ sm_inv s' /\ evolves s s' /\
    match lifecycleState_ s with Running => shut_down s s' | LifecycleShutdown => s' = s end.
Proof.
  intros Hs. unfold shutdown. rewrite (bindM_ok get _ s s s) by done.
  destruct (lifecycleState_ s) eqn:Hrun; simpl.
  2: { exists s. split_and!; try done. apply evolves_refl. }
  destruct Hs as [Hq Hc Hto Hnx Hl]. rewrite Hrun in Hl.
  set (s1 := set_lifecycle LifecycleShutdown Shutdown s).
  rewrite (bindM_ok (modify _) _ s tt (set_lifecycle Running Shutdown s)).
  2: { unfold modify, revoke. by rewrite Hrun, bool_decide_true. }
  rewrite (bindM_ok (modify _) _ _ tt s1) by done.
  destruct (shutdown_collect_ok (map_to_list (byPlayer_ s)) s1) as (es & s2 & Hes & [Hfr Hin Hout] & Hall).
  { intros a x Hx. by apply (c_object _ _ Hc) in Hx as (_ & ? & _). }
  { apply Forall_forall. intros [player a] Ha%elem_of_map_to_list.
    apply (c_player _ _ Hc) in Ha as (x & Hx & _). simpl. eauto. }
  rewrite (bindM_ok _ _ _ _ _ Hes).
  set (s3 := set_byPlayer (fun _ => ∅) (set_byTransport (fun _ => ∅) s2)).
  rewrite (bindM_ok (modify _) _ _ tt (set_byTransport (fun _ => ∅) s2)) by done.
  rewrite (bindM_ok (modify _) _ _ tt s3) by done.
  destruct (di_clear_spec (idleDeadlines_ s) Hq) as (q & Hcl & Hq' & Ha & Ho & Hn).
  assert (idleDeadlines_ s3 = idleDeadlines_ s) as Hid by (simpl; rewrite Hfr; done).
  rewrite (bindM_ok (on_idle _) _ s3 tt (set_idle q s3)) by (unfold on_idle; by rewrite Hid, Hcl).
  rewrite close_all_ok. eexists. split; [done|].
  destruct (foldl_add_close es GoingAway (set_idle q s3))
    as (Hcs & Hi & Hss & Hst & Hbp & Hbt & Hop & Hqq & Hlf & Hng).
  set (s' := foldl _ _ _) in *.
  assert (forall a, a ∈ (map_to_list (byPlayer_ s)).*2 <-> exists player, byPlayer_ s !! player = Some a) as Hadr.
  { intros a. rewrite list_elem_of_fmap. split.
    - intros ([player a'] & -> & Hp%elem_of_map_to_list). eauto.
    - intros [player Hp]. exists (player, a). split; [done|]. by apply elem_of_map_to_list. }
  assert (forall a x, sessions s !! a = Some x ->
    exists x', sessions s2 !! a = Some x' /\ bindingState_ x' = a /\ playerId_ x' = playerId_ x /\
      state_ x' = Offline /\ states s2 !! a = Some 0) as Hobj.
  { intros a x Hx. destruct (c_object _ _ Hc a x Hx) as (_ & Hb & _ & Hor).
    destruct (decide (a ∈ (map_to_list (byPlayer_ s)).*2)) as [Hi'|Hi'].
    - destruct (Hin a Hi') as (y & Hy & -> & ->). simpl in Hy. rewrite Hx in Hy. simplify_eq.
      eexists. by split_and!.
    - destruct (Hout a Hi') as [-> ->]. simpl. exists x. destruct Hor as [Hor|[? ?]]; [|done].
      exfalso. apply Hi', Hadr. eauto. }
  split_and!.
  - apply Hi. constructor; simpl; try (rewrite Hfr; done); try done.
    rewrite Ha. constructor; simpl; try (intros ? ?; by rewrite lookup_empty).
    + intros a x' Hx'. assert (exists x, sessions s !! a = Some x) as [x Hx].
      { destruct (decide (a ∈ (map_to_list (byPlayer_ s)).*2)) as [Hi'|Hi'].
        - destruct (Hin a Hi') as (y & Hy & _). eauto.
        - destruct (Hout a Hi') as [E _]. rewrite E in Hx'. eauto. }
      destruct (Hobj a x Hx) as (y & Hy & Hb & Hp & Hof & Hst0). rewrite Hx' in Hy. injection Hy as <-.
      destruct (c_object _ _ Hc a x Hx) as (? & _ & ? & _).
      rewrite Hp. split_and!; try done; [|auto]. by rewrite Hfr.
    + intros a g Hg. assert (nextBindingGeneration_ s2 = nextBindingGeneration_ s) as -> by (by rewrite Hfr).
      destruct (decide (a ∈ (map_to_list (byPlayer_ s)).*2)) as [Hi'|Hi'].
      * destruct (Hin a Hi') as (y & _ & _ & E). rewrite E in Hg. simplify_eq. lia.
      * destruct (Hout a Hi') as [_ E]. rewrite E in Hg. by apply (c_generation _ _ Hc) in Hg.
  - assert (nextBindingGeneration_ s' = nextBindingGeneration_ s) as E1 by (rewrite Hng; simpl; by rewrite Hfr).
    split.
    + rewrite Hop. simpl. by rewrite Hfr.
    + lia.
    + rewrite Hqq. simpl. lia.
    + by rewrite Hqq.
    + intros a g. rewrite Hst. simpl. intros Hg.
      destruct (decide (a ∈ (map_to_list (byPlayer_ s)).*2)) as [Hi'|Hi'].
      * destruct (Hin a Hi') as (y & _ & _ & E). rewrite E in Hg. simplify_eq. auto.
      * destruct (Hout a Hi') as [_ E]. rewrite E in Hg. auto.
    + eexists. rewrite Hcs. simpl. by rewrite Hfr.
  - split.
    + rewrite Hlf, Hbp, Hbt, Hqq. simpl. rewrite Hfr. done.
    + intros a x Hx. rewrite Hss, Hst. simpl. destruct (Hobj a x Hx) as (y & ? & _ & _ & ? & ?). eauto.
    + exists es. rewrite Hcs. split_and!; [simpl; by rewrite Hfr| |].
      * rewrite <- (Forall2_length _ _ _ Hall). by rewrite length_map_to_list.
      * intros player a x Hp Hx. apply elem_of_map_to_list in Hp.
        apply (list_elem_of_lookup_1) in Hp as [i Hi']. eapply Forall2_lookup_l in Hall as (e & He & y & Hy & <-);
          [|exact Hi']. simpl in Hy. rewrite Hx in Hy. simplify_eq. by apply list_elem_of_lookup_2 in He.
Qed.

(** ** Sequences of operations *)

Inductive sm_op :=
  | SmAuthenticate (player : string) (endpoint : option Z) (now : Z)
  | SmOffline (t : Z)
  | SmHeartbeat (t now : Z)
  | SmExpireBatch (now : Z)
  | SmExpire (now : Z)
  | SmShutdown.

Inductive sm_out :=
  | OutAuth (r : AuthenticateResult)
  | OutFlag (b : bool)
  | OutCount (n : Z)
  | OutIdle (r : IdleExpirationResult)
  | OutDone
  | OutFailed (e : exn).

Definition sm_result {A} (f : A -> sm_out) (x : result A * SessionManager) : sm_out * SessionManager :=
  match x with (Ok a, s) => (f a, s) | (Throw e, s) => (OutFailed e, s) end.

Definition sm_exec (op : sm_op) (s : SessionManager) : sm_out * SessionManager :=
  match op with
  | SmAuthenticate p e now => sm_result OutAuth (authenticate p e now s)
  | SmOffline t => sm_result OutFlag (offline t s)
  | SmHeartbeat t now => sm_result OutFlag (heartbeat t now s)
  | SmExpireBatch now => sm_result OutIdle (expireIdleBatch now s)
  | SmExpire now => sm_result OutCount (expireIdle now s)
  | SmShutdown => sm_result (fun _ => OutDone) (shutdown s)
  end.

Fixpoint sm_execs (ops : list sm_op) (s : SessionManager) : list sm_out * SessionManager :=
  match ops with
  | [] => ([], s)
  | op :: ops => let '(x, s1) := sm_exec op s in
                 let '(xs, s2) := sm_execs ops s1 in (x :: xs, s2)
  end.

(** The times of the operations, plus the timeout, are representable. *)
Definition sm_op_ok (timeout : Z) (op : sm_op) : Prop :=
  match op with
  | SmAuthenticate _ _ now | SmHeartbeat _ now => is_time now /\ now + timeout <= i64_max
  | SmExpireBatch now | SmExpire now => is_time now
  | _ => True
  end.

(** Generations for [n] more operations. *)
Definition room_for (n : nat) (s : SessionManager) : Prop :=
  nextBindingGeneration_ s + Z.of_nat n <= usize_max /\
  di_next (idleDeadlines_ s) + Z.of_nat n <= usize_max.

Definition returned (x : sm_out) : Prop :=
  match x with OutFailed _ => False | _ => True end.

Lemma sm_exec_ok op s :
  sm_inv s -> room s -> sm_op_ok (idleTimeout (options_ s)) op ->
  exists x s', sm_exec op s = (x, s') /\ returned x /\ sm_inv s' /\ evolves s s'.
Proof.
  intros Hs Hr Ht. destruct op as [p e now|t|t now|now|now|]; cbn [sm_exec sm_op_ok] in *.
  - destruct (authenticate_ok s p e now Hs Hr Ht) as (r & s' & -> & ? & ? & _). by eexists _, s'.
  - destruct (offline_ok s t Hs) as (b & s' & -> & ? & ? & _). by eexists _, s'.
  - destruct (heartbeat_ok s t now Hs Hr Ht) as (b & s' & -> & ? & ? & _). by eexists _, s'.
  - destruct (expireIdleBatch_ok now s Hs Ht) as (r & s' & -> & ? & Hie & _). eexists _, s'.
    split_and!; try done. eapply idle_expired_evolves; [done|]. apply (sm_next s Hs).
  - destruct (lifecycleState_ s) eqn:Hrun.
    + destruct (expireIdle_ok now s Hs Ht Hrun) as (s' & -> & ? & Hie & _). eexists _, s'.
      split_and!; try done. eapply idle_expired_evolves; [done|]. apply (sm_next s Hs).
    + destruct (expireIdleBatch_ok now s Hs Ht) as (r & s' & Hb & _ & _ & Hx). rewrite Hrun in Hx.
      destruct Hx as [-> ->]. exists (OutCount 0), s. split_and!; try done; [|apply evolves_refl].
      unfold expireIdle. rewrite (bindM_ok get _ s s s) by done. cbn [expireIdle_loop].
      by rewrite (bindM_ok _ _ _ _ _ Hb).
  - destruct (shutdown_ok s Hs) as (s' & -> & ? & ? & _). by eexists _, s'.
Qed.

(** An issued binding that is not current stays so as the manager evolves. *)
Lemma evolves_stale s s' b a :
  evolves s s' -> sb_state b = Some a -> 1 <= sb_generation b < nextBindingGeneration_ s ->
  isCurrent (states s) b = false -> isCurrent (states s') b = false.
Proof.
  intros Hev Hb Hg. rewrite !(isCurrent_tracked _ b a) by (done || lia). rewrite !Z.eqb_neq.
  intros Hne. destruct (states s' !! a) as [g|] eqn:E; simpl; [|lia].
  apply (ev_states _ _ Hev) in E as [E|[->|?]]; [|lia..]. by rewrite E in Hne.
Qed.

(** A sequence of operations, with a property of states carried along. *)
Lemma sm_execs_ind (P : SessionManager -> Prop) :
  (forall s s', P s -> evolves s s' -> P s') ->
  forall ops s, sm_inv s -> room_for (length ops) s ->
  Forall (sm_op_ok (idleTimeout (options_ s))) ops -> P s ->
  let '(xs, s') := sm_execs ops s in Forall returned xs /\ sm_inv s' /\ P s'.
Proof.
  intros HP. induction ops as [|op ops IH]; intros s Hs Hr Hops Hp; simpl.
  { split_and!; [constructor|done..]. }
  apply Forall_cons in Hops as [Hop Hops]. unfold room_for in Hr. simpl in Hr.
  destruct (sm_exec_ok op s Hs) as (x & s1 & Hx & Hret & Hs1 & Hev); [unfold room; lia|done|].
  rewrite Hx. pose proof (ev_next _ _ Hev). pose proof (ev_queue _ _ Hev).
  specialize (IH s1 Hs1). destruct (sm_execs ops s1) as [xs s2].
  destruct IH as (? & ? & ?); [unfold room_for; lia|by rewrite (ev_options _ _ Hev)|eauto|].
  split_and!; [by constructor|done..].
Qed.

(** C13. The manager stays coherent: for every sequence of operations, each
    returns normally, no stale object is touched, and afterwards the player and
    the transport index name the same sessions under their own ids, every
    indexed session is online with its binding current and exactly one idle
    deadline at last activity plus the timeout, and every session that left
    the indexes is offline with no current binding. *)
Theorem session_indexes_coherent ops s :
  sm_inv s -> room_for (length ops) s -> Forall (sm_op_ok (idleTimeout (options_ s))) ops ->
  let '(xs, s') := sm_execs ops s in Forall returned xs /\ sm_inv s'.
Proof.
  intros Hs Hr Hops. pose proof (sm_execs_ind (fun _ => True) ltac:(done) ops s Hs Hr Hops I) as Hx.
  destruct (sm_execs ops s) as [xs s']. tauto.
Qed.

(** [authenticate] does on every branch what its result says: refusals
    change nothing (but for closing an endpoint whose transport id is taken),
    [Created] indexes a new session, [Existing] renews the binding of the same
    endpoint, [Rebound] moves the player to the new endpoint, closes the old
    one as [Replaced] and revokes its bindings, and the duplicate-login policy
    decides between the last two and rejection. *)
Theorem authenticate_branches s player oe now :
  sm_inv s -> room s -> time_ok s now ->
  exists r s', authenticate player oe now s = (Ok r, s') /\ sm_inv s' /\
    auth_case s player now oe r s'.
Proof.
  intros Hs Hr Ht. destruct (authenticate_ok s player oe now Hs Hr Ht) as (r & s' & ? & ? & _ & ?).
  eauto.
Qed.

(** A stale binding never becomes current again: a [SessionBinding] that
    was issued and is no longer current (its player re-authenticated, moved,
    went offline or expired) is refused after every further sequence of
    operations. *)
Theorem stale_binding_never_current ops s b a :
  sm_inv s -> room_for (length ops) s -> Forall (sm_op_ok (idleTimeout (options_ s))) ops ->
  sb_state b = Some a -> 1 <= sb_generation b < nextBindingGeneration_ s ->
  isCurrent (states s) b = false ->
  isCurrent (states (sm_execs ops s).2) b = false.
Proof.
  intros Hs Hr Hops Hb Hg Hc.
  enough (let '(xs, s') := sm_execs ops s in Forall returned xs /\ sm_inv s' /\
    sb_generation b < nextBindingGeneration_ s' /\ isCurrent (states s') b = false) as Hx.
  { destruct (sm_execs ops s) as [xs s']. simpl. tauto. }
  apply (sm_execs_ind (fun s => sb_generation b < nextBindingGeneration_ s /\ isCurrent (states s) b = false));
    try done; [|split; [lia|done]].
  intros s1 s2 [Hg1 Hc1] Hev. pose proof (ev_next _ _ Hev). split; [lia|].
  eapply (evolves_stale s1 s2 b a); try done. lia.
Qed.

(** [expireIdle] ends and removes exactly the idle: every session it
    removes had been inactive for at least the timeout, got one close request
    with [IdleTimeout] and lost its binding; the others are untouched and, but
    for the rounding of deadlines, were active since; the returned count is the
    number removed. *)
Theorem expireIdle_removes_idle s now :
  sm_inv s -> is_time now -> lifecycleState_ s = Running ->
  exists s', expireIdle now s =
      (Ok (uwrap (Z.of_nat (base.size (byTransport_ s) - base.size (byTransport_ s')))), s') /\
    sm_inv s' /\ idle_expired_to now s s' /\
    forall t a x, byTransport_ s' !! t = Some a -> sessions s' !! a = Some x ->
      now - lastActivity_ x < idleTimeout (options_ s) + resolution (di_options (idleDeadlines_ s)).
Proof.
  intros Hs Hnow Hrun. destruct (expireIdle_ok now s Hs Hnow Hrun) as (s' & He & Hs' & Hie & Hno).
  exists s'. split_and!; try done. intros t a x Ht Hx.
  destruct (c_transport _ _ (sm_core _ Hs') t a Ht) as (x' & Hx' & _ & _ & _ & _ & _ & _ & Hla & Hd).
  rewrite Hx in Hx'. injection Hx' as <-. apply Hno in Hd as Hlt.
  destruct (ie_quiet _ _ _ Hie) as [Hqo _ [_ Hqd] _ _]. rewrite Hqo, Hqd in *.
  destruct (di_inv_options _ (sm_queue _ Hs)) as [Hres _].
  apply (di_abs_bounds (idleDeadlines_ s')) in Hd as [_ Hdt]; [|apply (sm_queue _ Hs')].
  pose proof (quantize_bounds _ _ Hres Hdt). lia.
Qed.

(** [shutdown] is complete and final: it empties both indexes and the
    deadline queue, takes every session offline, requests one [GoingAway]
    close per session, and from then on authentication, heartbeats and posted
    tasks are refused with [Shutdown] and nothing changes. *)
Theorem shutdown_closes_everything s :
  sm_inv s -> lifecycleState_ s = Running ->
  exists s', shutdown s = (Ok tt, s') /\ shut_down s s' /\
    shutdown s' = (Ok tt, s') /\
    (forall player oe now, authenticate player oe now s' = (Ok (rejected Shutdown None), s')) /\
    (forall t now, heartbeat t now s' = (Ok false, s') /\ offline t s' = (Ok false, s')) /\
    (forall posted task, post posted task s' = (Shutdown, None)) /\
    (forall now task, run_task true now task s' = (Ok (refuse_task task Shutdown), s')).
Proof.
  intros Hs Hrun. destruct (shutdown_ok s Hs) as (s' & Hsd & Hs' & _ & Hpost). rewrite Hrun in Hpost.
  exists s'. destruct (sd_state _ _ Hpost) as [Hl _].
  pose proof (sm_lifecycle s' Hs') as Hlf. rewrite Hl in Hlf. destruct Hlf as [Ht _].
  split_and!; try done.
  - unfold shutdown. step_m. by rewrite Hl.
  - intros. unfold authenticate. step_m. by rewrite Hl.
  - intros. unfold heartbeat, offline. step_m. by rewrite Hl.
  - intros. unfold post. by rewrite Ht.
  - intros. unfold run_task. step_m. cbv beta iota delta [negb]. by rewrite Ht.
Qed.
End manager.

(** ** Construction over the bucketed queue *)

Definition SessionManager_new (o : Options) : result (SessionManager (Q := DeadlineQueue)) :=
  match DeadlineQueue_new
          (DeadlineQueue.mkOptions (idleDeadlineResolution o) (maxIdleExpirationsPerAdvance o)) with
  | Throw e => Throw e
  | Ok q =>
      if idleTimeout o <=? 0 then Throw invalid_argument
      else Ok (mkManager Running Accepted o q 1 1 ∅ ∅ ∅ ∅ 0 [])
  end.

Lemma SessionManager_new_ok ep_id o s :
  0 <= maxIdleExpirationsPerAdvance o < usize_lim -> idleDeadlineResolution o <= i64_max ->
  SessionManager_new o = Ok s -> sm_inv ep_id s.
Proof.
  unfold SessionManager_new. intros Hm Hr Hn.
  destruct (DeadlineQueue_new _) as [q|] eqn:Eq; [|done]. case_if; [done|]. simplify_eq.
  apply DeadlineQueue_new_ok in Eq as (Hq & Ha & _); [|done..].
  constructor; simpl; try done; try lia. rewrite Ha. by constructor.
Qed.

(** ** Concrete runs *)

Definition demo_session_options : Options := mkSessionOptions ReplaceExisting 100 10 8.
Definition demo_ep_id (e : Z) : Z := 1000 + e.

(** The states of a run: a login, a second player, a rebind, a heartbeat. *)
Definition demo_manager : SessionManager (Q := DeadlineQueue) :=
  mkManager Running Accepted demo_session_options
    (mkQueue (DeadlineQueue.mkOptions 10 8) 1 ∅ ∅ ∅ 0) 1 1 ∅ ∅ ∅ ∅ 0 [].

Lemma demo_manager_ok : sm_inv demo_ep_id demo_manager.
Proof.
  refine (SessionManager_new_ok demo_ep_id demo_session_options demo_manager _ _ _);
    [simpl; lia|simpl; lia|reflexivity].
Qed.

Definition demo_session_ops : list sm_op :=
  [SmAuthenticate "ann" (Some 1) 0; SmAuthenticate "bob" (Some 2) 5;
   SmAuthenticate "ann" (Some 3) 50; SmHeartbeat 1002 60].

Lemma demo_session_ops_ok : Forall (sm_op_ok 100) demo_session_ops.
Proof. unfold demo_session_ops. repeat constructor; unfold sm_op_ok, is_time; lia. Qed.

Definition demo_busy : SessionManager (Q := DeadlineQueue) :=
  (sm_execs demo_ep_id demo_session_ops demo_manager).2.

Lemma demo_busy_ok : sm_inv demo_ep_id demo_busy.
Proof.
  pose proof (sm_execs_ind demo_ep_id (fun _ => True) (fun _ _ _ _ => I) demo_session_ops demo_manager
    demo_manager_ok) as Hx.
  unfold demo_busy. destruct (sm_execs demo_ep_id demo_session_ops demo_manager) as [xs s'].
  apply Hx; [unfold room_for; simpl; lia|apply demo_session_ops_ok|exact I].
Qed.

Lemma session_indexes_coherent_witness :
  let '(xs, s') := sm_execs demo_ep_id demo_session_ops demo_manager in
  map (fun x => match x with OutAuth r => Some (status r) | _ => None end) xs
    = [Some Created; Some Created; Some Rebound; None] /\ sm_inv demo_ep_id s'.
Proof.
  pose proof (session_indexes_coherent demo_ep_id demo_session_ops demo_manager demo_manager_ok) as Hx.
  assert (map (fun x => match x with OutAuth r => Some (status r) | _ => None end)
    (sm_execs demo_ep_id demo_session_ops demo_manager).1 = [Some Created; Some Created; Some Rebound; None])
    as Hm by (vm_compute; reflexivity).
  destruct (sm_execs demo_ep_id demo_session_ops demo_manager) as [xs s']. split; [exact Hm|].
  apply Hx; [unfold room_for; simpl; lia|apply demo_session_ops_ok].
Defined.

Lemma authenticate_branches_witness :
  exists r s', authenticate demo_ep_id "bob" (Some 3) 70 demo_busy = (Ok r, s') /\
    r = rejected PolicyRejected None /\
    auth_case demo_ep_id demo_busy "bob" 70 (Some 3) r s'.
Proof.
  destruct (authenticate_branches demo_ep_id demo_busy "bob" (Some 3) 70 demo_busy_ok)
    as (r & s' & Hr & _ & Hc).
  - split; vm_compute; reflexivity.
  - split; [unfold is_time; lia|vm_compute; discriminate].
  - exists r, s'. split; [exact Hr|]. split; [|exact Hc].
    assert ((authenticate demo_ep_id "bob" (Some 3) 70 demo_busy).1 = Ok r) as Hx by (by rewrite Hr).
    vm_compute in Hx. by injection Hx as <-.
Defined.

(** The binding "ann" had before she moved to endpoint 3. *)
Definition demo_binding : SessionBinding := mkBinding 1 1001 1 (Some 0).

Lemma stale_binding_never_current_witness :
  isCurrent (states demo_busy) demo_binding = false /\
  isCurrent (states (sm_execs demo_ep_id [SmAuthenticate "ann" (Some 1) 80; SmExpire 90] demo_busy).2)
    demo_binding = false.
Proof.
  split; [vm_compute; reflexivity|].
  apply (stale_binding_never_current demo_ep_id _ demo_busy demo_binding 0 demo_busy_ok).
  - split; vm_compute; discriminate.
  - repeat constructor; unfold sm_op_ok, is_time; vm_compute; discriminate.
  - reflexivity.
  - split; [vm_compute; discriminate|vm_compute; reflexivity].
  - vm_compute. reflexivity.
Defined.

Lemma expireIdle_removes_idle_witness :
  exists n s', expireIdle demo_ep_id 155 demo_busy = (Ok n, s') /\ n = 1 /\
    idle_expired_to 155 demo_busy s'.
Proof.
  destruct (expireIdle_removes_idle demo_ep_id demo_busy 155 demo_busy_ok) as (s' & He & _ & Hie & _).
  - unfold is_time. lia.
  - vm_compute. reflexivity.
  - eexists _, s'. split; [exact He|]. split; [|exact Hie].
    assert ((expireIdle demo_ep_id 155 demo_busy).1 = Ok 1) as Hx by (vm_compute; reflexivity).
    rewrite He in Hx. cbn [fst] in Hx. congruence.
Defined.

Lemma shutdown_closes_everything_witness :
  exists s', shutdown demo_busy = (Ok tt, s') /\
    closes s' = [(1, Replaced); (3, GoingAway); (2, GoingAway)] /\
    authenticate demo_ep_id "eve" (Some 9) 80 s' = (Ok (rejected Shutdown None), s').
Proof.
  destruct (shutdown_closes_everything demo_ep_id demo_busy demo_busy_ok) as (s' & Hs & _ & _ & Ha & _).
  - vm_compute. reflexivity.
  - exists s'. split; [exact Hs|]. split; [|apply Ha].
    assert (closes (shutdown demo_busy).2 = closes s') as Hx by (by rewrite Hs).
    rewrite <- Hx. vm_compute. reflexivity.
Defined.
