(* ===== verification/GameLogic.v ===== *)
(** * The command queue and the logic loop

    Model of [gamenet::game_logic::GameCommand] and [GameCommandQueue]
    (include/gamenet/game_logic/GameCommand.h, src/game_logic/GameCommandQueue.cc)
    and of [LogicLoop] (src/game_logic/LogicLoop.cc).

    Producer threads submit commands while the owner loop ticks, and the user's
    handler may stop or destroy the loop from inside a tick.  The operations of
    the queue are atomic under its mutex; [LogicLoop::submit] is two steps (the
    binding check, then the queue), and [LogicLoop::tick] is a sequence of steps
    with the user's callbacks in between.  The machine at the end of the model
    interleaves them: a label names the next step and carries what the
    environment chooses. *)

From S2P Require Import Prelude Session.

Local Open Scope Z_scope.

(** ** Commands *)

Inductive CommandPriority := Low | Normal | High.

Record GameCommand := mkCommand {
  cmd_sessionId : Z;
  cmd_transportId : Z;
  cmd_binding : SessionBinding;
  messageId : Z;
  requestId : Z;
  priority : CommandPriority;
  payload : list byte;
  enqueuedAt : Z;
}.

Definition with_enqueuedAt (t : Z) (c : GameCommand) : GameCommand :=
  mkCommand (cmd_sessionId c) (cmd_transportId c) (cmd_binding c) (messageId c) (requestId c)
    (priority c) (payload c) t.

Definition payload_size (c : GameCommand) : Z := zlen (payload c).

(** ** The queue *)

Module Queue.
Inductive SubmitResult := Accepted | QueueFull | PayloadTooLarge | Stopped | StaleBinding.

Record QueueLimits := mkLimits { maxCommands : Z; maxQueuedBytes : Z; maxPayloadBytes : Z }.

Record GameCommandQueue := mkQueue {
  limits_ : QueueLimits;
  queue_ : list GameCommand;
  queuedBytes_ : Z;
  depthHighWatermark_ : Z;
  bytesHighWatermark_ : Z;
  accepted_ : Z;
  rejectedFull_ : Z;
  rejectedPayload_ : Z;
  rejectedStopped_ : Z;
  droppedOnStop_ : Z;
  droppedBytesOnStop_ : Z;
  accepting_ : bool;
}.

Definition GameCommandQueue_new (l : QueueLimits) : result GameCommandQueue :=
  if (maxCommands l =? 0) || (maxQueuedBytes l =? 0) || (maxPayloadBytes l =? 0)
     || (maxQueuedBytes l <? maxPayloadBytes l)
  then Throw invalid_argument
  else Ok (mkQueue l [] 0 0 0 0 0 0 0 0 0 true).

Definition count_rejected (full pay stopped : Z) (q : GameCommandQueue) : GameCommandQueue :=
  mkQueue (limits_ q) (queue_ q) (queuedBytes_ q) (depthHighWatermark_ q) (bytesHighWatermark_ q)
    (accepted_ q) (rejectedFull_ q ⊕ full) (rejectedPayload_ q ⊕ pay) (rejectedStopped_ q ⊕ stopped)
    (droppedOnStop_ q) (droppedBytesOnStop_ q) (accepting_ q).

Definition set_bytes (b : Z) (q : GameCommandQueue) : GameCommandQueue :=
  mkQueue (limits_ q) (queue_ q) b (depthHighWatermark_ q) (bytesHighWatermark_ q) (accepted_ q)
    (rejectedFull_ q) (rejectedPayload_ q) (rejectedStopped_ q) (droppedOnStop_ q)
    (droppedBytesOnStop_ q) (accepting_ q).

(** [push_back] and the counters after it *)
Definition pushed (c : GameCommand) (q : GameCommandQueue) : GameCommandQueue :=
  let l := queue_ q ++ [c] in
  mkQueue (limits_ q) l (queuedBytes_ q) (Z.max (depthHighWatermark_ q) (zlen l))
    (Z.max (bytesHighWatermark_ q) (queuedBytes_ q)) (accepted_ q ⊕ 1) (rejectedFull_ q)
    (rejectedPayload_ q) (rejectedStopped_ q) (droppedOnStop_ q) (droppedBytesOnStop_ q)
    (accepting_ q).

(** [mem]: the allocation of [push_back] succeeds; [now] is the clock. *)
Definition submit (mem : bool) (now : Z) (c : GameCommand) : M GameCommandQueue SubmitResult :=
  let bytes := payload_size c in
  do q <- get ;;
  if negb (accepting_ q) then run modify (count_rejected 0 0 1) ;; ret Stopped
  else if maxPayloadBytes (limits_ q) <? bytes then
    run modify (count_rejected 0 1 0) ;; ret PayloadTooLarge
  else if (maxCommands (limits_ q) <=? zlen (queue_ q))
       || ((maxQueuedBytes (limits_ q) ⊖ queuedBytes_ q) <? bytes) then
    run modify (count_rejected 1 0 0) ;; ret QueueFull
  else
    let c := if enqueuedAt c =? 0 then with_enqueuedAt now c else c in
    run modify (set_bytes (queuedBytes_ q ⊕ bytes)) ;;
    run throw_if (negb mem) bad_alloc ;;
    run modify (pushed c) ;;
    ret Accepted.

(** One turn of the loop of [drain]: the front command leaves. *)
Definition pop (c : GameCommand) (rest : list GameCommand) (q : GameCommandQueue) : GameCommandQueue :=
  mkQueue (limits_ q) rest (queuedBytes_ q ⊖ payload_size c) (depthHighWatermark_ q)
    (bytesHighWatermark_ q) (accepted_ q) (rejectedFull_ q) (rejectedPayload_ q)
    (rejectedStopped_ q) (droppedOnStop_ q) (droppedBytesOnStop_ q) (accepting_ q).

Fixpoint pop_n (n : nat) (q : GameCommandQueue) : list GameCommand * GameCommandQueue :=
  match n, queue_ q with
  | S k, c :: rest => let '(cs, q') := pop_n k (pop c rest q) in (c :: cs, q')
  | _, _ => ([], q)
  end.

(** [mem]: the allocation of [result.reserve(count)] succeeds. *)
Definition drain (mem : bool) (max : Z) (q : GameCommandQueue) :
    result (list GameCommand) * GameCommandQueue :=
  let count := Z.min max (zlen (queue_ q)) in
  if (0 <? count) && negb mem then (Throw bad_alloc, q)
  else let '(cs, q') := pop_n (Z.to_nat count) q in (Ok cs, q').

Record QueueSnapshot := mkSnapshot {
  depth : Z;
  queuedBytes : Z;
  depthHighWatermark : Z;
  bytesHighWatermark : Z;
  accepted : Z;
  rejectedFull : Z;
  rejectedPayload : Z;
  rejectedStopped : Z;
  rejectedStale : Z;
  droppedStale : Z;
  droppedOnStop : Z;
  droppedBytesOnStop : Z;
  accepting : bool;
}.

Definition snapshot (q : GameCommandQueue) : QueueSnapshot :=
  mkSnapshot (zlen (queue_ q)) (queuedBytes_ q) (depthHighWatermark_ q) (bytesHighWatermark_ q)
    (accepted_ q) (rejectedFull_ q) (rejectedPayload_ q) (rejectedStopped_ q) 0 0
    (droppedOnStop_ q) (droppedBytesOnStop_ q) (accepting_ q).

Definition close (q : GameCommandQueue) : GameCommandQueue :=
  mkQueue (limits_ q) (queue_ q) (queuedBytes_ q) (depthHighWatermark_ q) (bytesHighWatermark_ q)
    (accepted_ q) (rejectedFull_ q) (rejectedPayload_ q) (rejectedStopped_ q) (droppedOnStop_ q)
    (droppedBytesOnStop_ q) false.

Record QueueDiscardSummary := mkDiscard { droppedCommands : Z; droppedBytes : Z }.

Definition closeAndDiscard (q : GameCommandQueue) : QueueDiscardSummary * GameCommandQueue :=
  let summary := mkDiscard (zlen (queue_ q)) (queuedBytes_ q) in
  (summary,
   mkQueue (limits_ q) [] 0 (depthHighWatermark_ q) (bytesHighWatermark_ q) (accepted_ q)
     (rejectedFull_ q) (rejectedPayload_ q) (rejectedStopped_ q)
     (droppedOnStop_ q ⊕ droppedCommands summary) (droppedBytesOnStop_ q ⊕ droppedBytes summary) false).

(** *** Invariant *)

Definition limits_ok (l : QueueLimits) : Prop :=
  1 <= maxCommands l < usize_lim /\ 1 <= maxPayloadBytes l <= maxQueuedBytes l /\
  maxQueuedBytes l < usize_lim.

(** The byte count exceeds the queued payloads by exactly [leak], both limits
    hold, and the watermarks dominate. *)
Record queue_leak (leak : Z) (q : GameCommandQueue) : Prop := {
  q_limits : limits_ok (limits_ q);
  q_leak : 0 <= leak;
  q_bytes : queuedBytes_ q = zsum payload_size (queue_ q) + leak;
  q_max_bytes : queuedBytes_ q <= maxQueuedBytes (limits_ q);
  q_depth : zlen (queue_ q) <= maxCommands (limits_ q);
  q_payload : Forall (fun c => payload_size c <= maxPayloadBytes (limits_ q)) (queue_ q);
  q_marks : zlen (queue_ q) <= depthHighWatermark_ q <= maxCommands (limits_ q) /\
    zsum payload_size (queue_ q) <= bytesHighWatermark_ q <= maxQueuedBytes (limits_ q);
}.

(** The byte count is exact. *)
Definition queue_ok : GameCommandQueue -> Prop := queue_leak 0.

Lemma payload_size_nonneg c : 0 <= payload_size c.
Proof. apply zlen_nonneg. Qed.

Lemma GameCommandQueue_new_ok l q :
  is_usize (maxCommands l) -> is_usize (maxQueuedBytes l) -> is_usize (maxPayloadBytes l) ->
  GameCommandQueue_new l = Ok q -> queue_ok q /\ queue_ q = [] /\ limits_ q = l.
Proof.
  unfold GameCommandQueue_new, is_usize. intros H1 H2 H3 Hn.
  destruct (_ || _) eqn:E; [done|]. zify_bools. simplify_eq.
  split_and!; try done. split; simpl; unfold limits_ok, zlen; simpl; try lia. constructor.
Qed.

(** How [submit] answers. *)
Lemma submit_ok mem now c k q :
  queue_leak k q ->
  exists r q', submit mem now c q = (r, q') /\ limits_ q' = limits_ q /\
    accepting_ q' = accepting_ q /\ droppedOnStop_ q' = droppedOnStop_ q /\
    droppedBytesOnStop_ q' = droppedBytesOnStop_ q /\
    queue_leak (match r with Ok _ => k | Throw _ => k + payload_size c end) q' /\
    match r with
    | Throw e => e = bad_alloc /\ mem = false /\ queue_ q' = queue_ q /\
        accepted_ q' = accepted_ q /\ accepting_ q = true
    | Ok Accepted => exists c', queue_ q' = queue_ q ++ [c'] /\ accepted_ q' = accepted_ q ⊕ 1 /\
        accepting_ q = true /\ c' = (if enqueuedAt c =? 0 then with_enqueuedAt now c else c)
    | Ok Stopped => queue_ q' = queue_ q /\ accepted_ q' = accepted_ q /\ accepting_ q = false /\
        rejectedStopped_ q' = rejectedStopped_ q ⊕ 1
    | Ok PayloadTooLarge => queue_ q' = queue_ q /\ accepted_ q' = accepted_ q /\ accepting_ q = true /\
        maxPayloadBytes (limits_ q) < payload_size c
    | Ok QueueFull => queue_ q' = queue_ q /\ accepted_ q' = accepted_ q /\ accepting_ q = true /\
        (zlen (queue_ q) = maxCommands (limits_ q) \/
         maxQueuedBytes (limits_ q) < queuedBytes_ q + payload_size c)
    | Ok StaleBinding => False
    end.
Proof.
  intros [Hl Hk Hb Hmb Hd Hp [Hm1 Hm2]]. pose proof (zsum_nonneg payload_size (queue_ q) payload_size_nonneg).
  pose proof (payload_size_nonneg c). destruct Hl as (Hl1 & Hl2 & Hl3) eqn:El. clear El.
  unfold submit. step_m. destruct (accepting_ q) eqn:Ha; simpl.
  2: { eexists (Ok Stopped), _. split; [done|]. split_and!; done || by constructor. }
  destruct (Z.ltb_spec (maxPayloadBytes (limits_ q)) (payload_size c)).
  { eexists (Ok PayloadTooLarge), _. split; [done|]. split_and!; done || by constructor. }
  rewrite (uwrap_small (maxQueuedBytes (limits_ q) - queuedBytes_ q)) by lia.
  destruct (_ || _) eqn:E.
  { eexists (Ok QueueFull), _. split; [done|]. split_and!; try done.
    apply orb_true_iff in E. rewrite Z.leb_le, Z.ltb_lt in E. lia. }
  zify_bools. rewrite (uwrap_small (queuedBytes_ q + payload_size c)) by lia.
  set (c' := if enqueuedAt c =? 0 then with_enqueuedAt now c else c).
  assert (payload_size c' = payload_size c) as Hc' by (unfold c'; by destruct (enqueuedAt c =? 0)).
  destruct mem; simpl; cycle 1.
  { eexists (Throw _), _. split; [done|]. split_and!; try done. split; simpl; try done; lia. }
  eexists (Ok Accepted), _. split; [done|].
  assert (zlen (queue_ q ++ [c']) = zlen (queue_ q) + 1) as Hz by (rewrite zlen_app; unfold zlen; simpl; lia).
  assert (zsum payload_size (queue_ q ++ [c']) = zsum payload_size (queue_ q) + payload_size c) as Hs
    by (rewrite zsum_app; unfold zsum at 2; simpl; lia).
  split_and!; try done; [|exists c'; by split_and!].
  split; simpl; rewrite ?Hz, ?Hs; try done; try lia.
  - apply Forall_app. split; [done|]. repeat constructor. lia.
Qed.

Lemma pop_n_ok k n q :
  queue_leak k q ->
  let '(cs, q') := pop_n n q in
  queue_leak k q' /\ cs = take n (queue_ q) /\ queue_ q' = drop n (queue_ q) /\
  limits_ q' = limits_ q /\ accepting_ q' = accepting_ q /\ accepted_ q' = accepted_ q /\
  droppedOnStop_ q' = droppedOnStop_ q /\ droppedBytesOnStop_ q' = droppedBytesOnStop_ q.
Proof.
  revert q. induction n as [|n IH]; intros q Hq; simpl; [by rewrite drop_0; split_and!|].
  destruct (queue_ q) as [|c rest] eqn:E; [rewrite E; by split_and!|].
  assert (queue_leak k (pop c rest q)) as Hq'.
  { destruct Hq as [Hl Hk Hb Hmb Hd Hp [Hm1 Hm2]]. rewrite E in *.
    assert (zlen (c :: rest) = zlen rest + 1) as Hz by (unfold zlen; simpl; lia).
    assert (zsum payload_size (c :: rest) = payload_size c + zsum payload_size rest) as Hs by done.
    pose proof (payload_size_nonneg c). pose proof (zsum_nonneg payload_size rest payload_size_nonneg).
    destruct Hl as (? & ? & ?). apply Forall_cons in Hp as [? ?].
    split; simpl; rewrite ?uwrap_small by lia; try done; lia. }
  specialize (IH _ Hq'). destruct (pop_n n (pop c rest q)) as [cs q'].
  destruct IH as (? & -> & ? & ? & ? & ? & ? & ?). by split_and!.
Qed.

Lemma drain_ok mem k max q :
  queue_leak k q -> 0 <= max ->
  let '(r, q') := drain mem max q in
  match r with
  | Ok cs => queue_ q = cs ++ queue_ q' /\ zlen cs = Z.min max (zlen (queue_ q))
  | Throw e => e = bad_alloc /\ mem = false /\ q' = q
  end /\
  queue_leak k q' /\ limits_ q' = limits_ q /\ accepting_ q' = accepting_ q /\ accepted_ q' = accepted_ q /\
  droppedOnStop_ q' = droppedOnStop_ q /\ droppedBytesOnStop_ q' = droppedBytesOnStop_ q.
Proof.
  intros Hq Hm. unfold drain. destruct (_ && _) eqn:E; [zify_bools; split_and!; try done; by destruct mem|].
  pose proof (pop_n_ok k (Z.to_nat (Z.min max (zlen (queue_ q)))) q Hq) as Hp.
  destruct (pop_n _ q) as [cs q']. destruct Hp as (? & -> & -> & ?). split_and!; try tauto.
  - by rewrite take_drop.
  - unfold zlen in *. rewrite length_take. lia.
Qed.

Lemma closeAndDiscard_ok k q :
  queue_leak k q -> queue_ok (snd (closeAndDiscard q)).
Proof.
  intros [Hl Hk Hb Hmb Hd Hp Hm]. pose proof (zsum_nonneg payload_size (queue_ q) payload_size_nonneg).
  pose proof (zlen_nonneg (queue_ q)). destruct Hl as (? & ? & ?) eqn:E. clear E.
  split; simpl; try done; try (unfold zlen; simpl; lia).
Qed.
End Queue.

(** ** The logic loop *)

Module Loop.
Import Queue.

Inductive LogicLoopState := Created | Running | Stopping | Stopped.

Global Instance LogicLoopState_eq_dec : EqDecision LogicLoopState.
Proof. solve_decision. Defined.

Record LogicLoopOptions := mkOptions {
  tickInterval : Z;
  maxCommandsPerTick : Z;
  queueLimits : QueueLimits;
}.

Record LogicTickMetric := mkMetric {
  tick_no : Z;
  drained : Z;
  produced : Z;
  metric_queue : QueueSnapshot;
}.

(** The callbacks are user code; only their presence is state.  [timerArmed]:
    the tick timer is registered and not cancelled. *)
Record LogicLoop := mkLoop {
  options_ : LogicLoopOptions;
  loop_queue : GameCommandQueue;
  handler_ : bool;
  outputCallback_ : bool;
  metricCallback_ : bool;
  timerArmed : bool;
  tickCount_ : Z;
  state_ : LogicLoopState;
  rejectedStale_ : Z;
  droppedStale_ : Z;
  alive : bool;                 (** [lifetimeState_->active()] *)
}.

Definition set_queue (q : GameCommandQueue) (l : LogicLoop) : LogicLoop :=
  mkLoop (options_ l) q (handler_ l) (outputCallback_ l) (metricCallback_ l) (timerArmed l)
    (tickCount_ l) (state_ l) (rejectedStale_ l) (droppedStale_ l) (alive l).
Definition set_state (timer : bool) (st : LogicLoopState) (l : LogicLoop) : LogicLoop :=
  mkLoop (options_ l) (loop_queue l) (handler_ l) (outputCallback_ l) (metricCallback_ l) timer
    (tickCount_ l) st (rejectedStale_ l) (droppedStale_ l) (alive l).
Definition set_stale (rejected dropped : Z) (l : LogicLoop) : LogicLoop :=
  mkLoop (options_ l) (loop_queue l) (handler_ l) (outputCallback_ l) (metricCallback_ l)
    (timerArmed l) (tickCount_ l) (state_ l) rejected dropped (alive l).
Definition set_callbacks (h o m : bool) (l : LogicLoop) : LogicLoop :=
  mkLoop (options_ l) (loop_queue l) h o m (timerArmed l) (tickCount_ l) (state_ l)
    (rejectedStale_ l) (droppedStale_ l) (alive l).
Definition set_tick (n : Z) (l : LogicLoop) : LogicLoop :=
  mkLoop (options_ l) (loop_queue l) (handler_ l) (outputCallback_ l) (metricCallback_ l)
    (timerArmed l) n (state_ l) (rejectedStale_ l) (droppedStale_ l) (alive l).
Definition set_dead (l : LogicLoop) : LogicLoop :=
  mkLoop (options_ l) (loop_queue l) (handler_ l) (outputCallback_ l) (metricCallback_ l)
    (timerArmed l) (tickCount_ l) (state_ l) (rejectedStale_ l) (droppedStale_ l) false.

Definition LogicLoop_new (o : LogicLoopOptions) : result LogicLoop :=
  match GameCommandQueue_new (queueLimits o) with
  | Throw e => Throw e
  | Ok q =>
      if (tickInterval o <=? 0) || (maxCommandsPerTick o =? 0) then Throw invalid_argument
      else Ok (mkLoop o q false false false false 0 Created 0 0 true)
  end.

(** [timer_ok]: [runEvery] does not throw. *)
Definition start (timer_ok : bool) : M LogicLoop unit :=
  do l <- get ;;
  match state_ l with
  | Running => ret tt
  | Created =>
      run throw_if (negb (handler_ l)) logic_error ;;
      run modify (set_state (timerArmed l) Running) ;;
      if timer_ok then modify (set_state true Running)
      else run modify (set_state (timerArmed l) Created) ;; throw runtime_error
  | _ => throw logic_error
  end.

Definition stop (l : LogicLoop) : QueueDiscardSummary * LogicLoop :=
  match state_ l with
  | Stopped | Stopping => (mkDiscard 0 0, l)
  | current =>
      let l1 := set_state (timerArmed l) Stopping l in
      let l2 := match current with Running => set_state false Stopping l1 | _ => l1 end in
      let '(discarded, q) := closeAndDiscard (loop_queue l2) in
      (discarded, set_state (timerArmed l2) Stopped (set_queue q l2))
  end.

Definition stale (st : gmap Z Z) (c : GameCommand) : bool :=
  tracked (cmd_binding c) && negb (isCurrent st (cmd_binding c)).

Definition queueSnapshot (l : LogicLoop) : QueueSnapshot :=
  let s := snapshot (loop_queue l) in
  mkSnapshot (depth s) (queuedBytes s) (depthHighWatermark s) (bytesHighWatermark s) (accepted s)
    (rejectedFull s) (rejectedPayload s) (rejectedStopped s) (rejectedStale_ l) (droppedStale_ l)
    (droppedOnStop s) (droppedBytesOnStop s) (accepting s).

(** *** Interleaving machine *)

(** Where the owner thread is inside [tick]: between commands, inside the
    handler or inside the output callback, with the commands still to run,
    [produced] and [commands.size()]. *)
Inductive Phase :=
  | Idle
  | Between (rest : list GameCommand) (produced drained : Z)
  | InHandler (rest : list GameCommand) (produced drained : Z) (output : bool)
  | InOutput (rest : list GameCommand) (produced drained : Z).

Definition phase_rest (p : Phase) : list GameCommand :=
  match p with
  | Idle => []
  | Between r _ _ | InHandler r _ _ _ | InOutput r _ _ => r
  end.

(** What became of a drained command: given to the handler or dropped as stale
    (with the binding states at that moment), or abandoned when a callback
    threw or the loop was destroyed. *)
Inductive Outcome :=
  | Handled (st : gmap Z Z)
  | DroppedStale (st : gmap Z Z)
  | Abandoned.

(** The loop, the shared binding states, submissions past their binding check,
    and the history: accepted commands, outcomes, discarded commands, outputs,
    metrics, and the commands whose [push_back] threw. *)
Record Machine := mkMachine {
  loop : LogicLoop;
  bindings : gmap Z Z;
  inflight : list GameCommand;
  phase : Phase;
  h_accepted : list GameCommand;
  h_outcomes : list (GameCommand * Outcome);
  h_discarded : list GameCommand;
  h_outputs : list GameCommand;
  h_metrics : list LogicTickMetric;
  h_lost : list GameCommand;
}.

Definition upd_loop (l : LogicLoop) (m : Machine) : Machine :=
  mkMachine l (bindings m) (inflight m) (phase m) (h_accepted m) (h_outcomes m) (h_discarded m)
    (h_outputs m) (h_metrics m) (h_lost m).
Definition upd_inflight (i : list GameCommand) (a : list GameCommand) (m : Machine) : Machine :=
  mkMachine (loop m) (bindings m) i (phase m) a (h_outcomes m) (h_discarded m)
    (h_outputs m) (h_metrics m) (h_lost m).
Definition upd_phase (p : Phase) (o : list (GameCommand * Outcome)) (m : Machine) : Machine :=
  mkMachine (loop m) (bindings m) (inflight m) p (h_accepted m) (h_outcomes m ++ o) (h_discarded m)
    (h_outputs m) (h_metrics m) (h_lost m).
Definition upd_discarded (d : list GameCommand) (m : Machine) : Machine :=
  mkMachine (loop m) (bindings m) (inflight m) (phase m) (h_accepted m) (h_outcomes m)
    (h_discarded m ++ d) (h_outputs m) (h_metrics m) (h_lost m).
Definition upd_lost (c : GameCommand) (m : Machine) : Machine :=
  mkMachine (loop m) (bindings m) (inflight m) (phase m) (h_accepted m) (h_outcomes m)
    (h_discarded m) (h_outputs m) (h_metrics m) (h_lost m ++ [c]).

(** The tick gives up on its remaining commands. *)
Definition abandon (m : Machine) : Machine :=
  upd_phase Idle ((fun c => (c, Abandoned)) <$> phase_rest (phase m)) m.

(** [mem] says whether the allocation of that step succeeds: of [push_back], of
    the batch's [reserve], or of the copies of the callbacks. *)
Inductive Label :=
  | LBindings (st : gmap Z Z)             (** sessions change, on any thread *)
  | LSubmit (c : GameCommand)             (** a producer passes the binding check *)
  | LEnqueue (i : nat) (mem : bool) (now : Z) (** ... and reaches the queue *)
  | LCallbacks (h o mt : bool)            (** set... on the owner thread *)
  | LStart (timer_ok : bool)
  | LStop
  | LDestroy
  | LTick (mem : bool)                    (** the timer fires *)
  | LNext (mem : bool)                    (** the tick takes its next command *)
  | LHandlerReturn (output : option GameCommand)
  | LHandlerThrow
  | LOutputReturn
  | LOutputThrow.

(** User code runs on the owner thread: outside a tick or inside a callback. *)
Definition owner_free (m : Machine) : bool :=
  alive (loop m) && match phase m with Between _ _ _ => false | _ => true end.

Definition do_stop (m : Machine) : Machine :=
  upd_loop (snd (stop (loop m)))
    (upd_discarded (match state_ (loop m) with
                    | Stopped | Stopping => []
                    | _ => queue_ (loop_queue (loop m))
                    end) m).

(** After the last command of a batch. *)
Definition finish_tick (mem : bool) (p d : Z) (m : Machine) : Machine :=
  if negb (alive (loop m)) then upd_phase Idle [] m
  else
    let l := set_tick (tickCount_ (loop m) ⊕ 1) (loop m) in
    let m1 := upd_phase Idle [] (upd_loop l m) in
    if metricCallback_ l && mem then
      mkMachine (loop m1) (bindings m1) (inflight m1) (phase m1) (h_accepted m1) (h_outcomes m1)
        (h_discarded m1) (h_outputs m1)
        (h_metrics m1 ++ [mkMetric (tickCount_ l) d p (queueSnapshot l)]) (h_lost m1)
    else m1.

Definition step (lb : Label) (m : Machine) : option Machine :=
  match lb with
  | LBindings st =>
      Some (mkMachine (loop m) st (inflight m) (phase m) (h_accepted m) (h_outcomes m)
              (h_discarded m) (h_outputs m) (h_metrics m) (h_lost m))
  | LSubmit c =>
      if negb (alive (loop m)) then None
      else if stale (bindings m) c
      then Some (upd_loop (set_stale (rejectedStale_ (loop m) ⊕ 1) (droppedStale_ (loop m)) (loop m)) m)
      else Some (upd_inflight (inflight m ++ [c]) (h_accepted m) m)
  | LEnqueue i mem now =>
      if negb (alive (loop m)) then None
      else match inflight m !! i with
      | None => None
      | Some c =>
          match Queue.submit mem now c (loop_queue (loop m)) with
          | (Ok Accepted, q) =>
              Some (upd_loop (set_queue q (loop m))
                      (upd_inflight (delete i (inflight m))
                         (h_accepted m ++ [if enqueuedAt c =? 0 then with_enqueuedAt now c else c]) m))
          | (Ok _, q) =>
              Some (upd_loop (set_queue q (loop m)) (upd_inflight (delete i (inflight m)) (h_accepted m) m))
          | (Throw _, q) =>
              Some (upd_loop (set_queue q (loop m))
                      (upd_lost c (upd_inflight (delete i (inflight m)) (h_accepted m) m)))
          end
      end
  | LCallbacks h o mt => if owner_free m then Some (upd_loop (set_callbacks h o mt (loop m)) m) else None
  | LStart timer_ok => if owner_free m then Some (upd_loop (snd (start timer_ok (loop m))) m) else None
  | LStop => if owner_free m then Some (do_stop m) else None
  | LDestroy =>
      if owner_free m then
        let m1 := upd_loop (set_dead (loop m)) m in
        Some (match state_ (loop m) with Running => do_stop m1 | _ => m1 end)
      else None
  | LTick mem =>
      match phase m with
      | Idle =>
          if timerArmed (loop m) && alive (loop m) then
            match state_ (loop m) with
            | Running =>
                match drain mem (maxCommandsPerTick (options_ (loop m))) (loop_queue (loop m)) with
                | (Ok cs, q) =>
                    Some (upd_phase (Between cs 0 (zlen cs)) [] (upd_loop (set_queue q (loop m)) m))
                | (Throw _, q) => Some (upd_loop (set_queue q (loop m)) m)
                end
            | _ => Some m
            end
          else None
      | _ => None
      end
  | LNext mem =>
      match phase m with
      | Between [] p d => Some (finish_tick mem p d m)
      | Between (c :: rest) p d =>
          if stale (bindings m) c then
            Some (upd_phase (Between rest p d) [(c, DroppedStale (bindings m))]
                    (upd_loop (set_stale (rejectedStale_ (loop m)) (droppedStale_ (loop m) ⊕ 1) (loop m)) m))
          else if handler_ (loop m) && mem then
            Some (upd_phase (InHandler rest p d (outputCallback_ (loop m))) [(c, Handled (bindings m))] m)
          else (* copying the callbacks, or calling an empty std::function, throws *)
            Some (abandon m)
      | _ => None
      end
  | LHandlerReturn out =>
      match phase m with
      | InHandler rest p d cb =>
          if negb (alive (loop m)) then Some (abandon m)
          else match out, cb with
          | Some o, true =>
              if stale (bindings m) o then
                Some (upd_phase (Between rest p d) []
                        (upd_loop (set_stale (rejectedStale_ (loop m)) (droppedStale_ (loop m) ⊕ 1) (loop m)) m))
              else
                let m1 := upd_phase (InOutput rest (p ⊕ 1) d) [] m in
                Some (mkMachine (loop m1) (bindings m1) (inflight m1) (phase m1) (h_accepted m1)
                        (h_outcomes m1) (h_discarded m1) (h_outputs m1 ++ [o]) (h_metrics m1) (h_lost m1))
          | _, _ => Some (upd_phase (Between rest p d) [] m)
          end
      | _ => None
      end
  | LHandlerThrow => match phase m with InHandler _ _ _ _ => Some (abandon m) | _ => None end
  | LOutputReturn =>
      match phase m with
      | InOutput rest p d =>
          if negb (alive (loop m)) then Some (abandon m) else Some (upd_phase (Between rest p d) [] m)
      | _ => None
      end
  | LOutputThrow => match phase m with InOutput _ _ _ => Some (abandon m) | _ => None end
  end.

Fixpoint steps (lbs : list Label) (m : Machine) : option Machine :=
  match lbs with
  | [] => Some m
  | lb :: lbs => match step lb m with Some m' => steps lbs m' | None => None end
  end.

Definition initial (l : LogicLoop) (st : gmap Z Z) : Machine :=
  mkMachine l st [] Idle [] [] [] [] [] [].

(** *** Invariant *)

Definition outcome_ok (x : GameCommand * Outcome) : Prop :=
  match snd x with
  | Handled st => stale st (fst x) = false
  | DroppedStale st => stale st (fst x) = true
  | Abandoned => True
  end.

(** Each command of the batch produces at most one output. *)
Definition phase_ok (max : Z) (p : Phase) : Prop :=
  match p with
  | Idle => True
  | Between r p d | InOutput r p d => 0 <= p /\ p + zlen r <= d <= max
  | InHandler r p d _ => 0 <= p /\ p + 1 + zlen r <= d <= max
  end.

Definition metric_ok (max : Z) (x : LogicTickMetric) : Prop :=
  0 <= produced x <= drained x /\ drained x <= max.

(** The queue accepts until [stop], which is final. *)
Definition lifecycle_ok (m : Machine) : Prop :=
  let q := loop_queue (loop m) in
  (accepting_ q = true /\ h_discarded m = [] /\ (state_ (loop m) = Created \/ state_ (loop m) = Running)) \/
  (accepting_ q = false /\ queue_ q = [] /\ state_ (loop m) = Stopped).

(** The bytes of the lost commands, which stay counted as queued until [stop]
    counts them as dropped. *)
Definition lost_bytes (m : Machine) : Z := zsum payload_size (h_lost m).

Record minv (m : Machine) : Prop := {
  i_options : 1 <= maxCommandsPerTick (options_ (loop m)) < usize_lim;
  i_queue : queue_leak (if accepting_ (loop_queue (loop m)) then lost_bytes m else 0)
    (loop_queue (loop m));
  i_history : h_accepted m =
    (h_outcomes m).*1 ++ phase_rest (phase m) ++ h_discarded m ++ queue_ (loop_queue (loop m));
  i_lifecycle : lifecycle_ok m;
  i_outcomes : Forall outcome_ok (h_outcomes m);
  i_phase : phase_ok (maxCommandsPerTick (options_ (loop m))) (phase m);
  i_metrics : Forall (metric_ok (maxCommandsPerTick (options_ (loop m)))) (h_metrics m);
  i_accepted : accepted_ (loop_queue (loop m)) = uwrap (zlen (h_accepted m));
  i_dropped : droppedOnStop_ (loop_queue (loop m)) = uwrap (zlen (h_discarded m)) /\
    droppedBytesOnStop_ (loop_queue (loop m)) = uwrap (zsum payload_size (h_discarded m) +
      (if accepting_ (loop_queue (loop m)) then 0 else lost_bytes m));
}.

Lemma uwrap_add a b : uwrap a ⊕ b = uwrap (a + b).
Proof. unfold uwrap. apply Zplus_mod_idemp_l. Qed.

(** A step that leaves queue, lifecycle and history alone. *)
Lemma minv_loop m l :
  minv m -> loop_queue l = loop_queue (loop m) -> options_ l = options_ (loop m) ->
  state_ l = state_ (loop m) -> minv (upd_loop l m).
Proof.
  intros [Ho Hq Hh Hl Hoc Hp Hm Ha Hd] Eq Eo Es. unfold lifecycle_ok in Hl.
  constructor; unfold lifecycle_ok; simpl; rewrite ?Eq, ?Eo, ?Es; done.
Qed.

Lemma minv_phase m p o :
  minv m -> (h_outcomes m).*1 ++ phase_rest (phase m) = (h_outcomes m ++ o).*1 ++ phase_rest p ->
  Forall outcome_ok o -> phase_ok (maxCommandsPerTick (options_ (loop m))) p ->
  minv (upd_phase p o m).
Proof.
  intros [Ho Hq Hh Hl Hoc Hp Hm Ha Hd] Er Hok Hpk. constructor; simpl; try done.
  - rewrite Hh, !app_assoc. f_equal. rewrite <- !app_assoc. rewrite !app_assoc, Er. done.
  - by apply Forall_app.
Qed.

Lemma minv_abandon m : minv m -> minv (abandon m).
Proof.
  intros Hm. apply minv_phase; [done| | |done].
  - rewrite fmap_app, <- list_fmap_compose. simpl. rewrite app_nil_r. f_equal.
    symmetry. apply list_fmap_id.
  - apply Forall_forall. intros x (c & -> & _)%list_elem_of_fmap. done.
Qed.

Lemma stop_eq l :
  state_ l = Created \/ state_ l = Running ->
  exists t, stop l = (fst (closeAndDiscard (loop_queue l)),
    set_state t Stopped (set_queue (snd (closeAndDiscard (loop_queue l))) l)).
Proof. unfold stop. intros [-> | ->]; eexists; done. Qed.

Lemma minv_do_stop m : minv m -> minv (do_stop m) /\ state_ (loop (do_stop m)) = Stopped.
Proof.
  intros Hm. destruct Hm as [Ho Hq Hh Hl Hoc Hp Hmt Ha [Hd1 Hd2]] eqn:E. clear E.
  unfold do_stop. destruct Hl as [(Hacc & Hdis & Hst)|(Hacc & Hnil & Hst)].
  2: { unfold stop. rewrite Hst. simpl. unfold upd_discarded. rewrite app_nil_r. split; [|done].
       by destruct m. }
  destruct (stop_eq (loop m) Hst) as [t ->].
  assert ((match state_ (loop m) with Stopped | Stopping => [] | _ => queue_ (loop_queue (loop m)) end)
    = queue_ (loop_queue (loop m))) as -> by (by destruct Hst as [-> | ->]).
  set (q := loop_queue (loop m)) in *.
  split; [|done]. constructor; simpl; try done.
  - by eapply closeAndDiscard_ok.
  - rewrite Hh, app_nil_r. done.
  - right. done.
  - rewrite Hd1, Hd2, !uwrap_add, zlen_app, zsum_app, (q_bytes _ _ Hq).
    unfold q in *. rewrite Hacc. split; [done|]. f_equal. unfold lost_bytes. simpl. lia.
Qed.

Lemma minv_enqueue m i c mem now m' :
  minv m -> inflight m !! i = Some c -> step (LEnqueue i mem now) m = Some m' -> minv m'.
Proof.
  intros [Ho Hq Hh Hl Hoc Hp Hmt Ha [Hd1 Hd2]] Hi. unfold step. rewrite Hi.
  destruct (negb (alive (loop m))); [done|].
  destruct (submit_ok mem now c _ _ Hq) as (r & q' & -> & Hlim & Hacc & Hdc & Hdb & Hq' & Hr).
  assert (forall i' a, queue_leak (if accepting_ q' then lost_bytes m else 0) q' ->
    h_accepted m ++ a = (h_outcomes m).*1 ++ phase_rest (phase m) ++ h_discarded m ++ queue_ q' ->
    (accepting_ q' = false -> queue_ q' = []) ->
    accepted_ q' = uwrap (zlen (h_accepted m ++ a)) ->
    minv (upd_loop (set_queue q' (loop m)) (upd_inflight i' (h_accepted m ++ a) m))) as Hfin.
  { intros i' a Ea Eh En Ec. constructor; simpl; try done.
    - destruct Hl as [(? & ? & ?)|(? & ? & ?)]; [left|right]; simpl; split_and!; try congruence; auto.
      apply En. congruence.
    - rewrite Hdc, Hdb, Hacc. done. }
  destruct r as [r|e]; cycle 1.
  { destruct Hr as (-> & _ & Hqq & Haa & Hon). intros [= <-]. rewrite Hon in Hacc, Hq'.
    constructor; simpl; rewrite ?Hlim, ?Hqq, ?Haa, ?Hdc, ?Hdb, ?Hacc; try done.
    - unfold lost_bytes. simpl. rewrite zsum_app. unfold zsum at 2. simpl. by rewrite Z.add_0_r.
    - destruct Hl as [(_ & ? & ?)|(? & _)]; [left; by split_and!|congruence].
    - by rewrite Hd2, Hon. }
  rewrite Hacc in Hfin.
  assert (queue_ q' = queue_ (loop_queue (loop m)) -> accepted_ q' = accepted_ (loop_queue (loop m)) ->
    minv (upd_loop (set_queue q' (loop m)) (upd_inflight (delete i (inflight m)) (h_accepted m) m))) as Hno.
  { intros Eq Ea. specialize (Hfin (delete i (inflight m)) []). rewrite app_nil_r in Hfin.
    apply Hfin; [done|by rewrite Eq| |congruence]. intros Hf. rewrite Eq.
    destruct Hl as [(? & _)|(_ & ? & _)]; [congruence|done]. }
  destruct r.
  - destruct Hr as (c' & Hqq & Haa & Hon & ->). intros [= <-]. apply Hfin; try done.
    + rewrite Hh, Hqq, <- !app_assoc. done.
    + congruence.
    + rewrite Haa, Ha, uwrap_add, zlen_app. done.
  - destruct Hr as (? & ? & _). intros [= <-]. by apply Hno.
  - destruct Hr as (? & ? & _). intros [= <-]. by apply Hno.
  - destruct Hr as (? & ? & _). intros [= <-]. by apply Hno.
  - done.
Qed.

Lemma minv_tick mem m m' : minv m -> step (LTick mem) m = Some m' -> minv m'.
Proof.
  intros Hm. destruct Hm as [Ho Hq Hh Hl Hoc Hp Hmt Ha [Hd1 Hd2]] eqn:E. clear E.
  unfold step. destruct (phase m) eqn:Hph; try done. destruct (_ && _); [|done].
  destruct (state_ (loop m)) eqn:Hst; try (by intros [= <-]).
  pose proof (drain_ok mem _ (maxCommandsPerTick (options_ (loop m))) _ Hq ltac:(lia)) as Hdr.
  destruct (drain _ _ _) as [[cs|e] q].
  2: { destruct Hdr as ((_ & _ & ->) & _). intros [= <-]. apply minv_loop; done. }
  destruct Hdr as ((Hqq & Hlen) & Hq' & Hlim & Hacc & Hca & Hdc & Hdb).
  intros [= <-]. pose proof (zlen_nonneg cs). constructor; simpl; try done.
  - by rewrite Hacc.
  - rewrite app_nil_r, Hh, Hqq. simpl. destruct Hl as [(_ & -> & _)|(_ & _ & ?)]; [done|congruence].
  - unfold lifecycle_ok in *. simpl. rewrite Hacc. destruct Hl as [(? & ? & ?)|(_ & _ & ?)]; [auto|congruence].
  - by rewrite app_nil_r.
  - lia.
  - by rewrite Hca.
  - by rewrite Hdc, Hdb, Hacc.
Qed.

Lemma minv_finish mem m p d :
  minv m -> phase m = Between [] p d -> minv (finish_tick mem p d m).
Proof.
  intros Hm Hph. assert (minv (upd_phase Idle [] m)) as Hm1.
  { apply minv_phase; [done| |constructor|done]. by rewrite Hph, !app_nil_r. }
  unfold finish_tick. destruct (negb _); [done|].
  set (l := set_tick _ _). assert (minv (upd_phase Idle [] (upd_loop l m))) as Hm2.
  { apply (minv_loop _ l Hm1); done. }
  destruct (metricCallback_ l && mem); [|done].
  destruct Hm2 as [? ? ? ? ? ? Hmt ? ?]. constructor; try done. simpl in *.
  apply Forall_app. split; [done|]. repeat constructor; simpl.
  all: pose proof (i_phase m Hm) as Hpk; rewrite Hph in Hpk; unfold phase_ok, zlen in Hpk; simpl in Hpk; lia.
Qed.

Lemma minv_step lb m m' : minv m -> step lb m = Some m' -> minv m'.
Proof.
  intros Hm Hs. pose proof (i_phase m Hm) as Hpk.
  assert (forall a d, minv (upd_loop (set_stale a d (loop m)) m)) as Hstale
    by (intros; by apply minv_loop).
  destruct lb as [st|c|i mem now|h o mt|tm| | |mem|mem|out| | |].
  - simpl in Hs. simplify_eq. destruct Hm. by constructor.
  - simpl in Hs. destruct (negb _); [done|]. destruct (stale _ _); simplify_eq; [done|].
    destruct Hm. by constructor.
  - destruct (inflight m !! i) as [c|] eqn:Hi; [by eapply minv_enqueue|].
    simpl in Hs. rewrite Hi in Hs. by destruct (negb _).
  - simpl in Hs. destruct (owner_free m); simplify_eq. by apply minv_loop.
  - simpl in Hs. destruct (owner_free m); simplify_eq. unfold start. step_m.
    destruct (state_ (loop m)) eqn:Hst; simpl; try (by apply minv_loop).
    destruct (handler_ (loop m)); simpl; [|by apply minv_loop].
    destruct tm; simpl; [|apply minv_loop; done].
    destruct Hm as [Ho Hq Hh Hl Hoc Hp Hmt Ha Hd]. constructor; simpl; try done.
    destruct Hl as [(? & ? & ?)|(? & ? & ?)]; [left|congruence]. simpl. auto.
  - simpl in Hs. destruct (owner_free m); simplify_eq. by apply minv_do_stop.
  - simpl in Hs. destruct (owner_free m); simplify_eq.
    assert (minv (upd_loop (set_dead (loop m)) m)) as Hm1 by (by apply minv_loop).
    destruct (state_ (loop m)); try done. by apply minv_do_stop.
  - by eapply minv_tick.
  - simpl in Hs. destruct (phase m) as [|rest p d| |] eqn:Hph; try done.
    destruct rest as [|c rest]; [simplify_eq; by apply minv_finish|]. simpl in Hpk.
    assert (zlen (c :: rest) = 1 + zlen rest) as Hz by (unfold zlen; simpl; lia).
    destruct (stale (bindings m) c) eqn:Hstl; [|destruct (handler_ (loop m) && mem)]; simplify_eq.
    + apply minv_phase; [done| |by repeat constructor|simpl; lia]. simpl.
      rewrite Hph, fmap_app, <- app_assoc. done.
    + apply minv_phase; [done| |by repeat constructor|simpl; lia].
      rewrite Hph, fmap_app, <- app_assoc. done.
    + by apply minv_abandon.
  - simpl in Hs. destruct (phase m) as [| |rest p d cb|] eqn:Hph; try done. simpl in Hpk.
    destruct (negb _); [simplify_eq; by apply minv_abandon|].
    assert (forall p', phase_rest p' = rest -> phase_ok (maxCommandsPerTick (options_ (loop m))) p' ->
      forall m1, minv m1 -> phase m1 = phase m -> h_outcomes m1 = h_outcomes m ->
        options_ (loop m1) = options_ (loop m) -> minv (upd_phase p' [] m1)) as Hgo.
    { intros p' Er Hok m1 Hm1 Ep Eo Eopt. apply minv_phase; [done| |constructor|by rewrite Eopt].
      by rewrite Ep, Hph, Er, app_nil_r. }
    destruct out as [o|]; [destruct cb|]; simplify_eq; try (apply Hgo; simpl; try done; lia).
    destruct (stale (bindings m) o); simplify_eq.
    + apply Hgo; simpl; try done; lia.
    + assert (p ⊕ 1 = p + 1) as Hw.
      { apply uwrap_small. pose proof (i_options m Hm). pose proof (zlen_nonneg rest). lia. }
      assert (minv (upd_phase (InOutput rest (p ⊕ 1) d) [] m)) as Hm1
        by (apply Hgo; simpl; try done; rewrite Hw; lia).
      destruct Hm1. by constructor.
  - simpl in Hs. destruct (phase m); simplify_eq. by apply minv_abandon.
  - simpl in Hs. destruct (phase m) as [| | |rest p d] eqn:Hph; try done. simpl in Hpk.
    destruct (negb _); simplify_eq; [by apply minv_abandon|].
    apply minv_phase; [done| |constructor|simpl; lia]. by rewrite Hph, app_nil_r.
  - simpl in Hs. destruct (phase m); simplify_eq. by apply minv_abandon.
Qed.

Lemma minv_steps lbs m m' : minv m -> steps lbs m = Some m' -> minv m'.
Proof.
  revert m. induction lbs as [|lb lbs IH]; intros m Hm Hs; simpl in Hs; [by simplify_eq|].
  destruct (step lb m) as [m1|] eqn:H1; [|done]. eapply IH; [|done]. by eapply minv_step.
Qed.

Definition usize_loop_options (o : LogicLoopOptions) : Prop :=
  is_usize (maxCommandsPerTick o) /\ is_usize (maxCommands (queueLimits o)) /\
  is_usize (maxQueuedBytes (queueLimits o)) /\ is_usize (maxPayloadBytes (queueLimits o)).

Lemma initial_ok o l st :
  usize_loop_options o -> LogicLoop_new o = Ok l ->
  minv (initial l st) /\ options_ l = o /\ limits_ (loop_queue l) = queueLimits o.
Proof.
  unfold usize_loop_options, is_usize, LogicLoop_new. intros (H1 & H2 & H3 & H4) Hn.
  destruct (GameCommandQueue_new _) as [q|] eqn:Hq; [|done]. destruct (_ || _) eqn:E; [done|].
  zify_bools. simplify_eq. pose proof Hq as Hq0.
  apply GameCommandQueue_new_ok in Hq as (Hok & Hnil & Hlim); [|unfold is_usize; lia..].
  split_and!; try done. unfold GameCommandQueue_new in Hq0. destruct (_ || _); [done|]. simplify_eq.
  constructor; simpl; try done; try lia. left. simpl. auto.
Qed.

(** Options never change. *)
Lemma step_options lb m m' :
  step lb m = Some m' -> options_ (loop m') = options_ (loop m).
Proof.
  assert (forall l, options_ (snd (stop l)) = options_ l) as Hstop by (intros l; unfold stop; by destruct (state_ l)).
  assert (forall b l, options_ (snd (start b l)) = options_ l) as Hstart.
  { intros b l. unfold start. step_m. destruct (state_ l), (handler_ l), b; done. }
  destruct lb; simpl; repeat case_match; intros; simplify_eq; simpl; try done.
  all: try (rewrite ?Hstart, ?Hstop; done).
  unfold finish_tick. by repeat case_match.
Qed.

(** A stopped loop takes no step back. *)
Lemma stopped_step lb m m' :
  minv m -> state_ (loop m) = Stopped -> step lb m = Some m' ->
  state_ (loop m') = Stopped /\ h_accepted m' = h_accepted m /\ h_discarded m' = h_discarded m.
Proof.
  intros Hm Hst. destruct (i_lifecycle m Hm) as [(_ & _ & [?|?])|(Hacc & Hnil & _)]; [congruence..|].
  destruct lb; simpl.
  3: { destruct (negb (alive _)); [done|]. destruct (inflight m !! i) as [c|]; [|done].
       destruct (submit_ok mem now c _ _ (i_queue m Hm)) as (r & q' & -> & _ & _ & _ & _ & _ & Hr).
       destruct r as [[]|]; intros; simplify_eq; try done. destruct Hr as (? & _ & _ & ? & _). congruence. }
  all: repeat case_match; intros; simplify_eq; simpl; try done.
  - unfold start. step_m. by rewrite Hst.
  - unfold do_stop, stop. rewrite Hst. simpl. by rewrite app_nil_r.
  - unfold finish_tick. by repeat case_match.
Qed.

(** The commands given to the handler, in order. *)
Definition handled (l : list (GameCommand * Outcome)) : list GameCommand :=
  omap (fun x => match snd x with Handled _ => Some (fst x) | _ => None end) l.

Lemma handled_sublist l : sublist (handled l) l.*1.
Proof.
  induction l as [|[c out] l IH]; [constructor|]. unfold handled in *. simpl.
  destruct out; simpl; by constructor.
Qed.

(** No [push_back] of the run failed. *)
Definition push_ok (lb : Label) : Prop :=
  match lb with LEnqueue _ mem _ => mem = true | _ => True end.

Lemma step_lost lb m m' :
  minv m -> push_ok lb -> step lb m = Some m' -> h_lost m' = h_lost m.
Proof.
  intros Hm Hok. destruct lb; simpl in *.
  3: { destruct (negb (alive _)); [done|]. destruct (inflight m !! i) as [c|]; [|done].
       destruct (submit_ok mem now c _ _ (i_queue m Hm)) as (r & q' & -> & _ & _ & _ & _ & _ & Hr).
       destruct r as [[]|]; intros; simplify_eq; try done. by destruct Hr as (_ & ? & _). }
  all: unfold finish_tick, do_stop; repeat case_match; intros; simplify_eq; done.
Qed.

Lemma steps_lost lbs m m' :
  minv m -> Forall push_ok lbs -> steps lbs m = Some m' -> h_lost m' = h_lost m.
Proof.
  revert m. induction lbs as [|lb lbs IH]; intros m Hm Hok Hs; simpl in Hs; [by simplify_eq|].
  apply Forall_cons in Hok as [Hok1 Hok]. destruct (step lb m) as [m1|] eqn:H1; [|done].
  rewrite (IH m1) by (done || by eapply minv_step). by eapply step_lost.
Qed.

(** C17. Commands are conserved and stay in order.  Whatever producers, the
    timer, the handler and [stop] do, and in whatever order their steps
    interleave: the accepted commands are exactly the drained ones in the order
    of acceptance, then those [stop] discarded, then those still queued; the
    counters agree with this, and both queue limits hold.  The byte count is
    the sum of the queued payloads plus, until [stop] counts them as dropped,
    the payloads of the commands whose [push_back] threw; there are none of
    these in a run whose [push_back]s succeed. *)
Theorem logic_loop_conserves_commands o l st lbs m :
  usize_loop_options o -> LogicLoop_new o = Ok l -> steps lbs (initial l st) = Some m ->
  let q := loop_queue (loop m) in
  h_accepted m = (h_outcomes m).*1 ++ phase_rest (phase m) ++ h_discarded m ++ queue_ q /\
  accepted_ q = uwrap (zlen (h_accepted m)) /\
  droppedOnStop_ q = uwrap (zlen (h_discarded m)) /\
  droppedBytesOnStop_ q = uwrap (zsum payload_size (h_discarded m) +
    (if accepting_ q then 0 else zsum payload_size (h_lost m))) /\
  queuedBytes_ q = zsum payload_size (queue_ q) +
    (if accepting_ q then zsum payload_size (h_lost m) else 0) /\
  (Forall push_ok lbs -> h_lost m = []) /\
  queuedBytes_ q <= maxQueuedBytes (limits_ q) /\ zlen (queue_ q) <= maxCommands (limits_ q).
Proof.
  intros Ho Hn Hs. destruct (initial_ok o l st Ho Hn) as (Hi & _ & _).
  pose proof (minv_steps lbs _ m Hi Hs) as [_ [_ _ Hb Hmb Hd _ _] Hh _ _ _ _ Ha [Hd1 Hd2]].
  split_and!; try done. intros Hok. by rewrite (steps_lost lbs _ m Hi Hok Hs).
Qed.

(** The handler sees only commands that are fresh at that moment, each
    accepted one at most once and in the order of acceptance; a command is
    dropped as stale only when its binding is no longer current. *)
Theorem handler_sees_fresh_in_order o l st lbs m :
  usize_loop_options o -> LogicLoop_new o = Ok l -> steps lbs (initial l st) = Some m ->
  sublist (handled (h_outcomes m)) (h_accepted m) /\
  forall c out, (c, out) ∈ h_outcomes m ->
    match out with
    | Handled st => stale st c = false
    | DroppedStale st => stale st c = true
    | Abandoned => True
    end.
Proof.
  intros Ho Hn Hs. destruct (initial_ok o l st Ho Hn) as (Hi & _ & _).
  pose proof (minv_steps lbs _ m Hi Hs) as [_ _ Hh _ Hoc _ _ _ _]. split.
  - rewrite Hh. apply sublist_inserts_r, handled_sublist.
  - rewrite Forall_forall in Hoc. intros c out Hin. exact (Hoc _ Hin).
Qed.

(** A tick is bounded: no metric reports more than [maxCommandsPerTick]
    drained commands or more outputs than commands, and the batch in progress
    keeps within the same bound. *)
Theorem tick_bounded o l st lbs m :
  usize_loop_options o -> LogicLoop_new o = Ok l -> steps lbs (initial l st) = Some m ->
  Forall (metric_ok (maxCommandsPerTick o)) (h_metrics m) /\
  phase_ok (maxCommandsPerTick o) (phase m).
Proof.
  intros Ho Hn Hs. destruct (initial_ok o l st Ho Hn) as (Hi & Hopt & _).
  pose proof (minv_steps lbs _ m Hi Hs) as Hm.
  assert (options_ (loop m) = o) as Hom.
  { rewrite <- Hopt. change l with (loop (initial l st)). clear -Hs. revert Hs.
    generalize (initial l st). induction lbs as [|lb lbs IH]; intros m0 Hs; simpl in Hs; [by simplify_eq|].
    destruct (step lb m0) as [m1|] eqn:H1; [|done]. rewrite (IH _ Hs). by eapply step_options. }
  rewrite <- Hom. split; [apply (i_metrics m Hm)|apply (i_phase m Hm)].
Qed.

(** [stop] is final: after it nothing is accepted or drained again
    whatever steps follow, [start] cannot revive the loop, and only the batch
    already drained may still reach the handler. *)
Theorem stopped_is_final o l st lbs m lbs' m' :
  usize_loop_options o -> LogicLoop_new o = Ok l -> steps lbs (initial l st) = Some m ->
  state_ (loop m) = Stopped -> steps lbs' m = Some m' ->
  state_ (loop m') = Stopped /\ queue_ (loop_queue (loop m')) = [] /\
  h_accepted m' = h_accepted m /\
  (h_outcomes m').*1 ++ phase_rest (phase m') = (h_outcomes m).*1 ++ phase_rest (phase m) /\
  forall timer_ok, start timer_ok (loop m') = (Throw logic_error, loop m').
Proof.
  intros Ho Hn Hs Hst Hs'. destruct (initial_ok o l st Ho Hn) as (Hi & _ & _).
  pose proof (minv_steps lbs _ m Hi Hs) as Hm. clear Hs Hn.
  assert (state_ (loop m') = Stopped /\ h_accepted m' = h_accepted m /\ h_discarded m' = h_discarded m /\ minv m')
    as (Hst' & Ha & Hd & Hm').
  { clear -Hm Hst Hs'. revert m Hm Hst Hs'. induction lbs' as [|lb lbs' IH]; intros m Hm Hst Hs'; simpl in Hs'.
    - by simplify_eq.
    - destruct (step lb m) as [m1|] eqn:H1; [|done].
      destruct (stopped_step lb m m1 Hm Hst H1) as (Hst1 & Ha1 & Hd1).
      destruct (IH m1) as (? & ? & ? & ?); [by eapply minv_step|done|done|].
      split_and!; congruence || done. }
  destruct (i_lifecycle m Hm) as [(_ & _ & [?|?])|(_ & Hnil & _)]; [congruence..|].
  destruct (i_lifecycle m' Hm') as [(_ & _ & [?|?])|(_ & Hnil' & _)]; [congruence..|].
  split_and!; try done.
  - pose proof (i_history m' Hm') as Hh'. pose proof (i_history m Hm) as Hh.
    rewrite Hnil, app_nil_r in Hh. rewrite Hnil', app_nil_r, Ha, Hd, Hh, !app_assoc in Hh'.
    by apply app_inv_tail in Hh'.
  - intros tm. unfold start. step_m. by rewrite Hst'.
Qed.

(** When the allocation inside [push_back] fails, [submit] throws after it
    has already added the payload to the byte count: the queue is unchanged but
    [queuedBytes_] no longer is the sum of the queued payloads, and stays too
    large after every command has been drained. *)
Theorem failed_submit_leaks_bytes q now c :
  queue_ok q -> accepting_ q = true -> 0 < payload_size c <= maxPayloadBytes (limits_ q) ->
  zlen (queue_ q) < maxCommands (limits_ q) ->
  queuedBytes_ q + payload_size c <= maxQueuedBytes (limits_ q) ->
  exists q', Queue.submit false now c q = (Throw bad_alloc, q') /\ queue_ q' = queue_ q /\
    queuedBytes_ q' = zsum payload_size (queue_ q') + payload_size c /\
    ~ queue_ok q'.
Proof.
  intros [Hl _ Hb Hmb Hd Hp Hm] Hacc Hc Hn Hby. destruct Hl as (Hl1 & Hl2 & Hl3).
  pose proof (zsum_nonneg payload_size (queue_ q) payload_size_nonneg).
  unfold Queue.submit. step_m. rewrite Hacc. simpl.
  rewrite (proj2 (Z.ltb_ge _ _)) by lia. rewrite (uwrap_small (_ - _)) by lia.
  rewrite (proj2 (Z.leb_gt _ _)), (proj2 (Z.ltb_ge _ _)) by lia. simpl.
  rewrite (uwrap_small (_ + _)) by lia. eexists. split; [done|]. simpl.
  split_and!; [done|lia|]. intros [_ _ Hb' _ _ _ _]. simpl in Hb'. lia.
Qed.

(** *** Concrete runs *)

Definition demo_loop_options : LogicLoopOptions := mkOptions 20 2 (mkLimits 8 64 16).

Definition demo_cmd (n : Z) (gen : Z) : GameCommand :=
  mkCommand n n (mkBinding n n gen (Some n)) 0 n Normal [byte_of n; byte_of n] 5.

Definition demo_loop : LogicLoop :=
  mkLoop demo_loop_options (mkQueue (mkLimits 8 64 16) [] 0 0 0 0 0 0 0 0 0 true)
    false false false false 0 Created 0 0 true.

Lemma demo_loop_new : LogicLoop_new demo_loop_options = Ok demo_loop.
Proof. reflexivity. Qed.

Lemma demo_loop_usize : usize_loop_options demo_loop_options.
Proof. unfold usize_loop_options, is_usize. simpl. lia. Qed.

(** Four submissions, one lost to an allocation failure and one that goes stale
    in the queue; the first tick cannot reserve its batch, and the handler of
    the last one stops the loop. *)
Definition demo_bindings : gmap Z Z := {[1 := 7; 2 := 7; 3 := 7]}.
Definition demo_labels : list Label :=
  [LCallbacks true true true; LSubmit (demo_cmd 1 7); LStart true; LSubmit (demo_cmd 2 7);
   LSubmit (demo_cmd 3 7); LSubmit (demo_cmd 2 7); LEnqueue 1 true 0; LEnqueue 0 true 0;
   LEnqueue 1 false 0; LEnqueue 0 true 0; LBindings {[1 := 0; 2 := 7; 3 := 7]};
   LTick false; LTick true; LNext true; LHandlerReturn (Some (demo_cmd 2 7)); LOutputReturn;
   LNext true; LNext true; LTick true; LNext true; LStop; LHandlerReturn None; LNext true].

Definition demo_final : option Machine := steps demo_labels (initial demo_loop demo_bindings).

Lemma logic_loop_conserves_commands_witness :
  exists m, demo_final = Some m /\
    map cmd_sessionId (h_accepted m) = [2; 1; 3] /\
    accepted_ (loop_queue (loop m)) = uwrap (zlen (h_accepted m)).
Proof.
  destruct demo_final as [m|] eqn:Hm; [|vm_compute in Hm; discriminate].
  destruct (logic_loop_conserves_commands demo_loop_options demo_loop demo_bindings demo_labels m)
    as (_ & Ha & _); [apply demo_loop_usize|apply demo_loop_new|exact Hm|].
  exists m. split; [done|]. split; [|exact Ha].
  assert (option_map (fun m => map cmd_sessionId (h_accepted m)) demo_final = Some [2; 1; 3]) as Hx
    by (vm_compute; reflexivity).
  rewrite Hm in Hx. by injection Hx.
Defined.

Lemma handler_sees_fresh_in_order_witness :
  exists m, demo_final = Some m /\ map cmd_sessionId (handled (h_outcomes m)) = [2; 3] /\
    sublist (handled (h_outcomes m)) (h_accepted m).
Proof.
  destruct demo_final as [m|] eqn:Hm; [|vm_compute in Hm; discriminate].
  destruct (handler_sees_fresh_in_order demo_loop_options demo_loop demo_bindings demo_labels m)
    as [Hs _]; [apply demo_loop_usize|apply demo_loop_new|exact Hm|].
  exists m. split; [done|]. split; [|exact Hs].
  assert (option_map (fun m => map cmd_sessionId (handled (h_outcomes m))) demo_final = Some [2; 3]) as Hx
    by (vm_compute; reflexivity).
  rewrite Hm in Hx. by injection Hx.
Defined.

Lemma tick_bounded_witness :
  exists m, demo_final = Some m /\ map drained (h_metrics m) = [2; 1] /\
    Forall (metric_ok 2) (h_metrics m).
Proof.
  destruct demo_final as [m|] eqn:Hm; [|vm_compute in Hm; discriminate].
  destruct (tick_bounded demo_loop_options demo_loop demo_bindings demo_labels m)
    as [Hs _]; [apply demo_loop_usize|apply demo_loop_new|exact Hm|].
  exists m. split; [done|]. split; [|exact Hs].
  assert (option_map (fun m => map drained (h_metrics m)) demo_final = Some [2; 1]) as Hx
    by (vm_compute; reflexivity).
  rewrite Hm in Hx. by injection Hx.
Defined.

Lemma stopped_is_final_witness :
  exists m m', demo_final = Some m /\
    steps [LSubmit (demo_cmd 2 7); LEnqueue 0 true 0; LStart true] m = Some m' /\
    h_accepted m' = h_accepted m.
Proof.
  destruct demo_final as [m|] eqn:Hm; [|vm_compute in Hm; discriminate].
  destruct (steps [LSubmit (demo_cmd 2 7); LEnqueue 0 true 0; LStart true] m) as [m'|] eqn:Hm'.
  - exists m, m'. split; [reflexivity|]. split; [exact Hm'|].
    refine (proj1 (proj2 (proj2 (stopped_is_final demo_loop_options demo_loop demo_bindings demo_labels m
      _ m' demo_loop_usize demo_loop_new Hm _ Hm')))).
    assert (option_map (fun m => state_ (loop m)) demo_final = Some Stopped) as Hx by (vm_compute; reflexivity).
    rewrite Hm in Hx. by injection Hx.
  - exfalso. assert (match demo_final with
      | Some m => steps [LSubmit (demo_cmd 2 7); LEnqueue 0 true 0; LStart true] m
      | None => None
      end <> None) as Hx by (vm_compute; discriminate).
    rewrite Hm in Hx. exact (Hx Hm').
Defined.

Lemma failed_submit_leaks_bytes_witness :
  exists q', Queue.submit false 9 (demo_cmd 1 7) (loop_queue demo_loop) = (Throw bad_alloc, q') /\
    queue_ q' = [] /\ queuedBytes_ q' = 2.
Proof.
  destruct (failed_submit_leaks_bytes (loop_queue demo_loop) 9 (demo_cmd 1 7)) as (q' & Hs & Hq & Hb & _).
  - apply (initial_ok demo_loop_options demo_loop ∅ demo_loop_usize demo_loop_new).
  - reflexivity.
  - vm_compute. split; [reflexivity|discriminate].
  - reflexivity.
  - vm_compute. discriminate.
  - exists q'. split; [exact Hs|]. rewrite Hq in Hb. split; [exact Hq|]. rewrite Hb. reflexivity.
Defined.
End Loop.
