(* ===== verification/Broadcast.v ===== *)
(** * Broadcast plans and the router

    Model of the broadcast value types (include/gamenet/broadcast/BroadcastTypes.h)
    and of [gamenet::broadcast::BroadcastRouter]
    (include/gamenet/broadcast/BroadcastRouter.h, src/broadcast/BroadcastRouter.cc):
    one pass over the targets that drops ineligible, duplicate and excess ones,
    each with a reason, and groups the rest by owner loop.

    A target carries what the router observes of its endpoint when it reaches
    it: id, owner executor and the open flag.  Metrics go to a log (the callback
    is user code whose exceptions are swallowed). *)

From S2P Require Import Prelude Session.

Local Open Scope Z_scope.

(** ** Data *)

Inductive BroadcastPriority := LowPriority | NormalPriority | HighPriority.
Inductive BroadcastMetricEvent := Routed | Scheduled | Sent | Dropped.

Inductive BroadcastReason :=
  | NoReason
  | OfflineSession
  | DuplicateEndpoint
  | FanoutHardLimit
  | ByteHardLimit
  | LowPrioritySoftLimit
  | DispatchTaskByteLimit
  | EndpointClosed
  | EndpointOverloaded
  | OwnerUnavailable
  | OwnerShutdown
  | DispatchQueueFull
  | OwnerOutstandingTaskLimit
  | OwnerOutstandingByteLimit
  | GlobalOutstandingByteLimit
  | InvalidPlan
  | SendRejected.

Global Instance BroadcastReason_eq_dec : EqDecision BroadcastReason.
Proof. solve_decision. Defined.

Definition kBroadcastReasonCount : nat := 17.

Definition reasonIndex (r : BroadcastReason) : nat :=
  match r with
  | NoReason => 0 | OfflineSession => 1 | DuplicateEndpoint => 2 | FanoutHardLimit => 3
  | ByteHardLimit => 4 | LowPrioritySoftLimit => 5 | DispatchTaskByteLimit => 6
  | EndpointClosed => 7 | EndpointOverloaded => 8 | OwnerUnavailable => 9 | OwnerShutdown => 10
  | DispatchQueueFull => 11 | OwnerOutstandingTaskLimit => 12 | OwnerOutstandingByteLimit => 13
  | GlobalOutstandingByteLimit => 14 | InvalidPlan => 15 | SendRejected => 16
  end%nat.

Record BroadcastMetric := mkMetric {
  event : BroadcastMetricEvent;
  reason : BroadcastReason;
  metric_id : Z;
  payloadBytes : Z;
}.

(** The owner executor and the endpoint as observed. *)
Record OwnerExecutor := mkOwner { executor_id : Z; executor_available : bool }.
Record Endpoint := mkEndpoint { ep_id : Z; ep_owner : OwnerExecutor; ep_open : bool }.

Record BroadcastTarget := mkTarget {
  target_endpoint : option Endpoint;
  target_binding : SessionBinding;
  eligible_ : bool;
}.

Definition target_id (t : BroadcastTarget) : Z :=
  match target_endpoint t with Some e => ep_id e | None => 0 end.

Definition eligible (st : gmap Z Z) (t : BroadcastTarget) : bool :=
  eligible_ t && (negb (tracked (target_binding t)) || isCurrent st (target_binding t)).

Record LoopBatch := mkBatch { batch_owner : OwnerExecutor; batch_endpoints : list Endpoint }.

(** [payload] is its bytes; counts are indexed by [reasonIndex]. *)
Record BroadcastPlan := mkPlan {
  plan_payload : option (list byte);
  batches_ : list LoopBatch;
  accepted_ : Z;
  dropped_ : Z;
  plan_priority : BroadcastPriority;
  reasonCounts_ : list Z;
}.

Definition no_counts : list Z := replicate kBroadcastReasonCount 0.

(** [++counts[reasonIndex(reason)]] *)
Definition bump (r : BroadcastReason) (counts : list Z) : list Z :=
  alter (fun n => n ⊕ 1) (reasonIndex r) counts.

Definition reasonCount (counts : list Z) (r : BroadcastReason) : Z :=
  default 0 (counts !! reasonIndex r).

(** ** Router *)

Record BroadcastLimits := mkBroadcastLimits {
  softFanout : Z;
  hardFanout : Z;
  softBytes : Z;
  hardBytes : Z;
}.

Definition BroadcastRouter_check (l : BroadcastLimits) : result unit :=
  if (hardFanout l <? softFanout l) || (hardBytes l <? softBytes l) || (hardFanout l =? 0)
     || (hardBytes l =? 0)
  then Throw invalid_argument else Ok tt.

(** The locals of [route]. *)
Record RouteState := mkRoute {
  plan : BroadcastPlan;
  seen_ids : gset Z;
  batchIndexes : gmap Z nat;
  log : list BroadcastMetric;
}.

Definition payload_len (p : BroadcastPlan) : Z :=
  match plan_payload p with Some b => zlen b | None => 0 end.

Definition drop_target (r : BroadcastReason) (id : Z) (s : RouteState) : RouteState :=
  let p := plan s in
  mkRoute
    (mkPlan (plan_payload p) (batches_ p) (accepted_ p) (dropped_ p ⊕ 1) (plan_priority p)
       (bump r (reasonCounts_ p)))
    (seen_ids s) (batchIndexes s) (log s ++ [mkMetric Dropped r id (payload_len p)]).

Definition mark_seen (id : Z) (s : RouteState) : RouteState :=
  mkRoute (plan s) ({[id]} ∪ seen_ids s) (batchIndexes s) (log s).

(** [batches_[i].endpoints.push_back(e)] *)
Definition push_endpoint (i : nat) (e : Endpoint) (bs : list LoopBatch) : list LoopBatch :=
  alter (fun b => mkBatch (batch_owner b) (batch_endpoints b ++ [e])) i bs.

Definition accept_target (e : Endpoint) (s : RouteState) : RouteState :=
  let p := plan s in
  let owner := ep_owner e in
  let '(i, idx, bs) :=
    match batchIndexes s !! executor_id owner with
    | Some i => (i, batchIndexes s, batches_ p)
    | None => (length (batches_ p), <[executor_id owner := length (batches_ p)]> (batchIndexes s),
               batches_ p ++ [mkBatch owner []])
    end in
  mkRoute
    (mkPlan (plan_payload p) (push_endpoint i e bs) (accepted_ p ⊕ 1) (dropped_ p) (plan_priority p)
       (reasonCounts_ p))
    (seen_ids s) idx (log s ++ [mkMetric Routed NoReason (ep_id e) (payload_len p)]).

Definition is_low (p : BroadcastPriority) : bool :=
  match p with LowPriority => true | _ => false end.

(** The loop body of [route]. *)
Definition route_target (l : BroadcastLimits) (st : gmap Z Z) (s : RouteState) (t : BroadcastTarget) :
    RouteState :=
  if negb (eligible st t) then drop_target OfflineSession (target_id t) s
  else match target_endpoint t with
  | None => drop_target InvalidPlan 0 s
  | Some e =>
      let id := ep_id e in
      if bool_decide (id ∈ seen_ids s) then drop_target DuplicateEndpoint id s
      else
        let s := mark_seen id s in
        let p := plan s in
        if hardFanout l <=? accepted_ p then drop_target FanoutHardLimit id s
        else if hardBytes l / (accepted_ p ⊕ 1) <? payload_len p then drop_target ByteHardLimit id s
        else if is_low (plan_priority p) &&
                ((softFanout l <=? accepted_ p) ||
                 (negb (accepted_ p ⊕ 1 =? 0) && (softBytes l / (accepted_ p ⊕ 1) <? payload_len p)))
        then drop_target LowPrioritySoftLimit id s
        else if negb (executor_available (ep_owner e)) then drop_target OwnerUnavailable id s
        else if negb (ep_open e) then drop_target EndpointClosed id s
        else accept_target e s
  end.

Definition route_start (payload : list byte) (priority : BroadcastPriority) : RouteState :=
  mkRoute (mkPlan (Some payload) [] 0 0 priority no_counts) ∅ ∅ [].

(** [payload = None] is a null pointer. *)
Definition route (l : BroadcastLimits) (st : gmap Z Z) (payload : option (list byte))
    (targets : list BroadcastTarget) (priority : BroadcastPriority) : result RouteState :=
  match payload with
  | None => Throw invalid_argument
  | Some b => Ok (foldl (route_target l st) (route_start b priority) targets)
  end.

(** ** Specification

    A decision per target, from the endpoints already seen and the number
    already accepted; limits as products rather than quotients. *)

Inductive decision :=
  | Accept (e : Endpoint)
  | Drop (r : BroadcastReason).

Definition decide_target (l : BroadcastLimits) (st : gmap Z Z) (size : Z) (low : bool)
    (seen : list Z) (n : Z) (t : BroadcastTarget) : decision :=
  if negb (eligible st t) then Drop OfflineSession
  else match target_endpoint t with
  | None => Drop InvalidPlan
  | Some e =>
      if bool_decide (ep_id e ∈ seen) then Drop DuplicateEndpoint
      else if hardFanout l <? n + 1 then Drop FanoutHardLimit
      else if hardBytes l <? size * (n + 1) then Drop ByteHardLimit
      else if low && ((softFanout l <? n + 1) || (softBytes l <? size * (n + 1)))
      then Drop LowPrioritySoftLimit
      else if negb (executor_available (ep_owner e)) then Drop OwnerUnavailable
      else if negb (ep_open e) then Drop EndpointClosed
      else Accept e
  end.

(** The id a target adds to the seen ones. *)
Definition sees (st : gmap Z Z) (t : BroadcastTarget) : list Z :=
  if eligible st t then match target_endpoint t with Some e => [ep_id e] | None => [] end else [].

Fixpoint decisions (l : BroadcastLimits) (st : gmap Z Z) (size : Z) (low : bool)
    (seen : list Z) (n : Z) (ts : list BroadcastTarget) : list decision :=
  match ts with
  | [] => []
  | t :: ts =>
      let d := decide_target l st size low seen n t in
      d :: decisions l st size low (seen ++ sees st t)
             (match d with Accept _ => n + 1 | Drop _ => n end) ts
  end.

Definition accepts (ds : list decision) : list Endpoint :=
  omap (fun d => match d with Accept e => Some e | Drop _ => None end) ds.
Definition drops (ds : list decision) : list BroadcastReason :=
  omap (fun d => match d with Accept _ => None | Drop r => Some r end) ds.

Definition count_reason (r : BroadcastReason) (l : list BroadcastReason) : Z :=
  zlen (filter (fun x => x = r) l).

(** Batches: one per owner, in the order of first acceptance, each with its
    endpoints in the order of acceptance. *)
Definition owner_ids (es : list Endpoint) : list Z := (fun e => executor_id (ep_owner e)) <$> es.

Record grouped (bs : list LoopBatch) (es : list Endpoint) : Prop := {
  gr_ids : NoDup ((fun b => executor_id (batch_owner b)) <$> bs);
  gr_batch : Forall (fun b => batch_endpoints b <> [] /\ batch_endpoints b =
    filter (fun e => executor_id (ep_owner e) = executor_id (batch_owner b)) es) bs;
  gr_owners : forall e, e ∈ es ->
    executor_id (ep_owner e) ∈ ((fun b => executor_id (batch_owner b)) <$> bs);
}.

Definition limits_ok (l : BroadcastLimits) : Prop :=
  0 <= softFanout l <= hardFanout l /\ 0 <= softBytes l <= hardBytes l /\
  1 <= hardFanout l < usize_lim /\ 1 <= hardBytes l < usize_lim.

(** ** The router against its specification *)

Lemma quotient_test h k p : 0 < k -> (h / k <? p) = (h <? p * k).
Proof.
  intros Hk. destruct (Z.ltb_spec h (p * k)) as [H|H].
  - apply Z.ltb_lt. apply Z.div_lt_upper_bound; lia.
  - apply Z.ltb_ge. apply Z.div_le_lower_bound; lia.
Qed.

Lemma reasonIndex_inj r1 r2 : reasonIndex r1 = reasonIndex r2 -> r1 = r2.
Proof. by destruct r1, r2. Qed.

Lemma reasonIndex_lt r : (reasonIndex r < kBroadcastReasonCount)%nat.
Proof. unfold kBroadcastReasonCount. destruct r; simpl; lia. Qed.

(** The counts of a list of reasons. *)
Definition counts_ok (counts : list Z) (rs : list BroadcastReason) : Prop :=
  length counts = kBroadcastReasonCount /\
  forall r, reasonCount counts r = uwrap (count_reason r rs).

Lemma no_counts_ok : counts_ok no_counts [].
Proof. split; [done|]. intros r. unfold reasonCount. by destruct r. Qed.

Lemma count_reason_snoc r x l :
  count_reason r (l ++ [x]) = count_reason r l + if decide (x = r) then 1 else 0.
Proof.
  unfold count_reason, zlen. rewrite list.filter_app, length_app, filter_cons, filter_nil.
  destruct (decide (x = r)); simpl; lia.
Qed.

Lemma bump_ok counts rs x : counts_ok counts rs -> counts_ok (bump x counts) (rs ++ [x]).
Proof.
  intros [Hlen Hc]. split; [unfold bump; by rewrite length_alter|]. intros r.
  rewrite count_reason_snoc. unfold bump, reasonCount in *. specialize (Hc r).
  destruct (lookup_lt_is_Some_2 counts (reasonIndex r)) as [n Hn].
  { rewrite Hlen. apply reasonIndex_lt. }
  rewrite Hn in Hc. simpl in Hc. destruct (decide (x = r)) as [->|Hne].
  - rewrite list_lookup_alter_eq, Hn. simpl. rewrite Hc. unfold uwrap. apply Zplus_mod_idemp_l.
  - rewrite list_lookup_alter_ne, Hn by (intros E; by apply reasonIndex_inj in E).
    simpl. by rewrite Hc, Z.add_0_r.
Qed.

(** The index map points at the batch of each owner. *)
Definition indexes_ok (idx : gmap Z nat) (bs : list LoopBatch) : Prop :=
  forall id i, idx !! id = Some i <-> exists b, bs !! i = Some b /\ executor_id (batch_owner b) = id.

Lemma lookup_push_endpoint i e bs j :
  push_endpoint i e bs !! j =
  (if decide (i = j) then (fun b => mkBatch (batch_owner b) (batch_endpoints b ++ [e])) <$> bs !! j
   else bs !! j).
Proof.
  unfold push_endpoint. destruct (decide (i = j)) as [->|Hne].
  - apply list_lookup_alter_eq.
  - by apply list_lookup_alter_ne.
Qed.

Lemma push_endpoint_ids i e bs :
  (fun b => executor_id (batch_owner b)) <$> push_endpoint i e bs
    = (fun b => executor_id (batch_owner b)) <$> bs.
Proof.
  apply list_eq. intros j. rewrite !list_lookup_fmap, lookup_push_endpoint.
  destruct (decide (i = j)); [|done]. by destruct (bs !! j).
Qed.

(** Adding an endpoint to the batch of its owner. *)
Lemma push_grouped bs es i b e :
  NoDup ((fun b => executor_id (batch_owner b)) <$> bs) ->
  (forall j b', bs !! j = Some b' ->
     batch_endpoints b' = filter (fun x => executor_id (ep_owner x) = executor_id (batch_owner b')) es /\
     (i <> j -> batch_endpoints b' <> [])) ->
  (forall x, x ∈ es -> executor_id (ep_owner x) ∈ ((fun b => executor_id (batch_owner b)) <$> bs)) ->
  bs !! i = Some b -> executor_id (batch_owner b) = executor_id (ep_owner e) ->
  grouped (push_endpoint i e bs) (es ++ [e]).
Proof.
  intros Hnd Hb Hown Hi Hid. split.
  - by rewrite push_endpoint_ids.
  - apply Forall_lookup. intros j b' Hj. rewrite lookup_push_endpoint in Hj.
    destruct (decide (i = j)) as [<-|Hne].
    + rewrite Hi in Hj. simpl in Hj. injection Hj as <-. simpl. destruct (Hb i b Hi) as [-> _].
      split; [by destruct (filter _ es)|]. rewrite list.filter_app. f_equal.
      by rewrite filter_cons_True.
    + destruct (Hb j b' Hj) as [E Hn]. split; [auto|]. rewrite list.filter_app.
      rewrite filter_cons_False, filter_nil, app_nil_r; [done|]. intros Ee.
      apply Hne. eapply (NoDup_lookup _ _ _ (executor_id (ep_owner e)) Hnd);
        rewrite list_lookup_fmap; [rewrite Hi|rewrite Hj]; simpl; congruence.
  - intros x Hx. rewrite push_endpoint_ids. apply elem_of_app in Hx as [Hx|Hx]; [auto|].
    apply list_elem_of_singleton in Hx as ->. apply list_elem_of_fmap. exists b.
    split; [done|]. by eapply list_elem_of_lookup_2.
Qed.

(** What the loop has built after the decisions [ds]. *)
Record route_inv (payload : list byte) (prio : BroadcastPriority) (seen : list Z)
    (ds : list decision) (s : RouteState) : Prop := {
  ri_payload : plan_payload (plan s) = Some payload;
  ri_priority : plan_priority (plan s) = prio;
  ri_accepted : accepted_ (plan s) = zlen (accepts ds);
  ri_dropped : dropped_ (plan s) = uwrap (zlen (drops ds));
  ri_counts : counts_ok (reasonCounts_ (plan s)) (drops ds);
  ri_seen : forall id, id ∈ seen_ids s <-> id ∈ seen;
  ri_indexes : indexes_ok (batchIndexes s) (batches_ (plan s));
  ri_grouped : grouped (batches_ (plan s)) (accepts ds);
}.

Lemma accepts_snoc ds d :
  accepts (ds ++ [d]) = accepts ds ++ match d with Accept e => [e] | Drop _ => [] end.
Proof. unfold accepts. rewrite omap_app. by destruct d. Qed.

Lemma drops_snoc ds d :
  drops (ds ++ [d]) = drops ds ++ match d with Accept _ => [] | Drop r => [r] end.
Proof. unfold drops. rewrite omap_app. by destruct d. Qed.

Lemma drop_inv payload prio seen ds s r id :
  route_inv payload prio seen ds s ->
  route_inv payload prio seen (ds ++ [Drop r]) (drop_target r id s).
Proof.
  intros [Hp Hpr Ha Hd Hc Hs Hi Hg]. split; simpl; rewrite ?accepts_snoc, ?drops_snoc, ?app_nil_r; try done.
  - rewrite Hd, zlen_app. unfold uwrap. rewrite Zplus_mod_idemp_l. done.
  - by apply bump_ok.
Qed.

Lemma mark_inv payload prio seen ds s id :
  route_inv payload prio seen ds s -> route_inv payload prio (seen ++ [id]) ds (mark_seen id s).
Proof.
  intros [Hp Hpr Ha Hd Hc Hs Hi Hg]. split; simpl; try done. intros x.
  rewrite elem_of_union, elem_of_singleton, elem_of_app, list_elem_of_singleton, Hs. tauto.
Qed.

Lemma accept_inv payload prio seen ds s e :
  route_inv payload prio seen ds s -> zlen (accepts ds) + 1 < usize_lim ->
  route_inv payload prio seen (ds ++ [Accept e]) (accept_target e s).
Proof.
  intros [Hp Hpr Ha Hd Hc Hs Hi [Hnd Hb Hown]] Hlt. rewrite Forall_lookup in Hb.
  assert (accepted_ (plan s) ⊕ 1 = zlen (accepts ds ++ [e])) as Hn.
  { rewrite Ha, zlen_app. rewrite uwrap_small; [done|]. pose proof (zlen_nonneg (accepts ds)). lia. }
  unfold accept_target. destruct (batchIndexes s !! executor_id (ep_owner e)) as [i|] eqn:Ei.
  - apply Hi in Ei as (b & Hbi & Hid).
    split; simpl; rewrite ?accepts_snoc, ?drops_snoc, ?app_nil_r; try done.
    + intros id j. rewrite (Hi id j), lookup_push_endpoint.
      destruct (decide (i = j)) as [<-|]; [|done]. rewrite Hbi. simpl.
      split; intros (b' & [= <-] & <-); eauto.
    + eapply push_grouped; [done| |done|done|congruence].
      intros j b' Hj. destruct (Hb j b' Hj) as [? ?]. auto.
  - set (bs := batches_ (plan s)) in *. set (nb := mkBatch (ep_owner e) []).
    assert (executor_id (ep_owner e) ∉ ((fun b => executor_id (batch_owner b)) <$> bs)) as Hfresh.
    { intros (b & Eb & (i & Hbi)%list_elem_of_lookup_1)%list_elem_of_fmap.
      assert (batchIndexes s !! executor_id (ep_owner e) = Some i) as E; [|congruence].
      apply Hi. eauto. }
    assert ((bs ++ [nb]) !! length bs = Some nb) as Hlast by apply list_lookup_middle, eq_refl.
    split; simpl; rewrite ?accepts_snoc, ?drops_snoc, ?app_nil_r; try done.
    + intros id j. rewrite lookup_insert_Some, (Hi id j), lookup_push_endpoint. fold bs.
      destruct (decide (length bs = j)) as [<-|Hne].
      * rewrite Hlast. simpl. split.
        -- intros [[<- _]|[_ (b & Hb' & _)]]; [eauto|].
           apply lookup_lt_Some in Hb'. lia.
        -- intros (b & [= <-] & <-). by left.
      * split.
        -- intros [[_ ?]|[_ (b & Hb' & Hid)]]; [done|]. exists b. split; [|done].
           by apply lookup_app_l_Some.
        -- intros (b & Hb' & <-). apply lookup_app_Some in Hb' as [Hb'|[Hge Hb']].
           ++ right. split; [|eauto]. intros E. apply Hfresh. rewrite E. apply list_elem_of_fmap.
              exists b. split; [done|]. by eapply list_elem_of_lookup_2.
           ++ apply list_lookup_singleton_Some in Hb' as [? _]. lia.
    + eapply (push_grouped _ _ _ nb); try done.
      * rewrite fmap_app. apply NoDup_app. split_and!; [done| |by apply NoDup_singleton].
        intros x Hx Hx'. apply list_elem_of_singleton in Hx' as ->. done.
      * intros j b' Hj. apply lookup_app_Some in Hj as [Hj|[Hge Hj]].
        -- destruct (Hb j b' Hj) as [? ?]. auto.
        -- apply list_lookup_singleton_Some in Hj as [Hj <-]. split; [|lia]. simpl.
           symmetry. apply filter_none. intros x Hx E.
           apply Hfresh. rewrite <- E. auto.
      * intros x Hx. rewrite fmap_app. apply elem_of_app. left. auto.
Qed.

(** One target: the code takes the specification's decision. *)
Lemma route_target_ok l st payload prio seen ds s t :
  limits_ok l -> route_inv payload prio seen ds s -> zlen (accepts ds) <= hardFanout l ->
  let d := decide_target l st (zlen payload) (is_low prio) seen (zlen (accepts ds)) t in
  route_inv payload prio (seen ++ sees st t) (ds ++ [d]) (route_target l st s t) /\
  zlen (accepts (ds ++ [d])) <= hardFanout l.
Proof.
  intros (Hs & Hsb & Hh & Hhb) Hinv Hn d.
  assert (match d with Accept _ => zlen (accepts ds) + 1 <= hardFanout l | Drop _ => True end) as Hd.
  { unfold d, decide_target. repeat case_match; try done. zify_bools. lia. }
  split.
  2: { rewrite accepts_snoc, zlen_app. destruct d; unfold zlen in *; simpl; lia. }
  clear Hd. subst d. unfold decide_target, route_target, sees.
  destruct (eligible st t); simpl; [|rewrite app_nil_r; by apply drop_inv].
  destruct (target_endpoint t) as [e|]; [|rewrite app_nil_r; by apply drop_inv].
  rewrite (bool_decide_ext _ _ (ri_seen _ _ _ _ _ Hinv (ep_id e))).
  destruct (bool_decide_reflect (ep_id e ∈ seen)) as [Hseen|Hseen].
  { apply drop_inv. destruct Hinv. split; try done. intros id.
    rewrite elem_of_app, list_elem_of_singleton, <- ri_seen0. split; [auto|].
    intros [?| ->]; [done|]. by apply ri_seen0. }
  pose proof (mark_inv _ _ _ _ _ (ep_id e) Hinv) as Hm. set (s1 := mark_seen (ep_id e) s) in *.
  pose proof (zlen_nonneg (accepts ds)) as Hnn.
  rewrite (ri_accepted _ _ _ _ _ Hinv), (ri_priority _ _ _ _ _ Hinv).
  assert (payload_len (plan s) = zlen payload) as ->
    by (unfold payload_len; by rewrite (ri_payload _ _ _ _ _ Hinv)).
  replace (hardFanout l <? zlen (accepts ds) + 1) with (hardFanout l <=? zlen (accepts ds)) in *
    by (destruct (Z.leb_spec (hardFanout l) (zlen (accepts ds)));
        destruct (Z.ltb_spec (hardFanout l) (zlen (accepts ds) + 1)); lia).
  destruct (Z.leb_spec (hardFanout l) (zlen (accepts ds))) as [|Hroom]; [by apply drop_inv|].
  rewrite (uwrap_small (zlen (accepts ds) + 1)) by lia. rewrite !quotient_test by lia.
  replace (softFanout l <? zlen (accepts ds) + 1) with (softFanout l <=? zlen (accepts ds)) in *
    by (destruct (Z.leb_spec (softFanout l) (zlen (accepts ds)));
        destruct (Z.ltb_spec (softFanout l) (zlen (accepts ds) + 1)); lia).
  rewrite (proj2 (Z.eqb_neq (zlen (accepts ds) + 1) 0)) by lia. simpl.
  destruct (hardBytes l <? _); [by apply drop_inv|].
  destruct (is_low prio && _); [by apply drop_inv|].
  destruct (executor_available (ep_owner e)); simpl; [|by apply drop_inv].
  destruct (ep_open e); simpl; [|by apply drop_inv].
  apply accept_inv; [done|lia].
Qed.

Lemma route_start_inv payload prio : route_inv payload prio [] [] (route_start payload prio).
Proof.
  constructor; try done.
  - apply no_counts_ok.
  - intros id. simpl. rewrite elem_of_nil. set_solver.
  - intros id i. simpl. rewrite lookup_empty. split; [done|]. by intros (b & Hb & _).
  - constructor; simpl; [by constructor|by constructor|]. intros e He. by apply elem_of_nil in He.
Qed.

Lemma route_loop_ok l st payload prio ts : forall seen ds s,
  limits_ok l -> route_inv payload prio seen ds s -> zlen (accepts ds) <= hardFanout l ->
  let ds' := ds ++ decisions l st (zlen payload) (is_low prio) seen (zlen (accepts ds)) ts in
  exists seen', route_inv payload prio seen' ds' (foldl (route_target l st) s ts) /\
    zlen (accepts ds') <= hardFanout l.
Proof.
  induction ts as [|t ts IH]; intros seen ds s Hl Hinv Hn; simpl; [rewrite app_nil_r; eauto|].
  destruct (route_target_ok l st payload prio seen ds s t Hl Hinv Hn) as [Hinv' Hn'].
  set (d := decide_target _ _ _ _ _ _ _) in *.
  destruct (IH _ _ _ Hl Hinv' Hn') as (seen' & Hi & Hlen). exists seen'.
  rewrite (cons_middle d), app_assoc.
  assert (zlen (accepts (ds ++ [d])) =
    match d with Accept _ => zlen (accepts ds) + 1 | Drop _ => zlen (accepts ds) end) as E.
  { rewrite accepts_snoc, zlen_app. destruct d; unfold zlen; simpl; lia. }
  rewrite E in Hi, Hlen. done.
Qed.

(** Every decision to accept was within the limits, so the total is. *)
Lemma decisions_bounds l st size low ts : forall seen n,
  limits_ok l -> 0 <= size -> 0 <= n <= hardFanout l -> size * n <= hardBytes l ->
  (low = true -> n <= softFanout l /\ size * n <= softBytes l) ->
  let es := accepts (decisions l st size low seen n ts) in
  n + zlen es <= hardFanout l /\ size * (n + zlen es) <= hardBytes l /\
  (low = true -> n + zlen es <= softFanout l /\ size * (n + zlen es) <= softBytes l) /\
  NoDup (ep_id <$> es) /\ (forall e, e ∈ es -> (ep_id e ∉ seen) /\ ep_open e = true /\
    executor_available (ep_owner e) = true /\
    exists t, t ∈ ts /\ eligible st t = true /\ target_endpoint t = Some e).
Proof.
  induction ts as [|t ts IH]; intros seen n Hl Hsz Hn Hb Hlow; simpl.
  { unfold zlen. simpl. rewrite Z.add_0_r. split_and!; [lia|lia|done|constructor|].
    intros e He. by apply elem_of_nil in He. }
  set (d := decide_target l st size low seen n t).
  assert (forall es : list Endpoint, (forall e, e ∈ es -> (ep_id e ∉ seen ++ sees st t) /\ ep_open e = true /\
      executor_available (ep_owner e) = true /\
      exists t, t ∈ ts /\ eligible st t = true /\ target_endpoint t = Some e) ->
    forall e, e ∈ es -> (ep_id e ∉ seen) /\ ep_open e = true /\
      executor_available (ep_owner e) = true /\
      exists t', t' ∈ t :: ts /\ eligible st t' = true /\ target_endpoint t' = Some e) as Hmono.
  { intros es Hes e He. destruct (Hes e He) as (H1 & ? & ? & t' & ? & ? & ?).
    rewrite elem_of_app in H1. split_and!; try done; [tauto|]. exists t'. split_and!; try done. by constructor. }
  destruct d as [e|r] eqn:Ed; simpl; [|].
  2: { destruct (IH (seen ++ sees st t) n Hl Hsz Hn Hb Hlow) as (? & ? & ? & ? & ?). split_and!; try done.
       by apply Hmono. }
  unfold d, decide_target in Ed. destruct (eligible st t) eqn:Hel; simpl in Ed; [|done].
  destruct (target_endpoint t) as [e'|] eqn:Ht; [|done].
  destruct (bool_decide_reflect (ep_id e' ∈ seen)) as [|Hnew]; [done|].
  destruct (Z.ltb_spec (hardFanout l) (n + 1)); [done|].
  destruct (Z.ltb_spec (hardBytes l) (size * (n + 1))); [done|].
  destruct (low && _) eqn:Hlo; [done|].
  destruct (executor_available (ep_owner e')) eqn:Hav; [|done].
  destruct (ep_open e') eqn:Hop; [|done]. simpl in Ed. injection Ed as ->.
  assert (sees st t = [ep_id e]) as Hsees by (unfold sees; by rewrite Hel, Ht).
  destruct (IH (seen ++ sees st t) (n + 1)) as (H1 & H2 & H3 & H4 & H5); try done; try lia.
  { intros ->. simpl in Hlo. zify_bools. lia. }
  assert (forall x, zlen (e :: x) = 1 + zlen x) as Hz by (intros; unfold zlen; simpl; lia).
  rewrite Hz, Z.add_assoc. split_and!; try done; try lia.
  - simpl. constructor; [|done]. intros (x & Ex & Hx)%list_elem_of_fmap.
    destruct (H5 x Hx) as [Hni _]. apply Hni. rewrite Hsees, <- Ex. apply elem_of_app. right.
    by apply list_elem_of_singleton.
  - intros x [->|Hx]%elem_of_cons; [|by eapply Hmono].
    split_and!; try done. exists t. split_and!; try done. constructor.
Qed.

(** ** Properties *)

(** C24. [route] takes the specification's decision on every target, in order:
    the plan's counters are the numbers of accepted and dropped targets and of
    drops per reason, and its batches group the accepted endpoints by owner
    loop, one non-empty batch per owner, each in the order of acceptance. *)
Theorem route_matches_decisions l st payload targets prio :
  limits_ok l ->
  exists s, route l st (Some payload) targets prio = Ok s /\
    let ds := decisions l st (zlen payload) (is_low prio) [] 0 targets in
    accepted_ (plan s) = zlen (accepts ds) /\
    dropped_ (plan s) = uwrap (zlen (drops ds)) /\
    (forall r, reasonCount (reasonCounts_ (plan s)) r = uwrap (count_reason r (drops ds))) /\
    zlen (accepts ds) + zlen (drops ds) = zlen targets /\
    grouped (batches_ (plan s)) (accepts ds).
Proof.
  intros Hl. eexists. split; [done|]. intros ds.
  pose proof (route_start_inv payload prio) as Hinv.
  destruct (route_loop_ok l st payload prio targets [] [] _ Hl Hinv) as (seen' & [_ _ Ha Hd [_ Hc] _ _ Hg] & _).
  { destruct Hl as (_ & _ & ? & _). unfold zlen. simpl. lia. }
  split_and!; try done. clear. unfold ds. generalize (@nil Z) 0.
  induction targets as [|t ts IH]; intros seen n; simpl; [done|].
  set (d := decide_target _ _ _ _ _ _ _).
  specialize (IH (seen ++ sees st t) (match d with Accept _ => n + 1 | Drop _ => n end)).
  unfold accepts, drops in *. destruct d; simpl; unfold zlen in *; simpl; lia.
Qed.

(** A plan respects the limits: at most [hardFanout] endpoints and
    [hardBytes] bytes of fan-out in total, at most the soft limits at low
    priority, no endpoint twice, and only eligible targets with an open endpoint
    whose owner accepts work. *)
Theorem route_respects_limits l st payload targets prio :
  limits_ok l ->
  let es := accepts (decisions l st (zlen payload) (is_low prio) [] 0 targets) in
  exists s, route l st (Some payload) targets prio = Ok s /\
    accepted_ (plan s) = zlen es /\ zlen es <= hardFanout l /\ zlen payload * zlen es <= hardBytes l /\
    (prio = LowPriority -> zlen es <= softFanout l /\ zlen payload * zlen es <= softBytes l) /\
    NoDup (ep_id <$> es) /\
    forall e, e ∈ es -> ep_open e = true /\ executor_available (ep_owner e) = true /\
      exists t, t ∈ targets /\ eligible st t = true /\ target_endpoint t = Some e.
Proof.
  intros Hl es. eexists. split; [done|].
  pose proof (route_start_inv payload prio) as Hinv.
  destruct (route_loop_ok l st payload prio targets [] [] _ Hl Hinv) as (seen' & [_ _ Ha _ _ _ _ _] & _).
  { destruct Hl as (_ & _ & ? & _). unfold zlen. simpl. lia. }
  destruct Hl as (Hs & Hsb & Hh & Hhb) eqn:E. clear E.
  destruct (decisions_bounds l st (zlen payload) (is_low prio) targets [] 0)
    as (H1 & H2 & H3 & H4 & H5); try done; try lia; [apply zlen_nonneg|].
  rewrite !Z.add_0_l in *. split_and!; try done.
  - intros ->. by apply H3.
  - intros e He. destruct (H5 e He) as (_ & ? & ? & ?). done.
Qed.

(** ** Concrete runs *)

Definition demo_limits : BroadcastLimits := mkBroadcastLimits 2 3 8 12.
Definition demo_target (id owner : Z) (open : bool) : BroadcastTarget :=
  mkTarget (Some (mkEndpoint id (mkOwner owner true) open)) (mkBinding 0 0 0 None) true.
Definition demo_targets : list BroadcastTarget :=
  [demo_target 1 7 true; demo_target 2 8 true; demo_target 1 7 true; demo_target 3 7 false;
   demo_target 4 7 true; demo_target 5 8 true].

Lemma demo_limits_ok : limits_ok demo_limits.
Proof. unfold limits_ok. simpl. lia. Qed.

Lemma route_matches_decisions_witness :
  exists s, route demo_limits ∅ (Some (zeros 4)) demo_targets NormalPriority = Ok s /\
    accepted_ (plan s) = 3 /\ dropped_ (plan s) = 3 /\
    reasonCount (reasonCounts_ (plan s)) DuplicateEndpoint = 1.
Proof.
  destruct (route_matches_decisions demo_limits ∅ (zeros 4) demo_targets NormalPriority demo_limits_ok)
    as (s & Hs & Ha & Hd & Hc & _).
  exists s. split; [exact Hs|]. rewrite Ha, Hd, Hc. vm_compute. auto.
Defined.

Lemma route_respects_limits_witness :
  exists s, route demo_limits ∅ (Some (zeros 4)) demo_targets LowPriority = Ok s /\
    accepted_ (plan s) = 2.
Proof.
  destruct (route_respects_limits demo_limits ∅ (zeros 4) demo_targets LowPriority demo_limits_ok)
    as (s & Hs & Ha & _).
  exists s. split; [exact Hs|]. rewrite Ha. reflexivity.
Defined.
