(* ===== verification/Dispatcher.v ===== *)
(** * The broadcast dispatcher

    Model of [gamenet::broadcast::BroadcastDispatcher]
    (include/gamenet/broadcast/BroadcastDispatcher.h,
    src/broadcast/BroadcastDispatcher.cc).

    - [Module Reservation] is [BroadcastDispatcher::State]: the outstanding task
      and byte counters, per owner and global, that concurrent calls of
      [dispatch] and the posted tasks reserve and release.  Every atomic load,
      compare-exchange and read-modify-write is one step of the machine, and
      steps of different reservations interleave freely.
    - [Module Dispatch] is one call of [dispatch] together with the tasks it
      posts, which run on other threads while the call goes on. *)

From S2P Require Import Prelude Transport Session Broadcast.

Local Open Scope Z_scope.

Record DispatchLimits := mkDispatchLimits {
  maxEndpointsPerTask : Z;
  maxBytesPerTask : Z;
  maxOutstandingTasksPerOwner : Z;
  maxOutstandingBytesPerOwner : Z;
  maxGlobalOutstandingBytes : Z;
  lowPriorityOutstandingBytes : Z;
}.

Definition logicalBytes (payloadBytes endpoints : Z) : Z :=
  if negb (payloadBytes =? 0) && (usize_max / payloadBytes <? endpoints)
  then usize_max else payloadBytes ⊗ endpoints.

Definition fitsWithin (current amount limit : Z) : bool :=
  (current <=? limit) && (amount <=? limit ⊖ current).

(** The constructor's check. *)
Definition BroadcastDispatcher_check (l : DispatchLimits) : result unit :=
  if (maxEndpointsPerTask l =? 0) || (maxBytesPerTask l =? 0)
     || (maxOutstandingTasksPerOwner l =? 0) || (maxOutstandingBytesPerOwner l =? 0)
     || (maxGlobalOutstandingBytes l =? 0)
     || (maxGlobalOutstandingBytes l <? lowPriorityOutstandingBytes l)
  then Throw invalid_argument else Ok tt.

Record limits_usize (l : DispatchLimits) : Prop := {
  lu_endpoints : is_usize (maxEndpointsPerTask l);
  lu_task_bytes : is_usize (maxBytesPerTask l);
  lu_owner_tasks : is_usize (maxOutstandingTasksPerOwner l);
  lu_owner_bytes : is_usize (maxOutstandingBytesPerOwner l);
  lu_global : is_usize (maxGlobalOutstandingBytes l);
  lu_low : is_usize (lowPriorityOutstandingBytes l);
}.

Lemma fitsWithin_spec c a l :
  is_usize c -> is_usize a -> is_usize l -> fitsWithin c a l = true <-> c + a <= l.
Proof.
  unfold is_usize, fitsWithin. intros. rewrite andb_true_iff, !Z.leb_le. split.
  - intros [? Ha]. unwrap. lia.
  - intros. split; [lia|]. unwrap. lia.
Qed.

Module Reservation.

(** ** [AtomicLimit] *)

Record AtomicLimit := mkLimit { current_ : Z; peak_ : Z; rejected_ : Z }.

(** Inside [tryReserve]: before the load, with a loaded [current], before and
    after the load of [peak_] in [updatePeak]. *)
Inductive LimitPc :=
  | PcLoad
  | PcLoaded (current : Z)
  | PcPeak (candidate : Z)
  | PcPeakLoaded (candidate peak : Z).

Inductive LimitOutcome :=
  | LimitAt (pc : LimitPc)
  | LimitAccepted (observed : Z)
  | LimitRejected (observed : Z).

(** One atomic action of [tryReserve(amount, limit)].  [spurious]: this
    compare-exchange fails although the value matches, as the weak form may. *)
Definition limit_step (spurious : bool) (amount limit : Z) (a : AtomicLimit) (pc : LimitPc) :
    AtomicLimit * LimitOutcome :=
  match pc with
  | PcLoad =>
      if amount =? 0 then (a, LimitAccepted (current_ a)) else (a, LimitAt (PcLoaded (current_ a)))
  | PcLoaded current =>
      if negb (fitsWithin current amount limit) then
        (mkLimit (current_ a) (peak_ a) (rejected_ a ⊕ 1), LimitRejected current)
      else
        let candidate := current ⊕ amount in
        if (current_ a =? current) && negb spurious
        then (mkLimit candidate (peak_ a) (rejected_ a), LimitAt (PcPeak candidate))
        else (a, LimitAt (PcLoaded (current_ a)))
  | PcPeak candidate => (a, LimitAt (PcPeakLoaded candidate (peak_ a)))
  | PcPeakLoaded candidate peak =>
      if peak <? candidate then
        if (peak_ a =? peak) && negb spurious
        then (mkLimit (current_ a) candidate (rejected_ a), LimitAccepted candidate)
        else (a, LimitAt (PcPeakLoaded candidate (peak_ a)))
      else (a, LimitAccepted candidate)
  end.

(** [release]: [None] is the [LOG_FATAL] of an underflow. *)
Definition limit_release (amount : Z) (a : AtomicLimit) : option AtomicLimit :=
  if amount =? 0 then Some a
  else if current_ a <? amount then None
  else Some (mkLimit (current_ a ⊖ amount) (peak_ a) (rejected_ a)).

(** ** Owners *)

Record OwnerOutstanding := mkOwnerOutstanding {
  ownerId : Z;
  taskLimit : Z;
  byteLimit : Z;
  tasks : AtomicLimit;
  bytes : AtomicLimit;
}.

Definition zero_limit : AtomicLimit := mkLimit 0 0 0.

Definition OwnerOutstanding_new (owner : Z) (l : DispatchLimits) : OwnerOutstanding :=
  mkOwnerOutstanding owner (maxOutstandingTasksPerOwner l) (maxOutstandingBytesPerOwner l)
    zero_limit zero_limit.

(** Owner objects are shared: [heap] holds them and the registry, sorted by
    owner id, points into it. *)
Record State := mkState {
  globalByteLimit : Z;
  lowPriorityByteLimit : Z;
  globalTasks : AtomicLimit;
  globalBytes : AtomicLimit;
  accepting : bool;
  owners : list nat;
  heap : list OwnerOutstanding;
}.

Definition State_new (l : DispatchLimits) : State :=
  mkState (maxGlobalOutstandingBytes l) (lowPriorityOutstandingBytes l) zero_limit zero_limit
    true [] [].

Definition id_at (h : list OwnerOutstanding) (o : nat) : Z :=
  match h !! o with Some x => ownerId x | None => 0 end.

(** [std::lower_bound]: the number of registry entries below [id]. *)
Fixpoint lower_bound (h : list OwnerOutstanding) (id : Z) (r : list nat) : nat :=
  match r with
  | [] => 0
  | o :: r => if id_at h o <? id then S (lower_bound h id r) else 0
  end.

Definition findOwner (h : list OwnerOutstanding) (r : list nat) (id : Z) : option nat :=
  match r !! lower_bound h id r with
  | None => None
  | Some o => if id_at h o =? id then Some o else None
  end.

(** [ownerFor] after its first search failed: the part under
    [ownerRegistrationMutex]. *)
Definition registerOwner (l : DispatchLimits) (id : Z) (s : State) : nat * State :=
  match findOwner (heap s) (owners s) id with
  | Some o => (o, s)
  | None =>
      let o := length (heap s) in
      let position := lower_bound (heap s) id (owners s) in
      (o, mkState (globalByteLimit s) (lowPriorityByteLimit s) (globalTasks s) (globalBytes s)
            (accepting s) (take position (owners s) ++ o :: drop position (owners s))
            (heap s ++ [OwnerOutstanding_new id l]))
  end.

(** ** Counters by scope *)

Inductive Scope := OwnerTasks | OwnerBytes | GlobalBytes | GlobalTasks.

Global Instance Scope_eq_dec : EqDecision Scope.
Proof. solve_decision. Defined.

Definition counter (s : State) (sc : Scope) (o : nat) : AtomicLimit :=
  match sc with
  | GlobalTasks => globalTasks s
  | GlobalBytes => globalBytes s
  | OwnerTasks => match heap s !! o with Some x => tasks x | None => zero_limit end
  | OwnerBytes => match heap s !! o with Some x => bytes x | None => zero_limit end
  end.

Definition set_heap (h : list OwnerOutstanding) (s : State) : State :=
  mkState (globalByteLimit s) (lowPriorityByteLimit s) (globalTasks s) (globalBytes s)
    (accepting s) (owners s) h.

Definition set_counter (sc : Scope) (o : nat) (a : AtomicLimit) (s : State) : State :=
  match sc with
  | GlobalTasks => mkState (globalByteLimit s) (lowPriorityByteLimit s) a (globalBytes s)
                     (accepting s) (owners s) (heap s)
  | GlobalBytes => mkState (globalByteLimit s) (lowPriorityByteLimit s) (globalTasks s) a
                     (accepting s) (owners s) (heap s)
  | OwnerTasks => set_heap (alter (fun x =>
      mkOwnerOutstanding (ownerId x) (taskLimit x) (byteLimit x) a (bytes x)) o (heap s)) s
  | OwnerBytes => set_heap (alter (fun x =>
      mkOwnerOutstanding (ownerId x) (taskLimit x) (byteLimit x) (tasks x) a) o (heap s)) s
  end.

(** ** Reservations in progress *)

(** [FindOwner], [RegisterOwner]: in [ownerFor]; [FirstCheck] to [FinalCheck]
    and [Releasing] before the result: in [tryReserve]; [Held]: the
    reservation is outstanding; [Releasing]: a rollback with its reason, or the
    release of an outstanding reservation, with the scopes left to release. *)
Inductive Phase :=
  | FindOwner
  | RegisterOwner
  | FirstCheck (o : nat)
  | Reserving (o : nat) (sc : Scope) (pc : LimitPc)
  | FinalCheck (o : nat)
  | Held (o : nat)
  | RollingBack (o : nat) (todo : list Scope) (r : BroadcastReason)
  | Releasing (o : nat) (todo : list Scope).

Record Attempt := mkAttempt {
  at_owner : Z;
  at_bytes : Z;
  at_priority : BroadcastPriority;
  at_phase : Phase;
}.

Definition amount (sc : Scope) (a : Attempt) : Z :=
  match sc with OwnerTasks | GlobalTasks => 1 | OwnerBytes | GlobalBytes => at_bytes a end.

Definition scope_limit (s : State) (sc : Scope) (o : nat) (prio : BroadcastPriority) : Z :=
  match sc with
  | OwnerTasks => match heap s !! o with Some x => taskLimit x | None => 0 end
  | OwnerBytes => match heap s !! o with Some x => byteLimit x | None => 0 end
  | GlobalBytes => if is_low prio then lowPriorityByteLimit s else globalByteLimit s
  | GlobalTasks => usize_max
  end.

Inductive Outcome :=
  | Continue (p : Phase)
  | Return (r : BroadcastReason) (p : option Phase) (** [tryReserve] returns; what follows *)
  | Finished                                       (** [release] returns *)
  | Fatal.

(** Where [tryReserve] goes when a scope was reserved. *)
Definition reserved (o : nat) (sc : Scope) : Outcome :=
  match sc with
  | OwnerTasks => Continue (Reserving o OwnerBytes PcLoad)
  | OwnerBytes => Continue (Reserving o GlobalBytes PcLoad)
  | GlobalBytes => Continue (FinalCheck o)
  | GlobalTasks => Return NoReason (Some (Held o))
  end.

(** ... and when it was refused. *)
Definition refused (s : State) (o : nat) (sc : Scope) (a : Attempt) (observed : Z) : Outcome :=
  match sc with
  | OwnerTasks => Return OwnerOutstandingTaskLimit None
  | OwnerBytes => Continue (RollingBack o [OwnerTasks] OwnerOutstandingByteLimit)
  | GlobalBytes =>
      Continue (RollingBack o [OwnerBytes; OwnerTasks]
        (if is_low (at_priority a) && fitsWithin observed (at_bytes a) (globalByteLimit s)
         then LowPrioritySoftLimit else GlobalOutstandingByteLimit))
  | GlobalTasks => Fatal
  end.

(** One atomic action on behalf of a reservation. *)
Definition attempt_step (l : DispatchLimits) (spurious : bool) (s : State) (a : Attempt) :
    State * Outcome :=
  match at_phase a with
  | FindOwner =>
      match findOwner (heap s) (owners s) (at_owner a) with
      | Some o => (s, Continue (FirstCheck o))
      | None => (s, Continue RegisterOwner)
      end
  | RegisterOwner =>
      let '(o, s') := registerOwner l (at_owner a) s in (s', Continue (FirstCheck o))
  | FirstCheck o =>
      if accepting s then (s, Continue (Reserving o OwnerTasks PcLoad))
      else (s, Return OwnerShutdown None)
  | Reserving o sc pc =>
      let '(c, out) := limit_step spurious (amount sc a) (scope_limit s sc o (at_priority a))
                         (counter s sc o) pc in
      let s' := set_counter sc o c s in
      match out with
      | LimitAt pc' => (s', Continue (Reserving o sc pc'))
      | LimitAccepted _ => (s', reserved o sc)
      | LimitRejected observed => (s', refused s o sc a observed)
      end
  | FinalCheck o =>
      if accepting s then (s, Continue (Reserving o GlobalTasks PcLoad))
      else (s, Continue (RollingBack o [GlobalBytes; OwnerBytes; OwnerTasks] OwnerShutdown))
  | RollingBack o [] r => (s, Return r None)
  | RollingBack o (sc :: todo) r =>
      match limit_release (amount sc a) (counter s sc o) with
      | Some c => (set_counter sc o c s, Continue (RollingBack o todo r))
      | None => (s, Fatal)
      end
  | Releasing o [] => (s, Finished)
  | Releasing o (sc :: todo) =>
      match limit_release (amount sc a) (counter s sc o) with
      | Some c => (set_counter sc o c s, Continue (Releasing o todo))
      | None => (s, Fatal)
      end
  | Held o => (s, Continue (Held o))
  end.

(** ** The machine *)

(** [results]: what [tryReserve] returned, latest last. *)
Record Machine := mkMachine {
  dstate : State;
  attempts : gmap nat Attempt;
  results : list (nat * BroadcastReason);
  fatal : bool;
}.

Inductive Label :=
  | LBegin (i : nat) (owner bytes : Z) (prio : BroadcastPriority)
  | LStep (i : nat) (spurious : bool)
  | LRelease (i : nat)      (** [releaseReservation()]; the first call wins *)
  | LShutdown.

Definition with_phase (p : Phase) (a : Attempt) : Attempt :=
  mkAttempt (at_owner a) (at_bytes a) (at_priority a) p.

Definition shutdown (s : State) : State :=
  mkState (globalByteLimit s) (lowPriorityByteLimit s) (globalTasks s) (globalBytes s) false
    (owners s) (heap s).

(** A new reservation is an object in memory, so fewer than 2^64 - 1 exist. *)
Definition reservation_step (l : DispatchLimits) (lb : Label) (m : Machine) : option Machine :=
  if fatal m then None else
  match lb with
  | LBegin i owner bytes prio =>
      if bool_decide (attempts m !! i = None) && (Z.of_nat (size (attempts m)) + 1 <? usize_max)
         && (0 <=? bytes) && (bytes <? usize_lim)
      then Some (mkMachine (dstate m) (<[i := mkAttempt owner bytes prio FindOwner]> (attempts m))
                   (results m) false)
      else None
  | LStep i spurious =>
      match attempts m !! i with
      | None => None
      | Some a =>
          let '(s, out) := attempt_step l spurious (dstate m) a in
          match out with
          | Continue p => Some (mkMachine s (<[i := with_phase p a]> (attempts m)) (results m) false)
          | Return r None => Some (mkMachine s (delete i (attempts m)) (results m ++ [(i, r)]) false)
          | Return r (Some p) =>
              Some (mkMachine s (<[i := with_phase p a]> (attempts m)) (results m ++ [(i, r)]) false)
          | Finished => Some (mkMachine s (delete i (attempts m)) (results m) false)
          | Fatal => Some (mkMachine s (attempts m) (results m) true)
          end
      end
  | LRelease i =>
      match attempts m !! i with
      | Some a =>
          match at_phase a with
          | Held o =>
              Some (mkMachine (dstate m)
                (<[i := with_phase (Releasing o [GlobalBytes; OwnerBytes; OwnerTasks; GlobalTasks]) a]>
                   (attempts m)) (results m) false)
          | _ => Some m
          end
      | None => Some m
      end
  | LShutdown => Some (mkMachine (shutdown (dstate m)) (attempts m) (results m) false)
  end.

Fixpoint reservation_steps (l : DispatchLimits) (lbs : list Label) (m : Machine) : option Machine :=
  match lbs with
  | [] => Some m
  | lb :: lbs => match reservation_step l lb m with Some m' => reservation_steps l lbs m' | None => None end
  end.

Definition initial (l : DispatchLimits) : Machine := mkMachine (State_new l) ∅ [] false.

(** [outstanding()] and [outstandingStats()] *)
Record DispatchOutstandingSnapshot := mkOutstanding {
  out_tasks : Z;
  out_bytes : Z;
  peakTasks : Z;
  peakBytes : Z;
  rejectedGlobalByteReservations : Z;
  out_accepting : bool;
}.

(** Each field is a load of its own: [at_load n] is the state the [n]-th load
    sees. *)
Definition globalSnapshot (at_load : nat -> State) : DispatchOutstandingSnapshot :=
  mkOutstanding (current_ (globalTasks (at_load 0%nat))) (current_ (globalBytes (at_load 1%nat)))
    (peak_ (globalTasks (at_load 2%nat))) (peak_ (globalBytes (at_load 3%nat)))
    (rejected_ (globalBytes (at_load 4%nat))) (accepting (at_load 5%nat)).

(** ** Invariant *)

Definition before (sc : Scope) : list Scope :=
  match sc with
  | OwnerTasks => []
  | OwnerBytes => [OwnerTasks]
  | GlobalBytes => [OwnerBytes; OwnerTasks]
  | GlobalTasks => [GlobalBytes; OwnerBytes; OwnerTasks]
  end.

(** The value an attempt is publishing as a peak; it holds the scope then. *)
Definition pending (pc : LimitPc) : option Z :=
  match pc with PcPeak c | PcPeakLoaded c _ => Some c | _ => None end.

Definition publishing (pc : LimitPc) : bool :=
  match pc with PcPeak _ | PcPeakLoaded _ _ => true | _ => false end.

(** The scopes a reservation holds in a phase. *)
Definition holds (p : Phase) : list Scope :=
  match p with
  | Reserving _ sc pc => if publishing pc then sc :: before sc else before sc
  | FinalCheck _ => [GlobalBytes; OwnerBytes; OwnerTasks]
  | Held _ => [GlobalTasks; GlobalBytes; OwnerBytes; OwnerTasks]
  | RollingBack _ todo _ | Releasing _ todo => todo
  | _ => []
  end.

Definition phase_owner (p : Phase) : option nat :=
  match p with
  | FirstCheck o | Reserving o _ _ | FinalCheck o | Held o | RollingBack o _ _ | Releasing o _ => Some o
  | _ => None
  end.

Definition is_global (sc : Scope) : bool :=
  match sc with GlobalBytes | GlobalTasks => true | _ => false end.

(** Does a reservation with owner [po] use the counter [sc] of owner [o]? *)
Definition mine (sc : Scope) (o : nat) (po : option nat) : bool :=
  is_global sc || bool_decide (po = Some o).

Definition share (sc : Scope) (o : nat) (a : Attempt) : Z :=
  if bool_decide (sc ∈ holds (at_phase a)) && mine sc o (phase_owner (at_phase a))
  then amount sc a else 0.

Definition cap (s : State) (sc : Scope) (o : nat) : Z := scope_limit s sc o NormalPriority.

Definition pc_ok (c : AtomicLimit) (cap : Z) (sc : Scope) (pc : LimitPc) : Prop :=
  match pc with
  | PcLoad => True
  | PcLoaded v => 0 <= v <= cap /\ (sc = GlobalTasks -> v < usize_max)
  | PcPeak v => 0 <= v <= cap
  | PcPeakLoaded v p => 0 <= v <= cap /\ p <= peak_ c
  end.

Definition phase_ok (s : State) (p : Phase) : Prop :=
  (forall o, phase_owner p = Some o -> (o < length (heap s))%nat) /\
  NoDup (holds p) /\
  match p with
  | Reserving o sc pc => pc_ok (counter s sc o) (cap s sc o) sc pc
  | RollingBack _ _ r => r <> NoReason
  | Releasing _ todo => todo = [] \/ last todo = Some GlobalTasks
  | _ => True
  end.

Definition attempt_ok (s : State) (a : Attempt) : Prop :=
  (is_usize (at_bytes a) /\
   forall o, phase_owner (at_phase a) = Some o -> id_at (heap s) o = at_owner a) /\
  phase_ok s (at_phase a).

(** A reservation is about to raise the peak of this counter to [v] or more. *)
Definition raises (a : Attempt) (sc : Scope) (o : nat) (v : Z) : Prop :=
  match at_phase a with
  | Reserving o' sc' pc =>
      sc' = sc /\ mine sc o (Some o') = true /\ exists w, pending pc = Some w /\ v <= w
  | _ => False
  end.

Definition raising (m : gmap nat Attempt) (sc : Scope) (o : nat) (v : Z) : Prop :=
  exists i a, m !! i = Some a /\ raises a sc o v.

Record registry_ok (s : State) : Prop := {
  rg_sorted : StronglySorted (fun a b => id_at (heap s) a < id_at (heap s) b) (owners s);
  rg_all : forall o, o ∈ owners s <-> (o < length (heap s))%nat;
}.

Record config_ok (l : DispatchLimits) (s : State) : Prop := {
  cf_global : globalByteLimit s = maxGlobalOutstandingBytes l;
  cf_low : lowPriorityByteLimit s = lowPriorityOutstandingBytes l;
  cf_owner : forall o x, heap s !! o = Some x ->
    taskLimit x = maxOutstandingTasksPerOwner l /\ byteLimit x = maxOutstandingBytesPerOwner l;
}.

Record inv (l : DispatchLimits) (m : Machine) : Prop := {
  iv_count : forall sc o, current_ (counter (dstate m) sc o) = msum (share sc o) (attempts m);
  iv_cap : forall sc o, current_ (counter (dstate m) sc o) <= cap (dstate m) sc o /\
    0 <= peak_ (counter (dstate m) sc o) <= cap (dstate m) sc o;
  iv_peak : forall sc o, current_ (counter (dstate m) sc o) <= peak_ (counter (dstate m) sc o) \/
    raising (attempts m) sc o (current_ (counter (dstate m) sc o));
  iv_attempts : map_Forall (fun _ a => attempt_ok (dstate m) a) (attempts m);
  iv_size : Z.of_nat (size (attempts m)) < usize_max;
  iv_registry : registry_ok (dstate m);
  iv_config : config_ok l (dstate m);
  iv_fatal : fatal m = false;
}.

Definition limits_ok (l : DispatchLimits) : Prop :=
  limits_usize l /\ BroadcastDispatcher_check l = Ok tt.

(** *** The limit *)

Lemma share_nonneg sc o a : is_usize (at_bytes a) -> 0 <= share sc o a.
Proof. unfold share, is_usize. intros. case_match; [|lia]. destruct sc; simpl; lia. Qed.

Definition gained (out : LimitOutcome) : bool :=
  match out with LimitAt pc => publishing pc | LimitAccepted _ => true | LimitRejected _ => false end.

(** One action of [tryReserve]: the counter grows by [amount] exactly when the
    reservation starts to hold it, and never beyond the limit in force. *)
Lemma limit_step_ok spurious amt lim cp sc c pc c' out :
  is_usize amt -> is_usize cp -> 0 <= lim <= cp ->
  0 <= current_ c <= cp -> 0 <= peak_ c <= cp -> (sc = GlobalTasks -> current_ c < usize_max) ->
  pc_ok c cp sc pc ->
  limit_step spurious amt lim c pc = (c', out) ->
  current_ c' = current_ c + (if gained out then amt else 0) - (if publishing pc then amt else 0) /\
  0 <= current_ c' <= cp /\ peak_ c <= peak_ c' <= cp /\
  match out with LimitAt pc' => pc_ok c' cp sc pc' | _ => True end /\
  (current_ c' <= peak_ c' \/
   match out with LimitAt pc' => exists w, pending pc' = Some w /\ current_ c' <= w | _ => False end \/
   (current_ c' = current_ c /\ ~ current_ c <= peak_ c /\
    match pending pc with Some w => w < current_ c | None => True end)) /\
  (publishing pc = true -> match out with
   | LimitAt pc' => pending pc' = pending pc | LimitAccepted _ => True | LimitRejected _ => False end).
Proof.
  unfold is_usize. intros Hamt Hcp Hlim Hc Hp Hgt Hpc Hstep.
  assert (current_ c <= peak_ c \/ peak_ c < current_ c) as Hcase by lia.
  destruct pc as [|v|v|v p]; simpl in *.
  - destruct (amt =? 0) eqn:E; zify_bools; simplify_eq; simpl; split_and!; try lia; try done;
      (destruct Hcase; [by left|right; right; split_and!; (done || lia)]).
  - destruct Hpc as [Hv Hvt].
    destruct (fitsWithin v amt lim) eqn:Hf; simpl in *.
    + apply fitsWithin_spec in Hf; [|unfold is_usize; lia..].
      rewrite (uwrap_small (v + amt)) in Hstep by lia.
      destruct (_ && _) eqn:E; zify_bools; simplify_eq; simpl.
      * split_and!; try lia; try done. right; left. eexists; split; [done|lia].
      * split_and!; try lia; done.
    + simplify_eq; simpl. split_and!; try lia; done.
  - simplify_eq; simpl. split_and!; try lia; eauto.
    destruct Hcase; [auto|]. destruct (decide (current_ c' <= v)); [right; left; eauto|].
    right; right. split_and!; lia.
  - destruct Hpc as [Hv Hpv]. destruct (p <? v) eqn:E; zify_bools;
      [destruct (_ && _) eqn:E'; zify_bools|]; simplify_eq; simpl; split_and!; try lia; eauto.
    destruct Hcase; [auto|]. destruct (decide (current_ c' <= v)); [right; left; eauto|].
    right; right. split_and!; lia.
Qed.

(** *** The registry *)

Lemma lower_bound_le h id r : (lower_bound h id r <= length r)%nat.
Proof. induction r as [|o r IH]; simpl; [lia|]. case_if; lia. Qed.

Lemma lower_bound_below h id r i o :
  r !! i = Some o -> (i < lower_bound h id r)%nat -> id_at h o < id.
Proof.
  revert i. induction r as [|x r IH]; intros i Hi Hlt; simpl in *; [done|].
  destruct (id_at h x <? id) eqn:E; zify_bools; [|lia].
  destruct i as [|i]; simpl in Hi; [by simplify_eq|]. apply (IH i); [done|lia].
Qed.

Lemma lower_bound_at h id r o : r !! lower_bound h id r = Some o -> id <= id_at h o.
Proof.
  induction r as [|x r IH]; simpl; [done|]. destruct (id_at h x <? id) eqn:E; zify_bools; [done|].
  intros [= ->]. lia.
Qed.

Lemma findOwner_Some h r id o : findOwner h r id = Some o -> o ∈ r /\ id_at h o = id.
Proof.
  unfold findOwner. destruct (r !! lower_bound h id r) as [x|] eqn:Ex; [|done].
  destruct (id_at h x =? id) eqn:E; zify_bools; [|done]. intros [= ->].
  split; [by eapply list_elem_of_lookup_2|done].
Qed.

Lemma sorted_lookup {A} (R : A -> A -> Prop) l i j x y :
  StronglySorted R l -> l !! i = Some x -> l !! j = Some y -> (i < j)%nat -> R x y.
Proof.
  intros Hs. revert i j. induction Hs as [|a l Hs IH Ha]; intros i j Hi Hj Hij; [done|].
  destruct j as [|j]; [lia|]. simpl in Hj. destruct i as [|i]; simpl in Hi.
  - simplify_eq. rewrite Forall_forall in Ha. apply Ha. by eapply list_elem_of_lookup_2.
  - apply (IH i j); [done|done|lia].
Qed.

Lemma sorted_middle {A} (R : A -> A -> Prop) l1 l2 x :
  StronglySorted R (l1 ++ l2) -> (forall y, y ∈ l1 -> R y x) -> (forall y, y ∈ l2 -> R x y) ->
  StronglySorted R (l1 ++ x :: l2).
Proof.
  intros (H12 & H1 & H2)%StronglySorted_app Hl Hr. apply StronglySorted_app. split_and!; [|done|].
  - intros a b Ha [->|Hb]%elem_of_cons; auto.
  - constructor; [done|]. by apply Forall_forall.
Qed.

(** Above the insertion point of an absent id every id is larger. *)
Lemma lower_bound_above h id r i o :
  StronglySorted (fun a b => id_at h a < id_at h b) r -> findOwner h r id = None ->
  r !! i = Some o -> (lower_bound h id r <= i)%nat -> id < id_at h o.
Proof.
  intros Hs Hf Hi Hle. unfold findOwner in Hf.
  destruct (r !! lower_bound h id r) as [x|] eqn:Ex.
  - pose proof (lower_bound_at _ _ _ _ Ex).
    destruct (id_at h x =? id) eqn:E; zify_bools; [done|].
    destruct (decide (lower_bound h id r = i)) as [<-|Hne]; [simplify_eq; lia|].
    pose proof (sorted_lookup _ _ _ _ _ _ Hs Ex Hi ltac:(lia)). simpl in *. lia.
  - apply lookup_ge_None in Ex. apply lookup_lt_Some in Hi. lia.
Qed.

Lemma findOwner_complete h r id o :
  StronglySorted (fun a b => id_at h a < id_at h b) r ->
  findOwner h r id = None -> o ∈ r -> id_at h o <> id.
Proof.
  intros Hs Hf (i & Hi)%list_elem_of_lookup_1.
  destruct (decide (i < lower_bound h id r)%nat) as [Hlt|Hge].
  - pose proof (lower_bound_below _ _ _ _ _ Hi Hlt). lia.
  - pose proof (lower_bound_above _ _ _ _ _ Hs Hf Hi ltac:(lia)). lia.
Qed.

Lemma id_at_app h x o : (o < length h)%nat -> id_at (h ++ [x]) o = id_at h o.
Proof. intros. unfold id_at. by rewrite lookup_app_l. Qed.

Lemma registerOwner_ok l id s o s' :
  registry_ok s -> registerOwner l id s = (o, s') ->
  registry_ok s' /\ o ∈ owners s' /\ id_at (heap s') o = id /\
  (s' = s \/ o = length (heap s) /\ heap s' = heap s ++ [OwnerOutstanding_new id l] /\
   globalTasks s' = globalTasks s /\ globalBytes s' = globalBytes s /\
   globalByteLimit s' = globalByteLimit s /\ lowPriorityByteLimit s' = lowPriorityByteLimit s).
Proof.
  intros Hr Hreg. unfold registerOwner in Hreg.
  destruct (findOwner (heap s) (owners s) id) as [o'|] eqn:Hf.
  { simplify_eq. apply findOwner_Some in Hf as [? ?]. auto. }
  simplify_eq. set (h := heap s) in *. set (r := owners s) in *. set (k := lower_bound h id r).
  destruct Hr as [Hs Hall]. fold h r in Hs, Hall.
  assert (id_at (h ++ [OwnerOutstanding_new id l]) (length h) = id) as Hnew
    by (unfold id_at; by rewrite list_lookup_middle).
  assert (forall x, x ∈ r -> id_at (h ++ [OwnerOutstanding_new id l]) x = id_at h x) as Hold
    by (intros x Hx; apply id_at_app; by apply Hall).
  split; [|split; [|split]]; simpl; fold h; auto 9.
  2: { apply elem_of_app. right. constructor. }
  split; simpl; fold h r k.
  - apply sorted_middle.
    + rewrite take_drop. apply (StronglySorted_agree (fun a b => id_at h a < id_at h b)); [|done].
      intros x y Hx Hy ?. by rewrite !Hold.
    + intros x (i & Hi)%list_elem_of_lookup_1. apply lookup_take_Some in Hi as [Hi Hlt].
      rewrite Hnew, Hold by (by eapply list_elem_of_lookup_2). by eapply lower_bound_below.
    + intros x (i & Hi)%list_elem_of_lookup_1. rewrite lookup_drop in Hi.
      rewrite Hnew, Hold by (by eapply list_elem_of_lookup_2).
      eapply lower_bound_above; [done|done|done|lia].
  - intros x. rewrite length_app, elem_of_app, elem_of_cons. simpl.
    assert (x ∈ r <-> x ∈ take k r \/ x ∈ drop k r) as Hr
      by (rewrite <- (take_drop k r) at 1; apply elem_of_app).
    rewrite Hall in Hr.
    destruct (decide (x = length h)) as [->|]; [split; [lia|auto]|].
    assert (x < length h + 1 <-> x < length h)%nat as -> by lia. tauto.
Qed.

(** *** One atomic action *)

(** What a change of state must keep for the other reservations. *)
Record later (s s' : State) : Prop := {
  lt_heap : (length (heap s) <= length (heap s'))%nat;
  lt_counter : forall sc o, is_global sc = true \/ (o < length (heap s))%nat ->
    peak_ (counter s sc o) <= peak_ (counter s' sc o) /\ cap s' sc o = cap s sc o;
  lt_id : forall o, (o < length (heap s))%nat -> id_at (heap s') o = id_at (heap s) o;
}.

Lemma later_refl s : later s s.
Proof. split; [lia| |done]. intros. split; [lia|done]. Qed.

Lemma attempt_ok_later s s' a : later s s' -> attempt_ok s a -> attempt_ok s' a.
Proof.
  intros [Hh Hc Hid] ([Hb Hio] & Ho & Hnd & Hp). split; [|split; [|split; [done|]]].
  - split; [done|]. intros o Hpo. rewrite Hid by (by apply Ho). auto.
  - intros o Hpo. specialize (Ho o Hpo). lia.
  - destruct (at_phase a) as [| | |o sc pc| | | |] eqn:E; try done. simpl in *.
    destruct (Hc sc o) as [Hpk Hcp]; [right; by apply Ho|].
    unfold pc_ok in *. destruct pc; rewrite ?Hcp in *; try done. split; [tauto|lia].
Qed.

Definition option_share (sc : Scope) (o : nat) (b : option Attempt) : Z :=
  match b with Some b => share sc o b | None => 0 end.

Definition replace_attempt (i : nat) (b : option Attempt) (m : gmap nat Attempt) : gmap nat Attempt :=
  match b with Some b => <[i := b]> m | None => delete i m end.

Lemma inv_replace l m s' i a b res :
  inv l m -> attempts m !! i = Some a ->
  later (dstate m) s' -> registry_ok s' -> config_ok l s' ->
  (forall sc o, current_ (counter s' sc o) =
    current_ (counter (dstate m) sc o) - share sc o a + option_share sc o b) ->
  (forall sc o, current_ (counter s' sc o) <= cap s' sc o /\ 0 <= peak_ (counter s' sc o) <= cap s' sc o) ->
  (forall sc o, current_ (counter s' sc o) <= peak_ (counter s' sc o) \/
    (exists b', b = Some b' /\ raises b' sc o (current_ (counter s' sc o))) \/
    (current_ (counter s' sc o) <= current_ (counter (dstate m) sc o) /\
     ~ current_ (counter (dstate m) sc o) <= peak_ (counter (dstate m) sc o) /\
     ~ raises a sc o (current_ (counter (dstate m) sc o)))) ->
  (forall b', b = Some b' -> attempt_ok s' b') ->
  inv l (mkMachine s' (replace_attempt i b (attempts m)) res false).
Proof.
  intros [Hcnt Hcap Hpk Hat Hsz Hreg Hcf _] Hi Hl Hreg' Hcf' Hcur Hcap' Hpk' Hb.
  split; simpl; try done.
  - intros sc o. rewrite Hcur, Hcnt. destruct b as [b|]; simpl.
    + by rewrite (msum_update _ _ _ a).
    + rewrite (msum_delete _ _ _ a) by done. lia.
  - intros sc o. destruct (Hpk' sc o) as [?|[(b' & -> & Hr)|(Hle & Hn & Hna)]]; [by left|right..].
    + exists i, b'. split; [apply lookup_insert_eq|done].
    + destruct (Hpk sc o) as [?|(j & c & Hj & Hr)]; [done|]. exists j, c.
      assert (j <> i) as Hji by (intros ->; rewrite Hi in Hj; simplify_eq; done).
      split; [destruct b; simpl; by rewrite ?lookup_insert_ne, ?lookup_delete_ne|].
      unfold raises in *. destruct (at_phase c); try done.
      destruct Hr as (? & ? & w & ? & ?). split_and!; try done. exists w. split; [done|lia].
  - intros j c Hj. destruct b as [b|]; simpl in Hj.
    + apply lookup_insert_Some in Hj as [[<- <-]|[_ Hj]]; [by apply Hb|].
      eapply attempt_ok_later; [done|by eapply Hat].
    + apply lookup_delete_Some in Hj as [_ Hj]. eapply attempt_ok_later; [done|by eapply Hat].
  - destruct b; simpl; [rewrite map_size_insert, Hi|rewrite map_size_delete, Hi]; simpl; lia.
Qed.

(** An action that changes no counter, nor what the reservation holds. *)
Lemma inv_same_state l m i a b res :
  inv l m -> attempts m !! i = Some a ->
  (forall sc o, share sc o a = option_share sc o b) ->
  (forall sc o v, ~ raises a sc o v) ->
  (forall b', b = Some b' -> attempt_ok (dstate m) b') ->
  inv l (mkMachine (dstate m) (replace_attempt i b (attempts m)) res false).
Proof.
  intros Hinv Hi Hsh Hr Hb. destruct Hinv as [] eqn:E. clear E.
  apply (inv_replace l m _ i a); try done; try apply later_refl.
  - intros. rewrite Hsh. lia.
  - intros sc o. destruct (decide (current_ (counter (dstate m) sc o) <= peak_ (counter (dstate m) sc o)));
      [by left|right; right]. split_and!; [lia|done|apply Hr].
Qed.

(** *** Changing one counter *)

Lemma counter_set sc o c s sc' o' :
  is_global sc = true \/ (o < length (heap s))%nat ->
  counter (set_counter sc o c s) sc' o' =
    if decide (sc = sc') then if mine sc o' (Some o) then c else counter s sc' o'
    else counter s sc' o'.
Proof.
  intros H. unfold mine. destruct (decide (sc = sc')) as [<-|Hne].
  - destruct sc; simpl; try done; simpl in H; destruct H as [|H]; try done;
      apply lookup_lt_is_Some in H as [x Hx]; case_bool_decide as E; simplify_eq;
      rewrite ?list_lookup_alter_eq, ?list_lookup_alter_ne by congruence; by rewrite ?Hx.
  - destruct sc, sc'; try done; simpl; destruct (decide (o = o')) as [<-|];
      rewrite ?list_lookup_alter_eq, ?list_lookup_alter_ne by done; by destruct (heap s !! o).
Qed.

Lemma set_counter_frame sc o c s :
  length (heap (set_counter sc o c s)) = length (heap s) /\
  owners (set_counter sc o c s) = owners s /\
  (forall x, id_at (heap (set_counter sc o c s)) x = id_at (heap s) x) /\
  (forall sc' o' p, scope_limit (set_counter sc o c s) sc' o' p = scope_limit s sc' o' p).
Proof.
  unfold id_at. destruct sc; simpl; rewrite ?length_alter; split_and!; try done.
  all: try (intros x; destruct (decide (o = x)) as [<-|];
    rewrite ?list_lookup_alter_eq, ?list_lookup_alter_ne by done; by destruct (heap s !! o)).
  all: intros sc' x p; destruct sc'; simpl; try done; destruct (decide (o = x)) as [<-|];
    rewrite ?list_lookup_alter_eq, ?list_lookup_alter_ne by done; by destruct (heap s !! o).
Qed.

Lemma set_counter_twice sc o c c1 s :
  set_counter sc o c (set_counter sc o c1 s) = set_counter sc o c s.
Proof.
  destruct sc; simpl; try done; unfold set_heap; simpl; f_equal; apply list_eq; intros j;
    rewrite !list_lookup_alter; (case_decide; [|done]); rewrite decide_True by done; by destruct (heap s !! o).
Qed.

Lemma set_counter_registry sc o c s : registry_ok s -> registry_ok (set_counter sc o c s).
Proof.
  intros [Hs Ha]. destruct (set_counter_frame sc o c s) as (Hl & Ho & Hid & _).
  split; rewrite ?Ho, ?Hl; [|done].
  eapply StronglySorted_agree; [|done]. intros x y _ _. by rewrite !Hid.
Qed.

Lemma set_counter_config l sc o c s : config_ok l s -> config_ok l (set_counter sc o c s).
Proof.
  intros [Hg Hl Ho]. split.
  - by destruct sc.
  - by destruct sc.
  - intros x y. destruct sc; simpl; try apply Ho; rewrite list_lookup_alter;
      (case_decide as E; [subst x|by apply Ho]); destruct (heap s !! o) as [z|] eqn:Hz;
      intros [= <-]; by apply (Ho o z).
Qed.

Lemma share_phase sc o a p :
  share sc o (with_phase p a) =
  if bool_decide (sc ∈ holds p) && mine sc o (phase_owner p) then amount sc a else 0.
Proof. unfold share. simpl. by destruct sc. Qed.

(** One counter, used by this reservation, changes from [c] to [c']. *)
Lemma inv_counter l m i a o sc c' b res :
  inv l m -> attempts m !! i = Some a -> phase_owner (at_phase a) = Some o ->
  let c := counter (dstate m) sc o in
  0 <= current_ c' -> current_ c' <= cap (dstate m) sc o -> peak_ c <= peak_ c' <= cap (dstate m) sc o ->
  current_ c' = current_ c - share sc o a + option_share sc o b ->
  (forall sc' o', sc' <> sc \/ mine sc o' (Some o) = false -> share sc' o' a = option_share sc' o' b) ->
  (forall sc' o' v, sc' <> sc -> ~ raises a sc' o' v) ->
  (current_ c' <= peak_ c' \/
   (exists b', b = Some b' /\ forall o', mine sc o' (Some o) = true -> raises b' sc o' (current_ c')) \/
   (current_ c' <= current_ c /\ ~ current_ c <= peak_ c /\
    forall o', mine sc o' (Some o) = true -> ~ raises a sc o' (current_ c))) ->
  (forall b', b = Some b' -> attempt_ok (set_counter sc o c' (dstate m)) b') ->
  inv l (mkMachine (set_counter sc o c' (dstate m)) (replace_attempt i b (attempts m)) res false).
Proof.
  intros Hinv Hi Ho c H0 Hc' Hp' Hcur Hoth Hnr Hpk Hb.
  destruct Hinv as [Hcnt Hcap Hpeak Hat Hsz Hreg Hcf Hfat] eqn:EE. clear EE.
  assert (o < length (heap (dstate m)))%nat as Hlt by (destruct (Hat i a Hi) as (_ & H & _); by apply H).
  destruct (set_counter_frame sc o c' (dstate m)) as (Hlen & Hown & Hid & Hlim).
  assert (forall sc' o', counter (set_counter sc o c' (dstate m)) sc' o' =
    if decide (sc = sc') then if mine sc o' (Some o) then c' else counter (dstate m) sc' o'
    else counter (dstate m) sc' o') as Hset by (intros; apply counter_set; by right).
  (* counters this reservation shares with [c] are [c] *)
  assert (forall o', mine sc o' (Some o) = true -> counter (dstate m) sc o' = c /\
    cap (dstate m) sc o' = cap (dstate m) sc o /\ share sc o' a = share sc o a /\
    option_share sc o' b = option_share sc o b) as Hmine.
  { intros o' Hm. unfold mine in Hm. unfold c, option_share, share, mine. destruct sc; simpl in *; try done;
      apply bool_decide_eq_true in Hm; simplify_eq; done. }
  apply (inv_replace l m _ i a); [done|done| | | | | | |done].
  - split; [by rewrite Hlen| |by intros; apply Hid]. intros sc' o' _. unfold cap. rewrite Hset, Hlim.
    destruct (decide (sc = sc')) as [<-|]; [|split; [lia|done]].
    destruct (mine sc o' (Some o)) eqn:Hm; [|split; [lia|done]].
    destruct (Hmine o' Hm) as [-> _]. split; [lia|done].
  - by apply set_counter_registry.
  - by apply set_counter_config.
  - intros sc' o'. rewrite Hset. destruct (decide (sc = sc')) as [<-|].
    2: { rewrite Hoth by auto. lia. }
    destruct (mine sc o' (Some o)) eqn:Hm; [|rewrite Hoth by auto; lia].
    destruct (Hmine o' Hm) as (-> & _ & -> & ->). done.
  - intros sc' o'. unfold cap. rewrite Hset, Hlim. destruct (Hcap sc' o') as [? ?].
    destruct (decide (sc = sc')) as [<-|]; [|done].
    destruct (mine sc o' (Some o)) eqn:Hm; [|done]. destruct (Hmine o' Hm) as (E & E2 & _).
    unfold cap in *. rewrite E2. destruct (Hcap sc o) as [_ ?]. fold c in H2. lia.
  - intros sc' o'. rewrite Hset. destruct (decide (sc = sc')) as [<-|Hne].
    2: { destruct (decide (current_ (counter (dstate m) sc' o') <= peak_ (counter (dstate m) sc' o')));
           [by left|right; right]. split_and!; [lia|done|]. apply Hnr. congruence. }
    destruct (mine sc o' (Some o)) eqn:Hm.
    + destruct (Hmine o' Hm) as (-> & _). destruct Hpk as [?|[(b' & -> & Hr)|(? & ? & Hr)]]; eauto 6.
    + destruct (decide (current_ (counter (dstate m) sc o') <= peak_ (counter (dstate m) sc o')));
        [by left|right; right]. split_and!; [lia|done|].
      unfold raises. destruct (at_phase a); try tauto. simpl in Ho. injection Ho as ->.
      rewrite Hm. intros (_ & ? & _). done.
Qed.

(** *** Preservation *)

Definition after (sc : Scope) (out : LimitOutcome) : list Scope :=
  if gained out then sc :: before sc else before sc.

Lemma before_irrefl sc : (sc ∉ before sc) /\ NoDup (sc :: before sc).
Proof.
  split; [destruct sc; simpl; set_solver|].
  destruct sc; simpl; repeat (constructor; [set_solver|]); constructor.
Qed.

Section preservation.
Context (l : DispatchLimits) (Hl : limits_ok l).

Lemma cap_usize s sc o : config_ok l s -> is_usize (cap s sc o).
Proof.
  destruct Hl as [[] _]. intros [Hg Hlo Ho]. unfold cap, is_usize. destruct sc; simpl.
  - destruct (heap s !! o) as [x|] eqn:E; [destruct (Ho o x E) as [-> _]; done|lia].
  - destruct (heap s !! o) as [x|] eqn:E; [destruct (Ho o x E) as [_ ->]; done|lia].
  - by rewrite Hg.
  - lia.
Qed.

Lemma scope_limit_cap s sc o prio : config_ok l s -> 0 <= scope_limit s sc o prio <= cap s sc o.
Proof.
  intros Hc. pose proof (cap_usize s sc o Hc) as Hu. unfold is_usize in Hu.
  destruct Hl as [[] Hchk], Hc as [Hg Hlo Ho]. unfold is_usize in *.
  unfold BroadcastDispatcher_check in Hchk. destruct (_ || _) eqn:E; [done|]. zify_bools.
  unfold cap in *. destruct sc; simpl in *; try lia. rewrite Hg, Hlo in *. case_match; lia.
Qed.

Lemma current_bounds m sc o :
  inv l m -> 0 <= current_ (counter (dstate m) sc o) <= cap (dstate m) sc o.
Proof.
  intros [Hcnt Hcap _ Hat _ _ _ _]. split; [|apply Hcap]. rewrite Hcnt. apply msum_nonneg.
  intros i x Hi. apply share_nonneg. apply (Hat i x Hi).
Qed.

Lemma share_le_current m sc o i a :
  inv l m -> attempts m !! i = Some a -> share sc o a <= current_ (counter (dstate m) sc o).
Proof.
  intros [Hcnt _ _ Hat _ _ _ _] Hi. rewrite Hcnt. apply (msum_member _ _ i); [|done].
  intros j x Hj. apply share_nonneg. apply (Hat j x Hj).
Qed.

(** The global task counter counts reservations, of which there are fewer than 2^64 - 1. *)
Lemma global_tasks_small m : inv l m -> current_ (globalTasks (dstate m)) < usize_max.
Proof.
  intros [Hcnt _ _ _ Hsz _ _ _]. specialize (Hcnt GlobalTasks 0%nat). simpl in Hcnt. rewrite Hcnt.
  eapply Z.le_lt_trans; [apply msum_count|done]. intros x. unfold share. case_match; simpl; lia.
Qed.

(** Releasing a scope the reservation holds never underflows. *)
Lemma release_inv m i a o sc todo p :
  inv l m -> attempts m !! i = Some a -> phase_owner (at_phase a) = Some o ->
  holds (at_phase a) = sc :: todo -> holds p = todo -> phase_owner p = Some o ->
  match p with
  | RollingBack _ _ r => r <> NoReason
  | Releasing _ todo => todo = [] \/ last todo = Some GlobalTasks
  | _ => False
  end -> (forall sc o v, ~ raises a sc o v) ->
  exists c, limit_release (amount sc a) (counter (dstate m) sc o) = Some c /\
    inv l (mkMachine (set_counter sc o c (dstate m)) (<[i := with_phase p a]> (attempts m))
             (results m) false).
Proof.
  intros Hinv Hi Ho Hh Hp Hpo Hnr Hr.
  destruct (iv_attempts _ _ Hinv i a Hi) as ([Hb Hio] & Hlt & Hnd & _).
  rewrite Hh in Hnd. apply NoDup_cons in Hnd as [Hnin Hnd].
  assert (share sc o a = amount sc a) as Hsh.
  { unfold share. rewrite Hh, Ho. rewrite bool_decide_true by constructor. unfold mine.
    rewrite (bool_decide_true (Some o = Some o)) by done. by rewrite orb_true_r. }
  pose proof (share_le_current m sc o i a Hinv Hi) as Hle. rewrite Hsh in Hle.
  pose proof (current_bounds m sc o Hinv) as Hcb. pose proof (cap_usize _ sc o (iv_config _ _ Hinv)) as Hcu.
  unfold is_usize in *. assert (0 <= amount sc a) as Ha by (destruct sc; simpl; lia).
  set (c := counter (dstate m) sc o) in *.
  assert (exists c', limit_release (amount sc a) c = Some c' /\ current_ c' = current_ c - amount sc a /\
    peak_ c' = peak_ c) as (c' & Hrel & Hcur & Hpk).
  { unfold limit_release. destruct (amount sc a =? 0) eqn:E; zify_bools; [exists c; split_and!; auto; lia|].
    destruct (current_ c <? amount sc a) eqn:E2; zify_bools; [lia|].
    eexists. split; [done|]. simpl. by rewrite uwrap_small by lia. }
  exists c'. split; [done|].
  apply (inv_counter l m i a o sc c' (Some (with_phase p a))); try done; fold c; try lia.
  - rewrite Hpk. split; [lia|]. apply (iv_cap _ _ Hinv sc o).
  - simpl. rewrite Hsh, share_phase, Hp, bool_decide_false by done. simpl. lia.
  - intros sc' o' Hne. simpl. rewrite share_phase, Hp, Hpo. unfold share. rewrite Hh, Ho.
    destruct (decide (sc' = sc)) as [->|].
    + destruct Hne as [|Hne]; [done|]. by rewrite Hne, !andb_false_r.
    + by rewrite (bool_decide_ext (sc' ∈ sc :: todo) (sc' ∈ todo)) by (rewrite elem_of_cons; tauto).
  - destruct (decide (current_ c <= peak_ c)); [left; lia|right; right]. split_and!; auto; lia.
  - intros b' [= <-]. destruct (set_counter_frame sc o c' (dstate m)) as (_ & _ & Hid & _).
    split; [split; [done|]; simpl; rewrite Hpo, <- Ho; intros; rewrite Hid; auto|]. simpl. split; [|split].
    + rewrite Hpo. intros o' [= <-]. rewrite (proj1 (set_counter_frame sc o c' (dstate m))). by apply Hlt.
    + by rewrite Hp.
    + by destruct p.
Qed.

(** One action of [AtomicLimit::tryReserve] within [tryReserve]. *)
Lemma reserve_inv m i a o sc pc spurious c out b res :
  inv l m -> attempts m !! i = Some a -> at_phase a = Reserving o sc pc ->
  limit_step spurious (amount sc a) (scope_limit (dstate m) sc o (at_priority a))
    (counter (dstate m) sc o) pc = (c, out) ->
  (forall sc' o', option_share sc' o' b =
    if bool_decide (sc' ∈ after sc out) && mine sc' o' (Some o) then amount sc' a else 0) ->
  match out with
  | LimitAt pc' => b = Some (with_phase (Reserving o sc pc') a)
  | _ => forall b', b = Some b' -> (at_bytes b' = at_bytes a /\ at_owner b' = at_owner a) /\ phase_owner (at_phase b') = Some o /\
           NoDup (holds (at_phase b')) /\
           match at_phase b' with
           | Reserving _ _ pc => pc = PcLoad | RollingBack _ _ r => r <> NoReason
           | Releasing _ _ => False | _ => True end
  end ->
  inv l (mkMachine (set_counter sc o c (dstate m)) (replace_attempt i b (attempts m)) res false).
Proof.
  intros Hinv Hi Hph Hstep Hsh Hb.
  destruct (iv_attempts _ _ Hinv i a Hi) as ([Hby Hio] & Hlt & _ & Hpc). rewrite Hph in Hpc, Hlt. simpl in Hpc, Hlt.
  pose proof (current_bounds m sc o Hinv) as Hcb. pose proof (cap_usize _ sc o (iv_config _ _ Hinv)) as Hcu.
  assert (phase_owner (at_phase a) = Some o) as Ho by by rewrite Hph.
  assert (mine sc o (Some o) = true) as Hme by (unfold mine; rewrite bool_decide_true by done; apply orb_true_r).
  destruct (before_irrefl sc) as [Hirr Hnd].
  assert (is_usize (amount sc a)) as Hamt by (destruct sc; simpl; unfold is_usize; (done || lia)).
  assert (sc = GlobalTasks -> current_ (counter (dstate m) sc o) < usize_max) as Hgt
    by (intros ->; by apply global_tasks_small).
  destruct (limit_step_ok _ _ _ _ sc _ _ _ _ Hamt Hcu
    (scope_limit_cap _ sc o (at_priority a) (iv_config _ _ Hinv)) Hcb (proj2 (iv_cap _ _ Hinv sc o)) Hgt Hpc Hstep)
    as (Hcur & Hc0 & Hpk & Hpc' & Hrise & Hpub).
  assert (forall sc' o', share sc' o' a =
    if bool_decide (sc' ∈ if publishing pc then sc :: before sc else before sc) && mine sc' o' (Some o)
    then amount sc' a else 0) as Hsa by (intros; unfold share; by rewrite Hph).
  apply (inv_counter l m i a o sc c b); try done; try lia.
  - rewrite Hsa, Hsh, Hcur, Hme, !andb_true_r. unfold after.
    destruct (gained out), (publishing pc); rewrite ?(bool_decide_true (sc ∈ sc :: before sc)) by constructor;
      rewrite ?(bool_decide_false (sc ∈ before sc)) by done; lia.
  - intros sc' o' Hne. rewrite Hsa, Hsh. unfold after.
    destruct (decide (sc' = sc)) as [->|Hd].
    + destruct Hne as [|Hne]; [done|]. by rewrite Hne, !andb_false_r.
    + destruct (gained out), (publishing pc);
        rewrite ?(bool_decide_ext (sc' ∈ sc :: before sc) (sc' ∈ before sc)) by (rewrite elem_of_cons; tauto); done.
  - intros sc' o' v Hne. unfold raises. rewrite Hph. intros [? _]. congruence.
  - destruct Hrise as [?|[Hr|(E & Hn & Hw)]]; [by left|right; left|right; right].
    + destruct out as [pc'| |]; try done. destruct Hr as (w & ? & ?). eexists. split; [done|].
      intros o' Hm. simpl. unfold raises. simpl. eauto.
    + split_and!; [lia|done|]. intros o' _. unfold raises. rewrite Hph. intros (_ & _ & w & Ew & ?).
      rewrite Ew in Hw. lia.
  - intros b' Eb. destruct (set_counter_frame sc o c (dstate m)) as (Hlen & _ & Hid & Hlim).
    rewrite Hph in Hio. simpl in Hio.
    destruct out as [pc'|v|v].
    + rewrite Eb in Hb. injection Hb as ->. split; [split; [done|]; simpl; intros; rewrite Hid; auto|]. simpl. unfold phase_ok. simpl. rewrite Hlen.
      split_and!; [done| |].
      * destruct (publishing pc'); [done|]. by apply NoDup_cons in Hnd as [_ ?].
      * rewrite counter_set by (right; by apply Hlt). rewrite decide_True, Hme by done.
        unfold cap in *. by rewrite Hlim.
    + destruct (Hb b' Eb) as ([E1 E1'] & E2 & E3 & E4).
      split; [by rewrite E1, E1', E2; split; [done|]; intros; rewrite Hid; auto|].
      split; [rewrite E2, Hlen; done|].
      split; [done|]. destruct (at_phase b'); try done. by rewrite E4.
    + destruct (Hb b' Eb) as ([E1 E1'] & E2 & E3 & E4).
      split; [by rewrite E1, E1', E2; split; [done|]; intros; rewrite Hid; auto|].
      split; [rewrite E2, Hlen; done|].
      split; [done|]. destruct (at_phase b'); try done. by rewrite E4.
Qed.

Lemma register_inv m i a o s' res :
  inv l m -> attempts m !! i = Some a -> at_phase a = RegisterOwner ->
  registerOwner l (at_owner a) (dstate m) = (o, s') ->
  inv l (mkMachine s' (<[i := with_phase (FirstCheck o) a]> (attempts m)) res false).
Proof.
  intros Hinv Hi Hph Hreg. pose proof (iv_registry _ _ Hinv) as Hr.
  destruct (registerOwner_ok _ _ _ _ _ Hr Hreg) as (Hr' & Ho & Hido & Hcase).
  assert (forall sc o', share sc o' a = 0 /\ share sc o' (with_phase (FirstCheck o) a) = 0) as Hsh.
  { intros. rewrite share_phase. unfold share. rewrite Hph. simpl. done. }
  assert (attempt_ok s' (with_phase (FirstCheck o) a)) as Hok.
  { destruct (iv_attempts _ _ Hinv i a Hi) as ([Hby _] & _).
    split; [split; [done|]; by intros o' [= <-]|]. split; [|split; [constructor|done]].
    simpl. intros o' [= <-]. by apply (rg_all _ Hr'). }
  assert (forall sc o v, ~ raises a sc o v) as Hnr by (intros ???; unfold raises; rewrite Hph; tauto).
  destruct Hcase as [->|(Eo & Hh & E1 & E2 & E3 & E4)].
  { apply (inv_same_state l m i a (Some (with_phase (FirstCheck o) a))); try done.
    - intros. simpl. destruct (Hsh sc o0) as [-> ->]. done.
    - by intros b' [= <-]. }
  assert (forall sc o', current_ (counter s' sc o') = current_ (counter (dstate m) sc o') /\
    peak_ (counter s' sc o') = peak_ (counter (dstate m) sc o')) as Hsame.
  { intros sc o'. destruct sc; simpl; rewrite ?E1, ?E2, ?Hh; try done;
      (destruct (decide (o' < length (heap (dstate m)))%nat);
       [by rewrite lookup_app_l|rewrite lookup_app_r by lia]);
      rewrite (lookup_ge_None_2 (heap (dstate m))) by lia;
      (destruct (o' - length (heap (dstate m)))%nat as [|[|]]; simpl; done). }
  assert (forall sc o', is_global sc = true \/ (o' < length (heap (dstate m)))%nat ->
    cap s' sc o' = cap (dstate m) sc o') as Hcaps.
  { intros sc o' H. unfold cap. destruct sc; simpl in *; rewrite ?E3, ?Hh; try done;
      destruct H as [|H]; try done; by rewrite lookup_app_l. }
  assert (config_ok l s') as Hcf.
  { destruct (iv_config _ _ Hinv) as [? ? Hown]. split; [congruence|congruence|].
    rewrite Hh. intros o' x [Hx|[_ Hx]]%lookup_app_Some; [by eapply Hown|].
    apply list_lookup_singleton_Some in Hx as [_ <-]. done. }
  apply (inv_replace l m s' i a (Some (with_phase (FirstCheck o) a))); try done.
  - split; [rewrite Hh, length_app; lia| |intros; rewrite Hh; by apply id_at_app]. intros sc o' H. destruct (Hsame sc o') as [_ ->].
    split; [lia|by apply Hcaps].
  - intros sc o'. simpl. destruct (Hsame sc o') as [-> _]. destruct (Hsh sc o') as [-> ->]. lia.
  - intros sc o'. pose proof (cap_usize s' sc o' Hcf) as Hu. unfold is_usize in Hu.
    destruct (Hsame sc o') as [-> ->]. destruct (iv_cap _ _ Hinv sc o') as [? ?].
    destruct (is_global sc) eqn:Hg; [rewrite Hcaps by auto; lia|].
    destruct (decide (o' < length (heap (dstate m)))%nat); [rewrite Hcaps by auto; lia|].
    assert (cap (dstate m) sc o' = 0) as E0; [|lia].
    unfold cap. destruct sc; try done; simpl; by rewrite lookup_ge_None_2 by lia.
  - intros sc o'. destruct (Hsame sc o') as [-> ->].
    destruct (decide (current_ (counter (dstate m) sc o') <= peak_ (counter (dstate m) sc o')));
      [by left|right; right]. split_and!; [lia|done|apply Hnr].
  - by intros b' [= <-].
Qed.

Lemma begin_inv m i owner b prio :
  inv l m -> attempts m !! i = None -> Z.of_nat (size (attempts m)) + 1 < usize_max -> is_usize b ->
  inv l (mkMachine (dstate m) (<[i := mkAttempt owner b prio FindOwner]> (attempts m)) (results m) false).
Proof.
  intros [Hcnt Hcap Hpk Hat Hsz Hreg Hcf Hf] Hi Hroom Hb. split; simpl; try done.
  - intros sc o. rewrite msum_new, Hcnt by done. unfold share at 3. simpl. lia.
  - intros sc o. destruct (Hpk sc o) as [?|(j & a & Hj & Hr)]; [by left|right]. exists j, a.
    split; [|done]. rewrite lookup_insert_ne; congruence.
  - apply map_Forall_insert; [done|]. split; [|done]. split; [done|]. split; [done|].
    split; [apply NoDup_nil_2|done].
  - rewrite map_size_insert_None by done. lia.
Qed.

Lemma shutdown_inv m : inv l m -> inv l (mkMachine (shutdown (dstate m)) (attempts m) (results m) false).
Proof.
  intros [Hcnt Hcap Hpk Hat Hsz [Hs Ha] [Hg Hlo Ho] Hf].
  assert (forall sc o, counter (shutdown (dstate m)) sc o = counter (dstate m) sc o) as Hc by by intros [].
  assert (forall sc o, cap (shutdown (dstate m)) sc o = cap (dstate m) sc o) as Hcp by by intros [].
  split; simpl; try done; try (intros sc o; rewrite ?Hc, ?Hcp; done).
Qed.

(** A phase change that keeps the scopes held. *)
Lemma phase_inv m i a p res :
  inv l m -> attempts m !! i = Some a ->
  (forall sc, sc ∈ holds p <-> sc ∈ holds (at_phase a)) ->
  (phase_owner p = phase_owner (at_phase a) \/ holds p = []) ->
  (forall sc o v, ~ raises a sc o v) -> phase_ok (dstate m) p ->
  (forall o, phase_owner p = Some o -> id_at (heap (dstate m)) o = at_owner a) ->
  inv l (mkMachine (dstate m) (<[i := with_phase p a]> (attempts m)) res false).
Proof.
  intros Hinv Hi Hh Ho Hnr Hok Hid.
  apply (inv_same_state l m i a (Some (with_phase p a))); try done.
  - intros sc o. simpl. rewrite share_phase. unfold share.
    rewrite <- (bool_decide_ext _ _ (Hh sc)). destruct Ho as [->|E]; [done|]. by rewrite E.
  - intros b' [= <-]. split; [split; [apply (iv_attempts _ _ Hinv i a Hi)|done]|done].
Qed.

Lemma finish_attempt_inv m i a res :
  inv l m -> attempts m !! i = Some a -> holds (at_phase a) = [] -> (forall sc o v, ~ raises a sc o v) ->
  inv l (mkMachine (dstate m) (delete i (attempts m)) res false).
Proof.
  intros Hinv Hi Hh Hnr. apply (inv_same_state l m i a None); try done.
  intros sc o. unfold share. by rewrite Hh.
Qed.

(** [tryReserve] goes on after a scope was reserved, or undoes what it holds. *)
Lemma outcome_inv m i a o sc pc spurious c out r p res :
  inv l m -> attempts m !! i = Some a -> at_phase a = Reserving o sc pc ->
  limit_step spurious (amount sc a) (scope_limit (dstate m) sc o (at_priority a))
    (counter (dstate m) sc o) pc = (c, out) ->
  match out with
  | LimitAt pc' => p = Some (Reserving o sc pc')
  | LimitAccepted _ => match p with Some p => reserved o sc = Continue p \/ reserved o sc = Return r (Some p) | None => False end
  | LimitRejected v => match p with Some p => refused (dstate m) o sc a v = Continue p | None => sc = OwnerTasks end
  end ->
  inv l (mkMachine (set_counter sc o c (dstate m))
    (replace_attempt i ((fun p => with_phase p a) <$> p) (attempts m)) res false).
Proof.
  intros Hinv Hi Hph Hls Hout. eapply reserve_inv; try done.
  - intros sc' o'. destruct out as [pc'|v|v].
    + subst p. simpl. by rewrite share_phase.
    + destruct p as [p|]; [|done]. simpl. rewrite share_phase. by destruct sc, Hout; simplify_eq/=.
    + destruct p as [p|]; [simpl; rewrite share_phase; by destruct sc; simplify_eq/=|by subst sc].
  - destruct (before_irrefl sc) as [_ Hnd].
    destruct out as [pc'|v|v]; [by subst p|..]; intros b'; destruct p as [p|]; try done; intros [= <-]; simpl.
    + destruct sc, Hout; simplify_eq/=; done.
    + apply NoDup_cons in Hnd as [_ Hnd]. destruct sc; simplify_eq/=; split_and!; try done. by destruct (_ && _).
Qed.

Ltac no_raise Hph := intros ???; unfold raises; rewrite Hph; tauto.

Lemma step_inv lb m m' : inv l m -> reservation_step l lb m = Some m' -> inv l m'.
Proof.
  intros Hinv Hstep. unfold reservation_step in Hstep. rewrite (iv_fatal _ _ Hinv) in Hstep.
  destruct lb as [i owner b prio|i spurious|i|].
  - destruct (_ && _) eqn:E in Hstep; [|done]. injection Hstep as <-. zify_bools.
    match goal with H : bool_decide _ = true |- _ => apply bool_decide_eq_true in H end.
    by apply begin_inv.
  - destruct (attempts m !! i) as [a|] eqn:Hi; [|done].
    destruct (iv_attempts _ _ Hinv i a Hi) as ([Hby Hio] & Hlt & Hnd & Hpc). unfold attempt_step in Hstep.
    destruct (at_phase a) as [| |o|o sc pc|o|o|o [|sc todo] r|o [|sc todo]] eqn:Hph; simpl in *.
    + destruct (findOwner _ _ _) as [o|] eqn:Hf; injection Hstep as <-;
        (apply phase_inv; [done|done|by rewrite Hph|by right|no_raise Hph| |]); try done.
      2: { apply findOwner_Some in Hf as [_ Hf]. by intros o' [= <-]. }
      * apply findOwner_Some in Hf as [Hf _]. apply (rg_all _ (iv_registry _ _ Hinv)) in Hf.
        split; [by intros o' [= <-]|split; [apply NoDup_nil_2|done]].
    + destruct (registerOwner _ _ _) as [o s'] eqn:Hr. injection Hstep as <-. by eapply register_inv.
    + destruct (accepting (dstate m)); injection Hstep as <-.
      * apply phase_inv; [done|done|by rewrite Hph|by right|no_raise Hph| |done].
        split; [done|split; [apply NoDup_nil_2|done]].
      * apply finish_attempt_inv with (a := a); [done|done|by rewrite Hph|no_raise Hph].
    + destruct (limit_step _ _ _ _ _) as [c out] eqn:Hls.
      destruct out as [pc'|v|v].
      * injection Hstep as <-. by apply (outcome_inv m i a o sc pc _ _ _ NoReason (Some (Reserving o sc pc')) _ Hinv Hi Hph Hls).
      * destruct sc; injection Hstep as <-;
          (eapply (outcome_inv m i a o _ pc _ _ _ NoReason (Some _) _ Hinv Hi Hph Hls); simpl; auto).
      * destruct sc; simpl in Hstep; try injection Hstep as <-.
        -- by apply (outcome_inv m i a o _ pc _ _ _ NoReason None _ Hinv Hi Hph Hls).
        -- by apply (outcome_inv m i a o _ pc _ _ _ NoReason (Some _) _ Hinv Hi Hph Hls).
        -- by apply (outcome_inv m i a o _ pc _ _ _ NoReason (Some _) _ Hinv Hi Hph Hls).
        -- (* the aggregate counter never reaches its limit *)
           exfalso. destruct pc as [|w|w|w p]; simpl in Hls; simplify_eq; [|].
           ++ destruct (fitsWithin w 1 usize_max) eqn:Hf; simpl in Hls; [by repeat case_match; simplify_eq|].
              destruct Hpc as [Hw Hw2]. specialize (Hw2 eq_refl).
              assert (fitsWithin w 1 usize_max = true) as Hf'; [|congruence].
              apply fitsWithin_spec; unfold is_usize; lia.
           ++ by repeat case_match; simplify_eq.
    + destruct (accepting (dstate m)); injection Hstep as <-;
        (apply phase_inv; [done|done|by rewrite Hph|left; by rewrite Hph|no_raise Hph|done|done]).
    + injection Hstep as <-. apply phase_inv; [done|done|by rewrite Hph|left; by rewrite Hph|no_raise Hph|done|done].
    + injection Hstep as <-. apply finish_attempt_inv with (a := a); [done|done|by rewrite Hph|no_raise Hph].
    + destruct (release_inv m i a o sc todo (RollingBack o todo r)) as (c & Hc & Hinv'); try done; try (by rewrite Hph).
      { no_raise Hph. }
      rewrite Hc in Hstep. by injection Hstep as <-.
    + injection Hstep as <-. apply finish_attempt_inv with (a := a); [done|done|by rewrite Hph|no_raise Hph].
    + assert (todo = [] \/ last todo = Some GlobalTasks) as Hlast
        by (destruct Hpc as [|Hpc], todo; [done..|by left|by right]).
      destruct (release_inv m i a o sc todo (Releasing o todo)) as (c & Hc & Hinv'); try done; try (by rewrite Hph).
      { no_raise Hph. }
      rewrite Hc in Hstep. by injection Hstep as <-.
  - destruct (attempts m !! i) as [a|] eqn:Hi; [|by injection Hstep as <-].
    destruct (iv_attempts _ _ Hinv i a Hi) as ([Hby Hio] & Hlt & Hnd & Hpc).
    destruct (at_phase a) as [| |o|o sc pc|o|o|o todo r|o todo] eqn:Hph; injection Hstep as <-; try done.
    apply phase_inv; [done|done| |left; by rewrite Hph|no_raise Hph| |done].
    + intros sc. rewrite Hph. simpl. set_solver.
    + split; [done|]. split; [|by right]. simpl. repeat (constructor; [set_solver|]). constructor.
  - injection Hstep as <-. by apply shutdown_inv.
Qed.

Lemma initial_inv : inv l (initial l).
Proof.
  pose proof (cap_usize (State_new l)) as Hcap.
  assert (config_ok l (State_new l)) as Hcf by by split.
  assert (forall sc o, counter (State_new l) sc o = zero_limit) as Hz by by intros [].
  split; simpl; try done.
  - intros sc o. rewrite msum_empty, Hz. done.
  - intros sc o. specialize (Hcap sc o Hcf). unfold is_usize in Hcap. rewrite Hz. simpl. lia.
  - intros sc o. left. rewrite Hz. simpl. lia.
  - split; simpl; [constructor|]. intros o. split; [|lia]. by intros ?%elem_of_nil.
Qed.

Lemma steps_inv lbs m m' : inv l m -> reservation_steps l lbs m = Some m' -> inv l m'.
Proof.
  revert m. induction lbs as [|lb lbs IH]; intros m Hinv Hs; simpl in Hs; [by simplify_eq|].
  destruct (reservation_step l lb m) as [m1|] eqn:E; [|done]. eapply IH; [|done]. by eapply step_inv.
Qed.

End preservation.

(** ** [tryReserve] without interference *)

(** [tryReserve] run by one thread alone, no compare-exchange failing, until it
    returns. *)
Fixpoint solo (fuel : nat) (l : DispatchLimits) (s : State) (a : Attempt) :
    option (State * BroadcastReason) :=
  match fuel with
  | O => None
  | S fuel =>
      match attempt_step l false s a with
      | (s', Continue p) => solo fuel l s' (with_phase p a)
      | (s', Return r _) => Some (s', r)
      | _ => None
      end
  end.

(** What it should return: the first exceeded limit, in this order. *)
Definition tryReserve_spec (s : State) (o : nat) (bytes : Z) (prio : BroadcastPriority) : BroadcastReason :=
  let exceeds amt lim cur := negb (amt =? 0) && (lim <? cur + amt) in
  if negb (accepting s) then OwnerShutdown
  else if exceeds 1 (scope_limit s OwnerTasks o prio) (current_ (counter s OwnerTasks o))
  then OwnerOutstandingTaskLimit
  else if exceeds bytes (scope_limit s OwnerBytes o prio) (current_ (counter s OwnerBytes o))
  then OwnerOutstandingByteLimit
  else if exceeds bytes (scope_limit s GlobalBytes o prio) (current_ (globalBytes s))
  then if is_low prio && (current_ (globalBytes s) + bytes <=? globalByteLimit s)
       then LowPrioritySoftLimit else GlobalOutstandingByteLimit
  else NoReason.

(** The counters of [s'] are those of [s] with [held] added for owner [o]. *)
Record solo_at (s s' : State) (a : Attempt) (o : nat) (held : list Scope) : Prop := {
  so_len : length (heap s') = length (heap s);
  so_accepting : accepting s' = accepting s;
  so_global : globalByteLimit s' = globalByteLimit s;
  so_limit : forall sc o p, scope_limit s' sc o p = scope_limit s sc o p;
  so_current : forall sc o', current_ (counter s' sc o') = current_ (counter s sc o') +
    if bool_decide (sc ∈ held) && mine sc o' (Some o) then amount sc a else 0;
  so_bound : forall sc o', 0 <= current_ (counter s' sc o') < usize_lim;
}.

Lemma solo_at_set s s' a o sc c held held' :
  solo_at s s' a o held -> (o < length (heap s'))%nat ->
  (forall o', mine sc o' (Some o) = true -> current_ c = current_ (counter s sc o') +
    if bool_decide (sc ∈ held') then amount sc a else 0) ->
  (forall sc', sc' <> sc -> sc' ∈ held' <-> sc' ∈ held) -> 0 <= current_ c < usize_lim ->
  solo_at s (set_counter sc o c s') a o held'.
Proof.
  intros [Hlen Hacc Hg Hlim Hcur Hbd] Ho Hc Hh Hcb.
  destruct (set_counter_frame sc o c s') as (Hl & _ & _ & Hlm).
  split; [by rewrite Hl|by destruct sc|by destruct sc|intros; by rewrite Hlm| |].
  2: { intros sc' o'. rewrite counter_set by auto. repeat case_match; auto. }
  intros sc' o'. rewrite counter_set by auto. destruct (decide (sc = sc')) as [<-|Hne].
  - destruct (mine sc o' (Some o)) eqn:Hm; rewrite ?andb_true_r, ?andb_false_r; [by apply Hc|].
    rewrite Hcur, Hm, andb_false_r. done.
  - rewrite Hcur. by rewrite (bool_decide_ext _ _ (Hh sc' (not_eq_sym Hne))).
Qed.

Lemma solo_at_same s s' a o held sc o' :
  solo_at s s' a o held -> mine sc o' (Some o) = true ->
  counter s' sc o' = counter s' sc o /\ current_ (counter s sc o') = current_ (counter s sc o).
Proof.
  intros _ Hm. unfold mine in Hm. destruct sc; simpl in *; try done;
    apply bool_decide_eq_true in Hm; simplify_eq; done.
Qed.

Section solo.
Context (l : DispatchLimits) (s0 : State) (a : Attempt) (o : nat).
Context (Hl : limits_ok l) (Hb : is_usize (at_bytes a)) (Ho : (o < length (heap s0))%nat).
Context (Hcf : config_ok l s0).
Context (H0 : forall sc o, 0 <= current_ (counter s0 sc o) <= cap s0 sc o).

Definition next (k : nat) (s : State) (out : Outcome) : option (State * BroadcastReason) :=
  match out with
  | Continue p => solo k l s (with_phase p a)
  | Return r _ => Some (s, r)
  | _ => None
  end.

Lemma solo_next k s p : solo (S k) l s (with_phase p a) =
  (let '(s', out) := attempt_step l false s (with_phase p a) in next k s' out).
Proof. simpl. destruct (attempt_step l false s (with_phase p a)) as [s' [q|r q| |]]; done. Qed.

Lemma attempt_step_reserving s sc pc :
  attempt_step l false s (with_phase (Reserving o sc pc) a) =
  let '(c, out) := limit_step false (amount sc a) (scope_limit s sc o (at_priority a)) (counter s sc o) pc in
  (set_counter sc o c s,
   match out with
   | LimitAt pc' => Continue (Reserving o sc pc')
   | LimitAccepted _ => reserved o sc
   | LimitRejected v => refused s o sc a v
   end).
Proof.
  unfold attempt_step. simpl.
  replace (amount sc (with_phase (Reserving o sc pc) a)) with (amount sc a) by by destruct sc.
  destruct (limit_step _ _ _ _ _) as [c [pc'|v|v]]; done.
Qed.

Definition fits (sc : Scope) : bool :=
  (amount sc a =? 0) ||
  (current_ (counter s0 sc o) + amount sc a <=? scope_limit s0 sc o (at_priority a)).

Lemma solo_mono k : forall k' s b r, solo k l s b = Some r -> (k <= k')%nat -> solo k' l s b = Some r.
Proof.
  induction k as [|k IH]; intros k' s b r H Hle; simpl in H; [done|].
  destruct k' as [|k']; [lia|]. simpl. destruct (attempt_step l false s b) as [s' [p|r' p| |]]; try done.
  apply (IH k'); [done|lia].
Qed.

Lemma next_mono k k' s out r : next k s out = Some r -> (k <= k')%nat -> next k' s out = Some r.
Proof. destruct out; simpl; try done. apply solo_mono. Qed.

Lemma solo_reserve s sc :
  solo_at s0 s a o (before sc) -> (sc = GlobalTasks -> current_ (globalTasks s0) < usize_max) ->
  (fits sc = true -> exists s', solo_at s0 s' a o (sc :: before sc) /\
     forall k r, next k s' (reserved o sc) = Some r -> solo (4 + k) l s (with_phase (Reserving o sc PcLoad) a) = Some r) /\
  (fits sc = false -> exists s', solo_at s0 s' a o (before sc) /\
     forall k r, next k s' (refused s o sc a (current_ (counter s0 sc o))) = Some r ->
       solo (4 + k) l s (with_phase (Reserving o sc PcLoad) a) = Some r).
Proof.
  intros Hat Hgt. pose proof (cap_usize l Hl s0 sc o Hcf) as Hcu. pose proof (H0 sc o) as Hcb.
  pose proof (scope_limit_cap l Hl s0 sc o (at_priority a) Hcf) as Hlim. unfold is_usize in *.
  destruct (before_irrefl sc) as [Hirr _]. pose proof Hat as [Hlen Hacc Hg Hlm Hcur Hbd].
  set (c0 := counter s sc o).
  assert (current_ c0 = current_ (counter s0 sc o)) as Hc.
  { unfold c0. rewrite Hcur, bool_decide_false by done. simpl. lia. }
  assert (0 <= amount sc a < usize_lim) as Ha by (destruct sc; simpl; lia).
  assert (fitsWithin (current_ c0) (amount sc a) (scope_limit s0 sc o (at_priority a)) = true <->
    current_ c0 + amount sc a <= scope_limit s0 sc o (at_priority a)) as Hfit
    by (apply fitsWithin_spec; unfold is_usize; lia).
  assert (forall c held, current_ c = current_ c0 + (if bool_decide (sc ∈ held) then amount sc a else 0) ->
    (forall sc', sc' <> sc -> sc' ∈ held <-> sc' ∈ before sc) -> 0 <= current_ c < usize_lim ->
    solo_at s0 (set_counter sc o c s) a o held) as Hset.
  { intros c held Ec Hh Hcb'. apply (solo_at_set s0 s a o sc c (before sc)); [done|by rewrite Hlen| |done|done].
    intros o' Hm. destruct (solo_at_same _ _ _ _ _ _ _ Hat Hm) as [_ ->]. by rewrite <- Hc. }
  assert (forall c, counter (set_counter sc o c s) sc o = c) as Hsame.
  { intros c. rewrite counter_set, decide_True by (try right; try done; by rewrite Hlen).
    unfold mine. rewrite bool_decide_true by done. by rewrite orb_true_r. }
  assert (forall c p, scope_limit (set_counter sc o c s) sc o p = scope_limit s0 sc o p) as Hsl.
  { intros c p. destruct (set_counter_frame sc o c s) as (_ & _ & _ & ->). apply Hlm. }
  assert (forall c v, refused (set_counter sc o c s) o sc a v = refused s o sc a v) as Href by by destruct sc.
  unfold fits. rewrite <- Hc. split; intros Hf.
  - destruct (amount sc a =? 0) eqn:E0.
    + exists (set_counter sc o c0 s). split.
      { apply Hset; [|intros; rewrite elem_of_cons; tauto|lia]. zify_bools. rewrite E0. case_match; lia. }
      intros k r Hn. apply (solo_mono (1 + k)); [|lia].
      simpl (1 + k)%nat. rewrite solo_next, attempt_step_reserving. simpl. rewrite E0. done.
    + simpl in Hf. zify_bools. set (c1 := mkLimit (current_ c0 + amount sc a) (peak_ c0) (rejected_ c0)).
      set (c2 := if peak_ c0 <? current_ c0 + amount sc a
                 then mkLimit (current_ c0 + amount sc a) (current_ c0 + amount sc a) (rejected_ c0) else c1).
      exists (set_counter sc o c2 s). split.
      { assert (current_ c2 = current_ c0 + amount sc a) as Ec2 by (unfold c2; by case_match).
        apply Hset; rewrite ?Ec2; [|intros; rewrite elem_of_cons; tauto|lia].
        by rewrite bool_decide_true by constructor. }
      intros k r Hn. change (4 + k)%nat with (S (S (S (S k)))).
      rewrite solo_next, attempt_step_reserving. cbn [limit_step]. rewrite (proj2 (Z.eqb_neq _ 0) E0). fold c0.
      cbn [next]. rewrite solo_next, attempt_step_reserving, Hsame, Hsl. cbn [limit_step].
      rewrite (proj2 Hfit Hf), Z.eqb_refl. cbn [negb andb].
      rewrite (uwrap_small (current_ c0 + amount sc a)) by lia. fold c1. rewrite set_counter_twice.
      cbn [next]. rewrite solo_next, attempt_step_reserving, Hsame. cbn [limit_step]. rewrite set_counter_twice.
      cbn [next]. rewrite solo_next, attempt_step_reserving, Hsame. cbn [limit_step peak_ current_ rejected_ c1].
      unfold c2 in Hn. destruct (peak_ c0 <? current_ c0 + amount sc a); rewrite ?Z.eqb_refl; cbn [negb andb];
        rewrite set_counter_twice; done.
  - zify_bools. set (c1 := mkLimit (current_ c0) (peak_ c0) (rejected_ c0 ⊕ 1)).
    exists (set_counter sc o c1 s). split.
    { apply Hset; [|done|simpl; lia]. rewrite bool_decide_false by done. simpl. lia. }
    intros k r Hn. apply (solo_mono (2 + k)); [|lia]. change (2 + k)%nat with (S (S k)).
    rewrite solo_next, attempt_step_reserving. cbn [limit_step]. rewrite (proj2 (Z.eqb_neq _ 0) H). fold c0.
    cbn [next]. rewrite solo_next, attempt_step_reserving, Hsame, Hsl. cbn [limit_step].
    destruct (fitsWithin _ _ _) eqn:E; [pose proof (proj1 Hfit eq_refl); lia|]. cbn [negb].
    by rewrite set_counter_twice, Href.
Qed.

(** Rolling back gives the scopes back one by one. *)
Lemma solo_rollback held r : forall s,
  solo_at s0 s a o held -> NoDup held ->
  exists s', solo_at s0 s' a o [] /\ forall k, (length held < k)%nat ->
    solo k l s (with_phase (RollingBack o held r) a) = Some (s', r).
Proof.
  induction held as [|sc held IH]; intros s Hat Hnd.
  { exists s. split; [done|]. intros [|k] Hk; [lia|]. done. }
  apply NoDup_cons in Hnd as [Hnin Hnd]. pose proof Hat as [Hlen Hacc Hg Hlm Hcur Hbd].
  assert (mine sc o (Some o) = true) as Hm by (unfold mine; rewrite bool_decide_true by done; apply orb_true_r).
  assert (current_ (counter s sc o) = current_ (counter s0 sc o) + amount sc a) as Hc.
  { rewrite Hcur, Hm, bool_decide_true by constructor. done. }
  pose proof (H0 sc o) as Hcb. pose proof (Hbd sc o) as Hu. rewrite Hc in Hu. unfold is_usize in *.
  assert (0 <= amount sc a) as Ha by (destruct sc; simpl; lia).
  assert (exists c', limit_release (amount sc a) (counter s sc o) = Some c' /\
    current_ c' = current_ (counter s0 sc o)) as (c' & Hrel & Hc').
  { unfold limit_release. destruct (amount sc a =? 0) eqn:E; zify_bools; [eexists; split; [done|lia]|].
    destruct (_ <? _) eqn:E2; zify_bools; [lia|]. eexists. split; [done|]. simpl. unwrap. lia. }
  destruct (IH (set_counter sc o c' s)) as (s' & Hs' & Hk); [|done|].
  { apply (solo_at_set s0 s a o sc c' (sc :: held)); [done|by rewrite Hlen| |set_solver|lia].
    intros o' Hm'. destruct (solo_at_same _ _ _ _ _ _ _ Hat Hm') as [_ ->].
    rewrite bool_decide_false by done. lia. }
  exists s'. split; [done|]. intros [|k] Hlt; [simpl in Hlt; lia|]. rewrite solo_next.
  unfold attempt_step. simpl at_phase. cbv iota.
  replace (amount sc (with_phase (RollingBack o (sc :: held) r) a)) with (amount sc a) by by destruct sc.
  rewrite Hrel. simpl next. apply Hk. simpl in Hlt. lia.
Qed.

Lemma solo_at_refl : solo_at s0 s0 a o [].
Proof.
  split; try done.
  - intros sc o'. rewrite bool_decide_false by (apply not_elem_of_nil). simpl. lia.
  - intros sc o'. pose proof (H0 sc o'). pose proof (cap_usize l Hl s0 sc o' Hcf). unfold is_usize in *. lia.
Qed.

Lemma exceeds_fits sc :
  (negb (amount sc a =? 0) && (scope_limit s0 sc o (at_priority a) <? current_ (counter s0 sc o) + amount sc a))
  = negb (fits sc).
Proof. unfold fits. by rewrite negb_orb, Z.ltb_antisym. Qed.

Lemma spec_fits : tryReserve_spec s0 o (at_bytes a) (at_priority a) =
  if negb (accepting s0) then OwnerShutdown
  else if negb (fits OwnerTasks) then OwnerOutstandingTaskLimit
  else if negb (fits OwnerBytes) then OwnerOutstandingByteLimit
  else if negb (fits GlobalBytes)
  then if is_low (at_priority a) && (current_ (globalBytes s0) + at_bytes a <=? globalByteLimit s0)
       then LowPrioritySoftLimit else GlobalOutstandingByteLimit
  else NoReason.
Proof. by rewrite <- !exceeds_fits. Qed.

Lemma solo_decides :
  current_ (globalTasks s0) < usize_max ->
  let r := tryReserve_spec s0 o (at_bytes a) (at_priority a) in
  exists s', solo 30 l s0 (with_phase (FirstCheck o) a) = Some (s', r) /\
    solo_at s0 s' a o (if decide (r = NoReason)
      then [GlobalTasks; GlobalBytes; OwnerBytes; OwnerTasks] else []).
Proof.
  intros Hgt r. unfold r. clear r. rewrite spec_fits.
  change 30%nat with (S (4 + 25)). rewrite solo_next.
  unfold attempt_step. simpl at_phase. cbv iota.
  destruct (accepting s0) eqn:Hacc; cbn [next negb].
  2: { exists s0. split; [done|apply solo_at_refl]. }
  destruct (solo_reserve s0 OwnerTasks solo_at_refl ltac:(done)) as [Hy1 Hn1].
  destruct (fits OwnerTasks); cbn [negb].
  2: { destruct (Hn1 eq_refl) as (s1 & Hs1 & Hk1). exists s1. split; [by apply Hk1|done]. }
  destruct (Hy1 eq_refl) as (s1 & Hs1 & Hk1). clear Hy1 Hn1.
  destruct (solo_reserve s1 OwnerBytes Hs1 ltac:(done)) as [Hy2 Hn2].
  destruct (fits OwnerBytes); cbn [negb].
  2: { destruct (Hn2 eq_refl) as (s2 & Hs2 & Hk2).
       destruct (solo_rollback _ OwnerOutstandingByteLimit s2 Hs2 (proj2 (before_irrefl OwnerTasks)))
         as (s' & Hs' & Hk). exists s'. split; [|done]. apply Hk1. apply (Hk2 21%nat). apply Hk. simpl. lia. }
  destruct (Hy2 eq_refl) as (s2 & Hs2 & Hk2). clear Hy2 Hn2.
  destruct (solo_reserve s2 GlobalBytes Hs2 ltac:(done)) as [Hy3 Hn3].
  destruct (fits GlobalBytes); cbn [negb].
  2: { destruct (Hn3 eq_refl) as (s3 & Hs3 & Hk3).
       assert (fitsWithin (current_ (globalBytes s0)) (at_bytes a) (globalByteLimit s2) =
         (current_ (globalBytes s0) + at_bytes a <=? globalByteLimit s0)) as Hf.
       { rewrite (so_global _ _ _ _ _ Hs2). apply eq_true_iff_eq. rewrite Z.leb_le.
         pose proof (H0 GlobalBytes o). pose proof (cap_usize l Hl s0 GlobalBytes o Hcf).
         apply fitsWithin_spec; unfold is_usize in *; simpl in *; (done || lia). }
       set (q := if is_low _ && _ then _ else _).
       destruct (solo_rollback _ q s3 Hs3 (proj2 (before_irrefl OwnerBytes))) as (s' & Hs' & Hk).
       exists s'. split.
       - apply Hk1. apply (Hk2 21%nat). apply (Hk3 17%nat). unfold refused, next. simpl counter. rewrite Hf.
         apply Hk. simpl. lia.
       - rewrite decide_False; [done|]. unfold q. by case_match. }
  destruct (Hy3 eq_refl) as (s3 & Hs3 & Hk3). clear Hy3 Hn3.
  destruct (solo_reserve s3 GlobalTasks Hs3 ltac:(done)) as [Hy4 _].
  destruct Hy4 as (s4 & Hs4 & Hk4).
  { unfold fits. simpl. apply Z.leb_le. lia. }
  exists s4. split; [|done]. apply Hk1. apply (Hk2 21%nat). apply (Hk3 17%nat). cbn [next reserved].
  change 17%nat with (S (4 + 12)). rewrite solo_next. unfold attempt_step. simpl at_phase. cbv iota.
  rewrite (so_accepting _ _ _ _ _ Hs3), Hacc. cbn [next]. by apply Hk4.
Qed.

End solo.

(** ** Shutdown *)

Definition admitting (a : Attempt) : Prop :=
  exists o pc, at_phase a = Reserving o GlobalTasks pc.

Lemma attempt_closed l spurious m i a s out :
  inv l m -> attempts m !! i = Some a -> accepting (dstate m) = false ->
  attempt_step l spurious (dstate m) a = (s, out) ->
  accepting s = false /\
  match out with
  | Continue p => admitting (with_phase p a) -> admitting a
  | Return NoReason p =>
      admitting a /\ match p with Some p => ~ admitting (with_phase p a) | None => True end
  | Return _ p => p = None
  | _ => True
  end.
Proof.
  intros Hinv Hi Hclosed Ha. destruct (iv_attempts _ _ Hinv i a Hi) as (_ & _ & _ & Hpc).
  unfold attempt_step in Ha.
  assert (forall sc o c, accepting (set_counter sc o c (dstate m)) = false) as Hsc by by intros [].
  destruct (at_phase a) as [| |o|o sc pc|o|o|o [|sc todo] r|o [|sc todo]] eqn:Hph; simpl in *.
  - repeat case_match; simplify_eq; split; try done; by intros (? & ? & [=]).
  - unfold registerOwner in Ha. repeat case_match; simplify_eq; split; try done; by intros (? & ? & [=]).
  - rewrite Hclosed in Ha. simplify_eq. done.
  - destruct (limit_step _ _ _ _ _) as [c [pc'|v|v]]; simplify_eq.
    + split; [done|]. unfold admitting. simpl. rewrite Hph. intros (? & ? & [= <- <- <-]). eauto.
    + split; [done|]. destruct sc; simpl; try by intros (? & ? & [=]).
      split; [unfold admitting; eauto|]. by intros (? & ? & [=]).
    + split; [done|]. destruct sc; simpl; try done; by intros (? & ? & [=]).
  - rewrite Hclosed in Ha. simplify_eq. split; [done|]. by intros (? & ? & [=]).
  - simplify_eq. split; [done|]. by intros (? & ? & [=]).
  - simplify_eq. split; [done|]. by destruct r.
  - repeat case_match; simplify_eq; split; try done; by intros (? & ? & [=]).
  - by simplify_eq.
  - repeat case_match; simplify_eq; split; try done; by intros (? & ? & [=]).
Qed.

(** While admission is closed no further reservation passes the final check. *)
Lemma step_closed l lb m m' :
  limits_ok l -> inv l m -> accepting (dstate m) = false -> reservation_step l lb m = Some m' ->
  accepting (dstate m') = false /\
  (forall i a, attempts m' !! i = Some a -> admitting a ->
     exists a0, attempts m !! i = Some a0 /\ admitting a0) /\
  exists new, results m' = results m ++ new /\
    forall i, (i, NoReason) ∈ new -> exists a0, attempts m !! i = Some a0 /\ admitting a0.
Proof.
  intros Hl Hinv Hclosed Hstep.
  assert (forall (ms : gmap nat Attempt) i b, (admitting b -> exists a0, ms !! i = Some a0 /\ admitting a0) ->
    forall j a, <[i:=b]> ms !! j = Some a -> admitting a ->
    exists a0, ms !! j = Some a0 /\ admitting a0) as Hins.
  { intros ms i b Hb j a [[<- <-]|[_ Hj]]%lookup_insert_Some Ha; eauto. }
  assert (forall (ms : gmap nat Attempt) i j a, delete i ms !! j = Some a -> admitting a ->
    exists a0, ms !! j = Some a0 /\ admitting a0) as Hdel.
  { intros ms i j a [_ Hj]%lookup_delete_Some Ha. eauto. }
  assert (forall i, (i, NoReason) ∈ (@nil (nat * BroadcastReason)) ->
    exists a0, attempts m !! i = Some a0 /\ admitting a0) as Hnil by (intros i ?%elem_of_nil; done).
  unfold reservation_step in Hstep. rewrite (iv_fatal _ _ Hinv) in Hstep. destruct lb as [i owner b prio|i spurious|i|].
  - destruct (_ && _); [|done]. injection Hstep as <-. simpl. split_and!; [done| |].
    + refine (Hins _ _ _ _). by intros (o & pc & [=]).
    + exists []. by rewrite app_nil_r.
  - destruct (attempts m !! i) as [a|] eqn:Hi; [|done].
    destruct (attempt_step l spurious (dstate m) a) as [s out] eqn:Ha.
    destruct (attempt_closed l spurious m i a s out Hinv Hi Hclosed Ha) as [Hs Hout].
    assert (exists new, results m = results m ++ new /\
      forall i, (i, NoReason) ∈ new -> exists a0, attempts m !! i = Some a0 /\ admitting a0) as Hno
      by (exists []; by rewrite app_nil_r).
    destruct out as [p|r [p|]| |]; simplify_eq; simpl; (split; [done|split]); try done; try apply Hdel; eauto.
    + refine (Hins _ _ _ _). destruct r; try done. destruct Hout as [? ?]. done.
    + exists [(i, r)]. split; [done|]. intros j [= <- <-]%list_elem_of_singleton. exists a. by destruct Hout.
    + exists [(i, r)]. split; [done|]. intros j [= <- <-]%list_elem_of_singleton. exists a. by destruct Hout.
  - destruct (attempts m !! i) as [a|] eqn:Hi.
    + destruct (at_phase a) eqn:Hph; simplify_eq; simpl; split_and!; try done; eauto;
        try (exists []; by rewrite app_nil_r).
      refine (Hins _ _ _ _). by intros (? & ? & [=]).
    + simplify_eq. split_and!; try done; eauto. exists []. by rewrite app_nil_r.
  - simplify_eq. simpl. split_and!; try done; eauto. exists []. by rewrite app_nil_r.
Qed.

(** ** Properties *)

Definition scope_max (l : DispatchLimits) (sc : Scope) : Z :=
  match sc with
  | OwnerTasks => maxOutstandingTasksPerOwner l
  | OwnerBytes => maxOutstandingBytesPerOwner l
  | GlobalBytes => maxGlobalOutstandingBytes l
  | GlobalTasks => usize_max
  end.

Lemma cap_scope_max l s sc o : limits_ok l -> config_ok l s -> cap s sc o <= scope_max l sc.
Proof.
  intros [[] _] [Hg _ Ho]. unfold cap, is_usize in *. destruct sc; simpl; try lia;
    destruct (heap s !! o) as [x|] eqn:E; try lia; destruct (Ho o x E); lia.
Qed.

(** C16. For every interleaving of reservations, releases and shutdown, spurious
    compare-exchange failures included: each outstanding counter equals what the
    reservations hold in that scope, counters and peaks stay within the
    configured limits, a peak not being updated is at least its counter, no
    counter underflows or overflows (the [LOG_FATAL]s are unreachable), and
    there is one set of owner counters per owner id. *)
Theorem reservations_exact l lbs m :
  limits_ok l -> reservation_steps l lbs (initial l) = Some m ->
  fatal m = false /\
  (forall sc o, let c := counter (dstate m) sc o in
     current_ c = msum (share sc o) (attempts m) /\ current_ c <= scope_max l sc /\
     peak_ c <= scope_max l sc /\ (current_ c <= peak_ c \/ raising (attempts m) sc o (current_ c))) /\
  (forall i a o, attempts m !! i = Some a -> phase_owner (at_phase a) = Some o ->
     id_at (heap (dstate m)) o = at_owner a) /\
  (forall o1 o2, (o1 < length (heap (dstate m)))%nat -> (o2 < length (heap (dstate m)))%nat ->
     id_at (heap (dstate m)) o1 = id_at (heap (dstate m)) o2 -> o1 = o2).
Proof.
  intros Hl Hs. pose proof (steps_inv l Hl _ _ _ (initial_inv l Hl) Hs) as [Hcnt Hcap Hpk Hat Hsz Hreg Hcf Hf].
  split_and!; [done| | |].
  - intros sc o c. pose proof (cap_scope_max l _ sc o Hl Hcf). destruct (Hcap sc o).
    split_and!; [apply Hcnt|unfold c; lia|unfold c; lia|apply Hpk].
  - intros i a o Hi Ho. destruct (Hat i a Hi) as ([_ Hid] & _). auto.
  - intros o1 o2 H1 H2 E. apply (rg_all _ Hreg) in H1 as (i1 & H1)%list_elem_of_lookup_1.
    apply (rg_all _ Hreg) in H2 as (i2 & H2)%list_elem_of_lookup_1.
    destruct (Nat.lt_trichotomy i1 i2) as [Hlt|[->|Hlt]]; [|congruence|].
    + pose proof (sorted_lookup _ _ _ _ _ _ (rg_sorted _ Hreg) H1 H2 Hlt). simpl in *. lia.
    + pose proof (sorted_lookup _ _ _ _ _ _ (rg_sorted _ Hreg) H2 H1 Hlt). simpl in *. lia.
Qed.

(** The aggregate task count is a convergence marker: when it reads zero,
    no reservation is outstanding and every release has given back all its
    scopes, so when no [tryReserve] is in progress either, every counter is
    zero. *)
Theorem zero_tasks_converged l lbs m :
  limits_ok l -> reservation_steps l lbs (initial l) = Some m -> current_ (globalTasks (dstate m)) = 0 ->
  (forall i a, attempts m !! i = Some a ->
     match at_phase a with Held _ => False | Releasing _ todo => todo = [] | _ => True end) /\
  ((forall i a, attempts m !! i = Some a ->
     match at_phase a with Held _ | Releasing _ _ => True | _ => False end) ->
   forall sc o, current_ (counter (dstate m) sc o) = 0).
Proof.
  intros Hl Hs Hz. pose proof (steps_inv l Hl _ _ _ (initial_inv l Hl) Hs) as Hinv.
  destruct Hinv as [Hcnt Hcap Hpk Hat Hsz Hreg Hcf Hf] eqn:E. clear E.
  assert (forall i a, attempts m !! i = Some a -> GlobalTasks ∉ holds (at_phase a)) as Hno.
  { intros i a Hi Hin. pose proof (share_le_current l m GlobalTasks 0 i a Hinv Hi) as Hle.
    simpl in Hle. rewrite Hz in Hle. unfold share, mine in Hle. simpl in Hle.
    rewrite bool_decide_true in Hle by done. simpl in Hle. lia. }
  assert (forall i a, attempts m !! i = Some a ->
     match at_phase a with Held _ => False | Releasing _ todo => todo = [] | _ => True end) as Hrel.
  { intros i a Hi. specialize (Hno i a Hi). destruct (Hat i a Hi) as (_ & _ & _ & Hp).
    destruct (at_phase a); try done; simpl in *; [set_solver|].
    destruct Hp as [|Hp]; [done|]. apply last_Some in Hp as [pre ->].
    exfalso. apply Hno. apply elem_of_app. right. by apply list_elem_of_singleton. }
  split; [done|]. intros Hq sc o. rewrite Hcnt. apply msum_zero. intros i a Hi.
  specialize (Hrel i a Hi). specialize (Hq i a Hi). unfold share.
  destruct (at_phase a); try done. subst. done.
Qed.

(** [tryReserve] run without interference returns, after at most thirty
    atomic actions, the first limit the request exceeds (or [OwnerShutdown], or
    no reason), and adds exactly the request to the four counters when it is
    granted and nothing when it is refused. *)
Theorem tryReserve_decides l lbs m i a o :
  limits_ok l -> reservation_steps l lbs (initial l) = Some m ->
  attempts m !! i = Some a -> at_phase a = FirstCheck o ->
  let r := tryReserve_spec (dstate m) o (at_bytes a) (at_priority a) in
  exists s', solo 30 l (dstate m) a = Some (s', r) /\
    forall sc o', current_ (counter s' sc o') = current_ (counter (dstate m) sc o') +
      if bool_decide (r = NoReason) && mine sc o' (Some o) then amount sc a else 0.
Proof.
  intros Hl Hs Hi Hph r. pose proof (steps_inv l Hl _ _ _ (initial_inv l Hl) Hs) as Hinv.
  destruct (iv_attempts _ _ Hinv i a Hi) as ([Hb _] & Hlt & _). rewrite Hph in Hlt.
  assert (with_phase (FirstCheck o) a = a) as Ea by (destruct a; simpl in *; by subst).
  destruct (solo_decides l (dstate m) a o Hl Hb (Hlt o eq_refl) (iv_config _ _ Hinv)) as (s' & Hs' & Hat).
  { intros sc o'. by apply (current_bounds l). }
  { by apply (global_tasks_small l). }
  rewrite Ea in Hs'. exists s'. split; [exact Hs'|]. intros sc o'. rewrite (so_current _ _ _ _ _ Hat).
  fold r. destruct (decide (r = NoReason)) as [E|E].
  - rewrite (bool_decide_true (r = NoReason)) by done. by rewrite bool_decide_true by (destruct sc; set_solver).
  - rewrite (bool_decide_false (r = NoReason)) by done. by rewrite bool_decide_false by (apply not_elem_of_nil).
Qed.

(** After [shutdown] admission is closed for good: whatever happens next,
    only reservations that had already passed their final check of [accepting]
    can still be granted. *)
Theorem shutdown_closes_admission l lbs m lbs' m' :
  limits_ok l -> reservation_steps l lbs (initial l) = Some m -> accepting (dstate m) = false ->
  reservation_steps l lbs' m = Some m' ->
  accepting (dstate m') = false /\
  exists new, results m' = results m ++ new /\
    forall i, (i, NoReason) ∈ new ->
      exists a o pc, attempts m !! i = Some a /\ at_phase a = Reserving o GlobalTasks pc.
Proof.
  intros Hl Hs Hc. pose proof (steps_inv l Hl _ _ _ (initial_inv l Hl) Hs) as Hinv. clear Hs.
  assert (forall i a0, attempts m !! i = Some a0 /\ admitting a0 ->
    exists a o pc, attempts m !! i = Some a /\ at_phase a = Reserving o GlobalTasks pc) as Hun.
  { intros i a0 (Hi & o & pc & Hp). eauto. }
  cut (forall m1, reservation_steps l lbs' m1 = Some m' -> inv l m1 -> accepting (dstate m1) = false ->
    (forall i a, attempts m1 !! i = Some a -> admitting a -> exists a0, attempts m !! i = Some a0 /\ admitting a0) ->
    accepting (dstate m') = false /\ exists new, results m' = results m1 ++ new /\
      forall i, (i, NoReason) ∈ new -> exists a0, attempts m !! i = Some a0 /\ admitting a0).
  { intros H Hs'. destruct (H m Hs' Hinv Hc) as [? (new & ? & Hn)]; [eauto|]. split; [done|].
    exists new. split; [done|]. intros i Hi. destruct (Hn i Hi) as (a0 & Ha). eauto. }
  clear Hinv Hc. induction lbs' as [|lb lbs' IH]; intros m1 Hs1 Hi1 Hc1 Hadm; simpl in Hs1.
  { simplify_eq. split; [done|]. exists []. rewrite app_nil_r. split; [done|]. by intros i ?%elem_of_nil. }
  destruct (reservation_step l lb m1) as [m2|] eqn:E; [|done].
  destruct (step_closed l lb m1 m2 Hl Hi1 Hc1 E) as (Hc2 & Ha2 & new & Hr & Hn).
  destruct (IH m2 Hs1) as (Hc' & new' & Hr' & Hn'); [by eapply step_inv|done| |].
  { intros i a Hi Ha. destruct (Ha2 i a Hi Ha) as (a0 & Hi0 & Ha0). eauto. }
  split; [done|]. exists (new ++ new'). split; [by rewrite Hr', Hr, app_assoc|].
  intros i [Hin|Hin]%elem_of_app; [|eauto]. destruct (Hn i Hin) as (a0 & Hi0 & Ha0). eauto.
Qed.

(** ** Concrete runs *)

Definition demo_limits : DispatchLimits := mkDispatchLimits 2 1000 2 300 400 200.

Lemma dispatch_limits_ok : limits_ok demo_limits.
Proof. split; [|done]. split; unfold is_usize; simpl; lia. Qed.

Definition run_demo (lbs : list Label) : Machine :=
  default (initial demo_limits) (reservation_steps demo_limits lbs (initial demo_limits)).

(** A granted reservation of 100 bytes for owner 7, and a second one that has
    found the owner. *)
Definition demo_granted : list Label :=
  LBegin 0 7 100 NormalPriority :: replicate 20 (LStep 0 false).
Definition demo_second : list Label :=
  demo_granted ++ LBegin 1 7 250 LowPriority :: [LStep 1 false].

Lemma reservations_exact_witness :
  let m := run_demo demo_granted in
  results m = [(0%nat, NoReason)] /\ fatal m = false /\
  current_ (counter (dstate m) OwnerBytes 0) = msum (share OwnerBytes 0) (attempts m) /\
  current_ (counter (dstate m) OwnerBytes 0) = 100.
Proof.
  destruct (reservations_exact demo_limits demo_granted (run_demo demo_granted) dispatch_limits_ok)
    as (Hf & Hc & _); [vm_compute; reflexivity|].
  split_and!; [vm_compute; reflexivity|exact Hf|exact (proj1 (Hc OwnerBytes 0%nat))|vm_compute; reflexivity].
Defined.

Lemma zero_tasks_converged_witness :
  let m := run_demo (demo_granted ++ LRelease 0 :: replicate 4 (LStep 0 false)) in
  current_ (globalTasks (dstate m)) = 0 /\ current_ (counter (dstate m) OwnerBytes 0) = 0.
Proof.
  intros m. split; [vm_compute; reflexivity|].
  refine (proj2 (zero_tasks_converged demo_limits
    (demo_granted ++ LRelease 0 :: replicate 4 (LStep 0 false)) m dispatch_limits_ok _ _) _ _ _);
    [vm_compute; reflexivity|vm_compute; reflexivity|].
  intros i a Hi. assert (attempts m = {[ 0%nat := mkAttempt 7 100 NormalPriority (Releasing 0 []) ]}) as E
    by (vm_compute; reflexivity).
  rewrite E in Hi. apply lookup_singleton_Some in Hi as [_ <-]. exact I.
Defined.

Lemma tryReserve_decides_witness :
  let m := run_demo demo_second in
  exists s', solo 30 demo_limits (dstate m) (mkAttempt 7 250 LowPriority (FirstCheck 0)) =
    Some (s', OwnerOutstandingByteLimit) /\ current_ (counter s' OwnerTasks 0) = 1.
Proof.
  intros m. destruct (tryReserve_decides demo_limits demo_second m 1%nat
    (mkAttempt 7 250 LowPriority (FirstCheck 0)) 0%nat dispatch_limits_ok) as (s' & Hs & Hc);
    [vm_compute; reflexivity|vm_compute; reflexivity|reflexivity|].
  exists s'. split; [rewrite Hs; vm_compute; reflexivity|]. rewrite Hc. vm_compute. reflexivity.
Defined.

Lemma shutdown_closes_admission_witness :
  let m := run_demo (demo_second ++ [LShutdown]) in
  exists m', reservation_steps demo_limits [LStep 1 false] m = Some m' /\
    results m' = [(0%nat, NoReason); (1%nat, OwnerShutdown)] /\ accepting (dstate m') = false.
Proof.
  intros m. eexists. split; [vm_compute; reflexivity|]. split; [reflexivity|].
  refine (proj1 (shutdown_closes_admission demo_limits (demo_second ++ [LShutdown]) m [LStep 1 false] _
    dispatch_limits_ok _ _ _)); vm_compute; reflexivity.
Defined.

End Reservation.

Module Dispatch.

(** ** Data *)

(** Endpoints as [dispatch] observes them when it reaches them; [None] is a
    null pointer. *)
Record DispatchBatch := mkDispatchBatch { b_owner : OwnerExecutor; b_endpoints : list (option Endpoint) }.

Record DispatchPlan := mkDispatchPlan {
  d_payload : option (list byte);
  d_batches : list DispatchBatch;
  d_dropped : Z;
  d_priority : BroadcastPriority;
  d_counts : list Z;
}.

Record DispatchSummary := mkSummary {
  s_scheduled : Z;
  s_tasks : Z;
  s_accepted : Z;
  s_dropped : Z;
  s_counts : list Z;
}.

Record DispatchProgressSnapshot := mkProgress {
  p_scheduled : Z;
  p_accepted : Z;
  p_dropped : Z;
  outstandingTasks : Z;
  outstandingBytes : Z;
  complete : bool;
  p_counts : list Z;
}.

(** [DispatchProgress::State] *)
Record ProgressState := mkProgressState { snapshot : DispatchProgressSnapshot; sealed : bool }.

Definition postFailureReason (r : PostResult) : BroadcastReason :=
  match r with
  | PostQueueFull => DispatchQueueFull
  | PostShutdown => OwnerShutdown
  | PostOwnerUnavailable => OwnerUnavailable
  | PostAccepted => NoReason
  end.

Definition endpointFailureReason (r : EndpointResult) : BroadcastReason :=
  match r with
  | EpAccepted => NoReason
  | EpClosed => EndpointClosed
  | EpOwnerUnavailable => OwnerUnavailable
  | EpOverloaded => EndpointOverloaded
  | EpWrongThread => SendRejected
  end.

(** ** What the call will do *)

(** Record an immediate drop, or try to schedule a chunk of endpoints. *)
Inductive Work :=
  | WDrop (r : BroadcastReason) (id : Z)
  | WChunk (owner : OwnerExecutor) (chunk : list Endpoint).

Definition chunkSize (l : DispatchLimits) (payload : list byte) : Z :=
  let byBytes := if zlen payload =? 0 then maxEndpointsPerTask l
                 else Z.max 1 (maxBytesPerTask l / zlen payload) in
  Z.min (maxEndpointsPerTask l) byBytes.

(** The endpoint checks of a batch. *)
Definition check_endpoint (owner : OwnerExecutor) (e : option Endpoint) :
    Endpoint + BroadcastReason * Z :=
  match e with
  | None => inr (InvalidPlan, 0)
  | Some e =>
      if negb (executor_id (ep_owner e) =? executor_id owner) then inr (InvalidPlan, ep_id e)
      else if negb (ep_open e) then inr (EndpointClosed, ep_id e)
      else inl e
  end.

Definition validEndpoints (b : DispatchBatch) : list Endpoint :=
  omap (fun e => match check_endpoint (b_owner b) e with inl e => Some e | inr _ => None end)
    (b_endpoints b).

Definition batch_drops (b : DispatchBatch) : list Work :=
  omap (fun e => match check_endpoint (b_owner b) e with
                 | inl _ => None | inr (r, id) => Some (WDrop r id) end) (b_endpoints b).

(** [for (offset = 0; offset < size; offset += chunkSize)]; one turn per
    endpoint is enough. *)
Fixpoint chunks_from (fuel : nat) (size offset : Z) (valid : list Endpoint) : list (list Endpoint) :=
  match fuel with
  | O => []
  | S fuel =>
      if offset <? zlen valid then
        slice offset (Z.min (zlen valid) (offset ⊕ size)) valid
          :: chunks_from fuel size (offset ⊕ size) valid
      else []
  end.

Definition chunks (size : Z) (valid : list Endpoint) : list (list Endpoint) :=
  chunks_from (S (length valid)) size 0 valid.

Definition batch_work (l : DispatchLimits) (payload : list byte) (b : DispatchBatch) : list Work :=
  batch_drops b ++ (WChunk (b_owner b) <$> chunks (chunkSize l payload) (validEndpoints b)).

Definition endpoint_id (e : option Endpoint) : Z := match e with Some e => ep_id e | None => 0 end.

(** A payload over the task limit drops every endpoint of the plan. *)
Definition oversize_work (bs : list DispatchBatch) : list Work :=
  b ← bs; (fun e => WDrop DispatchTaskByteLimit (endpoint_id e)) <$> b_endpoints b.

(** ** The call and its tasks *)

(** Inside the chunk loop: between items, holding a reservation before [post],
    and after an accepted [post]. *)
Inductive Stage :=
  | Running
  | Posting (owner : OwnerExecutor) (chunk : list Endpoint) (bytes : Z)
  | Posted (admitted : Z)
  | Returned
  | Thrown (chunk : list Endpoint).   (** [post] threw for this chunk *)

(** A posted task: the endpoints it has not served yet and its reserved bytes. *)
Record Task := mkTask { t_rest : list Endpoint; t_bytes : Z }.

(** [early]: the plan is rejected as a whole; [h_log]: the metrics, the two of a
    served endpoint together. *)
Record Call := mkCall {
  payload : option (list byte);
  early : bool;
  work : list Work;
  stage : Stage;
  summary : DispatchSummary;
  progress : ProgressState;
  tasks : gmap nat Task;
  h_log : list BroadcastMetric;
}.

Definition payload_size (c : Call) : Z := match payload c with Some b => zlen b | None => 0 end.

Definition upd_snapshot (f : DispatchProgressSnapshot -> DispatchProgressSnapshot) (p : ProgressState) :
    ProgressState :=
  mkProgressState (f (snapshot p)) (sealed p).

Definition progress_drop (r : BroadcastReason) (p : DispatchProgressSnapshot) : DispatchProgressSnapshot :=
  mkProgress (p_scheduled p) (p_accepted p) (p_dropped p ⊕ 1) (outstandingTasks p) (outstandingBytes p)
    (complete p) (bump r (p_counts p)).

Definition recordImmediateDrop (r : BroadcastReason) (id : Z) (c : Call) : Call :=
  mkCall (payload c) (early c) (work c) (stage c)
    (mkSummary (s_scheduled (summary c)) (s_tasks (summary c)) (s_accepted (summary c))
       (s_dropped (summary c) ⊕ 1) (bump r (s_counts (summary c))))
    (upd_snapshot (progress_drop r) (progress c)) (tasks c)
    (h_log c ++ [mkMetric Dropped r id (payload_size c)]).

Definition reserve_progress (bytes : Z) (p : DispatchProgressSnapshot) : DispatchProgressSnapshot :=
  mkProgress (p_scheduled p) (p_accepted p) (p_dropped p) (outstandingTasks p ⊕ 1)
    (outstandingBytes p ⊕ bytes) (complete p) (p_counts p).

(** The progress part of [releaseReservation]. *)
Definition release_progress (bytes : Z) (p : ProgressState) : ProgressState :=
  let s := snapshot p in
  let n := outstandingTasks s ⊖ 1 in
  mkProgressState
    (mkProgress (p_scheduled s) (p_accepted s) (p_dropped s) n (outstandingBytes s ⊖ bytes)
       (sealed p && (n =? 0)) (p_counts s)) (sealed p).

Definition schedule_progress (n : Z) (p : DispatchProgressSnapshot) : DispatchProgressSnapshot :=
  mkProgress (p_scheduled p ⊕ n) (p_accepted p) (p_dropped p) (outstandingTasks p) (outstandingBytes p)
    (complete p) (p_counts p).

Definition serve_progress (r : BroadcastReason) (p : DispatchProgressSnapshot) : DispatchProgressSnapshot :=
  if bool_decide (r = NoReason)
  then mkProgress (p_scheduled p) (p_accepted p ⊕ 1) (p_dropped p) (outstandingTasks p)
         (outstandingBytes p) (complete p) (p_counts p)
  else progress_drop r p.

Definition seal (early : bool) (p : ProgressState) : ProgressState :=
  let s := snapshot p in
  mkProgressState
    (mkProgress (p_scheduled s) (p_accepted s) (p_dropped s) (outstandingTasks s) (outstandingBytes s)
       (early || (outstandingTasks s =? 0)) (p_counts s)) true.

Definition zero_progress (dropped : Z) (counts : list Z) : ProgressState :=
  mkProgressState (mkProgress 0 0 dropped 0 0 false counts) false.

(** [dispatch] up to its loop over the batches. *)
Definition dispatch_start (l : DispatchLimits) (plan : DispatchPlan) : Call :=
  match d_payload plan with
  | None =>
      mkCall None true [WDrop InvalidPlan 0] Running (mkSummary 0 0 0 0 no_counts)
        (zero_progress 0 no_counts) ∅ []
  | Some b =>
      let over := maxBytesPerTask l <? zlen b in
      mkCall (Some b) over
        (if over then oversize_work (d_batches plan) else d_batches plan ≫= batch_work l b)
        Running (mkSummary 0 0 0 (d_dropped plan) (d_counts plan))
        (zero_progress (d_dropped plan) (d_counts plan)) ∅ []
  end.

Definition at_stage (w : list Work) (st : Stage) (p : ProgressState) (c : Call) : Call :=
  mkCall (payload c) (early c) w st (summary c) p (tasks c) (h_log c).

Definition drop_chunk (r : BroadcastReason) (chunk : list Endpoint) : list Work :=
  (fun e => WDrop r (ep_id e)) <$> chunk.

(** Actions of the calling thread and of the posted tasks.  [LWork r]: the next
    item, where [r] is what [State::tryReserve] answers for a chunk; [LPost]:
    [None] if [post] throws; [LServe]: whether the endpoint is open and what
    [send] returns, [None] if it throws. *)
Inductive Label :=
  | LWork (r : BroadcastReason)
  | LPost (i : nat) (p : option PostResult)
  | LAdmit
  | LSeal
  | LServe (i : nat) (open : bool) (sent : option EndpointResult)
  | LFinish (i : nat).

Definition serve_reason (open : bool) (sent : option EndpointResult) : BroadcastReason :=
  if negb open then EndpointClosed
  else match sent with Some r => endpointFailureReason r | None => SendRejected end.

Definition dispatch_step (lb : Label) (c : Call) : option Call :=
  match lb with
  | LWork r =>
      match stage c, work c with
      | Running, WDrop r' id :: w => Some (recordImmediateDrop r' id (at_stage w Running (progress c) c))
      | Running, WChunk owner chunk :: w =>
          let bytes := logicalBytes (payload_size c) (zlen chunk) in
          if bool_decide (r = NoReason)
          then Some (at_stage w (Posting owner chunk bytes)
                       (upd_snapshot (reserve_progress bytes) (progress c)) c)
          else Some (at_stage (drop_chunk r chunk ++ w) Running (progress c) c)
      | _, _ => None
      end
  | LPost i p =>
      match stage c with
      | Posting owner chunk bytes =>
          match p with
          | Some PostAccepted =>
              if bool_decide (tasks c !! i = None) then
                Some (mkCall (payload c) (early c) (work c) (Posted (zlen chunk)) (summary c) (progress c)
                        (<[i := mkTask chunk bytes]> (tasks c)) (h_log c))
              else None
          | Some p =>
              Some (at_stage (drop_chunk (postFailureReason p) chunk ++ work c) Running
                      (release_progress bytes (progress c)) c)
          | None => Some (at_stage (work c) (Thrown chunk) (release_progress bytes (progress c)) c)
          end
      | _ => None
      end
  | LAdmit =>
      match stage c with
      | Posted n =>
          Some (mkCall (payload c) (early c) (work c) Running
            (mkSummary (s_scheduled (summary c) ⊕ n) (s_tasks (summary c) ⊕ 1)
               (s_accepted (summary c) ⊕ n) (s_dropped (summary c)) (s_counts (summary c)))
            (upd_snapshot (schedule_progress n) (progress c)) (tasks c) (h_log c))
      | _ => None
      end
  | LSeal =>
      match stage c, work c with
      | Running, [] => Some (at_stage [] Returned (seal (early c) (progress c)) c)
      | _, _ => None
      end
  | LServe i open sent =>
      match tasks c !! i with
      | Some (mkTask (e :: rest) bytes) =>
          let r := serve_reason open sent in
          Some (mkCall (payload c) (early c) (work c) (stage c) (summary c)
            (upd_snapshot (serve_progress r) (progress c)) (<[i := mkTask rest bytes]> (tasks c))
            (h_log c ++ [mkMetric Scheduled NoReason (ep_id e) (payload_size c);
                         mkMetric (if bool_decide (r = NoReason) then Sent else Dropped) r (ep_id e)
                           (payload_size c)]))
      | _ => None
      end
  | LFinish i =>
      match tasks c !! i with
      | Some (mkTask [] bytes) =>
          Some (mkCall (payload c) (early c) (work c) (stage c) (summary c)
            (release_progress bytes (progress c)) (delete i (tasks c)) (h_log c))
      | _ => None
      end
  end.

Fixpoint dispatch_steps (lbs : list Label) (c : Call) : option Call :=
  match lbs with
  | [] => Some c
  | lb :: lbs => match dispatch_step lb c with Some c' => dispatch_steps lbs c' | None => None end
  end.

(** ** Chunks *)

Section chunk_lemmas.
Context (size : Z) (valid : list Endpoint).
Context (Hsize : 1 <= size < usize_lim) (Hvalid : zlen valid <= ptrdiff_max).

(** Either the next offset is exact, or it is the last turn. *)
Lemma next_offset offset :
  0 <= offset < zlen valid -> (exists k, offset = k * size /\ 0 <= k) ->
  let e := Z.min (zlen valid) (offset ⊕ size) in
  offset < e <= zlen valid /\ e - offset <= size /\
  (zlen valid <= offset ⊕ size -> e = zlen valid) /\
  (offset ⊕ size < zlen valid -> e = offset ⊕ size /\ offset ⊕ size = offset + size).
Proof.
  intros Ho (k & Hk & Hk0). assert (offset + size < usize_lim) as Hlt.
  { destruct (decide (k = 0)) as [->|]; [lia|]. assert (size <= offset) by nia. lia. }
  rewrite uwrap_small by lia. lia.
Qed.

Lemma chunks_from_ok fuel : forall offset,
  0 <= offset <= zlen valid -> (exists k, offset = k * size /\ 0 <= k) ->
  (Z.to_nat (zlen valid - offset) < fuel)%nat ->
  concat (chunks_from fuel size offset valid) = zdrop offset valid /\
  Forall (fun c => 1 <= zlen c <= size) (chunks_from fuel size offset valid).
Proof.
  induction fuel as [|fuel IH]; intros offset Ho Hk Hf; [lia|]. simpl.
  destruct (Z.ltb_spec offset (zlen valid)) as [Hlt|Hge].
  2: { split; [|done]. unfold zdrop. rewrite drop_ge; [done|]. unfold zlen in *. lia. }
  destruct (next_offset offset ltac:(lia) Hk) as (He & Hes & Hlast & Hnext).
  set (e := Z.min (zlen valid) (offset ⊕ size)) in *.
  assert (zlen (slice offset e valid) = e - offset) as Hzl by (apply zlen_slice; lia).
  assert (zdrop offset valid = slice offset e valid ++ zdrop e valid) as Hsplit.
  { unfold slice, ztake, zdrop. rewrite <- (take_drop (Z.to_nat (e - offset)) (drop (Z.to_nat offset) valid)) at 1.
    f_equal. rewrite drop_drop. f_equal. lia. }
  destruct (Z.ltb_spec (offset ⊕ size) (zlen valid)) as [Hin|Hout].
  - destruct (Hnext Hin) as [Ee Eo]. destruct Hk as (k & -> & Hk0).
    destruct (IH (k * size ⊕ size)) as [Hc Hall]; [lia|exists (k + 1); lia|lia|].
    split; [by rewrite concat_cons, Hc, Hsplit, <- Ee|constructor; [lia|done]].
  - assert (chunks_from fuel size (offset ⊕ size) valid = []) as ->.
    { destruct fuel; simpl; [done|]. by rewrite (proj2 (Z.ltb_ge _ _)) by lia. }
    split; [|constructor; [lia|done]]. rewrite Hsplit, concat_cons.
    f_equal. unfold zdrop. rewrite drop_ge; [done|]. rewrite (Hlast Hout). unfold zlen. lia.
Qed.

Lemma chunks_ok :
  concat (chunks size valid) = valid /\ Forall (fun c => 1 <= zlen c <= size) (chunks size valid).
Proof.
  unfold chunks. destruct (chunks_from_ok (S (length valid)) 0) as [Hc Hall].
  - pose proof (zlen_nonneg valid). lia.
  - exists 0. lia.
  - unfold zlen. lia.
  - by rewrite Hc.
Qed.

End chunk_lemmas.

Lemma chunkSize_bounds l b :
  Reservation.limits_ok l -> zlen b <= maxBytesPerTask l ->
  1 <= chunkSize l b <= maxEndpointsPerTask l /\ zlen b * chunkSize l b <= maxBytesPerTask l.
Proof.
  intros [[] Hchk] Hb. unfold BroadcastDispatcher_check in Hchk. unfold is_usize in *.
  destruct (_ || _) eqn:E; [done|]. zify_bools. pose proof (zlen_nonneg b). unfold chunkSize.
  destruct (Z.eqb_spec (zlen b) 0) as [->|Hne]; [lia|].
  assert (1 <= maxBytesPerTask l / zlen b) as Hd1 by (apply Z.div_le_lower_bound; lia).
  assert (zlen b * (maxBytesPerTask l / zlen b) <= maxBytesPerTask l) as Hd2 by (apply Z.mul_div_le; lia).
  split; [lia|]. nia.
Qed.

Lemma logicalBytes_exact p n : 0 <= p -> 0 <= n -> p * n < usize_lim -> logicalBytes p n = p * n.
Proof.
  intros Hp Hn Hlt. unfold logicalBytes. destruct (Z.eqb_spec p 0) as [->|Hne]; simpl; [done|].
  destruct (Z.ltb_spec (usize_max / p) n) as [H|H]; [|by rewrite uwrap_small by nia].
  exfalso. pose proof (Z.mul_succ_div_gt usize_max p ltac:(lia)). nia.
Qed.

(** ** Accounting *)

Definition total_counts (counts : list Z) : Z := zsum (fun n => n) counts.

(** A count per reason, adding up to [n]. *)
Definition tally (counts : list Z) (n : Z) : Prop :=
  length counts = kBroadcastReasonCount /\ Forall (fun x => 0 <= x) counts /\ total_counts counts = n.

Lemma total_alter (counts : list Z) i x :
  Forall (fun x => 0 <= x) counts -> counts !! i = Some x -> total_counts counts + 1 < usize_lim ->
  total_counts (alter (fun n => n ⊕ 1) i counts) = total_counts counts + 1 /\
  Forall (fun x => 0 <= x) (alter (fun n => n ⊕ 1) i counts).
Proof.
  unfold total_counts. intros Hn. revert i. induction Hn as [|y counts Hy Hn IH]; intros i Hi Hlt; [done|].
  assert (0 <= zsum (fun n => n) counts) as H0.
  { clear -Hn. induction Hn; simpl; lia. }
  destruct i as [|i].
  - simpl in *. injection Hi as ->. rewrite uwrap_small by lia. split; [lia|]. constructor; [lia|done].
  - simpl in Hi, Hlt. destruct (IH i Hi ltac:(lia)) as [E Hf].
    assert (alter (fun n => n ⊕ 1) (S i) (y :: counts) = y :: alter (fun n => n ⊕ 1) i counts) as -> by done.
    cbn [zsum foldr]. unfold zsum in E. rewrite E. split; [lia|]. by constructor.
Qed.

Lemma tally_bump r counts n : tally counts n -> n + 1 < usize_lim -> tally (bump r counts) (n + 1).
Proof.
  intros (Hlen & Hpos & Ht) Hn. unfold bump.
  destruct (lookup_lt_is_Some_2 counts (reasonIndex r)) as [x Hx].
  { rewrite Hlen. apply reasonIndex_lt. }
  destruct (total_alter counts (reasonIndex r) x Hpos Hx) as [Et Hp]; [lia|].
  split; [by rewrite length_alter|]. split; [done|lia].
Qed.

Lemma tally_zero : tally no_counts 0.
Proof. split_and!; [done| |done]. apply Forall_replicate. lia. Qed.

Definition wsize (w : Work) : Z := match w with WDrop _ _ => 1 | WChunk _ c => zlen c end.
Definition wchunk (w : Work) : Z := match w with WDrop _ _ => 0 | WChunk _ _ => 1 end.

Definition posting_size (st : Stage) : Z := match st with Posting _ c _ | Thrown c => zlen c | _ => 0 end.
Definition posting_tasks (st : Stage) : Z := match st with Posting _ _ _ => 1 | _ => 0 end.
Definition posting_bytes (st : Stage) : Z := match st with Posting _ _ b => b | _ => 0 end.
Definition posted_size (st : Stage) : Z := match st with Posted n => n | _ => 0 end.

Definition drops_only (ws : list Work) : Prop := Forall (fun w => exists r id, w = WDrop r id) ws.

Definition t_left (t : Task) : Z := zlen (t_rest t).
Definition t_one (t : Task) : Z := 1.

(** [total]: the endpoints to account for. *)
Record accounted (total : Z) (c : Call) : Prop := {
  ac_summary : s_scheduled (summary c) + posted_size (stage c) + s_dropped (summary c) +
    zsum wsize (work c) + posting_size (stage c) = total;
  ac_accepted : s_accepted (summary c) = s_scheduled (summary c);
  ac_scheduled : p_scheduled (snapshot (progress c)) = s_scheduled (summary c);
  ac_progress : p_accepted (snapshot (progress c)) + p_dropped (snapshot (progress c)) +
    msum t_left (tasks c) + zsum wsize (work c) + posting_size (stage c) = total;
  ac_tasks : outstandingTasks (snapshot (progress c)) = msum t_one (tasks c) + posting_tasks (stage c);
  ac_chunks : msum t_one (tasks c) + posting_tasks (stage c) + zsum wchunk (work c) <= total;
  ac_bytes : outstandingBytes (snapshot (progress c)) = uwrap (msum t_bytes (tasks c) + posting_bytes (stage c));
  ac_nonneg : 0 <= s_scheduled (summary c) /\ 0 <= s_dropped (summary c) /\
    0 <= p_accepted (snapshot (progress c)) /\ 0 <= p_dropped (snapshot (progress c)) /\ 0 <= posted_size (stage c);
  ac_counts : tally (s_counts (summary c)) (s_dropped (summary c)) /\
    tally (p_counts (snapshot (progress c))) (p_dropped (snapshot (progress c)));
  ac_sealed : sealed (progress c) = true <-> stage c = Returned;
  ac_returned : stage c = Returned -> work c = [];
  ac_complete : complete (snapshot (progress c)) =
    sealed (progress c) && (outstandingTasks (snapshot (progress c)) =? 0);
  ac_early : early c = true -> drops_only (work c) /\ tasks c = ∅ /\ posting_tasks (stage c) = 0;
}.

Lemma zsum_nonneg_work ws : 0 <= zsum wsize ws /\ 0 <= zsum wchunk ws.
Proof.
  split; apply zsum_nonneg; intros [r id|o c]; simpl; try lia. apply zlen_nonneg.
Qed.

Lemma drop_chunk_sums r chunk :
  zsum wsize (drop_chunk r chunk) = zlen chunk /\ zsum wchunk (drop_chunk r chunk) = 0 /\
  drops_only (drop_chunk r chunk).
Proof.
  unfold drop_chunk, drops_only, zsum, zlen.
  induction chunk as [|e chunk (IH1 & IH2 & IH3)]; [done|]. cbn [fmap list_fmap foldr length wsize wchunk].
  change (list_fmap _ _ ?f ?l) with (f <$> l). split_and!; [lia|lia|]. constructor; eauto.
Qed.

Lemma tasks_nonneg (m : gmap nat Task) : 0 <= msum t_left m /\ 0 <= msum t_one m.
Proof.
  split; apply msum_nonneg; intros i x _; unfold t_left, t_one; [apply zlen_nonneg|lia].
Qed.

Lemma serve_accounted total c i e rest bytes r log :
  total < usize_lim -> accounted total c -> tasks c !! i = Some (mkTask (e :: rest) bytes) ->
  accounted total (mkCall (payload c) (early c) (work c) (stage c) (summary c)
    (upd_snapshot (serve_progress r) (progress c)) (<[i := mkTask rest bytes]> (tasks c)) log).
Proof.
  intros Ht [Hs Ha Hsc Hp Htk Hch Hb Hnn [Hcs Hcp] Hse Hre Hco Hea] Hi.
  pose proof (zsum_nonneg_work (work c)). pose proof (zlen_nonneg rest).
  assert (0 <= posting_size (stage c)) by (destruct (stage c); simpl; try lia; apply zlen_nonneg).
  assert (msum t_left (<[i := mkTask rest bytes]> (tasks c)) = msum t_left (tasks c) - 1) as El.
  { rewrite (msum_update _ _ _ _ _ Hi). unfold t_left, zlen. simpl. lia. }
  assert (msum t_one (<[i := mkTask rest bytes]> (tasks c)) = msum t_one (tasks c)) as Eo.
  { rewrite (msum_update _ _ _ _ _ Hi). unfold t_one. lia. }
  assert (msum t_bytes (<[i := mkTask rest bytes]> (tasks c)) = msum t_bytes (tasks c)) as Eb.
  { rewrite (msum_update _ _ _ _ _ Hi). simpl. lia. }
  destruct (tasks_nonneg (<[i := mkTask rest bytes]> (tasks c))) as [Hl _].
  unfold serve_progress. case_bool_decide as Hr; split; simpl; rewrite ?El, ?Eo, ?Eb; try done; try tauto.
  - rewrite uwrap_small by lia. lia.
  - rewrite uwrap_small by lia. lia.
  - intros He. destruct (Hea He) as (_ & E & _). rewrite E in Hi. by rewrite lookup_empty in Hi.
  - rewrite uwrap_small by lia. lia.
  - rewrite uwrap_small by lia. lia.
  - split; [done|]. rewrite uwrap_small by lia. apply tally_bump; [done|lia].
  - intros He. destruct (Hea He) as (_ & E & _). rewrite E in Hi. by rewrite lookup_empty in Hi.
Qed.

Lemma uwrap_add_l a b : uwrap (uwrap a + b) = uwrap (a + b).
Proof. unfold uwrap. apply Zplus_mod_idemp_l. Qed.
Lemma uwrap_sub_l a b : uwrap (uwrap a - b) = uwrap (a - b).
Proof. unfold uwrap. apply Zminus_mod_idemp_l. Qed.

Lemma finish_accounted total c i bytes :
  total < usize_lim -> accounted total c -> tasks c !! i = Some (mkTask [] bytes) ->
  accounted total (mkCall (payload c) (early c) (work c) (stage c) (summary c)
    (release_progress bytes (progress c)) (delete i (tasks c)) (h_log c)).
Proof.
  intros Ht [Hs Ha Hsc Hp Htk Hch Hb Hnn [Hcs Hcp] Hse Hre Hco Hea] Hi.
  pose proof (zsum_nonneg_work (work c)).
  assert (msum t_left (delete i (tasks c)) = msum t_left (tasks c)) as El.
  { rewrite (msum_delete _ _ _ _ Hi). unfold t_left, zlen. simpl. lia. }
  assert (msum t_one (delete i (tasks c)) = msum t_one (tasks c) - 1) as Eo.
  { rewrite (msum_delete _ _ _ _ Hi). done. }
  assert (msum t_bytes (delete i (tasks c)) = msum t_bytes (tasks c) - bytes) as Eb.
  { rewrite (msum_delete _ _ _ _ Hi). done. }
  destruct (tasks_nonneg (delete i (tasks c))) as [_ Hone].
  assert (0 <= posting_tasks (stage c)) by (destruct (stage c); simpl; lia).
  assert (outstandingTasks (snapshot (progress c)) ⊖ 1 =
    outstandingTasks (snapshot (progress c)) - 1) as En by (rewrite uwrap_small; lia).
  split; simpl; rewrite ?El, ?Eo, ?Eb, ?En; try done; try lia.
  - rewrite Hb, uwrap_sub_l. f_equal. lia.
  - intros He. destruct (Hea He) as (_ & E & _). rewrite E in Hi. by rewrite lookup_empty in Hi.
Qed.

Lemma seal_accounted total c :
  accounted total c -> stage c = Running -> work c = [] ->
  accounted total (at_stage [] Returned (seal (early c) (progress c)) c).
Proof.
  intros [Hs Ha Hsc Hp Htk Hch Hb Hnn [Hcs Hcp] Hse Hre Hco Hea] Hst Hw.
  rewrite Hst, Hw in *. split; simpl in *; try done.
  destruct (early c); [|done]. destruct (Hea eq_refl) as (_ & E & _).
  rewrite Htk, E, msum_empty. done.
Qed.

Lemma work_accounted total c r c' :
  total < usize_lim -> accounted total c -> dispatch_step (LWork r) c = Some c' -> accounted total c'.
Proof.
  intros Ht [Hs Ha Hsc Hp Htk Hch Hb Hnn [Hcs Hcp] Hse Hre Hco Hea] Hst. simpl in Hst.
  destruct (stage c) eqn:Est; try done. destruct (work c) as [|[r' id|owner chunk] w] eqn:Ew; [done|..].
  - injection Hst as <-. pose proof (zsum_nonneg_work w). destruct (tasks_nonneg (tasks c)) as [Hl _].
    simpl in *.
    assert (forall x n, tally x n -> n + 1 <= total -> tally (bump r' x) (n + 1)) as Hbump
      by (intros; apply tally_bump; [done|lia]).
    split; simpl; rewrite ?(uwrap_small (_ + 1)) by lia; try done; try lia.
    + split; apply Hbump; (done || lia).
    + intros He. destruct (Hea He) as (Hd & E & ?). split; [|done]. by apply Forall_cons in Hd as [_ ?].
  - assert (early c = true -> False) as Hne.
    { intros He. destruct (Hea He) as (Hd & _). apply Forall_cons in Hd as [(? & ? & [=]) _]. }
    pose proof (zsum_nonneg_work w). destruct (tasks_nonneg (tasks c)) as [Hl Hone]. simpl in *.
    pose proof (zlen_nonneg chunk). case_bool_decide as Hr; injection Hst as <-.
    + split; simpl; rewrite ?(uwrap_small (outstandingTasks _ + 1)) by lia; try done; try lia; try tauto.
      * rewrite Hb, uwrap_add_l. f_equal. lia.
      * split; [|done]. intros E. by apply Hse in E.
      * rewrite Hco. destruct (sealed (progress c)) eqn:E; [|done].
        by destruct Hse as [Hse _]; specialize (Hse eq_refl).
    + destruct (drop_chunk_sums r chunk) as (E1 & E2 & _).
      split; simpl; rewrite ?zsum_app, ?E1, ?E2; try done; try lia; try tauto.
Qed.

Lemma post_accounted total c i p c' :
  total < usize_lim -> accounted total c -> dispatch_step (LPost i p) c = Some c' -> accounted total c'.
Proof.
  intros Ht [Hs Ha Hsc Hp Htk Hch Hb Hnn [Hcs Hcp] Hse Hre Hco Hea] Hst. simpl in Hst.
  destruct (stage c) as [|owner chunk bytes| | |] eqn:Est; try done.
  assert (early c = true -> False) as Hne.
  { intros He. destruct (Hea He) as (_ & _ & ?). done. }
  assert (sealed (progress c) = false) as Hns.
  { apply not_true_iff_false. intros E. by apply Hse in E. }
  pose proof (zsum_nonneg_work (work c)). destruct (tasks_nonneg (tasks c)) as [Hl Hone].
  pose proof (zlen_nonneg chunk). simpl in *.
  assert (forall w st, zsum wsize w + posting_size st = zlen chunk + zsum wsize (work c) ->
    zsum wchunk w = zsum wchunk (work c) -> st = Running \/ st = Thrown chunk ->
    accounted total (at_stage w st (release_progress bytes (progress c)) c)) as Hrel.
  { intros w st E1 E2 Hst'.
    assert (posting_tasks st = 0 /\ posted_size st = 0 /\ posting_bytes st = 0 /\ st <> Returned)
      as (F1 & F3 & F4 & F5) by by destruct Hst' as [-> | ->].
    split; simpl; rewrite ?E2, ?F1, ?F3, ?F4, ?Hns; try done; try lia.
    - rewrite uwrap_small by lia. lia.
    - rewrite Hb, uwrap_sub_l. f_equal. lia. }
  destruct p as [[]|].
  2, 3, 4: injection Hst as <-; apply Hrel; [| |by left];
    rewrite ?zsum_app, ?(proj1 (drop_chunk_sums _ chunk)), ?(proj1 (proj2 (drop_chunk_sums _ chunk))); simpl; lia.
  2: { injection Hst as <-. apply Hrel; [simpl; lia|done|by right]. }
  case_bool_decide as Hi; [|done]. injection Hst as <-.
  split; simpl; rewrite ?(msum_new _ _ _ _ Hi), ?Hns; try done; try lia.
  - unfold t_left at 2. simpl. lia.
  - unfold t_one at 2. lia.
  - unfold t_one at 2. lia.
  - rewrite Hb. f_equal. simpl. lia.
  - by rewrite Hco, Hns.
Qed.

Lemma step_accounted total lb c c' :
  total < usize_lim -> accounted total c -> dispatch_step lb c = Some c' -> accounted total c'.
Proof.
  intros Ht Hac Hst. destruct lb as [r|i p| | |i open sent|i].
  - by eapply work_accounted.
  - by eapply post_accounted.
  - destruct Hac as [Hs Ha Hsc Hp Htk Hch Hb Hnn [Hcs Hcp] Hse Hre Hco Hea]. simpl in Hst.
    destruct (stage c) as [| |n| |] eqn:Est; try done. injection Hst as <-.
    pose proof (zsum_nonneg_work (work c)). simpl in *.
    split; simpl; rewrite ?Ha, ?Hsc, ?(uwrap_small (s_scheduled _ + n)) by lia; try done; try lia.
    split; [|done]. intros E. by apply Hse in E.
  - simpl in Hst. destruct (stage c) eqn:Est; try done. destruct (work c) eqn:Ew; [|done].
    injection Hst as <-. by apply seal_accounted.
  - simpl in Hst. destruct (tasks c !! i) as [[[|e rest] bytes]|] eqn:Ei; try done. injection Hst as <-.
    by eapply serve_accounted.
  - simpl in Hst. destruct (tasks c !! i) as [[[|e rest] bytes]|] eqn:Ei; try done. injection Hst as <-.
    by apply finish_accounted.
Qed.

Lemma steps_accounted total lbs c c' :
  total < usize_lim -> accounted total c -> dispatch_steps lbs c = Some c' -> accounted total c'.
Proof.
  intros Ht. revert c. induction lbs as [|lb lbs IH]; intros c Hac Hs; simpl in Hs; [by simplify_eq|].
  destruct (dispatch_step lb c) as [c1|] eqn:E; [|done]. eapply IH; [|done]. by eapply step_accounted.
Qed.

(** *** The start of a call *)

Definition batch_size (b : DispatchBatch) : Z := zlen (b_endpoints b).

Definition plan_total (plan : DispatchPlan) : Z :=
  match d_payload plan with
  | None => 1
  | Some _ => d_dropped plan + zsum batch_size (d_batches plan)
  end.

(** A plan as the router makes it: its drop counts add up; sizes fit memory. *)
Record plan_ok (plan : DispatchPlan) : Prop := {
  pk_counts : tally (d_counts plan) (d_dropped plan);
  pk_dropped : 0 <= d_dropped plan;
  pk_batches : Forall (fun b => batch_size b <= ptrdiff_max) (d_batches plan);
  pk_total : plan_total plan < usize_lim;
}.

Lemma zsum_bind {A B} (w : B -> Z) (f : A -> list B) l :
  zsum w (l ≫= f) = zsum (fun x => zsum w (f x)) l.
Proof.
  induction l as [|x l IH]; [done|]. rewrite bind_cons, zsum_app, IH. done.
Qed.

Lemma zsum_ext {A} (w v : A -> Z) l : Forall (fun x => w x = v x) l -> zsum w l = zsum v l.
Proof. induction 1 as [|x l E _ IH]; [done|]. unfold zsum in *. simpl. lia. Qed.

Lemma zsum_le {A} (w v : A -> Z) l : Forall (fun x => w x <= v x) l -> zsum w l <= zsum v l.
Proof. induction 1 as [|x l E _ IH]; [done|]. unfold zsum in *. simpl. lia. Qed.

Lemma valid_drops_sum b :
  zsum wsize (batch_drops b) + zlen (validEndpoints b) = batch_size b /\
  zsum wchunk (batch_drops b) = 0 /\ zlen (validEndpoints b) <= batch_size b.
Proof.
  unfold batch_drops, validEndpoints, batch_size. destruct b as [owner es]. simpl.
  induction es as [|e es (IH1 & IH2 & IH3)]; [done|]. cbn [omap list_omap].
  unfold zlen, zsum in *. destruct (check_endpoint owner e) as [v|[r id]]; simpl in *; lia.
Qed.

Lemma chunks_sum size valid owner :
  1 <= size < usize_lim -> zlen valid <= ptrdiff_max ->
  zsum wsize (WChunk owner <$> chunks size valid) = zlen valid /\
  0 <= zsum wchunk (WChunk owner <$> chunks size valid) <= zlen valid.
Proof.
  intros Hs Hv. destruct (chunks_ok size valid Hs Hv) as [Hc Hf].
  assert (zlen valid = zlen (concat (chunks size valid))) as -> by by rewrite Hc.
  revert Hf. generalize (chunks size valid). clear. intros cs Hf.
  induction Hf as [|c cs Hc Hf IH]; [unfold zlen, zsum; simpl; lia|].
  rewrite concat_cons, zlen_app, fmap_cons. unfold zsum in *. cbn [foldr wsize wchunk]. lia.
Qed.

Lemma batch_work_sums l b payload :
  Reservation.limits_ok l -> zlen payload <= maxBytesPerTask l -> batch_size b <= ptrdiff_max ->
  zsum wsize (batch_work l payload b) = batch_size b /\
  zsum wchunk (batch_work l payload b) <= batch_size b.
Proof.
  intros Hl Hp Hb. destruct (chunkSize_bounds l payload Hl Hp) as [Hcs _].
  destruct (valid_drops_sum b) as (E1 & E2 & E3). pose proof (lu_endpoints _ (proj1 Hl)) as Hu. unfold is_usize in Hu.
  destruct (chunks_sum (chunkSize l payload) (validEndpoints b) (b_owner b)) as [F1 F2]; [lia|lia|].
  pose proof (zlen_nonneg (validEndpoints b)). destruct (zsum_nonneg_work (batch_drops b)) as [? _].
  unfold batch_work. rewrite !zsum_app. lia.
Qed.

Lemma oversize_sums bs :
  zsum wsize (oversize_work bs) = zsum batch_size bs /\ zsum wchunk (oversize_work bs) = 0 /\
  drops_only (oversize_work bs).
Proof.
  unfold oversize_work, drops_only. rewrite !zsum_bind. split_and!.
  - apply zsum_ext, Forall_forall. intros [owner es] _. unfold batch_size, zlen, zsum. simpl.
    induction es as [|e es IH]; [done|]. cbn [fmap list_fmap foldr length wsize].
    change (list_fmap _ _ ?f ?l) with (f <$> l). lia.
  - induction bs as [|[owner es] bs IH]; [done|]. unfold zsum in *. simpl. rewrite IH.
    enough (foldr (fun a acc => wchunk a + acc) 0 ((fun e => WDrop DispatchTaskByteLimit (endpoint_id e)) <$> es) = 0)
      by lia. clear. induction es as [|e es IH]; done.
  - apply Forall_forall. intros w (b & Hw & _)%list_elem_of_bind.
    apply list_elem_of_fmap in Hw as (e & -> & _). eauto.
Qed.

Lemma start_accounted l plan :
  Reservation.limits_ok l -> plan_ok plan -> accounted (plan_total plan) (dispatch_start l plan).
Proof.
  intros Hl [Hc Hd Hb Ht]. unfold dispatch_start, plan_total in *. destruct (d_payload plan) as [payload|].
  2: { split; simpl; rewrite ?msum_empty; try done; try lia.
       - split; apply tally_zero.
       - intros _. split; [|done]. repeat constructor. eauto. }
  destruct (Z.ltb_spec (maxBytesPerTask l) (zlen payload)) as [Hov|Hok].
  - destruct (oversize_sums (d_batches plan)) as (E1 & E2 & E3).
    assert (0 <= zsum batch_size (d_batches plan)) by (apply zsum_nonneg; intros; apply zlen_nonneg).
    split; simpl; rewrite ?msum_empty, ?E1, ?E2; try done; try lia.
  - assert (zsum wsize (d_batches plan ≫= batch_work l payload) = zsum batch_size (d_batches plan) /\
      zsum wchunk (d_batches plan ≫= batch_work l payload) <= zsum batch_size (d_batches plan)) as [E1 E2].
    { rewrite !zsum_bind. rewrite Forall_forall in Hb. split.
      - apply zsum_ext, Forall_forall. intros b Hin. by apply batch_work_sums; auto.
      - apply zsum_le, Forall_forall. intros b Hin. by apply batch_work_sums; auto. }
    split; simpl; rewrite ?msum_empty, ?E1; try done; try lia.
Qed.

(** ** Properties *)

(** The chunks of a batch are its valid endpoints in order, each endpoint in
    exactly one chunk; no chunk is empty, has more than [maxEndpointsPerTask]
    endpoints or reserves more than [maxBytesPerTask] bytes, and the reserved
    bytes are exactly payload size times endpoints. *)
Theorem chunks_partition l payload b :
  Reservation.limits_ok l -> zlen payload <= maxBytesPerTask l -> batch_size b <= ptrdiff_max ->
  concat (chunks (chunkSize l payload) (validEndpoints b)) = validEndpoints b /\
  Forall (fun c => 1 <= zlen c <= maxEndpointsPerTask l /\
    logicalBytes (zlen payload) (zlen c) = zlen payload * zlen c /\
    zlen payload * zlen c <= maxBytesPerTask l) (chunks (chunkSize l payload) (validEndpoints b)).
Proof.
  intros Hl Hp Hb. destruct (chunkSize_bounds l payload Hl Hp) as [Hcs Hbytes].
  pose proof (lu_endpoints _ (proj1 Hl)) as Hu. pose proof (lu_task_bytes _ (proj1 Hl)) as Hu2. unfold is_usize in *.
  destruct (valid_drops_sum b) as (_ & _ & E3).
  destruct (chunks_ok (chunkSize l payload) (validEndpoints b)) as [Hc Hf]; [lia|lia|].
  split; [done|]. eapply Forall_impl; [exact Hf|]. intros c Hz. simpl in Hz. pose proof (zlen_nonneg payload).
  assert (zlen payload * zlen c <= zlen payload * chunkSize l payload) by nia.
  split_and!; try lia. apply logicalBytes_exact; lia.
Qed.

(** C25. One [dispatch] and the tasks it posts, in any interleaving and with any
    answers of reservations, executors and endpoints: the progress is complete
    exactly when the call has returned and every posted task has finished; the
    returned summary accounts for every endpoint of the plan as scheduled or
    dropped, and the complete progress as accepted or dropped, with the reason
    counts adding up to the drops and nothing outstanding. *)
Theorem dispatch_accounts_for_every_endpoint l plan lbs c :
  Reservation.limits_ok l -> plan_ok plan -> dispatch_steps lbs (dispatch_start l plan) = Some c ->
  let s := summary c in
  let p := snapshot (progress c) in
  (complete p = true <-> stage c = Returned /\ tasks c = ∅) /\
  (stage c = Returned -> s_scheduled s + s_dropped s = plan_total plan /\ s_accepted s = s_scheduled s /\
     p_scheduled p = s_scheduled s /\ total_counts (s_counts s) = s_dropped s) /\
  (complete p = true -> p_accepted p + p_dropped p = plan_total plan /\
     total_counts (p_counts p) = p_dropped p /\ outstandingTasks p = 0 /\ outstandingBytes p = 0).
Proof.
  intros Hl Hp Hs s p. pose proof (start_accounted l plan Hl Hp) as H0.
  pose proof (steps_accounted _ _ _ _ (pk_total _ Hp) H0 Hs) as [E1 Ea Esc Epr Etk Ech Eb Hnn [Hcs Hcp] Hse Hre Hco _].
  assert (complete p = true <-> stage c = Returned /\ tasks c = ∅) as Hcomp.
  { unfold p. rewrite Hco, andb_true_iff, Hse, Z.eqb_eq, Etk. split.
    - intros [Hst Hz]. split; [done|]. rewrite Hst in Hz. simpl in Hz. apply map_empty. intros i.
      destruct (tasks c !! i) as [t|] eqn:Hi; [|done].
      pose proof (msum_member t_one _ i t ltac:(intros; unfold t_one; lia) Hi). unfold t_one in *. lia.
    - intros [-> ->]. by rewrite msum_empty. }
  split_and!; [done| |].
  - intros Hst. rewrite (Hre Hst), Hst in E1. simpl in E1. unfold s, p. split_and!; try done; [lia|].
    by destruct Hcs as (_ & _ & ?).
  - intros [Hst Hem]%Hcomp. pose proof (Hre Hst) as Hw. unfold p.
    rewrite Hst, Hem, Hw, ?msum_empty in *. simpl in *.
    split_and!; [lia|by destruct Hcp as (_ & _ & ?)|done|done].
Qed.

(** *** Termination *)

Definition wcost (w : Work) : Z := match w with WDrop _ _ => 1 | WChunk _ c => zlen c + 4 end.
Definition stage_cost (st : Stage) : Z :=
  match st with
  | Running => 1
  | Posting _ c _ => zlen c + 4
  | Posted _ => 2
  | Returned | Thrown _ => 0
  end.
Definition task_cost (t : Task) : Z := zlen (t_rest t) + 1.

(** Actions left, at most. *)
Definition cost (c : Call) : Z :=
  zsum wcost (work c) + stage_cost (stage c) + msum task_cost (tasks c).

Lemma drop_chunk_cost r chunk : zsum wcost (drop_chunk r chunk) = zlen chunk.
Proof.
  unfold drop_chunk, zsum, zlen. induction chunk as [|e chunk IH]; [done|].
  cbn [fmap list_fmap foldr length wcost]. change (list_fmap _ _ ?f ?l) with (f <$> l). lia.
Qed.

Lemma step_cost lb c c' : dispatch_step lb c = Some c' -> cost c' < cost c.
Proof.
  unfold cost. assert (forall x (w : list Work), zsum wcost (x :: w) = wcost x + zsum wcost w) as Hcons by done.
  assert (0 <= zsum wcost (work c)) as Hw
    by (apply zsum_nonneg; intros [r id|o ch]; simpl; [lia|pose proof (zlen_nonneg ch); lia]).
  destruct lb as [r|i p| | |i open sent|i]; simpl; intros Hst.
  - destruct (stage c) eqn:Est; try done. destruct (work c) as [|[r' id|owner chunk] w]; [done|..].
    + injection Hst as <-. cbn [work stage tasks at_stage recordImmediateDrop]. rewrite Hcons. simpl. lia.
    + pose proof (zlen_nonneg chunk). case_bool_decide; injection Hst as <-;
        cbn [work stage tasks at_stage]; rewrite ?zsum_app, ?drop_chunk_cost, Hcons; simpl; lia.
  - destruct (stage c) as [|owner chunk bytes| | |] eqn:Est; try done. pose proof (zlen_nonneg chunk).
    destruct p as [[]|]; try (injection Hst as <-; simpl; rewrite ?zsum_app, ?drop_chunk_cost; lia).
    case_bool_decide as Hi; [|done]. injection Hst as <-. simpl. rewrite (msum_new _ _ _ _ Hi).
    unfold task_cost at 2. simpl. lia.
  - destruct (stage c) eqn:Est; try done. injection Hst as <-. simpl. lia.
  - destruct (stage c) eqn:Est; try done. destruct (work c); [|done]. injection Hst as <-. simpl. lia.
  - destruct (tasks c !! i) as [[[|e rest] bytes]|] eqn:Ei; try done. injection Hst as <-. simpl.
    rewrite (msum_update _ _ _ _ _ Ei). unfold task_cost, zlen. simpl. lia.
  - destruct (tasks c !! i) as [[[|e rest] bytes]|] eqn:Ei; try done. injection Hst as <-. simpl.
    rewrite (msum_delete _ _ _ _ Ei). unfold task_cost, zlen. simpl. lia.
Qed.

Lemma cost_nonneg c : 0 <= cost c.
Proof.
  unfold cost. assert (0 <= zsum wcost (work c))
    by (apply zsum_nonneg; intros [r id|o ch]; simpl; [lia|pose proof (zlen_nonneg ch); lia]).
  assert (0 <= msum task_cost (tasks c))
    by (apply msum_nonneg; intros i t _; unfold task_cost; pose proof (zlen_nonneg (t_rest t)); lia).
  destruct (stage c) as [|o ch b| | |]; simpl; try lia. pose proof (zlen_nonneg ch). lia.
Qed.

Lemma steps_cost lbs c c' : dispatch_steps lbs c = Some c' -> zlen lbs + cost c' <= cost c.
Proof.
  revert c. induction lbs as [|lb lbs IH]; intros c Hs; simpl in Hs; [simplify_eq; unfold zlen; simpl; lia|].
  destruct (dispatch_step lb c) as [c1|] eqn:E; [|done]. pose proof (step_cost _ _ _ E). specialize (IH c1 Hs).
  unfold zlen in *. simpl. lia.
Qed.

(** A call that cannot go on has returned, or thrown, and its tasks are done. *)
Lemma stuck_is_final c :
  (forall lb, dispatch_step lb c = None) ->
  (stage c = Returned \/ exists chunk, stage c = Thrown chunk) /\ tasks c = ∅.
Proof.
  intros Hstuck. split.
  - destruct (stage c) as [|owner chunk bytes|n| |chunk] eqn:Est; eauto; exfalso.
    + destruct (work c) as [|[r id|owner chunk] w] eqn:Ew.
      * specialize (Hstuck LSeal). simpl in Hstuck. by rewrite Est, Ew in Hstuck.
      * specialize (Hstuck (LWork NoReason)). simpl in Hstuck. by rewrite Est, Ew in Hstuck.
      * specialize (Hstuck (LWork NoReason)). simpl in Hstuck. by rewrite Est, Ew in Hstuck.
    + specialize (Hstuck (LPost 0 None)). simpl in Hstuck. by rewrite Est in Hstuck.
    + specialize (Hstuck LAdmit). simpl in Hstuck. by rewrite Est in Hstuck.
  - apply map_empty. intros i. destruct (tasks c !! i) as [[[|e rest] bytes]|] eqn:Ei; [exfalso..|done].
    + specialize (Hstuck (LFinish i)). simpl in Hstuck. by rewrite Ei in Hstuck.
    + specialize (Hstuck (LServe i true None)). simpl in Hstuck. by rewrite Ei in Hstuck.
Qed.

(** A call and its tasks terminate: every run is finite, with a bound that
    depends on the plan only, and a run that cannot be extended has returned
    with complete progress, unless [post] threw; then the reservation is
    released and nothing is outstanding either. *)
Theorem dispatch_terminates l plan lbs c :
  Reservation.limits_ok l -> plan_ok plan -> dispatch_steps lbs (dispatch_start l plan) = Some c ->
  zlen lbs <= cost (dispatch_start l plan) /\
  ((forall lb, dispatch_step lb c = None) ->
   outstandingTasks (snapshot (progress c)) = 0 /\ outstandingBytes (snapshot (progress c)) = 0 /\
   (stage c = Returned /\ complete (snapshot (progress c)) = true \/
    exists chunk, stage c = Thrown chunk /\ complete (snapshot (progress c)) = false)).
Proof.
  intros Hl Hp Hs. split.
  { pose proof (steps_cost _ _ _ Hs). pose proof (cost_nonneg c). lia. }
  intros Hstuck. destruct (stuck_is_final c Hstuck) as [Hfin Hem].
  pose proof (steps_accounted _ _ _ _ (pk_total _ Hp) (start_accounted l plan Hl Hp) Hs) as
    [_ _ _ _ Etk _ Eb _ _ Hse _ Hco _].
  rewrite Hem, !msum_empty in *.
  destruct Hfin as [Hst|[chunk Hst]]; rewrite Hst in *; simpl in *.
  - split_and!; [done|done|left]. split; [done|]. rewrite Hco, Etk. simpl. rewrite andb_true_r. by apply Hse.
  - split_and!; [done|done|right]. exists chunk. split; [done|]. rewrite Hco.
    destruct (sealed (progress c)); [|done]. by destruct Hse as [Hse _]; specialize (Hse eq_refl).
Qed.

(** *** From the router to completion *)

(** A routed plan as [dispatch] finds it: endpoints may have closed, or changed
    in any way, since they were routed. *)
Definition observe (now : Endpoint -> Endpoint) (p : BroadcastPlan) : DispatchPlan :=
  mkDispatchPlan (plan_payload p)
    ((fun b => mkDispatchBatch (batch_owner b) ((fun e => Some (now e)) <$> batch_endpoints b)) <$> batches_ p)
    (dropped_ p) (plan_priority p) (reasonCounts_ p).

Lemma zsum_fmap {A B} (w : B -> Z) (f : A -> B) l : zsum w (f <$> l) = zsum (fun x => w (f x)) l.
Proof. induction l as [|x l IH]; [done|]. rewrite fmap_cons. unfold zsum in *. cbn [foldr]. lia. Qed.

Lemma zsum_add {A} (w v : A -> Z) l : zsum (fun x => w x + v x) l = zsum w l + zsum v l.
Proof. induction l as [|x l IH]; [done|]. unfold zsum in *. simpl. lia. Qed.

(** Exactly one batch has the id. *)
Lemma one_batch (bs : list LoopBatch) id :
  NoDup ((fun b => executor_id (batch_owner b)) <$> bs) ->
  zsum (fun b => if bool_decide (id = executor_id (batch_owner b)) then 1 else 0) bs =
  if bool_decide (id ∈ ((fun b => executor_id (batch_owner b)) <$> bs)) then 1 else 0.
Proof.
  induction bs as [|b bs IH]; intros Hnd; [done|]. rewrite fmap_cons in *.
  apply NoDup_cons in Hnd as [Hni Hnd]. unfold zsum in *. cbn [foldr]. rewrite (IH Hnd).
  repeat case_bool_decide; set_solver || lia.
Qed.

Lemma grouped_sum bs es :
  grouped bs es -> zsum (fun b => zlen (batch_endpoints b)) bs = zlen es.
Proof.
  intros [Hnd Hb Ho].
  assert (zsum (fun b => zlen (batch_endpoints b)) bs =
    zsum (fun b => zlen (filter (fun e => executor_id (ep_owner e) = executor_id (batch_owner b)) es)) bs) as ->.
  { apply zsum_ext. eapply Forall_impl; [exact Hb|]. intros b [_ ->]. done. }
  clear Hb. induction es as [|e es IH].
  { unfold zlen, zsum. simpl. clear. induction bs; simpl; lia. }
  assert (zsum (fun b => zlen (filter (fun e => executor_id (ep_owner e) = executor_id (batch_owner b)) (e :: es))) bs =
    zsum (fun b => (if bool_decide (executor_id (ep_owner e) = executor_id (batch_owner b)) then 1 else 0) +
      zlen (filter (fun e => executor_id (ep_owner e) = executor_id (batch_owner b)) es)) bs) as ->.
  { apply zsum_ext, Forall_forall. intros b _. rewrite filter_cons. unfold zlen.
    case_decide; case_bool_decide; simpl; (done || lia). }
  rewrite zsum_add, one_batch, IH by (try done; intros; apply Ho; by constructor).
  rewrite bool_decide_true by (apply Ho; constructor). unfold zlen. simpl. lia.
Qed.

Lemma counts_tally counts rs :
  counts_ok counts rs -> zlen rs < usize_lim -> tally counts (zlen rs).
Proof.
  intros [Hlen Hc] Hlt.
  assert (counts = (fun r => count_reason r rs) <$>
    [NoReason; OfflineSession; DuplicateEndpoint; FanoutHardLimit; ByteHardLimit; LowPrioritySoftLimit;
     DispatchTaskByteLimit; EndpointClosed; EndpointOverloaded; OwnerUnavailable; OwnerShutdown;
     DispatchQueueFull; OwnerOutstandingTaskLimit; OwnerOutstandingByteLimit; GlobalOutstandingByteLimit;
     InvalidPlan; SendRejected]) as ->.
  { unfold reasonCount in Hc.
    do 18 (destruct counts as [|? counts]; [try done|]); [|done].
    assert (forall r, 0 <= count_reason r rs < usize_lim) as Hb.
    { intros r. unfold count_reason. split; [apply zlen_nonneg|]. eapply Z.le_lt_trans; [|exact Hlt].
      unfold zlen. pose proof (length_filter (fun x => x = r) rs). lia. }
    simpl. repeat f_equal; rewrite <- (uwrap_small (count_reason _ rs)) by done; rewrite <- Hc; done. }
  split_and!; [done| |].
  - apply Forall_fmap, Forall_forall. intros r _. apply zlen_nonneg.
  - unfold total_counts. rewrite zsum_fmap. clear. induction rs as [|r rs IH]; [done|].
    assert (forall x, count_reason x (r :: rs) = count_reason x rs + if decide (r = x) then 1 else 0) as Hcr.
    { intros x. unfold count_reason, zlen. rewrite filter_cons. case_decide; simpl; lia. }
    unfold zsum, zlen in *. simpl in *. rewrite !Hcr. destruct r; simpl; lia.
Qed.

Lemma decisions_length rl st size low ts : forall seen n,
  let ds := decisions rl st size low seen n ts in zlen (accepts ds) + zlen (drops ds) = zlen ts.
Proof.
  induction ts as [|t ts IH]; intros seen n; simpl; [done|].
  set (d := decide_target _ _ _ _ _ _ _).
  specialize (IH (seen ++ sees st t) (match d with Accept _ => n + 1 | Drop _ => n end)).
  unfold accepts, drops in *. destruct d; simpl; unfold zlen in *; simpl; simpl in IH; lia.
Qed.

(** A routed plan is well formed and accounts for every target. *)
Lemma routed_plan_ok rl st payload targets prio now s :
  Broadcast.limits_ok rl -> zlen targets <= ptrdiff_max ->
  route rl st (Some payload) targets prio = Ok s ->
  plan_ok (observe now (plan s)) /\ plan_total (observe now (plan s)) = zlen targets.
Proof.
  intros Hl Hz [= <-]. set (s := foldl _ _ _).
  destruct (route_loop_ok rl st payload prio targets [] [] _ Hl (route_start_inv payload prio))
    as (seen' & [Hp _ Ha Hd Hc _ _ Hg] & _).
  { destruct Hl as (_ & _ & ? & _). unfold zlen. simpl. lia. }
  fold s in Hp, Ha, Hd, Hc, Hg. simpl in *.
  pose proof (decisions_length rl st (zlen payload) (is_low prio) targets [] 0) as Hlen. simpl in Hlen.
  change (zlen (accepts [])) with 0 in *. set (ds := decisions _ _ _ _ _ _ _) in *.
  pose proof (zlen_nonneg (accepts ds)). pose proof (zlen_nonneg (drops ds)).
  rewrite (uwrap_small (zlen (drops ds))) in Hd by lia.
  assert (forall b, batch_size (mkDispatchBatch (batch_owner b) ((fun e => Some (now e)) <$> batch_endpoints b)) =
    zlen (batch_endpoints b)) as Hbs by (intros; unfold batch_size, zlen; simpl; by rewrite length_fmap).
  assert (plan_total (observe now (plan s)) = zlen targets) as Ht.
  { unfold plan_total, observe. simpl. rewrite Hp. rewrite zsum_fmap.
    rewrite (zsum_ext _ (fun b => zlen (batch_endpoints b))) by (apply Forall_forall; intros; apply Hbs).
    rewrite (grouped_sum _ _ Hg). lia. }
  split; [|done]. split; [..|rewrite Ht; lia].
  - simpl. rewrite Hd. apply counts_tally; [done|lia].
  - simpl. lia.
  - simpl. apply Forall_fmap, Forall_forall. intros b Hb. simpl. rewrite Hbs.
    destruct Hg as [_ Hgb _]. rewrite Forall_forall in Hgb. destruct (Hgb b Hb) as [_ ->].
    pose proof (length_filter (fun e => executor_id (ep_owner e) = executor_id (batch_owner b)) (accepts ds)).
    unfold zlen in *. lia.
Qed.

(** From targets to completion: route targets, dispatch the plan, whatever
    became of the endpoints in between; once the progress is complete, every
    target was accepted by its endpoint or dropped with a reason. *)
Theorem broadcast_accounts_for_every_target rl l st payload targets prio now s lbs c :
  Broadcast.limits_ok rl -> Reservation.limits_ok l -> zlen targets <= ptrdiff_max ->
  route rl st (Some payload) targets prio = Ok s ->
  dispatch_steps lbs (dispatch_start l (observe now (plan s))) = Some c ->
  complete (snapshot (progress c)) = true ->
  p_accepted (snapshot (progress c)) + p_dropped (snapshot (progress c)) = zlen targets /\
  total_counts (p_counts (snapshot (progress c))) = p_dropped (snapshot (progress c)).
Proof.
  intros Hrl Hl Hz Hr Hs Hc. destruct (routed_plan_ok _ _ _ _ _ now _ Hrl Hz Hr) as [Hp Ht].
  destruct (steps_accounted _ _ _ _ (pk_total _ Hp) (start_accounted l _ Hl Hp) Hs)
    as [_ _ _ Epr Etk _ _ _ [_ Hcp] Hse Hre Hco _].
  rewrite Hco in Hc. zify_bools. apply Hse in H. rewrite (Hre H), H in *. simpl in *.
  destruct (tasks_nonneg (tasks c)) as [_ Hone].
  assert (msum t_left (tasks c) = 0) as E.
  { apply msum_zero. intros i t Hi.
    pose proof (msum_member t_one _ i t ltac:(intros; unfold t_one; lia) Hi). unfold t_one in *. lia. }
  rewrite Ht in Epr. split; [lia|]. by destruct Hcp as (_ & _ & ?).
Qed.

(** ** Concrete runs *)

Definition demo_endpoint (id : Z) (open : bool) : option Endpoint :=
  Some (mkEndpoint id (mkOwner 7 true) open).
Definition demo_batch : DispatchBatch :=
  mkDispatchBatch (mkOwner 7 true)
    [demo_endpoint 1 true; None; demo_endpoint 2 true; demo_endpoint 3 false; demo_endpoint 4 true].
Definition demo_plan : DispatchPlan :=
  mkDispatchPlan (Some (zeros 10)) [demo_batch] 0 NormalPriority no_counts.

Lemma demo_plan_ok : plan_ok demo_plan.
Proof.
  split; [apply tally_zero|simpl; lia| |vm_compute; reflexivity].
  constructor; [|constructor]. vm_compute. discriminate.
Qed.

(** Two endpoints are dropped; the first chunk is admitted, the second refused. *)
Definition demo_labels : list Label :=
  [LWork NoReason; LWork NoReason; LWork NoReason; LPost 0 (Some PostAccepted);
   LServe 0 true (Some EpAccepted); LAdmit; LWork OwnerOutstandingByteLimit; LWork NoReason; LSeal;
   LServe 0 true (Some EpOverloaded); LFinish 0].

Lemma chunks_partition_witness :
  concat (chunks (chunkSize Reservation.demo_limits (zeros 10)) (validEndpoints demo_batch)) =
    validEndpoints demo_batch /\
  zlen (chunks (chunkSize Reservation.demo_limits (zeros 10)) (validEndpoints demo_batch)) = 2.
Proof.
  split; [|vm_compute; reflexivity].
  apply (chunks_partition Reservation.demo_limits (zeros 10) demo_batch Reservation.dispatch_limits_ok);
    vm_compute; discriminate.
Defined.

Lemma dispatch_accounts_witness :
  exists c, dispatch_steps demo_labels (dispatch_start Reservation.demo_limits demo_plan) = Some c /\
    complete (snapshot (progress c)) = true /\
    p_accepted (snapshot (progress c)) + p_dropped (snapshot (progress c)) = 5 /\
    p_accepted (snapshot (progress c)) = 1.
Proof.
  destruct (dispatch_steps demo_labels (dispatch_start Reservation.demo_limits demo_plan)) as [c|] eqn:E;
    [|exfalso; vm_compute in E; discriminate].
  destruct (dispatch_accounts_for_every_endpoint Reservation.demo_limits demo_plan demo_labels c
    Reservation.dispatch_limits_ok demo_plan_ok E) as (_ & _ & Hc).
  vm_compute in E. injection E as <-. eexists. split; [reflexivity|].
  destruct (Hc eq_refl) as (Ht & _). split_and!; [reflexivity|exact Ht|reflexivity].
Defined.

Lemma dispatch_terminates_witness :
  zlen demo_labels <= cost (dispatch_start Reservation.demo_limits demo_plan).
Proof.
  destruct (dispatch_steps demo_labels (dispatch_start Reservation.demo_limits demo_plan)) as [c|] eqn:E;
    [|exfalso; vm_compute in E; discriminate].
  exact (proj1 (dispatch_terminates Reservation.demo_limits demo_plan demo_labels c
    Reservation.dispatch_limits_ok demo_plan_ok E)).
Defined.

Definition demo_routed : RouteState :=
  foldl (route_target Broadcast.demo_limits ∅) (route_start (zeros 4) NormalPriority) demo_targets.
Definition demo_broadcast : list Label :=
  [LWork NoReason; LPost 0 (Some PostAccepted); LAdmit; LWork NoReason; LPost 1 (Some PostQueueFull);
   LWork NoReason; LSeal; LServe 0 true (Some EpAccepted); LServe 0 false None; LFinish 0].

Lemma broadcast_accounts_witness :
  route Broadcast.demo_limits ∅ (Some (zeros 4)) demo_targets NormalPriority = Ok demo_routed /\
  exists c,
    dispatch_steps demo_broadcast (dispatch_start Reservation.demo_limits (observe (fun e => e) (plan demo_routed))) = Some c /\
    p_accepted (snapshot (progress c)) + p_dropped (snapshot (progress c)) = zlen demo_targets /\
    p_accepted (snapshot (progress c)) = 1.
Proof.
  assert (route Broadcast.demo_limits ∅ (Some (zeros 4)) demo_targets NormalPriority = Ok demo_routed) as Hr
    by (unfold route, demo_routed; reflexivity).
  split; [exact Hr|].
  destruct (dispatch_steps demo_broadcast _) as [c|] eqn:E; [|exfalso; vm_compute in E; discriminate].
  exists c. split; [reflexivity|].
  assert (complete (snapshot (progress c)) = true /\ p_accepted (snapshot (progress c)) = 1) as [Hc Ha]
    by (vm_compute in E; injection E as <-; split; reflexivity).
  split; [|exact Ha].
  exact (proj1 (broadcast_accounts_for_every_target Broadcast.demo_limits Reservation.demo_limits ∅ (zeros 4)
    demo_targets NormalPriority (fun e => e) demo_routed demo_broadcast c Broadcast.demo_limits_ok
    Reservation.dispatch_limits_ok ltac:(vm_compute; discriminate) Hr E Hc)).
Defined.

End Dispatch.
