(* ===== verification/TimerQueue.v ===== *)
(** * The timer queue

    Model of [gamenet::net::TimerQueue] (include/gamenet/core/net/TimerQueue.h,
    TimerId.h, TimerOptions.h, src/core/net/TimerQueue.cc): one-shot and
    repeating timers of one event loop, ordered by expiration and indexed by id.

    Timers are shared objects: [heap] holds them, and the ordered map, the id
    index, posted tasks and the batch being run point into it.  The machine at
    the end interleaves what the loop thread does: running posted tasks, adding
    and cancelling timers, and [handleExpired] with its callbacks, which may add
    and cancel timers themselves.  Times are nanosecond counts of a signed 64-bit
    clock. *)

From S2P Require Import Prelude Transport.

Local Open Scope Z_scope.

(** ** Deadline arithmetic *)

Definition ceilMilliseconds (delay : Z) : Z :=
  if delay <=? 0 then 0
  else
    let truncated := delay / 1000000 in
    let ms := if truncated * 1000000 <? delay then truncated + 1 else truncated in
    Z.max 1 (Z.min ms i32_max).

(** Returns the next expiration and the new [consecutiveCatchUpCallbacks]. *)
Definition nextFixedRateExpiration (previousExpiration interval now maxCatchUpCallbacks catchUp : Z) :
    result (Z * Z) :=
  match i64 (previousExpiration + interval) with
  | Throw e => Throw e
  | Ok next =>
      if now <? next then Ok (next, 0)
      else if catchUp <? maxCatchUpCallbacks then Ok (next, catchUp ⊕ 1)
      else
        let missedIntervals := (now - next) / interval in
        match i64 (next + interval * missedIntervals) with
        | Throw e => Throw e
        | Ok next =>
            if next <=? now then
              if i64_max - next <? interval then Ok (i64_max, 0)
              else Ok (next + interval, 0)
            else Ok (next, 0)
        end
  end.

(** ** Data *)

Inductive RepeatingTimerMode := FixedDelay | FixedRate.

Global Instance RepeatingTimerMode_eq_dec : EqDecision RepeatingTimerMode.
Proof. solve_decision. Defined.

Record RepeatingTimerOptions := mkTimerOptions { mode : RepeatingTimerMode; maxCatchUpCallbacks : Z }.

(** [RepeatingTimerOptions::validate] *)
Definition validate (o : RepeatingTimerOptions) : result unit :=
  match mode o with
  | FixedDelay => if negb (maxCatchUpCallbacks o =? 0) then Throw invalid_argument else Ok tt
  | FixedRate => Ok tt
  end.

Record Timer := mkTimer {
  expiration : Z;
  interval : Z;
  options : RepeatingTimerOptions;
  consecutiveCatchUpCallbacks : Z;
  sequence : Z;
  canceled : bool;
  inQueue : bool;
}.

Definition repeats (t : Timer) : bool := 0 <? interval t.

Definition set_flags (c q : bool) (t : Timer) : Timer :=
  mkTimer (expiration t) (interval t) (options t) (consecutiveCatchUpCallbacks t) (sequence t) c q.
Definition set_expiration (e n : Z) (t : Timer) : Timer :=
  mkTimer e (interval t) (options t) n (sequence t) (canceled t) (inQueue t).

(** [TimerKey]: expiration, then sequence. *)
Definition key := (Z * Z)%type.
Definition key_of (t : Timer) : key := (expiration t, sequence t).
Definition key_ltb (a b : key) : bool := (fst a <? fst b) || ((fst a =? fst b) && (snd a <? snd b)).

(** [timers_] in key order. *)
Record TimerQueue := mkTimerQueue {
  heap : list Timer;
  nextSequence_ : Z;
  timers_ : list (key * nat);
  timersById_ : gmap Z nat;
}.

Definition TimerQueue_new : TimerQueue := mkTimerQueue [] 1 [] ∅.

(** [std::map::emplace]: nothing happens when the key is present. *)
Fixpoint emplace (k : key) (a : nat) (m : list (key * nat)) : list (key * nat) :=
  match m with
  | [] => [(k, a)]
  | (k', a') :: m' =>
      if key_ltb k k' then (k, a) :: m
      else if key_ltb k' k then (k', a') :: emplace k a m'
      else m
  end.

Definition erase_key (k : key) (m : list (key * nat)) : list (key * nat) :=
  filter (fun x => fst x <> k) m.

Definition alter_timer (f : Timer -> Timer) (a : nat) (q : TimerQueue) : TimerQueue :=
  mkTimerQueue (alter f a (heap q)) (nextSequence_ q) (timers_ q) (timersById_ q).

(** ** Operations on the loop thread *)

(** Returns whether the earliest timer changed. *)
Definition insert (a : nat) (q : TimerQueue) : bool * TimerQueue :=
  match heap q !! a with
  | None => (false, q)
  | Some t =>
      let earliestChanged := match timers_ q with [] => true | (k, _) :: _ => key_ltb (key_of t) k end in
      (earliestChanged,
       mkTimerQueue (alter (set_flags false true) a (heap q)) (nextSequence_ q)
         (emplace (key_of t) a (timers_ q)) (<[sequence t := a]> (timersById_ q)))
  end.

Definition addTimerInLoop (a : nat) (q : TimerQueue) : TimerQueue := snd (insert a q).

Definition cancelInLoop (id : Z) (q : TimerQueue) : TimerQueue :=
  match timersById_ q !! id with
  | None => q
  | Some a =>
      match heap q !! a with
      | None => q
      | Some t =>
          if inQueue t then
            mkTimerQueue (alter (set_flags true false) a (heap q)) (nextSequence_ q)
              (erase_key (key_of t) (timers_ q)) (delete id (timersById_ q))
          else
            mkTimerQueue (alter (set_flags true (inQueue t)) a (heap q)) (nextSequence_ q) (timers_ q)
              (delete id (timersById_ q))
      end
  end.

(** [timers_.begin()->second->expiration] *)
Definition first_expiration (q : TimerQueue) : option Z :=
  match timers_ q with
  | [] => None
  | (_, a) :: _ => match heap q !! a with Some t => Some (expiration t) | None => None end
  end.

Definition pollTimeoutMs (defaultTimeoutMs now : Z) (q : TimerQueue) : Z :=
  match first_expiration q with
  | None => defaultTimeoutMs
  | Some e => Z.min defaultTimeoutMs (ceilMilliseconds (e - now))
  end.

(** Not after [(now, INT64_MAX)]. *)
Definition due (now : Z) (k : key) : bool := negb (key_ltb (now, i64_max) k).

(** The first [maxCount] due timers leave the map. *)
Fixpoint split_due (now : Z) (maxCount : nat) (m : list (key * nat)) : list nat * list (key * nat) :=
  match maxCount, m with
  | S n, (k, a) :: m' =>
      if due now k then let '(expired, rest) := split_due now n m' in (a :: expired, rest)
      else ([], m)
  | _, _ => ([], m)
  end.

Definition getExpired (now maxCount : Z) (q : TimerQueue) : list nat * TimerQueue :=
  let '(expired, rest) := split_due now (Z.to_nat (Z.min maxCount (zlen (timers_ q)))) (timers_ q) in
  (expired,
   mkTimerQueue (foldr (alter (fun t => set_flags (canceled t) false t)) (heap q) expired)
     (nextSequence_ q) rest (timersById_ q)).

(** The loop body of [reset]. *)
Definition reset_one (now : Z) (a : nat) (q : TimerQueue) : result TimerQueue :=
  match heap q !! a with
  | None => Throw undefined_behaviour
  | Some t =>
      if repeats t && negb (canceled t) && bool_decide (is_Some (timersById_ q !! sequence t)) then
        match
          (match mode (options t) with
           | FixedRate =>
               nextFixedRateExpiration (expiration t) (interval t) now
                 (maxCatchUpCallbacks (options t)) (consecutiveCatchUpCallbacks t)
           | FixedDelay =>
               match i64 (now + interval t) with Ok e => Ok (e, 0) | Throw x => Throw x end
           end)
        with
        | Throw x => Throw x
        | Ok (e, n) => Ok (snd (insert a (alter_timer (set_expiration e n) a q)))
        end
      else Ok (mkTimerQueue (heap q) (nextSequence_ q) (timers_ q) (delete (sequence t) (timersById_ q)))
  end.

Fixpoint reset (now : Z) (expired : list nat) (q : TimerQueue) : result TimerQueue :=
  match expired with
  | [] => Ok q
  | a :: expired => match reset_one now a q with Ok q' => reset now expired q' | Throw x => Throw x end
  end.

(** [handleExpired]'s result; [exceptions] counts them. *)
Record ExpiredResult := mkExpired {
  exceptions : Z;
  drained : Z;
  remaining : Z;
  oldestReadyLatency : Z;
}.

Definition no_expired : ExpiredResult := mkExpired 0 0 0 0.

(** [std::distance(timers_.begin(), timers_.upper_bound(sentry))] *)
Definition count_due (now : Z) (q : TimerQueue) : Z :=
  zlen (fst (split_due now (length (timers_ q)) (timers_ q))).

(** ** Admission *)

Record TimerScheduleResult := mkScheduled { sched_result : PostResult; timerId : Z }.

(** Where the caller is and how the executor answers. *)
Record Caller := mkCaller { inLoop : bool; phaseRunning : bool; postAnswer : PostResult }.

Definition addTimer_check (cb : bool) (interval : Z) (o : RepeatingTimerOptions) : result unit :=
  if negb cb then Throw invalid_argument
  else if interval <? 0 then Throw invalid_argument
  else match validate o with
  | Throw e => Throw e
  | Ok _ =>
      if (interval =? 0) && (negb (bool_decide (mode o = FixedDelay)) || negb (maxCatchUpCallbacks o =? 0))
      then Throw invalid_argument else Ok tt
  end.

(** What a posted task will do on the loop thread. *)
Inductive Posted := PostedAdd (a : nat) | PostedCancel (id : Z).

Definition tryAddTimer (c : Caller) (cb : bool) (when interval : Z) (o : RepeatingTimerOptions)
    (q : TimerQueue) : result (TimerScheduleResult * option Posted) * TimerQueue :=
  match addTimer_check cb interval o with
  | Throw e => (Throw e, q)
  | Ok _ =>
      let s := nextSequence_ q in
      let a := length (heap q) in
      let q' := mkTimerQueue (heap q ++ [mkTimer when interval o 0 s false true]) (s + 1)
                  (timers_ q) (timersById_ q) in
      if inLoop c then
        if negb (phaseRunning c) then (Ok (mkScheduled PostShutdown 0, None), q')
        else (Ok (mkScheduled PostAccepted s, None), addTimerInLoop a q')
      else
        match postAnswer c with
        | PostAccepted => (Ok (mkScheduled PostAccepted s, Some (PostedAdd a)), q')
        | r => (Ok (mkScheduled r 0, None), q')
        end
  end.

(** [addTimer] turns a refusal into an exception. *)
Definition addTimer (r : TimerScheduleResult) : result Z :=
  match sched_result r with
  | PostAccepted => Ok (timerId r)
  | PostQueueFull => Throw overflow_error
  | PostShutdown | PostOwnerUnavailable => Throw logic_error
  end.

Definition tryCancel (c : Caller) (id : Z) (q : TimerQueue) : PostResult * option Posted * TimerQueue :=
  if id =? 0 then (PostAccepted, None, q)
  else if inLoop c then
    if negb (phaseRunning c) then (PostShutdown, None, q)
    else (PostAccepted, None, cancelInLoop id q)
  else
    match postAnswer c with
    | PostAccepted => (PostAccepted, Some (PostedCancel id), q)
    | r => (r, None, q)
    end.

(** ** The loop thread *)

(** Inside [handleExpired(now, ...)]: the timers of the batch, how many were
    reached, whether a callback is running, and the result so far. *)
Inductive Phase :=
  | Idle
  | Batch (expired : list nat) (reached : nat) (calling : bool) (now latency thrown : Z).

(** [fired]: sequences of the callbacks started; [reports]: results of
    [handleExpired]. *)
Record Machine := mkMachine {
  queue : TimerQueue;
  posted : list Posted;
  phase : Phase;
  fired : list Z;
  reports : list ExpiredResult;
}.

Inductive Label :=
  | LAdd (c : Caller) (cb : bool) (when interval : Z) (o : RepeatingTimerOptions)
  | LCancel (c : Caller) (id : Z)
  | LPosted                       (** the loop runs the next posted task *)
  | LExpire (now maxCount : Z)    (** [handleExpired] starts *)
  | LNext                         (** it reaches the next timer of the batch *)
  | LReturn (ok : bool)           (** the callback returns, or throws *)
  | LReset (now later : Z).       (** the batch is done; the two clock readings *)

(** User code runs on the loop thread outside [handleExpired] or in a callback. *)
Definition user_code (p : Phase) : bool :=
  match p with Idle => true | Batch _ _ calling _ _ _ => calling end.

Definition run_posted (p : Posted) (q : TimerQueue) : TimerQueue :=
  match p with PostedAdd a => addTimerInLoop a q | PostedCancel id => cancelInLoop id q end.

Definition add_posted (p : option Posted) (l : list Posted) : list Posted :=
  match p with Some p => l ++ [p] | None => l end.

(** A sequence number is drawn for every valid request; fewer than 2^63 - 1 are.
    Runs whose clock arithmetic overflows in [reset] are left out. *)
Definition step (lb : Label) (m : Machine) : option Machine :=
  match lb with
  | LAdd c cb when interval o =>
      if (inLoop c && negb (user_code (phase m))) || (i64_max - 1 <=? nextSequence_ (queue m)) then None
      else match tryAddTimer c cb when interval o (queue m) with
      | (Ok (_, p), q) => Some (mkMachine q (add_posted p (posted m)) (phase m) (fired m) (reports m))
      | (Throw _, q) => Some (mkMachine q (posted m) (phase m) (fired m) (reports m))
      end
  | LCancel c id =>
      if inLoop c && negb (user_code (phase m)) then None
      else let '(_, p, q) := tryCancel c id (queue m) in
      Some (mkMachine q (add_posted p (posted m)) (phase m) (fired m) (reports m))
  | LPosted =>
      match phase m, posted m with
      | Idle, p :: rest => Some (mkMachine (run_posted p (queue m)) rest Idle (fired m) (reports m))
      | _, _ => None
      end
  | LExpire now maxCount =>
      match phase m with
      | Idle =>
          match first_expiration (queue m) with
          | None => Some (mkMachine (queue m) (posted m) Idle (fired m) (reports m ++ [no_expired]))
          | Some e =>
              if now <? e then Some (mkMachine (queue m) (posted m) Idle (fired m) (reports m ++ [no_expired]))
              else
                let '(expired, q) := getExpired now maxCount (queue m) in
                Some (mkMachine q (posted m) (Batch expired 0 false now (now - e) 0) (fired m) (reports m))
          end
      | _ => None
      end
  | LNext =>
      match phase m with
      | Batch expired n false now lat thrown =>
          match expired !! n with
          | None => None
          | Some a =>
              match heap (queue m) !! a with
              | None => None
              | Some t =>
                  if canceled t
                  then Some (mkMachine (queue m) (posted m) (Batch expired (S n) false now lat thrown)
                               (fired m) (reports m))
                  else Some (mkMachine (queue m) (posted m) (Batch expired n true now lat thrown)
                               (fired m ++ [sequence t]) (reports m))
              end
          end
      | _ => None
      end
  | LReturn ok =>
      match phase m with
      | Batch expired n true now lat thrown =>
          match expired !! n with
          | None => None
          | Some a =>
              Some (if ok
                then mkMachine (queue m) (posted m) (Batch expired (S n) false now lat thrown) (fired m) (reports m)
                else mkMachine (alter_timer (fun t => set_flags true (inQueue t) t) a (queue m)) (posted m)
                       (Batch expired (S n) false now lat (thrown + 1)) (fired m) (reports m))
          end
      | _ => None
      end
  | LReset now' later =>
      match phase m with
      | Batch expired n false now lat thrown =>
          if (length expired <=? n)%nat then
            match reset now' expired (queue m) with
            | Ok q => Some (mkMachine q (posted m) Idle (fired m)
                              (reports m ++ [mkExpired thrown (zlen expired) (count_due later q) lat]))
            | Throw _ => None
            end
          else None
      | _ => None
      end
  end.

Fixpoint steps (lbs : list Label) (m : Machine) : option Machine :=
  match lbs with
  | [] => Some m
  | lb :: lbs => match step lb m with Some m' => steps lbs m' | None => None end
  end.

Definition initial : Machine := mkMachine TimerQueue_new [] Idle [] [].

(** ** Invariant *)

Definition key_lt (a b : key) : Prop := key_ltb a b = true.

Definition batch (p : Phase) : list nat := match p with Idle => [] | Batch e _ _ _ _ _ => e end.

Definition is_add (a : nat) (p : Posted) : bool :=
  match p with PostedAdd b => bool_decide (a = b) | PostedCancel _ => false end.

Definition adds (l : list Posted) : list nat :=
  omap (fun p => match p with PostedAdd a => Some a | PostedCancel _ => None end) l.

(** The queue, while the timers of [b] are in a batch and those of [p] wait to
    be added. *)
Record qinv (q : TimerQueue) (b p : list nat) : Prop := {
  qi_next : nextSequence_ q = Z.of_nat (length (heap q)) + 1 /\ nextSequence_ q <= i64_max;
  qi_sequence : forall a t, heap q !! a = Some t -> sequence t = Z.of_nat a + 1;
  qi_sorted : StronglySorted key_lt (fst <$> timers_ q);
  qi_entry : forall k a, (k, a) ∈ timers_ q -> exists t, heap q !! a = Some t /\ key_of t = k /\
    inQueue t = true /\ canceled t = false /\ timersById_ q !! sequence t = Some a;
  qi_index : forall s a, timersById_ q !! s = Some a -> exists t, heap q !! a = Some t /\ sequence t = s /\
    (inQueue t = true /\ (key_of t, a) ∈ timers_ q \/ inQueue t = false /\ a ∈ b);
  qi_batch : NoDup b /\ forall a, a ∈ b -> exists t, heap q !! a = Some t /\ inQueue t = false;
  qi_posted : NoDup p /\ forall a, a ∈ p -> (a < length (heap q))%nat /\ (a ∉ b) /\
    forall s, timersById_ q !! s <> Some a;
}.

Lemma key_ltb_irrefl k : key_ltb k k = false.
Proof. unfold key_ltb. rewrite !Z.ltb_irrefl, Z.eqb_refl. done. Qed.

Lemma key_ltb_trans a b c : key_ltb a b = true -> key_ltb b c = true -> key_ltb a c = true.
Proof.
  unfold key_ltb. rewrite !orb_true_iff, !andb_true_iff, !Z.ltb_lt, !Z.eqb_eq. lia.
Qed.

Lemma key_ltb_total a b : key_ltb a b = false -> key_ltb b a = false -> a = b.
Proof.
  unfold key_ltb. destruct a as [a1 a2], b as [b1 b2]. simpl.
  rewrite !orb_false_iff, !andb_false_iff, !Z.ltb_ge, !Z.eqb_neq. intros. f_equal; lia.
Qed.

Lemma sorted_nodup (l : list key) : StronglySorted key_lt l -> NoDup l.
Proof.
  induction 1 as [|k l Hs IH Hk]; constructor; [|done]. intros Hin. rewrite Forall_forall in Hk.
  specialize (Hk k Hin). unfold key_lt in Hk. by rewrite key_ltb_irrefl in Hk.
Qed.

(** *** The ordered map *)

Lemma emplace_elem k a m x :
  (forall a', (k, a') ∉ m) -> x ∈ emplace k a m <-> x = (k, a) \/ x ∈ m.
Proof.
  induction m as [|[k' a'] m IH]; intros Hn; simpl; [set_solver|].
  destruct (key_ltb k k') eqn:E1; [set_solver|]. destruct (key_ltb k' k) eqn:E2.
  - rewrite !elem_of_cons, IH by (intros a'' H; apply (Hn a''); by right). tauto.
  - pose proof (key_ltb_total _ _ E1 E2) as ->. destruct (Hn a'). by left.
Qed.

Lemma emplace_sorted k a m :
  StronglySorted key_lt (fst <$> m) -> StronglySorted key_lt (fst <$> emplace k a m).
Proof.
  induction m as [|[k' a'] m IH]; intros Hs; simpl; [repeat constructor|].
  rewrite fmap_cons in Hs. inversion Hs as [|? ? Hs' Hk']; subst. simpl in *.
  destruct (key_ltb k k') eqn:E1; [|destruct (key_ltb k' k) eqn:E2]; simpl.
  - constructor; [by constructor|]. constructor; [done|]. eapply Forall_impl; [done|].
    intros k2 ?. by eapply key_ltb_trans.
  - constructor; [by apply IH|]. clear IH Hs Hs'. induction m as [|[k2 a2] m IHm]; simpl; [by repeat constructor|].
    simpl in Hk'. apply Forall_cons in Hk' as [H1 H2]. destruct (key_ltb k k2), (key_ltb k2 k); simpl; auto.
  - by constructor.
Qed.

Lemma erase_key_elem k m x : x ∈ erase_key k m <-> fst x <> k /\ x ∈ m.
Proof. unfold erase_key. by rewrite list_elem_of_filter. Qed.

Lemma erase_key_sorted k m :
  StronglySorted key_lt (fst <$> m) -> StronglySorted key_lt (fst <$> erase_key k m).
Proof.
  unfold erase_key. induction m as [|[k' a'] m IH]; intros Hs; simpl; [done|].
  rewrite fmap_cons in Hs. inversion Hs as [|? ? Hs' Hk']; subst. rewrite filter_cons.
  case_decide; [|by apply IH]. rewrite fmap_cons. constructor; [by apply IH|].
  rewrite Forall_fmap in *. apply Forall_forall. intros x [_ Hx]%list_elem_of_filter.
  rewrite Forall_forall in Hk'. by apply Hk'.
Qed.

Lemma split_due_ok now n m expired rest :
  split_due now n m = (expired, rest) ->
  exists pre, m = pre ++ rest /\ (snd <$> pre) = expired /\ Forall (fun x => due now (fst x) = true) pre /\
    (length expired <= n)%nat /\
    (length expired = n \/ match rest with [] => True | x :: _ => due now (fst x) = false end).
Proof.
  revert m expired rest. induction n as [|n IH]; intros m expired rest H; simpl in H.
  { injection H as <- <-. exists []. split_and!; try done. by left. }
  destruct m as [|[k a] m]; [injection H as <- <-; exists []; split_and!; try done; [simpl; lia|by right]|].
  destruct (due now k) eqn:Hd.
  - destruct (split_due now n m) as [e r] eqn:Hs. injection H as <- <-.
    destruct (IH _ _ _ Hs) as (pre & -> & <- & Hf & Hlen & Hr). exists ((k, a) :: pre).
    split_and!; try done; [by constructor|simpl; lia|]. simpl. destruct Hr; [left; lia|by right].
  - injection H as <- <-. exists []. split_and!; try done; [simpl; lia|by right].
Qed.

(** *** Operations *)

Lemma qi_unique q b p k1 k2 a1 a2 :
  qinv q b p -> (k1, a1) ∈ timers_ q -> (k2, a2) ∈ timers_ q -> snd k1 = snd k2 -> a1 = a2.
Proof.
  intros [_ Hseq _ He _ _ _] H1 H2 E.
  destruct (He _ _ H1) as (t1 & Ht1 & <- & _). destruct (He _ _ H2) as (t2 & Ht2 & <- & _).
  pose proof (Hseq _ _ Ht1). pose proof (Hseq _ _ Ht2). simpl in *. lia.
Qed.

Lemma in_queue_indexed q b p k a :
  qinv q b p -> (k, a) ∈ timers_ q -> timersById_ q !! (Z.of_nat a + 1) = Some a.
Proof.
  intros [_ Hseq _ He _ _ _] Hk. destruct (He _ _ Hk) as (t & Ht & _ & _ & _ & Hi).
  by rewrite (Hseq _ _ Ht) in Hi.
Qed.

(** Inserting a timer that is not in the map: a new one, or one of the batch. *)
Lemma insert_qinv q b p b' p' a t :
  qinv q b p -> heap q !! a = Some t -> (forall k, (k, a) ∉ timers_ q) ->
  (a ∉ b') -> (a ∉ p') -> NoDup b' -> NoDup p' ->
  (forall x, x ∈ b' -> x ∈ b) -> (forall x, x ∈ b -> x = a \/ x ∈ b') -> (forall x, x ∈ p' -> x ∈ p) ->
  qinv (snd (insert a q)) b' p'.
Proof.
  intros Hq Ht Hnq Hb Hp Hnb Hnp Hbb Hbb' Hpp. pose proof Hq as [Hn Hseq Hs He Hi [_ Hba] [_ Hpo]].
  unfold insert. rewrite Ht. simpl.
  assert (forall a', (key_of t, a') ∉ timers_ q) as Hfresh.
  { intros a' Hin. destruct (He _ _ Hin) as (t' & Ht' & Ek & _). apply (Hnq (key_of t)).
    pose proof (Hseq _ _ Ht) as E1. pose proof (Hseq _ _ Ht') as E2. injection Ek as _ Es.
    assert (a' = a) as -> by lia. done. }
  assert (forall x tx, alter (set_flags false true) a (heap q) !! x = Some tx ->
    (x = a /\ tx = set_flags false true t) \/ (x <> a /\ heap q !! x = Some tx)) as Hlk.
  { intros x tx. rewrite list_lookup_alter. case_decide as E.
    - subst x. rewrite Ht. intros [= <-]. auto.
    - auto. }
  split; simpl.
  - rewrite length_alter. done.
  - intros x tx [[-> ->]|[_ Hx]]%Hlk; [exact (Hseq _ _ Ht)|exact (Hseq _ _ Hx)].
  - by apply emplace_sorted.
  - intros k x. rewrite emplace_elem by done. intros [[= -> ->]|Hin].
    + exists (set_flags false true t). rewrite list_lookup_alter_eq, Ht. split_and!; try done.
      simpl. by rewrite lookup_insert_eq.
    + assert (x <> a) as Hxa by (intros ->; by apply (Hnq k)).
      destruct (He _ _ Hin) as (tx & Htx & Hk & Hiq & Hc & Hid). exists tx.
      rewrite list_lookup_alter_ne by done. split_and!; try done. rewrite lookup_insert_ne; [done|].
      rewrite (Hseq _ _ Ht), (Hseq _ _ Htx). lia.
  - intros s x [[<- <-]|[Hne Hx]]%lookup_insert_Some.
    + exists (set_flags false true t). rewrite list_lookup_alter_eq, Ht. split_and!; try done. left.
      split; [done|]. apply emplace_elem; [done|]. by left.
    + destruct (Hi _ _ Hx) as (tx & Htx & Hsx & Hcase).
      assert (x <> a) as Hxa by (intros ->; congruence).
      exists tx. rewrite list_lookup_alter_ne by done. split_and!; try done.
      destruct Hcase as [[? Hin]|[? Hin]]; [left|right]; (split; [done|]).
      * apply emplace_elem; [done|]. by right.
      * by destruct (Hbb' x Hin).
  - split; [done|]. intros x Hx. destruct (Hba x (Hbb x Hx)) as (tx & Htx & ?).
    exists tx. rewrite list_lookup_alter_ne by (intros ->; done). done.
  - split; [done|]. intros x Hx. destruct (Hpo x (Hpp x Hx)) as (Hlt & Hxb & Hxi). rewrite length_alter.
    split_and!; [done|by auto|]. intros s [[_ <-]|[_ ?]]%lookup_insert_Some; [done|]. by eapply Hxi.
Qed.

Lemma cancel_qinv q b p id : qinv q b p -> qinv (cancelInLoop id q) b p.
Proof.
  intros Hq. pose proof Hq as [Hn Hseq Hs He Hi [Hnb Hba] [Hnp Hpo]]. unfold cancelInLoop.
  destruct (timersById_ q !! id) as [a|] eqn:Ea; [|done].
  destruct (Hi _ _ Ea) as (t & Ht & Hid & Hcase). rewrite Ht.
  assert (forall c v x tx, alter (set_flags c v) a (heap q) !! x = Some tx ->
    (x = a /\ tx = set_flags c v t) \/ (x <> a /\ heap q !! x = Some tx)) as Hlk.
  { intros c v x tx. rewrite list_lookup_alter. case_decide as E.
    - subst x. rewrite Ht. intros [= <-]. auto.
    - auto. }
  assert (forall s x, delete id (timersById_ q) !! s = Some x -> timersById_ q !! s = Some x /\ x <> a) as Hdel.
  { intros s x [Hne Hx]%lookup_delete_Some. split; [done|]. intros ->.
    destruct (Hi _ _ Hx) as (t' & Ht' & Hs' & _). congruence. }
  destruct (inQueue t) eqn:Hiq; (split; simpl).
  - rewrite length_alter. done.
  - intros x tx [[-> ->]|[_ Hx]]%Hlk; [exact (Hseq _ _ Ht)|exact (Hseq _ _ Hx)].
  - by apply erase_key_sorted.
  - intros k x [Hne Hin]%erase_key_elem. simpl in Hne. destruct (He _ _ Hin) as (tx & Htx & Hk & ? & ? & Hix).
    assert (x <> a) as Hxa by (intros ->; congruence).
    exists tx. rewrite list_lookup_alter_ne by done. split_and!; try done. rewrite lookup_delete_ne; [done|].
    rewrite <- Hid, (Hseq _ _ Ht), (Hseq _ _ Htx). lia.
  - intros s x [Hx Hxa]%Hdel. destruct (Hi _ _ Hx) as (tx & Htx & Hsx & Hc). exists tx.
    rewrite list_lookup_alter_ne by done. split_and!; try done.
    destruct Hc as [[? Hin]|?]; [left|by right]. split; [done|]. apply erase_key_elem. simpl. split; [|done].
    intros E. apply Hxa. apply (qi_unique q b p (key_of tx) (key_of t)); try done; [|by rewrite E].
    by destruct Hcase as [[_ ?]|[? _]].
  - split; [done|]. intros x Hx. destruct (Hba x Hx) as (tx & Htx & Hq0). exists tx.
    rewrite list_lookup_alter_ne; [done|]. intros ->. congruence.
  - split; [done|]. intros x Hx. destruct (Hpo x Hx) as (Hlt & Hxb & Hxi). rewrite length_alter.
    split_and!; try done. intros s [Hx' _]%Hdel. by eapply Hxi.
  - rewrite length_alter. done.
  - intros x tx [[-> ->]|[_ Hx]]%Hlk; [exact (Hseq _ _ Ht)|exact (Hseq _ _ Hx)].
  - done.
  - intros k x Hin. destruct (He _ _ Hin) as (tx & Htx & Hk & Hiqx & ? & Hix).
    assert (x <> a) as Hxa by (intros ->; congruence).
    exists tx. rewrite list_lookup_alter_ne by done. split_and!; try done. rewrite lookup_delete_ne; [done|].
    rewrite <- Hid, (Hseq _ _ Ht), (Hseq _ _ Htx). lia.
  - intros s x [Hx Hxa]%Hdel. destruct (Hi _ _ Hx) as (tx & Htx & Hsx & Hc). exists tx.
    rewrite list_lookup_alter_ne by done. split_and!; done.
  - split; [done|]. intros x Hx. destruct (Hba x Hx) as (tx & Htx & Hq0).
    rewrite list_lookup_alter. case_decide as E; [|eauto]. subst x. rewrite Ht. eexists. split; [done|]. done.
  - split; [done|]. intros x Hx. destruct (Hpo x Hx) as (Hlt & Hxb & Hxi). rewrite length_alter.
    split_and!; try done. intros s [Hx' _]%Hdel. by eapply Hxi.
Qed.

(** A timer that is not in the map may change its deadline or be marked. *)
Lemma alter_qinv q b p a f :
  qinv q b p -> (forall k, (k, a) ∉ timers_ q) ->
  (forall t, sequence (f t) = sequence t /\ inQueue (f t) = inQueue t) -> qinv (alter_timer f a q) b p.
Proof.
  intros Hq Hnq Hf. pose proof Hq as [Hn Hseq Hs He Hi [Hnb Hba] [Hnp Hpo]].
  assert (forall x tx, heap q !! x = Some tx -> exists ty, alter f a (heap q) !! x = Some ty /\
    sequence ty = sequence tx /\ inQueue ty = inQueue tx /\ (x <> a -> ty = tx)) as Hup.
  { intros x tx Hx. rewrite list_lookup_alter. case_decide as E; [subst x; rewrite Hx; simpl|by eauto].
    eexists. split; [done|]. destruct (Hf tx) as [-> ->]. done. }
  split; simpl; try done.
  - by rewrite length_alter.
  - intros x tx. rewrite list_lookup_alter. case_decide as E; [subst x|by apply Hseq].
    destruct (heap q !! a) as [t|] eqn:Ht; [|done]. simpl. intros [= <-]. destruct (Hf t) as [-> _]. by apply Hseq.
  - intros k x Hin. destruct (He _ _ Hin) as (tx & Htx & ?). exists tx.
    rewrite list_lookup_alter_ne; [done|]. intros ->. by apply (Hnq k).
  - intros s x Hx. destruct (Hi _ _ Hx) as (tx & Htx & Hsx & Hc). destruct (Hup _ _ Htx) as (ty & Hty & E1 & E2 & E3).
    exists ty. split_and!; [done|congruence|]. rewrite E2. destruct Hc as [[? Hin]|?]; [left|by right].
    assert (x <> a) as Hxa by (intros ->; by eapply Hnq). rewrite (E3 Hxa). done.
  - split; [done|]. intros x Hx. destruct (Hba x Hx) as (tx & Htx & Hq0).
    destruct (Hup _ _ Htx) as (ty & Hty & E1 & E2 & _). exists ty. split; [done|congruence].
  - split; [done|]. intros x Hx. rewrite length_alter. by apply Hpo.
Qed.

Lemma lookup_foldr_alter {A} (f : A -> A) (l : list nat) (h : list A) a :
  (forall x, f (f x) = f x) ->
  foldr (alter f) h l !! a = if bool_decide (a ∈ l) then f <$> h !! a else h !! a.
Proof.
  intros Hf. induction l as [|b l IH]; [done|]. cbn [foldr]. rewrite list_lookup_alter.
  destruct (decide (b = a)) as [E|E].
  - subst b. rewrite (bool_decide_true (a ∈ a :: l)) by constructor.
    rewrite IH. case_bool_decide; destruct (h !! a); simpl; try done. by rewrite Hf.
  - rewrite IH. case_bool_decide; case_bool_decide; set_solver.
Qed.

Lemma length_foldr_alter {A} (f : A -> A) (l : list nat) (h : list A) :
  length (foldr (alter f) h l) = length h.
Proof. induction l as [|b l IH]; [done|]. cbn [foldr]. by rewrite length_alter. Qed.

(** The batch: the first due timers, at most [maxCount]; nothing due remains
    unless the batch is full. *)
Lemma getExpired_qinv q p now maxCount expired q' :
  0 <= maxCount -> qinv q [] p -> getExpired now maxCount q = (expired, q') ->
  qinv q' expired p /\ zlen expired <= maxCount /\
  (forall a, a ∈ expired -> exists t, heap q' !! a = Some t /\ expiration t <= now /\ canceled t = false /\
     exists k, (k, a) ∈ timers_ q) /\
  (zlen expired = maxCount \/ forall k a, (k, a) ∈ timers_ q' -> now < fst k) /\
  (forall x, x ∈ timers_ q' -> x ∈ timers_ q) /\ heap q' = foldr (alter (fun t => set_flags (canceled t) false t)) (heap q) expired /\
  timersById_ q' = timersById_ q.
Proof.
  intros Hm Hq Hg. pose proof Hq as [Hn Hseq Hs He Hi _ [Hnp Hpo]]. unfold getExpired in Hg.
  destruct (split_due _ _ _) as [ex rest] eqn:Hsd. injection Hg as <- <-.
  destruct (split_due_ok _ _ _ _ _ Hsd) as (pre & Em & <- & Hdue & Hlen & Hrest).
  set (ex := snd <$> pre) in *.
  assert (forall a, a ∈ ex <-> exists k, (k, a) ∈ pre) as Hex.
  { intros a. unfold ex. rewrite list_elem_of_fmap. split; [intros ([k a'] & -> & ?); eauto|intros [k ?]; by exists (k, a)]. }
  assert (forall x, x ∈ pre -> x ∈ timers_ q) as Hpre by (intros; rewrite Em; apply elem_of_app; auto).
  assert (forall x, x ∈ rest -> x ∈ timers_ q) as Hrs by (intros; rewrite Em; apply elem_of_app; auto).
  assert (forall k a, (k, a) ∈ rest -> a ∉ ex) as Hdis.
  { intros k a Hr [k' Hk']%Hex.
    destruct (He _ _ (Hrs _ Hr)) as (t & Ht & <- & _). destruct (He _ _ (Hpre _ Hk')) as (t' & Ht' & <- & _).
    rewrite Ht in Ht'. injection Ht' as <-. rewrite Em, fmap_app in Hs.
    apply (StronglySorted_app_1_elem_of _ _ _ (key_of t) (key_of t)) in Hs;
      [|by apply (list_elem_of_fmap_2 fst _ (key_of t, a))..].
    unfold key_lt in Hs. by rewrite key_ltb_irrefl in Hs. }
  assert (forall a, foldr (alter (fun t => set_flags (canceled t) false t)) (heap q) ex !! a =
    if bool_decide (a ∈ ex) then (fun t => set_flags (canceled t) false t) <$> heap q !! a else heap q !! a) as Hlk
    by (intros; apply lookup_foldr_alter; done).
  assert (NoDup ex) as Hnd.
  { assert (NoDup (fst <$> timers_ q)) as Hndk by by apply sorted_nodup.
    rewrite Em, fmap_app in Hndk. apply NoDup_app in Hndk as (Hndk & _ & _). unfold ex.
    clear -Hndk Hpre Hq. induction pre as [|[k a] pre IH]; simpl; [constructor|].
    rewrite fmap_cons in *. apply NoDup_cons in Hndk as [Hni Hnd]. constructor.
    - intros ([k' a'] & Ea & Hin)%list_elem_of_fmap. simpl in Ea. subst a'. apply Hni.
      destruct (qi_entry _ _ _ Hq k a) as (t & Ht & <- & _); [apply Hpre; by constructor|].
      destruct (qi_entry _ _ _ Hq k' a) as (t' & Ht' & <- & _); [apply Hpre; by constructor|].
      rewrite Ht in Ht'. injection Ht' as <-. by apply (list_elem_of_fmap_2 fst _ (key_of t, a)).
    - apply IH; [intros; apply Hpre; by constructor|done]. }
  split_and!.
  - split; simpl.
    + by rewrite length_foldr_alter.
    + intros a t. rewrite Hlk. case_bool_decide; [|by apply Hseq].
      destruct (heap q !! a) as [t0|] eqn:E0; [|done]. simpl. intros [= <-]. simpl. by apply Hseq.
    + rewrite Em, fmap_app in Hs. by apply StronglySorted_app_1_r in Hs.
    + intros k a Hin. destruct (He _ _ (Hrs _ Hin)) as (t & ?). exists t. rewrite Hlk.
      by rewrite bool_decide_false by (by eapply Hdis).
    + intros s a Ha. destruct (Hi _ _ Ha) as (t & Ht & Hst & Hc). rewrite Hlk, Ht.
      destruct Hc as [[Hiq Hin]|[_ Hin]]; [|by apply elem_of_nil in Hin].
      case_bool_decide as Hx; simpl; (eexists; split; [done|]); (split; [done|]).
      * right. by split.
      * left. split; [done|]. rewrite Em in Hin. apply elem_of_app in Hin as [Hin|Hin]; [|done].
        destruct Hx. apply Hex. eauto.
    + split; [done|]. intros a Ha. rewrite Hlk, bool_decide_true by done.
      destruct (proj1 (Hex a) Ha) as [k Hk]. destruct (He _ _ (Hpre _ Hk)) as (t & -> & _). simpl. eauto.
    + split; [done|]. intros a Ha. rewrite length_foldr_alter. destruct (Hpo a Ha) as (? & _ & Hx).
      split_and!; try done. intros [k Hk]%Hex. apply (Hx (Z.of_nat a + 1)). eapply in_queue_indexed; [exact Hq|by apply Hpre].
  - unfold zlen. lia.
  - simpl. intros a Ha. rewrite Hlk, bool_decide_true by done. destruct (proj1 (Hex a) Ha) as [k Hk].
    destruct (He _ _ (Hpre _ Hk)) as (t & Ht & Ek & _ & Hc & _). rewrite Ht. simpl. eexists. split; [done|].
    simpl. split_and!; [|done|eauto]. rewrite Forall_forall in Hdue. specialize (Hdue _ Hk).
    unfold due, key_ltb in Hdue. simpl in Hdue. rewrite <- Ek in Hdue. simpl in Hdue.
    apply negb_true_iff, orb_false_iff in Hdue as [Hd _]. apply Z.ltb_ge in Hd. lia.
  - simpl. assert (zlen ex <= zlen (timers_ q)) as Hle.
    { rewrite Em. unfold ex, zlen. rewrite length_fmap, length_app. lia. }
    destruct Hrest as [E|Hr].
    + destruct (decide (maxCount <= zlen (timers_ q))) as [Hle'|Hgt].
      { left. unfold zlen in *. lia. }
      right. intros k a Hin. exfalso. assert (zlen rest = 0) as Hz.
      { assert (zlen (timers_ q) = zlen ex + zlen rest) as E2
          by (rewrite Em at 1; unfold ex, zlen; rewrite length_fmap, length_app; lia).
        unfold zlen in *. lia. }
      apply zlen_nil_inv in Hz. subst rest. by apply elem_of_nil in Hin.
    + right. intros k a Hin. destruct rest as [|[k0 a0] rest]; [by apply elem_of_nil in Hin|].
      unfold due in Hr. simpl in Hr. apply negb_false_iff in Hr.
      assert (key_ltb (now, i64_max) k = true) as Hk.
      { apply elem_of_cons in Hin as [[= -> ->]|Hin]; [done|]. rewrite Em, fmap_app in Hs.
        apply StronglySorted_app_1_r in Hs. rewrite fmap_cons in Hs. inversion Hs as [|? ? _ Hf]; subst.
        rewrite Forall_forall in Hf. eapply key_ltb_trans; [exact Hr|].
        apply Hf. by apply (list_elem_of_fmap_2 fst _ (k, a)). }
      destruct (He _ _ (Hrs _ Hin)) as (t & Ht & Ek & _). pose proof (Hseq _ _ Ht) as Hst.
      apply lookup_lt_Some in Ht. destruct k as [e sq]. injection Ek as _ Ek. simpl in *.
      unfold key_ltb in Hk. simpl in Hk. apply orb_true_iff in Hk as [Hk|Hk]; zify_bools; lia.
  - done.
  - done.
  - done.
Qed.

(** One timer of the batch is rescheduled or forgotten. *)
Lemma reset_one_qinv q b p now a q' :
  qinv q (a :: b) p -> reset_one now a q = Ok q' -> qinv q' b p.
Proof.
  intros Hq Hr. pose proof Hq as [Hn Hseq Hs He Hi [Hnb Hba] [Hnp Hpo]]. unfold reset_one in Hr.
  destruct (Hba a) as (t & Ht & Hiq); [constructor|]. rewrite Ht in Hr.
  apply NoDup_cons in Hnb as [Hab Hnb].
  assert (forall k, (k, a) ∉ timers_ q) as Hnq.
  { intros k Hk. destruct (He _ _ Hk) as (t' & Ht' & _ & Hiq' & _). congruence. }
  assert (a ∉ p) as Hap by (intros Hp; destruct (Hpo a Hp) as (_ & H & _); apply H; constructor).
  destruct (repeats t && _ && _) eqn:E.
  - match type of Hr with match ?x with _ => _ end = _ => destruct x as [[e n]|]; [|done] end.
    injection Hr as <-.
    assert (qinv (alter_timer (set_expiration e n) a q) (a :: b) p) as Hq1 by (apply alter_qinv; done).
    apply (insert_qinv _ (a :: b) p b p a (set_expiration e n t)); try done.
    + simpl. by rewrite list_lookup_alter_eq, Ht.
    + intros. by constructor.
    + intros x [->|?]%elem_of_cons; auto.
  - injection Hr as <-. split; simpl; try done.
    + intros k x Hin. destruct (He _ _ Hin) as (tx & Htx & ? & ? & ? & Hx). exists tx. split_and!; try done.
      rewrite lookup_delete_ne; [done|]. rewrite (Hseq _ _ Ht), (Hseq _ _ Htx).
      assert (x <> a) by (intros ->; by apply (Hnq k)). lia.
    + intros s x [Hne Hx]%lookup_delete_Some. destruct (Hi _ _ Hx) as (tx & Htx & Hsx & Hc). exists tx.
      split_and!; try done. destruct Hc as [?|[? Hin]]; [by left|right]. split; [done|].
      apply elem_of_cons in Hin as [->|?]; [congruence|done].
    + split; [done|]. intros. apply Hba. by constructor.
    + split; [done|]. intros x Hx. destruct (Hpo x Hx) as (? & Hxb & Hxi). split_and!; [done|set_solver|].
      intros s [_ ?]%lookup_delete_Some. by eapply Hxi.
Qed.

Lemma reset_qinv now expired : forall q p q',
  qinv q expired p -> reset now expired q = Ok q' -> qinv q' [] p.
Proof.
  induction expired as [|a expired IH]; intros q p q' Hq Hr; simpl in Hr; [by simplify_eq|].
  destruct (reset_one now a q) as [q1|] eqn:E; [|done]. eapply IH; [|done]. by eapply reset_one_qinv.
Qed.

Lemma alloc_qinv q b p t p' :
  qinv q b p -> nextSequence_ q < i64_max -> sequence t = nextSequence_ q ->
  (p' = p \/ p' = p ++ [length (heap q)]) ->
  qinv (mkTimerQueue (heap q ++ [t]) (nextSequence_ q + 1) (timers_ q) (timersById_ q)) b p'.
Proof.
  intros [[Hn Hb] Hseq Hs He Hi [Hnb Hba] [Hnp Hpo]] Hroom Ht Hp.
  assert (forall x tx, heap q !! x = Some tx -> (heap q ++ [t]) !! x = Some tx) as Hold
    by (intros; by apply lookup_app_l_Some).
  split; simpl.
  - rewrite length_app. simpl. lia.
  - intros x tx [Hx|[Hge Hx]]%lookup_app_Some; [by apply Hseq|].
    apply list_lookup_singleton_Some in Hx as [Hx <-]. lia.
  - done.
  - intros k x Hin. destruct (He _ _ Hin) as (tx & Htx & ?). exists tx. auto.
  - intros s x Hx. destruct (Hi _ _ Hx) as (tx & Htx & ?). exists tx. auto.
  - split; [done|]. intros x Hx. destruct (Hba x Hx) as (tx & Htx & ?). exists tx. auto.
  - assert (forall x, x ∈ p -> (x < length (heap q ++ [t]))%nat /\ (x ∉ b) /\
      forall s, timersById_ q !! s <> Some x) as Hpo'.
    { intros x Hx. destruct (Hpo x Hx) as (? & ? & ?). rewrite length_app. split_and!; try done. lia. }
    destruct Hp as [->| ->]; [done|]. split.
    + apply NoDup_app. split_and!; [done| |apply NoDup_singleton].
      intros x Hx Hx'. apply list_elem_of_singleton in Hx' as ->. destruct (Hpo _ Hx) as (? & _). lia.
    + intros x [Hx|Hx]%elem_of_app; [auto|]. apply list_elem_of_singleton in Hx as ->. rewrite length_app. simpl.
      split_and!; [lia| |].
      * intros Hx. destruct (Hba _ Hx) as (tx & Htx & _). apply lookup_lt_Some in Htx. lia.
      * intros s Hx. destruct (Hi _ _ Hx) as (tx & Htx & _). apply lookup_lt_Some in Htx. lia.
Qed.

(** *** The machine *)

Definition phase_ok (q : TimerQueue) (p : Phase) : Prop :=
  match p with
  | Idle => True
  | Batch e n calling now _ _ =>
      (n <= length e)%nat /\ (calling = true -> (n < length e)%nat) /\
      forall a t, a ∈ e -> heap q !! a = Some t -> expiration t <= now
  end.

Record tinv (m : Machine) : Prop := {
  tm_queue : qinv (queue m) (batch (phase m)) (adds (posted m));
  tm_phase : phase_ok (queue m) (phase m);
}.

(** What an operation may do to timer [a] without reviving it. *)
Record keeps (a : nat) (q q' : TimerQueue) : Prop := {
  kp_map : forall k, (k, a) ∈ timers_ q' -> (k, a) ∈ timers_ q;
  kp_heap : forall t, heap q !! a = Some t -> exists t', heap q' !! a = Some t' /\
    sequence t' = sequence t /\ interval t' = interval t /\ expiration t' = expiration t /\
    (canceled t = true -> canceled t' = true);
  kp_index : forall t, heap q !! a = Some t -> timersById_ q !! sequence t = None ->
    timersById_ q' !! sequence t = None;
}.

Lemma keeps_refl a q : keeps a q q.
Proof. split; [done|eauto 7|done]. Qed.

Lemma keeps_insert q b p x a :
  qinv q b p -> x <> a -> (forall k, (k, x) ∉ timers_ q) -> keeps a q (snd (insert x q)).
Proof.
  intros Hq Hne Hnq. unfold insert. destruct (heap q !! x) as [t|] eqn:Ht; [|apply keeps_refl]. simpl.
  assert (forall a', (key_of t, a') ∉ timers_ q) as Hfresh.
  { intros a' Hin. destruct (qi_entry _ _ _ Hq _ _ Hin) as (t' & Ht' & Ek & _). apply (Hnq (key_of t)).
    pose proof (qi_sequence _ _ _ Hq _ _ Ht) as E1. pose proof (qi_sequence _ _ _ Hq _ _ Ht') as E2.
    injection Ek as _ Es. assert (a' = x) as -> by lia. done. }
  split; simpl.
  - intros k. rewrite emplace_elem by done. intros [[= _ ->]|?]; done.
  - intros ta Hta. rewrite list_lookup_alter_ne by done. eauto 7.
  - intros ta Hta Hn. rewrite lookup_insert_ne; [done|].
    rewrite (qi_sequence _ _ _ Hq _ _ Ht), (qi_sequence _ _ _ Hq _ _ Hta). lia.
Qed.

Lemma keeps_cancel q id a : keeps a q (cancelInLoop id q).
Proof.
  unfold cancelInLoop. destruct (timersById_ q !! id) as [x|] eqn:Ex; [|apply keeps_refl].
  destruct (heap q !! x) as [t|] eqn:Ht; [|apply keeps_refl].
  assert (forall v ta, heap q !! a = Some ta -> exists t', alter (set_flags true v) x (heap q) !! a = Some t' /\
    sequence t' = sequence ta /\ interval t' = interval ta /\ expiration t' = expiration ta /\
    (canceled ta = true -> canceled t' = true)) as Hh.
  { intros v ta Hta. rewrite list_lookup_alter. case_decide; [subst x; rewrite Hta|eauto 7]. simpl. eauto 7. }
  destruct (inQueue t); (split; simpl; [|auto|]).
  - intros k [_ ?]%erase_key_elem. done.
  - intros ta Hta Hn. by rewrite lookup_delete_None; right.
  - done.
  - intros ta Hta Hn. by rewrite lookup_delete_None; right.
Qed.

(** [a] will not be called: out of the map, not waiting to be added, passed or
    marked in the batch, and not to be rescheduled. *)
Definition reached_in (p : Phase) (i : nat) : Prop :=
  match p with Idle => False | Batch _ n calling _ _ _ => (i < n)%nat \/ i = n /\ calling = true end.

Record dead (a : nat) (m : Machine) : Prop := {
  dd_map : forall k, (k, a) ∉ timers_ (queue m);
  dd_posted : a ∉ adds (posted m);
  dd_timer : exists t, heap (queue m) !! a = Some t /\
    (repeats t = false \/ canceled t = true \/ timersById_ (queue m) !! sequence t = None) /\
    forall i, batch (phase m) !! i = Some a -> reached_in (phase m) i \/ canceled t = true;
}.

Lemma dead_keeps a m q' posted' phase' fired' reports' :
  dead a m -> keeps a (queue m) q' -> (a ∈ adds posted' -> a ∈ adds (posted m)) ->
  (forall i, batch phase' !! i = Some a ->
    batch (phase m) !! i = Some a /\ (reached_in (phase m) i -> reached_in phase' i)) ->
  dead a (mkMachine q' posted' phase' fired' reports').
Proof.
  intros [Hm Hp (t & Ht & Hr & Hb)] [Km Kh Ki] Hpp Hbb. split; simpl.
  - intros k Hk. by apply (Hm k), Km.
  - auto.
  - destruct (Kh t Ht) as (t' & Ht' & Es & Ei & _ & Hc). exists t'. split; [done|]. split.
    + destruct Hr as [Hr|[Hr|Hr]]; [left|right; left|right; right].
      * unfold repeats in *. by rewrite Ei.
      * auto.
      * rewrite Es. by apply Ki.
    + intros i Hi. destruct (Hbb i Hi) as [Hi' Hri]. destruct (Hb i Hi') as [?|?]; auto.
Qed.

Lemma adds_app l1 l2 : adds (l1 ++ l2) = adds l1 ++ adds l2.
Proof. unfold adds. apply omap_app. Qed.

(** Rescheduling a batch leaves its dead timers dead. *)
Lemma reset_keeps now expired : forall q p q' a t,
  qinv q expired p -> reset now expired q = Ok q' -> heap q !! a = Some t ->
  (forall k, (k, a) ∉ timers_ q) ->
  (repeats t = false \/ canceled t = true \/ timersById_ q !! sequence t = None) ->
  (forall k, (k, a) ∉ timers_ q') /\ exists t', heap q' !! a = Some t' /\
    (repeats t' = false \/ canceled t' = true \/ timersById_ q' !! sequence t' = None).
Proof.
  induction expired as [|x expired IH]; intros q p q' a t Hq Hr Ht Hnq Hd; simpl in Hr.
  { injection Hr as <-. eauto. }
  destruct (reset_one now x q) as [q1|] eqn:E1; [|done].
  pose proof (reset_one_qinv _ _ _ _ _ _ Hq E1) as Hq1.
  cut ((forall k, (k, a) ∉ timers_ q1) /\ exists t1, heap q1 !! a = Some t1 /\
    (repeats t1 = false \/ canceled t1 = true \/ timersById_ q1 !! sequence t1 = None)).
  { intros (Hn1 & t1 & Ht1 & Hd1). by eapply IH. }
  unfold reset_one in E1. destruct (heap q !! x) as [tx|] eqn:Hx; [|done].
  destruct (repeats tx && _ && _) eqn:E.
  - match type of E1 with match ?y with _ => _ end = _ => destruct y as [[e n]|]; [|done] end.
    injection E1 as <-.
    assert (x <> a) as Hxa.
    { intros ->. rewrite Ht in Hx. injection Hx as <-.
      apply andb_true_iff in E as [E Ec]. apply andb_true_iff in E as [Ea Eb]. apply bool_decide_eq_true in Ec.
      destruct Hd as [Hd|[Hd|Hd]]; [congruence|by rewrite Hd in Eb|]. rewrite Hd in Ec. by destruct Ec. }
    assert (forall k, (k, x) ∉ timers_ q) as Hnx.
    { intros k Hk. destruct (qi_entry _ _ _ Hq _ _ Hk) as (t' & Ht' & _ & Hiq & _).
      destruct (qi_batch _ _ _ Hq) as [_ Hba]. destruct (Hba x) as (t2 & Ht2 & ?); [constructor|]. congruence. }
    assert (qinv (alter_timer (set_expiration e n) x q) (x :: expired) p) as Hqa by (apply alter_qinv; done).
    destruct (keeps_insert _ _ _ x a Hqa Hxa Hnx) as [Km Kh Ki].
    split; [intros k Hk; by apply (Hnq k), Km|].
    assert (heap (alter_timer (set_expiration e n) x q) !! a = Some t) as Hta
      by (simpl; by rewrite list_lookup_alter_ne).
    destruct (Kh t Hta) as (t' & Ht' & Es & Ei & _ & Hc). exists t'. split; [done|].
    destruct Hd as [Hd|[Hd|Hd]]; [left; unfold repeats in *; by rewrite Ei|auto|right; right].
    rewrite Es. by apply Ki.
  - injection E1 as <-. simpl. split; [done|]. exists t. split; [done|].
    destruct Hd as [?|[?|Hd]]; auto. right; right. by rewrite lookup_delete_None; right.
Qed.

Lemma batch_lookup q b p : qinv q b p -> forall a, a ∈ b -> is_Some (heap q !! a).
Proof. intros Hq a Ha. destruct (qi_batch _ _ _ Hq) as [_ Hb]. destruct (Hb a Ha) as (t & -> & _). eauto. Qed.

Lemma phase_ok_keeps q q' p :
  phase_ok q p -> (forall a, a ∈ batch p -> is_Some (heap q !! a)) ->
  (forall a, a ∈ batch p -> keeps a q q') -> phase_ok q' p.
Proof.
  destruct p as [|e n calling now lat th]; [done|]. intros (H1 & H2 & Hd) Hs Hk. split_and!; try done.
  intros a t Ha Ht. destruct (Hs a Ha) as [ta Hta].
  destruct (kp_heap _ _ _ (Hk a Ha) ta Hta) as (t' & Ht' & _ & _ & E & _).
  rewrite Ht in Ht'. injection Ht' as <-. rewrite E. by eapply Hd.
Qed.

(** The queue after [tryAddTimer], and the task it posted. *)
Lemma tryAdd_cases c cb when iv o q r q' :
  tryAddTimer c cb when iv o q = (r, q') ->
  (q' = q /\ exists e, r = Throw e) \/
  let q1 := mkTimerQueue (heap q ++ [mkTimer when iv o 0 (nextSequence_ q) false true])
              (nextSequence_ q + 1) (timers_ q) (timersById_ q) in
  exists s p, r = Ok (s, p) /\
  ((q' = q1 /\ (p = None \/ p = Some (PostedAdd (length (heap q))))) \/
   (q' = addTimerInLoop (length (heap q)) q1 /\ p = None /\ inLoop c = true)).
Proof.
  unfold tryAddTimer. destruct (addTimer_check cb iv o) as [u|e]; [|intros [= <- <-]; eauto].
  intros H. right. simpl.
  destruct (inLoop c) eqn:Ein; [destruct (negb (phaseRunning c))|destruct (postAnswer c)];
    injection H as <- <-; eexists; eexists; (split; [reflexivity|]); auto.
Qed.

Lemma add_tinv c cb when iv o m q r :
  tinv m -> nextSequence_ (queue m) < i64_max -> tryAddTimer c cb when iv o (queue m) = (r, q) ->
  (inLoop c = true -> user_code (phase m) = true) ->
  tinv (mkMachine q (match r with Ok (_, p) => add_posted p (posted m) | Throw _ => posted m end)
          (phase m) (fired m) (reports m)) /\
  forall a, (a < length (heap (queue m)))%nat -> keeps a (queue m) q /\
    (a ∈ adds (match r with Ok (_, p) => add_posted p (posted m) | Throw _ => posted m end) ->
     a ∈ adds (posted m)).
Proof.
  intros [Hq Hph] Hroom Hadd Huser.
  destruct (tryAdd_cases _ _ _ _ _ _ _ _ Hadd) as [[-> [e ->]]|(s & p & -> & Hc)].
  { split; [by split|]. intros. split; [apply keeps_refl|done]. }
  set (t := mkTimer when iv o 0 (nextSequence_ (queue m)) false true) in *.
  set (q1 := mkTimerQueue (heap (queue m) ++ [t]) _ _ _) in *. set (n := length (heap (queue m))) in *.
  assert (forall a, (a < n)%nat -> keeps a (queue m) q1) as Hk1.
  { intros a Ha. split; simpl; [done| |done]. intros ta Hta. exists ta. split; [by apply lookup_app_l_Some|]. auto. }
  assert (forall a, a ∈ batch (phase m) -> (a < n)%nat) as Hbn.
  { intros a Ha. destruct (batch_lookup _ _ _ Hq a Ha) as [tb Htb]. by eapply lookup_lt_Some. }
  assert (forall a, (a < n)%nat -> keeps a (queue m) q) as Hk.
  { destruct Hc as [[-> _]|(-> & _)]; [done|]. intros a Ha. destruct (Hk1 a Ha) as [Km1 Kh1 Ki1].
    assert (qinv q1 (batch (phase m)) (adds (posted m))) as Hq1 by (eapply alloc_qinv; [exact Hq|done|done|by left]).
    destruct (keeps_insert q1 _ _ n a Hq1 ltac:(lia)) as [Km2 Kh2 Ki2].
    { intros k Hk. destruct (qi_entry _ _ _ Hq _ _ Hk) as (t' & Ht' & _). apply lookup_lt_Some in Ht'. lia. }
    split.
    - intros k Hk. by apply Km1, Km2.
    - intros ta Hta. destruct (Kh1 ta Hta) as (tb & Htb & E1 & E2 & E3 & E4).
      destruct (Kh2 tb Htb) as (tc & Htc & F1 & F2 & F3 & F4). exists tc.
      split_and!; [exact Htc|congruence|congruence|congruence|auto].
    - intros ta Hta Hn'. destruct (Kh1 ta Hta) as (tb & Htb & E1 & _). rewrite <- E1 in *.
      apply (Ki2 tb Htb). exact Hn'. }
  split; [split; simpl|intros a Ha; split; [by apply Hk|]].
  - destruct Hc as [[-> Hp]|(-> & -> & Hin)].
    { eapply alloc_qinv; [exact Hq|done|done|]. destruct Hp as [-> | ->]; [by left|right]. simpl. by rewrite adds_app. }
    assert (qinv q1 (batch (phase m)) (adds (posted m))) as Hq1 by (eapply alloc_qinv; [exact Hq|done|done|by left]).
    destruct (qi_batch _ _ _ Hq) as [Hnb _]. destruct (qi_posted _ _ _ Hq) as [Hnp Hpo].
    apply (insert_qinv q1 (batch (phase m)) (adds (posted m)) _ _ n t); try done; auto.
    + simpl. unfold n. by apply list_lookup_middle.
    + intros k Hk'. destruct (qi_entry _ _ _ Hq _ _ Hk') as (t' & Ht' & _). apply lookup_lt_Some in Ht'. lia.
    + intros Hx%Hbn. lia.
    + intros Hx. destruct (Hpo n Hx) as (? & _). lia.
  - apply (phase_ok_keeps (queue m)); [done|apply (batch_lookup _ _ _ Hq)|auto].
  - destruct Hc as [[_ [-> | ->]]|(_ & -> & _)]; [done| |done]. simpl. rewrite adds_app.
    intros [?|Hx]%elem_of_app; [done|]. apply list_elem_of_singleton in Hx. lia.
Qed.

Lemma keeps_flags a x f q :
  (forall t, sequence (f t) = sequence t /\ interval (f t) = interval t /\ expiration (f t) = expiration t /\
     (canceled t = true -> canceled (f t) = true)) -> keeps a q (alter_timer f x q).
Proof.
  intros Hf. split; simpl; [done| |done]. intros t Ht. rewrite list_lookup_alter.
  case_decide; [subst x; rewrite Ht; simpl|eauto 7]. destruct (Hf t) as (? & ? & ? & ?). eauto 7.
Qed.

(** A step that calls no timer. *)
Definition quiet (m m' : Machine) : Prop :=
  tinv m' /\ fired m' = fired m /\ forall a, dead a m -> dead a m'.

Lemma dead_lt a m : dead a m -> (a < length (heap (queue m)))%nat.
Proof. intros [_ _ (t & Ht & _)]. by eapply lookup_lt_Some. Qed.

Lemma add_quiet c cb when iv o m m' : tinv m -> step (LAdd c cb when iv o) m = Some m' -> quiet m m'.
Proof.
  intros Hinv Hst. simpl in Hst. destruct (_ || _) eqn:E; [done|]. apply orb_false_iff in E as [Eu Er]. zify_bools.
  destruct (tryAddTimer c cb when iv o (queue m)) as [r q] eqn:Ha.
  destruct (add_tinv c cb when iv o m q r Hinv ltac:(lia) Ha) as [Hi Hk].
  { intros Hin. rewrite Hin in Eu. destruct Eu as [Eu|Eu]; [done|]. by apply negb_false_iff in Eu. }
  assert (m' = mkMachine q (match r with Ok (_, p) => add_posted p (posted m) | Throw _ => posted m end)
    (phase m) (fired m) (reports m)) as -> by (destruct r as [[s p]|]; by simplify_eq).
  split_and!; [done|done|]. intros a Hd. destruct (Hk a (dead_lt a m Hd)). by eapply dead_keeps.
Qed.

Lemma cancel_quiet c id m m' : tinv m -> step (LCancel c id) m = Some m' -> quiet m m'.
Proof.
  intros [Hq Hph] Hst. simpl in Hst. destruct (_ && _) eqn:E; [done|].
  assert (exists q p, m' = mkMachine q (add_posted p (posted m)) (phase m) (fired m) (reports m) /\
    (q = queue m \/ q = cancelInLoop id (queue m)) /\ adds (add_posted p (posted m)) = adds (posted m))
    as (q & p & -> & Hqq & Ep).
  { unfold tryCancel in Hst. repeat case_match; simplify_eq; do 2 eexists; (split; [done|]);
      (split; [auto|]); simpl; rewrite ?adds_app, ?app_nil_r; done. }
  assert (forall a, keeps a (queue m) q) as Hk
    by (intros; destruct Hqq as [-> | ->]; [apply keeps_refl|apply keeps_cancel]).
  split_and!; [|done|].
  - split; simpl; rewrite ?Ep; [by destruct Hqq as [-> | ->]; [|apply cancel_qinv]|].
    apply (phase_ok_keeps (queue m)); [done|by eapply batch_lookup|auto].
  - intros a Hd. eapply dead_keeps; [done|done|by rewrite Ep|done].
Qed.

Lemma posted_quiet m m' : tinv m -> step LPosted m = Some m' -> quiet m m'.
Proof.
  intros [Hq Hph] Hst. simpl in Hst. destruct (phase m) eqn:Ep; [|done].
  destruct (posted m) as [|[x|id] rest] eqn:Eq; [done|..]; injection Hst as <-; simpl in Hq.
  - destruct (qi_posted _ _ _ Hq) as [Hnp Hpo]. destruct (Hpo x) as (Hx & _ & Hnx); [constructor|].
    apply lookup_lt_is_Some in Hx as [t Ht].
    assert (forall k, (k, x) ∉ timers_ (queue m)) as Hnq.
    { intros k Hk. by apply (Hnx (Z.of_nat x + 1)), (in_queue_indexed _ _ _ k _ Hq). }
    apply NoDup_cons in Hnp as [Hxr Hnp]. split_and!; [|done|].
    + split; [|done]. simpl. apply (insert_qinv _ [] (x :: adds rest) [] (adds rest) x t); try done; auto.
      * apply not_elem_of_nil.
      * constructor.
      * intros. by constructor.
    + intros a Hd. eapply dead_keeps; [done| | |by rewrite Ep].
      * eapply keeps_insert; [done| |done]. intros ->. destruct Hd as [_ Hp _]. apply Hp. rewrite Eq. constructor.
      * rewrite Eq. intros. by constructor.
  - split_and!; [|done|].
    + split; [|done]. simpl. by apply cancel_qinv.
    + intros a Hd. eapply dead_keeps; [done|apply keeps_cancel|by rewrite Eq|by rewrite Ep].
Qed.

Lemma expire_quiet now maxCount m m' :
  0 <= maxCount -> tinv m -> step (LExpire now maxCount) m = Some m' -> quiet m m'.
Proof.
  intros Hm [Hq Hph] Hst. simpl in Hst. destruct (phase m) eqn:Ep; [|done]. simpl in Hq.
  assert (quiet m (mkMachine (queue m) (posted m) Idle (fired m) (reports m ++ [no_expired]))) as Hnone.
  { split_and!; [by split|done|]. intros a Hd. eapply dead_keeps; [done|apply keeps_refl|done|by rewrite Ep]. }
  destruct (first_expiration (queue m)) as [e|]; [|by simplify_eq].
  destruct (now <? e); [by simplify_eq|].
  destruct (getExpired now maxCount (queue m)) as [ex q] eqn:Hg. injection Hst as <-.
  destruct (getExpired_qinv _ _ _ _ _ _ Hm Hq Hg) as (Hq' & _ & Hex & _ & Hsub & Hh & Hi).
  split_and!; [|done|].
  - split; simpl; [done|]. split_and!; [lia|done|]. intros a t Ha Ht. destruct (Hex a Ha) as (t' & Ht' & ? & _).
    by simplify_eq.
  - intros a [Hmap Hp (t & Ht & Hr & Hb)].
    assert (a ∉ ex) as Hna.
    { intros Ha. destruct (Hex a Ha) as (_ & _ & _ & _ & k & Hk). by apply (Hmap k). }
    split; simpl; [|done|].
    + intros k Hk. by apply (Hmap k), Hsub.
    + exists t. rewrite Hh, lookup_foldr_alter by done. rewrite bool_decide_false by done.
      split_and!; [done|by rewrite Hi|]. intros i Hx. destruct Hna. by eapply list_elem_of_lookup_2.
Qed.

Lemma return_quiet ok m m' : tinv m -> step (LReturn ok) m = Some m' -> quiet m m'.
Proof.
  intros [Hq Hph] Hst. simpl in Hst. destruct (phase m) as [|e n [] now lat th] eqn:Ep; try done.
  destruct (e !! n) as [x|] eqn:Ex; [|done]. injection Hst as <-. simpl in Hq.
  destruct Hph as (Hn & Hn' & Hd). specialize (Hn' eq_refl).
  assert (forall k, (k, x) ∉ timers_ (queue m)) as Hnx.
  { intros k Hk. destruct (qi_entry _ _ _ Hq _ _ Hk) as (t & Ht & _ & Hiq & _).
    destruct (qi_batch _ _ _ Hq) as [_ Hb]. destruct (Hb x) as (t' & Ht' & ?); [by eapply list_elem_of_lookup_2|].
    congruence. }
  set (q := alter_timer (fun t => set_flags true (inQueue t) t) x (queue m)).
  assert (qinv q e (adds (posted m))) as Hqq by (by apply alter_qinv).
  assert (forall a, keeps a (queue m) q) as Hk by (intros; by apply keeps_flags).
  assert (forall a i th', e !! i = Some a -> batch (phase m) !! i = Some a /\
    (reached_in (phase m) i -> reached_in (Batch e (S n) false now lat th') i)) as Hre.
  { intros a i th' Hi. rewrite Ep. split; [done|]. simpl. lia. }
  destruct ok; (split_and!; [|done|]).
  - split; simpl; [done|]. split_and!; [lia|done|done].
  - intros a Hd'. eapply dead_keeps; [done|apply keeps_refl|done|]. intros i Hi. by apply Hre.
  - split; simpl; [done|].
    assert (phase_ok q (Batch e n true now lat th)) as (_ & _ & Hdue).
    { apply (phase_ok_keeps (queue m)); [done|by eapply batch_lookup|auto]. }
    split_and!; [lia|done|done].
  - intros a Hd'. eapply dead_keeps; [done|apply Hk|done|]. intros i Hi. by apply Hre.
Qed.

Lemma reset_quiet now later m m' : tinv m -> step (LReset now later) m = Some m' -> quiet m m'.
Proof.
  intros [Hq Hph] Hst. simpl in Hst. destruct (phase m) as [|e n [] now' lat th] eqn:Ep; try done. simpl in Hq.
  destruct (length e <=? n)%nat; [|done]. destruct (reset now e (queue m)) as [q|] eqn:Hr; [|done].
  injection Hst as <-. split_and!; [|done|].
  - split; simpl; [|done]. by eapply reset_qinv.
  - intros a [Hm Hp (t & Ht & Hd & _)].
    destruct (reset_keeps _ _ _ _ _ _ _ Hq Hr Ht Hm Hd) as (Hm' & t' & Ht' & Hd').
    split; simpl; [done|done|]. exists t'. split_and!; [done|done|]. intros i Hi. by rewrite lookup_nil in Hi.
Qed.

(** A label with the sizes the source passes. *)
Definition label_ok (lb : Label) : Prop := match lb with LExpire _ n => 0 <= n | _ => True end.

(** Every step keeps the invariant, leaves dead timers dead, and calls none. *)
Lemma timer_step_ok lb m m' :
  label_ok lb -> tinv m -> step lb m = Some m' ->
  tinv m' /\ exists new, fired m' = fired m ++ new /\
    (forall a, dead a m -> dead a m' /\ (Z.of_nat a + 1 ∉ new)) /\
    (new = [] \/ exists a t e n now lat th, new = [sequence t] /\ e !! n = Some a /\
       phase m = Batch e n false now lat th /\ phase m' = Batch e n true now lat th /\ queue m' = queue m /\
       posted m' = posted m /\ heap (queue m) !! a = Some t /\ canceled t = false /\ expiration t <= now).
Proof.
  intros Hlb Hinv Hst.
  assert (quiet m m' -> tinv m' /\ exists new, fired m' = fired m ++ new /\
    (forall a, dead a m -> dead a m' /\ (Z.of_nat a + 1 ∉ new)) /\
    (new = [] \/ exists a t e n now lat th, new = [sequence t] /\ e !! n = Some a /\
       phase m = Batch e n false now lat th /\ phase m' = Batch e n true now lat th /\ queue m' = queue m /\
       posted m' = posted m /\ heap (queue m) !! a = Some t /\ canceled t = false /\ expiration t <= now)) as Hquiet.
  { intros (Hi & Hf & Hd). split; [done|]. exists []. rewrite app_nil_r. split_and!; [done| |by left].
    intros a Ha. split; [auto|apply not_elem_of_nil]. }
  destruct lb.
  - apply Hquiet. by eapply add_quiet.
  - apply Hquiet. by eapply cancel_quiet.
  - apply Hquiet. by eapply posted_quiet.
  - apply Hquiet. by eapply expire_quiet.
  - pose proof Hinv as [Hq Hph]. simpl in Hst.
    destruct (phase m) as [|e n [] now lat th] eqn:Ep; try done. simpl in Hq.
    destruct (e !! n) as [a|] eqn:Ea; [|done]. destruct (heap (queue m) !! a) as [t|] eqn:Ht; [|done].
    pose proof (lookup_lt_Some _ _ _ Ea) as Hlt. destruct Hph as (Hn & _ & Hdue).
    pose proof (Hdue a t (list_elem_of_lookup_2 _ _ _ Ea) Ht) as Hexp.
    pose proof (qi_sequence _ _ _ Hq a t Ht) as Hsq.
    destruct (canceled t) eqn:Hc; injection Hst as <-.
    + apply Hquiet. split_and!; [|done|].
      * split; simpl; [done|]. split_and!; [lia|done|done].
      * intros x Hd. eapply dead_keeps; [done|apply keeps_refl|done|]. intros i Hi. rewrite Ep. split; [done|].
        simpl. lia.
    + split; [split; simpl; [done|split_and!; [lia|done|done]]|]. exists [sequence t]. split_and!; [done| |].
      * intros x Hd. split.
        -- eapply dead_keeps; [done|apply keeps_refl|done|]. intros i Hi. rewrite Ep. split; [done|]. simpl. lia.
        -- intros Hin%list_elem_of_singleton. assert (x = a) as -> by lia.
           destruct Hd as [_ _ (t' & Ht' & _ & Hb)]. rewrite Ep in Hb. simpl in Hb.
           destruct (Hb n Ea) as [[?|[_ ?]]|?]; [lia|done|]. congruence.
      * right. exists a, t, e, n, now, lat, th. done.
  - apply Hquiet. by eapply return_quiet.
  - apply Hquiet. by eapply reset_quiet.
Qed.

Lemma initial_tinv : tinv initial.
Proof.
  split; simpl; [|done]. split; simpl; try done.
  - constructor.
  - intros k a H. by apply elem_of_nil in H.
  - split; [constructor|]. intros a H. by apply elem_of_nil in H.
  - split; [constructor|]. intros a H. by apply elem_of_nil in H.
Qed.

Lemma steps_tinv lbs m m' : Forall label_ok lbs -> tinv m -> steps lbs m = Some m' -> tinv m'.
Proof.
  intros Hl. revert m. induction Hl as [|lb lbs Hlb _ IH]; intros m Hinv Hs; simpl in Hs; [by simplify_eq|].
  destruct (step lb m) as [m1|] eqn:E; [|done]. eapply IH; [|done]. by destruct (timer_step_ok lb m m1 Hlb Hinv E).
Qed.

(** Dead timers stay dead and are not called again. *)
Lemma steps_dead lbs m m' a :
  Forall label_ok lbs -> tinv m -> dead a m -> steps lbs m = Some m' ->
  exists new, fired m' = fired m ++ new /\ (Z.of_nat a + 1 ∉ new).
Proof.
  intros Hl. revert m. induction Hl as [|lb lbs Hlb _ IH]; intros m Hinv Hd Hs; simpl in Hs.
  { simplify_eq. exists []. rewrite app_nil_r. split; [done|apply not_elem_of_nil]. }
  destruct (step lb m) as [m1|] eqn:E; [|done].
  destruct (timer_step_ok lb m m1 Hlb Hinv E) as (Hinv1 & new & Hf & Hdead & _).
  destruct (Hdead a Hd) as [Hd1 Hn]. destruct (IH m1 Hinv1 Hd1 Hs) as (new' & Hf' & Hn').
  exists (new ++ new'). rewrite Hf', Hf, app_assoc. split; [done|]. rewrite elem_of_app. tauto.
Qed.

(** A timer just cancelled is dead. *)
Lemma cancel_dead m id a :
  tinv m -> timersById_ (queue m) !! id = Some a ->
  id = Z.of_nat a + 1 /\
  forall posted' phase' fired' reports', adds posted' = adds (posted m) -> phase' = phase m ->
    dead a (mkMachine (cancelInLoop id (queue m)) posted' phase' fired' reports').
Proof.
  intros [Hq Hph] Hid. destruct (qi_index _ _ _ Hq _ _ Hid) as (t & Ht & Hs & Hc).
  pose proof (qi_sequence _ _ _ Hq _ _ Ht) as Hsq. split; [lia|]. intros posted' phase' fired' reports' Hp ->.
  assert (a ∉ adds (posted m)) as Hna.
  { intros Ha. destruct (qi_posted _ _ _ Hq) as [_ Hpo]. destruct (Hpo a Ha) as (_ & _ & Hx). by apply (Hx id). }
  unfold cancelInLoop. rewrite Hid, Ht. destruct Hc as [[Hiq Hin]|[Hiq Hin]]; rewrite Hiq; (split; simpl; [|by rewrite Hp|]).
  - intros k [Hne Hk]%erase_key_elem. destruct (qi_entry _ _ _ Hq _ _ Hk) as (t' & Ht' & Ek & _). simpl in Hne. congruence.
  - eexists. rewrite list_lookup_alter_eq, Ht. split; [done|]. split; [by right; left|]. intros. by right.
  - intros k Hk. destruct (qi_entry _ _ _ Hq _ _ Hk) as (t' & Ht' & _ & Hiq' & _). congruence.
  - eexists. rewrite list_lookup_alter_eq, Ht. split; [done|]. split; [by right; left|]. intros. by right.
Qed.

(** *** One-shot timers *)

Definition count_fired (a : nat) (m : Machine) : nat := length (filter (fun s => s = Z.of_nat a + 1) (fired m)).

Definition one_shot_ok (m : Machine) : Prop :=
  forall a t, heap (queue m) !! a = Some t -> interval t = 0 ->
    (count_fired a m <= 1)%nat /\ (count_fired a m = 1%nat -> dead a m).

(** A timer keeps its interval and stays allocated. *)
Definition later (q q' : TimerQueue) : Prop :=
  forall a t, heap q' !! a = Some t -> interval t = 0 ->
    (exists t0, heap q !! a = Some t0 /\ interval t0 = 0) \/ (length (heap q) <= a)%nat.

Lemma later_insert q x : later q (snd (insert x q)).
Proof.
  intros a t. unfold insert. destruct (heap q !! x) as [tx|] eqn:Ex; simpl; [|eauto].
  rewrite list_lookup_alter. case_decide; [subst x; rewrite Ex; intros [= <-]; simpl; eauto|eauto].
Qed.

Lemma later_alter q x f : (forall t, interval (f t) = interval t) -> later q (alter_timer f x q).
Proof.
  intros Hf a t. simpl. rewrite list_lookup_alter.
  case_decide; [subst x|by eauto]. destruct (heap q !! a) as [t0|] eqn:E; [|done]. intros [= <-].
  rewrite Hf. eauto.
Qed.

Lemma later_trans q q1 q2 : (length (heap q) <= length (heap q1))%nat -> later q q1 -> later q1 q2 -> later q q2.
Proof.
  intros Hl H1 H2 a t Ht Hi. destruct (H2 a t Ht Hi) as [(t1 & Ht1 & Hi1)|?]; [eauto|right; lia].
Qed.

Lemma length_insert x q : length (heap (snd (insert x q))) = length (heap q).
Proof. unfold insert. destruct (heap q !! x); simpl; by rewrite ?length_alter. Qed.

Lemma later_cancel q id : later q (cancelInLoop id q).
Proof.
  unfold cancelInLoop. destruct (timersById_ q !! id) as [x|]; [|by intros a t; eauto].
  destruct (heap q !! x) as [tx|]; [|by intros a t; eauto].
  destruct (inQueue tx); [exact (later_alter q x (set_flags true false) ltac:(done))|].
  exact (later_alter q x (set_flags true _) ltac:(done)).
Qed.

Lemma later_reset now e : forall q q', reset now e q = Ok q' -> later q q' /\ length (heap q') = length (heap q).
Proof.
  induction e as [|x e IH]; intros q q' Hr; simpl in Hr; [simplify_eq; split; [by intros a t; eauto|done]|].
  destruct (reset_one now x q) as [q1|] eqn:E1; [|done]. destruct (IH _ _ Hr) as [Hl2 Hlen2].
  assert (later q q1 /\ length (heap q1) = length (heap q)) as [Hl1 Hlen1].
  { unfold reset_one in E1. destruct (heap q !! x) as [tx|]; [|done]. destruct (repeats tx && _ && _).
    - match type of E1 with match ?y with _ => _ end = _ => destruct y as [[ex n]|]; [|done] end.
      injection E1 as <-. rewrite length_insert. simpl. rewrite length_alter. split; [|done].
      eapply later_trans; [|apply (later_alter q x (set_expiration ex n)); done|apply later_insert].
      simpl. by rewrite length_alter.
    - injection E1 as <-. split; [by intros a t; eauto|done]. }
  split; [|lia]. eapply later_trans; [|done|done]. lia.
Qed.

Lemma later_step lb m m' : step lb m = Some m' -> later (queue m) (queue m').
Proof.
  assert (forall q, later q q) as Hrefl by (intros q a t; eauto).
  intros Hst. destruct lb as [c cb when iv o|c id| |now n| |ok|now lt]; simpl in Hst.
  - destruct (_ || _); [done|]. destruct (tryAddTimer c cb when iv o (queue m)) as [r q] eqn:Ha.
    assert (queue m' = q) as -> by (destruct r as [[s p]|]; by simplify_eq).
    destruct (tryAdd_cases _ _ _ _ _ _ _ _ Ha) as [[-> _]|(s & p & _ & Hc)]; [done|].
    set (q1 := mkTimerQueue _ _ _ _) in Hc.
    assert (later (queue m) q1) as Hl1.
    { intros a t. simpl. destruct (decide (a < length (heap (queue m)))%nat); [|right; lia].
      rewrite lookup_app_l by done. eauto. }
    destruct Hc as [[-> _]|(-> & _)]; [done|]. eapply later_trans; [|exact Hl1|apply later_insert].
    simpl. rewrite length_app. lia.
  - destruct (_ && _); [done|]. unfold tryCancel in Hst.
    repeat case_match; simplify_eq; simpl; (apply later_cancel || apply Hrefl).
  - destruct (phase m); [|done]. destruct (posted m) as [|[x|id] rest]; [done|..]; simplify_eq; simpl;
      [apply later_insert|apply later_cancel].
  - destruct (phase m); [|done]. destruct (first_expiration (queue m)); [|by simplify_eq].
    destruct (now <? z); [by simplify_eq|]. destruct (getExpired now n (queue m)) as [e q] eqn:Hg. simplify_eq.
    simpl. unfold getExpired in Hg. destruct (split_due _ _ _) as [e' rest]. simplify_eq. intros a t. simpl.
    rewrite lookup_foldr_alter by done. case_bool_decide; [|eauto].
    destruct (heap (queue m) !! a) as [t0|]; [|done]. intros [= <-]. simpl. eauto.
  - repeat case_match; simplify_eq; done.
  - repeat case_match; simplify_eq; simpl; (done || by apply later_alter).
  - destruct (phase m) as [|e k [] nw lat th]; try done. destruct (_ <=? _)%nat; [|done].
    destruct (reset now e (queue m)) as [q|] eqn:Hr; [|done]. simplify_eq. simpl. by eapply later_reset.
Qed.

Definition fired_known (m : Machine) : Prop :=
  forall a, Z.of_nat a + 1 ∈ fired m -> (a < length (heap (queue m)))%nat.

Lemma count_fired_app a m m' new :
  fired m' = fired m ++ new ->
  count_fired a m' = (count_fired a m + length (filter (fun s => (s = Z.of_nat a + 1)%Z) new))%nat.
Proof. intros E. unfold count_fired. by rewrite E, list.filter_app, length_app. Qed.

Lemma heap_grows lb m m' : step lb m = Some m' -> (length (heap (queue m)) <= length (heap (queue m')))%nat.
Proof.
  intros Hst. destruct lb as [c cb when iv o|c id| |now n| |ok|now lt]; simpl in Hst.
  - destruct (_ || _); [done|]. destruct (tryAddTimer c cb when iv o (queue m)) as [r q] eqn:Ha.
    assert (queue m' = q) as -> by (destruct r as [[s p]|]; by simplify_eq).
    destruct (tryAdd_cases _ _ _ _ _ _ _ _ Ha) as [[-> _]|(s & p & _ & [[-> _]|(-> & _)])]; [done| |];
      unfold addTimerInLoop; rewrite ?length_insert; simpl; rewrite length_app; lia.
  - destruct (_ && _); [done|]. unfold tryCancel, cancelInLoop in Hst.
    repeat case_match; simplify_eq; simpl; rewrite ?length_alter; done.
  - destruct (phase m); [|done]. destruct (posted m) as [|[x|id] rest]; [done|..]; simplify_eq; simpl.
    + unfold addTimerInLoop. by rewrite length_insert.
    + unfold cancelInLoop. repeat case_match; simpl; by rewrite ?length_alter.
  - destruct (phase m); [|done]. destruct (first_expiration (queue m)); [|by simplify_eq].
    destruct (now <? z); [by simplify_eq|]. unfold getExpired in Hst. destruct (split_due _ _ _). simplify_eq.
    simpl. by rewrite length_foldr_alter.
  - repeat case_match; simplify_eq; done.
  - repeat case_match; simplify_eq; simpl; by rewrite ?length_alter.
  - destruct (phase m) as [|e k [] nw lat th]; try done. destruct (_ <=? _)%nat; [|done].
    destruct (reset now e (queue m)) as [q|] eqn:Hr; [|done]. simplify_eq. simpl.
    destruct (later_reset _ _ _ _ Hr) as [_ ->]. done.
Qed.

Lemma step_one_shot lb m m' :
  label_ok lb -> tinv m -> fired_known m -> one_shot_ok m -> step lb m = Some m' ->
  fired_known m' /\ one_shot_ok m'.
Proof.
  intros Hlb Hinv Hk Hos Hst. destruct (timer_step_ok lb m m' Hlb Hinv Hst) as (Hinv' & new & Hf & Hdead & Hnew).
  pose proof (heap_grows lb m m' Hst) as Hgrow. pose proof (later_step lb m m' Hst) as Hlater.
  split.
  { intros a. rewrite Hf, elem_of_app. intros [?|Hin]; [specialize (Hk a ltac:(done)); lia|].
    destruct Hnew as [->|(x & t & e & n & now & lat & th & -> & _ & _ & _ & _ & _ & Ht & _)];
      [by apply elem_of_nil in Hin|]. apply list_elem_of_singleton in Hin.
    rewrite (qi_sequence _ _ _ (tm_queue _ Hinv) _ _ Ht) in Hin. apply lookup_lt_Some in Ht. lia. }
  intros a t Ht Hi. rewrite (count_fired_app a m m' new Hf).
  assert ((count_fired a m <= 1)%nat /\ (count_fired a m = 1%nat -> dead a m)) as [Hc Hd].
  { destruct (Hlater a t Ht Hi) as [(t0 & Ht0 & Hi0)|Hge]; [by eapply Hos|].
    assert (count_fired a m = 0%nat) as ->; [|split; [lia|done]].
    unfold count_fired. rewrite filter_none; [done|]. intros s Hs ->. specialize (Hk a Hs). lia. }
  destruct Hnew as [->|(x & tx & e & n & now & lat & th & -> & Hx & Ep & Ep' & Eq & Epo & Htx & Hcx & _)].
  { simpl. rewrite Nat.add_0_r. split; [done|]. intros E. by destruct (Hdead a (Hd E)). }
  pose proof (qi_sequence _ _ _ (tm_queue _ Hinv) _ _ Htx) as Hsx. rewrite filter_cons, filter_nil.
  case_decide as Ea; simpl.
  2: { rewrite Nat.add_0_r. split; [done|]. intros E. by destruct (Hdead a (Hd E)). }
  assert (x = a) as -> by lia.
  assert (count_fired a m = 0%nat) as ->.
  { destruct (count_fired a m) as [|[|]] eqn:E; [done| |lia]. destruct (Hdead a (Hd eq_refl)) as [_ Hni].
    destruct Hni. rewrite Hsx. by apply list_elem_of_singleton. }
  split; [done|]. intros _. destruct (tm_queue _ Hinv') as [_ _ _ He _ [Hnd Hba] [_ Hpo]].
  rewrite Ep' in Hnd, Hba, Hpo. simpl in *.
  assert (a ∈ e) as Hae by by eapply list_elem_of_lookup_2.
  destruct (Hba a Hae) as (t' & Ht' & Hiq). split.
  - intros k Hk'. destruct (He _ _ Hk') as (t2 & Ht2 & _ & Hiq2 & _). congruence.
  - intros Hp. by destruct (Hpo a Hp) as (_ & Hnb & _).
  - exists t. split; [done|]. split; [left; unfold repeats; by rewrite Hi|]. intros i. rewrite Ep'. simpl. intros Hie.
    left. right. split; [|done]. by eapply NoDup_lookup.
Qed.

(** ** Properties *)

(** For every run of the loop thread, callbacks adding and cancelling timers
    included: the ordered map is strictly sorted by deadline and sequence; the
    map and the id index agree with each other and with the timers' flags, so
    that every indexed timer is in the map or in the batch being run; ids are
    unique; the batch holds distinct timers taken out of the map and due at the
    time of the batch, and timers waiting to be added are in neither. *)
Theorem timer_queue_coherent lbs m :
  Forall label_ok lbs -> steps lbs initial = Some m ->
  qinv (queue m) (batch (phase m)) (adds (posted m)) /\ phase_ok (queue m) (phase m).
Proof. intros Hl Hs. by destruct (steps_tinv lbs initial m Hl initial_tinv Hs). Qed.

(** C19. A callback runs only for a timer that is due and not marked cancelled.
    Once the cancellation of a registered timer takes effect -- at once on the
    loop thread while the loop is running, before or inside the timer's own
    batch or callback, or when the task another thread posted runs -- it never
    runs again; and a one-shot timer runs at most once.  A cancellation that
    takes effect while the timer still waits in the posted tasks is outside
    this: the code ignores it ([early_cancel_is_ignored]). *)
Theorem timers_fire_as_promised lbs m :
  Forall label_ok lbs -> steps lbs initial = Some m ->
  (forall lb m', label_ok lb -> step lb m = Some m' -> fired m' = fired m \/
     exists a t e n now lat th, fired m' = fired m ++ [sequence t] /\ phase m = Batch e n false now lat th /\
       e !! n = Some a /\ heap (queue m) !! a = Some t /\ canceled t = false /\ expiration t <= now) /\
  (forall id a c m1 lbs' m', timersById_ (queue m) !! id = Some a -> inLoop c = true -> phaseRunning c = true ->
     step (LCancel c id) m = Some m1 -> Forall label_ok lbs' -> steps lbs' m1 = Some m' ->
     exists new, fired m' = fired m ++ new /\ (id ∉ new)) /\
  (forall id a rest m1 lbs' m', posted m = PostedCancel id :: rest -> timersById_ (queue m) !! id = Some a ->
     step LPosted m = Some m1 -> Forall label_ok lbs' -> steps lbs' m1 = Some m' ->
     exists new, fired m' = fired m ++ new /\ (id ∉ new)) /\
  (forall a t, heap (queue m) !! a = Some t -> interval t = 0 -> (count_fired a m <= 1)%nat).
Proof.
  intros Hl Hs. pose proof (steps_tinv lbs initial m Hl initial_tinv Hs) as Hinv. split_and!.
  - intros lb m' Hlb Hst. destruct (timer_step_ok lb m m' Hlb Hinv Hst) as (_ & new & Hf & _ & Hn).
    destruct Hn as [->|(a & t & e & n & now & lat & th & -> & Ha & Hp & _ & _ & _ & Ht & Hc & Hx)].
    + left. by rewrite Hf, app_nil_r.
    + right. exists a, t, e, n, now, lat, th. done.
  - intros id a c m1 lbs' m' Hid Hin Hrun Hst Hl' Hs'. destruct (cancel_dead m id a Hinv Hid) as [Eid Hd].
    assert (tinv m1) as Hinv1 by (by destruct (cancel_quiet c id m m1 Hinv Hst)).
    simpl in Hst. rewrite Hin in Hst. destruct (user_code (phase m)); [|done]. simpl in Hst.
    unfold tryCancel in Hst. rewrite Hin, Hrun in Hst. rewrite (proj2 (Z.eqb_neq id 0)) in Hst by lia.
    simpl in Hst. injection Hst as <-. rewrite Eid.
    apply (steps_dead lbs' _ m' a Hl' Hinv1); [|done]. by apply Hd.
  - intros id a rest m1 lbs' m' Hp Hid Hst Hl' Hs'. destruct (cancel_dead m id a Hinv Hid) as [-> Hd].
    destruct (posted_quiet m m1 Hinv Hst) as (Hinv1 & Hf1 & _). rewrite <- Hf1.
    simpl in Hst. rewrite Hp in Hst. destruct (phase m) eqn:Ep; [|done]. injection Hst as <-.
    apply (steps_dead lbs' _ m' a Hl' Hinv1); [|done]. apply Hd; [by rewrite Hp|done].
  - assert (forall m0 m1, tinv m0 -> fired_known m0 -> one_shot_ok m0 -> steps lbs m0 = Some m1 -> one_shot_ok m1) as H.
    { clear -Hl. induction Hl as [|lb lbs Hlb _ IH]; intros m0 m1 Hi Hk Ho Hs; simpl in Hs; [by simplify_eq|].
      destruct (step lb m0) as [m2|] eqn:E; [|done]. destruct (step_one_shot lb m0 m2 Hlb Hi Hk Ho E).
      eapply IH; [|done..]. by destruct (timer_step_ok lb m0 m2 Hlb Hi E). }
    intros a t Ht Hi. destruct (H initial m initial_tinv) with (a := a) (t := t) as [? _]; try done.
    intros x Hx. by apply elem_of_nil in Hx.
Qed.

(** [nextFixedRateExpiration] keeps a fixed-rate timer on its cadence: the
    next expiration is a later cadence point, in the future unless it is one of
    at most [maxCatchUpCallbacks] consecutive catch-ups; without catch-up it is
    the first cadence point after now, or the last representable time when that
    point is not representable.  No clock arithmetic overflows as long as one
    interval after the previous expiration is representable. *)
Theorem fixed_rate_keeps_cadence prev interval now maxCatchUp catchUp :
  is_time prev -> is_time now -> now < i64_max -> 0 < interval -> prev + interval <= i64_max ->
  0 <= catchUp <= maxCatchUp -> maxCatchUp < usize_lim ->
  exists next n, nextFixedRateExpiration prev interval now maxCatchUp catchUp = Ok (next, n) /\
    0 <= n <= maxCatchUp /\
    (next <= now -> n = catchUp + 1 /\ next = prev + interval) /\
    (now < next -> n = 0 /\ ((exists k, 0 < k /\ next = prev + k * interval /\ (next - interval <= now \/ k = 1)) \/
                             (next = i64_max /\ i64_max < prev + interval * ((now - prev) / interval + 1)))).
Proof.
  unfold is_time. intros Hp Hn Hnm Hi Hov Hc Hm. unfold nextFixedRateExpiration. rewrite i64_ok by lia.
  destruct (Z.ltb_spec now (prev + interval)) as [Hfut|Hpast].
  { exists (prev + interval), 0. split_and!; try done; try lia. intros _. split; [done|]. left. exists 1. lia. }
  destruct (Z.ltb_spec catchUp maxCatchUp) as [Hcu|Hskip].
  { exists (prev + interval), (catchUp + 1). rewrite uwrap_small by lia. split_and!; try done; lia. }
  set (q := (now - (prev + interval)) / interval).
  pose proof (Z.div_mod (now - (prev + interval)) interval ltac:(lia)) as Hdm. fold q in Hdm.
  pose proof (Z.mod_pos_bound (now - (prev + interval)) interval ltac:(lia)) as Hmb.
  assert (0 <= q) as Hq by (apply Z.div_pos; lia).
  rewrite i64_ok by nia. rewrite (proj2 (Z.leb_le _ _)) by nia.
  assert ((now - prev) / interval = q + 1) as Hd.
  { unfold q. replace (now - prev) with (now - (prev + interval) + 1 * interval) by lia.
    by rewrite Z.div_add by lia. }
  destruct (Z.ltb_spec (i64_max - (prev + interval + interval * q)) interval) as [Hsat|Hok].
  - exists i64_max, 0. split_and!; try done; try lia.
  - exists (prev + interval + interval * q + interval), 0. split_and!; try done; try nia.
    intros _. split; [done|]. left. exists (q + 2). split_and!; try nia.
Qed.

(** The poll timeout never exceeds the default; when a timer is the reason
    for a shorter one, waiting that many milliseconds reaches its deadline
    without overshooting it by a millisecond or more, and it is zero exactly
    when that timer is already due. *)
Theorem poll_timeout_reaches_deadline lbs m default now e :
  Forall label_ok lbs -> steps lbs initial = Some m ->
  first_expiration (queue m) = Some e -> 0 <= default <= i32_max ->
  let ms := pollTimeoutMs default now (queue m) in
  0 <= ms <= default /\
  (ms < default -> (ms = 0 <-> e <= now) /\ (now < e -> e - now <= ms * 1000000 < e - now + 1000000)) /\
  forall k a t, (k, a) ∈ timers_ (queue m) -> heap (queue m) !! a = Some t -> e <= expiration t.
Proof.
  intros Hl Hs He Hd ms.
  assert (0 <= ms <= default /\
    (ms < default -> (ms = 0 <-> e <= now) /\ (now < e -> e - now <= ms * 1000000 < e - now + 1000000))) as [H1 H2].
  { unfold ms, pollTimeoutMs, ceilMilliseconds. rewrite He.
    pose proof (Z.div_mod (e - now) 1000000 ltac:(lia)). pose proof (Z.mod_pos_bound (e - now) 1000000 ltac:(lia)).
    destruct (Z.leb_spec (e - now) 0); [lia|].
    destruct (Z.ltb_spec ((e - now) / 1000000 * 1000000) (e - now)); lia. }
  split_and!; [lia|lia|exact H2|].
  pose proof (tm_queue _ (steps_tinv lbs initial m Hl initial_tinv Hs)) as Hq.
  intros k a t Hk Ht. unfold first_expiration in He. pose proof (qi_sorted _ _ _ Hq) as Hso.
  destruct (timers_ (queue m)) as [|[k0 a0] rest] eqn:Er; [done|].
  destruct (heap (queue m) !! a0) as [t0|] eqn:Ht0; [|done]. injection He as <-.
  destruct (qi_entry _ _ _ Hq k0 a0) as (t0' & Ht0' & <- & _); [rewrite Er; constructor|].
  rewrite Ht0 in Ht0'. injection Ht0' as <-.
  destruct (qi_entry _ _ _ Hq k a) as (t' & Ht' & <- & _); [by rewrite Er|].
  rewrite Ht in Ht'. injection Ht' as <-.
  apply elem_of_cons in Hk as [E|Hk]; [injection E as E1 _ _; lia|].
  rewrite fmap_cons in Hso. inversion Hso as [|? ? _ Hf]; subst. rewrite Forall_forall in Hf.
  assert (key_lt (key_of t0) (key_of t)) as Hlt by (apply Hf; by apply (list_elem_of_fmap_2 fst _ (key_of t, a))).
  unfold key_lt, key_ltb in Hlt. simpl in Hlt. apply orb_true_iff in Hlt as [|Hlt]; zify_bools; lia.
Qed.

(** ** Concrete runs *)

Definition demo_caller : Caller := mkCaller true true PostAccepted.
Definition demo_once : RepeatingTimerOptions := mkTimerOptions FixedDelay 0.
Definition demo_rate : RepeatingTimerOptions := mkTimerOptions FixedRate 1.

(** A one-shot at 5 ms, a fixed-rate timer at 3 ms every 2 ms; both are due at
    6 ms.  The second's callback runs first and cancels the first. *)
Definition demo_setup : list Label :=
  [LAdd demo_caller true 5000000 0 demo_once; LAdd demo_caller true 3000000 2000000 demo_rate].
Definition demo_run : list Label :=
  demo_setup ++ [LExpire 6000000 10; LNext].

Definition run_timers (lbs : list Label) : Machine := default initial (steps lbs initial).

Lemma demo_labels_ok : Forall label_ok demo_setup /\ Forall label_ok demo_run.
Proof. split; repeat (constructor; simpl; try done). Qed.

Lemma timer_queue_coherent_witness :
  timers_ (queue (run_timers demo_setup)) = [((3000000, 2), 1%nat); ((5000000, 1), 0%nat)] /\
  qinv (queue (run_timers demo_run)) [1%nat; 0%nat] [].
Proof.
  split; [vm_compute; reflexivity|].
  exact (proj1 (timer_queue_coherent demo_run (run_timers demo_run) (proj2 demo_labels_ok)
    ltac:(vm_compute; reflexivity))).
Defined.

(** The loop thread cancels a timer another thread has posted but the loop has
    not added yet: nothing is cancelled, and the timer fires. *)
Example early_cancel_is_ignored :
  option_map fired (steps
    [LAdd (mkCaller false true PostAccepted) true 5 0 demo_once; LCancel demo_caller 1;
     LPosted; LExpire 6 8; LNext] initial) = Some [1].
Proof. vm_compute. reflexivity. Qed.

Lemma timers_fire_as_promised_witness :
  exists m1 m', step (LCancel demo_caller 1) (run_timers demo_run) = Some m1 /\
    steps [LReturn true; LNext; LReset 6000000 6000000] m1 = Some m' /\
    fired m' = [2] /\ exists new, fired m' = fired (run_timers demo_run) ++ new /\ (1 ∉ new).
Proof.
  destruct (step (LCancel demo_caller 1) (run_timers demo_run)) as [m1|] eqn:E1;
    [|exfalso; vm_compute in E1; discriminate].
  destruct (steps [LReturn true; LNext; LReset 6000000 6000000] m1) as [m'|] eqn:E2;
    [|exfalso; vm_compute in E1; injection E1 as <-; vm_compute in E2; discriminate].
  exists m1, m'. split; [reflexivity|]. split; [exact E2|]. split.
  { vm_compute in E1. injection E1 as <-. vm_compute in E2. injection E2 as <-. reflexivity. }
  refine (proj1 (proj2 (timers_fire_as_promised demo_run (run_timers demo_run) (proj2 demo_labels_ok) _))
    1 0%nat demo_caller m1 [LReturn true; LNext; LReset 6000000 6000000] m' _ eq_refl eq_refl E1 _ E2);
    [vm_compute; reflexivity|vm_compute; reflexivity|repeat (constructor; try exact I)].
Defined.

Lemma fixed_rate_keeps_cadence_witness :
  nextFixedRateExpiration 3 2 10 1 1 = Ok (11, 0) /\
  exists next n, nextFixedRateExpiration 3 2 10 1 1 = Ok (next, n) /\ 0 <= n <= 1.
Proof.
  split; [vm_compute; reflexivity|].
  destruct (fixed_rate_keeps_cadence 3 2 10 1 1) as (next & n & E & Hn & _);
    [unfold is_time; lia|unfold is_time; lia|lia|lia|lia|lia|lia|].
  exists next, n. split; [exact E|exact Hn].
Defined.

Lemma poll_timeout_witness :
  pollTimeoutMs 10000 1 (queue (run_timers demo_setup)) = 3 /\
  0 <= pollTimeoutMs 10000 1 (queue (run_timers demo_setup)) <= 10000.
Proof.
  split; [vm_compute; reflexivity|].
  exact (proj1 (poll_timeout_reaches_deadline demo_setup (run_timers demo_setup) 10000 1 3000000
    (proj1 demo_labels_ok) ltac:(vm_compute; reflexivity) ltac:(vm_compute; reflexivity) ltac:(lia))).
Defined.
