(* ===== verification/ReadinessPort.v ===== *)
(** * The epoll readiness port

    Model of [gamenet::net::detail::EpollReadinessPort]
    (src/core/net/detail/EpollReadinessPort.cc) and of the event bits of
    [Channel] (include/gamenet/core/net/Channel.h): registrations with a
    generation token per descriptor, their mirror in the kernel's interest
    list, and the translation of a batch of native events into notices.

    The kernel is an interface, [EpollKernel]: [epoll_ctl] and the interest list
    it maintains, with the laws of its manual page.  The port is proved against
    the laws; [interest_list] is an instance. *)

From S2P Require Import Prelude.

Local Open Scope Z_scope.

(** ** Events *)

Definition kNoneEvent : Z := 0.
Definition kReadEvent : Z := 1.
Definition kWriteEvent : Z := 2.
Definition kErrorEvent : Z := 4.
Definition kCloseEvent : Z := 8.

Definition EPOLLIN : Z := 1.
Definition EPOLLPRI : Z := 2.
Definition EPOLLOUT : Z := 4.
Definition EPOLLERR : Z := 8.
Definition EPOLLHUP : Z := 16.
Definition EPOLLRDHUP : Z := 8192.

(** [(a & mask) != 0] *)
Definition has_any (a mask : Z) : bool := negb (Z.land a mask =? 0).

Definition toNativeEvents (interests : Z) : Z :=
  let events := 0 in
  let events := if has_any interests kReadEvent
    then Z.lor events (Z.lor (Z.lor EPOLLIN EPOLLPRI) EPOLLRDHUP) else events in
  if has_any interests kWriteEvent then Z.lor events EPOLLOUT else events.

Definition fromNativeEvents (events : Z) : Z :=
  let readiness := 0 in
  let readiness := if has_any events (Z.lor EPOLLIN EPOLLPRI)
    then Z.lor readiness kReadEvent else readiness in
  let readiness := if has_any events EPOLLOUT then Z.lor readiness kWriteEvent else readiness in
  let readiness := if has_any events EPOLLERR then Z.lor readiness kErrorEvent else readiness in
  if has_any events (Z.lor EPOLLHUP EPOLLRDHUP) then Z.lor readiness kCloseEvent else readiness.

(** [(interests & ~kAllowed) == 0], on 32 bits. *)
Definition validInterests (interests : Z) : bool :=
  Z.land interests (u32_max - Z.lor kReadEvent kWriteEvent) =? 0.

(** ** The kernel *)

Inductive EpollOp := EPOLL_CTL_ADD | EPOLL_CTL_MOD | EPOLL_CTL_DEL.

(** An [epoll_event]: the requested events and the user data. *)
Record epoll_event := mkEvent { ev_events : Z; ev_data : Z }.

(** [epoll_ctl] of an epoll instance, for descriptors that are open and with the
    kernel not out of memory or watches; [None] is a failure.  [watched] is the
    interest list. *)
Class EpollKernel (K : Type) := {
  epoll_create1 : K;
  epoll_ctl : EpollOp -> Z -> epoll_event -> K -> option K;
  watched : K -> Z -> option epoll_event;
  epoll_created : forall fd, watched epoll_create1 fd = None;
  epoll_add : forall k fd e, watched k fd = None ->
    exists k', epoll_ctl EPOLL_CTL_ADD fd e k = Some k' /\
      forall fd', watched k' fd' = if decide (fd' = fd) then Some e else watched k fd';
  epoll_mod : forall k fd e e0, watched k fd = Some e0 ->
    exists k', epoll_ctl EPOLL_CTL_MOD fd e k = Some k' /\
      forall fd', watched k' fd' = if decide (fd' = fd) then Some e else watched k fd';
  epoll_del : forall k fd e e0, watched k fd = Some e0 ->
    exists k', epoll_ctl EPOLL_CTL_DEL fd e k = Some k' /\
      forall fd', watched k' fd' = if decide (fd' = fd) then None else watched k fd';
}.

(** ** The port *)

Definition kInvalidSocket : Z := -1.

Inductive ReadinessPortResult :=
  | PortAccepted
  | PortRejectedInvalid
  | PortRejectedNotRegistered
  | PortRejectedConflict
  | PortRejectedShutdown.

Global Instance ReadinessPortResult_eq_dec : EqDecision ReadinessPortResult.
Proof. solve_decision. Defined.

Record ReadinessRegistrationIdentity := mkIdentity { source : Z; generation : Z }.

Global Instance Identity_eq_dec : EqDecision ReadinessRegistrationIdentity.
Proof. solve_decision. Defined.

Definition no_identity : ReadinessRegistrationIdentity := mkIdentity kInvalidSocket 0.

Definition valid (i : ReadinessRegistrationIdentity) : bool :=
  negb (source i =? kInvalidSocket) && negb (generation i =? 0).

(** A [Channel*] is the address of the channel. *)
Record Registration := mkRegistration {
  identity : ReadinessRegistrationIdentity;
  target : nat;
  interests : Z;
  inKernel : bool;
}.

Record ReadinessNotice := mkNotice {
  nt_identity : ReadinessRegistrationIdentity;
  nt_target : nat;
  nt_events : Z;
}.

Record ReadinessWaitProgress := mkProgress {
  nativeNotices : Z;
  deliveredNotices : Z;
  staleNotices : Z;
  wakeupNotices : Z;
  budgetExhausted : bool;
}.

Record ReadinessPortOptions := mkPortOptions { maxNoticesPerWait : Z }.

(** [validatedOptions]; the owner loop is not null and [Level] is the only
    trigger mode. *)
Definition validatedOptions (o : ReadinessPortOptions) : result ReadinessPortOptions :=
  if (maxNoticesPerWait o =? 0) || (4096 <? maxNoticesPerWait o)
  then Throw invalid_argument else Ok o.

Section port.
Context {K : Type} `{EpollKernel K}.

Record EpollReadinessPort := mkPort {
  kernel : K;
  registrations_ : gmap Z Registration;
  nextGeneration_ : Z;
}.

(** The wakeup descriptor is watched too, under the token 0; it is not a
    registration and its entry never changes. *)
Definition EpollReadinessPort_new (o : ReadinessPortOptions) : result EpollReadinessPort :=
  match validatedOptions o with
  | Throw e => Throw e
  | Ok _ => Ok (mkPort epoll_create1 ∅ 1)
  end.

Definition set_registrations (f : gmap Z Registration -> gmap Z Registration)
    (p : EpollReadinessPort) : EpollReadinessPort :=
  mkPort (kernel p) (f (registrations_ p)) (nextGeneration_ p).

Definition put_registration (fd : Z) (r : Registration) : M EpollReadinessPort unit :=
  modify (set_registrations (<[fd := r]>)).

Definition allocateGeneration (src : Z) : M EpollReadinessPort Z :=
  do p <- get ;;
  run throw_if ((nextGeneration_ p =? 0) || (nextGeneration_ p =? u32_max)) overflow_error ;;
  let epoch := nextGeneration_ p in
  run modify (fun p => mkPort (kernel p) (registrations_ p) (epoch + 1)) ;;
  ret (Z.lor (Z.shiftl epoch 32) (src mod 4294967296)).

Definition updateKernel (op : EpollOp) (src gen ints : Z) : M EpollReadinessPort unit :=
  do p <- get ;;
  match epoll_ctl op src (mkEvent (toNativeEvents ints) gen) (kernel p) with
  | Some k => modify (fun p => mkPort k (registrations_ p) (nextGeneration_ p))
  | None => throw log_fatal
  end.

Definition with_kernel (b : bool) (r : Registration) : Registration :=
  mkRegistration (identity r) (target r) (interests r) b.

(** The request's target is a channel of the owner loop. *)
Definition registerOrUpdate (src : Z) (tgt : nat) (ints : Z) :
    M EpollReadinessPort (ReadinessPortResult * ReadinessRegistrationIdentity) :=
  if (src =? kInvalidSocket) || negb (validInterests ints)
  then ret (PortRejectedInvalid, no_identity)
  else
    do p <- get ;;
    match registrations_ p !! src with
    | None =>
        if ints =? 0 then ret (PortRejectedInvalid, no_identity)
        else
          do gen <- allocateGeneration src ;;
          let id := mkIdentity src gen in
          run put_registration src (mkRegistration id tgt ints false) ;;
          run updateKernel EPOLL_CTL_ADD src gen ints ;;
          run put_registration src (mkRegistration id tgt ints true) ;;
          ret (PortAccepted, id)
    | Some r =>
        if negb (bool_decide (target r = tgt)) then ret (PortRejectedConflict, identity r)
        else if interests r =? ints then ret (PortAccepted, identity r)
        else
          do kept <-
            (if inKernel r && (ints =? 0) then
               run updateKernel EPOLL_CTL_DEL src (generation (identity r)) 0 ;; ret false
             else if negb (inKernel r) && negb (ints =? 0) then
               run updateKernel EPOLL_CTL_ADD src (generation (identity r)) ints ;; ret true
             else if inKernel r then
               run updateKernel EPOLL_CTL_MOD src (generation (identity r)) ints ;; ret true
             else ret false) ;;
          run put_registration src (mkRegistration (identity r) (target r) ints kept) ;;
          ret (PortAccepted, identity r)
    end.

(** [cancel(target)]: [fd] is the target's descriptor. *)
Definition cancel (tgt : nat) (fd : Z) : M EpollReadinessPort ReadinessPortResult :=
  do p <- get ;;
  match registrations_ p !! fd with
  | None => ret PortRejectedNotRegistered
  | Some r =>
      if negb (bool_decide (target r = tgt)) then ret PortRejectedConflict
      else
        run (if inKernel r
             then updateKernel EPOLL_CTL_DEL (source (identity r)) (generation (identity r)) 0
             else ret tt) ;;
        run modify (set_registrations (delete fd)) ;;
        ret PortAccepted
  end.

Definition has (p : EpollReadinessPort) (tgt : nat) (fd : Z) : bool :=
  match registrations_ p !! fd with Some r => bool_decide (target r = tgt) | None => false end.

Definition isCurrent (p : EpollReadinessPort) (id : ReadinessRegistrationIdentity) (tgt : nat) : bool :=
  valid id &&
  match registrations_ p !! source id with
  | Some r => bool_decide (target r = tgt) && bool_decide (identity r = id)
  | None => false
  end.

(** *** A batch of native events *)

(** [static_cast<SocketFd>(static_cast<uint32_t>(generation))] *)
Definition token_source (gen : Z) : Z :=
  let low := gen mod 4294967296 in if low <=? i32_max then low else low - 4294967296.

(** The first notice of [id] gets the further events; [None] without one. *)
Fixpoint merge_notice (id : ReadinessRegistrationIdentity) (events : Z) (ns : list ReadinessNotice) :
    option (list ReadinessNotice) :=
  match ns with
  | [] => None
  | n :: ns =>
      if bool_decide (nt_identity n = id)
      then Some (mkNotice (nt_identity n) (nt_target n) (Z.lor (nt_events n) events) :: ns)
      else match merge_notice id events ns with Some ns' => Some (n :: ns') | None => None end
  end.

(** The batch under construction: [notices_] and [progress_]. *)
Record Batch := mkBatch { notices_ : list ReadinessNotice; progress_ : ReadinessWaitProgress }.

Definition count_stale (b : Batch) : Batch :=
  let g := progress_ b in
  mkBatch (notices_ b) (mkProgress (nativeNotices g) (deliveredNotices g) (staleNotices g ⊕ 1)
                          (wakeupNotices g) (budgetExhausted g)).

Definition exhausted (b : Batch) : Batch :=
  let g := progress_ b in
  mkBatch (notices_ b) (mkProgress (nativeNotices g) (deliveredNotices g) (staleNotices g)
                          (wakeupNotices g) true).

Definition appendNativeNotice (o : ReadinessPortOptions) (p : EpollReadinessPort)
    (gen nativeEvents : Z) (b : Batch) : Batch :=
  match registrations_ p !! token_source gen with
  | None => count_stale b
  | Some r =>
      if negb (generation (identity r) =? gen) || negb (inKernel r) then count_stale b
      else
        let alwaysDelivered := Z.lor kErrorEvent kCloseEvent in
        let events := Z.land (fromNativeEvents nativeEvents) (Z.lor (interests r) alwaysDelivered) in
        if events =? 0 then b
        else match merge_notice (identity r) events (notices_ b) with
             | Some ns => mkBatch ns (progress_ b)
             | None =>
                 if maxNoticesPerWait o <=? zlen (notices_ b) then exhausted b
                 else mkBatch (notices_ b ++ [mkNotice (identity r) (target r) events]) (progress_ b)
             end
  end.

(** One native event; [drained]: the wakeup descriptor had something to read. *)
Definition take_native (o : ReadinessPortOptions) (p : EpollReadinessPort) (drained : bool)
    (b : Batch) (e : epoll_event) : Batch :=
  if ev_data e =? 0 then
    if drained then
      let g := progress_ b in
      mkBatch (notices_ b) (mkProgress (nativeNotices g) (deliveredNotices g) (staleNotices g)
                              (wakeupNotices g ⊕ 1) (budgetExhausted g))
    else b
  else appendNativeNotice o p (ev_data e) (ev_events e) b.

(** [wait]: [native] is what [epoll_wait] returned, [None] when it was
    interrupted; any other failure ends the process. *)
Definition wait (o : ReadinessPortOptions) (p : EpollReadinessPort) (drained : bool)
    (native : option (list epoll_event)) : Batch :=
  match native with
  | None => mkBatch [] (mkProgress 0 0 0 0 false)
  | Some evs =>
      let full := (0 <? zlen evs) && (zlen evs =? maxNoticesPerWait o) in
      let b := foldl (take_native o p drained) (mkBatch [] (mkProgress (zlen evs) 0 0 0 full)) evs in
      let g := progress_ b in
      mkBatch (notices_ b) (mkProgress (nativeNotices g) (zlen (notices_ b)) (staleNotices g)
                              (wakeupNotices g) (budgetExhausted g))
  end.

End port.
Arguments EpollReadinessPort K : clear implicits.

(** ** Tokens *)

Definition token (epoch fd : Z) : Z := epoch * 4294967296 + fd.

Definition is_fd (fd : Z) : Prop := 0 <= fd <= i32_max.

Lemma token_packed epoch fd :
  is_fd fd -> Z.lor (Z.shiftl epoch 32) (fd mod 4294967296) = token epoch fd.
Proof.
  unfold is_fd, token. intros Hfd. rewrite (Z.mod_small fd) by lia.
  rewrite Z.shiftl_mul_pow2 by lia. change (2 ^ 32) with 4294967296.
  rewrite <- Z.add_lor_land. replace (Z.land (epoch * 4294967296) fd) with 0; [lia|].
  symmetry. apply Z.bits_inj'. intros n Hn. rewrite Z.land_spec, Z.bits_0.
  change 4294967296 with (2 ^ 32). destruct (Z.ltb_spec n 32).
  - by rewrite Z.mul_pow2_bits_low by lia.
  - rewrite (Z.bits_above_log2 fd n), andb_false_r; [done|lia|].
    destruct (decide (fd = 0)) as [->|]; [simpl; lia|].
    apply (Z.lt_le_trans _ 32); [apply Z.log2_lt_pow2; lia|lia].
Qed.

Lemma token_source_token epoch fd : is_fd fd -> token_source (token epoch fd) = fd.
Proof.
  unfold is_fd, token, token_source. intros Hfd.
  replace ((epoch * 4294967296 + fd) mod 4294967296) with fd.
  - destruct (fd <=? i32_max) eqn:E; zify_bools; [done|lia].
  - rewrite Z.add_comm, Z.mod_add, Z.mod_small by lia. done.
Qed.

(** ** Invariant *)

Lemma merge_notice_None id e ns :
  merge_notice id e ns = None <-> forall n, n ∈ ns -> nt_identity n <> id.
Proof.
  induction ns as [|n ns IH]; simpl; [split; [by intros _ n ?%elem_of_nil|done]|].
  case_bool_decide as E.
  - split; [done|]. intros Hn. by destruct (Hn n (list_elem_of_here _ _)).
  - destruct (merge_notice id e ns) as [ns'|]; split; try done.
    + intros Hn. assert (Some ns' = None) as [=]. apply IH. intros m Hm. apply Hn. by right.
    + intros _ m [->|Hm]%elem_of_cons; [done|]. by apply IH.
Qed.

Lemma merge_notice_Some id e ns ns' :
  merge_notice id e ns = Some ns' ->
  exists pre n post, ns = pre ++ n :: post /\ nt_identity n = id /\
    ns' = pre ++ mkNotice (nt_identity n) (nt_target n) (Z.lor (nt_events n) e) :: post.
Proof.
  revert ns'. induction ns as [|n ns IH]; simpl; [done|]. intros ns'. case_bool_decide as E.
  - intros [= <-]. by exists [], n, ns.
  - destruct (merge_notice id e ns) as [ns2|]; [|done]. intros [= <-].
    destruct (IH ns2 eq_refl) as (pre & m & post & -> & ? & ->). by exists (n :: pre), m, post.
Qed.

Section invariant.
Context {K : Type} `{EpollKernel K}.
Implicit Type p : EpollReadinessPort K.

(** What the kernel watches for a registration. *)
Definition watch_of (r : Registration) : option epoll_event :=
  if inKernel r then Some (mkEvent (toNativeEvents (interests r)) (generation (identity r))) else None.

Definition registration_ok (next : Z) (fd : Z) (r : Registration) : Prop :=
  is_fd fd /\ source (identity r) = fd /\
  (exists epoch, generation (identity r) = token epoch fd /\ 1 <= epoch < next) /\
  validInterests (interests r) = true /\ inKernel r = negb (interests r =? 0).

Record port_ok p : Prop := {
  po_registrations : map_Forall (registration_ok (nextGeneration_ p)) (registrations_ p);
  po_kernel : forall fd, watched (kernel p) fd = registrations_ p !! fd ≫= watch_of;
  po_next : 1 <= nextGeneration_ p <= u32_max;
}.

Lemma new_port_ok o p : EpollReadinessPort_new o = Ok p -> port_ok p.
Proof.
  unfold EpollReadinessPort_new. destruct (validatedOptions o); [|done]. intros [= <-].
  split; simpl; [apply map_Forall_empty|intros; by rewrite epoll_created, lookup_empty|lia].
Qed.

Lemma registration_ok_mono n n' fd r : n <= n' -> registration_ok n fd r -> registration_ok n' fd r.
Proof. intros Hn (? & ? & (e & ? & ?) & ? & ?). split_and!; try done. exists e. split; [done|lia]. Qed.

(** Replacing one registration and the kernel's entry for it keeps the port. *)
Lemma put_ok p k fd r next :
  port_ok p -> nextGeneration_ p <= next <= u32_max -> registration_ok next fd r ->
  (forall fd', watched k fd' = if decide (fd' = fd) then watch_of r else watched (kernel p) fd') ->
  port_ok (mkPort k (<[fd := r]> (registrations_ p)) next).
Proof.
  intros [Hr Hk Hn] Hnext Hok Hw. split; simpl; [| |lia].
  - apply map_Forall_insert_2; [done|]. intros fd' r' Hr'.
    eapply registration_ok_mono; [|by apply Hr]. lia.
  - intros fd'. rewrite Hw. case_decide as E; subst.
    + by rewrite lookup_insert_eq.
    + by rewrite lookup_insert_ne.
Qed.

(** The kernel call a change of interests makes, on the state it is made in. *)
Lemma updateKernel_ok p op fd gen ints k :
  epoll_ctl op fd (mkEvent (toNativeEvents ints) gen) (kernel p) = Some k ->
  updateKernel op fd gen ints p = (Ok tt, mkPort k (registrations_ p) (nextGeneration_ p)).
Proof. intros E. unfold updateKernel. step_m. by rewrite E. Qed.

(** What a registration request does: nothing when refused; otherwise the
    descriptor is registered for the target with the requested interests, under
    its old identity or, if it is new, one with a fresh epoch. *)
Inductive registered (src : Z) (tgt : nat) (ints : Z) (p p' : EpollReadinessPort K) :
    ReadinessPortResult -> Prop :=
  | reg_invalid : src = kInvalidSocket \/ validInterests ints = false \/
      (registrations_ p !! src = None /\ ints = 0) -> p' = p -> registered src tgt ints p p' PortRejectedInvalid
  | reg_conflict r : registrations_ p !! src = Some r -> target r <> tgt -> p' = p ->
      registered src tgt ints p p' PortRejectedConflict
  | reg_new r : registrations_ p !! src = None -> ints <> 0 ->
      registrations_ p' = <[src := r]> (registrations_ p) -> target r = tgt -> interests r = ints ->
      generation (identity r) = token (nextGeneration_ p) src ->
      nextGeneration_ p' = nextGeneration_ p + 1 -> registered src tgt ints p p' PortAccepted
  | reg_update r r' : registrations_ p !! src = Some r -> target r = tgt ->
      registrations_ p' = <[src := r']> (registrations_ p) -> target r' = tgt -> interests r' = ints ->
      identity r' = identity r -> nextGeneration_ p' = nextGeneration_ p ->
      registered src tgt ints p p' PortAccepted.

Lemma registerOrUpdate_spec src tgt ints p :
  port_ok p -> is_fd src \/ src = kInvalidSocket ->
  (registerOrUpdate src tgt ints p = (Throw overflow_error, p) /\
     registrations_ p !! src = None /\ nextGeneration_ p = u32_max) \/
  exists r id p', registerOrUpdate src tgt ints p = (Ok (r, id), p') /\ port_ok p' /\
    registered src tgt ints p p' r.
Proof.
  intros Hp Hfd. unfold registerOrUpdate.
  destruct (src =? kInvalidSocket) eqn:Es; simpl; zify_bools.
  { right. do 3 eexists. split; [done|]. split; [done|]. apply reg_invalid; auto. }
  destruct Hfd as [Hfd|]; [|done].
  destruct (validInterests ints) eqn:Ev; simpl.
  2: { right. do 3 eexists. split; [done|]. split; [done|]. apply reg_invalid; auto. }
  destruct Hp as [Hr Hk Hn] eqn:EE; clear EE.
  destruct (registrations_ p !! src) as [r|] eqn:Er.
  - (* an existing registration *)
    right. destruct (Hr src r Er) as (_ & Hsrc & Hgen & Hint & Hin).
    pose proof (Hk src) as Hw. rewrite Er in Hw. simpl in Hw. unfold watch_of in Hw.
    step_m. rewrite Er. case_bool_decide as Et; simpl.
    2: { do 3 eexists. split; [done|]. split; [done|]. by apply (reg_conflict _ _ _ _ _ r). }
    destruct (interests r =? ints) eqn:Ei; zify_bools.
    { do 3 eexists. split; [done|]. split; [done|].
      apply (reg_update _ _ _ _ _ r r); try done. by rewrite insert_id. }
    assert (forall k kept, kept = negb (ints =? 0) ->
      (forall fd', watched k fd' = if decide (fd' = src)
         then watch_of (mkRegistration (identity r) (target r) ints kept) else watched (kernel p) fd') ->
      port_ok (mkPort k (<[src := mkRegistration (identity r) (target r) ints kept]> (registrations_ p))
        (nextGeneration_ p))) as Hput.
    { intros k kept -> Hkw. apply put_ok; [done|lia| |done]. by split_and!. }
    rewrite Hin in Hw |- *. destruct (ints =? 0) eqn:E0; simpl; zify_bools.
    + assert ((interests r =? 0) = false) as -> by lia. simpl in *.
      rewrite (proj2 (Z.eqb_neq _ _)) in Hw by lia. simpl in Hw.
      destruct (epoll_del _ _ (mkEvent (toNativeEvents 0) (generation (identity r))) _ Hw) as (k & Ek & Hkw).
      pose proof (updateKernel_ok p EPOLL_CTL_DEL src (generation (identity r)) 0 k Ek) as Eu.
      step_m. rewrite Eu. do 3 eexists. split; [done|]. split; [by apply Hput|].
      apply (reg_update _ _ _ _ _ r (mkRegistration (identity r) (target r) ints false)); done.
    + destruct (interests r =? 0) eqn:E1; simpl in *; zify_bools.
      * destruct (epoll_add _ _ (mkEvent (toNativeEvents ints) (generation (identity r))) Hw) as (k & Ek & Hkw).
        pose proof (updateKernel_ok p EPOLL_CTL_ADD src (generation (identity r)) ints k Ek) as Eu.
        step_m. rewrite Eu. do 3 eexists. split; [done|]. split; [by apply Hput|].
        apply (reg_update _ _ _ _ _ r (mkRegistration (identity r) (target r) ints true)); done.
      * destruct (epoll_mod _ _ (mkEvent (toNativeEvents ints) (generation (identity r))) _ Hw) as (k & Ek & Hkw).
        pose proof (updateKernel_ok p EPOLL_CTL_MOD src (generation (identity r)) ints k Ek) as Eu.
        step_m. rewrite Eu. do 3 eexists. split; [done|]. split; [by apply Hput|].
        apply (reg_update _ _ _ _ _ r (mkRegistration (identity r) (target r) ints true)); done.
  - (* a new registration *)
    step_m. rewrite Er. destruct (ints =? 0) eqn:E0; zify_bools.
    { right. do 3 eexists. split; [done|]. split; [done|]. apply reg_invalid; auto. }
    unfold allocateGeneration, put_registration. step_m.
    destruct (_ || _) eqn:Eg; zify_bools.
    { left. split_and!; try done. lia. }
    right. rewrite token_packed by done.
    pose proof (Hk src) as Hw. rewrite Er in Hw. simpl in Hw.
    set (gen := token (nextGeneration_ p) src).
    destruct (epoll_add _ _ (mkEvent (toNativeEvents ints) gen) Hw) as (k & Ek & Hkw).
    unfold updateKernel, set_registrations. step_m. simpl. rewrite Ek.
    do 3 eexists. split; [done|]. simpl.
    rewrite insert_insert_eq. split.
    + apply put_ok; [done|lia| |].
      * split_and!; try done; [exists (nextGeneration_ p); split; [done|lia]|].
        simpl. by rewrite (proj2 (Z.eqb_neq _ _)).
      * done.
    + by apply (reg_new _ _ _ _ _ (mkRegistration (mkIdentity src gen) tgt ints true)).
Qed.

Lemma cancel_spec tgt fd p :
  port_ok p ->
  (cancel tgt fd p = (Ok PortRejectedNotRegistered, p) /\ registrations_ p !! fd = None) \/
  (cancel tgt fd p = (Ok PortRejectedConflict, p) /\
     exists r, registrations_ p !! fd = Some r /\ target r <> tgt) \/
  exists r p', cancel tgt fd p = (Ok PortAccepted, p') /\ port_ok p' /\
    registrations_ p !! fd = Some r /\ target r = tgt /\
    registrations_ p' = delete fd (registrations_ p) /\ nextGeneration_ p' = nextGeneration_ p.
Proof.
  intros [Hr Hk Hn]. unfold cancel. step_m.
  destruct (registrations_ p !! fd) as [r|] eqn:Er; [|by left].
  case_bool_decide as Et; simpl; [|right; left; eauto].
  right; right. destruct (Hr fd r Er) as (Hfd & Hsrc & Hgen & Hint & Hin).
  pose proof (Hk fd) as Hw. rewrite Er in Hw. simpl in Hw. unfold watch_of in Hw.
  assert (forall k, (forall fd', watched k fd' = if decide (fd' = fd) then None else watched (kernel p) fd') ->
    port_ok (mkPort k (delete fd (registrations_ p)) (nextGeneration_ p))) as Hdel.
  { intros k Hkw. split; simpl; [|intros fd'; rewrite Hkw|lia].
    - by apply map_Forall_delete.
    - case_decide as E; subst; [by rewrite lookup_delete_eq|by rewrite lookup_delete_ne]. }
  destruct (inKernel r).
  - destruct (epoll_del _ _ (mkEvent (toNativeEvents 0) (generation (identity r))) _ Hw) as (k & Ek & Hkw).
    unfold updateKernel. step_m. rewrite Hsrc, Ek. do 2 eexists. split; [done|].
    split; [by apply Hdel|]. done.
  - do 2 eexists. split; [done|]. split; [|done]. apply Hdel. intros fd'. case_decide as E; subst; done.
Qed.

(** *** Sequences of requests *)

Inductive PortRequest :=
  | Register (src : Z) (tgt : nat) (ints : Z)
  | Cancel (tgt : nat) (fd : Z).

(** The port after a request, refused or not. *)
Definition serve (q : PortRequest) (p : EpollReadinessPort K) : EpollReadinessPort K :=
  match q with
  | Register src tgt ints => snd (registerOrUpdate src tgt ints p)
  | Cancel tgt fd => snd (cancel tgt fd p)
  end.

Definition serve_all (qs : list PortRequest) (p : EpollReadinessPort K) : EpollReadinessPort K :=
  foldl (fun p q => serve q p) p qs.

Definition request_ok (q : PortRequest) : Prop :=
  match q with Register src _ _ => is_fd src \/ src = kInvalidSocket | Cancel _ _ => True end.

(** The registrations that carry a token. *)
Definition carries p (gen : Z) : Prop :=
  exists fd r, registrations_ p !! fd = Some r /\ generation (identity r) = gen.

(** An epoch allocated earlier is not allocated again. *)
Lemma serve_step q p :
  port_ok p -> request_ok q ->
  port_ok (serve q p) /\ nextGeneration_ p <= nextGeneration_ (serve q p) /\
  forall gen, carries (serve q p) gen ->
    carries p gen \/ exists fd, is_fd fd /\ gen = token (nextGeneration_ p) fd.
Proof.
  intros Hp Hq. destruct q as [src tgt ints|tgt fd]; simpl in *.
  - destruct (registerOrUpdate_spec src tgt ints p Hp Hq) as [(-> & _)|(r & id & p' & -> & Hp' & Hreg)];
      simpl; [split_and!; auto; lia|].
    destruct Hreg as [|r0|r0 Hn H0 Hr Ht Hi Hg Hnx|r0 r1 Hs Ht Hr Ht1 Hi1 Hid Hnx]; subst; try (split_and!; auto; lia).
    + split_and!; [done|lia|]. intros gen (fd & r & Hl & Eg). rewrite Hr in Hl.
      apply lookup_insert_Some in Hl as [[<- <-]|[_ Hl]]; [|left; by exists fd, r].
      right. exists src. split; [|by rewrite <- Eg].
      destruct Hq as [|E]; [done|]. exfalso.
      destruct (po_registrations _ Hp' src r0) as (Hfd & _); [by rewrite Hr, lookup_insert_eq|].
      unfold is_fd in Hfd. rewrite E in Hfd. unfold kInvalidSocket in Hfd. lia.
    + split_and!; [done|lia|]. intros gen (fd & r & Hl & Eg). rewrite Hr in Hl. left.
      apply lookup_insert_Some in Hl as [[<- <-]|[_ Hl]]; [|by exists fd, r].
      exists src, r0. split; [done|]. by rewrite <- Hid.
  - destruct (cancel_spec tgt fd p Hp) as [(-> & _)|[(-> & _)|(r & p' & -> & Hp' & _ & _ & Hr & Hnx)]];
      simpl; try (split_and!; auto; lia).
    split_and!; [done|lia|]. intros gen (fd' & r' & Hl & Eg). rewrite Hr in Hl.
    apply lookup_delete_Some in Hl as [_ Hl]. left. by exists fd', r'.
Qed.

Lemma serve_all_ok qs : forall p,
  port_ok p -> Forall request_ok qs ->
  port_ok (serve_all qs p) /\ nextGeneration_ p <= nextGeneration_ (serve_all qs p).
Proof.
  induction qs as [|q qs IH]; intros p Hp Hq; simpl; [split; [done|lia]|].
  apply Forall_cons in Hq as [Hq Hqs]. destruct (serve_step q p Hp Hq) as (Hp' & Hn & _).
  destruct (IH _ Hp' Hqs). split; [done|]. unfold serve_all in *. lia.
Qed.

Lemma carries_bound p gen :
  port_ok p -> carries p gen -> exists epoch fd, is_fd fd /\ gen = token epoch fd /\ 1 <= epoch < nextGeneration_ p.
Proof.
  intros Hp (fd & r & Hl & <-). destruct (po_registrations _ Hp fd r Hl) as (Hfd & _ & (e & -> & He) & _).
  by exists e, fd.
Qed.

(** A token out of use stays out of use. *)
Lemma serve_all_stale qs epoch fd : forall p,
  port_ok p -> Forall request_ok qs -> is_fd fd -> epoch < nextGeneration_ p ->
  ~ carries p (token epoch fd) -> ~ carries (serve_all qs p) (token epoch fd).
Proof.
  induction qs as [|q qs IH]; intros p Hp Hq Hfd He Hno; simpl; [done|].
  apply Forall_cons in Hq as [Hq Hqs]. destruct (serve_step q p Hp Hq) as (Hp' & Hn & Hc).
  apply IH; [done|done|done|lia|]. intros Hcar.
  destruct (Hc _ Hcar) as [|(fd' & Hfd' & E)]; [done|].
  unfold token, is_fd in *. lia.
Qed.

(** *** Batches *)

(** The readiness a native event reports for a registration. *)
Definition ready (r : Registration) (e : epoll_event) : Z :=
  Z.land (fromNativeEvents (ev_events e)) (Z.lor (interests r) (Z.lor kErrorEvent kCloseEvent)).

(** The registration a native event is for, if its token is current. *)
Definition resolves p (e : epoll_event) (r : Registration) : Prop :=
  registrations_ p !! source (identity r) = Some r /\ inKernel r = true /\
  ev_data e = generation (identity r).

(** All readiness reported for a registration. *)
Definition collected (r : Registration) (evs : list epoll_event) : Z :=
  foldr (fun e acc => Z.lor (if ev_data e =? generation (identity r) then ready r e else 0) acc) 0 evs.

Lemma collected_app r l1 l2 : collected r (l1 ++ l2) = Z.lor (collected r l1) (collected r l2).
Proof.
  unfold collected. induction l1 as [|e l1 IH]; cbn [foldr app]; [by rewrite Z.lor_0_l|].
  by rewrite IH, Z.lor_assoc.
Qed.

(** The notices of a batch: one per registration with readiness, with all of it. *)
Record notices_ok p (evs : list epoll_event) (ns : list ReadinessNotice) : Prop := {
  no_distinct : NoDup (nt_identity <$> ns);
  no_sound : forall n, n ∈ ns -> exists r, registrations_ p !! source (identity r) = Some r /\
    inKernel r = true /\ nt_identity n = identity r /\ nt_target n = target r /\
    nt_events n = collected r evs /\ nt_events n <> 0;
  no_complete : forall fd r, registrations_ p !! fd = Some r -> inKernel r = true ->
    collected r evs <> 0 -> exists n, n ∈ ns /\ nt_identity n = identity r;
}.

Lemma collected_snoc r evs e :
  collected r (evs ++ [e]) =
  Z.lor (collected r evs) (if ev_data e =? generation (identity r) then ready r e else 0).
Proof. rewrite collected_app. unfold collected at 2. cbn [foldr]. by rewrite Z.lor_0_r. Qed.

Lemma collected_other r evs e :
  ev_data e <> generation (identity r) -> collected r (evs ++ [e]) = collected r evs.
Proof. intros E. rewrite collected_snoc, (proj2 (Z.eqb_neq _ _)) by done. apply Z.lor_0_r. Qed.

Lemma registered_token p fd r :
  port_ok p -> registrations_ p !! fd = Some r ->
  source (identity r) = fd /\ token_source (generation (identity r)) = fd /\ 0 < generation (identity r).
Proof.
  intros Hp Hl. destruct (po_registrations _ Hp fd r Hl) as (Hfd & Hs & (e & -> & He) & _).
  split_and!; [done|by apply token_source_token|]. unfold token, is_fd in *. lia.
Qed.

Lemma same_token p fd fd' r r' :
  port_ok p -> registrations_ p !! fd = Some r -> registrations_ p !! fd' = Some r' ->
  generation (identity r) = generation (identity r') -> r = r'.
Proof.
  intros Hp Hl Hl' E. destruct (registered_token p fd r Hp Hl) as (_ & Ht & _).
  destruct (registered_token p fd' r' Hp Hl') as (_ & Ht' & _). rewrite E in Ht.
  assert (fd = fd') as -> by congruence. congruence.
Qed.

(** An event no registration resolves changes no notice. *)
Lemma notices_unresolved p evs e ns :
  notices_ok p evs ns ->
  (forall fd r, registrations_ p !! fd = Some r -> inKernel r = true -> ev_data e <> generation (identity r)) ->
  notices_ok p (evs ++ [e]) ns.
Proof.
  intros [Hd Hs Hc] Hno. split; [done| |].
  - intros n Hn. destruct (Hs n Hn) as (r & Hl & Hk & ? & ? & ? & ?). exists r. split_and!; try done.
    by rewrite collected_other by eauto.
  - intros fd r Hl Hk Hnz. rewrite collected_other in Hnz by eauto. eauto.
Qed.

(** An event resolved to [r]: the notices for the others stay as they are. *)
Lemma notices_resolved p evs e ns ns' fd r :
  port_ok p -> notices_ok p evs ns -> registrations_ p !! fd = Some r -> inKernel r = true ->
  ev_data e = generation (identity r) ->
  NoDup (nt_identity <$> ns') ->
  (forall n, nt_identity n <> identity r -> n ∈ ns' <-> n ∈ ns) ->
  (forall n, n ∈ ns' -> nt_identity n = identity r ->
     nt_target n = target r /\ nt_events n = collected r (evs ++ [e]) /\ nt_events n <> 0) ->
  (collected r (evs ++ [e]) <> 0 -> exists n, n ∈ ns' /\ nt_identity n = identity r) ->
  notices_ok p (evs ++ [e]) ns'.
Proof.
  intros Hp [Hd Hs Hc] Hl Hk Ee Hd' Hoth Hmine Hcomp.
  assert (forall fd' r', registrations_ p !! fd' = Some r' -> identity r' <> identity r ->
    collected r' (evs ++ [e]) = collected r' evs) as Hcol.
  { intros fd' r' Hl' Hne. apply collected_other. rewrite Ee. intros E.
    apply Hne. f_equal. symmetry. by eapply same_token. }
  destruct (registered_token p fd r Hp Hl) as (Hfd & _).
  split; [done| |].
  - intros n Hn. destruct (decide (nt_identity n = identity r)) as [E|E].
    + destruct (Hmine n Hn E) as (? & ? & ?). exists r. rewrite Hfd. done.
    + apply Hoth in Hn; [|done]. destruct (Hs n Hn) as (r' & Hl' & Hk' & Ei & ? & ? & ?).
      exists r'. split_and!; try done. by rewrite (Hcol _ r' Hl') by congruence.
  - intros fd' r' Hl' Hk' Hnz. destruct (decide (identity r' = identity r)) as [E|E].
    + assert (r' = r) as -> by (eapply same_token; [done..|by rewrite E]). auto.
    + rewrite (Hcol fd' r' Hl' E) in Hnz. destruct (Hc fd' r' Hl' Hk' Hnz) as (n & Hn & En).
      exists n. split; [|done]. apply Hoth; [congruence|done].
Qed.

Lemma lor_nonzero a b : b <> 0 -> Z.lor a b <> 0.
Proof. intros Hb E. apply Z.lor_eq_0_iff in E as [_ E]. done. Qed.

(** The count of events that match nothing. *)
Definition stale p (e : epoll_event) : bool :=
  negb (ev_data e =? 0) &&
  match registrations_ p !! token_source (ev_data e) with
  | Some r => negb (generation (identity r) =? ev_data e) || negb (inKernel r)
  | None => true
  end.

Definition counted (f : epoll_event -> bool) (evs : list epoll_event) : Z :=
  zlen (filter (fun e => f e = true) evs).

Lemma counted_snoc f evs e : counted f (evs ++ [e]) = counted f evs + if f e then 1 else 0.
Proof.
  unfold counted. rewrite filter_app, zlen_app. f_equal. rewrite filter_cons, filter_nil.
  by destruct (f e).
Qed.

Lemma counted_le f evs : 0 <= counted f evs <= zlen evs.
Proof.
  unfold counted, zlen. pose proof (length_filter (fun e => f e = true) evs). lia.
Qed.

(** The batch after some of the events. *)
Record batch_ok (o : ReadinessPortOptions) p (drained : bool) (full : bool) (total : Z)
    (evs : list epoll_event) (b : Batch) : Prop := {
  bo_notices : notices_ok p evs (notices_ b);
  bo_size : zlen (notices_ b) <= zlen evs;
  bo_progress : progress_ b = mkProgress total 0 (counted (stale p) evs)
    (if drained then counted (fun e => ev_data e =? 0) evs else 0) full;
}.

Lemma append_resolved o p evs e b fd r :
  port_ok p -> notices_ok p evs (notices_ b) -> zlen (notices_ b) < maxNoticesPerWait o ->
  registrations_ p !! fd = Some r -> inKernel r = true -> ev_data e = generation (identity r) ->
  let b' := appendNativeNotice o p (ev_data e) (ev_events e) b in
  notices_ok p (evs ++ [e]) (notices_ b') /\ progress_ b' = progress_ b /\
  zlen (notices_ b') <= zlen (notices_ b) + 1.
Proof.
  intros Hp Hns Hsz Hl Hk Ee b'. unfold b', appendNativeNotice. rewrite Ee.
  destruct (registered_token p fd r Hp Hl) as (_ & -> & _). rewrite Hl, Z.eqb_refl, Hk. simpl.
  fold (ready r e).
  assert (collected r (evs ++ [e]) = Z.lor (collected r evs) (ready r e)) as Hcol
    by (by rewrite collected_snoc, Ee, Z.eqb_refl).
  destruct (ready r e =? 0) eqn:E0; zify_bools.
  { split_and!; [|done|lia]. rewrite E0, Z.lor_0_r in Hcol. destruct Hns as [Hd Hs Hc].
    apply (notices_resolved p evs e (notices_ b) _ fd r); try done.
    - intros n Hn En. destruct (Hs n Hn) as (r' & Hl' & Hk' & Ei & ? & ? & ?).
      assert (r' = r) as -> by (eapply same_token; [done..|congruence]). by rewrite Hcol.
    - rewrite Hcol. by apply (Hc fd). }
  destruct (merge_notice _ _ _) as [ns'|] eqn:Em; simpl.
  - apply merge_notice_Some in Em as (pre & n & post & Epre & En & ->). simpl. split_and!; [|done|].
    2: { rewrite Epre. rewrite !zlen_app. unfold zlen. simpl. lia. }
    destruct Hns as [Hd Hs Hc] eqn:EE; clear EE. rewrite Epre in Hd.
    assert (nt_identity <$> pre ++ mkNotice (nt_identity n) (nt_target n) (Z.lor (nt_events n) (ready r e)) :: post =
      nt_identity <$> pre ++ n :: post) as Eids by (by rewrite !fmap_app, !fmap_cons).
    rewrite fmap_app, fmap_cons in Hd.
    assert (forall m, m ∈ pre \/ m ∈ post -> nt_identity m <> identity r) as Hnot.
    { rewrite <- En. intros m Hm E. apply NoDup_app in Hd as (_ & Hd1 & Hd2). apply NoDup_cons in Hd2 as [Hd2 _].
      destruct Hm as [Hm|Hm].
      - apply (Hd1 (nt_identity m)); [by apply list_elem_of_fmap_2|]. rewrite E. constructor.
      - apply Hd2. rewrite <- E. by apply list_elem_of_fmap_2. }
    apply (notices_resolved p evs e (notices_ b) _ fd r); try done.
    + by rewrite Eids, fmap_app, fmap_cons.
    + intros m Hm. rewrite Epre, !elem_of_app, !elem_of_cons.
      split; (intros [?|[->|?]]; [auto| |auto]); by destruct Hm.
    + intros m Hm Eid. rewrite elem_of_app, elem_of_cons in Hm. destruct Hm as [Hm|[->|Hm]].
      * by destruct (Hnot m); auto.
      * destruct (Hs n) as (r' & Hl' & Hk' & Ei & Et & Ev & ?); [rewrite Epre; apply elem_of_app; right; constructor|].
        assert (r' = r) as -> by (eapply same_token; [done..|congruence]).
        simpl. rewrite Hcol, Ev. split_and!; try done. by apply lor_nonzero.
      * by destruct (Hnot m); auto.
    + intros _. eexists. split; [apply elem_of_app; right; constructor|done].
  - rewrite merge_notice_None in Em. destruct (maxNoticesPerWait o <=? _) eqn:Em2; zify_bools; [lia|]. simpl.
    split_and!; [|done|rewrite zlen_app; unfold zlen; simpl; lia].
    assert (collected r evs = 0) as Hz.
    { destruct (decide (collected r evs = 0)) as [|Hnz]; [done|].
      destruct (no_complete _ _ _ Hns fd r Hl Hk Hnz) as (n & Hn & E). by destruct (Em n Hn). }
    rewrite Hz, Z.lor_0_l in Hcol.
    apply (notices_resolved p evs e (notices_ b) _ fd r); try done.
    + rewrite fmap_app, NoDup_app. split_and!; [apply Hns| |apply NoDup_singleton].
      intros x (n & -> & Hn)%list_elem_of_fmap Hx. apply list_elem_of_singleton in Hx. by apply (Em n).
    + intros n Hn. rewrite elem_of_app, list_elem_of_singleton. split; [intros [?| ->]; done|auto].
    + intros n Hn Eid. rewrite elem_of_app, list_elem_of_singleton in Hn. destruct Hn as [Hn| ->].
      * by destruct (Em n Hn).
      * simpl. by rewrite Hcol.
    + intros _. eexists. split; [apply elem_of_app; right; constructor|done].
Qed.

Lemma take_native_ok o p drained full total evs e b :
  port_ok p -> batch_ok o p drained full total evs b -> zlen evs < maxNoticesPerWait o ->
  zlen evs + 1 < usize_lim ->
  batch_ok o p drained full total (evs ++ [e]) (take_native o p drained b e).
Proof.
  intros Hp [Hns Hsz Hpr] Hmax Hlen. unfold take_native.
  pose proof (counted_le (stale p) evs) as Hst. pose proof (counted_le (fun e => ev_data e =? 0) evs) as Hwk.
  assert (zlen (evs ++ [e]) = zlen evs + 1) as Hsn by (rewrite zlen_app; done).
  destruct (ev_data e =? 0) eqn:E0; zify_bools.
  { assert (notices_ok p (evs ++ [e]) (notices_ b)) as Hns'.
    { apply notices_unresolved; [done|]. intros fd r Hl _ E.
      destruct (registered_token p fd r Hp Hl) as (_ & _ & ?). lia. }
    assert (stale p e = false) as Hnst by (unfold stale; by rewrite E0).
    destruct drained; (split; simpl; [done|lia|]); rewrite Hpr, counted_snoc, Hnst; simpl.
    - rewrite (counted_snoc (fun e => ev_data e =? 0)), E0. simpl. by rewrite uwrap_small, Z.add_0_r by lia.
    - by rewrite Z.add_0_r. }
  assert (counted (fun e => ev_data e =? 0) (evs ++ [e]) = counted (fun e => ev_data e =? 0) evs) as Hwk'.
  { rewrite counted_snoc, (proj2 (Z.eqb_neq _ _)) by done. lia. }
  destruct (stale p e) eqn:Es.
  - assert (appendNativeNotice o p (ev_data e) (ev_events e) b = count_stale b) as ->.
    { unfold stale in Es. rewrite (proj2 (Z.eqb_neq _ _)) in Es by done. simpl in Es. unfold appendNativeNotice.
      destruct (registrations_ p !! _) as [r|]; [by rewrite Es|done]. }
    split; simpl; [|lia|].
    + apply notices_unresolved; [done|]. intros fd r Hl Hk E. unfold stale in Es.
      rewrite E in Es. destruct (registered_token p fd r Hp Hl) as (_ & Ht & _).
      rewrite Ht, Hl, Z.eqb_refl, Hk in Es. by rewrite andb_false_r in Es.
    + rewrite Hpr. simpl. rewrite counted_snoc, Es, Hwk'. by rewrite uwrap_small by lia.
  - unfold stale in Es. rewrite (proj2 (Z.eqb_neq _ _)) in Es by done. simpl in Es.
    destruct (registrations_ p !! token_source (ev_data e)) as [r|] eqn:Hl; [|done]. zify_bools.
    destruct (append_resolved o p evs e b _ r Hp Hns ltac:(lia) Hl ltac:(done) ltac:(done)) as (Hns' & Hpr' & Hsz').
    split; [done|lia|]. rewrite Hpr', Hpr, counted_snoc, Hwk'.
    assert (stale p e = false) as ->; [|by rewrite Z.add_0_r].
    unfold stale. rewrite Hl. rewrite (proj2 (Z.eqb_neq (ev_data e) 0)) by done. simpl.
    rewrite (proj2 (Z.eqb_eq _ _)) by done. by rewrite H1.
Qed.

Lemma wait_loop o p drained full total evs done b :
  port_ok p -> batch_ok o p drained full total done b ->
  zlen done + zlen evs <= maxNoticesPerWait o -> maxNoticesPerWait o < usize_lim ->
  batch_ok o p drained full total (done ++ evs) (foldl (take_native o p drained) b evs).
Proof.
  intros Hp. revert done b. induction evs as [|e evs IH]; intros done b Hb Hle Hmax; simpl.
  - by rewrite app_nil_r.
  - change (e :: evs) with ([e] ++ evs) in *. rewrite zlen_app in Hle. rewrite app_assoc.
    pose proof (zlen_nonneg evs). assert (zlen [e] = 1) as H1e by done. rewrite H1e in Hle.
    apply IH; [|rewrite zlen_app, H1e; lia|done].
    apply take_native_ok; [done|done|lia|lia].
Qed.

Lemma stale_append o p gen ev b : port_ok p -> ~ carries p gen -> appendNativeNotice o p gen ev b = count_stale b.
Proof.
  intros Hp Hno. unfold appendNativeNotice. destruct (registrations_ p !! token_source gen) as [r|] eqn:El; [|done].
  destruct (generation (identity r) =? gen) eqn:Eg; [|done]. zify_bools. destruct Hno. by exists (token_source gen), r.
Qed.

Lemma stale_current p gen id tgt : ~ carries p gen -> generation id = gen -> isCurrent p id tgt = false.
Proof.
  intros Hno Eg. unfold isCurrent. destruct (registrations_ p !! source id) as [r|] eqn:El; [|apply andb_false_r].
  rewrite (bool_decide_false (identity r = id)); [by rewrite !andb_false_r|].
  intros E. apply Hno. exists (source id), r. by rewrite E.
Qed.

Lemma notice_current p evs ns n :
  port_ok p -> notices_ok p evs ns -> n ∈ ns -> isCurrent p (nt_identity n) (nt_target n) = true.
Proof.
  intros Hp Hns Hn. destruct (no_sound _ _ _ Hns n Hn) as (r & Hl & Hk & Ei & Et & _).
  destruct (registered_token p _ r Hp Hl) as (_ & _ & Hg).
  destruct (po_registrations _ Hp _ r Hl) as (Hfd & _). unfold is_fd in Hfd.
  unfold isCurrent, valid. rewrite Ei, Et, Hl, !bool_decide_true by done.
  rewrite !(proj2 (Z.eqb_neq _ _)); [done|lia|unfold kInvalidSocket; lia].
Qed.

(** ** Theorems *)

(** After any sequence of registration and cancellation requests, a batch of
    native events, as many as the port asks for at most, becomes exactly the
    notices of the registered descriptors: one notice per registration whose
    current token occurs with readiness it is interested in (errors and hang-ups
    always count), carrying all of that readiness; no notice is lost to the
    capacity, no stale token produces one, and the progress counts agree.
    Meanwhile the kernel's interest list is exactly the registrations with
    interests, so that no [epoll_ctl] call failed on a missing or doubled entry. *)
Theorem wait_reports_current_readiness o p0 qs drained evs :
  EpollReadinessPort_new o = Ok p0 -> Forall request_ok qs -> zlen evs <= maxNoticesPerWait o ->
  let p := serve_all qs p0 in
  let b := wait o p drained (Some evs) in
  notices_ok p evs (notices_ b) /\ zlen (notices_ b) <= maxNoticesPerWait o /\
  (forall n, n ∈ notices_ b -> isCurrent p (nt_identity n) (nt_target n) = true) /\
  progress_ b = mkProgress (zlen evs) (zlen (notices_ b)) (counted (stale p) evs)
    (if drained then counted (fun e => ev_data e =? 0) evs else 0)
    ((0 <? zlen evs) && (zlen evs =? maxNoticesPerWait o)) /\
  forall fd, watched (kernel p) fd = registrations_ p !! fd ≫= watch_of.
Proof.
  intros Hnew Hqs Hlen p b.
  assert (maxNoticesPerWait o < usize_lim) as Hmax.
  { unfold EpollReadinessPort_new, validatedOptions in Hnew. destruct (_ || _) eqn:E; [done|]. zify_bools. lia. }
  destruct (serve_all_ok qs p0 (new_port_ok o p0 Hnew) Hqs) as [Hp _]. fold p in Hp.
  set (full := (0 <? zlen evs) && (zlen evs =? maxNoticesPerWait o)).
  destruct (wait_loop o p drained full (zlen evs) evs [] (mkBatch [] (mkProgress (zlen evs) 0 0 0 full)) Hp)
    as [Hns Hsz Hpr]; [|done|done|].
  { split; simpl; [|done|by destruct drained]. split; [constructor|by intros n ?%elem_of_nil|by intros]. }
  simpl in Hns, Hsz, Hpr. unfold b, wait. fold full. simpl. rewrite Hpr. simpl.
  split_and!; try done; [lia| |apply Hp]. intros n Hn. by eapply notice_current.
Qed.

(** A registration's token identifies it for good.  Once a token that was in
    use is no longer carried by any registration, no later registration of any
    descriptor, the same one included, carries it again: a late native event
    with it is only counted as stale, and no identity with it is current. *)
Theorem stale_tokens_stay_stale o p0 qs1 qs2 qs3 gen :
  EpollReadinessPort_new o = Ok p0 -> Forall request_ok (qs1 ++ qs2 ++ qs3) ->
  carries (serve_all qs1 p0) gen -> ~ carries (serve_all qs2 (serve_all qs1 p0)) gen ->
  let p := serve_all qs3 (serve_all qs2 (serve_all qs1 p0)) in
  ~ carries p gen /\ (forall ev b, appendNativeNotice o p gen ev b = count_stale b) /\
  forall id tgt, generation id = gen -> isCurrent p id tgt = false.
Proof.
  intros Hnew Hqs Hc Hno p. apply Forall_app in Hqs as [Hq1 [Hq2 Hq3]%Forall_app].
  destruct (serve_all_ok qs1 p0 (new_port_ok o p0 Hnew) Hq1) as [Hp1 _].
  destruct (carries_bound _ _ Hp1 Hc) as (epoch & fd & Hfd & -> & He).
  destruct (serve_all_ok qs2 _ Hp1 Hq2) as [Hp2 Hn2].
  destruct (serve_all_ok qs3 _ Hp2 Hq3) as [Hp3 _].
  assert (~ carries p (token epoch fd)) as Hno3 by (apply serve_all_stale; [done|done|done|lia|done]).
  split_and!; [done|intros; by apply stale_append|intros; by eapply stale_current].
Qed.

End invariant.

(** ** An interest list as a kernel *)

#[refine] Global Instance interest_list : EpollKernel (gmap Z epoll_event) := {|
  epoll_create1 := ∅;
  epoll_ctl op fd e k :=
    match op, k !! fd with
    | EPOLL_CTL_ADD, None => Some (<[fd := e]> k)
    | EPOLL_CTL_MOD, Some _ => Some (<[fd := e]> k)
    | EPOLL_CTL_DEL, Some _ => Some (delete fd k)
    | _, _ => None
    end;
  watched k fd := k !! fd;
|}.
Proof.
  - intros. apply lookup_empty.
  - intros k fd e ->. eexists. split; [done|]. intros fd'. rewrite lookup_insert. by repeat case_decide.
  - intros k fd e e0 ->. eexists. split; [done|]. intros fd'. rewrite lookup_insert. by repeat case_decide.
  - intros k fd e e0 ->. eexists. split; [done|]. intros fd'. rewrite lookup_delete. by repeat case_decide.
Defined.

Definition demo_port : EpollReadinessPort (gmap Z epoll_event) := mkPort ∅ ∅ 1.

Definition demo_requests : list PortRequest := [Register 5 0 kReadEvent; Register 9 1 kWriteEvent; Register 5 0 3].

(** Descriptor 5 is readable and writable in two events and was hung up, a token
    of an older registration of descriptor 9 is stale, the wakeup was drained. *)
Definition demo_events : list epoll_event :=
  [mkEvent 1 (token 1 5); mkEvent 4 (token 1 9); mkEvent 4 0; mkEvent 20 (token 1 5)].

Lemma wait_reports_witness :
  let b := wait (mkPortOptions 4) (serve_all demo_requests demo_port) true (Some demo_events) in
  b = mkBatch [mkNotice (mkIdentity 5 (token 1 5)) 0 11] (mkProgress 4 1 1 1 true) /\
  zlen (notices_ b) <= 4.
Proof.
  intros b. split; [vm_compute; reflexivity|].
  refine (proj1 (proj2 (wait_reports_current_readiness (mkPortOptions 4) demo_port demo_requests true demo_events
    eq_refl _ _))).
  - unfold demo_requests. repeat (apply Forall_cons; split; [left; unfold is_fd; lia|]). constructor.
  - done.
Defined.

Lemma stale_tokens_witness :
  let p := serve_all [Register 5 7 kReadEvent] (serve_all [Cancel 0 5] (serve_all demo_requests demo_port)) in
  registrations_ p !! 5 = Some (mkRegistration (mkIdentity 5 (token 3 5)) 7 1 true) /\
  ~ carries p (token 1 5).
Proof.
  intros p. split; [vm_compute; reflexivity|].
  apply (stale_tokens_stay_stale (mkPortOptions 4) demo_port demo_requests [Cancel 0 5] [Register 5 7 kReadEvent]).
  - reflexivity.
  - unfold demo_requests. simpl. repeat (apply Forall_cons; split; [(left; unfold is_fd; lia) || exact I|]). constructor.
  - exists 5, (mkRegistration (mkIdentity 5 (token 1 5)) 0 3 true). split; vm_compute; reflexivity.
  - intros (fd & r & Hl & Eg).
    destruct (decide (fd = 9)) as [->|Hne].
    + vm_compute in Hl. injection Hl as <-. vm_compute in Eg. discriminate.
    + assert (registrations_ (serve_all [Cancel 0 5] (serve_all demo_requests demo_port)) =
        {[9 := mkRegistration (mkIdentity 9 (token 2 9)) 1 2 true]}) as E by (vm_compute; reflexivity).
      rewrite E, lookup_singleton_ne in Hl by congruence. discriminate.
Defined.
