(* ===== verification/Reactor.v ===== *)
(** * The reactor: channels, their registration and their dispatch

    Model of [gamenet::net::Channel] (src/core/net/Channel.cc), of the parts of
    [EventLoop] that register channels and dispatch their events
    ([updateChannel], [removeChannel], [dispatchActiveChannels],
    [retireCurrentChannel] and the polling step of [loop],
    src/core/net/EventLoop.cc) and of the readiness half of
    [PollerIoEngineAdapter] (src/core/net/detail/PollerIoEngineAdapter.cc), on
    top of the readiness port of [ReadinessPort].

    The loop thread is a machine: it polls, dispatches the polled channels one
    callback at a time, and inside a callback, or between dispatches, user code
    creates, changes, removes, retires and destroys channels in any order.
    Channels are objects at addresses; an address is reused after destruction. *)

From S2P Require Import Prelude ReadinessPort.

Local Open Scope Z_scope.

(** ** Channels *)

(** The four callbacks, in the order [handleEventWithGuard] considers them. *)
Inductive CallbackKind := CloseCallback | ErrorCallback | ReadCallback | WriteCallback.

Global Instance CallbackKind_eq_dec : EqDecision CallbackKind.
Proof. solve_decision. Defined.

(** [tie_]: whether the weak pointer can still be locked; [callbacks_]: which
    callbacks are set. *)
Record Channel := mkChannel {
  fd_ : Z;
  events_ : Z;
  revents_ : Z;
  index_ : Z;
  eventHandling_ : bool;
  addedToLoop_ : bool;
  registrationGeneration_ : Z;
  activeBatchEpoch_ : Z;
  activeBatchIndex_ : nat;
  tied_ : bool;
  tie_ : bool;
  callbacks_ : CallbackKind -> bool;
}.

Definition Channel_new (fd : Z) : Channel :=
  mkChannel fd kNoneEvent 0 (-1) false false 0 0 0 false false (fun _ => false).

Definition isNoneEvent (ch : Channel) : bool := events_ ch =? kNoneEvent.
Definition isWriting (ch : Channel) : bool := has_any (events_ ch) kWriteEvent.
Definition isReading (ch : Channel) : bool := has_any (events_ ch) kReadEvent.

Definition set_events (e : Z) (ch : Channel) : Channel :=
  mkChannel (fd_ ch) e (revents_ ch) (index_ ch) (eventHandling_ ch) (addedToLoop_ ch)
    (registrationGeneration_ ch) (activeBatchEpoch_ ch) (activeBatchIndex_ ch) (tied_ ch) (tie_ ch) (callbacks_ ch).
Definition setRevents (e : Z) (ch : Channel) : Channel :=
  mkChannel (fd_ ch) (events_ ch) e (index_ ch) (eventHandling_ ch) (addedToLoop_ ch)
    (registrationGeneration_ ch) (activeBatchEpoch_ ch) (activeBatchIndex_ ch) (tied_ ch) (tie_ ch) (callbacks_ ch).
Definition setIndex (i : Z) (ch : Channel) : Channel :=
  mkChannel (fd_ ch) (events_ ch) (revents_ ch) i (eventHandling_ ch) (addedToLoop_ ch)
    (registrationGeneration_ ch) (activeBatchEpoch_ ch) (activeBatchIndex_ ch) (tied_ ch) (tie_ ch) (callbacks_ ch).
Definition set_handling (b : bool) (ch : Channel) : Channel :=
  mkChannel (fd_ ch) (events_ ch) (revents_ ch) (index_ ch) b (addedToLoop_ ch)
    (registrationGeneration_ ch) (activeBatchEpoch_ ch) (activeBatchIndex_ ch) (tied_ ch) (tie_ ch) (callbacks_ ch).
Definition set_registered (b : bool) (g : Z) (ch : Channel) : Channel :=
  mkChannel (fd_ ch) (events_ ch) (revents_ ch) (index_ ch) (eventHandling_ ch) b
    g (activeBatchEpoch_ ch) (activeBatchIndex_ ch) (tied_ ch) (tie_ ch) (callbacks_ ch).
Definition set_batch (epoch : Z) (i : nat) (ch : Channel) : Channel :=
  mkChannel (fd_ ch) (events_ ch) (revents_ ch) (index_ ch) (eventHandling_ ch) (addedToLoop_ ch)
    (registrationGeneration_ ch) epoch i (tied_ ch) (tie_ ch) (callbacks_ ch).
Definition set_tie (tied alive : bool) (ch : Channel) : Channel :=
  mkChannel (fd_ ch) (events_ ch) (revents_ ch) (index_ ch) (eventHandling_ ch) (addedToLoop_ ch)
    (registrationGeneration_ ch) (activeBatchEpoch_ ch) (activeBatchIndex_ ch) tied alive (callbacks_ ch).
Definition set_callback (k : CallbackKind) (b : bool) (ch : Channel) : Channel :=
  mkChannel (fd_ ch) (events_ ch) (revents_ ch) (index_ ch) (eventHandling_ ch) (addedToLoop_ ch)
    (registrationGeneration_ ch) (activeBatchEpoch_ ch) (activeBatchIndex_ ch) (tied_ ch) (tie_ ch)
    (fun k' => if decide (k' = k) then b else callbacks_ ch k').

(** ** The loop *)

Inductive IoEnginePhase := Running | Quiescing | EngineShutdown.

Global Instance IoEnginePhase_eq_dec : EqDecision IoEnginePhase.
Proof. solve_decision. Defined.

Inductive IoEngineOperationResult :=
  | IoAccepted | IoRejectedInvalid | IoRejectedNotRegistered | IoRejectedConflict | IoRejectedUnsupported
  | IoRejectedShutdown.

Global Instance IoEngineOperationResult_eq_dec : EqDecision IoEngineOperationResult.
Proof. solve_decision. Defined.

Definition toIoEngineResult (r : ReadinessPortResult) : IoEngineOperationResult :=
  match r with
  | PortAccepted => IoAccepted
  | PortRejectedInvalid => IoRejectedInvalid
  | PortRejectedNotRegistered => IoRejectedNotRegistered
  | PortRejectedConflict => IoRejectedConflict
  | PortRejectedShutdown => IoRejectedShutdown
  end.

Record LoopOptions := mkLoopOptions {
  port_options : ReadinessPortOptions;
  maxActiveChannelsPerIteration : Z;
}.

Section reactor.
Context {K : Type} `{EpollKernel K}.

(** [channels]: the channels that exist, by address;
    [nextRegistrationGeneration] is the process-wide counter of Channel.cc. *)
Record EventLoop := mkLoop {
  readinessPort_ : EpollReadinessPort K;
  phase_ : IoEnginePhase;
  channels : gmap nat Channel;
  activeChannels_ : list (option nat);
  activeChannelCursor_ : nat;
  batchEpoch_ : Z;
  dispatching_ : bool;
  currentActiveChannel_ : option nat;
  retiredCurrentChannel_ : option nat;
  nextRegistrationGeneration : Z;
}.

Definition EventLoop_new (o : LoopOptions) : result EventLoop :=
  match EpollReadinessPort_new (port_options o) with
  | Throw e => Throw e
  | Ok p => Ok (mkLoop p Running ∅ [] 0 0 false None None 1)
  end.

Definition set_channels (f : gmap nat Channel -> gmap nat Channel) (l : EventLoop) : EventLoop :=
  mkLoop (readinessPort_ l) (phase_ l) (f (channels l)) (activeChannels_ l) (activeChannelCursor_ l)
    (batchEpoch_ l) (dispatching_ l) (currentActiveChannel_ l) (retiredCurrentChannel_ l)
    (nextRegistrationGeneration l).
Definition set_port (p : EpollReadinessPort K) (l : EventLoop) : EventLoop :=
  mkLoop p (phase_ l) (channels l) (activeChannels_ l) (activeChannelCursor_ l)
    (batchEpoch_ l) (dispatching_ l) (currentActiveChannel_ l) (retiredCurrentChannel_ l)
    (nextRegistrationGeneration l).
Definition set_phase (ph : IoEnginePhase) (l : EventLoop) : EventLoop :=
  mkLoop (readinessPort_ l) ph (channels l) (activeChannels_ l) (activeChannelCursor_ l)
    (batchEpoch_ l) (dispatching_ l) (currentActiveChannel_ l) (retiredCurrentChannel_ l)
    (nextRegistrationGeneration l).
Definition set_active (a : list (option nat)) (cursor : nat) (l : EventLoop) : EventLoop :=
  mkLoop (readinessPort_ l) (phase_ l) (channels l) a cursor
    (batchEpoch_ l) (dispatching_ l) (currentActiveChannel_ l) (retiredCurrentChannel_ l)
    (nextRegistrationGeneration l).
Definition set_epoch (e : Z) (l : EventLoop) : EventLoop :=
  mkLoop (readinessPort_ l) (phase_ l) (channels l) (activeChannels_ l) (activeChannelCursor_ l)
    e (dispatching_ l) (currentActiveChannel_ l) (retiredCurrentChannel_ l) (nextRegistrationGeneration l).
Definition set_dispatching (b : bool) (l : EventLoop) : EventLoop :=
  mkLoop (readinessPort_ l) (phase_ l) (channels l) (activeChannels_ l) (activeChannelCursor_ l)
    (batchEpoch_ l) b (currentActiveChannel_ l) (retiredCurrentChannel_ l) (nextRegistrationGeneration l).
Definition set_current (cur ret : option nat) (l : EventLoop) : EventLoop :=
  mkLoop (readinessPort_ l) (phase_ l) (channels l) (activeChannels_ l) (activeChannelCursor_ l)
    (batchEpoch_ l) (dispatching_ l) cur ret (nextRegistrationGeneration l).
Definition set_next (n : Z) (l : EventLoop) : EventLoop :=
  mkLoop (readinessPort_ l) (phase_ l) (channels l) (activeChannels_ l) (activeChannelCursor_ l)
    (batchEpoch_ l) (dispatching_ l) (currentActiveChannel_ l) (retiredCurrentChannel_ l) n.

(** Access through a [Channel*]; a dangling one is undefined behaviour. *)
Definition channel (c : nat) : M EventLoop Channel :=
  do l <- get ;;
  match channels l !! c with Some ch => ret ch | None => throw undefined_behaviour end.

Definition change (c : nat) (f : Channel -> Channel) : M EventLoop unit :=
  modify (set_channels (alter f c)).

Definition on_port {A} (m : M (EpollReadinessPort K) A) : M EventLoop A :=
  fun l => let '(r, p) := m (readinessPort_ l) in (r, set_port p l).

(** *** [PollerIoEngineAdapter] *)

Definition hasReadiness (c : nat) : M EventLoop bool :=
  do ch <- channel c ;; gets (fun l => has (readinessPort_ l) c (fd_ ch)).

Definition registerOrUpdateReadiness (c : nat) : M EventLoop IoEngineOperationResult :=
  do l <- get ;;
  do registered <- hasReadiness c ;;
  if bool_decide (phase_ l = EngineShutdown) && negb registered then ret IoRejectedShutdown
  else
    do ch <- channel c ;;
    do ' (r, _) <- on_port (registerOrUpdate (fd_ ch) c (events_ ch)) ;;
    if negb (bool_decide (r = PortAccepted)) then ret (toIoEngineResult r)
    else
      run change c (setIndex (if isNoneEvent ch then 2 else 1)) ;;
      ret IoAccepted.

Definition cancelReadiness (c : nat) : M EventLoop IoEngineOperationResult :=
  do l <- get ;;
  if bool_decide (phase_ l = EngineShutdown) then ret IoRejectedShutdown
  else
    do ch <- channel c ;;
    do r <- on_port (cancel c (fd_ ch)) ;;
    if negb (bool_decide (r = PortAccepted)) then ret (toIoEngineResult r)
    else
      run change c (setIndex (-1)) ;;
      ret IoAccepted.

Definition beginQuiesce (l : EventLoop) : EventLoop :=
  if bool_decide (phase_ l = Running) then set_phase Quiescing l else l.

Definition markShutdown (l : EventLoop) : EventLoop := set_phase EngineShutdown l.

(** *** [EventLoop] *)

Definition allocateRegistrationGeneration : M EventLoop Z :=
  do l <- get ;;
  let g := nextRegistrationGeneration l in
  run modify (set_next (g ⊕ 1)) ;;
  if g =? 0 then
    run modify (set_next (g ⊕ 1 ⊕ 1)) ;; ret (g ⊕ 1)
  else ret g.

(** The channel belongs to this loop. *)
Definition updateChannel (c : nat) : M EventLoop unit :=
  do ch <- channel c ;;
  let newRegistration := negb (addedToLoop_ ch) in
  do r <- registerOrUpdateReadiness c ;;
  run throw_if (negb (bool_decide (r = IoAccepted))) logic_error ;;
  if newRegistration then
    do g <- allocateRegistrationGeneration ;; change c (set_registered true g)
  else ret tt.

(** The entry of a removed channel in the batch being dispatched. *)
Definition forget_active (c : nat) : M EventLoop unit :=
  do l <- get ;;
  do ch <- channel c ;;
  if activeBatchEpoch_ ch =? batchEpoch_ l then
    if bool_decide (activeChannels_ l !! activeBatchIndex_ ch = Some (Some c)) then
      modify (set_active (<[activeBatchIndex_ ch := None]> (activeChannels_ l)) (activeChannelCursor_ l))
    else throw_if (dispatching_ l) log_fatal
  else ret tt.

Definition removeChannel (c : nat) : M EventLoop unit :=
  do ch <- channel c ;;
  run throw_if (negb (addedToLoop_ ch)) logic_error ;;
  run throw_if (negb (isNoneEvent ch)) logic_error ;;
  do registered <- hasReadiness c ;;
  run throw_if (negb registered) logic_error ;;
  do r <- cancelReadiness c ;;
  run throw_if (negb (bool_decide (r = IoAccepted))) logic_error ;;
  run forget_active c ;;
  do g <- allocateRegistrationGeneration ;;
  change c (set_registered false g).

(** *** [Channel] operations *)

Definition enableReading (c : nat) : M EventLoop unit :=
  do ch <- channel c ;;
  if isReading ch then ret tt
  else run change c (set_events (Z.lor (events_ ch) kReadEvent)) ;; updateChannel c.

Definition disableReading (c : nat) : M EventLoop unit :=
  do ch <- channel c ;;
  if negb (isReading ch) then ret tt
  else run change c (set_events (Z.ldiff (events_ ch) kReadEvent)) ;; updateChannel c.

Definition enableWriting (c : nat) : M EventLoop unit :=
  do ch <- channel c ;;
  if isWriting ch then ret tt
  else run change c (set_events (Z.lor (events_ ch) kWriteEvent)) ;; updateChannel c.

Definition disableWriting (c : nat) : M EventLoop unit :=
  do ch <- channel c ;;
  if negb (isWriting ch) then ret tt
  else run change c (set_events (Z.ldiff (events_ ch) kWriteEvent)) ;; updateChannel c.

Definition disableAll (c : nat) : M EventLoop unit :=
  do ch <- channel c ;;
  if isNoneEvent ch then ret tt
  else run change c (set_events kNoneEvent) ;; updateChannel c.

Definition remove (c : nat) : M EventLoop unit :=
  do ch <- channel c ;;
  run throw_if (negb (addedToLoop_ ch)) logic_error ;;
  run throw_if (negb (isNoneEvent ch)) runtime_error ;;
  removeChannel c.

(** [~Channel] and the release of its storage. *)
Definition destroy (c : nat) : M EventLoop unit :=
  do ch <- channel c ;;
  run throw_if (eventHandling_ ch) log_fatal ;;
  run throw_if (addedToLoop_ ch) log_fatal ;;
  modify (set_channels (delete c)).

(** [retireCurrentChannel(std::move(channel))]: a channel that is not the one
    being dispatched is destroyed with the argument. *)
Definition retireCurrentChannel (c : nat) : M EventLoop unit :=
  do l <- get ;;
  if negb (dispatching_ l && bool_decide (currentActiveChannel_ l = Some c)) then destroy c
  else
    run throw_if (bool_decide (retiredCurrentChannel_ l <> None)) log_fatal ;;
    modify (set_current (currentActiveChannel_ l) (Some c)).

(** ** Dispatch *)

(** The test of a stage of [handleEventWithGuard]. *)
Definition wants (k : CallbackKind) (revents : Z) : bool :=
  match k with
  | CloseCallback => has_any revents kCloseEvent && negb (has_any revents kReadEvent)
  | ErrorCallback => has_any revents kErrorEvent
  | ReadCallback => has_any revents kReadEvent
  | WriteCallback => has_any revents kWriteEvent
  end.

Definition all_stages : list CallbackKind := [CloseCallback; ErrorCallback; ReadCallback; WriteCallback].

(** The next callback of [handleEventWithGuard] among the stages left, with the
    stages after it.  A stage without a callback changes nothing. *)
Fixpoint next_stage (ch : Channel) (stages : list CallbackKind) : option (CallbackKind * list CallbackKind) :=
  match stages with
  | [] => None
  | k :: rest => if wants k (revents_ ch) && callbacks_ ch k then Some (k, rest) else next_stage ch rest
  end.

Definition hasPendingActiveChannels (l : EventLoop) : bool :=
  existsb (fun x => match x with Some _ => true | None => false end)
    (drop (activeChannelCursor_ l) (activeChannels_ l)).

(** The notices of a batch, delivered to their channels. *)
Fixpoint deliver (ns : list ReadinessNotice) (l : EventLoop) : EventLoop :=
  match ns with
  | [] => l
  | n :: ns =>
      if isCurrent (readinessPort_ l) (nt_identity n) (nt_target n) then
        deliver ns (set_active (activeChannels_ l ++ [Some (nt_target n)]) (activeChannelCursor_ l)
          (set_channels (alter (setRevents (nt_events n)) (nt_target n)) l))
      else deliver ns l
  end.

(** The polling step of [loop], when no active channel is left over. *)
Definition poll (o : LoopOptions) (drained : bool) (native : option (list epoll_event)) : M EventLoop unit :=
  run modify (set_active [] 0) ;;
  do l <- get ;;
  run throw_if (bool_decide (phase_ l = EngineShutdown)) logic_error ;;
  modify (deliver (notices_ (wait (port_options o) (readinessPort_ l) drained native))).

(** Marking the batch. *)
Fixpoint mark_batch (epoch : Z) (i : nat) (active : list (option nat)) : M EventLoop unit :=
  match active with
  | [] => ret tt
  | None :: active => mark_batch epoch (S i) active
  | Some c :: active =>
      do ch <- channel c ;;
      run throw_if (activeBatchEpoch_ ch =? epoch) log_fatal ;;
      run change c (set_batch epoch i) ;;
      mark_batch epoch (S i) active
  end.

(** [dispatchActiveChannels] up to its loop: [false] when there is nothing to
    dispatch. *)
Definition dispatch_begin : M EventLoop bool :=
  do l <- get ;;
  run throw_if (dispatching_ l) logic_error ;;
  if negb (hasPendingActiveChannels l) then
    run modify (set_active [] 0) ;; ret false
  else
    run (if bool_decide (activeChannelCursor_ l = 0%nat) then
           let e := batchEpoch_ l ⊕ 1 in
           let e := if e =? 0 then e ⊕ 1 else e in
           run modify (set_epoch e) ;; mark_batch e 0 (activeChannels_ l)
         else ret tt) ;;
    run modify (set_dispatching true) ;;
    ret true.

(** [dispatchActiveChannels] after its loop. *)
Definition dispatch_end (l : EventLoop) : EventLoop :=
  let l := set_dispatching false l in
  if hasPendingActiveChannels l then l else set_active [] 0 l.

(** After [handleEvent]: the retired channel is destroyed. *)
Definition finish_channel : M EventLoop unit :=
  do l <- get ;;
  run modify (set_current None None) ;;
  match retiredCurrentChannel_ l with Some c => destroy c | None => ret tt end.

(** ** The machine *)

(** Where the loop thread is: outside the batch; between the poll and the
    dispatch; at the head of the dispatch loop; in a callback [k] of the channel
    [c], dispatched at generation [g], with the stages after it; aborted. *)
Inductive Phase :=
  | Outside
  | Polled
  | Dispatching (drained : nat)
  | InCallback (drained : nat) (c : nat) (g : Z) (k : CallbackKind) (rest : list CallbackKind)
  | Aborted.

Inductive ChannelOp :=
  | OpNew (c : nat) (fd : Z)
  | OpSetCallback (c : nat) (k : CallbackKind) (b : bool)
  | OpTie (c : nat)
  | OpEnableReading (c : nat)
  | OpDisableReading (c : nat)
  | OpEnableWriting (c : nat)
  | OpDisableWriting (c : nat)
  | OpDisableAll (c : nat)
  | OpRemove (c : nat)
  | OpRetire (c : nat)
  | OpDestroy (c : nat).

Definition op_channel (op : ChannelOp) : nat :=
  match op with
  | OpNew c _ | OpSetCallback c _ _ | OpTie c | OpEnableReading c | OpDisableReading c | OpEnableWriting c
  | OpDisableWriting c | OpDisableAll c | OpRemove c | OpRetire c | OpDestroy c => c
  end.

(** User code holds the channel it uses: it exists, it is not created where
    another one is, and one that was given away is not given away again or
    destroyed. *)
Definition may (op : ChannelOp) (l : EventLoop) : bool :=
  match op with
  | OpNew c fd => bool_decide (channels l !! c = None) && (-1 <=? fd) && (fd <=? i32_max)
  | OpRetire c | OpDestroy c =>
      bool_decide (is_Some (channels l !! c)) && negb (bool_decide (retiredCurrentChannel_ l = Some c))
  | _ => bool_decide (is_Some (channels l !! op_channel op))
  end.

Definition perform (op : ChannelOp) : M EventLoop unit :=
  match op with
  | OpNew c fd => modify (set_channels (<[c := Channel_new fd]>))
  | OpSetCallback c k b => change c (set_callback k b)
  | OpTie c => change c (set_tie true true)
  | OpEnableReading c => enableReading c
  | OpDisableReading c => disableReading c
  | OpEnableWriting c => enableWriting c
  | OpDisableWriting c => disableWriting c
  | OpDisableAll c => disableAll c
  | OpRemove c => remove c
  | OpRetire c => retireCurrentChannel c
  | OpDestroy c => destroy c
  end.

(** [calls]: the callbacks invoked, latest last; [polled]: the registration
    generation each channel had when its readiness was polled. *)
Record Machine := mkMachine {
  loop_ : EventLoop;
  at_ : Phase;
  calls : list (nat * CallbackKind);
  polled : gmap nat Z;
}.

Inductive Label :=
  | LOp (op : ChannelOp)       (** user code on the loop thread *)
  | LOtherLoop                 (** another loop allocates a generation *)
  | LExpire (c : nat)          (** the object a channel is tied to is gone *)
  | LQuiesce
  | LShutdown
  | LPoll (drained : bool) (native : option (list epoll_event))
  | LDispatch
  | LTake                      (** one turn of the dispatch loop *)
  | LReturn                    (** the callback returns *)
  | LThrow.                    (** the callback throws *)

Definition user_code (p : Phase) : bool :=
  match p with Outside | InCallback _ _ _ _ _ => true | _ => false end.

(** [finish_channel], then the head of the dispatch loop. *)
Definition leave_channel (m : Machine) (l : EventLoop) (drained c : nat) : Machine :=
  match finish_channel (set_channels (alter (set_handling false) c) l) with
  | (Ok _, l') => mkMachine l' (Dispatching drained) (calls m) (polled m)
  | (Throw _, l') => mkMachine l' Aborted (calls m) (polled m)
  end.

(** [handleEvent] from the stages left on. *)
Definition run_stages (m : Machine) (l : EventLoop) (drained c : nat) (g : Z) (stages : list CallbackKind) :
    option Machine :=
  match channels l !! c with
  | None => None
  | Some ch =>
      match next_stage ch stages with
      | Some (k, rest) => Some (mkMachine l (InCallback drained c g k rest) (calls m ++ [(c, k)]) (polled m))
      | None => Some (leave_channel m l drained c)
      end
  end.

(** The polled generations: those of the channels in the new batch. *)
Definition note_polled (l : EventLoop) : gmap nat Z :=
  omap (fun ch => Some (registrationGeneration_ ch)) (channels l).

(** [epoll_wait] returns at most as many events as it is asked for. *)
Definition native_ok (o : LoopOptions) (native : option (list epoll_event)) : bool :=
  match native with Some evs => zlen evs <=? maxNoticesPerWait (port_options o) | None => true end.

(** [None]: the step is not possible.  A process allocates fewer than 2^64 - 2
    registration generations and dispatches fewer than 2^64 - 1 batches. *)
Definition step (o : LoopOptions) (lb : Label) (m : Machine) : option Machine :=
  let l := loop_ m in
  if negb (nextRegistrationGeneration l <? usize_max) || negb (batchEpoch_ l <? usize_max) then None else
  match lb, at_ m with
  | LOp op, p =>
      if user_code p && may op l then
        match perform op l with
        | (Throw log_fatal, l') => Some (mkMachine l' Aborted (calls m) (polled m))
        | (_, l') => Some (mkMachine l' p (calls m) (polled m))
        end
      else None
  | LOtherLoop, p =>
      Some (mkMachine (set_next (nextRegistrationGeneration l ⊕ 1) l) p (calls m) (polled m))
  | LExpire c, p =>
      Some (mkMachine (set_channels (alter (fun ch => set_tie (tied_ ch) false ch) c) l) p (calls m) (polled m))
  | LQuiesce, Outside => Some (mkMachine (beginQuiesce l) Outside (calls m) (polled m))
  | LShutdown, Outside => Some (mkMachine (markShutdown l) Outside (calls m) (polled m))
  | LPoll drained native, Outside =>
      if hasPendingActiveChannels l || negb (native_ok o native) then None
      else match poll o drained native l with
           | (Ok _, l') => Some (mkMachine l' Polled (calls m) (note_polled l'))
           | (Throw _, l') => Some (mkMachine l' Outside (calls m) (polled m))
           end
  | LDispatch, (Outside | Polled) =>
      match dispatch_begin l with
      | (Ok true, l') => Some (mkMachine l' (Dispatching 0) (calls m) (polled m))
      | (Ok false, l') => Some (mkMachine l' Outside (calls m) (polled m))
      | (Throw _, l') => Some (mkMachine l' Aborted (calls m) (polled m))
      end
  | LTake, Dispatching drained =>
      match activeChannels_ l !! activeChannelCursor_ l with
      | Some entry =>
          if Z.of_nat drained <? maxActiveChannelsPerIteration o then
            let l := set_active (activeChannels_ l) (S (activeChannelCursor_ l)) l in
            match entry with
            | None => Some (mkMachine l (Dispatching drained) (calls m) (polled m))
            | Some c =>
                match channels l !! c with
                | None => None
                | Some ch =>
                    let l := set_current (Some c) (retiredCurrentChannel_ l) l in
                    if tied_ ch && negb (tie_ ch) then Some (leave_channel m l (S drained) c)
                    else run_stages m (set_channels (alter (set_handling true) c) l) (S drained) c
                           (registrationGeneration_ ch) all_stages
                end
            end
          else Some (mkMachine (dispatch_end l) Outside (calls m) (polled m))
      | None => Some (mkMachine (dispatch_end l) Outside (calls m) (polled m))
      end
  | LReturn, InCallback drained c g k rest =>
      match channels l !! c with
      | None => None
      | Some ch =>
          if negb (bool_decide (k = WriteCallback)) && negb (registrationGeneration_ ch =? g)
          then Some (leave_channel m l drained c)
          else run_stages m l drained c g rest
      end
  | LThrow, InCallback drained c g k rest => Some (leave_channel m l drained c)
  | _, _ => None
  end.

Fixpoint steps (o : LoopOptions) (lbs : list Label) (m : Machine) : option Machine :=
  match lbs with
  | [] => Some m
  | lb :: lbs => match step o lb m with Some m' => steps o lbs m' | None => None end
  end.

(** ** Invariant *)

Implicit Type l : EventLoop.

(** The registration of a channel, if it has one. *)
Definition reg_of (p : EpollReadinessPort K) (c : nat) (ch : Channel) : option Registration :=
  match registrations_ p !! fd_ ch with
  | Some r => if decide (target r = c) then Some r else None
  | None => None
  end.

Record channel_ok l (c : nat) (ch : Channel) : Prop := {
  co_fd : is_fd (fd_ ch) \/ fd_ ch = kInvalidSocket;
  co_events : 0 <= events_ ch <= 3;
  co_registered : match reg_of (readinessPort_ l) c ch with
    | Some r => addedToLoop_ ch = true /\ interests r = events_ ch
    | None => addedToLoop_ ch = false
    end;
  co_generation : 0 <= registrationGeneration_ ch < nextRegistrationGeneration l;
  co_epoch : 0 <= activeBatchEpoch_ ch <= batchEpoch_ l;
}.

(** The channels and the port agree. *)
Record base_ok l : Prop := {
  bs_port : port_ok (readinessPort_ l);
  bs_channels : map_Forall (channel_ok l) (channels l);
  bs_targets : forall fd r, registrations_ (readinessPort_ l) !! fd = Some r ->
    exists ch, channels l !! target r = Some ch /\ fd_ ch = fd;
  bs_next : 1 <= nextRegistrationGeneration l;
  bs_epoch : 0 <= batchEpoch_ l;
}.

(** A channel waiting in the batch: it exists and is registered as it was when
    it was polled. *)
Definition waiting l (polled : gmap nat Z) (c : nat) (ch : Channel) : Prop :=
  channels l !! c = Some ch /\ addedToLoop_ ch = true /\ polled !! c = Some (registrationGeneration_ ch).

Definition entry l (i c : nat) : Prop := activeChannels_ l !! i = Some (Some c).

Definition batch_marked l (polled : gmap nat Z) : Prop :=
  forall i c, entry l i c -> exists ch, waiting l polled c ch /\
    activeBatchEpoch_ ch = batchEpoch_ l /\ activeBatchIndex_ ch = i.

Definition batch_fresh l (polled : gmap nat Z) : Prop :=
  (forall i c, entry l i c -> exists ch, waiting l polled c ch) /\
  (forall i j c, entry l i c -> entry l j c -> i = j).

Definition no_callback l : Prop :=
  currentActiveChannel_ l = None /\ retiredCurrentChannel_ l = None /\
  forall c ch, channels l !! c = Some ch -> eventHandling_ ch = false.

Definition in_callback l (polled : gmap nat Z) (c : nat) (g : Z) : Prop :=
  currentActiveChannel_ l = Some c /\
  (retiredCurrentChannel_ l = None \/ retiredCurrentChannel_ l = Some c) /\
  (forall c' ch, channels l !! c' = Some ch -> eventHandling_ ch = true -> c' = c) /\
  (exists ch, channels l !! c = Some ch /\ eventHandling_ ch = true /\
     (registrationGeneration_ ch = g -> addedToLoop_ ch = true /\ polled !! c = Some g)) /\
  0 <= g < nextRegistrationGeneration l.

Definition phase_ok l (polled : gmap nat Z) (p : Phase) : Prop :=
  match p with
  | Outside => no_callback l /\ batch_marked l polled /\ dispatching_ l = false
  | Polled => no_callback l /\ batch_fresh l polled /\ dispatching_ l = false /\ activeChannelCursor_ l = 0%nat
  | Dispatching _ => no_callback l /\ batch_marked l polled /\ dispatching_ l = true
  | InCallback _ c g _ _ => in_callback l polled c g /\ batch_marked l polled /\ dispatching_ l = true
  | Aborted => True
  end.

(** The stages left are those after the current one. *)
Definition stages_ok (p : Phase) : Prop :=
  match p with InCallback _ _ _ k rest => exists before, all_stages = before ++ k :: rest | _ => True end.

Definition minv (m : Machine) : Prop :=
  (at_ m <> Aborted -> base_ok (loop_ m)) /\ phase_ok (loop_ m) (polled m) (at_ m) /\ stages_ok (at_ m).

(** *** Registration *)

(** A change of one channel, its generation kept or replaced by a new one. *)
Definition kept (ch ch' : Channel) : Prop :=
  addedToLoop_ ch' = addedToLoop_ ch /\ registrationGeneration_ ch' = registrationGeneration_ ch.

Definition alike (ch ch' : Channel) : Prop :=
  eventHandling_ ch' = eventHandling_ ch /\ activeBatchEpoch_ ch' = activeBatchEpoch_ ch /\
  activeBatchIndex_ ch' = activeBatchIndex_ ch /\ fd_ ch' = fd_ ch.

(** The rest of the loop. *)
Definition same_batch l l' : Prop :=
  activeChannels_ l' = activeChannels_ l /\ activeChannelCursor_ l' = activeChannelCursor_ l /\
  batchEpoch_ l' = batchEpoch_ l /\ dispatching_ l' = dispatching_ l /\
  currentActiveChannel_ l' = currentActiveChannel_ l /\ retiredCurrentChannel_ l' = retiredCurrentChannel_ l /\
  phase_ l' = phase_ l.

Lemma channel_at c ch l : channels l !! c = Some ch -> channel c l = (Ok ch, l).
Proof. intros E. unfold channel. step_m. by rewrite E. Qed.

Lemma throw_if_false {S A} x (k : unit -> M S A) s : bindM (throw_if false x) k s = k tt s.
Proof. done. Qed.

Lemma hasReadiness_at c ch l :
  channels l !! c = Some ch -> hasReadiness c l = (Ok (has (readinessPort_ l) c (fd_ ch)), l).
Proof. intros E. unfold hasReadiness. by rewrite (bindM_ok _ _ _ _ _ (channel_at c ch l E)). Qed.

Lemma valid_small e : 0 <= e <= 3 -> validInterests e = true.
Proof.
  intros He. assert (e = 0 \/ e = 1 \/ e = 2 \/ e = 3) as [->|[->|[->| ->]]] by lia; reflexivity.
Qed.

Lemma alter_insert_id (cs : gmap nat Channel) c ch f :
  cs !! c = Some ch -> alter f c cs = <[c := f ch]> cs.
Proof.
  intros E. apply map_eq. intros j. destruct (decide (j = c)) as [->|].
  - by rewrite lookup_alter_eq, lookup_insert_eq, E.
  - by rewrite lookup_alter_ne, lookup_insert_ne.
Qed.

(** The rest of the loop does not matter. *)
Lemma base_ok_ext l l' :
  base_ok l -> readinessPort_ l' = readinessPort_ l -> channels l' = channels l ->
  nextRegistrationGeneration l <= nextRegistrationGeneration l' -> batchEpoch_ l <= batchEpoch_ l' ->
  base_ok l'.
Proof.
  intros [Hp Hcs Ht Hn He] Ep Ec En Ee. split; rewrite ?Ep, ?Ec; try done; try lia.
  intros c ch Hc. destruct (Hcs c ch Hc). split; rewrite ?Ep; try done; lia.
Qed.

(** A change of channel [c] and of the registration of its descriptor. *)
Lemma base_ok_insert l l' c ch ch' :
  base_ok l -> channels l !! c = Some ch -> channels l' = <[c := ch']> (channels l) ->
  fd_ ch' = fd_ ch -> port_ok (readinessPort_ l') ->
  nextRegistrationGeneration l <= nextRegistrationGeneration l' -> batchEpoch_ l' = batchEpoch_ l ->
  (forall fd, fd <> fd_ ch -> registrations_ (readinessPort_ l') !! fd = registrations_ (readinessPort_ l) !! fd) ->
  (registrations_ (readinessPort_ l') !! fd_ ch = registrations_ (readinessPort_ l) !! fd_ ch \/
   reg_of (readinessPort_ l') c ch <> None \/
   reg_of (readinessPort_ l) c ch <> None /\ registrations_ (readinessPort_ l') !! fd_ ch = None) ->
  (registrations_ (readinessPort_ l') !! fd_ ch = registrations_ (readinessPort_ l) !! fd_ ch \/
   registrations_ (readinessPort_ l) !! fd_ ch = None \/ reg_of (readinessPort_ l) c ch <> None) ->
  channel_ok l' c ch' -> base_ok l'.
Proof.
  intros [Hp Hcs Ht Hn He] Hc Ecs Efd Hp' Hn' Ee Hoth Hown Hfree Hok.
  assert (forall c2 ch2, channels l !! c2 = Some ch2 -> c2 <> c ->
    reg_of (readinessPort_ l') c2 ch2 = reg_of (readinessPort_ l) c2 ch2) as Hreg.
  { intros c2 ch2 Hc2 Hne. unfold reg_of. destruct (decide (fd_ ch2 = fd_ ch)) as [E|E]; [|by rewrite Hoth].
    rewrite E. destruct Hown as [->|Hown]; [done|].
    assert (forall p, reg_of p c ch <> None -> match registrations_ p !! fd_ ch with
      | Some r => if decide (target r = c2) then Some r else None | None => None end = None) as Hmine.
    { intros p. unfold reg_of. destruct (registrations_ p !! fd_ ch) as [r|]; [|done].
      destruct (decide (target r = c)) as [<-|]; [|done]. intros _. by rewrite decide_False by congruence. }
    destruct Hown as [Hown|[Hown ->]].
    - rewrite (Hmine _ Hown). destruct Hfree as [E2|[->|Hf]]; [|done|by rewrite (Hmine _ Hf)].
      rewrite <- E2. symmetry. by apply Hmine.
    - by rewrite (Hmine _ Hown). }
  split; [done| | |lia|lia].
  - rewrite Ecs. intros c2 ch2 [[<- <-]|[Hne Hc2]]%lookup_insert_Some; [done|].
    apply not_eq_sym in Hne.
    destruct (Hcs c2 ch2 Hc2) as [Hf Hev Hr Hg Hep]. split; [done|done| |lia|lia].
    by rewrite Hreg.
  - intros fd r Hr. rewrite Ecs. destruct (decide (fd = fd_ ch)) as [->|Hne].
    + destruct (decide (target r = c)) as [->|Hd]; [exists ch'; split; [apply lookup_insert_eq|done]|].
      rewrite lookup_insert_ne by done. destruct Hown as [E|[E|[_ E]]]; [|exfalso..].
      * rewrite E in Hr. eauto.
      * unfold reg_of in E. rewrite Hr in E. by rewrite decide_False in E.
      * congruence.
    + rewrite Hoth in Hr by done. destruct (Ht fd r Hr) as (ch2 & Hc2 & Ef). 
      destruct (decide (target r = c)) as [E|]; [|by exists ch2; rewrite lookup_insert_ne].
      exists ch'. rewrite E, lookup_insert_eq. split; [done|]. rewrite E in Hc2. simplify_eq.
Qed.

(** What a change of a channel's events leaves behind. *)
Record updated l (c : nat) (ch : Channel) (e : Z) (r : result unit) l' (ch' : Channel) : Prop := {
  up_result : r <> Throw log_fatal;
  up_base : base_ok l';
  up_channels : channels l' = <[c := ch']> (channels l);
  up_alike : alike ch ch';
  up_batch : same_batch l l';
  up_next : nextRegistrationGeneration l <= nextRegistrationGeneration l';
  up_kept : kept ch ch' \/ addedToLoop_ ch = false /\ registrationGeneration_ ch' = nextRegistrationGeneration l;
}.

Section update.
Context (l : EventLoop) (c : nat) (ch : Channel) (e : Z).
Context (Hb : base_ok l) (Hc : channels l !! c = Some ch) (He : 0 <= e <= 3).
Context (Hnext : nextRegistrationGeneration l < usize_max).

Let l1 := set_channels (alter (set_events e) c) l.

Lemma change_events : channels l1 = <[c := set_events e ch]> (channels l).
Proof. by apply alter_insert_id. Qed.

Lemma change_twice f g : alter g c (alter f c (channels l1)) = <[c := g (f (set_events e ch))]> (channels l).
Proof.
  rewrite (alter_insert_id (channels l1) c (set_events e ch) f), change_events, insert_insert_eq
    by (rewrite change_events; apply lookup_insert_eq).
  rewrite (alter_insert_id _ c (f (set_events e ch))), insert_insert_eq by apply lookup_insert_eq. done.
Qed.

(** The port refused: an unregistered channel with other events. *)
Lemma update_refused r :
  reg_of (readinessPort_ l) c ch = None -> r <> Throw log_fatal -> updated l c ch e r l1 (set_events e ch).
Proof.
  destruct (bs_channels _ Hb c ch Hc) as [Hfd Hev Hreg Hgen Hep].
  intros Hnone Hr. split; try done; [|by apply change_events|by left].
  apply (base_ok_insert l l1 c ch (set_events e ch)); try done; try (by left);
    [by apply change_events|apply Hb|].
  split; simpl; try done. rewrite Hnone in Hreg. unfold reg_of in *. simpl. by rewrite Hnone.
Qed.

(** The port accepted: channel [c] is registered for [e] under [r]. *)
Lemma update_accepted p' r l' ch' :
  port_ok p' -> registrations_ p' = <[fd_ ch := r]> (registrations_ (readinessPort_ l)) ->
  target r = c -> interests r = e ->
  registrations_ (readinessPort_ l) !! fd_ ch = None \/ reg_of (readinessPort_ l) c ch <> None ->
  readinessPort_ l' = p' -> channels l' = <[c := ch']> (channels l) -> same_batch l l' ->
  nextRegistrationGeneration l <= nextRegistrationGeneration l' -> alike ch ch' ->
  events_ ch' = e -> addedToLoop_ ch' = true ->
  (registrationGeneration_ ch' = registrationGeneration_ ch /\ addedToLoop_ ch = true \/
   addedToLoop_ ch = false /\ registrationGeneration_ ch' = nextRegistrationGeneration l /\
   nextRegistrationGeneration l < nextRegistrationGeneration l') ->
  updated l c ch e (Ok tt) l' ch'.
Proof.
  destruct (bs_channels _ Hb c ch Hc) as [Hfd Hev Hreg Hgen Hep]. pose proof (bs_next _ Hb).
  intros Hp' Hr Ht Hi Hfree Ep Ecs Hsame Hn Ha Hev' Hadd Hg.
  assert (reg_of p' c ch' = Some r) as Hreg'.
  { unfold reg_of. destruct Ha as (_ & _ & _ & ->). by rewrite Hr, lookup_insert_eq, decide_True. }
  split; try done.
  2: { destruct Hg as [[? ?]|(? & ? & ?)]; [left; split; congruence|right; done]. }
  destruct Ha as (Hh & Hae & Hai & Hf). destruct Hsame as (_ & _ & Hbe & _).
  apply (base_ok_insert l l' c ch ch'); try done; rewrite ?Ep; try done.
  - intros fd Hne. rewrite Hr. by rewrite lookup_insert_ne by congruence.
  - right. left. unfold reg_of in *. rewrite Hf in Hreg'. by rewrite Hreg'.
  - by right.
  - split; rewrite ?Hf, ?Hae, ?Hbe, ?Hev'; try done; [|lia]. by rewrite Ep, Hreg'.
Qed.

(** The events of a channel change and the loop is told: a registered channel
    keeps its registration; another one becomes registered, or is refused. *)
Lemma update_spec : exists r l' ch', updateChannel c l1 = (r, l') /\ updated l c ch e r l' ch'.
Proof.
  destruct (bs_channels _ Hb c ch Hc) as [Hfd Hev Hreg Hgen Hep]. pose proof (bs_next _ Hb) as Hn1.
  assert (channels l1 !! c = Some (set_events e ch)) as Hc1 by (rewrite change_events; apply lookup_insert_eq).
  unfold updateChannel. rewrite (bindM_ok _ _ _ _ _ (channel_at c _ l1 Hc1)).
  unfold registerOrUpdateReadiness, hasReadiness.
  step_m. unfold channel. step_m. rewrite !Hc1. cbn [fd_ set_events phase_ l1 set_channels readinessPort_].
  destruct (bool_decide (phase_ l = EngineShutdown) && negb (has (readinessPort_ l) c (fd_ ch))) eqn:Esh.
  { apply andb_true_iff in Esh as [_ Hh]. apply negb_true_iff in Hh.
    do 3 eexists. split; [done|]. apply update_refused; [|done].
    unfold has, reg_of in *. destruct (registrations_ _ !! fd_ ch) as [r|]; [|done].
    case_bool_decide; [done|]. by rewrite decide_False. }
  clear Esh. unfold on_port. rewrite Hc1. cbv beta iota. cbn [fd_ events_ set_events].
  change (readinessPort_ l1) with (readinessPort_ l).
  destruct (registerOrUpdate_spec (fd_ ch) c e (readinessPort_ l) (bs_port _ Hb) Hfd)
    as [(E & Hnone & _)|(r & id & p' & E & Hp' & Hres)].
  { rewrite E. do 3 eexists. split; [done|]. apply update_refused; [|done].
    unfold reg_of. by rewrite Hnone. }
  rewrite E. cbv beta iota.
  destruct Hres as [Hinv Ep|r0 Hr0 Ht Ep|r0 Hn H0 Hr Ht Hi Hg Hnx|r0 r1 Hr0 Ht Hr Ht1 Hi1 Hid Hnx].
  - simpl. rewrite Ep. do 3 eexists. split; [done|]. apply update_refused; [|done].
    destruct (reg_of (readinessPort_ l) c ch) as [r|] eqn:Er; [|done]. exfalso.
    unfold reg_of in Er. destruct (registrations_ (readinessPort_ l) !! fd_ ch) as [r'|] eqn:El; [|done].
    destruct (po_registrations _ (bs_port _ Hb) _ _ El) as (Hf & _). rewrite (valid_small e He) in Hinv.
    unfold is_fd, kInvalidSocket in *. destruct Hinv as [Hinv|[|[Hinv _]]]; [lia|done|done].
  - simpl. rewrite Ep. do 3 eexists. split; [done|]. apply update_refused; [|done].
    unfold reg_of. rewrite Hr0. by rewrite decide_False.
  - assert (reg_of (readinessPort_ l) c ch = None) as Hnone by (unfold reg_of; by rewrite Hn).
    rewrite Hnone in Hreg. simpl. rewrite Hreg. cbv beta iota. unfold allocateRegistrationGeneration. step_m.
    cbn. rewrite (proj2 (Z.eqb_neq _ 0)) by lia. cbn.
    do 3 eexists. split; [reflexivity|].
    apply (update_accepted p' r0 _ (set_registered true (nextRegistrationGeneration l)
      (setIndex (if isNoneEvent (set_events e ch) then 2 else 1) (set_events e ch)))); try done; try (by left);
      cbn; rewrite ?change_twice, ?uwrap_small by lia; try done; try lia.
    right. split_and!; try done. lia.
  - assert (reg_of (readinessPort_ l) c ch = Some r0) as Hsome by (unfold reg_of; by rewrite Hr0, decide_True).
    rewrite Hsome in Hreg. destruct Hreg as [Hadd Hint]. simpl. rewrite Hadd. cbv beta iota. cbn.
    do 3 eexists. split; [reflexivity|].
    apply (update_accepted p' r1 _ (setIndex (if isNoneEvent (set_events e ch) then 2 else 1) (set_events e ch)));
      try done; cbn; try lia; [right; by rewrite Hsome| |by left].
    rewrite (alter_insert_id (channels l1) c (set_events e ch)) by done.
    by rewrite change_events, insert_insert_eq.
Qed.

End update.

(** *** Removal *)

(** The batch after the removal of a channel: its entry, if it has one. *)
Definition forgotten l (c : nat) (ch : Channel) : list (option nat) :=
  if (activeBatchEpoch_ ch =? batchEpoch_ l) &&
     bool_decide (activeChannels_ l !! activeBatchIndex_ ch = Some (Some c))
  then <[activeBatchIndex_ ch := None]> (activeChannels_ l) else activeChannels_ l.

(** The channel was in the batch being dispatched and is not any more. *)
Definition left_batch l (c : nat) (ch : Channel) : Prop :=
  activeBatchEpoch_ ch = batchEpoch_ l /\ activeChannels_ l !! activeBatchIndex_ ch <> Some (Some c).

Record removed l (c : nat) (ch : Channel) l' (ch' : Channel) : Prop := {
  rm_base : base_ok l';
  rm_channels : channels l' = <[c := ch']> (channels l);
  rm_alike : alike ch ch';
  rm_was : addedToLoop_ ch = true;
  rm_now : addedToLoop_ ch' = false;
  rm_generation : registrationGeneration_ ch' = nextRegistrationGeneration l;
  rm_next : nextRegistrationGeneration l' = nextRegistrationGeneration l + 1;
  rm_active : activeChannels_ l' = forgotten l c ch;
  rm_cursor : activeChannelCursor_ l' = activeChannelCursor_ l;
  rm_epoch : batchEpoch_ l' = batchEpoch_ l;
  rm_dispatching : dispatching_ l' = dispatching_ l;
  rm_current : currentActiveChannel_ l' = currentActiveChannel_ l /\ retiredCurrentChannel_ l' = retiredCurrentChannel_ l;
}.

Lemma cancelReadiness_ok l c ch p' :
  channels l !! c = Some ch -> phase_ l <> EngineShutdown ->
  cancel c (fd_ ch) (readinessPort_ l) = (Ok PortAccepted, p') ->
  cancelReadiness c l = (Ok IoAccepted, set_channels (<[c := setIndex (-1) ch]>) (set_port p' l)).
Proof.
  intros Hc Hph Hcan. unfold cancelReadiness, on_port, channel. step_m.
  rewrite (bool_decide_false _ Hph), Hc. cbn [fd_]. rewrite Hcan.
  rewrite bool_decide_true by done. unfold change, set_channels. step_m. cbn.
  by rewrite (alter_insert_id _ c ch).
Qed.

Lemma forget_active_spec l c ch :
  channels l !! c = Some ch ->
  (forget_active c l = (Throw log_fatal, l) /\ dispatching_ l = true /\ left_batch l c ch) \/
  (forget_active c l = (Ok tt, set_active (forgotten l c ch) (activeChannelCursor_ l) l) /\
     ~ (dispatching_ l = true /\ left_batch l c ch)).
Proof.
  intros Hc. unfold forget_active, forgotten, left_batch, channel. step_m. rewrite Hc.
  destruct (activeBatchEpoch_ ch =? batchEpoch_ l) eqn:Ee; cbn; [case_bool_decide|].
  - right. split; [done|]. tauto.
  - zify_bools. destruct (dispatching_ l) eqn:Ed; [by left|right; split; [by destruct l|by intros []]].
  - zify_bools. right. split; [by destruct l|]. tauto.
Qed.

Lemma allocate_spec l :
  1 <= nextRegistrationGeneration l < usize_max ->
  allocateRegistrationGeneration l =
    (Ok (nextRegistrationGeneration l), set_next (nextRegistrationGeneration l + 1) l).
Proof.
  intros Hn. unfold allocateRegistrationGeneration. step_m. rewrite uwrap_small by lia.
  by rewrite (proj2 (Z.eqb_neq _ 0)) by lia.
Qed.

Lemma remove_spec l c ch :
  base_ok l -> channels l !! c = Some ch -> nextRegistrationGeneration l < usize_max ->
  (exists x, remove c l = (Throw x, l) /\ x <> log_fatal /\
     (addedToLoop_ ch = false \/ isNoneEvent ch = false \/ phase_ l = EngineShutdown)) \/
  (exists l', remove c l = (Throw log_fatal, l') /\ dispatching_ l = true /\ addedToLoop_ ch = true /\
     left_batch l c ch) \/
  (exists l' ch', remove c l = (Ok tt, l') /\ removed l c ch l' ch' /\ ~ (dispatching_ l = true /\ left_batch l c ch)).
Proof.
  intros Hb Hc Hnext. destruct (bs_channels _ Hb c ch Hc) as [Hfd Hev Hreg Hgen Hep].
  pose proof (bs_next _ Hb) as Hn1.
  unfold remove. rewrite (bindM_ok _ _ _ _ _ (channel_at c ch l Hc)).
  destruct (addedToLoop_ ch) eqn:Hadd; [|left; eexists; split_and!; auto; done].
  destruct (isNoneEvent ch) eqn:Hnone; [|left; eexists; split_and!; auto; done].
  cbn [negb]. rewrite !throw_if_false. unfold removeChannel.
  rewrite (bindM_ok _ _ _ _ _ (channel_at c ch l Hc)), Hadd, Hnone. cbn [negb]. rewrite !throw_if_false.
  rewrite (bindM_ok _ _ _ _ _ (hasReadiness_at c ch l Hc)).
  destruct (reg_of (readinessPort_ l) c ch) as [r|] eqn:Er; [|done]. destruct Hreg as [_ Hint].
  assert (registrations_ (readinessPort_ l) !! fd_ ch = Some r /\ target r = c) as [Hr Ht].
  { unfold reg_of in Er. destruct (registrations_ _ !! fd_ ch) as [r'|]; [|done]. by case_decide; simplify_eq. }
  assert (has (readinessPort_ l) c (fd_ ch) = true) as -> by (unfold has; by rewrite Hr, bool_decide_true).
  cbn [negb]. rewrite throw_if_false.
  destruct (decide (phase_ l = EngineShutdown)) as [Hsh|Hsh].
  { left. unfold cancelReadiness. step_m. rewrite (bool_decide_true _ Hsh). eexists. split_and!; auto; done. }
  destruct (cancel_spec c (fd_ ch) (readinessPort_ l) (bs_port _ Hb))
    as [[_ E]|[(_ & r' & E & ?)|(r' & p' & Ecan & Hp' & E & _ & Hr' & _)]]; [congruence|congruence|].
  rewrite (bindM_ok _ _ _ _ _ (cancelReadiness_ok l c ch p' Hc Hsh Ecan)).
  rewrite (bool_decide_true (IoAccepted = IoAccepted)) by done. cbn [negb]. rewrite throw_if_false.
  set (l2 := set_channels (<[c := setIndex (-1) ch]>) (set_port p' l)).
  assert (channels l2 !! c = Some (setIndex (-1) ch)) as Hc2 by apply lookup_insert_eq.
  assert (forgotten l2 c (setIndex (-1) ch) = forgotten l c ch) as Ef by done.
  destruct (forget_active_spec l2 c _ Hc2) as [(E2 & Hd & Hleft)|[E2 Hnot]].
  { right; left. rewrite (bindM_throw _ _ _ _ _ E2). eexists. split; [done|]. done. }
  right; right. rewrite (bindM_ok _ _ _ _ _ E2).
  rewrite (bindM_ok _ _ _ _ _ (allocate_spec (set_active (forgotten l2 c (setIndex (-1) ch)) (activeChannelCursor_ l2) l2)
    ltac:(cbn; lia))).
  assert (forall f, alter f c (channels l2) = <[c := f (setIndex (-1) ch)]> (channels l)) as Halt.
  { intros f. rewrite (alter_insert_id _ c (setIndex (-1) ch)) by done. apply insert_insert_eq. }
  eexists _, (set_registered false (nextRegistrationGeneration l) (setIndex (-1) ch)).
  split; [done|]. split; [|done]. split; try done; [|apply Halt].
  eapply (base_ok_insert l _ c ch (set_registered false (nextRegistrationGeneration l) (setIndex (-1) ch)));
    try done; [apply Halt|cbn; lia|..]; cbn.
  - intros fd Hne. by rewrite Hr', lookup_delete_ne by congruence.
  - right. right. rewrite Er. split; [done|]. by rewrite Hr', lookup_delete_eq.
  - right; right. by rewrite Er.
  - split; cbn; try done; [|lia]. unfold reg_of. cbn. by rewrite Hr', lookup_delete_eq.
Qed.

(** *** Frames *)

(** What a change of the loop must keep for the batch and the callback in
    progress: waiting channels keep their registration and their place, the
    channel being handled stays and keeps its generation or gets a new one. *)
Record frame l l' : Prop := {
  fr_entry : forall i c ch, entry l' i c -> channels l !! c = Some ch ->
    entry l i c /\ exists ch', channels l' !! c = Some ch' /\ kept ch ch' /\ alike ch ch';
  fr_sub : forall i c, entry l' i c -> entry l i c;
  fr_handling : forall c ch', channels l' !! c = Some ch' -> eventHandling_ ch' = true ->
    exists ch, channels l !! c = Some ch /\ eventHandling_ ch = true;
  fr_current : forall c ch, channels l !! c = Some ch -> eventHandling_ ch = true ->
    exists ch', channels l' !! c = Some ch' /\ eventHandling_ ch' = true /\
      (kept ch ch' \/ nextRegistrationGeneration l <= registrationGeneration_ ch');
  fr_cursor : activeChannelCursor_ l' = activeChannelCursor_ l;
  fr_epoch : batchEpoch_ l' = batchEpoch_ l;
  fr_dispatching : dispatching_ l' = dispatching_ l;
  fr_cur : currentActiveChannel_ l' = currentActiveChannel_ l;
  fr_retired : retiredCurrentChannel_ l' = retiredCurrentChannel_ l \/
    exists c, currentActiveChannel_ l = Some c /\ retiredCurrentChannel_ l' = Some c;
  fr_next : nextRegistrationGeneration l <= nextRegistrationGeneration l';
}.

Lemma frame_waiting l l' pl i c ch :
  frame l l' -> entry l' i c -> waiting l pl c ch ->
  exists ch', waiting l' pl c ch' /\ alike ch ch'.
Proof.
  intros Hf He (Hc & Ha & Hp). destruct (fr_entry _ _ Hf i c ch He Hc) as (_ & ch' & Hc' & [Ha' Hg'] & Hal).
  exists ch'. split; [|done]. split_and!; [done|congruence|congruence].
Qed.

Lemma frame_marked l l' pl : frame l l' -> batch_marked l pl -> batch_marked l' pl.
Proof.
  intros Hf Hm i c He. destruct (Hm i c (fr_sub _ _ Hf i c He)) as (ch & Hw & Hep & Hix).
  destruct (frame_waiting l l' pl i c ch Hf He Hw) as (ch' & Hw' & (_ & E1 & E2 & _)).
  exists ch'. rewrite (fr_epoch _ _ Hf). split_and!; [done|congruence|congruence].
Qed.

Lemma frame_no_callback l l' : frame l l' -> no_callback l -> no_callback l'.
Proof.
  intros Hf (Hcur & Hret & Hh). split_and!.
  - by rewrite (fr_cur _ _ Hf).
  - destruct (fr_retired _ _ Hf) as [->|(c & E & _)]; [done|congruence].
  - intros c ch' Hc'. destruct (eventHandling_ ch') eqn:E; [|done].
    destruct (fr_handling _ _ Hf c ch' Hc' E) as (ch & Hc & E2). rewrite (Hh c ch Hc) in E2. done.
Qed.

Lemma frame_phase l l' pl p : frame l l' -> phase_ok l pl p -> phase_ok l' pl p.
Proof.
  intros Hf. pose proof (frame_marked l l' pl Hf) as Hm. pose proof (frame_no_callback l l' Hf) as Hn.
  destruct p as [| |d|d c g k rest|]; simpl; try done; rewrite ?(fr_dispatching _ _ Hf), ?(fr_cursor _ _ Hf).
  - tauto.
  - intros (? & [Hw Hu] & ? & ?). split_and!; auto. split.
    + intros i c He. destruct (Hw i c (fr_sub _ _ Hf i c He)) as (ch & Hwt).
      destruct (frame_waiting l l' pl i c ch Hf He Hwt) as (ch' & ? & _). eauto.
    + intros i j c Hi Hj. eapply Hu; by apply (fr_sub _ _ Hf).
  - tauto.
  - intros ((Hcur & Hret & Hoth & (ch & Hc & Hh & Hk) & Hg) & Hbm & Hd). split_and!; [|auto|done].
    split_and!; [by rewrite (fr_cur _ _ Hf)| | | |lia|pose proof (fr_next _ _ Hf); lia].
    + destruct (fr_retired _ _ Hf) as [->|(c' & E & ->)]; [done|right; congruence].
    + intros c' ch' Hc' Hh'. destruct (fr_handling _ _ Hf c' ch' Hc' Hh') as (ch2 & ? & ?). eauto.
    + destruct (fr_current _ _ Hf c ch Hc Hh) as (ch' & Hc' & Hh' & Hkk). exists ch'. split_and!; [done|done|].
      intros Eg. destruct Hkk as [[Ha Hge]|Hge]; [|lia]. rewrite Ha. apply Hk. congruence.
Qed.

(** One channel changes. *)
Lemma frame_one l l' c ch ch' :
  base_ok l -> channels l !! c = Some ch -> channels l' = <[c := ch']> (channels l) -> alike ch ch' ->
  activeChannelCursor_ l' = activeChannelCursor_ l -> batchEpoch_ l' = batchEpoch_ l ->
  dispatching_ l' = dispatching_ l -> currentActiveChannel_ l' = currentActiveChannel_ l ->
  (retiredCurrentChannel_ l' = retiredCurrentChannel_ l \/
   exists c, currentActiveChannel_ l = Some c /\ retiredCurrentChannel_ l' = Some c) ->
  nextRegistrationGeneration l <= nextRegistrationGeneration l' ->
  (forall i c', entry l' i c' -> entry l i c') ->
  (kept ch ch' \/ nextRegistrationGeneration l <= registrationGeneration_ ch' /\ forall i, ~ entry l' i c) ->
  frame l l'.
Proof.
  intros Hb Hc Ecs (Eh & Eal) ? ? ? ? ? ? Hsub Hkeep. split; try done.
  - intros i c2 ch2 He Hc2. split; [by apply Hsub|]. rewrite Ecs. destruct (decide (c2 = c)) as [->|Hne].
    + rewrite lookup_insert_eq. simplify_eq. eexists. split; [done|].
      destruct Hkeep as [|[_ Hno]]; [done|by destruct (Hno i)].
    + rewrite lookup_insert_ne by done. by exists ch2.
  - intros c2 ch2. rewrite Ecs. intros [[<- <-]|[_ Hc2]]%lookup_insert_Some Hh; [exists ch; by rewrite <- Eh|eauto].
  - intros c2 ch2 Hc2 Hh. rewrite Ecs. destruct (decide (c2 = c)) as [->|Hne].
    + rewrite lookup_insert_eq. simplify_eq. eexists. split_and!; [done|by rewrite Eh|tauto].
    + rewrite lookup_insert_ne by done. exists ch2. split_and!; [done|done|by left].
Qed.

Lemma frame_next l n : nextRegistrationGeneration l <= n -> frame l (set_next n l).
Proof.
  intros Hn. split; simpl; try done; try lia.
  - intros i c ch He Hc. split; [done|]. by exists ch.
  - eauto.
  - intros c ch Hc Hh. exists ch. split_and!; [done|done|by left].
  - by left.
Qed.

(** *** User code *)

(** The channels of the batch exist and are registered. *)
Lemma entry_added l pl p i c :
  phase_ok l pl p -> p <> Aborted -> entry l i c -> exists ch, channels l !! c = Some ch /\ addedToLoop_ ch = true.
Proof.
  intros Hp Hna He. destruct p; simpl in Hp; try done.
  - destruct Hp as (_ & Hm & _). destruct (Hm i c He) as (ch & (? & ? & _) & _). eauto.
  - destruct Hp as (_ & [Hm _] & _). destruct (Hm i c He) as (ch & (? & ? & _)). eauto.
  - destruct Hp as (_ & Hm & _). destruct (Hm i c He) as (ch & (? & ? & _) & _). eauto.
  - destruct Hp as (_ & Hm & _). destruct (Hm i c He) as (ch & (? & ? & _) & _). eauto.
Qed.

Lemma updated_frame l pl p c ch e r l' ch' :
  base_ok l -> phase_ok l pl p -> p <> Aborted -> channels l !! c = Some ch ->
  updated l c ch e r l' ch' -> frame l l'.
Proof.
  intros Hb Hp Hna Hc [Hr Hb' Ecs Hal (Ea & Ecu & Eep & Ed & Ecc & Er & _) Hn Hk].
  apply (frame_one l l' c ch ch'); try done; [by left|unfold entry; by rewrite Ea|].
  destruct Hk as [|[Hadd Hg]]; [by left|right]. split; [lia|]. intros i He. unfold entry in He. rewrite Ea in He.
  destruct (entry_added l pl p i c Hp Hna He) as (ch2 & Hc2 & Ha2). congruence.
Qed.

Lemma forgotten_entry l c ch i c' :
  forgotten l c ch !! i = Some (Some c') -> activeChannels_ l !! i = Some (Some c').
Proof.
  unfold forgotten. destruct (_ && _); [|done]. intros [(<- & E & _)|[_ ?]]%list_lookup_insert_Some; [|done].
  by simplify_eq.
Qed.

Lemma removed_frame l pl p c ch l' ch' :
  base_ok l -> phase_ok l pl p -> p <> Aborted -> p <> Polled -> channels l !! c = Some ch ->
  removed l c ch l' ch' -> frame l l'.
Proof.
  intros Hb Hp Hna Hnp Hc [Hb' Ecs Hal Hwas Hnow Hg Hn Ea Ecu Eep Ed [Ecc Er]].
  apply (frame_one l l' c ch ch'); try done; [by left|lia| |].
  - unfold entry. rewrite Ea. intros i c'. apply forgotten_entry.
  - right. split; [lia|]. unfold entry. rewrite Ea. intros i He.
    pose proof (forgotten_entry _ _ _ _ _ He) as He0.
    assert (batch_marked l pl) as Hm by (destruct p; simpl in Hp; tauto).
    destruct (Hm i c He0) as (ch2 & (Hc2 & _) & E1 & E2). simplify_eq.
    unfold forgotten in He. rewrite (proj2 (Z.eqb_eq _ _)) in He by done.
    rewrite bool_decide_true in He by done. simpl in He.
    rewrite list_lookup_insert_eq in He; [done|]. by eapply lookup_lt_Some.
Qed.

(** Changes of a channel that touch neither its registration nor its batch. *)
Lemma cosmetic l pl p c f :
  base_ok l -> phase_ok l pl p ->
  (forall ch, alike ch (f ch) /\ kept ch (f ch) /\ events_ (f ch) = events_ ch) ->
  base_ok (set_channels (alter f c) l) /\ phase_ok (set_channels (alter f c) l) pl p.
Proof.
  intros Hb Hp Hf. destruct (channels l !! c) as [ch|] eqn:Hc.
  2: { assert (set_channels (alter f c) l = l) as ->; [|done].
       unfold set_channels. rewrite alter_id; [by destruct l|]. intros ch Hch. congruence. }
  destruct (Hf ch) as (Hal & [Hk1 Hk2] & Hev).
  assert (channels (set_channels (alter f c) l) = <[c := f ch]> (channels l)) as Ecs by by apply alter_insert_id.
  split.
  - destruct (bs_channels _ Hb c ch Hc) as [Hfd Hevs Hreg Hgen Hep]. pose proof Hal as (_ & E1 & _ & E2).
    apply (base_ok_insert l _ c ch (f ch)); try done; try (by left); [apply Hb|].
    split; rewrite ?E2, ?E1, ?Hev, ?Hk2; try done. unfold reg_of in *. simpl. by rewrite E2, Hk1.
  - eapply frame_phase; [|done]. apply (frame_one l _ c ch (f ch)); try done; by left.
Qed.

Lemma events_cases e : 0 <= e <= 3 -> e = 0 \/ e = 1 \/ e = 2 \/ e = 3.
Proof. lia. Qed.

Lemma new_ok l pl p c fd :
  base_ok l -> phase_ok l pl p -> p <> Aborted -> channels l !! c = None -> -1 <= fd <= i32_max ->
  base_ok (set_channels (<[c := Channel_new fd]>) l) /\ phase_ok (set_channels (<[c := Channel_new fd]>) l) pl p.
Proof.
  intros Hb Hp Hna Hc Hfd. destruct Hb as [Hpo Hcs Ht Hn He] eqn:EE. clear EE. split.
  - split; simpl; try done.
    + intros c2 ch2 [[<- <-]|[Hne Hc2]]%lookup_insert_Some.
      * split; simpl; [unfold is_fd, kInvalidSocket; lia|done| |lia|lia]. unfold reg_of. simpl.
        destruct (registrations_ _ !! fd) as [r|] eqn:Er; [|done]. case_decide as E; [|done].
        destruct (Ht fd r Er) as (ch & Hch & _). congruence.
      * by destruct (Hcs c2 ch2 Hc2); split.
    + intros fd' r Hr. destruct (Ht fd' r Hr) as (ch & Hch & Ef). exists ch.
      rewrite lookup_insert_ne by congruence. done.
  - eapply frame_phase; [|done]. split; simpl; try done; try lia; [|..|by left].
    + intros i c2 ch2 He2 Hc2. split; [done|]. exists ch2. rewrite lookup_insert_ne by congruence. done.
    + intros c2 ch2 [[<- <-]|[_ Hc2]]%lookup_insert_Some Hh; [done|eauto].
    + intros c2 ch2 Hc2 Hh. exists ch2. rewrite lookup_insert_ne by congruence. split_and!; [done|done|by left].
Qed.

(** Destruction of a channel that is not registered and not being handled. *)
Lemma destroy_ok l pl p c ch :
  base_ok l -> phase_ok l pl p -> p <> Aborted -> channels l !! c = Some ch ->
  addedToLoop_ ch = false -> eventHandling_ ch = false -> retiredCurrentChannel_ l <> Some c ->
  base_ok (set_channels (delete c) l) /\ phase_ok (set_channels (delete c) l) pl p.
Proof.
  intros Hb Hp Hna Hc Hadd Hh Hret. destruct Hb as [Hpo Hcs Ht Hn He] eqn:EE. clear EE. split.
  - split; simpl; try done.
    + intros c2 ch2 [Hne Hc2]%lookup_delete_Some. by destruct (Hcs c2 ch2 Hc2); split.
    + intros fd' r Hr. destruct (Ht fd' r Hr) as (ch2 & Hch & Ef). exists ch2.
      rewrite lookup_delete_ne; [done|]. intros ->. simplify_eq.
      destruct (Hcs _ _ Hc) as [_ _ Hreg _ _]. unfold reg_of in Hreg. rewrite Hr, decide_True in Hreg by done.
      destruct Hreg. congruence.
  - assert (forall c2, c2 = c -> forall i, ~ entry l i c2) as Hno.
    { intros c2 -> i He2. destruct (entry_added l pl p i c Hp Hna He2) as (ch2 & Hc2 & Ha2). congruence. }
    eapply frame_phase; [|done]. split; simpl; try done; try lia; [|..|by left].
    + intros i c2 ch2 He2 Hc2. split; [done|]. exists ch2.
      rewrite lookup_delete_ne; [done|]. intros ->. by apply (Hno c2 eq_refl i).
    + intros c2 ch2 [_ Hc2]%lookup_delete_Some Hh2. eauto.
    + intros c2 ch2 Hc2 Hh2. exists ch2. rewrite lookup_delete_ne by congruence. split_and!; [done|done|by left].
Qed.

(** What makes user code abort: destroying or giving away a channel that is
    registered or being handled, and removing again a channel that has already
    left the batch being dispatched. *)
Definition misuse l (op : ChannelOp) : Prop :=
  match op with
  | OpRemove c => exists ch, channels l !! c = Some ch /\ addedToLoop_ ch = true /\
      dispatching_ l = true /\ left_batch l c ch
  | OpDestroy c | OpRetire c => exists ch, channels l !! c = Some ch /\
      (addedToLoop_ ch = true \/ eventHandling_ ch = true)
  | _ => False
  end.

Lemma destroy_spec l c ch :
  channels l !! c = Some ch ->
  (destroy c l = (Throw log_fatal, l) /\ (addedToLoop_ ch = true \/ eventHandling_ ch = true)) \/
  (destroy c l = (Ok tt, set_channels (delete c) l) /\ addedToLoop_ ch = false /\ eventHandling_ ch = false).
Proof.
  intros Hc. unfold destroy. rewrite (bindM_ok _ _ _ _ _ (channel_at c ch l Hc)).
  destruct (eventHandling_ ch); [left; auto|]. destruct (addedToLoop_ ch); [left; auto|right; auto].
Qed.

(** A request to change the events of a channel: nothing, or [updateChannel]. *)
Lemma events_request l pl p c ch b e r l' :
  base_ok l -> phase_ok l pl p -> p <> Aborted -> channels l !! c = Some ch -> 0 <= e <= 3 ->
  nextRegistrationGeneration l < usize_max ->
  (do ch <- channel c ;;
   if (b : bool) then ret tt else run change c (set_events e) ;; updateChannel c)%exec l = (r, l') ->
  r <> Throw log_fatal /\ base_ok l' /\ phase_ok l' pl p.
Proof.
  intros Hb Hp Hna Hc He Hn. rewrite (bindM_ok _ _ _ _ _ (channel_at c ch l Hc)). destruct b.
  { intros [= <- <-]. done. }
  destruct (update_spec l c ch e Hb Hc He Hn) as (r1 & l1 & ch1 & E & Hup).
  change ((run change c (set_events e);; updateChannel c) l) with
    (updateChannel c (set_channels (alter (set_events e) c) l)).
  rewrite E. intros [= <- <-]. split_and!; [apply Hup|apply Hup|].
  eapply frame_phase; [by eapply updated_frame|done].
Qed.

Lemma perform_ok op l pl p r l' :
  base_ok l -> phase_ok l pl p -> user_code p = true -> may op l = true ->
  nextRegistrationGeneration l < usize_max -> perform op l = (r, l') ->
  (r <> Throw log_fatal -> base_ok l' /\ phase_ok l' pl p) /\ (r = Throw log_fatal -> misuse l op).
Proof.
  intros Hb Hp Hu Hmay Hn Hop. assert (p <> Aborted /\ p <> Polled) as [Hna Hnp] by (destruct p; done).
  assert (forall c f, (forall ch, alike ch (f ch) /\ kept ch (f ch) /\ events_ (f ch) = events_ ch) ->
    change c f l = (r, l') -> (r <> Throw log_fatal -> base_ok l' /\ phase_ok l' pl p) /\ (r = Throw log_fatal -> False))
    as Hcos by (intros c f Hf [= <- <-]; split; [intros; by apply cosmetic|done]).
  assert (forall c ch b e, channels l !! c = Some ch -> 0 <= e <= 3 ->
    (do ch <- channel c ;; if (b : bool) then ret tt else run change c (set_events e) ;; updateChannel c)%exec l = (r, l') ->
    (r <> Throw log_fatal -> base_ok l' /\ phase_ok l' pl p) /\ (r = Throw log_fatal -> False)) as Hev.
  { intros c ch b e Hc He E. by destruct (events_request l pl p c ch b e r l' Hb Hp Hna Hc He Hn E) as (? & ? & ?). }
  assert (forall c, bool_decide (is_Some (channels l !! c)) = true ->
    exists ch, channels l !! c = Some ch /\ channel c l = (Ok ch, l) /\
      (events_ ch = 0 \/ events_ ch = 1 \/ events_ ch = 2 \/ events_ ch = 3)) as Hlive.
  { intros c [ch Hch]%bool_decide_eq_true. exists ch. split_and!; [done|by apply channel_at|].
    destruct (bs_channels _ Hb c ch Hch) as [_ He _ _ _]. by apply events_cases. }
  destruct op as [c fd|c k b|c|c|c|c|c|c|c|c|c]; simpl in *.
  - injection Hop as <- <-. rewrite !andb_true_iff in Hmay. destruct Hmay as [[Hc%bool_decide_eq_true H1] H2].
    zify_bools. split; [intros; by apply new_ok|done].
  - by apply (Hcos c (set_callback k b)).
  - by apply (Hcos c (set_tie true true)).
  - destruct (Hlive c Hmay) as (ch & Hc & Ec & Hcase). unfold enableReading in Hop.
    rewrite (bindM_ok _ _ _ _ _ Ec) in Hop.
    apply (Hev c ch (isReading ch) (Z.lor (events_ ch) kReadEvent)); [done| |by rewrite (bindM_ok _ _ _ _ _ Ec)].
    by destruct Hcase as [->|[->|[->| ->]]].
  - destruct (Hlive c Hmay) as (ch & Hc & Ec & Hcase). unfold disableReading in Hop.
    rewrite (bindM_ok _ _ _ _ _ Ec) in Hop.
    apply (Hev c ch (negb (isReading ch)) (Z.ldiff (events_ ch) kReadEvent)); [done| |by rewrite (bindM_ok _ _ _ _ _ Ec)].
    by destruct Hcase as [->|[->|[->| ->]]].
  - destruct (Hlive c Hmay) as (ch & Hc & Ec & Hcase). unfold enableWriting in Hop.
    rewrite (bindM_ok _ _ _ _ _ Ec) in Hop.
    apply (Hev c ch (isWriting ch) (Z.lor (events_ ch) kWriteEvent)); [done| |by rewrite (bindM_ok _ _ _ _ _ Ec)].
    by destruct Hcase as [->|[->|[->| ->]]].
  - destruct (Hlive c Hmay) as (ch & Hc & Ec & Hcase). unfold disableWriting in Hop.
    rewrite (bindM_ok _ _ _ _ _ Ec) in Hop.
    apply (Hev c ch (negb (isWriting ch)) (Z.ldiff (events_ ch) kWriteEvent)); [done| |by rewrite (bindM_ok _ _ _ _ _ Ec)].
    by destruct Hcase as [->|[->|[->| ->]]].
  - destruct (Hlive c Hmay) as (ch & Hc & Ec & _). unfold disableAll in Hop.
    rewrite (bindM_ok _ _ _ _ _ Ec) in Hop.
    apply (Hev c ch (isNoneEvent ch) kNoneEvent); [done|done|by rewrite (bindM_ok _ _ _ _ _ Ec)].
  - destruct (Hlive c Hmay) as (ch & Hc & _). 
    destruct (remove_spec l c ch Hb Hc Hn) as [(x & E & Hx & _)|[(l1 & E & Hd & Ha & Hl)|(l1 & ch1 & E & Hrm & _)]];
      rewrite E in Hop; injection Hop as <- <-.
    + split; [done|]. intros [= ->]. done.
    + split; [done|]. intros _. by exists ch.
    + split; [|done]. intros _. split; [apply Hrm|]. eapply frame_phase; [by eapply removed_frame|done].
  - apply andb_true_iff in Hmay as [Hl Hr%negb_true_iff%bool_decide_eq_false].
    destruct (Hlive c Hl) as (ch & Hc & _). unfold retireCurrentChannel in Hop. step_m. fold (destroy c) in Hop.
    destruct (dispatching_ l && bool_decide (currentActiveChannel_ l = Some c)) eqn:Ecur; simpl in Hop.
    + apply andb_true_iff in Ecur as [Hd Hcur%bool_decide_eq_true].
      assert (retiredCurrentChannel_ l = None) as Hrn.
      { destruct p; simpl in Hp; try done; [destruct Hp as ((? & ? & _) & _); congruence|].
        destruct Hp as ((Hcu & [|Hre] & _) & _); [done|]. congruence. }
      rewrite Hrn, bool_decide_false in Hop by auto. injection Hop as <- <-. split; [|done]. intros _. split.
      * by apply (base_ok_ext l).
      * eapply frame_phase; [|done]. apply (frame_one l _ c ch ch); try done; simpl; try lia; [|right; eauto|by left].
        by rewrite insert_id.
    + destruct (destroy_spec l c ch Hc) as [[E Hbad]|(E & Ha & Hh)]; unfold M in *; rewrite E in Hop; injection Hop as <- <-.
      * split; [done|]. intros _. by exists ch.
      * split; [|done]. intros _. by eapply destroy_ok.
  - apply andb_true_iff in Hmay as [Hl Hr%negb_true_iff%bool_decide_eq_false].
    destruct (Hlive c Hl) as (ch & Hc & _).
    destruct (destroy_spec l c ch Hc) as [[E Hbad]|(E & Ha & Hh)]; rewrite E in Hop; injection Hop as <- <-.
    + split; [done|]. intros _. by exists ch.
    + split; [|done]. intros _. by eapply destroy_ok.
Qed.

(** *** Polling *)

(** The generations the channels have now. *)
Definition polled_now l (pl : gmap nat Z) : Prop :=
  forall c ch, channels l !! c = Some ch -> pl !! c = Some (registrationGeneration_ ch).

Lemma current_target l id c :
  base_ok l -> isCurrent (readinessPort_ l) id c = true ->
  exists ch r, channels l !! c = Some ch /\ addedToLoop_ ch = true /\ fd_ ch = source id /\
    registrations_ (readinessPort_ l) !! source id = Some r /\ identity r = id.
Proof.
  intros Hb. unfold isCurrent. rewrite andb_true_iff. intros [_ Hm].
  destruct (registrations_ (readinessPort_ l) !! source id) as [r|] eqn:Er; [|done].
  apply andb_true_iff in Hm as [Ht%bool_decide_eq_true Hi%bool_decide_eq_true].
  destruct (bs_targets _ Hb _ r Er) as (ch & Hc & Hf). exists ch, r. rewrite Ht in Hc.
  split_and!; try done. destruct (bs_channels _ Hb c ch Hc) as [_ _ Hreg _ _].
  unfold reg_of in Hreg. rewrite Hf, Er, decide_True in Hreg by done. tauto.
Qed.

(** Distinct current registrations are of distinct channels. *)
Lemma current_targets_distinct l ns :
  base_ok l -> NoDup (nt_identity <$> ns) ->
  (forall n, n ∈ ns -> isCurrent (readinessPort_ l) (nt_identity n) (nt_target n) = true) ->
  NoDup (nt_target <$> ns).
Proof.
  intros Hb. induction ns as [|n ns IH]; [constructor|]. rewrite !fmap_cons, !NoDup_cons.
  intros [Hn Hd] Hcur. split; [|apply IH; [done|intros; apply Hcur; by right]].
  intros (n' & Et & Hn')%list_elem_of_fmap. apply Hn.
  destruct (current_target l _ _ Hb (Hcur n (list_elem_of_here _ _))) as (ch & r & Hc & _ & Hf & Hr & Hi).
  destruct (current_target l _ _ Hb (Hcur n' (list_elem_of_further _ _ _ Hn'))) as (ch' & r' & Hc' & _ & Hf' & Hr' & Hi').
  apply list_elem_of_fmap. exists n'. split; [|done]. rewrite <- Et in Hc'. assert (ch' = ch) as -> by congruence.
  assert (r' = r) as -> by congruence. congruence.
Qed.

Lemma deliver_ok pl ns : forall l,
  base_ok l -> phase_ok l pl Polled -> polled_now l pl -> NoDup (nt_target <$> ns) ->
  (forall n, n ∈ ns -> isCurrent (readinessPort_ l) (nt_identity n) (nt_target n) = true) ->
  (forall n i, n ∈ ns -> ~ entry l i (nt_target n)) ->
  base_ok (deliver ns l) /\ phase_ok (deliver ns l) pl Polled /\ polled_now (deliver ns l) pl.
Proof.
  induction ns as [|n ns IH]; intros l Hb Hp Hnow Hd Hcur Hno; simpl; [done|].
  rewrite fmap_cons, NoDup_cons in Hd. destruct Hd as [Hn Hd].
  pose proof (Hcur n (list_elem_of_here _ _)) as Hc1. rewrite Hc1.
  destruct (current_target l _ _ Hb Hc1) as (ch & r & Hc & Hadd & _).
  destruct (cosmetic l pl Polled (nt_target n) (setRevents (nt_events n)) Hb Hp) as [Hb1 Hp1]; [done|].
  set (l1 := set_channels (alter (setRevents (nt_events n)) (nt_target n)) l) in *.
  assert (polled_now l1 pl) as Hnow1.
  { intros c ch2 Hc2. simpl in Hc2. destruct (decide (c = nt_target n)) as [->|Hne].
    - rewrite lookup_alter_eq, Hc in Hc2. injection Hc2 as <-. apply (Hnow _ _ Hc).
    - rewrite lookup_alter_ne in Hc2 by done. by apply Hnow. }
  assert (forall i c, entry (set_active (activeChannels_ l ++ [Some (nt_target n)]) (activeChannelCursor_ l) l1) i c ->
    entry l i c \/ i = length (activeChannels_ l) /\ c = nt_target n) as Hent.
  { intros i c. unfold entry. simpl. rewrite lookup_app_Some, list_lookup_singleton_Some. intros [|(? & ? & ?)]; [by left|].
    right. simplify_eq. split; [lia|done]. }
  apply IH; [by apply (base_ok_ext l1)| |done|done| |].
  - destruct Hp1 as (Hnc & [Hw Hu] & Hdis & Hcu). split_and!; try done. split.
    + intros i c [He|[_ ->]]%Hent; [by apply (Hw i)|].
      exists (setRevents (nt_events n) ch). split_and!; try done; [simpl; by rewrite lookup_alter_eq, Hc|].
      simpl. by apply Hnow.
    + intros i i' c [He|[-> Ec]]%Hent [He'|[-> Ec']]%Hent; [by apply (Hu i i' c)| | |done].
      * subst c. by destruct (Hno n i (list_elem_of_here _ _)).
      * subst c. by destruct (Hno n i' (list_elem_of_here _ _)).
  - intros n' Hn'. apply Hcur. by right.
  - intros n' i Hn' [He|[_ E]]%Hent; [by apply (Hno n' i); [right|]|].
    apply Hn. rewrite <- E. by apply list_elem_of_fmap_2.
Qed.

Lemma poll_ok o l pl drained native r l' :
  base_ok l -> phase_ok l pl Outside -> native_ok o native = true ->
  maxNoticesPerWait (port_options o) < usize_lim -> poll o drained native l = (r, l') ->
  base_ok l' /\ match r with Ok _ => phase_ok l' (note_polled l') Polled | Throw _ => phase_ok l' pl Outside end.
Proof.
  intros Hb (Hnc & Hm & Hdis) Hnat Hmax. unfold poll. step_m.
  assert (base_ok (set_active [] 0 l)) as Hb0 by by apply (base_ok_ext l).
  simpl. case_bool_decide as Hsh.
  { intros [= <- <-]. split; [done|]. split_and!; [done| |done]. intros i c He. unfold entry in He. simpl in He. done. }
  intros [= <- <-].
  assert (notices_ok (readinessPort_ l) (default [] native)
    (notices_ (wait (port_options o) (readinessPort_ l) drained native))) as Hns.
  { destruct native as [evs|]; simpl in *; [|split; [constructor|by intros n ?%elem_of_nil|done]]. zify_bools.
    set (full := _ && _).
    destruct (wait_loop (port_options o) (readinessPort_ l) drained full (zlen evs) evs []
      (mkBatch [] (mkProgress (zlen evs) 0 0 0 full)) (bs_port _ Hb)) as [H1 _ _]; [|done|done|done].
    split; simpl; [|done|by destruct drained]. split; [constructor|by intros n ?%elem_of_nil|done]. }
  set (ns := notices_ _) in *. set (l0 := set_active [] 0 l) in *.
  assert (forall n, n ∈ ns -> isCurrent (readinessPort_ l0) (nt_identity n) (nt_target n) = true) as Hcur
    by (intros; by eapply notice_current; [apply Hb|..]).
  destruct (deliver_ok (note_polled l0) ns l0) as (Hb' & Hp' & Hnow'); try done.
  - intros c ch Hc. unfold note_polled. rewrite lookup_omap, Hc. done.
  - eapply current_targets_distinct; [done|apply Hns|done].
  - split; [done|]. destruct Hp' as (Hnc' & [Hw Hu] & Hd' & Hcu'). split_and!; try done. split; [|done].
    intros i c He. destruct (Hw i c He) as (ch & Hc & Ha & _). exists ch. split_and!; [done|done|].
    unfold note_polled. by rewrite lookup_omap, Hc.
Qed.

(** *** Dispatch *)

Lemma mark_batch_spec e : forall act i l,
  (forall k c, act !! k = Some (Some c) -> exists ch, channels l !! c = Some ch /\ activeBatchEpoch_ ch <> e) ->
  (forall k k' c, act !! k = Some (Some c) -> act !! k' = Some (Some c) -> k = k') ->
  exists cs, mark_batch e i act l = (Ok tt, set_channels (fun _ => cs) l) /\
    (forall k c ch, act !! k = Some (Some c) -> channels l !! c = Some ch -> cs !! c = Some (set_batch e (i + k) ch)) /\
    (forall c, (forall k, act !! k <> Some (Some c)) -> cs !! c = channels l !! c).
Proof.
  induction act as [|[c|] act IH]; intros i l Hlive Huniq.
  - exists (channels l). split_and!; [by destruct l|done|done].
  - destruct (Hlive 0%nat c eq_refl) as (ch & Hc & Hne).
    assert (forall k, act !! k <> Some (Some c)) as Hno.
    { intros k Hk. by assert (0%nat = S k) by (by apply (Huniq 0%nat (S k) c)). }
    set (l1 := set_channels (<[c := set_batch e i ch]>) l).
    destruct (IH (S i) l1) as (cs & E & Hin & Hout).
    { intros k c' Hk. destruct (Hlive (S k) c' Hk) as (ch' & Hc' & Hne'). exists ch'. split; [|done].
      simpl. rewrite lookup_insert_ne; [done|]. intros ->. by apply (Hno k). }
    { intros k k' c' Hk Hk'. by assert (S k = S k') as [= ->] by (by apply (Huniq (S k) (S k') c')). }
    exists cs. split; [|split].
    + simpl. rewrite (bindM_ok _ _ _ _ _ (channel_at c ch l Hc)), (proj2 (Z.eqb_neq _ _)), throw_if_false by done.
      unfold change. step_m. unfold set_channels at 1. rewrite (alter_insert_id _ c ch) by done.
      change (mkLoop _ _ _ _ _ _ _ _ _ _) with l1. rewrite E. done.
    + intros [|k] c' ch' Hk Hc'; simpl in Hk.
      * simplify_eq. rewrite Hout by done. simpl. rewrite lookup_insert_eq. by rewrite Nat.add_0_r.
      * rewrite (Hin k c' ch'); [by rewrite Nat.add_succ_r|done|]. simpl.
        rewrite lookup_insert_ne; [done|]. intros ->. by apply (Hno k).
    + intros c' Hc'. rewrite Hout by (intros k; apply (Hc' (S k))). simpl.
      rewrite lookup_insert_ne; [done|]. intros ->. by apply (Hc' 0%nat).
  - destruct (IH (S i) l) as (cs & E & Hin & Hout).
    { intros k. apply (Hlive (S k)). }
    { intros k k' c' Hk Hk'. by assert (S k = S k') as [= ->] by (by apply (Huniq (S k) (S k') c')). }
    exists cs. split; [done|split].
    + intros [|k] c' ch' Hk Hc'; [done|]. rewrite (Hin k c' ch') by done. by rewrite Nat.add_succ_r.
    + intros c' Hc'. apply Hout. intros k. apply (Hc' (S k)).
Qed.

Lemma entry_cases l c : (exists k, entry l k c) \/ forall k, activeChannels_ l !! k <> Some (Some c).
Proof.
  destruct (decide (Some c ∈ activeChannels_ l)) as [Hin|Hno].
  - left. by apply list_elem_of_lookup_1.
  - right. intros k Hk. apply Hno. by eapply list_elem_of_lookup_2.
Qed.

Lemma fresh_of_marked l pl : batch_marked l pl -> batch_fresh l pl.
Proof.
  intros Hm. split.
  - intros i c He. destruct (Hm i c He) as (ch & ? & _). eauto.
  - intros i j c Hi Hj. destruct (Hm i c Hi) as (ch & (Hc & _) & _ & Ei).
    destruct (Hm j c Hj) as (ch' & (Hc' & _) & _ & Ej). congruence.
Qed.

(** Marking turns the polled batch into the batch being dispatched. *)
Lemma mark_ok l pl :
  base_ok l -> no_callback l -> batch_fresh l pl -> batchEpoch_ l < usize_max ->
  let e := batchEpoch_ l + 1 in
  exists l', mark_batch e 0 (activeChannels_ l) (set_epoch e l) = (Ok tt, l') /\
    base_ok l' /\ no_callback l' /\ batch_marked l' pl /\ dispatching_ l' = dispatching_ l.
Proof.
  intros Hb (Hcu & Hre & Hh) [Hw Hu] He e.
  destruct (mark_batch_spec e (activeChannels_ l) 0 (set_epoch e l)) as (cs & E & Hin & Hout).
  { intros k c Hk. destruct (Hw k c Hk) as (ch & Hc & _). exists ch. split; [done|].
    destruct (bs_channels _ Hb c ch Hc) as [_ _ _ _ Hep]. unfold e. lia. }
  { done. }
  rewrite E. eexists. split; [done|].
  set (l' := set_channels (fun _ => cs) (set_epoch e l)).
  assert (forall c ch', cs !! c = Some ch' -> exists ch, channels l !! c = Some ch /\
    (ch' = ch \/ exists k, ch' = set_batch e k ch /\ entry l k c)) as Hback.
  { intros c ch' Hc'. destruct (entry_cases l c) as [(k & Hk)|Hno].
    - destruct (Hw k c Hk) as (ch & Hc & _). exists ch. split; [done|]. right. exists k.
      rewrite (Hin k c ch Hk Hc) in Hc'. by simplify_eq.
    - rewrite (Hout c Hno) in Hc'. eauto. }
  split_and!; try done.
  - destruct Hb as [Hp Hcs Ht Hn Hep]. split; simpl; try done; [| |lia].
    + intros c ch' Hc'. destruct (Hback c ch' Hc') as (ch & Hc & Hch). destruct (Hcs c ch Hc) as [Hf Hev Hr Hg Hbe].
      destruct Hch as [->|(k & -> & _)]; split; simpl; try done; lia.
    + intros fd r Hr. destruct (Ht fd r Hr) as (ch & Hc & Hf).
      destruct (entry_cases l (target r)) as [(k & Hk)|Hno].
      * exists (set_batch e k ch). by rewrite (Hin k _ ch Hk Hc).
      * exists ch. by rewrite Hout.
  - split_and!; try done. intros c ch' Hc'. destruct (Hback c ch' Hc') as (ch & Hc & [->|(k & -> & _)]); simpl; by apply (Hh c).
  - intros i c He'. destruct (Hw i c He') as (ch & Hc & Ha & Hp). exists (set_batch e i ch).
    split_and!; try done. by split_and!; [apply (Hin i c ch He' Hc)|..].
Qed.

Lemma no_entries l pl n : activeChannels_ l = [] -> batch_marked l pl /\ batch_marked (set_active [] n l) pl.
Proof. intros E. split; intros i c; unfold entry; simpl; rewrite ?E; done. Qed.

Lemma dispatch_begin_ok l pl p r l' :
  base_ok l -> phase_ok l pl p -> p = Outside \/ p = Polled -> batchEpoch_ l < usize_max ->
  dispatch_begin l = (r, l') ->
  base_ok l' /\ exists b, r = Ok b /\ phase_ok l' pl (if b then Dispatching 0 else Outside).
Proof.
  intros Hb Hp Hpp He. pose proof (bs_epoch _ Hb) as He0.
  assert (no_callback l /\ batch_fresh l pl /\ dispatching_ l = false /\
    (activeChannelCursor_ l <> 0%nat -> batch_marked l pl)) as (Hnc & Hf & Hd & Hm).
  { destruct Hpp as [-> | ->]; simpl in Hp.
    - destruct Hp as (? & Hm & ?). split_and!; auto. by apply fresh_of_marked.
    - destruct Hp as (? & ? & ? & ?). split_and!; auto. done. }
  unfold dispatch_begin. step_m. rewrite Hd. destruct (hasPendingActiveChannels l); simpl.
  2: { intros [= <- <-]. split; [by apply (base_ok_ext l)|]. exists false. split; [done|].
       split_and!; [done|by intros i c|done]. }
  case_bool_decide as Hcur.
  - rewrite uwrap_small by lia. rewrite (proj2 (Z.eqb_neq _ 0)) by lia.
    destruct (mark_ok l pl Hb Hnc Hf He) as (l1 & E & Hb1 & Hnc1 & Hm1 & _). rewrite E.
    intros [= <- <-]. split; [by apply (base_ok_ext l1)|]. by exists true.
  - intros [= <- <-]. split; [by apply (base_ok_ext l)|]. exists true. split; [done|].
    split_and!; [done|by apply Hm|done].
Qed.

(** Leaving a channel's dispatch: its flag is cleared, a retired channel is
    destroyed, or the process aborts because it is still registered. *)
Definition retired_registered l : Prop :=
  exists c ch, retiredCurrentChannel_ l = Some c /\ channels l !! c = Some ch /\ addedToLoop_ ch = true.

Lemma leave_ok m l d c :
  base_ok l -> batch_marked l (polled m) -> dispatching_ l = true ->
  (retiredCurrentChannel_ l = None \/ retiredCurrentChannel_ l = Some c /\ is_Some (channels l !! c)) ->
  (forall c' ch, channels l !! c' = Some ch -> eventHandling_ ch = true -> c' = c) ->
  minv (leave_channel m l d c) /\ (at_ (leave_channel m l d c) = Aborted -> retired_registered l) /\
  calls (leave_channel m l d c) = calls m.
Proof.
  intros Hb Hm Hd Hret Hh. unfold leave_channel.
  set (cs1 := alter (set_handling false) c (channels l)).
  set (l1 := set_channels (alter (set_handling false) c) l).
  set (l2 := set_current None None l1).
  assert (forall c' ch', cs1 !! c' = Some ch' -> exists ch, channels l !! c' = Some ch /\
    ch' = (if decide (c' = c) then set_handling false ch else ch)) as Hback.
  { intros c' ch' Hc'. unfold cs1 in Hc'. destruct (decide (c' = c)) as [->|Hne].
    - rewrite lookup_alter_eq in Hc'. destruct (channels l !! c) as [ch|]; [|done]. simpl in Hc'.
      exists ch. split; [done|]. by injection Hc' as <-.
    - rewrite lookup_alter_ne in Hc' by done. eauto. }
  assert (base_ok l2) as Hb2.
  { apply (base_ok_ext l1); try done. destruct (channels l !! c) as [ch|] eqn:Hc.
    - destruct (bs_channels _ Hb c ch Hc) as [Hf Hev Hr Hg Hep].
      apply (base_ok_insert l l1 c ch (set_handling false ch)); try done; try (by left);
        [by apply alter_insert_id|apply Hb].
    - apply (base_ok_ext l); try done. apply alter_id. intros ch Hch. congruence. }
  assert (phase_ok l2 (polled m) (Dispatching d)) as Hp2.
  { split_and!; [|intros i c' He|done].
    - split_and!; try done. intros c' ch' Hc'. destruct (Hback c' ch' Hc') as (ch & Hch & ->).
      case_decide as E; [done|]. destruct (eventHandling_ ch) eqn:Eh; [|done]. by destruct E; eapply Hh.
    - destruct (Hm i c' He) as (ch & (Hch & Ha & Hpl) & E1 & E2).
      exists (if decide (c' = c) then set_handling false ch else ch).
      assert (channels l2 !! c' = Some (if decide (c' = c) then set_handling false ch else ch)) as Hl.
      { simpl. destruct (decide (c' = c)) as [->|]; [by rewrite lookup_alter_eq, Hch|by rewrite lookup_alter_ne]. }
      case_decide; split_and!; try done. }
  unfold finish_channel. step_m. fold l2.
  destruct (retiredCurrentChannel_ l1) as [c'|] eqn:Er.
  - destruct Hret as [E|[E [ch Hch]]]; [simpl in Er; congruence|]. assert (c' = c) as -> by (simpl in Er; congruence).
    assert (channels l2 !! c = Some (set_handling false ch)) as Hc2 by (simpl; by rewrite lookup_alter_eq, Hch).
    destruct (destroy_spec l2 c _ Hc2) as [[Ed Hbad]|(Ed & Ha & Hhh)]; rewrite Ed.
    + split_and!; [by split_and!|intros _; exists c, ch; split_and!; try done; by destruct Hbad|done].
    + split_and!; [|done|done].
      destruct (destroy_ok l2 (polled m) (Dispatching d) c _ Hb2 Hp2 ltac:(done) Hc2 Ha Hhh ltac:(done)). by split_and!.
  - split_and!; [by split_and!|done|done].
Qed.

Lemma next_stage_Some ch stages k rest :
  next_stage ch stages = Some (k, rest) ->
  (exists before, stages = before ++ k :: rest) /\ wants k (revents_ ch) = true /\ callbacks_ ch k = true.
Proof.
  induction stages as [|k' stages IH]; simpl; [done|]. destruct (_ && _) eqn:E.
  - intros [= -> ->]. zify_bools. split; [by exists []|done].
  - intros Hn. destruct (IH Hn) as ((before & ->) & ?). split; [by exists (k' :: before)|done].
Qed.

(** A callback [k] of channel [c] is being invoked: the channel is registered as
    it was when polled, and has the readiness and the callback. *)
Definition invoked (m : Machine) (c : nat) (k : CallbackKind) : Prop :=
  exists d g rest ch, at_ m = InCallback d c g k rest /\ channels (loop_ m) !! c = Some ch /\
    addedToLoop_ ch = true /\ registrationGeneration_ ch = g /\ polled m !! c = Some g /\
    wants k (revents_ ch) = true /\ callbacks_ ch k = true.

Definition called (m m' : Machine) : Prop :=
  calls m' = calls m \/ exists c k, calls m' = calls m ++ [(c, k)] /\ invoked m' c k.

Lemma run_stages_ok m l d c g stages m' :
  base_ok l -> in_callback l (polled m) c g -> batch_marked l (polled m) -> dispatching_ l = true ->
  (exists before, all_stages = before ++ stages) ->
  (stages <> [] -> exists ch, channels l !! c = Some ch /\ registrationGeneration_ ch = g) ->
  run_stages m l d c g stages = Some m' ->
  minv m' /\ (at_ m' = Aborted -> retired_registered l) /\ called m m'.
Proof.
  intros Hb Hin Hm Hd (before & Hst) Hg. unfold run_stages. pose proof Hin as (Hcu & Hre & Hoth & (ch & Hc & Hh & Hk) & Hgn).
  rewrite Hc. destruct (next_stage ch stages) as [[k rest]|] eqn:En; intros [= <-].
  - destruct (next_stage_Some _ _ _ _ En) as ((pre & Est) & Hw & Hcb). unfold minv. split_and!; try done.
    + exists (before ++ pre). by rewrite Hst, Est, app_assoc.
    + right. exists c, k. split; [done|]. exists d, g, rest, ch.
      destruct Hg as (ch2 & Hc2 & Eg); [rewrite Est; by destruct pre|]. assert (ch2 = ch) as -> by congruence.
      destruct (Hk Eg). split_and!; done.
  - destruct (leave_ok m l d c Hb Hm Hd) as (Hmi & Ha & Ec); [|done|].
    + destruct Hre as [|Hr]; [by left|right; by rewrite Hc].
    + split_and!; [done|done|by left].
Qed.

Definition aborts (lb : Label) (m : Machine) : Prop :=
  (exists op, lb = LOp op /\ misuse (loop_ m) op) \/ retired_registered (loop_ m).

Lemma take_ok o m d m' :
  minv m -> at_ m = Dispatching d -> step o LTake m = Some m' ->
  minv m' /\ at_ m' <> Aborted /\ called m m'.
Proof.
  intros (Hb & Hp & _) Hat. rewrite Hat in *. specialize (Hb ltac:(done)). unfold step. rewrite Hat.
  destruct (_ || _); [done|]. pose proof Hp as (Hnc & Hm & Hd). pose proof Hnc as (Hcu & Hre & Hh).
  assert (minv (mkMachine (dispatch_end (loop_ m)) Outside (calls m) (polled m))) as Hend.
  { unfold dispatch_end, minv. destruct (hasPendingActiveChannels _); split_and!; try done;
      try (intros _; by apply (base_ok_ext (loop_ m))); split_and!; try done. }
  destruct (activeChannels_ (loop_ m) !! activeChannelCursor_ (loop_ m)) as [ent|] eqn:Hent.
  2: { intros [= <-]. split_and!; [done|done|by left]. }
  destruct (_ <? _); [|intros [= <-]; split_and!; [done|done|by left]].
  set (l1 := set_active (activeChannels_ (loop_ m)) (S (activeChannelCursor_ (loop_ m))) (loop_ m)).
  assert (base_ok l1) as Hb1 by (by apply (base_ok_ext (loop_ m))).
  destruct ent as [c|].
  2: { intros [= <-]. split_and!; [by split_and!|done|by left]. }
  change (channels l1) with (channels (loop_ m)).
  destruct (Hm _ c Hent) as (ch & (Hc & Hadd & Hpl) & Hep & Hix). rewrite Hc.
  set (l2 := set_current (Some c) (retiredCurrentChannel_ l1) l1).
  assert (base_ok l2) as Hb2 by (by apply (base_ok_ext l1)).
  destruct (tied_ ch && negb (tie_ ch)).
  { intros [= <-]. destruct (leave_ok m l2 (S d) c Hb2) as (Hmi & Ha & Ec); try done; [by left| |].
    - intros c' ch' Hc' Hh'. by rewrite (Hh c' ch' Hc') in Hh'.
    - split_and!; [done| |by left]. intros E. destruct (Ha E) as (c' & _ & Er & _). simpl in Er. congruence. }
  assert (base_ok (set_channels (alter (set_handling true) c) l2)) as Hb3.
  { destruct (bs_channels _ Hb2 c ch Hc) as [Hf Hev Hr Hg Hepp].
    apply (base_ok_insert l2 _ c ch (set_handling true ch)); try done; try (by left);
      [by apply alter_insert_id|apply Hb2]. }
  intros Hrun.
  assert (channels (set_channels (alter (set_handling true) c) l2) !! c = Some (set_handling true ch)) as Hc3
    by (simpl; by rewrite lookup_alter_eq, Hc).
  destruct (bs_channels _ Hb c ch Hc) as [_ _ _ Hgen _].
  destruct (run_stages_ok m _ (S d) c (registrationGeneration_ ch) all_stages m' Hb3) as (Hmi & Ha & Hcl);
    [..|exact Hrun|].
  - split_and!; try done; [by left| | |lia|simpl; lia].
    + intros c' ch' Hc' Hh'. simpl in Hc'. destruct (decide (c' = c)) as [|Hne]; [done|].
      rewrite lookup_alter_ne in Hc' by done. by rewrite (Hh c' ch' Hc') in Hh'.
    + exists (set_handling true ch). split_and!; try done; simpl; tauto.
  - intros i c' He. destruct (Hm i c' He) as (ch' & (Hch' & Ha' & Hp') & E1 & E2).
    simpl. destruct (decide (c' = c)) as [->|Hne].
    + assert (ch' = ch) as -> by congruence. exists (set_handling true ch). split_and!; try done.
    + exists ch'. split_and!; try done. split_and!; try done. simpl. by rewrite lookup_alter_ne.
  - done.
  - by exists [].
  - intros _. by exists (set_handling true ch).
  - split_and!; [done| |done]. intros E. destruct (Ha E) as (c' & _ & Er & _). simpl in Er. congruence.
Qed.

(** Every step of the loop thread keeps the invariant, invokes a callback only
    on a registered channel, and aborts only on a misuse. *)
Lemma reactor_step_ok o lb m m' :
  maxNoticesPerWait (port_options o) < usize_lim -> minv m -> step o lb m = Some m' ->
  minv m' /\ (at_ m' = Aborted -> at_ m = Aborted \/ aborts lb m) /\ called m m'.
Proof.
  intros Hmax Hmi Hs. pose proof Hmi as (Hb & Hp & Hst).
  assert (nextRegistrationGeneration (loop_ m) < usize_max /\ batchEpoch_ (loop_ m) < usize_max) as [Hn He].
  { unfold step in Hs. destruct (_ || _) eqn:E; [done|]. by zify_bools. }
  assert (step o lb m = Some m') as Hs0 by done.
  unfold step in Hs. destruct (_ || _); [done|].
  destruct lb as [op| |c| | |drained native| | | |].
  - destruct (user_code (at_ m) && may op (loop_ m)) eqn:E; [|done]. apply andb_true_iff in E as [Hu Hmay].
    assert (base_ok (loop_ m)) as Hb0 by (apply Hb; by destruct (at_ m)).
    destruct (perform op (loop_ m)) as [r l'] eqn:Eop.
    destruct (perform_ok op _ _ _ _ _ Hb0 Hp Hu Hmay Hn Eop) as [Hgood Hbad].
    assert (r <> Throw log_fatal -> Some (mkMachine l' (at_ m) (calls m) (polled m)) = Some m' ->
      minv m' /\ (at_ m' = Aborted -> at_ m = Aborted \/ aborts (LOp op) m) /\ called m m') as Hok.
    { intros Hr [= <-]. destruct (Hgood Hr). split_and!; [by split_and!|by left|by left]. }
    destruct r as [u|[]]; try (by apply Hok). injection Hs as <-.
    split_and!; [by split_and!| |by left]. intros _. right; left. exists op. auto.
  - injection Hs as <-. destruct (at_ m) eqn:Ea; try (split_and!; [by split_and!|by left|by left]).
    all: assert (base_ok (loop_ m)) as Hb0 by (apply Hb; done).
    all: pose proof (bs_next _ Hb0); rewrite uwrap_small by lia.
    all: split; [split; [intros _; apply (base_ok_ext (loop_ m)); try done; simpl; lia|split; [|done]]|split; by left].
    all: apply (frame_phase (loop_ m)); [apply frame_next; lia|done].
  - destruct (at_ m) eqn:Ea; injection Hs as <-; try (split_and!; [by split_and!|by left|by left]).
    all: destruct (cosmetic (loop_ m) (polled m) (at_ m) c (fun ch => set_tie (tied_ ch) false ch)) as [Hb' Hp'];
      [apply Hb; done|by rewrite Ea|done|].
    all: rewrite Ea in Hp'; split_and!; [by split_and!|by left|by left].
  - destruct (at_ m) eqn:Ea; try done. injection Hs as <-. assert (base_ok (loop_ m)) as Hb0 by (apply Hb; done).
    assert (base_ok (beginQuiesce (loop_ m)) /\ phase_ok (beginQuiesce (loop_ m)) (polled m) Outside) as [Hb1 Hp1].
    { unfold beginQuiesce. case_bool_decide; [|done]. split; [by apply (base_ok_ext (loop_ m))|done]. }
    split_and!; [by split_and!|by left|by left].
  - destruct (at_ m) eqn:Ea; try done. injection Hs as <-. assert (base_ok (loop_ m)) as Hb0 by (apply Hb; done).
    split_and!; [split_and!; [|done|done]; intros _; by apply (base_ok_ext (loop_ m))|by left|by left].
  - destruct (at_ m) eqn:Ea; try done. destruct (_ || _) eqn:E; [done|]. zify_bools.
    assert (base_ok (loop_ m)) as Hb0 by (apply Hb; done).
    destruct (poll o drained native (loop_ m)) as [r l'] eqn:Ep.
    destruct (poll_ok o _ (polled m) _ _ _ _ Hb0 Hp ltac:(done) Hmax Ep) as [Hb' Hp'].
    destruct r; injection Hs as <-; (split_and!; [by split_and!|by left|by left]).
  - assert (at_ m = Outside \/ at_ m = Polled) as Hoo by (destruct (at_ m); (done || auto)).
    assert (base_ok (loop_ m)) as Hb0 by (apply Hb; destruct Hoo as [-> | ->]; done).
    destruct (dispatch_begin (loop_ m)) as [r l'] eqn:Ed.
    destruct (dispatch_begin_ok _ _ _ _ _ Hb0 Hp Hoo He Ed) as (Hb' & b & -> & Hp').
    assert (m' = mkMachine l' (if b then Dispatching 0 else Outside) (calls m) (polled m)) as ->.
    { destruct Hoo as [E|E]; rewrite E in Hs; destruct b; by injection Hs as <-. }
    split_and!; [split_and!; [done|done|by destruct b]|destruct b; done|by left].
  - destruct (at_ m) eqn:Ea; try done.
    destruct (take_ok o m drained m' Hmi Ea Hs0) as (? & ? & ?). split_and!; auto. done.
  - destruct (at_ m) as [| |d|d c g k rest|] eqn:Ea; try done.
    assert (base_ok (loop_ m)) as Hb0 by (apply Hb; done). destruct Hp as (Hin & Hm & Hd).
    pose proof Hin as (Hcu & Hre & Hoth & (ch & Hc & Hh & Hk) & Hg). rewrite Hc in Hs.
    destruct (_ && _) eqn:E.
    + injection Hs as <-. destruct (leave_ok m (loop_ m) d c Hb0 Hm Hd) as (? & Ha & ?); [|done|].
      * destruct Hre as [|Hr]; [by left|right; by rewrite Hc].
      * split_and!; [done| |by left]. intros Hab. right; right. by apply Ha.
    + destruct (run_stages_ok m (loop_ m) d c g rest m' Hb0 Hin Hm Hd) as (? & Ha & ?); [..|exact Hs|].
      * destruct Hst as (before & Hst). exists (before ++ [k]). by rewrite <- app_assoc.
      * intros Hne. exists ch. split; [done|]. apply andb_false_iff in E as [E|E].
        -- apply negb_false_iff, bool_decide_eq_true in E. subst k. destruct Hst as (before & Hst).
           unfold all_stages in Hst. destruct before as [|? [|? [|? [|? before]]]]; simplify_eq/=.
           by destruct before.
        -- zify_bools. done.
      * split_and!; [done| |done]. intros Hab. right; right. by apply Ha.
  - destruct (at_ m) as [| |d|d c g k rest|] eqn:Ea; try done. injection Hs as <-.
    assert (base_ok (loop_ m)) as Hb0 by (apply Hb; done). destruct Hp as (Hin & Hm & Hd).
    pose proof Hin as (Hcu & Hre & Hoth & (ch & Hc & _) & Hg).
    destruct (leave_ok m (loop_ m) d c Hb0 Hm Hd) as (? & Ha & ?); [|done|].
    + destruct Hre as [|Hr]; [by left|right; by rewrite Hc].
    + split_and!; [done| |by left]. intros Hab. right; right. by apply Ha.
Qed.

Definition initial (l : EventLoop) : Machine := mkMachine l Outside [] ∅.

Lemma reactor_initial_ok o l : EventLoop_new o = Ok l -> minv (initial l) /\ maxNoticesPerWait (port_options o) < usize_lim.
Proof.
  unfold EventLoop_new. destruct (EpollReadinessPort_new (port_options o)) as [p|] eqn:Ep; [|done].
  intros [= <-]. split.
  - split_and!; [intros _|split_and!|done].
    + split; simpl; try lia; [by eapply new_port_ok|apply map_Forall_empty|].
      unfold EpollReadinessPort_new in Ep. destruct (validatedOptions _); [|done]. injection Ep as <-. done.
    + done.
    + by intros i c.
    + done.
  - unfold EpollReadinessPort_new, validatedOptions in Ep. destruct (_ || _) eqn:E; [done|]. zify_bools. lia.
Qed.

Lemma steps_ok o lbs : forall m m',
  maxNoticesPerWait (port_options o) < usize_lim -> minv m -> steps o lbs m = Some m' -> minv m'.
Proof.
  induction lbs as [|lb lbs IH]; intros m m' Hmax Hm Hs; simpl in Hs; [by simplify_eq|].
  destruct (step o lb m) as [m1|] eqn:E; [|done]. destruct (reactor_step_ok o lb m m1 Hmax Hm E) as (Hm1 & _). eauto.
Qed.

(** ** Theorems *)

(** In every run of the loop thread that has not aborted, whatever user code
    does inside and outside callbacks: a channel is marked as added exactly when
    its descriptor is registered for it, with the channel's events as interests;
    every registration is of an existing channel and is what the kernel watches;
    every channel waiting in the batch exists and is still registered under the
    generation it was polled with; and exactly the channel whose callback is
    running is marked as handling events. *)
Theorem reactor_coherent o l0 lbs m :
  EventLoop_new o = Ok l0 -> steps o lbs (initial l0) = Some m -> at_ m <> Aborted ->
  base_ok (loop_ m) /\ phase_ok (loop_ m) (polled m) (at_ m).
Proof.
  intros Hnew Hs Hna. destruct (reactor_initial_ok o l0 Hnew) as [Hi Hmax].
  destruct (steps_ok o lbs _ _ Hmax Hi Hs) as (Hb & Hp & _). auto.
Qed.

(** C14. A step of the loop thread invokes at most one callback, and only on a
    channel that exists, is registered under the generation it had when its
    readiness was polled, reports the readiness and has the callback set: a
    channel removed or registered anew by an earlier callback of the batch, its
    own included, is not called.  The process aborts only when user code destroys
    or gives away a channel that is registered or being handled, or removes again
    a channel it had already removed while the batch was being dispatched. *)
Theorem callbacks_only_while_registered o l0 lbs m lb m' :
  EventLoop_new o = Ok l0 -> steps o lbs (initial l0) = Some m -> step o lb m = Some m' ->
  (calls m' = calls m \/ exists c k, calls m' = calls m ++ [(c, k)] /\ invoked m' c k) /\
  (at_ m' = Aborted -> at_ m = Aborted \/ aborts lb m).
Proof.
  intros Hnew Hs Hst. destruct (reactor_initial_ok o l0 Hnew) as [Hi Hmax].
  destruct (reactor_step_ok o lb m m' Hmax (steps_ok o lbs _ _ Hmax Hi Hs) Hst) as (_ & ? & ?). done.
Qed.

(** The removal of a channel is refused by aborting the process when the
    channel was removed and registered again by callbacks of the batch being
    dispatched: its place in the batch is already empty, which [removeChannel]
    takes for a corrupt batch. *)
Theorem second_removal_in_batch_aborts o l0 lbs m c ch :
  EventLoop_new o = Ok l0 -> steps o lbs (initial l0) = Some m -> user_code (at_ m) = true ->
  channels (loop_ m) !! c = Some ch -> addedToLoop_ ch = true -> isNoneEvent ch = true ->
  phase_ (loop_ m) <> EngineShutdown -> dispatching_ (loop_ m) = true -> left_batch (loop_ m) c ch ->
  nextRegistrationGeneration (loop_ m) < usize_max -> batchEpoch_ (loop_ m) < usize_max ->
  exists m', step o (LOp (OpRemove c)) m = Some m' /\ at_ m' = Aborted.
Proof.
  intros Hnew Hs Hu Hc Hadd Hnone Hph Hd Hleft Hn He. destruct (reactor_initial_ok o l0 Hnew) as [Hi Hmax].
  destruct (steps_ok o lbs _ _ Hmax Hi Hs) as (Hb & _). specialize (Hb ltac:(by destruct (at_ m))).
  assert (exists l', remove c (loop_ m) = (Throw log_fatal, l')) as (l' & E).
  { destruct (remove_spec _ c ch Hb Hc Hn) as [(x & E & _ & Hr)|[(l' & E & _)|(l' & ch' & E & _ & Hr)]];
      [exfalso|by exists l'|exfalso; tauto].
    destruct Hr as [|[|]]; congruence. }
  unfold step. rewrite (proj2 (Z.ltb_lt _ _) Hn), (proj2 (Z.ltb_lt _ _) He). simpl.
  rewrite Hu, bool_decide_true by (by rewrite Hc). simpl. rewrite E. by eexists.
Qed.

End reactor.
Arguments EventLoop K : clear implicits.
Arguments Machine K : clear implicits.

(** ** Concrete runs *)

Definition demo_options : LoopOptions := mkLoopOptions (mkPortOptions 8) 16.

Definition demo_loop : EventLoop (gmap Z epoll_event) :=
  mkLoop demo_port Running ∅ [] 0 0 false None None 1.

(** Channels 0 and 1 on descriptors 5 and 9, both readable; the callback of
    channel 0 removes channel 1, whose callback is then not invoked. *)
Definition demo_labels : list Label :=
  [LOp (OpNew 0 5); LOp (OpSetCallback 0 ReadCallback true); LOp (OpEnableReading 0);
   LOp (OpNew 1 9); LOp (OpSetCallback 1 ReadCallback true); LOp (OpEnableReading 1);
   LPoll false (Some [mkEvent 1 (token 1 5); mkEvent 1 (token 2 9)]); LDispatch; LTake;
   LOp (OpDisableAll 1); LOp (OpRemove 1)].

Definition demo_end : list Label := [LReturn; LTake; LTake].

(** In its callback channel 0 is removed, registered again and disabled. *)
Definition demo_again : list Label :=
  [LOp (OpDisableAll 0); LOp (OpRemove 0); LOp (OpEnableReading 0); LOp (OpDisableAll 0)].

Definition run_reactor (lbs : list Label) : option (Machine (gmap Z epoll_event)) :=
  steps demo_options lbs (initial demo_loop).

Lemma demo_reactor_new : EventLoop_new (K := gmap Z epoll_event) demo_options = Ok demo_loop.
Proof. reflexivity. Qed.

Lemma reactor_coherent_witness :
  exists m, run_reactor (demo_labels ++ demo_end) = Some m /\
    calls m = [(0%nat, ReadCallback)] /\ activeChannels_ (loop_ m) = [] /\ base_ok (loop_ m).
Proof.
  destruct (run_reactor (demo_labels ++ demo_end)) as [m|] eqn:E; [|vm_compute in E; discriminate].
  assert ((fun m => (calls m, activeChannels_ (loop_ m), match at_ m with Aborted => false | _ => true end)) <$>
    run_reactor (demo_labels ++ demo_end) = Some ([(0%nat, ReadCallback)], [], true)) as Ev by (vm_compute; reflexivity).
  rewrite E in Ev. injection Ev as E1 E2 E3. exists m. split_and!; [done|done|done|].
  refine (proj1 (reactor_coherent demo_options demo_loop (demo_labels ++ demo_end) m demo_reactor_new E _)).
  intros Hab. by rewrite Hab in E3.
Defined.

Lemma callbacks_only_witness :
  exists m m', run_reactor (take 8 demo_labels) = Some m /\ step demo_options LTake m = Some m' /\
    calls m' = [(0%nat, ReadCallback)] /\ invoked m' 0 ReadCallback.
Proof.
  destruct (run_reactor (take 8 demo_labels)) as [m|] eqn:E; [|vm_compute in E; discriminate].
  destruct (step demo_options LTake m) as [m'|] eqn:Es.
  2: { assert ((run_reactor (take 8 demo_labels) ≫= step demo_options LTake) = None) as En by (rewrite E; exact Es).
       vm_compute in En. discriminate. }
  assert (calls <$> run_reactor (take 8 demo_labels) = Some []) as E0 by (vm_compute; reflexivity).
  assert (calls <$> (run_reactor (take 8 demo_labels) ≫= step demo_options LTake) = Some [(0%nat, ReadCallback)]) as E1
    by (vm_compute; reflexivity).
  rewrite E in E0, E1. injection E0 as E0. change (calls <$> step demo_options LTake m = Some [(0%nat, ReadCallback)]) in E1.
  rewrite Es in E1. injection E1 as E1. exists m, m'. split_and!; [done|done|done|].
  destruct (callbacks_only_while_registered demo_options demo_loop (take 8 demo_labels) m LTake m' demo_reactor_new E Es)
    as [[Hc|(c & k & Hc & Hi)] _].
  - rewrite E0, E1 in Hc. done.
  - rewrite E0, E1 in Hc. by injection Hc as -> ->.
Defined.

Lemma second_removal_witness :
  exists m m', run_reactor (demo_labels ++ demo_again) = Some m /\
    step demo_options (LOp (OpRemove 0)) m = Some m' /\ at_ m' = Aborted.
Proof.
  destruct (run_reactor (demo_labels ++ demo_again)) as [m|] eqn:E; [|vm_compute in E; discriminate].
  assert ((fun m => (user_code (at_ m), channels (loop_ m) !! 0%nat ≫= (fun ch => Some (addedToLoop_ ch, isNoneEvent ch,
      activeBatchEpoch_ ch, activeBatchIndex_ ch)), phase_ (loop_ m), dispatching_ (loop_ m), batchEpoch_ (loop_ m),
      activeChannels_ (loop_ m), nextRegistrationGeneration (loop_ m))) <$> run_reactor (demo_labels ++ demo_again) =
    Some (true, Some (true, true, 1, 0%nat), Running, true, 1, [None; None], 6)) as Ev by (vm_compute; reflexivity).
  rewrite E in Ev. injection Ev as E1 E2 E3 E4 E5 E6 E7.
  destruct (channels (loop_ m) !! 0%nat) as [ch|] eqn:Hc; [|done]. injection E2 as F1 F2 F3 F4.
  assert (phase_ (loop_ m) <> EngineShutdown) as Hph by (rewrite E3; discriminate).
  assert (left_batch (loop_ m) 0 ch) as Hl by (split; [congruence|rewrite F4, E6; discriminate]).
  assert (nextRegistrationGeneration (loop_ m) < usize_max) as Hn by (rewrite E7; lia).
  assert (batchEpoch_ (loop_ m) < usize_max) as He by (rewrite E5; lia).
  destruct (second_removal_in_batch_aborts demo_options demo_loop (demo_labels ++ demo_again) m 0 ch
    demo_reactor_new E E1 Hc F1 F2 Hph E4 Hl Hn He) as (m' & Hs & Ha).
  exists m, m'. split_and!; [reflexivity|assumption|assumption].
Defined.
