(* ===== verification/OutputMemory.v ===== *)
(** * Output memory: budgets and the admission of sends

    Model of [gamenet::net::TcpOutputMemoryBudget]
    (src/core/net/TcpOutputMemoryBudget.cc) and of the output accounting of
    [TcpConnection] (src/core/net/TcpConnection.cc): [tryReserveOutputBytes],
    [releaseOutputBytes], [releaseConnectionOutputBytes] and the seal that
    [tryShutdown], [tryForceClose] and [beginCloseInLoop] put on the
    connection's word.

    A send reserves its bytes first on its connection and then on the budgets of
    its loop, its server and the process, which other connections share; the
    bytes are released, possibly in other portions, once they are written or
    dropped.  All of it is lock-free: every atomic load, store and
    read-modify-write is a step of the machine, and the steps of any number of
    sends and releases on any number of connections interleave freely. *)

From S2P Require Import Prelude Transport.

Local Open Scope Z_scope.

(** ** Options *)

Record TcpOutputMemoryBudgetOptions := mkBudgetOptions {
  hardLimitBytes : Z;
  recoveryThresholdBytes : Z;
}.

Definition budget_validate (o : TcpOutputMemoryBudgetOptions) : result unit :=
  if hardLimitBytes o =? 0 then Throw invalid_argument
  else if hardLimitBytes o <=? recoveryThresholdBytes o then Throw invalid_argument
  else Ok tt.

Record TcpConnectionBackpressureOptions := mkBackpressureOptions {
  lowWaterMarkBytes : Z;
  highWaterMarkBytes : Z;
  connectionHardLimitBytes : Z;
  maxInputBufferBytes : Z;
}.

(** [ConnectionBackpressureController::validateThresholds] *)
Definition validateThresholds (highWaterMark lowWaterMark : Z) : result unit :=
  if highWaterMark =? 0 then Throw invalid_argument
  else if highWaterMark <=? lowWaterMark then Throw invalid_argument
  else Ok tt.

Definition backpressure_validate (o : TcpConnectionBackpressureOptions) : result unit :=
  match validateThresholds (highWaterMarkBytes o) (lowWaterMarkBytes o) with
  | Throw e => Throw e
  | Ok _ =>
      if connectionHardLimitBytes o <? highWaterMarkBytes o then Throw invalid_argument
      else if maxInputBufferBytes o =? 0 then Throw invalid_argument
      else Ok tt
  end.

(** ** Counters *)

(** The four atomics of a budget, and of a connection ([pendingOutputBytes_],
    [peakPendingOutputBytes_], [rejectedOutputReservations_],
    [outputAdmissionOverloaded_]); both are reported as a
    [TcpOutputMemoryBudgetSnapshot]. *)
Record OutputCounters := mkCounters {
  pendingBytes_ : Z;
  peakPendingBytes_ : Z;
  rejectedReservations_ : Z;
  overloaded_ : bool;
}.

Definition zero_counters : OutputCounters := mkCounters 0 0 0 false.

(** A connection's [pendingOutputBytes_] holds the seal in its highest bit. *)
Definition kOutputAdmissionSealedBit : Z := 9223372036854775808.
Definition kOutputByteCountMask : Z := 9223372036854775807.

Definition sealed (word : Z) : bool := negb (Z.land word kOutputAdmissionSealedBit =? 0).
Definition byte_count (word : Z) : Z := Z.land word kOutputByteCountMask.

Definition set_pending (v : Z) (a : OutputCounters) : OutputCounters :=
  mkCounters v (peakPendingBytes_ a) (rejectedReservations_ a) (overloaded_ a).
Definition set_peak (v : Z) (a : OutputCounters) : OutputCounters :=
  mkCounters (pendingBytes_ a) v (rejectedReservations_ a) (overloaded_ a).
Definition set_overloaded (b : bool) (a : OutputCounters) : OutputCounters :=
  mkCounters (pendingBytes_ a) (peakPendingBytes_ a) (rejectedReservations_ a) b.
Definition count_rejected (a : OutputCounters) : OutputCounters :=
  mkCounters (pendingBytes_ a) (peakPendingBytes_ a) (rejectedReservations_ a ⊕ 1) (overloaded_ a).

(** *** The reservation loop

    The [for (;;)] of [TcpOutputMemoryBudget::tryReserve] and of
    [tryReserveOutputBytes], with the recovery threshold or low water mark as
    [threshold].  [AtLoad]: before the load of the count; [AtTest]: before the
    load of the overload flag; [AtClear], [AtLatch]: before the store of the
    flag; [AtReject]: before the rejection is counted; [AtCas]: before the
    compare-exchange. *)
Inductive ReservePc :=
  | AtLoad
  | AtTest (current : Z)
  | AtClear
  | AtLatch
  | AtReject
  | AtCas (current : Z).

Inductive ReserveOutcome :=
  | Next (pc : ReservePc)
  | Rejected
  | Reserved (candidate : Z).

(** [spurious]: this weak compare-exchange fails although the value matches. *)
Definition reserve_step (spurious : bool) (threshold limit bytes : Z) (a : OutputCounters) (pc : ReservePc) :
    OutputCounters * ReserveOutcome :=
  match pc with
  | AtLoad => (a, Next (AtTest (pendingBytes_ a)))
  | AtTest current =>
      if overloaded_ a then
        if threshold <? current then (a, Next AtReject) else (a, Next AtClear)
      else if (limit <? current) || (limit ⊖ current <? bytes) then
        if threshold <? current then (a, Next AtLatch) else (a, Next AtReject)
      else (a, Next (AtCas current))
  | AtClear => (set_overloaded false a, Next AtLoad)
  | AtLatch => (set_overloaded true a, Next AtReject)
  | AtReject => (count_rejected a, Rejected)
  | AtCas current =>
      if (pendingBytes_ a =? current) && negb spurious
      then (set_pending (current ⊕ bytes) a, Reserved (current ⊕ bytes))
      else (a, Next (AtTest (pendingBytes_ a)))
  end.

(** [updatePeak]: before and after the load of the peak. *)
Inductive PeakPc := PeakLoad (candidate : Z) | PeakLoaded (candidate peak : Z).

Definition peak_step (spurious : bool) (a : OutputCounters) (pc : PeakPc) : OutputCounters * option PeakPc :=
  match pc with
  | PeakLoad candidate => (a, Some (PeakLoaded candidate (peakPendingBytes_ a)))
  | PeakLoaded candidate peak =>
      if peak <? candidate then
        if (peakPendingBytes_ a =? peak) && negb spurious then (set_peak candidate a, None)
        else (a, Some (PeakLoaded candidate (peakPendingBytes_ a)))
      else (a, None)
  end.

(** *** The packed word *)

Lemma byte_count_mod w : byte_count w = w mod 9223372036854775808.
Proof.
  unfold byte_count, kOutputByteCountMask. change 9223372036854775807 with (Z.ones 63).
  by rewrite Z.land_ones by lia.
Qed.

Lemma sealed_spec w : 0 <= w < usize_lim -> sealed w = (9223372036854775808 <=? w).
Proof.
  intros Hw. unfold sealed, kOutputAdmissionSealedBit. change 9223372036854775808 with (2 ^ 63).
  assert (Z.testbit w 63 = (2 ^ 63 <=? w)) as Hb.
  { rewrite Z.testbit_eqb by lia. change (2 ^ 63) with 9223372036854775808.
    destruct (9223372036854775808 <=? w) eqn:E; zify_bools.
    - replace (w / 9223372036854775808) with 1; [done|]. apply (Z.div_unique _ _ 1 (w - 9223372036854775808)); lia.
    - by rewrite Z.div_small by lia. }
  rewrite <- Hb. destruct (Z.testbit w 63) eqn:E.
  - apply negb_true_iff, Z.eqb_neq. intros H0. assert (Z.testbit (Z.land w (2 ^ 63)) 63 = true) as H1.
    { by rewrite Z.land_spec, E, Z.pow2_bits_true. }
    by rewrite H0, Z.bits_0 in H1.
  - apply negb_false_iff, Z.eqb_eq. apply Z.bits_inj'. intros n Hn. rewrite Z.land_spec, Z.bits_0.
    destruct (decide (n = 63)) as [->|Hne]; [by rewrite E|].
    by rewrite Z.pow2_bits_false, andb_false_r by lia.
Qed.

(** The word is its count and its seal. *)
Lemma word_split w : 0 <= w < usize_lim ->
  w = byte_count w + (if sealed w then 9223372036854775808 else 0) /\ 0 <= byte_count w < 9223372036854775808.
Proof.
  intros Hw. rewrite byte_count_mod, sealed_spec by done.
  pose proof (Z.mod_pos_bound w 9223372036854775808 ltac:(lia)).
  destruct (_ <=? w) eqn:E; zify_bools; (split; [|lia]).
  - replace (w mod 9223372036854775808) with (w - 9223372036854775808); [lia|].
    apply (Z.mod_unique _ _ 1); lia.
  - rewrite Z.mod_small by lia. lia.
Qed.

Lemma word_unique n (b : bool) :
  0 <= n < 9223372036854775808 ->
  byte_count (n + if b then 9223372036854775808 else 0) = n /\
  sealed (n + if b then 9223372036854775808 else 0) = b.
Proof.
  intros Hn. set (w := n + _). assert (0 <= w < usize_lim) as Hw by (unfold w; destruct b; lia).
  destruct (word_split w Hw) as [E Hc]. rewrite sealed_spec by done. rewrite sealed_spec in E by done.
  destruct (_ <=? w) eqn:E2; zify_bools; unfold w in *; destruct b; split; (done || lia).
Qed.

(** Releasing bytes keeps the seal; sealing keeps the count. *)
Lemma word_sub w n : 0 <= w < usize_lim -> 0 <= n <= byte_count w ->
  w ⊖ n = w - n /\ byte_count (w - n) = byte_count w - n /\ sealed (w - n) = sealed w.
Proof.
  intros Hw Hn. destruct (word_split w Hw) as [E Hc]. split; [apply uwrap_small; destruct (sealed w); lia|].
  replace (w - n) with (byte_count w - n + if sealed w then 9223372036854775808 else 0) by lia.
  apply word_unique. lia.
Qed.

Lemma word_seal w : 0 <= w < usize_lim ->
  let w' := Z.lor w kOutputAdmissionSealedBit in
  0 <= w' < usize_lim /\ byte_count w' = byte_count w /\ sealed w' = true.
Proof.
  intros Hw w'. destruct (word_split w Hw) as [E Hc].
  assert (w' = byte_count w + 9223372036854775808) as ->.
  { unfold w', kOutputAdmissionSealedBit.
    assert (forall k, 0 <= k < 9223372036854775808 -> Z.lor k 9223372036854775808 = k + 9223372036854775808) as Hlor.
    { intros k Hk. rewrite <- Z.add_lor_land. replace (Z.land k 9223372036854775808) with 0; [lia|].
      symmetry. assert (sealed k = false) as Hs by (rewrite sealed_spec by lia; apply Z.leb_gt; lia).
      unfold sealed in Hs. by apply negb_false_iff, Z.eqb_eq in Hs. }
    destruct (sealed w) eqn:Es.
    - rewrite E at 1. rewrite <- (Hlor (byte_count w)) by lia.
      by rewrite <- Z.lor_assoc, Z.lor_diag.
    - rewrite <- Hlor by lia. f_equal. lia. }
  pose proof (word_unique (byte_count w) true Hc) as [E1 E2]. split_and!; [lia|lia|done|done].
Qed.

(** ** The machine *)

(** The counters: those of a connection, those of a budget. *)
Inductive Cell := CConnection (c : nat) | CBudget (b : nat).

Global Instance Cell_eq_dec : EqDecision Cell.
Proof. solve_decision. Defined.

(** Where a reservation is taken. *)
Inductive Site := ConnectionSite | LoopSite | ServerSite | GlobalSite.

Global Instance Site_eq_dec : EqDecision Site.
Proof. solve_decision. Defined.

(** The connections' options and budgets, fixed before they are established. *)
Record Config := mkConfig {
  connection_options : nat -> TcpConnectionBackpressureOptions;
  budget_options : nat -> TcpOutputMemoryBudgetOptions;
  budget_of : nat -> Site -> option nat;
}.

Section machine.
Context (cfg : Config).

(** The counters a connection uses at a site; a budget may be absent, and the
    same budget may stand at several sites. *)
Definition cell_of (c : nat) (s : Site) : option Cell :=
  match s with ConnectionSite => Some (CConnection c) | _ => CBudget <$> budget_of cfg c s end.

Definition limit_of (x : Cell) : Z :=
  match x with
  | CConnection c =>
      let hard := connectionHardLimitBytes (connection_options cfg c) in
      if hard <? kOutputByteCountMask then hard else kOutputByteCountMask
  | CBudget b => hardLimitBytes (budget_options cfg b)
  end.

Definition threshold_of (x : Cell) : Z :=
  match x with
  | CConnection c => lowWaterMarkBytes (connection_options cfg c)
  | CBudget b => recoveryThresholdBytes (budget_options cfg b)
  end.

(** The bytes a cell counts. *)
Definition bytes_in (x : Cell) (a : OutputCounters) : Z :=
  match x with CConnection _ => byte_count (pendingBytes_ a) | CBudget _ => pendingBytes_ a end.

(** Inside a release: before the subtraction; after it, with the store of the
    overload flag and the signal of the lifecycle still to do. *)
Inductive ReleasePc := ReleaseSub | ReleaseAfter (clear signal : bool).

(** A send that reserves at a site, then publishes a budget's peak; publishes its
    connection's peak; has its bytes admitted; releases or rolls back what it
    holds at the remaining sites. *)
Inductive Phase :=
  | Reserving (s : Site) (pc : ReservePc)
  | BudgetPeak (s : Site) (pc : PeakPc)
  | ConnectionPeak (pc : option PeakPc)
  | Held
  | Releasing (todo : list Site) (pc : ReleasePc) (answer : option TcpSendResult).

Record Op := mkOp { op_connection : nat; op_bytes : Z; op_phase : Phase }.

Definition at_phase (p : Phase) (o : Op) : Op := mkOp (op_connection o) (op_bytes o) p.

(** The site after one that was reserved. *)
Definition after_site (s : Site) : Phase :=
  match s with
  | ConnectionSite => Reserving LoopSite AtLoad
  | LoopSite => Reserving ServerSite AtLoad
  | ServerSite => Reserving GlobalSite AtLoad
  | GlobalSite => ConnectionPeak None
  end.

(** What a refusal at a site rolls back, in order, and answers. *)
Definition refused_at (s : Site) : list Site * TcpSendResult :=
  match s with
  | ConnectionSite => ([], SendOverloaded)
  | LoopSite => ([ConnectionSite], SendLoopOverloaded)
  | ServerSite => ([LoopSite; ConnectionSite], SendServerOverloaded)
  | GlobalSite => ([ServerSite; LoopSite; ConnectionSite], SendGlobalOverloaded)
  end.

(** [releaseOutputBytes] *)
Definition release_order : list Site := [GlobalSite; ServerSite; LoopSite; ConnectionSite].

(** What a step does to the operation: it goes on; [tryReserveOutputBytes]
    returns; the release is over; the process ends. *)
Inductive Outcome :=
  | Continue (p : Phase)
  | Return (r : TcpSendResult) (p : option Phase)
  | Finished
  | Fatal.

(** The connection's loop first looks for the seal in what it loaded. *)
Definition sees_seal (s : Site) (pc : ReservePc) : bool :=
  match s, pc with ConnectionSite, AtTest current => sealed current | _, _ => false end.

(** Where the reservation loop of a site leads. *)
Definition reserve_outcome (s : Site) (out : ReserveOutcome) : Outcome :=
  match out with
  | Next pc => Continue (Reserving s pc)
  | Reserved candidate =>
      match s with
      | ConnectionSite => Continue (after_site s)
      | _ => Continue (BudgetPeak s (PeakLoad candidate))
      end
  | Rejected =>
      let '(todo, r) := refused_at s in
      match todo with
      | [] => Return r None
      | _ => Continue (Releasing todo ReleaseSub (Some r))
      end
  end.

(** One atomic action of an operation on connection [c].  The last component is
    whether the connection's lifecycle is signalled. *)
Definition op_step (spurious : bool) (cells : Cell -> OutputCounters) (c : nat) (bytes : Z) (p : Phase) :
    option (Cell * OutputCounters) * Outcome * bool :=
  match p with
  | Reserving s pc =>
      match cell_of c s with
      | None => (None, Continue (after_site s), false)
      | Some x =>
          if sees_seal s pc then (None, Return SendClosed None, false)
          else
            let '(a', out) := reserve_step spurious (threshold_of x) (limit_of x) bytes (cells x) pc in
            (Some (x, a'), reserve_outcome s out, false)
      end
  | BudgetPeak s pc =>
      match cell_of c s with
      | None => (None, Continue (after_site s), false)
      | Some x =>
          let '(a', next) := peak_step spurious (cells x) pc in
          (Some (x, a'), Continue (match next with Some pc' => BudgetPeak s pc' | None => after_site s end), false)
      end
  | ConnectionPeak None =>
      (None, Continue (ConnectionPeak (Some (PeakLoad (byte_count (pendingBytes_ (cells (CConnection c))))))), false)
  | ConnectionPeak (Some pc) =>
      let '(a', next) := peak_step spurious (cells (CConnection c)) pc in
      (Some (CConnection c, a'),
       match next with
       | Some pc' => Continue (ConnectionPeak (Some pc'))
       | None => Return SendAccepted (Some Held)
       end, false)
  | Held => (None, Continue Held, false)
  | Releasing [] _ (Some r) => (None, Return r None, false)
  | Releasing [] _ None => (None, Finished, false)
  | Releasing (s :: todo) ReleaseSub answer =>
      match cell_of c s with
      | None => (None, Continue (Releasing todo ReleaseSub answer), false)
      | Some x =>
          let a := cells x in
          let previous := pendingBytes_ a in
          let previousBytes := bytes_in x a in
          let a' := set_pending (previous ⊖ bytes) a in
          if previousBytes <? bytes then (Some (x, a'), Fatal, false)
          else
            let clear := previousBytes - bytes <=? threshold_of x in
            let signal := match x with
                          | CConnection _ => sealed previous && (previousBytes =? bytes)
                          | CBudget _ => false end in
            (Some (x, a'), Continue (Releasing (s :: todo) (ReleaseAfter clear signal) answer), false)
      end
  | Releasing (s :: todo) (ReleaseAfter clear signal) answer =>
      if clear then
        match cell_of c s with
        | None => (None, Continue (Releasing (s :: todo) (ReleaseAfter false signal) answer), false)
        | Some x =>
            (Some (x, set_overloaded false (cells x)),
             Continue (Releasing (s :: todo) (ReleaseAfter false signal) answer), false)
        end
      else (None, Continue (Releasing todo ReleaseSub answer), signal)
  end.

(** [signals]: the connections whose lifecycle was signalled; [answers]: what
    [tryReserveOutputBytes] returned; latest last. *)
Record Machine := mkMachine {
  cells : Cell -> OutputCounters;
  ops : gmap nat Op;
  signals : list nat;
  answers : list (nat * TcpSendResult);
  fatal : bool;
}.

Definition set_cell (u : option (Cell * OutputCounters)) (f : Cell -> OutputCounters) : Cell -> OutputCounters :=
  match u with None => f | Some (x, a) => fun y => if decide (y = x) then a else f y end.

Definition put_op (i : nat) (o : option Op) (m : gmap nat Op) : gmap nat Op :=
  match o with Some o => <[i := o]> m | None => delete i m end.

(** [LBegin]: [trySend] reserves for a non-empty message.  [LRelease]: the owner
    has written or dropped [n] of the admitted bytes of [i], the rest of which
    stays admitted as [j].  [LMerge]: admitted bytes of the same connection are
    released together.  [LSeal]: a close request. *)
Inductive Label :=
  | LBegin (i c : nat) (bytes : Z)
  | LStep (i : nat) (spurious : bool)
  | LRelease (i : nat) (n : Z) (j : nat)
  | LMerge (i j : nat)
  | LSeal (c : nat).

Definition is_held (p : Phase) : bool := match p with Held => true | _ => false end.

Definition output_step (lb : Label) (m : Machine) : option Machine :=
  if fatal m then None else
  match lb with
  | LBegin i c bytes =>
      if bool_decide (ops m !! i = None) && (0 <? bytes) && (bytes <? usize_lim)
      then Some (mkMachine (cells m) (<[i := mkOp c bytes (Reserving ConnectionSite AtLoad)]> (ops m))
                   (signals m) (answers m) false)
      else None
  | LStep i spurious =>
      match ops m !! i with
      | None => None
      | Some o =>
          let '(u, out, signal) := op_step spurious (cells m) (op_connection o) (op_bytes o) (op_phase o) in
          let signals' := if (signal : bool) then signals m ++ [op_connection o] else signals m in
          match out with
          | Continue p => Some (mkMachine (set_cell u (cells m)) (<[i := at_phase p o]> (ops m)) signals' (answers m) false)
          | Return r p =>
              Some (mkMachine (set_cell u (cells m)) (put_op i ((fun p => at_phase p o) <$> p) (ops m)) signals'
                (answers m ++ [(i, r)]) false)
          | Finished => Some (mkMachine (set_cell u (cells m)) (delete i (ops m)) signals' (answers m) false)
          | Fatal => Some (mkMachine (set_cell u (cells m)) (ops m) signals' (answers m) true)
          end
      end
  | LRelease i n j =>
      match ops m !! i with
      | Some o =>
          let release := mkOp (op_connection o) n (Releasing release_order ReleaseSub None) in
          if negb (is_held (op_phase o)) then None
          else if n =? op_bytes o then
            Some (mkMachine (cells m) (<[i := release]> (ops m)) (signals m) (answers m) false)
          else if bool_decide (ops m !! j = None) && (0 <? n) && (n <? op_bytes o) then
            Some (mkMachine (cells m)
              (<[j := mkOp (op_connection o) (op_bytes o - n) Held]> (<[i := release]> (ops m)))
              (signals m) (answers m) false)
          else None
      | None => None
      end
  | LMerge i j =>
      match ops m !! i, ops m !! j with
      | Some o1, Some o2 =>
          if negb (bool_decide (i = j)) && is_held (op_phase o1) && is_held (op_phase o2) &&
             bool_decide (op_connection o1 = op_connection o2)
          then Some (mkMachine (cells m)
                 (<[i := mkOp (op_connection o1) (op_bytes o1 + op_bytes o2) Held]> (delete j (ops m)))
                 (signals m) (answers m) false)
          else None
      | _, _ => None
      end
  | LSeal c =>
      let a := cells m (CConnection c) in
      Some (mkMachine
        (set_cell (Some (CConnection c, set_pending (Z.lor (pendingBytes_ a) kOutputAdmissionSealedBit) a)) (cells m))
        (ops m) (signals m) (answers m) false)
  end.

Fixpoint output_steps (lbs : list Label) (m : Machine) : option Machine :=
  match lbs with
  | [] => Some m
  | lb :: lbs => match output_step lb m with Some m' => output_steps lbs m' | None => None end
  end.

Definition initial : Machine := mkMachine (fun _ => zero_counters) ∅ [] [] false.

(** ** Invariant *)

(** The sites reserved before one. *)
Definition before (s : Site) : list Site :=
  match s with
  | ConnectionSite => []
  | LoopSite => [ConnectionSite]
  | ServerSite => [LoopSite; ConnectionSite]
  | GlobalSite => [ServerSite; LoopSite; ConnectionSite]
  end.

(** Where an operation holds its bytes. *)
Definition holds (p : Phase) : list Site :=
  match p with
  | Reserving s _ => before s
  | BudgetPeak s _ => s :: before s
  | ConnectionPeak _ | Held => release_order
  | Releasing todo ReleaseSub _ => todo
  | Releasing todo (ReleaseAfter _ _) _ => tail todo
  end.

Definition uses (x : Cell) (c : nat) (s : Site) : bool := bool_decide (cell_of c s = Some x).

(** The bytes an operation holds in a cell. *)
Definition share (x : Cell) (o : Op) : Z :=
  zsum (fun s => if uses x (op_connection o) s then op_bytes o else 0) (holds (op_phase o)).

Definition oshare (x : Cell) (o : option Op) : Z := match o with Some o => share x o | None => 0 end.

Definition candidate (pc : PeakPc) : Z := match pc with PeakLoad v | PeakLoaded v _ => v end.

Definition phase_ok (c : nat) (bytes : Z) (p : Phase) : Prop :=
  match p with
  | Reserving s (AtTest v) => 0 <= v < usize_lim
  | Reserving s (AtCas v) => forall x, cell_of c s = Some x -> 0 <= v /\ v + bytes <= limit_of x
  | BudgetPeak s pc => s <> ConnectionSite /\
      forall x, cell_of c s = Some x -> 0 <= candidate pc <= limit_of x
  | ConnectionPeak (Some pc) => 0 <= candidate pc <= limit_of (CConnection c)
  | Releasing _ _ (Some r) => r <> SendAccepted
  | _ => True
  end.

Definition op_ok (o : Op) : Prop := 0 < op_bytes o < usize_lim /\ phase_ok (op_connection o) (op_bytes o) (op_phase o).

(** An operation is about to raise the peak of a cell to [v] or more. *)
Definition raises (x : Cell) (v : Z) (o : Op) : Prop :=
  exists s pc, op_phase o = BudgetPeak s pc /\ cell_of (op_connection o) s = Some x /\ v <= candidate pc.

(** An operation compares [v] with a peak [q] it loaded before. *)
Definition loaded (x : Cell) (v q : Z) (o : Op) : Prop :=
  exists s, op_phase o = BudgetPeak s (PeakLoaded v q) /\ cell_of (op_connection o) s = Some x.

Definition is_budget (x : Cell) : bool := match x with CBudget _ => true | _ => false end.

Record inv (m : Machine) : Prop := {
  iv_bytes : forall x, bytes_in x (cells m x) = msum (share x) (ops m);
  iv_word : forall x, 0 <= pendingBytes_ (cells m x) < usize_lim;
  iv_limit : forall x, bytes_in x (cells m x) <= limit_of x;
  iv_peak : forall x, 0 <= peakPendingBytes_ (cells m x) <= limit_of x;
  iv_raise : forall x, is_budget x = true -> bytes_in x (cells m x) <= peakPendingBytes_ (cells m x) \/
    exists i o, ops m !! i = Some o /\ raises x (bytes_in x (cells m x)) o;
  iv_loaded : forall i o x v q, ops m !! i = Some o -> loaded x v q o -> q <= peakPendingBytes_ (cells m x);
  iv_ops : map_Forall (fun _ => op_ok) (ops m);
  iv_fatal : fatal m = false;
}.

(** The constructors accepted the options. *)
Record config_ok : Prop := {
  cf_budget : forall b, budget_validate (budget_options cfg b) = Ok tt /\
    is_usize (hardLimitBytes (budget_options cfg b)) /\ is_usize (recoveryThresholdBytes (budget_options cfg b));
  cf_connection : forall c, backpressure_validate (connection_options cfg c) = Ok tt /\
    is_usize (connectionHardLimitBytes (connection_options cfg c)) /\
    is_usize (lowWaterMarkBytes (connection_options cfg c)) /\
    is_usize (highWaterMarkBytes (connection_options cfg c));
}.

Lemma limit_bounds x : config_ok ->
  0 < limit_of x < usize_lim /\ 0 <= threshold_of x < usize_lim /\ threshold_of x < limit_of x \/
  exists c, x = CConnection c /\ limit_of x = kOutputByteCountMask /\ 0 <= threshold_of x < usize_lim.
Proof.
  intros [Hb Hc]. unfold is_usize in *. destruct x as [c|b]; simpl.
  - destruct (Hc c) as (Hv & Hh & Hl & Hw). unfold backpressure_validate, validateThresholds in Hv.
    destruct (highWaterMarkBytes _ =? 0) eqn:?; [discriminate|].
    destruct (highWaterMarkBytes _ <=? lowWaterMarkBytes _) eqn:?; [discriminate|].
    destruct (connectionHardLimitBytes _ <? highWaterMarkBytes _) eqn:?; [discriminate|]. zify_bools.
    destruct (_ <? kOutputByteCountMask) eqn:E; zify_bools; [left; lia|right]. exists c. split_and!; [done|done|lia|lia].
  - left. destruct (Hb b) as (Hv & Hh & Hl). unfold budget_validate in Hv.
    destruct (hardLimitBytes _ =? 0) eqn:?; [discriminate|].
    destruct (hardLimitBytes _ <=? recoveryThresholdBytes _) eqn:?; [discriminate|]. zify_bools. lia.
Qed.

Lemma limit_pos x : config_ok -> 0 < limit_of x < usize_lim.
Proof.
  intros H. destruct (limit_bounds x H) as [|(c & -> & -> & _)]; [tauto|]. unfold kOutputByteCountMask. lia.
Qed.

Lemma limit_connection c : limit_of (CConnection c) <= kOutputByteCountMask.
Proof. simpl. destruct (_ <? _) eqn:E; zify_bools; lia. Qed.

Lemma op_share_nonneg x o : op_ok o -> 0 <= share x o.
Proof.
  intros [Hb _]. unfold share. apply zsum_nonneg. intros s. destruct (uses _ _ _); lia.
Qed.

Lemma share_cons x c n s l :
  zsum (fun s => if uses x c s then n else 0) (s :: l) =
  (if uses x c s then n else 0) + zsum (fun s => if uses x c s then n else 0) l.
Proof. done. Qed.

Lemma uses_true x c s : cell_of c s = Some x -> uses x c s = true.
Proof. intros. by apply bool_decide_eq_true. Qed.

Lemma uses_other x y c s : cell_of c s = Some x -> y <> x -> uses y c s = false.
Proof. intros E Hne. apply bool_decide_eq_false. congruence. Qed.

Lemma uses_none x c s : cell_of c s = None -> uses x c s = false.
Proof. intros E. apply bool_decide_eq_false. congruence. Qed.

Section preservation.
Context (Hcfg : config_ok).

Lemma bytes_nonneg m x : inv m -> 0 <= bytes_in x (cells m x).
Proof.
  intros Hi. rewrite (iv_bytes _ Hi). apply msum_nonneg. intros i o Ho. apply op_share_nonneg.
  apply (iv_ops _ Hi i o Ho).
Qed.

(** What an operation holds is counted. *)
Lemma share_le m x i o : inv m -> ops m !! i = Some o -> share x o <= bytes_in x (cells m x).
Proof.
  intros Hi Ho. rewrite (iv_bytes _ Hi). apply (msum_member _ _ i); [|done].
  intros j o' Hj. apply op_share_nonneg. apply (iv_ops _ Hi j o' Hj).
Qed.

(** One operation goes on, changing at most one cell. *)
Lemma inv_change m i o b u sg ans :
  inv m -> ops m !! i = Some o -> (forall b', b = Some b' -> op_ok b') ->
  (forall y, (forall x a, u = Some (x, a) -> y <> x) -> share y o = oshare y b) ->
  (forall y v, (forall x a, u = Some (x, a) -> y <> x) -> raises y v o -> exists b', b = Some b' /\ raises y v b') ->
  (forall b' x v q, b = Some b' -> loaded x v q b' -> q <= peakPendingBytes_ (set_cell u (cells m) x)) ->
  (forall x a, u = Some (x, a) ->
     0 <= pendingBytes_ a < usize_lim /\
     bytes_in x a = bytes_in x (cells m x) - share x o + oshare x b /\ bytes_in x a <= limit_of x /\
     peakPendingBytes_ (cells m x) <= peakPendingBytes_ a <= limit_of x /\
     (is_budget x = true -> bytes_in x a <= peakPendingBytes_ a \/
        (exists b', b = Some b' /\ raises x (bytes_in x a) b') \/
        (bytes_in x a <= bytes_in x (cells m x) /\ ~ bytes_in x (cells m x) <= peakPendingBytes_ (cells m x) /\
         (raises x (bytes_in x a) o -> False)))) ->
  inv (mkMachine (set_cell u (cells m)) (put_op i b (ops m)) sg ans false).
Proof.
  intros Hi Ho Hb Hoth Hroth Hld Hu.
  assert (forall y, set_cell u (cells m) y = cells m y /\ (forall x a, u = Some (x, a) -> y <> x) \/
    exists a, u = Some (y, a) /\ set_cell u (cells m) y = a) as Hcell.
  { intros y. destruct u as [[x a]|]; simpl; [|by left]. destruct (decide (y = x)) as [->|Hne]; [eauto|].
    left. split; [done|]. intros x' a' [= <- <-]. done. }
  assert (forall y, msum (share y) (put_op i b (ops m)) = msum (share y) (ops m) - share y o + oshare y b) as Hsum.
  { intros y. destruct b as [b|]; simpl; [by rewrite (msum_update _ _ _ o)|rewrite (msum_delete _ _ _ o) by done; lia]. }
  assert (forall j o', ops m !! j = Some o' -> j <> i -> put_op i b (ops m) !! j = Some o') as Hkeep.
  { intros j o' Hj Hne. destruct b; simpl; by rewrite ?lookup_insert_ne, ?lookup_delete_ne. }
  split; simpl; try done.
  - intros y. rewrite Hsum. destruct (Hcell y) as [[-> Hne]|(a & -> & ->)].
    + rewrite (iv_bytes _ Hi), Hoth by done. lia.
    + destruct (Hu y a eq_refl) as (_ & -> & _). by rewrite (iv_bytes _ Hi).
  - intros y. destruct (Hcell y) as [[-> _]|(a & -> & ->)]; [apply Hi|]. by destruct (Hu y a eq_refl).
  - intros y. destruct (Hcell y) as [[-> _]|(a & -> & ->)]; [apply Hi|]. by destruct (Hu y a eq_refl) as (_ & _ & ? & _).
  - intros y. pose proof (iv_peak _ Hi y). destruct (Hcell y) as [[-> _]|(a & -> & ->)]; [done|].
    destruct (Hu y a eq_refl) as (_ & _ & _ & ? & _). lia.
  - intros y Hy. destruct (Hcell y) as [[-> Hne]|(a & -> & ->)].
    + destruct (iv_raise _ Hi y Hy) as [?|(j & o' & Hj & Hr)]; [by left|right].
      destruct (decide (j = i)) as [->|Hji]; [|exists j, o'; auto].
      assert (o' = o) as -> by congruence. destruct (Hroth y _ Hne Hr) as (b' & -> & Hr').
      exists i, b'. split; [apply lookup_insert_eq|done].
    + destruct (Hu y a eq_refl) as (_ & _ & _ & _ & Hr). destruct (Hr Hy) as [?|[(b' & -> & Hr')|(Hle & Hn & Hno)]]; [by left|right..].
      * exists i, b'. split; [apply lookup_insert_eq|done].
      * destruct (iv_raise _ Hi y Hy) as [?|(j & o' & Hj & (s & pc & Ep & Ec & Hv))]; [lia|].
        destruct (decide (j = i)) as [->|Hji].
        -- assert (o' = o) as -> by congruence. exfalso. apply Hno. exists s, pc. split_and!; [done|done|lia].
        -- exists j, o'. split; [by apply Hkeep|]. exists s, pc. split_and!; [done|done|lia].
  - intros j o' x v q Hj Hl. destruct (decide (j = i)) as [->|Hne].
    + destruct b as [b|]; simpl in Hj; [|by rewrite lookup_delete_eq in Hj].
      rewrite lookup_insert_eq in Hj. simplify_eq. by eapply Hld.
    + assert (ops m !! j = Some o') as Hj0
        by (destruct b; simpl in Hj; by rewrite ?lookup_insert_ne, ?lookup_delete_ne in Hj by done).
      pose proof (iv_loaded _ Hi j o' x v q Hj0 Hl). destruct (Hcell x) as [[-> _]|(a & -> & ->)]; [done|].
      destruct (Hu x a eq_refl) as (_ & _ & _ & ? & _). lia.
  - intros j o' Hj. destruct b as [b|]; simpl in Hj.
    + apply lookup_insert_Some in Hj as [[<- <-]|[_ Hj]]; [auto|by apply (iv_ops _ Hi j)].
    + apply lookup_delete_Some in Hj as [_ Hj]. by apply (iv_ops _ Hi j).
Qed.

(** A change of phase that touches no cell. *)
Lemma inv_local m i o b sg ans :
  inv m -> ops m !! i = Some o -> (forall b', b = Some b' -> op_ok b') ->
  (forall y, share y o = oshare y b) -> (forall y v, raises y v o -> exists b', b = Some b' /\ raises y v b') ->
  (forall b' x v q, b = Some b' -> loaded x v q b' -> q <= peakPendingBytes_ (cells m x)) ->
  inv (mkMachine (cells m) (put_op i b (ops m)) sg ans false).
Proof.
  intros Hi Ho Hb Hs Hr Hl. apply (inv_change m i o b None sg ans); try done; intros; auto.
Qed.

(** *** The reservation loop *)

Lemma reserve_step_ok spurious x bytes a pc a' out :
  0 < bytes < usize_lim -> 0 <= pendingBytes_ a < usize_lim ->
  match pc with
  | AtTest v => 0 <= v < usize_lim
  | AtCas v => 0 <= v /\ v + bytes <= limit_of x
  | _ => True
  end ->
  reserve_step spurious (threshold_of x) (limit_of x) bytes a pc = (a', out) ->
  peakPendingBytes_ a' = peakPendingBytes_ a /\
  match out with
  | Next pc' => pendingBytes_ a' = pendingBytes_ a /\
      match pc' with AtTest v => v = pendingBytes_ a | AtCas v => 0 <= v /\ v + bytes <= limit_of x | _ => True end
  | Rejected => pendingBytes_ a' = pendingBytes_ a
  | Reserved v => pendingBytes_ a + bytes <= limit_of x /\ v = pendingBytes_ a + bytes /\ pendingBytes_ a' = v
  end.
Proof.
  intros Hby Ha Hpc. pose proof (limit_pos x Hcfg) as Hl.
  destruct pc as [|v| | | |v]; simpl; try (intros [= <- <-]; done).
  - destruct (overloaded_ a); [destruct (_ <? v); intros [= <- <-]; done|].
    destruct (_ || _) eqn:E; [destruct (threshold_of x <? v); intros [= <- <-]; done|].
    intros [= <- <-]. zify_bools. unwrap. split_and!; (done || lia).
  - destruct (_ && _) eqn:E; intros [= <- <-]; [|done]. zify_bools. simpl. destruct Hpc.
    rewrite uwrap_small by lia. split_and!; (done || lia).
Qed.

Lemma peak_step_ok spurious a pc a' next lim :
  0 <= candidate pc <= lim -> 0 <= peakPendingBytes_ a <= lim ->
  (forall v q, pc = PeakLoaded v q -> q <= peakPendingBytes_ a) ->
  peak_step spurious a pc = (a', next) ->
  pendingBytes_ a' = pendingBytes_ a /\ peakPendingBytes_ a <= peakPendingBytes_ a' <= lim /\
  match next with
  | Some pc' => candidate pc' = candidate pc /\ forall v q, pc' = PeakLoaded v q -> q <= peakPendingBytes_ a'
  | None => candidate pc <= peakPendingBytes_ a'
  end.
Proof.
  destruct pc as [v|v q]; simpl; intros Hv Hp Hq.
  - intros [= <- <-]. split_and!; try (done || lia). intros ? ? [= <- <-]. lia.
  - specialize (Hq v q eq_refl).
    destruct (q <? v) eqn:E; [destruct (_ && _) eqn:E2|]; intros [= <- <-]; zify_bools; simpl;
      split_and!; try (done || lia). intros ? ? [= <- <-]. lia.
Qed.

(** *** One atomic action *)

(** The operation after a step, if it goes on. *)
Definition next_op (o : Op) (out : Outcome) : option Op :=
  match out with
  | Continue p => Some (at_phase p o)
  | Return _ p => (fun p => at_phase p o) <$> p
  | Finished | Fatal => None
  end.

Lemma after_site_holds s : holds (after_site s) = s :: before s.
Proof. by destruct s. Qed.

Lemma share_at x o p : share x (at_phase p o) =
  zsum (fun s => if uses x (op_connection o) s then op_bytes o else 0) (holds p).
Proof. done. Qed.

Lemma no_raise y v o : (forall s pc, op_phase o <> BudgetPeak s pc) -> ~ raises y v o.
Proof. intros Hn (s & pc & E & _). by apply (Hn s pc). Qed.

Lemma not_loaded y v q o : (forall s pc, op_phase o <> BudgetPeak s pc) -> ~ loaded y v q o.
Proof. intros Hn (s & E & _). by eapply Hn. Qed.

(** The cell gains or loses the bytes at one site. *)
Lemma bytes_reserved x a v :
  0 <= pendingBytes_ a -> pendingBytes_ a <= v -> v <= limit_of x ->
  bytes_in x (set_pending v a) = bytes_in x a + (v - pendingBytes_ a).
Proof.
  intros Ha Hv Hl. destruct x as [c|b]; simpl; [|lia]. pose proof (limit_connection c) as Hm.
  unfold kOutputByteCountMask in Hm. rewrite !byte_count_mod, !Z.mod_small by lia. lia.
Qed.

Lemma bytes_released x a n :
  0 <= pendingBytes_ a < usize_lim -> 0 <= n <= bytes_in x a ->
  0 <= pendingBytes_ a ⊖ n < usize_lim /\ bytes_in x (set_pending (pendingBytes_ a ⊖ n) a) = bytes_in x a - n.
Proof.
  intros Hw Hn. split; [apply uwrap_bound|]. destruct x as [c|b]; simpl in *.
  - by destruct (word_sub _ n Hw Hn) as (-> & -> & _).
  - rewrite uwrap_small; lia.
Qed.

Lemma bytes_same x a a' : pendingBytes_ a' = pendingBytes_ a -> bytes_in x a' = bytes_in x a.
Proof. intros E. destruct x; simpl; by rewrite E. Qed.

Lemma reserving_inv m i o s pc x spurious a' out sg ans :
  inv m -> ops m !! i = Some o -> op_phase o = Reserving s pc -> cell_of (op_connection o) s = Some x ->
  reserve_step spurious (threshold_of x) (limit_of x) (op_bytes o) (cells m x) pc = (a', out) ->
  inv (mkMachine (set_cell (Some (x, a')) (cells m)) (put_op i (next_op o (reserve_outcome s out)) (ops m)) sg ans false).
Proof.
  intros Hi Ho Hph Hx Hstep. destruct (iv_ops _ Hi i o Ho) as [Hby Hok]. rewrite Hph in Hok.
  pose proof (iv_word _ Hi x) as Hw. pose proof (iv_peak _ Hi x) as Hpk. pose proof (iv_limit _ Hi x) as Hlim.
  destruct (reserve_step_ok spurious x (op_bytes o) (cells m x) pc a' out Hby Hw) as [Hp Hout]; [|done|].
  { destruct pc; simpl in Hok; try done. by apply Hok. }
  pose proof (limit_pos x Hcfg) as Hl.
  assert (forall y v, raises y v o -> False) as Hnr by (intros y v; apply no_raise; intros; by rewrite Hph).
  assert (forall y, share y o = zsum (fun s => if uses y (op_connection o) s then op_bytes o else 0) (before s)) as Hsh
    by (intros y; unfold share; by rewrite Hph).
  destruct out as [pc'| |v]; cbn [reserve_outcome].
  - destruct Hout as [Hpend Hpc']. pose proof (bytes_same x _ _ Hpend) as Hb.
    apply (inv_change m i o); try done.
    + intros b' [= <-]. split; [done|]. destruct pc'; simpl; try done; [subst; lia|]. intros y Hy.
      assert (y = x) as -> by congruence. done.
    + intros y v _ Hr. by destruct (Hnr y v).
    + intros b' y v q [= <-] (s' & E & _). done.
    + intros y a [= <- <-]. simpl. rewrite Hpend, Hb, Hp, Hsh, share_at. simpl holds. split_and!; try lia.
      intros _. destruct (decide (bytes_in x (cells m x) <= peakPendingBytes_ (cells m x))); [by left|right; right].
      split_and!; [lia|done|apply Hnr].
  - pose proof (bytes_same x _ _ Hout) as Hb.
    assert (exists r, inv (mkMachine (set_cell (Some (x, a')) (cells m))
      (put_op i (next_op o match fst (refused_at s) with [] => Return r None
        | _ => Continue (Releasing (before s) ReleaseSub (Some (snd (refused_at s)))) end) (ops m)) sg ans false)) as (r & Hinv).
    2: { destruct s; exact Hinv. }
    exists (snd (refused_at s)).
    apply (inv_change m i o); try done.
    + intros b' Eb. split; [by destruct s; simpl in Eb; simplify_eq|destruct s; simpl in Eb; by simplify_eq].
    + intros y _. rewrite Hsh. destruct s; done.
    + intros y v _ Hr. by destruct (Hnr y v).
    + intros b' y v q Eb (s' & E & _). destruct s; simpl in Eb; by simplify_eq.
    + intros y a [= <- <-]. rewrite Hout, Hb, Hp, Hsh. split_and!; try lia.
      * destruct s; simpl; unfold share; simpl; lia.
      * intros _. destruct (decide (bytes_in x (cells m x) <= peakPendingBytes_ (cells m x))); [by left|right; right].
        split_and!; [lia|done|apply Hnr].
  - destruct Hout as (Hle & -> & Hpend).
    assert (bytes_in x a' = bytes_in x (cells m x) + op_bytes o) as Hb.
    { rewrite (bytes_same x (set_pending (pendingBytes_ (cells m x) + op_bytes o) (cells m x))) by done.
      rewrite bytes_reserved by lia. lia. }
    assert (bytes_in x a' <= limit_of x) as Hbl.
    { rewrite Hb. destruct (word_split _ Hw) as [E _]. destruct x as [c|b]; simpl in *; [|lia].
      destruct (sealed _); lia. }
    set (b := next_op o _).
    assert (exists p, b = Some (at_phase p o) /\ holds p = s :: before s /\
      (p = after_site s /\ s = ConnectionSite \/ s <> ConnectionSite /\ p = BudgetPeak s (PeakLoad (pendingBytes_ (cells m x) + op_bytes o))))
      as (p & Eb & Hh & Hp').
    { destruct s; (eexists; split; [done|split; [done|]]); [by left|by right..]. }
    apply (inv_change m i o); try done.
    + intros b' Eb'. rewrite Eb in Eb'. injection Eb' as <-. split; [done|]. simpl.
      destruct Hp' as [[-> ->]|[Hns ->]]; simpl; [done|]. split; [done|]. intros y Hy.
      assert (y = x) as -> by congruence. lia.
    + intros y Hne. rewrite Hsh, Eb. simpl. rewrite share_at, Hh, share_cons, (uses_other x y) by (eauto; done). lia.
    + intros y v _ Hr. by destruct (Hnr y v).
    + intros b' y v q Eb' (s' & E & _). rewrite Eb in Eb'. injection Eb' as <-. simpl in E.
      destruct Hp' as [[-> ->]|[_ ->]]; done.
    + intros y a [= <- <-]. rewrite Hpend, Hb, Hp, Hsh, Eb. simpl oshare. rewrite share_at, Hh, share_cons, (uses_true x) by done.
      split_and!; try lia. intros Hbud. right; left. exists (at_phase p o). split; [done|].
      destruct Hp' as [[-> ->]|[_ ->]].
      * simpl in Hx. injection Hx as <-. done.
      * exists s, (PeakLoad (pendingBytes_ (cells m x) + op_bytes o)). split_and!; [done|done|].
        destruct x; [done|]. simpl. lia.
Qed.

(** Publishing a peak. *)
Lemma peak_inv m i o x pc spurious a' next p' sg ans :
  inv m -> ops m !! i = Some o -> op_ok (at_phase p' o) ->
  (forall y, share y o = share y (at_phase p' o)) ->
  0 <= candidate pc <= limit_of x -> (forall v q, pc = PeakLoaded v q -> q <= peakPendingBytes_ (cells m x)) ->
  peak_step spurious (cells m x) pc = (a', next) ->
  (forall y v, y <> x -> ~ raises y v o) ->
  (is_budget x = true -> forall v, raises x v o -> v <= candidate pc) ->
  (is_budget x = true -> match next with
   | Some pc' => (forall v, v <= candidate pc' -> raises x v (at_phase p' o)) /\
       (forall y v q, loaded y v q (at_phase p' o) -> y = x /\ pc' = PeakLoaded v q)
   | None => forall s pc, p' <> BudgetPeak s pc end) ->
  (is_budget x = false -> forall s pc, p' <> BudgetPeak s pc) ->
  inv (mkMachine (set_cell (Some (x, a')) (cells m)) (put_op i (Some (at_phase p' o)) (ops m)) sg ans false).
Proof.
  intros Hi Ho Hok Hsh Hc Hq Hstep Hoth Hmine Hnext Hconn.
  pose proof (iv_word _ Hi x) as Hw. pose proof (iv_peak _ Hi x) as Hpk. pose proof (iv_limit _ Hi x) as Hlim.
  destruct (peak_step_ok _ _ _ _ _ _ Hc Hpk Hq Hstep) as (Hpend & Hpk' & Hn). pose proof (bytes_same x _ _ Hpend) as Hb.
  apply (inv_change m i o); try done.
  - by intros b' [= <-].
  - intros y v Hne Hr. destruct (Hoth y v) as []; [by eapply Hne|done].
  - intros b' y v q [= <-] Hl. destruct (is_budget x) eqn:Ebx.
    + specialize (Hnext eq_refl). destruct next as [pc'|].
      * destruct Hnext as [_ Hnl]. destruct (Hnl y v q Hl) as [-> ->]. destruct Hn as [_ Hn]. simpl.
        rewrite decide_True by done. by eapply Hn.
      * destruct Hl as (s & E & _). by destruct (Hnext s (PeakLoaded v q)).
    + destruct Hl as (s & E & _). by destruct (Hconn eq_refl s (PeakLoaded v q)).
  - intros y a [= <- <-]. rewrite Hpend, Hb. simpl oshare. rewrite <- Hsh. split_and!; try lia.
    intros Hbud. specialize (Hnext Hbud). specialize (Hmine Hbud).
    destruct (decide (bytes_in x (cells m x) <= peakPendingBytes_ a')) as [|Hgt]; [by left|right].
    destruct next as [pc'|].
    + destruct Hnext as [Hr _]. destruct Hn as [Hcc _]. destruct (decide (bytes_in x (cells m x) <= candidate pc')).
      * left. eauto.
      * right. split_and!; [lia|lia|]. intros Hr'%Hmine. lia.
    + right. split_and!; [lia|lia|]. intros Hr'%Hmine. lia.
Qed.

(** Giving back the bytes held at one site. *)
Lemma output_release_inv m i o s todo ans0 x sg ans clear sgn :
  inv m -> ops m !! i = Some o -> op_phase o = Releasing (s :: todo) ReleaseSub ans0 ->
  cell_of (op_connection o) s = Some x ->
  op_bytes o <= bytes_in x (cells m x) /\
  inv (mkMachine (set_cell (Some (x, set_pending (pendingBytes_ (cells m x) ⊖ op_bytes o) (cells m x))) (cells m))
         (<[i := at_phase (Releasing (s :: todo) (ReleaseAfter clear sgn) ans0) o]> (ops m)) sg ans false).
Proof.
  intros Hi Ho Hph Hx. destruct (iv_ops _ Hi i o Ho) as [Hby Hok]. rewrite Hph in Hok.
  pose proof (iv_word _ Hi x) as Hw. pose proof (iv_peak _ Hi x) as Hpk. pose proof (iv_limit _ Hi x) as Hlim.
  assert (forall y, share y o = (if uses y (op_connection o) s then op_bytes o else 0) +
    zsum (fun s => if uses y (op_connection o) s then op_bytes o else 0) todo) as Hsh
    by (intros y; unfold share; by rewrite Hph).
  pose proof (share_le m x i o Hi Ho) as Hle. rewrite Hsh, (uses_true x) in Hle by done.
  assert (0 <= zsum (fun s => if uses x (op_connection o) s then op_bytes o else 0) todo) as Hz
    by (apply zsum_nonneg; intros; destruct (uses _ _ _); lia).
  split; [lia|].
  destruct (bytes_released x (cells m x) (op_bytes o) Hw ltac:(lia)) as [Hw' Hb].
  assert (forall y v, raises y v o -> False) as Hnr by (intros y v; apply no_raise; intros; by rewrite Hph).
  apply (inv_change m i o (Some _)); try done.
  - intros b' [= <-]. by split.
  - intros y Hne. rewrite Hsh, (uses_other x y) by (eauto; done). done.
  - intros y v _ Hr. by destruct (Hnr y v).
  - intros b' y v q [= <-] (s' & E & _). done.
  - intros y a [= <- <-]. rewrite Hb, Hsh, (uses_true x) by done. simpl oshare. rewrite share_at. simpl holds.
    simpl pendingBytes_. simpl peakPendingBytes_. simpl tail. split_and!; try lia. intros _.
    destruct (decide (bytes_in x (cells m x) <= peakPendingBytes_ (cells m x))); [left; lia|right; right].
    split_and!; [lia|done|apply Hnr].
Qed.

(** Only flags change. *)
Lemma flag_inv m i o x a' p' sg ans :
  inv m -> ops m !! i = Some o -> op_ok (at_phase p' o) -> (forall y, share y o = share y (at_phase p' o)) ->
  (forall s pc, op_phase o <> BudgetPeak s pc) -> (forall s pc, p' <> BudgetPeak s pc) ->
  pendingBytes_ a' = pendingBytes_ (cells m x) -> peakPendingBytes_ a' = peakPendingBytes_ (cells m x) ->
  inv (mkMachine (set_cell (Some (x, a')) (cells m)) (<[i := at_phase p' o]> (ops m)) sg ans false).
Proof.
  intros Hi Ho Hok Hsh Hn1 Hn2 Hpend Hpk. pose proof (bytes_same x _ _ Hpend) as Hb.
  pose proof (iv_word _ Hi x). pose proof (iv_peak _ Hi x). pose proof (iv_limit _ Hi x).
  apply (inv_change m i o (Some _)); try done.
  - by intros b' [= <-].
  - intros y v _ Hr. by destruct (no_raise y v o Hn1).
  - intros b' y v q [= <-] Hl. by destruct (not_loaded y v q (at_phase p' o) Hn2).
  - intros y a [= <- <-]. rewrite Hpend, Hb, Hpk. simpl oshare. rewrite <- Hsh. split_and!; try lia.
    intros _. destruct (decide (bytes_in x (cells m x) <= peakPendingBytes_ (cells m x))); [by left|right; right].
    split_and!; [lia|done|]. by apply no_raise.
Qed.

Lemma op_step_inv m i o spurious u out signal sg ans :
  inv m -> ops m !! i = Some o ->
  op_step spurious (cells m) (op_connection o) (op_bytes o) (op_phase o) = (u, out, signal) ->
  out <> Fatal /\ inv (mkMachine (set_cell u (cells m)) (put_op i (next_op o out) (ops m)) sg ans false).
Proof.
  intros Hi Ho Hop. destruct (iv_ops _ Hi i o Ho) as [Hby Hok].
  assert (forall y, share y o = zsum (fun s => if uses y (op_connection o) s then op_bytes o else 0) (holds (op_phase o)))
    as Hsh by done.
  destruct (op_phase o) as [s pc|s pc|[pc|]| |todo pc ans0] eqn:Hph; cbn [op_step] in Hop.
  - (* a reservation *)
    destruct (cell_of (op_connection o) s) as [x|] eqn:Hx.
    + destruct (sees_seal s pc) eqn:Hseal.
      * injection Hop as <- <- <-. split; [done|]. destruct s; try done. destruct pc; try done.
        apply (inv_local m i o); try done. intros y v Hr. by destruct (no_raise y v o); [intros; rewrite Hph|].
      * destruct (reserve_step _ _ _ _ _ _) as [a' out'] eqn:Er. injection Hop as <- <- <-.
        split; [destruct out', s; done|]. by eapply reserving_inv.
    + injection Hop as <- <- <-. split; [done|]. apply (inv_local m i o); try done.
      * intros b' [= <-]. split; [done|]. by destruct s.
      * intros y. rewrite Hsh. simpl. rewrite share_at, after_site_holds, share_cons, (uses_none y) by done. done.
      * intros y v Hr. by destruct (no_raise y v o); [intros; rewrite Hph|].
      * intros b' y v q [= <-] Hl. by destruct s; destruct Hl as (s' & E & _).
  - (* a budget's peak *)
    destruct Hok as [Hs Hok]. destruct (cell_of (op_connection o) s) as [x|] eqn:Hx.
    + destruct (peak_step _ _ _) as [a' next] eqn:Ep. injection Hop as <- <- <-. split; [done|].
      assert (is_budget x = true) as Hbx.
      { destruct s; simpl in Hx; [done|..]; destruct (budget_of _ _ _); simpl in Hx; by simplify_eq. }
      assert (forall v q, pc = PeakLoaded v q -> q <= peakPendingBytes_ (cells m x)) as Hq.
      { intros v q ->. apply (iv_loaded _ Hi i o x v q Ho). by exists s. }
      destruct (peak_step_ok _ _ _ _ _ _ (Hok x eq_refl) (iv_peak _ Hi x) Hq Ep) as (_ & _ & Hn).
      apply (peak_inv m i o x pc spurious a' next); try done.
      * split; [done|]. destruct next as [pc'|]; simpl; [|by destruct s]. split; [done|]. intros y Hy.
        destruct Hn as [-> _]. assert (y = x) as -> by congruence. by apply Hok.
      * intros y. rewrite Hsh, share_at. destruct next; [done|]. by rewrite after_site_holds.
      * auto.
      * intros y v Hne (s' & pc' & E & Ey & _). congruence.
      * intros _ v (s' & pc' & E & _ & Hv). congruence.
      * intros _. destruct next as [pc'|]; [|destruct s; done]. split.
        -- intros v Hv. exists s, pc'. done.
        -- intros y v q (s' & E & Ey). simpl in E. injection E as <- ->. simpl in Ey. split; [congruence|done].
      * congruence.
    + injection Hop as <- <- <-. split; [done|]. apply (inv_change m i o); try done.
      * intros b' [= <-]. split; [done|]. by destruct s.
      * intros y _. rewrite Hsh. simpl. by rewrite share_at, after_site_holds.
      * intros y v _ (s' & pc' & E & Ey & _). congruence.
      * intros b' y v q [= <-] Hl. by destruct s; destruct Hl as (s' & E & _).
  - (* the connection's peak *)
    destruct (peak_step _ _ _) as [a' next] eqn:Ep. injection Hop as <- <- <-. split; [by destruct next|].
    assert (exists p', next_op o (match next with
      | Some pc' => Continue (ConnectionPeak (Some pc')) | None => Return SendAccepted (Some Held) end) = Some (at_phase p' o) /\
      holds p' = release_order /\ (forall s pc, p' <> BudgetPeak s pc) /\
      match next with Some pc' => p' = ConnectionPeak (Some pc') | None => p' = Held end) as (p' & Ep' & Hh & Hnb & Hcase).
    { by destruct next; eexists. }
    rewrite Ep'.
    assert (forall y, share y o = share y (at_phase p' o)) as Hss by (intros; rewrite Hsh, share_at, Hh; done).
    pose proof (iv_peak _ Hi (CConnection (op_connection o))) as Hpk.
    assert (op_ok (at_phase p' o)) as Hok'.
    { split; [done|]. destruct next as [pc'|]; subst p'; [|done]. simpl. simpl in Hok.
      unfold peak_step in Ep. destruct pc as [v|v q]; simpl in Ep; [by simplify_eq|].
      destruct (_ <? _); [destruct (_ && _)|]; by simplify_eq. }
    assert (pendingBytes_ a' = pendingBytes_ (cells m (CConnection (op_connection o))) /\
      peakPendingBytes_ (cells m (CConnection (op_connection o))) <= peakPendingBytes_ a' <= limit_of (CConnection (op_connection o)))
      as [Hpend Hpk'].
    { cbn [phase_ok] in Hok. destruct pc as [v|v q]; cbn [peak_step candidate] in Ep, Hok.
      - injection Ep as <- <-. split; [done|lia].
      - destruct (_ <? _) eqn:E1; [destruct (_ && _) eqn:E2|]; injection Ep as <- <-; zify_bools;
          cbn [set_peak pendingBytes_ peakPendingBytes_]; (split; [done|lia]). }
    apply (inv_change m i o (Some (at_phase p' o))); try done.
    + by intros b' [= <-].
    + intros y v _ Hr. by destruct (no_raise y v o); [intros; rewrite Hph|].
    + intros b' y v q [= <-] Hl. by destruct (not_loaded y v q (at_phase p' o) Hnb).
    + intros y a [= <- <-]. pose proof (bytes_same (CConnection (op_connection o)) _ _ Hpend) as Hb.
      rewrite Hpend, Hb. simpl oshare. rewrite <- Hss.
      pose proof (iv_word _ Hi (CConnection (op_connection o))). pose proof (iv_limit _ Hi (CConnection (op_connection o))).
      split_and!; try lia. done.
  - injection Hop as <- <- <-. split; [done|]. apply (inv_local m i o); try done.
    + intros b' [= <-]. split; [done|]. simpl.
      pose proof (iv_limit _ Hi (CConnection (op_connection o))) as Hl.
      destruct (word_split _ (iv_word _ Hi (CConnection (op_connection o)))) as [_ ?]. simpl in Hl. lia.
    + intros y v Hr. by destruct (no_raise y v o); [intros; rewrite Hph|].
    + by intros b' y v q [= <-] (s' & E & _).
  - injection Hop as <- <- <-. split; [done|]. apply (inv_local m i o); try done.
    + intros b' [= <-]. by split.
    + intros y v Hr. by destruct (no_raise y v o); [intros; rewrite Hph|].
    + by intros b' y v q [= <-] (s' & E & _).
  - (* a release *)
    assert (forall y v, raises y v o -> False) as Hnr by (intros y v; apply no_raise; intros; by rewrite Hph).
    destruct todo as [|s todo].
    { assert (u = None /\ next_op o out = None /\ out <> Fatal) as (-> & -> & Hnf)
        by (destruct ans0; by injection Hop as <- <- <-).
      split; [done|]. apply (inv_local m i o None); try done.
      - intros y. rewrite Hsh. by destruct pc.
      - intros y v Hr. by destruct (Hnr y v). }
    destruct pc as [|clear signal'].
    + destruct (cell_of (op_connection o) s) as [x|] eqn:Hx.
      * destruct (output_release_inv m i o s todo ans0 x sg ans
          (bytes_in x (cells m x) - op_bytes o <=? threshold_of x)
          (match x with CConnection _ => sealed (pendingBytes_ (cells m x)) && (bytes_in x (cells m x) =? op_bytes o)
           | CBudget _ => false end) Hi Ho Hph Hx) as [Hle Hinv].
        rewrite (proj2 (Z.ltb_ge _ _) Hle) in Hop. injection Hop as <- <- <-. split; [done|]. exact Hinv.
      * injection Hop as <- <- <-. split; [done|]. apply (inv_local m i o); try done.
        -- intros b' [= <-]. by split.
        -- intros y. rewrite Hsh. simpl holds. rewrite share_cons, (uses_none y) by done. done.
        -- intros y v Hr. by destruct (Hnr y v).
        -- by intros b' y v q [= <-] (s' & E & _).
    + destruct clear.
      * destruct (cell_of (op_connection o) s) as [x|] eqn:Hx; injection Hop as <- <- <-; (split; [done|]).
        -- apply flag_inv; try done. by intros; rewrite Hph.
        -- apply (inv_local m i o); try done; [intros b' [= <-]; by split| |by intros b' y v q [= <-] (s' & E & _)].
           intros y v Hr. by destruct (Hnr y v).
      * injection Hop as <- <- <-. split; [done|]. apply (inv_local m i o); try done.
        -- intros b' [= <-]. by split.
        -- intros y v Hr. by destruct (Hnr y v).
        -- by intros b' y v q [= <-] (s' & E & _).
Qed.

(** Admitted bytes are regrouped. *)
Definition publishing (p : Phase) : bool := match p with BudgetPeak _ _ => true | _ => false end.

Lemma inv_regroup m ops' sg ans :
  inv m -> (forall x, msum (share x) ops' = msum (share x) (ops m)) -> map_Forall (fun _ => op_ok) ops' ->
  (forall i o, publishing (op_phase o) = true -> ops m !! i = Some o <-> ops' !! i = Some o) ->
  inv (mkMachine (cells m) ops' sg ans false).
Proof.
  intros [Hb Hw Hl Hp Hr Hld Ho Hf] Hs Ho' Hpub. split; simpl; try done.
  - intros x. by rewrite Hs.
  - intros x Hx. destruct (Hr x Hx) as [|(i & o & Hi & Hra)]; [by left|right]. exists i, o. split; [|done].
    apply Hpub; [|done]. by destruct Hra as (s & pc & -> & _).
  - intros i o x v q Hi Hlo. apply (Hld i o x v q); [|done]. apply Hpub; [|done]. by destruct Hlo as (s & -> & _).
Qed.

(** What is held everywhere, by connection and size. *)
Definition everywhere (x : Cell) (c : nat) (n : Z) : Z :=
  zsum (fun s => if uses x c s then n else 0) release_order.

Lemma everywhere_add x c n1 n2 : everywhere x c (n1 + n2) = everywhere x c n1 + everywhere x c n2.
Proof. unfold everywhere, zsum, release_order. simpl. repeat (destruct (uses _ _ _)); lia. Qed.

Lemma share_held x o : is_held (op_phase o) = true -> share x o = everywhere x (op_connection o) (op_bytes o).
Proof. unfold share. by destruct (op_phase o). Qed.

(** Admitted bytes fit their connection's limit. *)
Lemma held_fits m i o : inv m -> ops m !! i = Some o -> is_held (op_phase o) = true ->
  op_bytes o <= bytes_in (CConnection (op_connection o)) (cells m (CConnection (op_connection o))).
Proof.
  intros Hi Ho Hh. eapply Z.le_trans; [|by eapply share_le]. rewrite share_held by done.
  destruct (iv_ops _ Hi i o Ho) as [Hby _].
  unfold everywhere, release_order, zsum. simpl. rewrite (uses_true _ _ ConnectionSite) by done.
  repeat (destruct (uses _ _ _)); lia.
Qed.

Lemma not_publishing_held p : is_held p = true -> publishing p = false.
Proof. by destruct p. Qed.

Lemma split_inv m i o n j sg ans :
  inv m -> ops m !! i = Some o -> is_held (op_phase o) = true -> ops m !! j = None -> 0 < n < op_bytes o ->
  inv (mkMachine (cells m)
    (<[j := mkOp (op_connection o) (op_bytes o - n) Held]>
      (<[i := mkOp (op_connection o) n (Releasing release_order ReleaseSub None)]> (ops m))) sg ans false).
Proof.
  intros Hi Ho Hh Hj Hn. destruct (iv_ops _ Hi i o Ho) as [Hby _].
  assert (j <> i) as Hji by congruence.
  apply inv_regroup; [done| | |].
  - intros x. rewrite msum_new by (by rewrite lookup_insert_ne). rewrite (msum_update _ _ _ o) by done.
    rewrite (share_held x o) by done.
    change (share x (mkOp (op_connection o) n (Releasing release_order ReleaseSub None)))
      with (everywhere x (op_connection o) n).
    change (share x (mkOp (op_connection o) (op_bytes o - n) Held)) with (everywhere x (op_connection o) (op_bytes o - n)).
    pose proof (everywhere_add x (op_connection o) n (op_bytes o - n)) as E.
    replace (n + (op_bytes o - n)) with (op_bytes o) in E by lia. lia.
  - apply map_Forall_insert_2; [split; [simpl; lia|done]|]. apply map_Forall_insert_2; [split; [simpl; lia|done]|apply Hi].
  - intros k o' Hp. split.
    + intros Hk. rewrite !lookup_insert_ne; [done|intros ->|intros ->; congruence].
      assert (o' = o) as -> by congruence. by rewrite not_publishing_held in Hp.
    + intros [[<- <-]|[_ [[<- <-]|[_ Hk]]%lookup_insert_Some]]%lookup_insert_Some; done.
Qed.

Lemma merge_inv m i j o1 o2 sg ans :
  inv m -> ops m !! i = Some o1 -> ops m !! j = Some o2 -> i <> j ->
  is_held (op_phase o1) = true -> is_held (op_phase o2) = true -> op_connection o1 = op_connection o2 ->
  inv (mkMachine (cells m)
    (<[i := mkOp (op_connection o1) (op_bytes o1 + op_bytes o2) Held]> (delete j (ops m))) sg ans false).
Proof.
  intros Hi Ho1 Ho2 Hij Hh1 Hh2 Hc. destruct (iv_ops _ Hi i o1 Ho1) as [Hb1 _]. destruct (iv_ops _ Hi j o2 Ho2) as [Hb2 _].
  assert (delete j (ops m) !! i = Some o1) as Hd1 by (by rewrite lookup_delete_ne).
  assert (forall x, share x (mkOp (op_connection o1) (op_bytes o1 + op_bytes o2) Held) = share x o1 + share x o2) as Hsum.
  { intros x. rewrite (share_held x o1), (share_held x o2), share_held, <- Hc by done. simpl. apply everywhere_add. }
  assert (forall x, msum (share x) (<[i := mkOp (op_connection o1) (op_bytes o1 + op_bytes o2) Held]> (delete j (ops m))) =
    msum (share x) (ops m)) as Hms.
  { intros x. rewrite (msum_update _ _ _ o1), (msum_delete _ _ _ o2), Hsum by done. lia. }
  apply inv_regroup; [done|done| |].
  - apply map_Forall_insert_2; [|apply map_Forall_delete, Hi]. split; [|done]. simpl. split; [lia|].
    set (x := CConnection (op_connection o1)).
    assert (share x o1 + share x o2 <= bytes_in x (cells m x)) as Hle.
    { rewrite (iv_bytes _ Hi), <- Hms, <- Hsum.
      apply (msum_member (share x) _ i); [|apply lookup_insert_eq].
      intros k o' [[<- <-]|[_ [_ Hk]%lookup_delete_Some]]%lookup_insert_Some; [|apply op_share_nonneg; by apply (iv_ops _ Hi k)].
      rewrite Hsum. pose proof (op_share_nonneg x o1 (iv_ops _ Hi i o1 Ho1)). pose proof (op_share_nonneg x o2 (iv_ops _ Hi j o2 Ho2)). lia. }
    assert (forall c n, 0 <= n -> n <= everywhere (CConnection c) c n) as Hev.
    { intros c n Hn. unfold everywhere, release_order, zsum. simpl. rewrite (uses_true _ _ ConnectionSite) by done.
      repeat (destruct (uses _ _ _)); lia. }
    pose proof (iv_limit _ Hi x) as Hl. pose proof (limit_pos x Hcfg).
    rewrite (share_held x o1), (share_held x o2), <- Hc in Hle by done. unfold x in *.
    pose proof (Hev (op_connection o1) (op_bytes o1) ltac:(lia)). pose proof (Hev (op_connection o1) (op_bytes o2) ltac:(lia)). lia.
  - intros k o' Hp. split.
    + intros Hk. rewrite lookup_insert_ne, lookup_delete_ne; [done|intros ->|intros ->].
      * assert (o' = o2) as -> by congruence. by rewrite not_publishing_held in Hp.
      * assert (o' = o1) as -> by congruence. by rewrite not_publishing_held in Hp.
    + intros [[<- <-]|[_ [_ Hk]%lookup_delete_Some]]%lookup_insert_Some; done.
Qed.

Lemma seal_inv m c sg ans :
  inv m ->
  inv (mkMachine (set_cell (Some (CConnection c,
    set_pending (Z.lor (pendingBytes_ (cells m (CConnection c))) kOutputAdmissionSealedBit) (cells m (CConnection c)))) (cells m))
    (ops m) sg ans false).
Proof.
  intros [Hb Hw Hl Hp Hr Hld Ho Hf]. destruct (word_seal _ (Hw (CConnection c))) as (Hw' & Hc & _).
  split; simpl; try done.
  - intros x. destruct (decide (x = CConnection c)) as [->|]; [simpl; rewrite Hc; apply (Hb (CConnection c))|apply Hb].
  - intros x. by destruct (decide (x = CConnection c)) as [->|].
  - intros x. destruct (decide (x = CConnection c)) as [->|]; [simpl; rewrite Hc; apply (Hl (CConnection c))|apply Hl].
  - intros x. destruct (decide (x = CConnection c)) as [->|]; [apply (Hp (CConnection c))|apply Hp].
  - intros x Hx. destruct (decide (x = CConnection c)) as [->|]; [done|by apply Hr].
  - intros i o x v q Hi Hlo. destruct (decide (x = CConnection c)) as [->|]; [|by eapply Hld].
    by apply (Hld i o (CConnection c) v q).
Qed.

Lemma output_step_inv lb m m' : inv m -> output_step lb m = Some m' -> inv m'.
Proof.
  intros Hi Hs. unfold output_step in Hs. rewrite (iv_fatal _ Hi) in Hs.
  destruct lb as [i c bytes|i spurious|i n j|i j|c].
  - destruct (_ && _) eqn:E; [|done]. rewrite !andb_true_iff in E. destruct E as [[Hn%bool_decide_eq_true H1] H2].
    zify_bools. injection Hs as <-. apply inv_regroup; [done| | |].
    + intros x. rewrite msum_new by done. unfold share at 2. simpl. lia.
    + apply map_Forall_insert_2; [split; [simpl; lia|done]|apply Hi].
    + intros k o Hp. split; [intros Hk; rewrite lookup_insert_ne; [done|congruence]|].
      intros [[<- <-]|[_ Hk]]%lookup_insert_Some; done.
  - destruct (ops m !! i) as [o|] eqn:Ho; [|done].
    destruct (op_step _ _ _ _ _) as [[u out] signal] eqn:Eop.
    destruct (op_step_inv m i o spurious u out signal
      (if signal then signals m ++ [op_connection o] else signals m)
      (match out with Return r _ => answers m ++ [(i, r)] | _ => answers m end) Hi Ho Eop) as [Hnf Hinv].
    destruct out as [p|r p| |]; [..|done]; by injection Hs as <-.
  - destruct (ops m !! i) as [o|] eqn:Ho; [|done]. destruct (is_held (op_phase o)) eqn:Hh; [|done]. simpl in Hs.
    destruct (n =? op_bytes o) eqn:En; zify_bools.
    + injection Hs as <-. subst n. apply (inv_local m i o (Some _)); try done.
      * intros b' [= <-]. split; [|done]. apply (iv_ops _ Hi i o Ho).
      * intros x. rewrite share_held by done. done.
      * intros y v Hr. by destruct (no_raise y v o); [intros s pc E; by rewrite E in Hh|].
      * by intros b' x v q [= <-] (s & E & _).
    + destruct (_ && _) eqn:E; [|done]. rewrite !andb_true_iff in E. destruct E as [[Hj%bool_decide_eq_true H1] H2].
      zify_bools. injection Hs as <-. by apply split_inv.
  - destruct (ops m !! i) as [o1|] eqn:Ho1; [|done]. destruct (ops m !! j) as [o2|] eqn:Ho2; [|done].
    destruct (_ && _) eqn:E; [|done]. rewrite !andb_true_iff in E.
    destruct E as [[[Hij%negb_true_iff%bool_decide_eq_false H1] H2] Hc%bool_decide_eq_true].
    injection Hs as <-. by apply merge_inv.
  - injection Hs as <-. by apply seal_inv.
Qed.

Lemma output_steps_inv lbs : forall m m', inv m -> output_steps lbs m = Some m' -> inv m'.
Proof.
  induction lbs as [|lb lbs IH]; intros m m' Hi Hs; simpl in Hs; [by simplify_eq|].
  destruct (output_step lb m) as [m1|] eqn:E; [|done]. eapply IH; [|done]. by eapply output_step_inv.
Qed.

Lemma output_initial_inv : inv initial.
Proof.
  assert (forall x, 0 < limit_of x < usize_lim) as Hl by (intros; by apply limit_pos).
  split; simpl; try done; try lia.
  - intros x. rewrite msum_empty. by destruct x.
  - intros x. specialize (Hl x). replace (bytes_in x zero_counters) with 0 by (by destruct x). lia.
  - intros x. specialize (Hl x). lia.
  - intros x Hx. left. by destruct x.
Qed.

(** *** Sealed connections *)

Definition word (m : Machine) (c : nat) : Z := pendingBytes_ (cells m (CConnection c)).

(** A release that found the last bytes of a sealed connection is about to signal. *)
Definition signalling (m : Machine) (c : nat) : Prop :=
  exists i o todo clear ans, ops m !! i = Some o /\ op_connection o = c /\
    op_phase o = Releasing (ConnectionSite :: todo) (ReleaseAfter clear true) ans.

Lemma cell_of_connection c s d : cell_of c s = Some (CConnection d) -> s = ConnectionSite /\ c = d.
Proof. destruct s; simpl; [by intros [= ->]|..]; by destruct (budget_of _ _ _). Qed.

(** What a step may do to a connection's word. *)
Definition word_steps (w w' : Z) : Prop :=
  sealed w = true -> sealed w' = true /\ byte_count w' <= byte_count w.

Lemma set_cell_word u f c :
  pendingBytes_ (set_cell u f (CConnection c)) =
  match u with Some (CConnection d, a) => if decide (c = d) then pendingBytes_ a else pendingBytes_ (f (CConnection c))
  | _ => pendingBytes_ (f (CConnection c)) end.
Proof.
  destruct u as [[[d|b] a]|]; simpl; [|done..]. destruct (decide (c = d)) as [->|Hne].
  - by rewrite decide_True.
  - by rewrite decide_False by congruence.
Qed.

Lemma keeps_word u m c :
  (forall x a, u = Some (x, a) -> pendingBytes_ a = pendingBytes_ (cells m x)) ->
  pendingBytes_ (set_cell u (cells m) (CConnection c)) = word m c.
Proof.
  intros Hk. rewrite set_cell_word. destruct u as [[[d|b] a]|]; [|done..].
  destruct (decide (c = d)) as [->|]; [by apply Hk|done].
Qed.

Lemma peak_step_keeps spurious a pc a' next : peak_step spurious a pc = (a', next) -> pendingBytes_ a' = pendingBytes_ a.
Proof.
  destruct pc; simpl; [by intros [= <- <-]|]. destruct (_ <? _); [destruct (_ && _)|]; by intros [= <- <-].
Qed.

(** A reservation does not succeed on a sealed word. *)
Lemma sealed_not_reserved spurious m i o s pc x a' v :
  inv m -> ops m !! i = Some o -> op_phase o = Reserving s pc -> cell_of (op_connection o) s = Some x ->
  reserve_step spurious (threshold_of x) (limit_of x) (op_bytes o) (cells m x) pc = (a', Reserved v) ->
  forall c, x = CConnection c -> sealed (word m c) = false.
Proof.
  intros Hi Ho Hph Hx Hr c ->. destruct (iv_ops _ Hi i o Ho) as [Hby Hok]. rewrite Hph in Hok.
  destruct pc as [|w| | | |w]; simpl in Hr; try discriminate Hr.
  - destruct (overloaded_ _); [destruct (_ <? _); discriminate Hr|].
    destruct (_ || _); [destruct (_ <? _); discriminate Hr|discriminate Hr].
  - destruct (_ && _) eqn:E; [|discriminate Hr]. apply andb_true_iff in E as [E _]. zify_bools.
    destruct (Hok _ Hx) as [Hw Hl]. pose proof (limit_connection c) as Hm. unfold kOutputByteCountMask in Hm.
    unfold word. rewrite E, sealed_spec by lia. apply Z.leb_gt. lia.
Qed.

Lemma op_step_sealed m i o spurious u out signal c :
  inv m -> ops m !! i = Some o ->
  op_step spurious (cells m) (op_connection o) (op_bytes o) (op_phase o) = (u, out, signal) ->
  sealed (word m c) = true ->
  let w' := pendingBytes_ (set_cell u (cells m) (CConnection c)) in
  w' = word m c \/
  sealed w' = true /\ byte_count w' = byte_count (word m c) - op_bytes o /\ op_connection o = c /\
  exists todo clear ans,
    out = Continue (Releasing (ConnectionSite :: todo) (ReleaseAfter clear (byte_count (word m c) =? op_bytes o)) ans).
Proof.
  intros Hi Ho Hop Hs w'. destruct (iv_ops _ Hi i o Ho) as [Hby Hok].
  destruct (op_phase o) as [s pc|s pc|[pc|]| |[|s todo] [|clear sg] ans] eqn:Hph; simpl in Hop;
    try (left; apply keeps_word; simplify_eq; congruence).
  - destruct (cell_of _ s) as [x|] eqn:Hx; [|left; apply keeps_word; simplify_eq; congruence].
    destruct (sees_seal s pc); [left; apply keeps_word; simplify_eq; congruence|].
    destruct (reserve_step _ _ _ _ _ _) as [a' ro] eqn:Er. injection Hop as <- <- <-. left.
    assert (match pc with AtTest v => 0 <= v < usize_lim | AtCas v => 0 <= v /\ v + op_bytes o <= limit_of x | _ => True end)
      as Hpc by (destruct pc; simpl in Hok; auto).
    destruct (reserve_step_ok _ _ _ _ _ _ _ Hby (iv_word _ Hi x) Hpc Er) as [_ Hro].
    destruct ro as [pc'| |v].
    + apply keeps_word. intros y a [= <- <-]. tauto.
    + apply keeps_word. by intros y a [= <- <-].
    + unfold w'. rewrite set_cell_word. destruct x as [d|b]; [|done]. destruct (decide (c = d)) as [->|]; [|done].
      by rewrite (sealed_not_reserved _ _ _ _ _ _ _ _ _ Hi Ho Hph Hx Er d) in Hs.
  - left. apply keeps_word. intros x a ->. destruct (cell_of _ s) as [y|]; [|by injection Hop].
    destruct (peak_step _ _ _) as [a' next] eqn:Ep. injection Hop as <- <- <- <-. by eapply peak_step_keeps.
  - left. apply keeps_word. intros x a ->. destruct (peak_step _ _ _) as [a' next] eqn:Ep.
    injection Hop as <- <- <- <-. by eapply peak_step_keeps.
  - left. apply keeps_word. intros x a ->. by destruct ans; simplify_eq.
  - left. apply keeps_word. intros x a ->. by destruct ans; simplify_eq.
  - destruct (cell_of _ s) as [x|] eqn:Hx; [|left; apply keeps_word; simplify_eq; congruence].
    destruct x as [d|b].
    + pose proof (cell_of_connection _ _ _ Hx) as [-> <-].
      destruct (_ <? _) eqn:Hlt; [zify_bools|].
      { destruct (output_release_inv m i o ConnectionSite todo ans (CConnection (op_connection o)) [] [] false false Hi Ho Hph Hx).
        simpl in *. lia. }
      injection Hop as <- <- <-. unfold w'. rewrite set_cell_word. destruct (decide (c = op_connection o)) as [->|]; [right|by left].
      zify_bools. simpl in Hlt. cbn [set_pending pendingBytes_].
      destruct (word_sub (word m (op_connection o)) (op_bytes o)) as (E1 & E2 & E3); [apply Hi|unfold word; lia|].
      unfold word in *. rewrite E1, E2, E3. split_and!; [done|done|done|].
      simpl. rewrite Hs. eauto.
    + left. unfold w'. rewrite set_cell_word. destruct (_ <? _); by injection Hop as <- <- <-.
  - destruct clear; [destruct (cell_of _ s) as [x|]|]; left; apply keeps_word; simplify_eq; try congruence.
    intros x' a [= <- <-]. done.
Qed.

(** A step of another operation keeps a pending signal. *)
Lemma signalling_keep (opm ops' : gmap nat Op) f g sg sg' ans ans' c :
  (forall j o, opm !! j = Some o -> is_held (op_phase o) = false -> ops' !! j = Some o) ->
  signalling (mkMachine f opm sg ans false) c -> signalling (mkMachine g ops' sg' ans' false) c.
Proof.
  intros Hk (j & o & todo & clear & a & Hj & Hc & Hp). exists j, o, todo, clear, a. split_and!; [|done|done].
  simpl in *. apply Hk; [done|]. by rewrite Hp.
Qed.

(** A pending signal is given by the operation's last step there. *)
Lemma op_step_signal m i o spurious u out signal c :
  ops m !! i = Some o ->
  op_step spurious (cells m) (op_connection o) (op_bytes o) (op_phase o) = (u, out, signal) ->
  signalling m c ->
  (signal = true /\ op_connection o = c) \/
  (exists j o' todo clear ans, j <> i /\ ops m !! j = Some o' /\ op_connection o' = c /\
    op_phase o' = Releasing (ConnectionSite :: todo) (ReleaseAfter clear true) ans) \/
  op_connection o = c /\ exists todo clear ans, out = Continue (Releasing (ConnectionSite :: todo) (ReleaseAfter clear true) ans).
Proof.
  intros Ho Hop (j & o' & todo & clear & ans & Hj & Hc & Hp). destruct (decide (j = i)) as [->|Hne].
  - assert (o' = o) as -> by congruence. rewrite Hp in Hop. simpl in Hop.
    destruct clear; injection Hop as <- <- <-; [right; right|left]; [eauto 6|done].
  - right. left. exists j, o', todo, clear, ans. done.
Qed.

(** What happens to connection [c] between two states. *)
Definition sealed_progress (c : nat) (m m' : Machine) : Prop :=
  sealed (word m' c) = true /\ byte_count (word m' c) <= byte_count (word m c) /\
  exists new, signals m' = signals m ++ new /\
    (0 < byte_count (word m c) -> byte_count (word m' c) = 0 -> signalling m' c) /\
    (signalling m c -> signalling m' c \/ c ∈ new).

Lemma lstep_frame m i spurious m' o u out signal :
  fatal m = false -> output_step (LStep i spurious) m = Some m' -> ops m !! i = Some o ->
  op_step spurious (cells m) (op_connection o) (op_bytes o) (op_phase o) = (u, out, signal) ->
  cells m' = set_cell u (cells m) /\ signals m' = signals m ++ (if signal then [op_connection o] else []) /\
  (forall p, out = Continue p -> ops m' !! i = Some (at_phase p o)) /\
  (forall j, j <> i -> ops m' !! j = ops m !! j).
Proof.
  intros Hf Hs Ho Eop. unfold output_step in Hs. rewrite Hf, Ho, Eop in Hs.
  assert (signals m' = if signal then signals m ++ [op_connection o] else signals m) as Hsg
    by (destruct out; by injection Hs as <-).
  split_and!.
  - destruct out; by injection Hs as <-.
  - rewrite Hsg. destruct signal; by rewrite ?app_nil_r.
  - intros p ->. injection Hs as <-. apply lookup_insert_eq.
  - intros j Hj. destruct out as [p|r [p|]| |]; injection Hs as <-; simpl; by rewrite ?lookup_insert_ne, ?lookup_delete_ne.
Qed.

Lemma lstep_sealed m i spurious m' c :
  inv m -> output_step (LStep i spurious) m = Some m' -> sealed (word m c) = true -> sealed_progress c m m'.
Proof.
  intros Hi Hs Hse. destruct (ops m !! i) as [o|] eqn:Ho; [|unfold output_step in Hs; by rewrite (iv_fatal _ Hi), Ho in Hs].
  destruct (op_step spurious (cells m) (op_connection o) (op_bytes o) (op_phase o)) as [[u out] signal] eqn:Eop.
  pose proof (op_step_sealed m i o spurious u out signal c Hi Ho Eop Hse) as Hw.
  pose proof (op_step_signal m i o spurious u out signal c Ho Eop) as Hsig.
  destruct (lstep_frame m i spurious m' o u out signal (iv_fatal _ Hi) Hs Ho Eop) as (Ec & Es & Econt & Eother).
  assert (op_connection o = c ->
    (exists todo clear a, out = Continue (Releasing (ConnectionSite :: todo) (ReleaseAfter clear true) a)) ->
    signalling m' c) as Hthis.
  { intros Hc (todo & clear & a & Ep). eexists i, _, todo, clear, a. split_and!; [by apply Econt|done|done]. }
  unfold sealed_progress. change (word m' c) with (pendingBytes_ (cells m' (CConnection c))). rewrite Ec.
  destruct (iv_ops _ Hi i o Ho) as [Hby _]. split_and!.
  - destruct Hw as [->|(-> & _)]; done.
  - destruct Hw as [->|(_ & -> & _)]; lia.
  - exists (if signal then [op_connection o] else []). split_and!; [done| |].
    + intros H0 H1. destruct Hw as [Hw|(_ & Hw & Hc' & todo & clear & a & ->)]; [rewrite Hw in H1; lia|].
      apply Hthis; [done|]. rewrite Hw in H1. exists todo, clear, a. do 3 f_equal. apply Z.eqb_eq. lia.
    + intros Hsg. destruct (Hsig Hsg) as [[-> <-]|[(j & o' & todo & clear & a & Hne & Hj & Hc' & Hp)|(Hc' & Hout)]].
      * right. by apply list_elem_of_singleton.
      * left. exists j, o', todo, clear, a. by rewrite Eother.
      * left. by apply Hthis.
Qed.

(** A step that changes no cell and only operations that are not releasing. *)
Lemma regroup_sealed c m ops' a' :
  fatal m = false -> sealed (word m c) = true ->
  (forall j o, ops m !! j = Some o -> is_held (op_phase o) = false -> ops' !! j = Some o) ->
  sealed_progress c m (mkMachine (cells m) ops' (signals m) a' false).
Proof.
  intros Hf Hse Hk. split_and!; [done|done|]. exists []. rewrite app_nil_r. split_and!; [done|unfold word; simpl; lia|].
  intros Hsg. left. destruct m as [f opm sg an fa]. simpl in Hf. subst fa. by apply (signalling_keep opm ops' f f sg sg an a').
Qed.

Lemma output_step_sealed lb m m' c :
  inv m -> output_step lb m = Some m' -> sealed (word m c) = true -> sealed_progress c m m'.
Proof.
  intros Hi Hs Hse. pose proof (iv_fatal _ Hi) as Hf. destruct lb as [i d bytes|i spurious|i n j|i j|d];
    [|by eapply lstep_sealed|..]; unfold output_step in Hs; rewrite Hf in Hs.
  - destruct (_ && _) eqn:E; [|done]. rewrite !andb_true_iff in E. destruct E as [[Hn%bool_decide_eq_true _] _].
    injection Hs as <-. apply regroup_sealed; [done..|]. intros j o Hj _. rewrite lookup_insert_ne; [done|congruence].
  - destruct (ops m !! i) as [o|] eqn:Ho; [|done]. destruct (is_held (op_phase o)) eqn:Hh; [|done]. simpl in Hs.
    destruct (n =? op_bytes o).
    + injection Hs as <-. apply regroup_sealed; [done..|]. intros k o' Hk Hn. rewrite lookup_insert_ne; [done|congruence].
    + destruct (_ && _) eqn:E; [|done]. rewrite !andb_true_iff in E. destruct E as [[Hj%bool_decide_eq_true _] _].
      injection Hs as <-. apply regroup_sealed; [done..|]. intros k o' Hk Hn. rewrite !lookup_insert_ne; congruence.
  - destruct (ops m !! i) as [o1|] eqn:Ho1; [|done]. destruct (ops m !! j) as [o2|] eqn:Ho2; [|done].
    destruct (_ && _) eqn:E; [|done]. rewrite !andb_true_iff in E. destruct E as [[[_ H1] H2] _].
    injection Hs as <-. apply regroup_sealed; [done..|]. intros k o' Hk Hn. rewrite lookup_insert_ne, lookup_delete_ne; congruence.
  - apply (inj Some) in Hs. subst m'. destruct (word_seal _ (iv_word _ Hi (CConnection d))) as (_ & E1 & E2).
    unfold sealed_progress, word in *. cbn [cells signals]. rewrite set_cell_word.
    assert (signalling m c -> forall g, signalling (mkMachine g (ops m) (signals m) (answers m) false) c) as Hsk.
    { intros Hsg g. destruct m as [f opm sg an fa]. simpl in Hf. subst fa. by apply (signalling_keep opm opm f g sg sg an an). }
    destruct (decide (c = d)) as [->|]; cbn [set_pending pendingBytes_]; rewrite ?E1, ?E2; (split_and!; [done|lia|]);
      exists []; rewrite app_nil_r; (split_and!; [done|lia|auto]).
Qed.

(** Once empty, a connection is neither drained again nor refilled. *)
Lemma output_steps_sealed lbs : forall m m' c,
  inv m -> output_steps lbs m = Some m' -> sealed (word m c) = true ->
  sealed (word m' c) = true /\ byte_count (word m' c) <= byte_count (word m c) /\
  exists new, signals m' = signals m ++ new /\
    (0 < byte_count (word m c) \/ signalling m c -> byte_count (word m' c) = 0 -> signalling m' c \/ c ∈ new).
Proof.
  induction lbs as [|lb lbs IH]; intros m m' c Hi Hs Hse; simpl in Hs.
  - injection Hs as <-. split_and!; [done|done|]. exists []. rewrite app_nil_r. split; [done|]. intros [?|?] ?; [lia|by left].
  - destruct (output_step lb m) as [m1|] eqn:E; [|done].
    destruct (output_step_sealed lb m m1 c Hi E Hse) as (Hse1 & Hle1 & new1 & Hn1 & Hz1 & Hk1).
    pose proof (output_step_inv lb m m1 Hi E) as Hi1.
    destruct (IH m1 m' c Hi1 Hs Hse1) as (Hse' & Hle' & new' & Hn' & Hk').
    split_and!; [done|lia|]. exists (new1 ++ new'). split; [by rewrite Hn', Hn1, app_assoc|]. intros H0 Hz.
    assert (0 <= byte_count (word m1 c)) by (apply word_split; apply (iv_word _ Hi1)).
    assert ((0 < byte_count (word m1 c) \/ signalling m1 c) \/ c ∈ new1) as [H1|H1].
    { destruct H0 as [H0|H0]; [|destruct (Hk1 H0); auto].
      destruct (decide (byte_count (word m1 c) = 0)) as [Hz'|]; [auto|left; left; lia]. }
    + destruct (Hk' H1 Hz) as [|]; [by left|right]. apply elem_of_app. by right.
    + right. apply elem_of_app. by left.
Qed.

(** *** Operations left alone *)

(** The steps a reservation loop still takes, undisturbed. *)
Definition reserve_rank (a : OutputCounters) (pc : ReservePc) : Z :=
  match pc with
  | AtLoad => if overloaded_ a then 7 else 4
  | AtTest v => if overloaded_ a then 6 else if pendingBytes_ a =? v then 3 else 5
  | AtClear => 5
  | AtLatch => 2
  | AtReject => 1
  | AtCas v => if pendingBytes_ a =? v then 1 else if overloaded_ a then 7 else 4
  end.

Definition peak_rank (a : OutputCounters) (pc : PeakPc) : Z :=
  match pc with
  | PeakLoad _ => 2
  | PeakLoaded _ q => if peakPendingBytes_ a =? q then 1 else 2
  end.

(** A bound on what is left after a site's loop. *)
Definition site_rank (s : Site) : Z :=
  match s with ConnectionSite => 37 | LoopSite => 28 | ServerSite => 19 | GlobalSite => 10 end.

Definition after_rank (s : Site) : Z :=
  match s with ConnectionSite => 35 | LoopSite => 26 | ServerSite => 17 | GlobalSite => 3 end.

Definition release_rank (pc : ReleasePc) : Z :=
  match pc with ReleaseSub => 0 | ReleaseAfter true _ => 1 | ReleaseAfter false _ => 2 end.

Definition rank (cells : Cell -> OutputCounters) (c : nat) (p : Phase) : Z :=
  match p with
  | Reserving s pc => site_rank s +
      match cell_of c s with Some x => reserve_rank (cells x) pc | None => 1 end
  | BudgetPeak s pc => after_rank s +
      match cell_of c s with Some x => peak_rank (cells x) pc | None => 1 end
  | ConnectionPeak None => 3
  | ConnectionPeak (Some pc) => peak_rank (cells (CConnection c)) pc
  | Held => 0
  | Releasing todo pc _ => 1 + Z.of_nat (3 * length todo) - (match todo with [] => 0 | _ => release_rank pc end)
  end.

Lemma reserve_rank_bounds a pc : 1 <= reserve_rank a pc <= 7.
Proof. destruct pc; simpl; repeat case_match; lia. Qed.

Lemma peak_rank_bounds a pc : 1 <= peak_rank a pc <= 2.
Proof. destruct pc; simpl; repeat case_match; lia. Qed.

(** No operation has more than four sites to release. *)
Definition short (p : Phase) : Prop := match p with Releasing todo _ _ => (length todo <= 4)%nat | _ => True end.

Lemma rank_bounds f c p : is_held p = false -> short p -> 1 <= rank f c p <= 44.
Proof.
  intros Hh Hl. destruct p as [s pc|s pc|[pc|]| |todo pc r]; cbn [rank]; try done.
  - destruct (cell_of c s) as [x|]; [pose proof (reserve_rank_bounds (f x) pc)|]; destruct s; cbn [site_rank]; lia.
  - destruct (cell_of c s) as [x|]; [pose proof (peak_rank_bounds (f x) pc)|]; destruct s; cbn [after_rank]; lia.
  - pose proof (peak_rank_bounds (f (CConnection c)) pc). lia.
  - simpl in Hl. destruct todo as [|s todo]; simpl in *; [lia|]. destruct pc as [|[] ?]; simpl; lia.
Qed.

Lemma after_site_rank f c s : rank f c (after_site s) <= after_rank s.
Proof.
  destruct s; simpl; [..|lia];
    (destruct (_ <$> budget_of _ _ _) as [x|]; [pose proof (reserve_rank_bounds (f x) AtLoad)|]; simpl in *; lia).
Qed.

Lemma reserve_step_rank thr limit bytes a pc a' out :
  reserve_step false thr limit bytes a pc = (a', out) ->
  match out with Next pc' => reserve_rank a' pc' < reserve_rank a pc | _ => True end.
Proof.
  destruct pc as [|v| | | |v]; simpl; try (intros [= <- <-]; done).
  - intros [= <- <-]. simpl. rewrite Z.eqb_refl. by destruct (overloaded_ a).
  - destruct (overloaded_ a) eqn:Ho; [destruct (_ <? _); intros [= <- <-]; simpl; lia|].
    destruct (_ || _); [destruct (_ <? _); intros [= <- <-]; simpl; case_match; lia|].
    intros [= <- <-]. simpl. rewrite Ho. by destruct (_ =? _).
  - destruct (pendingBytes_ a =? v) eqn:E; simpl; intros [= <- <-]; [done|]. simpl. rewrite Z.eqb_refl. by destruct (overloaded_ a).
Qed.

Lemma peak_step_rank a pc a' next :
  peak_step false a pc = (a', next) -> match next with Some pc' => peak_rank a' pc' < peak_rank a pc | None => True end.
Proof.
  destruct pc as [v|v q]; simpl; [intros [= <- <-]; simpl; by rewrite Z.eqb_refl|].
  destruct (_ <? _); [|by intros [= <- <-]]. destruct (_ =? _) eqn:E; simpl; intros [= <- <-]; [done|].
  simpl. by rewrite Z.eqb_refl.
Qed.

Lemma set_cell_at f x a : set_cell (Some (x, a)) f x = a.
Proof. simpl. by rewrite decide_True. Qed.

(** An undisturbed step decreases the rank or ends the operation. *)
Lemma op_step_rank m i o u out signal :
  inv m -> ops m !! i = Some o -> is_held (op_phase o) = false ->
  op_step false (cells m) (op_connection o) (op_bytes o) (op_phase o) = (u, out, signal) ->
  match out with
  | Continue p => rank (set_cell u (cells m)) (op_connection o) p < rank (cells m) (op_connection o) (op_phase o) /\ is_held p = false
  | _ => True
  end.
Proof.
  intros Hi Ho Hh Hop. destruct (op_phase o) as [s pc|s pc|[pc|]| |[|s todo] [|clear sg] ans] eqn:Hph; simpl in Hop; try done.
  - destruct (cell_of _ s) as [x|] eqn:Hx.
    + destruct (sees_seal s pc); [by injection Hop as <- <- <-|].
      destruct (reserve_step _ _ _ _ _ _) as [a' ro] eqn:Er. pose proof (reserve_step_rank _ _ _ _ _ _ _ Er) as Hr.
      pose proof (reserve_rank_bounds (cells m x) pc). injection Hop as <- <- <-.
      destruct ro as [pc'| |v]; cbn [reserve_outcome].
      * cbn [rank]. rewrite Hx, set_cell_at. split; [lia|done].
      * cbn [rank]. rewrite Hx. destruct s; simpl; try done; (split; [lia|done]).
      * cbn [rank]. rewrite Hx. destruct s; cbn [rank site_rank after_rank]; rewrite ?Hx, ?set_cell_at.
        -- pose proof (after_site_rank (set_cell (Some (x, a')) (cells m)) (op_connection o) ConnectionSite). simpl after_rank in *.
           split; [lia|done].
        -- simpl peak_rank. split; [lia|done].
        -- simpl peak_rank. split; [lia|done].
        -- simpl peak_rank. split; [lia|done].
    + injection Hop as <- <- <-. cbn [rank]. rewrite Hx. pose proof (after_site_rank (cells m) (op_connection o) s).
      split; [destruct s; simpl site_rank; simpl after_rank in *; simpl set_cell; lia|by destruct s].
  - cbn [rank]. destruct (cell_of _ s) as [x|] eqn:Hx.
    + destruct (peak_step _ _ _) as [a' next] eqn:Ep. pose proof (peak_step_rank _ _ _ _ Ep) as Hr.
      pose proof (peak_rank_bounds (cells m x) pc). injection Hop as <- <- <-. destruct next as [pc'|].
      * cbn [rank]. rewrite Hx, set_cell_at. split; [lia|done].
      * pose proof (after_site_rank (set_cell (Some (x, a')) (cells m)) (op_connection o) s). split; [lia|by destruct s].
    + injection Hop as <- <- <-. pose proof (after_site_rank (cells m) (op_connection o) s).
      split; [simpl set_cell; lia|by destruct s].
  - destruct (peak_step _ _ _) as [a' next] eqn:Ep. pose proof (peak_step_rank _ _ _ _ Ep) as Hr.
    injection Hop as <- <- <-. destruct next as [pc'|]; [|done]. cbn [rank]. rewrite set_cell_at. done.
  - injection Hop as <- <- <-. done.
  - by destruct ans; injection Hop as <- <- <-.
  - by destruct ans; injection Hop as <- <- <-.
  - destruct (cell_of _ s) as [x|] eqn:Hx.
    + destruct (_ <? _); injection Hop as <- <- <-; [done|]. cbn [rank length release_rank]. split; [|done]. case_match; lia.
    + injection Hop as <- <- <-. cbn [rank length release_rank]. split; [|done]. destruct todo; simpl; lia.
  - destruct clear; [destruct (cell_of _ s) as [x|]|]; injection Hop as <- <- <-; cbn [rank length release_rank];
      (split; [|done]); try lia. destruct todo; simpl; lia.
Qed.

(** Whether [tryReserveOutputBytes] has yet to answer. *)
Definition expects (p : Phase) : bool := match p with Releasing _ _ None | Held => false | _ => true end.

Lemma op_step_answer m i o spurious u out signal :
  inv m -> ops m !! i = Some o -> is_held (op_phase o) = false ->
  op_step spurious (cells m) (op_connection o) (op_bytes o) (op_phase o) = (u, out, signal) ->
  match out with
  | Continue p => expects p = expects (op_phase o)
  | Return r p => expects (op_phase o) = true /\ p = (if decide (r = SendAccepted) then Some Held else None)
  | Finished => expects (op_phase o) = false
  | Fatal => True
  end.
Proof.
  intros Hi Ho Hh Hop. destruct (iv_ops _ Hi i o Ho) as [_ Hok].
  destruct (op_phase o) as [s pc|s pc|[pc|]| |[|s todo] [|clear sg] ans]; simpl in Hop; try done.
  - destruct (cell_of _ s) as [x|]; [|injection Hop as <- <- <-; by destruct s].
    destruct (sees_seal s pc); [by injection Hop as <- <- <-|].
    destruct (reserve_step _ _ _ _ _ _) as [a' ro]. injection Hop as <- <- <-. by destruct ro, s.
  - destruct (cell_of _ s) as [x|]; [|injection Hop as <- <- <-; by destruct s].
    destruct (peak_step _ _ _) as [a' [pc'|]]; injection Hop as <- <- <-; by destruct s.
  - by destruct (peak_step _ _ _) as [a' [pc'|]]; injection Hop as <- <- <-.
  - by injection Hop as <- <- <-.
  - destruct ans as [r|]; injection Hop as <- <- <-; [|done]. simpl in Hok. by rewrite decide_False.
  - destruct ans as [r|]; injection Hop as <- <- <-; [|done]. simpl in Hok. by rewrite decide_False.
  - destruct (cell_of _ s) as [x|]; [destruct (_ <? _)|]; injection Hop as <- <- <-; by destruct ans.
  - destruct clear; [destruct (cell_of _ s) as [x|]|]; injection Hop as <- <- <-; by destruct ans.
Qed.

Lemma op_step_short spurious f c bytes p u out signal :
  short p -> op_step spurious f c bytes p = (u, out, signal) ->
  match out with Continue p' | Return _ (Some p') => short p' | _ => True end.
Proof.
  intros Hp Hop. destruct p as [s pc|s pc|[pc|]| |[|s todo] [|clear sg] ans]; simpl in Hop.
  - destruct (cell_of _ s) as [x|]; [|injection Hop as <- <- <-; by destruct s].
    destruct (sees_seal s pc); [by injection Hop as <- <- <-|].
    destruct (reserve_step _ _ _ _ _ _) as [a' ro]. injection Hop as <- <- <-. destruct ro, s; simpl; try done; lia.
  - destruct (cell_of _ s) as [x|]; [|injection Hop as <- <- <-; by destruct s].
    destruct (peak_step _ _ _) as [a' [pc'|]]; injection Hop as <- <- <-; by destruct s.
  - by destruct (peak_step _ _ _) as [a' [pc'|]]; injection Hop as <- <- <-.
  - by injection Hop as <- <- <-.
  - by injection Hop as <- <- <-.
  - by destruct ans as [r|]; injection Hop as <- <- <-.
  - by destruct ans as [r|]; injection Hop as <- <- <-.
  - destruct (cell_of _ s) as [x|]; [destruct (_ <? _)|]; injection Hop as <- <- <-; simpl in *; try done; lia.
  - destruct clear; [destruct (cell_of _ s) as [x|]|]; injection Hop as <- <- <-; simpl in *; lia.
Qed.

(** An operation that runs alone comes to its end. *)
Lemma alone_ends n : forall m i o,
  inv m -> ops m !! i = Some o -> is_held (op_phase o) = false -> short (op_phase o) ->
  rank (cells m) (op_connection o) (op_phase o) <= Z.of_nat n ->
  exists k m', (k <= n)%nat /\ output_steps (replicate k (LStep i false)) m = Some m' /\
    if expects (op_phase o) then
      exists r, answers m' = answers m ++ [(i, r)] /\
        ops m' !! i = if decide (r = SendAccepted) then Some (at_phase Held o) else None
    else answers m' = answers m /\ ops m' !! i = None.
Proof.
  induction n as [|n IH]; intros m i o Hi Ho Hh Hsh Hr.
  { pose proof (rank_bounds (cells m) (op_connection o) _ Hh Hsh). lia. }
  destruct (op_step false (cells m) (op_connection o) (op_bytes o) (op_phase o)) as [[u out] signal] eqn:Eop.
  pose proof (op_step_rank m i o u out signal Hi Ho Hh Eop) as Hrank.
  pose proof (op_step_answer m i o false u out signal Hi Ho Hh Eop) as Hans.
  destruct (op_step_inv m i o false u out signal [] [] Hi Ho Eop) as [Hnf _].
  assert (exists m1, output_step (LStep i false) m = Some m1) as [m1 Hm1].
  { unfold output_step. rewrite (iv_fatal _ Hi), Ho, Eop. destruct out; eauto. }
  pose proof (output_step_inv _ _ _ Hi Hm1) as Hi1. pose proof Hm1 as Hm1'.
  unfold output_step in Hm1'. rewrite (iv_fatal _ Hi), Ho, Eop in Hm1'.
  destruct out as [p|r p| |]; [| | |done]; apply (inj Some) in Hm1'.
  - destruct Hrank as [Hlt Hp].
    assert (ops m1 !! i = Some (at_phase p o)) as Ho1 by (subst m1; apply lookup_insert_eq).
    assert (rank (cells m1) (op_connection o) p <= Z.of_nat n) as Hr1 by (subst m1; simpl cells; lia).
    pose proof (op_step_short _ _ _ _ _ _ _ _ Hsh Eop) as Hsh1.
    destruct (IH m1 i (at_phase p o) Hi1 Ho1 Hp Hsh1 Hr1) as (k & m' & Hk & Hs & Hend).
    exists (S k), m'. split_and!; [lia|simpl; by rewrite Hm1|].
    simpl in Hend. rewrite Hans in Hend. by subst m1.
  - exists 1%nat, m1. destruct Hans as [-> ->]. split_and!; [lia|simpl; by rewrite Hm1|].
    exists r. subst m1. simpl. split; [done|]. destruct (decide (r = SendAccepted)); simpl; [apply lookup_insert_eq|apply lookup_delete_eq].
  - exists 1%nat, m1. rewrite Hans. split; [lia|]. split; [simpl; by rewrite Hm1|].
    subst m1. simpl. split; [done|apply lookup_delete_eq].
Qed.

Lemma output_step_short lb m m' :
  map_Forall (fun _ o => short (op_phase o)) (ops m) -> output_step lb m = Some m' ->
  map_Forall (fun _ o => short (op_phase o)) (ops m').
Proof.
  intros H Hs. unfold output_step in Hs. destruct (fatal m); [done|]. destruct lb as [i c bytes|i spurious|i n j|i j|c].
  - destruct (_ && _); [|done]. injection Hs as <-. by apply map_Forall_insert_2.
  - destruct (ops m !! i) as [o|] eqn:Ho; [|done]. destruct (op_step _ _ _ _ _) as [[u out] signal] eqn:E.
    pose proof (op_step_short _ _ _ _ _ _ _ _ (H i o Ho) E) as Hsh.
    destruct out as [p|r [p|]| |]; injection Hs as <-; simpl; try done;
      by first [apply map_Forall_insert_2|apply map_Forall_delete].
  - destruct (ops m !! i) as [o|]; [|done]. destruct (is_held _); [|done]. simpl in Hs.
    destruct (_ =? _); [|destruct (_ && _); [|done]]; injection Hs as <-; simpl; repeat apply map_Forall_insert_2; try done; simpl; lia.
  - destruct (ops m !! i) as [o1|]; [|done]. destruct (ops m !! j) as [o2|]; [|done]. destruct (_ && _); [|done].
    injection Hs as <-. simpl. apply map_Forall_insert_2; [done|]. by apply map_Forall_delete.
  - by injection Hs as <-.
Qed.

Lemma output_steps_short lbs : forall m m',
  map_Forall (fun _ o => short (op_phase o)) (ops m) -> output_steps lbs m = Some m' ->
  map_Forall (fun _ o => short (op_phase o)) (ops m').
Proof.
  induction lbs as [|lb lbs IH]; intros m m' Hm Hs; simpl in Hs; [by simplify_eq|].
  destruct (output_step lb m) as [m1|] eqn:E; [|done]. eapply IH; [|done]. by eapply output_step_short.
Qed.

End preservation.

End machine.

(** ** Correctness of the accounting *)

(** C15. For every interleaving of sends, releases and close requests on any number of
    connections sharing budgets: a counter's bytes are exactly what the operations
    under way hold in it (so it is zero when there are none), never more than its
    hard limit, its peak is within the limit and at least the bytes of a budget
    unless an operation is about to publish them, and no release underflows. *)
Theorem output_reservations_exact cfg lbs m :
  config_ok cfg -> output_steps cfg lbs initial = Some m ->
  fatal m = false /\ (forall i o, ops m !! i = Some o -> 0 < op_bytes o) /\
  forall x, bytes_in x (cells m x) = msum (share cfg x) (ops m) /\
    0 <= bytes_in x (cells m x) <= limit_of cfg x /\
    peakPendingBytes_ (cells m x) <= limit_of cfg x /\
    (is_budget x = true -> bytes_in x (cells m x) <= peakPendingBytes_ (cells m x) \/
      exists i o, ops m !! i = Some o /\ raises cfg x (bytes_in x (cells m x)) o).
Proof.
  intros Hc Hs. pose proof (output_steps_inv cfg Hc lbs _ _ (output_initial_inv cfg Hc) Hs) as Hi.
  split_and!; [apply Hi|intros i o Ho; apply (iv_ops _ _ Hi i o Ho)|]. intros x.
  pose proof (bytes_nonneg cfg m x Hi). pose proof (iv_limit _ _ Hi x). pose proof (iv_peak _ _ Hi x).
  split_and!; [apply Hi|done|done|lia|apply Hi].
Qed.

(** Once a close request has sealed a connection, it stays sealed and its bytes
    only decrease, whatever sends are in flight; when its last bytes are released
    its lifecycle has been signalled since, or the operation that released them is
    about to signal it; and with no bytes left no operation holds any. *)
Theorem sealed_output_drains cfg lbs m c lbs' m' :
  config_ok cfg -> output_steps cfg lbs initial = Some m -> sealed (word m c) = true ->
  output_steps cfg lbs' m = Some m' ->
  sealed (word m' c) = true /\ byte_count (word m' c) <= byte_count (word m c) /\
  (byte_count (word m' c) = 0 -> forall i o, ops m' !! i = Some o -> share cfg (CConnection c) o = 0) /\
  exists new, signals m' = signals m ++ new /\
    (0 < byte_count (word m c) -> byte_count (word m' c) = 0 -> signalling m' c \/ c ∈ new).
Proof.
  intros Hc Hs Hse Hs'. pose proof (output_steps_inv cfg Hc lbs _ _ (output_initial_inv cfg Hc) Hs) as Hi.
  pose proof (output_steps_inv cfg Hc lbs' _ _ Hi Hs') as Hi'.
  destruct (output_steps_sealed cfg Hc lbs' m m' c Hi Hs' Hse) as (H1 & H2 & new & H3 & H4).
  split_and!; [done|done| |exists new; split; [done|auto]].
  intros Hz i o Ho. pose proof (share_le cfg m' (CConnection c) i o Hi' Ho) as Hle. unfold word in Hz. simpl bytes_in in Hle.
  pose proof (op_share_nonneg cfg (CConnection c) o (iv_ops _ _ Hi' i o Ho)). lia.
Qed.

(** From every reachable state, an operation that is left to run alone ends within
    44 of its own steps: a release is over, and [tryReserveOutputBytes] answers
    exactly once, holding its bytes when it answered Accepted and nothing otherwise. *)
Theorem output_operations_end cfg lbs m i o :
  config_ok cfg -> output_steps cfg lbs initial = Some m -> ops m !! i = Some o -> is_held (op_phase o) = false ->
  exists k m', (k <= 44)%nat /\ output_steps cfg (replicate k (LStep i false)) m = Some m' /\
    if expects (op_phase o) then
      exists r, answers m' = answers m ++ [(i, r)] /\
        ops m' !! i = if decide (r = SendAccepted) then Some (at_phase Held o) else None
    else answers m' = answers m /\ ops m' !! i = None.
Proof.
  intros Hc Hs Ho Hh. pose proof (output_steps_inv cfg Hc lbs _ _ (output_initial_inv cfg Hc) Hs) as Hi.
  pose proof (output_steps_short cfg lbs initial m (map_Forall_empty _) Hs i o Ho) as Hsh.
  apply alone_ends; [done..|]. pose proof (rank_bounds cfg (cells m) (op_connection o) _ Hh Hsh). lia.
Qed.

(** ** A budget used alone *)

(** The loops of [tryReserve] and [updatePeak] with nobody else at the counters. *)
Fixpoint reserve_alone (fuel : nat) (threshold limit bytes : Z) (a : OutputCounters) (pc : ReservePc) :
    option (OutputCounters * option Z) :=
  match fuel with
  | O => None
  | S fuel =>
      match reserve_step false threshold limit bytes a pc with
      | (a', Next pc') => reserve_alone fuel threshold limit bytes a' pc'
      | (a', Rejected) => Some (a', None)
      | (a', Reserved candidate) => Some (a', Some candidate)
      end
  end.

Fixpoint updatePeak (fuel : nat) (a : OutputCounters) (pc : PeakPc) : option OutputCounters :=
  match fuel with
  | O => None
  | S fuel => match peak_step false a pc with
              | (a', None) => Some a'
              | (a', Some pc') => updatePeak fuel a' pc'
              end
  end.

Definition tryReserve (fuel : nat) (o : TcpOutputMemoryBudgetOptions) (bytes : Z) (a : OutputCounters) :
    option (OutputCounters * bool) :=
  if bytes =? 0 then Some (a, true)
  else match reserve_alone fuel (recoveryThresholdBytes o) (hardLimitBytes o) bytes a AtLoad with
       | None => None
       | Some (a', None) => Some (a', false)
       | Some (a', Some candidate) => (fun a => (a, true)) <$> updatePeak fuel a' (PeakLoad candidate)
       end.

(** [None]: the process ends. *)
Definition budget_release (o : TcpOutputMemoryBudgetOptions) (bytes : Z) (a : OutputCounters) : option OutputCounters :=
  if bytes =? 0 then Some a
  else
    let previous := pendingBytes_ a in
    let a' := set_pending (previous ⊖ bytes) a in
    if previous <? bytes then None
    else if previous - bytes <=? recoveryThresholdBytes o then Some (set_overloaded false a') else Some a'.

(** What a budget promises: a request is granted exactly when it fits the hard
    limit and the budget is not overloaded, or has recovered since. *)
Definition recovered (o : TcpOutputMemoryBudgetOptions) (a : OutputCounters) : bool :=
  negb (overloaded_ a) || (pendingBytes_ a <=? recoveryThresholdBytes o).

Definition granted (o : TcpOutputMemoryBudgetOptions) (bytes : Z) (a : OutputCounters) : bool :=
  recovered o a && (pendingBytes_ a + bytes <=? hardLimitBytes o).

(** The overload latch after a refusal. *)
Definition latched (o : TcpOutputMemoryBudgetOptions) (a : OutputCounters) : bool :=
  recoveryThresholdBytes o <? pendingBytes_ a.

Definition promised (o : TcpOutputMemoryBudgetOptions) (bytes : Z) (a : OutputCounters) : OutputCounters * bool :=
  if granted o bytes a then
    (mkCounters (pendingBytes_ a + bytes) (Z.max (peakPendingBytes_ a) (pendingBytes_ a + bytes))
       (rejectedReservations_ a) false, true)
  else (mkCounters (pendingBytes_ a) (peakPendingBytes_ a) (rejectedReservations_ a ⊕ 1) (latched o a), false).

Lemma updatePeak_max fuel a candidate : (2 <= fuel)%nat ->
  updatePeak fuel a (PeakLoad candidate) = Some (set_peak (Z.max (peakPendingBytes_ a) candidate) a).
Proof.
  intros Hf. destruct fuel as [|[|fuel]]; [lia..|]. cbn [updatePeak peak_step].
  destruct (_ <? _) eqn:E; zify_bools; [rewrite Z.eqb_refl; cbn [andb negb]|].
  - by rewrite Z.max_r by lia.
  - rewrite Z.max_l by lia. by destruct a.
Qed.

Section promise.
Context (o : TcpOutputMemoryBudgetOptions) (bytes : Z).
Context (Hv : budget_validate o = Ok tt) (Hh : is_usize (hardLimitBytes o)) (Ht : is_usize (recoveryThresholdBytes o)).
Context (Hb : 0 < bytes < usize_lim).

(** The loop when the latch is clear, and when it is set. *)
Lemma reserve_unlatched fuel a :
  overloaded_ a = false -> 0 <= pendingBytes_ a <= hardLimitBytes o ->
  reserve_alone (4 + fuel) (recoveryThresholdBytes o) (hardLimitBytes o) bytes a AtLoad =
  Some (if pendingBytes_ a + bytes <=? hardLimitBytes o
        then (set_pending (pendingBytes_ a + bytes) a, Some (pendingBytes_ a + bytes))
        else (count_rejected (set_overloaded (latched o a) a), None)).
Proof using Hh Hb.
  unfold is_usize in *. intros Hov Ha. simpl Nat.add. cbn [reserve_alone reserve_step]. rewrite Hov.
  assert (hardLimitBytes o ⊖ pendingBytes_ a = hardLimitBytes o - pendingBytes_ a) as -> by (apply uwrap_small; lia).
  rewrite (proj2 (Z.ltb_ge (hardLimitBytes o) (pendingBytes_ a))) by lia. cbn [orb]. unfold latched.
  destruct (_ - _ <? bytes) eqn:E; zify_bools.
  - rewrite (proj2 (Z.leb_gt _ _)) by lia. destruct (_ <? pendingBytes_ a); [done|].
    cbn [reserve_step]. destruct a; simpl in *. by subst.
  - rewrite (proj2 (Z.leb_le _ _)) by lia. cbn [reserve_step]. rewrite Z.eqb_refl. cbn [andb negb].
    by rewrite (uwrap_small (_ + _)) by lia.
Qed.

Lemma reserve_latched fuel a :
  overloaded_ a = true ->
  reserve_alone (3 + fuel) (recoveryThresholdBytes o) (hardLimitBytes o) bytes a AtLoad =
  if recoveryThresholdBytes o <? pendingBytes_ a then Some (count_rejected a, None)
  else reserve_alone fuel (recoveryThresholdBytes o) (hardLimitBytes o) bytes (set_overloaded false a) AtLoad.
Proof.
  intros Hov. simpl Nat.add. cbn [reserve_alone reserve_step]. rewrite Hov. by destruct (_ <? _).
Qed.

Lemma reserve_decides fuel a :
  0 <= pendingBytes_ a <= hardLimitBytes o ->
  reserve_alone (7 + fuel) (recoveryThresholdBytes o) (hardLimitBytes o) bytes a AtLoad =
  Some (if granted o bytes a
        then (set_pending (pendingBytes_ a + bytes) (set_overloaded false a), Some (pendingBytes_ a + bytes))
        else (count_rejected (set_overloaded (latched o a) a), None)).
Proof using Hh Hb.
  intros Ha. unfold granted, recovered, latched. destruct (overloaded_ a) eqn:Hov; cbn [negb orb andb].
  - rewrite (reserve_latched (4 + fuel)) by done. destruct (_ <? _) eqn:E; zify_bools.
    + rewrite (proj2 (Z.leb_gt _ _)) by lia. cbn [andb]. destruct a; simpl in *. by subst.
    + rewrite (proj2 (Z.leb_le (pendingBytes_ a) _)) by lia. cbn [andb].
      rewrite reserve_unlatched by done. unfold latched. simpl pendingBytes_.
      by rewrite (proj2 (Z.ltb_ge _ _)) by lia.
  - rewrite (reserve_unlatched (3 + fuel)) by done. destruct a; simpl in *. by subst.
Qed.

End promise.

(** A budget used by one thread decides every request within seven steps of its
    loop, from any state within its limit: [tryReserve] grants exactly the requests
    that fit and are not held back by the overload latch, raises the peak to the new
    count, clears the latch of a recovered budget, and on a refusal counts it and
    latches only above the recovery threshold; releasing what was granted gives
    the bytes back. *)
Theorem tryReserve_promised o bytes a :
  budget_validate o = Ok tt -> is_usize (hardLimitBytes o) -> is_usize (recoveryThresholdBytes o) ->
  0 < bytes < usize_lim -> 0 <= pendingBytes_ a <= hardLimitBytes o ->
  tryReserve 7 o bytes a = Some (promised o bytes a) /\
  (granted o bytes a = true ->
   exists a', budget_release o bytes (promised o bytes a).1 = Some a' /\ pendingBytes_ a' = pendingBytes_ a /\
     overloaded_ a' = false).
Proof.
  intros Hv Hh Ht Hb Ha. unfold promised. split.
  - unfold tryReserve. rewrite (proj2 (Z.eqb_neq bytes 0)), (reserve_decides o bytes Hh Hb 0) by lia.
    destruct (granted o bytes a); [by rewrite updatePeak_max by lia|done].
  - intros Hg. rewrite Hg. unfold granted in Hg. rewrite andb_true_iff in Hg. destruct Hg as [_ Hg]. zify_bools.
    unfold is_usize in *. unfold budget_release. rewrite (proj2 (Z.eqb_neq bytes 0)) by lia. cbn [fst pendingBytes_ set_pending overloaded_].
    rewrite (proj2 (Z.ltb_ge _ _)) by lia.
    assert ((pendingBytes_ a + bytes) ⊖ bytes = pendingBytes_ a) as -> by (rewrite uwrap_small; lia).
    destruct (_ <=? _); (eexists; split; [done|]); split; done.
Qed.

(** ** A run *)

(** Two connections of 100 bytes share the loop's budget of 120 and the process's. *)
Definition demo_config : Config :=
  mkConfig (fun _ => mkBackpressureOptions 10 20 100 1) (fun b => mkBudgetOptions 120 50)
    (fun c s => match s with LoopSite => Some 0%nat | GlobalSite => Some 1%nat | _ => None end).

(** Both begin; the second is refused by the loop's budget while the first is
    admitted; then the first connection is sealed. *)
Definition demo_sends : list Label :=
  [LBegin 0 0 60; LBegin 1 1 70; LStep 0 false; LStep 1 false; LStep 1 false; LStep 0 false; LStep 0 false] ++
  replicate 14 (LStep 0 false) ++ replicate 9 (LStep 1 false) ++ [LSeal 0].

(** Its bytes are released in two portions. *)
Definition demo_drain : list Label :=
  [LRelease 0 40 2] ++ replicate 10 (LStep 0 false) ++ [LRelease 2 20 2] ++ replicate 11 (LStep 2 false).

Lemma demo_config_ok : config_ok demo_config.
Proof. by split. Defined.

Lemma output_reservations_witness :
  exists m, output_steps demo_config demo_sends initial = Some m /\ answers m = [(0%nat, SendAccepted); (1%nat, SendLoopOverloaded)] /\
    bytes_in (CBudget 0) (cells m (CBudget 0)) = 60 /\
    msum (share demo_config (CBudget 0)) (ops m) = 60 /\ 60 <= limit_of demo_config (CBudget 0).
Proof.
  destruct (output_steps demo_config demo_sends initial) as [m|] eqn:E; [|by vm_compute in E].
  exists m. assert (answers m = [(0%nat, SendAccepted); (1%nat, SendLoopOverloaded)] /\ bytes_in (CBudget 0) (cells m (CBudget 0)) = 60) as [H1 H2]
    by (vm_compute in E; injection E as <-; by vm_compute).
  destruct (output_reservations_exact demo_config demo_sends m demo_config_ok E) as (_ & _ & Hx).
  destruct (Hx (CBudget 0)) as (Hb & Hl & _). rewrite <- Hb. rewrite <- H2 at 3. split_and!; [done|done|done|done|apply Hl].
Defined.

Lemma sealed_output_witness :
  exists m m', output_steps demo_config demo_sends initial = Some m /\ byte_count (word m 0) = 60 /\
    output_steps demo_config demo_drain m = Some m' /\ byte_count (word m' 0) = 0 /\ sealed (word m' 0) = true /\ signals m' = [0%nat].
Proof.
  destruct (output_steps demo_config demo_sends initial) as [m|] eqn:E; [|by vm_compute in E].
  destruct (output_steps demo_config demo_drain m) as [m'|] eqn:E'.
  - exists m, m'. assert (sealed (word m 0) = true /\ byte_count (word m 0) = 60 /\ byte_count (word m' 0) = 0 /\
      signals m' = [0%nat]) as (H1 & H2 & H3 & H5).
    { vm_compute in E. injection E as <-. vm_compute in E'. injection E' as <-. by vm_compute. }
    destruct (sealed_output_drains demo_config demo_sends m 0 demo_drain m' demo_config_ok E H1 E') as [H4 _].
    exact (conj eq_refl (conj H2 (conj E' (conj H3 (conj H4 H5))))).
  - exfalso. vm_compute in E. injection E as <-. by vm_compute in E'.
Defined.

Lemma output_operations_witness :
  exists m k m', output_steps demo_config (take 7 demo_sends) initial = Some m /\
    output_steps demo_config (replicate k (LStep 1 false)) m = Some m'.
Proof.
  destruct (output_steps demo_config (take 7 demo_sends) initial) as [m|] eqn:E; [|by vm_compute in E].
  destruct (ops m !! 1%nat) as [o|] eqn:Ho; [|exfalso; vm_compute in E; injection E as <-; by vm_compute in Ho].
  assert (is_held (op_phase o) = false) as Hh.
  { vm_compute in E. injection E as <-. vm_compute in Ho. injection Ho as <-. done. }
  destruct (output_operations_end demo_config (take 7 demo_sends) m 1 o demo_config_ok E Ho Hh) as (k & m' & _ & Hs & _).
  by exists m, k, m'.
Defined.

Lemma tryReserve_witness :
  tryReserve 7 (mkBudgetOptions 120 50) 30 (mkCounters 40 110 2 true) = Some (mkCounters 70 110 2 false, true).
Proof.
  refine (proj1 (tryReserve_promised (mkBudgetOptions 120 50) 30 (mkCounters 40 110 2 true) eq_refl _ _ _ _));
    unfold is_usize; simpl; lia.
Defined.
