(* ===== verification/Connection.v ===== *)
(** * TCP connections

    Model of [gamenet::net::TcpConnection] (src/core/net/TcpConnection.cc, POSIX
    build) and of its [ConnectionBackpressureController]
    (src/core/net/detail/ConnectionBackpressureController.cc).

    A connection lives on its owner loop's thread; other threads may call
    [trySend], [tryShutdown] and [tryForceClose].  The machine at the end of the
    model interleaves them: programs of other threads advance one atomic access
    at a time, the owner thread handles channel events, posted sends, posted
    notifications and lifecycle signals, and user callbacks run in between, where
    they may call the connection again, so that the owner's interrupted calls
    form a stack of frames.

    The four budgets a send passes are the subject of [OutputMemory]; here a
    reservation takes its bytes from the connection's word and is then confirmed
    or rolled back.  The buffers are byte queues, as [Buffer] shows them to be. *)

From S2P Require Import Prelude Transport OutputMemory.

Local Open Scope Z_scope.

(** ** Why a connection closed *)

Inductive TcpConnectionCloseReason :=
  | PeerEof
  | Reset
  | ConnectTimeout
  | InputLimit
  | OutputOverload
  | AdmissionPolicy
  | GracefulShutdown
  | ForcedShutdown
  | CallbackFailure
  | InternalError.

Global Instance TcpConnectionCloseReason_eq_dec : EqDecision TcpConnectionCloseReason.
Proof. solve_decision. Defined.

(** The enumerators' values, and back. *)
Definition reason_value (r : TcpConnectionCloseReason) : Z :=
  match r with
  | PeerEof => 0 | Reset => 1 | ConnectTimeout => 2 | InputLimit => 3 | OutputOverload => 4
  | AdmissionPolicy => 5 | GracefulShutdown => 6 | ForcedShutdown => 7 | CallbackFailure => 8
  | InternalError => 9
  end.

Definition reason_of (v : Z) : option TcpConnectionCloseReason :=
  find (fun r => reason_value r =? v)
    [PeerEof; Reset; ConnectTimeout; InputLimit; OutputOverload; AdmissionPolicy; GracefulShutdown;
     ForcedShutdown; CallbackFailure; InternalError].

Record TcpConnectionCloseInfo := mkCloseInfo {
  reason : TcpConnectionCloseReason;
  nativeError : Z;
}.

Definition kCloseInfoPublished : Z := 9223372036854775808.
Definition kCloseReasonMask : Z := 1095216660480.

(** [static_cast<std::uint32_t>] of an [int], and [static_cast<std::int32_t>]. *)
Definition to_u32 (v : Z) : Z := v mod 4294967296.
Definition to_i32 (v : Z) : Z := if v <? 2147483648 then v else v - 4294967296.

Definition packCloseInfo (r : TcpConnectionCloseReason) (native : Z) : Z :=
  Z.lor (Z.lor kCloseInfoPublished (Z.shiftl (reason_value r) 32)) (to_u32 native).

(** [None]: the bits hold no enumerator. *)
Definition unpackCloseInfo (bits : Z) : option TcpConnectionCloseInfo :=
  (fun r => mkCloseInfo r (to_i32 (Z.land bits 4294967295))) <$>
  reason_of (Z.shiftr (Z.land bits kCloseReasonMask) 32).

(** What [publishCloseInfo] leaves in the word.  A published word changes only
    here, with a native error, on the owner thread, so that the function acts as
    one compare-exchange. *)
Definition published_info (bits : Z) (r : TcpConnectionCloseReason) (native : Z) : Z :=
  if bits =? 0 then packCloseInfo r native
  else if native =? 0 then bits
  else if negb (Z.land bits kCloseInfoPublished =? 0) && (to_u32 bits =? 0) then
    Z.lor (Z.land bits (Z.lxor usize_max 4294967295)) (to_u32 native)
  else bits.

(** ** State *)

Inductive StateE := kConnecting | kConnected | kDisconnecting | kDisconnected.

Global Instance StateE_eq_dec : EqDecision StateE.
Proof. solve_decision. Defined.

Inductive TcpConnectionClosePhase := Open | Closing | SocketClosed | CompletionDraining | Closed.

Global Instance ClosePhase_eq_dec : EqDecision TcpConnectionClosePhase.
Proof. solve_decision. Defined.

(** What the connection has posted to its loop. *)
Inductive Task :=
  | TSend (data : list byte)
  | TWriteComplete
  | THighWaterMark (n : Z).

(** The callbacks invoked. *)
Inductive Event :=
  | EEstablished
  | EMessage
  | EWriteComplete
  | EHighWaterMark (n : Z)
  | EDisconnected
  | ECloseInfo (info : option TcpConnectionCloseInfo)
  | EClose.

(** [reading], [writing]: the interests of [channel_]; [socketOpen],
    [writeShut]: the socket is open, its write half was shut down;
    [active_], [readingEnabled_]: the backpressure controller;
    [lifecycleSource_]: the attached node and whether it is signalled; [tasks]:
    posted, oldest first; [fatal]: an accounting underflow ended the process.
    The last three are history: the bytes handed to the socket, those taken
    over by [sendReservedInLoop], and the callbacks, oldest first. *)
Record TcpConnection := mkConnection {
  state_ : StateE;
  closePhase_ : TcpConnectionClosePhase;
  channelAdded_ : bool;
  channelRemoved_ : bool;
  reading : bool;
  writing : bool;
  socketOpen : bool;
  writeShut : bool;
  inputBuffer_ : list byte;
  outputBuffer_ : list byte;
  active_ : bool;
  readingEnabled_ : bool;
  pendingOutputBytes_ : Z;
  closeInfoBits_ : Z;
  gracefulShutdownRequested_ : bool;
  forceCloseRequested_ : bool;
  lifecycleSource_ : option bool;
  droppedNotificationCount_ : Z;
  tasks : list Task;
  fatal : bool;
  written : list byte;
  taken : list byte;
  log : list Event;
}.

Definition setState (v : StateE) (c : TcpConnection) : TcpConnection :=
  mkConnection v (closePhase_ c) (channelAdded_ c) (channelRemoved_ c) (reading c) (writing c) (socketOpen c)
    (writeShut c) (inputBuffer_ c) (outputBuffer_ c) (active_ c) (readingEnabled_ c) (pendingOutputBytes_ c)
    (closeInfoBits_ c) (gracefulShutdownRequested_ c) (forceCloseRequested_ c) (lifecycleSource_ c)
    (droppedNotificationCount_ c) (tasks c) (fatal c) (written c) (taken c) (log c).
Definition set_phase (v : TcpConnectionClosePhase) (c : TcpConnection) : TcpConnection :=
  mkConnection (state_ c) v (channelAdded_ c) (channelRemoved_ c) (reading c) (writing c) (socketOpen c)
    (writeShut c) (inputBuffer_ c) (outputBuffer_ c) (active_ c) (readingEnabled_ c) (pendingOutputBytes_ c)
    (closeInfoBits_ c) (gracefulShutdownRequested_ c) (forceCloseRequested_ c) (lifecycleSource_ c)
    (droppedNotificationCount_ c) (tasks c) (fatal c) (written c) (taken c) (log c).
Definition set_added (v : bool) (c : TcpConnection) : TcpConnection :=
  mkConnection (state_ c) (closePhase_ c) v (channelRemoved_ c) (reading c) (writing c) (socketOpen c)
    (writeShut c) (inputBuffer_ c) (outputBuffer_ c) (active_ c) (readingEnabled_ c) (pendingOutputBytes_ c)
    (closeInfoBits_ c) (gracefulShutdownRequested_ c) (forceCloseRequested_ c) (lifecycleSource_ c)
    (droppedNotificationCount_ c) (tasks c) (fatal c) (written c) (taken c) (log c).
Definition set_removed (v : bool) (c : TcpConnection) : TcpConnection :=
  mkConnection (state_ c) (closePhase_ c) (channelAdded_ c) v (reading c) (writing c) (socketOpen c)
    (writeShut c) (inputBuffer_ c) (outputBuffer_ c) (active_ c) (readingEnabled_ c) (pendingOutputBytes_ c)
    (closeInfoBits_ c) (gracefulShutdownRequested_ c) (forceCloseRequested_ c) (lifecycleSource_ c)
    (droppedNotificationCount_ c) (tasks c) (fatal c) (written c) (taken c) (log c).
Definition set_reading (v : bool) (c : TcpConnection) : TcpConnection :=
  mkConnection (state_ c) (closePhase_ c) (channelAdded_ c) (channelRemoved_ c) v (writing c) (socketOpen c)
    (writeShut c) (inputBuffer_ c) (outputBuffer_ c) (active_ c) (readingEnabled_ c) (pendingOutputBytes_ c)
    (closeInfoBits_ c) (gracefulShutdownRequested_ c) (forceCloseRequested_ c) (lifecycleSource_ c)
    (droppedNotificationCount_ c) (tasks c) (fatal c) (written c) (taken c) (log c).
Definition set_writing (v : bool) (c : TcpConnection) : TcpConnection :=
  mkConnection (state_ c) (closePhase_ c) (channelAdded_ c) (channelRemoved_ c) (reading c) v (socketOpen c)
    (writeShut c) (inputBuffer_ c) (outputBuffer_ c) (active_ c) (readingEnabled_ c) (pendingOutputBytes_ c)
    (closeInfoBits_ c) (gracefulShutdownRequested_ c) (forceCloseRequested_ c) (lifecycleSource_ c)
    (droppedNotificationCount_ c) (tasks c) (fatal c) (written c) (taken c) (log c).
Definition set_socket (v : bool) (c : TcpConnection) : TcpConnection :=
  mkConnection (state_ c) (closePhase_ c) (channelAdded_ c) (channelRemoved_ c) (reading c) (writing c) v
    (writeShut c) (inputBuffer_ c) (outputBuffer_ c) (active_ c) (readingEnabled_ c) (pendingOutputBytes_ c)
    (closeInfoBits_ c) (gracefulShutdownRequested_ c) (forceCloseRequested_ c) (lifecycleSource_ c)
    (droppedNotificationCount_ c) (tasks c) (fatal c) (written c) (taken c) (log c).
Definition set_shut (v : bool) (c : TcpConnection) : TcpConnection :=
  mkConnection (state_ c) (closePhase_ c) (channelAdded_ c) (channelRemoved_ c) (reading c) (writing c)
    (socketOpen c) v (inputBuffer_ c) (outputBuffer_ c) (active_ c) (readingEnabled_ c) (pendingOutputBytes_
    c) (closeInfoBits_ c) (gracefulShutdownRequested_ c) (forceCloseRequested_ c) (lifecycleSource_ c)
    (droppedNotificationCount_ c) (tasks c) (fatal c) (written c) (taken c) (log c).
Definition set_input (v : list byte) (c : TcpConnection) : TcpConnection :=
  mkConnection (state_ c) (closePhase_ c) (channelAdded_ c) (channelRemoved_ c) (reading c) (writing c)
    (socketOpen c) (writeShut c) v (outputBuffer_ c) (active_ c) (readingEnabled_ c) (pendingOutputBytes_ c)
    (closeInfoBits_ c) (gracefulShutdownRequested_ c) (forceCloseRequested_ c) (lifecycleSource_ c)
    (droppedNotificationCount_ c) (tasks c) (fatal c) (written c) (taken c) (log c).
Definition set_output (v : list byte) (c : TcpConnection) : TcpConnection :=
  mkConnection (state_ c) (closePhase_ c) (channelAdded_ c) (channelRemoved_ c) (reading c) (writing c)
    (socketOpen c) (writeShut c) (inputBuffer_ c) v (active_ c) (readingEnabled_ c) (pendingOutputBytes_ c)
    (closeInfoBits_ c) (gracefulShutdownRequested_ c) (forceCloseRequested_ c) (lifecycleSource_ c)
    (droppedNotificationCount_ c) (tasks c) (fatal c) (written c) (taken c) (log c).
Definition set_active (v : bool) (c : TcpConnection) : TcpConnection :=
  mkConnection (state_ c) (closePhase_ c) (channelAdded_ c) (channelRemoved_ c) (reading c) (writing c)
    (socketOpen c) (writeShut c) (inputBuffer_ c) (outputBuffer_ c) v (readingEnabled_ c) (pendingOutputBytes_
    c) (closeInfoBits_ c) (gracefulShutdownRequested_ c) (forceCloseRequested_ c) (lifecycleSource_ c)
    (droppedNotificationCount_ c) (tasks c) (fatal c) (written c) (taken c) (log c).
Definition set_enabled (v : bool) (c : TcpConnection) : TcpConnection :=
  mkConnection (state_ c) (closePhase_ c) (channelAdded_ c) (channelRemoved_ c) (reading c) (writing c)
    (socketOpen c) (writeShut c) (inputBuffer_ c) (outputBuffer_ c) (active_ c) v (pendingOutputBytes_ c)
    (closeInfoBits_ c) (gracefulShutdownRequested_ c) (forceCloseRequested_ c) (lifecycleSource_ c)
    (droppedNotificationCount_ c) (tasks c) (fatal c) (written c) (taken c) (log c).
Definition set_word (v : Z) (c : TcpConnection) : TcpConnection :=
  mkConnection (state_ c) (closePhase_ c) (channelAdded_ c) (channelRemoved_ c) (reading c) (writing c)
    (socketOpen c) (writeShut c) (inputBuffer_ c) (outputBuffer_ c) (active_ c) (readingEnabled_ c) v
    (closeInfoBits_ c) (gracefulShutdownRequested_ c) (forceCloseRequested_ c) (lifecycleSource_ c)
    (droppedNotificationCount_ c) (tasks c) (fatal c) (written c) (taken c) (log c).
Definition set_info (v : Z) (c : TcpConnection) : TcpConnection :=
  mkConnection (state_ c) (closePhase_ c) (channelAdded_ c) (channelRemoved_ c) (reading c) (writing c)
    (socketOpen c) (writeShut c) (inputBuffer_ c) (outputBuffer_ c) (active_ c) (readingEnabled_ c)
    (pendingOutputBytes_ c) v (gracefulShutdownRequested_ c) (forceCloseRequested_ c) (lifecycleSource_ c)
    (droppedNotificationCount_ c) (tasks c) (fatal c) (written c) (taken c) (log c).
Definition set_graceful (v : bool) (c : TcpConnection) : TcpConnection :=
  mkConnection (state_ c) (closePhase_ c) (channelAdded_ c) (channelRemoved_ c) (reading c) (writing c)
    (socketOpen c) (writeShut c) (inputBuffer_ c) (outputBuffer_ c) (active_ c) (readingEnabled_ c)
    (pendingOutputBytes_ c) (closeInfoBits_ c) v (forceCloseRequested_ c) (lifecycleSource_ c)
    (droppedNotificationCount_ c) (tasks c) (fatal c) (written c) (taken c) (log c).
Definition set_force (v : bool) (c : TcpConnection) : TcpConnection :=
  mkConnection (state_ c) (closePhase_ c) (channelAdded_ c) (channelRemoved_ c) (reading c) (writing c)
    (socketOpen c) (writeShut c) (inputBuffer_ c) (outputBuffer_ c) (active_ c) (readingEnabled_ c)
    (pendingOutputBytes_ c) (closeInfoBits_ c) (gracefulShutdownRequested_ c) v (lifecycleSource_ c)
    (droppedNotificationCount_ c) (tasks c) (fatal c) (written c) (taken c) (log c).
Definition set_lifecycle (v : option bool) (c : TcpConnection) : TcpConnection :=
  mkConnection (state_ c) (closePhase_ c) (channelAdded_ c) (channelRemoved_ c) (reading c) (writing c)
    (socketOpen c) (writeShut c) (inputBuffer_ c) (outputBuffer_ c) (active_ c) (readingEnabled_ c)
    (pendingOutputBytes_ c) (closeInfoBits_ c) (gracefulShutdownRequested_ c) (forceCloseRequested_ c) v
    (droppedNotificationCount_ c) (tasks c) (fatal c) (written c) (taken c) (log c).
Definition set_dropped (v : Z) (c : TcpConnection) : TcpConnection :=
  mkConnection (state_ c) (closePhase_ c) (channelAdded_ c) (channelRemoved_ c) (reading c) (writing c)
    (socketOpen c) (writeShut c) (inputBuffer_ c) (outputBuffer_ c) (active_ c) (readingEnabled_ c)
    (pendingOutputBytes_ c) (closeInfoBits_ c) (gracefulShutdownRequested_ c) (forceCloseRequested_ c)
    (lifecycleSource_ c) v (tasks c) (fatal c) (written c) (taken c) (log c).
Definition set_tasks (v : list Task) (c : TcpConnection) : TcpConnection :=
  mkConnection (state_ c) (closePhase_ c) (channelAdded_ c) (channelRemoved_ c) (reading c) (writing c)
    (socketOpen c) (writeShut c) (inputBuffer_ c) (outputBuffer_ c) (active_ c) (readingEnabled_ c)
    (pendingOutputBytes_ c) (closeInfoBits_ c) (gracefulShutdownRequested_ c) (forceCloseRequested_ c)
    (lifecycleSource_ c) (droppedNotificationCount_ c) v (fatal c) (written c) (taken c) (log c).
Definition set_fatal (v : bool) (c : TcpConnection) : TcpConnection :=
  mkConnection (state_ c) (closePhase_ c) (channelAdded_ c) (channelRemoved_ c) (reading c) (writing c)
    (socketOpen c) (writeShut c) (inputBuffer_ c) (outputBuffer_ c) (active_ c) (readingEnabled_ c)
    (pendingOutputBytes_ c) (closeInfoBits_ c) (gracefulShutdownRequested_ c) (forceCloseRequested_ c)
    (lifecycleSource_ c) (droppedNotificationCount_ c) (tasks c) v (written c) (taken c) (log c).
Definition set_written (v : list byte) (c : TcpConnection) : TcpConnection :=
  mkConnection (state_ c) (closePhase_ c) (channelAdded_ c) (channelRemoved_ c) (reading c) (writing c)
    (socketOpen c) (writeShut c) (inputBuffer_ c) (outputBuffer_ c) (active_ c) (readingEnabled_ c)
    (pendingOutputBytes_ c) (closeInfoBits_ c) (gracefulShutdownRequested_ c) (forceCloseRequested_ c)
    (lifecycleSource_ c) (droppedNotificationCount_ c) (tasks c) (fatal c) v (taken c) (log c).
Definition set_taken (v : list byte) (c : TcpConnection) : TcpConnection :=
  mkConnection (state_ c) (closePhase_ c) (channelAdded_ c) (channelRemoved_ c) (reading c) (writing c)
    (socketOpen c) (writeShut c) (inputBuffer_ c) (outputBuffer_ c) (active_ c) (readingEnabled_ c)
    (pendingOutputBytes_ c) (closeInfoBits_ c) (gracefulShutdownRequested_ c) (forceCloseRequested_ c)
    (lifecycleSource_ c) (droppedNotificationCount_ c) (tasks c) (fatal c) (written c) v (log c).
Definition set_log (v : list Event) (c : TcpConnection) : TcpConnection :=
  mkConnection (state_ c) (closePhase_ c) (channelAdded_ c) (channelRemoved_ c) (reading c) (writing c)
    (socketOpen c) (writeShut c) (inputBuffer_ c) (outputBuffer_ c) (active_ c) (readingEnabled_ c)
    (pendingOutputBytes_ c) (closeInfoBits_ c) (gracefulShutdownRequested_ c) (forceCloseRequested_ c)
    (lifecycleSource_ c) (droppedNotificationCount_ c) (tasks c) (fatal c) (written c) (taken c) v.

Definition note (e : Event) (c : TcpConnection) : TcpConnection := set_log (log c ++ [e]) c.

(** ** Operations *)

(** Which callbacks are set, with the level of the high-water notification. *)
Record Callbacks := mkCallbacks {
  connectionCallback_ : bool;
  messageCallback_ : bool;
  writeCompleteCallback_ : bool;
  highWaterMarkCallback_ : bool;
  highWaterMark_ : Z;
  closeInfoCallback_ : bool;
  closeCallback_ : bool;
}.

(** The stages of [finishClose] at which a callback runs. *)
Inductive CloseStage := AtDisconnected | AtCloseInfo | AtClose.

(** Programs of a thread: [trySend] with the next access, [tryShutdown] or
    [tryForceClose] ([force]) with the next access.  [ReleaseBytes],
    [SignalDrained]: the reservation is given back, then the lifecycle is
    signalled.  [first]: the request sealed the word. *)
Inductive SendPc :=
  | CheckSeal
  | CheckGraceful
  | CheckForce
  | CheckState
  | Reserve
  | Budgets
  | Granted
  | ReleaseBytes
  | SignalDrained.

Inductive ClosePc :=
  | CloseState
  | CloseSeal
  | ClosePublish (first : bool)
  | CloseFlag (first : bool)
  | CloseSignal.

Inductive Prog :=
  | PSend (data : list byte) (pc : SendPc)
  | PClose (force : bool) (pc : ClosePc).

(** The owner thread's interrupted calls, innermost first: a callback that is
    running, [driveLifecycleInLoop] after [forceCloseInLoop], or a program of the
    owner itself. *)
Inductive Frame :=
  | FEstablished
  | FMessage
  | FNotification
  | FClosing (s : CloseStage)
  | FDestroying
  | FDriveRest
  | FCall (p : Prog).

Section operations.
Context (o : TcpConnectionBackpressureOptions) (cb : Callbacks).

Definition is_state (s : StateE) (c : TcpConnection) : bool := bool_decide (state_ c = s).

Definition isNoneEvent (c : TcpConnection) : bool := negb (reading c) && negb (writing c).

Definition disableAll (c : TcpConnection) : TcpConnection := set_reading false (set_writing false c).

Definition removeChannelRegistrationInLoop (c : TcpConnection) : TcpConnection :=
  if negb (channelAdded_ c) || channelRemoved_ c then c
  else set_removed true (if negb (isNoneEvent c) then disableAll c else c).

Definition closeInfo (c : TcpConnection) : option TcpConnectionCloseInfo :=
  if Z.land (closeInfoBits_ c) kCloseInfoPublished =? 0 then None else unpackCloseInfo (closeInfoBits_ c).

Definition socketClosed (c : TcpConnection) : bool :=
  match closePhase_ c with SocketClosed | CompletionDraining | Closed => true | _ => false end.

Definition publishCloseInfo (r : TcpConnectionCloseReason) (native : Z) (c : TcpConnection) : TcpConnection :=
  set_info (published_info (closeInfoBits_ c) r native) c.

Definition signalLifecycle (c : TcpConnection) : TcpConnection * PostResult :=
  match lifecycleSource_ c with
  | None => (c, PostOwnerUnavailable)
  | Some _ => (set_lifecycle (Some true) c, PostAccepted)
  end.

(** The connection's part of [releaseOutputBytes]. *)
Definition releaseOutputBytes (bytes : Z) (c : TcpConnection) : TcpConnection :=
  if bytes =? 0 then c
  else
    let previous := pendingOutputBytes_ c in
    let previousBytes := byte_count previous in
    let c := set_word (previous ⊖ bytes) c in
    if previousBytes <? bytes then set_fatal true c
    else if sealed previous && (previousBytes =? bytes) then fst (signalLifecycle c)
    else c.

Definition clearBufferedOutputInLoop (c : TcpConnection) : TcpConnection :=
  let buffered := zlen (outputBuffer_ c) in
  if buffered =? 0 then c else releaseOutputBytes buffered (set_output [] c).

(** [ConnectionBackpressureController::apply] *)
Definition apply (bufferedBytes : Z) (c : TcpConnection) : TcpConnection :=
  if negb (active_ c) then c
  else if readingEnabled_ c && (highWaterMarkBytes o <=? bufferedBytes) then
    let c := set_enabled false c in
    if reading c then set_reading false c else c
  else if negb (readingEnabled_ c) && (bufferedBytes <=? lowWaterMarkBytes o) then
    let c := set_enabled true c in
    if negb (reading c) then set_reading true c else c
  else c.

(** [onBufferedBytesChanged] *)
Definition applyBackpressureInLoop (c : TcpConnection) : TcpConnection := apply (zlen (outputBuffer_ c)) c.

Definition onConnectionEstablished (c : TcpConnection) : TcpConnection :=
  apply (zlen (outputBuffer_ c)) (set_enabled true (set_active true c)).

Definition onClosed (c : TcpConnection) : TcpConnection := set_enabled false (set_active false c).

Definition recordDroppedNotification (c : TcpConnection) : TcpConnection :=
  set_dropped (droppedNotificationCount_ c ⊕ 1) c.

(** [room]: the loop admits the notification. *)
Definition queueWriteComplete (room : bool) (c : TcpConnection) : TcpConnection :=
  if negb (writeCompleteCallback_ cb) then c
  else if room then set_tasks (tasks c ++ [TWriteComplete]) c else recordDroppedNotification c.

Definition maybeQueueHighWaterMark (room : bool) (oldLen newLen : Z) (c : TcpConnection) : TcpConnection :=
  if negb (highWaterMarkCallback_ cb) || (highWaterMark_ cb =? 0) then c
  else if (oldLen <? highWaterMark_ cb) && (highWaterMark_ cb <=? newLen) then
    if room then set_tasks (tasks c ++ [THighWaterMark newLen]) c else recordDroppedNotification c
  else c.

Definition detachLifecycleNode (c : TcpConnection) : TcpConnection := set_lifecycle None c.

(** *** Closing *)

(** [connectDestroyed] after the connection callback. *)
Definition destroy_rest (c : TcpConnection) : TcpConnection :=
  if negb (channelAdded_ c) then
    detachLifecycleNode (set_removed true (set_phase Closed (set_socket false c)))
  else detachLifecycleNode (removeChannelRegistrationInLoop c).

Definition connectDestroyed (c : TcpConnection) (fs : list Frame) : TcpConnection * list Frame :=
  let c := clearBufferedOutputInLoop (onClosed c) in
  let open := is_state kConnected c || is_state kDisconnecting c in
  let c := setState kDisconnected c in
  if open && connectionCallback_ cb then (note EDisconnected c, FDestroying :: fs)
  else (destroy_rest c, fs).

(** The rest of [finishClose], from each of its callbacks on. *)
Definition after_close (failed : bool) (c : TcpConnection) (fs : list Frame) : TcpConnection * list Frame :=
  if failed && negb (channelRemoved_ c) then connectDestroyed c fs else (c, fs).

Definition call_close (c : TcpConnection) (fs : list Frame) : TcpConnection * list Frame :=
  if closeCallback_ cb then (note EClose c, FClosing AtClose :: fs) else after_close false c fs.

Definition call_closeInfo (c : TcpConnection) (fs : list Frame) : TcpConnection * list Frame :=
  if closeInfoCallback_ cb then (note (ECloseInfo (closeInfo c)) c, FClosing AtCloseInfo :: fs)
  else call_close c fs.

Definition call_disconnected (c : TcpConnection) (fs : list Frame) : TcpConnection * list Frame :=
  if connectionCallback_ cb then (note EDisconnected c, FClosing AtDisconnected :: fs)
  else call_closeInfo c fs.

(** [finishClose] and [beginCloseInLoop] up to their calls. *)
Definition finish_state (c : TcpConnection) : TcpConnection :=
  let c := clearBufferedOutputInLoop (onClosed (setState kDisconnected c)) in
  let c := if socketClosed c then c else set_socket false c in
  let c := if isNoneEvent c then c else disableAll c in
  set_phase Closed c.

Definition finishClose (c : TcpConnection) (fs : list Frame) : TcpConnection * list Frame :=
  if is_state kDisconnected c then (c, fs) else call_disconnected (finish_state c) fs.

Definition begin_state (c : TcpConnection) : TcpConnection :=
  let c := set_word (Z.lor (pendingOutputBytes_ c) kOutputAdmissionSealedBit) c in
  let c := set_graceful false c in
  let c := match closeInfo c with None => publishCloseInfo InternalError 0 c | Some _ => c end in
  let c := setState kDisconnecting c in
  let c := match closePhase_ c with Open => set_phase Closing c | _ => c end in
  let c := removeChannelRegistrationInLoop c in
  let c := if socketClosed c then c
           else set_phase SocketClosed (set_socket false (if isNoneEvent c then c else disableAll c)) in
  let c := if isNoneEvent c then c else disableAll c in
  set_phase SocketClosed c.

Definition beginCloseInLoop (c : TcpConnection) (fs : list Frame) : TcpConnection * list Frame :=
  if is_state kDisconnected c then (c, fs) else finishClose (begin_state c) fs.

Definition handleClose (c : TcpConnection) (fs : list Frame) : TcpConnection * list Frame :=
  if is_state kDisconnected c then (c, fs) else beginCloseInLoop (publishCloseInfo PeerEof 0 c) fs.

(** [ECONNABORTED] and [ECONNRESET]. *)
Definition handleError (err : Z) (c : TcpConnection) (fs : list Frame) : TcpConnection * list Frame :=
  let reset := (err =? 104) || (err =? 103) in
  handleClose (publishCloseInfo (if reset then Reset else InternalError) err c) fs.

Definition callbackFailed (c : TcpConnection) (fs : list Frame) : TcpConnection * list Frame :=
  handleClose (publishCloseInfo CallbackFailure 0 c) fs.

(** *** Lifecycle *)

Definition shutdownInLoop (c : TcpConnection) : TcpConnection :=
  if gracefulShutdownRequested_ c && negb (socketClosed c) && negb (writing c) &&
     (byte_count (pendingOutputBytes_ c) =? 0)
  then set_graceful false (set_shut true c)
  else c.

Definition forceCloseInLoop (c : TcpConnection) (fs : list Frame) : TcpConnection * list Frame :=
  if is_state kConnected c || is_state kDisconnecting c then beginCloseInLoop c fs else (c, fs).

(** [driveLifecycleInLoop] after the forced close: the second half, and both. *)
Definition drive_graceful (c : TcpConnection) : TcpConnection :=
  if gracefulShutdownRequested_ c then
    let c := if is_state kConnected c then setState kDisconnecting c else c in
    if is_state kDisconnecting c then shutdownInLoop c else c
  else c.

Definition drive_rest (c : TcpConnection) : TcpConnection := drive_graceful (set_force false c).

(** A call whose callee has returned goes on. *)
Definition settle (cf : TcpConnection * list Frame) : TcpConnection * list Frame :=
  match cf with (c, FDriveRest :: fs) => (drive_rest c, fs) | _ => cf end.

Definition driveLifecycleInLoop (c : TcpConnection) (fs : list Frame) : TcpConnection * list Frame :=
  if forceCloseRequested_ c then settle (forceCloseInLoop c (FDriveRest :: fs))
  else (drive_graceful c, fs).

(** *** Establishment *)

(** [attached]: the loop attaches the lifecycle node. *)
Definition connectEstablished (attached : bool) (c : TcpConnection) (fs : list Frame) : TcpConnection * list Frame :=
  if negb (is_state kConnecting c) || channelRemoved_ c then (c, fs)
  else
    let c := set_added true (set_reading true c) in
    if negb attached then
      (set_phase Closed (set_socket false (set_added false (removeChannelRegistrationInLoop c))), fs)
    else
      let c := setState kConnected (set_lifecycle (Some false) c) in
      let c := onConnectionEstablished (applyBackpressureInLoop c) in
      if connectionCallback_ cb then (note EEstablished c, FEstablished :: fs) else (c, fs).

(** *** Events *)

(** What the kernel answers. *)
Inductive ReadResult := RData (bytes : list byte) | REof | RErr (err : Z).
Inductive WriteResult := WOk (n : Z) | WErr (err : Z).

(** [EAGAIN], [EINTR] *)
Definition isWouldBlock (err : Z) : bool := err =? 11.
Definition isInterrupted (err : Z) : bool := err =? 4.

Definition remainingInputCapacity (c : TcpConnection) : Z :=
  let buffered := zlen (inputBuffer_ c) in
  if maxInputBufferBytes o <=? buffered then 0 else maxInputBufferBytes o - buffered.

Definition closeOnInputLimitInLoop (c : TcpConnection) (fs : list Frame) : TcpConnection * list Frame :=
  if negb (remainingInputCapacity c =? 0) then (c, fs) else handleClose (publishCloseInfo InputLimit 0 c) fs.

(** [None]: the kernel does not answer like this. *)
Definition handleRead (r : ReadResult) (sockErr : Z) (c : TcpConnection) (fs : list Frame) :
    option (TcpConnection * list Frame) :=
  let remaining := remainingInputCapacity c in
  if remaining =? 0 then Some (closeOnInputLimitInLoop c fs)
  else match r with
       | RData bytes =>
           if (zlen bytes =? 0) || (remaining <? zlen bytes) then None
           else
             let c := set_input (inputBuffer_ c ++ bytes) c in
             if readingEnabled_ c && messageCallback_ cb then Some (note EMessage c, FMessage :: fs)
             else Some (closeOnInputLimitInLoop c fs)
       | REof => Some (handleClose (publishCloseInfo PeerEof 0 c) fs)
       | RErr err =>
           if isWouldBlock err || isInterrupted err then Some (c, fs)
           else Some (handleError (if err =? 0 then sockErr else err) c fs)
       end.

Definition handleWrite (r : WriteResult) (sockErr : Z) (room : bool) (c : TcpConnection) (fs : list Frame) :
    option (TcpConnection * list Frame) :=
  if negb (writing c) then Some (c, fs)
  else match r with
       | WOk n =>
           if (n <? 0) || (zlen (outputBuffer_ c) <? n) then None
           else if n =? 0 then Some (c, fs)
           else
             let c := set_written (written c ++ take (Z.to_nat n) (outputBuffer_ c)) c in
             let c := set_output (drop (Z.to_nat n) (outputBuffer_ c)) c in
             let c := applyBackpressureInLoop (releaseOutputBytes n c) in
             if zlen (outputBuffer_ c) =? 0 then
               let c := set_writing false c in
               let c := if is_state kDisconnecting c then shutdownInLoop c else c in
               Some (queueWriteComplete room c, fs)
             else Some (c, fs)
       | WErr err =>
           if isWouldBlock err || isInterrupted err then Some (c, fs)
           else Some (handleError (if err =? 0 then sockErr else err) c fs)
       end.

(** What the environment chooses in a step: whether the connection's word takes
    a reservation, the budgets' answer, the executor's answer, whether memory is
    available, the kernel's answers, whether the loop admits a notification. *)
Record Choice := mkChoice {
  ch_acquire : bool;
  ch_budgets : TcpSendResult;
  ch_post : PostResult;
  ch_memory : bool;
  ch_write : WriteResult;
  ch_sockErr : Z;
  ch_room : bool;
}.

(** The bytes [sendReservedInLoop] could not write are buffered.  The last
    component: [std::bad_alloc] is thrown. *)
Definition buffer_rest (ch : Choice) (rest : list byte) (c : TcpConnection) : TcpConnection * bool :=
  let oldLen := zlen (outputBuffer_ c) in
  if negb (ch_memory ch) then (releaseOutputBytes (zlen rest) c, true)
  else
    let c := set_taken (taken c ++ rest) (set_output (outputBuffer_ c ++ rest) c) in
    let newLen := zlen (outputBuffer_ c) in
    let c := applyBackpressureInLoop c in
    let c := if writing c then c else set_writing true c in
    (maybeQueueHighWaterMark (ch_room ch) oldLen newLen c, false).

Definition sendReservedInLoop (ch : Choice) (data : list byte) (c : TcpConnection) (fs : list Frame) :
    option (TcpConnection * list Frame) :=
  let len := zlen data in
  if is_state kDisconnected c then Some (releaseOutputBytes len c, fs)
  else if negb (writing c) && (zlen (outputBuffer_ c) =? 0) then
    match ch_write ch with
    | WOk n =>
        if (n <? 0) || (len <? n) then None
        else
          let now := take (Z.to_nat n) data in
          let c := set_taken (taken c ++ now) (set_written (written c ++ now) (releaseOutputBytes n c)) in
          if len - n =? 0 then Some (queueWriteComplete (ch_room ch) c, fs)
          else Some (fst (buffer_rest ch (drop (Z.to_nat n) data) c), fs)
    | WErr err =>
        if isWouldBlock err || isInterrupted err then
          if 0 <? len then Some (fst (buffer_rest ch data c), fs) else Some (c, fs)
        else Some (handleError (if err =? 0 then ch_sockErr ch else err) (releaseOutputBytes len c) fs)
    end
  else if 0 <? len then Some (fst (buffer_rest ch data c), fs) else Some (c, fs).

(** *** Programs of any thread *)

Definition output_limit : Z :=
  if connectionHardLimitBytes o <? kOutputByteCountMask then connectionHardLimitBytes o else kOutputByteCountMask.

(** What a program does next: an access; return; with [PClose], whether the
    lifecycle still has to be driven, and with an admitted send, the payload to
    be sent, both on the owner thread. *)
Inductive Next :=
  | Go (p : Prog)
  | Return
  | RunSend (data : list byte)
  | RunDrive.

(** Giving a reservation back: the word, then perhaps a signal. *)
Definition give_back (data : list byte) (c : TcpConnection) : TcpConnection * Next :=
  let n := zlen data in
  let previous := pendingOutputBytes_ c in
  let previousBytes := byte_count previous in
  let c := set_word (previous ⊖ n) c in
  if previousBytes <? n then (set_fatal true c, Return)
  else if sealed previous && (previousBytes =? n) then (c, Go (PSend data SignalDrained))
  else (c, Return).

Definition prog_step (inLoop : bool) (ch : Choice) (p : Prog) (c : TcpConnection) : option (TcpConnection * Next) :=
  match p with
  | PSend data CheckSeal =>
      if sealed (pendingOutputBytes_ c) then Some (c, Return) else Some (c, Go (PSend data CheckGraceful))
  | PSend data CheckGraceful =>
      if gracefulShutdownRequested_ c then Some (c, Return) else Some (c, Go (PSend data CheckForce))
  | PSend data CheckForce =>
      if forceCloseRequested_ c then Some (c, Return) else Some (c, Go (PSend data CheckState))
  | PSend data CheckState =>
      if zlen data =? 0 then Some (c, Return)
      else if negb (is_state kConnected c) then Some (c, Return)
      else Some (c, Go (PSend data Reserve))
  | PSend data Reserve =>
      if negb (ch_acquire ch) then Some (c, Return)
      else if sealed (pendingOutputBytes_ c) then Some (c, Return)
      else if output_limit <? byte_count (pendingOutputBytes_ c) + zlen data then Some (c, Return)
      else Some (set_word (pendingOutputBytes_ c ⊕ zlen data) c, Go (PSend data Budgets))
  | PSend data Budgets =>
      match ch_budgets ch with
      | SendAccepted => Some (c, Go (PSend data Granted))
      | SendLoopOverloaded | SendServerOverloaded | SendGlobalOverloaded => Some (c, Go (PSend data ReleaseBytes))
      | _ => None
      end
  | PSend data Granted =>
      if inLoop then
        if is_state kConnected c then Some (c, RunSend data) else Some (c, Go (PSend data ReleaseBytes))
      else if negb (ch_memory ch) then Some (c, Go (PSend data ReleaseBytes))
      else match ch_post ch with
           | PostAccepted => Some (set_tasks (tasks c ++ [TSend data]) c, Return)
           | _ => Some (c, Go (PSend data ReleaseBytes))
           end
  | PSend data ReleaseBytes => Some (give_back data c)
  | PSend data SignalDrained => Some (fst (signalLifecycle c), Return)
  | PClose force CloseState =>
      if is_state kDisconnected c then Some (c, Return) else Some (c, Go (PClose force CloseSeal))
  | PClose force CloseSeal =>
      Some (set_word (Z.lor (pendingOutputBytes_ c) kOutputAdmissionSealedBit) c,
            Go (PClose force (ClosePublish (negb (sealed (pendingOutputBytes_ c))))))
  | PClose force (ClosePublish first) =>
      Some (publishCloseInfo (if force then ForcedShutdown else GracefulShutdown) 0 c,
            Go (PClose force (CloseFlag first)))
  | PClose force (CloseFlag first) =>
      Some (if force then set_force true c else if first then set_graceful true c else c,
            Go (PClose force CloseSignal))
  | PClose force CloseSignal =>
      if inLoop then Some (c, RunDrive) else Some (fst (signalLifecycle c), Return)
  end.

(** ** The machine *)

Record Machine := mkMachine {
  conn : TcpConnection;
  frames : list Frame;
  threads : gmap nat Prog;
}.

(** [LCall], [LSpawn]: user code on the owner thread, or on another thread,
    calls [trySend], [tryShutdown] or [tryForceClose]; [LOwner], [LThread]: the
    call's next access.  [LReturn]: the callback on top returns or throws, once
    the exception observer is done.  [LConsume]: the message callback takes
    bytes from the input buffer.  [LTask], [LDrive]: the loop runs the oldest
    task, or the signalled lifecycle node. *)
Inductive Label :=
  | LEstablish (attached : bool)
  | LDestroy
  | LRead (r : ReadResult) (sockErr : Z)
  | LWrite (r : WriteResult) (sockErr : Z) (room : bool)
  | LCloseEvent
  | LErrorEvent (sockErr : Z)
  | LTask (ch : Choice)
  | LDrive
  | LConsume (n : nat)
  | LReturn (threw : bool)
  | LCall (p : Prog)
  | LOwner (ch : Choice)
  | LSpawn (i : nat) (p : Prog)
  | LThread (i : nat) (ch : Choice).

Definition start (p : Prog) : bool :=
  match p with PSend _ CheckSeal | PClose _ CloseState => true | _ => false end.

(** The owner is not inside a program of its own. *)
Definition calm (fs : list Frame) : bool := match fs with FCall _ :: _ => false | _ => true end.

(** The owner is in its loop. *)
Definition idle (fs : list Frame) : bool := match fs with [] => true | _ => false end.

Definition registered (c : TcpConnection) : bool := channelAdded_ c && negb (channelRemoved_ c).

(** The frame on top goes on after its callback. *)
Definition resume (threw : bool) (f : Frame) (c : TcpConnection) (fs : list Frame) :
    option (TcpConnection * list Frame) :=
  match f with
  | FEstablished => Some (if threw then callbackFailed c fs else (c, fs))
  | FMessage => Some (if threw then callbackFailed c fs else closeOnInputLimitInLoop c fs)
  | FNotification => Some (if threw then callbackFailed c fs else (c, fs))
  | FClosing AtDisconnected => Some (call_closeInfo c fs)
  | FClosing AtCloseInfo => Some (call_close c fs)
  | FClosing AtClose => Some (after_close threw c fs)
  | FDestroying => Some (destroy_rest c, fs)
  | FDriveRest | FCall _ => None
  end.

Definition task_step (ch : Choice) (t : Task) (c : TcpConnection) : option (TcpConnection * list Frame) :=
  match t with
  | TSend data =>
      if is_state kConnected c || is_state kDisconnecting c then sendReservedInLoop ch data c []
      else Some (releaseOutputBytes (zlen data) c, [])
  | TWriteComplete => Some (note EWriteComplete c, [FNotification])
  | THighWaterMark n => Some (note (EHighWaterMark n) c, [FNotification])
  end.

(** A step of the owner thread. *)
Definition owner_step (lb : Label) (c : TcpConnection) (fs : list Frame) : option (TcpConnection * list Frame) :=
  match lb with
  | LEstablish attached => if calm fs then Some (connectEstablished attached c fs) else None
  | LDestroy => if calm fs then Some (connectDestroyed c fs) else None
  | LRead r e => if idle fs && registered c then handleRead r e c fs else None
  | LWrite r e room => if idle fs && registered c then handleWrite r e room c fs else None
  | LCloseEvent => if idle fs && registered c then Some (handleClose c fs) else None
  | LErrorEvent e => if idle fs && registered c then Some (handleError e c fs) else None
  | LTask ch =>
      match fs, tasks c with
      | [], t :: ts => task_step ch t (set_tasks ts c)
      | _, _ => None
      end
  | LDrive =>
      match fs, lifecycleSource_ c with
      | [], Some true => Some (driveLifecycleInLoop (set_lifecycle (Some false) c) fs)
      | _, _ => None
      end
  | LConsume n =>
      match fs with FMessage :: _ => Some (set_input (drop n (inputBuffer_ c)) c, fs) | _ => None end
  | LReturn threw => match fs with f :: fs => settle <$> resume threw f c fs | [] => None end
  | LCall p => if calm fs && start p then Some (c, FCall p :: fs) else None
  | LOwner ch =>
      match fs with
      | FCall p :: fs =>
          match prog_step true ch p c with
          | Some (c, Go p) => Some (c, FCall p :: fs)
          | Some (c, Return) => Some (c, fs)
          | Some (c, RunSend data) => sendReservedInLoop ch data c fs
          | Some (c, RunDrive) => Some (driveLifecycleInLoop c fs)
          | None => None
          end
      | _ => None
      end
  | LSpawn _ _ | LThread _ _ => None
  end.

Definition conn_step (lb : Label) (m : Machine) : option Machine :=
  if fatal (conn m) then None else
  match lb with
  | LSpawn i p =>
      if bool_decide (threads m !! i = None) && start p
      then Some (mkMachine (conn m) (frames m) (<[i := p]> (threads m))) else None
  | LThread i ch =>
      match threads m !! i with
      | None => None
      | Some p =>
          match prog_step false ch p (conn m) with
          | Some (c, Go p) => Some (mkMachine c (frames m) (<[i := p]> (threads m)))
          | Some (c, Return) => Some (mkMachine c (frames m) (delete i (threads m)))
          | _ => None
          end
      end
  | _ =>
      match owner_step lb (conn m) (frames m) with
      | Some (c, fs) => Some (mkMachine c fs (threads m))
      | None => None
      end
  end.

Fixpoint conn_steps (lbs : list Label) (m : Machine) : option Machine :=
  match lbs with
  | [] => Some m
  | lb :: lbs => match conn_step lb m with Some m' => conn_steps lbs m' | None => None end
  end.

(** The constructor. *)
Definition new_connection : TcpConnection :=
  mkConnection kConnecting Open false false false false true false [] [] false true 0 0 false false None 0 []
    false [] [] [].

Definition start_machine : Machine := mkMachine new_connection [] ∅.

(** ** Close information *)

(** A published word: the flag, the reason, the error. *)
Definition info_word (r : TcpConnectionCloseReason) (e : Z) : Z :=
  9223372036854775808 + reason_value r * 4294967296 + e.

Definition info_ok (bits : Z) : Prop := bits = 0 \/ exists r e, 0 <= e < 4294967296 /\ bits = info_word r e.

Lemma to_u32_bound v : 0 <= to_u32 v < 4294967296.
Proof. apply Z.mod_pos_bound. lia. Qed.

Lemma lor_low a e : 0 <= e < 4294967296 -> Z.lor (a * 4294967296) e = a * 4294967296 + e.
Proof.
  intros He. rewrite <- Z.add_lor_land. replace (Z.land (a * 4294967296) e) with 0; [lia|].
  symmetry. change 4294967296 with (2 ^ 32). rewrite <- Z.shiftl_mul_pow2 by lia. apply Z.bits_inj'. intros n Hn.
  rewrite Z.land_spec, Z.bits_0. destruct (decide (n < 32)).
  - by rewrite Z.shiftl_spec_low.
  - replace (Z.testbit e n) with false; [by rewrite andb_false_r|]. symmetry.
    rewrite <- (Z.mod_small e (2 ^ 32)) by (change (2 ^ 32) with 4294967296; lia). apply Z.mod_pow2_bits_high. lia.
Qed.

Lemma pack_word r n : packCloseInfo r n = info_word r (to_u32 n).
Proof.
  unfold packCloseInfo, info_word. rewrite Z.shiftl_mul_pow2 by lia. change (2 ^ 32) with 4294967296.
  replace (Z.lor kCloseInfoPublished (reason_value r * 4294967296)) with
    ((2147483648 + reason_value r) * 4294967296) by (by destruct r).
  rewrite lor_low by apply to_u32_bound. lia.
Qed.

Lemma reason_value_bound r : 0 <= reason_value r <= 9.
Proof. destruct r; simpl; lia. Qed.

Lemma reason_of_value r : reason_of (reason_value r) = Some r.
Proof. by destruct r. Qed.

(** The parts of a word. *)
Lemma info_parts r e : 0 <= e < 4294967296 ->
  Z.land (info_word r e) 4294967295 = e /\ to_u32 (info_word r e) = e /\
  Z.shiftr (Z.land (info_word r e) kCloseReasonMask) 32 = reason_value r /\
  Z.land (info_word r e) kCloseInfoPublished <> 0 /\ info_word r e <> 0.
Proof.
  intros He. pose proof (reason_value_bound r) as Hr.
  assert (info_word r e mod 4294967296 = e) as Hm.
  { symmetry. apply (Z.mod_unique _ _ (2147483648 + reason_value r)); unfold info_word; lia. }
  assert (info_word r e / 4294967296 = 2147483648 + reason_value r) as Hd.
  { symmetry. apply (Z.div_unique _ _ _ e); unfold info_word; lia. }
  split_and!.
  - change 4294967295 with (Z.ones 32). rewrite Z.land_ones by lia. done.
  - done.
  - rewrite Z.shiftr_land. change (Z.shiftr kCloseReasonMask 32) with (Z.ones 8). rewrite Z.land_ones by lia.
    rewrite Z.shiftr_div_pow2 by lia. change (2 ^ 32) with 4294967296. rewrite Hd. by destruct r.
  - change kCloseInfoPublished with kOutputAdmissionSealedBit.
    pose proof (sealed_spec (info_word r e) ltac:(unfold info_word; lia)) as Hs. unfold sealed in Hs. intros H0.
    rewrite H0 in Hs. simpl in Hs. symmetry in Hs. apply Z.leb_gt in Hs. unfold info_word in Hs. lia.
  - unfold info_word. lia.
Qed.

Lemma to_i32_u32 n : -2147483648 <= n < 2147483648 -> to_i32 (to_u32 n) = n.
Proof.
  intros Hn. unfold to_i32, to_u32. destruct (decide (0 <= n)).
  - rewrite Z.mod_small by lia. destruct (_ <? _) eqn:E; zify_bools; lia.
  - replace (n mod 4294967296) with (n + 4294967296) by (apply (Z.mod_unique _ _ (-1)); lia).
    destruct (_ <? _) eqn:E; zify_bools; lia.
Qed.

(** [publishCloseInfo]: the first reason stays, the first native error is added. *)
Lemma published_word bits r n : info_ok bits ->
  published_info bits r n =
  if bits =? 0 then info_word r (to_u32 n)
  else if to_u32 bits =? 0 then bits + (if n =? 0 then 0 else to_u32 n) else bits.
Proof.
  intros [->|(r0 & e & He & ->)]; unfold published_info; [apply pack_word|].
  destruct (info_parts r0 e He) as (_ & Hu & _ & Hp & Hn). rewrite (proj2 (Z.eqb_neq _ _) Hn), (proj2 (Z.eqb_neq _ _) Hp), Hu.
  cbn [negb andb]. destruct (n =? 0) eqn:En; [destruct (e =? 0); [by rewrite Z.add_0_r|done]|].
  destruct (e =? 0) eqn:Ee; [|done]. zify_bools. subst e.
  replace (Z.land (info_word r0 0) (Z.lxor usize_max 4294967295)) with ((2147483648 + reason_value r0) * 4294967296)
    by (by destruct r0).
  rewrite lor_low by apply to_u32_bound. unfold info_word. lia.
Qed.

Lemma published_ok bits r n : info_ok bits -> info_ok (published_info bits r n) /\ published_info bits r n <> 0.
Proof.
  intros H. rewrite published_word by done. pose proof (to_u32_bound n) as Hn. pose proof (to_u32_bound bits) as Hb.
  destruct (bits =? 0) eqn:E0; zify_bools.
  - split; [right; eauto|unfold info_word; pose proof (reason_value_bound r); lia].
  - destruct H as [->|(r0 & e & He & ->)]; [done|]. destruct (info_parts r0 e He) as (_ & Hu & _ & _ & Hnz). rewrite Hu.
    destruct (e =? 0) eqn:Ee; zify_bools; [subst e|split; [right; eauto|done]].
    split; [right; exists r0, (if n =? 0 then 0 else to_u32 n); split; [case_match; lia|unfold info_word; lia]|].
    unfold info_word. pose proof (reason_value_bound r0). case_match; lia.
Qed.

Lemma info_word_info c r e : 0 <= e < 4294967296 -> closeInfoBits_ c = info_word r e ->
  closeInfo c = Some (mkCloseInfo r (to_i32 e)).
Proof.
  intros He E. unfold closeInfo, unpackCloseInfo. rewrite E. destruct (info_parts r e He) as (H1 & _ & H3 & H4 & _).
  rewrite (proj2 (Z.eqb_neq _ _) H4), H1, H3, reason_of_value. done.
Qed.

Lemma info_none c : info_ok (closeInfoBits_ c) -> closeInfo c = None <-> closeInfoBits_ c = 0.
Proof.
  intros [E|(r & e & He & E)].
  - split; [done|]. intros _. unfold closeInfo. by rewrite E.
  - rewrite (info_word_info c r e He E), E. destruct (info_parts r e He) as (_ & _ & _ & _ & ?). done.
Qed.

(** ** Invariant *)

(** Bytes of the word held by a program, a task; the programs of the owner. *)
Definition prog_held (p : Prog) : Z :=
  match p with PSend data (Budgets | Granted | ReleaseBytes) => zlen data | _ => 0 end.

Definition calls (fs : list Frame) : list Prog := omap (fun f => match f with FCall p => Some p | _ => None end) fs.

Definition task_held (t : Task) : Z := match t with TSend data => zlen data | _ => 0 end.

Definition opened (c : TcpConnection) : bool := is_state kConnected c || is_state kDisconnecting c.

(** The accounting, with [x] bytes held by programs. *)
Record acct (c : TcpConnection) (x : Z) : Prop := {
  ac_word : 0 <= pendingOutputBytes_ c < usize_lim;
  ac_count : byte_count (pendingOutputBytes_ c) = zlen (outputBuffer_ c) + zsum task_held (tasks c) + x;
  ac_limit : byte_count (pendingOutputBytes_ c) <= output_limit;
  ac_fatal : fatal c = false;
  ac_shut : writeShut c = true -> sealed (pendingOutputBytes_ c) = true /\ byte_count (pendingOutputBytes_ c) = 0;
  ac_graceful : gracefulShutdownRequested_ c = true -> sealed (pendingOutputBytes_ c) = true;
}.

(** The rest of the state, between the owner's actions. *)
Record shape (c : TcpConnection) : Prop := {
  sh_open : opened c = true ->
    registered c = true /\ closePhase_ c = Open /\ active_ c = true /\ is_Some (lifecycleSource_ c);
  sh_flow : opened c = true ->
    writing c = negb (zlen (outputBuffer_ c) =? 0) /\ reading c = readingEnabled_ c /\
    (if readingEnabled_ c then zlen (outputBuffer_ c) < highWaterMarkBytes o
     else lowWaterMarkBytes o < zlen (outputBuffer_ c)) /\
    written c ++ outputBuffer_ c = taken c;
  sh_closed : opened c = false -> outputBuffer_ c = [] /\ active_ c = false;
  sh_new : state_ c = kConnecting -> channelRemoved_ c = false ->
    written c = taken c /\ closePhase_ c = Open /\ writing c = false;
  sh_socket : socketClosed c = true -> socketOpen c = false;
  sh_prefix : written c `prefix_of` taken c;
  sh_input : zlen (inputBuffer_ c) <= maxInputBufferBytes o;
  sh_info : info_ok (closeInfoBits_ c);
}.

Context (Ho : backpressure_validate o = Ok tt) (Hlow : 0 <= lowWaterMarkBytes o) (Hmax : 0 <= maxInputBufferBytes o).

Lemma marks : 0 < highWaterMarkBytes o /\ lowWaterMarkBytes o < highWaterMarkBytes o /\ 0 < maxInputBufferBytes o /\
  highWaterMarkBytes o <= connectionHardLimitBytes o.
Proof.
  unfold backpressure_validate, validateThresholds in Ho.
  destruct (highWaterMarkBytes o =? 0) eqn:E1; [discriminate|].
  destruct (highWaterMarkBytes o <=? lowWaterMarkBytes o) eqn:E2; [discriminate|].
  destruct (connectionHardLimitBytes o <? highWaterMarkBytes o) eqn:E3; [discriminate|].
  destruct (maxInputBufferBytes o =? 0) eqn:E4; [discriminate|]. zify_bools. lia.
Qed.

Lemma output_limit_bound : output_limit <= kOutputByteCountMask.
Proof. unfold output_limit. destruct (_ <? _) eqn:E; zify_bools; lia. Qed.

Lemma task_held_nonneg ts : 0 <= zsum task_held ts.
Proof. apply zsum_nonneg. intros [data| |n]; simpl; unfold zlen; lia. Qed.

Lemma prog_held_nonneg p : 0 <= prog_held p.
Proof. destruct p as [data []|]; simpl; unfold zlen; lia. Qed.

(** *** Releasing *)

(** A release changes the word and may signal. *)
Lemma release_form n c : 0 <= pendingOutputBytes_ c < usize_lim -> 0 <= n <= byte_count (pendingOutputBytes_ c) ->
  exists l, releaseOutputBytes n c = set_lifecycle l (set_word (pendingOutputBytes_ c ⊖ n) c) /\
    (is_Some l <-> is_Some (lifecycleSource_ c)) /\
    (l = lifecycleSource_ c \/ l = Some true) /\
    (0 < n -> sealed (pendingOutputBytes_ c) = true -> n = byte_count (pendingOutputBytes_ c) ->
      is_Some (lifecycleSource_ c) -> l = Some true).
Proof.
  intros Hw Hn. unfold releaseOutputBytes. destruct (n =? 0) eqn:E; zify_bools.
  { subst n. exists (lifecycleSource_ c). rewrite Z.sub_0_r, uwrap_small by done.
    split; [by destruct c|]. split_and!; [done|by left|lia]. }
  rewrite (proj2 (Z.ltb_ge _ _)) by lia. destruct (_ && _) eqn:Es.
  - unfold signalLifecycle. simpl lifecycleSource_. destruct (lifecycleSource_ c) as [b|] eqn:El.
    + exists (Some true). split; [done|]. split_and!; [done|by right|done].
    + exists None. split; [destruct c; simpl in *; by subst|]. split_and!; [done|by left|]. by intros _ _ _ [].
  - exists (lifecycleSource_ c). split; [by destruct c|]. split_and!; [done|by left|].
    intros _ Hs Hb. by rewrite Hs, <- Hb, Z.eqb_refl in Es.
Qed.

Lemma word_minus w n : 0 <= w < usize_lim -> 0 <= n <= byte_count w ->
  0 <= w ⊖ n < usize_lim /\ byte_count (w ⊖ n) = byte_count w - n /\ sealed (w ⊖ n) = sealed w.
Proof.
  intros Hw Hn. destruct (word_sub w n Hw Hn) as (-> & -> & ->). destruct (word_split w Hw) as [E ?].
  destruct (sealed w); split_and!; (done || lia).
Qed.

Lemma release_acct n c x : acct c (x + n) -> 0 <= n -> 0 <= x -> acct (releaseOutputBytes n c) x.
Proof.
  intros [Hw Hc Hl Hf Hs Hg] Hn Hx.
  assert (0 <= zlen (outputBuffer_ c)) by (unfold zlen; lia). pose proof (task_held_nonneg (tasks c)).
  assert (0 <= n <= byte_count (pendingOutputBytes_ c)) as Hb by lia.
  destruct (release_form n c Hw Hb) as (l & -> & _). destruct (word_minus _ _ Hw Hb) as (Hw' & Hc' & Hs').
  split; simpl; rewrite ?Hc', ?Hs'; try done; try lia.
  - intros H1. destruct (Hs H1) as [-> ?]. split; [done|lia].
Qed.

Lemma shape_word w l c : shape c -> (is_Some l <-> is_Some (lifecycleSource_ c)) -> shape (set_lifecycle l (set_word w c)).
Proof.
  intros [H1 H2 H3 H4 H5 H6 H7 H8] Hl. split; try done. intros Hop. destruct (H1 Hop) as (? & ? & ? & ?).
  split_and!; try done. simpl. by apply Hl.
Qed.

Lemma release_shape n c x : acct c (x + n) -> 0 <= n -> 0 <= x -> shape c -> shape (releaseOutputBytes n c).
Proof.
  intros [Hw Hc Hl Hf Hs Hg] Hn Hx Hsh.
  assert (0 <= zlen (outputBuffer_ c)) by (unfold zlen; lia). pose proof (task_held_nonneg (tasks c)).
  destruct (release_form n c Hw ltac:(lia)) as (l & -> & Hl' & _). by apply shape_word.
Qed.

(** *** Closing *)

Lemma clear_form c x : acct c x -> 0 <= x ->
  exists l, clearBufferedOutputInLoop c =
      set_lifecycle l (set_word (pendingOutputBytes_ c ⊖ zlen (outputBuffer_ c)) (set_output [] c)) /\
    (is_Some l <-> is_Some (lifecycleSource_ c)) /\ (l = lifecycleSource_ c \/ l = Some true).
Proof.
  intros [Hw Hc Hl Hf Hs Hg] Hx.
  assert (0 <= zlen (outputBuffer_ c)) by (unfold zlen; lia). pose proof (task_held_nonneg (tasks c)).
  unfold clearBufferedOutputInLoop. destruct (_ =? 0) eqn:E; zify_bools.
  - exists (lifecycleSource_ c). rewrite E, Z.sub_0_r, uwrap_small by done.
    assert (outputBuffer_ c = []) as Hnil by (destruct (outputBuffer_ c); [done|unfold zlen in E; simpl in E; lia]).
    split; [destruct c; simpl in *; by subst|]. split; [done|by left].
  - destruct (release_form (zlen (outputBuffer_ c)) (set_output [] c) Hw) as (l & -> & Hl' & Hl'' & _); [simpl; lia|].
    exists l. done.
Qed.

(** What closing leaves of a connection. *)
Record closes (c c' : TcpConnection) : Prop := {
  cl_state : state_ c' = kDisconnected;
  cl_phase : closePhase_ c' = Closed;
  cl_socket : socketOpen c' = false;
  cl_registered : registered c' = false;
  cl_none : isNoneEvent c' = true;
  cl_output : outputBuffer_ c' = [];
  cl_active : active_ c' = false;
  cl_graceful : gracefulShutdownRequested_ c' = false;
  cl_sealed : sealed (pendingOutputBytes_ c') = true;
  cl_same : written c' = written c /\ taken c' = taken c /\ tasks c' = tasks c /\ inputBuffer_ c' = inputBuffer_ c /\
    writeShut c' = writeShut c /\ log c' = log c;
  cl_acct : forall x, acct c x -> 0 <= x -> acct c' x;
  cl_info : info_ok (closeInfoBits_ c') /\ closeInfo c' <> None;
  cl_kept : closeInfoBits_ c <> 0 -> closeInfoBits_ c' = closeInfoBits_ c;
}.

Lemma begin_form c : shape c ->
  exists r, (channelAdded_ c = true -> r = true) /\
  begin_state c =
    set_word (Z.lor (pendingOutputBytes_ c) kOutputAdmissionSealedBit) (set_graceful false
      (set_info (match closeInfo c with None => published_info (closeInfoBits_ c) InternalError 0 | Some _ => closeInfoBits_ c end)
        (setState kDisconnecting (set_phase SocketClosed (set_removed r (set_reading false (set_writing false
          (set_socket false c)))))))).
Proof.
  intros Hsh. pose proof (sh_socket c Hsh) as Hso. unfold begin_state.
  change (closeInfo (set_graceful false (set_word (Z.lor (pendingOutputBytes_ c) kOutputAdmissionSealedBit) c))) with (closeInfo c).
  exists (channelAdded_ c || channelRemoved_ c). split; [by intros ->|].
  destruct (closeInfo c); destruct c as [st ph ad rm rd wr so sh inb outb ac en w bits gr fo ls dr ts fa wn tk lg];
    unfold socketClosed in Hso; simpl in Hso; destruct ph, ad, rm, rd, wr; try (rewrite Hso by done); reflexivity.
Qed.

Lemma begin_acct c x : acct c x -> acct (set_graceful false (set_word (Z.lor (pendingOutputBytes_ c) kOutputAdmissionSealedBit) c)) x.
Proof.
  intros [Hw Hc Hl Hf Hs Hg]. destruct (word_seal _ Hw) as (Hw' & Hc' & Hs'). split; simpl; rewrite ?Hc', ?Hs'; try done.
  intros H. destruct (Hs H). done.
Qed.

(** Fields the accounting does not look at. *)
Lemma acct_ext c c' x :
  acct c x -> pendingOutputBytes_ c' = pendingOutputBytes_ c -> outputBuffer_ c' = outputBuffer_ c -> tasks c' = tasks c ->
  fatal c' = fatal c -> writeShut c' = writeShut c -> gracefulShutdownRequested_ c' = gracefulShutdownRequested_ c -> acct c' x.
Proof. intros [Hw Hc Hl Hf Hs Hg] E1 E2 E3 E4 E5 E6. split; rewrite ?E1, ?E2, ?E3, ?E4, ?E5, ?E6; done. Qed.

(** The last steps of a close keep the accounting, too. *)
Lemma clear_acct c x : acct c x -> 0 <= x -> acct (clearBufferedOutputInLoop c) x.
Proof.
  intros Ha Hx. assert (0 <= zlen (outputBuffer_ c)) by (unfold zlen; lia). unfold clearBufferedOutputInLoop.
  destruct (_ =? 0); [done|]. apply release_acct; [|done|done].
  destruct Ha as [Hw Hc Hl Hf Hs Hg]. split; simpl; try done. change (zlen []) with 0. lia.
Qed.

Lemma close_forms c x :
  acct c x -> 0 <= x -> shape c -> closes c (finish_state (begin_state c)).
Proof.
  intros Ha Hx Hsh. destruct (begin_form c Hsh) as (r & Hr & ->).
  set (bits := match closeInfo c with None => _ | Some _ => _ end).
  assert (info_ok bits /\ bits <> 0 /\ (closeInfoBits_ c <> 0 -> bits = closeInfoBits_ c)) as (Hb1 & Hb2 & Hb3).
  { pose proof (info_none c (sh_info c Hsh)) as Hn. unfold bits. destruct (closeInfo c) eqn:E.
    - split_and!; [apply Hsh|intros H0; by apply Hn in H0|done].
    - destruct (published_ok _ InternalError 0 (sh_info c Hsh)). split_and!; [done|done|]. intros Hne. by destruct Hne; apply Hn. }
  set (b := set_word _ _). set (b1 := onClosed (setState kDisconnected b)).
  assert (forall y, acct c y -> acct b1 y) as Hb.
  { intros y Hy. apply (acct_ext _ _ _ (begin_acct c y Hy)); done. }
  destruct (clear_form b1 x (Hb x Ha) Hx) as (l & E & _).
  assert (forall y, acct c y -> 0 <= y -> acct (clearBufferedOutputInLoop b1) y) as Hclear by (intros; apply clear_acct; auto).
  destruct (word_seal _ (ac_word _ _ Ha)) as (Hws & Hcs & Hss).
  assert (sealed (Z.lor (pendingOutputBytes_ c) kOutputAdmissionSealedBit ⊖ zlen (outputBuffer_ c)) = true) as Hsl.
  { destruct (word_minus (Z.lor (pendingOutputBytes_ c) kOutputAdmissionSealedBit) (zlen (outputBuffer_ c)) Hws) as (_ & _ & ->); [|done].
    pose proof (task_held_nonneg (tasks c)). pose proof (ac_count _ _ Ha). unfold zlen in *. lia. }
  assert (finish_state b = set_phase Closed (clearBufferedOutputInLoop b1)) as ->.
  { unfold finish_state. fold b1. rewrite E. reflexivity. }
  split; try (intros y Hy Hy0; apply (acct_ext _ _ _ (Hclear y Hy Hy0)); done); rewrite E; try done.
  - unfold registered. simpl. destruct (channelAdded_ c); [by rewrite Hr|done].
  - split; [done|]. simpl. intros H0. by apply info_none in H0.
Qed.

(** The callbacks of [finishClose] from one of them on: none is left, or one runs. *)
Lemma call_close_spec c fs :
  call_close c fs = (c, fs) \/ call_close c fs = (note EClose c, FClosing AtClose :: fs).
Proof. unfold call_close. destruct (closeCallback_ cb); [by right|by left]. Qed.

Lemma call_closeInfo_spec c fs :
  call_closeInfo c fs = (c, fs) \/
  exists e s, call_closeInfo c fs = (note e c, FClosing s :: fs) /\
    (e = ECloseInfo (closeInfo c) /\ s = AtCloseInfo \/ e = EClose /\ s = AtClose).
Proof.
  unfold call_closeInfo. destruct (closeInfoCallback_ cb); [right; eexists _, _; split; [done|by left]|].
  destruct (call_close_spec c fs) as [->| ->]; [by left|right]. eexists _, _. split; [done|by right].
Qed.

Lemma call_disconnected_spec c fs :
  call_disconnected c fs = (c, fs) \/
  exists e s, call_disconnected c fs = (note e c, FClosing s :: fs) /\
    (e = EDisconnected /\ s = AtDisconnected \/ e = ECloseInfo (closeInfo c) /\ s = AtCloseInfo \/ e = EClose /\ s = AtClose).
Proof.
  unfold call_disconnected. destruct (connectionCallback_ cb); [right; eexists _, _; split; [done|by left]|].
  destruct (call_closeInfo_spec c fs) as [->|(e & s & -> & H)]; [by left|right]. eexists _, _. split; [done|tauto].
Qed.

(** A connection after a close, and a callback of it that may be running. *)
Definition closed_by (c : TcpConnection) (fs : list Frame) (r : TcpConnection * list Frame) : Prop :=
  exists c', closes c c' /\
    (r = (c', fs) \/ exists e s, r = (note e c', FClosing s :: fs) /\
      (e = EDisconnected /\ s = AtDisconnected \/ e = ECloseInfo (closeInfo c') /\ s = AtCloseInfo \/ e = EClose /\ s = AtClose)).

Lemma begin_close_spec c x fs :
  acct c x -> 0 <= x -> shape c -> is_state kDisconnected c = false -> closed_by c fs (beginCloseInLoop c fs).
Proof.
  intros Ha Hx Hsh Hd. exists (finish_state (begin_state c)). split; [by eapply close_forms|].
  unfold beginCloseInLoop, finishClose. rewrite Hd.
  replace (is_state kDisconnected (begin_state c)) with false by (by destruct (begin_form c Hsh) as (r & _ & ->)).
  apply call_disconnected_spec.
Qed.

(** *** What never goes back *)

Definition state_rank (s : StateE) : Z :=
  match s with kConnecting => 0 | kConnected => 1 | kDisconnecting => 2 | kDisconnected => 3 end.

(** The close information only gains its first native error. *)
Definition info_keeps (c c' : TcpConnection) : Prop :=
  forall i, closeInfo c = Some i ->
    exists i', closeInfo c' = Some i' /\ reason i' = reason i /\ (nativeError i <> 0 -> i' = i).

Record keeps (c c' : TcpConnection) : Prop := {
  kp_sealed : sealed (pendingOutputBytes_ c) = true -> sealed (pendingOutputBytes_ c') = true;
  kp_shut : writeShut c = true -> writeShut c' = true /\ written c' = written c;
  kp_written : written c `prefix_of` written c';
  kp_taken : taken c `prefix_of` taken c';
  kp_state : state_rank (state_ c) <= state_rank (state_ c');
  kp_info : info_keeps c c';
}.

Lemma keeps_same c : keeps c c.
Proof. split; try done. intros i Hi. by exists i. Qed.

Lemma keeps_trans c1 c2 c3 : keeps c1 c2 -> keeps c2 c3 -> keeps c1 c3.
Proof.
  intros [A1 A2 A3 A4 A5 A6] [B1 B2 B3 B4 B5 B6]. split; auto.
  - intros H. destruct (A2 H) as [H1 E1]. destruct (B2 H1) as [H2 E2]. split; [done|congruence].
  - by etrans.
  - by etrans.
  - lia.
  - intros i Hi. destruct (A6 i Hi) as (i1 & H1 & Hr1 & Hn1). destruct (B6 i1 H1) as (i2 & H2 & Hr2 & Hn2).
    exists i2. split_and!; [done|congruence|]. intros Hn. rewrite Hn1 in Hn2 by done. by apply Hn2.
Qed.

Lemma keeps_ext c c' :
  (sealed (pendingOutputBytes_ c) = true -> sealed (pendingOutputBytes_ c') = true) -> writeShut c' = writeShut c ->
  written c' = written c -> taken c' = taken c -> state_rank (state_ c) <= state_rank (state_ c') ->
  closeInfoBits_ c' = closeInfoBits_ c -> keeps c c'.
Proof.
  intros H1 H2 H3 H4 H5 H6. split; rewrite ?H2, ?H3, ?H4; try done.
  intros i Hi. exists i. unfold closeInfo in *. by rewrite H6.
Qed.

Lemma publish_keeps r n c : info_ok (closeInfoBits_ c) -> keeps c (publishCloseInfo r n c).
Proof.
  intros Hok. split; try done. intros i Hi. pose proof (info_none c Hok) as Hz.
  destruct Hok as [E|(r0 & e & He & E)]; [by rewrite (proj2 Hz E) in Hi|].
  rewrite (info_word_info c r0 e He E) in Hi. injection Hi as <-.
  pose proof (published_word (closeInfoBits_ c) r n (or_intror (ex_intro _ r0 (ex_intro _ e (conj He E))))) as Hp.
  destruct (info_parts r0 e He) as (_ & Hu & _ & _ & Hnz). rewrite E in Hp. rewrite (proj2 (Z.eqb_neq _ _) Hnz), Hu in Hp.
  pose proof (to_u32_bound n). destruct (e =? 0) eqn:Ee; zify_bools.
  - subst e. exists (mkCloseInfo r0 (to_i32 (if n =? 0 then 0 else to_u32 n))). split; [|split; [done|simpl; done]].
    apply info_word_info; [case_match; lia|]. simpl. rewrite E, Hp. unfold info_word. lia.
  - exists (mkCloseInfo r0 (to_i32 e)). split_and!; [|done|done]. apply info_word_info; [done|]. simpl. by rewrite E, Hp.
Qed.

Lemma release_keeps n c x : acct c (x + n) -> 0 <= n -> 0 <= x -> keeps c (releaseOutputBytes n c).
Proof.
  intros [Hw Hc Hl Hf Hs Hg] Hn Hx.
  assert (0 <= zlen (outputBuffer_ c)) by (unfold zlen; lia). pose proof (task_held_nonneg (tasks c)).
  destruct (release_form n c Hw ltac:(lia)) as (l & -> & _). apply keeps_ext; try done.
  simpl. by destruct (word_minus (pendingOutputBytes_ c) n Hw ltac:(lia)) as (_ & _ & ->).
Qed.

Lemma closes_keeps c c' : info_ok (closeInfoBits_ c) -> closes c c' -> keeps c c'.
Proof.
  intros Hok [H1 H2 H3 H4 H5 H6 H7 H8 H9 (E1 & E2 & E3 & E4 & E5 & E6) _ H11 H12]. split; rewrite ?E1, ?E2, ?E5; try done.
  - rewrite H1. by destruct (state_ c).
  - intros i Hi. exists i. split; [|done]. unfold closeInfo in *. rewrite H12; [done|]. intros E. by rewrite E in Hi.
Qed.

(** *** Preservation *)

(** An action on [c0] leaves a good state; its frames run the same programs. *)
Record good (c0 : TcpConnection) (x : Z) (fs : list Frame) (r : TcpConnection * list Frame) : Prop := {
  gd_acct : acct (fst r) x;
  gd_shape : shape (fst r);
  gd_keeps : keeps c0 (fst r);
  gd_frames : calls (snd r) = calls fs;
}.

Lemma good_same x fs c : acct c x -> shape c -> good c x fs (c, fs).
Proof. intros. split; try done. apply keeps_same. Qed.

Lemma good_from c0 c x fs r : keeps c0 c -> good c x fs r -> good c0 x fs r.
Proof. intros Hk [H1 H2 H3 H4]. split; try done. by eapply keeps_trans. Qed.

Lemma note_acct e c x : acct c x -> acct (note e c) x.
Proof. intros []. by split. Qed.

Lemma note_shape e c : shape c -> shape (note e c).
Proof. intros []. by split. Qed.

Lemma good_note x fs c e f : acct c x -> shape c -> calls (f :: fs) = calls fs -> good c x fs (note e c, f :: fs).
Proof.
  intros Ha Hs Hf. by split; [apply note_acct|apply note_shape|apply keeps_ext|].
Qed.

Lemma publish_acct r n c x : acct c x -> acct (publishCloseInfo r n c) x.
Proof. intros []. by split. Qed.

Lemma publish_shape r n c : shape c -> shape (publishCloseInfo r n c).
Proof. intros []. split; try done. by apply published_ok. Qed.

Lemma closes_shape c c' : closes c c' -> shape c -> shape c'.
Proof.
  intros [H1 H2 H3 H4 H5 H6 H7 H8 H9 (E1 & E2 & E3 & E4 & E5 & E6) _ H11 _] [_ _ _ _ _ S6 S7 _].
  assert (opened c' = false) as Hop by (unfold opened, is_state; by rewrite H1).
  split; rewrite ?Hop, ?E1, ?E2, ?E4; try done.
  - by rewrite H1.
  - apply H11.
Qed.

Lemma closed_good c x fs r : acct c x -> 0 <= x -> shape c -> closed_by c fs r -> good c x fs r.
Proof.
  intros Ha Hx Hs (c' & Hc & Hr). apply (good_from _ c'); [by apply closes_keeps; [apply Hs|]|].
  pose proof (cl_acct _ _ Hc x Ha Hx). pose proof (closes_shape _ _ Hc Hs).
  destruct Hr as [->|(e & s & -> & _)]; [by apply good_same|by apply good_note].
Qed.

Lemma begin_good c x fs : acct c x -> 0 <= x -> shape c -> good c x fs (beginCloseInLoop c fs).
Proof.
  intros. destruct (is_state kDisconnected c) eqn:Hd; [unfold beginCloseInLoop; rewrite Hd; by apply good_same|].
  apply closed_good; [done..|]. by eapply begin_close_spec.
Qed.

Lemma handleClose_spec c x fs : acct c x -> 0 <= x -> shape c ->
  is_state kDisconnected c = false -> closed_by (publishCloseInfo PeerEof 0 c) fs (handleClose c fs).
Proof.
  intros ? ? ? Hd. unfold handleClose. rewrite Hd.
  eapply begin_close_spec; [by apply publish_acct|done|by apply publish_shape|done].
Qed.

Lemma handleClose_good c x fs : acct c x -> 0 <= x -> shape c -> good c x fs (handleClose c fs).
Proof.
  intros Ha Hx Hs. destruct (is_state kDisconnected c) eqn:Hd; [unfold handleClose; rewrite Hd; by apply good_same|].
  apply (good_from _ (publishCloseInfo PeerEof 0 c)); [apply publish_keeps, Hs|].
  apply closed_good; [by apply publish_acct|done|by apply publish_shape|by eapply handleClose_spec].
Qed.

Lemma publish_handleClose_good r n c x fs :
  acct c x -> 0 <= x -> shape c -> good c x fs (handleClose (publishCloseInfo r n c) fs).
Proof.
  intros Ha Hx Hs. apply (good_from _ (publishCloseInfo r n c)); [apply publish_keeps, Hs|].
  apply handleClose_good; [by apply publish_acct|done|by apply publish_shape].
Qed.

(** Taking the channel away from a connection that is not open. *)
Lemma removeChannel_spec c :
  exists r rd wr, removeChannelRegistrationInLoop c = set_removed r (set_reading rd (set_writing wr c)) /\
    (channelRemoved_ c = true -> r = true) /\ (channelAdded_ c = true -> r = true) /\ (writing c = false -> wr = false).
Proof.
  unfold removeChannelRegistrationInLoop, isNoneEvent, disableAll.
  destruct c as [st ph ad rm rd wr so sh inb outb ac en w bits gr fo ls dr ts fa wn tk lg]. simpl.
  destruct ad, rm; simpl; [exists true, rd, wr; done|destruct rd, wr; exists true, false, false; done|
    exists true, rd, wr; done|exists false, rd, wr; done].
Qed.

Lemma destroy_rest_good c x fs : acct c x -> shape c -> opened c = false -> good c x fs (destroy_rest c, fs).
Proof.
  intros Ha Hs Hop. unfold destroy_rest. destruct (channelAdded_ c) eqn:Hadd; simpl negb; cbv iota.
  - destruct (removeChannel_spec c) as (r & rd & wr & E & Hr & Hr' & Hw). rewrite E.
    split; [by apply (acct_ext c)| |by apply keeps_ext|done]. destruct Hs as [S1 S2 S3 S4 S5 S6 S7 S8].
    split; try done; simpl fst; unfold detachLifecycleNode.
    + change (opened c = true -> registered (set_lifecycle None (set_removed r (set_reading rd (set_writing wr c)))) = true /\
        closePhase_ c = Open /\ active_ c = true /\ is_Some (None (A := bool))). congruence.
    + change (opened c = true -> wr = negb (zlen (outputBuffer_ c) =? 0) /\ rd = readingEnabled_ c /\
        (if readingEnabled_ c then zlen (outputBuffer_ c) < highWaterMarkBytes o else lowWaterMarkBytes o < zlen (outputBuffer_ c)) /\
        written c ++ outputBuffer_ c = taken c). congruence.
    + simpl. rewrite Hr' by done. done.
  - split; [by apply (acct_ext c)| |by apply keeps_ext|done]. destruct Hs as [S1 S2 S3 S4 S5 S6 S7 S8].
    split; try done; simpl fst; unfold detachLifecycleNode.
    change (opened c = true -> registered (set_lifecycle None (set_removed true (set_phase Closed (set_socket false c)))) = true /\
      Closed = Open /\ active_ c = true /\ is_Some (None (A := bool))). congruence.
Qed.

(** [connectDestroyed] up to the connection callback. *)
Definition destroy_state (c : TcpConnection) : TcpConnection :=
  setState kDisconnected (clearBufferedOutputInLoop (onClosed c)).

Lemma destroy_state_good c x : acct c x -> 0 <= x -> shape c ->
  acct (destroy_state c) x /\ shape (destroy_state c) /\ keeps c (destroy_state c).
Proof.
  intros Ha Hx Hs. unfold destroy_state.
  assert (acct (onClosed c) x) as Ha1 by (by apply (acct_ext c)).
  destruct (clear_form (onClosed c) x Ha1 Hx) as (l & E & Hl & _). pose proof (clear_acct _ x Ha1 Hx) as Ha2. rewrite E in *.
  split_and!; [apply (acct_ext _ _ _ Ha2); done|destruct Hs; by split|].
  apply keeps_ext; try done; simpl; [|by destruct (state_ c)].
  destruct (word_minus (pendingOutputBytes_ c) (zlen (outputBuffer_ c)) (ac_word _ _ Ha)) as (_ & _ & ->); [|done].
  pose proof (ac_count _ _ Ha). pose proof (task_held_nonneg (tasks c)). unfold zlen in *. lia.
Qed.

Lemma destroyed_good c x fs : acct c x -> 0 <= x -> shape c -> good c x fs (connectDestroyed c fs).
Proof.
  intros Ha Hx Hs. destruct (destroy_state_good c x Ha Hx Hs) as (Ha2 & Hs2 & Hk). apply (good_from _ _ _ _ _ Hk).
  unfold connectDestroyed. change (setState kDisconnected _) with (destroy_state c).
  destruct (_ && _); [by apply good_note|by apply destroy_rest_good].
Qed.

Lemma after_close_good failed c x fs : acct c x -> 0 <= x -> shape c -> good c x fs (after_close failed c fs).
Proof. intros. unfold after_close. destruct (_ && _); [by apply destroyed_good|by apply good_same]. Qed.

Lemma call_close_good c x fs : acct c x -> shape c -> good c x fs (call_close c fs).
Proof. intros. destruct (call_close_spec c fs) as [->| ->]; [by apply good_same|by apply good_note]. Qed.

Lemma call_closeInfo_good c x fs : acct c x -> shape c -> good c x fs (call_closeInfo c fs).
Proof. intros. destruct (call_closeInfo_spec c fs) as [->|(e & s & -> & _)]; [by apply good_same|by apply good_note]. Qed.

(** Lifecycle. *)
Lemma shutdown_good c x : acct c x -> shape c -> good c x [] (shutdownInLoop c, []).
Proof.
  intros Ha Hs. unfold shutdownInLoop. destruct (_ && _) eqn:E; [|by apply good_same].
  rewrite !andb_true_iff in E. destruct E as [[[E1 _] _] E2]. zify_bools. destruct Ha as [Hw Hc Hl Hf Hsh Hg]. split.
  - split; simpl; try done. auto.
  - destruct Hs. by split.
  - split; try done. intros i Hi. by exists i.
  - done.
Qed.

Lemma disconnecting_good c x : is_state kConnected c = true -> acct c x -> shape c -> good c x [] (setState kDisconnecting c, []).
Proof.
  intros Hc Ha Hs. assert (state_ c = kConnected) as Hst by (by apply bool_decide_eq_true in Hc).
  split; [by apply (acct_ext c)| |apply keeps_ext; try done; simpl; rewrite Hst; simpl; lia|done].
  destruct Hs as [S1 S2 S3 S4 S5 S6 S7 S8]. assert (opened c = true) as Hop by (unfold opened; by rewrite Hc).
  split; simpl; try done; intros _; auto.
Qed.

Lemma good_chain c0 x r1 r2 : good c0 x [] (r1, []) -> good r1 x [] (r2, []) -> good c0 x [] (r2, []).
Proof. intros [H1 H2 H3 H4] H. by eapply good_from. Qed.

Lemma drive_graceful_good c x : acct c x -> shape c -> good c x [] (drive_graceful c, []).
Proof.
  intros Ha Hs. unfold drive_graceful. destruct (gracefulShutdownRequested_ c); [|by apply good_same].
  set (c1 := if is_state kConnected c then _ else _).
  assert (good c x [] (c1, [])) as Hg.
  { unfold c1. destruct (is_state kConnected c) eqn:E; [by apply disconnecting_good|by apply good_same]. }
  destruct (is_state kDisconnecting c1); [|done]. eapply good_chain; [done|]. apply shutdown_good; apply Hg.
Qed.

Lemma drive_rest_good c x : acct c x -> shape c -> good c x [] (drive_rest c, []).
Proof.
  intros Ha Hs. eapply (good_chain _ _ (set_force false c)).
  - split; [by apply (acct_ext c)|destruct Hs; by split|by apply keeps_ext|done].
  - apply drive_graceful_good; [by apply (acct_ext c)|destruct Hs; by split].
Qed.

Lemma settle_good c0 x fs r : good c0 x fs r -> good c0 x fs (settle r).
Proof.
  intros [Ha Hs Hk Hf]. destruct r as [c [|[] fs']]; try done. simpl in *.
  destruct (drive_rest_good c x Ha Hs) as [H1 H2 H3 _]. split; try done. by eapply keeps_trans.
Qed.

Lemma drive_good c x fs : acct c x -> 0 <= x -> shape c -> good c x fs (driveLifecycleInLoop c fs).
Proof.
  intros Ha Hx Hs. unfold driveLifecycleInLoop. destruct (forceCloseRequested_ c).
  - assert (good c x (FDriveRest :: fs) (forceCloseInLoop c (FDriveRest :: fs))) as [H1 H2 H3 H4].
    { unfold forceCloseInLoop. destruct (_ || _); [by apply begin_good|by apply good_same]. }
    apply settle_good. by split.
  - by destruct (drive_graceful_good c x Ha Hs).
Qed.

(** *** Backpressure *)

(** The controller and the channel's read interest agree, by hysteresis. *)
Lemma apply_form n c : active_ c = true -> reading c = readingEnabled_ c ->
  exists e, apply n c = set_reading e (set_enabled e c) /\
    (if e then n < highWaterMarkBytes o else lowWaterMarkBytes o < n).
Proof.
  destruct marks as (_ & Hm & _). intros Hac Hr. unfold apply. rewrite Hac. cbn [negb].
  destruct c as [st ph ad rm rd wr so sh inb outb ac en w bits gr fo ls dr ts fa wn tk lg]. simpl in Hac, Hr |- *. subst rd.
  destruct en; simpl.
  - destruct (highWaterMarkBytes o <=? n) eqn:E; zify_bools; [exists false|exists true]; (split; [done|lia]).
  - destruct (n <=? lowWaterMarkBytes o) eqn:E; zify_bools; [exists true|exists false]; (split; [done|lia]).
Qed.

Lemma is_state_eq s c : is_state s c = true <-> state_ c = s.
Proof. apply bool_decide_eq_true. Qed.

Lemma zlen_nil {A} (l : list A) : zlen l = 0 -> l = [].
Proof. destruct l; [done|]. unfold zlen. simpl. lia. Qed.

Lemma established_good attached c x fs : acct c x -> shape c -> good c x fs (connectEstablished attached c fs).
Proof.
  intros Ha Hs. unfold connectEstablished.
  destruct (negb (is_state kConnecting c) || channelRemoved_ c) eqn:E; [by apply good_same|].
  apply orb_false_iff in E as [Hst%negb_false_iff%is_state_eq Hr].
  assert (opened c = false) as Hop by (unfold opened, is_state; by rewrite Hst).
  destruct (sh_closed c Hs Hop) as [Hout Hact]. destruct (sh_new c Hs Hst Hr) as (Hwt & Hph & Hwr).
  destruct attached; simpl negb; cbv iota.
  - set (c1 := setState kConnected _).
    assert (applyBackpressureInLoop c1 = c1) as ->.
    { unfold applyBackpressureInLoop, apply, c1. simpl. by rewrite Hact. }
    unfold onConnectionEstablished.
    destruct (apply_form (zlen (outputBuffer_ c1)) (set_enabled true (set_active true c1)) eq_refl eq_refl) as (e & -> & He).
    set (c2 := set_reading _ _).
    assert (acct c2 x) as Ha2 by (by apply (acct_ext c)).
    assert (shape c2) as Hs2.
    { destruct Hs as [S1 S2 S3 S4 S5 S6 S7 S8]. split; try done; intros _; simpl.
      - unfold registered. simpl. rewrite Hr. split_and!; [done|done|done|by eexists].
      - simpl in He. rewrite Hout in *. rewrite Hwr, app_nil_r. split_and!; done. }
    assert (keeps c c2) as Hk by (apply keeps_ext; try done; simpl; rewrite Hst; simpl; lia).
    apply (good_from _ c2); [done|]. destruct (connectionCallback_ cb); [by apply good_note|by apply good_same].
  - destruct (removeChannel_spec (set_added true (set_reading true c))) as (r & rd & wr & -> & _ & Hr' & Hw).
    split; [by apply (acct_ext c)| |by apply keeps_ext|done]. destruct Hs as [S1 S2 S3 S4 S5 S6 S7 S8].
    split; try done; simpl fst; simpl.
    + change (opened c = true -> registered (set_phase Closed (set_socket false (set_added false (set_removed r (set_reading rd (set_writing wr
        (set_added true (set_reading true c)))))))) = true /\ Closed = Open /\ active_ c = true /\ is_Some (lifecycleSource_ c)). congruence.
    + change (opened c = true -> wr = negb (zlen (outputBuffer_ c) =? 0) /\ rd = readingEnabled_ c /\
        (if readingEnabled_ c then zlen (outputBuffer_ c) < highWaterMarkBytes o else lowWaterMarkBytes o < zlen (outputBuffer_ c)) /\
        written c ++ outputBuffer_ c = taken c). congruence.
    + simpl in Hr'. rewrite Hr' by done. done.
Qed.

(** *** Events *)

Lemma queue_good c x t (room : bool) :
  task_held t = 0 -> acct c x -> shape c ->
  good c x [] (if room then set_tasks (tasks c ++ [t]) c else recordDroppedNotification c, []).
Proof.
  intros Ht [Hw Hc Hl Hf Hsh Hg] Hs. destruct room.
  - split; [|destruct Hs; by split|by apply keeps_ext|done]. split; simpl; try done.
    rewrite zsum_app. simpl. rewrite Ht. lia.
  - split; [by split|destruct Hs; by split|by apply keeps_ext|done].
Qed.

Lemma queueWriteComplete_good room c x : acct c x -> shape c -> good c x [] (queueWriteComplete room c, []).
Proof.
  intros Ha Hs. unfold queueWriteComplete. destruct (negb _); [by apply good_same|]. by apply queue_good.
Qed.

Lemma maybeQueueHighWaterMark_good room a b c x : acct c x -> shape c -> good c x [] (maybeQueueHighWaterMark room a b c, []).
Proof.
  intros Ha Hs. unfold maybeQueueHighWaterMark. destruct (_ || _); [by apply good_same|].
  destruct (_ && _); [|by apply good_same]. by apply queue_good.
Qed.

Lemma closeOnInputLimit_good c x fs : acct c x -> 0 <= x -> shape c -> good c x fs (closeOnInputLimitInLoop c fs).
Proof.
  intros. unfold closeOnInputLimitInLoop. destruct (negb _); [by apply good_same|by apply publish_handleClose_good].
Qed.

Lemma handleRead_good r e c x fs cf :
  acct c x -> 0 <= x -> shape c -> handleRead r e c fs = Some cf -> good c x fs cf.
Proof.
  intros Ha Hx Hs Hr. unfold handleRead in Hr. destruct (_ =? 0) eqn:E0; [injection Hr as <-; by apply closeOnInputLimit_good|].
  destruct r as [bytes| |err].
  - destruct (_ || _) eqn:Eb; [done|]. apply orb_false_iff in Eb as [_ Eb]. zify_bools.
    unfold remainingInputCapacity in *. destruct (_ <=? _) eqn:El; [done|]. zify_bools.
    set (c1 := set_input _ c) in Hr.
    assert (acct c1 x) as Ha1 by (by apply (acct_ext c)).
    assert (shape c1) as Hs1.
    { destruct Hs as [S1 S2 S3 S4 S5 S6 S7 S8]. split; try done. simpl. unfold zlen in *. rewrite length_app. lia. }
    assert (keeps c c1) as Hk by (by apply keeps_ext).
    destruct (_ && _); injection Hr as <-; apply (good_from _ c1 _ _ _ Hk);
      [by apply good_note|by apply closeOnInputLimit_good].
  - injection Hr as <-. by apply publish_handleClose_good.
  - destruct (_ || _); injection Hr as <-; [by apply good_same|by apply publish_handleClose_good].
Qed.

(** The count is positive while bytes are buffered. *)
Lemma buffered_le c x : acct c x -> 0 <= x -> zlen (outputBuffer_ c) + x <= byte_count (pendingOutputBytes_ c).
Proof. intros Ha Hx. pose proof (ac_count _ _ Ha). pose proof (task_held_nonneg (tasks c)). lia. Qed.

Lemma handleWrite_good r e room c x fs cf :
  acct c x -> 0 <= x -> shape c -> opened c = true -> handleWrite r e room c fs = Some cf -> good c x fs cf.
Proof.
  intros Ha Hx Hs Hop Hw. unfold handleWrite in Hw. destruct (negb (writing c)) eqn:Ewr; [injection Hw as <-; by apply good_same|].
  apply negb_false_iff in Ewr. destruct r as [n|err].
  2: { destruct (_ || _); injection Hw as <-; [by apply good_same|by apply publish_handleClose_good]. }
  destruct (_ || _) eqn:En; [done|]. apply orb_false_iff in En as [En0 En1].
  destruct (n =? 0) eqn:En2; [injection Hw as <-; by apply good_same|]. zify_bools.
  destruct (sh_open c Hs Hop) as (Hreg & Hph & Hact & Hlc). destruct (sh_flow c Hs Hop) as (_ & Hrd & _ & Hst).
  pose proof (buffered_le c x Ha Hx) as Hbuf.
  set (data := take (Z.to_nat n) (outputBuffer_ c)) in Hw. set (rest := drop (Z.to_nat n) (outputBuffer_ c)) in Hw.
  assert (outputBuffer_ c = data ++ rest) as Hsplit by (symmetry; apply take_drop).
  assert (zlen rest = zlen (outputBuffer_ c) - n) as Hlen by (unfold rest, zlen in *; rewrite length_drop; lia).
  set (c1 := set_output rest (set_written (written c ++ data) c)) in Hw.
  change (set_output _ _) with c1 in Hw.
  assert (acct c1 (x + n)) as Ha1.
  { destruct Ha as [A1 A2 A3 A4 A5 A6]. split; simpl; try done. lia. }
  assert (writeShut c = false) as Hns.
  { destruct (writeShut c) eqn:E; [|done]. destruct (ac_shut _ _ Ha E). lia. }
  destruct (release_form n c1 (ac_word _ _ Ha1)) as (l & Erel & Hl & _); [simpl; lia|].
  pose proof (release_acct n c1 x Ha1 ltac:(lia) Hx) as Ha2. rewrite Erel in Hw, Ha2.
  set (c2 := set_lifecycle l _) in *.
  destruct (apply_form (zlen (outputBuffer_ c2)) c2 Hact Hrd) as (b & Eap & Hb).
  change (applyBackpressureInLoop c2) with (apply (zlen (outputBuffer_ c2)) c2) in Hw. rewrite Eap in Hw.
  set (c3 := set_reading b (set_enabled b c2)) in *. simpl in Hb.
  assert (acct c3 x) as Ha3 by (by apply (acct_ext c2)).
  assert (keeps c c3) as Hk3.
  { split; simpl; try done.
    - by destruct (word_minus (pendingOutputBytes_ c) n (ac_word _ _ Ha) ltac:(lia)) as (_ & _ & ->).
    - congruence.
    - by eexists.
    - intros i Hi. by exists i. }
  assert (forall wr, wr = negb (zlen rest =? 0) -> shape (set_writing wr c3)) as Hs3.
  { intros wr Ewr'. destruct Hs as [S1 S2 S3 S4 S5 S6 S7 S8]. split; simpl; try done.
    - intros _. split_and!; [done|done|done|by apply Hl].
    - intros _. split_and!; [done|done|done|]. by rewrite <- app_assoc, <- Hsplit.
    - change (opened c = false -> rest = [] /\ active_ c = false). congruence.
    - intros Hc. unfold opened, is_state in Hop. by rewrite Hc in Hop.
    - rewrite <- Hst, Hsplit. exists rest. by rewrite app_assoc. }
  change (outputBuffer_ c3) with rest in Hw. destruct (zlen rest =? 0) eqn:Ez.
  - injection Hw as <-. set (c4 := set_writing false c3).
    assert (good c x [] (c4, [])) as Hg4.
    { split; [by apply (acct_ext c3)|by apply Hs3|apply (keeps_trans _ c3); [done|by apply keeps_ext]|done]. }
    assert (good c x [] (if is_state kDisconnecting c4 then shutdownInLoop c4 else c4, [])) as Hg5.
    { destruct (is_state kDisconnecting c4); [|done]. eapply good_chain; [done|]. apply shutdown_good; apply Hg4. }
    destruct (good_chain c x _ (queueWriteComplete room (if is_state kDisconnecting c4 then shutdownInLoop c4 else c4)) Hg5) as [G1 G2 G3 _];
      [apply queueWriteComplete_good; apply Hg5|]. done.
  - injection Hw as <-. specialize (Hs3 true eq_refl).
    assert (set_writing true c3 = c3) as E3 by (unfold c3, c2, c1; clear -Ewr; destruct c; simpl in *; by subst).
    rewrite E3 in Hs3. done.
Qed.

(** *** Sends *)

Lemma shut_nothing c x : acct c x -> writeShut c = true -> zlen (outputBuffer_ c) + zsum task_held (tasks c) + x = 0.
Proof. intros Ha H. destruct (ac_shut _ _ Ha H). pose proof (ac_count _ _ Ha). lia. Qed.

Lemma buffer_rest_good ch rest c x :
  acct c (x + zlen rest) -> 0 <= x -> shape c -> opened c = true -> 0 < zlen rest ->
  good c x [] (fst (buffer_rest ch rest c), []).
Proof.
  intros Ha Hx Hs Hop Hlen. unfold buffer_rest. destruct (negb (ch_memory ch)); simpl fst.
  { split; [apply release_acct; (done || lia)|eapply release_shape; (done || lia)|eapply release_keeps; (done || lia)|done]. }
  destruct (sh_open c Hs Hop) as (Hreg & Hph & Hact & Hlc). destruct (sh_flow c Hs Hop) as (_ & Hrd & _ & Hst).
  set (c1 := set_taken _ _). unfold applyBackpressureInLoop.
  destruct (apply_form (zlen (outputBuffer_ c1)) c1 Hact Hrd) as (b & -> & Hb).
  set (c2 := if writing _ then _ else _).
  assert (c2 = set_writing true (set_reading b (set_enabled b c1))) as E2.
  { unfold c2, c1. clear. destruct c; simpl. by destruct writing0. }
  assert (acct c2 x) as Ha2.
  { rewrite E2. destruct Ha as [A1 A2 A3 A4 A5 A6]. split; simpl; try done. unfold zlen in *. rewrite length_app. lia. }
  assert (shape c2) as Hs2.
  { rewrite E2. destruct Hs as [S1 S2 S3 S4 S5 S6 S7 S8]. split; simpl; try done.
    - intros _. split_and!; [|done|done|].
      + symmetry. apply negb_true_iff, Z.eqb_neq. unfold zlen in *. rewrite length_app. lia.
      + by rewrite app_assoc, Hst.
    - change (opened c = false -> outputBuffer_ c ++ rest = [] /\ active_ c = false). congruence.
    - intros Hc. unfold opened, is_state in Hop. by rewrite Hc in Hop.
    - by apply prefix_app_r. }
  assert (keeps c c2) as Hk2.
  { rewrite E2. split; simpl; try done; [by apply prefix_app_r|intros i Hi; by exists i]. }
  destruct (maybeQueueHighWaterMark_good (ch_room ch) (zlen (outputBuffer_ c)) (zlen (outputBuffer_ c1)) c2 x Ha2 Hs2) as [G1 G2 G3 _].
  split; try done. by eapply keeps_trans.
Qed.

Lemma good_frames c0 x r fs : good c0 x [] (r, []) -> good c0 x fs (r, fs).
Proof. intros [H1 H2 H3 _]. by split. Qed.

Lemma send_good ch data c x fs cf :
  acct c (x + zlen data) -> 0 <= x -> shape c -> is_state kDisconnected c = true \/ opened c = true ->
  sendReservedInLoop ch data c fs = Some cf -> good c x fs cf.
Proof.
  intros Ha Hx Hs Hst Hsend. assert (0 <= zlen data) as Hlen by (unfold zlen; lia).
  assert (forall n, 0 <= n <= zlen data -> good c (x + (zlen data - n)) [] (releaseOutputBytes n c, [])) as Hrel.
  { intros n Hn. assert (acct c (x + (zlen data - n) + n)) as Ha' by (by replace (x + (zlen data - n) + n) with (x + zlen data) by lia).
    split; [apply release_acct; (done || lia)|eapply release_shape; (done || lia)|eapply release_keeps; (done || lia)|done]. }
  pose proof (Hrel (zlen data) ltac:(lia)) as Hall. replace (x + (zlen data - zlen data)) with x in Hall by lia.
  unfold sendReservedInLoop in Hsend.
  destruct (is_state kDisconnected c) eqn:Hd; [injection Hsend as <-; by apply good_frames|].
  destruct Hst as [?|Hop]; [done|]. destruct (sh_flow c Hs Hop) as (Hwr & Hrd & _ & Hstream).
  assert ((0 <? zlen data) = false -> data = []) as Hnil by (intros Hz; zify_bools; apply zlen_nil; lia).
  assert (good c x fs (if 0 <? zlen data then (fst (buffer_rest ch data c), fs) else (c, fs))) as Hbuf.
  { destruct (0 <? zlen data) eqn:E; [|apply good_same; [|done]; rewrite (Hnil eq_refl) in Ha; by rewrite Z.add_0_r in Ha].
    zify_bools. by apply good_frames, buffer_rest_good. }
  destruct (negb (writing c) && _) eqn:Edirect; [|destruct (0 <? zlen data); by injection Hsend as <-].
  apply andb_true_iff in Edirect as [Ew Eo]. zify_bools. apply zlen_nil in Eo.
  destruct (ch_write ch) as [n|err].
  - destruct (_ || _) eqn:En; [done|]. apply orb_false_iff in En as [En0 En1]. zify_bools.
    specialize (Hrel n ltac:(lia)). set (c1 := set_taken _ _) in Hsend.
    assert (good c (x + (zlen data - n)) [] (c1, [])) as Hg1.
    { destruct Hrel as [G1 G2 G3 _]. destruct (release_form n c (ac_word _ _ Ha)) as (l & Erel & Hl & _).
      { pose proof (buffered_le c _ Ha ltac:(lia)). rewrite Eo in *. unfold zlen in *. simpl in *. lia. }
      unfold c1. rewrite Erel in *. split; simpl.
      - by apply (acct_ext _ _ _ G1).
      - destruct G2 as [S1 S2 S3 S4 S5 S6 S7 S8]. split; simpl; try done.
        + intros Hop'. destruct (S2 Hop') as (? & ? & ? & ?). split_and!; [done|done|done|].
          rewrite Eo, app_nil_r in *. simpl in *. rewrite Eo, app_nil_r in *. congruence.
        + intros Hc. unfold opened, is_state in Hop. by rewrite Hc in Hop.
        + rewrite Eo, app_nil_r in Hstream. by rewrite Hstream.
      - destruct G3 as [K1 K2 K3 K4 K5 K6]. split; simpl; try done.
        + intros Hsh. pose proof (shut_nothing _ _ Ha Hsh). pose proof (task_held_nonneg (tasks c)). split; [done|].
          assert (data = []) as -> by (apply zlen_nil; unfold zlen in *; lia). by rewrite take_nil, app_nil_r.
        + by apply prefix_app_r.
        + by apply prefix_app_r.
      - done. }
    pose proof Hg1 as [G1 G2 G3 _]. simpl in G1, G2.
    destruct (zlen data - n =? 0) eqn:Ez; zify_bools.
    + injection Hsend as <-. rewrite Ez, Z.add_0_r in *. apply good_frames. eapply good_chain; [done|]. by apply queueWriteComplete_good.
    + injection Hsend as <-. apply good_frames, (good_from _ c1); [done|].
      assert (zlen (drop (Z.to_nat n) data) = zlen data - n) as Hd' by (unfold zlen in *; rewrite length_drop; lia).
      apply buffer_rest_good; rewrite ?Hd'; try done; try lia.
      destruct (release_form n c (ac_word _ _ Ha)) as (l & Erel & _).
      { pose proof (buffered_le c _ Ha ltac:(lia)). rewrite Eo in *. unfold zlen in *. simpl in *. lia. }
      unfold c1. by rewrite Erel.
  - destruct (isWouldBlock err || isInterrupted err); [destruct (0 <? zlen data); by injection Hsend as <-|].
    injection Hsend as <-. destruct Hall as [G1 G2 G3 _]. simpl in *. apply (good_from _ _ _ _ _ G3).
    by apply publish_handleClose_good.
Qed.

(** *** Programs *)

(** A close request that is past its seal. *)
Definition past_seal (p : Prog) : bool :=
  match p with PClose _ (ClosePublish _ | CloseFlag _ | CloseSignal) => true | _ => false end.

Definition prog_ok (c : TcpConnection) (p : Prog) : Prop :=
  past_seal p = true -> sealed (pendingOutputBytes_ c) = true.

Lemma prog_ok_keeps c c' p : keeps c c' -> prog_ok c p -> prog_ok c' p.
Proof. intros Hk Hp H. apply (kp_sealed _ _ Hk). auto. Qed.

(** Adding to an unsealed word. *)
Lemma word_plus w n : 0 <= w < usize_lim -> sealed w = false -> 0 <= n -> byte_count w + n <= kOutputByteCountMask ->
  0 <= w ⊕ n < usize_lim /\ byte_count (w ⊕ n) = byte_count w + n /\ sealed (w ⊕ n) = false.
Proof.
  intros Hw Hs Hn Hl. destruct (word_split w Hw) as [E Hb]. rewrite Hs in E. unfold kOutputByteCountMask in Hl.
  rewrite uwrap_small by lia. pose proof (word_unique (byte_count w + n) false ltac:(lia)) as [E1 E2].
  replace (byte_count w + n + 0) with (w + n) in * by lia. split_and!; (done || lia).
Qed.

Lemma give_back_good data c x :
  acct c (x + zlen data) -> 0 <= x -> shape c ->
  let r := give_back data c in acct (fst r) x /\ shape (fst r) /\ keeps c (fst r) /\
  (snd r = Return \/ snd r = Go (PSend data SignalDrained) /\ sealed (pendingOutputBytes_ c) = true).
Proof.
  intros Ha Hx Hs. assert (0 <= zlen data) by (unfold zlen; lia). pose proof (buffered_le c _ Ha ltac:(lia)).
  assert (0 <= zlen (outputBuffer_ c)) by (unfold zlen; lia).
  destruct (word_minus (pendingOutputBytes_ c) (zlen data) (ac_word _ _ Ha) ltac:(lia)) as (Hw & Hc & Hse).
  unfold give_back. rewrite (proj2 (Z.ltb_ge _ _)) by lia.
  assert (acct (set_word (pendingOutputBytes_ c ⊖ zlen data) c) x) as Ha'.
  { destruct Ha as [A1 A2 A3 A4 A5 A6]. split; simpl; rewrite ?Hc, ?Hse; try done; try lia.
    intros Hsh. destruct (A5 Hsh) as [-> ?]. split; [done|lia]. }
  assert (shape (set_word (pendingOutputBytes_ c ⊖ zlen data) c)) as Hs' by (destruct Hs; by split).
  assert (keeps c (set_word (pendingOutputBytes_ c ⊖ zlen data) c)) as Hk' by (apply keeps_ext; try done; simpl; by rewrite Hse).
  destruct (_ && _) eqn:E; simpl.
  - apply andb_true_iff in E as [E _]. split_and!; [done|done|done|by right].
  - split_and!; [done|done|done|by left].
Qed.

Lemma signal_form c : exists l, fst (signalLifecycle c) = set_lifecycle l c /\ (is_Some l <-> is_Some (lifecycleSource_ c)) /\
  (is_Some (lifecycleSource_ c) -> l = Some true).
Proof.
  unfold signalLifecycle. destruct (lifecycleSource_ c) as [b|] eqn:E; simpl; [by exists (Some true)|].
  exists None. split_and!; [destruct c; simpl in *; by subst|done|]. by intros [].
Qed.

Lemma signal_good c x : acct c x -> shape c -> good c x [] (fst (signalLifecycle c), []).
Proof.
  intros Ha Hs. destruct (signal_form c) as (l & -> & Hl & _).
  split; [by apply (acct_ext c)|apply (shape_word (pendingOutputBytes_ c)) with (l := l) in Hs; [|done]|by apply keeps_ext|done].
  by destruct Hs; split.
Qed.

Lemma prog_step_good inLoop ch p c x c' nx :
  acct c (x + prog_held p) -> 0 <= x -> shape c -> prog_ok c p -> prog_step inLoop ch p c = Some (c', nx) ->
  keeps c c' /\ shape c' /\
  match nx with
  | Go p' => acct c' (x + prog_held p') /\ prog_ok c' p'
  | Return => acct c' x
  | RunSend data => acct c' (x + zlen data) /\ is_state kConnected c' = true
  | RunDrive => acct c' x
  end.
Proof.
  intros Ha Hx Hs Hp Hst.
  destruct p as [data pc|force pc].
  - destruct pc; simpl in Hst, Ha; rewrite ?Z.add_0_r in Ha.
    + destruct (sealed _); injection Hst as <- <-; (split; [apply keeps_same|split; [done|]]); [done|]. simpl. rewrite Z.add_0_r. done.
    + destruct (gracefulShutdownRequested_ c); injection Hst as <- <-; (split; [apply keeps_same|split; [done|]]); [done|].
      simpl. rewrite Z.add_0_r. done.
    + destruct (forceCloseRequested_ c); injection Hst as <- <-; (split; [apply keeps_same|split; [done|]]); [done|].
      simpl. rewrite Z.add_0_r. done.
    + destruct (_ =? 0); [|destruct (negb _)]; injection Hst as <- <-; (split; [apply keeps_same|split; [done|]]); try done.
      simpl. rewrite Z.add_0_r. done.
    + destruct (negb (ch_acquire ch)); [|destruct (sealed _) eqn:Ese; [|destruct (_ <? _) eqn:El]];
        injection Hst as <- <-; try (split; [apply keeps_same|by split]). zify_bools.
      pose proof output_limit_bound. assert (0 <= zlen data) by (unfold zlen; lia).
      destruct (word_plus (pendingOutputBytes_ c) (zlen data) (ac_word _ _ Ha) Ese ltac:(done) ltac:(lia)) as (Hw & Hc & Hse).
      split; [apply keeps_ext; try done; simpl; congruence|]. split; [destruct Hs; by split|]. split; [|done].
      destruct Ha as [A1 A2 A3 A4 A5 A6]. simpl. split; simpl; rewrite ?Hc, ?Hse; try done; try lia.
      * intros Hsh. destruct (A5 Hsh). congruence.
      * intros Hg. apply A6 in Hg. congruence.
    + destruct (ch_budgets ch); try discriminate Hst; injection Hst as <- <-; (split; [apply keeps_same|by split]).
    + destruct inLoop; [destruct (is_state kConnected c) eqn:Ec; injection Hst as <- <-; (split; [apply keeps_same|by split])|].
      destruct (negb _); [injection Hst as <- <-; (split; [apply keeps_same|by split])|].
      destruct (ch_post ch); injection Hst as <- <-; try (split; [apply keeps_same|by split]).
      split; [by apply keeps_ext|]. split; [destruct Hs; by split|].
      destruct Ha as [A1 A2 A3 A4 A5 A6]. split; simpl; try done. rewrite zsum_app. simpl. lia.
    + injection Hst as Hst. destruct (give_back_good data c x Ha Hx Hs) as (G1 & G2 & G3 & G4). rewrite Hst in *. simpl in *.
      split_and!; [done|done|]. destruct G4 as [->|[-> _]]; [done|]. simpl. by rewrite Z.add_0_r.
    + injection Hst as <- <-. destruct (signal_good c x Ha Hs) as [G1 G2 G3 _]. done.
  - simpl in Ha. rewrite Z.add_0_r in Ha. destruct pc as [| |first|first|]; simpl in Hst.
    + destruct (is_state _ _); injection Hst as <- <-; (split; [apply keeps_same|split; [done|]]); [done|]. simpl. by rewrite Z.add_0_r.
    + injection Hst as <- <-. destruct (word_seal _ (ac_word _ _ Ha)) as (Hw & Hc & Hse).
      split; [by apply keeps_ext|]. split; [destruct Hs; by split|]. simpl. rewrite Z.add_0_r. split; [|intros _; done].
      destruct Ha as [A1 A2 A3 A4 A5 A6]. split; simpl; rewrite ?Hc, ?Hse; try done. intros Hsh. by destruct (A5 Hsh).
    + injection Hst as <- <-. split; [apply publish_keeps, Hs|]. split; [by apply publish_shape|].
      simpl. rewrite Z.add_0_r. split; [by apply publish_acct|exact Hp].
    + injection Hst as <- <-. specialize (Hp eq_refl).
      destruct force; [|destruct first]; (split; [apply keeps_same || by apply keeps_ext|]); (split; [destruct Hs; by split|]);
        simpl; rewrite Z.add_0_r; (split; [|intros _; done]); [by apply (acct_ext c)| |done].
      destruct Ha. by split.
    + destruct inLoop; injection Hst as <- <-; [split; [apply keeps_same|done]|].
      destruct (signal_good c x Ha Hs) as [G1 G2 G3 _]. done.
Qed.

(** *** Callbacks *)

(** How far the connection's story has been told: 0 nothing, 1 established, 2
    disconnected, 3 close information, 4 close.  It begins with the established
    callback (if there is none, at 1); a message comes only while it stands at 1,
    and an end only from 1 on; no step of it comes twice or after a later one, and
    close information comes only when there is some.  Write-complete and high-water notifications
    are posted, and may run after the end, but not before the beginning. *)
Definition watch (r : Z) (e : Event) : option Z :=
  match e with
  | EEstablished => if r =? 0 then Some 1 else None
  | EMessage => if r =? 1 then Some 1 else None
  | EWriteComplete | EHighWaterMark _ => if 1 <=? r then Some r else None
  | EDisconnected => if r =? 1 then Some 2 else None
  | ECloseInfo None => None
  | ECloseInfo (Some _) => if (1 <=? r) && (r <? 3) then Some 3 else None
  | EClose => if (1 <=? r) && (r <? 4) then Some 4 else None
  end.

(** Where a story begins. *)
Definition prologue : Z := if connectionCallback_ cb then 0 else 1.

Definition story (l : list Event) : option Z := foldl (fun r e => match r with Some r => watch r e | None => None end) (Some prologue) l.

Lemma prologue_bound : 0 <= prologue <= 1.
Proof. unfold prologue. case_match; lia. Qed.

(** What there is before the connection is established: no notification is posted, and the
    owner is inside no callback. *)
Definition quiet_task (t : Task) : bool := match t with TSend _ => true | _ => false end.
Definition quiet_frame (f : Frame) : bool := match f with FCall _ | FDriveRest => true | _ => false end.

Lemma story_note e c : story (log (note e c)) = match story (log c) with Some r => watch r e | None => None end.
Proof. unfold story. simpl. by rewrite foldl_app. Qed.

Definition stage_rank (s : CloseStage) : Z := match s with AtDisconnected => 2 | AtCloseInfo => 3 | AtClose => 4 end.

(** The frames that end a connection. *)
Definition ending (f : Frame) : bool := match f with FClosing _ | FDestroying => true | _ => false end.

Record tale (c : TcpConnection) (fs : list Frame) : Prop := {
  tl_one : (length (List.filter ending fs) <= 1)%nat;
  tl_ended : List.filter ending fs <> [] -> state_ c = kDisconnected;
  tl_registered : registered c = true -> opened c = true \/ In FDestroying fs;
  tl_story : exists r, story (log c) = Some r /\ (state_ c = kConnecting -> r = prologue) /\
    (opened c = true -> r = 1) /\ (forall s, In (FClosing s) fs -> r = stage_rank s) /\ 0 <= r;
  tl_info : forall s, In (FClosing s) fs -> closeInfo c <> None;
  tl_begun : state_ c = kConnecting -> forallb quiet_frame fs = true;
  tl_posted : forallb quiet_task (tasks c) = true \/ exists r, story (log c) = Some r /\ 1 <= r /\ state_ c <> kConnecting;
}.

(** What an action leaves of what the tale looks at. *)
Record still (c c' : TcpConnection) : Prop := {
  st_state : state_ c' = state_ c;
  st_registered : registered c' = registered c;
  st_log : log c' = log c;
  st_info : closeInfo c <> None -> closeInfo c' <> None;
  st_tasks : opened c = true \/ (forallb quiet_task (tasks c) = true -> forallb quiet_task (tasks c') = true);
}.

Lemma still_same c c' : state_ c' = state_ c -> registered c' = registered c -> log c' = log c ->
  (closeInfo c <> None -> closeInfo c' <> None) -> tasks c' = tasks c -> still c c'.
Proof. intros. split; try done. right. congruence. Qed.

Lemma still_refl c : still c c.
Proof. by apply still_same. Qed.

Lemma opened_state c c' : state_ c' = state_ c -> opened c' = opened c.
Proof. unfold opened, is_state. by intros ->. Qed.

Lemma still_trans c1 c2 c3 : still c1 c2 -> still c2 c3 -> still c1 c3.
Proof.
  intros [A1 A2 A3 A4 A5] [B1 B2 B3 B4 B5]. split; try congruence; [auto|].
  rewrite (opened_state c1 c2) in B5 by done. tauto.
Qed.

Lemma tale_still c c' fs : still c c' -> tale c fs -> tale c' fs.
Proof.
  intros [E1 E2 E3 E4 E5] [T1 T2 T3 T4 T5 T6 T7]. pose proof (opened_state c c' E1) as Eo.
  split; rewrite ?E1, ?E2, ?E3, ?Eo; try done; [intros s Hs; apply E4; eauto|].
  destruct T7 as [T7|T7]; [|by right]. destruct E5 as [Hop|E5]; [right|left; auto]. destruct T4 as (r & Hr & _ & Hr1 & _).
  exists r. split; [done|]. rewrite Hr1 by done. split; [lia|]. intros E. unfold opened, is_state in Hop. by rewrite E in Hop.
Qed.

Ltac still_by_cases := repeat case_match; (apply still_refl || by apply still_same).

Lemma release_still n c : still c (releaseOutputBytes n c).
Proof. unfold releaseOutputBytes, signalLifecycle. still_by_cases. Qed.

Lemma apply_still n c : still c (apply n c).
Proof. unfold apply. still_by_cases. Qed.

Lemma publish_still r n c : info_ok (closeInfoBits_ c) -> still c (publishCloseInfo r n c).
Proof.
  intros Hok. apply still_same; try done. intros H. destruct (closeInfo c) as [i|] eqn:E; [|done].
  destruct (kp_info _ _ (publish_keeps r n c Hok) i E) as (i' & -> & _). done.
Qed.

Lemma queueWriteComplete_still room c : opened c = true -> still c (queueWriteComplete room c).
Proof. intros Hop. unfold queueWriteComplete. repeat case_match; split; try done; by left. Qed.

Lemma maybeQueueHighWaterMark_still room a b c : opened c = true -> still c (maybeQueueHighWaterMark room a b c).
Proof. intros Hop. unfold maybeQueueHighWaterMark. repeat case_match; split; try done; by left. Qed.

Lemma shutdown_still c : still c (shutdownInLoop c).
Proof. unfold shutdownInLoop. still_by_cases. Qed.

Lemma buffer_rest_still ch rest c : opened c = true -> still c (fst (buffer_rest ch rest c)).
Proof.
  intros Hop. unfold buffer_rest. destruct (negb _); simpl; [apply release_still|].
  set (c1 := set_taken _ _). assert (still c c1) as H1 by (by apply still_same).
  assert (still c (applyBackpressureInLoop c1)) as H2 by (eapply still_trans; [done|apply apply_still]).
  set (c2 := if writing _ then _ else _). assert (still c c2) as H3.
  { unfold c2. destruct (writing _); [done|]. eapply still_trans; [done|]. by apply still_same. }
  eapply still_trans; [done|]. apply maybeQueueHighWaterMark_still. by rewrite (opened_state c c2 (st_state _ _ H3)).
Qed.

Lemma prog_step_still inLoop ch p c c' nx :
  info_ok (closeInfoBits_ c) -> prog_step inLoop ch p c = Some (c', nx) -> still c c'.
Proof.
  intros Hok Hst. destruct p as [data []|force [| |first|first|]]; simpl in Hst; unfold give_back, signalLifecycle in Hst;
    repeat case_match; simplify_eq; try apply still_refl; try (by apply still_same); try (by apply publish_still).
  all: split; try done; right; simpl; rewrite forallb_app; intros ->; done.
Qed.

(** Frames that do not end the connection. *)
Lemma tale_push c f fs : ending f = false -> (state_ c = kConnecting -> quiet_frame f = true) -> tale c fs -> tale c (f :: fs).
Proof.
  intros Hf Hq [T1 T2 T3 T4 T5 T6 T7]. assert (forall s, In (FClosing s) (f :: fs) -> In (FClosing s) fs) as Hin.
  { intros s [->|?]; [by simpl in Hf|done]. }
  split; simpl List.filter; rewrite ?Hf; try done.
  - intros Hr. destruct (T3 Hr); [by left|right; by right].
  - destruct T4 as (r & ? & ? & ? & ? & ?). exists r. split_and!; eauto.
  - intros s Hs. eauto.
  - intros Hst. simpl. by rewrite Hq, T6.
Qed.

Lemma tale_pop c f fs : ending f = false -> tale c (f :: fs) -> tale c fs.
Proof.
  intros Hf [T1 T2 T3 T4 T5 T6 T7]. simpl List.filter in T1, T2. rewrite Hf in T1, T2.
  split; try done.
  - intros Hr. destruct (T3 Hr) as [?|[->|?]]; [by left|by simpl in Hf|by right].
  - destruct T4 as (r & ? & ? & ? & Hs & ?). exists r. split_and!; try done. intros s Hin. apply Hs. by right.
  - intros s Hin. apply (T5 s). by right.
  - intros Hst. by apply T6, andb_true_iff in Hst as [_ ?].
Qed.

(** Inside a callback that is no quiet frame, the connection is not new. *)
Lemma tale_begun c f fs : tale c (f :: fs) -> quiet_frame f = false -> state_ c <> kConnecting.
Proof. intros Ht Hf Hst. apply (tl_begun _ _ Ht), andb_true_iff in Hst as [? _]. congruence. Qed.

Lemma opened_state_cases c : opened c = true \/ state_ c = kConnecting \/ state_ c = kDisconnected.
Proof. unfold opened, is_state. destruct (state_ c); auto. Qed.

Lemma opened_not_new c : opened c = true -> state_ c <> kConnecting.
Proof. unfold opened, is_state. intros H E. by rewrite E in H. Qed.

Lemma tale_message c fs : opened c = true -> tale c fs -> tale (note EMessage c) fs.
Proof.
  intros Hop [T1 T2 T3 (r & Hr & H1 & H2 & H3 & H4) T5 T6 T7]. rewrite (H2 Hop) in *.
  assert (story (log (note EMessage c)) = Some 1) as Hs by (by rewrite story_note, Hr).
  split; try done; [by exists 1|]. right. exists 1. split; [done|]. split; [lia|]. by apply opened_not_new.
Qed.

Lemma tale_notification e c fs : (forall r, 1 <= r -> watch r e = Some r) ->
  (exists r, story (log c) = Some r /\ 1 <= r /\ state_ c <> kConnecting) -> tale c fs -> tale (note e c) fs.
Proof.
  intros He (r & Hr & Hle & Hst) [T1 T2 T3 (r' & Hr' & H1 & H2 & H3 & H4) T5 T6 T7]. rewrite Hr in Hr'. injection Hr' as <-.
  assert (story (log (note e c)) = Some r) as Hs by (rewrite story_note, Hr; by apply He).
  split; try done; [by exists r|]. right. by exists r.
Qed.

(** No frame ends a connection that is not closed. *)
Lemma no_ending c fs : tale c fs -> state_ c <> kDisconnected -> List.filter ending fs = [].
Proof. intros Ht H. pose proof (tl_ended _ _ Ht). destruct (List.filter ending fs); [done|]. by destruct H; auto. Qed.

Lemma filter_nil_in fs f : List.filter ending fs = [] -> In f fs -> ending f = false.
Proof.
  intros H Hin. destruct (ending f) eqn:E; [|done]. assert (In f (List.filter ending fs)) as H' by (by apply filter_In).
  by rewrite H in H'.
Qed.

Lemma open_not_closed c : opened c = true -> state_ c <> kDisconnected.
Proof. unfold opened, is_state. intros H E. by rewrite E in H. Qed.

Lemma closed_tale c fs r :
  opened c = true -> closed_by c fs r -> tale c fs -> tale (fst r) (snd r).
Proof.
  intros Hst (c' & Hc & Hr) Ht. pose proof (no_ending c fs Ht (open_not_closed c Hst)) as Hnone. destruct Ht as [T1 T2 T3 T4 T5 T6 T7].
  destruct T4 as (k & Hk & _ & Hk1 & _). specialize (Hk1 Hst). subst k.
  destruct Hc as [C1 C2 C3 C4 C5 C6 C7 C8 C9 (_ & _ & C13 & _ & _ & C10) _ [_ C11] _].
  assert (forall s, ~ In (FClosing s) fs) as Hno by (intros s Hin; by apply (filter_nil_in fs) in Hin).
  assert (opened c' = false) as Hcl by (unfold opened, is_state; by rewrite C1).
  assert (state_ c' <> kConnecting) as Hnew by congruence.
  destruct Hr as [->|(e & s & -> & He)]; simpl.
  - split.
    + rewrite Hnone. simpl. lia.
    + done.
    + congruence.
    + exists 1. rewrite C10, C1. split_and!; try done. intros s Hin. by destruct (Hno s).
    + done.
    + congruence.
    + right. exists 1. rewrite C10. by split_and!.
  - assert (story (log (note e c')) = Some (stage_rank s)) as Hs.
    { rewrite story_note, C10, Hk. destruct (closeInfo c') as [i|] eqn:Ei; [|done]. by destruct He as [[-> ->]|[[-> ->]|[-> ->]]]. }
    split.
    + simpl List.filter. rewrite Hnone. simpl. lia.
    + done.
    + intros Hreg. change (registered c' = true) in Hreg. congruence.
    + exists (stage_rank s). simpl state_. rewrite C1. change (opened (note e c')) with (opened c'). rewrite Hcl.
      split_and!; try done; [|by destruct s].
      intros s' [Hs'|Hin]; [by injection Hs' as ->|by destruct (Hno s')].
    + done.
    + done.
    + right. exists (stage_rank s). split; [done|]. split; [destruct s; simpl; lia|done].
Qed.

Lemma begin_tale c x fs : acct c x -> 0 <= x -> shape c -> state_ c <> kConnecting -> tale c fs ->
  tale (fst (beginCloseInLoop c fs)) (snd (beginCloseInLoop c fs)).
Proof.
  intros Ha Hx Hs Hnew Ht. destruct (is_state kDisconnected c) eqn:Hd; [unfold beginCloseInLoop; by rewrite Hd|].
  eapply closed_tale; [|by eapply begin_close_spec|done]. apply bool_decide_eq_false in Hd. by destruct (opened_state_cases c) as [?|[?|?]].
Qed.

Lemma publish_handleClose_tale r n c x fs : acct c x -> 0 <= x -> shape c -> state_ c <> kConnecting -> tale c fs ->
  tale (fst (handleClose (publishCloseInfo r n c) fs)) (snd (handleClose (publishCloseInfo r n c) fs)).
Proof.
  intros Ha Hx Hs Hnew Ht. pose proof (tale_still _ _ _ (publish_still r n c (sh_info c Hs)) Ht) as Ht1.
  unfold handleClose. destruct (is_state kDisconnected _); [done|].
  apply (begin_tale _ x); [by do 2 apply publish_acct|done|by do 2 apply publish_shape|done|].
  eapply tale_still; [|done]. apply publish_still. by apply publish_shape.
Qed.

Lemma handleClose_tale c x fs : acct c x -> 0 <= x -> shape c -> state_ c <> kConnecting -> tale c fs ->
  tale (fst (handleClose c fs)) (snd (handleClose c fs)).
Proof.
  intros Ha Hx Hs Hnew Ht. unfold handleClose. destruct (is_state kDisconnected _); [done|].
  apply (begin_tale _ x); [by apply publish_acct|done|by apply publish_shape|done|].
  eapply tale_still; [|done]. by apply publish_still, Hs.
Qed.

Lemma removeChannel_unregistered c : registered (removeChannelRegistrationInLoop c) = false.
Proof.
  unfold removeChannelRegistrationInLoop, registered. destruct (channelAdded_ c) eqn:Ea, (channelRemoved_ c) eqn:Er; simpl;
    rewrite ?Ea, ?Er; try done. destruct (negb _); simpl; by rewrite andb_false_r.
Qed.

(** [destroy_rest] leaves an unregistered channel. *)
Lemma destroy_rest_tale c fs :
  state_ c = kDisconnected -> tale c fs \/ tale c (FDestroying :: fs) -> tale (destroy_rest c) fs.
Proof.
  intros Hst Ht. set (c' := destroy_rest c).
  assert (registered c' = false) as Hreg.
  { unfold c', destroy_rest. destruct (channelAdded_ c) eqn:Ea; simpl; [apply removeChannel_unregistered|].
    unfold registered. simpl. by rewrite Ea. }
  assert (state_ c' = kDisconnected /\ log c' = log c /\ closeInfo c' = closeInfo c /\ tasks c' = tasks c) as (E1 & E2 & E3 & E4).
  { unfold c', destroy_rest. destruct (negb (channelAdded_ c)); [done|].
    by destruct (removeChannel_spec c) as (r & rd & wr & -> & _). }
  assert (opened c' = false) as Hcl by (unfold opened, is_state; by rewrite E1).
  assert ((length (List.filter ending fs) <= 1)%nat /\ exists r, story (log c) = Some r /\ 0 <= r /\
    (forall s, In (FClosing s) fs -> r = stage_rank s /\ closeInfo c <> None)) as (H1 & r & H2 & H4 & H3).
  { destruct Ht as [[T1 _ _ (r & Hr & _ & _ & Hs & ?) T5 _ _]|[T1 _ _ (r & Hr & _ & _ & Hs & ?) T5 _ _]].
    - split; [done|]. exists r. split; [done|]. eauto.
    - simpl in T1. split; [lia|]. exists r. split; [done|]. split; [done|]. intros s Hin. split; [apply Hs|apply (T5 s)]; by right. }
  assert (forallb quiet_task (tasks c) = true \/ exists r, story (log c) = Some r /\ 1 <= r) as H7.
  { destruct Ht as [Ht|Ht]; (destruct (tl_posted _ _ Ht) as [?|(k & ? & ? & _)]; [by left|right; eauto]). }
  split; rewrite ?E1, ?E2, ?E3, ?E4, ?Hcl; try done.
  - congruence.
  - exists r. split_and!; try done. intros s Hin. by apply H3.
  - intros s Hin. by apply (H3 s).
  - destruct H7 as [?|(k & ? & ?)]; [by left|right; by exists k].
Qed.

Lemma destroy_state_still c x : acct c x -> 0 <= x ->
  log (destroy_state c) = log c /\ registered (destroy_state c) = registered c /\ closeInfo (destroy_state c) = closeInfo c /\
  tasks (destroy_state c) = tasks c.
Proof.
  intros Ha Hx. unfold destroy_state. assert (acct (onClosed c) x) as Ha1 by (by apply (acct_ext c)).
  by destruct (clear_form (onClosed c) x Ha1 Hx) as (l & -> & _).
Qed.

(** A story goes on in a connection that has just been disconnected. *)
Lemma tale_disconnected c c' fs : tale c fs -> state_ c' = kDisconnected -> log c' = log c -> registered c' = registered c ->
  closeInfo c' = closeInfo c -> tasks c' = tasks c -> (registered c = true -> opened c = true -> In FDestroying fs) -> tale c' fs.
Proof.
  intros [T1 T2 T3 (r & Hr & _ & _ & Hs & H0) T5 T6 T7] E1 E2 E3 E4 E5 Hreg.
  assert (opened c' = false) as Hcl by (unfold opened, is_state; by rewrite E1).
  split; rewrite ?E1, ?E2, ?E3, ?E4, ?E5, ?Hcl; try done.
  - intros H. right. destruct (T3 H); auto.
  - exists r. by split_and!.
  - destruct T7 as [?|(k & ? & ? & _)]; [by left|right; by exists k].
Qed.

Lemma destroyed_tale c x fs : acct c x -> 0 <= x -> tale c fs ->
  tale (fst (connectDestroyed c fs)) (snd (connectDestroyed c fs)).
Proof.
  intros Ha Hx Ht. destruct (destroy_state_still c x Ha Hx) as (El & Er & Ei & Etk). unfold connectDestroyed.
  change (setState kDisconnected _) with (destroy_state c).
  set (c0 := clearBufferedOutputInLoop (onClosed c)).
  assert (is_state kConnected c0 || is_state kDisconnecting c0 = opened c) as ->.
  { unfold c0. assert (acct (onClosed c) x) as Ha1 by (by apply (acct_ext c)).
    by destruct (clear_form (onClosed c) x Ha1 Hx) as (l & -> & _). }
  destruct (opened c) eqn:Hop; simpl andb.
  - pose proof (no_ending c fs Ht (open_not_closed c Hop)) as Hnone.
    assert (forall s, ~ In (FClosing s) fs) as Hno by (intros s Hin; by apply (filter_nil_in fs) in Hin).
    destruct Ht as [T1 T2 T3 (r & Hr & _ & Hr1 & _) T5 T6 T7]. specialize (Hr1 Hop). subst r.
    destruct (connectionCallback_ cb); simpl.
    + assert (story (log (note EDisconnected (destroy_state c))) = Some 2) as Hs by (by rewrite story_note, El, Hr).
      split; try done.
      * simpl List.filter. rewrite Hnone. simpl. lia.
      * intros _. right. by left.
      * exists 2. split_and!; try done. intros s [?|Hin]; [done|by destruct (Hno s)].
      * intros s [?|Hin]; [done|by destruct (Hno s)].
      * right. by exists 2.
    + apply destroy_rest_tale; [done|]. right. split; try done.
      * simpl List.filter. rewrite Hnone. simpl. lia.
      * intros _. right. by left.
      * exists 1. rewrite El. split_and!; try done. intros s [?|Hin]; [done|by destruct (Hno s)].
      * intros s [?|Hin]; [done|by destruct (Hno s)].
      * rewrite El, Etk. right. by exists 1.
  - simpl. apply destroy_rest_tale; [done|]. left. apply (tale_disconnected c); try done. intros _ H. congruence.
Qed.

(** A closing callback has returned. *)
Lemma call_tale s c fs r :
  tale c (FClosing s :: fs) ->
  (r = (c, fs) \/ exists e s', r = (note e c, FClosing s' :: fs) /\ stage_rank s < stage_rank s' /\
    (e = ECloseInfo (closeInfo c) /\ s' = AtCloseInfo \/ e = EClose /\ s' = AtClose)) ->
  tale (fst r) (snd r).
Proof.
  intros [T1 T2 T3 (k & Hk & _ & _ & Hs & _) T5 T6 T7] Hr. simpl in T1.
  assert (List.filter ending fs = []) as Hnone by (destruct (List.filter ending fs); [done|simpl in T1; lia]).
  assert (forall s, ~ In (FClosing s) fs) as Hno by (intros s' Hin; by apply (filter_nil_in fs) in Hin).
  assert (state_ c = kDisconnected) as Hst by (by apply T2).
  specialize (Hs s (or_introl eq_refl)). subst k. specialize (T5 s (or_introl eq_refl)).
  assert (registered c = true -> opened c = true \/ In FDestroying fs) as Hreg.
  { intros H. destruct (T3 H) as [?|[?|?]]; [by left|done|by right]. }
  assert (opened c = false) as Hcl by (unfold opened, is_state; by rewrite Hst).
  destruct Hr as [->|(e & s' & -> & Hlt & He)]; simpl.
  - split; try done.
    + rewrite Hnone. simpl. lia.
    + exists (stage_rank s). rewrite Hst, Hcl. split_and!; try done; [|by destruct s]. intros s' Hin. by destruct (Hno s').
    + congruence.
  - assert (story (log (note e c)) = Some (stage_rank s')) as Hs'.
    { rewrite story_note, Hk. destruct (closeInfo c) as [i|] eqn:Ei; [|done]. by destruct He as [[-> ->]|[-> ->]], s. }
    split; try done.
    + intros H. destruct (Hreg H) as [?|?]; [by left|right; by right].
    + exists (stage_rank s'). simpl state_. change (opened (note e c)) with (opened c). rewrite Hst, Hcl. split_and!; try done; [|by destruct s'].
      intros s0 [H|Hin]; [by injection H as ->|by destruct (Hno s0)].
    + right. exists (stage_rank s'). simpl state_. split; [done|]. split; [destruct s'; simpl; lia|congruence].
Qed.

(** Frames that ended with a connection already closed. *)
Lemma tale_drop_closing c fs : tale c (FClosing AtClose :: fs) -> tale c fs.
Proof. intros Ht. apply (call_tale AtClose c fs (c, fs) Ht). by left. Qed.

Lemma disconnecting_tale c fs : is_state kConnected c = true -> tale c fs -> tale (setState kDisconnecting c) fs.
Proof.
  intros Hc%is_state_eq Ht. pose proof (no_ending c fs Ht ltac:(congruence)) as Hnone. destruct Ht as [T1 T2 T3 (r & Hr & _ & Hr1 & Hs & H0) T5 T6 T7].
  assert (opened c = true) as Hop by (unfold opened, is_state; by rewrite Hc).
  split; try done.
  - intros H. left. done.
  - exists r. split_and!; try done. intros _. by apply Hr1.
  - destruct T7 as [?|(k & ? & ? & _)]; [by left|right; by exists k].
Qed.

Lemma drive_graceful_tale c fs : tale c fs -> tale (drive_graceful c) fs.
Proof.
  intros Ht. unfold drive_graceful. destruct (gracefulShutdownRequested_ c); [|done].
  set (c1 := if is_state kConnected c then _ else _).
  assert (tale c1 fs) as Ht1 by (unfold c1; destruct (is_state kConnected c) eqn:E; [by apply disconnecting_tale|done]).
  destruct (is_state kDisconnecting c1); [|done]. eapply tale_still; [apply shutdown_still|done].
Qed.

Lemma settle_tale r : tale (fst r) (snd r) -> tale (fst (settle r)) (snd (settle r)).
Proof.
  destruct r as [c [|[] fs]]; try done. simpl. intros Ht%tale_pop; [|done]. apply drive_graceful_tale.
  eapply tale_still; [|done]. by apply still_same.
Qed.

Lemma drive_tale c x fs : acct c x -> 0 <= x -> shape c -> tale c fs ->
  tale (fst (driveLifecycleInLoop c fs)) (snd (driveLifecycleInLoop c fs)).
Proof.
  intros Ha Hx Hs Ht. unfold driveLifecycleInLoop. destruct (forceCloseRequested_ c); [|by apply drive_graceful_tale].
  apply settle_tale. assert (tale c (FDriveRest :: fs)) as Ht' by (by apply tale_push). clear Ht. rename Ht' into Ht.
  unfold forceCloseInLoop. destruct (_ || _) eqn:E; [|done]. apply (begin_tale c x); try done. by apply opened_not_new.
Qed.

Lemma established_tale attached c fs : shape c -> tale c fs ->
  tale (fst (connectEstablished attached c fs)) (snd (connectEstablished attached c fs)).
Proof.
  intros Hs Ht. unfold connectEstablished. destruct (negb (is_state kConnecting c) || channelRemoved_ c) eqn:E; [done|].
  apply orb_false_iff in E as [Hst%negb_false_iff%is_state_eq Hr].
  pose proof (no_ending c fs Ht ltac:(congruence)) as Hnone. destruct Ht as [T1 T2 T3 (r & Hr0 & Hr1 & Hr2 & Hr3 & Hr4) T5 T6 T7].
  specialize (Hr1 Hst). subst r.
  destruct T7 as [T7|(? & _ & _ & ?)]; [|done].
  destruct attached; simpl negb; cbv iota.
  - set (c1 := setState kConnected _). unfold onConnectionEstablished, applyBackpressureInLoop.
    set (c2 := apply _ _).
    assert (log c2 = log c /\ state_ c2 = kConnected /\ tasks c2 = tasks c) as (E3 & E1 & E4) by (unfold c2, c1, apply; repeat case_match; done).
    assert (forall s, ~ In (FClosing s) fs) as Hno by (intros s Hin; by apply (filter_nil_in fs) in Hin).
    assert (forall c3, state_ c3 = kConnected -> story (log c3) = Some 1 -> tale c3 fs) as Hgen.
    { intros c3 H3 Hl. assert (opened c3 = true) as Hop3 by (unfold opened, is_state; by rewrite H3). split.
      - rewrite Hnone. simpl. lia.
      - done.
      - intros _. by left.
      - exists 1. rewrite Hl, H3. split_and!; try done. intros s Hin. by destruct (Hno s).
      - intros s Hin. by destruct (Hno s).
      - congruence.
      - right. exists 1. split; [done|]. split; [lia|congruence]. }
    unfold prologue in Hr0. destruct (connectionCallback_ cb); simpl.
    + apply tale_push; [done|simpl; congruence|]. apply Hgen; [done|]. rewrite story_note, E3. by rewrite Hr0.
    + apply Hgen; [done|]. by rewrite E3.
  - simpl. destruct (removeChannel_spec (set_added true (set_reading true c))) as (b & rd & wr & -> & _).
    split; try done; [|by left]. exists prologue. simpl. split_and!; done.
Qed.

Lemma handleRead_tale r e c x fs cf : acct c x -> 0 <= x -> shape c -> opened c = true -> tale c fs ->
  handleRead r e c fs = Some cf -> tale (fst cf) (snd cf).
Proof.
  intros Ha Hx Hs Hop Ht Hr. unfold handleRead in Hr. pose proof (opened_not_new c Hop) as Hnew.
  assert (forall c1, acct c1 x -> shape c1 -> state_ c1 <> kConnecting -> tale c1 fs ->
    tale (fst (closeOnInputLimitInLoop c1 fs)) (snd (closeOnInputLimitInLoop c1 fs))) as Hlim.
  { intros. unfold closeOnInputLimitInLoop. destruct (negb _); [done|]. by apply (publish_handleClose_tale _ _ _ x). }
  destruct (_ =? 0) eqn:E0; [injection Hr as <-; by apply Hlim|].
  destruct r as [bytes| |err].
  - destruct (_ || _) eqn:Eb; [done|]. apply orb_false_iff in Eb as [_ Eb]. zify_bools.
    unfold remainingInputCapacity in *. destruct (_ <=? _) eqn:El; [done|]. zify_bools.
    set (c1 := set_input _ c) in Hr. assert (still c c1) as Hst by (by apply still_same).
    pose proof (tale_still _ _ _ Hst Ht) as Ht1.
    assert (acct c1 x) as Ha1 by (by apply (acct_ext c)).
    assert (shape c1) as Hs1.
    { destruct Hs as [S1 S2 S3 S4 S5 S6 S7 S8]. split; try done. simpl. unfold zlen in *. rewrite length_app. lia. }
    destruct (_ && _); injection Hr as <-; [|by apply Hlim]. apply tale_push; [done|done|]. by apply tale_message.
  - injection Hr as <-. by apply (publish_handleClose_tale _ _ _ x).
  - destruct (_ || _); injection Hr as <-; [done|]. by apply (publish_handleClose_tale _ _ _ x).
Qed.

Lemma handleWrite_tale r e room c x fs cf : acct c x -> 0 <= x -> shape c -> opened c = true -> tale c fs ->
  handleWrite r e room c fs = Some cf -> tale (fst cf) (snd cf).
Proof.
  intros Ha Hx Hs Hop Ht Hw. pose proof (opened_not_new c Hop) as Hnew. unfold handleWrite in Hw. destruct (negb (writing c)); [by injection Hw as <-|].
  destruct r as [n|err].
  - destruct (_ || _); [done|]. destruct (n =? 0); [by injection Hw as <-|].
    set (c2 := applyBackpressureInLoop _) in Hw.
    assert (still c c2) as H2.
    { eapply still_trans; [|apply apply_still]. eapply still_trans; [|apply release_still]. by apply still_same. }
    pose proof (tale_still _ _ _ H2 Ht) as Ht2.
    destruct (_ =? 0); injection Hw as <-; [|done]. simpl.
    assert (still c (set_writing false c2)) as H3 by (eapply still_trans; [done|by apply still_same]).
    set (c4 := if is_state _ _ then _ else _).
    assert (still c c4) as H4 by (unfold c4; destruct (is_state _ _); [eapply still_trans; [done|apply shutdown_still]|done]).
    eapply tale_still; [|by apply (tale_still c)]. apply queueWriteComplete_still. by rewrite (opened_state c c4 (st_state _ _ H4)).
  - destruct (_ || _); injection Hw as <-; [done|]. by apply (publish_handleClose_tale _ _ _ x).
Qed.

Lemma send_tale ch data c x fs cf : acct c (x + zlen data) -> 0 <= x -> shape c -> opened c = true -> tale c fs ->
  sendReservedInLoop ch data c fs = Some cf -> tale (fst cf) (snd cf).
Proof.
  intros Ha Hx Hs Hop Ht Hsend. pose proof (opened_not_new c Hop) as Hnew. assert (0 <= zlen data) as Hlen by (unfold zlen; lia). unfold sendReservedInLoop in Hsend.
  assert (forall n, tale (releaseOutputBytes n c) fs) as Hrel by (intros n; eapply tale_still; [apply release_still|done]).
  assert (forall rest c1, opened c1 = true -> tale c1 fs -> tale (fst (buffer_rest ch rest c1)) fs) as Hbuf.
  { intros rest c1 Hop1 H1. eapply tale_still; [by apply buffer_rest_still|done]. }
  destruct (is_state kDisconnected c); [injection Hsend as <-; apply Hrel|].
  destruct (_ && _); [|destruct (0 <? _); injection Hsend as <-; [by apply Hbuf|done]].
  destruct (ch_write ch) as [n|err].
  - destruct (_ || _); [done|]. set (c1 := set_taken _ _) in Hsend.
    assert (tale c1 fs) as Ht1 by (eapply tale_still; [|apply (Hrel n)]; by apply still_same).
    assert (opened c1 = true) as Hop1.
    { rewrite <- Hop. apply opened_state. apply (st_state _ _ (release_still n c)). }
    destruct (_ =? 0); injection Hsend as <-; [|by apply Hbuf]. by eapply tale_still; [apply queueWriteComplete_still|].
  - destruct (_ || _); [destruct (0 <? _); injection Hsend as <-; [by apply Hbuf|done]|].
    injection Hsend as <-. apply (publish_handleClose_tale _ _ _ x); [by apply release_acct|done| | |done].
    + by eapply release_shape.
    + by rewrite (st_state _ _ (release_still (zlen data) c)).
Qed.

(** *** Steps *)

Definition progs_ok (c : TcpConnection) (fs : list Frame) : Prop := Forall (prog_ok c) (calls fs).

Lemma progs_keep c c' fs : keeps c c' -> progs_ok c fs -> progs_ok c' fs.
Proof. intros Hk Hp. eapply Forall_impl; [done|]. intros p. by apply prog_ok_keeps. Qed.

(** What an owner step has to show. *)
Definition owned (x : Z) (c : TcpConnection) (r : TcpConnection * list Frame) : Prop :=
  acct (fst r) (x + zsum prog_held (calls (snd r))) /\ shape (fst r) /\ tale (fst r) (snd r) /\ keeps c (fst r) /\
  progs_ok (fst r) (snd r).

Lemma calls_nonneg fs : 0 <= zsum prog_held (calls fs).
Proof. apply zsum_nonneg. apply prog_held_nonneg. Qed.

Lemma good_owned x c fs r :
  good c (x + zsum prog_held (calls fs)) fs r -> tale (fst r) (snd r) -> progs_ok c fs -> owned x c r.
Proof.
  intros [H1 H2 H3 H4] Ht Hp. unfold owned, progs_ok. rewrite H4. split_and!; try done. by eapply progs_keep.
Qed.

Lemma resume_ok threw f c fs x r :
  0 <= x -> acct c x -> shape c -> tale c (f :: fs) -> resume threw f c fs = Some r ->
  good c x fs r /\ tale (fst r) (snd r).
Proof.
  intros Hx Ha Hs Ht Hr. destruct f as [| | |s| | |p]; simpl in Hr; try done.
  - pose proof (tale_begun _ _ _ Ht eq_refl) as Hnew. apply tale_pop in Ht; [|done]. destruct threw; injection Hr as <-; [|by split; [apply good_same|]].
    split; [by apply publish_handleClose_good|by apply (publish_handleClose_tale _ _ _ x)].
  - pose proof (tale_begun _ _ _ Ht eq_refl) as Hnew. apply tale_pop in Ht; [|done]. destruct threw; injection Hr as <-.
    + split; [by apply publish_handleClose_good|by apply (publish_handleClose_tale _ _ _ x)].
    + split; [by apply closeOnInputLimit_good|]. unfold closeOnInputLimitInLoop. destruct (negb _); [done|].
      by apply (publish_handleClose_tale _ _ _ x).
  - pose proof (tale_begun _ _ _ Ht eq_refl) as Hnew. apply tale_pop in Ht; [|done]. destruct threw; injection Hr as <-; [|by split; [apply good_same|]].
    split; [by apply publish_handleClose_good|by apply (publish_handleClose_tale _ _ _ x)].
  - destruct s; injection Hr as <-.
    + split; [by apply call_closeInfo_good|]. apply (call_tale AtDisconnected c fs _ Ht).
      destruct (call_closeInfo_spec c fs) as [->|(e & s & -> & He)]; [by left|right]. exists e, s. split_and!; try done.
      destruct He as [[_ ->]|[_ ->]]; simpl; lia.
    + split; [by apply call_close_good|]. apply (call_tale AtCloseInfo c fs _ Ht).
      destruct (call_close_spec c fs) as [->| ->]; [by left|right]. eexists _, _. split; [done|]. split; [simpl; lia|by right].
    + split; [by apply after_close_good|]. unfold after_close.
      apply tale_drop_closing in Ht. destruct (_ && _); [by apply (destroyed_tale c x)|done].
  - injection Hr as <-. assert (state_ c = kDisconnected) as Hst by (by apply (tl_ended _ _ Ht)).
    assert (opened c = false) as Hop by (unfold opened, is_state; by rewrite Hst).
    split; [by apply destroy_rest_good|]. apply destroy_rest_tale; [done|by right].
Qed.

Lemma task_step_ok ch t c x r :
  0 <= x -> acct c (x + task_held t) -> shape c -> tale c [] ->
  quiet_task t = true \/ (exists r, story (log c) = Some r /\ 1 <= r /\ state_ c <> kConnecting) -> task_step ch t c = Some r ->
  good c x [] r /\ tale (fst r) (snd r).
Proof.
  intros Hx Ha Hs Ht Hq Hr. destruct t as [data| |n]; simpl in Hr, Ha.
  - destruct (_ || _) eqn:Eop.
    + split; [eapply send_good; [done|done|done|by right|done]|by eapply send_tale].
    + injection Hr as <-. assert (0 <= zlen data) by (unfold zlen; lia).
      split; [|eapply tale_still; [apply release_still|done]].
      split; [by apply release_acct|by eapply release_shape|by eapply release_keeps|done].
  - injection Hr as <-. rewrite Z.add_0_r in Ha. split; [by apply good_note|].
    destruct Hq as [?|Hq]; [done|]. apply tale_push; [done|by destruct Hq as (? & _ & _ & ?)|].
    apply tale_notification; [|done..]. intros k Hk. simpl. by rewrite (proj2 (Z.leb_le _ _)).
  - injection Hr as <-. rewrite Z.add_0_r in Ha. split; [by apply good_note|].
    destruct Hq as [?|Hq]; [done|]. apply tale_push; [done|by destruct Hq as (? & _ & _ & ?)|].
    apply tale_notification; [|done..]. intros k Hk. simpl. by rewrite (proj2 (Z.leb_le _ _)).
Qed.

Lemma owner_step_ok lb c fs x r :
  0 <= x -> acct c (x + zsum prog_held (calls fs)) -> shape c -> tale c fs -> progs_ok c fs ->
  owner_step lb c fs = Some r -> owned x c r.
Proof.
  intros Hx Ha Hs Ht Hp Hst. pose proof (calls_nonneg fs) as Hn.
  assert (idle fs && registered c = true -> fs = [] /\ opened c = true) as Hidle.
  { intros [H1 H2]%andb_true_iff. destruct fs; [|done]. split; [done|]. destruct (tl_registered _ _ Ht H2) as [?|[]]. done. }
  destruct lb as [att| |rr e|rr e room| |e|ch| |n|threw|p|ch|i p|i ch]; simpl in Hst; try done.
  - destruct (calm fs); [|done]. injection Hst as <-. apply (good_owned x c fs); [by apply established_good|by apply established_tale|done].
  - destruct (calm fs); [|done]. injection Hst as <-.
    apply (good_owned x c fs); [apply destroyed_good; (done || lia)|eapply destroyed_tale; (done || lia)|done].
  - destruct (idle fs && _) eqn:E; [|done]. destruct (Hidle eq_refl) as [-> Hop].
    apply (good_owned x c []); [eapply handleRead_good; (done || lia)|eapply handleRead_tale; try done; lia|done].
  - destruct (idle fs && _) eqn:E; [|done]. destruct (Hidle eq_refl) as [-> Hop].
    apply (good_owned x c []); [eapply handleWrite_good; (done || lia)|eapply handleWrite_tale; try done; lia|done].
  - destruct (idle fs && _) eqn:E; [|done]. injection Hst as <-. destruct (Hidle eq_refl) as [-> Hop]. pose proof (opened_not_new c Hop).
    apply (good_owned x c []); [apply handleClose_good; (done || lia)|eapply handleClose_tale; (done || lia)|done].
  - destruct (idle fs && _) eqn:E; [|done]. injection Hst as <-. destruct (Hidle eq_refl) as [-> Hop]. pose proof (opened_not_new c Hop).
    apply (good_owned x c []); [apply publish_handleClose_good; (done || lia)|eapply publish_handleClose_tale; (done || lia)|done].
  - destruct fs; [|done]. destruct (tasks c) as [|t ts] eqn:Et; [done|]. simpl in Ha. rewrite Z.add_0_r in Ha.
    set (c1 := set_tasks ts c) in Hst.
    assert (acct c1 (x + task_held t)) as Ha1.
    { destruct Ha as [A1 A2 A3 A4 A5 A6]. split; simpl; try done. rewrite A2, Et. simpl. lia. }
    assert (shape c1) as Hs1 by (destruct Hs; by split).
    assert (tale c1 []) as Ht1.
    { apply (tale_still c); [|done]. split; try done. right. rewrite Et. simpl. by intros [_ ?]%andb_true_iff. }
    assert (quiet_task t = true \/ (exists r, story (log c1) = Some r /\ 1 <= r /\ state_ c1 <> kConnecting)) as Hq.
    { destruct (tl_posted _ _ Ht) as [Hall|?]; [left|by right]. rewrite Et in Hall. by apply andb_true_iff in Hall as [? _]. }
    destruct (task_step_ok ch t c1 x r Hx Ha1 Hs1 Ht1 Hq Hst) as [Hg Ht2].
    apply (good_owned x c []); [simpl; rewrite Z.add_0_r; apply (good_from _ c1); [by apply keeps_ext|done]|done|done].
  - destruct fs; [|done]. destruct (lifecycleSource_ c) as [[]|] eqn:El; [|done..]. injection Hst as <-.
    set (c1 := set_lifecycle (Some false) c). simpl in Ha. rewrite Z.add_0_r in Ha.
    assert (acct c1 x) as Ha1 by (by apply (acct_ext c)).
    assert (shape c1) as Hs1.
    { apply (shape_word (pendingOutputBytes_ c) (Some false)) in Hs; [|by rewrite El]. destruct Hs. by split. }
    assert (tale c1 []) as Ht1 by (apply (tale_still c); [by apply still_same|done]).
    apply (good_owned x c []); [|by apply (drive_tale c1 x)|done]. simpl. rewrite Z.add_0_r.
    apply (good_from _ c1); [by apply keeps_ext|by apply drive_good].
  - destruct fs as [|[] fs]; try done. injection Hst as <-.
    apply (good_owned x c (FMessage :: fs)); [|apply (tale_still c); [by apply still_same|done]|done].
    split; [by apply (acct_ext c)| |by apply keeps_ext|done]. destruct Hs as [S1 S2 S3 S4 S5 S6 S7 S8]. split; try done.
    simpl. unfold zlen in *. rewrite length_drop. lia.
  - destruct fs as [|f fs]; [done|]. destruct (resume threw f c fs) as [r0|] eqn:Er; [|done]. injection Hst as <-.
    assert (calls (f :: fs) = calls fs) as Ec by (by destruct f). rewrite Ec in *.
    destruct (resume_ok threw f c fs (x + zsum prog_held (calls fs)) r0 ltac:(lia) Ha Hs Ht Er) as [Hg Ht0].
    apply (good_owned x c fs); [by apply settle_good|by apply settle_tale|]. unfold progs_ok in *. by rewrite Ec in Hp.
  - destruct (calm fs && start p) eqn:E; [|done]. injection Hst as <-. apply andb_true_iff in E as [_ Esp].
    assert (prog_held p = 0 /\ past_seal p = false) as [E1 E2] by (by destruct p as [? []|? []]).
    split_and!; simpl; [|done|by apply tale_push|apply keeps_same|].
    + by rewrite E1.
    + constructor; [|done]. intros H. congruence.
  - destruct fs as [|[] fs]; try done. apply tale_pop in Ht; [|done].
    change (calls (FCall p :: fs)) with (p :: calls fs) in *. simpl in Ha.
    inversion Hp as [|? ? Hp1 Hp2]; subst. pose proof (calls_nonneg fs) as Hn'.
    destruct (prog_step true ch p c) as [[c' nx]|] eqn:Eps; [|done].
    assert (acct c (x + zsum prog_held (calls fs) + prog_held p)) as Ha'
      by (by replace (x + zsum prog_held (calls fs) + prog_held p) with (x + (prog_held p + zsum prog_held (calls fs))) by lia).
    destruct (prog_step_good true ch p c _ c' nx Ha' ltac:(lia) Hs Hp1 Eps) as (Hk & Hs' & Hnx).
    pose proof (tale_still _ _ _ (prog_step_still _ _ _ _ _ _ (sh_info c Hs) Eps) Ht) as Ht'.
    pose proof (progs_keep c c' fs Hk Hp2) as Hp'.
    destruct nx as [p'| |data|].
    + injection Hst as <-. destruct Hnx as [Hna Hpo]. split_and!; simpl; [|done|by apply tale_push|done|by constructor].
      by replace (x + (prog_held p' + zsum prog_held (calls fs))) with (x + zsum prog_held (calls fs) + prog_held p') by lia.
    + injection Hst as <-. done.
    + destruct Hnx as [Hna Hco]. assert (opened c' = true) as Hop by (unfold opened; by rewrite Hco).
      destruct (good_owned x c' fs r) as (G1 & G2 & G3 & G4 & G5);
        [eapply send_good; [done|lia|done|by right|done]|eapply send_tale; (done || lia)|done|].
      split_and!; try done. by eapply keeps_trans.
    + injection Hst as <-. destruct (good_owned x c' fs (driveLifecycleInLoop c' fs)) as (G1 & G2 & G3 & G4 & G5);
        [apply drive_good; (done || lia)|eapply drive_tale; (done || lia)|done|].
      split_and!; try done. by eapply keeps_trans.
Qed.

(** *** Runs *)

Record minv (m : Machine) : Prop := {
  mi_acct : acct (conn m) (msum prog_held (threads m) + zsum prog_held (calls (frames m)));
  mi_shape : shape (conn m);
  mi_tale : tale (conn m) (frames m);
  mi_frames : progs_ok (conn m) (frames m);
  mi_threads : map_Forall (fun _ => prog_ok (conn m)) (threads m);
}.

Lemma held_nonneg (t : gmap nat Prog) : 0 <= msum prog_held t.
Proof. apply msum_nonneg. intros i p _. apply prog_held_nonneg. Qed.

Lemma owner_minv m c fs :
  minv m -> owned (msum prog_held (threads m)) (conn m) (c, fs) -> minv (mkMachine c fs (threads m)) /\ keeps (conn m) c.
Proof.
  intros [M1 M2 M3 M4 M5] (H1 & H2 & H3 & H4 & H5). split; [|done]. split; simpl; try done.
  intros i p Hp. eapply prog_ok_keeps; [done|]. by apply (M5 i).
Qed.

Lemma thread_minv m i ch p c nx t :
  minv m -> threads m !! i = Some p -> prog_step false ch p (conn m) = Some (c, nx) ->
  (exists p', nx = Go p' /\ t = <[i := p']> (threads m)) \/ (nx = Return /\ t = delete i (threads m)) ->
  minv (mkMachine c (frames m) t) /\ keeps (conn m) c.
Proof.
  intros [M1 M2 M3 M4 M5] Hi Hst Ht. set (y := msum prog_held (delete i (threads m)) + zsum prog_held (calls (frames m))).
  assert (acct (conn m) (y + prog_held p)) as Ha.
  { unfold y. rewrite (msum_delete _ _ _ p) by done.
    by replace (msum prog_held (threads m) - prog_held p + zsum prog_held (calls (frames m)) + prog_held p)
      with (msum prog_held (threads m) + zsum prog_held (calls (frames m))) by lia. }
  pose proof (held_nonneg (delete i (threads m))). pose proof (calls_nonneg (frames m)).
  destruct (prog_step_good false ch p (conn m) y c nx Ha ltac:(lia) M2 (M5 i p Hi) Hst) as (Hk & Hs & Hnx).
  split; [|done].
  assert (map_Forall (fun _ => prog_ok c) (delete i (threads m))) as Hdel.
  { intros j q [_ Hj]%lookup_delete_Some. eapply prog_ok_keeps; [done|]. by apply (M5 j). }
  split; simpl.
  - destruct Ht as [(p' & -> & ->)|[-> ->]]; [|done]. destruct Hnx as [Hna _].
    rewrite (msum_update _ _ _ p) by done. unfold y in Hna. rewrite (msum_delete _ _ _ p) in Hna by done.
    by replace (msum prog_held (threads m) - prog_held p + prog_held p' + zsum prog_held (calls (frames m))) with
      (msum prog_held (threads m) - prog_held p + zsum prog_held (calls (frames m)) + prog_held p') by lia.
  - done.
  - eapply tale_still; [|done]. eapply prog_step_still; [apply M2|done].
  - by eapply progs_keep.
  - destruct Ht as [(p' & -> & ->)|[-> ->]]; [|done]. destruct Hnx as [_ Hpo].
    rewrite <- insert_delete_eq. by apply map_Forall_insert_2.
Qed.

Lemma conn_step_minv lb m m' : minv m -> conn_step lb m = Some m' -> minv m' /\ keeps (conn m) (conn m').
Proof.
  intros Hm Hst. unfold conn_step in Hst. rewrite (ac_fatal _ _ (mi_acct _ Hm)) in Hst.
  destruct lb as [att| |rr e|rr e room| |e|ch| |n|threw|p|ch|i p|i ch];
    try (destruct (owner_step _ _ _) as [[c fs]|] eqn:Eo; [|done]; apply (inj Some) in Hst; subst m';
         apply owner_minv; [done|]; destruct Hm; eapply owner_step_ok; try done; apply held_nonneg).
  - destruct (_ && _) eqn:E; [|done]. apply (inj Some) in Hst. subst m'. apply andb_true_iff in E as [Hi%bool_decide_eq_true Hsp].
    assert (prog_held p = 0 /\ past_seal p = false) as [E1 E2] by (by destruct p as [? []|? []]).
    destruct Hm as [M1 M2 M3 M4 M5]. split; [|apply keeps_same]. split; simpl; try done.
    + rewrite msum_new by done. by rewrite E1, Z.add_0_r.
    + apply map_Forall_insert_2; [|done]. intros H. congruence.
  - destruct (threads m !! i) as [p|] eqn:Ei; [|done].
    destruct (prog_step false ch p (conn m)) as [[c nx]|] eqn:Ep; [|done].
    destruct nx as [p'| |data|]; [..|done|done]; apply (inj Some) in Hst; subst m'; simpl conn;
      (eapply thread_minv; [done|done|done|]); [left; eauto|by right].
Qed.

Lemma conn_steps_minv lbs : forall m m', minv m -> conn_steps lbs m = Some m' -> minv m' /\ keeps (conn m) (conn m').
Proof.
  induction lbs as [|lb lbs IH]; intros m m' Hm Hs; simpl in Hs.
  - injection Hs as <-. split; [done|apply keeps_same].
  - destruct (conn_step lb m) as [m1|] eqn:E; [|done]. destruct (conn_step_minv lb m m1 Hm E) as [H1 K1].
    destruct (IH m1 m' H1 Hs) as [H2 K2]. split; [done|by eapply keeps_trans].
Qed.

Lemma start_minv : minv start_machine.
Proof.
  destruct marks as (Hp & _ & Hm & Hh). split; simpl; try done.
  - split; simpl; try done. change (byte_count 0) with 0. unfold output_limit, kOutputByteCountMask. case_match; lia.
  - split; simpl; try done. by left.
  - split; simpl; try done; [lia| |by left]. exists prologue. pose proof prologue_bound. split; [done|]. split; [done|]. split; [done|]. split; [done|lia].
  - by constructor.
Qed.

(** ** Graceful shutdown is not lost *)

(** A requested half-close has bytes to wait for, a signal, or another reason
    [b] to be looked at again. *)
Definition waits (b : Prop) (c : TcpConnection) : Prop :=
  opened c = true -> gracefulShutdownRequested_ c = true ->
  0 < byte_count (pendingOutputBytes_ c) \/ lifecycleSource_ c = Some true \/ b.

Definition lively (c c' : TcpConnection) : Prop :=
  (gracefulShutdownRequested_ c' = true -> gracefulShutdownRequested_ c = true) /\
  (forall b : Prop, waits b c -> waits b c').

Lemma lively_refl c : lively c c.
Proof. by split. Qed.

Lemma lively_trans c1 c2 c3 : lively c1 c2 -> lively c2 c3 -> lively c1 c3.
Proof. intros [A1 A2] [B1 B2]. split; auto. Qed.

Lemma lively_ext c c' :
  (opened c' = true -> opened c = true) ->
  (gracefulShutdownRequested_ c' = true -> gracefulShutdownRequested_ c = true) ->
  pendingOutputBytes_ c' = pendingOutputBytes_ c -> lifecycleSource_ c' = lifecycleSource_ c -> lively c c'.
Proof. intros H1 H2 H3 H4. split; [done|]. intros b Hb Ho' Hg'. rewrite H3, H4. auto. Qed.

(** A connection that is not open waits for nothing. *)
Lemma lively_closed c c' :
  opened c' = false -> (gracefulShutdownRequested_ c' = true -> gracefulShutdownRequested_ c = true) -> lively c c'.
Proof. intros H1 H2. split; [done|]. intros b _ H. congruence. Qed.

Lemma release_lively n c x : acct c (x + n) -> 0 <= n -> 0 <= x -> shape c -> lively c (releaseOutputBytes n c).
Proof.
  intros Ha Hn Hx Hs. assert (0 <= zlen (outputBuffer_ c)) by (unfold zlen; lia). pose proof (buffered_le c _ Ha ltac:(lia)).
  destruct (release_form n c (ac_word _ _ Ha) ltac:(lia)) as (l & -> & Hl & Hl1 & Hl2).
  destruct (word_minus (pendingOutputBytes_ c) n (ac_word _ _ Ha) ltac:(lia)) as (_ & Hc & _).
  split; [done|]. intros b Hb Hop Hg. simpl. rewrite Hc. specialize (Hb Hop Hg).
  destruct (decide (n = 0)) as [->|Hn0]; [rewrite Z.sub_0_r; destruct Hl1 as [->| ->]; tauto|].
  destruct (decide (byte_count (pendingOutputBytes_ c) = n)) as [E|E]; [|left; lia].
  right. left. apply Hl2; [lia|by apply (ac_graceful _ _ Ha)|done|]. by destruct (sh_open c Hs Hop) as (_ & _ & _ & ?).
Qed.

Ltac lively_by_cases := repeat case_match; (apply lively_refl || by apply lively_ext).

Lemma apply_lively n c : lively c (apply n c).
Proof. unfold apply. lively_by_cases. Qed.

Lemma queueWriteComplete_lively room c : lively c (queueWriteComplete room c).
Proof. unfold queueWriteComplete. lively_by_cases. Qed.

Lemma maybeQueueHighWaterMark_lively room a b c : lively c (maybeQueueHighWaterMark room a b c).
Proof. unfold maybeQueueHighWaterMark. lively_by_cases. Qed.

Lemma shutdown_lively c : lively c (shutdownInLoop c).
Proof. unfold shutdownInLoop. lively_by_cases. Qed.

Lemma publish_lively r n c : lively c (publishCloseInfo r n c).
Proof. by apply lively_ext. Qed.

Lemma closed_lively c fs r : closed_by c fs r -> lively c (fst r).
Proof.
  intros (c' & Hc & Hr). assert (state_ (fst r) = kDisconnected /\ gracefulShutdownRequested_ (fst r) = false) as [E1 E2].
  { destruct Hr as [->|(e & s & -> & _)]; simpl; split; apply Hc. }
  apply lively_closed; [unfold opened, is_state; by rewrite E1|by rewrite E2].
Qed.

Lemma begin_lively c x fs : acct c x -> 0 <= x -> shape c -> lively c (fst (beginCloseInLoop c fs)).
Proof.
  intros Ha Hx Hs. destruct (is_state kDisconnected c) eqn:Hd; [unfold beginCloseInLoop; rewrite Hd; apply lively_refl|].
  eapply closed_lively, begin_close_spec; done.
Qed.

Lemma publish_handleClose_lively r n c x fs : acct c x -> 0 <= x -> shape c ->
  lively c (fst (handleClose (publishCloseInfo r n c) fs)).
Proof.
  intros Ha Hx Hs. eapply lively_trans; [apply (publish_lively r n)|]. unfold handleClose.
  destruct (is_state kDisconnected _); [apply lively_refl|]. eapply lively_trans; [apply (publish_lively PeerEof 0)|].
  apply (begin_lively _ x); [by do 2 apply publish_acct|done|by do 2 apply publish_shape].
Qed.

Lemma handleClose_lively c x fs : acct c x -> 0 <= x -> shape c -> lively c (fst (handleClose c fs)).
Proof.
  intros Ha Hx Hs. unfold handleClose. destruct (is_state kDisconnected _); [apply lively_refl|].
  eapply lively_trans; [apply (publish_lively PeerEof 0)|].
  apply (begin_lively _ x); [by apply publish_acct|done|by apply publish_shape].
Qed.

Lemma destroy_rest_form c : state_ (destroy_rest c) = state_ c /\ gracefulShutdownRequested_ (destroy_rest c) = gracefulShutdownRequested_ c.
Proof.
  unfold destroy_rest. destruct (negb _); [done|]. by destruct (removeChannel_spec c) as (r & rd & wr & -> & _).
Qed.

Lemma destroyed_lively c x fs : acct c x -> 0 <= x -> lively c (fst (connectDestroyed c fs)).
Proof.
  intros Ha Hx. assert (gracefulShutdownRequested_ (destroy_state c) = gracefulShutdownRequested_ c) as Eg.
  { unfold destroy_state. assert (acct (onClosed c) x) as Ha1 by (by apply (acct_ext c)).
    by destruct (clear_form (onClosed c) x Ha1 Hx) as (l & -> & _). }
  unfold connectDestroyed. change (setState kDisconnected _) with (destroy_state c). destruct (_ && _); simpl.
  - apply lively_closed; [done|]. change (gracefulShutdownRequested_ (destroy_state c) = true -> gracefulShutdownRequested_ c = true).
    by rewrite Eg.
  - destruct (destroy_rest_form (destroy_state c)) as [E1 E2].
    apply lively_closed; [unfold opened, is_state; by rewrite E1|by rewrite E2, Eg].
Qed.

(** [driveLifecycleInLoop] leaves a requested half-close only with bytes to
    wait for. *)
Lemma drive_graceful_waits c x b : acct c x -> 0 <= x -> shape c -> waits b (drive_graceful c).
Proof.
  intros Ha Hx Hs. unfold drive_graceful. destruct (gracefulShutdownRequested_ c) eqn:Hg; [|by intros _ ?; congruence].
  set (c1 := if is_state kConnected c then _ else _).
  assert (good c x [] (c1, []) /\ gracefulShutdownRequested_ c1 = true /\ opened c1 = opened c /\ is_state kConnected c1 = false) as ([Ha1 Hs1 _ _] & Hg1 & Ho1 & Hc1).
  { unfold c1. destruct (is_state kConnected c) eqn:E.
    - split; [by apply disconnecting_good|]. split_and!; [done| |done]. unfold opened. by rewrite E.
    - split; [by apply good_same|done]. }
  simpl in Ha1, Hs1. destruct (is_state kDisconnecting c1) eqn:Hd.
  - assert (opened c1 = true) as Hop by (unfold opened; by rewrite Hd, orb_true_r).
    destruct (sh_open c1 Hs1 Hop) as (_ & Hph & _). destruct (sh_flow c1 Hs1 Hop) as (Hwr & _).
    unfold shutdownInLoop. rewrite Hg1. unfold socketClosed. rewrite Hph. cbn [negb andb].
    pose proof (buffered_le c1 x Ha1 Hx). assert (0 <= zlen (outputBuffer_ c1)) by (unfold zlen; lia).
    destruct (negb (writing c1) && _) eqn:E; [by intros _ ?|]. intros _ _. left. apply andb_false_iff in E as [E|E].
    + rewrite Hwr, negb_involutive in E. zify_bools. lia.
    + zify_bools. lia.
  - intros Hop. unfold opened in Hop. by rewrite Hc1, Hd in Hop.
Qed.

Lemma drive_graceful_tame c : gracefulShutdownRequested_ (drive_graceful c) = true -> gracefulShutdownRequested_ c = true.
Proof. unfold drive_graceful. by destruct (gracefulShutdownRequested_ c) eqn:E; [|rewrite E]. Qed.

Lemma settle_lively c x fs : acct c x -> 0 <= x -> shape c -> lively c (fst (settle (c, fs))).
Proof.
  intros Ha Hx Hs. destruct fs as [|[] fs]; try apply lively_refl. simpl. unfold drive_rest. split.
  - apply (drive_graceful_tame (set_force false c)).
  - intros b _. apply (drive_graceful_waits _ x); [by apply (acct_ext c)|done|destruct Hs; by split].
Qed.

(** After it, the half-close waits whatever was before. *)
Lemma drive_waits c x fs b : acct c x -> 0 <= x -> shape c -> waits b (fst (driveLifecycleInLoop c fs)).
Proof.
  intros Ha Hx Hs. unfold driveLifecycleInLoop. destruct (forceCloseRequested_ c); [|by apply (drive_graceful_waits _ x)].
  unfold forceCloseInLoop. destruct (_ || _) eqn:E.
  - destruct (begin_good c x (FDriveRest :: fs) Ha Hx Hs) as [G1 G2 _ _].
    assert (is_state kDisconnected c = false) as Hd.
    { apply bool_decide_eq_false. by apply open_not_closed. }
    pose proof (begin_close_spec c x (FDriveRest :: fs) Ha Hx Hs Hd) as (c' & Hc & Hr).
    destruct (beginCloseInLoop c (FDriveRest :: fs)) as [c1 fs1] eqn:Eb. simpl in G1, G2.
    assert (waits b c1) as Hw1.
    { assert (state_ c1 = kDisconnected) as E1 by (destruct Hr as [[= -> _]|(e & s & [= -> _] & _)]; apply Hc).
      intros Hop. unfold opened, is_state in Hop. by rewrite E1 in Hop. }
    by apply (settle_lively c1 x fs1 G1 Hx G2).
  - simpl. apply (drive_graceful_waits _ x); [by apply (acct_ext c)|done|destruct Hs; by split].
Qed.

Lemma drive_tame c x fs : acct c x -> 0 <= x -> shape c ->
  gracefulShutdownRequested_ (fst (driveLifecycleInLoop c fs)) = true -> gracefulShutdownRequested_ c = true.
Proof.
  intros Ha Hx Hs. unfold driveLifecycleInLoop. destruct (forceCloseRequested_ c); [|apply drive_graceful_tame].
  unfold forceCloseInLoop. destruct (_ || _).
  - destruct (begin_good c x (FDriveRest :: fs) Ha Hx Hs) as [G1 G2 _ _].
    pose proof (begin_lively c x (FDriveRest :: fs) Ha Hx Hs) as [H1 _].
    destruct (beginCloseInLoop c (FDriveRest :: fs)) as [c1 fs1]. intros H. apply H1. by apply (settle_lively c1 x fs1 G1 Hx G2).
  - simpl. apply (drive_graceful_tame (set_force false c)).
Qed.

Lemma closeOnInputLimit_lively c x fs : acct c x -> 0 <= x -> shape c -> lively c (fst (closeOnInputLimitInLoop c fs)).
Proof.
  intros. unfold closeOnInputLimitInLoop. destruct (negb _); [apply lively_refl|by apply (publish_handleClose_lively _ _ _ x)].
Qed.

Lemma handleRead_lively r e c x fs cf :
  acct c x -> 0 <= x -> shape c -> handleRead r e c fs = Some cf -> lively c (fst cf).
Proof.
  intros Ha Hx Hs Hr. unfold handleRead in Hr.
  destruct (_ =? 0) eqn:E0; [injection Hr as <-; by apply (closeOnInputLimit_lively c x)|].
  destruct r as [bytes| |err].
  - destruct (_ || _) eqn:Eb; [done|]. apply orb_false_iff in Eb as [_ Eb]. zify_bools.
    unfold remainingInputCapacity in *. destruct (_ <=? _) eqn:El; [done|]. zify_bools. set (c1 := set_input _ c) in Hr.
    destruct (_ && _); injection Hr as <-; [by apply lively_ext|].
    apply (lively_trans _ c1); [by apply lively_ext|]. apply (closeOnInputLimit_lively c1 x); [by apply (acct_ext c)|done|].
    destruct Hs as [S1 S2 S3 S4 S5 S6 S7 S8]. split; try done. simpl. unfold zlen in *. rewrite length_app. lia.
  - injection Hr as <-. by apply (publish_handleClose_lively _ _ _ x).
  - destruct (_ || _); injection Hr as <-; [apply lively_refl|by apply (publish_handleClose_lively _ _ _ x)].
Qed.

(** A release of bytes that have just left the output buffer. *)
Lemma written_lively n c c1 x :
  acct c1 (x + n) -> 0 <= n -> 0 <= x -> pendingOutputBytes_ c1 = pendingOutputBytes_ c -> lifecycleSource_ c1 = lifecycleSource_ c ->
  opened c1 = opened c -> gracefulShutdownRequested_ c1 = gracefulShutdownRequested_ c -> is_Some (lifecycleSource_ c) ->
  lively c (releaseOutputBytes n c1).
Proof.
  intros Ha Hn Hx E1 E2 E3 E4 Hls. assert (0 <= zlen (outputBuffer_ c1)) by (unfold zlen; lia).
  pose proof (buffered_le c1 _ Ha ltac:(lia)).
  destruct (release_form n c1 (ac_word _ _ Ha) ltac:(lia)) as (l & -> & Hl & Hl1 & Hl2).
  destruct (word_minus (pendingOutputBytes_ c1) n (ac_word _ _ Ha) ltac:(lia)) as (_ & Hc & _).
  split; [simpl; congruence|]. intros b Hb Hop Hg. simpl. rewrite Hc.
  assert (opened c = true) as Hopc by (rewrite <- E3; exact Hop).
  assert (gracefulShutdownRequested_ c = true) as Hgc by (rewrite <- E4; exact Hg). specialize (Hb Hopc Hgc).
  destruct (decide (n = 0)) as [->|Hn0]; [rewrite Z.sub_0_r, E1; rewrite E2 in Hl1; destruct Hl1 as [->| ->]; tauto|].
  destruct (decide (byte_count (pendingOutputBytes_ c1) = n)) as [E|E]; [|left; lia].
  right. left. apply Hl2; [lia|apply (ac_graceful _ _ Ha); congruence|done|by rewrite E2].
Qed.

Lemma handleWrite_lively r e room c x fs cf :
  acct c x -> 0 <= x -> shape c -> opened c = true -> handleWrite r e room c fs = Some cf -> lively c (fst cf).
Proof.
  intros Ha Hx Hs Hop Hw. unfold handleWrite in Hw. destruct (negb (writing c)); [injection Hw as <-; apply lively_refl|].
  destruct r as [n|err].
  - destruct (_ || _) eqn:En; [done|]. apply orb_false_iff in En as [En0 En1].
    destruct (n =? 0) eqn:En2; [injection Hw as <-; apply lively_refl|]. zify_bools.
    set (c1 := set_output _ _) in Hw.
    assert (acct c1 (x + n)) as Ha1.
    { destruct Ha as [A1 A2 A3 A4 A5 A6]. split; simpl; try done. unfold zlen in *. rewrite length_drop. lia. }
    assert (lively c (releaseOutputBytes n c1)) as H1.
    { apply (written_lively n c c1 x); try done. by destruct (sh_open c Hs Hop) as (_ & _ & _ & ?). }
    set (c2 := applyBackpressureInLoop _) in Hw.
    assert (lively c c2) as H2 by (eapply lively_trans; [done|apply apply_lively]).
    destruct (_ =? 0); injection Hw as <-; [|done]. simpl. eapply lively_trans; [|apply queueWriteComplete_lively].
    assert (lively c (set_writing false c2)) as H3 by (eapply lively_trans; [done|by apply lively_ext]).
    destruct (is_state _ _); [|done]. eapply lively_trans; [done|apply shutdown_lively].
  - destruct (_ || _); injection Hw as <-; [apply lively_refl|by apply (publish_handleClose_lively _ _ _ x)].
Qed.

Lemma buffer_rest_lively ch rest c x :
  acct c (x + zlen rest) -> 0 <= x -> shape c -> lively c (fst (buffer_rest ch rest c)).
Proof.
  intros Ha Hx Hs. assert (0 <= zlen rest) by (unfold zlen; lia).
  unfold buffer_rest. destruct (negb _); simpl; [by eapply release_lively|].
  eapply lively_trans; [|apply maybeQueueHighWaterMark_lively].
  set (c1 := set_taken _ _). assert (lively c (applyBackpressureInLoop c1)) as H2.
  { apply (lively_trans _ c1); [by apply lively_ext|apply apply_lively]. }
  destruct (writing _); [done|]. eapply lively_trans; [done|by apply lively_ext].
Qed.

Lemma send_lively ch data c x fs cf :
  acct c (x + zlen data) -> 0 <= x -> shape c -> opened c = true ->
  sendReservedInLoop ch data c fs = Some cf -> lively c (fst cf).
Proof.
  intros Ha Hx Hs Hop Hsend. assert (0 <= zlen data) as Hlen by (unfold zlen; lia).
  assert (is_state kDisconnected c = false) as Hd by (apply bool_decide_eq_false; by apply open_not_closed).
  destruct (sh_open c Hs Hop) as (_ & _ & _ & Hls).
  unfold sendReservedInLoop in Hsend. rewrite Hd in Hsend.
  assert (lively c (fst (buffer_rest ch data c))) as Hbuf by (by apply (buffer_rest_lively ch data c x)).
  destruct (negb (writing c) && _); [|destruct (0 <? _); injection Hsend as <-; [done|apply lively_refl]].
  destruct (ch_write ch) as [n|err].
  - destruct (_ || _) eqn:En; [done|]. apply orb_false_iff in En as [En0 En1]. zify_bools.
    assert (acct c (x + (zlen data - n) + n)) as Ha' by (by replace (x + (zlen data - n) + n) with (x + zlen data) by lia).
    set (c1 := set_taken _ _) in Hsend. assert (lively c c1) as H1.
    { apply (lively_trans _ (releaseOutputBytes n c)); [eapply release_lively; (done || lia)|by apply lively_ext]. }
    destruct (_ =? 0); injection Hsend as <-; [by eapply lively_trans; [|apply queueWriteComplete_lively]|].
    simpl. eapply lively_trans; [exact H1|].
    unfold buffer_rest. destruct (negb _); simpl.
    + assert (acct c1 (x + zlen (drop (Z.to_nat n) data))) as Ha1.
      { replace (zlen (drop (Z.to_nat n) data)) with (zlen data - n) by (unfold zlen in *; rewrite length_drop; lia).
        apply (acct_ext (releaseOutputBytes n c)); try done. apply release_acct; (done || lia). }
      assert (lifecycleSource_ c1 = lifecycleSource_ (releaseOutputBytes n c)) as El by done.
      apply (written_lively _ c1 c1 x); try done; [unfold zlen; lia|]. rewrite El.
      pose proof (buffered_le c _ Ha ltac:(lia)). assert (0 <= zlen (outputBuffer_ c)) by (unfold zlen; lia).
      destruct (release_form n c (ac_word _ _ Ha) ltac:(lia)) as (l & -> & Hl & _). simpl. by apply Hl.
    + eapply lively_trans; [|apply maybeQueueHighWaterMark_lively].
      match goal with |- lively _ (if writing (applyBackpressureInLoop ?c0) then _ else _) => set (c2 := c0) end.
      assert (lively c1 (applyBackpressureInLoop c2)) as H2.
      { apply (lively_trans _ c2); [by apply lively_ext|apply apply_lively]. }
      destruct (writing _); [done|]. eapply lively_trans; [done|by apply lively_ext].
  - destruct (_ || _); [destruct (0 <? _); injection Hsend as <-; [done|apply lively_refl]|].
    injection Hsend as <-. apply (lively_trans _ (releaseOutputBytes (zlen data) c)); [by eapply release_lively|].
    apply (publish_handleClose_lively _ _ _ x); [by apply release_acct|done|by eapply release_shape].
Qed.

Lemma resume_lively threw f c fs x r :
  0 <= x -> acct c x -> shape c -> tale c (f :: fs) -> resume threw f c fs = Some r -> lively c (fst r).
Proof.
  intros Hx Ha Hs Ht Hr. destruct f as [| | |s| | |p]; simpl in Hr; try done.
  - destruct threw; injection Hr as <-; [by apply (publish_handleClose_lively _ _ _ x)|apply lively_refl].
  - destruct threw; injection Hr as <-; [by apply (publish_handleClose_lively _ _ _ x)|by apply (closeOnInputLimit_lively c x)].
  - destruct threw; injection Hr as <-; [by apply (publish_handleClose_lively _ _ _ x)|apply lively_refl].
  - destruct s; injection Hr as <-.
    + destruct (call_closeInfo_spec c fs) as [->|(e & s & -> & _)]; [apply lively_refl|by apply lively_ext].
    + destruct (call_close_spec c fs) as [->| ->]; [apply lively_refl|by apply lively_ext].
    + unfold after_close. destruct (_ && _); [by apply (destroyed_lively c x)|apply lively_refl].
  - injection Hr as <-. assert (state_ c = kDisconnected) as Hst by (by apply (tl_ended _ _ Ht)).
    destruct (destroy_rest_form c) as [E1 E2]. simpl. apply lively_closed; [unfold opened, is_state; by rewrite E1, Hst|by rewrite E2].
Qed.

Lemma owner_waits lb c fs x r (b : Prop) :
  0 <= x -> acct c (x + zsum prog_held (calls fs)) -> shape c -> tale c fs ->
  (match lb with LOwner _ => False | _ => True end) ->
  (state_ c = kConnecting -> gracefulShutdownRequested_ c = false) -> owner_step lb c fs = Some r -> waits b c ->
  waits b (fst r) /\ (gracefulShutdownRequested_ (fst r) = true -> gracefulShutdownRequested_ c = true).
Proof.
  intros Hx Ha Hs Ht Hlb Hnew Hst Hb. pose proof (calls_nonneg fs) as Hn.
  assert (idle fs && registered c = true -> fs = [] /\ opened c = true) as Hidle.
  { intros [H1 H2]%andb_true_iff. destruct fs; [|done]. split; [done|]. destruct (tl_registered _ _ Ht H2) as [?|[]]. done. }
  assert (forall c', lively c c' -> waits b c' /\ (gracefulShutdownRequested_ c' = true -> gracefulShutdownRequested_ c = true)) as Hl.
  { intros c' [H1 H2]. auto. }
  destruct lb as [att| |rr e|rr e room| |e|ch| |n|threw|p|ch|i p|i ch]; simpl in Hst; try done.
  - destruct (calm fs); [|done]. injection Hst as <-. unfold connectEstablished.
    destruct (negb (is_state kConnecting c) || channelRemoved_ c) eqn:E; [by split|].
    apply orb_false_iff in E as [Hc%negb_false_iff%is_state_eq _]. specialize (Hnew Hc). destruct att; simpl negb; cbv iota.
    + set (c1 := onConnectionEstablished _). assert (gracefulShutdownRequested_ c1 = gracefulShutdownRequested_ c) as E1.
      { unfold c1, onConnectionEstablished, applyBackpressureInLoop, apply. repeat case_match; done. }
      destruct (connectionCallback_ cb); simpl; (split; [|by rewrite E1]); intros _; simpl; rewrite E1; congruence.
    + simpl. destruct (removeChannel_spec (set_added true (set_reading true c))) as (k & rd & wr & -> & _).
      split; [|done]. intros Hop. unfold opened, is_state in Hop. simpl in Hop. by rewrite Hc in Hop.
  - destruct (calm fs); [|done]. injection Hst as <-. apply Hl. eapply destroyed_lively; [done|lia].
  - destruct (idle fs && _) eqn:E; [|done]. apply Hl. eapply handleRead_lively; [done|lia|done|done].
  - destruct (idle fs && _) eqn:E; [|done]. destruct (Hidle eq_refl). apply Hl. eapply handleWrite_lively; [done|lia|done..].
  - destruct (idle fs && _) eqn:E; [|done]. injection Hst as <-. apply Hl. eapply handleClose_lively; [done|lia|done].
  - destruct (idle fs && _) eqn:E; [|done]. injection Hst as <-. apply Hl. eapply publish_handleClose_lively; [done|lia|done].
  - destruct fs; [|done]. destruct (tasks c) as [|t ts] eqn:Et; [done|]. simpl in Ha. rewrite Z.add_0_r in Ha.
    set (c1 := set_tasks ts c) in Hst.
    assert (acct c1 (x + task_held t)) as Ha1.
    { destruct Ha as [A1 A2 A3 A4 A5 A6]. split; simpl; try done. rewrite A2, Et. simpl. lia. }
    assert (shape c1) as Hs1 by (destruct Hs; by split). apply Hl. apply (lively_trans _ c1); [by apply lively_ext|].
    destruct t as [data| |n]; simpl in Hst, Ha1; [|injection Hst as <-; by apply lively_ext..].
    destruct (_ || _) eqn:Eop; [by eapply send_lively|]. injection Hst as <-. eapply release_lively; try done. unfold zlen; lia.
  - destruct fs; [|done]. destruct (lifecycleSource_ c) as [[]|] eqn:El; [|done..]. injection Hst as <-.
    set (c1 := set_lifecycle (Some false) c). simpl in Ha. rewrite Z.add_0_r in Ha.
    assert (acct c1 x) as Ha1 by (by apply (acct_ext c)).
    assert (shape c1) as Hs1.
    { apply (shape_word (pendingOutputBytes_ c) (Some false)) in Hs; [|by rewrite El]. destruct Hs. by split. }
    split; [by apply (drive_waits c1 x)|]. by apply (drive_tame c1 x).
  - destruct fs as [|[] fs]; try done. injection Hst as <-. apply Hl. by apply lively_ext.
  - destruct fs as [|f fs]; [done|]. destruct (resume threw f c fs) as [r0|] eqn:Er; [|done]. injection Hst as <-.
    assert (calls (f :: fs) = calls fs) as Ec by (by destruct f). rewrite Ec in *.
    destruct (resume_ok threw f c fs (x + zsum prog_held (calls fs)) r0 ltac:(lia) Ha Hs Ht Er) as [[G1 G2 _ _] _].
    apply Hl. apply (lively_trans _ (fst r0)); [apply (resume_lively threw f c fs (x + zsum prog_held (calls fs))); try done; lia|].
    destruct r0 as [c1 fs1]. apply (settle_lively c1 (x + zsum prog_held (calls fs))); [done|lia|done].
  - destruct (calm fs && start p); [|done]. by injection Hst as <-.
Qed.

(** A program about to signal the lifecycle. *)
Definition will_signal (p : Prog) : bool :=
  match p with PClose _ CloseSignal | PSend _ SignalDrained => true | _ => false end.

Definition is_close (p : Prog) : bool := match p with PClose _ _ => true | _ => false end.

Lemma signal_waits (b : Prop) c : shape c -> waits b (fst (signalLifecycle c)).
Proof.
  intros Hs. destruct (signal_form c) as (l & -> & _ & Hl). intros Hop Hg. right. left. simpl. apply Hl.
  by destruct (sh_open c Hs Hop) as (_ & _ & _ & ?).
Qed.

Lemma prog_waits inLoop ch p c x c' nx (b : Prop) :
  acct c (x + prog_held p) -> 0 <= x -> shape c -> prog_step inLoop ch p c = Some (c', nx) ->
  waits (b \/ will_signal p = true) c ->
  (gracefulShutdownRequested_ c' = true -> gracefulShutdownRequested_ c = true \/ is_close p = true) /\
  match nx with
  | Go p' => waits (b \/ will_signal p' = true) c' /\ is_close p' = is_close p
  | Return | RunSend _ => waits b c'
  | RunDrive => True
  end.
Proof.
  intros Ha Hx Hs Hst Hb.
  assert (will_signal p = false -> forall b' : Prop, waits (b \/ b') c) as Hb'.
  { intros E b' H1 H2. destruct (Hb H1 H2) as [?|[?|[?|?]]]; [by left|by right; left|by right; right; left|congruence]. }
  assert (will_signal p = false -> waits b c) as Hb0.
  { intros E H1 H2. destruct (Hb H1 H2) as [?|[?|[?|?]]]; [by left|by right; left|by right; right|congruence]. }
  destruct p as [data pc|force pc].
  - destruct pc; simpl in Hst, Ha.
    + destruct (sealed _); injection Hst as <- <-; (split; [by left|]); [exact (Hb0 eq_refl)|split; [exact (Hb' eq_refl _)|done]].
    + destruct (gracefulShutdownRequested_ c) eqn:Eg; injection Hst as <- <-; (split; [intros; left; congruence|]); [exact (Hb0 eq_refl)|split; [exact (Hb' eq_refl _)|done]].
    + destruct (forceCloseRequested_ c); injection Hst as <- <-; (split; [by left|]); [exact (Hb0 eq_refl)|split; [exact (Hb' eq_refl _)|done]].
    + destruct (_ =? 0); [|destruct (negb _)]; injection Hst as <- <-; (split; [by left|]); [exact (Hb0 eq_refl)|exact (Hb0 eq_refl)|split; [exact (Hb' eq_refl _)|done]].
    + destruct (negb (ch_acquire ch)); [|destruct (sealed _) eqn:Ese; [|destruct (_ <? _) eqn:El]];
        injection Hst as <- <-; (split; [by left|]); try (exact (Hb0 eq_refl)). split; [|done].
      zify_bools. intros H1 H2. specialize (Hb0 eq_refl H1 H2). pose proof output_limit_bound.
      assert (0 <= zlen data) by (unfold zlen; lia). simpl.
      destruct (word_plus (pendingOutputBytes_ c) (zlen data) (ac_word _ _ Ha) Ese ltac:(done) ltac:(lia)) as (_ & -> & _).
      destruct Hb0 as [?|[?|?]]; [left; lia|by right; left|right; right; by left].
    + destruct (ch_budgets ch); try discriminate Hst; injection Hst as <- <-; (split; [by left|]); (split; [exact (Hb' eq_refl _)|done]).
    + destruct inLoop; [destruct (is_state kConnected c)|destruct (negb _); [|destruct (ch_post ch)]];
        injection Hst as <- <-; (split; [by left|]); try (exact (Hb0 eq_refl)); (split; [exact (Hb' eq_refl _)|done]).
    + injection Hst as Hst. assert (0 <= zlen data) by (unfold zlen; lia). pose proof (buffered_le c _ Ha ltac:(lia)).
      assert (0 <= zlen (outputBuffer_ c)) by (unfold zlen; lia).
      destruct (word_minus (pendingOutputBytes_ c) (zlen data) (ac_word _ _ Ha) ltac:(lia)) as (_ & Hc & _).
      unfold give_back in Hst. rewrite (proj2 (Z.ltb_ge _ _)) in Hst by lia.
      destruct (_ && _) eqn:E; injection Hst as <- <-; (split; [by left|]).
      * split; [|done]. intros _ _. right. right. by right.
      * intros Hop Hg. simpl. rewrite Hc. simpl in Hg. pose proof (ac_graceful _ _ Ha Hg) as Hse. rewrite Hse in E. simpl in E.
        zify_bools. left. lia.
    + injection Hst as <- <-. split; [destruct (signal_form c) as (l & -> & _); by left|by apply signal_waits].
  - destruct pc as [| |first|first|]; simpl in Hst.
    + destruct (is_state _ _); injection Hst as <- <-; (split; [by left|]); [exact (Hb0 eq_refl)|split; [exact (Hb' eq_refl _)|done]].
    + injection Hst as <- <-. split; [by left|]. split; [|done]. intros H1 H2. specialize (Hb0 eq_refl H1 H2).
      destruct (word_seal _ (ac_word _ _ Ha)) as (_ & Hc & _). simpl. rewrite Hc. tauto.
    + injection Hst as <- <-. split; [by left|]. split; [|done]. exact (Hb' eq_refl _).
    + injection Hst as <- <-. split; [by right|]. split; [|done]. intros _ _. right. right. by right.
    + destruct inLoop; injection Hst as <- <-; [split; [by left|done]|].
      split; [destruct (signal_form c) as (l & -> & _); by left|by apply signal_waits].
Qed.

(** A program of [m] is about to signal. *)
Definition signal_coming (m : Machine) : Prop :=
  (exists i p, threads m !! i = Some p /\ will_signal p = true) \/
  (exists p, In p (calls (frames m)) /\ will_signal p = true).

(** Close requests start once the connection is established. *)
Definition polite (lb : Label) (m : Machine) : Prop :=
  match lb with
  | LCall p | LSpawn _ p => is_close p = true -> state_ (conn m) <> kConnecting
  | _ => True
  end.

Record live (m : Machine) : Prop := {
  lv_waits : waits (signal_coming m) (conn m);
  lv_new : state_ (conn m) = kConnecting -> gracefulShutdownRequested_ (conn m) = false /\
    (forall i p, threads m !! i = Some p -> is_close p = false) /\ (forall p, In p (calls (frames m)) -> is_close p = false);
}.

Lemma waits_impl (b b' : Prop) c : (b -> b') -> waits b c -> waits b' c.
Proof. intros Hb H H1 H2. destruct (H H1 H2) as [?|[?|?]]; auto. Qed.

Lemma state_back c c' : keeps c c' -> state_ c' = kConnecting -> state_ c = kConnecting.
Proof. intros Hk E. pose proof (kp_state _ _ Hk) as H. rewrite E in H. destruct (state_ c); simpl in H; (done || lia). Qed.

(** Outside its own programs, the owner starts none. *)
Section calls.
Lemma close_calls c fs : calls (snd (handleClose c fs)) = calls fs.
Proof.
  unfold handleClose, beginCloseInLoop, finishClose. repeat (destruct (is_state _ _)); try done.
  destruct (call_disconnected_spec (finish_state (begin_state (publishCloseInfo PeerEof 0 c))) fs) as [->|(e & s & -> & _)]; done.
Qed.

Lemma begin_calls c fs : calls (snd (beginCloseInLoop c fs)) = calls fs.
Proof.
  unfold beginCloseInLoop, finishClose. repeat (destruct (is_state _ _)); try done.
  destruct (call_disconnected_spec (finish_state (begin_state c)) fs) as [->|(e & s & -> & _)]; done.
Qed.

Lemma input_limit_calls c fs : calls (snd (closeOnInputLimitInLoop c fs)) = calls fs.
Proof. unfold closeOnInputLimitInLoop. destruct (negb _); [done|apply close_calls]. Qed.

Lemma destroyed_calls c fs : calls (snd (connectDestroyed c fs)) = calls fs.
Proof. unfold connectDestroyed. by destruct (_ && _). Qed.

Lemma settle_calls r : calls (snd (settle r)) = calls (snd r).
Proof. by destruct r as [c [|[] fs]]. Qed.

Lemma drive_calls c fs : calls (snd (driveLifecycleInLoop c fs)) = calls fs.
Proof.
  unfold driveLifecycleInLoop. destruct (forceCloseRequested_ c); [|done]. rewrite settle_calls. unfold forceCloseInLoop.
  destruct (_ || _); [|done]. by rewrite begin_calls.
Qed.

Lemma send_calls ch data c fs r : sendReservedInLoop ch data c fs = Some r -> calls (snd r) = calls fs.
Proof.
  intros H. unfold sendReservedInLoop in H. destruct (is_state _ _); [by injection H as <-|].
  destruct (_ && _); [|destruct (0 <? _); by injection H as <-].
  destruct (ch_write ch) as [n|err].
  - destruct (_ || _); [done|]. destruct (_ =? 0); by injection H as <-.
  - destruct (_ || _); [destruct (0 <? _); by injection H as <-|]. injection H as <-. apply close_calls.
Qed.

Lemma resume_calls threw f c fs r : resume threw f c fs = Some r -> calls (snd r) = calls fs.
Proof.
  intros H. destruct f as [| | |s| | |p]; simpl in H; try done.
  - destruct threw; injection H as <-; [apply close_calls|done].
  - destruct threw; injection H as <-; [apply close_calls|apply input_limit_calls].
  - destruct threw; injection H as <-; [apply close_calls|done].
  - destruct s; injection H as <-.
    + by destruct (call_closeInfo_spec c fs) as [->|(e & s & -> & _)].
    + by destruct (call_close_spec c fs) as [->| ->].
    + unfold after_close. destruct (_ && _); [apply destroyed_calls|done].
  - by injection H as <-.
Qed.

Lemma owner_calls lb c fs r :
  owner_step lb c fs = Some r -> (match lb with LOwner _ => False | _ => True end) ->
  calls (snd r) = calls fs \/ exists p, lb = LCall p /\ start p = true /\ calls (snd r) = p :: calls fs.
Proof.
  intros H Hlb. destruct lb as [att| |rr e|rr e room| |e|ch| |n|threw|p|ch|i p|i ch]; simpl in H; try done.
  - destruct (calm fs); [|done]. injection H as <-. left. unfold connectEstablished.
    destruct (_ || _); [done|]. destruct att; simpl; [|done]. by destruct (connectionCallback_ cb).
  - destruct (calm fs); [|done]. injection H as <-. left. apply destroyed_calls.
  - destruct (idle fs && _); [|done]. left. unfold handleRead in H. destruct (_ =? 0); [injection H as <-; apply input_limit_calls|].
    destruct rr as [bytes| |err].
    + destruct (_ || _); [done|]. destruct (_ && _); injection H as <-; [done|apply input_limit_calls].
    + injection H as <-. apply close_calls.
    + destruct (_ || _); injection H as <-; [done|apply close_calls].
  - destruct (idle fs && _); [|done]. left. unfold handleWrite in H. destruct (negb _); [by injection H as <-|].
    destruct rr as [n|err].
    + destruct (_ || _); [done|]. destruct (n =? 0); [by injection H as <-|]. destruct (_ =? 0); by injection H as <-.
    + destruct (_ || _); injection H as <-; [done|apply close_calls].
  - destruct (idle fs && _); [|done]. injection H as <-. left. apply close_calls.
  - destruct (idle fs && _); [|done]. injection H as <-. left. apply close_calls.
  - left. destruct fs; [|done]. destruct (tasks c) as [|t ts]; [done|]. destruct t as [data| |n]; simpl in H.
    + destruct (_ || _); [by eapply send_calls|by injection H as <-].
    + by injection H as <-.
    + by injection H as <-.
  - left. destruct fs; [|done]. destruct (lifecycleSource_ c) as [[]|]; [|done..]. injection H as <-. apply drive_calls.
  - left. destruct fs as [|[] fs]; try done. by injection H as <-.
  - left. destruct fs as [|f fs]; [done|]. destruct (resume threw f c fs) as [r0|] eqn:Er; [|done]. injection H as <-.
    rewrite settle_calls, (resume_calls _ _ _ _ _ Er). destruct f; try done.
  - destruct (calm fs && start p) eqn:E; [|done]. apply andb_true_iff in E as [_ E]. injection H as <-. right. by exists p.
Qed.
End calls.

Lemma start_quiet p : start p = true -> will_signal p = false.
Proof. by destruct p as [? []|? []]. Qed.

(** Steps of the owner outside its programs. *)
Lemma owner_live lb m c fs :
  minv m -> live m -> polite lb m -> (match lb with LOwner _ => False | _ => True end) ->
  owner_step lb (conn m) (frames m) = Some (c, fs) -> keeps (conn m) c -> live (mkMachine c fs (threads m)).
Proof.
  intros [M1 M2 M3 M4 M5] [L1 L2] Hpol Hlb Hst Hk.
  destruct (owner_waits lb (conn m) (frames m) _ (c, fs) (signal_coming m) (held_nonneg (threads m)) M1 M2 M3 Hlb) as [Hw Ht];
    [intros E; apply (L2 E)|done|done|].
  destruct (owner_calls lb _ _ _ Hst Hlb) as [Hc|(p & -> & Hsp & Hc)]; simpl in Hc; split; simpl.
  - eapply waits_impl; [|done]. unfold signal_coming. simpl. by rewrite Hc.
  - intros E. pose proof (state_back _ _ Hk E) as E0. destruct (L2 E0) as (G1 & G2 & G3).
    split_and!; [destruct (gracefulShutdownRequested_ c) eqn:Eg; [|done]; specialize (Ht Eg); congruence|done|by rewrite Hc].
  - eapply waits_impl; [|done]. unfold signal_coming. simpl. rewrite Hc.
    intros [?|(q & Hq & ?)]; [by left|right]. exists q. split; [by right|done].
  - intros E. pose proof (state_back _ _ Hk E) as E0. destruct (L2 E0) as (G1 & G2 & G3).
    split_and!; [destruct (gracefulShutdownRequested_ c) eqn:Eg; [|done]; specialize (Ht Eg); congruence|done|]. rewrite Hc.
    intros q [<-|Hq]; [|by apply G3]. destruct (is_close p) eqn:Ep; [|done]. by destruct (Hpol Ep).
Qed.

(** Steps of the owner's programs. *)
Lemma program_live ch m c fs :
  minv m -> live m -> owner_step (LOwner ch) (conn m) (frames m) = Some (c, fs) -> keeps (conn m) c ->
  live (mkMachine c fs (threads m)).
Proof.
  intros [M1 M2 M3 M4 M5] [L1 L2] Hst Hk. simpl in Hst. destruct (frames m) as [|[| | |s| | |p] fs0] eqn:Efs; try done.
  change (calls (FCall p :: fs0)) with (p :: calls fs0) in *. simpl in M1. inversion M4 as [|? ? Hp1 Hp2]; subst.
  set (b := (exists i q, threads m !! i = Some q /\ will_signal q = true) \/ (exists q, In q (calls fs0) /\ will_signal q = true)).
  assert (waits (b \/ will_signal p = true) (conn m)) as Hb.
  { eapply waits_impl; [|done]. unfold signal_coming. rewrite Efs. unfold b.
    intros [?|(q & [<-|Hq] & ?)]; [by left; left|by right|left; right; eauto]. }
  set (y := msum prog_held (threads m) + zsum prog_held (calls fs0)).
  pose proof (held_nonneg (threads m)). pose proof (calls_nonneg fs0).
  assert (acct (conn m) (y + prog_held p)) as Ha.
  { unfold y. by replace (msum prog_held (threads m) + zsum prog_held (calls fs0) + prog_held p) with
      (msum prog_held (threads m) + (prog_held p + zsum prog_held (calls fs0))) by lia. }
  destruct (prog_step true ch p (conn m)) as [[c1 nx]|] eqn:Ep; [|done].
  destruct (prog_step_good true ch p (conn m) y c1 nx Ha ltac:(lia) M2 Hp1 Ep) as (Hk1 & Hs1 & Hnx).
  destruct (prog_waits true ch p (conn m) y c1 nx b Ha ltac:(lia) M2 Ep Hb) as (Ht1 & Hw1).
  assert (forall c2 fs2, state_ c2 = kConnecting -> keeps (conn m) c2 -> (gracefulShutdownRequested_ c2 = true -> gracefulShutdownRequested_ c1 = true) ->
    (calls fs2 = calls fs0 \/ exists p', calls fs2 = p' :: calls fs0 /\ is_close p' = is_close p) ->
    gracefulShutdownRequested_ c2 = false /\ (forall i q, threads m !! i = Some q -> is_close q = false) /\
    (forall q, In q (calls fs2) -> is_close q = false)) as Hnew.
  { intros c2 fs2 E2 Hk2 Hg2 Hc2. pose proof (state_back _ _ Hk2 E2) as E0. destruct (L2 E0) as (G1 & G2 & G3).
    assert (is_close p = false) as Hcp by (apply G3; by left). split_and!; [|done|].
    - destruct (gracefulShutdownRequested_ c2) eqn:E; [|done]. destruct (Ht1 (Hg2 eq_refl)); congruence.
    - intros q Hq. destruct Hc2 as [Hc2|(p' & Hc2 & Hp')]; rewrite Hc2 in Hq; [apply G3; by right|].
      destruct Hq as [<-|Hq]; [congruence|apply G3; by right]. }
  destruct nx as [p'| |data|].
  - apply (inj Some) in Hst. injection Hst as <- <-. destruct Hw1 as [Hw1 Hcl]. split; simpl.
    + eapply waits_impl; [|done]. unfold signal_coming, b. simpl.
      intros [[?|(q & ? & ?)]|?]; [by left|right; exists q; split; [by right|done]|right; exists p'; split; [by left|done]].
    + intros E. apply (Hnew c1 (FCall p' :: fs0)); try done. right. by exists p'.
  - apply (inj Some) in Hst. injection Hst as <- <-. split; [done|]. simpl. intros E. apply (Hnew c1 fs0); try done. by left.
  - destruct Hnx as [Hna Hco]. assert (opened c1 = true) as Hop by (unfold opened; by rewrite Hco).
    pose proof (send_lively ch data c1 y fs0 (c, fs) Hna ltac:(lia) Hs1 Hop Hst) as [Hg Hl].
    pose proof (send_calls ch data c1 fs0 (c, fs) Hst) as Hc. simpl in Hc. split; simpl.
    + eapply waits_impl; [|by apply (Hl b)]. unfold signal_coming, b. simpl. by rewrite Hc.
    + intros E. apply (Hnew c fs); try done. by left.
  - apply (inj Some) in Hst. pose proof (drive_calls c1 fs0) as Hc.
    pose proof (fun b => drive_waits c1 y fs0 b Hnx ltac:(lia) Hs1) as Hw. pose proof (drive_tame c1 y fs0 Hnx ltac:(lia) Hs1) as Hg.
    rewrite Hst in *. simpl in *. split; simpl; [apply Hw|]. intros E. apply (Hnew c fs); try done. by left.
Qed.

Lemma thread_live m i ch p c nx t :
  minv m -> live m -> threads m !! i = Some p -> prog_step false ch p (conn m) = Some (c, nx) -> keeps (conn m) c ->
  (exists p', nx = Go p' /\ t = <[i := p']> (threads m)) \/ (nx = Return /\ t = delete i (threads m)) ->
  live (mkMachine c (frames m) t).
Proof.
  intros [M1 M2 M3 M4 M5] [L1 L2] Hi Hst Hk Ht.
  set (b := (exists j q, j <> i /\ threads m !! j = Some q /\ will_signal q = true) \/ (exists q, In q (calls (frames m)) /\ will_signal q = true)).
  assert (waits (b \/ will_signal p = true) (conn m)) as Hb.
  { eapply waits_impl; [|done]. unfold b. intros [(j & q & Hj & Hq)|?]; [|by left; right].
    destruct (decide (j = i)) as [->|]; [right; congruence|left; left; eauto]. }
  set (y := msum prog_held (delete i (threads m)) + zsum prog_held (calls (frames m))).
  assert (acct (conn m) (y + prog_held p)) as Ha.
  { unfold y. rewrite (msum_delete _ _ _ p) by done.
    by replace (msum prog_held (threads m) - prog_held p + zsum prog_held (calls (frames m)) + prog_held p)
      with (msum prog_held (threads m) + zsum prog_held (calls (frames m))) by lia. }
  pose proof (held_nonneg (delete i (threads m))). pose proof (calls_nonneg (frames m)).
  destruct (prog_waits false ch p (conn m) y c nx b Ha ltac:(lia) M2 Hst Hb) as (Ht1 & Hw1).
  assert (forall j q, t !! j = Some q -> j <> i -> threads m !! j = Some q) as Hback.
  { intros j q Hj Hne. destruct Ht as [(p' & _ & ->)|[_ ->]]; by rewrite ?lookup_insert_ne, ?lookup_delete_ne in Hj. }
  assert (forall j q, threads m !! j = Some q -> j <> i -> t !! j = Some q) as Hforth.
  { intros j q Hj Hne. destruct Ht as [(p' & _ & ->)|[_ ->]]; by rewrite ?lookup_insert_ne, ?lookup_delete_ne. }
  assert (forall b' : Prop, (exists j q, j <> i /\ threads m !! j = Some q /\ will_signal q = true) ->
    signal_coming (mkMachine c (frames m) t)) as Hsig.
  { intros _ (j & q & Hne & Hj & Hq). left. exists j, q. split; [by apply Hforth|done]. }
  split; simpl.
  - destruct Ht as [(p' & -> & ->)|[-> ->]]; [destruct Hw1 as [Hw1 _]|]; (eapply waits_impl; [|exact Hw1]).
    + intros [[?|?]|?]; [by apply (Hsig True)|by right|]. left. exists i, p'. simpl. by rewrite lookup_insert_eq.
    + intros [?|?]; [by apply (Hsig True)|by right].
  - intros E. pose proof (state_back _ _ Hk E) as E0. destruct (L2 E0) as (G1 & G2 & G3). split_and!; [|intros j q Hj|done].
    + destruct (gracefulShutdownRequested_ c) eqn:Eg; [|done]. destruct (Ht1 eq_refl); [congruence|]. rewrite (G2 i p Hi) in *. done.
    + destruct (decide (j = i)) as [->|]; [|by apply (G2 j), Hback].
      destruct Ht as [(p' & -> & ->)|[_ ->]]; [|by rewrite lookup_delete_eq in Hj]. destruct Hw1 as [_ Hcl].
      rewrite lookup_insert_eq in Hj. injection Hj as <-. rewrite Hcl. by apply (G2 i).
Qed.

Lemma conn_step_live lb m m' : minv m -> live m -> polite lb m -> conn_step lb m = Some m' -> live m'.
Proof.
  intros Hm Hl Hpol Hst. pose proof (conn_step_minv lb m m' Hm Hst) as [_ Hk]. pose proof Hst as Hst'.
  unfold conn_step in Hst. rewrite (ac_fatal _ _ (mi_acct _ Hm)) in Hst.
  destruct lb as [att| |rr e|rr e room| |e|ch| |n|threw|p|ch|i p|i ch];
    try (destruct (owner_step _ _ _) as [[c fs]|] eqn:Eo; [|done]; apply (inj Some) in Hst; subst m';
         first [by eapply program_live|by eapply owner_live]).
  - destruct (_ && _) eqn:E; [|done]. apply (inj Some) in Hst. subst m'. apply andb_true_iff in E as [Hi%bool_decide_eq_true Hsp].
    destruct Hl as [L1 L2]. split; simpl.
    + eapply waits_impl; [|done]. intros [(j & q & Hj & Hq)|?]; [|by right]. left. exists j, q. simpl.
      rewrite lookup_insert_ne; [done|congruence].
    + intros E. destruct (L2 E) as (G1 & G2 & G3). split_and!; [done| |done].
      intros j q [[<- <-]|[_ Hj]]%lookup_insert_Some; [|by apply (G2 j)]. destruct (is_close p) eqn:Ep; [|done]. by destruct (Hpol Ep).
  - destruct (threads m !! i) as [p|] eqn:Ei; [|done].
    destruct (prog_step false ch p (conn m)) as [[c nx]|] eqn:Ep; [|done].
    destruct nx as [p'| |data|]; [..|done|done]; apply (inj Some) in Hst; subst m';
      (eapply thread_live; [done|done|done|done|done|]); [left; eauto|by right].
Qed.

(** Runs in which close requests start after the establishment. *)
Fixpoint polite_steps (lbs : list Label) (m : Machine) : Prop :=
  match lbs with
  | [] => True
  | lb :: lbs => polite lb m /\ match conn_step lb m with Some m' => polite_steps lbs m' | None => True end
  end.

Lemma conn_steps_live lbs : forall m m', minv m -> live m -> polite_steps lbs m -> conn_steps lbs m = Some m' -> live m'.
Proof.
  induction lbs as [|lb lbs IH]; intros m m' Hm Hl Hp Hs; simpl in Hs, Hp; [by simplify_eq|]. destruct Hp as [Hp Hps].
  destruct (conn_step lb m) as [m1|] eqn:E; [|done]. eapply (IH m1); [|by eapply conn_step_live|done|done].
  by eapply conn_step_minv.
Qed.
(** ** Payloads

    What becomes of the bytes that sends were granted: [payload_in] are those a step accepts
    (the owner goes on to send them, or they are posted to the loop), [payload_lost] those of
    an accepted payload that a step gives up, neither writing nor buffering them. *)

(** What [sendReservedInLoop] gives up: everything once the connection is closed or if the
    socket fails, and what was not written if the buffer cannot grow. *)
Definition send_lost (ch : Choice) (data : list byte) (c : TcpConnection) : Z :=
  let starved n := if ch_memory ch then 0 else zlen data - n in
  if is_state kDisconnected c then zlen data
  else if negb (writing c) && (zlen (outputBuffer_ c) =? 0) then
    match ch_write ch with
    | WOk n => starved n
    | WErr err => if isWouldBlock err || isInterrupted err then starved 0 else zlen data
    end
  else starved 0.

Definition payload_in (lb : Label) (m : Machine) : Z :=
  match lb with
  | LOwner ch =>
      match frames m with
      | FCall (PSend data Granted) :: _ => if is_state kConnected (conn m) then zlen data else 0
      | _ => 0
      end
  | LThread i ch =>
      match threads m !! i with
      | Some (PSend data Granted) => match ch_memory ch, ch_post ch with true, PostAccepted => zlen data | _, _ => 0 end
      | _ => 0
      end
  | _ => 0
  end.

Definition payload_lost (lb : Label) (m : Machine) : Z :=
  match lb with
  | LOwner ch =>
      match frames m with
      | FCall (PSend data Granted) :: _ => if is_state kConnected (conn m) then send_lost ch data (conn m) else 0
      | _ => 0
      end
  | LTask ch =>
      match frames m, tasks (conn m) with
      | [], TSend data :: _ => if opened (conn m) then send_lost ch data (conn m) else zlen data
      | _, _ => 0
      end
  | _ => 0
  end.

(** Over a run. *)
Fixpoint total (f : Label -> Machine -> Z) (lbs : list Label) (m : Machine) : Z :=
  match lbs with
  | [] => 0
  | lb :: lbs => f lb m + match conn_step lb m with Some m' => total f lbs m' | None => 0 end
  end.

(** No allocation of the output buffer fails. *)
Definition ample (lb : Label) : bool :=
  match lb with LTask ch | LOwner ch => ch_memory ch | _ => true end.

(** What has been taken over, or is still posted. *)
Definition flow (c : TcpConnection) : Z := zlen (taken c) + zsum task_held (tasks c).

Lemma flow_same c c' : taken c' = taken c -> tasks c' = tasks c -> flow c' = flow c.
Proof. unfold flow. congruence. Qed.

Lemma flow_post c t c' : taken c' = taken c -> tasks c' = tasks c ++ [t] -> flow c' = flow c + task_held t.
Proof. unfold flow. intros -> ->. rewrite zsum_app. simpl. lia. Qed.

Ltac flow_by_cases := repeat case_match; try done; by apply flow_same.

Lemma release_flow n c : flow (releaseOutputBytes n c) = flow c.
Proof. unfold releaseOutputBytes, signalLifecycle. flow_by_cases. Qed.

Lemma apply_flow n c : flow (apply n c) = flow c.
Proof. unfold apply. flow_by_cases. Qed.

Lemma shutdown_flow c : flow (shutdownInLoop c) = flow c.
Proof. unfold shutdownInLoop. flow_by_cases. Qed.

Lemma drive_graceful_flow c : flow (drive_graceful c) = flow c.
Proof.
  unfold drive_graceful. destruct (gracefulShutdownRequested_ c); [|done]. cbv zeta. set (c1 := if is_state kConnected c then _ else _).
  assert (flow c1 = flow c) as E by (unfold c1; by destruct (is_state kConnected c)). clearbody c1. destruct (is_state kDisconnecting c1); [by rewrite shutdown_flow|done].
Qed.

Lemma settle_flow r : flow (fst (settle r)) = flow (fst r).
Proof. destruct r as [c [|[] fs]]; try done. simpl. unfold drive_rest. by rewrite drive_graceful_flow. Qed.

Lemma queueWriteComplete_flow room c : flow (queueWriteComplete room c) = flow c.
Proof.
  unfold queueWriteComplete. repeat case_match; try done. erewrite (flow_post c TWriteComplete) by done. simpl. lia.
Qed.

Lemma maybeQueueHighWaterMark_flow room a b c : flow (maybeQueueHighWaterMark room a b c) = flow c.
Proof.
  unfold maybeQueueHighWaterMark. repeat case_match; try done. erewrite (flow_post c (THighWaterMark b)) by done. simpl. lia.
Qed.

Lemma clear_flow c : flow (clearBufferedOutputInLoop c) = flow c.
Proof. unfold clearBufferedOutputInLoop. destruct (_ =? 0); [done|]. by rewrite release_flow. Qed.

Lemma remove_flow c : flow (removeChannelRegistrationInLoop c) = flow c.
Proof. by destruct (removeChannel_spec c) as (r & rd & wr & -> & _). Qed.

Lemma closed_flow c fs r : closed_by c fs r -> flow (fst r) = flow c.
Proof.
  intros (c' & Hc & Hr). destruct (cl_same _ _ Hc) as (_ & E1 & E2 & _).
  destruct Hr as [->|(e & s & -> & _)]; by apply flow_same.
Qed.

Lemma begin_flow c x fs : acct c x -> 0 <= x -> shape c -> flow (fst (beginCloseInLoop c fs)) = flow c.
Proof.
  intros Ha Hx Hs. destruct (is_state kDisconnected c) eqn:Hd; [unfold beginCloseInLoop; by rewrite Hd|].
  eapply closed_flow, begin_close_spec; done.
Qed.

Lemma handleClose_flow r n c x fs : acct c x -> 0 <= x -> shape c -> flow (fst (handleClose (publishCloseInfo r n c) fs)) = flow c.
Proof.
  intros Ha Hx Hs. unfold handleClose. destruct (is_state kDisconnected _); [done|].
  erewrite begin_flow; [done|by do 2 apply publish_acct|done|by do 2 apply publish_shape].
Qed.

Lemma plain_handleClose_flow c x fs : acct c x -> 0 <= x -> shape c -> flow (fst (handleClose c fs)) = flow c.
Proof.
  intros Ha Hx Hs. unfold handleClose. destruct (is_state kDisconnected _); [done|].
  erewrite begin_flow; [done|by apply publish_acct|done|by apply publish_shape].
Qed.

(** An open connection that is told to close is not open any more. *)
Lemma handleClose_shuts r n c x fs : acct c x -> 0 <= x -> shape c ->
  opened (fst (handleClose (publishCloseInfo r n c) fs)) = false.
Proof.
  intros Ha Hx Hs. assert (forall c', state_ c' = kDisconnected -> opened c' = false) as Hop by (intros c' E; unfold opened, is_state; by rewrite E).
  destruct (is_state kDisconnected c) eqn:Hd.
  { unfold handleClose. change (is_state kDisconnected (publishCloseInfo r n c)) with (is_state kDisconnected c). rewrite Hd. by apply Hop, is_state_eq. }
  destruct (handleClose_spec (publishCloseInfo r n c) x fs) as (c' & Hc & Hr); [by apply publish_acct|done|by apply publish_shape|done|].
  destruct Hr as [->|(e & s & -> & _)]; apply Hop; apply (cl_state _ _ Hc).
Qed.

Lemma destroy_rest_flow c : flow (destroy_rest c) = flow c.
Proof. unfold destroy_rest. destruct (negb _); [done|]. change (flow (removeChannelRegistrationInLoop c) = flow c). apply remove_flow. Qed.

Lemma destroyed_flow c fs : flow (fst (connectDestroyed c fs)) = flow c.
Proof.
  unfold connectDestroyed. set (c1 := clearBufferedOutputInLoop _). assert (flow c1 = flow c) as <- by (unfold c1; by rewrite clear_flow).
  destruct (_ && _); [done|]. simpl. by rewrite destroy_rest_flow.
Qed.

Lemma limit_flow c x fs : acct c x -> 0 <= x -> shape c -> flow (fst (closeOnInputLimitInLoop c fs)) = flow c.
Proof. intros. unfold closeOnInputLimitInLoop. destruct (negb _); [done|]. by eapply handleClose_flow. Qed.

Lemma established_flow attached c fs : flow (fst (connectEstablished attached c fs)) = flow c.
Proof.
  unfold connectEstablished. destruct (_ || _); [done|]. destruct (negb attached).
  { simpl. change (flow (removeChannelRegistrationInLoop (set_added true (set_reading true c))) = flow c). by rewrite remove_flow. }
  set (c1 := onConnectionEstablished _). assert (flow c1 = flow c) as <-.
  { unfold c1, onConnectionEstablished, applyBackpressureInLoop. rewrite apply_flow.
    assert (forall c', flow (set_enabled true (set_active true c')) = flow c') as -> by done. by rewrite apply_flow. }
  by destruct (connectionCallback_ cb).
Qed.

Lemma drive_flow c x fs : acct c x -> 0 <= x -> shape c -> flow (fst (driveLifecycleInLoop c fs)) = flow c.
Proof.
  intros Ha Hx Hs. unfold driveLifecycleInLoop. destruct (forceCloseRequested_ c); [|apply drive_graceful_flow].
  rewrite settle_flow. unfold forceCloseInLoop. destruct (_ || _); [|done]. by eapply begin_flow.
Qed.

Lemma buffer_rest_flow ch rest c :
  flow (fst (buffer_rest ch rest c)) = flow c + (if ch_memory ch then zlen rest else 0).
Proof.
  unfold buffer_rest. destruct (ch_memory ch); cbn [negb fst]; [|rewrite release_flow; lia].
  rewrite maybeQueueHighWaterMark_flow. set (c1 := set_taken _ _).
  assert (flow c1 = flow c + zlen rest) as <- by (unfold flow, c1; cbn [taken tasks set_taken set_output]; rewrite zlen_app; lia).
  rewrite <- (apply_flow (zlen (outputBuffer_ c1)) c1). fold (applyBackpressureInLoop c1). by destruct (writing _).
Qed.

Lemma send_flow ch data c x fs cf : acct c (x + zlen data) -> 0 <= x -> shape c -> sendReservedInLoop ch data c fs = Some cf ->
  flow (fst cf) = flow c + zlen data - send_lost ch data c /\
  (opened (fst cf) = true -> ch_memory ch = true -> send_lost ch data c = 0).
Proof.
  intros Ha Hx Hs Hsend. assert (0 <= zlen data) as Hlen by (unfold zlen; lia). unfold sendReservedInLoop, send_lost in *.
  destruct (is_state kDisconnected c) eqn:Hd.
  { injection Hsend as <-. cbn [fst]. rewrite release_flow. split; [lia|]. intros Hop _. exfalso.
    apply is_state_eq in Hd. apply open_not_closed in Hop. by rewrite (st_state _ _ (release_still (zlen data) c)) in Hop. }
  assert (forall rest n c1 cf, Some (fst (buffer_rest ch rest c1), fs) = Some cf -> zlen rest = zlen data - n -> flow c1 = flow c + n ->
    flow (fst cf) = flow c + zlen data - (if ch_memory ch then 0 else zlen data - n) /\
    (opened (fst cf) = true -> ch_memory ch = true -> (if ch_memory ch then 0 else zlen data - n) = 0)) as Hbuf.
  { intros rest n c1 cf' [= <-] Hr Hf. cbn [fst]. rewrite buffer_rest_flow, Hf. destruct (ch_memory ch); (split; [lia|done]). }
  assert (forall cf, (if 0 <? zlen data then Some (fst (buffer_rest ch data c), fs) else Some (c, fs)) = Some cf ->
    flow (fst cf) = flow c + zlen data - (if ch_memory ch then 0 else zlen data - 0) /\
    (opened (fst cf) = true -> ch_memory ch = true -> (if ch_memory ch then 0 else zlen data - 0) = 0)) as Hall.
  { intros cf' H. destruct (0 <? zlen data) eqn:E; zify_bools; [apply (Hbuf data 0 c); done || lia|]. injection H as <-. cbn [fst].
    destruct (ch_memory ch); (split; [lia|lia]). }
  destruct (_ && _); [|by apply Hall].
  destruct (ch_write ch) as [n|err].
  - destruct ((n <? 0) || _) eqn:En; [done|]. zify_bools. set (c1 := set_taken _ _) in Hsend.
    assert (flow c1 = flow c + n) as H1.
    { rewrite <- (release_flow n c). unfold flow, c1. cbn [taken tasks set_taken set_written]. rewrite zlen_app.
      replace (zlen (take (Z.to_nat n) data)) with n by (unfold zlen in *; rewrite length_take; lia).
      assert (taken (releaseOutputBytes n c) = taken c) as -> by (unfold releaseOutputBytes, signalLifecycle; repeat case_match; done). lia. }
    destruct (_ =? 0) eqn:E; zify_bools.
    + injection Hsend as <-. cbn [fst]. rewrite queueWriteComplete_flow, H1. destruct (ch_memory ch); (split; [lia|lia]).
    + apply (Hbuf (drop (Z.to_nat n) data) n c1); [done|unfold zlen in *; rewrite length_drop; lia|done].
  - destruct (_ || _); [by apply Hall|]. injection Hsend as <-. split.
    + unfold handleError. erewrite handleClose_flow; [rewrite release_flow; lia|by apply release_acct|done|by eapply release_shape].
    + unfold handleError. erewrite handleClose_shuts; [done|by apply release_acct|done|by eapply release_shape].
Qed.

Lemma prog_flow inLoop ch p c c' nx : prog_step inLoop ch p c = Some (c', nx) ->
  flow c' = flow c + match p with
                     | PSend data Granted => if inLoop then 0 else match ch_memory ch, ch_post ch with true, PostAccepted => zlen data | _, _ => 0 end
                     | _ => 0
                     end /\
  (forall data, nx = RunSend data -> p = PSend data Granted /\ is_state kConnected c = true /\ c' = c) /\
  (forall data, p = PSend data Granted -> inLoop = true -> (is_state kConnected c = true -> nx = RunSend data) /\ (is_state kConnected c = false -> exists p', nx = Go p')).
Proof.
  intros Hst. destruct p as [data []|force [| |first|first|]]; simpl in Hst; unfold give_back, signalLifecycle in Hst.
  all: try (repeat case_match; simplify_eq; (split; [unfold flow; simpl; lia|split; intros; done]); fail).
  destruct inLoop.
  - destruct (is_state kConnected c) eqn:E; simplify_eq; (split; [lia|]); (split; [intros d Hd; by simplify_eq|intros d Hd _; simplify_eq; split; [done|eauto]]); done.
  - destruct (ch_memory ch); simpl in Hst; [|simplify_eq; split; [lia|split; done]].
    destruct (ch_post ch); simplify_eq; (split; [|split; done]); try lia. erewrite (flow_post c (TSend data)) by done. done.
Qed.

Lemma resume_flow threw f c x fs r : acct c x -> 0 <= x -> shape c -> resume threw f c fs = Some r -> flow (fst r) = flow c.
Proof.
  intros Ha Hx Hs Hr. destruct f as [| | |s| | |p]; simpl in Hr; try done.
  - destruct threw; injection Hr as <-; [by eapply handleClose_flow|done].
  - destruct threw; injection Hr as <-; [by eapply handleClose_flow|by eapply limit_flow].
  - destruct threw; injection Hr as <-; [by eapply handleClose_flow|done].
  - destruct s; injection Hr as <-.
    + destruct (call_closeInfo_spec c fs) as [->|(e & s & -> & _)]; done.
    + destruct (call_close_spec c fs) as [->| ->]; done.
    + unfold after_close. destruct (_ && _); [apply destroyed_flow|done].
  - injection Hr as <-. apply destroy_rest_flow.
Qed.

Lemma handleRead_flow r e c x fs cf : acct c x -> 0 <= x -> shape c -> handleRead r e c fs = Some cf -> flow (fst cf) = flow c.
Proof.
  intros Ha Hx Hs Hr. unfold handleRead in Hr. destruct (_ =? 0) eqn:E0; [injection Hr as <-; by eapply limit_flow|].
  destruct r as [bytes| |err].
  - destruct (_ || _) eqn:Eb; [done|]. apply orb_false_iff in Eb as [_ Eb]. zify_bools.
    unfold remainingInputCapacity in *. destruct (_ <=? _) eqn:El; [done|]. zify_bools.
    set (c1 := set_input _ c) in Hr. assert (acct c1 x) as Ha1 by (by apply (acct_ext c)).
    assert (shape c1) as Hs1.
    { destruct Hs as [S1 S2 S3 S4 S5 S6 S7 S8]. split; try done. simpl. unfold zlen in *. rewrite length_app. lia. }
    destruct (_ && _); injection Hr as <-; [done|]. by erewrite limit_flow.
  - injection Hr as <-. by eapply handleClose_flow.
  - destruct (_ || _); injection Hr as <-; [done|]. by eapply handleClose_flow.
Qed.

Lemma handleWrite_flow r e room c x fs cf : acct c x -> 0 <= x -> shape c -> handleWrite r e room c fs = Some cf -> flow (fst cf) = flow c.
Proof.
  intros Ha Hx Hs Hw. unfold handleWrite in Hw. destruct (negb (writing c)); [by injection Hw as <-|]. destruct r as [n|err].
  - destruct (_ || _); [done|]. destruct (n =? 0); [by injection Hw as <-|]. set (c2 := applyBackpressureInLoop _) in Hw.
    assert (flow c2 = flow c) as E by (unfold c2, applyBackpressureInLoop; by rewrite apply_flow, release_flow). clearbody c2.
    destruct (_ =? 0); injection Hw as <-; [|done]. cbn [fst]. rewrite queueWriteComplete_flow. destruct (is_state _ _); [|done].
    by rewrite shutdown_flow.
  - destruct (_ || _); injection Hw as <-; [done|]. by eapply handleClose_flow.
Qed.

Lemma acct_task c x t ts : acct c x -> tasks c = t :: ts -> acct (set_tasks ts c) (x + task_held t).
Proof. intros [A1 A2 A3 A4 A5 A6] Et. split; simpl; try done. rewrite A2, Et. simpl. lia. Qed.

Lemma flow_pop c t ts : tasks c = t :: ts -> flow c = flow (set_tasks ts c) + task_held t.
Proof. unfold flow. intros ->. simpl. lia. Qed.

Lemma task_flow ch c x t ts r : acct c x -> 0 <= x -> shape c -> tasks c = t :: ts -> task_step ch t (set_tasks ts c) = Some r ->
  let lost := match t with TSend data => if opened c then send_lost ch data c else zlen data | _ => 0 end in
  flow (fst r) = flow c - lost /\ (opened (fst r) = true -> ch_memory ch = true -> state_ c <> kConnecting -> lost = 0).
Proof.
  intros Ha Hx Hs Et Hr lost. rewrite (flow_pop c t ts Et). pose proof (acct_task c x t ts Ha Et) as Ha1.
  assert (shape (set_tasks ts c)) as Hs1 by (destruct Hs; by split).
  destruct t as [data| |n]; simpl in Hr.
  - change (_ || _) with (opened c) in Hr. unfold lost. destruct (opened c) eqn:Hop.
    + destruct (send_flow ch data _ x [] r Ha1 Hx Hs1 Hr) as [Hf Hz]. change (send_lost ch data (set_tasks ts c)) with (send_lost ch data c) in *.
      split; [simpl task_held; lia|auto].
    + injection Hr as <-. cbn [fst]. rewrite release_flow. simpl task_held. split; [lia|]. intros Hop' _ Hst. exfalso.
      rewrite (opened_state (set_tasks ts c) _ (st_state _ _ (release_still _ _))) in Hop'. change (opened c = true) in Hop'. congruence.
  - injection Hr as <-. simpl. split; [change (flow (note EWriteComplete (set_tasks ts c))) with (flow (set_tasks ts c)); lia|done].
  - injection Hr as <-. simpl. split; [change (flow (note (EHighWaterMark n) (set_tasks ts c))) with (flow (set_tasks ts c)); lia|done].
Qed.

Lemma owner_flow lb c fs x t r : 0 <= x -> acct c (x + zsum prog_held (calls fs)) -> shape c -> owner_step lb c fs = Some r ->
  let m := mkMachine c fs t in
  flow (fst r) = flow c + payload_in lb m - payload_lost lb m /\
  (opened (fst r) = true -> ample lb = true -> state_ c <> kConnecting -> payload_lost lb m = 0).
Proof.
  intros Hx Ha Hs Hst m. pose proof (calls_nonneg fs) as Hn. set (y := x + zsum prog_held (calls fs)) in *. assert (0 <= y) as Hy by lia.
  assert (flow (fst r) = flow c -> payload_in lb m = 0 -> payload_lost lb m = 0 -> flow (fst r) = flow c + payload_in lb m - payload_lost lb m /\
    (opened (fst r) = true -> ample lb = true -> state_ c <> kConnecting -> payload_lost lb m = 0)) as Hsame by (intros; split; [lia|done]).
  destruct lb as [att| |rr e|rr e room| |e|ch| |n|threw|p|ch|i p|i ch]; simpl in Hst; try done.
  - destruct (calm fs); [|done]. injection Hst as <-. apply Hsame; [apply established_flow|done..].
  - destruct (calm fs); [|done]. injection Hst as <-. apply Hsame; [apply destroyed_flow|done..].
  - destruct (idle fs && _); [|done]. apply Hsame; [by eapply handleRead_flow|done..].
  - destruct (idle fs && _); [|done]. apply Hsame; [by eapply handleWrite_flow|done..].
  - destruct (idle fs && _); [|done]. injection Hst as <-. apply Hsame; [by eapply plain_handleClose_flow|done..].
  - destruct (idle fs && _); [|done]. injection Hst as <-. apply Hsame; [by eapply handleClose_flow|done..].
  - destruct fs; [|done]. destruct (tasks c) as [|tk ts] eqn:Et; [done|].
    destruct (task_flow ch c y tk ts r Ha Hy Hs Et Hst) as [Hf Hz]. unfold payload_in, payload_lost, m. cbn [frames conn ample]. rewrite Et.
    destruct tk as [data| |n]; (split; [lia|auto]).
  - destruct fs; [|done]. destruct (lifecycleSource_ c) as [[]|] eqn:El; [|done..]. injection Hst as <-. apply Hsame; [|done..].
    set (c1 := set_lifecycle (Some false) c). assert (shape c1) as Hs1.
    { apply (shape_word (pendingOutputBytes_ c) (Some false)) in Hs; [|by rewrite El]. destruct Hs. by split. }
    erewrite (drive_flow c1); [done|by apply (acct_ext c)|done|done].
  - destruct fs as [|[] fs]; try done. injection Hst as <-. by apply Hsame.
  - destruct fs as [|f fs]; [done|]. destruct (resume threw f c fs) as [r0|] eqn:Er; [|done]. injection Hst as <-.
    assert (calls (f :: fs) = calls fs) as Ec by (by destruct f). apply Hsame; [|done..]. rewrite settle_flow. by eapply resume_flow.
  - destruct (calm fs && start p) eqn:E; [|done]. injection Hst as <-. by apply Hsame.
  - destruct fs as [|[] fs]; try done. destruct (prog_step true ch p c) as [[c' nx]|] eqn:Eps; [|done].
    destruct (prog_flow true ch p c c' nx Eps) as (Hf & Hsend & Hgr).
    assert (flow c' = flow c) as Hf' by (rewrite Hf; destruct p as [? []|]; lia). clear Hf.
    assert (payload_in (LOwner ch) m = match nx with RunSend data => zlen data | _ => 0 end /\
            payload_lost (LOwner ch) m = match nx with RunSend data => send_lost ch data c | _ => 0 end) as [Hin Hlo].
    { unfold payload_in, payload_lost, m. cbn [frames conn]. destruct p as [data []|]; try (destruct nx; try done; by destruct (Hsend _ eq_refl) as [? _]).
      destruct (Hgr data eq_refl eq_refl) as [H1 H2]. destruct (is_state kConnected c); [by rewrite H1|]. by destruct (H2 eq_refl) as [p' ->]. }
    assert (zsum prog_held (calls (FCall p :: fs)) = prog_held p + zsum prog_held (calls fs)) as Hc by done.
    pose proof (calls_nonneg fs).
    rewrite Hin, Hlo. destruct nx as [p'| |data|].
    + injection Hst as <-. split; [simpl; lia|done].
    + injection Hst as <-. split; [simpl; lia|done].
    + destruct (Hsend data eq_refl) as (-> & Hco & ->). simpl in Hc.
      destruct (send_flow ch data c (x + zsum prog_held (calls fs)) fs r) as [Hf Hz]; [|lia|done|done|split; [lia|auto]].
      assert (y = x + zsum prog_held (calls fs) + zlen data) as <- by (unfold y; simpl; lia). done.
    + injection Hst as <-. split; [|done].
      assert (exists y', acct c' y' /\ 0 <= y' /\ shape c') as (y' & Ha' & Hy' & Hs'); [|rewrite (drive_flow c' y' fs Ha' Hy' Hs'); lia].
      destruct p as [d []|force [| |first|first|]]; simpl in Eps; unfold give_back in Eps; repeat case_match; simplify_eq.
      exists y. done.
Qed.

Lemma conn_step_flow lb m m' : minv m -> conn_step lb m = Some m' ->
  flow (conn m') = flow (conn m) + payload_in lb m - payload_lost lb m /\
  (opened (conn m') = true -> ample lb = true -> state_ (conn m) <> kConnecting -> payload_lost lb m = 0).
Proof.
  intros [M1 M2 M3 M4 M5] Hst. unfold conn_step in Hst. rewrite (ac_fatal _ _ M1) in Hst. destruct m as [c fs t]. simpl in *.
  destruct lb as [att| |rr e|rr e room| |e|ch| |n|threw|p|ch|i p|i ch];
    try (destruct (owner_step _ _ _) as [[c' fs']|] eqn:Eo; [|done]; apply (inj Some) in Hst; subst m';
         exact (owner_flow _ c fs (msum prog_held t) t _ (held_nonneg t) M1 M2 Eo)).
  - destruct (_ && _); [|done]. apply (inj Some) in Hst. subst m'. simpl. split; [lia|done].
  - destruct (t !! i) as [p|] eqn:Ei; [|done]. destruct (prog_step false ch p c) as [[c' nx]|] eqn:Ep; [|done].
    destruct (prog_flow false ch p c c' nx Ep) as (Hf & _ & _).
    assert (conn m' = c') as -> by (destruct nx; simplify_eq; done). unfold payload_in, payload_lost. cbn [threads]. rewrite Ei.
    split; [rewrite Hf; destruct p as [? []|]; lia|done].
Qed.

(** *** Before the establishment *)

(** A program that has not found the connection connected. *)
Definition early_prog (p : Prog) : bool :=
  match p with PSend _ (Reserve | Budgets | Granted | ReleaseBytes | SignalDrained) => false | _ => true end.

(** A connection that is not yet established has nothing to send. *)
Definition early (m : Machine) : Prop :=
  state_ (conn m) = kConnecting ->
  tasks (conn m) = [] /\ Forall (fun p => early_prog p = true) (calls (frames m)) /\
  map_Forall (fun _ p => early_prog p = true) (threads m).

Lemma early_prog_step inLoop ch p c c' nx : state_ c = kConnecting -> early_prog p = true -> prog_step inLoop ch p c = Some (c', nx) ->
  tasks c' = tasks c /\ match nx with Go p' => early_prog p' = true | RunSend _ => False | RunDrive => state_ c' = kConnecting | Return => True end.
Proof.
  intros Hst Hp Hs. assert (is_state kConnected c = false) as Hc by (apply bool_decide_eq_false; by rewrite Hst).
  destruct p as [data []|force [| |first|first|]]; simpl in Hp, Hs; try done; rewrite ?Hc in Hs; simpl in Hs; unfold signalLifecycle in Hs;
    repeat case_match; simplify_eq; done.
Qed.

Lemma drive_graceful_new c : state_ c = kConnecting -> drive_graceful c = c.
Proof.
  intros Hst. assert (is_state kConnected c = false /\ is_state kDisconnecting c = false) as [E1 E2].
  { split; apply bool_decide_eq_false; by rewrite Hst. }
  unfold drive_graceful. rewrite E1, E2. by destruct (gracefulShutdownRequested_ c).
Qed.

Lemma drive_new c fs : state_ c = kConnecting -> tasks (fst (driveLifecycleInLoop c fs)) = tasks c /\ snd (driveLifecycleInLoop c fs) = fs.
Proof.
  intros Hst. unfold driveLifecycleInLoop. destruct (forceCloseRequested_ c); [|by rewrite drive_graceful_new].
  assert (forceCloseInLoop c (FDriveRest :: fs) = (c, FDriveRest :: fs)) as -> by (unfold forceCloseInLoop, is_state; by rewrite Hst).
  simpl. unfold drive_rest. by rewrite drive_graceful_new.
Qed.

Lemma owner_early lb c fs x r : acct c x -> 0 <= x -> tale c fs -> state_ c = kConnecting -> tasks c = [] ->
  Forall (fun p => early_prog p = true) (calls fs) -> owner_step lb c fs = Some r -> state_ (fst r) = kConnecting ->
  tasks (fst r) = [] /\ Forall (fun p => early_prog p = true) (calls (snd r)).
Proof.
  intros Ha Hx Ht Hst Htk Hp Hs Hst'.
  assert (idle fs && registered c = false) as Hreg.
  { destruct (idle fs) eqn:Ei; [|done]. destruct fs; [|done]. simpl. destruct (registered c) eqn:Er; [|done].
    destruct (tl_registered _ _ Ht Er) as [Hop|[]]. by apply opened_not_new in Hop. }
  destruct lb as [att| |rr e|rr e room| |e|ch| |n|threw|p|ch|i p|i ch]; simpl in Hs; rewrite ?Hreg in Hs; try done.
  - destruct (calm fs); [|done]. injection Hs as <-. unfold connectEstablished in *. destruct (_ || _); [done|]. destruct (negb att).
    { cbn in Hst' |- *. destruct (removeChannel_spec (set_added true (set_reading true c))) as (b & rd & wr & E & _). rewrite E. done. }
    exfalso. assert (forall c', state_ (onConnectionEstablished (applyBackpressureInLoop (setState kConnected c'))) = kConnected) as Hx'.
    { intros c'. unfold onConnectionEstablished, applyBackpressureInLoop, apply. repeat case_match; done. }
    set (c1 := onConnectionEstablished _) in Hst'. assert (state_ c1 = kConnected) as E1 by apply Hx'. clearbody c1.
    destruct (connectionCallback_ cb); cbn in Hst'; congruence.
  - destruct (calm fs); [|done]. injection Hs as <-. exfalso. unfold connectDestroyed in Hst'. destruct (_ && _); [done|]. cbn in Hst'.
    by rewrite (proj1 (destroy_rest_form _)) in Hst'.
  - destruct fs; [|done]. by rewrite Htk in Hs.
  - destruct fs; [|done]. destruct (lifecycleSource_ c) as [[]|]; try done. injection Hs as <-.
    destruct (drive_new (set_lifecycle (Some false) c) [] Hst) as [-> ->]. done.
  - destruct fs as [|[] fs]; try done. by injection Hs as <-.
  - destruct fs as [|f fs]; [done|]. apply (tl_begun _ _ Ht), andb_true_iff in Hst as [Hf _]. by destruct f.
  - destruct (calm fs && start p) eqn:E; [|done]. injection Hs as <-. split; [done|]. apply andb_true_iff in E as [_ E].
    constructor; [by destruct p as [? []|]|done].
  - destruct fs as [|[] fs]; try done. apply Forall_cons in Hp as [Hp Hps]. destruct (prog_step true ch p c) as [[c' nx]|] eqn:Eps; [|done].
    destruct (early_prog_step true ch p c c' nx Hst Hp Eps) as [Htk' Hnx]. rewrite Htk in Htk'.
    destruct nx as [p'| |data|]; [injection Hs as <-; split; [done|by constructor]|by injection Hs as <-|done|].
    injection Hs as <-. destruct (drive_new c' fs Hnx) as [-> ->]. done.
Qed.

Lemma conn_step_early lb m m' : minv m -> early m -> conn_step lb m = Some m' -> early m'.
Proof.
  intros Hm He Hst Hnew. destruct (conn_step_minv lb m m' Hm Hst) as [_ Hk]. pose proof (kp_state _ _ Hk) as Hr. rewrite Hnew in Hr.
  assert (state_ (conn m) = kConnecting) as Hc by (destruct (state_ (conn m)); simpl in Hr; try lia; done).
  destruct (He Hc) as (E1 & E2 & E3). destruct Hm as [M1 M2 M3 M4 M5]. unfold conn_step in Hst. rewrite (ac_fatal _ _ M1) in Hst.
  destruct m as [c fs t]. simpl in *.
  destruct lb as [att| |rr e|rr e room| |e|ch| |n|threw|p|ch|i p|i ch];
    try (destruct (owner_step _ _ _) as [[c' fs']|] eqn:Eo; [|done]; apply (inj Some) in Hst; subst m';
         destruct (owner_early _ c fs _ _ M1 ltac:(pose proof (held_nonneg t); pose proof (calls_nonneg fs); lia) M3 Hc E1 E2 Eo Hnew); by split_and!).
  - destruct (_ && _) eqn:E; [|done]. apply (inj Some) in Hst. subst m'. simpl. apply andb_true_iff in E as [_ E]. split_and!; [done|done|].
    apply map_Forall_insert_2; [by destruct p as [? []|]|done].
  - destruct (t !! i) as [p|] eqn:Ei; [|done]. pose proof (E3 i p Ei) as Hp. destruct (prog_step false ch p c) as [[c' nx]|] eqn:Ep; [|done].
    destruct (early_prog_step false ch p c c' nx Hc Hp Ep) as [Htk Hnx]. rewrite E1 in Htk.
    destruct nx as [p'| |data|]; simplify_eq; split_and!; try done; [by apply map_Forall_insert_2|by apply map_Forall_delete].
Qed.

Lemma start_early : early start_machine.
Proof. intros _. split_and!; [done|constructor|done]. Qed.

(** *** Totals *)

Lemma opened_rank c : opened c = true <-> 1 <= state_rank (state_ c) <= 2.
Proof. unfold opened, is_state. destruct (state_ c); cbn; split; intros; done || lia. Qed.

Lemma run_flow lbs : forall m m', minv m -> early m -> conn_steps lbs m = Some m' ->
  flow (conn m') = flow (conn m) + total payload_in lbs m - total payload_lost lbs m /\
  (opened (conn m') = true -> forallb ample lbs = true -> total payload_lost lbs m = 0).
Proof.
  induction lbs as [|lb lbs IH]; cbn [conn_steps total forallb]; intros m m' Hm He Hs; [injection Hs as <-; split; [lia|done]|].
  destruct (conn_step lb m) as [m1|] eqn:E; [|done]. destruct (conn_step_minv lb m m1 Hm E) as [Hm1 K1].
  destruct (IH m1 m' Hm1 (conn_step_early lb m m1 Hm He E) Hs) as [Hf Hz]. destruct (conn_step_flow lb m m1 Hm E) as [Hf1 Hz1].
  split; [lia|]. intros Hop [Ha Has]%andb_true_iff. rewrite (Hz Hop Has), Z.add_0_r.
  destruct (conn_steps_minv lbs m1 m' Hm1 Hs) as [_ K2]. apply opened_rank in Hop. pose proof (kp_state _ _ K1). pose proof (kp_state _ _ K2).
  destruct (decide (state_ (conn m) = kConnecting)) as [Hc|Hc].
  - destruct (He Hc) as (Et & Ec & _). destruct m as [c fs t]. cbn in *. unfold payload_lost. cbn [frames conn]. rewrite Et.
    assert (is_state kConnected c = false) as Hne by (apply bool_decide_eq_false; by rewrite Hc).
    destruct lb; try done; [by destruct fs|]. destruct fs as [|[] fs]; try done. by destruct p as [? []|]; rewrite ?Hne.
  - apply Hz1; [|done|done]. apply opened_rank. split; [|lia]. destruct (state_ (conn m)); cbn in *; done || lia.
Qed.

End operations.

(** ** Properties *)

(** What the loop does with a signalled node of a drained connection. *)
Lemma drive_drained o cb m :
  minv o cb m -> opened (conn m) = true -> gracefulShutdownRequested_ (conn m) = true -> frames m = [] ->
  lifecycleSource_ (conn m) = Some true -> byte_count (pendingOutputBytes_ (conn m)) = 0 ->
  exists m', conn_step o cb LDrive m = Some m' /\ (writeShut (conn m') = true \/ state_ (conn m') = kDisconnected).
Proof.
  intros [M1 M2 M3 M4 M5] Hop Hg Hf Hl Hz. destruct m as [c fs t]. simpl in *. subst fs.
  change (calls []) with (@nil Prog) in M1. simpl in M1. pose proof (held_nonneg t) as Hn. set (c1 := set_lifecycle (Some false) c).
  exists (mkMachine (fst (driveLifecycleInLoop cb c1 [])) (snd (driveLifecycleInLoop cb c1 [])) t). split.
  { unfold conn_step. simpl. rewrite (ac_fatal _ _ _ M1), Hl. by destruct (driveLifecycleInLoop _ _ _). }
  simpl.
  assert (acct o c1 (msum prog_held t + 0)) as Ha1 by (by apply (acct_ext o c)).
  assert (shape o c1) as Hs1.
  { apply (shape_word o (pendingOutputBytes_ c) (Some false)) in M2; [|by rewrite Hl]. destruct M2. by split. }
  unfold driveLifecycleInLoop. destruct (forceCloseRequested_ c1) eqn:Ef.
  - right. unfold forceCloseInLoop. rewrite Hop || (change (is_state kConnected c1 || is_state kDisconnecting c1) with (opened c); rewrite Hop).
    assert (is_state kDisconnected c1 = false) as Hd by (apply bool_decide_eq_false; by apply open_not_closed).
    destruct (begin_close_spec o cb c1 _ [FDriveRest] Ha1 ltac:(lia) Hs1 Hd) as (c' & Hc & [-> |(e & s & -> & _)]); simpl; [|apply Hc].
    unfold drive_rest, drive_graceful. rewrite (cl_graceful _ _ _ Hc : gracefulShutdownRequested_ (set_force false c') = false). apply Hc.
  - left. unfold drive_graceful. rewrite (Hg : gracefulShutdownRequested_ c1 = true).
    set (c2 := if is_state kConnected c1 then _ else _).
    destruct (sh_open o c1 Hs1 Hop) as (_ & Hph & _). destruct (sh_flow o c1 Hs1 Hop) as (Hwr & _).
    assert (zlen (outputBuffer_ c1) = 0) as Hz0.
    { pose proof (buffered_le o c1 _ Ha1 ltac:(lia)). simpl in *. unfold zlen in *. lia. }
    assert (is_state kDisconnecting c2 = true /\ gracefulShutdownRequested_ c2 = true /\ closePhase_ c2 = Open /\ writing c2 = false /\
      pendingOutputBytes_ c2 = pendingOutputBytes_ c) as (E1 & E2 & E3 & E4 & E5).
    { assert (writing c1 = false) as Hw by (rewrite Hwr, Hz0; done). unfold c2. destruct (is_state kConnected c1) eqn:E; [done|].
      split_and!; try done. unfold opened in Hop. change (is_state kConnected c) with (is_state kConnected c1) in Hop. by rewrite E in Hop. }
    rewrite E1. unfold shutdownInLoop, socketClosed. rewrite E2, E3, E4, E5, Hz. done.
Qed.

(** Releasing bytes touches the word, the signal and the process only. *)
Lemma release_touches n c : exists w l f, releaseOutputBytes n c = set_fatal f (set_lifecycle l (set_word w c)).
Proof.
  unfold releaseOutputBytes. destruct (n =? 0).
  { exists (pendingOutputBytes_ c), (lifecycleSource_ c), (fatal c). by destruct c. }
  exists (pendingOutputBytes_ c ⊖ n). destruct (_ <? n); [exists (lifecycleSource_ c), true; by destruct c|].
  destruct (_ && _).
  - destruct (signal_form (set_word (pendingOutputBytes_ c ⊖ n) c)) as (l & -> & _). exists l, (fatal c). by destruct c.
  - exists (lifecycleSource_ c), (fatal c). by destruct c.
Qed.

(** The direct write takes [n] bytes, the buffer takes none. *)
Lemma send_truncated o cb ch data n c fs :
  state_ c = kConnected -> writing c = false -> outputBuffer_ c = [] -> ch_memory ch = false ->
  ch_write ch = WOk n -> 0 <= n < zlen data ->
  exists c', sendReservedInLoop o cb ch data c fs = Some (c', fs) /\
    state_ c' = kConnected /\ closePhase_ c' = closePhase_ c /\ outputBuffer_ c' = [] /\ writing c' = false /\
    closeInfoBits_ c' = closeInfoBits_ c /\ written c' = written c ++ take (Z.to_nat n) data.
Proof.
  intros Hc Hw Hb Hm Hn Hr.
  pose (c1 := set_taken (taken c ++ take (Z.to_nat n) data)
                (set_written (written c ++ take (Z.to_nat n) data) (releaseOutputBytes n c))).
  exists (releaseOutputBytes (zlen (drop (Z.to_nat n) data)) c1). split.
  - unfold sendReservedInLoop, buffer_rest, is_state. rewrite Hc, Hw, Hb, Hn, Hm. simpl.
    rewrite (proj2 (Z.ltb_ge n 0)), (proj2 (Z.ltb_ge (zlen data) n)) by lia. simpl.
    by rewrite (proj2 (Z.eqb_neq (zlen data - n) 0)) by lia.
  - destruct (release_touches (zlen (drop (Z.to_nat n) data)) c1) as (? & ? & ? & ->). unfold c1.
    destruct (release_touches n c) as (? & ? & ? & ->). by rewrite <-Hc.
Qed.

(** The options passed [validate] and are of type [std::size_t]. *)
Definition options_ok (o : TcpConnectionBackpressureOptions) : Prop :=
  backpressure_validate o = Ok tt /\ 0 <= lowWaterMarkBytes o /\ 0 <= maxInputBufferBytes o.

Lemma run_minv o cb lbs m : options_ok o -> conn_steps o cb lbs start_machine = Some m -> minv o cb m.
Proof. intros (H1 & H2 & H3) Hs. by apply (conn_steps_minv o cb H1 H2 H3 lbs _ _ (start_minv o cb H1 H2 H3) Hs). Qed.

(** C1. In every run of a connection, with other threads' calls and user callbacks
    interleaved in any order: the pending count is exactly the buffered bytes, the
    posted sends and the reservations of calls under way, within the hard limit,
    and no release underflows; the input buffer stays within its limit; an open
    connection is registered with its socket open, wants to write exactly while
    output is buffered, and reads exactly while the backpressure controller allows
    it, with fewer bytes than the high mark when it does and more than the low mark
    when it does not; a connection that is not open has nothing buffered. *)
Theorem connection_coherent o cb lbs m :
  options_ok o -> conn_steps o cb lbs start_machine = Some m ->
  let c := conn m in
  fatal c = false /\
  byte_count (pendingOutputBytes_ c) =
    zlen (outputBuffer_ c) + zsum task_held (tasks c) + msum prog_held (threads m) + zsum prog_held (calls (frames m)) /\
  byte_count (pendingOutputBytes_ c) <= output_limit o /\
  zlen (inputBuffer_ c) <= maxInputBufferBytes o /\
  if opened c then
    registered c = true /\ closePhase_ c = Open /\
    writing c = negb (zlen (outputBuffer_ c) =? 0) /\ reading c = readingEnabled_ c /\
    (if readingEnabled_ c then zlen (outputBuffer_ c) < highWaterMarkBytes o
     else lowWaterMarkBytes o < zlen (outputBuffer_ c))
  else outputBuffer_ c = [].
Proof.
  intros Hok Hs c. destruct (run_minv o cb lbs m Hok Hs) as [M1 M2 M3 M4 M5]. split_and!; [apply M1| |apply M1|apply M2|].
  - pose proof (ac_count _ _ _ M1). unfold c. lia.
  - unfold c. destruct (opened (conn m)) eqn:E; [|by apply M2].
    destruct (sh_open _ _ M2 E) as (? & ? & _). destruct (sh_flow _ _ M2 E) as (? & ? & ? & _). done.
Qed.

(** C2. The bytes handed to the socket are those [sendReservedInLoop] has taken over
    (written or buffered), in their order, and while the connection is open nothing
    is missing between them and the buffered rest.  Every byte of an accepted send is taken
    over, still posted, or counted as lost ([payload_lost]: the connection was closed, the
    socket failed, or the buffer could not grow), and as long as the connection is open
    nothing is lost but to a failed allocation.  The write half is shut down only when
    admission is sealed and nothing is buffered, posted or still reserved; then every
    accepted byte that was not lost has been written, and from then on nothing is written any
    more. *)
Theorem output_in_order_until_shutdown o cb lbs m lbs' m' :
  options_ok o -> conn_steps o cb lbs start_machine = Some m -> conn_steps o cb lbs' m = Some m' ->
  written (conn m) `prefix_of` taken (conn m) /\
  (opened (conn m) = true -> written (conn m) ++ outputBuffer_ (conn m) = taken (conn m)) /\
  written (conn m) `prefix_of` written (conn m') /\ taken (conn m) `prefix_of` taken (conn m') /\
  (writeShut (conn m) = true ->
     sealed (pendingOutputBytes_ (conn m)) = true /\ byte_count (pendingOutputBytes_ (conn m)) = 0 /\
     outputBuffer_ (conn m) = [] /\ zsum task_held (tasks (conn m)) = 0 /\ msum prog_held (threads m) = 0 /\
     written (conn m') = written (conn m) /\ writeShut (conn m') = true) /\
  (total o cb payload_in lbs start_machine =
     zlen (taken (conn m)) + zsum task_held (tasks (conn m)) + total o cb payload_lost lbs start_machine) /\
  (opened (conn m) = true -> forallb ample lbs = true -> total o cb payload_lost lbs start_machine = 0) /\
  (opened (conn m) = true -> writeShut (conn m) = true ->
     zlen (written (conn m)) = total o cb payload_in lbs start_machine - total o cb payload_lost lbs start_machine).
Proof.
  intros Hok Hs Hs'. pose proof (run_minv o cb lbs m Hok Hs) as Hm. destruct Hok as (H1 & H2 & H3).
  destruct (run_flow o cb H1 H2 H3 lbs _ _ (start_minv o cb H1 H2 H3) start_early Hs) as [Hflow Hlost].
  assert (flow start_machine.(conn) = 0) as H0 by done. rewrite H0 in Hflow. unfold flow in Hflow.
  destruct (conn_steps_minv o cb H1 H2 H3 lbs' m m' Hm Hs') as [_ [K1 K2 K3 K4 K5 K6]]. destruct Hm as [M1 M2 M3 M4 M5].
  pose proof (ac_count _ _ _ M1) as Hc. pose proof (task_held_nonneg (tasks (conn m))). pose proof (held_nonneg (threads m)).
  pose proof (calls_nonneg (frames m)). assert (0 <= zlen (outputBuffer_ (conn m))) by (unfold zlen; lia).
  split; [apply M2|]. split; [intros E; apply (sh_flow _ _ M2 E)|]. split; [done|]. split; [done|]. split; [|split; [lia|split; [done|]]].
  - intros Hsh. destruct (ac_shut _ _ _ M1 Hsh) as [Hse Hz]. destruct (K2 Hsh) as [Hsh' Hw].
    split_and!; try done; try lia. apply zlen_nil. lia.
  - intros E Hsh. destruct (ac_shut _ _ _ M1 Hsh) as [_ Hz]. destruct (sh_flow _ _ M2 E) as (_ & _ & _ & Hwr).
    apply (f_equal zlen) in Hwr. rewrite zlen_app in Hwr. lia.
Qed.

(** C21. However calls, callbacks and close requests interleave, the callbacks tell one
    story ([story]): established at most once and, if there is an established
    callback, before everything else; messages only between that and the end;
    then disconnected, the close information (never without a reason) and the
    close callback, at most once each and in this order; posted write-complete and
    high-water notifications never before the beginning.  Nothing is told while
    the connection is new; while it is open the story stands at 1; and the
    connection's state only moves forward. *)
Theorem connection_story o cb lbs m lbs' m' :
  options_ok o -> conn_steps o cb lbs start_machine = Some m -> conn_steps o cb lbs' m = Some m' ->
  (exists r, story cb (log (conn m)) = Some r /\
     (state_ (conn m) = kConnecting -> r = prologue cb) /\ (opened (conn m) = true -> r = 1)) /\
  state_rank (state_ (conn m)) <= state_rank (state_ (conn m')).
Proof.
  intros Hok Hs Hs'. pose proof (run_minv o cb lbs m Hok Hs) as Hm. destruct Hok as (H1 & H2 & H3).
  destruct (conn_steps_minv o cb H1 H2 H3 lbs' m m' Hm Hs') as [_ [K1 K2 K3 K4 K5 K6]]. destruct Hm as [_ _ [_ _ _ (r & ? & ? & ? & _) _ _ _] _ _].
  split; [by exists r|done].
Qed.

(** Packing and unpacking close information gives the reason and the [int] error
    back; and in every run the reason first published is the one every later
    observer sees, with the first non-zero native error. *)
Theorem close_info_round_trip o cb lbs m lbs' m' r n :
  options_ok o -> conn_steps o cb lbs start_machine = Some m -> conn_steps o cb lbs' m = Some m' ->
  (-2147483648 <= n < 2147483648 -> unpackCloseInfo (packCloseInfo r n) = Some (mkCloseInfo r n)) /\
  (forall i, closeInfo (conn m) = Some i -> exists i', closeInfo (conn m') = Some i' /\ reason i' = reason i /\
     (nativeError i <> 0 -> i' = i)).
Proof.
  intros Hok Hs Hs'. split.
  - intros Hn. rewrite pack_word. destruct (info_parts r (to_u32 n) (to_u32_bound n)) as (E1 & _ & E2 & _).
    unfold unpackCloseInfo. rewrite E1, E2, reason_of_value, to_i32_u32 by done. done.
  - pose proof (run_minv o cb lbs m Hok Hs) as Hm. destruct Hok as (H1 & H2 & H3).
    destruct (conn_steps_minv o cb H1 H2 H3 lbs' m m' Hm Hs') as [_ [K1 K2 K3 K4 K5 K6]]. exact K6.
Qed.

(** C3. A graceful shutdown requested of an established connection is not lost: as
    long as it is pending, bytes are still to be released, or the lifecycle node
    is signalled, or a call is about to signal it.  And once the bytes are out, the
    loop's visit of the signalled node shuts the write half down, unless a forced
    close was requested too, which it carries out. *)
Theorem graceful_shutdown_not_lost o cb lbs m :
  options_ok o -> polite_steps o cb lbs start_machine -> conn_steps o cb lbs start_machine = Some m ->
  opened (conn m) = true -> gracefulShutdownRequested_ (conn m) = true ->
  (0 < byte_count (pendingOutputBytes_ (conn m)) \/ lifecycleSource_ (conn m) = Some true \/ signal_coming m) /\
  (frames m = [] -> lifecycleSource_ (conn m) = Some true -> byte_count (pendingOutputBytes_ (conn m)) = 0 ->
   exists m', conn_step o cb LDrive m = Some m' /\ (writeShut (conn m') = true \/ state_ (conn m') = kDisconnected)).
Proof.
  intros Hok Hp Hs Hop Hg. pose proof (run_minv o cb lbs m Hok Hs) as Hm. pose proof Hok as (H1 & H2 & H3).
  assert (live start_machine) as Hl0 by (split; [by intros ?|done]).
  pose proof (conn_steps_live o cb H1 H2 H3 lbs _ _ (start_minv o cb H1 H2 H3) Hl0 Hp Hs) as [L1 _].
  split; [by apply L1|]. intros. by apply drive_drained.
Qed.

(** When, in a send of the owner, the socket takes part of the payload and the
    buffer cannot grow for the rest, the caller sees [std::bad_alloc] but the
    connection stays connected, with no close reason added, nothing buffered and
    the truncated payload in the stream, behind which the next one will go. *)
Theorem truncated_payload_stays o cb lbs m ch data n fs :
  options_ok o -> conn_steps o cb lbs start_machine = Some m ->
  frames m = FCall (PSend data Granted) :: fs -> state_ (conn m) = kConnected ->
  writing (conn m) = false -> ch_memory ch = false -> ch_write ch = WOk n -> 0 < n < zlen data ->
  exists m', conn_step o cb (LOwner ch) m = Some m' /\ frames m' = fs /\ fatal (conn m') = false /\
    state_ (conn m') = kConnected /\ closePhase_ (conn m') = Open /\ outputBuffer_ (conn m') = [] /\
    writing (conn m') = false /\ closeInfo (conn m') = closeInfo (conn m) /\
    written (conn m') = written (conn m) ++ take (Z.to_nat n) data.
Proof.
  intros Hok Hs Hf Hc Hw Hm Hn Hr. pose proof (run_minv o cb lbs m Hok Hs) as Hmi. pose proof Hmi as [M1 M2 _ _ _].
  assert (opened (conn m) = true) as Hop by (unfold opened, is_state; by rewrite Hc).
  destruct (sh_open _ _ M2 Hop) as (_ & Hph & _). destruct (sh_flow _ _ M2 Hop) as (Hwr & _).
  assert (outputBuffer_ (conn m) = []) as Hb.
  { apply zlen_nil. rewrite Hw in Hwr. destruct (zlen _ =? 0) eqn:E; [by apply Z.eqb_eq|done]. }
  destruct (send_truncated o cb ch data n (conn m) fs Hc Hw Hb Hm Hn ltac:(lia)) as (c' & Es & P1 & P2 & P3 & P4 & P5 & P6).
  assert (conn_step o cb (LOwner ch) m = Some (mkMachine c' fs (threads m))) as Est.
  { unfold conn_step. rewrite (ac_fatal _ _ _ M1). unfold owner_step. rewrite Hf. unfold prog_step.
    unfold is_state. rewrite Hc. simpl. by rewrite Es. }
  exists (mkMachine c' fs (threads m)). split; [done|].
  destruct Hok as (H1 & H2 & H3).
  destruct (conn_steps_minv o cb H1 H2 H3 [LOwner ch] m (mkMachine c' fs (threads m)) Hmi) as [[M1' _ _ _ _] _]; [by simpl; rewrite Est|].
  simpl in *. split_and!; try done; [by apply M1'|by rewrite P2|by unfold closeInfo; rewrite P5].
Qed.

(** A close request of the owner in full, with these choices. *)
Definition close_call (force : bool) (ch : Choice) : list Label :=
  [LCall (PClose force CloseState); LOwner ch; LOwner ch; LOwner ch; LOwner ch; LOwner ch].

(** A shutdown or forced close requested on the owner thread of a connection not
    yet established is reported as accepted and seals output for good, but is
    not carried out when the connection is then established: it is connected, its
    lifecycle node is not signalled, and no bytes are pending whose release would
    signal it; a forced close request is even forgotten. *)
Theorem early_close_request_lost o cb force ch :
  options_ok o ->
  exists m, conn_steps o cb (close_call force ch ++ [LEstablish true]) start_machine = Some m /\
    state_ (conn m) = kConnected /\ registered (conn m) = true /\ closePhase_ (conn m) = Open /\
    sealed (pendingOutputBytes_ (conn m)) = true /\ byte_count (pendingOutputBytes_ (conn m)) = 0 /\
    lifecycleSource_ (conn m) = Some false /\ forceCloseRequested_ (conn m) = false /\
    gracefulShutdownRequested_ (conn m) = negb force /\ conn_step o cb LDrive m = None.
Proof.
  intros (H1 & H2 & H3). assert ((highWaterMarkBytes o <=? 0) = false) as Hh.
  { unfold backpressure_validate, validateThresholds in H1. destruct (_ =? 0); [done|].
    destruct (_ <=? _) eqn:E in H1; [done|]. zify_bools. apply Z.leb_gt. lia. }
  destruct o as [low high hard mx], cb as [[] k2 k3 k4 k5 k6 k7], force; simpl in Hh;
    eexists; (split; [cbv -[Z.leb]; rewrite Hh; reflexivity|by cbv]).
Qed.

(** *** Examples *)

Definition demo_options : TcpConnectionBackpressureOptions := mkBackpressureOptions 2 4 100 50.
Definition demo_callbacks : Callbacks := mkCallbacks true true true true 4 true true.

Lemma demo_options_ok : options_ok demo_options.
Proof. unfold options_ok. split_and!; [reflexivity|simpl; lia|simpl; lia]. Qed.

Definition b1 : byte := Byte.x01.
Definition b2 : byte := Byte.x02.
Definition b3 : byte := Byte.x03.

(** Everything is granted; the socket takes [n] bytes of a direct write. *)
Definition grant (n : Z) (memory : bool) : Choice := mkChoice true SendAccepted PostAccepted memory (WOk n) 0 true.

(** A send of the owner up to its reservation, and of another thread in full. *)
Definition demo_reserve (data : list byte) : list Label :=
  LCall (PSend data CheckSeal) :: replicate 6 (LOwner (grant 0 true)).
Definition demo_post (i : nat) (data : list byte) : list Label :=
  LSpawn i (PSend data CheckSeal) :: replicate 7 (LThread i (grant 0 true)).

(** Established; another thread posts five bytes, of which the socket takes one;
    then a third thread is in the middle of a send of two more. *)
Definition demo_run : list Label :=
  [LEstablish true; LReturn false] ++ demo_post 1 [b1; b2; b3; b1; b2] ++ [LTask (grant 1 true)] ++
  take 7 (demo_post 2 [b3; b3]).

(** The third thread's post; a shutdown; the buffered bytes; the high-water
    notification; the posted send. *)
Definition demo_finish : list Label :=
  [LThread 2 (grant 0 true)] ++ close_call false (grant 0 true) ++
  [LWrite (WOk 4) 0 true; LTask (grant 0 true); LReturn false; LTask (grant 2 true)].

Definition run_from (lbs : list Label) (m : Machine) : Machine :=
  match conn_steps demo_options demo_callbacks lbs m with Some m' => m' | None => start_machine end.

Definition demo_middle : Machine := run_from demo_run start_machine.
Definition demo_drained : Machine := run_from (demo_run ++ demo_finish) start_machine.

(** Two bytes are held by the third thread, four are buffered, reading is paused. *)
Lemma connection_coherent_witness :
  conn_steps demo_options demo_callbacks demo_run start_machine = Some demo_middle /\
  byte_count (pendingOutputBytes_ (conn demo_middle)) = 6 /\ readingEnabled_ (conn demo_middle) = false /\
  byte_count (pendingOutputBytes_ (conn demo_middle)) =
    zlen (outputBuffer_ (conn demo_middle)) + zsum task_held (tasks (conn demo_middle)) +
    msum prog_held (threads demo_middle) + zsum prog_held (calls (frames demo_middle)).
Proof.
  assert (conn_steps demo_options demo_callbacks demo_run start_machine = Some demo_middle) as E by (vm_compute; reflexivity).
  split; [exact E|]. split; [vm_compute; reflexivity|]. split; [vm_compute; reflexivity|].
  exact (proj1 (proj2 (connection_coherent demo_options demo_callbacks demo_run demo_middle demo_options_ok E))).
Defined.

(** After the drain, the visit of the node shuts the write half down; a late send
    of another thread changes nothing. *)
Definition demo_shut : Machine := run_from (demo_run ++ demo_finish ++ [LDrive]) start_machine.
Definition demo_after : Machine := run_from [LSpawn 3 (PSend [b1] CheckSeal); LThread 3 (grant 0 true)] demo_shut.

Lemma output_in_order_until_shutdown_witness :
  writeShut (conn demo_shut) = true /\ written (conn demo_shut) = [b1; b2; b3; b1; b2; b3; b3] /\
  written (conn demo_after) = written (conn demo_shut) /\
  zlen (written (conn demo_shut)) = total demo_options demo_callbacks payload_in (demo_run ++ demo_finish ++ [LDrive]) start_machine.
Proof.
  assert (conn_steps demo_options demo_callbacks (demo_run ++ demo_finish ++ [LDrive]) start_machine = Some demo_shut) as E
    by (vm_compute; reflexivity).
  assert (conn_steps demo_options demo_callbacks [LSpawn 3 (PSend [b1] CheckSeal); LThread 3 (grant 0 true)] demo_shut =
    Some demo_after) as E' by (vm_compute; reflexivity).
  assert (writeShut (conn demo_shut) = true) as Hs by (vm_compute; reflexivity).
  split; [exact Hs|]. split; [vm_compute; reflexivity|].
  assert (opened (conn demo_shut) = true) as Ho by (vm_compute; reflexivity).
  assert (forallb ample (demo_run ++ demo_finish ++ [LDrive]) = true) as Ha by (vm_compute; reflexivity).
  destruct (output_in_order_until_shutdown _ _ _ _ _ _ demo_options_ok E E') as (_ & _ & _ & _ & H & _ & Hl & Hw).
  split; [exact (proj1 (proj2 (proj2 (proj2 (proj2 (proj2 (H Hs)))))))|]. rewrite (Hw Ho Hs), (Hl Ho Ha). apply Z.sub_0_r.
Defined.

(** The peer resets the shut connection, the callbacks run. *)
Definition demo_reset : list Label := [LErrorEvent 104; LReturn true; LReturn false; LReturn false].
Definition demo_closed : Machine := run_from demo_reset demo_shut.

Lemma connection_story_witness :
  log (conn demo_closed) =
    [EEstablished; EHighWaterMark 4; EDisconnected; ECloseInfo (Some (mkCloseInfo GracefulShutdown 104)); EClose] /\
  opened (conn demo_shut) = true /\ story demo_callbacks (log (conn demo_shut)) = Some 1 /\
  story demo_callbacks [EMessage; EEstablished] = None /\
  state_rank (state_ (conn demo_shut)) <= state_rank (state_ (conn demo_closed)).
Proof.
  assert (conn_steps demo_options demo_callbacks (demo_run ++ demo_finish ++ [LDrive]) start_machine = Some demo_shut) as E
    by (vm_compute; reflexivity).
  assert (conn_steps demo_options demo_callbacks demo_reset demo_shut = Some demo_closed) as E' by (vm_compute; reflexivity).
  split; [vm_compute; reflexivity|].
  destruct (connection_story _ _ _ _ _ _ demo_options_ok E E') as ((r & Hr & _ & H) & Hk).
  assert (opened (conn demo_shut) = true) as Ho by (vm_compute; reflexivity).
  split; [exact Ho|]. split; [rewrite Hr, (H Ho); reflexivity|]. split; [vm_compute; reflexivity|exact Hk].
Defined.

Lemma close_info_round_trip_witness :
  closeInfo (conn demo_shut) = Some (mkCloseInfo GracefulShutdown 0) /\
  closeInfo (conn demo_closed) = Some (mkCloseInfo GracefulShutdown 104) /\
  unpackCloseInfo (packCloseInfo Reset (-1)) = Some (mkCloseInfo Reset (-1)) /\
  exists i, closeInfo (conn demo_closed) = Some i /\ reason i = GracefulShutdown.
Proof.
  assert (conn_steps demo_options demo_callbacks (demo_run ++ demo_finish ++ [LDrive]) start_machine = Some demo_shut) as E
    by (vm_compute; reflexivity).
  assert (conn_steps demo_options demo_callbacks demo_reset demo_shut = Some demo_closed) as E' by (vm_compute; reflexivity).
  assert (closeInfo (conn demo_shut) = Some (mkCloseInfo GracefulShutdown 0)) as Ei by (vm_compute; reflexivity).
  destruct (close_info_round_trip _ _ _ _ _ _ Reset (-1) demo_options_ok E E') as [H1 H2].
  split; [exact Ei|]. split; [vm_compute; reflexivity|]. split; [apply H1; lia|].
  destruct (H2 _ Ei) as (i & Hi & Hr & _). exists i. split; [exact Hi|exact Hr].
Defined.

(** The drained connection waits for the loop's visit, which shuts it down. *)
Lemma graceful_shutdown_not_lost_witness :
  gracefulShutdownRequested_ (conn demo_drained) = true /\ lifecycleSource_ (conn demo_drained) = Some true /\
  exists m', conn_step demo_options demo_callbacks LDrive demo_drained = Some m' /\
    (writeShut (conn m') = true \/ state_ (conn m') = kDisconnected).
Proof.
  assert (conn_steps demo_options demo_callbacks (demo_run ++ demo_finish) start_machine = Some demo_drained) as E
    by (vm_compute; reflexivity).
  assert (polite_steps demo_options demo_callbacks (demo_run ++ demo_finish) start_machine) as Hp.
  { vm_compute. repeat split; try discriminate. }
  assert (opened (conn demo_drained) = true) as Ho by (vm_compute; reflexivity).
  assert (gracefulShutdownRequested_ (conn demo_drained) = true) as Hg by (vm_compute; reflexivity).
  split; [exact Hg|]. split; [vm_compute; reflexivity|].
  apply (proj2 (graceful_shutdown_not_lost _ _ _ _ demo_options_ok Hp E Ho Hg)); vm_compute; reflexivity.
Defined.

(** Three bytes are cut to two, and the next payload follows them. *)
Definition demo_cut : Machine := run_from ([LEstablish true; LReturn false] ++ demo_reserve [b1; b2; b3]) start_machine.

Lemma truncated_payload_stays_witness :
  exists m, conn_step demo_options demo_callbacks (LOwner (grant 2 false)) demo_cut = Some m /\
    state_ (conn m) = kConnected /\ written (conn m) = [b1; b2] /\
    written (conn (run_from (demo_reserve [b3; b3] ++ [LOwner (grant 2 true)]) m)) = [b1; b2; b3; b3].
Proof.
  assert (conn_steps demo_options demo_callbacks ([LEstablish true; LReturn false] ++ demo_reserve [b1; b2; b3]) start_machine =
    Some demo_cut) as E by (vm_compute; reflexivity).
  assert (frames demo_cut = FCall (PSend [b1; b2; b3] Granted) :: []) as Ef by (vm_compute; reflexivity).
  assert (state_ (conn demo_cut) = kConnected) as Ec by (vm_compute; reflexivity).
  assert (writing (conn demo_cut) = false) as Ew by (vm_compute; reflexivity).
  assert (0 < 2 < zlen [b1; b2; b3]) as Hn by (vm_compute; split; reflexivity).
  destruct (truncated_payload_stays _ _ _ _ (grant 2 false) _ 2 [] demo_options_ok E Ef Ec Ew eq_refl eq_refl Hn)
    as (m & Hm & _ & _ & H1 & _ & _ & _ & _ & H2).
  exists m. split; [exact Hm|]. split; [exact H1|]. split; [rewrite H2; vm_compute; reflexivity|].
  vm_compute in Hm. injection Hm as <-. vm_compute. reflexivity.
Defined.

Lemma early_close_request_lost_witness :
  exists m, conn_steps demo_options demo_callbacks (close_call true (grant 0 true) ++ [LEstablish true]) start_machine = Some m /\
    state_ (conn m) = kConnected /\ forceCloseRequested_ (conn m) = false.
Proof.
  destruct (early_close_request_lost demo_options demo_callbacks true (grant 0 true) demo_options_ok)
    as (m & Hm & H1 & _ & _ & _ & _ & _ & H2 & _).
  exists m. split; [exact Hm|]. split; [exact H1|exact H2].
Defined.

(** Only the buffer and what a release touches. *)
Lemma clear_touches c : exists w l f b, clearBufferedOutputInLoop c = set_fatal f (set_lifecycle l (set_word w (set_output b c))).
Proof.
  unfold clearBufferedOutputInLoop. destruct (_ =? 0).
  - exists (pendingOutputBytes_ c), (lifecycleSource_ c), (fatal c), (outputBuffer_ c). by destruct c.
  - destruct (release_touches (zlen (outputBuffer_ c)) (set_output [] c)) as (w & l & f & ->). by exists w, l, f, [].
Qed.

Lemma destroy_registered c :
  channelAdded_ c = true -> channelRemoved_ c = false ->
  state_ (destroy_rest c) = state_ c /\ lifecycleSource_ (destroy_rest c) = None /\
  channelRemoved_ (destroy_rest c) = true /\ closePhase_ (destroy_rest c) = closePhase_ c /\
  socketOpen (destroy_rest c) = socketOpen c.
Proof.
  intros Ha Hr. unfold destroy_rest, removeChannelRegistrationInLoop. rewrite Ha, Hr. simpl. by destruct (negb _).
Qed.

(** [connectDestroyed] of an open connection detaches the lifecycle node while the
    socket is still open, in phase [Open]. *)
Lemma destroyed_while_socket_open o cb lbs m :
  options_ok o -> conn_steps o cb lbs start_machine = Some m -> opened (conn m) = true ->
  connectionCallback_ cb = false ->
  let c' := fst (connectDestroyed cb (conn m) (frames m)) in
  state_ c' = kDisconnected /\ lifecycleSource_ c' = None /\ channelRemoved_ c' = true /\
  closePhase_ c' = Open /\ socketOpen c' = socketOpen (conn m).
Proof.
  intros Hok Hs Hop Hcb. destruct (run_minv o cb lbs m Hok Hs) as [_ M2 _ _ _].
  destruct (sh_open _ _ M2 Hop) as (Hr & Hph & _). apply andb_prop in Hr as [Ha Hrm]. apply negb_true_iff in Hrm.
  unfold connectDestroyed. rewrite Hcb, andb_false_r. cbv zeta. unfold fst.
  destruct (clear_touches (onClosed (conn m))) as (w & l & f & b & ->).
  destruct (destroy_registered (setState kDisconnected (set_fatal f (set_lifecycle l (set_word w (set_output b (onClosed (conn m)))))))
    Ha Hrm) as (E1 & E2 & E3 & E4 & E5).
  split_and!; [exact E1|exact E2|exact E3|etrans; [exact E4|exact Hph]|exact E5].
Qed.
