(* ===== verification/ControlSources.v ===== *)
(** * Control sources of an event loop

    Model of [EventLoopControlSource] and of the control plane of [EventLoop]
    (src/core/net/EventLoop.cc): a fixed table of slots with generations, one
    pending bit per slot in 64-bit words, and the selection of pending slots that
    a loop turn serves, lowest first, within a budget.

    All of it runs under [controlState_->mutex], so each operation is atomic.
    [pendingSince], the peak and the notification counters only feed metrics and
    are left out. *)

From S2P Require Import Prelude Transport.

Local Open Scope Z_scope.

Definition kMaxControlSources : Z := 65536.

Inductive ControlPhase := Accepting | Draining | ControlShutdown.

Global Instance ControlPhase_eq_dec : EqDecision ControlPhase.
Proof. solve_decision. Defined.

(** A callback is known by its number. *)
Record Slot := mkSlot {
  slot_callback : option nat;
  slot_generation : Z;
  slot_active : bool;
}.

(** [control_loop]: [loop] is not null; [activeCallbackSlot]: [None] stands for
    [kNoActiveSlot]. *)
Record ControlState := mkControl {
  control_loop : bool;
  control_phase : ControlPhase;
  slots : list Slot;
  pendingWords : list Z;
  control_pendingCount : Z;
  activeCallbackSlot : option nat;
}.

(** The registered source, as its user holds it. *)
Record EventLoopControlSource := mkControlSource {
  source_slot : nat;
  source_generation : Z;
}.

Definition set_control_phase (p : ControlPhase) (c : ControlState) : ControlState :=
  mkControl (control_loop c) p (slots c) (pendingWords c) (control_pendingCount c) (activeCallbackSlot c).
Definition set_slots (l : list Slot) (c : ControlState) : ControlState :=
  mkControl (control_loop c) (control_phase c) l (pendingWords c) (control_pendingCount c) (activeCallbackSlot c).
Definition set_pending (ws : list Z) (n : Z) (c : ControlState) : ControlState :=
  mkControl (control_loop c) (control_phase c) (slots c) ws n (activeCallbackSlot c).
Definition set_active_slot (a : option nat) (c : ControlState) : ControlState :=
  mkControl (control_loop c) (control_phase c) (slots c) (pendingWords c) (control_pendingCount c) a.

(** The constructor, for [maxControlSources]. *)
Definition ControlState_new (maxSources : nat) : ControlState :=
  mkControl true Accepting (replicate maxSources (mkSlot None 0 false))
    (replicate (maxSources / 64 + (if (maxSources mod 64 =? 0)%nat then 0 else 1)) 0) 0 None.

(** ** Pending bits *)

Definition slot_mask (slot : nat) : Z := Z.shiftl 1 (Z.of_nat (slot mod 64)).

(** [pendingWords[i]]: no such word, no defined behaviour. *)
Definition word_at (i : nat) : M ControlState Z :=
  do c <- get ;;
  match pendingWords c !! i with Some w => ret w | None => throw undefined_behaviour end.

Definition store_word (i : nat) (w : Z) (n : Z) : M ControlState unit :=
  modify (fun c => set_pending (<[i := w]> (pendingWords c)) n c).

(** The complement of a 64-bit word. *)
Definition unot (w : Z) : Z := usize_max - w.

(** [std::countr_zero] of a word that is not zero. *)
Fixpoint trailing_zeros (p : positive) : nat :=
  match p with xO p => S (trailing_zeros p) | _ => O end.

Definition countr_zero (w : Z) : nat := match w with Zpos p => trailing_zeros p | _ => 64 end.

(** [w &= w - 1] *)
Definition clear_lowest (w : Z) : Z := Z.land w (w ⊖ 1).

(** ** Operations *)

(** [EventLoopControlSource::notify]; [inLoop]: the caller is the loop's
    thread.  The second component: the loop is woken up. *)
Definition notify (inLoop : bool) (src : EventLoopControlSource) : M ControlState (PostResult * bool) :=
  do c <- get ;;
  let slot := source_slot src in
  match slots c !! slot with
  | None => ret (PostOwnerUnavailable, false)
  | Some s =>
      if negb (slot_active s) || negb (slot_generation s =? source_generation src) || negb (control_loop c)
      then ret (PostOwnerUnavailable, false)
      else
        let selfRearm := bool_decide (control_phase c = Draining) && inLoop &&
                         bool_decide (activeCallbackSlot c = Some slot) in
        if bool_decide (control_phase c = ControlShutdown) ||
           (bool_decide (control_phase c = Draining) && negb selfRearm)
        then ret (PostShutdown, false)
        else
          do w <- word_at (slot / 64) ;;
          if negb (Z.land w (slot_mask slot) =? 0) then ret (PostAccepted, false)
          else
            run store_word (slot / 64) (Z.lor w (slot_mask slot)) (control_pendingCount c ⊕ 1) ;;
            ret (PostAccepted, true)
  end.

(** [++generation], never zero. *)
Definition next_generation (g : Z) : Z := if g ⊕ 1 =? 0 then 1 else g ⊕ 1.

(** The first slot that is not in use. *)
Definition free_slot (l : list Slot) : option (nat * Slot) := list_find (fun s => slot_active s = false) l.

(** [EventLoop::registerControlSource] *)
Definition registerControlSource (looping : bool) (callback : nat) : M ControlState EventLoopControlSource :=
  run throw_if looping logic_error ;;
  do c <- get ;;
  run throw_if (negb (bool_decide (control_phase c = Accepting))) logic_error ;;
  match free_slot (slots c) with
  | None => throw length_error
  | Some (i, s) =>
      let g := next_generation (slot_generation s) in
      run modify (fun c => set_slots (<[i := mkSlot (Some callback) g true]> (slots c)) c) ;;
      ret (mkControlSource i g)
  end.

(** [EventLoop::unregisterControlSource], of a source of this loop. *)
Definition unregisterControlSource (src : EventLoopControlSource) : M ControlState unit :=
  do c <- get ;;
  let slot := source_slot src in
  match slots c !! slot with
  | None => ret tt
  | Some s =>
      if negb (slot_active s) || negb (slot_generation s =? source_generation src) then ret tt
      else
        do w <- word_at (slot / 64) ;;
        run (if negb (Z.land w (slot_mask slot) =? 0)
             then store_word (slot / 64) (Z.land w (unot (slot_mask slot))) (control_pendingCount c ⊖ 1)
             else ret tt) ;;
        modify (fun c => set_slots (<[slot := mkSlot None (next_generation (slot_generation s)) false]> (slots c)) c)
  end.

(** ** Selection ([doControlSources], first critical section) *)

(** The inner loop on one word: the bits still [available], what is left of
    the word, what is drained of it, the pending count and the number selected.  A
    word has at most 64 bits, which bounds the loop. *)
Fixpoint select_bits (fuel : nat) (budget available word drained count selected : Z) : Z * Z * Z * Z :=
  match fuel with
  | O => (word, drained, count, selected)
  | S fuel =>
      if negb (available =? 0) && (selected <? budget) then
        let mask := Z.shiftl 1 (Z.of_nat (countr_zero available)) in
        select_bits fuel budget (clear_lowest available) (Z.land word (unot mask)) (Z.lor drained mask)
          (count ⊖ 1) (selected ⊕ 1)
      else (word, drained, count, selected)
  end.

(** The outer loop over [pendingWords] and [controlDrainWords_]. *)
Fixpoint select_words (budget : Z) (ws : list Z) (count selected : Z) : list Z * list Z * Z * Z :=
  match ws with
  | [] => ([], [], count, selected)
  | w :: ws =>
      if selected <? budget then
        match select_bits 64 budget w w 0 count selected with
        | (w', d, count, selected) =>
            match select_words budget ws count selected with
            | (ws', ds, count, selected) => (w' :: ws', d :: ds, count, selected)
            end
        end
      else (w :: ws, replicate (S (length ws)) 0, count, selected)
  end.

(** The words drained and the number of slots selected. *)
Definition select_controls (budget : Z) : M ControlState (list Z * Z) :=
  do c <- get ;;
  match select_words budget (pendingWords c) (control_pendingCount c) 0 with
  | (ws, ds, count, selected) =>
      run modify (set_pending ws count) ;;
      ret (ds, selected)
  end.

(** [doControlSources], before and after a callback. *)
Definition begin_control (slot : nat) : M ControlState (option nat) :=
  do c <- get ;;
  match slots c !! slot with
  | Some (mkSlot (Some f) _ true) => run modify (set_active_slot (Some slot)) ;; ret (Some f)
  | _ => ret None
  end.

Definition end_control (slot : nat) : M ControlState unit :=
  modify (fun c => if bool_decide (activeCallbackSlot c = Some slot) then set_active_slot None c else c).

(** ** Bits *)

(** The slots whose bit is set, lowest first. *)
Definition bits_of (w : Z) : list nat := filter (fun i => Z.testbit w (Z.of_nat i) = true) (seq 0 64).

Fixpoint slots_from (base : nat) (ws : list Z) : list nat :=
  match ws with
  | [] => []
  | w :: ws => ((fun i => base + i)%nat <$> bits_of w) ++ slots_from (base + 64) ws
  end.

Definition slots_of (ws : list Z) : list nat := slots_from 0 ws.

Definition is_word (w : Z) : Prop := 0 <= w < usize_lim.

Lemma testbit_mask i j : Z.testbit (Z.shiftl 1 (Z.of_nat i)) (Z.of_nat j) = bool_decide (j = i).
Proof.
  rewrite Z.shiftl_1_l, Z.pow2_bits_eqb by lia. apply Bool.eq_iff_eq_true. rewrite Z.eqb_eq, bool_decide_eq_true. lia.
Qed.

Lemma testbit_unot w i : is_word w -> (i < 64)%nat -> Z.testbit (unot w) (Z.of_nat i) = negb (Z.testbit w (Z.of_nat i)).
Proof.
  intros Hw Hi. unfold unot. replace (usize_max - w) with (Z.lnot w + 2 ^ 64) by (unfold Z.lnot; lia).
  rewrite <-Z.lnot_spec by lia. rewrite <-(Z.mod_pow2_bits_low _ 64 (Z.of_nat i)) by lia.
  replace ((Z.lnot w + 2 ^ 64) mod 2 ^ 64) with (Z.lnot w mod 2 ^ 64); [by rewrite Z.mod_pow2_bits_low by lia|].
  rewrite <-(Z_mod_plus_full (Z.lnot w) 1 (2 ^ 64)). by rewrite Z.mul_1_l.
Qed.

Lemma word_mask i : (i < 64)%nat -> is_word (Z.shiftl 1 (Z.of_nat i)).
Proof.
  intros Hi. rewrite Z.shiftl_1_l. split; [apply Z.pow_nonneg; lia|].
  change usize_lim with (2 ^ 64). apply Z.pow_lt_mono_r; lia.
Qed.

Lemma word_land a b : is_word a -> 0 <= b -> is_word (Z.land a b).
Proof.
  intros [H1 H2] Hb. split; [apply Z.land_nonneg; by left|]. destruct (Z.eq_dec a 0) as [->|]; [by rewrite Z.land_0_l|].
  change usize_lim with (2 ^ 64) in *. destruct (Z.eq_dec (Z.land a b) 0) as [->|]; [lia|].
  assert (0 <= Z.land a b) by (apply Z.land_nonneg; by left).
  apply Z.log2_lt_pow2; [lia|]. eapply Z.le_lt_trans; [apply Z.log2_land; lia|].
  apply Z.log2_lt_pow2 in H2; lia.
Qed.

Lemma word_lor a b : is_word a -> is_word b -> is_word (Z.lor a b).
Proof.
  intros [H1 H2] [H3 H4]. split; [by apply Z.lor_nonneg|]. change usize_lim with (2 ^ 64) in *.
  destruct (Z.eq_dec (Z.lor a b) 0) as [->|Hn]; [lia|]. assert (0 <= Z.lor a b) by by apply Z.lor_nonneg.
  apply Z.log2_lt_pow2; [lia|]. rewrite Z.log2_lor by done.
  apply Z.max_lub_lt; [destruct (Z.eq_dec a 0) as [->|]|destruct (Z.eq_dec b 0) as [->|]]; try done; apply Z.log2_lt_pow2; lia.
Qed.

(** [countr_zero] is the lowest bit, and [clear_lowest] clears it. *)
Lemma lowest_pos p :
  Z.testbit (Zpos p) (Z.of_nat (trailing_zeros p)) = true /\
  (forall i, (i < trailing_zeros p)%nat -> Z.testbit (Zpos p) (Z.of_nat i) = false) /\
  (forall i, Z.testbit (Z.land (Zpos p) (Zpos p - 1)) (Z.of_nat i) =
     Z.testbit (Zpos p) (Z.of_nat i) && negb (bool_decide (i = trailing_zeros p))).
Proof.
  induction p as [p _|p (IH1 & IH2 & IH3)|].
  - simpl trailing_zeros. split_and!; [done|lia|]. intros i.
    replace (Zpos p~1 - 1) with (2 * Zpos p) by lia. rewrite Z.land_spec. change (Zpos p~1) with (2 * Zpos p + 1).
    destruct i as [|i]; [by rewrite Z.testbit_even_0, andb_false_r|].
    rewrite Nat2Z.inj_succ, Z.testbit_odd_succ, Z.testbit_even_succ by lia.
    rewrite bool_decide_eq_false_2 by lia. by destruct (Z.testbit _ _).
  - change (Zpos p~0) with (2 * Zpos p). simpl trailing_zeros. split_and!.
    + by rewrite Nat2Z.inj_succ, Z.testbit_even_succ by lia.
    + intros [|i] Hi; [apply Z.testbit_even_0|]. rewrite Nat2Z.inj_succ, Z.testbit_even_succ by lia. apply IH2. lia.
    + intros i. replace (2 * Zpos p - 1) with (2 * (Zpos p - 1) + 1) by lia. rewrite Z.land_spec.
      destruct i as [|i]; [by rewrite Z.testbit_even_0|].
      rewrite Nat2Z.inj_succ, Z.testbit_odd_succ, !Z.testbit_even_succ by lia. rewrite <-Z.land_spec, IH3. f_equal. f_equal.
      apply bool_decide_ext. lia.
  - split_and!; [done|simpl; lia|]. intros [|i]; [done|]. simpl trailing_zeros.
    change (Z.land 1 (1 - 1)) with 0. rewrite Z.bits_0. rewrite (Z.bits_above_log2 1); [done|lia|simpl; lia].
Qed.

Lemma bits_lowest w :
  is_word w -> w <> 0 ->
  bits_of w = countr_zero w :: bits_of (clear_lowest w) /\ (countr_zero w < 64)%nat /\ is_word (clear_lowest w).
Proof.
  intros Hw Hn. destruct w as [|p|p]; [done| |by destruct Hw]. unfold clear_lowest. unfold is_word in Hw.
  rewrite uwrap_small by lia. simpl countr_zero. destruct (lowest_pos p) as (H1 & H2 & H3).
  assert (trailing_zeros p < 64)%nat as Hc.
  { destruct (decide (trailing_zeros p < 64)%nat) as [|Hge]; [done|]. exfalso.
    rewrite Z.bits_above_log2 in H1; [done|lia|]. apply Z.log2_lt_pow2; [lia|]. destruct Hw as [_ Hw].
    eapply Z.lt_le_trans; [exact Hw|]. change usize_lim with (2 ^ 64). apply Z.pow_le_mono_r; lia. }
  split; [|split; [done|by apply word_land; [|lia]]]. set (c := trailing_zeros p) in *.
  unfold bits_of. replace 64%nat with (c + S (63 - c))%nat by lia. rewrite seq_app, !filter_app. simpl seq. rewrite !filter_cons.
  rewrite decide_True by done. rewrite (decide_False (P := Z.testbit (Z.land _ _) _ = true));
    [|rewrite H3, bool_decide_eq_true_2, andb_false_r by done; done].
  rewrite !(filter_none _ (seq 0 c)).
  - simpl. f_equal. apply filter_agree. intros i Hi. apply elem_of_seq in Hi. rewrite H3, bool_decide_eq_false_2 by lia.
    by rewrite andb_true_r.
  - intros i Hi. apply elem_of_seq in Hi. rewrite H3, H2 by lia. done.
  - intros i Hi. apply elem_of_seq in Hi. rewrite H2 by lia. done.
Qed.

Lemma bits_NoDup w : NoDup (bits_of w).
Proof. apply NoDup_filter, NoDup_seq. Qed.

Lemma elem_of_bits w i : i ∈ bits_of w <-> (i < 64)%nat /\ Z.testbit w (Z.of_nat i) = true.
Proof. unfold bits_of. rewrite list_elem_of_filter, elem_of_seq. intuition lia. Qed.

Lemma bits_zero : bits_of 0 = [].
Proof. reflexivity. Qed.

Lemma bits_nil w : is_word w -> bits_of w = [] -> w = 0.
Proof. intros Hw E. destruct (decide (w = 0)) as [|Hn]; [done|]. by destruct (bits_lowest w Hw Hn) as (Hb & _); rewrite E in Hb. Qed.

Lemma bits_length w : (length (bits_of w) <= 64)%nat.
Proof. unfold bits_of. etrans; [apply length_filter|]. by rewrite length_seq. Qed.

(** What the selection loop takes from a word: the first [n] of the bits [B]. *)
Record selected (B : list nat) (n : nat) (w d w' d' : Z) : Prop := {
  sel_word : is_word w' /\ is_word d';
  sel_left : forall i, (i < 64)%nat -> Z.testbit w' (Z.of_nat i) = Z.testbit w (Z.of_nat i) && negb (bool_decide (i ∈ take n B));
  sel_drained : forall i, (i < 64)%nat -> Z.testbit d' (Z.of_nat i) = Z.testbit d (Z.of_nat i) || bool_decide (i ∈ take n B);
}.

Lemma selected_none B w d : is_word w -> is_word d -> selected B 0 w d w d.
Proof.
  intros Hw Hd. split; [done| |]; intros i _; rewrite take_0, bool_decide_eq_false_2 by (by intros ?%elem_of_nil);
    [by rewrite andb_true_r|by rewrite orb_false_r].
Qed.

(** One more bit. *)
Lemma selected_cons b B n w d w' d' :
  is_word (Z.shiftl 1 (Z.of_nat b)) ->
  selected B n (Z.land w (unot (Z.shiftl 1 (Z.of_nat b)))) (Z.lor d (Z.shiftl 1 (Z.of_nat b))) w' d' ->
  selected (b :: B) (S n) w d w' d'.
Proof.
  intros Hm [S1 S2 S3]. split; [done| |]; intros i Hi; simpl.
  - rewrite S2, Z.land_spec, testbit_unot, testbit_mask by done. rewrite <-andb_assoc. f_equal.
    rewrite <-negb_orb. f_equal. apply Bool.eq_iff_eq_true. rewrite orb_true_iff, !bool_decide_eq_true. by rewrite elem_of_cons.
  - rewrite S3, Z.lor_spec, testbit_mask by done. rewrite <-orb_assoc. f_equal.
    apply Bool.eq_iff_eq_true. rewrite orb_true_iff, !bool_decide_eq_true. by rewrite elem_of_cons.
Qed.

Lemma select_bits_ok fuel budget : forall a w d count sel,
  is_word a -> is_word w -> is_word d -> (length (bits_of a) <= fuel)%nat ->
  0 <= sel -> sel + Z.of_nat (length (bits_of a)) < usize_lim -> sel <= budget -> is_usize count ->
  exists w' d', let n := Nat.min (Z.to_nat (budget - sel)) (length (bits_of a)) in
    select_bits fuel budget a w d count sel = (w', d', count ⊖ Z.of_nat n, sel + Z.of_nat n) /\
    selected (bits_of a) n w d w' d'.
Proof.
  induction fuel as [|fuel IH]; intros a w d count sel Ha Hw Hd Hf Hs Hl Hb Hc; simpl.
  - exists w, d. rewrite (nil_length_inv (bits_of a)), Nat.min_0_r by lia. simpl.
    split; [by rewrite Z.add_0_r, Z.sub_0_r, uwrap_small by (unfold is_usize in *; lia)|]. by apply selected_none.
  - destruct (negb (a =? 0) && (sel <? budget)) eqn:E; zify_bools.
    + destruct (bits_lowest a Ha) as (Eb & Hcz & Ha'); [lia|]. rewrite Eb in Hf, Hl |- *. simpl in Hf, Hl |- *.
      pose proof (word_mask _ Hcz) as Hm. assert (0 <= unot (Z.shiftl 1 (Z.of_nat (countr_zero a)))) as Hu by (unfold unot, is_word in *; lia).
      rewrite (uwrap_small (sel + 1)) by lia.
      destruct (IH (clear_lowest a) (Z.land w (unot (Z.shiftl 1 (Z.of_nat (countr_zero a)))))
        (Z.lor d (Z.shiftl 1 (Z.of_nat (countr_zero a)))) (count ⊖ 1) (sel + 1)) as (w' & d' & E' & Hsel);
        [done|by apply word_land|by apply word_lor|lia|lia|lia|lia|apply uwrap_bound|].
      set (n' := Nat.min (Z.to_nat (budget - (sel + 1))) (length (bits_of (clear_lowest a)))) in *.
      replace (Nat.min (Z.to_nat (budget - sel)) (S (length (bits_of (clear_lowest a))))) with (S n') by lia.
      exists w', d'. split; [|by apply selected_cons].
      rewrite E'. f_equal; [|lia]. f_equal. unfold uwrap. rewrite Zminus_mod_idemp_l. f_equal. lia.
    + assert (Nat.min (Z.to_nat (budget - sel)) (length (bits_of a)) = 0%nat) as ->.
      { destruct E as [?|?]; zify_bools; [subst a; rewrite bits_zero; simpl; lia|lia]. }
      exists w, d. simpl. split; [by rewrite Z.add_0_r, Z.sub_0_r, uwrap_small by (unfold is_usize in *; lia)|]. by apply selected_none.
Qed.

Lemma filter_taken (B : list nat) n : NoDup B -> filter (fun i => i ∉ take n B) B = drop n B.
Proof.
  intros Hd. etrans; [apply (f_equal (filter _) (eq_sym (take_drop n B)))|]. rewrite filter_app, filter_none, filter_all; [done| |].
  - intros x Hx Hx'. rewrite <-(take_drop n B), NoDup_app in Hd. by apply (proj1 (proj2 Hd) x).
  - intros x Hx Hn. done.
Qed.

Lemma filter_taken' (B : list nat) n : NoDup B -> filter (fun i => i ∈ take n B) B = take n B.
Proof.
  intros Hd. etrans; [apply (f_equal (filter _) (eq_sym (take_drop n B)))|]. rewrite filter_app, filter_all, filter_none, app_nil_r; [done| |done].
  intros x Hx Hx'. rewrite <-(take_drop n B), NoDup_app in Hd. by apply (proj1 (proj2 Hd) x).
Qed.

(** A word gives up its first [n] bits. *)
Lemma selected_word n w w' d' :
  selected (bits_of w) n w 0 w' d' -> bits_of w' = drop n (bits_of w) /\ bits_of d' = take n (bits_of w).
Proof.
  intros [S1 S2 S3]. assert (forall i, i ∈ take n (bits_of w) -> Z.testbit w (Z.of_nat i) = true) as Ht.
  { intros i Hi. assert (i ∈ bits_of w) as Hb by (rewrite <-(take_drop n); apply elem_of_app; by left). apply elem_of_bits in Hb. tauto. }
  split; [etrans; [|apply filter_taken, bits_NoDup]|etrans; [|apply filter_taken', bits_NoDup]];
    set (T := take n (bits_of w)) in *; unfold bits_of; rewrite !list_filter_filter; apply filter_agree;
    intros i Hi; apply elem_of_seq in Hi.
  - rewrite S2 by lia. rewrite andb_true_iff, negb_true_iff, bool_decide_eq_false. tauto.
  - rewrite S3 by lia. rewrite Z.bits_0, orb_false_l, bool_decide_eq_true. naive_solver.
Qed.

Local Arguments select_bits : simpl never.
Local Arguments bits_of : simpl never.

Lemma slots_zeros n : forall base, slots_from base (replicate n 0) = [].
Proof. induction n as [|n IH]; intros base; [done|]. cbn [replicate slots_from]. by rewrite bits_zero, IH. Qed.

(** The selection takes the lowest pending slots. *)
Lemma select_words_ok budget : forall ws base count sel,
  Forall is_word ws -> 0 <= sel <= budget -> sel + Z.of_nat (length (slots_from base ws)) < usize_lim -> is_usize count ->
  exists ws' ds, let n := Nat.min (Z.to_nat (budget - sel)) (length (slots_from base ws)) in
    select_words budget ws count sel = (ws', ds, count ⊖ Z.of_nat n, sel + Z.of_nat n) /\
    slots_from base ws' = drop n (slots_from base ws) /\ slots_from base ds = take n (slots_from base ws) /\
    Forall is_word ws' /\ Forall is_word ds /\ length ws' = length ws /\ length ds = length ws.
Proof.
  induction ws as [|w ws IH]; intros base count sel Hws Hb Hl Hc; simpl.
  - exists [], []. rewrite Nat.min_0_r, Z.add_0_r. simpl. rewrite Z.sub_0_r, uwrap_small by (unfold is_usize in *; lia). done.
  - apply Forall_cons in Hws as [Hw Hws]. simpl in Hl. rewrite length_app, length_fmap in Hl.
    destruct (sel <? budget) eqn:E; zify_bools.
    + destruct (select_bits_ok 64 budget w w 0 count sel) as (w' & d & Es & Hsel); try done; [apply bits_length|lia|lia|lia|].
      rewrite Es. set (n1 := Nat.min (Z.to_nat (budget - sel)) (length (bits_of w))) in *.
      destruct (selected_word _ _ _ _ Hsel) as [Ew Ed]. pose proof (sel_word _ _ _ _ _ _ Hsel) as [Hw' Hd].
      destruct (IH (base + 64)%nat (count ⊖ Z.of_nat n1) (sel + Z.of_nat n1)) as (ws' & ds & E2 & E3 & E4 & H5 & H6 & H7 & H8);
        [done|lia|lia|apply uwrap_bound|].
      rewrite E2. exists (w' :: ws'), (d :: ds). rewrite length_app, length_fmap.
      set (n2 := Nat.min _ (length (slots_from (base + 64) ws))) in *.
      replace (Nat.min (Z.to_nat (budget - sel)) (length (bits_of w) + length (slots_from (base + 64) ws))) with (n1 + n2)%nat by lia.
      simpl. rewrite E3, E4, Ew, Ed, fmap_drop, fmap_take. split_and!; try (by constructor); try (by f_equal).
      * f_equal; [|lia]. f_equal. unfold uwrap. rewrite Zminus_mod_idemp_l. f_equal. lia.
      * rewrite skipn_app, length_fmap. f_equal; [|f_equal; lia].
        destruct (decide (n2 = 0)%nat) as [->|]; [by rewrite Nat.add_0_r|]. assert (n1 = length (bits_of w)) as -> by lia.
        rewrite !drop_ge by (rewrite length_fmap; lia). done.
      * rewrite firstn_app, length_fmap. f_equal; [|f_equal; lia].
        destruct (decide (n2 = 0)%nat) as [->|]; [by rewrite Nat.add_0_r|]. assert (n1 = length (bits_of w)) as -> by lia.
        rewrite !take_ge by (rewrite length_fmap; lia). done.
    + exists (w :: ws), (0 :: replicate (length ws) 0). replace (Z.to_nat (budget - sel)) with 0%nat by lia. simpl.
      rewrite Z.add_0_r, Z.sub_0_r, uwrap_small by (unfold is_usize in *; lia).
      rewrite slots_zeros. split_and!; try done; try (by constructor); [|by rewrite length_replicate].
      constructor; [split; lia|]. apply Forall_replicate. split; lia.
Qed.

Lemma elem_of_slots_from ws : forall base s,
  s ∈ slots_from base ws <->
  exists i w, ws !! i = Some w /\ exists b, b ∈ bits_of w /\ s = (base + 64 * i + b)%nat.
Proof.
  induction ws as [|w ws IH]; intros base s; cbn [slots_from].
  - rewrite elem_of_nil. split; [done|]. by intros (i & w & ? & _).
  - rewrite elem_of_app, list_elem_of_fmap, IH. split.
    + intros [(b & -> & Hb)|(i & w' & Hi & b & Hb & ->)].
      * exists 0%nat, w. split; [done|]. exists b. split; [done|lia].
      * exists (S i), w'. split; [done|]. exists b. split; [done|lia].
    + intros ([|i] & w' & Hi & b & Hb & ->).
      * injection Hi as ->. left. exists b. split; [lia|done].
      * right. exists i, w'. split; [done|]. exists b. split; [done|lia].
Qed.

Lemma elem_of_slots ws s :
  s ∈ slots_of ws <-> exists w, ws !! (s / 64)%nat = Some w /\ Z.testbit w (Z.of_nat (s mod 64)) = true.
Proof.
  unfold slots_of. rewrite elem_of_slots_from. split.
  - intros (i & w & Hi & b & Hb & ->). apply elem_of_bits in Hb as [Hb Ht].
    replace ((0 + 64 * i + b) / 64)%nat with i by (rewrite (Nat.mul_comm 64 i), Nat.add_0_l, Nat.div_add_l, Nat.div_small; lia).
    replace ((0 + 64 * i + b) mod 64)%nat with b
      by (rewrite Nat.add_0_l, Nat.add_comm, (Nat.mul_comm 64 i), Nat.Div0.mod_add, Nat.mod_small; lia).
    by exists w.
  - intros (w & Hi & Ht). exists (s / 64)%nat, w. split; [done|]. exists (s mod 64)%nat.
    pose proof (Nat.mod_upper_bound s 64). pose proof (Nat.div_mod_eq s 64). split; [by apply elem_of_bits; split; [lia|]|lia].
Qed.

Lemma slots_from_NoDup ws : forall base, NoDup (slots_from base ws).
Proof.
  induction ws as [|w ws IH]; intros base; cbn [slots_from]; [constructor|]. apply NoDup_app. split_and!.
  - apply NoDup_fmap_2; [|apply bits_NoDup]. intros ???. lia.
  - intros s (b & -> & Hb)%list_elem_of_fmap (i & w' & _ & b' & Hb' & E)%elem_of_slots_from. apply elem_of_bits in Hb, Hb'. lia.
  - apply IH.
Qed.

(** The slot's word and bit, as [slot / 64] and [slot % 64]. *)
Lemma mask_bit s w : (Z.land w (slot_mask s) =? 0) = negb (Z.testbit w (Z.of_nat (s mod 64))).
Proof.
  unfold slot_mask. destruct (Z.testbit w (Z.of_nat (s mod 64))) eqn:E; cbn [negb].
  - apply Z.eqb_neq. intros H. apply (f_equal (fun z => Z.testbit z (Z.of_nat (s mod 64)))) in H.
    rewrite Z.land_spec, testbit_mask, E, bool_decide_eq_true_2, Z.bits_0 in H by done. done.
  - apply Z.eqb_eq. apply Z.bits_inj'. intros i Hi. destruct (Z_of_nat_complete i Hi) as [j ->].
    rewrite Z.land_spec, Z.bits_0, testbit_mask. case_bool_decide as Hd; [|by rewrite andb_false_r]. subst j. rewrite E. done.
Qed.

Lemma div_mod_same s s' : (s / 64 = s' / 64)%nat -> (s mod 64 = s' mod 64)%nat -> s = s'.
Proof. intros H1 H2. rewrite (Nat.div_mod_eq s 64), (Nat.div_mod_eq s' 64), H1, H2. done. Qed.

Lemma set_bit_slots ws s w : ws !! (s / 64)%nat = Some w ->
  forall s', s' ∈ slots_of (<[(s / 64)%nat := Z.lor w (slot_mask s)]> ws) <-> s' = s \/ s' ∈ slots_of ws.
Proof.
  intros Hw s'. rewrite !elem_of_slots. pose proof (lookup_lt_Some _ _ _ Hw) as Hlt.
  destruct (decide (s' / 64 = s / 64)%nat) as [E|E].
  - rewrite E, list_lookup_insert_eq, Hw by done. split.
    + intros (w' & [= <-] & Ht). rewrite Z.lor_spec in Ht. unfold slot_mask in Ht. rewrite testbit_mask in Ht.
      apply orb_true_iff in Ht as [Ht|Ht%bool_decide_eq_true]; [right; by exists w|left; by apply div_mod_same].
    + intros [->|(w' & [= <-] & Ht)]; (eexists; split; [done|]); rewrite Z.lor_spec; apply orb_true_iff;
        [right; unfold slot_mask; rewrite testbit_mask; by apply bool_decide_eq_true|by left].
  - rewrite list_lookup_insert_ne by done. split; [by right|]. intros [->|?]; [done|done].
Qed.

Lemma clear_bit_slots ws s w : ws !! (s / 64)%nat = Some w -> is_word w ->
  forall s', s' ∈ slots_of (<[(s / 64)%nat := Z.land w (unot (slot_mask s))]> ws) <-> s' <> s /\ s' ∈ slots_of ws.
Proof.
  intros Hw Hword s'. rewrite !elem_of_slots. pose proof (lookup_lt_Some _ _ _ Hw) as Hlt.
  assert (forall i, (i < 64)%nat -> Z.testbit (Z.land w (unot (slot_mask s))) (Z.of_nat i) =
    Z.testbit w (Z.of_nat i) && negb (bool_decide (i = s mod 64)%nat)) as Hb.
  { intros i Hi. unfold slot_mask. rewrite Z.land_spec, testbit_unot, testbit_mask; [done| |done].
    apply word_mask. pose proof (Nat.mod_upper_bound s 64). lia. }
  pose proof (Nat.mod_upper_bound s' 64 ltac:(lia)) as Hm.
  destruct (decide (s' / 64 = s / 64)%nat) as [E|E].
  - rewrite E, list_lookup_insert_eq, Hw by done. split.
    + intros (w' & [= <-] & Ht). rewrite Hb in Ht by lia. apply andb_true_iff in Ht as [Ht Hn%negb_true_iff%bool_decide_eq_false].
      split; [by intros ->|by exists w].
    + intros (Hne & w' & [= <-] & Ht). eexists. split; [done|]. rewrite Hb, Ht by lia. simpl. apply negb_true_iff, bool_decide_eq_false.
      intros Hmod. apply Hne. by apply div_mod_same.
  - rewrite list_lookup_insert_ne by done. split; [|tauto]. intros H. split; [by intros ->|done].
Qed.

(** ** Invariant and specifications *)

Definition pending (c : ControlState) (s : nat) : Prop := s ∈ slots_of (pendingWords c).

(** The source is the one registered in its slot. *)
Definition current (c : ControlState) (src : EventLoopControlSource) : Prop :=
  exists f, slots c !! source_slot src = Some (mkSlot (Some f) (source_generation src) true).

Record control_ok (c : ControlState) : Prop := {
  co_words : Forall is_word (pendingWords c);
  co_room : forall s, (s < length (slots c))%nat -> (s / 64 < length (pendingWords c))%nat;
  co_size : zlen (slots c) <= kMaxControlSources;
  co_count : control_pendingCount c = Z.of_nat (length (slots_of (pendingWords c)));
  co_pending : forall s, pending c s -> exists f g, slots c !! s = Some (mkSlot (Some f) g true);
  co_slot : forall s x, slots c !! s = Some x -> is_usize (slot_generation x) /\ (slot_active x = bool_decide (is_Some (slot_callback x)));
}.

Lemma ControlState_new_ok n : Z.of_nat n <= kMaxControlSources -> control_ok (ControlState_new n) /\ forall s, ~ pending (ControlState_new n) s.
Proof.
  intros Hn. assert (forall k base, slots_from base (replicate k 0) = []) as Hz by (intros; apply slots_zeros).
  assert (forall s, ~ pending (ControlState_new n) s) as Hp.
  { intros s. unfold pending, slots_of. cbn [pendingWords ControlState_new]. rewrite slots_zeros. by intros ?%elem_of_nil. }
  split; [|done]. split.
  - apply Forall_replicate. split; lia.
  - intros s. cbn [slots pendingWords ControlState_new]. rewrite !length_replicate. intros Hs. pose proof (Nat.div_mod_eq n 64). pose proof (Nat.mod_upper_bound n 64).
    destruct (Nat.eqb_spec (n mod 64) 0); apply Nat.Div0.div_lt_upper_bound; lia.
  - unfold zlen. cbn [slots ControlState_new]. by rewrite length_replicate.
  - cbn [control_pendingCount pendingWords ControlState_new]. unfold slots_of. by rewrite slots_zeros.
  - intros s Hs. by destruct (Hp s).
  - intros s x Hx. apply lookup_replicate in Hx as [-> _]. split; [split; simpl; lia|done].
Qed.

Lemma pending_length c : control_ok c -> (length (slots_of (pendingWords c)) <= length (slots c))%nat.
Proof.
  intros H. rewrite <-(length_seq (length (slots c)) 0). apply submseteq_length, NoDup_submseteq; [apply slots_from_NoDup|].
  intros s Hs. destruct (co_pending c H s Hs) as (f & g & E). apply elem_of_seq. apply lookup_lt_Some in E. lia.
Qed.

(** A word of the table changes at one slot. *)
Lemma pending_added ws ws' s :
  s ∉ slots_of ws -> (forall s', s' ∈ slots_of ws' <-> s' = s \/ s' ∈ slots_of ws) ->
  length (slots_of ws') = S (length (slots_of ws)).
Proof.
  intros Hs H. assert (slots_of ws' ≡ₚ s :: slots_of ws) as ->; [|done].
  apply NoDup_Permutation; [apply slots_from_NoDup|constructor; [done|apply slots_from_NoDup]|]. intros x. rewrite elem_of_cons. apply H.
Qed.

Lemma pending_removed ws ws' s :
  s ∈ slots_of ws -> (forall s', s' ∈ slots_of ws' <-> s' <> s /\ s' ∈ slots_of ws) ->
  length (slots_of ws) = S (length (slots_of ws')).
Proof.
  intros Hs H. apply (pending_added ws' ws s); [by intros [? _]%H|]. intros s'. rewrite H.
  destruct (decide (s' = s)) as [->|]; tauto.
Qed.

Lemma word_at_ok c s x : control_ok c -> slots c !! s = Some x ->
  exists w, pendingWords c !! (s / 64)%nat = Some w /\ is_word w /\ word_at (s / 64) c = (Ok w, c) /\
    (pending c s <-> Z.testbit w (Z.of_nat (s mod 64)) = true).
Proof.
  intros H Hx. pose proof (co_room c H s (lookup_lt_Some _ _ _ Hx)) as Hlt. apply lookup_lt_is_Some_2 in Hlt as [w Hw].
  exists w. split_and!; [done|by eapply Forall_lookup_1; [apply H|]|unfold word_at, bindM, get; by rewrite Hw|].
  unfold pending. rewrite elem_of_slots, Hw. split; [by intros (? & [= ->] & ?)|]. by exists w.
Qed.

(** What [notify] admits. *)
Definition admits (inLoop : bool) (src : EventLoopControlSource) (c : ControlState) : Prop :=
  current c src /\ control_loop c = true /\
  (control_phase c = Accepting \/
   control_phase c = Draining /\ inLoop = true /\ activeCallbackSlot c = Some (source_slot src)).

Lemma current_test c src x : control_ok c -> slots c !! source_slot src = Some x ->
  (negb (slot_active x) || negb (slot_generation x =? source_generation src)) = false <-> current c src.
Proof.
  intros H Hx. destruct (co_slot c H _ _ Hx) as [_ Ha]. unfold current. rewrite Hx. destruct x as [[f|] g []]; simpl in *; try done.
  - rewrite negb_false_iff, Z.eqb_eq. split; [intros ->; by exists f|by intros (? & [= _ ->])].
  - split; [done|]. by intros (? & ?).
Qed.

Lemma notify_ok inLoop src c : control_ok c ->
  exists r wake c', notify inLoop src c = (Ok (r, wake), c') /\ control_ok c' /\
    control_loop c' = control_loop c /\ control_phase c' = control_phase c /\ slots c' = slots c /\
    activeCallbackSlot c' = activeCallbackSlot c /\
    ((r = PostAccepted /\ admits inLoop src c /\ (wake = true <-> ~ pending c (source_slot src)) /\
      forall s, pending c' s <-> s = source_slot src \/ pending c s) \/
     (r <> PostAccepted /\ ~ admits inLoop src c /\ wake = false /\ c' = c)).
Proof.
  intros H. unfold notify. unfold bindM at 1. unfold get at 1.
  destruct (slots c !! source_slot src) as [x|] eqn:Hx.
  2:{ exists PostOwnerUnavailable, false, c. split_and!; try done. right. split_and!; try done. intros ((f & Hf) & _). by rewrite Hx in Hf. }
  destruct (negb (slot_active x) || negb (slot_generation x =? source_generation src) || negb (control_loop c)) eqn:E1.
  { exists PostOwnerUnavailable, false, c. split_and!; try done. right. split_and!; try done. intros (Hc & Hl & _).
    apply (current_test c src x H Hx) in Hc. by rewrite Hc, Hl in E1. }
  apply orb_false_iff in E1 as [Hcur Hl]. apply (current_test c src x H Hx) in Hcur. apply negb_false_iff in Hl.
  destruct (bool_decide (control_phase c = ControlShutdown) || _) eqn:E2.
  { exists PostShutdown, false, c. split_and!; try done. right. split_and!; try done. intros (_ & _ & [Hp|(Hp & -> & Ha)]);
      rewrite Hp in E2; [done|]. rewrite Ha in E2. simpl in E2. by rewrite bool_decide_eq_true_2 in E2. }
  assert (admits inLoop src c) as Had.
  { split; [done|split; [done|]]. destruct (control_phase c); [by left| |done]. right. simpl in E2.
    apply negb_false_iff in E2. apply andb_true_iff in E2 as [-> E2%bool_decide_eq_true]. done. }
  destruct (word_at_ok c _ _ H Hx) as (w & Hw & Hword & Ew & Hpend). rewrite (bindM_ok _ _ _ _ _ Ew). rewrite mask_bit, negb_involutive.
  destruct (Z.testbit w _) eqn:Et.
  - exists PostAccepted, false, c. split_and!; try done. left. split_and!; try done.
    + split; [done|]. tauto.
    + intros s. split; [by right|]. intros [->|?]; [by apply Hpend|done].
  - set (ws' := <[(source_slot src / 64)%nat := Z.lor w (slot_mask (source_slot src))]> (pendingWords c)).
    assert (~ pending c (source_slot src)) as Hnp by (intros ?%Hpend; congruence).
    pose proof (set_bit_slots _ _ _ Hw) as Hset. pose proof (pending_added _ _ _ Hnp Hset) as Hlen.
    exists PostAccepted, true, (set_pending ws' (control_pendingCount c ⊕ 1) c). split; [reflexivity|]. split; [|split_and!; try done; left; by split_and!].
    pose proof (pending_length c H). pose proof (co_size c H) as Hsz. unfold zlen, kMaxControlSources in Hsz. split; try apply H.
    + apply Forall_insert; [apply H|]. apply word_lor; [done|]. unfold slot_mask. apply word_mask.
      pose proof (Nat.mod_upper_bound (source_slot src) 64). lia.
    + intros s. cbn [slots set_pending pendingWords]. unfold ws'. rewrite length_insert. apply H.
    + cbn [control_pendingCount set_pending pendingWords]. fold ws'. rewrite (co_count c H), uwrap_small by lia. unfold ws'. lia.
    + intros s [->|Hs]%Hset; [|by apply (co_pending c H)]. destruct Hcur as [f Hf]. by exists f, (source_generation src).
Qed.

(** What the other operations leave alone. *)
Record control_same (c c' : ControlState) : Prop := {
  cs_loop : control_loop c' = control_loop c;
  cs_phase : control_phase c' = control_phase c;
  cs_active : activeCallbackSlot c' = activeCallbackSlot c;
}.

Lemma next_generation_ok g : is_usize g -> is_usize (next_generation g) /\ next_generation g <> g.
Proof.
  intros Hg. unfold next_generation, is_usize in *. pose proof (uwrap_bound (g + 1)). destruct (_ =? 0) eqn:E; zify_bools.
  - split; [lia|]. intros <-. rewrite uwrap_small in E; lia.
  - split; [done|]. unfold uwrap in *. destruct (decide (g = usize_max)) as [->|]; [done|]. rewrite Z.mod_small; lia.
Qed.

(** A slot that is not pending changes. *)
Lemma set_slot_ok c s x : control_ok c -> is_usize (slot_generation x) -> slot_active x = bool_decide (is_Some (slot_callback x)) ->
  ~ pending c s -> control_ok (set_slots (<[s := x]> (slots c)) c).
Proof.
  intros H Hg Ha Hn. split; try apply H; unfold pending; cbn [slots set_slots pendingWords].
  - rewrite length_insert. apply H.
  - unfold zlen. rewrite length_insert. apply H.
  - intros s' Hs'. rewrite list_lookup_insert_ne; [by apply (co_pending c H)|]. by intros ->.
  - intros s' x' Hx'. apply list_lookup_insert_Some in Hx' as [(<- & <- & _)|(_ & Hx')]; [done|by apply (co_slot c H s')].
Qed.

Lemma register_ok looping f c : control_ok c ->
  exists r c', registerControlSource looping f c = (r, c') /\ control_ok c' /\ control_same c c' /\
    pendingWords c' = pendingWords c /\
    match r with
    | Ok src => looping = false /\ control_phase c = Accepting /\ current c' src /\
        (forall src', source_slot src' = source_slot src -> ~ current c src') /\
        (forall s, s <> source_slot src -> slots c' !! s = slots c !! s)
    | Throw e => (e = logic_error \/ e = length_error) /\ c' = c
    end.
Proof.
  intros H. unfold registerControlSource. destruct looping; [exists (Throw logic_error), c; split_and!; auto; by split|].
  rewrite (bindM_ok _ _ _ tt c) by done. unfold bindM at 1, get at 1. destruct (bool_decide _) eqn:Ep; [|exists (Throw logic_error), c; split_and!; auto; by split].
  apply bool_decide_eq_true in Ep. rewrite (bindM_ok _ _ _ tt c) by done.
  destruct (free_slot (slots c)) as [[i x]|] eqn:Ef; [|exists (Throw length_error), c; split_and!; auto; by split].
  unfold free_slot in Ef. apply list_find_Some in Ef as (Hi & Hx & _). pose proof (lookup_lt_Some _ _ _ Hi) as Hlt.
  destruct (next_generation_ok (slot_generation x)) as [Hg _]; [by apply (co_slot c H i)|].
  eexists (Ok _), _. split; [reflexivity|]. split_and!; try done.
  - apply set_slot_ok; try done. intros (f' & g & E)%(co_pending c H). rewrite Hi in E. by injection E as ->.
  - exists f. cbn. by rewrite list_lookup_insert_eq.
  - intros src' E (f' & E'). cbn in E. rewrite E, Hi in E'. by injection E' as ->.
  - intros s Hs. cbn in *. by rewrite list_lookup_insert_ne.
Qed.

Lemma unregister_ok src c : control_ok c ->
  exists c', unregisterControlSource src c = (Ok tt, c') /\ control_ok c' /\ control_same c c' /\
    ((current c src /\ ~ current c' src /\ (forall s, pending c' s <-> s <> source_slot src /\ pending c s) /\
      (forall s, s <> source_slot src -> slots c' !! s = slots c !! s)) \/
     (~ current c src /\ c' = c)).
Proof.
  intros H. unfold unregisterControlSource. unfold bindM at 1, get at 1.
  destruct (slots c !! source_slot src) as [x|] eqn:Hx.
  2:{ exists c. split_and!; try done. right. split; [|done]. intros (f & E). by rewrite Hx in E. }
  destruct (negb (slot_active x) || negb (slot_generation x =? source_generation src)) eqn:E1.
  { exists c. split_and!; try done. right. split; [|done]. intros Hc%(current_test c src x H Hx). congruence. }
  apply (current_test c src x H Hx) in E1 as Hcur. destruct (word_at_ok c _ _ H Hx) as (w & Hw & Hword & Ew & Hpend).
  rewrite (bindM_ok _ _ _ _ _ Ew). rewrite mask_bit, negb_involutive.
  destruct (co_slot c H _ _ Hx) as [Hg _]. destruct (next_generation_ok _ Hg) as [Hg' Hne].
  assert (forall c1, slots c1 !! source_slot src = Some (mkSlot None (next_generation (slot_generation x)) false) -> ~ current c1 src) as Hstale.
  { intros c1 E (f & E'). rewrite E in E'. by injection E'. }
  pose proof (lookup_lt_Some _ _ _ Hx) as Hlt.
  destruct (Z.testbit w _) eqn:Et.
  - pose proof (clear_bit_slots _ _ _ Hw Hword) as Hclear. set (ws' := <[_ := _]> (pendingWords c)) in Hclear.
    assert (pending c (source_slot src)) as Hp by by apply Hpend. pose proof (pending_removed _ _ _ Hp Hclear) as Hlen.
    pose proof (pending_length c H). pose proof (co_size c H) as Hsz. unfold zlen, kMaxControlSources in Hsz.
    assert (control_ok (set_pending ws' (control_pendingCount c ⊖ 1) c)) as Hok1.
    { split; try apply H.
      - apply Forall_insert; [apply H|]. apply word_land; [done|]. unfold unot, slot_mask.
        pose proof (word_mask (source_slot src mod 64)) as Hm. pose proof (Nat.mod_upper_bound (source_slot src) 64).
        destruct Hm as [_ Hm]; [lia|]. lia.
      - intros s. cbn [slots set_pending pendingWords]. unfold ws'. rewrite length_insert. apply H.
      - cbn [control_pendingCount set_pending pendingWords]. rewrite (co_count c H), uwrap_small; lia.
      - intros s [_ Hs]%Hclear. by apply (co_pending c H). }
    eexists. split; [reflexivity|]. split; [apply (set_slot_ok _ _ _ Hok1); [done|done|]; by intros [? _]%Hclear|]. split; [done|].
    left. split_and!; [done|apply Hstale; cbn; by rewrite list_lookup_insert_eq|exact Hclear|intros s Hs; cbn; by rewrite list_lookup_insert_ne].
  - assert (~ pending c (source_slot src)) as Hp by (intros ?%Hpend; congruence).
    eexists. split; [reflexivity|]. split; [by apply (set_slot_ok _ _ _ H)|]. split; [done|].
    left. split_and!; [done|apply Hstale; cbn; by rewrite list_lookup_insert_eq| |intros s Hs; cbn; by rewrite list_lookup_insert_ne].
    intros s. split; [intros Hs; split; [by intros ->|done]|tauto].
Qed.

Lemma select_ok budget c : control_ok c -> 0 <= budget ->
  exists ds n c', select_controls budget c = (Ok (ds, n), c') /\ control_ok c' /\ control_same c c' /\ slots c' = slots c /\
    slots_of ds = take (Z.to_nat budget) (slots_of (pendingWords c)) /\
    slots_of (pendingWords c') = drop (Z.to_nat budget) (slots_of (pendingWords c)) /\
    n = zlen (slots_of ds) /\ Forall is_word ds /\ length ds = length (pendingWords c).
Proof.
  intros H Hb. pose proof (pending_length c H) as Hl. pose proof (co_size c H) as Hsz. unfold zlen, kMaxControlSources in Hsz.
  assert (is_usize (control_pendingCount c)) as Hc by (rewrite (co_count c H); unfold is_usize; lia).
  destruct (select_words_ok budget (pendingWords c) 0 (control_pendingCount c) 0) as (ws' & ds & E & E1 & E2 & H3 & H4 & H5 & H6);
    [apply H|lia|unfold slots_of in Hl; lia|done|].
  fold (slots_of (pendingWords c)) (slots_of ws') (slots_of ds) in *. rewrite Z.sub_0_r in *.
  set (n := Nat.min _ _) in *. assert (forall A (l : list A), n = Nat.min (Z.to_nat budget) (length l) -> take n l = take (Z.to_nat budget) l /\ drop n l = drop (Z.to_nat budget) l) as Hn.
  { intros A l El. destruct (decide (Z.to_nat budget <= length l)%nat); [by replace n with (Z.to_nat budget) by lia|].
    rewrite !take_ge, !drop_ge by lia. done. }
  destruct (Hn _ (slots_of (pendingWords c)) eq_refl) as [Hn1 Hn2].
  exists ds, (0 + Z.of_nat n), (set_pending ws' (control_pendingCount c ⊖ Z.of_nat n) c).
  split; [unfold select_controls, bindM, get; by rewrite E|]. split_and!; try done; [|by rewrite E2|by rewrite <-Hn2|].
  - split; try apply H; cbn [slots set_pending pendingWords control_pendingCount]; [done|by rewrite H5; apply H| |].
    + rewrite E1, length_drop, (co_count c H), uwrap_small; lia.
    + intros s Hs. apply (co_pending c H). unfold pending in *. cbn [pendingWords set_pending] in Hs. rewrite E1 in Hs. by eapply subseteq_drop.
  - rewrite E2. unfold zlen. rewrite length_take. lia.
Qed.

Lemma begin_control_ok s c : control_ok c ->
  (exists f g, slots c !! s = Some (mkSlot (Some f) g true) /\ begin_control s c = (Ok (Some f), set_active_slot (Some s) c)) \/
  ((forall f g, slots c !! s <> Some (mkSlot (Some f) g true)) /\ begin_control s c = (Ok None, c)).
Proof.
  intros H. unfold begin_control, bindM, get. destruct (slots c !! s) as [[[f|] g []]|] eqn:E; try (right; by split).
  left. by exists f, g.
Qed.

Lemma active_ok a c : control_ok c -> control_ok (set_active_slot a c).
Proof. intros H. by split; try apply H. Qed.

Lemma phase_ok p b c : control_ok c -> control_ok (mkControl b p (slots c) (pendingWords c) (control_pendingCount c) (activeCallbackSlot c)).
Proof. intros H. by split; try apply H. Qed.

(** ** Properties *)

(** The reference: the slots whose bit is set, by going through all of them. *)
Definition bit_set (ws : list Z) (s : nat) : bool :=
  match ws !! (s / 64)%nat with Some w => Z.testbit w (Z.of_nat (s mod 64)) | None => false end.

Definition pending_slots (ws : list Z) : list nat := filter (fun s => bit_set ws s = true) (seq 0 (64 * length ws)).

Lemma filter_fmap_seq (P : nat -> Prop) `{!forall x, Decision (P x)} k n :
  filter P (seq k n) = (fun i => k + i)%nat <$> filter (fun i => P (k + i)%nat) (seq 0 n).
Proof.
  induction n as [|n IH]; [done|]. rewrite !seq_S, !filter_app, fmap_app, IH. f_equal. rewrite !filter_cons, !filter_nil. simpl.
  by destruct (decide (P (k + n)%nat)).
Qed.

Lemma slots_reference ws : forall base, slots_from base ws = (fun i => base + i)%nat <$> pending_slots ws.
Proof.
  unfold pending_slots. induction ws as [|w ws IH]; intros base; [done|]. cbn [slots_from length].
  replace (64 * S (length ws))%nat with (64 + 64 * length ws)%nat by lia. rewrite seq_app, filter_app, fmap_app, Nat.add_0_l. apply (f_equal2 app).
  - apply (f_equal (fmap _)). unfold bits_of. apply filter_agree. intros i Hi%elem_of_seq. unfold bit_set. by rewrite Nat.div_small, Nat.mod_small by lia.
  - rewrite IH, (filter_fmap_seq _ 64), <-list_fmap_compose.
    rewrite (filter_agree (fun s => bit_set ws s = true) (fun i => bit_set (w :: ws) (64 + i)%nat = true)).
    + apply list_fmap_ext. intros ? i _. simpl. lia.
    + intros i _. unfold bit_set. replace (64 + i)%nat with (i + 1 * 64)%nat by lia.
      by rewrite Nat.div_add, Nat.Div0.mod_add, Nat.add_1_r by lia.
Qed.

(** C27. [doControlSources] selects exactly the lowest pending slots, as many as its
    budget allows, and leaves the others pending: the bit-twiddling selection on 64-bit
    words is equivalent to going through all slots in order. *)
Theorem selection_takes_lowest_slots budget c : control_ok c -> 0 <= budget ->
  exists ds c', select_controls budget c = (Ok (ds, zlen (pending_slots ds)), c') /\
    pending_slots ds = take (Z.to_nat budget) (pending_slots (pendingWords c)) /\
    pending_slots (pendingWords c') = drop (Z.to_nat budget) (pending_slots (pendingWords c)) /\
    control_pendingCount c' = zlen (pending_slots (pendingWords c')).
Proof.
  intros H Hb. destruct (select_ok budget c H Hb) as (ds & n & c' & E & Hc' & _ & _ & E1 & E2 & -> & _).
  assert (forall ws, slots_of ws = pending_slots ws) as Hr.
  { intros ws. unfold slots_of. rewrite slots_reference. rewrite (list_fmap_ext _ id); [apply list_fmap_id|done]. }
  pose proof (co_count c' Hc') as Hn. rewrite !Hr in *. by exists ds, c'.
Qed.

(** The control table stays well formed under every operation: the words are
    64-bit, the generations too, there is a word for every slot, a pending slot is one
    in use, and the count is the number of set bits. *)
Theorem control_table_well_formed c : control_ok c ->
  (forall inLoop src, control_ok (snd (notify inLoop src c))) /\
  (forall looping f, control_ok (snd (registerControlSource looping f c))) /\
  (forall src, control_ok (snd (unregisterControlSource src c))) /\
  (forall budget, 0 <= budget -> control_ok (snd (select_controls budget c))) /\
  (forall s, control_ok (snd (begin_control s c)) /\ control_ok (snd (end_control s c))).
Proof.
  intros H. split_and!.
  - intros b src. by destruct (notify_ok b src c H) as (r & w & c' & -> & ? & _).
  - intros b f. by destruct (register_ok b f c H) as (r & c' & -> & ? & _).
  - intros src. by destruct (unregister_ok src c H) as (c' & -> & ? & _).
  - intros b Hb. by destruct (select_ok b c H Hb) as (ds & n & c' & -> & ? & _).
  - intros s. split; [|cbn; case_decide; [by apply active_ok|done]].
    destruct (begin_control_ok s c H) as [(f & g & _ & ->)|[_ ->]]; [by apply active_ok|done].
Qed.

(** ** Examples *)

(** Three sources, two of them notified, the second from another thread. *)
Definition demo_control : ControlState :=
  match (run registerControlSource false 10 ;; run registerControlSource false 11 ;; run registerControlSource false 12 ;;
         run notify true (mkControlSource 2 1) ;; notify false (mkControlSource 1 1)) (ControlState_new 70) with (_, c) => c end.

Lemma demo_control_ok : control_ok demo_control.
Proof.
  destruct (ControlState_new_ok 70) as [H _]; [done|].
  destruct (register_ok false 10 _ H) as (r1 & c1 & E1 & H1 & _). destruct (register_ok false 11 _ H1) as (r2 & c2 & E2 & H2 & _).
  destruct (register_ok false 12 _ H2) as (r3 & c3 & E3 & H3 & _). destruct (notify_ok true (mkControlSource 2 1) _ H3) as (r4 & w4 & c4 & E4 & H4 & _).
  destruct (notify_ok false (mkControlSource 1 1) _ H4) as (r5 & w5 & c5 & E5 & H5 & _).
  replace demo_control with c5; [done|]. symmetry. unfold demo_control.
  vm_compute in E1. injection E1 as <- <-. vm_compute in E2. injection E2 as <- <-. vm_compute in E3. injection E3 as <- <-.
  vm_compute in E4. injection E4 as <- <- <-. vm_compute in E5. injection E5 as <- <- <-. by vm_compute.
Qed.

Lemma selection_takes_lowest_slots_witness :
  exists ds c', select_controls 1 demo_control = (Ok (ds, 1), c') /\ pending_slots (pendingWords c') = [2%nat].
Proof.
  destruct (selection_takes_lowest_slots 1 demo_control demo_control_ok) as (ds & c' & E & E1 & E2 & _); [lia|].
  exists ds, c'. rewrite E1 in E. rewrite E2. split; [exact E|by vm_compute].
Defined.

Lemma control_table_well_formed_witness : control_ok (snd (unregisterControlSource (mkControlSource 2 1) demo_control)).
Proof. apply (control_table_well_formed demo_control demo_control_ok). Defined.
