(* ===== verification/LifecycleNodes.v ===== *)
(** * Lifecycle nodes of an event loop

    Model of [EventLoopLifecycleSource] and of the lifecycle plane of [EventLoop]
    (src/core/net/EventLoop.cc): nodes attached at run time, an intrusive
    first-in-first-out list of the signalled ([dirty]) ones, a doubly linked list of
    those to be signalled when the loop quiesces, and the generations that make a
    source stale once its node is detached.

    Nodes live in a store; raw pointers are addresses, and following one to a node
    that is gone is undefined behaviour.  Addresses are not used twice, since a
    source's [weak_ptr] never finds a later node.  All of it runs under
    [lifecycleState_->mutex], so each operation is atomic.  Time stamps and signal
    counters only feed metrics and are left out. *)

From S2P Require Import Prelude Transport.

Local Open Scope Z_scope.

Inductive EventLoopPhase := Running | Quiescing | FinalDraining | LoopShutdown.

Global Instance EventLoopPhase_eq_dec : EqDecision EventLoopPhase.
Proof. solve_decision. Defined.

(** [EventLoopLifecycleSource::Node] *)
Record Node := mkNode {
  node_callback : nat;
  dirtyNext : option nat;
  quiescePrevious : option nat;
  quiesceNext : option nat;
  node_id : Z;
  node_generation : Z;
  pendingGeneration : Z;
  attached : bool;
  dirty : bool;
  node_active : bool;
  notifyOnQuiesce : bool;
}.

(** [EventLoopLifecycleSource::State]; [heap]: the nodes that exist; [fresh]: the
    next address. *)
Record LifecycleState := mkLifecycle {
  life_loop : bool;
  life_phase : EventLoopPhase;
  maxNodes : Z;
  nextNodeId : Z;
  heap : gmap nat Node;
  fresh : nat;
  nodes : gmap Z nat;
  dirtyHead : option nat;
  dirtyTail : option nat;
  activeNode : option nat;
  quiesceHead : option nat;
  quiesceTail : option nat;
  activeGeneration : Z;
  attachedCount : Z;
  life_pendingCount : Z;
}.

Record EventLoopLifecycleSource := mkSource {
  source_node : nat;
  node_source_generation : Z;
}.

(** Changes of a node. *)
Definition set_dirtyNext (v : option nat) (n : Node) : Node :=
  mkNode (node_callback n) v (quiescePrevious n) (quiesceNext n) (node_id n) (node_generation n)
    (pendingGeneration n) (attached n) (dirty n) (node_active n) (notifyOnQuiesce n).
Definition set_quiescePrevious (v : option nat) (n : Node) : Node :=
  mkNode (node_callback n) (dirtyNext n) v (quiesceNext n) (node_id n) (node_generation n)
    (pendingGeneration n) (attached n) (dirty n) (node_active n) (notifyOnQuiesce n).
Definition set_quiesceNext (v : option nat) (n : Node) : Node :=
  mkNode (node_callback n) (dirtyNext n) (quiescePrevious n) v (node_id n) (node_generation n)
    (pendingGeneration n) (attached n) (dirty n) (node_active n) (notifyOnQuiesce n).
(** [dirty], [pendingGeneration], [dirtyNext] *)
Definition set_dirty (d : bool) (g : Z) (n : Node) : Node :=
  mkNode (node_callback n) None (quiescePrevious n) (quiesceNext n) (node_id n) (node_generation n)
    g (attached n) d (node_active n) (notifyOnQuiesce n).
Definition set_node_active (b : bool) (n : Node) : Node :=
  mkNode (node_callback n) (dirtyNext n) (quiescePrevious n) (quiesceNext n) (node_id n) (node_generation n)
    (pendingGeneration n) (attached n) (dirty n) b (notifyOnQuiesce n).
(** [attached = false], with the next generation. *)
Definition set_detached (g : Z) (n : Node) : Node :=
  mkNode (node_callback n) (dirtyNext n) (quiescePrevious n) (quiesceNext n) (node_id n) g
    (pendingGeneration n) false (dirty n) (node_active n) (notifyOnQuiesce n).

(** Changes of the state. *)
Definition set_heap (f : gmap nat Node -> gmap nat Node) (s : LifecycleState) : LifecycleState :=
  mkLifecycle (life_loop s) (life_phase s) (maxNodes s) (nextNodeId s) (f (heap s)) (fresh s) (nodes s)
    (dirtyHead s) (dirtyTail s) (activeNode s) (quiesceHead s) (quiesceTail s) (activeGeneration s)
    (attachedCount s) (life_pendingCount s).
Definition set_dirty_list (h t : option nat) (n : Z) (s : LifecycleState) : LifecycleState :=
  mkLifecycle (life_loop s) (life_phase s) (maxNodes s) (nextNodeId s) (heap s) (fresh s) (nodes s)
    h t (activeNode s) (quiesceHead s) (quiesceTail s) (activeGeneration s) (attachedCount s) n.
Definition set_quiesce_list (h t : option nat) (s : LifecycleState) : LifecycleState :=
  mkLifecycle (life_loop s) (life_phase s) (maxNodes s) (nextNodeId s) (heap s) (fresh s) (nodes s)
    (dirtyHead s) (dirtyTail s) (activeNode s) h t (activeGeneration s) (attachedCount s) (life_pendingCount s).
Definition set_activeNode (a : option nat) (g : Z) (s : LifecycleState) : LifecycleState :=
  mkLifecycle (life_loop s) (life_phase s) (maxNodes s) (nextNodeId s) (heap s) (fresh s) (nodes s)
    (dirtyHead s) (dirtyTail s) a (quiesceHead s) (quiesceTail s) g (attachedCount s) (life_pendingCount s).
Definition set_attachedCount (n : Z) (s : LifecycleState) : LifecycleState :=
  mkLifecycle (life_loop s) (life_phase s) (maxNodes s) (nextNodeId s) (heap s) (fresh s) (nodes s)
    (dirtyHead s) (dirtyTail s) (activeNode s) (quiesceHead s) (quiesceTail s) (activeGeneration s) n
    (life_pendingCount s).
Definition set_nodes (m : gmap Z nat) (s : LifecycleState) : LifecycleState :=
  mkLifecycle (life_loop s) (life_phase s) (maxNodes s) (nextNodeId s) (heap s) (fresh s) m
    (dirtyHead s) (dirtyTail s) (activeNode s) (quiesceHead s) (quiesceTail s) (activeGeneration s)
    (attachedCount s) (life_pendingCount s).
Definition set_life (b : bool) (p : EventLoopPhase) (s : LifecycleState) : LifecycleState :=
  mkLifecycle b p (maxNodes s) (nextNodeId s) (heap s) (fresh s) (nodes s)
    (dirtyHead s) (dirtyTail s) (activeNode s) (quiesceHead s) (quiesceTail s) (activeGeneration s)
    (attachedCount s) (life_pendingCount s).
(** A new node, at [fresh]. *)
Definition add_node (n : Node) (s : LifecycleState) : LifecycleState :=
  mkLifecycle (life_loop s) (life_phase s) (maxNodes s) (nextNodeId s ⊕ 1) (<[fresh s := n]> (heap s)) (S (fresh s))
    (<[node_id n := fresh s]> (nodes s)) (dirtyHead s) (dirtyTail s) (activeNode s) (quiesceHead s) (quiesceTail s)
    (activeGeneration s) (attachedCount s) (life_pendingCount s).
(** The last [shared_ptr] goes. *)
Definition free_node (a : nat) (id : Z) (s : LifecycleState) : LifecycleState :=
  set_nodes (delete id (nodes s)) (set_heap (delete a) s).

(** The constructor. *)
Definition LifecycleState_new (maxNodesValue : Z) : LifecycleState :=
  mkLifecycle true Running maxNodesValue 1 ∅ 0 ∅ None None None None None 0 0 0.

(** ** Operations *)

(** A raw pointer is followed. *)
Definition deref (a : nat) : M LifecycleState Node :=
  do s <- get ;; match heap s !! a with Some n => ret n | None => throw undefined_behaviour end.

Definition update (a : nat) (f : Node -> Node) : M LifecycleState unit :=
  run deref a ;; modify (set_heap (alter f a)).

(** The node is linked at the end of the dirty list: in [signal] and in [quit]. *)
Definition append_dirty (a : nat) (generation : Z) : M LifecycleState unit :=
  run update a (set_dirty true generation) ;;
  do s <- get ;;
  run match dirtyTail s with
      | None => modify (set_dirty_list (Some a) None (life_pendingCount s))
      | Some t => update t (set_dirtyNext (Some a))
      end ;;
  modify (fun s => set_dirty_list (dirtyHead s) (Some a) (life_pendingCount s ⊕ 1) s).

(** [EventLoopLifecycleSource::signal]; the second component: the loop is woken
    up. *)
Definition signal (inLoop : bool) (src : EventLoopLifecycleSource) : M LifecycleState (PostResult * bool) :=
  do s <- get ;;
  let a := source_node src in
  match heap s !! a with
  | None => ret (PostOwnerUnavailable, false)
  | Some n =>
      if negb (life_loop s) || negb (attached n) || negb (node_generation n =? node_source_generation src)
      then ret (PostOwnerUnavailable, false)
      else
        let selfSignal :=
          (bool_decide (life_phase s = Quiescing) || bool_decide (life_phase s = FinalDraining)) && inLoop &&
          bool_decide (activeNode s = Some a) && (activeGeneration s =? node_source_generation src) in
        if bool_decide (life_phase s = LoopShutdown) ||
           (negb (bool_decide (life_phase s = Running)) && negb selfSignal)
        then ret (PostShutdown, false)
        else if dirty n then ret (PostAccepted, false)
        else run append_dirty a (node_source_generation src) ;; ret (PostAccepted, true)
  end.

(** The new node is linked at the end of the quiesce list. *)
Definition link_participant (a : nat) (tail : option nat) : M LifecycleState unit :=
  run match tail with
      | None => modify (fun s => set_quiesce_list (Some a) (quiesceTail s) s)
      | Some t => update t (set_quiesceNext (Some a))
      end ;;
  modify (fun s => set_quiesce_list (quiesceHead s) (Some a) s).

(** [EventLoop::attachLifecycleNode]; [participant]: [t_attachQuiesceParticipant]. *)
Definition attachLifecycleNode (participant : bool) (callback : nat) : M LifecycleState EventLoopLifecycleSource :=
  do s <- get ;;
  run throw_if (negb (bool_decide (life_phase s = Running)) || negb (life_loop s)) logic_error ;;
  run throw_if (maxNodes s <=? Z.of_nat (size (nodes s))) length_error ;;
  run throw_if (nextNodeId s =? 0) overflow_error ;;
  let a := fresh s in
  let previous := if participant then quiesceTail s else None in
  run modify (add_node (mkNode callback None previous None (nextNodeId s) 1 0 true false false participant)) ;;
  run (if participant then link_participant a (quiesceTail s) else ret tt) ;;
  run modify (fun s => set_attachedCount (attachedCount s ⊕ 1) s) ;;
  ret (mkSource a 1).

(** [++generation], never zero. *)
Definition next_node_generation (g : Z) : Z := if g ⊕ 1 =? 0 then 1 else g ⊕ 1.

(** The node is unlinked from the quiesce list. *)
Definition unlink_quiesce (a : nat) (n : Node) : M LifecycleState unit :=
  run match quiescePrevious n with
      | None => modify (fun s => set_quiesce_list (quiesceNext n) (quiesceTail s) s)
      | Some p => update p (set_quiesceNext (quiesceNext n))
      end ;;
  run match quiesceNext n with
      | None => modify (fun s => set_quiesce_list (quiesceHead s) (quiescePrevious n) s)
      | Some x => update x (set_quiescePrevious (quiescePrevious n))
      end ;;
  update a (fun n => set_quiesceNext None (set_quiescePrevious None n)).

(** The node leaves the registry, if it is the one registered there. *)
Definition retire_node (a : nat) (n : Node) : M LifecycleState unit :=
  do s <- get ;;
  match nodes s !! node_id n with
  | Some a' => if (a' =? a)%nat then modify (free_node a (node_id n)) else ret tt
  | None => ret tt
  end.

(** [EventLoop::detachLifecycleNode], of a source of this loop. *)
Definition detachLifecycleNode (src : EventLoopLifecycleSource) : M LifecycleState unit :=
  do s <- get ;;
  let a := source_node src in
  match heap s !! a with
  | None => ret tt
  | Some n =>
      if negb (attached n) || negb (node_generation n =? node_source_generation src) then ret tt
      else
        run modify (fun s => set_attachedCount (attachedCount s ⊖ 1) s) ;;
        run (if notifyOnQuiesce n then unlink_quiesce a n else ret tt) ;;
        run update a (set_detached (next_node_generation (node_generation n))) ;;
        if negb (dirty n) && negb (node_active n) then retire_node a n else ret tt
  end.

(** The loop of [EventLoop::quit] over the quiesce list.  The list has no more
    nodes than there are. *)
Fixpoint signal_participants (fuel : nat) (cursor : option nat) : M LifecycleState unit :=
  match cursor with
  | None => ret tt
  | Some a =>
      match fuel with
      | O => throw undefined_behaviour
      | S fuel =>
          do n <- deref a ;;
          run (if negb (attached n) then ret tt
               else if dirty n then ret tt
               else append_dirty a (node_generation n)) ;;
          do n <- deref a ;;
          signal_participants fuel (quiesceNext n)
      end
  end.

(** The lifecycle part of [EventLoop::quit]. *)
Definition quiesce_lifecycle : M LifecycleState unit :=
  run modify (fun s => set_life (life_loop s) Quiescing s) ;;
  do s <- get ;;
  signal_participants (S (size (heap s))) (quiesceHead s).

(** [doLifecycleNodes], before a callback: the node, its callback and the
    generation it was signalled for. *)
Definition begin_lifecycle : M LifecycleState (option (nat * nat * Z)) :=
  do s <- get ;;
  match dirtyHead s with
  | None => ret None
  | Some a =>
      do n <- deref a ;;
      run modify (fun s => set_dirty_list (dirtyNext n)
                    (if dirtyNext n is None then None else dirtyTail s) (life_pendingCount s ⊖ 1) s) ;;
      run update a (set_dirty false (pendingGeneration n)) ;;
      do s <- get ;;
      match nodes s !! node_id n with
      | Some a' =>
          if (a' =? a)%nat then
            run update a (fun n => set_node_active true (set_dirty false 0 n)) ;;
            run modify (set_activeNode (Some a) (pendingGeneration n)) ;;
            ret (Some (a, node_callback n, pendingGeneration n))
          else throw log_fatal
      | None => throw log_fatal
      end
  end.

(** [doLifecycleNodes], after a callback. *)
Definition end_lifecycle (a : nat) : M LifecycleState unit :=
  run update a (set_node_active false) ;;
  run modify (fun s => if bool_decide (activeNode s = Some a) then set_activeNode None 0 s else s) ;;
  do n <- deref a ;;
  if negb (attached n) && negb (dirty n) then retire_node a n else ret tt.

(** ** Chains of pointers *)

Definition first (L : list nat) (q : option nat) : option nat := match L with [] => q | a :: _ => Some a end.
Definition final (L : list nat) (p : option nat) : option nat := match last L with Some a => Some a | None => p end.

Section chains.
Context (nx : Node -> option nat).

(** The nodes of [L] are linked by [nx], the last one to [q]. *)
Fixpoint next_chain (h : gmap nat Node) (L : list nat) (q : option nat) : Prop :=
  match L with
  | [] => True
  | a :: L => (exists n, h !! a = Some n /\ nx n = first L q) /\ next_chain h L q
  end.

(** ... and backwards, the first one to [p]. *)
Fixpoint back_chain (h : gmap nat Node) (p : option nat) (L : list nat) : Prop :=
  match L with
  | [] => True
  | a :: L => (exists n, h !! a = Some n /\ nx n = p) /\ back_chain h (Some a) L
  end.

Lemma first_app L1 L2 q : first (L1 ++ L2) q = first L1 (first L2 q).
Proof. by destruct L1. Qed.

Lemma next_chain_app h L1 L2 q : next_chain h (L1 ++ L2) q <-> next_chain h L1 (first L2 q) /\ next_chain h L2 q.
Proof.
  induction L1 as [|a L1 IH]; simpl; [tauto|]. rewrite IH, first_app. tauto.
Qed.

Lemma final_cons a L p : final (a :: L) p = final L (Some a).
Proof. unfold final. rewrite last_cons. by destruct (last L). Qed.

Lemma back_chain_app h L1 : forall p L2, back_chain h p (L1 ++ L2) <-> back_chain h p L1 /\ back_chain h (final L1 p) L2.
Proof.
  induction L1 as [|a L1 IH]; intros p L2; [simpl; tauto|]. rewrite final_cons. simpl. rewrite IH. tauto.
Qed.

(** A store that agrees on the nodes of the chain. *)
Lemma next_chain_ext h h' L q :
  (forall a n, a ∈ L -> h !! a = Some n -> exists n', h' !! a = Some n' /\ nx n' = nx n) ->
  next_chain h L q -> next_chain h' L q.
Proof.
  induction L as [|a L IH]; simpl; [done|]. intros He [(n & Hn & Hnx) Hc]. split.
  - destruct (He a n) as (n' & Hn' & E); [constructor|done|]. exists n'. by rewrite E.
  - apply IH; [|done]. intros b m Hb. apply He. by constructor.
Qed.

Lemma back_chain_ext h h' L : forall p,
  (forall a n, a ∈ L -> h !! a = Some n -> exists n', h' !! a = Some n' /\ nx n' = nx n) ->
  back_chain h p L -> back_chain h' p L.
Proof.
  induction L as [|a L IH]; simpl; [done|]. intros p He [(n & Hn & Hnx) Hc]. split.
  - destruct (He a n) as (n' & Hn' & E); [constructor|done|]. exists n'. by rewrite E.
  - apply IH; [|done]. intros b m Hb. apply He. by constructor.
Qed.

Lemma next_chain_in h L q a : next_chain h L q -> a ∈ L -> is_Some (h !! a).
Proof.
  induction L as [|b L IH]; simpl; [by intros _ ?%elem_of_nil|]. intros [(n & Hn & _) Hc] [->|Ha]%elem_of_cons; [by exists n|by apply IH].
Qed.

(** The last node is linked on, the first one back. *)
Lemma next_chain_relink h L b q q' f :
  b ∉ L -> (forall n, nx (f n) = q') -> next_chain h (L ++ [b]) q -> next_chain (alter f b h) (L ++ [b]) q'.
Proof.
  intros Hb Hf [H1 [(n & Hn & _) _]]%next_chain_app. apply next_chain_app. split.
  - eapply next_chain_ext; [|exact H1]. intros a m Ha Hm. exists m. split; [|done]. rewrite lookup_alter_ne; [done|]. by intros ->.
  - simpl. split; [|done]. exists (f n). by rewrite lookup_alter_eq, Hn.
Qed.

Lemma back_chain_relink h L b p p' f :
  b ∉ L -> (forall n, nx (f n) = p') -> back_chain h p (b :: L) -> back_chain (alter f b h) p' (b :: L).
Proof.
  intros Hb Hf [(n & Hn & _) H]. split; [exists (f n); by rewrite lookup_alter_eq, Hn|].
  eapply back_chain_ext; [|exact H]. intros a m Ha Hm. exists m. split; [|done]. rewrite lookup_alter_ne; [done|]. by intros ->.
Qed.
End chains.

(** A change of one node that leaves a field alone. *)
Lemma alter_keeps {B} (nx : Node -> B) f b (h : gmap nat Node) a n :
  (forall n, nx (f n) = nx n) -> h !! a = Some n -> exists n', alter f b h !! a = Some n' /\ nx n' = nx n.
Proof.
  intros Hf Hn. destruct (decide (a = b)) as [->|Hne]; [exists (f n); by rewrite lookup_alter_eq, Hn|].
  exists n. by rewrite lookup_alter_ne.
Qed.

Lemma alter_inv f b (h : gmap nat Node) a n' :
  alter f b h !! a = Some n' -> (a = b /\ exists n, h !! a = Some n /\ n' = f n) \/ (a <> b /\ h !! a = Some n').
Proof.
  destruct (decide (a = b)) as [->|Hne].
  - rewrite lookup_alter_eq. intros (n & Hn & ->)%fmap_Some. left. split; [done|by exists n].
  - rewrite lookup_alter_ne by done. by right.
Qed.

(** ** Invariant *)

Definition is_attached (n : Node) : Z := if attached n then 1 else 0.

(** [D]: the signalled nodes, oldest first; [Q]: the participants, oldest first;
    [x]: a node about to be retired. *)
Record life_inv (x : option nat) (D Q : list nat) (s : LifecycleState) : Prop := {
  lo_dirty : next_chain dirtyNext (heap s) D None /\ dirtyHead s = head D /\ dirtyTail s = last D /\ NoDup D;
  lo_dirty_in : forall a n, heap s !! a = Some n -> (dirty n = true <-> a ∈ D);
  lo_pending : life_pendingCount s = zlen D;
  lo_quiesce : next_chain quiesceNext (heap s) Q None /\ back_chain quiescePrevious (heap s) None Q /\
    quiesceHead s = head Q /\ quiesceTail s = last Q /\ NoDup Q;
  lo_quiesce_in : forall a n, heap s !! a = Some n -> (attached n && notifyOnQuiesce n = true <-> a ∈ Q);
  lo_nodes : forall id a, nodes s !! id = Some a <-> exists n, heap s !! a = Some n /\ node_id n = id;
  lo_kept : forall a n, heap s !! a = Some n -> x = Some a \/ attached n || dirty n || node_active n = true;
  lo_active : forall a n, heap s !! a = Some n -> (node_active n = true <-> activeNode s = Some a);
  lo_active_in : forall a, activeNode s = Some a -> is_Some (heap s !! a);
  lo_fresh : forall a n, heap s !! a = Some n -> (a < fresh s)%nat /\ is_usize (node_generation n);
  lo_ids : is_usize (nextNodeId s) /\
    forall a n, heap s !! a = Some n -> 0 < node_id n < usize_lim /\ (nextNodeId s = 0 \/ node_id n < nextNodeId s);
  lo_size : size (nodes s) = size (heap s) /\ Z.of_nat (size (heap s)) <= maxNodes s < usize_lim;
  lo_count : attachedCount s = msum is_attached (heap s);
}.

Arguments lo_dirty {x D Q s}.
Arguments lo_dirty_in {x D Q s}.
Arguments lo_pending {x D Q s}.
Arguments lo_quiesce {x D Q s}.
Arguments lo_quiesce_in {x D Q s}.
Arguments lo_nodes {x D Q s}.
Arguments lo_kept {x D Q s}.
Arguments lo_active {x D Q s}.
Arguments lo_active_in {x D Q s}.
Arguments lo_fresh {x D Q s}.
Arguments lo_ids {x D Q s}.
Arguments lo_size {x D Q s}.
Arguments lo_count {x D Q s}.

Abbreviation life_ok := (life_inv None).

Lemma LifecycleState_new_ok n : is_usize n -> life_ok [] [] (LifecycleState_new n).
Proof.
  intros Hn. unfold is_usize in Hn. split; simpl; try done; try (by split_and!; try constructor).
  - intros id a. rewrite lookup_empty. split; [done|]. by intros (? & ? & _).
Qed.

Lemma heap_subset h (L : list nat) : NoDup L -> (forall a, a ∈ L -> is_Some ((h : gmap nat Node) !! a)) -> (length L <= size h)%nat.
Proof.
  intros Hd Hin. rewrite <-(size_list_to_set (C := gset nat) L) by done. rewrite <-size_dom. apply subseteq_size.
  intros a Ha%elem_of_list_to_set. by apply elem_of_dom, Hin.
Qed.

Lemma dirty_length x D Q s : life_inv x D Q s -> Z.of_nat (length D) <= maxNodes s < usize_lim.
Proof.
  intros H. destruct (lo_dirty H) as (Hc & _ & _ & Hd). pose proof (heap_subset (heap s) D Hd).
  destruct (lo_size H). assert (length D <= size (heap s))%nat; [|lia]. apply H0. intros a. by apply next_chain_in with (1 := Hc).
Qed.

Lemma update_ok a f n s : heap s !! a = Some n -> update a f s = (Ok tt, set_heap (alter f a) s).
Proof. intros H. unfold update, deref, bindM, get. by rewrite H. Qed.

Lemma deref_ok a n s : heap s !! a = Some n -> deref a s = (Ok n, s).
Proof. intros H. unfold deref, bindM, get. by rewrite H. Qed.

(** What does not change when nodes are signalled and served. *)
Definition frame (n : Node) : nat * option nat * option nat * Z * Z * bool * bool :=
  (node_callback n, quiescePrevious n, quiesceNext n, node_id n, node_generation n, attached n, notifyOnQuiesce n).

(** Stores that agree on a projection of their nodes. *)
Section projections.
Context {B : Type} (pr : Node -> B).
Implicit Types h : gmap nat Node.

Lemma msum_proj (w : Node -> Z) (w' : B -> Z) h h' :
  (forall n, w n = w' (pr n)) -> pr <$> h' = pr <$> h -> msum w h' = msum w h.
Proof.
  intros Hw E. assert (forall m : gmap nat Node, msum w m = msum w' (pr <$> m)) as Hm.
  { intros m. induction m as [|i n m Hi IH] using map_ind; [by rewrite fmap_empty, !msum_empty|].
    rewrite fmap_insert, !msum_new by (by rewrite ?lookup_fmap, Hi). by rewrite IH, Hw. }
  by rewrite !Hm, E.
Qed.

Lemma proj_back h h' a n' : pr <$> h' = pr <$> h -> h' !! a = Some n' -> exists n, h !! a = Some n /\ pr n' = pr n.
Proof.
  intros E Hn. apply (f_equal (lookup a)) in E. rewrite !lookup_fmap, Hn in E. simpl in E. destruct (h !! a) as [n|]; [|done].
  exists n. split; [done|]. by apply (inj Some) in E.
Qed.

Lemma proj_forth h h' a n : pr <$> h' = pr <$> h -> h !! a = Some n -> exists n', h' !! a = Some n' /\ pr n' = pr n.
Proof. intros E Hn. by destruct (proj_back h' h a n (eq_sym E) Hn) as (n' & ? & ?); exists n'. Qed.

Lemma proj_alter f a h : (forall n, pr (f n) = pr n) -> pr <$> alter f a h = pr <$> h.
Proof.
  intros Hf. apply map_eq. intros b. rewrite !lookup_fmap. destruct (decide (b = a)) as [->|]; [|by rewrite lookup_alter_ne].
  rewrite lookup_alter_eq. destruct (h !! a); simpl; by rewrite ?Hf.
Qed.
End projections.

(** Signalling and serving nodes: only the dirty list and the active node change. *)
Definition with_work (h : gmap nat Node) (dh dt : option nat) (n : Z) (an : option nat) (ag : Z) (s : LifecycleState) : LifecycleState :=
  mkLifecycle (life_loop s) (life_phase s) (maxNodes s) (nextNodeId s) h (fresh s) (nodes s) dh dt an
    (quiesceHead s) (quiesceTail s) ag (attachedCount s) n.

Lemma work_ok x y D Q s D' h' an ag :
  life_inv x D Q s -> frame <$> h' = frame <$> heap s ->
  next_chain dirtyNext h' D' None -> NoDup D' -> (forall a n, h' !! a = Some n -> (dirty n = true <-> a ∈ D')) ->
  (forall a n, h' !! a = Some n -> (node_active n = true <-> an = Some a)) -> (forall a, an = Some a -> is_Some (h' !! a)) ->
  (forall a n, h' !! a = Some n -> y = Some a \/ attached n || dirty n || node_active n = true) ->
  life_inv y D' Q (with_work h' (head D') (last D') (zlen D') an ag s).
Proof.
  intros H Ef Hc Hd Hin Ha Hai Hk.
  assert (forall a n, heap s !! a = Some n -> exists n', h' !! a = Some n' /\ frame n' = frame n) as Hforth
    by (intros; by apply (proj_forth frame (heap s))).
  assert (forall a n', h' !! a = Some n' -> exists n, heap s !! a = Some n /\ frame n' = frame n) as Hback
    by (intros; by apply (proj_back frame (heap s) h')).
  split; cbn [heap dirtyHead dirtyTail life_pendingCount quiesceHead quiesceTail nodes activeNode fresh nextNodeId attachedCount maxNodes with_work];
    try done.
  - destruct (lo_quiesce H) as (Q1 & Q2 & Q3). split_and!; try tauto.
    + eapply next_chain_ext; [|exact Q1]. intros a n _ Hn. destruct (Hforth a n Hn) as (n' & ? & [= ]). by exists n'.
    + eapply back_chain_ext; [|exact Q2]. intros a n _ Hn. destruct (Hforth a n Hn) as (n' & ? & [= ]). by exists n'.
  - intros a n' Hn'. destruct (Hback a n' Hn') as (n & Hn & [= ? ? ? ? ? E1 E2]). rewrite E1, E2. by apply (lo_quiesce_in H).
  - intros id a. rewrite (lo_nodes H id a). split; intros (n & Hn & Hid).
    + destruct (Hforth a n Hn) as (n' & ? & [= ]). exists n'. split; [done|congruence].
    + destruct (Hback a n Hn) as (n' & ? & [= ]). exists n'. split; [done|congruence].
  - intros a n' Hn'. destruct (Hback a n' Hn') as (n & Hn & [= ? ? ? ? E1 ? ?]). rewrite E1. by apply (lo_fresh H a n).
  - split; [apply H|]. intros a n' Hn'. destruct (Hback a n' Hn') as (n & Hn & [= ? ? ? E1 ? ? ?]). rewrite E1. by apply (proj2 (lo_ids H) a n).
  - rewrite <-(map_size_fmap frame h'), Ef, map_size_fmap. apply H.
  - rewrite (msum_proj frame is_attached (fun x => match x with (_, _, _, _, _, b, _) => if (b : bool) then 1 else 0 end) (heap s)) by done. apply H.
Qed.

(** [s] with other work: the same nodes, attached as before. *)
Definition same_nodes (s s' : LifecycleState) : Prop :=
  exists h dh dt n an ag, s' = with_work h dh dt n an ag s /\ frame <$> h = frame <$> heap s.

Lemma append_dirty_ok D Q a n g s : life_ok D Q s -> heap s !! a = Some n -> dirty n = false ->
  exists h', let s' := with_work h' (head (D ++ [a])) (last (D ++ [a])) (zlen (D ++ [a])) (activeNode s) (activeGeneration s) s in
    append_dirty a g s = (Ok tt, s') /\ life_ok (D ++ [a]) Q s' /\ frame <$> h' = frame <$> heap s.
Proof.
  intros H Hn Hnd. destruct (lo_dirty H) as (Hc & Hh & Ht & Hd). pose proof (dirty_length _ _ _ _ H) as Hl.
  assert (a ∉ D) as Ha by (intros Hin; apply (lo_dirty_in H a n Hn) in Hin; congruence).
  assert (Z.of_nat (size (heap s)) < usize_lim) as Hsz by (destruct (lo_size H); lia).
  set (h1 := alter (set_dirty true g) a (heap s)).
  assert (forall L q, a ∉ L -> next_chain dirtyNext (heap s) L q -> next_chain dirtyNext h1 L q) as Hframe.
  { intros L q Hx. apply next_chain_ext. intros b m Hb Hm. exists m. split; [|done]. unfold h1. rewrite lookup_alter_ne; [done|]. by intros ->. }
  assert (h1 !! a = Some (set_dirty true g n)) as Hna by (unfold h1; by rewrite lookup_alter_eq, Hn).
  assert (zlen (D ++ [a]) = life_pendingCount s ⊕ 1) as Hlen.
  { rewrite (lo_pending H), zlen_app. unfold zlen. rewrite uwrap_small; [done|].
    assert (length D < size (heap s))%nat; [|lia]. apply (heap_subset (heap s) (a :: D)); [by constructor|].
    intros b [->|Hb]%elem_of_cons; [by exists n|by apply next_chain_in with (1 := Hc)]. }
  assert (exists h', next_chain dirtyNext h' (D ++ [a]) None /\ frame <$> h' = frame <$> heap s /\
    (forall b m', h' !! b = Some m' -> exists m, heap s !! b = Some m /\ node_active m' = node_active m /\
       attached m' = attached m /\ dirty m' = (if decide (b = a) then true else dirty m)) /\
    append_dirty a g s = (Ok tt, with_work h' (head (D ++ [a])) (last (D ++ [a])) (zlen (D ++ [a])) (activeNode s) (activeGeneration s) s))
    as (h' & Hc' & Hf & Hback & E).
  { unfold append_dirty. rewrite (bindM_ok _ _ _ _ _ (update_ok _ _ _ _ Hn)). fold h1. unfold bindM at 1, get at 1.
    assert (forall b m', h1 !! b = Some m' -> exists m, heap s !! b = Some m /\ node_active m' = node_active m /\
       attached m' = attached m /\ dirty m' = (if decide (b = a) then true else dirty m)) as Hb1.
    { intros b m' [(-> & m & Hm & ->)|[Hne Hm]]%alter_inv; [exists m; by rewrite decide_True|exists m'; by rewrite decide_False]. }
    cbn [dirtyTail set_heap]. rewrite Ht. destruct (last D) as [t|] eqn:El.
    - apply last_Some in El as (D0 & ->). assert (t <> a) as Hta by (intros ->; apply Ha, elem_of_app; right; constructor).
      apply NoDup_app in Hd as (_ & Hd & _).
      pose proof (next_chain_in _ _ _ _ t Hc ltac:(apply elem_of_app; right; constructor)) as [m Hm].
      assert (h1 !! t = Some m) as Hm1 by (unfold h1; by rewrite lookup_alter_ne).
      exists (alter (set_dirtyNext (Some a)) t h1). split_and!.
      + apply next_chain_app. split.
        * apply next_chain_relink with None; [intros Hx; apply (Hd t Hx); constructor|done|by apply Hframe].
        * simpl. split; [|done]. eexists. rewrite lookup_alter_ne by done. split; [exact Hna|done].
      + rewrite proj_alter by done. by apply proj_alter.
      + intros b m' [(-> & m1 & Hm1' & ->)|[Hne Hm']]%alter_inv; [|by apply Hb1]. destruct (Hb1 t m1 Hm1') as (m2 & ? & ? & ? & ?).
        by exists m2.
      + rewrite (bindM_ok _ _ _ _ _ (update_ok t _ m (set_heap (fun _ => h1) s) Hm1)). unfold modify, with_work, set_dirty_list, set_heap. simpl.
        rewrite <-Hlen, Hh. f_equal. f_equal; [by destruct D0|by rewrite last_snoc].
    - apply last_None in El. subst D. exists h1. split_and!; [simpl; split; [by exists (set_dirty true g n)|done]|by apply proj_alter|exact Hb1|].
      rewrite (bindM_ok _ _ _ tt (set_dirty_list (Some a) None (life_pendingCount s) (set_heap (fun _ => h1) s))) by done.
      unfold modify, with_work, set_dirty_list, set_heap. simpl. by rewrite <-Hlen. }
  exists h'. simpl. split; [done|]. split; [|done]. apply (work_ok None None D Q s); try done.
  - apply NoDup_app. split_and!; [done| |apply NoDup_singleton]. by intros b Hb ->%list_elem_of_singleton.
  - intros b m' Hm'. destruct (Hback b m' Hm') as (m & Hm & _ & _ & ->). rewrite elem_of_app, list_elem_of_singleton.
    destruct (decide (b = a)) as [->|Hne]; [split; [by right|done]|]. rewrite (lo_dirty_in H b m Hm). tauto.
  - intros b m' Hm'. destruct (Hback b m' Hm') as (m & Hm & -> & _). by apply (lo_active H).
  - intros b Hb. destruct (lo_active_in H b Hb) as [m Hm]. destruct (proj_forth _ _ _ _ _ Hf Hm) as (m' & ? & _). by exists m'.
  - intros b m' Hm'. destruct (Hback b m' Hm') as (m & Hm & -> & -> & ->). destruct (lo_kept H b m Hm) as [|Hk]; [done|right].
    destruct (decide (b = a)); [by rewrite orb_true_r|done].
Qed.

(** The source's node is attached under its generation. *)
Definition valid_source (s : LifecycleState) (src : EventLoopLifecycleSource) : Prop :=
  exists n, heap s !! source_node src = Some n /\ attached n = true /\ node_generation n = node_source_generation src.

Definition admits_signal (inLoop : bool) (src : EventLoopLifecycleSource) (s : LifecycleState) : Prop :=
  valid_source s src /\ life_loop s = true /\
  (life_phase s = Running \/
   (life_phase s = Quiescing \/ life_phase s = FinalDraining) /\ inLoop = true /\
   activeNode s = Some (source_node src) /\ activeGeneration s = node_source_generation src).

(** The signalled nodes after another signal. *)
Definition signalled (a : nat) (D : list nat) : list nat := if decide (a ∈ D) then D else D ++ [a].

Lemma signal_ok inLoop src D Q s : life_ok D Q s ->
  exists r wake D' s', signal inLoop src s = (Ok (r, wake), s') /\ life_ok D' Q s' /\ same_nodes s s' /\
    activeNode s' = activeNode s /\ activeGeneration s' = activeGeneration s /\
    ((r = PostAccepted /\ admits_signal inLoop src s /\ D' = signalled (source_node src) D /\
      wake = negb (bool_decide (source_node src ∈ D))) \/
     (r <> PostAccepted /\ ~ admits_signal inLoop src s /\ wake = false /\ D' = D /\ s' = s)).
Proof.
  intros H. assert (same_nodes s s) as Hrefl by (exists (heap s), (dirtyHead s), (dirtyTail s), (life_pendingCount s), (activeNode s), (activeGeneration s); by destruct s).
  unfold signal. unfold bindM at 1, get at 1. set (a := source_node src).
  destruct (heap s !! a) as [n|] eqn:Hn.
  2:{ exists PostOwnerUnavailable, false, D, s. split_and!; try done. right. split_and!; try done. intros ((n & Hn' & _) & _). unfold a in Hn. congruence. }
  destruct (negb (life_loop s) || negb (attached n) || negb (node_generation n =? node_source_generation src)) eqn:E1.
  { exists PostOwnerUnavailable, false, D, s. split_and!; try done. right. split_and!; try done. intros ((n' & Hn' & Hat & Hg) & Hl & _).
    fold a in Hn'. rewrite Hn in Hn'. injection Hn' as <-. rewrite Hl, Hat, Hg, Z.eqb_refl in E1. done. }
  apply orb_false_iff in E1 as [[Hl%negb_false_iff Hat%negb_false_iff]%orb_false_iff Hg%negb_false_iff%Z.eqb_eq].
  assert (valid_source s src) as Hv by by exists n.
  destruct (bool_decide (life_phase s = LoopShutdown) || _) eqn:E2.
  { exists PostShutdown, false, D, s. split_and!; try done. right. split_and!; try done.
    intros (_ & _ & [Hp|(Hp & -> & Ha & Hga)]); [by rewrite Hp in E2|]. fold a in Ha.
    rewrite Hga, Z.eqb_refl, (bool_decide_eq_true_2 (activeNode s = Some a)) in E2 by done. by destruct Hp as [Hp|Hp]; rewrite Hp in E2. }
  assert (admits_signal inLoop src s) as Had.
  { split; [done|split; [done|]]. destruct (life_phase s); [by left|right|right|done]; simpl in E2; apply negb_false_iff in E2;
      apply andb_true_iff in E2 as [[E2 E3%bool_decide_eq_true]%andb_true_iff E4%Z.eqb_eq]; auto. }
  pose proof (lo_dirty_in H a n Hn) as Hd. destruct (dirty n) eqn:Ed.
  - exists PostAccepted, false, D, s. split_and!; try done. left. unfold signalled. rewrite decide_True by by apply Hd.
    split_and!; try done. by rewrite bool_decide_eq_true_2 by by apply Hd.
  - assert (a ∉ D) as Ha by (intros ?%Hd; done).
    destruct (append_dirty_ok D Q a n (node_source_generation src) s H Hn Ed) as (h' & E & Hok & Hf).
    rewrite (bindM_ok _ _ _ _ _ E). eexists PostAccepted, true, (D ++ [a]), _. split; [reflexivity|]. split; [done|].
    split; [by repeat eexists|]. split; [done|]. split; [done|]. left. unfold signalled. rewrite decide_False by done.
    split_and!; try done. by rewrite bool_decide_eq_false_2.
Qed.

Lemma same_nodes_trans s1 s2 s3 : same_nodes s1 s2 -> same_nodes s2 s3 -> same_nodes s1 s3.
Proof.
  intros (h & dh & dt & n & an & ag & -> & E) (h' & dh' & dt' & n' & an' & ag' & -> & E'). simpl in E'.
  exists h', dh', dt', n', an', ag'. split; [done|]. by rewrite E'.
Qed.

Lemma participants_ok Q2 : forall fuel D Q Q1 s,
  life_ok D Q s -> Q = Q1 ++ Q2 -> (length Q2 < fuel)%nat ->
  exists s', signal_participants fuel (first Q2 None) s = (Ok tt, s') /\ same_nodes s s' /\
    life_ok (D ++ filter (fun a => a ∉ D) Q2) Q s' /\ activeNode s' = activeNode s.
Proof.
  induction Q2 as [|a Q2 IH]; intros fuel D Q Q1 s H -> Hf.
  - exists s. simpl. destruct fuel; simpl; (split; [done|]); (split; [exists (heap s), (dirtyHead s), (dirtyTail s), (life_pendingCount s), (activeNode s), (activeGeneration s); by destruct s|]);
      by rewrite app_nil_r.
  - simpl in Hf. destruct fuel as [|fuel]; [lia|]. simpl.
    destruct (lo_quiesce H) as (Hc & _ & _ & _ & Hd). pose proof Hc as [_ [(n & Hn & Hnx) _]]%next_chain_app.
    assert (attached n && notifyOnQuiesce n = true) as Hat by (apply (lo_quiesce_in H a n Hn), elem_of_app; right; constructor).
    apply andb_true_iff in Hat as [Hat _]. rewrite (bindM_ok _ _ _ _ _ (deref_ok _ _ _ Hn)). rewrite Hat. simpl.
    assert (a ∉ Q2) as HaQ. { apply NoDup_app in Hd as (_ & _ & Hd). by apply NoDup_cons in Hd as [? _]. }
    pose proof (lo_dirty_in H a n Hn) as Hdi. rewrite filter_cons. destruct (dirty n) eqn:Ed.
    + rewrite (bindM_ok _ _ _ tt s) by done. rewrite (bindM_ok _ _ _ _ _ (deref_ok _ _ _ Hn)), Hnx. rewrite decide_False by (intros Hx; apply Hx; by apply Hdi).
      apply (IH fuel D _ (Q1 ++ [a]) s); [done|by rewrite <-app_assoc|lia].
    + assert (a ∉ D) as HaD by (intros ?%Hdi; done). rewrite decide_True by done.
      destruct (append_dirty_ok D _ a n (node_generation n) s H Hn Ed) as (h' & E & Hok & Hf'). rewrite (bindM_ok _ _ _ _ _ E).
      destruct (proj_forth _ _ _ _ _ Hf' Hn) as (n' & Hn' & Hfn). set (s1 := with_work _ _ _ _ _ _ _) in *.
      rewrite (bindM_ok _ _ _ _ _ (deref_ok a n' s1 Hn')). replace (quiesceNext n') with (first Q2 None) by (injection Hfn; congruence).
      destruct (IH fuel (D ++ [a]) (Q1 ++ a :: Q2) (Q1 ++ [a]) s1) as (s' & E' & Hs & Hok' & Ha'); [done|by rewrite <-app_assoc|lia|].
      exists s'. split; [done|]. split; [eapply same_nodes_trans; [|exact Hs]; by repeat eexists|]. split; [|done].
      replace (D ++ a :: filter (fun b => b ∉ D) Q2) with ((D ++ [a]) ++ filter (fun b => b ∉ D ++ [a]) Q2); [done|].
      rewrite <-app_assoc. simpl. f_equal. f_equal. apply filter_agree. intros b Hb. rewrite not_elem_of_app, list_elem_of_singleton.
      split; [tauto|]. intros ?. split; [done|]. by intros ->.
Qed.

Lemma quiesce_ok D Q s : life_ok D Q s ->
  exists s', quiesce_lifecycle s = (Ok tt, s') /\ same_nodes (set_life (life_loop s) Quiescing s) s' /\
    life_ok (D ++ filter (fun a => a ∉ D) Q) Q s' /\ activeNode s' = activeNode s.
Proof.
  intros H. assert (life_ok D Q (set_life (life_loop s) Quiescing s)) as H1 by (by split; try apply H).
  unfold quiesce_lifecycle. rewrite (bindM_ok _ _ _ tt (set_life (life_loop s) Quiescing s)) by done. unfold bindM, get.
  destruct (lo_quiesce H1) as (Hc & _ & -> & _ & Hd).
  replace (head Q) with (first Q None) by by destruct Q.
  apply (participants_ok Q (S (size (heap (set_life (life_loop s) Quiescing s)))) D Q [] (set_life (life_loop s) Quiescing s)); [done|done|].
  apply Nat.lt_succ_r. apply heap_subset; [done|]. intros a. by apply next_chain_in with (1 := Hc).
Qed.

Lemma begin_ok D Q s : life_ok D Q s -> activeNode s = None ->
  match D with
  | [] => begin_lifecycle s = (Ok None, s)
  | a :: D' => exists f g s', begin_lifecycle s = (Ok (Some (a, f, g)), s') /\ life_ok D' Q s' /\ same_nodes s s' /\
      activeNode s' = Some a /\ activeGeneration s' = g
  end.
Proof.
  intros H Hna. destruct (lo_dirty H) as (Hc & Hh & Ht & Hd). 
  destruct D as [|a D']; unfold begin_lifecycle; unfold bindM at 1, get at 1; rewrite Hh; [done|]. cbn [head]. destruct Hc as [(n & Hn & Hnx) Hc]. apply NoDup_cons in Hd as [Ha Hd].
  rewrite (bindM_ok _ _ _ _ _ (deref_ok _ _ _ Hn)).
  set (s1 := set_dirty_list (dirtyNext n) (if dirtyNext n is None then None else dirtyTail s) (life_pendingCount s ⊖ 1) s).
  rewrite (bindM_ok _ _ _ tt s1) by done. rewrite (bindM_ok _ _ _ _ _ (update_ok a _ n s1 Hn)). unfold bindM at 1, get at 1.
  assert (nodes s !! node_id n = Some a) as Hid by (apply (lo_nodes H); by exists n).
  cbn [nodes set_heap s1 set_dirty_list]. rewrite Hid, Nat.eqb_refl.
  set (s2 := set_heap (alter (set_dirty false (pendingGeneration n)) a) s1).
  assert (heap s2 !! a = Some (set_dirty false (pendingGeneration n) n)) as Hn2 by (cbn; by rewrite lookup_alter_eq, Hn).
  rewrite (bindM_ok _ _ _ _ _ (update_ok a _ _ s2 Hn2)).
  set (f2 := fun n => set_node_active true (set_dirty false 0 n)). set (h' := alter f2 a (heap s2)).
  assert (frame <$> h' = frame <$> heap s) as Hf by (unfold h'; rewrite proj_alter by done; cbn; by apply proj_alter).
  assert (forall b m', h' !! b = Some m' -> (b = a /\ m' = f2 (set_dirty false (pendingGeneration n) n)) \/ (b <> a /\ heap s !! b = Some m')) as Hb.
  { intros b m' [(-> & m & Hm & ->)|[Hne Hm]]%alter_inv; [left; split; [done|]; rewrite Hn2 in Hm; by injection Hm as <-|].
    right. split; [done|]. cbn in Hm. by rewrite lookup_alter_ne in Hm. }
  eexists (node_callback n), (pendingGeneration n), _. split; [reflexivity|].
  assert (life_ok D' Q (with_work h' (head D') (last D') (zlen D') (Some a) (pendingGeneration n) s)) as Hok.
  { apply (work_ok None None (a :: D') Q s); try done.
    - eapply next_chain_ext; [|exact Hc]. intros b m Hb' Hm. exists m. split; [|done]. unfold h'. rewrite lookup_alter_ne; [|by intros ->].
      cbn. rewrite lookup_alter_ne; [done|by intros ->].
    - intros b m' [[-> ->]|[Hne Hm]]%Hb; [by split|]. rewrite (lo_dirty_in H b m' Hm), elem_of_cons. tauto.
    - intros b m' [[-> ->]|[Hne Hm]]%Hb; [by split|]. rewrite (lo_active H b m' Hm), Hna. split; [done|]. by intros [= ->].
    - intros b [= <-]. unfold h'. rewrite lookup_alter_eq, Hn2. by eexists.
    - intros b m' [[-> ->]|[Hne Hm]]%Hb; [right; simpl; by rewrite orb_true_r|by apply (lo_kept H)]. }
  split; [|split; [|done]].
  - replace (set_activeNode _ _ _) with (with_work h' (head D') (last D') (zlen D') (Some a) (pendingGeneration n) s); [done|].
    unfold with_work, set_activeNode, h', s2, s1, set_heap, set_dirty_list. simpl. rewrite Hnx. f_equal.
    + destruct D' as [|b D']; [done|]. simpl. by rewrite Ht.
    + rewrite (lo_pending H). pose proof (dirty_length _ _ _ _ H) as Hl. unfold zlen in *. simpl in *. rewrite uwrap_small; lia.
  - by repeat eexists.
Qed.

(** A detached source stays without effect. *)
Record evolves (s s' : LifecycleState) : Prop := {
  ev_fresh : (fresh s <= fresh s')%nat;
  ev_valid : forall src, (source_node src < fresh s)%nat -> valid_source s' src -> valid_source s src;
}.

Lemma evolves_same s : evolves s s.
Proof. by split. Qed.

Lemma evolves_trans s1 s2 s3 : evolves s1 s2 -> evolves s2 s3 -> evolves s1 s3.
Proof. intros [F1 V1] [F2 V2]. split; [lia|]. intros src Hs Hv. apply V1; [done|]. apply V2; [lia|done]. Qed.

Lemma same_nodes_evolves s s' : same_nodes s s' -> evolves s s'.
Proof.
  intros (h & dh & dt & k & an & ag & -> & E). split; [done|]. intros src _ (n & Hn & Ha & Hg).
  destruct (proj_back _ _ _ _ _ E Hn) as (n' & Hn' & [= ]). exists n'. split_and!; congruence.
Qed.

(** ** Retiring a node *)

Lemma free_ok D Q s a n : life_inv (Some a) D Q s -> heap s !! a = Some n -> a ∉ D -> a ∉ Q ->
  activeNode s <> Some a -> attached n = false ->
  life_ok D Q (free_node a (node_id n) s) /\ evolves s (free_node a (node_id n) s).
Proof.
  intros H Hn HD HQ Han Hat.
  assert (forall (L : list nat) b m, a ∉ L -> b ∈ L -> heap s !! b = Some m -> delete a (heap s) !! b = Some m) as Hkeep.
  { intros L b m HL Hb Hm. rewrite lookup_delete_ne; [done|]. by intros ->. }
  assert (forall b m, delete a (heap s) !! b = Some m -> b <> a /\ heap s !! b = Some m) as Hinv.
  { intros b m Hm. rewrite lookup_delete_Some in Hm. naive_solver. }
  assert (nodes s !! node_id n = Some a) as Hid by (apply (lo_nodes H); by exists n).
  split; [|split; [done|intros src _ (m & [_ Hm]%Hinv & ?); by exists m]].
  split; cbn [heap dirtyHead dirtyTail life_pendingCount quiesceHead quiesceTail nodes activeNode fresh nextNodeId attachedCount maxNodes free_node set_nodes set_heap];
    try apply H.
  - destruct (lo_dirty H) as (Hc & ?). split; [|done]. eapply next_chain_ext; [|exact Hc]. intros b m Hb Hm. exists m. split; [exact (Hkeep _ _ _ HD Hb Hm)|done].
  - intros b m [_ Hm]%Hinv. by apply (lo_dirty_in H).
  - destruct (lo_quiesce H) as (Hc & Hb' & ?). split_and!; try tauto.
    + eapply next_chain_ext; [|exact Hc]. intros b m Hb Hm. exists m. split; [exact (Hkeep _ _ _ HQ Hb Hm)|done].
    + eapply back_chain_ext; [|exact Hb']. intros b m Hb Hm. exists m. split; [exact (Hkeep _ _ _ HQ Hb Hm)|done].
  - intros b m [_ Hm]%Hinv. by apply (lo_quiesce_in H).
  - intros id b. rewrite lookup_delete_Some, (lo_nodes H id b). split.
    + intros (Hne & m & Hm & Hmid). exists m. split; [|done]. rewrite lookup_delete_ne; [done|]. intros <-. rewrite Hn in Hm. by injection Hm as <-.
    + intros (m & [Hne Hm]%Hinv & Hmid). split; [|by exists m]. intros Eid. assert (nodes s !! node_id m = Some b) as E by (apply (lo_nodes H); by exists m).
      congruence.
  - intros b m [Hne Hm]%Hinv. destruct (lo_kept H b m Hm) as [[= ->]|?]; [done|by right].
  - intros b m [_ Hm]%Hinv. by apply (lo_active H).
  - intros b Hb. rewrite lookup_delete_ne; [by apply (lo_active_in H)|]. by intros ->.
  - intros b m [_ Hm]%Hinv. by apply (lo_fresh H b m).
  - split; [apply H|]. intros b m [_ Hm]%Hinv. by apply (proj2 (lo_ids H) b m).
  - destruct (lo_size H) as [H1 H2]. rewrite !map_size_delete, Hid, Hn. split; lia.
  - rewrite (lo_count H), (msum_delete _ _ a n) by done. unfold is_attached at 3. rewrite Hat. lia.
Qed.

Lemma retire_ok D Q s a n n' : life_inv (Some a) D Q s -> heap s !! a = Some n -> node_id n' = node_id n ->
  retire_node a n' s = (Ok tt, free_node a (node_id n) s).
Proof.
  intros H Hn Hid'. assert (nodes s !! node_id n = Some a) as Hid by (apply (lo_nodes H); by exists n).
  unfold retire_node, bindM, get. by rewrite Hid', Hid, Nat.eqb_refl.
Qed.

Lemma kept_ok D Q s a n : life_inv (Some a) D Q s -> heap s !! a = Some n -> attached n || dirty n || node_active n = true -> life_ok D Q s.
Proof.
  intros H Hn Hk. split; try apply H. intros b m Hm. right. destruct (lo_kept H b m Hm) as [[= ->]|?]; [congruence|done].
Qed.

Lemma end_ok D Q s a : life_ok D Q s -> activeNode s = Some a ->
  exists s', end_lifecycle a s = (Ok tt, s') /\ life_ok D Q s' /\ activeNode s' = None /\ evolves s s' /\
    life_phase s' = life_phase s /\ life_loop s' = life_loop s.
Proof.
  intros H Ha. destruct (lo_active_in H a Ha) as [n Hn]. destruct (lo_dirty H) as (Hc & Hh & Ht & Hd). pose proof (lo_pending H) as Hp.
  unfold end_lifecycle. rewrite (bindM_ok _ _ _ _ _ (update_ok _ _ _ _ Hn)).
  set (h1 := alter (set_node_active false) a (heap s)). set (s1 := with_work h1 (head D) (last D) (zlen D) None 0 s).
  assert (frame <$> h1 = frame <$> heap s) as Hf by by apply proj_alter.
  assert (same_nodes s s1) as Hsn by by repeat eexists.
  rewrite (bindM_ok _ _ _ tt s1).
  2:{ unfold modify. cbn [activeNode set_heap]. rewrite Ha, bool_decide_eq_true_2 by done. unfold s1, with_work, set_activeNode, set_heap. simpl.
      by rewrite Hh, Ht, Hp. }
  assert (heap s1 !! a = Some (set_node_active false n)) as Hn1 by (cbn; unfold h1; by rewrite lookup_alter_eq, Hn).
  rewrite (bindM_ok _ _ _ _ _ (deref_ok _ _ _ Hn1)).
  change (attached (set_node_active false n)) with (attached n). change (dirty (set_node_active false n)) with (dirty n).
  assert (life_inv (Some a) D Q s1) as H1.
  { apply (work_ok None (Some a) D Q s); try done.
    - eapply next_chain_ext; [|exact Hc]. intros b m _ Hm. by apply alter_keeps.
    - intros b m' [(-> & m & Hm & ->)|[_ Hm]]%alter_inv; exact (lo_dirty_in H _ _ Hm).
    - intros b m' [(-> & m & Hm & ->)|[Hne Hm]]%alter_inv; [done|]. rewrite (lo_active H b m' Hm), Ha. split; [|done]. intros [= ->]. done.
    - intros b m' [(-> & m & Hm & ->)|[Hne Hm]]%alter_inv; [by left|]. destruct (lo_kept H b m' Hm); by right. }
  destruct (negb (attached n) && negb (dirty n)) eqn:E.
  - apply andb_true_iff in E as [E1%negb_true_iff E2%negb_true_iff].
    rewrite (retire_ok D Q s1 a _ _ H1 Hn1 eq_refl). destruct (free_ok D Q s1 a _ H1 Hn1) as [Hok Hev].
    + intros Hin. apply (lo_dirty_in H1 a _ Hn1) in Hin. simpl in Hin. congruence.
    + intros Hin. apply (lo_quiesce_in H1 a _ Hn1) in Hin. simpl in Hin. by rewrite E1 in Hin.
    + done.
    + done.
    + eexists. split; [reflexivity|]. split_and!; try done. eapply evolves_trans; [by apply same_nodes_evolves|done].
  - exists s1. split; [done|]. split_and!; try done; [|by apply same_nodes_evolves]. apply (kept_ok D Q s1 a _ H1 Hn1). simpl.
    destruct (attached n), (dirty n); done.
Qed.

(** ** Attaching and detaching *)

(** What does not change when nodes are attached and detached. *)
Definition rest (n : Node) : nat * option nat * Z * Z * bool * bool * bool :=
  (node_callback n, dirtyNext n, node_id n, pendingGeneration n, dirty n, node_active n, notifyOnQuiesce n).

Definition with_links (h : gmap nat Node) (qh qt : option nat) (k : Z) (s : LifecycleState) : LifecycleState :=
  mkLifecycle (life_loop s) (life_phase s) (maxNodes s) (nextNodeId s) h (fresh s) (nodes s) (dirtyHead s) (dirtyTail s)
    (activeNode s) qh qt (activeGeneration s) k (life_pendingCount s).

Lemma links_ok x y D Q s Q' h' :
  life_inv x D Q s -> rest <$> h' = rest <$> heap s ->
  next_chain quiesceNext h' Q' None -> back_chain quiescePrevious h' None Q' -> NoDup Q' ->
  (forall a n, h' !! a = Some n -> (attached n && notifyOnQuiesce n = true <-> a ∈ Q') /\ is_usize (node_generation n) /\
     (y = Some a \/ attached n || dirty n || node_active n = true)) ->
  life_inv y D Q' (with_links h' (head Q') (last Q') (msum is_attached h') s).
Proof.
  intros H Ef Hc Hb Hd Hall.
  assert (forall a n, heap s !! a = Some n -> exists n', h' !! a = Some n' /\ rest n' = rest n) as Hforth.
  { intros a n Hn. by destruct (proj_back rest h' (heap s) a n (eq_sym Ef) Hn) as (n' & ? & ?); exists n'. }
  assert (forall a n', h' !! a = Some n' -> exists n, heap s !! a = Some n /\ rest n' = rest n) as Hback
    by (intros; by apply (proj_back rest (heap s) h')).
  split; cbn [heap dirtyHead dirtyTail life_pendingCount quiesceHead quiesceTail nodes activeNode fresh nextNodeId attachedCount maxNodes with_links];
    try done; try apply H.
  - destruct (lo_dirty H) as (Hcd & ?). split; [|done]. eapply next_chain_ext; [|exact Hcd]. intros a n _ Hn.
    destruct (Hforth a n Hn) as (n' & ? & [= ]). by exists n'.
  - intros a n' Hn'. destruct (Hback a n' Hn') as (n & Hn & [= ? ? ? ? E1 ? ?]). rewrite E1. by apply (lo_dirty_in H).
  - intros a n' Hn'. by apply (Hall a n').
  - intros id a. rewrite (lo_nodes H id a). split; intros (n & Hn & Hid).
    + destruct (Hforth a n Hn) as (n' & ? & [= ]). exists n'. split; [done|congruence].
    + destruct (Hback a n Hn) as (n' & ? & [= ]). exists n'. split; [done|congruence].
  - intros a n' Hn'. by apply (Hall a n').
  - intros a n' Hn'. destruct (Hback a n' Hn') as (n & Hn & [= ? ? ? ? ? E1 ?]). rewrite E1. by apply (lo_active H).
  - intros a Ha. destruct (lo_active_in H a Ha) as [n Hn]. destruct (Hforth a n Hn) as (n' & ? & _). by exists n'.
  - intros a n' Hn'. destruct (Hback a n' Hn') as (n & Hn & _). split; [by apply (lo_fresh H a n)|by apply (Hall a n')].
  - split; [apply H|]. intros a n' Hn'. destruct (Hback a n' Hn') as (n & Hn & [= ? ? E1 ? ? ? ?]). rewrite E1. by apply (proj2 (lo_ids H) a n).
  - rewrite <-(map_size_fmap rest h'), Ef, map_size_fmap. apply H.
Qed.

(** The heap after a node was taken out of the quiesce list. *)
Definition unlinked (h : gmap nat Node) (a : nat) (p x : option nat) : gmap nat Node :=
  let h := match p with None => h | Some b => alter (set_quiesceNext x) b h end in
  let h := match x with None => h | Some b => alter (set_quiescePrevious p) b h end in
  alter (fun n => set_quiesceNext None (set_quiescePrevious None n)) a h.

Lemma unlinked_fields h a p x b m :
  h !! b = Some m -> b <> a -> exists m', unlinked h a p x !! b = Some m' /\ rest m' = rest m /\
    attached m' = attached m /\ node_generation m' = node_generation m /\
    quiesceNext m' = (if decide (p = Some b) then x else quiesceNext m) /\
    quiescePrevious m' = (if decide (x = Some b) then p else quiescePrevious m).
Proof.
  intros Hm Hb. unfold unlinked. rewrite lookup_alter_ne by done.
  assert (exists m1, match p with None => h | Some c => alter (set_quiesceNext x) c h end !! b = Some m1 /\ rest m1 = rest m /\
    attached m1 = attached m /\ node_generation m1 = node_generation m /\
    quiesceNext m1 = (if decide (p = Some b) then x else quiesceNext m) /\
    quiescePrevious m1 = quiescePrevious m) as (m1 & Hm1 & R1 & A1 & G1 & N1 & P1).
  { destruct p as [c|]; [|exists m; by rewrite decide_False]. destruct (decide (b = c)) as [->|Hne].
    - exists (set_quiesceNext x m). by rewrite lookup_alter_eq, Hm, decide_True.
    - exists m. rewrite lookup_alter_ne, decide_False by congruence. done. }
  destruct x as [c|]; [|exists m1; rewrite (decide_False (P := None = Some b)) by done; done]. destruct (decide (b = c)) as [->|Hne].
  - exists (set_quiescePrevious p m1). rewrite lookup_alter_eq, Hm1, (decide_True (P := Some c = Some c)) by done. done.
  - exists m1. rewrite lookup_alter_ne, (decide_False (P := Some c = Some b)) by congruence. done.
Qed.

Lemma unlinked_chains h a Q1 Q2 :
  NoDup (Q1 ++ a :: Q2) -> next_chain quiesceNext h (Q1 ++ a :: Q2) None -> back_chain quiescePrevious h None (Q1 ++ a :: Q2) ->
  let h' := unlinked h a (final Q1 None) (first Q2 None) in
  next_chain quiesceNext h' (Q1 ++ Q2) None /\ back_chain quiescePrevious h' None (Q1 ++ Q2).
Proof.
  intros Hd [Hn1 [_ Hn2]]%next_chain_app [Hb1 [_ Hb2]]%back_chain_app h'.
  apply NoDup_app in Hd as (Hd1 & Hd12 & [Ha2 Hd2]%NoDup_cons). assert (a ∉ Q1) as Ha1 by (intros Hx; apply (Hd12 a Hx); constructor).
  assert (forall b, b ∈ Q1 -> b ∉ Q2) as Hd12' by (intros b Hb Hb'; apply (Hd12 b Hb); by constructor).
  assert (forall b m, b ∈ Q1 ++ Q2 -> h !! b = Some m -> exists m', h' !! b = Some m' /\
    quiesceNext m' = (if decide (final Q1 None = Some b) then first Q2 None else quiesceNext m) /\
    quiescePrevious m' = (if decide (first Q2 None = Some b) then final Q1 None else quiescePrevious m)) as Hf.
  { intros b m Hb Hm. destruct (unlinked_fields h a (final Q1 None) (first Q2 None) b m Hm) as (m' & Hm' & _ & _ & _ & F1 & F2); [|by exists m'].
    intros ->. apply elem_of_app in Hb as [?|?]; done. }
  assert (forall b, final Q1 None = Some b -> b ∈ Q1) as Hfin.
  { intros b. unfold final. destruct (last Q1) eqn:El; [|done]. intros [= ->]. by apply last_Some_elem_of. }
  assert (forall b, first Q2 None = Some b -> b ∈ Q2) as Hfst by (intros b; destruct Q2; [done|]; intros [= ->]; constructor).
  split; [apply next_chain_app|apply back_chain_app]; split.
  - clear Hn2 Hb1 Hb2. destruct Q1 as [|p Q0 _] using rev_ind; [done|]. apply next_chain_app in Hn1 as [Hn1 [(m & Hm & _) _]].
    apply NoDup_app in Hd1 as (_ & Hp & _). assert (p ∉ Q0) as Hp' by (intros Hx; apply (Hp p Hx); constructor).
    assert (final (Q0 ++ [p]) None = Some p) as Hl by (unfold final; by rewrite last_snoc).
    apply next_chain_app. split.
    + eapply next_chain_ext; [|exact Hn1]. intros b mb Hb Hmb. destruct (Hf b mb) as (m' & ? & E & _); [rewrite !elem_of_app; auto|done|].
      exists m'. split; [done|]. rewrite E, decide_False; [done|]. rewrite Hl. intros [= ->]. done.
    + simpl. split; [|done]. destruct (Hf p m) as (m' & ? & E & _); [rewrite !elem_of_app; left; right; constructor|done|].
      exists m'. split; [done|]. by rewrite E, decide_True.
  - eapply next_chain_ext; [|exact Hn2]. intros b m Hb Hm. destruct (Hf b m) as (m' & ? & E & _); [apply elem_of_app; auto|done|].
    exists m'. split; [done|]. rewrite E, decide_False; [done|]. intros ?%Hfin. by apply (Hd12' b).
  - eapply back_chain_ext; [|exact Hb1]. intros b m Hb Hm. destruct (Hf b m) as (m' & ? & _ & E); [apply elem_of_app; auto|done|].
    exists m'. split; [done|]. rewrite E, decide_False; [done|]. intros ?%Hfst. by apply (Hd12' b).
  - destruct Q2 as [|x Q2]; [done|]. destruct Hb2 as [(m & Hm & _) Hb2]. apply NoDup_cons in Hd2 as [Hx _]. simpl. split.
    + destruct (Hf x m) as (m' & ? & _ & E); [rewrite elem_of_app; right; constructor|done|]. exists m'. split; [done|]. by rewrite E, decide_True.
    + eapply back_chain_ext; [|exact Hb2]. intros b mb Hb Hmb. destruct (Hf b mb) as (m' & ? & _ & E); [rewrite elem_of_app; right; by constructor|done|].
      exists m'. split; [done|]. rewrite E, decide_False; [done|]. simpl. intros [= ->]. done.
Qed.

Lemma alter_some f b (h : gmap nat Node) a : is_Some (h !! a) -> is_Some (alter f b h !! a).
Proof.
  intros [n Hn]. destruct (decide (a = b)) as [->|]; [rewrite lookup_alter_eq, Hn; by eexists|rewrite lookup_alter_ne by done; by exists n].
Qed.

Lemma update_total a f s : is_Some (heap s !! a) -> update a f s = (Ok tt, set_heap (alter f a) s).
Proof. intros [n Hn]. by apply (update_ok a f n). Qed.

Lemma unlink_ok Q1 Q2 a n s :
  next_chain quiesceNext (heap s) (Q1 ++ a :: Q2) None -> back_chain quiescePrevious (heap s) None (Q1 ++ a :: Q2) ->
  quiesceHead s = head (Q1 ++ a :: Q2) -> quiesceTail s = last (Q1 ++ a :: Q2) -> heap s !! a = Some n ->
  unlink_quiesce a n s =
    (Ok tt, set_quiesce_list (head (Q1 ++ Q2)) (last (Q1 ++ Q2)) (set_heap (fun h => unlinked h a (final Q1 None) (first Q2 None)) s)).
Proof.
  intros Hn Hb Hh Ht Ha. pose proof Hn as [_ [(n' & Ha' & Hnx) _]]%next_chain_app. rewrite Ha in Ha'. injection Ha' as <-.
  pose proof Hb as [_ [(n' & Ha' & Hpv) _]]%back_chain_app. rewrite Ha in Ha'. injection Ha' as <-.
  assert (forall b, final Q1 None = Some b -> is_Some (heap s !! b)) as Hp.
  { intros b. unfold final. destruct (last Q1) eqn:El; [|done]. intros [= ->]. apply (next_chain_in _ _ _ _ b Hn), elem_of_app. left.
    by apply last_Some_elem_of. }
  assert (forall b, first Q2 None = Some b -> is_Some (heap s !! b)) as Hx.
  { intros b. destruct Q2 as [|x Q2]; [done|]. intros [= ->]. apply (next_chain_in _ _ _ _ b Hn), elem_of_app. right. by do 2 constructor. }
  unfold unlink_quiesce, unlinked. rewrite Hnx, Hpv.
  assert (head (Q1 ++ Q2) = match final Q1 None with None => first Q2 None | Some _ => quiesceHead s end) as ->.
  { rewrite Hh. destruct Q1 as [|q Q1]; [by destruct Q2|]. unfold final. destruct (last (q :: Q1)) eqn:El; [done|]. by apply last_None in El. }
  assert (last (Q1 ++ Q2) = match first Q2 None with None => final Q1 None | Some _ => quiesceTail s end) as ->.
  { rewrite Ht. destruct Q2 as [|x Q2]; simpl; [unfold final; rewrite app_nil_r; by destruct (last Q1)|].
    rewrite !last_app, (last_cons a). destruct (last (x :: Q2)) eqn:El; [done|]. by apply last_None in El. }
  assert (is_Some (heap s !! a)) as Has by by exists n.
  destruct (final Q1 None) as [p|], (first Q2 None) as [x|]; repeat
    match goal with
    | |- bindM (update ?b ?f) _ ?st = _ => rewrite (bindM_ok (update b f) _ st tt (set_heap (alter f b) st)) by
        (apply update_total; simpl; repeat apply alter_some; auto)
    | |- bindM (modify ?g) _ ?st = _ => rewrite (bindM_ok (modify g) _ st tt (g st)) by done
    end; rewrite update_total by (simpl; repeat apply alter_some; auto); done.
Qed.

Definition hold (n : Node) : bool * Z := (attached n, node_generation n).

(** A node that is attached leaves the quiesce list, if it is in it. *)
Lemma leave_quiesce D Q s a n v : life_ok D Q s -> heap s !! a = Some n -> attached n = true ->
  exists h2 Q', (if notifyOnQuiesce n then unlink_quiesce a n else ret tt) (set_attachedCount v s) =
      (Ok tt, set_quiesce_list (head Q') (last Q') (set_heap (fun _ => h2) (set_attachedCount v s))) /\
    next_chain quiesceNext h2 Q' None /\ back_chain quiescePrevious h2 None Q' /\ NoDup Q' /\
    (forall b, b ∈ Q' <-> b ∈ Q /\ b <> a) /\ rest <$> h2 = rest <$> heap s /\ hold <$> h2 = hold <$> heap s.
Proof.
  intros H Hn Ha. destruct (lo_quiesce H) as (Hc & Hb & Hh & Ht & Hd). destruct (notifyOnQuiesce n) eqn:En.
  - assert (a ∈ Q) as HaQ by (apply (lo_quiesce_in H a n Hn); by rewrite Ha, En). apply list_elem_of_split in HaQ as (Q1 & Q2 & ->).
    exists (unlinked (heap s) a (final Q1 None) (first Q2 None)), (Q1 ++ Q2).
    destruct (unlinked_chains (heap s) a Q1 Q2 Hd Hc Hb) as [C1 C2]. split_and!; try done.
    + by rewrite (unlink_ok Q1 Q2 a n (set_attachedCount v s) Hc Hb Hh Ht Hn).
    + apply NoDup_app in Hd as (? & Hd12 & [_ ?]%NoDup_cons). apply NoDup_app. split_and!; try done.
      intros b Hb1 Hb2. apply (Hd12 b Hb1). by constructor.
    + intros b. apply NoDup_app in Hd as (_ & Hd12 & [? _]%NoDup_cons). rewrite !elem_of_app, elem_of_cons.
      split; [|naive_solver]. intros [Hx|Hx]; (split; [tauto|]); intros ->; [|done]. apply (Hd12 a Hx). constructor.
    + unfold unlinked. rewrite proj_alter by done. destruct (final Q1 None), (first Q2 None); rewrite ?proj_alter by done; done.
    + unfold unlinked. rewrite proj_alter by done. destruct (final Q1 None), (first Q2 None); rewrite ?proj_alter by done; done.
  - exists (heap s), Q. split_and!; try done.
    + unfold ret, set_quiesce_list, set_heap, set_attachedCount. simpl. by rewrite <-Hh, <-Ht.
    + intros b. split; [|tauto]. intros HbQ. split; [done|]. intros ->. apply (lo_quiesce_in H a n Hn) in HbQ. by rewrite En, andb_false_r in HbQ.
Qed.

Lemma detached_count D Q s a n h2 g' : life_ok D Q s -> heap s !! a = Some n -> attached n = true -> hold <$> h2 = hold <$> heap s ->
  msum is_attached (alter (set_detached g') a h2) = attachedCount s ⊖ 1.
Proof.
  intros H Hn Ha Hh2. destruct (proj_forth _ _ _ _ _ Hh2 Hn) as (n2 & Hn2 & [= E _]).
  assert (alter (set_detached g') a h2 = <[a := set_detached g' n2]> h2) as ->.
  { apply map_eq. intros b. destruct (decide (b = a)) as [->|]; [by rewrite lookup_alter_eq, lookup_insert_eq, Hn2|].
    by rewrite lookup_alter_ne, lookup_insert_ne. }
  rewrite (msum_update _ _ a n2) by done. rewrite (msum_proj hold is_attached (fun x => if (x.1 : bool) then 1 else 0) (heap s)) by done.
  unfold is_attached at 2 3. simpl. rewrite E, Ha, (lo_count H).
  assert (is_attached n <= msum is_attached (heap s)) as Hm.
  { apply (msum_member _ _ a); [|done]. intros b m _. unfold is_attached. destruct (attached m); lia. }
  unfold is_attached at 1 in Hm. rewrite Ha in Hm.
  assert (msum is_attached (heap s) <= Z.of_nat (size (heap s))) by (apply msum_count; intros m; unfold is_attached; destruct (attached m); lia).
  destruct (lo_size H). rewrite uwrap_small; lia.
Qed.

Lemma detached_inv D Q s a n h2 Q' g' : life_ok D Q s -> heap s !! a = Some n ->
  next_chain quiesceNext h2 Q' None -> back_chain quiescePrevious h2 None Q' -> NoDup Q' ->
  (forall b, b ∈ Q' <-> b ∈ Q /\ b <> a) -> rest <$> h2 = rest <$> heap s -> hold <$> h2 = hold <$> heap s -> is_usize g' ->
  let h3 := alter (set_detached g') a h2 in
  life_inv (Some a) D Q' (with_links h3 (head Q') (last Q') (msum is_attached h3) s).
Proof.
  intros H Hn Hc Hb Hd HQ Hr2 Hh2 Hg' h3. apply (links_ok None (Some a) D Q s); try done.
  - unfold h3. by rewrite proj_alter.
  - eapply next_chain_ext; [|exact Hc]. intros b m _ Hm. by apply alter_keeps.
  - eapply back_chain_ext; [|exact Hb]. intros b m _ Hm. by apply alter_keeps.
  - intros b m [(-> & m0 & Hm0 & ->)|[Hne Hm]]%alter_inv.
    + simpl. split_and!; [|done|by left]. split; [done|]. by intros [_ ?]%HQ.
    + destruct (proj_back _ _ _ _ _ Hr2 Hm) as (m0 & Hm0 & [= _ _ _ _ E1 E2 E3]).
      destruct (proj_back _ _ _ _ _ Hh2 Hm) as (m1 & Hm1 & [= E4 E5]). rewrite Hm0 in Hm1. injection Hm1 as <-.
      rewrite E1, E2, E3, E4, E5. split_and!.
      * rewrite (lo_quiesce_in H b m0 Hm0), HQ. tauto.
      * by apply (lo_fresh H b m0).
      * right. by destruct (lo_kept H b m0 Hm0).
Qed.

Lemma detach_ok src D Q s : life_ok D Q s ->
  exists s' Q', detachLifecycleNode src s = (Ok tt, s') /\ life_ok D Q' s' /\ evolves s s' /\
    activeNode s' = activeNode s /\ life_phase s' = life_phase s /\ life_loop s' = life_loop s /\
    ((valid_source s src /\ ~ valid_source s' src /\ (source_node src < fresh s')%nat) \/ (~ valid_source s src /\ s' = s)).
Proof.
  intros H. unfold detachLifecycleNode. unfold bindM at 1, get at 1. set (a := source_node src).
  destruct (heap s !! a) as [n|] eqn:Hn.
  2:{ exists s, Q. split_and!; try done. right. split; [|done]. intros (n & Hn' & _). unfold a in Hn. congruence. }
  destruct (negb (attached n) || negb (node_generation n =? node_source_generation src)) eqn:E.
  { exists s, Q. split_and!; try done. right. split; [|done]. intros (n' & Hn' & Ha & Hg). fold a in Hn'. rewrite Hn in Hn'.
    injection Hn' as <-. by rewrite Ha, Hg, Z.eqb_refl in E. }
  apply orb_false_iff in E as [Ha%negb_false_iff Hg%negb_false_iff%Z.eqb_eq].
  destruct (lo_fresh H a n Hn) as [Hfr Hgen]. set (g' := next_node_generation (node_generation n)).
  assert (is_usize g') as Hg'.
  { unfold g', next_node_generation, is_usize. pose proof (uwrap_bound (node_generation n + 1)). destruct (_ =? 0); lia. }
  destruct (leave_quiesce D Q s a n (attachedCount s ⊖ 1) H Hn Ha) as (h2 & Q' & Erun & Hc & Hb & Hd & HQ & Hr2 & Hh2).
  rewrite (bindM_ok _ _ _ tt (set_attachedCount (attachedCount s ⊖ 1) s)) by done. rewrite (bindM_ok _ _ _ _ _ Erun).
  destruct (proj_forth _ _ _ _ _ Hr2 Hn) as (n2 & Hn2 & Hrn). set (s2 := set_quiesce_list _ _ _).
  rewrite (bindM_ok _ _ _ _ _ (update_ok a _ n2 s2 Hn2)). set (h3 := alter (set_detached g') a h2).
  assert (set_heap (alter (set_detached g') a) s2 = with_links h3 (head Q') (last Q') (msum is_attached h3) s) as ->.
  { unfold s2, with_links, set_heap, set_quiesce_list, set_attachedCount. simpl. fold h3. f_equal.
    symmetry. by apply (detached_count D Q s a n). }
  assert (h3 !! a = Some (set_detached g' n2)) as Hn3 by (unfold h3; by rewrite lookup_alter_eq, Hn2).
  pose proof (detached_inv D Q s a n h2 Q' g' H Hn Hc Hb Hd HQ Hr2 Hh2 Hg') as H3. fold h3 in H3.
  set (s3 := with_links h3 (head Q') (last Q') (msum is_attached h3) s) in *.
  assert (evolves s s3) as Hev.
  { split; [done|]. intros src' _ (m & Hm & Hma & Hmg). apply alter_inv in Hm as [(_ & m0 & _ & ->)|[_ Hm]]; [done|].
    destruct (proj_back _ _ _ _ _ Hh2 Hm) as (m0 & Hm0 & [= E1 E2]). exists m0. split_and!; congruence. }
  assert (valid_source s src) as Hv by by exists n.
  injection Hrn as _ _ Eid _ Ed Eact _. destruct (negb (dirty n) && negb (node_active n)) eqn:E.
  - apply andb_true_iff in E as [E1%negb_true_iff E2%negb_true_iff].
    rewrite (retire_ok D Q' s3 a _ n H3 Hn3 (eq_sym Eid)). destruct (free_ok D Q' s3 a _ H3 Hn3) as [Hok Hev'].
    + intros Hin. apply (lo_dirty_in H3 a _ Hn3) in Hin. simpl in Hin. congruence.
    + intros [_ Hx]%HQ. done.
    + intros Han. apply (lo_active H3 a _ Hn3) in Han. simpl in Han. congruence.
    + done.
    + eexists _, Q'. split; [reflexivity|]. split_and!; try done; [by eapply evolves_trans|]. left. split_and!; [done| |done].
      intros (m & Hm & _). cbn in Hm. fold a in Hm. by rewrite lookup_delete_eq in Hm.
  - exists s3, Q'. split; [done|]. split_and!; try done; [apply (kept_ok D Q' s3 a _ H3 Hn3); simpl; rewrite Ed, Eact; by destruct (dirty n), (node_active n)|].
    left. split_and!; [done| |done]. intros (m & Hm & Hma & _). fold a in Hm. cbn in Hm. rewrite Hn3 in Hm. by injection Hm as <-.
Qed.

(** A new node joins, at the end of the quiesce list if it is a participant. *)
Lemma added_inv D Q s n h' Q' :
  life_ok D Q s -> Z.of_nat (size (heap s)) < maxNodes s -> nextNodeId s <> 0 ->
  node_id n = nextNodeId s -> attached n = true -> dirty n = false -> node_active n = false -> node_generation n = 1 ->
  h' !! fresh s = Some n -> rest <$> h' = rest <$> <[fresh s := n]> (heap s) -> hold <$> h' = hold <$> <[fresh s := n]> (heap s) ->
  next_chain quiesceNext h' Q' None -> back_chain quiescePrevious h' None Q' -> NoDup Q' ->
  (forall b, b ∈ Q' <-> b ∈ Q \/ (b = fresh s /\ notifyOnQuiesce n = true)) ->
  life_ok D Q' (mkLifecycle (life_loop s) (life_phase s) (maxNodes s) (nextNodeId s ⊕ 1) h' (S (fresh s))
    (<[node_id n := fresh s]> (nodes s)) (dirtyHead s) (dirtyTail s) (activeNode s) (head Q') (last Q')
    (activeGeneration s) (attachedCount s ⊕ 1) (life_pendingCount s)).
Proof.
  intros H Hsz Hid0 Hid Ha Hd Hac Hg Hn Hr Hh Hc Hb HdQ HQ.
  assert (heap s !! fresh s = None) as Hfresh.
  { destruct (heap s !! fresh s) as [m|] eqn:E; [|done]. destruct (lo_fresh H _ _ E). lia. }
  assert (forall b m, h' !! b = Some m -> (b = fresh s /\ m = n) \/ (b <> fresh s /\ exists m0, heap s !! b = Some m0 /\ rest m = rest m0 /\ hold m = hold m0)) as Hback.
  { intros b m Hm. destruct (decide (b = fresh s)) as [->|Hne]; [left; split; [done|congruence]|right; split; [done|]].
    destruct (proj_back _ _ _ _ _ Hr Hm) as (m0 & Hm0 & ?). rewrite lookup_insert_ne in Hm0 by done.
    destruct (proj_back _ _ _ _ _ Hh Hm) as (m1 & Hm1 & ?). rewrite lookup_insert_ne in Hm1 by done. exists m0. split_and!; congruence. }
  assert (forall b m0, heap s !! b = Some m0 -> exists m, h' !! b = Some m /\ rest m = rest m0) as Hforth.
  { intros b m0 Hm0. apply (proj_forth _ (<[fresh s := n]> (heap s))); [done|]. rewrite lookup_insert_ne; [done|]. congruence. }
  destruct (lo_ids H) as [Hnu Hids]. destruct (lo_size H) as [Hs1 Hs2].
  assert (forall id b, nodes s !! id = Some b -> id <> nextNodeId s) as Hnew.
  { intros id b (m & Hm & <-)%(lo_nodes H). destruct (Hids b m Hm) as [_ [?|?]]; [done|lia]. }
  split; cbn [heap dirtyHead dirtyTail life_pendingCount quiesceHead quiesceTail nodes activeNode fresh nextNodeId attachedCount maxNodes];
    try done.
  - destruct (lo_dirty H) as (Hcd & ?). split; [|done]. eapply next_chain_ext; [|exact Hcd]. intros b m _ Hm.
    destruct (Hforth b m Hm) as (m' & ? & [= ]). by exists m'.
  - intros b m [[-> ->]|(Hne & m0 & Hm0 & [= _ _ _ _ E _ _] & _)]%Hback.
    + rewrite Hd. split; [done|]. intros Hx. destruct (lo_dirty H) as (Hcd & _). destruct (next_chain_in _ _ _ _ _ Hcd Hx). congruence.
    + rewrite E. by apply (lo_dirty_in H).
  - apply H.
  - intros b m [[-> ->]|(Hne & m0 & Hm0 & [= _ _ _ _ _ _ E] & [= E1 _])]%Hback; rewrite HQ.
    + rewrite Ha. split; [by right|]. intros [Hx|[_ ?]]; [|done]. destruct (lo_quiesce H) as (Hcq & _).
      destruct (next_chain_in _ _ _ _ _ Hcq Hx). congruence.
    + rewrite E, E1, (lo_quiesce_in H b m0 Hm0). split; [by left|]. intros [?|[? _]]; done.
  - intros id b. rewrite lookup_insert_Some, (lo_nodes H id b). split.
    + intros [[<- <-]|[Hne (m0 & Hm0 & E)]]; [by exists n|]. destruct (Hforth b m0 Hm0) as (m & Hm & [= ]). exists m. split; [done|congruence].
    + intros (m & [[-> ->]|(Hne & m0 & Hm0 & [= _ _ E _ _ _ _] & _)]%Hback & Em); [by left|]. right.
      assert (nodes s !! id = Some b) as Hx by (apply (lo_nodes H); exists m0; split; [done|congruence]).
      split; [rewrite Hid; intros <-; by apply (Hnew _ _ Hx)|by apply (lo_nodes H)].
  - intros b m [[-> ->]|(Hne & m0 & Hm0 & [= _ _ _ _ E1 E2 _] & [= E3 _])]%Hback; right; [by rewrite Ha|].
    rewrite E1, E2, E3. by destruct (lo_kept H b m0 Hm0).
  - intros b m [[-> ->]|(Hne & m0 & Hm0 & [= _ _ _ _ _ E _] & _)]%Hback.
    + rewrite Hac. split; [done|]. intros Hx. destruct (lo_active_in H _ Hx). congruence.
    + rewrite E. by apply (lo_active H).
  - intros b Hx. destruct (lo_active_in H _ Hx) as [m Hm]. destruct (Hforth b m Hm) as (m' & ? & _). by exists m'.
  - intros b m [[-> ->]|(Hne & m0 & Hm0 & _ & [= _ E])]%Hback; [rewrite Hg; unfold is_usize; split; lia|].
    rewrite E. destruct (lo_fresh H b m0 Hm0). split; [lia|done].
  - split; [apply uwrap_bound|]. unfold is_usize in Hnu.
    assert (nextNodeId s ⊕ 1 = 0 \/ nextNodeId s ⊕ 1 = nextNodeId s + 1) as Hw.
    { destruct (decide (nextNodeId s = usize_max)) as [->|]; [by left|right; rewrite uwrap_small; lia]. }
    intros b m [[-> ->]|(Hne & m0 & Hm0 & [= _ _ E _ _ _ _] & _)]%Hback; [rewrite Hid; lia|]. rewrite E.
    destruct (Hids b m0 Hm0) as [? [?|?]]; [done|]. lia.
  - assert (size h' = S (size (heap s))) as ->.
    { rewrite <-(map_size_fmap rest h'), Hr, map_size_fmap, map_size_insert_None; done. }
    rewrite map_size_insert_None, Hs1; [lia|]. destruct (nodes s !! node_id n) as [b|] eqn:E; [|done]. rewrite Hid in E. by destruct (Hnew _ _ E).
  - rewrite (msum_proj hold is_attached (fun x => if (x.1 : bool) then 1 else 0) (<[fresh s := n]> (heap s))) by done.
    rewrite msum_new by done. unfold is_attached at 2. rewrite Ha, (lo_count H).
    assert (msum is_attached (heap s) <= Z.of_nat (size (heap s))) by (apply msum_count; intros m; unfold is_attached; destruct (attached m); lia).
    assert (0 <= msum is_attached (heap s)) by (apply msum_nonneg; intros ? m _; unfold is_attached; destruct (attached m); lia).
    rewrite uwrap_small; lia.
Qed.

Lemma attach_ok participant f D Q s : life_ok D Q s ->
  exists r s', attachLifecycleNode participant f s = (r, s') /\
    match r with
    | Ok src => life_phase s = Running /\ life_loop s = true /\ source_node src = fresh s /\ valid_source s' src /\
        evolves s s' /\ activeNode s' = activeNode s /\ life_phase s' = Running /\ life_loop s' = true /\
        life_ok D (if participant then Q ++ [fresh s] else Q) s'
    | Throw e => (e = logic_error \/ e = length_error \/ e = overflow_error) /\ s' = s
    end.
Proof.
  intros H. unfold attachLifecycleNode. unfold bindM at 1, get at 1.
  destruct (negb (bool_decide (life_phase s = Running)) || negb (life_loop s)) eqn:E1; [exists (Throw logic_error), s; auto|].
  apply orb_false_iff in E1 as [Hph%negb_false_iff%bool_decide_eq_true Hl%negb_false_iff]. rewrite (bindM_ok _ _ _ tt s) by done.
  destruct (maxNodes s <=? Z.of_nat (size (nodes s))) eqn:E2; [exists (Throw length_error), s; auto|].
  rewrite (bindM_ok _ _ _ tt s) by done. destruct (nextNodeId s =? 0) eqn:E3; [exists (Throw overflow_error), s; auto|].
  rewrite (bindM_ok _ _ _ tt s) by done. zify_bools. destruct (lo_size H) as [Hs1 Hs2]. rewrite Hs1 in E2.
  destruct (lo_quiesce H) as (Hc & Hb & Hh & Ht & Hd).
  set (Q' := if participant then Q ++ [fresh s] else Q).
  set (n := mkNode f None (if participant then quiesceTail s else None) None (nextNodeId s) 1 0 true false false participant).
  rewrite (bindM_ok _ _ _ tt (add_node n s)) by done.
  assert (heap s !! fresh s = None) as Hfresh.
  { destruct (heap s !! fresh s) as [m|] eqn:E; [|done]. destruct (lo_fresh H _ _ E). lia. }
  assert (fresh s ∉ Q) as HfQ by (intros Hx; destruct (next_chain_in _ _ _ _ _ Hc Hx); congruence).
  assert (forall L q, fresh s ∉ L -> next_chain quiesceNext (heap s) L q -> next_chain quiesceNext (<[fresh s := n]> (heap s)) L q) as Hnc.
  { intros L q HL. apply next_chain_ext. intros b m Hb' Hm. exists m. split; [|done]. rewrite lookup_insert_ne; [done|]. by intros <-. }
  assert (back_chain quiescePrevious (<[fresh s := n]> (heap s)) None Q) as Hbc.
  { eapply back_chain_ext; [|exact Hb]. intros b m Hb' Hm. exists m. split; [|done]. rewrite lookup_insert_ne; [done|]. by intros <-. }
  assert (exists h', (if participant then link_participant (fresh s) (quiesceTail s) else ret tt) (add_node n s) =
      (Ok tt, set_quiesce_list (head Q') (last Q') (set_heap (fun _ => h') (add_node n s))) /\
    h' !! fresh s = Some n /\ rest <$> h' = rest <$> <[fresh s := n]> (heap s) /\ hold <$> h' = hold <$> <[fresh s := n]> (heap s) /\
    next_chain quiesceNext h' Q' None /\ back_chain quiescePrevious h' None Q') as (h' & Erun & Hnf & Hr & Hho & Hc' & Hb').
  { unfold Q'. destruct participant.
    - unfold link_participant. destruct Q as [|t Q0 _] using rev_ind.
      + rewrite Ht. exists (<[fresh s := n]> (heap s)). split; [done|]. rewrite lookup_insert_eq. split_and!; try done; simpl; (split; [|done]);
          exists n; rewrite lookup_insert_eq; (split; [done|]); simpl; by rewrite ?Ht.
      + rewrite Ht, last_snoc. assert (t <> fresh s) as Hne by (intros ->; apply HfQ, elem_of_app; right; constructor).
        assert (is_Some (<[fresh s := n]> (heap s) !! t)) as Hts.
        { rewrite lookup_insert_ne by done. apply (next_chain_in _ _ _ _ _ Hc), elem_of_app. right. constructor. }
        exists (alter (set_quiesceNext (Some (fresh s))) t (<[fresh s := n]> (heap s))).
        apply NoDup_app in Hd as (_ & Hd0 & _). split_and!.
        * rewrite (bindM_ok _ _ _ _ _ (update_total t _ (add_node n s) Hts)). unfold modify, set_quiesce_list, set_heap. simpl. rewrite Hh.
          rewrite last_snoc. by destruct Q0.
        * rewrite lookup_alter_ne by done. by rewrite lookup_insert_eq.
        * by rewrite proj_alter.
        * by rewrite proj_alter.
        * apply next_chain_app. split.
          -- apply next_chain_relink with None; [intros Hx; apply (Hd0 t Hx); constructor|done|by apply Hnc].
          -- simpl. split; [|done]. exists n. rewrite lookup_alter_ne, lookup_insert_eq by done. done.
        * apply back_chain_app. split.
          -- eapply back_chain_ext; [|exact Hbc]. intros b m _ Hm. by apply alter_keeps.
          -- simpl. split; [|done]. exists n. rewrite lookup_alter_ne, lookup_insert_eq by done. split; [done|]. simpl. by rewrite Ht, last_snoc; unfold final; rewrite last_snoc.
    - exists (<[fresh s := n]> (heap s)). split_and!; try done; [|by rewrite lookup_insert_eq|by apply Hnc].
      unfold ret, set_quiesce_list, set_heap, add_node. simpl. by rewrite <-Hh, <-Ht. }
  rewrite (bindM_ok _ _ _ _ _ Erun).
  rewrite (bindM_ok (modify (fun s => set_attachedCount (attachedCount s ⊕ 1) s)) _ _ tt _ eq_refl).
  eexists (Ok _), _. split; [reflexivity|]. split_and!; try done.
  - by exists n.
  - split; [simpl; lia|]. intros src Hs (m & Hm & Ham & Hgm). cbn in Hm. destruct (proj_back _ _ _ _ _ Hho Hm) as (m0 & Hm0 & [= E4 E5]).
    rewrite lookup_insert_ne in Hm0 by lia. exists m0. split_and!; congruence.
  - apply (added_inv D Q s n h' Q'); try done.
    + unfold Q'. destruct participant; [|done]. apply NoDup_app. split_and!; [done| |apply NoDup_singleton]. by intros b Hbq ->%list_elem_of_singleton.
    + intros b. unfold Q'. destruct participant; simpl; [rewrite elem_of_app, list_elem_of_singleton|]; naive_solver.
Qed.

(** ** Properties *)

(** C26. The intrusive lists are a queue of nodes without duplicates and a list of
    participants: a signal adds its node at the end unless it is there, and is accepted
    exactly when the source is valid and the phase admits it; serving takes the node signalled
    first; quitting adds the participants that are not there yet, in the order they
    were attached; and detaching or attaching a node takes no committed signal back. *)
Theorem lifecycle_lists_refine_queue D Q s : life_ok D Q s ->
  (forall inLoop src, exists r wake s', signal inLoop src s = (Ok (r, wake), s') /\
     (r = PostAccepted /\ admits_signal inLoop src s /\ life_ok (signalled (source_node src) D) Q s' \/
      r <> PostAccepted /\ ~ admits_signal inLoop src s /\ s' = s)) /\
  (activeNode s = None ->
     match D with
     | [] => begin_lifecycle s = (Ok None, s)
     | a :: D' => exists f g s', begin_lifecycle s = (Ok (Some (a, f, g)), s') /\ life_ok D' Q s' /\ activeNode s' = Some a
     end) /\
  (exists s', quiesce_lifecycle s = (Ok tt, s') /\ life_ok (D ++ filter (fun a => a ∉ D) Q) Q s') /\
  (forall src, exists s' Q', detachLifecycleNode src s = (Ok tt, s') /\ life_ok D Q' s') /\
  (forall participant f, exists r s', attachLifecycleNode participant f s = (r, s') /\
     life_ok D (if r is Ok _ then if participant then Q ++ [fresh s] else Q else Q) s').
Proof.
  intros H. split_and!.
  - intros b src. destruct (signal_ok b src D Q s H) as (r & w & D' & s' & E & H' & _ & _ & _ & [(-> & Ha & -> & _)|(Hr & Ha & _ & _ & ->)]).
    + exists PostAccepted, w, s'. split; [done|]. by left.
    + exists r, w, s. split; [done|]. by right.
  - intros Ha. pose proof (begin_ok D Q s H Ha) as Hb. destruct D as [|a D']; [done|].
    destruct Hb as (f & g & s' & E & H' & _ & Ea & _). by exists f, g, s'.
  - destruct (quiesce_ok D Q s H) as (s' & E & _ & H' & _). by exists s'.
  - intros src. destruct (detach_ok src D Q s H) as (s' & Q' & E & H' & _). by exists s', Q'.
  - intros p f. destruct (attach_ok p f D Q s H) as (r & s' & E & H'). exists r, s'. split; [done|].
    destruct r as [src|e]; [by destruct H' as (_ & _ & _ & _ & _ & _ & _ & _ & ?)|by destruct H' as [_ ->]].
Qed.

(** ** Examples *)

(** Two participants. *)
Definition demo_nodes : LifecycleState :=
  match (run attachLifecycleNode true 5 ;; attachLifecycleNode true 6) (LifecycleState_new 4) with (_, s) => s end.

Lemma demo_nodes_ok : life_ok [] [0%nat; 1%nat] demo_nodes.
Proof.
  pose proof (LifecycleState_new_ok 4) as H0. destruct (attach_ok true 5 [] [] (LifecycleState_new 4)) as (r1 & s1 & E1 & H1); [by apply H0|].
  vm_compute in E1. injection E1 as <- E1. destruct H1 as (_ & _ & _ & _ & _ & _ & _ & _ & H1).
  destruct (attach_ok true 6 _ _ s1 H1) as (r2 & s2 & E2 & H2). rewrite <-E1 in E2. vm_compute in E2. injection E2 as <- E2.
  destruct H2 as (_ & _ & _ & _ & _ & _ & _ & _ & H2). rewrite <-E1 in H2. rewrite <-E2 in H2. exact H2.
Qed.

Lemma lifecycle_lists_refine_queue_witness :
  exists s', quiesce_lifecycle demo_nodes = (Ok tt, s') /\ life_ok [0%nat; 1%nat] [0%nat; 1%nat] s'.
Proof. exact (proj1 (proj2 (proj2 (lifecycle_lists_refine_queue [] [0%nat; 1%nat] demo_nodes demo_nodes_ok)))). Defined.
