(* ===== verification/LoopWork.v ===== *)
(** * The work planes of an event loop

    Model of [EventLoop::loop], [quit], the functor queue and the executor
    (src/core/net/EventLoop.cc), above the control plane of [ControlSources] and the
    lifecycle plane of [LifecycleNodes].

    The owner thread is a machine whose steps are the critical sections of [loop];
    between two of them other threads post functors, notify, signal and quit, and the
    user code called by the loop may do what the owner thread may do.  Another
    thread's post takes two steps, the push and the wakeup, with the executor's mutex
    held in between.  What the poller reports and how many channels a dispatch leaves
    over is up to the environment, see [Reactor]; so are the timers, see
    [TimerQueue].  Metrics are left out but for the user's callback that receives
    them, which is user code on the owner thread. *)

From S2P Require Import Prelude Transport ControlSources LifecycleNodes.

Local Open Scope Z_scope.

(** ** Options *)

Definition kMaxIocpCompletionBatchSize : Z := 64.

Record EventLoopOptions := mkOptions {
  maxPendingFunctors : Z;
  reservedPendingFunctors : Z;
  maxFunctorsPerIteration : Z;
  maxControlSources : Z;
  maxLifecycleNodes : Z;
  maxLifecycleCallbacksPerIteration : Z;
  maxActiveChannelsPerIteration : Z;
  maxTimersPerIteration : Z;
  maxControlCallbacksPerIteration : Z;
  maxIocpCompletionsPerPoll : Z;
}.

Definition default_options : EventLoopOptions := mkOptions 65536 1024 1024 64 262144 1024 64 1024 64 64.

(** [EventLoopOptions::validate] *)
Definition validate (o : EventLoopOptions) : result unit :=
  if maxPendingFunctors o =? 0 then Throw invalid_argument
  else if usize_max - maxPendingFunctors o <? reservedPendingFunctors o then Throw invalid_argument
  else if (maxFunctorsPerIteration o =? 0) || (maxPendingFunctors o <? maxFunctorsPerIteration o) then Throw invalid_argument
  else if kMaxControlSources <? maxControlSources o then Throw invalid_argument
  else if maxLifecycleCallbacksPerIteration o =? 0 then Throw invalid_argument
  else if maxActiveChannelsPerIteration o =? 0 then Throw invalid_argument
  else if maxTimersPerIteration o =? 0 then Throw invalid_argument
  else if (maxControlCallbacksPerIteration o =? 0) || (kMaxControlSources <? maxControlCallbacksPerIteration o)
  then Throw invalid_argument
  else if (maxIocpCompletionsPerPoll o =? 0) || (kMaxIocpCompletionBatchSize <? maxIocpCompletionsPerPoll o)
  then Throw invalid_argument
  else Ok tt.

(** ** The owner thread *)

(** Which of the three loops of [loop]; [Quiesce] carries its local [hasPending]. *)
Inductive Turn := Run | Quiesce (hasPending : bool) | Final.

(** Where the owner thread is. *)
Inductive Pc :=
  | Outside                                    (** before [loop] *)
  | Test                                       (** [while (!quit_)] *)
  | AskControl                                 (** [hasPendingControlSources() ||] *)
  | AskLifecycle                               (** [hasPendingLifecycleNodes()] *)
  | Poll (t : Turn) (zero : bool)              (** in [ioEngine.wait], with no timeout if [zero] *)
  | Channels (t : Turn)                        (** callbacks of channels *)
  | Timers                                     (** callbacks of timers *)
  | LookFunctors                               (** [hasPending = hasPendingFunctors()] *)
  | LookControl (t : Turn)                     (** [hasPendingControlSources()] *)
  | SelectControls (t : Turn)                  (** [doControlSources] *)
  | Serve (t : Turn) (i : nat) (word : Z)      (** its drain loop *)
  | InControl (t : Turn) (i : nat) (word : Z) (slot : nat)
  | CountControl (t : Turn)
  | RewakeControl (t : Turn) (remaining : bool)
  | LookNodes (t : Turn)                       (** [hasPendingLifecycleNodes()] *)
  | RoundNodes (t : Turn)                      (** [doLifecycleNodes] *)
  | ServeNode (t : Turn) (k : nat) (drained : bool)
  | InNode (t : Turn) (k : nat) (a : nat)
  | CountNodes (t : Turn) (drained : bool)
  | RewakeNodes (t : Turn) (remaining : bool)
  | LookPending                                (** [hasPendingFunctors()], last loop *)
  | TakeFunctors (t : Turn)                    (** [doPendingFunctors] *)
  | RunFunctors (t : Turn) (l : list nat)
  | InFunctor (t : Turn) (l : list nat)
  | CountFunctors (t : Turn)
  | ExitFunctors (t : Turn)                    (** the conditions of [break] *)
  | ExitControl (t : Turn)
  | ExitNodes (t : Turn)
  | BeginQuiesce
  | BeginFinal
  | Finish
  | Metric (k : Pc)                            (** in the metric callback *)
  | Handler (k : Pc)                           (** in the callback exception handler *)
  | Returned                                   (** [loop] has returned *)
  | Destroyed.

(** [executor_loop]: the loop exists; [posting]: another thread has pushed a functor
    and is about to call [wakeup]; [woken]: the wakeup descriptor is readable;
    [active]: [hasPendingActiveChannels]; [turns]: the rounds of functors done, capped
    at one; [admitted], [started]: the functors accepted and called so far. *)
Record WorkLoop := mkWork {
  pc : Pc;
  looping_ : bool;
  quit_ : bool;
  phase_ : EventLoopPhase;
  callingPendingFunctors_ : bool;
  executor_loop : bool;
  accepting : bool;
  drainingAccepted : bool;
  posting : bool;
  control : ControlState;
  lifecycle : LifecycleState;
  controlDrainWords_ : list Z;
  pendingFunctors_ : list nat;
  active : bool;
  woken : bool;
  turns : bool;
  admitted : list nat;
  started : list nat;
  fault : option exn;
}.

(** Changes of the state. *)
Definition set_pc (p : Pc) (s : WorkLoop) : WorkLoop :=
  mkWork p (looping_ s) (quit_ s) (phase_ s) (callingPendingFunctors_ s) (executor_loop s) (accepting s)
    (drainingAccepted s) (posting s) (control s) (lifecycle s) (controlDrainWords_ s) (pendingFunctors_ s)
    (active s) (woken s) (turns s) (admitted s) (started s) (fault s).
Definition set_looping (b : bool) (s : WorkLoop) : WorkLoop :=
  mkWork (pc s) b (quit_ s) (phase_ s) (callingPendingFunctors_ s) (executor_loop s) (accepting s)
    (drainingAccepted s) (posting s) (control s) (lifecycle s) (controlDrainWords_ s) (pendingFunctors_ s)
    (active s) (woken s) (turns s) (admitted s) (started s) (fault s).
Definition set_quit (b : bool) (s : WorkLoop) : WorkLoop :=
  mkWork (pc s) (looping_ s) b (phase_ s) (callingPendingFunctors_ s) (executor_loop s) (accepting s)
    (drainingAccepted s) (posting s) (control s) (lifecycle s) (controlDrainWords_ s) (pendingFunctors_ s)
    (active s) (woken s) (turns s) (admitted s) (started s) (fault s).
Definition set_phase_ (p : EventLoopPhase) (s : WorkLoop) : WorkLoop :=
  mkWork (pc s) (looping_ s) (quit_ s) p (callingPendingFunctors_ s) (executor_loop s) (accepting s)
    (drainingAccepted s) (posting s) (control s) (lifecycle s) (controlDrainWords_ s) (pendingFunctors_ s)
    (active s) (woken s) (turns s) (admitted s) (started s) (fault s).
Definition set_calling (b : bool) (s : WorkLoop) : WorkLoop :=
  mkWork (pc s) (looping_ s) (quit_ s) (phase_ s) b (executor_loop s) (accepting s)
    (drainingAccepted s) (posting s) (control s) (lifecycle s) (controlDrainWords_ s) (pendingFunctors_ s)
    (active s) (woken s) (turns s) (admitted s) (started s) (fault s).
(** [loop], [accepting], [drainingAccepted] of the executor. *)
Definition set_executor (l a d : bool) (s : WorkLoop) : WorkLoop :=
  mkWork (pc s) (looping_ s) (quit_ s) (phase_ s) (callingPendingFunctors_ s) l a
    d (posting s) (control s) (lifecycle s) (controlDrainWords_ s) (pendingFunctors_ s)
    (active s) (woken s) (turns s) (admitted s) (started s) (fault s).
Definition set_posting (b : bool) (s : WorkLoop) : WorkLoop :=
  mkWork (pc s) (looping_ s) (quit_ s) (phase_ s) (callingPendingFunctors_ s) (executor_loop s) (accepting s)
    (drainingAccepted s) b (control s) (lifecycle s) (controlDrainWords_ s) (pendingFunctors_ s)
    (active s) (woken s) (turns s) (admitted s) (started s) (fault s).
Definition set_planes (c : ControlState) (n : LifecycleState) (s : WorkLoop) : WorkLoop :=
  mkWork (pc s) (looping_ s) (quit_ s) (phase_ s) (callingPendingFunctors_ s) (executor_loop s) (accepting s)
    (drainingAccepted s) (posting s) c n (controlDrainWords_ s) (pendingFunctors_ s)
    (active s) (woken s) (turns s) (admitted s) (started s) (fault s).
Definition set_drain (ws : list Z) (s : WorkLoop) : WorkLoop :=
  mkWork (pc s) (looping_ s) (quit_ s) (phase_ s) (callingPendingFunctors_ s) (executor_loop s) (accepting s)
    (drainingAccepted s) (posting s) (control s) (lifecycle s) ws (pendingFunctors_ s)
    (active s) (woken s) (turns s) (admitted s) (started s) (fault s).
Definition set_functors (l ad st : list nat) (s : WorkLoop) : WorkLoop :=
  mkWork (pc s) (looping_ s) (quit_ s) (phase_ s) (callingPendingFunctors_ s) (executor_loop s) (accepting s)
    (drainingAccepted s) (posting s) (control s) (lifecycle s) (controlDrainWords_ s) l
    (active s) (woken s) (turns s) ad st (fault s).
Definition set_polled (a w : bool) (s : WorkLoop) : WorkLoop :=
  mkWork (pc s) (looping_ s) (quit_ s) (phase_ s) (callingPendingFunctors_ s) (executor_loop s) (accepting s)
    (drainingAccepted s) (posting s) (control s) (lifecycle s) (controlDrainWords_ s) (pendingFunctors_ s)
    a w (turns s) (admitted s) (started s) (fault s).
Definition set_turns (s : WorkLoop) : WorkLoop :=
  mkWork (pc s) (looping_ s) (quit_ s) (phase_ s) (callingPendingFunctors_ s) (executor_loop s) (accepting s)
    (drainingAccepted s) (posting s) (control s) (lifecycle s) (controlDrainWords_ s) (pendingFunctors_ s)
    (active s) (woken s) true (admitted s) (started s) (fault s).
Definition set_fault (e : exn) (s : WorkLoop) : WorkLoop :=
  mkWork (pc s) (looping_ s) (quit_ s) (phase_ s) (callingPendingFunctors_ s) (executor_loop s) (accepting s)
    (drainingAccepted s) (posting s) (control s) (lifecycle s) (controlDrainWords_ s) (pendingFunctors_ s)
    (active s) (woken s) (turns s) (admitted s) (started s) (Some e).

Definition set_control (c : ControlState) (s : WorkLoop) : WorkLoop := set_planes c (lifecycle s) s.
Definition set_lifecycle (n : LifecycleState) (s : WorkLoop) : WorkLoop := set_planes (control s) n s.

Definition on_control {A} (m : M ControlState A) : M WorkLoop A :=
  fun s => match m (control s) with (r, c) => (r, set_control c s) end.
Definition on_lifecycle {A} (m : M LifecycleState A) : M WorkLoop A :=
  fun s => match m (lifecycle s) with (r, n) => (r, set_lifecycle n s) end.

(** ** Construction and destruction *)

Definition initial_loop (o : EventLoopOptions) : WorkLoop :=
  let c := ControlState_new (Z.to_nat (maxControlSources o)) in
  mkWork Outside false false Running false true true false false c
    (LifecycleState_new (maxLifecycleNodes o)) (replicate (length (pendingWords c)) 0) [] false false false [] [] None.

(** [EventLoop::EventLoop] *)
Definition EventLoop_new (o : EventLoopOptions) : result WorkLoop :=
  match validate o with Throw e => Throw e | Ok _ => Ok (initial_loop o) end.

(** [EventLoop::~EventLoop] *)
Definition EventLoop_destroy : M WorkLoop unit :=
  do s <- get ;;
  run throw_if (looping_ s) log_fatal ;;
  run modify (set_executor false false false) ;;
  run on_control (modify (fun c => mkControl false ControlShutdown (slots c) (pendingWords c) (control_pendingCount c)
                                     (activeCallbackSlot c))) ;;
  run on_lifecycle (modify (set_life false LoopShutdown)) ;;
  modify (set_phase_ LoopShutdown).

(** ** Requests to the loop *)

(** [EventLoop::wakeup]: the loop must still exist. *)
Definition wakeup : M WorkLoop unit :=
  do s <- get ;;
  run throw_if (negb (executor_loop s)) undefined_behaviour ;;
  modify (fun s => set_polled (active s) true s).

Section requests.
Context (o : EventLoopOptions).

(** [EventLoop::tryQueueInLoopImpl], with the executor's mutex held.  Another thread
    has yet to call [wakeup]. *)
Definition tryQueueInLoopImpl (inLoop : bool) (cb : option nat) (allowReserve : bool) : M WorkLoop bool :=
  match cb with
  | None => ret false
  | Some f =>
      do s <- get ;;
      let capacity := maxPendingFunctors o ⊕ (if allowReserve then reservedPendingFunctors o else 0) in
      if capacity <=? zlen (pendingFunctors_ s) then ret false
      else
        run modify (fun s => set_functors (pendingFunctors_ s ++ [f]) (admitted s ++ [f]) (started s) s) ;;
        run (if negb inLoop then modify (set_posting true)
             else if callingPendingFunctors_ s then wakeup else ret tt) ;;
        ret true
  end.

(** [EventLoop::queueInLoop] *)
Definition queueInLoop (inLoop : bool) (cb : option nat) : M WorkLoop unit :=
  do s <- get ;;
  if negb (accepting s) then throw logic_error
  else do ok <- tryQueueInLoopImpl inLoop cb true ;; throw_if (negb ok) overflow_error.

(** [EventLoop::tryQueueInLoop] *)
Definition tryQueueInLoop (inLoop : bool) (cb : option nat) : M WorkLoop bool :=
  do s <- get ;;
  if negb (accepting s) then ret false else tryQueueInLoopImpl inLoop cb false.

(** [EventLoopExecutor::postFunctor], whose state exists. *)
Definition postFunctor (inLoop : bool) (cb : option nat) : M WorkLoop PostResult :=
  match cb with
  | None => ret PostQueueFull
  | Some _ =>
      do s <- get ;;
      if negb (executor_loop s) then ret PostOwnerUnavailable
      else if negb (accepting s) then ret PostShutdown
      else do ok <- tryQueueInLoopImpl inLoop cb false ;; ret (if ok then PostAccepted else PostQueueFull)
  end.

Definition executor_available (s : WorkLoop) : bool := accepting s && executor_loop s.

Definition executor_isInOwnerThread (inLoop : bool) (s : WorkLoop) : bool :=
  (accepting s || drainingAccepted s) && executor_loop s && inLoop.

(** [EventLoopControlSource::notify] and [EventLoopLifecycleSource::signal], with
    the wakeup. *)
Definition notify_loop (inLoop : bool) (src : EventLoopControlSource) : M WorkLoop PostResult :=
  do ' (r, w) <- on_control (notify inLoop src) ;;
  run (if (w : bool) then wakeup else ret tt) ;;
  ret r.

Definition signal_loop (inLoop : bool) (src : EventLoopLifecycleSource) : M WorkLoop PostResult :=
  do ' (r, w) <- on_lifecycle (signal inLoop src) ;;
  run (if (w : bool) then wakeup else ret tt) ;;
  ret r.

(** [EventLoop::quit] *)
Definition quit (inLoop : bool) : M WorkLoop unit :=
  run modify (fun s => set_executor (executor_loop s) false (drainingAccepted s) s) ;;
  do s <- get ;;
  if bool_decide (control_phase (control s) = ControlShutdown) || bool_decide (life_phase (lifecycle s) = LoopShutdown)
  then
    run modify (fun s => set_executor (executor_loop s) (accepting s) false s) ;;
    modify (set_quit true)
  else if negb (bool_decide (life_phase (lifecycle s) = Running)) then modify (set_quit true)
  else
    run modify (fun s => set_executor (executor_loop s) (accepting s) true s) ;;
    run on_control (modify (set_control_phase Draining)) ;;
    run on_lifecycle quiesce_lifecycle ;;
    run modify (set_phase_ Quiescing) ;;
    run modify (set_quit true) ;;
    if negb inLoop then wakeup else ret tt.

(** What a thread may ask for: through the loop, which it knows to exist, or
    through handles. *)
Inductive Request :=
  | Queue (cb : option nat)
  | TryQueue (cb : option nat)
  | Post (cb : option nat)
  | Notify (src : EventLoopControlSource)
  | Signal (src : EventLoopLifecycleSource)
  | Quit.

(** What only the owner thread may do besides. *)
Inductive OwnerOp :=
  | Ask (r : Request)
  | RegisterControl (callback : nat)
  | UnregisterControl (src : EventLoopControlSource)
  | AttachNode (participant : bool) (callback : nat)
  | DetachNode (src : EventLoopLifecycleSource).

Definition ignore {A} (m : M WorkLoop A) : M WorkLoop unit := run m ;; ret tt.

Definition request (inLoop : bool) (r : Request) : M WorkLoop unit :=
  match r with
  | Queue cb => queueInLoop inLoop cb
  | TryQueue cb => ignore (tryQueueInLoop inLoop cb)
  | Post cb => ignore (postFunctor inLoop cb)
  | Notify src => ignore (notify_loop inLoop src)
  | Signal src => ignore (signal_loop inLoop src)
  | Quit => quit inLoop
  end.

Definition perform (op : OwnerOp) : M WorkLoop unit :=
  match op with
  | Ask r => request true r
  | RegisterControl f => do s <- get ;; ignore (on_control (registerControlSource (looping_ s) f))
  | UnregisterControl src => on_control (unregisterControlSource src)
  | AttachNode p f => ignore (on_lifecycle (attachLifecycleNode p f))
  | DetachNode src => on_lifecycle (detachLifecycleNode src)
  end.

(** The request takes the executor's mutex. *)
Definition locks_executor (r : Request) : bool :=
  match r with Queue _ | TryQueue _ | Post _ | Quit => true | Notify _ | Signal _ => false end.

(** The request is made through the loop itself. *)
Definition needs_loop (r : Request) : bool :=
  match r with Queue _ | TryQueue _ | Quit => true | Post _ | Notify _ | Signal _ => false end.

(** ** The steps of [loop] *)

(** The first step of a turn of the second and third loop. *)
Definition quiesce_head (s : WorkLoop) : Pc := if active s then Channels (Quiesce false) else Poll (Quiesce false) true.
Definition final_head (s : WorkLoop) : Pc := if active s then Channels Final else LookControl Final.

Definition turn_head (t : Turn) (s : WorkLoop) : Pc :=
  match t with Run => Test | Quiesce _ => quiesce_head s | Final => final_head s end.

Definition after_control (t : Turn) : Pc := match t with Run => RoundNodes Run | _ => LookNodes t end.
Definition after_nodes (t : Turn) : Pc :=
  match t with
  | Run => TakeFunctors Run
  | Quiesce hasPending => if hasPending then TakeFunctors t else ExitFunctors t
  | Final => LookPending
  end.
Definition after_functors (t : Turn) : Pc := match t with Run => Test | _ => ExitFunctors t end.
Definition after_channels (t : Turn) : Pc :=
  match t with Run => Timers | Quiesce _ => LookFunctors | Final => LookControl Final end.

Definition hasPendingControlSources (s : WorkLoop) : bool := negb (control_pendingCount (control s) =? 0).
Definition hasPendingLifecycleNodes (s : WorkLoop) : bool := negb (life_pendingCount (lifecycle s) =? 0).
Definition hasPendingFunctors (s : WorkLoop) : bool := match pendingFunctors_ s with [] => false | _ => true end.

Definition goto (p : Pc) : M WorkLoop unit := modify (set_pc p).

(** [doControlSources]: one turn of the drain loop at word [i], of which the bits of
    [word] are left. *)
Definition serve_control (t : Turn) (i : nat) (word : Z) : M WorkLoop unit :=
  do s <- get ;;
  if (i <? length (controlDrainWords_ s))%nat then
    if word =? 0 then
      run modify (fun s => set_drain (<[i := 0]> (controlDrainWords_ s)) s) ;;
      goto (Serve t (S i) (default 0 (controlDrainWords_ s !! S i)))
    else
      let slot := (i * 64 + countr_zero word)%nat in
      do cb <- on_control (begin_control slot) ;;
      match cb with
      | Some _ => goto (InControl t i (clear_lowest word) slot)
      | None => goto (Serve t i (clear_lowest word))
      end
  else goto (CountControl t).

(** [doLifecycleNodes]: one turn of its loop, with [k] more to come. *)
Definition serve_node (t : Turn) (k : nat) (drained : bool) : M WorkLoop unit :=
  do node <- on_lifecycle begin_lifecycle ;;
  match node with
  | None => goto (CountNodes t drained)
  | Some (a, _, _) => goto (InNode t k a)
  end.

(** [doPendingFunctors]: the functors of this round. *)
Definition take_functors (t : Turn) : M WorkLoop unit :=
  do s <- get ;;
  let n := Z.to_nat (Z.min (maxFunctorsPerIteration o) (zlen (pendingFunctors_ s))) in
  let l := take n (pendingFunctors_ s) in
  run modify (set_calling true) ;;
  run modify (set_functors (drop n (pendingFunctors_ s)) (admitted s) (started s)) ;;
  goto (match l with [] => RunFunctors t [] | _ => Metric (RunFunctors t l) end).

(** [doPendingFunctors]: the loop over them. *)
Definition run_functor (t : Turn) (l : list nat) : M WorkLoop unit :=
  match l with
  | f :: l =>
      run modify (fun s => set_functors (pendingFunctors_ s) (admitted s) (started s ++ [f]) s) ;;
      goto (InFunctor t l)
  | [] => run modify (set_calling false) ;; goto (CountFunctors t)
  end.

(** The next critical section of [loop]. *)
Definition advance : M WorkLoop unit :=
  do s <- get ;;
  match pc s with
  | Test =>
      if quit_ s then goto BeginQuiesce
      else if active s then goto (Channels Run) else goto AskControl
  | AskControl => if hasPendingControlSources s then goto (Poll Run true) else goto AskLifecycle
  | AskLifecycle => goto (Poll Run (hasPendingLifecycleNodes s))
  | LookFunctors => goto (LookControl (Quiesce (hasPendingFunctors s)))
  | LookControl t => if hasPendingControlSources s then goto (SelectControls t) else goto (LookNodes t)
  | SelectControls t =>
      do ' (ds, selected) <- on_control (select_controls (maxControlCallbacksPerIteration o)) ;;
      run modify (set_drain ds) ;;
      if selected =? 0 then goto (after_control t) else goto (Serve t 0 (default 0 (ds !! O)))
  | Serve t i word => serve_control t i word
  | CountControl t => goto (Metric (RewakeControl t (hasPendingControlSources s)))
  | RewakeControl t remaining => run (if remaining then wakeup else ret tt) ;; goto (after_control t)
  | LookNodes t => if hasPendingLifecycleNodes s then goto (RoundNodes t) else goto (after_nodes t)
  | RoundNodes t =>
      goto (ServeNode t (Z.to_nat (Z.min (maxLifecycleCallbacksPerIteration o) (life_pendingCount (lifecycle s)))) false)
  | ServeNode t O drained => goto (CountNodes t drained)
  | ServeNode t (S k) drained => serve_node t k drained
  | CountNodes t drained =>
      let k := RewakeNodes t (hasPendingLifecycleNodes s) in goto (if drained then Metric k else k)
  | RewakeNodes t remaining => run (if remaining then wakeup else ret tt) ;; goto (after_nodes t)
  | LookPending => if hasPendingFunctors s then goto (TakeFunctors Final) else goto (ExitFunctors Final)
  | TakeFunctors t => take_functors t
  | RunFunctors t l => run_functor t l
  | CountFunctors t =>
      run (if hasPendingFunctors s then wakeup else ret tt) ;;
      run modify set_turns ;;
      goto (after_functors t)
  | ExitFunctors t => if hasPendingFunctors s then goto (turn_head t s) else goto (ExitControl t)
  | ExitControl t => if hasPendingControlSources s then goto (turn_head t s) else goto (ExitNodes t)
  | ExitNodes t =>
      if hasPendingLifecycleNodes s || active s then goto (turn_head t s)
      else goto (match t with Final => Finish | _ => BeginFinal end)
  | BeginQuiesce =>
      run modify (fun s => set_executor (executor_loop s) false true s) ;;
      goto (quiesce_head s)
  | BeginFinal =>
      run on_lifecycle (modify (fun n => set_life (life_loop n) FinalDraining n)) ;;
      run modify (set_phase_ FinalDraining) ;;
      goto (final_head s)
  | Finish =>
      run modify (fun s => set_executor (executor_loop s) (accepting s) false s) ;;
      run on_control (modify (set_control_phase ControlShutdown)) ;;
      run on_lifecycle (modify (fun n => set_life (life_loop n) LoopShutdown n)) ;;
      run modify (set_phase_ LoopShutdown) ;;
      run modify (set_looping false) ;;
      goto Returned
  | _ => ret tt
  end.

(** [advance] moves from here. *)
Definition advances (p : Pc) : bool :=
  match p with
  | Outside | Poll _ _ | Channels _ | Timers | InControl _ _ _ _ | InNode _ _ _ | InFunctor _ _ | Metric _ | Handler _
  | Returned | Destroyed => false
  | _ => true
  end.

(** The step takes the executor's mutex. *)
Definition advance_locks (p : Pc) : bool := match p with BeginQuiesce | Finish => true | _ => false end.

(** User code runs on the owner thread. *)
Definition user_code (p : Pc) : bool :=
  match p with
  | Outside | Channels _ | Timers | InControl _ _ _ _ | InNode _ _ _ | InFunctor _ _ | Metric _ | Handler _ | Returned => true
  | _ => false
  end.

(** User code called by the loop ends, maybe with an exception. *)
Definition leave_user (threw : bool) : M WorkLoop unit :=
  do s <- get ;;
  let caught k := if threw then Handler k else k in
  match pc s with
  | Timers => goto (SelectControls Run)
  | InControl t i word slot => run on_control (end_control slot) ;; goto (caught (Serve t i word))
  | InNode t k a => run on_lifecycle (end_lifecycle a) ;; goto (caught (ServeNode t k true))
  | InFunctor t l => goto (caught (RunFunctors t l))
  | Metric k => goto (caught k)
  | _ => ret tt
  end.

(** [handleCallbackException]: the user's handler has returned; [quits]: it asked to
    quit, or threw. *)
Definition exception_handled (quits : bool) (k : Pc) : M WorkLoop unit :=
  run (if quits then quit true else ret tt) ;; goto k.

Inductive Label :=
  | LLoop                                  (** the owner calls [loop] *)
  | LAdvance
  | LPolled (ready drained : bool)         (** the wait returns; the wakeup descriptor is read *)
  | LChannels (left_over : bool)           (** the dispatch ends *)
  | LOwner (op : OwnerOp)                  (** in user code *)
  | LLeave (threw : bool)                  (** user code ends *)
  | LHandled (quits : bool)                (** the exception handler ends: it asks to quit, or throws *)
  | LOther (r : Request)                   (** another thread *)
  | LWake                                  (** the end of another thread's post *)
  | LDestroy.

(** An operation throws to its caller, but for what is a fault of the loop. *)
Definition settle (m : M WorkLoop unit) (s : WorkLoop) : option WorkLoop :=
  match m s with
  | (Throw undefined_behaviour, s') => Some (set_fault undefined_behaviour s')
  | (Throw log_fatal, s') => Some (set_fault log_fatal s')
  | (_, s') => Some s'
  end.

Definition in_user_call (p : Pc) : bool :=
  match p with Timers | InControl _ _ _ _ | InNode _ _ _ | InFunctor _ _ | Metric _ => true | _ => false end.

(** The step of a label, where it can happen. *)
Definition step (l : Label) (s : WorkLoop) : option WorkLoop :=
  match l with
  | LLoop => if pc s is Outside then Some (set_pc Test (set_looping true s)) else None
  | LAdvance => if advances (pc s) && negb (advance_locks (pc s) && posting s) then settle advance s else None
  | LPolled ready drained =>
      match pc s with
      | Poll t _ => Some (set_pc (Channels t) (set_polled ready (woken s && negb drained) s))
      | _ => None
      end
  | LChannels left_over =>
      match pc s with
      | Channels t => Some (set_pc (after_channels t) (set_polled (active s && left_over) (woken s) s))
      | _ => None
      end
  | LOwner op =>
      if user_code (pc s) && negb (posting s && match op with Ask r => locks_executor r | _ => false end)
      then settle (perform op) s else None
  | LLeave threw => if in_user_call (pc s) then settle (leave_user threw) s else None
  | LHandled quits =>
      match pc s with
      | Handler k =>
          if quits && posting s then None else settle (exception_handled quits k) s
      | _ => None
      end
  | LOther r =>
      if negb (posting s && locks_executor r) && (executor_loop s || negb (needs_loop r))
      then settle (request false r) s else None
  | LWake => if posting s then settle (run wakeup ;; modify (set_posting false)) s else None
  | LDestroy =>
      if match pc s with Outside | Returned => negb (posting s) | _ => false end
      then settle (run EventLoop_destroy ;; goto Destroyed) s else None
  end.

Fixpoint run_labels (ls : list Label) (s : WorkLoop) : option WorkLoop :=
  match ls with
  | [] => Some s
  | l :: ls => match step l s with Some s' => run_labels ls s' | None => None end
  end.

Inductive reachable : WorkLoop -> Prop :=
  | reach_new s : EventLoop_new o = Ok s -> reachable s
  | reach_step s l s' : reachable s -> step l s = Some s' -> reachable s'.

End requests.

(** ** The invariant *)

(** The fields are [std::size_t]. *)
Record options_ok (o : EventLoopOptions) : Prop := {
  oo_pending : is_usize (maxPendingFunctors o);
  oo_reserved : is_usize (reservedPendingFunctors o);
  oo_functors : is_usize (maxFunctorsPerIteration o);
  oo_sources : is_usize (maxControlSources o);
  oo_nodes : is_usize (maxLifecycleNodes o);
  oo_rounds : is_usize (maxLifecycleCallbacksPerIteration o);
  oo_controls : is_usize (maxControlCallbacksPerIteration o);
  oo_valid : validate o = Ok tt;
}.

Lemma valid_bounds o : options_ok o ->
  maxPendingFunctors o + reservedPendingFunctors o <= usize_max /\ 0 < maxFunctorsPerIteration o /\
  maxControlSources o <= kMaxControlSources /\ 0 < maxControlCallbacksPerIteration o /\ 0 < maxLifecycleCallbacksPerIteration o.
Proof.
  intros H. pose proof (oo_valid o H) as V. unfold validate in V. destruct H. unfold is_usize in *.
  repeat match type of V with (if ?b then _ else _) = _ => destruct b eqn:?; [done|] end. zify_bools. lia.
Qed.

(** The planes under their mutexes, whatever the owner thread does. *)
Definition control_phase_of (p : EventLoopPhase) : ControlPhase :=
  match p with Running => Accepting | Quiescing | FinalDraining => Draining | LoopShutdown => ControlShutdown end.

Definition draining (p : EventLoopPhase) : bool := match p with Quiescing | FinalDraining => true | _ => false end.

Record planes_ok (o : EventLoopOptions) (s : WorkLoop) : Prop := {
  pl_control : control_ok (control s);
  pl_life : exists D Q, life_ok D Q (lifecycle s);
  pl_loop : control_loop (control s) = executor_loop s /\ life_loop (lifecycle s) = executor_loop s;
  pl_phase : life_phase (lifecycle s) = phase_ s /\ control_phase (control s) = control_phase_of (phase_ s);
  pl_executor : accepting s = bool_decide (phase_ s = Running) /\ drainingAccepted s = draining (phase_ s);
  pl_dead : executor_loop s = false -> phase_ s = LoopShutdown;
  pl_quit : executor_loop s = true -> quit_ s = negb (bool_decide (phase_ s = Running));
  pl_room : zlen (pendingFunctors_ s) <= maxPendingFunctors o + reservedPendingFunctors o;
  pl_posting : posting s = true -> phase_ s = Running;
  pl_fault : fault s = None;
}.

(** Below callbacks for metrics and exceptions. *)
Fixpoint base (p : Pc) : Pc := match p with Metric k | Handler k => base k | _ => p end.

(** Where such callbacks return to. *)
Definition resumes (p : Pc) : bool :=
  match p with
  | Serve _ _ _ | RewakeControl _ _ | ServeNode _ _ _ | RewakeNodes _ _ | RunFunctors _ _ => true
  | _ => false
  end.

Definition nested (p : Pc) : bool := match p with Metric k | Handler k => resumes (base k) | _ => true end.

(** The turn the thread is in. *)
Definition turn_of (p : Pc) : option Turn :=
  match p with
  | Test | AskControl | AskLifecycle | Timers => Some Run
  | LookFunctors => Some (Quiesce false)
  | LookPending => Some Final
  | Poll t _ | Channels t | LookControl t | SelectControls t | Serve t _ _ | InControl t _ _ _ | CountControl t
  | RewakeControl t _ | LookNodes t | RoundNodes t | ServeNode t _ _ | InNode t _ _ | CountNodes t _ | RewakeNodes t _
  | TakeFunctors t | RunFunctors t _ | InFunctor t _ | CountFunctors t | ExitFunctors t | ExitControl t | ExitNodes t => Some t
  | _ => None
  end.

(** The phases a place belongs to. *)
Definition phase_at (p : Pc) (ph : EventLoopPhase) : Prop :=
  match turn_of p with
  | Some Run => ph = Running \/ ph = Quiescing
  | Some (Quiesce _) => ph = Quiescing
  | Some Final => ph = FinalDraining
  | None =>
      match p with
      | Outside => ph = Running \/ ph = Quiescing
      | BeginQuiesce | BeginFinal => ph = Quiescing
      | Finish => ph = FinalDraining
      | Returned | Destroyed => ph = LoopShutdown
      | _ => False
      end
  end.

Definition not_run (p : Pc) : bool :=
  match p with LookControl t | LookNodes t | ExitFunctors t | ExitControl t | ExitNodes t => if t is Run then false else true | _ => true end.

Definition in_loop (p : Pc) : bool := match p with Outside | Returned | Destroyed => false | _ => true end.
Definition alive (p : Pc) : bool := match p with Destroyed => false | _ => true end.
Definition in_functors (p : Pc) : bool := match p with RunFunctors _ _ | InFunctor _ _ => true | _ => false end.

(** The functors taken and not yet called. *)
Definition taken (p : Pc) : list nat := match p with RunFunctors _ l | InFunctor _ l => l | _ => [] end.

Definition node_of (p : Pc) : option nat := match p with InNode _ _ a => Some a | _ => None end.
Definition slot_of (p : Pc) : option nat := match p with InControl _ _ _ s => Some s | _ => None end.

(** No functor, control source, lifecycle node or channel is pending any more. *)
Definition drained_functors (p : Pc) : bool :=
  match p with ExitControl _ | ExitNodes _ | BeginFinal | Finish | Returned => true | _ => false end.
Definition drained_control (p : Pc) : bool :=
  match p with ExitNodes _ | BeginFinal | Finish | Returned => true | _ => false end.
Definition drained_all (p : Pc) : bool := match p with BeginFinal | Finish | Returned => true | _ => false end.

(** From here the first loop may come to its poll without looking at the functors,
    at the control sources, at the lifecycle nodes, at [quit_] again. *)
Definition past_functors (p : Pc) : bool :=
  match p with Test | AskControl | AskLifecycle | Poll Run _ => true | _ => false end.
Definition past_nodes (p : Pc) : bool :=
  match p with
  | Outside | RewakeNodes Run false | TakeFunctors Run | RunFunctors Run _ | InFunctor Run _ | CountFunctors Run => true
  | _ => past_functors p
  end.
Definition past_control (p : Pc) : bool :=
  match p with
  | RewakeControl Run false | RoundNodes Run | ServeNode Run _ _ | InNode Run _ _ | CountNodes Run _ | RewakeNodes Run true => true
  | _ => past_nodes p
  end.
Definition past_quit (p : Pc) : bool := match p with AskControl | AskLifecycle | Poll Run _ => true | _ => false end.

Definition some_control (s : WorkLoop) : Prop := control_pendingCount (control s) <> 0.
Definition some_node (s : WorkLoop) : Prop := life_pendingCount (lifecycle s) <> 0.

Record thread_ok (s : WorkLoop) : Prop := {
  th_alive : executor_loop s = alive (pc s);
  th_nested : nested (pc s) = true /\ not_run (base (pc s)) = true;
  th_phase : phase_at (base (pc s)) (phase_ s);
  th_looping : looping_ s = in_loop (pc s);
  th_calling : callingPendingFunctors_ s = in_functors (base (pc s));
  th_active : activeNode (lifecycle s) = node_of (pc s) /\ activeCallbackSlot (control s) = slot_of (pc s);
  th_order : admitted s = started s ++ taken (base (pc s)) ++ pendingFunctors_ s;
  th_no_functor : drained_functors (pc s) = true -> pendingFunctors_ s = [];
  th_no_control : drained_control (pc s) = true -> ~ some_control s;
  th_no_node : drained_all (pc s) = true -> ~ some_node s /\ active s = false;
  th_wake_functors : past_functors (pc s) = true -> turns s = true -> pendingFunctors_ s <> [] -> woken s = true \/ posting s = true;
  th_wake_control : past_control (base (pc s)) = true -> some_control s -> woken s = true;
  th_wake_nodes : past_nodes (base (pc s)) = true -> some_node s -> woken s = true \/ quit_ s = true;
  th_wake_quit : past_quit (pc s) = true -> quit_ s = true -> woken s = true;
  th_first : pc s = Outside -> turns s = false;
}.

Definition work_ok (o : EventLoopOptions) (s : WorkLoop) : Prop := planes_ok o s /\ thread_ok s.

(** ** What requests change *)

Record effect (inLoop : bool) (s s' : WorkLoop) : Prop := {
  ef_thread : (pc s', looping_ s', callingPendingFunctors_ s', executor_loop s', controlDrainWords_ s', active s', turns s', started s') =
              (pc s, looping_ s, callingPendingFunctors_ s, executor_loop s, controlDrainWords_ s, active s, turns s, started s);
  ef_active : activeNode (lifecycle s') = activeNode (lifecycle s) /\ activeCallbackSlot (control s') = activeCallbackSlot (control s);
  ef_functors : exists l, pendingFunctors_ s' = pendingFunctors_ s ++ l /\ admitted s' = admitted s ++ l /\
    (l <> [] -> phase_ s = Running /\
       if inLoop then callingPendingFunctors_ s = true -> woken s' = true else posting s' = true);
  ef_evolves : evolves (lifecycle s) (lifecycle s');
  ef_woken : woken s = true -> woken s' = true;
  ef_posting : posting s = true -> posting s' = true;
  ef_control : some_control s' -> some_control s \/
    woken s' = true /\ (phase_ s = Running \/ inLoop = true /\ is_Some (activeCallbackSlot (control s)));
  ef_node : some_node s' -> some_node s \/
    (woken s' = true \/ quit_ s' = true) /\ (phase_ s = Running \/ inLoop = true /\ is_Some (activeNode (lifecycle s)));
  ef_phase : phase_ s' = phase_ s /\ (quit_ s' = quit_ s) \/
    phase_ s = Running /\ phase_ s' = Quiescing /\ (inLoop = false -> woken s' = true);
}.

#[local] Hint Resolve evolves_same same_nodes_evolves : core.

Lemma set_life_evolves b p n : evolves n (set_life b p n).
Proof. by split. Qed.

Lemma effect_refl b s : effect b s s.
Proof. split; auto. exists []. by rewrite !app_nil_r. Qed.

(** The operation returns or throws to its caller, and keeps the planes in order. *)
Definition harmless {A} (r : result A) : Prop :=
  match r with Throw undefined_behaviour | Throw log_fatal => False | _ => True end.


Definition serves {A} (o : EventLoopOptions) (inLoop : bool) (s : WorkLoop) (m : M WorkLoop A) : Prop :=
  exists r s', m s = (r, s') /\ harmless r /\ planes_ok o s' /\ effect inLoop s s'.

Lemma serves_none {A} o b s (m : M WorkLoop A) r : planes_ok o s -> harmless r -> m s = (r, s) -> serves o b s m.
Proof. intros Hp Hr E. exists r, s. split_and!; try done. apply effect_refl. Qed.

Lemma serves_ignore {A} o b s (m : M WorkLoop A) : serves o b s m -> serves o b s (ignore m).
Proof.
  intros (r & s' & E & Hr & Hp & He). destruct r as [a|e].
  - exists (Ok tt), s'. unfold ignore. by rewrite (bindM_ok _ _ _ _ _ E).
  - exists (Throw e), s'. unfold ignore. rewrite (bindM_throw _ _ _ _ _ E). split_and!; done.
Qed.

Lemma wakeup_ok s : executor_loop s = true -> wakeup s = (Ok tt, set_polled (active s) true s).
Proof. intros E. unfold wakeup, bindM, get. by rewrite E. Qed.

(** Changes of one plane that keep its phase and its loop. *)
Lemma planes_control o s c : planes_ok o s -> control_ok c -> control_same (control s) c -> planes_ok o (set_control c s).
Proof. intros [] Hc [E1 E2 E3]. split; cbn; try done; by rewrite ?E1, ?E2. Qed.

Lemma planes_life o s D Q n : planes_ok o s -> life_ok D Q n -> life_phase n = life_phase (lifecycle s) ->
  life_loop n = life_loop (lifecycle s) -> planes_ok o (set_lifecycle n s).
Proof. intros [] Hn E1 E2. split; cbn; try done; rewrite ?E1, ?E2; try done. by exists D, Q. Qed.

Lemma planes_polled o s a w : planes_ok o s -> planes_ok o (set_polled a w s).
Proof. intros []. by split. Qed.

Lemma planes_pc o s p : planes_ok o s -> planes_ok o (set_pc p s).
Proof. intros []. by split. Qed.

Lemma count_some c : control_ok c -> control_pendingCount c <> 0 <-> exists x, pending c x.
Proof.
  intros H. rewrite (co_count c H). unfold pending. destruct (slots_of (pendingWords c)) as [|x l]; simpl.
  - split; [lia|]. by intros (x & ?%elem_of_nil).
  - split; [|lia]. intros _. exists x. constructor.
Qed.

(** *** Functors *)

Lemma queue_impl_ok o b cb rs s : options_ok o -> planes_ok o s -> executor_loop s = true -> phase_ s = Running ->
  serves o b s (tryQueueInLoopImpl o b cb rs).
Proof.
  intros Ho Hp Hl Hph. destruct cb as [f|]; [|by apply (serves_none _ _ _ _ (Ok false))].
  unfold serves, tryQueueInLoopImpl, bindM, get. destruct (_ <=? _) eqn:Ec; [exists (Ok false), s; split_and!; try done; apply effect_refl|].
  destruct (valid_bounds o Ho) as (Hb & _). pose proof (oo_pending o Ho). pose proof (oo_reserved o Ho). unfold is_usize in *.
  assert (zlen (pendingFunctors_ s ++ [f]) <= maxPendingFunctors o + reservedPendingFunctors o) as Hroom.
  { rewrite zlen_app. unfold zlen in *. simpl. destruct rs; rewrite uwrap_small in Ec by lia; zify_bools; lia. }
  destruct Hp. destruct b; simpl.
  - destruct (callingPendingFunctors_ s) eqn:Ek; eexists (Ok true), _.
    + unfold wakeup, bindM, get; simpl; rewrite Hl; simpl. split; [reflexivity|]. split_and!; [done|by split|].
      split; auto; simpl. exists [f]. done.
    + split; [reflexivity|]. split_and!; [done|by split|]. split; auto; simpl. exists [f]. split_and!; [done..|]. intros _. split; [done|]. congruence.
  - eexists (Ok true), _. split; [reflexivity|]. split_and!; [done|by split|]. split; auto; simpl. exists [f]. done.
Qed.

Lemma accepting_running o s : planes_ok o s -> accepting s = true -> phase_ s = Running.
Proof. intros Hp E. destruct (pl_executor _ _ Hp) as [Ea _]. rewrite E in Ea. symmetry in Ea. by apply bool_decide_eq_true in Ea. Qed.

Lemma running_alive o s : planes_ok o s -> phase_ s = Running -> executor_loop s = true.
Proof. intros Hp E. destruct (executor_loop s) eqn:El; [done|]. rewrite (pl_dead _ _ Hp El) in E. done. Qed.

Lemma queue_ok o b cb s : options_ok o -> planes_ok o s -> serves o b s (queueInLoop o b cb).
Proof.
  intros Ho Hp. unfold serves, queueInLoop, bindM, get. destruct (accepting s) eqn:Ea; simpl; [|exists (Throw logic_error), s; split_and!; try done; apply effect_refl].
  pose proof (accepting_running _ _ Hp Ea) as Er.
  destruct (queue_impl_ok o b cb true s Ho Hp (running_alive _ _ Hp Er) Er) as (r & s' & E & Hr & Hp' & He). rewrite E.
  destruct r as [[]|e]; simpl; [exists (Ok tt)|exists (Throw overflow_error)|exists (Throw e)]; exists s'; split_and!; done.
Qed.

Lemma try_queue_ok o b cb s : options_ok o -> planes_ok o s -> serves o b s (tryQueueInLoop o b cb).
Proof.
  intros Ho Hp. unfold serves, tryQueueInLoop. unfold bindM at 1, get at 1. destruct (accepting s) eqn:Ea; [|exists (Ok false), s; split_and!; try done; apply effect_refl].
  pose proof (accepting_running _ _ Hp Ea) as Er. by apply queue_impl_ok; [..|eapply running_alive|].
Qed.

Lemma post_ok o b cb s : options_ok o -> planes_ok o s -> serves o b s (postFunctor o b cb).
Proof.
  intros Ho Hp. destruct cb as [f|]; [|by apply (serves_none _ _ _ _ (Ok PostQueueFull))]. unfold serves, postFunctor.
  unfold bindM at 1, get at 1.
  destruct (executor_loop s) eqn:El; [|exists (Ok PostOwnerUnavailable), s; split_and!; try done; apply effect_refl].
  destruct (accepting s) eqn:Ea; [|exists (Ok PostShutdown), s; split_and!; try done; apply effect_refl].
  pose proof (accepting_running _ _ Hp Ea) as Er. destruct (queue_impl_ok o b (Some f) false s Ho Hp El Er) as (r & s' & E & Hr & Hp' & He).
  cbn [negb]. unfold bindM. rewrite E. destruct r as [ok|e]; [exists (Ok (if ok then PostAccepted else PostQueueFull))|exists (Throw e)]; exists s'; split_and!; done.
Qed.

(** *** Control sources and lifecycle nodes *)

Lemma notify_loop_ok o b src s : planes_ok o s -> serves o b s (notify_loop b src).
Proof.
  intros Hp. destruct (notify_ok b src (control s) (pl_control _ _ Hp)) as (r & w & c & E & Hc & E1 & E2 & E3 & E4 & H).
  unfold serves, notify_loop, on_control. unfold bindM at 1. rewrite E. cbn [fst].
  assert (planes_ok o (set_control c s)) as Hp' by (apply planes_control; [done..|by split]).
  destruct H as [(-> & (Hcur & Hl & Ha) & Hw & Hpend)|(_ & _ & -> & ->)].
  - destruct (pl_loop _ _ Hp) as [El _]. rewrite Hl in El. destruct (pl_phase _ _ Hp) as [_ Eph].
    exists (Ok PostAccepted), (if w then set_polled (active s) true (set_control c s) else set_control c s).
    split; [destruct w; [unfold bindM; rewrite wakeup_ok by done; done|done]|]. split; [done|].
    split; [destruct w; [by apply planes_polled|done]|].
    destruct w.
    + split; cbn; auto; [exists []; by rewrite !app_nil_r|]. intros _. right. split; [done|]. destruct Ha as [Ha|(Ha & -> & Ha')].
      * left. rewrite Eph in Ha. by destruct (phase_ s).
      * right. split; [done|]. by rewrite Ha'.
    + assert (pending (control s) (source_slot src)) as Hin.
      { destruct (decide (source_slot src ∈ slots_of (pendingWords (control s)))) as [|Hn]; [done|]. by apply Hw in Hn. }
      split; cbn; auto; [exists []; by rewrite !app_nil_r|]. intros _. left. apply count_some; [apply Hp|]. by eexists.
  - exists (Ok r), (set_control (control s) s). split_and!; try done. split; cbn; auto. exists []. by rewrite !app_nil_r.
Qed.

Lemma same_nodes_state n n' : same_nodes n n' -> life_phase n' = life_phase n /\ life_loop n' = life_loop n.
Proof. by intros (? & ? & ? & ? & ? & ? & -> & _). Qed.

Lemma signal_loop_ok o b src s : planes_ok o s -> serves o b s (signal_loop b src).
Proof.
  intros Hp. destruct (pl_life _ _ Hp) as (D & Q & HD).
  destruct (signal_ok b src D Q (lifecycle s) HD) as (r & w & D' & n & E & Hn & Hs & E1 & E2 & H).
  destruct (same_nodes_state _ _ Hs) as [E3 E4].
  unfold serves, signal_loop, on_lifecycle. unfold bindM at 1. rewrite E. cbn [fst].
  assert (planes_ok o (set_lifecycle n s)) as Hp' by by eapply planes_life.
  destruct H as [(-> & (Hcur & Hl & Ha) & -> & Hw)|(_ & _ & -> & -> & ->)].
  - destruct (pl_loop _ _ Hp) as [_ El]. rewrite Hl in El. destruct (pl_phase _ _ Hp) as [Eph _].
    exists (Ok PostAccepted), (if w then set_polled (active s) true (set_lifecycle n s) else set_lifecycle n s).
    split; [destruct w; [unfold bindM; rewrite wakeup_ok by done; done|done]|]. split; [done|].
    split; [destruct w; [by apply planes_polled|done]|].
    destruct w.
    + split; cbn; auto; [exists []; by rewrite !app_nil_r|]. intros _. right. split; [by left|]. destruct Ha as [Ha|(Ha & -> & Ha' & _)].
      * left. congruence.
      * right. split; [done|]. by rewrite Ha'.
    + assert (source_node src ∈ D) as Hin.
      { symmetry in Hw. apply negb_false_iff in Hw. by apply bool_decide_eq_true in Hw. }
      split; cbn; auto; [exists []; by rewrite !app_nil_r|]. intros _. left. unfold some_node. rewrite (lo_pending HD). unfold zlen.
      destruct D; [by apply elem_of_nil in Hin|]. simpl. lia.
  - exists (Ok r), (set_lifecycle (lifecycle s) s). split_and!; try done. split; cbn; auto. exists []. by rewrite !app_nil_r.
Qed.

#[local] Arguments quiesce_lifecycle : simpl never.

(** [quit] in a later phase changes nothing. *)
Ltac again_quit :=
  eexists _; split; [reflexivity|]; split;
    [split; cbn; match goal with E : phase_ _ = _ |- _ => rewrite ?E end; eauto; congruence|split; cbn; eauto; exists []; by rewrite !app_nil_r].

Lemma quit_ok o b s : planes_ok o s -> executor_loop s = true -> posting s = false ->
  exists s', quit b s = (Ok tt, s') /\ planes_ok o s' /\ effect b s s'.
Proof.
  intros Hp Hl Hpost. pose proof Hp as [Pc_ (D & Q & HD) [Pl1 Pl2] [Pp1 Pp2] [Pe1 Pe2] Pd Pq Pr Ppo Pf]. pose proof (Pq Hl) as Eq.
  unfold quit. unfold bindM at 1, modify at 1. unfold bindM at 1, get at 1. cbn [control lifecycle set_executor].
  rewrite Pp1, Pp2. destruct (phase_ s) eqn:Eph; simpl in Pp2, Pe1, Pe2, Eq; cbn [control_phase_of].
  - rewrite !bool_decide_eq_false_2, bool_decide_eq_true_2 by done. cbn [orb negb].
    destruct (quiesce_ok D Q (lifecycle s) HD) as (n & En & Hs & Hn & Ha). destruct (same_nodes_state _ _ Hs) as [E3 E4]. cbn in E3, E4.
    pose proof (evolves_trans _ _ _ (set_life_evolves _ _ _) (same_nodes_evolves _ _ Hs)) as Hev.
    unfold bindM at 1, modify at 1. unfold bindM at 1, on_control at 1. cbn. unfold bindM at 1, on_lifecycle at 1. cbn. rewrite En. cbn.
    assert (control_ok (set_control_phase Draining (control s))) as Hd by by apply (phase_ok Draining (control_loop (control s))).
    destruct b; unfold bindM; cbn; rewrite ?Hl; (eexists _; split; [reflexivity|]; split;
      [split; cbn; try done; try congruence; [by eauto|by split; congruence]
      |split; cbn; auto; rewrite ?Hl; try done; try (by right); exists []; by rewrite !app_nil_r]).
  - rewrite !bool_decide_eq_false_2 by done. cbn. again_quit.
  - rewrite !bool_decide_eq_false_2 by done. cbn. again_quit.
  - rewrite !bool_decide_eq_true_2 by done. cbn. again_quit.
Qed.

Lemma request_ok o b r s : options_ok o -> planes_ok o s ->
  (locks_executor r = true -> posting s = false) -> (needs_loop r = true -> executor_loop s = true) -> serves o b s (request o b r).
Proof.
  intros Ho Hp Hl Hn. destruct r as [cb|cb|cb|src|src|]; cbn [request].
  - by apply queue_ok.
  - by apply serves_ignore, try_queue_ok.
  - by apply serves_ignore, post_ok.
  - by apply serves_ignore, notify_loop_ok.
  - by apply serves_ignore, signal_loop_ok.
  - destruct (quit_ok o b s Hp (Hn eq_refl) (Hl eq_refl)) as (s' & E & Hp' & He). by exists (Ok tt), s'.
Qed.

Lemma owner_op_ok o op s : options_ok o -> planes_ok o s -> executor_loop s = true ->
  (forall r, op = Ask r -> locks_executor r = true -> posting s = false) -> serves o true s (perform o op).
Proof.
  intros Ho Hp Hl Hn. pose proof (pl_control _ _ Hp) as Hc. destruct (pl_life _ _ Hp) as (D & Q & HD).
  destruct op as [r|f|src|p f|src]; cbn [perform].
  - apply request_ok; try done. by apply Hn.
  - destruct (register_ok (looping_ s) f (control s) Hc) as (r & c & E & Hc' & Hs & Ew & Hr). unfold bindM at 1, get at 1. apply serves_ignore.
    exists r, (set_control c s). unfold on_control. rewrite E. split; [done|]. split; [by destruct r as [|e]; [|destruct Hr as [[-> | ->] _]]|].
    split; [by apply planes_control|]. pose proof (co_count _ Hc) as E1. pose proof (co_count _ Hc') as E2. rewrite Ew in E2. destruct Hs.
    split; cbn; auto; [exists []; by rewrite !app_nil_r|]. unfold some_control. cbn. left. congruence.
  - destruct (unregister_ok src (control s) Hc) as (c & E & Hc' & Hs & H). exists (Ok tt), (set_control c s). unfold on_control. rewrite E.
    split; [done|]. split; [done|]. split; [by apply planes_control|]. destruct Hs. split; cbn; auto; [exists []; by rewrite !app_nil_r|].
    unfold some_control. cbn. intros (x & Hx)%(count_some c Hc'). left. apply count_some; [done|]. exists x. destruct H as [(_ & _ & Hi & _)|[_ ->]]; [|done].
    by apply Hi.
  - destruct (attach_ok p f D Q (lifecycle s) HD) as (r & n & E & H). apply serves_ignore. exists r, (set_lifecycle n s). unfold on_lifecycle. rewrite E.
    split; [done|]. destruct r as [src|e].
    + destruct H as (E1 & E2 & _ & _ & Hev & E3 & E4 & E5 & Hn'). split; [done|]. split; [eapply planes_life; [done|done|congruence..]|].
      split; cbn; auto; [exists []; by rewrite !app_nil_r|]. unfold some_node. cbn. rewrite (lo_pending Hn'), (lo_pending HD). auto.
    + destruct H as [He ->]. split; [by destruct He as [-> |[-> | ->]]|]. split; [by destruct Hp|]. split; cbn; auto. exists []. by rewrite !app_nil_r.
  - destruct (detach_ok src D Q (lifecycle s) HD) as (n & Q' & E & Hn' & Hev & E1 & E2 & E3 & _). exists (Ok tt), (set_lifecycle n s). unfold on_lifecycle. rewrite E.
    split; [done|]. split; [done|]. split; [by eapply planes_life|]. split; cbn; auto; [exists []; by rewrite !app_nil_r|].
    unfold some_node. cbn. rewrite (lo_pending Hn'), (lo_pending HD). auto.
Qed.

(** *** Requests and the owner thread *)

Lemma phase_at_quit p : phase_at p Running -> phase_at p Quiescing.
Proof. unfold phase_at. destruct (turn_of p) as [[|h|]|]; [tauto|done..|]. destruct p; try done; tauto. Qed.

Lemma drained_late p ph : drained_functors p = true -> not_run p = true -> phase_at p ph -> ph <> Running.
Proof. unfold phase_at. destruct p; simpl; try done; try congruence; destruct t as [|h|]; simpl; congruence. Qed.

Lemma drained_mono p : (drained_all p = true -> drained_control p = true) /\ (drained_control p = true -> drained_functors p = true).
Proof. by destruct p. Qed.

Lemma drained_base p : drained_functors p = true -> base p = p /\ node_of p = None /\ slot_of p = None.
Proof. by destruct p. Qed.

Lemma past_functors_waits p : past_functors p = true -> user_code p = false.
Proof. by destruct p. Qed.

Lemma past_quit_waits p : past_quit p = true -> user_code p = false.
Proof. by destruct p. Qed.

Lemma past_nodes_alive p : past_nodes (base p) = true -> alive p = true.
Proof. by destruct p. Qed.

Lemma effect_thread o inLoop s s' : planes_ok o s -> planes_ok o s' -> thread_ok s -> effect inLoop s s' ->
  (inLoop = true -> user_code (pc s) = true) -> thread_ok s'.
Proof.
  intros Hp Hp' [] [Et [Ea1 Ea2] (l & Ef & Ead & Hl) _ Hw Hpo Hc Hn Hph] Hu. injection Et as E1 E2 E3 E4 E5 E6 E7 E8.
  assert (drained_functors (pc s) = true -> phase_ s <> Running) as Hlate.
  { intros Hd. destruct (drained_base _ Hd) as (Eb & _). apply (drained_late (pc s)); [done|rewrite <-Eb; apply th_nested0|by rewrite <-Eb]. }
  pose proof (drained_mono (pc s)) as [Hm1 Hm2]. pose proof (drained_base (pc s)) as Hb.
  split; rewrite ?E1, ?E2, ?E3, ?E4, ?E6, ?E7, ?E8, ?Ea1, ?Ea2; try done.
  - destruct Hph as [[-> _]|(E & -> & _)]; [done|]. apply phase_at_quit. by rewrite <-E.
  - rewrite Ead, Ef, th_order0. by rewrite <-!app_assoc.
  - intros Hd. specialize (th_no_functor0 Hd). rewrite Ef, th_no_functor0. destruct l; [done|]. destruct Hl as [Hr _]; [done|]. by destruct Hlate; auto.
  - intros Hd Hs. apply Hm2 in Hd as Hd'. destruct (Hc Hs) as [Hs'|(_ & [Hr|(_ & Hs')])]; [by apply th_no_control0|by destruct Hlate; auto|].
    destruct (Hb Hd') as (_ & _ & E). destruct th_active0 as [_ Ea]. rewrite Ea, E in Hs'. by destruct Hs'.
  - intros Hd. destruct (th_no_node0 Hd) as [Hno Hac]. split; [|done]. intros Hs. apply Hm1, Hm2 in Hd as Hd'.
    destruct (Hn Hs) as [Hs'|(_ & [Hr|(_ & Hs')])]; [done|by destruct Hlate; auto|].
    destruct (Hb Hd') as (_ & E & _). destruct th_active0 as [Ea _]. rewrite Ea, E in Hs'. by destruct Hs'.
  - intros Hd Ht Hne. rewrite Ef in Hne. destruct (decide (l = [])) as [->|Hl']; [|].
    + rewrite app_nil_r in Hne. destruct (th_wake_functors0 Hd Ht Hne); auto.
    + destruct inLoop; [by rewrite (past_functors_waits _ Hd) in Hu; specialize (Hu eq_refl)|]. right. by apply Hl.
  - intros Hd Hs. destruct (Hc Hs) as [Hs'|[? _]]; auto.
  - intros Hd Hs. destruct (Hn Hs) as [Hs'|[? _]]; [|done]. destruct (th_wake_nodes0 Hd Hs') as [|Hq]; [auto|]. right.
    assert (executor_loop s = true) as Hal by (rewrite th_alive0; by apply past_nodes_alive).
    rewrite (pl_quit _ _ Hp') by congruence. rewrite (pl_quit _ _ Hp Hal) in Hq. destruct Hph as [[-> _]|(E & -> & _)]; [done|by rewrite E in Hq].
  - intros Hd Hq. destruct Hph as [[_ E]|(_ & _ & H)]; [rewrite E in Hq; auto|]. apply H. destruct inLoop; [|done].
    by rewrite (past_quit_waits _ Hd) in Hu; specialize (Hu eq_refl).
Qed.

Lemma settle_serves o inLoop m s s' : work_ok o s -> serves o inLoop s m -> (inLoop = true -> user_code (pc s) = true) ->
  settle m s = Some s' -> work_ok o s' /\ effect inLoop s s'.
Proof.
  intros [Hp Ht] (r & s1 & E & Hr & Hp' & He) Hu. unfold settle. rewrite E. intros E1.
  assert (s1 = s') as ->; [destruct r as [|[]]; simpl in *; by try congruence|].
  split; [|done]. split; [done|]. exact (effect_thread o inLoop s s' Hp Hp' Ht He Hu).
Qed.

Lemma fresh_loop_ok o s : options_ok o -> EventLoop_new o = Ok s -> work_ok o s.
Proof.
  intros Ho. unfold EventLoop_new. rewrite (oo_valid o Ho). intros [= <-]. destruct (valid_bounds o Ho) as (Hb1 & _ & Hb2 & _).
  pose proof (oo_sources o Ho) as Hs. unfold is_usize in Hs. destruct (ControlState_new_ok (Z.to_nat (maxControlSources o))) as [Hc _]; [lia|].
  pose proof (oo_pending o Ho). pose proof (oo_reserved o Ho). unfold is_usize in *. split.
  - split; cbn [control lifecycle pendingFunctors_ posting executor_loop phase_ accepting drainingAccepted fault quit_]; try done.
    + exists [], []. apply LifecycleState_new_ok, Ho.
    + unfold zlen. simpl. lia.
  - split; cbn [pc control lifecycle pendingFunctors_ posting executor_loop looping_ phase_ active woken admitted started quit_]; try done. by left.
Qed.

(** ** The steps of [loop] keep the invariant *)

Lemma has_control s : hasPendingControlSources s = true <-> some_control s.
Proof. unfold hasPendingControlSources, some_control. by rewrite negb_true_iff, Z.eqb_neq. Qed.

Lemma has_node s : hasPendingLifecycleNodes s = true <-> some_node s.
Proof. unfold hasPendingLifecycleNodes, some_node. by rewrite negb_true_iff, Z.eqb_neq. Qed.

Lemma no_control s : hasPendingControlSources s = false <-> ~ some_control s.
Proof. rewrite <-has_control. by destruct (hasPendingControlSources s). Qed.

Lemma no_node s : hasPendingLifecycleNodes s = false <-> ~ some_node s.
Proof. rewrite <-has_node. by destruct (hasPendingLifecycleNodes s). Qed.

Lemma no_functor s : hasPendingFunctors s = false <-> pendingFunctors_ s = [].
Proof. unfold hasPendingFunctors. by destruct (pendingFunctors_ s). Qed.

(** The thread goes to [p]; what it has just seen is in the context. *)
Ltac place :=
  match goal with
  | H : thread_ok ?s, E : pc ?s = _ |- thread_ok _ =>
      destruct H as [Ha [Hn Hn'] Hph Hl Hcl Hac Ho H1 H2 H3 W1 W2 W3 W4 W5]; rewrite E in *; split; cbn in *;
      try done; try tauto; try congruence
  end.

Ltac seen_flags :=
  repeat match goal with
  | H : _ || _ = false |- _ => apply orb_false_iff in H as [? ?]
  | H : hasPendingControlSources _ = true |- _ => apply has_control in H
  | H : hasPendingControlSources _ = false |- _ => apply no_control in H
  | H : hasPendingLifecycleNodes _ = true |- _ => apply has_node in H
  | H : hasPendingLifecycleNodes _ = false |- _ => apply no_node in H
  | H : hasPendingFunctors _ = false |- _ => apply no_functor in H
  end.

Section steps.
Context (o : EventLoopOptions) (Hopt : options_ok o).

(** The step succeeds and keeps the invariant. *)
Definition steps_to (m : M WorkLoop unit) (s : WorkLoop) : Prop := exists s', m s = (Ok tt, s') /\ work_ok o s'.

Lemma steps_goto p s : planes_ok o s -> thread_ok (set_pc p s) -> steps_to (goto p) s.
Proof. intros Hp Ht. exists (set_pc p s). split; [done|]. split; [by apply planes_pc|done]. Qed.

Lemma steps_bind {A} (m : M WorkLoop A) (k : A -> M WorkLoop unit) s a s1 : m s = (Ok a, s1) -> steps_to (k a) s1 -> steps_to (bindM m k) s.
Proof. intros E (s' & E' & H). exists s'. by rewrite (bindM_ok _ _ _ _ _ E). Qed.

Lemma quitting s : planes_ok o s -> executor_loop s = true -> quit_ s = true -> phase_ s <> Running.
Proof. intros Hp Hl Hq E. rewrite (pl_quit _ _ Hp Hl), E in Hq. done. Qed.

Lemma test_ok s : work_ok o s -> pc s = Test -> steps_to (advance o) s.
Proof.
  intros [Hp Ht] E. unfold advance. apply (steps_bind _ _ _ s s); [done|]. rewrite E.
  destruct (quit_ s) eqn:Eq; [|destruct (active s) eqn:Ea]; apply steps_goto; try done; place.
  pose proof (quitting s Hp Ha Eq). by destruct Hph.
Qed.

(** The steps that only look at the planes. *)
Definition looks (p : Pc) : bool :=
  match p with
  | AskControl | AskLifecycle | LookFunctors | LookControl _ | CountControl _ | LookNodes _ | RoundNodes _ | CountNodes _ _
  | LookPending | ExitFunctors _ | ExitControl _ | ExitNodes _ | ServeNode _ O _ => true
  | _ => false
  end.

Lemma look_ok s : work_ok o s -> looks (pc s) = true -> steps_to (advance o) s.
Proof.
  intros [Hp Ht] Hlook. unfold advance. apply (steps_bind _ _ _ s s); [done|].
  destruct (pc s) eqn:E; try done; unfold turn_head, quiesce_head, final_head, after_nodes.
  all: try destruct t as [|h|].
  all: repeat match goal with |- context [if ?b then _ else _] => destruct b eqn:? end; try destruct k; try done.
  all: try destruct (hasPendingControlSources s) eqn:?; try destruct (hasPendingLifecycleNodes s) eqn:?.
  all: seen_flags; apply steps_goto; [done|place].
Qed.

Lemma select_step s t : work_ok o s -> pc s = SelectControls t -> steps_to (advance o) s.
Proof.
  intros [Hp Ht] E. unfold advance. apply (steps_bind _ _ _ s s); [done|]. rewrite E.
  destruct (select_ok (maxControlCallbacksPerIteration o) (control s)) as (ds & n & c & Es & Hc & Hs & _ & E1 & E2 & -> & _); [apply Hp| |].
  { pose proof (oo_controls o Hopt) as [? _]. done. }
  apply (steps_bind _ _ _ (ds, zlen (slots_of ds)) (set_control c s)); [unfold on_control; by rewrite Es|].
  apply (steps_bind _ _ _ tt (set_drain ds (set_control c s))); [done|].
  assert (planes_ok o (set_drain ds (set_control c s))) as Hp'.
  { pose proof (planes_control o s c Hp Hc Hs) as []. by split. }
  destruct Hs as [_ _ Hs]. destruct (_ =? 0) eqn:En; apply steps_goto; try done; destruct t as [|h|]; place; rewrite ?Hs; try tauto.
  intros _ (x & Hx)%(count_some c Hc). exfalso. unfold pending in Hx. rewrite E2 in Hx. zify_bools.
  destruct (valid_bounds o Hopt) as (_ & _ & _ & Hb & _). apply zlen_nil_inv in En. rewrite E1 in En.
  destruct (slots_of (pendingWords (control s))) as [|y l]; [by rewrite drop_nil in Hx; apply elem_of_nil in Hx|]. destruct (Z.to_nat _) eqn:Ez; [lia|done].
Qed.

Lemma serve_word_step s t i w : work_ok o s -> pc s = Serve t i w -> steps_to (advance o) s.
Proof.
  intros [Hp Ht] E. unfold advance. apply (steps_bind _ _ _ s s); [done|]. rewrite E. unfold serve_control. apply (steps_bind _ _ _ s s); [done|].
  destruct (_ <? _)%nat; [|apply steps_goto; [done|destruct t; place]]. destruct (w =? 0).
  - apply (steps_bind _ _ _ tt (set_drain (<[i:=0]> (controlDrainWords_ s)) s)); [done|]. apply steps_goto; [by destruct Hp|destruct t; place].
  - set (x := (i * 64 + countr_zero w)%nat).
    destruct (begin_control_ok x (control s) (pl_control _ _ Hp)) as [(f & g & _ & Eb)|[_ Eb]].
    + apply (steps_bind _ _ _ (Some f) (set_control (set_active_slot (Some x) (control s)) s)); [unfold on_control; by rewrite Eb|].
      apply steps_goto; [|destruct t; place]. pose proof (active_ok (Some x) _ (pl_control _ _ Hp)). destruct Hp. by split.
    + apply (steps_bind _ _ _ None (set_control (control s) s)); [unfold on_control; by rewrite Eb|].
      apply steps_goto; [by destruct Hp|destruct t; place].
Qed.

(** More work is announced by a wakeup. *)
Lemma rewake_bind (b : bool) (k : M WorkLoop unit) s : executor_loop s = true ->
  steps_to k (if b then set_polled (active s) true s else s) -> steps_to (run (if b then wakeup else ret tt) ;; k) s.
Proof. intros El Hk. apply (steps_bind _ _ _ tt (if b then set_polled (active s) true s else s)); [|done]. destruct b; [by apply wakeup_ok|done]. Qed.

Lemma rewake_step s t b : work_ok o s -> pc s = RewakeControl t b \/ pc s = RewakeNodes t b -> steps_to (advance o) s.
Proof.
  intros [Hp Ht] E. unfold advance. apply (steps_bind _ _ _ s s); [done|].
  assert (executor_loop s = true) as El by (rewrite (th_alive s Ht); by destruct E as [-> | ->]).
  assert (planes_ok o (if b then set_polled (active s) true s else s)) as Hp' by (destruct b; [by apply planes_polled|done]).
  destruct E as [E|E]; rewrite E; apply rewake_bind; try done; apply steps_goto; try done; destruct b, t as [|[]|]; place.
Qed.

Lemma serve_node_step s t k d : work_ok o s -> pc s = ServeNode t (S k) d -> steps_to (advance o) s.
Proof.
  intros [Hp Ht] E. unfold advance. apply (steps_bind _ _ _ s s); [done|]. rewrite E.
  destruct (pl_life _ _ Hp) as (D & Q & HD). pose proof (th_active s Ht) as [Han _]. rewrite E in Han.
  pose proof (begin_ok D Q (lifecycle s) HD Han) as Hb. unfold serve_node. destruct D as [|a D'].
  - apply (steps_bind _ _ _ None (set_lifecycle (lifecycle s) s)); [unfold on_lifecycle; by rewrite Hb|].
    apply steps_goto; [by destruct Hp|destruct t; place].
  - destruct Hb as (f & g & n & Eb & HD' & Hs & Ea & _). destruct (same_nodes_state _ _ Hs) as [E1 E2].
    apply (steps_bind _ _ _ (Some (a, f, g)) (set_lifecycle n s)); [unfold on_lifecycle; by rewrite Eb|].
    apply steps_goto; [by eapply planes_life|]. destruct t; place.
Qed.

Lemma take_step s t : work_ok o s -> pc s = TakeFunctors t -> steps_to (advance o) s.
Proof.
  intros [Hp Ht] E. unfold advance. apply (steps_bind _ _ _ s s); [done|]. rewrite E. unfold take_functors.
  apply (steps_bind _ _ _ s s); [done|]. set (n := Z.to_nat _). eapply steps_bind; [reflexivity|]. eapply steps_bind; [reflexivity|]. apply steps_goto.
  - destruct Hp. split; cbn; try done. etrans; [|exact pl_room0]. unfold zlen. rewrite length_drop. lia.
  - pose proof (take_drop n (pendingFunctors_ s)) as Etd.
    destruct (take n (pendingFunctors_ s)) eqn:El; destruct t; place; by rewrite Ho, <-Etd.
Qed.

Lemma run_step s t l : work_ok o s -> pc s = RunFunctors t l -> steps_to (advance o) s.
Proof.
  intros [Hp Ht] E. unfold advance. apply (steps_bind _ _ _ s s); [done|]. rewrite E. destruct l as [|f l].
  - eapply steps_bind; [reflexivity|]. apply steps_goto; [by destruct Hp|destruct t; place].
  - eapply steps_bind; [reflexivity|]. apply steps_goto; [by destruct Hp|destruct t; place; by rewrite Ho, <-app_assoc].
Qed.

Lemma count_functors_step s t : work_ok o s -> pc s = CountFunctors t -> steps_to (advance o) s.
Proof.
  intros [Hp Ht] E. unfold advance. apply (steps_bind _ _ _ s s); [done|]. rewrite E.
  apply rewake_bind; [by rewrite (th_alive s Ht), E|]. eapply steps_bind; [reflexivity|].
  apply steps_goto; [destruct (hasPendingFunctors s); by destruct Hp|].
  destruct (hasPendingFunctors s) eqn:Ef; seen_flags; destruct t; place; tauto.
Qed.

Lemma set_life_ok D Q b p n : life_ok D Q n -> life_ok D Q (set_life b p n).
Proof. intros []. by split. Qed.

Lemma phase_step s : work_ok o s -> pc s = BeginQuiesce \/ pc s = BeginFinal \/ pc s = Finish -> steps_to (advance o) s.
Proof.
  intros [Hp Ht] E. unfold advance. apply (steps_bind _ _ _ s s); [done|]. pose proof (th_phase s Ht) as Eph.
  pose proof (th_alive s Ht) as El. pose proof Hp as [Pc_ (D & Q & HD) [Pl1 Pl2] [Pp1 Pp2] [Pe1 Pe2] Pd Pq Pr Ppo Pf].
  destruct E as [E|[E|E]]; rewrite E in *; cbn in Eph, El; rewrite Eph, El in *.
  - eapply steps_bind; [reflexivity|]. apply steps_goto; unfold quiesce_head; [|destruct (active s) eqn:Ea; place].
    split; cbn; rewrite ?Eph, ?El; try done. by exists D, Q.
  - do 2 (eapply steps_bind; [reflexivity|]). apply steps_goto; unfold final_head; [|destruct (active s) eqn:Ea; place].
    split; cbn; rewrite ?El; try done; [by exists D, Q; apply set_life_ok|by intros F%Ppo].
  - do 5 (eapply steps_bind; [reflexivity|]). apply steps_goto; [|place].
    split; cbn; rewrite ?El; try done; [by apply (phase_ok _ (control_loop (control s)))|by exists D, Q; apply set_life_ok|by intros F%Ppo].
Qed.

Lemma turn_ok s : work_ok o s -> advances (pc s) = true -> steps_to (advance o) s.
Proof.
  intros H Ha. destruct (looks (pc s)) eqn:Hk; [by apply look_ok|]. destruct (pc s) eqn:E; try done.
  - by apply test_ok.
  - by eapply select_step.
  - by eapply serve_word_step.
  - eapply rewake_step; [done|]. by left.
  - destruct k; [done|]. by eapply serve_node_step.
  - eapply rewake_step; [done|]. by right.
  - by eapply take_step.
  - by eapply run_step.
  - by eapply count_functors_step.
  - apply phase_step; [done|]. by left.
  - apply phase_step; [done|]. right. by left.
  - apply phase_step; [done|]. right. by right.
Qed.

(** A callback for metrics or exceptions returns. *)
Lemma resumes_at p : resumes (base p) = true ->
  nested p = true /\ alive p = true /\ in_loop p = true /\ node_of p = None /\ slot_of p = None /\ drained_functors p = false /\
  drained_control p = false /\ drained_all p = false /\ past_functors p = false /\ past_quit p = false.
Proof. by destruct p. Qed.

Lemma resumed_ok s k : thread_ok s -> pc s = Metric k \/ pc s = Handler k -> thread_ok (set_pc k s).
Proof.
  intros [Ha [Hn Hn'] Hph Hl Hcl Hac Ho H1 H2 H3 W1 W2 W3 W4 W5] E.
  assert (resumes (base k) = true) as Hr by (by destruct E as [E|E]; rewrite E in Hn).
  destruct (resumes_at k Hr) as (E1 & E2 & E3 & E4 & E5 & E6 & E7 & E8 & E9 & E10).
  destruct E as [E|E]; rewrite E in *; (split; cbn in *; rewrite ?E1, ?E2, ?E3, ?E4, ?E5, ?E6, ?E7, ?E8, ?E9, ?E10; try done; by intros ->).
Qed.

(** The user code that the loop calls ends. *)
Lemma user_end_ok s threw : work_ok o s -> in_user_call (pc s) = true -> steps_to (leave_user threw) s.
Proof.
  intros [Hp Ht] Hu. unfold leave_user. apply (steps_bind _ _ _ s s); [done|]. destruct (pc s) eqn:E; try done.
  - apply steps_goto; [done|place].
  - pose proof (th_active s Ht) as [_ Es]. rewrite E in Es. cbn in Es.
    eapply steps_bind; [reflexivity|]. cbn. rewrite Es, bool_decide_eq_true_2 by done.
    apply steps_goto; [|destruct threw, t as [|h|]; place].
    pose proof (active_ok None _ (pl_control _ _ Hp)) as Hc. destruct Hp. by split.
  - pose proof (th_active s Ht) as [Es _]. rewrite E in Es. cbn in Es. destruct (pl_life _ _ Hp) as (D & Q & HD).
    destruct (end_ok D Q (lifecycle s) a HD Es) as (n & En & HD' & Ean & _ & E1 & E2).
    apply (steps_bind _ _ _ tt (set_lifecycle n s)); [unfold on_lifecycle; by rewrite En|].
    assert (some_node (set_lifecycle n s) <-> some_node s) as Hsame by (unfold some_node; cbn; by rewrite (lo_pending HD'), (lo_pending HD)).
    apply steps_goto; [by eapply planes_life|]. destruct threw, t as [|h|]; place.
  - apply steps_goto; [done|]. destruct threw, t as [|h|]; place.
  - apply steps_goto; [done|]. destruct threw; [|by apply resumed_ok; [|left]].
    apply resumed_ok with (s := set_pc (Metric (Handler p)) s); [|by left]. place.
Qed.
End steps.

Lemma settle_steps o m s s' : steps_to o m s -> settle m s = Some s' -> work_ok o s'.
Proof. intros (s1 & E & H). unfold settle. rewrite E. by intros [= <-]. Qed.

Lemma destruct_ok o s : work_ok o s -> pc s = Outside \/ pc s = Returned -> posting s = false ->
  steps_to o (run EventLoop_destroy ;; goto Destroyed) s.
Proof.
  intros [Hp Ht] E Hpost. assert (looping_ s = false) as El by (rewrite (th_looping s Ht); by destruct E as [-> | ->]).
  eapply steps_bind; [unfold EventLoop_destroy, bindM, get; rewrite El; reflexivity|].
  pose proof Hp as [Pc_ (D & Q & HD) [Pl1 Pl2] [Pp1 Pp2] [Pe1 Pe2] Pd Pq Pr Ppo Pf].
  apply steps_goto; [|destruct E as [E|E]; place].
  split; cbn; try done; [by apply phase_ok|by exists D, Q; apply set_life_ok|congruence].
Qed.

Lemma wake_ok o s : work_ok o s -> posting s = true -> steps_to o (run wakeup ;; modify (set_posting false)) s.
Proof.
  intros [Hp Ht] Hpost. pose proof (running_alive _ _ Hp (pl_posting _ _ Hp Hpost)) as El.
  eapply steps_bind; [by apply wakeup_ok|]. eexists. split; [reflexivity|]. split; [by destruct Hp|].
  destruct Ht. split; cbn; tauto.
Qed.

Lemma handled_ok o s k (quits : bool) : options_ok o -> work_ok o s -> pc s = Handler k -> quits && posting s = false ->
  steps_to o (exception_handled quits k) s.
Proof.
  intros Ho [Hp Ht] E Hq. destruct quits.
  - pose proof (th_alive s Ht) as El. rewrite E in El. destruct (quit_ok o true s Hp El Hq) as (s1 & E1 & Hp1 & He).
    pose proof (effect_thread o true s s1 Hp Hp1 Ht He) as Ht1. rewrite E in Ht1. specialize (Ht1 (fun _ => eq_refl)).
    assert (pc s1 = Handler k) as E' by (pose proof (ef_thread _ _ _ He) as Et; injection Et; congruence).
    apply (steps_bind _ _ _ _ tt s1); [done|]. apply steps_goto; [done|]. apply resumed_ok; [done|by right].
  - apply (steps_bind _ _ _ _ tt s); [done|]. apply steps_goto; [done|]. apply resumed_ok; [done|by right].
Qed.

Lemma owner_step o op s s' : options_ok o -> work_ok o s -> step o (LOwner op) s = Some s' -> work_ok o s' /\ effect true s s'.
Proof.
  intros Hopt Hw E. pose proof Hw as [Hp Ht]. cbn [step] in E.
  destruct (user_code (pc s)) eqn:Eu; [|done]. destruct (negb _) eqn:En in E; [|done].
  apply (settle_serves o true (perform o op) s); try done. apply owner_op_ok; try done; [rewrite (th_alive s Ht); by destruct (pc s)|].
  intros r -> Hlk. rewrite Hlk, andb_true_r in En. by apply negb_true_iff in En.
Qed.

Lemma other_step o r s s' : options_ok o -> work_ok o s -> step o (LOther r) s = Some s' -> work_ok o s' /\ effect false s s'.
Proof.
  intros Hopt Hw E. pose proof Hw as [Hp Ht]. cbn [step] in E. destruct (negb _ && _) eqn:Eb; [|done]. apply andb_true_iff in Eb as [Eb1 Eb2].
  apply (settle_serves o false (request o false r) s); try done. apply request_ok; try done.
  - intros Hlk. rewrite Hlk, andb_true_r in Eb1. by apply negb_true_iff in Eb1.
  - intros Hlk. rewrite Hlk in Eb2. by destruct (executor_loop s).
Qed.

Lemma step_ok o l s s' : options_ok o -> work_ok o s -> step o l s = Some s' -> work_ok o s'.
Proof.
  intros Hopt Hw E. pose proof Hw as [Hp Ht]. destruct l as [| |ready drained|lo|op|threw|quits|r| |]; cbn [step] in E.
  - destruct (pc s) eqn:Epc; try done. injection E as <-. split; [by destruct Hp|place; by rewrite (W5 eq_refl)].
  - destruct (advances (pc s)) eqn:Ea; [|done]. destruct (negb _); [|done]. by eapply settle_steps; [apply turn_ok|].
  - destruct (pc s) eqn:Epc; try done. injection E as <-. split; [by destruct Hp|destruct t as [|h|]; place].
  - destruct (pc s) eqn:Epc; try done. injection E as <-. split; [by destruct Hp|destruct t as [|h|]; place].
  - by apply (owner_step o op s).
  - destruct (in_user_call (pc s)) eqn:Eu; [|done]. by eapply settle_steps; [apply user_end_ok|].
  - destruct (pc s) eqn:Epc; try done. destruct (quits && posting s) eqn:Eq; [done|]. by eapply settle_steps; [eapply handled_ok|].
  - by apply (other_step o r s).
  - destruct (posting s) eqn:Epo; [|done]. by eapply settle_steps; [apply wake_ok|].
  - destruct (posting s) eqn:Epo; [by destruct (pc s)|]. eapply settle_steps; [apply (destruct_ok o s Hw); [|done]; by destruct (pc s); auto|].
    by destruct (pc s).
Qed.

Lemma reachable_ok o s : options_ok o -> reachable o s -> work_ok o s.
Proof. intros Ho H. induction H as [s H|s l s' _ IH H]; [by apply fresh_loop_ok|by eapply step_ok]. Qed.



(** ** What a step can change *)

Definition rank (p : EventLoopPhase) : Z :=
  match p with Running => 0 | Quiescing => 1 | FinalDraining => 2 | LoopShutdown => 3 end.

Record later (s s' : WorkLoop) : Prop := {
  la_phase : rank (phase_ s) <= rank (phase_ s');
  la_closed : phase_ s <> Running -> admitted s' = admitted s;
  la_evolves : evolves (lifecycle s) (lifecycle s');
}.

(** A step that leaves alone what [later] looks at. *)
Lemma later_same s s' : phase_ s' = phase_ s -> admitted s' = admitted s -> lifecycle s' = lifecycle s -> later s s'.
Proof. intros E1 E2 E3. split; [rewrite E1; lia|done|rewrite E3; auto using evolves_same]. Qed.

Lemma effect_later b s s' : effect b s s' -> later s s'.
Proof.
  intros [_ _ (l & _ & Ead & Hl) Hev _ _ _ _ Hph]. split; [|intros Hr; rewrite Ead|done].
  - destruct Hph as [[-> _]|(-> & -> & _)]; simpl; lia.
  - destruct l; [by rewrite app_nil_r|]. by destruct Hl.
Qed.

Lemma settle_ok m s s1 s' : m s = (Ok tt, s1) -> settle m s = Some s' -> s' = s1.
Proof. unfold settle. intros ->. by intros [= <-]. Qed.

Lemma serve_node_later o s t k d s' : work_ok o s -> pc s = ServeNode t (S k) d -> advance o s = (Ok tt, s') -> later s s'.
Proof.
  intros [Hp Ht] E. destruct (pl_life _ _ Hp) as (D & Q & HD). pose proof (th_active s Ht) as [Han _]. rewrite E in Han.
  pose proof (begin_ok D Q (lifecycle s) HD Han) as Hb. unfold advance. unfold bindM at 1, get at 1. rewrite E.
  unfold serve_node, bindM, on_lifecycle. destruct D as [|a D'].
  - rewrite Hb. intros [= <-]. by apply later_same.
  - destruct Hb as (f & g & n & Eb & _ & Hs & _). rewrite Eb. intros [= <-].
    split; cbn; [lia|done|by apply same_nodes_evolves].
Qed.

Lemma advance_later o s s' : work_ok o s -> advance o s = (Ok tt, s') -> later s s'.
Proof.
  intros Hw. destruct (pc s) eqn:E; try (destruct k as [|k]; [|by eapply serve_node_later]).
  all: unfold advance; unfold bindM at 1, get at 1; rewrite E; unfold serve_control, serve_node, take_functors, run_functor, on_control, on_lifecycle, wakeup, goto, bindM, get, modify, throw_if, throw, ret.
  all: repeat case_match; intros; simplify_eq; try (by apply later_same).
  all: destruct Hw as [_ Ht]; pose proof (th_phase s Ht) as Hph; rewrite E in Hph; cbn in Hph; split; cbn; rewrite ?Hph; done.
Qed.

Lemma leave_later o s threw s' : work_ok o s -> leave_user threw s = (Ok tt, s') -> later s s'.
Proof.
  intros [Hp Ht]. unfold leave_user. unfold bindM at 1, get at 1. destruct (pc s) eqn:E; try (intros [= <-]; by apply later_same).
  pose proof (th_active s Ht) as [Es _]. rewrite E in Es. cbn in Es. destruct (pl_life _ _ Hp) as (D & Q & HD).
  destruct (end_ok D Q (lifecycle s) a HD Es) as (n & En & _ & _ & Hev & _). unfold bindM, on_lifecycle. rewrite En.
  intros [= <-]. by split; cbn.
Qed.

Lemma step_later o l s s' : options_ok o -> work_ok o s -> step o l s = Some s' -> later s s'.
Proof.
  intros Hopt Hw E. pose proof Hw as [Hp Ht]. destruct l as [| |ready drained|lo|op|threw|quits|r| |]; cbn [step] in E.
  - destruct (pc s); try done. injection E as <-. by apply later_same.
  - destruct (advances (pc s)) eqn:Ea; [|done]. destruct (negb _); [|done]. destruct (turn_ok o Hopt s Hw Ea) as (s1 & E1 & _).
    rewrite (settle_ok _ _ _ _ E1 E). by eapply advance_later.
  - destruct (pc s); try done. injection E as <-. by apply later_same.
  - destruct (pc s); try done. injection E as <-. by apply later_same.
  - by apply (effect_later true), (owner_step o op s).
  - destruct (in_user_call (pc s)) eqn:Eu; [|done]. destruct (user_end_ok o s threw Hw Eu) as (s1 & E1 & _).
    rewrite (settle_ok _ _ _ _ E1 E). by eapply leave_later.
  - destruct (pc s) eqn:Epc; try done. destruct (quits && posting s) eqn:Eq; [done|]. destruct quits.
    + pose proof (th_alive s Ht) as El. rewrite Epc in El. destruct (quit_ok o true s Hp El Eq) as (s1 & E1 & _ & He).
      unfold settle, exception_handled in E. rewrite (bindM_ok _ _ _ _ _ E1) in E. injection E as <-. destruct (effect_later _ _ _ He). by split.
    + injection E as <-. by apply later_same.
  - by apply (effect_later false), (other_step o r s).
  - destruct (posting s) eqn:Epo; [|done]. pose proof (running_alive _ _ Hp (pl_posting _ _ Hp Epo)) as El.
    unfold settle in E. rewrite (bindM_ok _ _ _ _ _ (wakeup_ok s El)) in E. injection E as <-. by apply later_same.
  - assert (looping_ s = false) as El by (rewrite (th_looping s Ht); by destruct (pc s)).
    unfold EventLoop_destroy, settle, bindM, get in E. rewrite El in E. destruct (pc s); try done; destruct (negb _); try done;
      injection E as <-; (split; cbn; [by destruct (phase_ s)|done|apply set_life_evolves]).
Qed.

Lemma later_chain s1 s2 s3 : later s1 s2 -> later s2 s3 -> later s1 s3.
Proof.
  intros [P1 C1 E1] [P2 C2 E2]. split; [lia| |by eapply evolves_trans]. intros H. rewrite C2; [by apply C1|].
  intros E. rewrite E in P1. by destruct (phase_ s1).
Qed.

Lemma run_reachable o ls : forall s s', reachable o s -> run_labels o ls s = Some s' -> reachable o s'.
Proof.
  induction ls as [|l ls IH]; simpl; intros s s' H E; [by injection E as <-|]. destruct (step o l s) as [s1|] eqn:E1; [|done].
  apply (IH s1); [by eapply reach_step|done].
Qed.

Lemma run_later o ls : forall s s', options_ok o -> reachable o s -> run_labels o ls s = Some s' -> later s s'.
Proof.
  induction ls as [|l ls IH]; simpl; intros s s' Ho H E; [injection E as <-; by apply later_same|].
  destruct (step o l s) as [s1|] eqn:E1; [|done]. apply (later_chain _ s1); [by eapply step_later; [|apply reachable_ok|]|].
  apply IH; try done. by eapply reach_step.
Qed.

(** ** Properties *)

(** At every moment, whatever the threads do, the four records of the phase
    ([phase_], lifecycle, control, executor) agree, the queue of functors is within its
    normal and reserved capacity, the control table and the lifecycle lists are well
    formed, and no pointer was followed to a node or a loop that is gone. *)
Theorem work_planes_agree o s : options_ok o -> reachable o s ->
  fault s = None /\
  life_phase (lifecycle s) = phase_ s /\ control_phase (control s) = control_phase_of (phase_ s) /\
  accepting s = bool_decide (phase_ s = Running) /\ drainingAccepted s = draining (phase_ s) /\
  zlen (pendingFunctors_ s) <= maxPendingFunctors o + reservedPendingFunctors o /\
  control_ok (control s) /\ exists D Q, life_ok D Q (lifecycle s).
Proof.
  intros Ho H. destruct (reachable_ok o s Ho H) as [[Hc Hl _ [H1 H2] [H3 H4] _ _ H5 _ H6] _]. by split_and!.
Qed.

(** C10. Functors are called in the order in which they were accepted, each once;
    when [loop] has returned every accepted functor has been called, and no control
    source, lifecycle node or channel is left pending. *)
Theorem accepted_functors_run_in_order o s : options_ok o -> reachable o s ->
  started s `prefix_of` admitted s /\
  (pc s = Returned -> started s = admitted s /\ pendingFunctors_ s = [] /\ ~ some_control s /\ ~ some_node s /\ active s = false).
Proof.
  intros Ho H. destruct (reachable_ok o s Ho H) as [_ Ht]. split; [eexists; apply (th_order s Ht)|]. intros E.
  pose proof (th_order s Ht) as Eo. pose proof (th_no_functor s Ht) as H1. pose proof (th_no_control s Ht) as H2. pose proof (th_no_node s Ht) as H3.
  rewrite E in *. cbn in *. destruct (H3 eq_refl). rewrite (H1 eq_refl) in *. rewrite !app_nil_r in Eo. by split_and!; auto.
Qed.

(** C11. No lost wakeup: when the loop is about to block, or is blocked, in the poller
    with its wakeup descriptor unread and no other thread on its way to wake it,
    then no control source and no lifecycle node is pending, no quit is
    requested, and no functor waits, but for those the owner thread itself queued before its
    first round of functors. *)
Theorem no_lost_wakeup o s : options_ok o -> reachable o s ->
  pc s = Poll Run false -> woken s = false -> posting s = false ->
  ~ some_control s /\ ~ some_node s /\ quit_ s = false /\ (turns s = true -> pendingFunctors_ s = []).
Proof.
  intros Ho H E Hw Hpo. destruct (reachable_ok o s Ho H) as [_ Ht].
  destruct Ht as [_ _ _ _ _ _ _ _ _ _ W1 W2 W3 W4 _]. rewrite E, Hw, Hpo in *. cbn in *.
  assert (quit_ s = false) as Hq by (destruct (quit_ s); [by specialize (W4 eq_refl eq_refl)|done]). rewrite Hq in *.
  split_and!; [intros Hs; by specialize (W2 eq_refl Hs)|intros Hs; by destruct (W3 eq_refl Hs)|done|].
  intros Ht. destruct (pendingFunctors_ s) eqn:Ef; [done|]. by destruct (W1 eq_refl Ht).
Qed.

(** The phase never goes back, and once [quit] has been called no functor is
    accepted any more: whatever is done next, the accepted functors stay the same and
    the executor stays closed. *)
Theorem quit_closes_admission o ls s s' : options_ok o -> reachable o s -> run_labels o ls s = Some s' ->
  rank (phase_ s) <= rank (phase_ s') /\
  (phase_ s <> Running -> accepting s' = false /\ admitted s' = admitted s).
Proof.
  intros Ho H E. pose proof (run_later o ls s s' Ho H E) as [P C _]. split; [done|]. intros Hr. split; [|by apply C].
  destruct (reachable_ok o s' Ho (run_reachable o ls s s' H E)) as [Hp _]. destruct (pl_executor _ _ Hp) as [-> _].
  apply bool_decide_eq_false. intros E'. rewrite E' in P. by destruct (phase_ s).
Qed.

Lemma stale_signal b src n : ~ valid_source n src -> signal b src n = (Ok (PostOwnerUnavailable, false), n).
Proof.
  intros Hv. unfold signal, bindM, get. destruct (heap n !! source_node src) as [x|] eqn:E; [|done].
  destruct (negb (life_loop n) || negb (attached x) || negb (node_generation x =? node_source_generation src)) eqn:Eb; [done|].
  exfalso. apply Hv. exists x. zify_bools. tauto.
Qed.

(** A lifecycle source that is stale once is stale for good: whatever the threads
    do next, its signals come back as [OwnerUnavailable] and change nothing, no matter
    which nodes are attached meanwhile. *)
Theorem stale_sources_never_signal o ls b src s s' : options_ok o -> reachable o s -> run_labels o ls s = Some s' ->
  (source_node src < fresh (lifecycle s))%nat -> ~ valid_source (lifecycle s) src ->
  signal b src (lifecycle s') = (Ok (PostOwnerUnavailable, false), lifecycle s').
Proof.
  intros Ho H E Hf Hv. apply stale_signal. intros Hv'. apply Hv. by eapply ev_valid; [apply (run_later o ls s s')|..].
Qed.

(** ** Examples *)

Definition small_options : EventLoopOptions := mkOptions 4 2 2 2 2 2 2 2 2 2.

Definition reached (ls : list Label) : WorkLoop :=
  default (initial_loop small_options) (run_labels small_options ls (initial_loop small_options)).

(** Two nodes are attached and the first is detached; the loop blocks, a functor
    comes from another thread, and the loop blocks again. *)
Definition idle_round : list Label :=
  [LOwner (AttachNode true 5); LOwner (AttachNode false 6); LOwner (DetachNode (mkSource 0 1)); LLoop;
   LAdvance; LAdvance; LAdvance; LOther (Post (Some 7%nat)); LWake; LPolled false true; LChannels false; LLeave false;
   LAdvance; LAdvance; LAdvance; LAdvance; LAdvance; LAdvance; LLeave false; LAdvance; LLeave false; LAdvance; LAdvance;
   LAdvance; LAdvance; LAdvance].

(** Then another thread quits, and [loop] returns. *)
Definition quit_round : list Label :=
  [LOther Quit; LPolled false true; LChannels false; LLeave false] ++ replicate 10 LAdvance ++
  [LPolled false true; LChannels false] ++ replicate 14 LAdvance.

Lemma small_options_ok : options_ok small_options.
Proof. by split. Qed.

Lemma small_reachable : reachable small_options (initial_loop small_options).
Proof. by apply reach_new. Qed.

Lemma reached_ok ls : run_labels small_options ls (initial_loop small_options) = Some (reached ls) -> reachable small_options (reached ls).
Proof. intros E. by eapply run_reachable; [apply small_reachable|]. Qed.

Lemma idle_reached : reachable small_options (reached idle_round).
Proof. apply reached_ok. by vm_compute. Qed.

Lemma returned_reached : reachable small_options (reached (idle_round ++ quit_round)).
Proof. apply reached_ok. by vm_compute. Qed.

Lemma work_planes_agree_witness : phase_ (reached (idle_round ++ quit_round)) = LoopShutdown /\ fault (reached (idle_round ++ quit_round)) = None.
Proof. split; [by vm_compute|]. apply (work_planes_agree small_options _ small_options_ok returned_reached). Defined.

Lemma accepted_functors_run_in_order_witness :
  started (reached (idle_round ++ quit_round)) = [7%nat] /\
  started (reached (idle_round ++ quit_round)) = admitted (reached (idle_round ++ quit_round)).
Proof.
  split; [by vm_compute|].
  apply (proj2 (accepted_functors_run_in_order small_options _ small_options_ok returned_reached)). by vm_compute.
Defined.

Lemma no_lost_wakeup_witness : turns (reached idle_round) = true /\ pendingFunctors_ (reached idle_round) = [].
Proof.
  split; [by vm_compute|].
  apply (no_lost_wakeup small_options (reached idle_round) small_options_ok idle_reached); by vm_compute.
Defined.

Lemma quit_closes_admission_witness : rank (phase_ (reached idle_round)) <= rank (phase_ (reached (idle_round ++ quit_round))).
Proof. apply (quit_closes_admission small_options quit_round _ _ small_options_ok idle_reached). by vm_compute. Defined.

Lemma stale_sources_never_signal_witness :
  signal false (mkSource 0 1) (lifecycle (reached (idle_round ++ quit_round))) =
  (Ok (PostOwnerUnavailable, false), lifecycle (reached (idle_round ++ quit_round))).
Proof.
  apply (stale_sources_never_signal small_options quit_round _ _ (reached idle_round) _ small_options_ok idle_reached).
  - by vm_compute.
  - vm_compute. lia.
  - intros (n & E & _). vm_compute in E. discriminate E.
Defined.
