(* ===== verification/Connector.v ===== *)
(** * Connector

    Model of [Connector] (src/core/net/Connector.cc) on POSIX: the state machine that
    makes outgoing connections, with time-outs, retries with exponential back-off, and
    request generations.

    The observers of events and the callback that takes a new connection are user
    code on the owner thread, and may call [start], [stop], [restart] and the setters
    again: the connector is a machine whose stack holds one frame for each such callback
    that has not returned.  Between callbacks the loop delivers events of the
    connecting channel and fires timers; what the operating system answers is part of
    the step.  The loop is taken to accept timers and channels (it is running), and
    the request counter not to wrap around: there are less than 2^64 requests;
    configured delays are below 146 years, half the range of the clock.
    Descriptors are numbered in the order in which they are made. *)

From S2P Require Import Prelude.

Local Open Scope Z_scope.

Inductive ConnectorEvent :=
  | ConnectAttempt | ConnectSuccess | ConnectFailed | RetryScheduled | SelfConnectDetected | ConnectTimeout | TerminalFailure.

Inductive StateE := kDisconnected | kConnecting | kConnected.

Global Instance StateE_eq_dec : EqDecision StateE.
Proof. solve_decision. Defined.

Record ConnectorOptions := mkConnectorOptions {
  initRetryDelay : Z;
  maxRetryDelay : Z;
  option_connectTimeout : Z;
  enableRetry : bool;
}.

(** [ConnectorOptions::validate] *)
Definition validate (o : ConnectorOptions) : result unit :=
  if initRetryDelay o <=? 0 then Throw invalid_argument
  else if maxRetryDelay o <? initRetryDelay o then Throw invalid_argument
  else if option_connectTimeout o <? 0 then Throw invalid_argument
  else Ok tt.

(** A timer of the loop, by what it was scheduled for. *)
Inductive TimerKind := RetryTimer | TimeoutTimer.
Record LiveTimer := mkLive { timer_kind : TimerKind; timer_generation : Z; timer_delay : Z }.

(** A callback in progress, by what the connector does when it returns. *)
Inductive Frame :=
  | AfterAttempt (g : Z)                      (** [connect], after [ConnectAttempt] *)
  | AfterSetupFailed (g : Z)                  (** [failBeforeChannel] *)
  | AfterFailed (fd : nat) (g : Z)            (** then [retry(sockfd, generation)] *)
  | AfterFatal (fd : nat) (g : Z)             (** [connect], for an error that is not retried *)
  | AfterTerminal (g : Z)                     (** nothing more to do *)
  | AfterRetryScheduled (g : Z)               (** [retry] *)
  | AfterTimeout (g : Z)                      (** [handleConnectTimeout] *)
  | AfterSuccess (fd : nat) (g : Z)           (** [handleWrite], after [ConnectSuccess] *)
  | InNewConnection (g : Z).                  (** in [newConnectionCallback_] *)

(** [channel_]: the descriptor and the generation its callbacks captured; [timers],
    [nextTimer]: those of the loop; [nextFd]: the descriptors made so far; [closed],
    [given]: closed, and handed to the new-connection callback; [retries]: the retries
    scheduled since the delay was last reset; [abandoned]: the generation in which an observer of
    [RetryScheduled] disabled retries. *)
Record Connector := mkConnector {
  state_ : StateE;
  connect_ : bool;
  retryEnabled_ : bool;
  newConnectionCallback_ : bool;
  channel_ : option (nat * Z);
  retryDelayMs_ : Z;
  initialRetryDelay_ : Z;
  maxRetryDelayMs_ : Z;
  connectTimeout_ : Z;
  retryTimerId_ : option nat;
  connectTimeoutTimerId_ : option nat;
  requestGeneration_ : Z;
  startedOnce_ : bool;
  frames : list Frame;
  timers : gmap nat LiveTimer;
  nextTimer : nat;
  nextFd : nat;
  closed : list nat;
  given : list nat;
  events : list (ConnectorEvent * Z);
  retries : nat;
  abandoned : option Z;
  fault : option exn;
}.

Definition set_state (v : StateE) (s : Connector) : Connector :=
  mkConnector v (connect_ s) (retryEnabled_ s) (newConnectionCallback_ s) (channel_ s) (retryDelayMs_ s) (initialRetryDelay_ s)
    (maxRetryDelayMs_ s) (connectTimeout_ s) (retryTimerId_ s) (connectTimeoutTimerId_ s) (requestGeneration_ s) (startedOnce_ s)
    (frames s) (timers s) (nextTimer s) (nextFd s) (closed s) (given s) (events s) (retries s) (abandoned s) (fault s).
(** [connect_], [requestGeneration_], [startedOnce_] *)
Definition set_request (c : bool) (g : Z) (b : bool) (s : Connector) : Connector :=
  mkConnector (state_ s) c (retryEnabled_ s) (newConnectionCallback_ s) (channel_ s) (retryDelayMs_ s) (initialRetryDelay_ s)
    (maxRetryDelayMs_ s) (connectTimeout_ s) (retryTimerId_ s) (connectTimeoutTimerId_ s) g b
    (frames s) (timers s) (nextTimer s) (nextFd s) (closed s) (given s) (events s) (retries s) (abandoned s) (fault s).
(** [retryEnabled_], [newConnectionCallback_] *)
Definition set_user (r c : bool) (s : Connector) : Connector :=
  mkConnector (state_ s) (connect_ s) r c (channel_ s) (retryDelayMs_ s) (initialRetryDelay_ s)
    (maxRetryDelayMs_ s) (connectTimeout_ s) (retryTimerId_ s) (connectTimeoutTimerId_ s) (requestGeneration_ s) (startedOnce_ s)
    (frames s) (timers s) (nextTimer s) (nextFd s) (closed s) (given s) (events s) (retries s) (abandoned s) (fault s).
Definition set_channel (c : option (nat * Z)) (s : Connector) : Connector :=
  mkConnector (state_ s) (connect_ s) (retryEnabled_ s) (newConnectionCallback_ s) c (retryDelayMs_ s) (initialRetryDelay_ s)
    (maxRetryDelayMs_ s) (connectTimeout_ s) (retryTimerId_ s) (connectTimeoutTimerId_ s) (requestGeneration_ s) (startedOnce_ s)
    (frames s) (timers s) (nextTimer s) (nextFd s) (closed s) (given s) (events s) (retries s) (abandoned s) (fault s).
(** [retryDelayMs_], [initialRetryDelay_], [maxRetryDelayMs_], and the retries counted *)
Definition set_delays (d i x : Z) (k : nat) (s : Connector) : Connector :=
  mkConnector (state_ s) (connect_ s) (retryEnabled_ s) (newConnectionCallback_ s) (channel_ s) d i
    x (connectTimeout_ s) (retryTimerId_ s) (connectTimeoutTimerId_ s) (requestGeneration_ s) (startedOnce_ s)
    (frames s) (timers s) (nextTimer s) (nextFd s) (closed s) (given s) (events s) k (abandoned s) (fault s).
(** [retryTimerId_], [connectTimeoutTimerId_], the timers of the loop *)
Definition set_timers (r c : option nat) (t : gmap nat LiveTimer) (n : nat) (s : Connector) : Connector :=
  mkConnector (state_ s) (connect_ s) (retryEnabled_ s) (newConnectionCallback_ s) (channel_ s) (retryDelayMs_ s) (initialRetryDelay_ s)
    (maxRetryDelayMs_ s) (connectTimeout_ s) r c (requestGeneration_ s) (startedOnce_ s)
    (frames s) t n (nextFd s) (closed s) (given s) (events s) (retries s) (abandoned s) (fault s).
Definition set_frames (fs : list Frame) (ev : list (ConnectorEvent * Z)) (s : Connector) : Connector :=
  mkConnector (state_ s) (connect_ s) (retryEnabled_ s) (newConnectionCallback_ s) (channel_ s) (retryDelayMs_ s) (initialRetryDelay_ s)
    (maxRetryDelayMs_ s) (connectTimeout_ s) (retryTimerId_ s) (connectTimeoutTimerId_ s) (requestGeneration_ s) (startedOnce_ s)
    fs (timers s) (nextTimer s) (nextFd s) (closed s) (given s) ev (retries s) (abandoned s) (fault s).
(** The descriptors made, closed and given away. *)
Definition set_fds (n : nat) (cl gv : list nat) (s : Connector) : Connector :=
  mkConnector (state_ s) (connect_ s) (retryEnabled_ s) (newConnectionCallback_ s) (channel_ s) (retryDelayMs_ s) (initialRetryDelay_ s)
    (maxRetryDelayMs_ s) (connectTimeout_ s) (retryTimerId_ s) (connectTimeoutTimerId_ s) (requestGeneration_ s) (startedOnce_ s)
    (frames s) (timers s) (nextTimer s) n cl gv (events s) (retries s) (abandoned s) (fault s).
Definition set_abandoned (b : option Z) (s : Connector) : Connector :=
  mkConnector (state_ s) (connect_ s) (retryEnabled_ s) (newConnectionCallback_ s) (channel_ s) (retryDelayMs_ s) (initialRetryDelay_ s)
    (maxRetryDelayMs_ s) (connectTimeout_ s) (retryTimerId_ s) (connectTimeoutTimerId_ s) (requestGeneration_ s) (startedOnce_ s)
    (frames s) (timers s) (nextTimer s) (nextFd s) (closed s) (given s) (events s) (retries s) b (fault s).
Definition set_fault (e : exn) (s : Connector) : Connector :=
  mkConnector (state_ s) (connect_ s) (retryEnabled_ s) (newConnectionCallback_ s) (channel_ s) (retryDelayMs_ s) (initialRetryDelay_ s)
    (maxRetryDelayMs_ s) (connectTimeout_ s) (retryTimerId_ s) (connectTimeoutTimerId_ s) (requestGeneration_ s) (startedOnce_ s)
    (frames s) (timers s) (nextTimer s) (nextFd s) (closed s) (given s) (events s) (retries s) (abandoned s) (Some e).

Definition Connector_new (o : ConnectorOptions) : result Connector :=
  match validate o with
  | Throw e => Throw e
  | Ok _ =>
      Ok (mkConnector kDisconnected false (enableRetry o) false None (initRetryDelay o) (initRetryDelay o) (maxRetryDelay o)
            (option_connectTimeout o) None None 0 false [] ∅ 0 0 [] [] [] 0 None None)
  end.

(** ** Pieces *)

(** The request is still the current one. *)
Definition live (g : Z) (s : Connector) : bool := (g =? requestGeneration_ s) && connect_ s.

(** [emitEvent], for an attempt of generation [g]: the observer is called. *)
Definition emitEvent (e : ConnectorEvent) (g : Z) (f : Frame) : M Connector unit :=
  modify (fun s => set_frames (f :: frames s) (events s ++ [(e, g)]) s).

Definition sockets_close (fd : nat) : M Connector unit := modify (fun s => set_fds (nextFd s) (closed s ++ [fd]) (given s) s).

(** [if (id.valid()) { loop_->cancel(id); id = {}; }] *)
Definition drop_timer (id : option nat) (t : gmap nat LiveTimer) : gmap nat LiveTimer :=
  match id with Some i => delete i t | None => t end.
Definition cancel_retry : M Connector unit :=
  modify (fun s => set_timers None (connectTimeoutTimerId_ s) (drop_timer (retryTimerId_ s) (timers s)) (nextTimer s) s).
Definition cancel_timeout : M Connector unit :=
  modify (fun s => set_timers (retryTimerId_ s) None (drop_timer (connectTimeoutTimerId_ s) (timers s)) (nextTimer s) s).

(** [removeAndReleaseChannel]: there must be a channel. *)
Definition removeAndReleaseChannel : M Connector nat :=
  do s <- get ;;
  match channel_ s with
  | None => throw undefined_behaviour
  | Some (fd, _) => run modify (set_channel None) ;; ret fd
  end.

(** [removeAndReleaseChannel] and [sockets::close] *)
Definition close_channel : M Connector unit := do fd <- removeAndReleaseChannel ;; sockets_close fd.

(** [assert] *)
Definition assert_that (b : bool) : M Connector unit := throw_if (negb b) log_fatal.

(** ** Connecting *)

(** [connect], up to its first event. *)
Definition connect (g : Z) : M Connector unit :=
  do s <- get ;;
  if live g s then emitEvent ConnectAttempt g (AfterAttempt g) else ret tt.

Definition startInLoop (g : Z) : M Connector unit :=
  do s <- get ;;
  if live g s then
    run assert_that (bool_decide (state_ s = kDisconnected)) ;;
    connect g
  else ret tt.

Definition connecting (fd : nat) (g : Z) : M Connector unit :=
  do s <- get ;;
  if live g s then
    run modify (set_state kConnecting) ;;
    run assert_that (bool_decide (channel_ s = None)) ;;
    run modify (set_channel (Some (fd, g))) ;;
    if 0 <? connectTimeout_ s then
      modify (fun s => set_timers (retryTimerId_ s) (Some (nextTimer s))
                         (<[nextTimer s := mkLive TimeoutTimer g (connectTimeout_ s)]> (timers s)) (S (nextTimer s)) s)
    else ret tt
  else sockets_close fd.

(** [retry], up to its event; [fd]: [None] is [kInvalidSocket]. *)
Definition retry (fd : option nat) (g : Z) : M Connector unit :=
  run match fd with Some fd => sockets_close fd | None => ret tt end ;;
  do s <- get ;;
  if negb (g =? requestGeneration_ s) then ret tt
  else
    run modify (set_state kDisconnected) ;;
    if connect_ s && retryEnabled_ s then emitEvent RetryScheduled g (AfterRetryScheduled g)
    else if connect_ s then emitEvent TerminalFailure g (AfterTerminal g)
    else ret tt.

(** [retry], after its event. *)
Definition schedule_retry (g : Z) : M Connector unit :=
  do s <- get ;;
  if negb (live g s) || negb (retryEnabled_ s) then modify (set_abandoned (if live g s then Some g else abandoned s))
  else
    run modify (fun s => set_timers (Some (nextTimer s)) (connectTimeoutTimerId_ s)
                           (<[nextTimer s := mkLive RetryTimer g (retryDelayMs_ s)]> (timers s)) (S (nextTimer s)) s) ;;
    do d <- lift (i64 (retryDelayMs_ s * 2)) ;;
    modify (fun s => set_delays (Z.min d (maxRetryDelayMs_ s)) (initialRetryDelay_ s) (maxRetryDelayMs_ s) (S (retries s)) s).

(** What the system answers to [socket] and [connect]: at once or in progress, an error
    that is retried, another error. *)
Inductive ConnectOutcome := InProgress | Retryable | NotRetryable.
Record System := mkSystem { socket_made : bool; connect_outcome : ConnectOutcome }.

(** [connect], after [ConnectAttempt]. *)
Definition connect_rest (y : System) (g : Z) : M Connector unit :=
  do s <- get ;;
  if negb (live g s) then ret tt
  else if negb (socket_made y) then emitEvent ConnectFailed g (AfterSetupFailed g)
  else
    let fd := nextFd s in
    run modify (fun s => set_fds (S fd) (closed s) (given s) s) ;;
    match connect_outcome y with
    | InProgress => connecting fd g
    | Retryable => emitEvent ConnectFailed g (AfterFailed fd g)
    | NotRetryable => emitEvent ConnectFailed g (AfterFatal fd g)
    end.

(** ** Requests *)

Definition start : M Connector unit :=
  run modify (fun s => set_request true (requestGeneration_ s) true s) ;;
  do s <- get ;;
  if bool_decide (state_ s = kConnected) then ret tt
  else
    run modify (fun s => set_request (connect_ s) (requestGeneration_ s ⊕ 1) (startedOnce_ s) s) ;;
    run (if bool_decide (state_ s = kConnecting) then
           run cancel_timeout ;;
           match channel_ s with
           | Some _ => run modify (set_state kDisconnected) ;; close_channel
           | None => ret tt
           end
         else ret tt) ;;
    startInLoop (requestGeneration_ s ⊕ 1).

Definition stopInLoop : M Connector unit :=
  run cancel_retry ;;
  run cancel_timeout ;;
  do s <- get ;;
  if bool_decide (state_ s = kConnecting) then run modify (set_state kDisconnected) ;; close_channel
  else if bool_decide (state_ s = kConnected) then modify (set_state kDisconnected)
  else ret tt.

Definition stop : M Connector unit :=
  run modify (fun s => set_request false (requestGeneration_ s ⊕ 1) (startedOnce_ s) s) ;;
  stopInLoop.

Definition restart : M Connector unit :=
  run cancel_retry ;;
  run cancel_timeout ;;
  run modify (fun s => set_delays (initialRetryDelay_ s) (initialRetryDelay_ s) (maxRetryDelayMs_ s) 0 s) ;;
  do s <- get ;;
  run (if bool_decide (state_ s = kConnected) then modify (set_state kDisconnected) else ret tt) ;;
  start.

Definition setRetryDelay (initial max : Z) : M Connector unit :=
  do s <- get ;;
  run throw_if (startedOnce_ s) logic_error ;;
  run lift (validate (mkConnectorOptions initial max (connectTimeout_ s) (retryEnabled_ s))) ;;
  modify (set_delays initial initial max 0).

Definition setRetryEnabled (b : bool) : M Connector unit := modify (fun s => set_user b (newConnectionCallback_ s) s).
Definition setNewConnectionCallback (b : bool) : M Connector unit := modify (fun s => set_user (retryEnabled_ s) b s).

(** ** Events of the loop *)

Inductive SockAddr := Addr4 (port ip : Z) | Addr6 (port ip : Z).

(** The addresses have the same family, port and host. *)
Definition selfConnect (here there : SockAddr) : bool :=
  match here, there with
  | Addr6 p a, Addr6 q b => (p =? q) && (a =? b)
  | Addr4 p a, Addr4 q b => (p =? q) && (a =? b)
  | _, _ => false
  end.

(** What the system says of a writable socket: [SO_ERROR], the addresses if they are
    found. *)
Record Answer := mkAnswer { socketError : Z; localAddr : option SockAddr; peerAddr : option SockAddr }.

Definition handleWrite (y : Answer) (g : Z) : M Connector unit :=
  do s <- get ;;
  if negb (bool_decide (state_ s = kConnecting)) then ret tt
  else if negb (live g s) then run close_channel ;; modify (set_state kDisconnected)
  else
    run cancel_timeout ;;
    do fd <- removeAndReleaseChannel ;;
    run modify (set_state kDisconnected) ;;
    if negb (socketError y =? 0) then emitEvent ConnectFailed g (AfterFailed fd g)
    else
      match localAddr y, peerAddr y with
      | Some here, Some there =>
          if selfConnect here there then emitEvent SelfConnectDetected g (AfterFailed fd g)
          else
            run modify (set_state kConnected) ;;
            emitEvent ConnectSuccess g (AfterSuccess fd g)
      | _, _ => emitEvent ConnectFailed g (AfterFailed fd g)
      end.

(** [settleCompletedAttempt] *)
Definition settleCompletedAttempt : M Connector unit :=
  modify (fun s => if bool_decide (state_ s = kConnected) then set_state kDisconnected s else s).

(** [handleWrite], after [ConnectSuccess]: the descriptor is handed over, or closed by
    its [Socket]. *)
Definition deliver (fd : nat) (g : Z) : M Connector unit :=
  do s <- get ;;
  if live g s && newConnectionCallback_ s then
    modify (fun s => set_frames (InNewConnection g :: frames s) (events s) (set_fds (nextFd s) (closed s) (given s ++ [fd]) s))
  else run settleCompletedAttempt ;; sockets_close fd.

Definition handleError (g : Z) : M Connector unit :=
  do s <- get ;;
  if negb (bool_decide (state_ s = kConnecting)) then ret tt
  else
    run cancel_timeout ;;
    do fd <- removeAndReleaseChannel ;;
    run modify (set_state kDisconnected) ;;
    emitEvent ConnectFailed g (AfterFailed fd g).

(** [handleConnectTimeout], up to its event. *)
Definition handleConnectTimeout (g : Z) : M Connector unit :=
  do s <- get ;;
  if negb (g =? requestGeneration_ s) then ret tt
  else
    run modify (fun s => set_timers (retryTimerId_ s) None (timers s) (nextTimer s) s) ;;
    if negb (bool_decide (state_ s = kConnecting)) then ret tt
    else emitEvent ConnectTimeout g (AfterTimeout g).

(** [handleConnectTimeout], after its event. *)
Definition timed_out (g : Z) : M Connector unit :=
  do s <- get ;;
  if negb (live g s) then ret tt
  else
    run close_channel ;;
    run modify (set_state kDisconnected) ;;
    retry None g.

(** The function a retry timer calls. *)
Definition retry_fired (g : Z) : M Connector unit :=
  do s <- get ;;
  if negb (live g s) then ret tt
  else
    run modify (fun s => set_timers None (connectTimeoutTimerId_ s) (timers s) (nextTimer s) s) ;;
    startInLoop g.

(** The connector continues after the callback of a frame; [threw]: it threw. *)
Definition continue (f : Frame) (threw : bool) (y : System) : M Connector unit :=
  match f with
  | AfterAttempt g => connect_rest y g
  | AfterSetupFailed g => retry None g
  | AfterFailed fd g => retry (Some fd) g
  | AfterFatal fd g =>
      run sockets_close fd ;;
      do s <- get ;;
      if live g s then emitEvent TerminalFailure g (AfterTerminal g) else ret tt
  | AfterTerminal _ => ret tt
  | AfterRetryScheduled g => schedule_retry g
  | AfterTimeout g => timed_out g
  | AfterSuccess fd g => deliver fd g
  | InNewConnection g =>
      do s <- get ;;
      if threw || negb (live g s) then settleCompletedAttempt else ret tt
  end.

(** ** The machine *)

Inductive Request := Start | Stop | Restart | SetRetryEnabled (b : bool) | SetCallback (b : bool) | SetRetryDelay (initial max : Z).

Definition perform (r : Request) : M Connector unit :=
  match r with
  | Start => start
  | Stop => stop
  | Restart => restart
  | SetRetryEnabled b => setRetryEnabled b
  | SetCallback b => setNewConnectionCallback b
  | SetRetryDelay i x => setRetryDelay i x
  end.

Inductive Label :=
  | LRequest (r : Request)                  (** user code, in a callback or not *)
  | LReturn (threw : bool) (y : System)     (** the innermost callback returns *)
  | LWritable (y : Answer)                  (** the loop, with no callback in progress *)
  | LError
  | LTimer (id : nat).

Definition settle (m : M Connector unit) (s : Connector) : Connector :=
  match m s with
  | (Throw undefined_behaviour, s') => set_fault undefined_behaviour s'
  | (Throw log_fatal, s') => set_fault log_fatal s'
  | (_, s') => s'
  end.

(** Delays are below 146 years, so that doubling one does not overflow. *)
Definition max_delay : Z := i64_max / 2.

(** The request counter does not wrap around. *)
Definition within (r : Request) (s : Connector) : bool :=
  match r with
  | Start | Stop | Restart => requestGeneration_ s <? usize_max
  | SetRetryDelay _ max => max <=? max_delay
  | _ => true
  end.

Definition step (l : Label) (s : Connector) : option Connector :=
  match l with
  | LRequest r => if within r s then Some (settle (perform r) s) else None
  | LReturn threw y =>
      match frames s with
      | f :: fs => Some (settle (continue f threw y) (set_frames fs (events s) s))
      | [] => None
      end
  | LWritable y =>
      match frames s, channel_ s with [], Some (_, g) => Some (settle (handleWrite y g) s) | _, _ => None end
  | LError =>
      match frames s, channel_ s with [], Some (_, g) => Some (settle (handleError g) s) | _, _ => None end
  | LTimer id =>
      match frames s, timers s !! id with
      | [], Some t =>
          let s' := set_timers (retryTimerId_ s) (connectTimeoutTimerId_ s) (delete id (timers s)) (nextTimer s) s in
          Some (settle match timer_kind t with
                       | RetryTimer => retry_fired (timer_generation t)
                       | TimeoutTimer => handleConnectTimeout (timer_generation t)
                       end s')
      | _, _ => None
      end
  end.

Fixpoint run_labels (ls : list Label) (s : Connector) : option Connector :=
  match ls with
  | [] => Some s
  | l :: ls => match step l s with Some s' => run_labels ls s' | None => None end
  end.

Inductive reachable (o : ConnectorOptions) : Connector -> Prop :=
  | reach_new s : Connector_new o = Ok s -> reachable o s
  | reach_step s l s' : reachable o s -> step l s = Some s' -> reachable o s'.

(** ** The invariant *)

Definition frame_gen (f : Frame) : Z :=
  match f with
  | AfterAttempt g | AfterSetupFailed g | AfterFailed _ g | AfterFatal _ g | AfterTerminal g | AfterRetryScheduled g
  | AfterTimeout g | AfterSuccess _ g | InNewConnection g => g
  end.

(** The descriptors a frame owns. *)
Definition frame_fds (f : Frame) : list nat :=
  match f with AfterFailed fd _ | AfterFatal fd _ | AfterSuccess fd _ => [fd] | _ => [] end.

(** The state in which the callback of a frame is called. *)
Definition frame_state (f : Frame) : StateE :=
  match f with AfterTimeout _ => kConnecting | AfterSuccess _ _ | InNewConnection _ => kConnected | _ => kDisconnected end.

Definition channel_fds (c : option (nat * Z)) : list nat := match c with Some (fd, _) => [fd] | None => [] end.

Definition held (s : Connector) : list nat := channel_fds (channel_ s) ++ (frames s ≫= frame_fds).

Definition older (g : Z) (s : Connector) : Prop := Forall (fun f => frame_gen f < g) (frames s).

(** A retry is due for the current request. *)
Definition retry_due (s : Connector) : Prop :=
  exists id t, timers s !! id = Some t /\ timer_kind t = RetryTimer /\ timer_generation t = requestGeneration_ s.

(** [X]: the descriptors the running code has in hand. *)
Record inv (X : list nat) (s : Connector) : Prop := {
  in_gen : 0 <= requestGeneration_ s <= usize_max;
  in_sorted : StronglySorted (fun f f' => frame_gen f' < frame_gen f) (frames s);
  in_frames : Forall (fun f => frame_gen f <= requestGeneration_ s) (frames s);
  in_channel : match state_ s with
               | kConnecting => connect_ s = true /\ exists fd, channel_ s = Some (fd, requestGeneration_ s)
               | _ => channel_ s = None
               end;
  in_top : forall f, f ∈ frames s -> frame_gen f = requestGeneration_ s -> connect_ s = true /\ state_ s = frame_state f;
  in_retry : forall id t, timers s !! id = Some t -> timer_kind t = RetryTimer ->
    timer_generation t <= requestGeneration_ s /\
    (timer_generation t = requestGeneration_ s ->
     connect_ s = true /\ state_ s = kDisconnected /\ older (requestGeneration_ s) s /\ retryTimerId_ s = Some id);
  in_timeout : forall id t, timers s !! id = Some t -> timer_kind t = TimeoutTimer ->
    timer_generation t = requestGeneration_ s /\ state_ s = kConnecting /\ connectTimeoutTimerId_ s = Some id;
  in_connected : state_ s = kConnected -> Forall (fun f => frame_gen f = requestGeneration_ s) (frames s);
  in_events : forall f, f ∈ frames s ->
    match f with
    | AfterTerminal g => (TerminalFailure, g) ∈ events s
    | AfterSuccess _ g | InNewConnection g => (ConnectSuccess, g) ∈ events s
    | _ => True
    end;
  in_timed : forall g, AfterTimeout g ∈ frames s -> g = requestGeneration_ s -> connectTimeoutTimerId_ s = None;
  in_ids : forall id, is_Some (timers s !! id) -> (id < nextTimer s)%nat;
  in_fds : closed s ++ given s ++ X ++ held s ≡ₚ seq 0 (nextFd s);
  in_delay : 0 < initialRetryDelay_ s <= maxRetryDelayMs_ s /\ maxRetryDelayMs_ s <= max_delay /\
    retryDelayMs_ s = Z.min (initialRetryDelay_ s * 2 ^ Z.of_nat (retries s)) (maxRetryDelayMs_ s);
  in_fault : fault s = None;
}.

(** The current request has been decided. *)
Definition decided (s : Connector) : Prop :=
  (TerminalFailure, requestGeneration_ s) ∈ events s \/ (ConnectSuccess, requestGeneration_ s) ∈ events s \/
  abandoned s = Some (requestGeneration_ s).

(** Something will come of the current request. *)
Definition attended (s : Connector) : Prop :=
  connect_ s = true -> state_ s <> kDisconnected \/ ~ older (requestGeneration_ s) s \/ retry_due s \/ decided s.

Definition connector_ok (s : Connector) : Prop := inv [] s /\ attended s.

(** Running code that is to go on with the current request. *)
Record idle (X : list nat) (s : Connector) : Prop := {
  id_inv : inv X s;
  id_connect : connect_ s = true;
  id_state : state_ s = kDisconnected;
  id_older : older (requestGeneration_ s) s;
  id_retry : ~ retry_due s;
}.

(** Running code of an earlier request. *)
Definition outdated (g : Z) (s : Connector) : Prop := g < requestGeneration_ s.

Definition ends (m : M Connector unit) (s : Connector) : Prop := exists s', m s = (Ok tt, s') /\ connector_ok s'.

Lemma ends_bind {A} (m : M Connector A) (k : A -> M Connector unit) s a s1 : m s = (Ok a, s1) -> ends (k a) s1 -> ends (bindM m k) s.
Proof. intros E (s' & E' & H). exists s'. by rewrite (bindM_ok _ _ _ _ _ E). Qed.

Lemma ends_assoc {A B} (m : M Connector A) (k : A -> M Connector B) h s :
  ends (bindM m (fun a => bindM (k a) h)) s -> ends (bindM (bindM m k) h) s.
Proof. intros (s' & E & H). exists s'. by rewrite bindM_assoc. Qed.

Lemma release_channel s fd g : channel_ s = Some (fd, g) -> removeAndReleaseChannel s = (Ok fd, set_channel None s).
Proof. intros E. unfold removeAndReleaseChannel, bindM, get. by rewrite E. Qed.

Lemma close_channel_eq s fd g : channel_ s = Some (fd, g) ->
  close_channel s = (Ok tt, set_fds (nextFd s) (closed s ++ [fd]) (given s) (set_channel None s)).
Proof. intros E. unfold close_channel. by rewrite (bindM_ok _ _ _ _ _ (release_channel s fd g E)). Qed.

Lemma ends_ret s : connector_ok s -> ends (ret tt) s.
Proof. intros H. by exists s. Qed.

Lemma older_weaken g g' s : older g s -> g <= g' -> older g' s.
Proof. intros H Hg. eapply Forall_impl; [exact H|]. simpl. lia. Qed.

Lemma live_test g s : live g s = true <-> g = requestGeneration_ s /\ connect_ s = true.
Proof. unfold live. by rewrite andb_true_iff, Z.eqb_eq. Qed.

Lemma close_ok X fd s : inv (fd :: X) s -> inv X (set_fds (nextFd s) (closed s ++ [fd]) (given s) s).
Proof.
  intros []. split; try done. unfold held in *. cbn. rewrite <-in_fds0. rewrite <-!app_assoc. apply Permutation_app_head. simpl.
  by rewrite Permutation_middle.
Qed.

Lemma close_idle X fd s : idle (fd :: X) s -> idle X (set_fds (nextFd s) (closed s ++ [fd]) (given s) s).
Proof. intros []. split; try done. by apply close_ok. Qed.

(** What the frame of an event remembers of it. *)
Definition frame_event (f : Frame) (e : ConnectorEvent) : Prop :=
  match f with AfterTerminal _ => e = TerminalFailure | AfterSuccess _ _ => e = ConnectSuccess | InNewConnection _ => False | _ => True end.

Definition push_frame (e : ConnectorEvent) (f : Frame) (s : Connector) : Connector :=
  set_frames (f :: frames s) (events s ++ [(e, requestGeneration_ s)]) s.

(** The observer of an event is called. *)
Lemma push_frame_ok e f s : inv (frame_fds f) s -> connect_ s = true -> state_ s = frame_state f -> older (requestGeneration_ s) s -> ~ retry_due s ->
  frame_gen f = requestGeneration_ s -> frame_event f e -> (frame_state f = kConnecting -> connectTimeoutTimerId_ s = None) ->
  connector_ok (push_frame e f s).
Proof.
  intros [] Hc Hs Ho Hr Hg He Ht. split.
  - split; cbn; try done.
    + constructor; [done|]. eapply Forall_impl; [exact Ho|]. simpl. lia.
    + constructor; [lia|done].
    + intros f' [->|Hin]%elem_of_cons; [done|]. intros E. by apply in_top0.
    + intros id t Hti Hk. destruct (in_retry0 id t Hti Hk) as [Hle H]. split; [done|]. intros E. exfalso. apply Hr. by exists id, t.
    + intros E. constructor; [done|]. apply in_connected0. congruence.
    + intros f' [->|Hin]%elem_of_cons.
      * destruct f; try done; cbn in Hg, He; subst; apply elem_of_app; right; by apply list_elem_of_singleton.
      * specialize (in_events0 f' Hin). destruct f'; try done; apply elem_of_app; by left.
    + intros g [<-|Hin]%elem_of_cons E; [by apply Ht|by apply (in_timed0 g)].
    + unfold held in *. cbn. rewrite <-in_fds0. do 2 apply Permutation_app_head. rewrite !(assoc_L (++)). apply Permutation_app_tail, Permutation_app_comm.
  - intros _. right. left. intros H. cbn in H. apply Forall_cons in H as [H _]. cbn in H. lia.
Qed.

Lemma emit_ok e f s : idle (frame_fds f) s -> frame_gen f = requestGeneration_ s -> frame_state f = kDisconnected -> frame_event f e ->
  ends (emitEvent e (requestGeneration_ s) f) s.
Proof.
  intros [H Hc Hs Ho Hr] Hg Hf He. eexists. split; [reflexivity|]. apply push_frame_ok; try done; congruence.
Qed.

(** *** Timers *)

Definition cancelled_timeout (s : Connector) : Connector :=
  set_timers (retryTimerId_ s) None (drop_timer (connectTimeoutTimerId_ s) (timers s)) (nextTimer s) s.
Definition cancelled_retry (s : Connector) : Connector :=
  set_timers None (connectTimeoutTimerId_ s) (drop_timer (retryTimerId_ s) (timers s)) (nextTimer s) s.

Definition no_timeout (s : Connector) : Prop := forall id t, timers s !! id = Some t -> timer_kind t = TimeoutTimer -> False.

Lemma drop_timer_some id t x y : drop_timer id t !! x = Some y -> t !! x = Some y /\ id <> Some x.
Proof.
  destruct id as [i|]; simpl; [|done]. intros H. apply lookup_delete_Some in H as [Hne H]. split; [done|]. congruence.
Qed.

(** Fewer timers. *)
Lemma fewer_ok X s r c t : inv X s ->
  (forall id x, t !! id = Some x -> timers s !! id = Some x /\
     match timer_kind x with RetryTimer => r = retryTimerId_ s | TimeoutTimer => c = connectTimeoutTimerId_ s end) ->
  (connectTimeoutTimerId_ s = None -> c = None) -> inv X (set_timers r c t (nextTimer s) s).
Proof.
  intros [] Ht Hc. split; cbn; try done.
  - intros id x Hx Hk. destruct (Ht id x Hx) as [Hx' E]. rewrite Hk in E. rewrite E. by apply in_retry0.
  - intros id x Hx Hk. destruct (Ht id x Hx) as [Hx' E]. rewrite Hk in E. rewrite E. by apply in_timeout0.
  - intros g Hg E. by apply Hc, (in_timed0 g).
  - intros id [x Hx]. apply in_ids0. exists x. by apply Ht.
Qed.

Lemma cancel_timeout_ok X s : inv X s -> inv X (cancelled_timeout s) /\ no_timeout (cancelled_timeout s).
Proof.
  intros H. assert (no_timeout (cancelled_timeout s)) as Hn.
  { intros id t Ht Hk. apply drop_timer_some in Ht as [Ht Hne]. by destruct (in_timeout X s H id t Ht Hk) as (_ & _ & ?). }
  split; [|done]. apply fewer_ok; [done| |done]. intros id t Ht. split; [by apply drop_timer_some in Ht as [? _]|].
  destruct (timer_kind t) eqn:E; [done|]. by destruct (Hn id t).
Qed.

Lemma cancel_retry_ok X s : inv X s -> inv X (cancelled_retry s) /\ ~ retry_due (cancelled_retry s).
Proof.
  intros H. assert (forall id t, timers (cancelled_retry s) !! id = Some t -> timer_kind t = RetryTimer -> timer_generation t <> requestGeneration_ s) as Hn.
  { intros id t Ht Hk E. apply drop_timer_some in Ht as [Ht Hne]. destruct (in_retry X s H id t Ht Hk) as [_ H']. by destruct (H' E) as (_ & _ & _ & ?). }
  split; [|by intros (id & t & Ht & Hk & E); apply (Hn id t)].
  destruct H. split; cbn; try done.
  - intros id t Ht Hk. apply drop_timer_some in Ht as Ht'. destruct (in_retry0 id t (proj1 Ht') Hk) as [Hle _]. split; [done|].
    intros E. by destruct (Hn id t Ht Hk).
  - intros id t [Ht _]%drop_timer_some. by apply in_timeout0.
  - intros id [t [Ht _]%drop_timer_some]. apply in_ids0. by exists t.
Qed.

(** *** Attempts end *)

Lemma not_connecting_no_timeout X s : inv X s -> state_ s <> kConnecting -> no_timeout s.
Proof. intros H Hs id t Ht Hk. by destruct (in_timeout X s H id t Ht Hk) as (_ & ? & _). Qed.

(** The connector lets go of its attempt, for the same request or for the next. *)
Definition let_go (c : bool) (g : Z) (b : bool) (s : Connector) : Connector :=
  set_request c g b (set_state kDisconnected (set_channel None s)).

Definition next_or_same (c : bool) (g : Z) (s : Connector) : Prop :=
  g = requestGeneration_ s + 1 /\ g <= usize_max \/
  g = requestGeneration_ s /\ c = connect_ s /\ older g s /\ ~ retry_due s.

Lemma let_go_ok X s c g b : inv X s -> no_timeout s -> next_or_same c g s ->
  inv (channel_fds (channel_ s) ++ X) (let_go c g b s) /\ older g (let_go c g b s) /\ ~ retry_due (let_go c g b s).
Proof.
  intros H Hn Hg. pose proof H as [].
  assert (older g s) as Ho.
  { destruct Hg as [[-> _]|(-> & _ & ? & _)]; [|done]. eapply Forall_impl; [exact in_frames0|]. simpl. lia. }
  assert (forall id t, timers s !! id = Some t -> timer_kind t = RetryTimer -> timer_generation t < g) as Hr.
  { intros id t Ht Hk. destruct (in_retry0 id t Ht Hk) as [Hle _]. destruct Hg as [[-> _]|(-> & _ & _ & Hnr)]; [lia|].
    destruct (decide (timer_generation t = requestGeneration_ s)) as [E|]; [|lia]. destruct Hnr. by exists id, t. }
  split; [|split; [done|intros (id & t & Ht & Hk & E); specialize (Hr id t Ht Hk); cbn in E; lia]].
  split; cbn; try done.
  - destruct Hg as [[-> ?]|(-> & _)]; lia.
  - eapply Forall_impl; [exact Ho|]. simpl. lia.
  - intros f Hf E. unfold older in Ho. rewrite Forall_forall in Ho. specialize (Ho f Hf). lia.
  - intros id t Ht Hk. specialize (Hr id t Ht Hk). split; [lia|]. lia.
  - intros id t Ht Hk. by destruct (Hn id t).
  - intros g' Hf E. unfold older in Ho. rewrite Forall_forall in Ho. specialize (Ho _ Hf). cbn in Ho. lia.
  - unfold held in *. cbn. rewrite <-in_fds0. do 2 apply Permutation_app_head. rewrite !(assoc_L (++)). by rewrite (Permutation_app_comm _ X).
Qed.

(** ... and goes on with it. *)
Lemma let_go_idle X s g b : inv X s -> no_timeout s -> next_or_same true g s -> idle (channel_fds (channel_ s) ++ X) (let_go true g b s).
Proof. intros H Hn Hg. by destruct (let_go_ok X s true g b H Hn Hg) as (? & ? & ?). Qed.

Lemma start_in_loop_ok s : idle [] s -> ends (startInLoop (requestGeneration_ s)) s.
Proof.
  intros H. pose proof H as [_ Hc Hs _ _]. unfold startInLoop. apply (ends_bind _ _ _ s s); [done|].
  assert (live (requestGeneration_ s) s = true) as El by by apply live_test. rewrite El. apply (ends_bind _ _ _ tt s).
  - unfold assert_that. rewrite Hs. by rewrite bool_decide_eq_true_2.
  - unfold connect. apply (ends_bind _ _ _ s s); [done|]. rewrite El. by apply emit_ok.
Qed.

(** A closed channel: what [let_go] left in hand is closed. *)
Lemma close_held s X (c : option (nat * Z)) : idle (channel_fds c ++ X) s ->
  idle X (match c with Some (fd, _) => set_fds (nextFd s) (closed s ++ [fd]) (given s) s | None => s end).
Proof. destruct c as [[fd g]|]; [|done]. apply close_idle. Qed.

Lemma start_ok s : inv [] s -> requestGeneration_ s < usize_max -> ends start s.
Proof.
  intros H Hg. pose proof (in_gen _ _ H) as Hg0. pose proof (in_channel _ _ H) as Hch.
  unfold start. eapply ends_bind; [reflexivity|]. eapply ends_bind; [reflexivity|]. cbn.
  assert (forall s', requestGeneration_ s' = requestGeneration_ s -> next_or_same true (requestGeneration_ s + 1) s') as Hns by (intros s' E; left; lia).
  destruct (state_ s) eqn:Es.
  - do 2 (eapply ends_bind; [reflexivity|]). cbn. rewrite uwrap_small by lia.
    pose proof (let_go_idle [] s _ true H (not_connecting_no_timeout _ _ H ltac:(congruence)) (Hns _ eq_refl)) as Hi. rewrite Hch in Hi. clear Hns.
    destruct s; cbn in *; subst; exact (start_in_loop_ok _ Hi).
  - destruct Hch as [Hc [fd Hch]]. rewrite Hch. eapply ends_bind; [reflexivity|].
    apply ends_assoc. eapply ends_bind; [reflexivity|]. apply ends_assoc. eapply ends_bind; [reflexivity|].
    eapply ends_bind; [by eapply close_channel_eq|].
    cbn. rewrite uwrap_small by lia. destruct (cancel_timeout_ok _ _ H) as [H' Hn].
    pose proof (let_go_idle [] _ (requestGeneration_ s + 1) true H' Hn (Hns (cancelled_timeout s) eq_refl)) as Hi. cbn in Hi. rewrite Hch in Hi.
    apply close_idle in Hi. exact (start_in_loop_ok _ Hi).
  - exists (set_request true (requestGeneration_ s) true s). split; [done|]. split.
    + destruct H. split; cbn; try done; rewrite ?Es in *; try done.
      * intros f Hf E. by destruct (in_top0 f Hf E).
      * intros id t Ht Hk. destruct (in_retry0 id t Ht Hk) as [Hle H']. split; [done|]. intros E. by destruct (H' E) as (_ & ? & _).
    + intros _. left. cbn. congruence.
Qed.

Lemma stop_ok s : inv [] s -> requestGeneration_ s < usize_max -> ends stop s.
Proof.
  intros H Hg. pose proof (in_gen _ _ H) as Hg0. pose proof (in_channel _ _ H) as Hch.
  assert (next_or_same false (requestGeneration_ s + 1) (cancelled_timeout (cancelled_retry s))) as Hns by (left; cbn; lia).
  destruct (cancel_retry_ok _ _ H) as [H1 _]. destruct (cancel_timeout_ok _ _ H1) as [H2 Hn].
  destruct (let_go_ok [] _ false _ (startedOnce_ s) H2 Hn Hns) as (H3 & _ & _).
  unfold stop. eapply ends_bind; [reflexivity|]. unfold stopInLoop. do 3 (eapply ends_bind; [reflexivity|]). cbn. rewrite uwrap_small by lia.
  destruct (state_ s) eqn:Es; cbn in H3.
  - rewrite Hch in H3. eexists. split; [reflexivity|]. split; [|done]. destruct s; cbn in *; subst; exact H3.
  - destruct Hch as [Hc [fd Hch]]. rewrite Hch in H3. apply close_ok in H3.
    eapply ends_bind; [reflexivity|]. eexists. split; [by eapply close_channel_eq|]. by split.
  - rewrite Hch in H3. eexists. split; [reflexivity|]. split; [|done]. destruct s; cbn in *; subst; exact H3.
Qed.

(** The delay is set again. *)
Lemma delays_ok X s i x : inv X s -> 0 < i <= x -> x <= max_delay -> inv X (set_delays i i x 0 s).
Proof. intros [] Hi Hx. split; cbn; try done. split_and!; try lia. Qed.

Lemma restart_ok s : inv [] s -> requestGeneration_ s < usize_max -> ends restart s.
Proof.
  intros H Hg. destruct (cancel_retry_ok _ _ H) as [H1 _]. destruct (cancel_timeout_ok _ _ H1) as [H2 _].
  pose proof (in_delay _ _ H) as (Hi & Hx & _). pose proof (delays_ok _ _ _ _ H2 Hi Hx) as H3.
  unfold restart. do 4 (eapply ends_bind; [reflexivity|]). cbn [state_ set_delays set_timers].
  destruct (bool_decide (state_ s = kConnected)) eqn:Es; [|eapply ends_bind; [reflexivity|]; by apply (start_ok _ H3)].
  apply bool_decide_eq_true in Es. pose proof (in_gen _ _ H) as Hg0. pose proof (in_channel _ _ H) as Hch. rewrite Es in Hch.
  pose proof (not_connecting_no_timeout _ _ H3) as Hn. cbn in Hn. specialize (Hn ltac:(congruence)).
  pose proof (let_go_idle [] _ (requestGeneration_ s + 1) true H3 Hn) as Hid. cbn in Hid. rewrite Hch in Hid.
  specialize (Hid ltac:(left; cbn; lia)). unfold start. do 5 (eapply ends_bind; [reflexivity|]). cbn. rewrite uwrap_small by lia.
  destruct s; cbn in *; subst; exact (start_in_loop_ok _ Hid).
Qed.

(** Requests that only set something. *)
Lemma user_ok s r c : connector_ok s -> connector_ok (set_user r c s).
Proof. intros [[] Hat]. by split. Qed.

Lemma set_delay_ok s i x : connector_ok s -> x <= max_delay ->
  exists r s', setRetryDelay i x s = (r, s') /\ connector_ok s' /\ (r = Ok tt \/ r = Throw logic_error \/ r = Throw invalid_argument).
Proof.
  intros Hok Hx. pose proof Hok as [H Hat]. unfold setRetryDelay, bindM, get. destruct (startedOnce_ s); [exists (Throw logic_error), s; by auto|]. cbn.
  unfold validate. cbn. destruct (i <=? 0) eqn:E1; [exists (Throw invalid_argument), s; by auto|].
  destruct (x <? i) eqn:E2; [exists (Throw invalid_argument), s; by auto|]. destruct (_ <? 0); [exists (Throw invalid_argument), s; by auto|].
  zify_bools. eexists (Ok tt), _. split; [reflexivity|]. split; [|by left]. split; [by apply delays_ok; [|lia|]|exact Hat].
Qed.

Lemma settle_ends m s : ends m s -> connector_ok (settle m s).
Proof. intros (s' & E & H). unfold settle. by rewrite E. Qed.

Lemma perform_request r s : connector_ok s -> within r s = true -> connector_ok (settle (perform r) s).
Proof.
  intros H Hw. destruct r as [| | |b|b|i x]; cbn [perform within] in *; zify_bools.
  - apply settle_ends, start_ok; [apply H|done].
  - apply settle_ends, stop_ok; [apply H|done].
  - apply settle_ends, restart_ok; [apply H|done].
  - by apply user_ok.
  - by apply user_ok.
  - destruct (set_delay_ok s i x H) as (r & s' & E & H' & Hr); [done|]. unfold settle. rewrite E. by destruct Hr as [-> |[-> | ->]].
Qed.

(** *** Callbacks return *)

Definition popped (fs : list Frame) (s : Connector) : Connector := set_frames fs (events s) s.

Lemma pop_ok f fs s : inv [] s -> frames s = f :: fs ->
  inv (frame_fds f) (popped fs s) /\ older (frame_gen f) (popped fs s) /\ frame_gen f <= requestGeneration_ s /\
  (frame_gen f = requestGeneration_ s -> connect_ s = true /\ state_ s = frame_state f /\ ~ retry_due s).
Proof.
  intros H E. pose proof H as []. rewrite E in *. apply StronglySorted_inv in in_sorted0 as [Hs Ho]. apply Forall_cons in in_frames0 as [Hf Hfs].
  split; [|split_and!; [done|done|]].
  - split; cbn; try done.
    + intros f' Hf'. apply in_top0. by right.
    + intros id t Ht Hk. destruct (in_retry0 id t Ht Hk) as [Hle H']. split; [done|]. intros E'. destruct (H' E') as (? & ? & Ho' & ?).
      split_and!; try done. unfold older in Ho'. rewrite E in Ho'. by apply Forall_cons in Ho' as [_ ?].
    + intros Ec. by apply in_connected0, Forall_cons in Ec as [_ ?].
    + intros f' Hf'. apply in_events0. by right.
    + intros g Hg. apply in_timed0. by right.
    + unfold held in *. rewrite E in in_fds0. cbn in *. rewrite <-in_fds0. do 2 apply Permutation_app_head. rewrite !(assoc_L (++)).
      apply Permutation_app_tail, Permutation_app_comm.
  - intros Eg. destruct (in_top0 f) as [? ?]; [left|done|]. split_and!; try done.
    intros (id & t & Ht & Hk & E'). destruct (in_retry0 id t Ht Hk) as [_ H']. destruct (H' E') as (_ & _ & Ho' & _).
    unfold older in Ho'. rewrite E in Ho'. apply Forall_cons in Ho' as [? _]. lia.
Qed.

Lemma pop_idle f fs s : inv [] s -> frames s = f :: fs -> frame_gen f = requestGeneration_ s -> frame_state f = kDisconnected ->
  idle (frame_fds f) (popped fs s).
Proof.
  intros H E Eg Es. destruct (pop_ok f fs s H E) as (H1 & Ho & _ & H2). destruct (H2 Eg) as (? & ? & ?). split; cbn; try done; [congruence|].
  rewrite <-Eg. exact Ho.
Qed.

(** A request that is not current any more leaves everything but its descriptors alone. *)
Lemma pop_outdated f fs s : connector_ok s -> frames s = f :: fs -> frame_gen f <> requestGeneration_ s ->
  inv (frame_fds f) (popped fs s) /\ attended (popped fs s) /\ live (frame_gen f) (popped fs s) = false.
Proof.
  intros [H Hat] E Eg. destruct (pop_ok f fs s H E) as (H1 & Ho & Hle & _). split_and!; [done| |unfold live; cbn; by rewrite (proj2 (Z.eqb_neq _ _) Eg)].
  intros Hc. destruct (Hat Hc) as [?|[Hno|[?|?]]]; auto. right. left. intros Ho'. apply Hno. unfold older. rewrite E. constructor; [lia|done].
Qed.

Lemma connecting_ok fd s : idle [fd] s -> ends (connecting fd (requestGeneration_ s)) s.
Proof.
  intros [H Hc Hs Ho Hr]. pose proof (in_channel _ _ H) as Hch. rewrite Hs in Hch. pose proof (not_connecting_no_timeout _ _ H ltac:(congruence)) as Hn.
  unfold connecting. apply (ends_bind _ _ _ s s); [done|]. assert (live (requestGeneration_ s) s = true) as El by by apply live_test. rewrite El.
  eapply ends_bind; [reflexivity|]. eapply ends_bind; [by rewrite Hch|]. eapply ends_bind; [reflexivity|].
  assert (forall r c t n,
    (forall id x, t !! id = Some x -> timers s !! id = Some x /\ r = retryTimerId_ s \/ x = mkLive TimeoutTimer (requestGeneration_ s) (connectTimeout_ s) /\ c = Some id) ->
    (forall id, is_Some (t !! id) -> (id < n)%nat) ->
    connector_ok (set_timers r c t n (set_channel (Some (fd, requestGeneration_ s)) (set_state kConnecting s)))) as Hgen.
  { intros r c t n Ht Hids. destruct H. split; [|by intros _; left]. split; cbn; try done.
    - split; [done|]. by exists fd.
    - intros f Hf E. unfold older in Ho. rewrite Forall_forall in Ho. specialize (Ho f Hf). lia.
    - intros id x Hx Hk. destruct (Ht id x Hx) as [[Hx' _]|[-> _]]; [|done]. destruct (in_retry0 id x Hx' Hk) as [Hle _]. split; [done|].
      intros E. destruct Hr. by exists id, x.
    - intros id x Hx Hk. destruct (Ht id x Hx) as [[Hx' _]|[-> ->]]; [by destruct (Hn id x)|done].
    - intros g Hg E. unfold older in Ho. rewrite Forall_forall in Ho. specialize (Ho _ Hg). cbn in Ho. lia.
    - unfold held in *. cbn. rewrite Hch in in_fds0. exact in_fds0. }
  destruct (0 <? connectTimeout_ s); eexists; (split; [reflexivity|]).
  - cbn. apply Hgen.
    + intros id x Hx. apply lookup_insert_Some in Hx as [[<- <-]|[_ Hx]]; [by right|by left].
    + intros id Hid. apply lookup_insert_is_Some' in Hid as [->|Hid]; [lia|]. pose proof (in_ids _ _ H id Hid). lia.
  - cbn. apply (Hgen (retryTimerId_ s) (connectTimeoutTimerId_ s) (timers s) (nextTimer s)); [by left|apply H].
Qed.

Lemma retry_ok fd s : idle (from_option (fun x => [x]) [] fd) s -> ends (retry fd (requestGeneration_ s)) s.
Proof.
  intros H. unfold retry. set (s1 := match fd with Some fd => set_fds (nextFd s) (closed s ++ [fd]) (given s) s | None => s end).
  assert (idle [] s1) as H1 by (destruct fd; [by apply close_idle|done]).
  assert (requestGeneration_ s1 = requestGeneration_ s) as Eg by by destruct fd. rewrite <-Eg.
  apply (ends_bind _ _ _ tt s1); [by destruct fd|]. apply (ends_bind _ _ _ s1 s1); [done|]. rewrite Z.eqb_refl. cbn [negb].
  apply (ends_bind _ _ _ tt s1). { pose proof (id_state _ _ H1) as Es. unfold modify. do 2 f_equal. destruct s1; cbn in *; by subst. }
  rewrite (id_connect _ _ H1). destruct (retryEnabled_ s1); cbn [andb]; by apply emit_ok.
Qed.

Lemma retry_outdated fd g s : inv (from_option (fun x => [x]) [] fd) s -> attended s -> g <> requestGeneration_ s -> ends (retry fd g) s.
Proof.
  intros H Hat Hg. unfold retry. set (s1 := match fd with Some fd => set_fds (nextFd s) (closed s ++ [fd]) (given s) s | None => s end).
  apply (ends_bind _ _ _ tt s1); [by destruct fd|]. apply (ends_bind _ _ _ s1 s1); [done|].
  replace (g =? requestGeneration_ s1) with false by (destruct fd; symmetry; by apply Z.eqb_neq). apply ends_ret.
  destruct fd; [split; [by apply close_ok|done]|done].
Qed.

Lemma i64_double X s : inv X s -> i64 (retryDelayMs_ s * 2) = Ok (retryDelayMs_ s * 2).
Proof.
  intros H. destruct (in_delay _ _ H) as (Hi & Hx & E). apply i64_ok. unfold max_delay in Hx.
  assert (0 < 2 ^ Z.of_nat (retries s)) by (apply Z.pow_pos_nonneg; lia). pose proof (Z.mul_div_le i64_max 2). split; [|lia].
  assert (0 <= retryDelayMs_ s) by (rewrite E; apply Z.min_glb; nia). lia.
Qed.

(** Doubling keeps the delay at the power of two capped by the maximum. *)
Lemma double_delay i x k : 0 < i <= x -> Z.min (Z.min (i * 2 ^ Z.of_nat k) x * 2) x = Z.min (i * 2 ^ Z.of_nat (S k)) x.
Proof.
  intros Hi. rewrite Nat2Z.inj_succ, Z.pow_succ_r by lia. assert (0 < 2 ^ Z.of_nat k) by (apply Z.pow_pos_nonneg; lia). nia.
Qed.

Lemma schedule_retry_ok s : idle [] s -> ends (schedule_retry (requestGeneration_ s)) s.
Proof.
  intros [H Hc Hs Ho Hr]. unfold schedule_retry. apply (ends_bind _ _ _ s s); [done|].
  assert (live (requestGeneration_ s) s = true) as El by by apply live_test. rewrite El. destruct (retryEnabled_ s); cbn [negb orb].
  2:{ eexists. split; [reflexivity|]. destruct H. split; [by split|]. intros _. do 3 right. right. by right. }
  eapply ends_bind; [reflexivity|]. eapply ends_bind; [unfold lift; by rewrite (i64_double [] s H)|].
  eexists. split; [reflexivity|]. pose proof H as []. split.
  - split; cbn; try done.
    + intros id t Ht Hk. apply lookup_insert_Some in Ht as [[<- <-]|[Hne Ht]]; [done|]. destruct (in_retry0 id t Ht Hk) as [Hle _]. split; [done|].
      intros E. destruct Hr. by exists id, t.
    + intros id t Ht Hk. apply lookup_insert_Some in Ht as [[_ <-]|[_ Ht]]; [done|]. by apply in_timeout0.
    + intros id Hid. apply lookup_insert_is_Some' in Hid as [->|Hid]; [lia|]. specialize (in_ids0 id Hid). lia.
    + destruct in_delay0 as (Hi & Hx & E). split; [exact Hi|split; [exact Hx|]]. pose proof (double_delay _ _ (retries s) Hi) as Hd. rewrite <-E in Hd. exact Hd.
  - intros _. right. right. left. exists (nextTimer s), (mkLive RetryTimer (requestGeneration_ s) (retryDelayMs_ s)). cbn. by rewrite lookup_insert_eq.
Qed.

Lemma connect_rest_ok y s : idle [] s -> ends (connect_rest y (requestGeneration_ s)) s.
Proof.
  intros H. pose proof H as [Hi Hc Hs Ho Hr]. unfold connect_rest. apply (ends_bind _ _ _ s s); [done|].
  assert (live (requestGeneration_ s) s = true) as El by by apply live_test. rewrite El. cbn [negb].
  destruct (socket_made y); [|by apply emit_ok]. cbn [negb]. eapply ends_bind; [reflexivity|].
  assert (idle [nextFd s] (set_fds (S (nextFd s)) (closed s) (given s) s)) as H1.
  { split; try done. destruct Hi. split; try done. unfold held in *. cbn [closed given nextFd set_fds channel_ frames].
    rewrite seq_S, <-in_fds0, <-!app_assoc. cbn [app Nat.add]. do 2 apply Permutation_app_head. rewrite ?app_assoc. apply Permutation_cons_append. }
  destruct (connect_outcome y); [exact (connecting_ok _ _ H1)|exact (emit_ok _ (AfterFailed _ _) _ H1 eq_refl eq_refl I)|exact (emit_ok _ (AfterFatal _ _) _ H1 eq_refl eq_refl I)].
Qed.

(** The connector lets its connecting channel go, for the same request. *)
Lemma drop_channel X s fd g : inv X s -> state_ s = kConnecting -> channel_ s = Some (fd, g) -> no_timeout s -> older (requestGeneration_ s) s ->
  idle (fd :: X) (set_state kDisconnected (set_channel None s)).
Proof.
  intros H Hs Hc Hn Ho. pose proof (in_channel _ _ H) as Hch. rewrite Hs in Hch. destruct Hch as [Hcon _].
  assert (~ retry_due s) as Hr.
  { intros (id & t & Ht & Hk & E). destruct (in_retry X s H id t Ht Hk) as [_ H']. destruct (H' E) as (_ & E' & _). congruence. }
  pose proof (let_go_idle X s (requestGeneration_ s) (startedOnce_ s) H Hn) as Hi. rewrite Hc in Hi.
  specialize (Hi ltac:(right; by split_and!)). clear H Hn Ho Hr. destruct s; cbn in *; subst. exact Hi.
Qed.

Lemma timed_out_ok fs s : inv [] s -> frames s = AfterTimeout (requestGeneration_ s) :: fs ->
  ends (timed_out (requestGeneration_ s)) (popped fs s).
Proof.
  intros H E. destruct (pop_ok _ fs s H E) as (H1 & Ho & _ & H2). destruct (H2 eq_refl) as (Hc & Hs & Hr). cbn in Hs.
  pose proof (in_channel _ _ H) as Hch. rewrite Hs in Hch. destruct Hch as [_ [fd Hch]].
  assert (no_timeout (popped fs s)) as Hn.
  { intros id t Ht Hk. destruct (in_timeout _ _ H id t Ht Hk) as (_ & _ & Eid). rewrite (in_timed _ _ H (requestGeneration_ s)) in Eid; [done|rewrite E; left|done]. }
  pose proof (drop_channel [] (popped fs s) fd _ H1 Hs Hch Hn Ho) as Hi. apply close_idle in Hi.
  unfold timed_out. apply (ends_bind _ _ _ (popped fs s) (popped fs s)); [done|].
  assert (live (requestGeneration_ s) (popped fs s) = true) as El by by apply live_test. rewrite El. cbn [negb].
  eapply ends_bind; [by eapply close_channel_eq|]. eapply ends_bind; [reflexivity|]. exact (retry_ok None _ Hi).
Qed.

(** An attempt is over: the state of the current request is settled. *)
Lemma settle_live X s : inv X s -> state_ s = kConnected -> older (requestGeneration_ s) s ->
  settleCompletedAttempt s = (Ok tt, set_state kDisconnected s) /\ inv X (set_state kDisconnected s).
Proof.
  intros [] E Ho. unfold settleCompletedAttempt, modify. rewrite bool_decide_eq_true_2 by done. split; [done|]. rewrite E in in_channel0.
  split; cbn; try done.
  - intros f Hf Eg. unfold older in Ho. rewrite Forall_forall in Ho. specialize (Ho f Hf). lia.
  - intros id t Ht Hk. destruct (in_retry0 id t Ht Hk) as [Hle H']. split; [done|]. intros Eg. destruct (H' Eg) as (_ & E' & _). congruence.
  - intros id t Ht Hk. destruct (in_timeout0 id t Ht Hk) as (_ & E' & _). congruence.
Qed.

Lemma settle_outdated s : state_ s <> kConnected -> settleCompletedAttempt s = (Ok tt, s).
Proof. intros E. unfold settleCompletedAttempt, modify. by rewrite bool_decide_eq_false_2. Qed.

Lemma outdated_not_connected f fs s : inv [] s -> frames s = f :: fs -> frame_gen f <> requestGeneration_ s -> state_ s <> kConnected.
Proof. intros H E Hg Es. pose proof (in_connected _ _ H Es) as Hf. rewrite E in Hf. by apply Forall_cons in Hf as [? _]. Qed.

Lemma deliver_fd_ok fd fs s : inv [] s -> frames s = AfterSuccess fd (requestGeneration_ s) :: fs ->
  ends (deliver fd (requestGeneration_ s)) (popped fs s).
Proof.
  intros H E. destruct (pop_ok _ fs s H E) as (H1 & Ho & _ & H2). destruct (H2 eq_refl) as (Hc & Hs & Hr). cbn in Hs, H1.
  pose proof (in_events _ _ H (AfterSuccess fd (requestGeneration_ s))) as Hev. rewrite E in Hev. specialize (Hev ltac:(left)). cbn in Hev.
  unfold deliver. apply (ends_bind _ _ _ (popped fs s) (popped fs s)); [done|].
  assert (live (requestGeneration_ s) (popped fs s) = true) as El by by apply live_test. rewrite El. cbn [andb].
  destruct (newConnectionCallback_ _).
  - eexists. split; [reflexivity|]. destruct H1. split; [|by intros _; left; cbn; rewrite Hs]. split; cbn in *; try done.
    + by constructor.
    + constructor; [done|]. eapply Forall_impl; [exact Ho|]. cbn. lia.
    + intros f [->|Hf]%elem_of_cons; [by rewrite Hs|]. by apply in_top0.
    + intros id t Ht Hk. destruct (in_retry0 id t Ht Hk) as [Hle H']. split; [done|]. intros Eg. destruct Hr. by exists id, t.
    + intros _. constructor; [done|]. by apply in_connected0.
    + intros f [->|Hf]%elem_of_cons; [done|]. by apply in_events0.
    + intros g [?|Hg]%elem_of_cons; [done|]. by apply in_timed0.
    + unfold held in *. cbn in *. by rewrite <-app_assoc.
  - destruct (settle_live _ _ H1 Hs Ho) as [E1 H3]. eapply ends_bind; [exact E1|]. eexists. split; [reflexivity|].
    split; [by apply close_ok|]. intros _. do 3 right. right. by left.
Qed.

Lemma new_connection_ok threw fs s : inv [] s -> frames s = InNewConnection (requestGeneration_ s) :: fs ->
  ends (continue (InNewConnection (requestGeneration_ s)) threw (mkSystem true InProgress)) (popped fs s).
Proof.
  intros H E. destruct (pop_ok _ fs s H E) as (H1 & Ho & _ & H2). destruct (H2 eq_refl) as (Hc & Hs & Hr). cbn in Hs, H1.
  pose proof (in_events _ _ H (InNewConnection (requestGeneration_ s))) as Hev. rewrite E in Hev. specialize (Hev ltac:(left)). cbn in Hev.
  cbn [continue]. apply (ends_bind _ _ _ (popped fs s) (popped fs s)); [done|].
  assert (live (requestGeneration_ s) (popped fs s) = true) as El by by apply live_test. rewrite El.
  destruct threw; cbn [orb negb].
  - destruct (settle_live _ _ H1 Hs Ho) as [E1 H3]. eexists. split; [exact E1|]. split; [done|]. intros _. do 3 right. right. by left.
  - apply ends_ret. split; [done|]. intros _. left. cbn. congruence.
Qed.

Lemma continue_ok f fs threw y s : connector_ok s -> frames s = f :: fs -> ends (continue f threw y) (popped fs s).
Proof.
  intros Hok E. pose proof Hok as [H Hat]. destruct (decide (frame_gen f = requestGeneration_ s)) as [Eg|Eg].
  - destruct f; cbn [frame_gen] in Eg; subst g; cbn [continue].
    + exact (connect_rest_ok y _ (pop_idle _ fs s H E eq_refl eq_refl)).
    + exact (retry_ok None _ (pop_idle _ fs s H E eq_refl eq_refl)).
    + exact (retry_ok (Some fd) _ (pop_idle _ fs s H E eq_refl eq_refl)).
    + pose proof (close_idle _ _ _ (pop_idle _ fs s H E eq_refl eq_refl)) as Hi. eapply ends_bind; [reflexivity|]. eapply ends_bind; [reflexivity|].
      assert (live (requestGeneration_ s) (set_fds (nextFd s) (closed s ++ [fd]) (given s) (popped fs s)) = true) as El by (apply live_test; split; [done|apply Hi]).
      cbn in El |- *. rewrite El. exact (emit_ok TerminalFailure (AfterTerminal _) _ Hi eq_refl eq_refl eq_refl).
    + apply ends_ret. pose proof (pop_idle _ fs s H E eq_refl eq_refl) as Hi. split; [apply Hi|]. intros _. do 3 right. left.
      pose proof (in_events _ _ H (AfterTerminal (requestGeneration_ s))) as Hev. rewrite E in Hev. apply Hev. left.
    + exact (schedule_retry_ok _ (pop_idle _ fs s H E eq_refl eq_refl)).
    + by apply timed_out_ok.
    + by apply deliver_fd_ok.
    + by apply (new_connection_ok threw).
  - destruct (pop_outdated f fs s Hok E Eg) as (H1 & Hat1 & El). pose proof (outdated_not_connected f fs s H E Eg) as Hs.
    destruct f; cbn [frame_gen frame_fds] in *; cbn [continue].
    + unfold connect_rest. apply (ends_bind _ _ _ (popped fs s) (popped fs s)); [done|]. rewrite El. by apply ends_ret.
    + by apply retry_outdated.
    + by apply retry_outdated.
    + eapply ends_bind; [reflexivity|]. eapply ends_bind; [reflexivity|]. change (live g (set_fds _ _ _ _)) with (live g (popped fs s)). rewrite El.
      apply ends_ret. split; [by apply close_ok|done].
    + by apply ends_ret.
    + unfold schedule_retry. apply (ends_bind _ _ _ (popped fs s) (popped fs s)); [done|]. rewrite El. cbn. eexists. split; [reflexivity|].
      by destruct H1; split.
    + unfold timed_out. apply (ends_bind _ _ _ (popped fs s) (popped fs s)); [done|]. rewrite El. by apply ends_ret.
    + unfold deliver. apply (ends_bind _ _ _ (popped fs s) (popped fs s)); [done|]. rewrite El. cbn.
      eapply ends_bind; [by apply settle_outdated|]. eexists. split; [reflexivity|]. split; [by apply close_ok|done].
    + apply (ends_bind _ _ _ (popped fs s) (popped fs s)); [done|]. rewrite El, orb_true_r. eexists. split; [by apply settle_outdated|]. by split.
Qed.

(** *** Events of the loop *)

Lemma connecting_now s fd g : inv [] s -> channel_ s = Some (fd, g) ->
  state_ s = kConnecting /\ g = requestGeneration_ s /\ connect_ s = true.
Proof. intros H E. pose proof (in_channel _ _ H) as Hc. destruct (state_ s); try congruence. destruct Hc as [? [fd' Hc]]. split_and!; congruence. Qed.

(** [handleWrite] and [handleError] take the descriptor out of the channel. *)
Lemma take_fd s fd : inv [] s -> frames s = [] -> channel_ s = Some (fd, requestGeneration_ s) ->
  idle [fd] (set_state kDisconnected (set_channel None (cancelled_timeout s))).
Proof.
  intros H Ef Ec. destruct (connecting_now s _ _ H Ec) as (Es & _ & _). destruct (cancel_timeout_ok _ _ H) as [H1 Hn].
  apply (drop_channel [] (cancelled_timeout s) fd (requestGeneration_ s) H1 Es Ec Hn). unfold older. cbn. by rewrite Ef.
Qed.

Lemma connected_ok fd s : idle [fd] s -> frames s = [] ->
  connector_ok (push_frame ConnectSuccess (AfterSuccess fd (requestGeneration_ s)) (set_state kConnected s)).
Proof.
  intros [H Hc Hs Ho Hr] Ef. apply (push_frame_ok ConnectSuccess (AfterSuccess fd (requestGeneration_ s)) (set_state kConnected s)); try done.
  destruct H. rewrite Hs in in_channel0. split; cbn; try done.
  - intros f Hf E. unfold older in Ho. rewrite Forall_forall in Ho. specialize (Ho f Hf). lia.
  - intros id t Ht Hk. destruct (in_retry0 id t Ht Hk) as [Hle _]. split; [done|]. intros E. destruct Hr. by exists id, t.
  - intros id t Ht Hk. destruct (in_timeout0 id t Ht Hk) as (_ & E & _). congruence.
  - intros _. by rewrite Ef.
Qed.

Lemma write_ok y s fd g : connector_ok s -> frames s = [] -> channel_ s = Some (fd, g) -> ends (handleWrite y g) s.
Proof.
  intros [H Hat] Ef Ec. destruct (connecting_now s fd g H Ec) as (Es & -> & Hc). pose proof (take_fd s fd H Ef Ec) as Hi.
  unfold handleWrite. apply (ends_bind _ _ _ s s); [done|]. rewrite Es. cbn [negb bool_decide decide].
  assert (live (requestGeneration_ s) s = true) as El by by apply live_test. rewrite bool_decide_eq_true_2, El by done. cbn [negb].
  eapply ends_bind; [reflexivity|]. eapply ends_bind; [by eapply release_channel|]. eapply ends_bind; [reflexivity|].
  pose proof (emit_ok ConnectFailed (AfterFailed fd (requestGeneration_ s)) _ Hi eq_refl eq_refl I) as Hfail.
  destruct (socketError y =? 0); [|exact Hfail]. cbn [negb]. destruct (localAddr y) as [here|]; [|exact Hfail]. destruct (peerAddr y) as [there|]; [|exact Hfail].
  destruct (selfConnect here there); [exact (emit_ok SelfConnectDetected (AfterFailed fd _) _ Hi eq_refl eq_refl I)|].
  eapply ends_bind; [reflexivity|]. eexists. split; [reflexivity|]. exact (connected_ok fd _ Hi Ef).
Qed.

Lemma error_ok s fd g : connector_ok s -> frames s = [] -> channel_ s = Some (fd, g) -> ends (handleError g) s.
Proof.
  intros [H Hat] Ef Ec. destruct (connecting_now s fd g H Ec) as (Es & -> & Hc). pose proof (take_fd s fd H Ef Ec) as Hi.
  unfold handleError. apply (ends_bind _ _ _ s s); [done|]. rewrite bool_decide_eq_true_2 by done. cbn [negb].
  eapply ends_bind; [reflexivity|]. eapply ends_bind; [by eapply release_channel|]. eapply ends_bind; [reflexivity|].
  exact (emit_ok ConnectFailed (AfterFailed fd _) _ Hi eq_refl eq_refl I).
Qed.

Definition fired (id : nat) (s : Connector) : Connector :=
  set_timers (retryTimerId_ s) (connectTimeoutTimerId_ s) (delete id (timers s)) (nextTimer s) s.

Lemma fired_ok id s : inv [] s -> inv [] (fired id s).
Proof. intros H. apply fewer_ok; [done| |done]. intros i x [_ Hx]%lookup_delete_Some. split; [done|]. by destruct (timer_kind x). Qed.

Lemma timeout_fired s id t : connector_ok s -> frames s = [] -> timers s !! id = Some t -> timer_kind t = TimeoutTimer ->
  ends (handleConnectTimeout (timer_generation t)) (fired id s).
Proof.
  intros [H Hat] Ef Ht Hk. destruct (in_timeout _ _ H id t Ht Hk) as (-> & Es & Eid).
  pose proof (in_channel _ _ H) as Hch. rewrite Es in Hch. destruct Hch as [Hc _].
  unfold handleConnectTimeout. eapply ends_bind; [reflexivity|]. cbn [requestGeneration_ fired set_timers]. rewrite Z.eqb_refl. cbn [negb].
  eapply ends_bind; [reflexivity|]. cbn [state_ fired set_timers]. rewrite Es. cbn [negb]. eexists. split; [reflexivity|].
  apply (push_frame_ok ConnectTimeout (AfterTimeout (requestGeneration_ s)) (set_timers (retryTimerId_ s) None (timers (fired id s)) (nextTimer s) (fired id s))); try done.
  - apply (fewer_ok [] (fired id s)); [by apply fired_ok| |done]. intros i x Hx. split; [done|]. destruct (timer_kind x) eqn:Ek; [done|].
    cbn in Hx. apply lookup_delete_Some in Hx as [Hne Hx]. destruct (in_timeout _ _ H i x Hx Ek) as (_ & _ & E'). congruence.
  - unfold older. cbn. by rewrite Ef.
  - intros (i & x & Hx & Ek & Eg). cbn in Hx. apply lookup_delete_Some in Hx as [_ Hx]. destruct (in_retry _ _ H i x Hx Ek) as [_ H'].
    destruct (H' Eg) as (_ & ? & _). congruence.
Qed.

Lemma retry_fired_ok s id t : connector_ok s -> frames s = [] -> timers s !! id = Some t -> timer_kind t = RetryTimer ->
  ends (retry_fired (timer_generation t)) (fired id s).
Proof.
  intros [H Hat] Ef Ht Hk. destruct (in_retry _ _ H id t Ht Hk) as [Hle H']. pose proof (fired_ok id s H) as H1.
  unfold retry_fired. apply (ends_bind _ _ _ (fired id s) (fired id s)); [done|].
  destruct (decide (timer_generation t = requestGeneration_ s)) as [Eg|Eg].
  - destruct (H' Eg) as (Hc & Es & Ho & Eid). rewrite Eg. assert (live (requestGeneration_ s) (fired id s) = true) as El by by apply live_test. rewrite El. cbn [negb].
    eapply ends_bind; [reflexivity|].
    assert (forall i x, timers (fired id s) !! i = Some x -> timer_kind x = RetryTimer -> timer_generation x <> requestGeneration_ s) as Hn.
    { intros i x Hx Ek E. cbn in Hx. apply lookup_delete_Some in Hx as [Hne Hx]. destruct (in_retry _ _ H i x Hx Ek) as [_ H2]. destruct (H2 E) as (_ & _ & _ & ?). congruence. }
    apply (start_in_loop_ok (set_timers None (connectTimeoutTimerId_ s) (timers (fired id s)) (nextTimer s) (fired id s))). split; try done.
    + destruct H1. split; cbn in *; try done. intros i x Hx Ek. destruct (in_retry0 i x Hx Ek) as [? _]. split; [done|]. intros E. by destruct (Hn i x Hx Ek).
    + intros (i & x & Hx & Ek & E). by destruct (Hn i x Hx Ek).
  - assert (live (timer_generation t) (fired id s) = false) as El by (unfold live; cbn; by rewrite (proj2 (Z.eqb_neq _ _) Eg)). rewrite El. apply ends_ret.
    split; [done|]. intros Hc. destruct (Hat Hc) as [?|[?|[(i & x & Hx & Ek & E)|?]]]; auto. right. right. left. exists i, x. cbn. split; [|done].
    rewrite lookup_delete_ne; [done|]. intros ->. congruence.
Qed.

Lemma step_connector_ok l s s' : connector_ok s -> step l s = Some s' -> connector_ok s'.
Proof.
  intros H E. destruct l as [r|threw y|y| |id]; cbn [step] in E.
  - destruct (within r s) eqn:Ew; [|done]. injection E as <-. by apply perform_request.
  - destruct (frames s) as [|f fs] eqn:Ef; [done|]. injection E as <-. by apply settle_ends, continue_ok.
  - destruct (frames s) eqn:Ef; [|done]. destruct (channel_ s) as [[fd g]|] eqn:Ec; [|done]. injection E as <-. by eapply settle_ends, write_ok.
  - destruct (frames s) eqn:Ef; [|done]. destruct (channel_ s) as [[fd g]|] eqn:Ec; [|done]. injection E as <-. by eapply settle_ends, error_ok.
  - destruct (frames s) eqn:Ef; [|done]. destruct (timers s !! id) as [t|] eqn:Et; [|done]. injection E as <-. apply settle_ends.
    destruct (timer_kind t) eqn:Ek; [by apply retry_fired_ok|by apply timeout_fired].
Qed.

Lemma new_connector_ok o s : maxRetryDelay o <= max_delay -> Connector_new o = Ok s -> connector_ok s.
Proof.
  intros Hm. unfold Connector_new, validate. destruct (_ <=? 0) eqn:E1; [done|]. destruct (maxRetryDelay o <? _) eqn:E2; [done|]. destruct (_ <? 0); [done|].
  intros [= <-]. zify_bools. split; [|done]. split; cbn; try done; try (by constructor).
  all: try (intros ? Hf; by apply elem_of_nil in Hf). all: try (intros id [x Hx]; by rewrite lookup_empty in Hx).
  split_and!; lia.
Qed.

Lemma reachable_connector_ok o s : maxRetryDelay o <= max_delay -> reachable o s -> connector_ok s.
Proof. intros Hm H. induction H as [s H|s l s' _ IH H]; [by eapply new_connector_ok|by eapply step_connector_ok]. Qed.

(** ** A stopped connector *)

(** [m] makes no descriptor, gives none away and leaves [connect_] unset. *)
Definition inert (m : M Connector unit) : Prop :=
  forall s, connect_ s = false ->
    let s' := snd (m s) in connect_ s' = false /\ nextFd s' = nextFd s /\ given s' = given s.

Definition resting (s s' : Connector) : Prop := connect_ s' = false /\ nextFd s' = nextFd s /\ given s' = given s.

Lemma inert_bind {A} (m : M Connector A) (k : A -> M Connector unit) :
  (forall s, connect_ s = false -> resting s (snd (m s))) -> (forall a, inert (k a)) -> inert (bindM m k).
Proof.
  intros Hm Hk s Hs. unfold bindM. destruct (Hm s Hs) as (H1 & H2 & H3). destruct (m s) as [[a|e] s1]; cbn in *; [|done].
  destruct (Hk a s1 H1) as (? & ? & ?). cbn in *. split_and!; congruence.
Qed.

Lemma inert_get (k : Connector -> M Connector unit) :
  (forall s, connect_ s = false -> resting s (snd (k s s))) -> inert (bindM get k).
Proof. intros Hk s Hs. by apply Hk. Qed.

Lemma not_live g s : connect_ s = false -> live g s = false.
Proof. intros E. unfold live. by rewrite E, andb_false_r. Qed.

Lemma inert_retry fd g : inert (retry fd g).
Proof.
  intros s Hs. unfold retry, sockets_close, emitEvent, bindM, get, modify, ret. destruct fd; cbn; rewrite Hs; cbn; by repeat case_match.
Qed.

Lemma inert_close_channel : inert close_channel.
Proof. intros s Hs. unfold close_channel, removeAndReleaseChannel, sockets_close, bindM, get, modify. cbn. by destruct (channel_ s) as [[? ?]|]. Qed.

Lemma inert_settle m s : inert m -> connect_ s = false -> resting s (settle m s).
Proof. intros Hm Hs. specialize (Hm s Hs). unfold settle. destruct (m s) as [[[]|[]] s1]; exact Hm. Qed.

Lemma inert_continue f threw y : inert (continue f threw y).
Proof.
  destruct f; cbn [continue]; try apply inert_retry.
  - apply inert_get. intros s Hs. by rewrite not_live.
  - intros s Hs. unfold sockets_close, bindM, get, modify. cbn. by rewrite not_live.
  - by intros s Hs.
  - apply inert_get. intros s Hs. by rewrite not_live.
  - apply inert_get. intros s Hs. by rewrite not_live.
  - apply inert_get. intros s Hs. rewrite not_live by done. cbn. by case_match.
  - apply inert_get. intros s Hs. rewrite not_live, orb_true_r by done. cbn. by case_match.
Qed.

Lemma inert_stop_in_loop : inert stopInLoop.
Proof.
  unfold stopInLoop. do 2 (apply inert_bind; [done|intros _]). apply inert_get. intros s Hs. case_match; [|by case_match].
  exact (inert_bind (modify (set_state kDisconnected)) _ (fun s H => conj H (conj eq_refl eq_refl)) (fun _ => inert_close_channel) s Hs).
Qed.

Lemma inert_stop : inert stop.
Proof. apply inert_bind; [done|]. intros _. apply inert_stop_in_loop. Qed.

Definition starts (l : Label) : bool := match l with LRequest Start | LRequest Restart => true | _ => false end.

Lemma stopped_connector_step l s s' : connect_ s = false -> starts l = false -> step l s = Some s' -> resting s s'.
Proof.
  intros Hs Hl E. destruct l as [r|threw y|y| |id]; cbn [step] in E.
  - destruct (within r s); [|done]. injection E as <-. apply inert_settle; [|done]. destruct r as [| | |b|b|i x]; try done; cbn [perform]; [apply inert_stop|].
    intros s1 Hs1. unfold setRetryDelay, bindM, get. destruct (startedOnce_ s1); [done|]. cbn. by destruct (validate _).
  - destruct (frames s) as [|f fs]; [done|]. injection E as <-. exact (inert_settle _ (set_frames fs (events s) s) (inert_continue f threw y) Hs).
  - destruct (frames s), (channel_ s) as [[fd g]|]; try done. injection E as <-. apply inert_settle; [|done].
    apply inert_get. intros s1 Hs1. rewrite not_live by done. case_match; [done|]. cbn [negb].
    assert (inert (run close_channel ;; modify (set_state kDisconnected))) as Hm by (apply inert_bind; [apply inert_close_channel|done]). exact (Hm s1 Hs1).
  - destruct (frames s), (channel_ s) as [[fd g]|]; try done. injection E as <-. apply inert_settle; [|done].
    apply inert_get. intros s1 Hs1. case_match; [done|]. unfold removeAndReleaseChannel, bindM, get. cbn. by destruct (channel_ s1) as [[? ?]|].
  - destruct (frames s), (timers s !! id) as [t|]; try done. injection E as <-.
    apply (inert_settle _ (set_timers (retryTimerId_ s) (connectTimeoutTimerId_ s) (delete id (timers s)) (nextTimer s) s)); [|done].
    destruct (timer_kind t); apply inert_get; intros s1 Hs1; [by rewrite not_live|]. case_match; [done|]. unfold bindM. cbn. by case_match.
Qed.

Lemma stopped_run ls : forall s s', connect_ s = false -> Forall (fun l => starts l = false) ls -> run_labels ls s = Some s' -> resting s s'.
Proof.
  induction ls as [|l ls IH]; cbn; intros s s' Hs Hls E; [injection E as <-; done|]. apply Forall_cons in Hls as [Hl Hls].
  destruct (step l s) as [s1|] eqn:E1; [|done]. destruct (stopped_connector_step l s s1 Hs Hl E1) as (H1 & H2 & H3).
  destruct (IH s1 s' H1 Hls E) as (? & ? & ?). split_and!; congruence.
Qed.

Lemma run_reaches o ls : forall s s', reachable o s -> run_labels ls s = Some s' -> reachable o s'.
Proof.
  induction ls as [|l ls IH]; cbn; intros s s' H E; [by injection E as <-|]. destruct (step l s) as [s1|] eqn:E1; [|done].
  by apply (IH s1); [eapply reach_step|].
Qed.

(** ** Properties *)

(** However requests, callbacks that call the connector again, channel events and
    timers interleave, the connector stays coherent: no assertion fails, no channel is
    released twice, there is a channel exactly while connecting, and it belongs to
    the current request, which wants a connection. *)
Theorem connector_coherent o s : maxRetryDelay o <= max_delay -> reachable o s ->
  fault s = None /\
  (state_ s = kConnecting <-> is_Some (channel_ s)) /\
  (forall fd g, channel_ s = Some (fd, g) -> g = requestGeneration_ s /\ connect_ s = true).
Proof.
  intros Hm H. destruct (reachable_connector_ok o s Hm H) as [Hi _]. pose proof (in_channel _ _ Hi) as Hc. split; [apply Hi|]. split.
  - destruct (state_ s); [|destruct Hc as [_ [fd ->]]; by split|]; (split; [done|]; rewrite Hc; by intros [? ?]).
  - intros fd g E. by destruct (connecting_now s fd g Hi E) as (_ & ? & ?).
Qed.

(** C22. Every descriptor the connector makes is closed exactly once or handed to the
    new-connection callback exactly once, or is still in its channel or in a
    callback in progress: none leaks, none is closed twice, and none is closed after it was
    handed over. *)
Theorem descriptors_exact o s : maxRetryDelay o <= max_delay -> reachable o s ->
  closed s ++ given s ++ held s ≡ₚ seq 0 (nextFd s) /\ NoDup (closed s ++ given s ++ held s) /\
  (frames s = [] -> state_ s <> kConnecting -> closed s ++ given s ≡ₚ seq 0 (nextFd s)).
Proof.
  intros Hm H. destruct (reachable_connector_ok o s Hm H) as [Hi _]. pose proof (in_fds _ _ Hi) as Hf. cbn [app] in Hf. split; [done|].
  split; [rewrite Hf; apply NoDup_seq|]. intros Ef Es. pose proof (in_channel _ _ Hi) as Hc.
  assert (channel_ s = None) as Ec by by destruct (state_ s). unfold held in Hf. rewrite Ef, Ec in Hf. cbn in Hf. by rewrite app_nil_r in Hf.
Qed.

(** [stop] is effective: from then on, until [start] or [restart] is called, no
    descriptor is made and none is handed over, whatever callbacks are still in progress and
    whatever timers are still due. *)
Theorem stop_is_effective o ls s s1 s2 : maxRetryDelay o <= max_delay -> reachable o s ->
  step (LRequest Stop) s = Some s1 -> Forall (fun l => starts l = false) ls -> run_labels ls s1 = Some s2 ->
  connect_ s2 = false /\ channel_ s2 = None /\ nextFd s2 = nextFd s /\ given s2 = given s.
Proof.
  intros Hm H E1 Hls E2. assert (reachable o s1) as Hr1 by by eapply reach_step. pose proof (run_reaches o ls s1 s2 Hr1 E2) as Hr2.
  destruct (reachable_connector_ok o s Hm H) as [Hi _]. destruct (reachable_connector_ok o s2 Hm Hr2) as [Hi2 _].
  assert (connect_ s1 = false /\ nextFd s1 = nextFd s /\ given s1 = given s) as (H1 & H2 & H3).
  { cbn [step] in E1. destruct (within Stop s) eqn:Ew; [|done]. injection E1 as <-. cbn in Ew. zify_bools.
    exact (inert_settle stopInLoop (set_request false (requestGeneration_ s ⊕ 1) (startedOnce_ s) s) inert_stop_in_loop eq_refl). }
  destruct (stopped_run ls s1 s2 H1 Hls E2) as (H4 & H5 & H6). split_and!; try congruence.
  pose proof (in_channel _ _ Hi2) as Hc. destruct (state_ s2); try done. destruct Hc as [? _]. congruence.
Qed.

(** The back-off: when the observer of [RetryScheduled] has returned, and still
    wants the retry, it is scheduled after the initial delay doubled once for
    each retry since the last reset, but at most the maximum; [restart] is such a reset. *)
Theorem retries_back_off o s g fs threw y s' : maxRetryDelay o <= max_delay -> reachable o s ->
  frames s = AfterRetryScheduled g :: fs -> live g s = true -> retryEnabled_ s = true -> step (LReturn threw y) s = Some s' ->
  timers s' !! nextTimer s = Some (mkLive RetryTimer g (Z.min (initialRetryDelay_ s * 2 ^ Z.of_nat (retries s)) (maxRetryDelayMs_ s))) /\
  retries s' = S (retries s) /\ state_ s' = kDisconnected.
Proof.
  intros Hm H Ef Hl He E. destruct (reachable_connector_ok o s Hm H) as [Hi _]. cbn [step] in E. rewrite Ef in E. injection E as <-.
  pose proof Hl as [Eg Hc]%live_test. subst g. pose proof (pop_idle _ fs s Hi Ef eq_refl eq_refl) as Hid. destruct (in_delay _ _ Hi) as (_ & _ & <-).
  unfold settle. cbn [continue]. unfold schedule_retry, bindM, get, modify, lift. change (set_frames fs (events s) s) with (popped fs s).
  assert (live (requestGeneration_ s) (popped fs s) = true) as -> by exact Hl. assert (retryEnabled_ (popped fs s) = true) as -> by exact He. cbn [negb orb].
  rewrite (i64_double [] (popped fs s)) by apply Hid. split_and!; [cbn; by rewrite lookup_insert_eq|done|apply Hid].
Qed.

(** C28. A request is never forgotten: with no callback in progress, a connector that is
    to connect and is disconnected has a retry timer of the current request, or the
    current request has ended in [TerminalFailure] or in a connection, or its retry was
    disabled by the observer of [RetryScheduled]. *)
Theorem request_not_forgotten o s : maxRetryDelay o <= max_delay -> reachable o s ->
  frames s = [] -> connect_ s = true -> state_ s = kDisconnected -> retry_due s \/ decided s.
Proof.
  intros Hm H Ef Hc Es. destruct (reachable_connector_ok o s Hm H) as [_ Hat]. destruct (Hat Hc) as [?|[Hno|?]]; [done| |done].
  destruct Hno. unfold older. by rewrite Ef.
Qed.

(** ** Examples *)

Definition demo_options : ConnectorOptions := mkConnectorOptions 500 30000 100 true.

Definition new_connector : Connector :=
  mkConnector kDisconnected false true false None 500 500 30000 100 None None 0 false [] ∅ 0 0 [] [] [] 0 None None.

Definition after (ls : list Label) : Connector := default new_connector (run_labels ls new_connector).

Definition in_progress : System := mkSystem true InProgress.

(** An attempt fails; the retry is about to be scheduled. *)
Definition one_failure : list Label :=
  [LRequest (SetCallback true); LRequest Start; LReturn false in_progress; LWritable (mkAnswer 111 None None); LReturn false in_progress].

(** The retry fails too, and a third attempt succeeds while its observer restarts the connector. *)
Definition long_story : list Label :=
  one_failure ++
  [LReturn true in_progress; LTimer 1; LReturn false in_progress; LTimer 2; LReturn false in_progress; LReturn false in_progress;
   LTimer 3; LReturn false in_progress; LWritable (mkAnswer 0 (Some (Addr4 1 2)) (Some (Addr4 3 4))); LRequest Restart;
   LReturn false in_progress; LReturn false in_progress].

Lemma new_connector_reachable : reachable demo_options new_connector.
Proof. by apply reach_new. Qed.

Lemma after_reachable ls : run_labels ls new_connector = Some (after ls) -> reachable demo_options (after ls).
Proof. intros E. by eapply run_reaches; [apply new_connector_reachable|]. Qed.

Lemma failure_reachable : reachable demo_options (after one_failure).
Proof. apply after_reachable. by vm_compute. Qed.

Lemma story_reachable : reachable demo_options (after long_story).
Proof. apply after_reachable. by vm_compute. Qed.

Lemma demo_delay : maxRetryDelay demo_options <= max_delay.
Proof. by vm_compute. Qed.

Lemma connector_coherent_witness : state_ (after long_story) = kConnecting /\ is_Some (channel_ (after long_story)).
Proof.
  split; [by vm_compute|]. apply (connector_coherent demo_options (after long_story) demo_delay story_reachable). by vm_compute.
Defined.

Lemma descriptors_exact_witness : closed (after long_story) = [0; 1; 2]%nat /\ NoDup (closed (after long_story) ++ given (after long_story) ++ held (after long_story)).
Proof. split; [by vm_compute|]. apply (descriptors_exact demo_options (after long_story) demo_delay story_reachable). Defined.

Lemma stop_is_effective_witness : nextFd (after (one_failure ++ [LRequest Stop; LReturn false in_progress])) = 1%nat.
Proof.
  transitivity (nextFd (after one_failure)); [|by vm_compute].
  apply (stop_is_effective demo_options [LReturn false in_progress] (after one_failure) (after (one_failure ++ [LRequest Stop])) _ demo_delay failure_reachable).
  - by vm_compute.
  - by repeat constructor.
  - by vm_compute.
Defined.

Lemma retries_back_off_witness :
  timers (after (one_failure ++ [LReturn true in_progress])) !! 1%nat = Some (mkLive RetryTimer 1 500).
Proof.
  apply (retries_back_off demo_options (after one_failure) 1 [] true in_progress _ demo_delay failure_reachable); by vm_compute.
Defined.

Lemma request_not_forgotten_witness :
  retry_due (after (one_failure ++ [LReturn true in_progress])) \/ decided (after (one_failure ++ [LReturn true in_progress])).
Proof.
  apply (request_not_forgotten demo_options _ demo_delay); [apply after_reachable; by vm_compute|by vm_compute..].
Defined.

(** An observer that disables retries when it is told of one: the connector is left
    wanting a connection, without a timer and without [TerminalFailure]. *)
Example disabled_retry_is_silent :
  let s := after (one_failure ++ [LRequest (SetRetryEnabled false); LReturn false in_progress]) in
  connect_ s = true /\ state_ s = kDisconnected /\ frames s = [] /\ timers s = ∅ /\
  events s = [(ConnectAttempt, 1); (ConnectFailed, 1); (RetryScheduled, 1)].
Proof. by vm_compute. Qed.
