(* ===== verification/ThreadPool.v ===== *)
(** * Loop threads and their pool

    Model of [EventLoopThread] (src/core/net/EventLoopThread.cc) as a machine of two
    threads, the control thread that starts and stops and the worker that owns the loop,
    one step per critical section; and of [EventLoopThreadPool]
    (src/core/net/EventLoopThreadPool.cc), which runs on the base loop's thread: starting
    and stopping the workers, the four policies that choose a loop, and the counts of
    connections. *)

From S2P Require Import Prelude.

Local Open Scope Z_scope.

(** ** One loop thread *)

Module Thread.

(** The control thread: [startLoop] and [stop]. *)
Inductive ControlPc :=
  | Free
  | StartCheck                        (** [startLoop]: is there a loop? *)
  | StartJoin
  | StartReset
  | StartSpawn
  | StartWait                         (** [condition_.wait] *)
  | StartFailed                       (** join and rethrow *)
  | StopQuit                          (** [stop]: [loop_->quit()] *)
  | StopJoin.

(** The worker, [threadFunc]. *)
Inductive WorkerPc :=
  | NoThread                          (** not joinable *)
  | Init                              (** the loop exists, the callback runs *)
  | Fail                              (** the callback threw *)
  | Publish
  | Looping                           (** in [loop.loop()] *)
  | Clear                             (** [loop_ = nullptr] *)
  | Exited.                           (** to be joined *)

(** What [startLoop] came back with: a pointer, null or not, or an exception. *)
Inductive Started := Pointer (valid : bool) | Raised.

(** [loop_]: the pointer is not null; [quitRequested]: of the loop, through [stop], the
    callback or anyone who has the pointer; [answers]: of [startLoop], last one first;
    [touched_dead]: [loop_] was followed to a loop that was gone. *)
Record EventLoopThread := mkThread {
  control : ControlPc;
  worker : WorkerPc;
  loop_ : bool;
  startupComplete_ : bool;
  startupException_ : bool;
  quitRequested : bool;
  answers : list Started;
  touched_dead : bool;
}.

Definition EventLoopThread_new : EventLoopThread := mkThread Free NoThread false false false false [] false.

(** The loop object exists: it lives on the worker's stack. *)
Definition loop_alive (w : WorkerPc) : bool := match w with Init | Fail | Publish | Looping | Clear => true | _ => false end.

Definition set_control (c : ControlPc) (s : EventLoopThread) : EventLoopThread :=
  mkThread c (worker s) (loop_ s) (startupComplete_ s) (startupException_ s) (quitRequested s) (answers s) (touched_dead s).
Definition set_worker (w : WorkerPc) (s : EventLoopThread) : EventLoopThread :=
  mkThread (control s) w (loop_ s) (startupComplete_ s) (startupException_ s) (quitRequested s) (answers s) (touched_dead s).
Definition set_startup (l c e : bool) (s : EventLoopThread) : EventLoopThread :=
  mkThread (control s) (worker s) l c e (quitRequested s) (answers s) (touched_dead s).
Definition set_quit (q d : bool) (s : EventLoopThread) : EventLoopThread :=
  mkThread (control s) (worker s) (loop_ s) (startupComplete_ s) (startupException_ s) q (answers s) d.
Definition answer (a : Started) (s : EventLoopThread) : EventLoopThread :=
  mkThread Free (worker s) (loop_ s) (startupComplete_ s) (startupException_ s) (quitRequested s) (a :: answers s) (touched_dead s).

(** [thread_.join()] returns. *)
Definition joined (s : EventLoopThread) : option EventLoopThread :=
  match worker s with NoThread => Some s | Exited => Some (set_worker NoThread s) | _ => None end.

(** The next step of the control thread. *)
Definition control_step (s : EventLoopThread) : option EventLoopThread :=
  match control s with
  | Free => None
  | StartCheck => Some (if loop_ s then answer (Pointer true) s else set_control StartJoin s)
  | StartJoin => set_control StartReset <$> joined s
  | StartReset => Some (set_control StartSpawn (set_startup (loop_ s) false false s))
  | StartSpawn => Some (set_control StartWait (set_worker Init (set_quit false (touched_dead s) s)))
  | StartWait =>
      if startupComplete_ s then
        Some (if startupException_ s then set_control StartFailed s else answer (Pointer (loop_ s)) s)
      else None
  | StartFailed => answer Raised <$> joined s
  | StopQuit =>
      Some (set_control StopJoin
              (if loop_ s then set_quit true (touched_dead s || negb (loop_alive (worker s))) s else s))
  | StopJoin => set_control Free <$> joined s
  end.

(** The next step of the worker; [threw]: its callback threw. *)
Definition worker_step (threw : bool) (s : EventLoopThread) : option EventLoopThread :=
  match worker s with
  | NoThread | Exited => None
  | Init => Some (set_worker (if threw then Fail else Publish) s)
  | Fail => Some (set_worker Exited (set_startup (loop_ s) true true s))
  | Publish => Some (set_worker Looping (set_startup true true (startupException_ s) s))
  | Looping => if quitRequested s then Some (set_worker Clear s) else None
  | Clear => Some (set_worker Exited (set_startup false (startupComplete_ s) (startupException_ s) s))
  end.

(** [LQuit]: the callback, or who has the pointer, calls [quit]. *)
Inductive Label := LStart | LStop | LControl | LWorker (threw : bool) | LQuit.

Definition step (l : Label) (s : EventLoopThread) : option EventLoopThread :=
  match l with
  | LStart => if control s is Free then Some (set_control StartCheck s) else None
  | LStop => if control s is Free then Some (set_control StopQuit s) else None
  | LControl => control_step s
  | LWorker threw => worker_step threw s
  | LQuit => if loop_alive (worker s) then Some (set_quit true (touched_dead s) s) else None
  end.

Fixpoint run_labels (ls : list Label) (s : EventLoopThread) : option EventLoopThread :=
  match ls with
  | [] => Some s
  | l :: ls => match step l s with Some s' => run_labels ls s' | None => None end
  end.

Inductive reachable : EventLoopThread -> Prop :=
  | reach_new : reachable EventLoopThread_new
  | reach_step s l s' : reachable s -> step l s = Some s' -> reachable s'.

(** The places of the control thread where there is no worker. *)
Definition between (c : ControlPc) : bool := match c with StartReset | StartSpawn => true | _ => false end.

(** The loop's pointer is set exactly while the worker loops; the worker is absent where
    the control thread is between two workers, and present where it waits; the start-up
    is complete once the worker has published or failed; a pointer that is null again
    means that the loop was asked to quit, and a loop that is joined was asked to. *)
Definition thread_okb (s : EventLoopThread) : bool :=
  eqb (loop_ s) (match worker s with Looping | Clear => true | _ => false end) &&
  (match control s with
   | StartReset | StartSpawn => match worker s with NoThread => true | _ => false end
   | StartWait =>
       match worker s with
       | NoThread => false
       | Init | Fail | Publish => negb (startupComplete_ s) && negb (startupException_ s)
       | Looping | Clear => startupComplete_ s && negb (startupException_ s)
       | Exited => startupComplete_ s && (startupException_ s || quitRequested s)
       end
   | StartFailed => match worker s with Exited | NoThread => true | _ => false end
   | _ => match worker s with Init | Fail | Publish => false | _ => true end
   end) &&
  (match control s with StartSpawn => negb (startupComplete_ s) && negb (startupException_ s) | _ => true end) &&
  (match worker s, control s with Clear, _ | Looping, StopJoin => quitRequested s | _, _ => true end) &&
  negb (touched_dead s).

(** The states that satisfy it, one by one. *)
Ltac thread_states c w lp cp ex q d H :=
  destruct w; destruct lp; try discriminate H; destruct c; try discriminate H;
  destruct q; try discriminate H; destruct cp; try discriminate H; destruct ex; try discriminate H; destruct d; try discriminate H.

Lemma thread_step_ok l s s' : thread_okb s = true -> step l s = Some s' -> thread_okb s' = true.
Proof.
  destruct s as [c w lp cp ex q an d]. intros H. thread_states c w lp cp ex q d H; clear H.
  all: destruct l as [| | |[]|]; intros [= <-]; reflexivity.
Qed.

Lemma thread_reachable_ok s : reachable s -> thread_okb s = true.
Proof. induction 1 as [|s l s' _ IH E]; [done|by eapply thread_step_ok]. Qed.

(** Starting and stopping a loop thread is safe: [stop] never calls a loop that is
    gone, and when it returns the worker is joined and its loop is gone; [startLoop] comes back from its
    wait with an exception, or with the pointer of a loop that exists, or with null, the
    last only if the loop was asked to quit meanwhile. *)
Theorem thread_start_and_stop s s' : reachable s -> control_step s = Some s' ->
  touched_dead s' = false /\
  (control s = StopJoin -> worker s' = NoThread /\ loop_ s' = false) /\
  (control s = StartWait -> control s' = StartFailed \/
     exists v, answers s' = Pointer v :: answers s /\
       if v then loop_alive (worker s') = true else quitRequested s = true).
Proof.
  intros Hr E. pose proof (thread_reachable_ok s Hr) as H. destruct s as [c w lp cp ex q an d].
  thread_states c w lp cp ex q d H; try discriminate E; injection E as <-; cbn; split_and!; try done; intros _;
    first [by left|right; by eexists].
Qed.

(** No deadlock: where [startLoop] or [stop] waits, for the start-up or for the
    end of the worker, the worker can take a step, or the wait is over. *)
Theorem thread_waits_end s : reachable s ->
  (control s = StartWait \/ control s = StartFailed \/ control s = StopJoin) ->
  is_Some (control_step s) \/ is_Some (worker_step false s).
Proof.
  intros Hr Hc. pose proof (thread_reachable_ok s Hr) as H. destruct s as [c w lp cp ex q an d].
  thread_states c w lp cp ex q d H; cbn in *; first [by destruct Hc as [?|[?|?]]|left; by eexists|right; by eexists].
Qed.

Lemma run_thread_reachable ls : forall s s', reachable s -> run_labels ls s = Some s' -> reachable s'.
Proof.
  induction ls as [|l ls IH]; cbn; intros s s' H E; [by injection E as <-|]. destruct (step l s) as [s1|] eqn:E1; [|done].
  by apply (IH s1); [eapply reach_step|].
Qed.

(** A thread is started and about to be stopped. *)
Definition started_thread : EventLoopThread := mkThread StopJoin Exited false true false true [Pointer true] false.

Lemma started_thread_reachable : reachable started_thread.
Proof.
  apply (run_thread_reachable [LStart; LControl; LControl; LControl; LControl; LWorker false; LWorker false; LControl; LStop; LControl; LWorker false; LWorker false] EventLoopThread_new);
    [constructor|reflexivity].
Qed.

Lemma thread_start_and_stop_witness :
  exists s', control_step started_thread = Some s' /\ worker s' = NoThread.
Proof.
  eexists. split; [reflexivity|].
  exact (proj1 (proj1 (proj2 (thread_start_and_stop started_thread _ started_thread_reachable eq_refl)) eq_refl)).
Defined.

Lemma thread_waits_end_witness : is_Some (control_step started_thread) \/ is_Some (worker_step false started_thread).
Proof. apply (thread_waits_end started_thread started_thread_reachable). right. by right. Defined.

(** [startLoop] can return a null pointer without an exception: when the thread-init
    callback asks its loop to quit, the worker may clear the pointer again before the
    creator reads it. *)
Theorem start_may_return_null : exists s, reachable s /\ control s = Free /\ answers s = [Pointer false].
Proof.
  exists (mkThread Free Exited false true false true [Pointer false] false). split; [|done].
  apply (run_thread_reachable [LStart; LControl; LControl; LControl; LControl; LQuit; LWorker false; LWorker false; LWorker false; LWorker false; LControl] EventLoopThread_new);
    [constructor|reflexivity].
Qed.

End Thread.

(** ** The pool *)

Module Pool.

Inductive EventLoopSelectionPolicy := RoundRobin | LeastConnections | QueueLag | ConsistentHash.

(** Loops are known by numbers; [threads_] holds the loop of each thread; [running]: the
    loops whose threads run. *)
Record EventLoopThreadPool := mkPool {
  baseLoop_ : nat;
  started_ : bool;
  numThreads_ : Z;
  next_ : nat;
  selectionPolicy_ : EventLoopSelectionPolicy;
  connectionLoads_ : list Z;
  threads_ : list nat;
  loops_ : list nat;
  running : list nat;
}.

Definition EventLoopThreadPool_new (base : nat) : EventLoopThreadPool := mkPool base false 0 0 RoundRobin [] [] [] [].

Definition set_started (b : bool) (p : EventLoopThreadPool) : EventLoopThreadPool :=
  mkPool (baseLoop_ p) b (numThreads_ p) (next_ p) (selectionPolicy_ p) (connectionLoads_ p) (threads_ p) (loops_ p) (running p).
Definition set_numThreads (n : Z) (p : EventLoopThreadPool) : EventLoopThreadPool :=
  mkPool (baseLoop_ p) (started_ p) n (next_ p) (selectionPolicy_ p) (connectionLoads_ p) (threads_ p) (loops_ p) (running p).
Definition set_next (n : nat) (p : EventLoopThreadPool) : EventLoopThreadPool :=
  mkPool (baseLoop_ p) (started_ p) (numThreads_ p) n (selectionPolicy_ p) (connectionLoads_ p) (threads_ p) (loops_ p) (running p).
Definition set_policy (x : EventLoopSelectionPolicy) (p : EventLoopThreadPool) : EventLoopThreadPool :=
  mkPool (baseLoop_ p) (started_ p) (numThreads_ p) (next_ p) x (connectionLoads_ p) (threads_ p) (loops_ p) (running p).
Definition set_loads (l : list Z) (p : EventLoopThreadPool) : EventLoopThreadPool :=
  mkPool (baseLoop_ p) (started_ p) (numThreads_ p) (next_ p) (selectionPolicy_ p) l (threads_ p) (loops_ p) (running p).
(** [threads_], [loops_], and what runs *)
Definition set_workers (t l r : list nat) (p : EventLoopThreadPool) : EventLoopThreadPool :=
  mkPool (baseLoop_ p) (started_ p) (numThreads_ p) (next_ p) (selectionPolicy_ p) (connectionLoads_ p) t l r.

(** *** Configuration, start and stop *)

Definition setThreadNum (n : Z) : M EventLoopThreadPool unit :=
  run throw_if (n <? 0) invalid_argument ;;
  do p <- get ;;
  run throw_if (started_ p) logic_error ;;
  modify (set_numThreads n).

Definition setLoopSelectionPolicy (x : EventLoopSelectionPolicy) : M EventLoopThreadPool unit :=
  do p <- get ;;
  run throw_if (started_ p) logic_error ;;
  modify (set_policy x).

Definition selectionLoopCount (p : EventLoopThreadPool) : nat := match loops_ p with [] => 1 | _ => length (loops_ p) end.

(** The threads are stopped and everything is reset. *)
Definition stop_threads : M EventLoopThreadPool unit :=
  run modify (fun p => set_workers [] [] (filter (fun l => l ∉ threads_ p) (running p)) p) ;;
  run modify (set_loads []) ;;
  run modify (set_started false) ;;
  modify (set_next 0).

(** What the start of the workers meets: for each, the loop it publishes or an exception;
    whether the callback on the base loop and the allocation of the counts succeed. *)
Record Launch := mkLaunch { worker_loop : nat -> result nat; base_callback : result unit; loads_allocated : result unit }.

(** The loop of [start]: [more] workers to go.  A worker whose [startLoop] throws is
    joined by its destructor. *)
Fixpoint start_workers (e : Launch) (more i : nat) : M EventLoopThreadPool unit :=
  match more with
  | O => ret tt
  | S more =>
      do l <- lift (worker_loop e i) ;;
      run modify (fun p => set_workers (threads_ p ++ [l]) (loops_ p ++ [l]) (running p ++ [l]) p) ;;
      start_workers e more (S i)
  end.

(** The body of the [try]. *)
Definition start_body (e : Launch) (callback : bool) : M EventLoopThreadPool unit :=
  do p <- get ;;
  run start_workers e (Z.to_nat (numThreads_ p)) 0 ;;
  run (if (numThreads_ p =? 0) && callback then lift (base_callback e) else ret tt) ;;
  run lift (loads_allocated e) ;;
  modify (fun p => set_loads (replicate (selectionLoopCount p) 0) p).

Definition start (e : Launch) (callback : bool) : M EventLoopThreadPool unit :=
  do p <- get ;;
  run throw_if (started_ p) logic_error ;;
  run modify (set_started true) ;;
  fun p => match start_body e callback p with
           | (Ok _, p') => (Ok tt, p')
           | (Throw x, p') => (run stop_threads ;; throw x) p'
           end.

Definition stop : M EventLoopThreadPool unit :=
  do p <- get ;;
  let leaked := existsb (fun n => negb (n =? 0)) (connectionLoads_ p) in
  run stop_threads ;;
  throw_if leaked logic_error.

(** *** Selection *)

Definition load_at (i : nat) : M EventLoopThreadPool Z :=
  do p <- get ;; match connectionLoads_ p !! i with Some n => ret n | None => throw undefined_behaviour end.

Definition selectionLoopAt (i : nat) : M EventLoopThreadPool nat :=
  do p <- get ;;
  match loops_ p with
  | [] => if (i =? 0)%nat then ret (baseLoop_ p) else throw out_of_range
  | ls => match ls !! i with Some l => ret l | None => throw out_of_range end
  end.

Definition loopIndex (l : nat) : M EventLoopThreadPool nat :=
  do p <- get ;;
  match loops_ p with
  | [] => if (l =? baseLoop_ p)%nat then ret O else throw invalid_argument
  | ls => match list_find (fun x => x = l) ls with Some (i, _) => ret i | None => throw invalid_argument end
  end.

Definition selectRoundRobinIndex : M EventLoopThreadPool nat :=
  do p <- get ;;
  let index := (next_ p mod selectionLoopCount p)%nat in
  run modify (set_next ((index + 1) mod selectionLoopCount p)%nat) ;;
  ret index.

(** The loop of [selectLeastConnectionsIndex], with [more] candidates to go. *)
Fixpoint least_loop (count start more offset best : nat) : M EventLoopThreadPool nat :=
  match more with
  | O => ret best
  | S more =>
      let candidate := ((start + offset) mod count)%nat in
      do lc <- load_at candidate ;;
      do lb <- load_at best ;;
      least_loop count start more (S offset) (if lc <? lb then candidate else best)
  end.

Definition selectLeastConnectionsIndex : M EventLoopThreadPool nat :=
  do p <- get ;;
  let count := selectionLoopCount p in
  let start := (next_ p mod count)%nat in
  do best <- least_loop count start (count - 1) 1 start ;;
  run modify (set_next ((best + 1) mod count)%nat) ;;
  ret best.

(** [pendingFunctorLoadSnapshot] of a loop: the number of functors and the time the
    first was queued. *)
Definition Snapshot := nat -> Z * Z.

Definition lag_better (candidate best : Z * Z) : bool :=
  let candidateEmpty := fst candidate =? 0 in
  let bestEmpty := fst best =? 0 in
  (candidateEmpty && negb bestEmpty) ||
  (eqb candidateEmpty bestEmpty && negb candidateEmpty &&
   ((snd best <? snd candidate) || ((snd candidate =? snd best) && (fst candidate <? fst best)))).

Fixpoint lag_loop (snap : Snapshot) (count start more offset best : nat) (bestLoad : Z * Z) : M EventLoopThreadPool nat :=
  match more with
  | O => ret best
  | S more =>
      let candidate := ((start + offset) mod count)%nat in
      do l <- selectionLoopAt candidate ;;
      if lag_better (snap l) bestLoad then lag_loop snap count start more (S offset) candidate (snap l)
      else lag_loop snap count start more (S offset) best bestLoad
  end.

Definition selectQueueLagIndex (snap : Snapshot) : M EventLoopThreadPool nat :=
  do p <- get ;;
  let count := selectionLoopCount p in
  let start := (next_ p mod count)%nat in
  do l <- selectionLoopAt start ;;
  do best <- lag_loop snap count start (count - 1) 1 start (snap l) ;;
  run modify (set_next ((best + 1) mod count)%nat) ;;
  ret best.

(** Hashing, on 64-bit words. *)
Definition stableKeyHash (value : list byte) : Z :=
  foldl (fun hash b => Z.lxor hash (byte_val b) ⊗ 1099511628211) 14695981039346656037 value.

Definition mix64 (value : Z) : Z :=
  let value := value ⊕ 0x9e3779b97f4a7c15 in
  let value := Z.lxor value (Z.shiftr value 30) ⊗ 0xbf58476d1ce4e5b9 in
  let value := Z.lxor value (Z.shiftr value 27) ⊗ 0x94d049bb133111eb in
  Z.lxor value (Z.shiftr value 31).

Definition score (keyHash : Z) (index : nat) : Z := mix64 (Z.lxor keyHash (mix64 (Z.of_nat index ⊕ 1))).

(** The loop over the first [count] indexes. *)
Fixpoint hash_loop (keyHash : Z) (more index best : nat) (bestScore : Z) : nat :=
  match more with
  | O => best
  | S more =>
      let s := score keyHash index in
      if (index =? 0)%nat || (bestScore <? s) then hash_loop keyHash more (S index) index s
      else hash_loop keyHash more (S index) best bestScore
  end.

Definition hash_index (count : nat) (key : list byte) : nat := hash_loop (stableKeyHash key) count 0 0 0.

Definition selectConsistentHashIndex (key : list byte) : M EventLoopThreadPool nat :=
  do p <- get ;;
  match key with
  | [] => throw invalid_argument
  | _ => ret (hash_index (selectionLoopCount p) key)
  end.

Definition selectLoop (snap : Snapshot) (affinityKey : list byte) : M EventLoopThreadPool nat :=
  do p <- get ;;
  match loops_ p with
  | [] => ret (baseLoop_ p)
  | _ =>
      do index <- match selectionPolicy_ p with
                  | RoundRobin => selectRoundRobinIndex
                  | LeastConnections => selectLeastConnectionsIndex
                  | QueueLag => selectQueueLagIndex snap
                  | ConsistentHash => selectConsistentHashIndex affinityKey
                  end ;;
      selectionLoopAt index
  end.

(** *** Counting connections *)

Definition recordConnectionOpened (l : nat) : M EventLoopThreadPool unit :=
  do p <- get ;;
  run throw_if (negb (started_ p) || (length (connectionLoads_ p) =? 0)%nat) logic_error ;;
  do i <- loopIndex l ;;
  do n <- load_at i ;;
  run throw_if (n =? usize_max) overflow_error ;;
  modify (fun p => set_loads (<[i := n + 1]> (connectionLoads_ p)) p).

Definition recordConnectionClosed (l : nat) : M EventLoopThreadPool unit :=
  do p <- get ;;
  run throw_if (negb (started_ p) || (length (connectionLoads_ p) =? 0)%nat) logic_error ;;
  do i <- loopIndex l ;;
  do n <- load_at i ;;
  run throw_if (n =? 0) logic_error ;;
  modify (fun p => set_loads (<[i := n - 1]> (connectionLoads_ p)) p).

Definition connectionLoad (l : nat) : M EventLoopThreadPool Z :=
  do p <- get ;;
  if negb (started_ p) || (length (connectionLoads_ p) =? 0)%nat then ret 0
  else do i <- loopIndex l ;; load_at i.

(** *** The best of several candidates *)

Section scan.
Context {A : Type} (better : A -> A -> bool).

(** The first candidate that no other beats, as the loops find it. *)
Definition scan (best : A) (l : list A) : A := foldl (fun b c => if better c b then c else b) best l.

Lemma scan_best best l :
  (forall a b c, better a b = true -> better b c = true -> better a c = true) ->
  (forall a b c, better a c = true -> better a b = true \/ better b c = true) ->
  (forall a, better a a = false) ->
  exists l1 l2, best :: l = l1 ++ scan best l :: l2 /\
    Forall (fun x => better x (scan best l) = false) (best :: l) /\ Forall (fun x => better (scan best l) x = true) l1.
Proof.
  intros Ht Hn Hi. induction l as [|x l IH] using rev_ind; [exists [], []; simpl; auto|].
  destruct IH as (l1 & l2 & E & Hall & Hl1). unfold scan in *. rewrite foldl_app. cbn [foldl]. set (r := foldl _ best l) in *.
  assert (best :: l ++ [x] = (best :: l) ++ [x]) as -> by done.
  destruct (better x r) eqn:Ex.
  - exists (best :: l), []. split; [done|]. split.
    + apply Forall_app. split; [|by repeat constructor]. eapply Forall_impl; [exact Hall|]. intros y Hy. cbn in Hy.
      destruct (better y x) eqn:Ey; [|done]. by rewrite (Ht y x r Ey Ex) in Hy.
    + eapply Forall_impl; [exact Hall|]. intros y Hy. cbn in Hy. destruct (Hn x y r Ex) as [?|Hy']; [done|congruence].
  - exists l1, (l2 ++ [x]). split; [by rewrite E, <-app_assoc|]. split; [|done]. apply Forall_app. split; [done|]. by repeat constructor.
Qed.
End scan.

(** The candidates in the order they are looked at. *)
Definition candidates (count start : nat) : list nat := (fun k => (start + k) mod count)%nat <$> seq 0 count.

Lemma candidates_cons count start : (0 < count)%nat -> (start < count)%nat ->
  candidates count start = start :: ((fun k => (start + k) mod count)%nat <$> seq 1 (count - 1)).
Proof.
  intros Hc Hs. unfold candidates. destruct count as [|n]; [lia|]. cbn [seq fmap list_fmap]. f_equal; [|by rewrite Nat.sub_1_r].
  rewrite Nat.add_0_r. by apply Nat.mod_small.
Qed.

Lemma candidates_all count start i : (0 < count)%nat -> (i < count)%nat -> i ∈ candidates count start.
Proof.
  intros Hc Hi. apply list_elem_of_fmap. exists ((i + (count - start mod count)) mod count)%nat.
  pose proof (Nat.mod_upper_bound start count). split; [|apply elem_of_seq; split; [lia|apply Nat.mod_upper_bound; lia]].
  rewrite Nat.Div0.add_mod_idemp_r. rewrite (Nat.div_mod_eq start count) at 1.
  replace (count * (start / count) + start mod count + (i + (count - start mod count)))%nat with (i + (start / count + 1) * count)%nat by nia.
  rewrite Nat.Div0.mod_add. symmetry. by apply Nat.mod_small.
Qed.

Lemma candidates_bound count start i : (0 < count)%nat -> i ∈ candidates count start -> (i < count)%nat.
Proof. intros Hc Hi. apply list_elem_of_fmap in Hi as (k & -> & _). apply Nat.mod_upper_bound. lia. Qed.

(** [r] is the first of the best candidates. *)
Definition first_best (better : nat -> nat -> bool) (count start r : nat) : Prop :=
  (r < count)%nat /\ (forall i, (i < count)%nat -> better i r = false) /\
  exists l1 l2, candidates count start = l1 ++ r :: l2 /\ Forall (fun i => better r i = true) l1.

Lemma scan_first_best better count start : (0 < count)%nat -> (start < count)%nat ->
  (forall a b c, better a b = true -> better b c = true -> better a c = true) ->
  (forall a b c, better a c = true -> better a b = true \/ better b c = true) ->
  (forall a, better a a = false) ->
  first_best better count start (scan better start ((fun k => (start + k) mod count)%nat <$> seq 1 (count - 1))).
Proof.
  intros Hc Hs Ht Hn Hi. set (l := _ <$> seq 1 (count - 1)). destruct (scan_best better start l Ht Hn Hi) as (l1 & l2 & E & Hall & Hl1).
  pose proof (candidates_cons count start Hc Hs) as Ec. fold l in Ec. rewrite <-Ec in *. split_and!.
  - apply (candidates_bound count start); [done|]. rewrite E. apply elem_of_app. right. left.
  - intros i Hlt. rewrite Forall_forall in Hall. apply Hall. by apply candidates_all.
  - by exists l1, l2.
Qed.

(** *** The invariant *)

Record pool_ok (p : EventLoopThreadPool) : Prop := {
  po_threads : threads_ p = loops_ p /\ running p = loops_ p /\ NoDup (loops_ p);
  po_loads : if started_ p then length (connectionLoads_ p) = selectionLoopCount p
             else connectionLoads_ p = [] /\ loops_ p = [] /\ next_ p = O;
  po_range : Forall is_usize (connectionLoads_ p);
  po_count : 0 <= numThreads_ p;
}.

Lemma count_pos p : (0 < selectionLoopCount p)%nat.
Proof. unfold selectionLoopCount. destruct (loops_ p); simpl; lia. Qed.

Lemma load_at_ok i p : (i < length (connectionLoads_ p))%nat ->
  load_at i p = (Ok (default 0 (connectionLoads_ p !! i)), p).
Proof. intros Hi. apply lookup_lt_is_Some in Hi as [n Hn]. unfold load_at, bindM, get. by rewrite Hn. Qed.

Definition less_loaded (p : EventLoopThreadPool) (a b : nat) : bool :=
  default 0 (connectionLoads_ p !! a) <? default 0 (connectionLoads_ p !! b).

Lemma least_loop_ok p count start : length (connectionLoads_ p) = count -> (0 < count)%nat -> forall more offset best, (best < count)%nat ->
  least_loop count start more offset best p = (Ok (scan (less_loaded p) best ((fun k => (start + k) mod count)%nat <$> seq offset more)), p).
Proof.
  intros Hl Hc. induction more as [|more IH]; intros offset best Hb; [done|]. cbn [least_loop].
  assert ((start + offset) mod count < length (connectionLoads_ p))%nat as Hc' by (rewrite Hl; apply Nat.mod_upper_bound; lia).
  assert (best < length (connectionLoads_ p))%nat as Hb' by lia.
  rewrite (bindM_ok _ _ _ _ _ (load_at_ok _ p Hc')), (bindM_ok _ _ _ _ _ (load_at_ok best p Hb')).
  rewrite IH by (case_match; lia). reflexivity.
Qed.

(** The loop at an index. *)
Definition loop_of (p : EventLoopThreadPool) (i : nat) : nat := match loops_ p with [] => baseLoop_ p | ls => default (baseLoop_ p) (ls !! i) end.

Lemma selectionLoopAt_of p i : (i < selectionLoopCount p)%nat -> selectionLoopAt i p = (Ok (loop_of p i), p).
Proof.
  unfold selectionLoopAt, selectionLoopCount, loop_of, bindM, get. destruct (loops_ p) as [|l ls] eqn:E; intros Hi.
  - by assert (i = O) as -> by lia.
  - apply lookup_lt_is_Some in Hi as [x Hx]. by rewrite Hx.
Qed.

Definition less_lag (snap : Snapshot) (p : EventLoopThreadPool) (a b : nat) : bool := lag_better (snap (loop_of p a)) (snap (loop_of p b)).

Lemma lag_loop_ok snap p start : forall more offset best,
  lag_loop snap (selectionLoopCount p) start more offset best (snap (loop_of p best)) p =
    (Ok (scan (less_lag snap p) best ((fun k => (start + k) mod selectionLoopCount p)%nat <$> seq offset more)), p).
Proof.
  pose proof (count_pos p). induction more as [|more IH]; intros offset best; [done|]. cbn [lag_loop].
  assert ((start + offset) mod selectionLoopCount p < selectionLoopCount p)%nat by (apply Nat.mod_upper_bound; lia).
  rewrite (bindM_ok _ _ _ _ _ (selectionLoopAt_of p _ ltac:(done))). unfold scan. cbn [fmap list_fmap seq foldl]. unfold less_lag at 2.
  destruct (lag_better _ _); apply IH.
Qed.

Lemma lag_better_order a b c :
  lag_better a a = false /\ (lag_better a b = true -> lag_better b c = true -> lag_better a c = true) /\
  (lag_better a c = true -> lag_better a b = true \/ lag_better b c = true).
Proof.
  destruct a as [n t], b as [n' t'], c as [n'' t'']. unfold lag_better. cbn [fst snd].
  destruct (n =? 0), (n' =? 0), (n'' =? 0); cbn; split_and!; try tauto; rewrite ?orb_true_iff, ?andb_true_iff, ?Z.ltb_lt, ?Z.eqb_eq; try lia.
  all: by rewrite Z.ltb_irrefl, Z.eqb_refl, Z.ltb_irrefl.
Qed.

(** The policies that compare loops choose the best one, and among equals the first
    in the order of rotation: [LeastConnections] a loop with the fewest
    connections, [QueueLag] one with the least queueing delay (empty before busy, later
    oldest functor before earlier, fewer functors before more). *)
Theorem selection_takes_best p snap : pool_ok p -> started_ p = true ->
  let count := selectionLoopCount p in
  let start := (next_ p mod count)%nat in
  (exists r, selectLeastConnectionsIndex p = (Ok r, set_next ((r + 1) mod count)%nat p) /\ first_best (less_loaded p) count start r) /\
  (exists r, selectQueueLagIndex snap p = (Ok r, set_next ((r + 1) mod count)%nat p) /\ first_best (less_lag snap p) count start r).
Proof.
  intros [_ Hl _ _] Hs. rewrite Hs in Hl. pose proof (count_pos p) as Hc. cbv zeta.
  assert (next_ p mod selectionLoopCount p < selectionLoopCount p)%nat as Hst by (apply Nat.mod_upper_bound; lia). split.
  - eexists. split.
    + unfold selectLeastConnectionsIndex, bindM at 1, get. rewrite (bindM_ok _ _ _ _ _ (least_loop_ok p _ _ Hl Hc _ _ _ Hst)). reflexivity.
    + apply scan_first_best; try done; unfold less_loaded; intros *; zify_bools; lia.
  - eexists. split.
    + unfold selectQueueLagIndex, bindM at 1, get. rewrite (bindM_ok _ _ _ _ _ (selectionLoopAt_of p _ Hst)).
      rewrite (bindM_ok _ _ _ _ _ (lag_loop_ok snap p _ _ _ _)). reflexivity.
    + apply scan_first_best; try done; unfold less_lag; intros *; apply lag_better_order; exact (0, 0).
Qed.

(** *** Round robin *)

(** Successive selections. *)
Fixpoint select_many (k : nat) (snap : Snapshot) (key : list byte) : M EventLoopThreadPool (list nat) :=
  match k with
  | O => ret []
  | S k => do l <- selectLoop snap key ;; do ls <- select_many k snap key ;; ret (l :: ls)
  end.

Lemma round_robin_once p snap key : selectionPolicy_ p = RoundRobin -> loops_ p <> [] ->
  selectLoop snap key p =
    (Ok (loop_of p (next_ p mod selectionLoopCount p)), set_next (S (next_ p mod selectionLoopCount p) mod selectionLoopCount p)%nat p).
Proof.
  intros Hp Hl. pose proof (count_pos p) as Hc.
  assert (next_ p mod selectionLoopCount p < selectionLoopCount p)%nat as Hi by (apply Nat.mod_upper_bound; lia).
  unfold selectLoop, bindM at 1, get. destruct (loops_ p) as [|l ls] eqn:El; [done|]. rewrite Hp.
  unfold selectRoundRobinIndex, bindM, get, modify, ret. rewrite Nat.add_1_r.
  exact (selectionLoopAt_of (set_next (S (next_ p mod selectionLoopCount p) mod selectionLoopCount p) p) _ Hi).
Qed.

Lemma rotation_shift n count i : (0 < count)%nat -> ((S (n mod count) mod count + i) mod count = (n + S i) mod count)%nat.
Proof.
  intros Hc. rewrite Nat.Div0.add_mod_idemp_l, Nat.add_succ_comm. apply Nat.Div0.add_mod_idemp_l.
Qed.

Lemma round_robin_many p snap key k : selectionPolicy_ p = RoundRobin -> loops_ p <> [] ->
  fst (select_many k snap key p) = Ok ((fun i => loop_of p ((next_ p + i) mod selectionLoopCount p)%nat) <$> seq 0 k).
Proof.
  revert p. induction k as [|k IH]; intros p Hp Hl; [done|]. cbn [select_many].
  rewrite (bindM_ok _ _ _ _ _ (round_robin_once p snap key Hp Hl)).
  set (p' := set_next _ p). specialize (IH p' Hp Hl). unfold bindM. destruct (select_many k snap key p') as [[ls|] q]; cbn in IH; [|done].
  cbn. f_equal. injection IH as ->. rewrite Nat.add_0_r. f_equal. rewrite <-(fmap_S_seq 0 k), <-list_fmap_compose.
  apply list_fmap_ext. intros i x _. cbn. f_equal. apply rotation_shift, count_pos.
Qed.

Lemma candidates_perm count start : (0 < count)%nat -> candidates count start ≡ₚ seq 0 count.
Proof.
  intros Hc. symmetry. apply submseteq_length_Permutation.
  - apply NoDup_submseteq; [apply NoDup_seq|]. intros i Hi%elem_of_seq. apply candidates_all; lia.
  - unfold candidates. by rewrite length_fmap, length_seq.
Qed.

Lemma loops_by_index p : loops_ p <> [] -> loop_of p <$> seq 0 (selectionLoopCount p) = loops_ p.
Proof.
  unfold loop_of, selectionLoopCount. destruct (loops_ p) as [|l ls]; [done|]. intros _.
  apply list_eq. intros i. rewrite list_lookup_fmap. destruct (decide (i < length (l :: ls))%nat) as [Hi|Hi].
  - rewrite lookup_seq_lt by done. cbn [fmap option_fmap option_map]. destruct (lookup_lt_is_Some_2 (l :: ls) i Hi) as [x Hx].
    rewrite Nat.add_0_l, Hx. done.
  - rewrite lookup_seq_ge by lia. symmetry. apply lookup_ge_None. lia.
Qed.

(** Round robin is fair: the [i]-th of successive selections is the loop [i] places
    further in rotation, and any number of selections equal to that of the loops goes
    through every loop once. *)
Theorem round_robin_is_fair p snap key k : selectionPolicy_ p = RoundRobin -> loops_ p <> [] ->
  fst (select_many k snap key p) = Ok ((fun i => loop_of p ((next_ p + i) mod selectionLoopCount p)%nat) <$> seq 0 k) /\
  exists ls, fst (select_many (length (loops_ p)) snap key p) = Ok ls /\ ls ≡ₚ loops_ p.
Proof.
  intros Hp Hl. split; [by apply round_robin_many|]. eexists. split; [by apply round_robin_many|].
  assert (length (loops_ p) = selectionLoopCount p) as -> by (unfold selectionLoopCount; by destruct (loops_ p)).
  rewrite <-(loops_by_index p Hl). transitivity (loop_of p <$> candidates (selectionLoopCount p) (next_ p)).
  - unfold candidates. by rewrite <-list_fmap_compose.
  - apply fmap_Permutation, candidates_perm, count_pos.
Qed.

Definition three_loops : EventLoopThreadPool := mkPool 9 true 3 2 RoundRobin [1; 0; 0] [4; 5; 6]%nat [4; 5; 6]%nat [4; 5; 6]%nat.

Lemma round_robin_is_fair_witness : fst (select_many 4 (fun _ => (0, 0)) [] three_loops) = Ok [6; 4; 5; 6]%nat.
Proof. exact (proj1 (round_robin_is_fair three_loops (fun _ => (0, 0)) [] 4 eq_refl ltac:(done))). Defined.

Lemma three_loops_ok : pool_ok three_loops.
Proof. split; cbn; [|done| |done]; [split_and!; [done..|]; apply (bool_decide_unpack _); by vm_compute|by repeat constructor]. Qed.

Lemma selection_takes_best_witness : exists r, selectLeastConnectionsIndex three_loops = (Ok r, set_next ((r + 1) mod 3)%nat three_loops).
Proof.
  destruct (selection_takes_best three_loops (fun _ => (0, 0)) three_loops_ok eq_refl) as [(r & H & _) _]. by exists r.
Defined.

(** *** Consistent hashing *)

Lemma hash_loop_scan h : forall more index best,
  hash_loop h more (S index) best (score h best) = scan (fun a b => score h b <? score h a) best (seq (S index) more).
Proof.
  induction more as [|more IH]; intros index best; [done|]. cbn [hash_loop Nat.eqb orb seq].
  unfold scan in *. cbn [foldl]. destruct (_ <? _); apply IH.
Qed.

Lemma hash_index_scan n key : (0 < n)%nat ->
  hash_index n key = scan (fun a b => score (stableKeyHash key) b <? score (stableKeyHash key) a) 0%nat (seq 1 (n - 1)).
Proof. intros Hn. destruct n as [|n]; [lia|]. rewrite Nat.sub_1_r. exact (hash_loop_scan _ n 0 0). Qed.

Lemma hash_index_best n key : (0 < n)%nat -> let r := hash_index n key in
  (r < n)%nat /\ (forall i, (i < n)%nat -> score (stableKeyHash key) i <= score (stableKeyHash key) r) /\
  (forall i, (i < r)%nat -> score (stableKeyHash key) i < score (stableKeyHash key) r).
Proof.
  intros Hn. cbv zeta. rewrite (hash_index_scan n key Hn). set (h := stableKeyHash key).
  destruct (scan_best (fun a b => score h b <? score h a) 0%nat (seq 1 (n - 1))) as (l1 & l2 & E & Hall & Hl1);
    [intros *; rewrite !Z.ltb_lt; lia|intros *; rewrite !Z.ltb_lt; lia|intros; apply Z.ltb_irrefl|].
  assert (0%nat :: seq 1 (n - 1) = seq 0 n) as Es by (destruct n; [lia|]; cbn; by rewrite Nat.sub_0_r).
  rewrite Es in *. set (r := scan _ _ _) in *.
  assert (seq 0 n !! length l1 = Some r) as Hr by (rewrite E; by apply list_lookup_middle).
  apply lookup_seq in Hr as [Er Hr]. cbn in Er. rewrite Forall_forall in Hall, Hl1. split_and!; [lia|..].
  - intros i Hi. specialize (Hall i (proj2 (elem_of_seq 0 n i) ltac:(lia))). cbn in Hall. zify_bools. lia.
  - intros i Hi. assert (i ∈ l1) as Hin; [|specialize (Hl1 i Hin); cbn in Hl1; zify_bools; lia].
    apply list_elem_of_lookup_2 with i. rewrite <-(lookup_app_l l1 (r :: l2)) by lia. rewrite <-E. apply lookup_seq. lia.
Qed.

Lemma hash_index_grows n key : (0 < n)%nat -> hash_index (S n) key = hash_index n key \/ hash_index (S n) key = n.
Proof.
  intros Hn. rewrite !hash_index_scan by lia. replace (S n - 1)%nat with (n - 1 + 1)%nat by lia. rewrite seq_app. unfold scan.
  rewrite foldl_app. cbn [foldl seq]. replace (1 + (n - 1))%nat with n by lia. case_match; [by right|by left].
Qed.

(** Consistent hashing: a key always goes to the loop with the highest score, the
    lowest index among equals, whatever was selected before; an empty key is refused; and
    in a pool with one loop more a key either stays where it was or moves to the new loop. *)
Theorem consistent_hash_is_stable p snap key : selectionPolicy_ p = ConsistentHash -> loops_ p <> [] ->
  let n := selectionLoopCount p in
  let h := stableKeyHash key in
  selectLoop snap [] p = (Throw invalid_argument, p) /\
  (key <> [] -> exists r, selectLoop snap key p = (Ok (loop_of p r), p) /\ r = hash_index n key /\ (r < n)%nat /\
    (forall i, (i < n)%nat -> score h i <= score h r) /\ (forall i, (i < r)%nat -> score h i < score h r)) /\
  (hash_index (S n) key = hash_index n key \/ hash_index (S n) key = n).
Proof.
  intros Hp Hl. cbv zeta. pose proof (count_pos p) as Hc. split_and!; [| |by apply hash_index_grows].
  - unfold selectLoop, bindM at 1, get. destruct (loops_ p); [done|]. by rewrite Hp.
  - intros Hk. exists (hash_index (selectionLoopCount p) key). destruct (hash_index_best _ key Hc) as (Hr & Hmax & Hfirst).
    split_and!; [|done..]. unfold selectLoop, bindM at 1, get. destruct (loops_ p) eqn:El; [done|]. rewrite Hp.
    unfold selectConsistentHashIndex, bindM, get. destruct key; [done|]. exact (selectionLoopAt_of p _ Hr).
Qed.

Lemma consistent_hash_is_stable_witness :
  exists r, selectLoop (fun _ => (0, 0)) [byte_of 65; byte_of 66] (set_policy ConsistentHash three_loops) = (Ok (loop_of three_loops r), set_policy ConsistentHash three_loops).
Proof.
  destruct (proj1 (proj2 (consistent_hash_is_stable (set_policy ConsistentHash three_loops) (fun _ => (0, 0)) [byte_of 65; byte_of 66] eq_refl ltac:(done))) ltac:(done))
    as (r & H & _). by exists r.
Defined.

(** *** Start and stop *)

(** A pool at rest, with what was configured. *)
Definition at_rest (p : EventLoopThreadPool) : EventLoopThreadPool :=
  mkPool (baseLoop_ p) false (numThreads_ p) 0 (selectionPolicy_ p) [] [] [] [].

Lemma filter_not_all (l : list nat) : filter (fun x => x ∉ l) l = [].
Proof.
  destruct (filter (fun x => x ∉ l) l) as [|x k] eqn:E; [done|]. exfalso.
  assert (x ∈ filter (fun x => x ∉ l) l) as [Hx Hx']%list_elem_of_filter by (rewrite E; left). done.
Qed.

Lemma stop_threads_rest p : running p = threads_ p -> stop_threads p = (Ok tt, at_rest p).
Proof. intros H. unfold stop_threads, bindM, modify. cbn. rewrite H, filter_not_all. done. Qed.

(** The loops that start, up to the first failure. *)
Fixpoint launched (e : Launch) (more i : nat) : list nat * result unit :=
  match more with
  | O => ([], Ok tt)
  | S more => match worker_loop e i with Ok l => let (ls, r) := launched e more (S i) in (l :: ls, r) | Throw x => ([], Throw x) end
  end.

Lemma start_workers_launched e : forall more i p,
  start_workers e more i p =
    let (ls, r) := launched e more i in (r, set_workers (threads_ p ++ ls) (loops_ p ++ ls) (running p ++ ls) p).
Proof.
  induction more as [|more IH]; intros i p; cbn; [by rewrite !app_nil_r; destruct p|].
  unfold bindM, lift. destruct (worker_loop e i) as [l|x]; [|by rewrite !app_nil_r; destruct p].
  unfold modify. rewrite IH. destruct (launched e more (S i)) as [ls r]. cbn. by rewrite <-!app_assoc.
Qed.

Lemma launched_ok e : forall more i ls, launched e more i = (ls, Ok tt) ->
  length ls = more /\ forall k l, ls !! k = Some l -> worker_loop e (i + k) = Ok l.
Proof.
  induction more as [|more IH]; intros i ls; cbn; [by intros [= <-]|]. destruct (worker_loop e i) as [l|x] eqn:El; [|done].
  destruct (launched e more (S i)) as [ls' r] eqn:E. intros [= <- ->]. destruct (IH _ _ E) as [Hn Hk]. split; [cbn; by rewrite Hn|].
  intros [|k] l' Hl'; cbn in Hl'; [injection Hl' as <-; by rewrite Nat.add_0_r|]. rewrite <-Nat.add_succ_comm. by apply Hk.
Qed.

Lemma launched_fails e : forall more i ls x, launched e more i = (ls, Throw x) ->
  exists k, (k < more)%nat /\ worker_loop e (i + k) = Throw x.
Proof.
  induction more as [|more IH]; intros i ls x; cbn; [done|]. destruct (worker_loop e i) as [l|y] eqn:El.
  - destruct (launched e more (S i)) as [ls' r] eqn:E. intros [= <- ->]. destruct (IH _ _ _ E) as (k & Hk & Hx).
    exists (S k). split; [lia|]. by rewrite <-Nat.add_succ_comm.
  - intros [= <- ->]. exists O. split; [lia|]. by rewrite Nat.add_0_r.
Qed.

(** A start that succeeds. *)
Definition launch_succeeds (e : Launch) (callback : bool) (n : nat) : Prop :=
  (forall i, (i < n)%nat -> is_Some (match worker_loop e i with Ok l => Some l | Throw _ => None end)) /\
  (n = O -> callback = true -> base_callback e = Ok tt) /\ loads_allocated e = Ok tt.

Definition started_pool (p : EventLoopThreadPool) (ls : list nat) : EventLoopThreadPool :=
  set_loads (replicate (match ls with [] => 1 | _ => length ls end) 0) (set_workers ls ls ls (set_started true p)).

Lemma start_outcome e callback p : pool_ok p -> started_ p = false -> let n := Z.to_nat (numThreads_ p) in
  match start e callback p with
  | (Ok _, p') => exists ls, launched e n 0 = (ls, Ok tt) /\ length ls = n /\ p' = started_pool p ls /\ launch_succeeds e callback n
  | (Throw _, p') => p' = p /\ ~ launch_succeeds e callback n
  end.
Proof.
  intros [(Ht & Hr & _) Hl _ Hc] Hs. rewrite Hs in Hl. destruct Hl as (Hld & Hlo & Hn). cbv zeta.
  unfold start, bindM at 1, get, throw_if. rewrite Hs. unfold bindM at 1, ret, bindM at 1, modify.
  unfold start_body, bindM at 1, get. cbn [numThreads_ set_started].
  unfold bindM at 1. rewrite start_workers_launched. cbn [threads_ loops_ running set_started]. rewrite Ht, Hr, Hlo. cbn [app].
  assert (forall q, running q = threads_ q -> baseLoop_ q = baseLoop_ p -> numThreads_ q = numThreads_ p -> selectionPolicy_ q = selectionPolicy_ p ->
    forall x, (run stop_threads ;; throw (A := unit) x) q = (Throw x, p)) as Hundo.
  { intros q Hq Hb Hnt Hp x. rewrite (bindM_ok _ _ _ _ _ (stop_threads_rest q Hq)). unfold throw, at_rest. rewrite Hb, Hnt, Hp.
    destruct p; cbn in *. by subst. }
  destruct (launched e (Z.to_nat (numThreads_ p)) 0) as [ls [[]|x]] eqn:El.
  2: { rewrite Hundo by done. split; [done|]. intros [Hall _]. destruct (launched_fails _ _ _ _ _ El) as (k & Hk & Hx).
       destruct (Hall k Hk) as [l Hl']. cbn in Hx. by rewrite Hx in Hl'. }
  destruct (launched_ok _ _ _ _ El) as [Hlen Hk].
  unfold bindM at 1. destruct ((numThreads_ p =? 0) && callback) eqn:Ecb.
  - unfold lift. zify_bools. destruct (base_callback e) as [[]|x] eqn:Eb.
    2: { rewrite Hundo by done. split; [done|]. intros (_ & Hcb & _). rewrite Hcb in Eb; [done|lia|done]. }
    unfold bindM at 1. destruct (loads_allocated e) as [[]|x] eqn:Ea; [|rewrite Hundo by done; split; [done|]; by intros (_ & _ & ?); congruence].
    exists ls. split_and!; [done..|]. split_and!; [|done..]. intros i Hi. destruct (lookup_lt_is_Some_2 ls i ltac:(lia)) as [l Hil].
    pose proof (Hk _ _ Hil) as Hw. cbn in Hw. rewrite Hw. by eexists.
  - unfold ret, lift, bindM at 1. destruct (loads_allocated e) as [[]|x] eqn:Ea; [|rewrite Hundo by done; split; [done|]; by intros (_ & _ & ?); congruence].
    exists ls. split_and!; [done..|]. split_and!; [| |done].
    + intros i Hi. destruct (lookup_lt_is_Some_2 ls i ltac:(lia)) as [l Hil]. pose proof (Hk _ _ Hil) as Hw. cbn in Hw. rewrite Hw. by eexists.
    + intros Hz ->. exfalso. zify_bools; lia.
Qed.

(** Starting is all or nothing: either every worker runs, in order, with no
    connection counted, or, exactly when a worker, the callback on the base loop or an
    allocation fails, the pool is what it was before with nothing left running.
    A pool cannot be started twice.  Stopping always leaves nothing running and everything
    reset, and throws afterwards exactly when a connection was still counted. *)
Theorem start_is_all_or_nothing e callback p : pool_ok p ->
  (started_ p = true -> start e callback p = (Throw logic_error, p)) /\
  (started_ p = false -> let n := Z.to_nat (numThreads_ p) in
   (is_Some (match fst (start e callback p) with Ok _ => Some tt | Throw _ => None end) <-> launch_succeeds e callback n) /\
   match start e callback p with
   | (Ok _, p') => started_ p' = true /\ length (loops_ p') = n /\ running p' = loops_ p' /\ threads_ p' = loops_ p' /\
       (forall i l, loops_ p' !! i = Some l -> worker_loop e i = Ok l) /\ connectionLoads_ p' = replicate (selectionLoopCount p') 0
   | (Throw _, p') => p' = p /\ running p' = []
   end) /\
  stop p = (if existsb (fun n => negb (n =? 0)) (connectionLoads_ p) then Throw logic_error else Ok tt, at_rest p).
Proof.
  intros Hp. split_and!.
  - intros Hs. unfold start, bindM, get, throw_if. by rewrite Hs.
  - intros Hs. cbv zeta. pose proof (start_outcome e callback p Hp Hs) as H. cbv zeta in H. destruct (start e callback p) as [[[]|x] p'].
    + destruct H as (ls & El & Hn & -> & Hl). split; [split; [done|by eexists]|]. split_and!; try done. intros i l Hil. by apply (proj2 (launched_ok _ _ _ _ El)).
    + destruct H as (-> & Hl). split; [split; [by intros []|done]|]. split; [done|]. destruct Hp as [(? & Hr & _) Hld _ _]. rewrite Hs in Hld. rewrite Hr. apply Hld.
  - destruct Hp as [(Ht & Hr & _) _ _ _]. unfold stop, bindM at 1, get. cbv zeta. rewrite (bindM_ok _ _ _ _ _ (stop_threads_rest p ltac:(congruence))).
    unfold throw_if. by destruct (existsb _ _).
Qed.

Lemma start_is_all_or_nothing_witness :
  stop three_loops = (Throw logic_error, at_rest three_loops).
Proof.
  exact (proj2 (proj2 (start_is_all_or_nothing (mkLaunch (fun i => Ok i) (Ok tt) (Ok tt)) false three_loops three_loops_ok))).
Defined.

(** *** Counting connections over a life *)

Inductive PoolOp :=
  | OSetThreads (n : Z)
  | OSetPolicy (x : EventLoopSelectionPolicy)
  | OStart (e : Launch) (callback : bool)
  | OStop
  | OSelect (snap : Snapshot) (key : list byte)
  | OOpened (l : nat)
  | OClosed (l : nat).

Definition pool_op (o : PoolOp) (p : EventLoopThreadPool) : result unit * EventLoopThreadPool :=
  match o with
  | OSetThreads n => setThreadNum n p
  | OSetPolicy x => setLoopSelectionPolicy x p
  | OStart e callback => start e callback p
  | OStop => stop p
  | OSelect snap key => (run selectLoop snap key ;; ret tt) p
  | OOpened l => recordConnectionOpened l p
  | OClosed l => recordConnectionClosed l p
  end.

(** Connections of a loop that were opened and not closed, since the pool last started:
    what the counts should say. *)
Definition balance_after (o : PoolOp) (r : result unit) (balance : nat -> Z) : nat -> Z :=
  match o, r with
  | OStop, _ | OStart _ _, Ok _ => fun _ => 0
  | OOpened l, Ok _ => fun x => if decide (x = l) then balance x + 1 else balance x
  | OClosed l, Ok _ => fun x => if decide (x = l) then balance x - 1 else balance x
  | _, _ => balance
  end.

(** Workers own different loops. *)
Definition op_sound (o : PoolOp) : Prop :=
  match o with OStart e _ => forall i j l, worker_loop e i = Ok l -> worker_loop e j = Ok l -> i = j | _ => True end.

Inductive pool_life (base : nat) : EventLoopThreadPool -> (nat -> Z) -> Prop :=
  | pl_new : pool_life base (EventLoopThreadPool_new base) (fun _ => 0)
  | pl_op p balance o : pool_life base p balance -> op_sound o ->
      pool_life base (snd (pool_op o p)) (balance_after o (fst (pool_op o p)) balance).

Definition getAllLoops (p : EventLoopThreadPool) : list nat := match loops_ p with [] => [baseLoop_ p] | ls => ls end.

Definition member (p : EventLoopThreadPool) (l : nat) : Prop := l ∈ getAllLoops p.

Lemma loop_of_inj p i j : NoDup (loops_ p) -> (i < selectionLoopCount p)%nat -> (j < selectionLoopCount p)%nat -> loop_of p i = loop_of p j -> i = j.
Proof.
  unfold loop_of, selectionLoopCount. destruct (loops_ p) as [|l ls]; [lia|]. intros Hn Hi Hj.
  destruct (lookup_lt_is_Some_2 (l :: ls) i Hi) as [x Hx], (lookup_lt_is_Some_2 (l :: ls) j Hj) as [y Hy]. rewrite Hx, Hy. cbn. intros ->.
  by eapply NoDup_lookup.
Qed.

Lemma loopIndex_of p i : NoDup (loops_ p) -> (i < selectionLoopCount p)%nat -> loopIndex (loop_of p i) p = (Ok i, p).
Proof.
  unfold loopIndex, loop_of, selectionLoopCount, bindM, get. destruct (loops_ p) as [|l ls]; intros Hn Hi.
  - assert (i = O) as -> by lia. by rewrite Nat.eqb_refl.
  - destruct (lookup_lt_is_Some_2 (l :: ls) i Hi) as [x Hx]. rewrite Hx. cbn [default].
    destruct (list_find _ (l :: ls)) as [[j y]|] eqn:E.
    + apply list_find_Some in E as (Hy & -> & _). by rewrite (NoDup_lookup _ _ _ _ Hn Hx Hy).
    + exfalso. apply list_find_None in E. rewrite Forall_forall in E. by apply (E x), eq_refl; eapply list_elem_of_lookup_2.
Qed.

Lemma loopIndex_stranger p l : ~ member p l -> loopIndex l p = (Throw invalid_argument, p).
Proof.
  unfold loopIndex, member, getAllLoops, bindM, get. destruct (loops_ p) as [|x ls]; intros Hm.
  - rewrite list_elem_of_singleton in Hm. by apply Nat.eqb_neq in Hm as ->.
  - destruct (list_find _ (x :: ls)) as [[j y]|] eqn:E; [|done]. apply list_find_Some in E as (Hy & -> & _). exfalso. apply Hm.
    by eapply list_elem_of_lookup_2.
Qed.

Lemma member_loop_of p l : member p l <-> exists i, (i < selectionLoopCount p)%nat /\ l = loop_of p i.
Proof.
  unfold member, getAllLoops, loop_of, selectionLoopCount. destruct (loops_ p) as [|x ls]; split.
  - intros ->%list_elem_of_singleton. exists O. split; [lia|done].
  - intros (i & _ & ->). by left.
  - intros (i & Hi)%list_elem_of_lookup_1. exists i. split; [by eapply lookup_lt_Some|]. by rewrite Hi.
  - intros (i & Hi & ->). destruct (lookup_lt_is_Some_2 (x :: ls) i Hi) as [y Hy]. rewrite Hy. by eapply list_elem_of_lookup_2.
Qed.

(** What holds throughout: the counts are the balance. *)
Record counted (p : EventLoopThreadPool) (balance : nat -> Z) : Prop := {
  ct_ok : pool_ok p;
  ct_loads : started_ p = true -> forall i, (i < selectionLoopCount p)%nat -> connectionLoads_ p !! i = Some (balance (loop_of p i));
  ct_others : forall l, started_ p = false \/ ~ member p l -> balance l = 0;
}.

Lemma started_counts p : pool_ok p -> started_ p = true ->
  (negb (started_ p) || (length (connectionLoads_ p) =? 0)%nat) = false /\ length (connectionLoads_ p) = selectionLoopCount p.
Proof. intros [_ H _ _] Hs. pose proof (count_pos p). rewrite Hs in *. split; [|done]. rewrite H. cbn. apply Nat.eqb_neq. lia. Qed.

Lemma unstarted_counts p : started_ p = false -> (negb (started_ p) || (length (connectionLoads_ p) =? 0)%nat) = true.
Proof. by intros ->. Qed.

(** Counting one connection up or down. *)
Lemma count_changes p balance balance' i n : counted p balance -> started_ p = true -> (i < selectionLoopCount p)%nat -> is_usize n ->
  (forall x, balance' x = if decide (x = loop_of p i) then n else balance x) ->
  counted (set_loads (<[i := n]> (connectionLoads_ p)) p) balance'.
Proof.
  intros [[(Ht & Hr & Hd) Hl Hrg Hc] Hct Ho] Hs Hi Hn Hb. rewrite Hs in Hl. split.
  - split; [done| |by apply Forall_insert|done]. cbn. rewrite Hs, length_insert. exact Hl.
  - intros _ j Hj. assert (j < selectionLoopCount p)%nat as Hj' by exact Hj. cbn. change (loop_of (set_loads _ p) j) with (loop_of p j).
    rewrite Hb. case_decide as E.
    + apply loop_of_inj in E as ->; [|done..]. apply list_lookup_insert_eq. lia.
    + rewrite list_lookup_insert_ne by congruence. by apply Hct.
  - intros l [Hl'|Hl']; [cbn in Hl'; congruence|]. rewrite Hb, decide_False; [apply Ho; by right|]. intros ->. apply Hl'.
    apply (member_loop_of p). by exists i.
Qed.

(** What the counting operations do in a started pool, by index. *)
Lemma counting p balance i : counted p balance -> started_ p = true -> (i < selectionLoopCount p)%nat ->
  let l := loop_of p i in
  is_usize (balance l) /\ connectionLoad l p = (Ok (balance l), p) /\
  recordConnectionOpened l p = (if balance l =? usize_max then (Throw overflow_error, p) else (Ok tt, set_loads (<[i := balance l + 1]> (connectionLoads_ p)) p)) /\
  recordConnectionClosed l p = (if balance l =? 0 then (Throw logic_error, p) else (Ok tt, set_loads (<[i := balance l - 1]> (connectionLoads_ p)) p)).
Proof.
  intros [Hok Hct _] Hs Hi. cbv zeta. destruct (started_counts p Hok Hs) as [Hb Hlen]. specialize (Hct Hs i Hi).
  assert (load_at i p = (Ok (balance (loop_of p i)), p)) as Hla by (unfold load_at, bindM, get; by rewrite Hct).
  pose proof (loopIndex_of p i (proj2 (proj2 (po_threads p Hok))) Hi) as Hix. split_and!.
  - pose proof (po_range p Hok) as Hr. rewrite Forall_lookup in Hr. by eapply Hr.
  - unfold connectionLoad, bindM at 1, get. rewrite Hb, (bindM_ok _ _ _ _ _ Hix). exact Hla.
  - unfold recordConnectionOpened, bindM at 1, get. rewrite Hb. unfold throw_if, bindM at 1, ret.
    rewrite (bindM_ok _ _ _ _ _ Hix), (bindM_ok _ _ _ _ _ Hla). by destruct (_ =? _).
  - unfold recordConnectionClosed, bindM at 1, get. rewrite Hb. unfold throw_if, bindM at 1, ret.
    rewrite (bindM_ok _ _ _ _ _ Hix), (bindM_ok _ _ _ _ _ Hla). by destruct (_ =? _).
Qed.

Lemma counting_stranger p l : pool_ok p -> started_ p = true -> ~ member p l ->
  recordConnectionOpened l p = (Throw invalid_argument, p) /\ recordConnectionClosed l p = (Throw invalid_argument, p).
Proof.
  intros Hok Hs Hm. destruct (started_counts p Hok Hs) as [Hb _].
  split; [unfold recordConnectionOpened|unfold recordConnectionClosed]; unfold bindM at 1, get; rewrite Hb; unfold throw_if, bindM at 1, ret;
    apply bindM_throw; by apply loopIndex_stranger.
Qed.

Lemma counting_at_rest p l : started_ p = false ->
  connectionLoad l p = (Ok 0, p) /\ recordConnectionOpened l p = (Throw logic_error, p) /\ recordConnectionClosed l p = (Throw logic_error, p).
Proof. intros Hs. unfold connectionLoad, recordConnectionOpened, recordConnectionClosed, bindM, get, throw_if. by rewrite Hs. Qed.

Lemma member_dec p l : member p l \/ ~ member p l.
Proof. unfold member. destruct (decide (l ∈ getAllLoops p)); auto. Qed.

Lemma opened_counted p balance l : counted p balance ->
  counted (snd (recordConnectionOpened l p)) (balance_after (OOpened l) (fst (recordConnectionOpened l p)) balance).
Proof.
  intros Hc. destruct (started_ p) eqn:Hs; [|destruct (counting_at_rest p l Hs) as (_ & -> & _); exact Hc].
  destruct (member_dec p l) as [(i & Hi & ->)%member_loop_of|Hm]; [|destruct (counting_stranger p l (ct_ok _ _ Hc) Hs Hm) as [-> _]; exact Hc].
  destruct (counting p balance i Hc Hs Hi) as (Hu & _ & -> & _). destruct (_ =? _) eqn:E; [exact Hc|]. zify_bools. cbn [fst snd balance_after].
  eapply count_changes; [exact Hc|done..| |]; [unfold is_usize in *; lia|]. intros x. by case_decide as Ex; [rewrite Ex|].
Qed.

Lemma closed_counted p balance l : counted p balance ->
  counted (snd (recordConnectionClosed l p)) (balance_after (OClosed l) (fst (recordConnectionClosed l p)) balance).
Proof.
  intros Hc. destruct (started_ p) eqn:Hs; [|destruct (counting_at_rest p l Hs) as (_ & _ & ->); exact Hc].
  destruct (member_dec p l) as [(i & Hi & ->)%member_loop_of|Hm]; [|destruct (counting_stranger p l (ct_ok _ _ Hc) Hs Hm) as [_ ->]; exact Hc].
  destruct (counting p balance i Hc Hs Hi) as (Hu & _ & _ & ->). destruct (_ =? _) eqn:E; [exact Hc|]. zify_bools. cbn [fst snd balance_after].
  eapply count_changes; [exact Hc|done..| |]; [unfold is_usize in *; lia|]. intros x. by case_decide as Ex; [rewrite Ex|].
Qed.

(** A computation that only reads. *)
Definition reads {A} (m : M EventLoopThreadPool A) : Prop := forall p, snd (m p) = p.

Lemma reads_bind {A B} (m : M EventLoopThreadPool A) (k : A -> M EventLoopThreadPool B) : reads m -> (forall a, reads (k a)) -> reads (bindM m k).
Proof. intros Hm Hk p. unfold bindM. specialize (Hm p). destruct (m p) as [[a|x] p']; cbn in *; subst; [apply Hk|done]. Qed.

Lemma reads_load_at i : reads (load_at i).
Proof. intros p. unfold load_at, bindM, get. by destruct (_ !! _). Qed.

Lemma reads_selectionLoopAt i : reads (selectionLoopAt i).
Proof. intros p. unfold selectionLoopAt, bindM, get. repeat case_match; done. Qed.

Lemma reads_least_loop count start : forall more offset best, reads (least_loop count start more offset best).
Proof. induction more as [|more IH]; intros; [done|]. cbn [least_loop]. repeat (apply reads_bind; [apply reads_load_at|intros]). apply IH. Qed.

Lemma reads_lag_loop snap count start : forall more offset best b, reads (lag_loop snap count start more offset best b).
Proof.
  induction more as [|more IH]; intros; [done|]. cbn [lag_loop]. apply reads_bind; [apply reads_selectionLoopAt|intros]. case_match; apply IH.
Qed.

Lemma least_state p : snd (selectLeastConnectionsIndex p) = p \/ exists k, snd (selectLeastConnectionsIndex p) = set_next k p.
Proof.
  unfold selectLeastConnectionsIndex, bindM at 1 3, get. cbv zeta. unfold bindM.
  pose proof (reads_least_loop (selectionLoopCount p) (next_ p mod selectionLoopCount p) (selectionLoopCount p - 1) 1 (next_ p mod selectionLoopCount p) p) as H.
  destruct (least_loop _ _ _ _ _ p) as [[r|x] p']; cbn in H; subst p'; [right; by eexists|by left].
Qed.

Lemma lag_state snap p : snd (selectQueueLagIndex snap p) = p \/ exists k, snd (selectQueueLagIndex snap p) = set_next k p.
Proof.
  unfold selectQueueLagIndex, bindM at 1 4, get. cbv zeta. unfold bindM.
  pose proof (reads_selectionLoopAt (next_ p mod selectionLoopCount p) p) as H0. destruct (selectionLoopAt _ p) as [[l0|x] p']; cbn in H0; subst p'; [|by left].
  pose proof (reads_lag_loop snap (selectionLoopCount p) (next_ p mod selectionLoopCount p) (selectionLoopCount p - 1) 1 (next_ p mod selectionLoopCount p) (snap l0) p) as H.
  destruct (lag_loop _ _ _ _ _ _ _ p) as [[r|x] p']; cbn in H; subst p'; [right; by eexists|by left].
Qed.

(** A selection moves the rotation at most. *)
Lemma selectLoop_state snap key p : snd (selectLoop snap key p) = p \/ loops_ p <> [] /\ exists k, snd (selectLoop snap key p) = set_next k p.
Proof.
  unfold selectLoop, bindM at 1 3, get. destruct (loops_ p) as [|l ls] eqn:El; [by left|].
  assert (forall (m : M EventLoopThreadPool nat), (snd (m p) = p \/ exists k, snd (m p) = set_next k p) ->
    snd ((do index <- m ;; selectionLoopAt index) p) = p \/ exists k, snd ((do index <- m ;; selectionLoopAt index) p) = set_next k p) as Hat.
  { intros m Hm. unfold bindM. destruct (m p) as [[i|x] p']; cbn in Hm; [|exact Hm]. pose proof (reads_selectionLoopAt i p') as E. destruct (selectionLoopAt i p'); cbn in E |- *; by subst. }
  match goal with |- ?a \/ _ /\ ?b => enough (a \/ b) as [?|?]; [by left|by right|] end.
  apply Hat. destruct (selectionPolicy_ p).
  - right. by eexists.
  - apply least_state.
  - apply lag_state.
  - left. unfold selectConsistentHashIndex, bindM, get. by destruct key.
Qed.

Lemma select_counted p balance k : counted p balance -> loops_ p <> [] -> counted (set_next k p) balance.
Proof.
  intros [[Ht Hl Hr Hc] Hct Ho] Hne. split; [split; cbn; try done|exact Hct|exact Ho]. destruct (started_ p); [exact Hl|]. by destruct Hl as (_ & ? & _).
Qed.

Lemma rest_counted p balance : 0 <= numThreads_ p -> (forall l, balance l = 0) -> counted (at_rest p) balance.
Proof. intros Hn Hb. split; [|done|by intros]. split; cbn; [split_and!; [done..|constructor]|done|constructor|done]. Qed.

Lemma start_counted p balance e callback : counted p balance -> op_sound (OStart e callback) ->
  counted (snd (start e callback p)) (balance_after (OStart e callback) (fst (start e callback p)) balance).
Proof.
  intros Hc Hsound. destruct (started_ p) eqn:Hs; [unfold start, bindM, get, throw_if; by rewrite Hs|].
  pose proof (start_outcome e callback p (ct_ok _ _ Hc) Hs) as H. cbv zeta in H. destruct (start e callback p) as [[[]|x] p'].
  - destruct H as (ls & El & Hn & -> & _). destruct (launched_ok _ _ _ _ El) as [_ Hk]. cbn [fst snd balance_after].
    assert (length (connectionLoads_ (started_pool p ls)) = selectionLoopCount (started_pool p ls)) as Hlen by (cbn; by rewrite length_replicate).
    split; [split|..].
    + split_and!; [done..|]. cbn. apply NoDup_alt. intros i j l Hi Hj. apply Hk in Hi, Hj. apply (Hsound _ _ _ Hi Hj).
    + exact Hlen.
    + cbn. apply Forall_replicate. done.
    + exact (po_count p (ct_ok _ _ Hc)).
    + intros _ i Hi. cbn in Hlen |- *. rewrite length_replicate in Hlen. apply lookup_replicate_2. by rewrite Hlen.
    + done.
  - destruct H as (-> & _). exact Hc.
Qed.

Lemma stop_counted p balance : counted p balance ->
  counted (snd (stop p)) (balance_after OStop (fst (stop p)) balance).
Proof.
  intros Hc. destruct (ct_ok _ _ Hc) as [(Ht & Hr & _) _ _ Hn]. unfold stop, bindM at 1 3, get. cbv zeta.
  rewrite (bindM_ok _ _ _ _ _ (stop_threads_rest p ltac:(congruence))). unfold throw_if. destruct (existsb _ _); by apply rest_counted.
Qed.

Lemma pool_life_counted base p balance : pool_life base p balance -> counted p balance.
Proof.
  induction 1 as [|p balance o H Hc Ho]; [by apply (rest_counted (EventLoopThreadPool_new base))|].
  destruct o as [n|x|e callback| |snap key|l|l]; cbn [pool_op].
  - unfold setThreadNum, bindM, throw_if, get, modify, ret, throw. destruct (n <? 0) eqn:En; [exact Hc|]. destruct (started_ p) eqn:Es; cbn; [exact Hc|].
    destruct Hc as [[Ht Hl Hr _] Hct Hot]. zify_bools. split; [by split|exact Hct|exact Hot].
  - unfold setLoopSelectionPolicy, bindM, throw_if, get, modify, ret, throw. destruct (started_ p) eqn:Es; cbn; [exact Hc|].
    destruct Hc as [[Ht Hl Hr Hn] Hct Hot]. split; [by split|exact Hct|exact Hot].
  - by apply start_counted.
  - by apply stop_counted.
  - unfold bindM. pose proof (selectLoop_state snap key p) as Hsel. destruct (selectLoop snap key p) as [[l|x] p']; cbn in Hsel |- *;
      (destruct Hsel as [->|(Hne & k & ->)]; [exact Hc|by apply select_counted]).
  - by apply opened_counted.
  - by apply closed_counted.
Qed.

(** C23. The counts are exact: whatever the pool went through, the count of a loop is the
    number of connections recorded open and not yet closed since the pool started; it
    stays in the range of its type; opening at the largest count and closing at zero are
    refused; a loop of no worker is refused; and stopping the pool complains exactly when
    some connection was never closed. *)
Theorem counts_are_exact base p balance : pool_life base p balance ->
  pool_ok p /\
  (started_ p = true -> forall l, member p l ->
     connectionLoad l p = (Ok (balance l), p) /\ is_usize (balance l) /\
     (fst (recordConnectionOpened l p) = Ok tt <-> balance l < usize_max) /\
     (fst (recordConnectionClosed l p) = Ok tt <-> 0 < balance l)) /\
  (forall l, started_ p = false \/ ~ member p l -> balance l = 0 /\
     snd (recordConnectionOpened l p) = p /\ snd (recordConnectionClosed l p) = p /\
     fst (recordConnectionOpened l p) <> Ok tt /\ fst (recordConnectionClosed l p) <> Ok tt) /\
  (fst (stop p) = Throw logic_error <-> exists l, balance l <> 0).
Proof.
  intros Hc%pool_life_counted. pose proof (ct_ok _ _ Hc) as Hok. split_and!; [done|..].
  - intros Hs l (i & Hi & ->)%member_loop_of. destruct (counting p balance i Hc Hs Hi) as (Hu & Hl & -> & ->).
    split_and!; [done..| |]; destruct (_ =? _) eqn:E; zify_bools; unfold is_usize in Hu; split; try done; try lia.
  - intros l Hl. split; [by eapply ct_others|]. destruct (started_ p) eqn:Hs.
    + destruct Hl as [|Hm]; [done|]. by destruct (counting_stranger p l Hok Hs Hm) as [-> ->].
    + by destruct (counting_at_rest p l Hs) as (_ & -> & ->).
  - assert (fst (stop p) = Throw logic_error <-> existsb (fun n => negb (n =? 0)) (connectionLoads_ p) = true) as ->.
    { destruct (po_threads p Hok) as (Ht & Hr & _). unfold stop, bindM at 1, get. cbv zeta.
      rewrite (bindM_ok _ _ _ _ _ (stop_threads_rest p ltac:(congruence))). unfold throw_if. by destruct (existsb _ _). }
    rewrite existsb_exists. split.
    + intros (n & Hn%list_elem_of_In & Hz). apply list_elem_of_lookup_1 in Hn as [i Hi]. destruct (started_ p) eqn:Hs.
      * destruct (started_counts p Hok Hs) as [_ Hlen]. assert (i < selectionLoopCount p)%nat as Hlt by (rewrite <-Hlen; by eapply lookup_lt_Some).
        rewrite (ct_loads _ _ Hc Hs i Hlt) in Hi. injection Hi as <-. exists (loop_of p i). zify_bools. done.
      * pose proof (po_loads p Hok) as H. rewrite Hs in H. destruct H as (H & _). by rewrite H in Hi.
    + intros (l & Hl). destruct (started_ p) eqn:Hs; [|by rewrite (ct_others _ _ Hc) in Hl; auto].
      destruct (member_dec p l) as [(i & Hi & ->)%member_loop_of|Hm]; [|by rewrite (ct_others _ _ Hc) in Hl; auto].
      exists (balance (loop_of p i)). split; [|by apply negb_true_iff, Z.eqb_neq]. apply list_elem_of_In. eapply list_elem_of_lookup_2, (ct_loads _ _ Hc Hs i Hi).
Qed.

Lemma counts_are_exact_witness :
  let e := mkLaunch (fun i => Ok (S i)) (Ok tt) (Ok tt) in
  let p := snd (recordConnectionOpened 2 (snd (start e false (snd (setThreadNum 2 (EventLoopThreadPool_new 0)))))) in
  connectionLoad 2 p = (Ok 1, p).
Proof.
  intros e p. assert (pool_life 0 p (balance_after (OOpened 2) (Ok tt) (balance_after (OStart e false) (Ok tt) (fun _ => 0)))) as H.
  { apply (pl_op 0 (snd (start e false (snd (setThreadNum 2 (EventLoopThreadPool_new 0))))) _ (OOpened 2)); [|done].
    apply (pl_op 0 (snd (setThreadNum 2 (EventLoopThreadPool_new 0))) (fun _ => 0) (OStart e false)); [|intros i j l; cbn; congruence].
    apply (pl_op 0 (EventLoopThreadPool_new 0) (fun _ => 0) (OSetThreads 2)); [constructor|done]. }
  assert (member p 2%nat) as Hm by (right; by left).
  exact (proj1 (proj1 (proj2 (counts_are_exact 0 p _ H)) eq_refl 2%nat Hm)).
Defined.

(** *** For the server *)

Lemma counted_ext p b1 b2 : (forall l, b1 l = b2 l) -> counted p b1 -> counted p b2.
Proof. intros E [Ho Hl Hn]. split; [done|intros Hs i Hi; rewrite <-E; by apply Hl|intros l Hl'; rewrite <-E; by apply Hn]. Qed.

Lemma pool_close p balance l : counted p balance -> 0 < balance l ->
  exists p', recordConnectionClosed l p = (Ok tt, p') /\ counted p' (fun x => if decide (x = l) then balance x - 1 else balance x) /\
    started_ p' = started_ p /\ getAllLoops p' = getAllLoops p.
Proof.
  intros Hc Hl. pose proof (closed_counted p balance l Hc) as H.
  destruct (started_ p) eqn:Hs; [|rewrite (ct_others _ _ Hc) in Hl; [lia|by left]].
  destruct (member_dec p l) as [(i & Hi & ->)%member_loop_of|Hm]; [|rewrite (ct_others _ _ Hc) in Hl; [lia|by right]].
  destruct (counting p balance i Hc Hs Hi) as (_ & _ & _ & E). rewrite E in *. destruct (_ =? _) eqn:Ez; [zify_bools; lia|].
  eexists. split_and!; [done|exact H|done..].
Qed.

Lemma pool_open p balance l : counted p balance -> started_ p = true -> member p l ->
  (balance l = usize_max /\ recordConnectionOpened l p = (Throw overflow_error, p)) \/
  exists p', recordConnectionOpened l p = (Ok tt, p') /\ counted p' (fun x => if decide (x = l) then balance x + 1 else balance x) /\
    started_ p' = started_ p /\ getAllLoops p' = getAllLoops p.
Proof.
  intros Hc Hs (i & Hi & ->)%member_loop_of. pose proof (opened_counted p balance (loop_of p i) Hc) as H.
  destruct (counting p balance i Hc Hs Hi) as (_ & _ & E & _). rewrite E in *. destruct (_ =? _) eqn:Ez; [left; by zify_bools|right].
  eexists. split_and!; [done|exact H|done..].
Qed.

Lemma selectionLoopAt_member i l p p' : selectionLoopAt i p = (Ok l, p') -> member p l.
Proof.
  unfold selectionLoopAt, member, getAllLoops, bindM, get. destruct (loops_ p) as [|x ls] eqn:E.
  - destruct (_ =? _)%nat; [|done]. intros [= <- _]. by left.
  - destruct (_ !! i) eqn:Ei; [|done]. intros [= <- _]. by eapply list_elem_of_lookup_2.
Qed.

Lemma select_member_of (m : M EventLoopThreadPool nat) p l p' :
  (snd (m p) = p \/ exists k, snd (m p) = set_next k p) -> (do i <- m ;; selectionLoopAt i) p = (Ok l, p') -> member p l.
Proof.
  intros Hm. unfold bindM. destruct (m p) as [[i|x] p1]; [|done]. cbn in Hm. intros H%selectionLoopAt_member.
  destruct Hm as [->|(k & ->)]; exact H.
Qed.

Lemma pool_select p balance snap key : counted p balance ->
  counted (snd (selectLoop snap key p)) balance /\ started_ (snd (selectLoop snap key p)) = started_ p /\
  getAllLoops (snd (selectLoop snap key p)) = getAllLoops p /\
  (forall l, fst (selectLoop snap key p) = Ok l -> member p l).
Proof.
  intros Hc. split_and!.
  1-3: destruct (selectLoop_state snap key p) as [->|(Hne & k & ->)]; [done|]; first [by apply select_counted|done].
  intros l. unfold selectLoop, bindM at 1, get. destruct (loops_ p) eqn:El; [intros [= <-]; unfold member, getAllLoops; rewrite El; by left|].
  match goal with |- fst ((do i <- ?m ;; _) p) = _ -> _ => set (sel := m); intros Hl; apply (select_member_of sel p l (snd ((do i <- sel ;; selectionLoopAt i) p))) end.
  - subst sel. destruct (selectionPolicy_ p).
    + right. by eexists.
    + apply least_state.
    + apply lag_state.
    + left. unfold selectConsistentHashIndex, bindM, get. by destruct key.
  - rewrite <-Hl. apply surjective_pairing.
Qed.

Lemma pool_stop p balance : counted p balance -> (forall l, balance l = 0) -> stop p = (Ok tt, at_rest p).
Proof.
  intros Hc Hz. destruct (ct_ok _ _ Hc) as [(Ht & Hr & _) Hl _ _]. unfold stop, bindM at 1, get. cbv zeta.
  rewrite (bindM_ok _ _ _ _ _ (stop_threads_rest p ltac:(congruence))). unfold throw_if.
  destruct (existsb _ _) eqn:E; [|done]. apply existsb_exists in E as (n & Hn%list_elem_of_In & Hnz). apply list_elem_of_lookup_1 in Hn as [i Hi].
  destruct (started_ p) eqn:Hs; [|destruct Hl as (Hl & _); by rewrite Hl in Hi].
  rewrite (ct_loads _ _ Hc Hs i) in Hi; [|rewrite <-Hl; by eapply lookup_lt_Some]. injection Hi as <-. by rewrite Hz in Hnz.
Qed.

Lemma pool_start p balance e callback : counted p balance -> op_sound (OStart e callback) -> started_ p = false ->
  match start e callback p with
  | (Ok _, p') => counted p' (fun _ => 0) /\ started_ p' = true
  | (Throw _, p') => p' = p
  end.
Proof.
  intros Hc Hsound Hs. pose proof (start_counted p balance e callback Hc Hsound) as H. pose proof (start_outcome e callback p (ct_ok _ _ Hc) Hs) as Ho.
  cbv zeta in Ho. destruct (start e callback p) as [[[]|x] p']; [destruct Ho as (ls & _ & _ & -> & _); by split|by destruct Ho].
Qed.

Lemma pool_select_total p snap key : pool_ok p -> started_ p = true -> key <> [] -> exists l, fst (selectLoop snap key p) = Ok l.
Proof.
  intros Hok Hs Hk. unfold selectLoop, bindM at 1, get. destruct (loops_ p) as [|l0 ls] eqn:El; [by eexists|].
  assert (forall (m : M EventLoopThreadPool nat) i p', m p = (Ok i, p') -> (i < selectionLoopCount p')%nat -> exists l, fst ((do index <- m ;; selectionLoopAt index) p) = Ok l) as Hat.
  { intros m i p' E Hi. rewrite (bindM_ok _ _ _ _ _ E), (selectionLoopAt_of _ _ Hi). by eexists. }
  destruct Hok as [_ Hl _ _]. rewrite Hs in Hl. pose proof (count_pos p) as Hc.
  assert (next_ p mod selectionLoopCount p < selectionLoopCount p)%nat as Hst by (apply Nat.mod_upper_bound; lia).
  destruct (selectionPolicy_ p).
  - eapply Hat; [unfold selectRoundRobinIndex, bindM, get, modify, ret; reflexivity|]. exact Hst.
  - eapply Hat.
    + unfold selectLeastConnectionsIndex, bindM at 1, get. rewrite (bindM_ok _ _ _ _ _ (least_loop_ok p _ _ Hl Hc _ _ _ Hst)). reflexivity.
    + apply (scan_first_best (less_loaded p)); try done; unfold less_loaded; intros *; zify_bools; lia.
  - eapply Hat.
    + unfold selectQueueLagIndex, bindM at 1, get. rewrite (bindM_ok _ _ _ _ _ (selectionLoopAt_of p _ Hst)).
      rewrite (bindM_ok _ _ _ _ _ (lag_loop_ok snap p _ _ _ _)). reflexivity.
    + apply (scan_first_best (less_lag snap p)); try done; unfold less_lag; intros *; apply lag_better_order; exact (0, 0).
  - eapply Hat; [unfold selectConsistentHashIndex, bindM, get; by destruct key|]. by apply hash_index_best.
Qed.

End Pool.
