(* ===== verification/ServerAdmission.v ===== *)
(** * Admission and connection books of the TCP server

    Model of the base-loop half of [TcpServer] (src/core/net/TcpServer.cc): admission of
    accepted sockets under the connection, per-peer and rate limits, the transaction that
    sets a connection up with its roll-back, the maps of connections, peers and
    authentication deadlines, and their release.  All of it runs on the base loop's thread.

    The loops and their connection counts are [ThreadPool.Pool]; the deadlines are used
    through the [DeadlineIndex] interface only.  The admission callback may call back into
    the server: it is always called last, but for the loop of
    [driveAuthenticationDeadlines], which is therefore one step per expired deadline, with
    any other operation in between. *)

From S2P Require Import Prelude DeadlineQueue Transport ThreadPool.
From stdpp Require Import strings pretty.
From Stdlib.Strings Require String.

Local Open Scope Z_scope.

(** ** Data *)

Record TcpServerAdmissionOptions := mkAdmission {
  maxConnections : Z;
  maxConnectionsPerPeer : Z;
  maxConnectionAttemptsPerPeerPerWindow : Z;
  connectionAttemptWindow : Z;
  maxTrackedPeerAddresses : Z;
  unauthenticatedTimeout : Z;
  authenticationDeadlineResolution : Z;
  maxAuthenticationTimeoutsPerAdvance : Z;
}.

Definition validate (o : TcpServerAdmissionOptions) : result unit :=
  if (0 <? maxConnectionAttemptsPerPeerPerWindow o) && (connectionAttemptWindow o <=? 0) then Throw invalid_argument
  else if (0 <? maxConnectionAttemptsPerPeerPerWindow o) && (maxTrackedPeerAddresses o =? 0) then Throw invalid_argument
  else if unauthenticatedTimeout o <? 0 then Throw invalid_argument
  else if authenticationDeadlineResolution o <=? 0 then Throw invalid_argument
  else if maxAuthenticationTimeoutsPerAdvance o =? 0 then Throw invalid_argument
  else Ok tt.

Inductive TcpServerAdmissionEvent :=
  | Accepted
  | RejectedConnectionLimit
  | RejectedPerPeerLimit
  | RejectedPerPeerRateLimit
  | RejectedPeerTrackingCapacity
  | Authenticated
  | AuthenticationTimedOut.

Record TcpServerAdmissionMetric := mkMetric {
  event : TcpServerAdmissionEvent;
  peerAddress : string;
  connectionName : string;
  activeConnections : Z;
  activePeerConnections : Z;
}.

(** A connection as the server sees it: which object, its name and its loop. *)
Record Conn := mkConn { ref_id : nat; ref_name : string; ref_loop : nat }.

Global Instance Conn_eq_dec : EqDecision Conn.
Proof. solve_decision. Defined.

Record PeerRateBucket := mkBucket { expiresAt : Z; attempts : Z; bucket_generation : Z }.
Record PeerRateExpiry := mkExpiry { expiry_at : Z; expiry_peer : string; expiry_generation : Z }.

(** The counters of [admissionStats]. *)
Record Stats := mkStats {
  acceptedConnections_ : Z;
  rejectedConnectionLimit_ : Z;
  rejectedPerPeerLimit_ : Z;
  rejectedPerPeerRateLimit_ : Z;
  rejectedPeerTrackingCapacity_ : Z;
  authenticatedConnections_ : Z;
  authenticationTimeouts_ : Z;
}.

Definition count_event (e : TcpServerAdmissionEvent) (s : Stats) : Stats :=
  match s with
  | mkStats a c p r t u o =>
      match e with
      | Accepted => mkStats (a ⊕ 1) c p r t u o
      | RejectedConnectionLimit => mkStats a (c ⊕ 1) p r t u o
      | RejectedPerPeerLimit => mkStats a c (p ⊕ 1) r t u o
      | RejectedPerPeerRateLimit => mkStats a c p (r ⊕ 1) t u o
      | RejectedPeerTrackingCapacity => mkStats a c p r (t ⊕ 1) u o
      | Authenticated => mkStats a c p r t (u ⊕ 1) o
      | AuthenticationTimedOut => mkStats a c p r t u (o ⊕ 1)
      end
  end.

(** The queue of deadlines is made on demand. *)
Class DeadlineFactory (Q : Type) `{DeadlineIndex Q} := {
  df_new : DeadlineQueueOptions -> result Q;
  df_new_spec : forall o, options_ok o -> exists q, df_new o = Ok q /\ di_inv q /\ di_abs q = ∅ /\ di_options q = o /\ di_next q = 1;
}.

Section server.
Context {Q : Type} `{DeadlineFactory Q}.
(** [name_] and [admissionOptions_], which do not change once the server has started *)
Context (name_ : string) (admissionOptions_ : TcpServerAdmissionOptions) (observed : bool).

Record Peers := mkPeers {
  activeConnectionsByPeer_ : gmap string Z;
  peerByConnection_ : gmap string string;
  activeAdmissionConnections_ : Z;
}.

Record Rates := mkRates {
  peerRateBuckets_ : gmap string PeerRateBucket;
  peerRateExpiries_ : list PeerRateExpiry;
  nextPeerRateGeneration_ : Z;
}.

(** [driving]: the expired deadlines [driveAuthenticationDeadlines] has still to go
    through, and whether more are ready. *)
Record Auth := mkAuths {
  authenticationDeadlines_ : gmap string DeadlineToken;
  authenticationDeadlineQueue_ : option Q;
  authenticationDeadlineDriver_ : bool;
  authenticationDeadlineContinuation_ : bool;
  driving : option (list DeadlineExpiration * bool);
}.

(** What has been done to connections and told to the callback, last one first. *)
Record History := mkHistory {
  metrics : list TcpServerAdmissionMetric;
  authenticated : list Conn;
  forced : list Conn;
}.

Record TcpServer := mkServer {
  started_ : bool;
  stopped_ : bool;
  stopping : bool;                      (** an [aggregateStopState_] that is not joined *)
  nextConnId_ : Z;
  nextObject : nat;
  connections_ : gmap string Conn;
  threadPool_ : Pool.EventLoopThreadPool;
  loopOutputBudgets_ : list nat;
  peers : Peers;
  rates : Rates;
  auth : Auth;
  stats : Stats;
  history : History;
}.

Definition set_flags (a b c : bool) (s : TcpServer) : TcpServer :=
  mkServer a b c (nextConnId_ s) (nextObject s) (connections_ s) (threadPool_ s) (loopOutputBudgets_ s) (peers s) (rates s) (auth s) (stats s) (history s).
Definition set_nextConnId (n : Z) (s : TcpServer) : TcpServer :=
  mkServer (started_ s) (stopped_ s) (stopping s) n (nextObject s) (connections_ s) (threadPool_ s) (loopOutputBudgets_ s) (peers s) (rates s) (auth s) (stats s) (history s).
Definition set_nextObject (n : nat) (s : TcpServer) : TcpServer :=
  mkServer (started_ s) (stopped_ s) (stopping s) (nextConnId_ s) n (connections_ s) (threadPool_ s) (loopOutputBudgets_ s) (peers s) (rates s) (auth s) (stats s) (history s).
Definition set_connections (m : gmap string Conn) (s : TcpServer) : TcpServer :=
  mkServer (started_ s) (stopped_ s) (stopping s) (nextConnId_ s) (nextObject s) m (threadPool_ s) (loopOutputBudgets_ s) (peers s) (rates s) (auth s) (stats s) (history s).
Definition set_pool (p : Pool.EventLoopThreadPool) (s : TcpServer) : TcpServer :=
  mkServer (started_ s) (stopped_ s) (stopping s) (nextConnId_ s) (nextObject s) (connections_ s) p (loopOutputBudgets_ s) (peers s) (rates s) (auth s) (stats s) (history s).
Definition set_budgets (l : list nat) (s : TcpServer) : TcpServer :=
  mkServer (started_ s) (stopped_ s) (stopping s) (nextConnId_ s) (nextObject s) (connections_ s) (threadPool_ s) l (peers s) (rates s) (auth s) (stats s) (history s).
Definition set_peers (p : Peers) (s : TcpServer) : TcpServer :=
  mkServer (started_ s) (stopped_ s) (stopping s) (nextConnId_ s) (nextObject s) (connections_ s) (threadPool_ s) (loopOutputBudgets_ s) p (rates s) (auth s) (stats s) (history s).
Definition set_rates (r : Rates) (s : TcpServer) : TcpServer :=
  mkServer (started_ s) (stopped_ s) (stopping s) (nextConnId_ s) (nextObject s) (connections_ s) (threadPool_ s) (loopOutputBudgets_ s) (peers s) r (auth s) (stats s) (history s).
Definition set_auth (a : Auth) (s : TcpServer) : TcpServer :=
  mkServer (started_ s) (stopped_ s) (stopping s) (nextConnId_ s) (nextObject s) (connections_ s) (threadPool_ s) (loopOutputBudgets_ s) (peers s) (rates s) a (stats s) (history s).
Definition set_stats (c : Stats) (h : History) (s : TcpServer) : TcpServer :=
  mkServer (started_ s) (stopped_ s) (stopping s) (nextConnId_ s) (nextObject s) (connections_ s) (threadPool_ s) (loopOutputBudgets_ s) (peers s) (rates s) (auth s) c h.

Abbreviation SM := (M TcpServer).

(** An operation of a part of the server. *)
Definition on_pool {A} (m : M Pool.EventLoopThreadPool A) : SM A :=
  fun s => let (r, p) := m (threadPool_ s) in (r, set_pool p s).

(** [name_ + "#" + std::to_string(key)] *)
Definition connName (k : Z) : string := (name_ +:+ "#" +:+ pretty (Z.to_N k))%string.

(** [emitAdmissionMetric]; [observed]: there is a callback.  What it throws is caught. *)
Definition emitAdmissionMetric (e : TcpServerAdmissionEvent) (peer name : string) : SM unit :=
  modify (fun s => if observed
    then set_stats (stats s)
           (mkHistory (mkMetric e peer name (Z.of_nat (size (connections_ s))) (default 0 (activeConnectionsByPeer_ (peers s) !! peer)) :: metrics (history s))
              (authenticated (history s)) (forced (history s))) s
    else s).

(** A counter is incremented and the callback told. *)
Definition count_and_emit (e : TcpServerAdmissionEvent) (peer name : string) : SM unit :=
  run modify (fun s => set_stats (count_event e (stats s)) (history s) s) ;;
  emitAdmissionMetric e peer name.

(** ** Admission *)

(** [prunePeerRateBuckets] *)
Fixpoint prune (now : Z) (expiries : list PeerRateExpiry) (buckets : gmap string PeerRateBucket) :
    list PeerRateExpiry * gmap string PeerRateBucket :=
  match expiries with
  | [] => ([], buckets)
  | x :: rest =>
      if expiry_at x <=? now then
        prune now rest
          (match buckets !! expiry_peer x with
           | Some b => if (bucket_generation b =? expiry_generation x) && (expiresAt b <=? now) then delete (expiry_peer x) buckets else buckets
           | None => buckets
           end)
      else (expiries, buckets)
  end.

Definition prunePeerRateBuckets (now : Z) : SM unit :=
  modify (fun s => let (es, bs) := prune now (peerRateExpiries_ (rates s)) (peerRateBuckets_ (rates s)) in
                   set_rates (mkRates bs es (nextPeerRateGeneration_ (rates s))) s).

(** The rate limit of [admitPeer], at [now] of the steady clock. *)
Definition admit_rate (now : Z) (peer : string) : SM bool :=
  run prunePeerRateBuckets now ;;
  do s <- get ;;
  let buckets := peerRateBuckets_ (rates s) in
  let buckets := match buckets !! peer with Some b => if expiresAt b <=? now then delete peer buckets else buckets | None => buckets end in
  run modify (set_rates (mkRates buckets (peerRateExpiries_ (rates s)) (nextPeerRateGeneration_ (rates s)))) ;;
  match buckets !! peer with
  | None =>
      if maxTrackedPeerAddresses admissionOptions_ <=? Z.of_nat (size buckets) then
        run count_and_emit RejectedPeerTrackingCapacity peer "" ;; ret false
      else
        let at_ := now + connectionAttemptWindow admissionOptions_ in
        let generation := nextPeerRateGeneration_ (rates s) in
        run modify (set_rates (mkRates (<[peer := mkBucket at_ 1 generation]> buckets)
                      (peerRateExpiries_ (rates s) ++ [mkExpiry at_ peer generation]) (generation ⊕ 1))) ;;
        ret true
  | Some b =>
      if maxConnectionAttemptsPerPeerPerWindow admissionOptions_ <=? attempts b then
        run count_and_emit RejectedPerPeerRateLimit peer "" ;; ret false
      else
        run modify (set_rates (mkRates (<[peer := mkBucket (expiresAt b) (attempts b ⊕ 1) (bucket_generation b)]> buckets)
                      (peerRateExpiries_ (rates s)) (nextPeerRateGeneration_ (rates s)))) ;;
        ret true
  end.

Definition admitPeer (now : Z) (peer : string) : SM bool :=
  do ok <- (if 0 <? maxConnectionAttemptsPerPeerPerWindow admissionOptions_ then admit_rate now peer else ret true) ;;
  if negb ok then ret false
  else
    do s <- get ;;
    if (0 <? maxConnections admissionOptions_) && (maxConnections admissionOptions_ <=? Z.of_nat (size (connections_ s))) then
      run count_and_emit RejectedConnectionLimit peer "" ;; ret false
    else
      let activeForPeer := default 0 (activeConnectionsByPeer_ (peers s) !! peer) in
      if (0 <? maxConnectionsPerPeer admissionOptions_) && (maxConnectionsPerPeer admissionOptions_ <=? activeForPeer) then
        run count_and_emit RejectedPerPeerLimit peer "" ;; ret false
      else ret true.

(** ** Tracking a connection *)

(** Which of the allocations of [trackAcceptedConnection] succeed. *)
Record TrackAlloc := mkTrack { identity_ok : bool; peer_ok : bool; driver_ok : bool; entry_ok : bool }.

(** An operation on the queue, which exists. *)
Definition on_queue {A} (m : M Q A) : SM A := fun s =>
  match authenticationDeadlineQueue_ (auth s) with
  | None => (Throw undefined_behaviour, s)
  | Some q =>
      let (r, q') := m q in
      (r, set_auth (mkAuths (authenticationDeadlines_ (auth s)) (Some q') (authenticationDeadlineDriver_ (auth s))
                      (authenticationDeadlineContinuation_ (auth s)) (driving (auth s))) s)
  end.

Definition set_deadlines (f : gmap string DeadlineToken -> gmap string DeadlineToken) (s : TcpServer) : TcpServer :=
  set_auth (mkAuths (f (authenticationDeadlines_ (auth s))) (authenticationDeadlineQueue_ (auth s)) (authenticationDeadlineDriver_ (auth s))
              (authenticationDeadlineContinuation_ (auth s)) (driving (auth s))) s.

(** [timer]: the loop takes the repeating timer. *)
Definition ensureAuthenticationDeadlineDriver (timer : bool) : SM unit :=
  do s <- get ;;
  match authenticationDeadlineQueue_ (auth s) with
  | Some _ => ret tt
  | None =>
      do q <- lift (df_new (mkOptions (authenticationDeadlineResolution admissionOptions_) (maxAuthenticationTimeoutsPerAdvance admissionOptions_))) ;;
      run modify (fun s => set_auth (mkAuths (authenticationDeadlines_ (auth s)) (Some q) (authenticationDeadlineDriver_ (auth s))
                                       (authenticationDeadlineContinuation_ (auth s)) (driving (auth s))) s) ;;
      run throw_if (negb timer) logic_error ;;
      modify (fun s => set_auth (mkAuths (authenticationDeadlines_ (auth s)) (authenticationDeadlineQueue_ (auth s)) true
                                   (authenticationDeadlineContinuation_ (auth s)) (driving (auth s))) s)
  end.

(** [activeConnectionsByPeer_] and [peerByConnection_] *)
Definition set_peer_maps (f : gmap string Z -> gmap string Z) (g : gmap string string -> gmap string string) (s : TcpServer) : TcpServer :=
  set_peers (mkPeers (f (activeConnectionsByPeer_ (peers s))) (g (peerByConnection_ (peers s))) (activeAdmissionConnections_ (peers s))) s.

(** [if (count <= 1) erase; else --count;] *)
Definition one_less (peer : string) (m : gmap string Z) : gmap string Z :=
  match m !! peer with
  | Some n => if n <=? 1 then delete peer m else <[peer := n ⊖ 1]> m
  | None => m
  end.

(** The second [try] of [trackAcceptedConnection]. *)
Definition track_deadline (mem : TrackAlloc) (now : Z) (name : string) (deadlineKey : Z) : SM unit :=
  if 0 <? unauthenticatedTimeout admissionOptions_ then
    run ensureAuthenticationDeadlineDriver (driver_ok mem) ;;
    do token <- on_queue (di_schedule deadlineKey (now + unauthenticatedTimeout admissionOptions_)) ;;
    if entry_ok mem then modify (set_deadlines (fun m => <[name := token]> m))
    else run on_queue (di_cancel token) ;; throw bad_alloc
  else ret tt.

(** [trackAcceptedConnection], at [now] of the system clock. *)
Definition trackAcceptedConnection (mem : TrackAlloc) (now : Z) (connection : Conn) (peer : string) (deadlineKey : Z) : SM unit :=
  let name := ref_name connection in
  run throw_if (negb (identity_ok mem)) bad_alloc ;;
  do s <- get ;;
  run throw_if (bool_decide (is_Some (peerByConnection_ (peers s) !! name))) logic_error ;;
  run modify (set_peer_maps (fun m => m) (fun m => <[name := peer]> m)) ;;
  if negb (peer_ok mem) then run modify (set_peer_maps (fun m => m) (fun m => delete name m)) ;; throw bad_alloc
  else
    run modify (set_peer_maps (fun m => <[peer := default 0 (m !! peer) ⊕ 1]> m) (fun m => m)) ;;
    fun s => match track_deadline mem now name deadlineKey s with
             | (Ok _, s') => (Ok tt, set_peers (mkPeers (activeConnectionsByPeer_ (peers s')) (peerByConnection_ (peers s')) (activeAdmissionConnections_ (peers s') ⊕ 1)) s')
             | (Throw e, s') => (Throw e, set_peer_maps (one_less peer) (fun m => delete name m) s')
             end.

(** ** Releasing it *)

Definition cancel_deadline (name : string) : SM unit :=
  do s <- get ;;
  match authenticationDeadlines_ (auth s) !! name with
  | None => ret tt
  | Some token =>
      run match authenticationDeadlineQueue_ (auth s) with
          | Some _ => run on_queue (di_cancel token) ;; ret tt
          | None => ret tt
          end ;;
      modify (set_deadlines (fun m => delete name m))
  end.

Definition releaseConnectionAdmission (name : string) : SM unit :=
  run cancel_deadline name ;;
  do s <- get ;;
  match peerByConnection_ (peers s) !! name with
  | None => ret tt
  | Some peer =>
      run modify (set_peer_maps (one_less peer) (fun m => delete name m)) ;;
      modify (fun s => set_peers (mkPeers (activeConnectionsByPeer_ (peers s)) (peerByConnection_ (peers s)) (activeAdmissionConnections_ (peers s) ⊖ 1)) s)
  end.

Definition clearConnectionAdmission : SM unit :=
  modify (fun s =>
    set_rates (mkRates ∅ [] (nextPeerRateGeneration_ (rates s)))
      (set_peers (mkPeers ∅ ∅ 0)
        (set_auth (mkAuths ∅ None false false (driving (auth s))) s))).

(** ** Authentication deadlines *)

Definition markConnectionAuthenticatedInLoop (connection : Conn) : SM unit :=
  do s <- get ;;
  if negb (bool_decide (connections_ s !! ref_name connection = Some connection)) then ret tt
  else
    match authenticationDeadlines_ (auth s) !! ref_name connection with
    | None => ret tt
    | Some _ =>
        run cancel_deadline (ref_name connection) ;;
        run modify (fun s => set_stats (stats s) (mkHistory (metrics (history s)) (connection :: authenticated (history s)) (forced (history s))) s) ;;
        count_and_emit Authenticated (default "" (peerByConnection_ (peers s) !! ref_name connection)) (ref_name connection)
    end.

Definition set_driving (d : option (list DeadlineExpiration * bool)) (s : TcpServer) : TcpServer :=
  set_auth (mkAuths (authenticationDeadlines_ (auth s)) (authenticationDeadlineQueue_ (auth s)) (authenticationDeadlineDriver_ (auth s))
              (authenticationDeadlineContinuation_ (auth s)) d) s.

(** [driveAuthenticationDeadlines], up to its loop; [continued]: called by the timer of
    the continuation; [mem]: [advance] can reserve its result. *)
Definition driveAuthenticationDeadlines (continued mem : bool) (now : Z) : SM unit :=
  run (if continued then modify (fun s => set_auth (mkAuths (authenticationDeadlines_ (auth s)) (authenticationDeadlineQueue_ (auth s))
                                   (authenticationDeadlineDriver_ (auth s)) false (driving (auth s))) s)
       else ret tt) ;;
  do s <- get ;;
  match authenticationDeadlineQueue_ (auth s) with
  | None => ret tt
  | Some _ =>
      run throw_if (negb mem) bad_alloc ;;
      do ready <- on_queue (di_advance now) ;;
      modify (set_driving (Some (expired ready, readyRemaining ready)))
  end.

(** One round of the loop.  Closing the connection comes last. *)
Definition time_out (expiration : DeadlineExpiration) : SM unit :=
  let name := connName (key (exp_token expiration)) in
  do s <- get ;;
  if negb (bool_decide (authenticationDeadlines_ (auth s) !! name = Some (exp_token expiration))) then ret tt
  else
    run modify (set_deadlines (fun m => delete name m)) ;;
    match connections_ s !! name with
    | None => ret tt
    | Some connection =>
        run count_and_emit AuthenticationTimedOut (default "" (peerByConnection_ (peers s) !! name)) name ;;
        modify (fun s => set_stats (stats s) (mkHistory (metrics (history s)) (authenticated (history s)) (connection :: forced (history s))) s)
    end.

(** The loop goes on, or ends; [timer]: the loop takes the timer of the continuation. *)
Definition drive_next (timer : bool) : SM unit :=
  do s <- get ;;
  match driving (auth s) with
  | None => ret tt
  | Some (x :: rest, more) => run modify (set_driving (Some (rest, more))) ;; time_out x
  | Some ([], more) =>
      run modify (set_driving None) ;;
      if negb more || authenticationDeadlineContinuation_ (auth s) || bool_decide (authenticationDeadlineQueue_ (auth s) = None) then ret tt
      else
        run throw_if (negb timer) logic_error ;;
        modify (fun s => set_auth (mkAuths (authenticationDeadlines_ (auth s)) (authenticationDeadlineQueue_ (auth s))
                                     (authenticationDeadlineDriver_ (auth s)) true (driving (auth s))) s)
  end.

(** ** Setting a connection up *)

Inductive AcceptorErrorAction := Retry | Stop.

(** What [newConnection] meets: the peer; the steady and the system clock; the loads of
    the loops; whether the local address can be read, and else what the error callback
    says ([Stop] if it throws); whether the roll-back record is armed; whether the
    connection is constructed and put into the map; the allocations of its tracking; what
    becomes of the functor that establishes it, [None] for an exception before it is
    posted. *)
Record Attempt := mkAttempt {
  att_peer : string;
  att_steady : Z;
  att_now : Z;
  att_snap : Pool.Snapshot;
  att_local : option AcceptorErrorAction;
  att_armed : bool;
  att_constructed : bool;
  att_inserted : bool;
  att_tracked : TrackAlloc;
  att_posted : option PostResult;
}.

(** What becomes of the accepted socket: the guard closes it, its connection is left to
    the roll-back on its loop, or its connection is being established. *)
Inductive Handled := ClosedFd | RolledBack (c : Conn) | Established (c : Conn).

(** The part of [stopInLoop] and [beginAggregateStopInLoop] that concerns the books. *)
Definition begin_stop : SM unit :=
  modify (fun s => if stopping s || stopped_ s then s else set_flags (started_ s) true true s).

Definition key_bytes (peer : string) : list byte := String.list_byte_of_string peer.

(** [rollbackProvisionalState], with its three flags. *)
Definition rollbackProvisionalState (mapInserted loadRecorded admissionTracked : bool) (c : Conn) : SM Handled :=
  run (if mapInserted then modify (fun s => set_connections (delete (ref_name c) (connections_ s)) s) else ret tt) ;;
  run (if loadRecorded then on_pool (Pool.recordConnectionClosed (ref_loop c)) else ret tt) ;;
  run (if admissionTracked then releaseConnectionAdmission (ref_name c) else ret tt) ;;
  ret (RolledBack c).

(** [m] inside the [try]: an exception runs the handler [undo]. *)
Definition guarded (m : SM unit) (undo k : SM Handled) : SM Handled := fun s =>
  match m s with
  | (Ok _, s') => k s'
  | (Throw _, s') => undo s'
  end.

Definition insert_connection (ok : bool) (c : Conn) : SM unit :=
  run throw_if (negb ok) bad_alloc ;;
  do s <- get ;;
  run throw_if (bool_decide (is_Some (connections_ s !! ref_name c))) logic_error ;;
  modify (set_connections (<[ref_name c := c]> (connections_ s))).

(** The [try] block of [newConnection], the connection being constructed. *)
Definition establish_try (a : Attempt) (c : Conn) (key : Z) : SM Handled :=
  guarded (insert_connection (att_inserted a) c) (rollbackProvisionalState false false false c)
    (guarded (on_pool (Pool.recordConnectionOpened (ref_loop c))) (rollbackProvisionalState true false false c)
      (guarded (trackAcceptedConnection (att_tracked a) (att_now a) c (att_peer a) key) (rollbackProvisionalState true true false c)
        (match att_posted a with
         | Some PostAccepted => run count_and_emit Accepted (att_peer a) (ref_name c) ;; ret (Established c)
         | _ => rollbackProvisionalState true true true c
         end))).

Definition newConnection (a : Attempt) : SM Handled :=
  do s <- get ;;
  if stopped_ s then ret ClosedFd
  else
    do admitted <- admitPeer (att_steady a) (att_peer a) ;;
    if negb admitted then ret ClosedFd
    else
      do ioLoop <- on_pool (Pool.selectLoop (att_snap a) (key_bytes (att_peer a))) ;;
      do s <- get ;;
      run throw_if (negb (bool_decide (ioLoop ∈ loopOutputBudgets_ s))) log_fatal ;;
      if nextConnId_ s =? usize_max then ret ClosedFd
      else
        let key := nextConnId_ s in
        run modify (set_nextConnId (key + 1)) ;;
        match att_local a with
        | Some Stop => run begin_stop ;; ret ClosedFd
        | Some Retry => ret ClosedFd
        | None =>
            if negb (att_armed a) || negb (att_constructed a) then ret ClosedFd
            else
              let c := mkConn (nextObject s) (connName key) ioLoop in
              run modify (set_nextObject (S (nextObject s))) ;;
              establish_try a c key
        end.

(** ** Taking connections out of the books *)

(** A connection is erased from the map: its load and its admission go with it. *)
Definition drop_connection (c : Conn) : SM unit :=
  run on_pool (Pool.recordConnectionClosed (ref_loop c)) ;;
  releaseConnectionAdmission (ref_name c).

(** What becomes of a functor given to [queueInLoop], or to [runInLoop], where
    [PostAccepted] also stands for running it at once; [None]: it cannot be allocated. *)
Definition queueInLoop (r : option PostResult) : SM unit :=
  match r with
  | Some PostAccepted => ret tt
  | Some PostQueueFull => throw overflow_error
  | Some _ => throw logic_error
  | None => throw bad_alloc
  end.

Definition accepts (r : option PostResult) : bool := match r with Some PostAccepted => true | _ => false end.

(** What [removeConnectionInLoop] meets: the post of [connectDestroyed] to the loop of the
    connection; whether a graceful stop is neither completed nor forced; the post that
    ends it. *)
Record RemovePosts := mkRemovePosts {
  post_destroy : option PostResult;
  graceful_pending : bool;
  post_finish : option PostResult;
}.

Definition removeConnectionInLoop (p : RemovePosts) (c : Conn) : SM unit :=
  do s <- get ;;
  if stopping s then ret tt
  else
    match connections_ s !! ref_name c with
    | None => ret tt
    | Some _ =>
        run modify (set_connections (delete (ref_name c) (connections_ s))) ;;
        run drop_connection c ;;
        run queueInLoop (post_destroy p) ;;
        do s <- get ;;
        if graceful_pending p && bool_decide (connections_ s = ∅) then queueInLoop (post_finish p) else ret tt
    end.

(** The part of [driveStopLifecycleInLoop] that undoes a connection whose establishment
    failed on its loop. *)
Definition base_rollback (c : Conn) : SM unit :=
  do s <- get ;;
  if bool_decide (connections_ s !! ref_name c = Some c) then
    run modify (set_connections (delete (ref_name c) (connections_ s))) ;;
    drop_connection c
  else ret tt.

(** The loop of [releaseWorkerConnectionsInLoop]. *)
Fixpoint release_names (names : list string) : SM unit :=
  match names with
  | [] => ret tt
  | n :: names =>
      do s <- get ;;
      run match connections_ s !! n with
          | None => ret tt
          | Some c =>
              run on_pool (Pool.recordConnectionClosed (ref_loop c)) ;;
              run modify (fun s => set_connections (delete n (connections_ s)) s) ;;
              releaseConnectionAdmission n
          end ;;
      release_names names
  end.

(** [finishAggregateStopInLoop], without the result of a graceful stop. *)
Definition finish_stop : SM unit :=
  do s <- get ;;
  if negb (stopping s) then ret tt
  else
    run clearConnectionAdmission ;;
    run on_pool Pool.stop ;;
    modify (fun s => set_flags (started_ s) (stopped_ s) false s).

(** The loads given back by [forceCloseAllConnections]. *)
Fixpoint close_loads (cs : list Conn) : SM unit :=
  match cs with
  | [] => ret tt
  | c :: cs => run on_pool (Pool.recordConnectionClosed (ref_loop c)) ;; close_loads cs
  end.

(** Its posts to the loops of the connections; those not given are accepted. *)
Fixpoint post_all (cs : list Conn) (posts : list (option PostResult)) : SM unit :=
  match cs, posts with
  | _ :: cs, p :: posts => run queueInLoop p ;; post_all cs posts
  | _, _ => ret tt
  end.

(** [forceCloseAllConnections]: the destructor, where an exception ends the program. *)
Definition forceCloseAllConnections (posts : list (option PostResult)) : SM bool :=
  run clearConnectionAdmission ;;
  do s <- get ;;
  run modify (set_connections ∅) ;;
  match snd <$> map_to_list (connections_ s) with
  | [] => ret false
  | cs => run close_loads cs ;; run post_all cs posts ;; ret true
  end.

(** [start], up to the Acceptor. *)
Definition start (e : Pool.Launch) : SM unit :=
  do s <- get ;;
  if started_ s then ret tt
  else
    run modify (set_flags true false (stopping s)) ;;
    run modify (set_budgets []) ;;
    fun s => match on_pool (Pool.start e true) s with
             | (Ok _, s') => (Ok tt, set_budgets (Pool.getAllLoops (threadPool_ s')) s')
             | (Throw x, s') => (Throw x, set_flags false true (stopping s') (set_budgets [] s'))
             end.

Definition TcpServer_new (base threads : nat) (policy : Pool.EventLoopSelectionPolicy) : TcpServer :=
  mkServer false false false 1 0 ∅ (Pool.set_policy policy (Pool.set_numThreads (Z.of_nat threads) (Pool.EventLoopThreadPool_new base))) []
    (mkPeers ∅ ∅ 0) (mkRates ∅ [] 1) (mkAuths ∅ None false false None) (mkStats 0 0 0 0 0 0 0) (mkHistory [] [] []).

(** ** The invariant *)

Definition on_loop (l : nat) (c : Conn) : bool := (ref_loop c =? l)%nat.
Definition of_peer (p q : string) : bool := bool_decide (q = p).

(** The peers' counts are those of the connections. *)
Record peers_ok (p : Peers) (m : gmap string Conn) : Prop := {
  pe_dom : forall n, is_Some (peerByConnection_ p !! n) <-> is_Some (m !! n);
  pe_size : size (peerByConnection_ p) = size m;
  pe_active : forall x, activeConnectionsByPeer_ p !! x =
    if tally (of_peer x) (peerByConnection_ p) =? 0 then None else Some (tally (of_peer x) (peerByConnection_ p));
  pe_total : activeAdmissionConnections_ p = Z.of_nat (size m);
}.

Definition queue_options : DeadlineQueueOptions :=
  mkOptions (authenticationDeadlineResolution admissionOptions_) (maxAuthenticationTimeoutsPerAdvance admissionOptions_).

(** What the queue holds. *)
Definition pending (a : Auth) : gmap Z (Z * Z) := match authenticationDeadlineQueue_ a with Some q => di_abs q | None => ∅ end.

(** A deadline is in the queue or has just expired. *)
Definition awaited (a : Auth) (t : DeadlineToken) : Prop :=
  (exists q d, authenticationDeadlineQueue_ a = Some q /\ di_abs q !! key t = Some (generation t, d)) \/
  (exists l b, driving a = Some (l, b) /\ t ∈ (exp_token <$> l)).

Record auth_ok (a : Auth) (m : gmap string Conn) (next : Z) : Prop := {
  au_queue : forall q, authenticationDeadlineQueue_ a = Some q ->
    di_inv q /\ di_options q = queue_options /\ di_next q <= next /\
    forall k g d, di_abs q !! k = Some (g, d) -> authenticationDeadlines_ a !! connName k = Some (mkToken k g);
  au_deadlines : forall n t, authenticationDeadlines_ a !! n = Some t ->
    n = connName (key t) /\ 1 <= key t < next /\ is_Some (m !! n) /\ awaited a t;
  au_expired : forall l b t, driving a = Some (l, b) -> t ∈ (exp_token <$> l) ->
    key t < next /\ forall d, pending a !! key t <> Some (generation t, d);
}.

Record names_ok (m : gmap string Conn) (next : Z) : Prop := {
  na_name : forall n c, m !! n = Some c -> ref_name c = n /\ exists k, n = connName k /\ 1 <= k < next;
  na_size : Z.of_nat (size m) < next;
  na_next : next <= usize_max;
}.

(** Every connection that had to authenticate did or was timed out at most once, and has
    no deadline any more. *)
Record history_ok (h : History) (a : Auth) (next : Z) : Prop := {
  hi_once : NoDup (ref_name <$> authenticated h ++ forced h);
  hi_done : forall c, c ∈ authenticated h ++ forced h -> authenticationDeadlines_ a !! ref_name c = None /\ exists k, ref_name c = connName k /\ 1 <= k < next;
}.

Definition load_of (m : gmap string Conn) (l : nat) : Z := tally (on_loop l) m.

Record limits_ok (p : Peers) (m : gmap string Conn) : Prop := {
  li_all : 0 < maxConnections admissionOptions_ -> Z.of_nat (size m) <= maxConnections admissionOptions_;
  li_peer : 0 < maxConnectionsPerPeer admissionOptions_ -> forall x, tally (of_peer x) (peerByConnection_ p) <= maxConnectionsPerPeer admissionOptions_;
}.

Record books (s : TcpServer) : Prop := {
  bk_pool : Pool.counted (threadPool_ s) (load_of (connections_ s));
  bk_budgets : Pool.started_ (threadPool_ s) = true -> loopOutputBudgets_ s = Pool.getAllLoops (threadPool_ s);
  bk_running : started_ s = true -> stopped_ s = false -> Pool.started_ (threadPool_ s) = true;
  bk_unstarted : started_ s = false -> Pool.started_ (threadPool_ s) = false /\ loopOutputBudgets_ s = [];
  bk_stopping : stopping s = true -> stopped_ s = true;
  bk_names : names_ok (connections_ s) (nextConnId_ s);
  bk_peers : peers_ok (peers s) (connections_ s);
  bk_auth : auth_ok (auth s) (connections_ s) (nextConnId_ s);
  bk_history : history_ok (history s) (auth s) (nextConnId_ s);
  bk_limits : limits_ok (peers s) (connections_ s);
}.

Lemma connName_inj k k' : 0 <= k -> 0 <= k' -> connName k = connName k' -> k = k'.
Proof. intros Hk Hk' E. unfold connName in E. simplify_eq. lia. Qed.

(** *** Releasing a connection *)

Definition released_peers (n : string) (p : Peers) : Peers :=
  match peerByConnection_ p !! n with
  | None => p
  | Some x => mkPeers (one_less x (activeConnectionsByPeer_ p)) (delete n (peerByConnection_ p)) (activeAdmissionConnections_ p ⊖ 1)
  end.

Lemma one_less_tally x n (p : gmap string string) (a : gmap string Z) :
  p !! n = Some x -> Z.of_nat (size p) <= usize_max ->
  (forall y, a !! y = if tally (of_peer y) p =? 0 then None else Some (tally (of_peer y) p)) ->
  forall y, one_less x a !! y = if tally (of_peer y) (delete n p) =? 0 then None else Some (tally (of_peer y) (delete n p)).
Proof.
  intros Hn Hsz Ha y. rewrite (tally_delete (of_peer y) p n x Hn). unfold one_less. rewrite (Ha x).
  assert (1 <= tally (of_peer x) p) as Hx by (apply (tally_member _ _ n x Hn); by apply bool_decide_true).
  pose proof (tally_bounds (of_peer x) p) as Hb. assert ((tally (of_peer x) p =? 0) = false) as -> by lia.
  destruct (decide (x = y)) as [<-|Exy].
  - assert (of_peer x x = true) as -> by (by apply bool_decide_true). destruct (_ <=? 1) eqn:E1; zify_bools.
    + rewrite lookup_delete_eq. by assert ((tally (of_peer x) p - 1 =? 0) = true) as -> by lia.
    + rewrite lookup_insert_eq. assert ((tally (of_peer x) p - 1 =? 0) = false) as -> by lia. f_equal. apply uwrap_small. lia.
  - assert (of_peer y x = false) as -> by (by apply bool_decide_false). rewrite Z.sub_0_r, <-(Ha y).
    destruct (_ <=? 1); [by rewrite lookup_delete_ne|by rewrite lookup_insert_ne].
Qed.

Lemma released_peers_ok n p m c : peers_ok p m -> m !! n = Some c -> Z.of_nat (size m) <= usize_max -> peers_ok (released_peers n p) (delete n m).
Proof.
  intros [Hd Hs Ha Ht] Hn Hsz. unfold released_peers. destruct (proj2 (Hd n) (mk_is_Some _ _ Hn)) as [x Hx]. rewrite Hx.
  assert (size m <> O) as Hpos by (intros Hz%map_size_empty_inv; subst; by rewrite lookup_empty in Hn).
  assert (Z.of_nat (size (delete n m)) = Z.of_nat (size m) - 1) as Hdel by (rewrite map_size_delete, Hn; lia).
  split; cbn.
  - intros k. destruct (decide (k = n)) as [->|Hk]; [by rewrite !lookup_delete_eq|]. rewrite !lookup_delete_ne by done. apply Hd.
  - rewrite !map_size_delete, Hx, Hn. lia.
  - apply one_less_tally; [done|lia|done].
  - rewrite Ht, Hdel. apply uwrap_small. lia.
Qed.

Lemma released_tally n p x : tally (of_peer x) (peerByConnection_ (released_peers n p)) <= tally (of_peer x) (peerByConnection_ p).
Proof.
  unfold released_peers. destruct (peerByConnection_ p !! n) as [y|] eqn:E; [|lia]. cbn. rewrite (tally_delete _ _ _ _ E). case_match; lia.
Qed.

Lemma set_auth_id s : set_auth (auth s) s = s.
Proof. by destruct s. Qed.

Lemma names_key m next n c : names_ok m next -> m !! n = Some c -> exists k, n = connName k /\ 1 <= k < next.
Proof. intros Hn Hc. by destruct (na_name _ _ Hn n c Hc). Qed.

Lemma cancel_deadline_ok n a0 m next : auth_ok a0 m next ->
  exists a, (forall s, auth s = a0 -> cancel_deadline n s = (Ok tt, set_auth a s)) /\ auth_ok a (delete n m) next /\
    authenticationDeadlines_ a = delete n (authenticationDeadlines_ a0) /\ driving a = driving a0 /\
    (forall k, n <> connName k -> pending a !! k = pending a0 !! k).
Proof.
  intros Ha. destruct (authenticationDeadlines_ a0 !! n) as [t|] eqn:Et.
  2: { exists a0. split_and!; [intros s Es; unfold cancel_deadline, bindM, get; by rewrite Es, Et, <-Es, set_auth_id| |by rewrite delete_id|done|done]. destruct Ha as [Hq Hd Hx]. split; [done| |done].
       intros n' t Ht. destruct (Hd n' t Ht) as (? & ? & ? & ?). split_and!; try done; try lia. rewrite lookup_delete_ne; [done|congruence]. }
  destruct (au_deadlines _ _ _ Ha n t Et) as (En & Hk & _ & _).
  assert (forall q' (f : forall k g d, di_abs q' !! k = Some (g, d) -> authenticationDeadlines_ a0 !! connName k = Some (mkToken k g) /\ k <> key t),
    forall k g d, di_abs q' !! k = Some (g, d) -> delete n (authenticationDeadlines_ a0) !! connName k = Some (mkToken k g)) as Hdel.
  { intros q' f k g d Hkg. destruct (f k g d Hkg) as [Hdl Hne]. destruct (au_deadlines _ _ _ Ha _ _ Hdl) as (_ & Hk' & _). cbn in Hk'.
    rewrite lookup_delete_ne; [done|]. intros E. apply Hne. symmetry. apply connName_inj; [lia|lia|congruence]. }
  assert (forall n' t', delete n (authenticationDeadlines_ a0) !! n' = Some t' ->
    n' = connName (key t') /\ 1 <= key t' < next /\ is_Some (delete n m !! n') /\ awaited a0 t' /\ key t' <> key t) as Hrest.
  { intros n' t' [Hne Ht']%lookup_delete_Some. destruct (au_deadlines _ _ _ Ha n' t' Ht') as (-> & ? & ? & ?). rewrite lookup_delete_ne by done.
    split_and!; try done; try lia. intros E. by rewrite E in Hne. }
  destruct (authenticationDeadlineQueue_ a0) as [q|] eqn:Eq.
  - destruct (au_queue _ _ _ Ha q Eq) as (Hi & Ho & Hn & Habs). destruct (di_cancel_spec q t Hi) as (r & q' & Ec & Hi' & Ho' & Hn' & Hr).
    exists (mkAuths (delete n (authenticationDeadlines_ a0)) (Some q') (authenticationDeadlineDriver_ a0) (authenticationDeadlineContinuation_ a0) (driving a0)).
    split_and!.
    + intros s <-. unfold cancel_deadline, bindM, get, on_queue. rewrite Et, Eq. cbv beta. rewrite Eq, Ec. reflexivity.
    + split; cbn.
      * intros q1 [= <-]. rewrite Ho', Hn'. split_and!; [done..|]. apply Hdel. intros k g d Hkg. destruct r.
        -- destruct Hr as [_ Hr]. rewrite Hr in Hkg. apply lookup_delete_Some in Hkg as [Hne Hkg]. by split; [eapply Habs|].
        -- destruct Hr as [-> Hr]. pose proof (Habs k g d Hkg) as Hdl. split; [done|]. intros ->.
           rewrite <-En, Et in Hdl. injection Hdl as Hdl. apply (Hr d). rewrite Hkg, Hdl. by destruct t.
      * intros n' t' Ht'. destruct (Hrest n' t' Ht') as (? & ? & ? & Haw & Hne). split_and!; try done; try lia.
        destruct Haw as [(q1 & d & Eq1 & Hd)|Hdr]; [left|by right]. rewrite Eq in Eq1. injection Eq1 as <-. exists q', d. split; [done|].
        destruct r; [destruct Hr as [_ ->]; by rewrite lookup_delete_ne by done|by destruct Hr as [-> _]].
      * intros l b t' El Ht'. destruct (au_expired _ _ _ Ha l b t' El Ht') as [Hk' Hx]. split; [done|]. intros d. specialize (Hx d). unfold pending in *. cbn. rewrite Eq in Hx.
        destruct r; [|by destruct Hr as [-> _]]. destruct Hr as [_ ->]. by intros [_ Hd]%lookup_delete_Some.
    + done.
    + done.
    + intros k Hne. unfold pending. cbn. rewrite Eq. destruct r; [destruct Hr as [_ ->]; rewrite lookup_delete_ne; [done|congruence]|by destruct Hr as [-> _]].
  - exists (mkAuths (delete n (authenticationDeadlines_ a0)) None (authenticationDeadlineDriver_ a0) (authenticationDeadlineContinuation_ a0) (driving a0)).
    split_and!.
    + intros s <-. unfold cancel_deadline, bindM, get, ret, modify, set_deadlines. rewrite Et, Eq. cbn. by rewrite Eq.
    + split; cbn; [congruence| |].
      { intros n' t' Ht'. destruct (Hrest n' t' Ht') as (? & ? & ? & Haw & _). split_and!; try done; try lia.
        unfold awaited in *. cbn. rewrite Eq in *. exact Haw. }
      intros l b t' El Ht'. destruct (au_expired _ _ _ Ha l b t' El Ht') as [Hk' Hx]. split; [done|]. intros d. unfold pending. cbn. by rewrite lookup_empty.
    + done.
    + done.
    + intros k Hne. unfold pending. cbn. by rewrite Eq.
Qed.

Lemma release_ok n a0 p0 m c next : auth_ok a0 m next -> peers_ok p0 m -> m !! n = Some c ->
  exists a, (forall s, auth s = a0 -> peers s = p0 -> releaseConnectionAdmission n s = (Ok tt, set_peers (released_peers n p0) (set_auth a s))) /\
    auth_ok a (delete n m) next /\ authenticationDeadlines_ a = delete n (authenticationDeadlines_ a0) /\ driving a = driving a0 /\
    (forall k, n <> connName k -> pending a !! k = pending a0 !! k).
Proof.
  intros Ha Hp Hn. destruct (cancel_deadline_ok n a0 m _ Ha) as (a & E & Ha' & Hd & Hdr & Hpn). exists a. split_and!; try done. intros s Es Ep.
  unfold releaseConnectionAdmission. rewrite (bindM_ok _ _ _ _ _ (E s Es)). unfold bindM at 1, get. cbn [peers set_auth].
  unfold released_peers. destruct (proj2 (pe_dom _ _ Hp n) (mk_is_Some _ _ Hn)) as [x Hx]. rewrite Ep, Hx.
  unfold bindM, modify, set_peer_maps. cbn. by rewrite Ep.
Qed.

(** What a removal leaves. *)
Definition dropped (c : Conn) (p : Pool.EventLoopThreadPool) (a : Auth) (s : TcpServer) : TcpServer :=
  set_connections (delete (ref_name c) (connections_ s)) (set_pool p (set_peers (released_peers (ref_name c) (peers s)) (set_auth a s))).

Lemma history_released h a a' n next : history_ok h a next -> authenticationDeadlines_ a' = delete n (authenticationDeadlines_ a) -> history_ok h a' next.
Proof. intros [Ho Hd] E. split; [done|]. intros c Hc. destruct (Hd c Hc) as [Hn Hk]. split; [|done]. rewrite E. apply lookup_delete_None. by right. Qed.

Lemma size_delete_le n (m : gmap string Conn) : Z.of_nat (size (delete n m)) <= Z.of_nat (size m).
Proof. apply Nat2Z.inj_le, map_subseteq_size, delete_subseteq. Qed.

Lemma names_delete m next n : names_ok m next -> names_ok (delete n m) next.
Proof.
  intros [Hn Hs Hx]. pose proof (size_delete_le n m). split; [|lia|done]. intros n' c [_ Hc]%lookup_delete_Some. by apply Hn.
Qed.

Lemma limits_released n p m : limits_ok p m -> limits_ok (released_peers n p) (delete n m).
Proof.
  intros [Ha Hp]. split.
  - intros H1. specialize (Ha H1). pose proof (size_delete_le n m). lia.
  - intros H1 x. specialize (Hp H1 x). pose proof (released_tally n p x). lia.
Qed.

(** A connection of the books can be taken out, and nothing throws. *)
Lemma drop_ok s c : books s -> connections_ s !! ref_name c = Some c ->
  exists p a, Pool.recordConnectionClosed (ref_loop c) (threadPool_ s) = (Ok tt, p) /\
    (forall s', auth s' = auth s -> peers s' = peers s ->
       releaseConnectionAdmission (ref_name c) s' = (Ok tt, set_peers (released_peers (ref_name c) (peers s)) (set_auth a s'))) /\
    books (dropped c p a s) /\ driving a = driving (auth s).
Proof.
  intros Hb Hc. destruct Hb as [Hpool Hbud Hrun Hun Hstp Hnames Hpeers Hauth Hhist Hlim].
  assert (0 < load_of (connections_ s) (ref_loop c)) as Hload.
  { pose proof (tally_member (on_loop (ref_loop c)) _ _ _ Hc) as Ht. unfold on_loop in Ht. rewrite Nat.eqb_refl in Ht. specialize (Ht eq_refl). unfold load_of, on_loop. lia. }
  destruct (Pool.pool_close _ _ _ Hpool Hload) as (p & Ep & Hp & Hst & Hall).
  destruct (release_ok (ref_name c) _ _ _ c _ Hauth Hpeers Hc) as (a & E & Ha & Hd & Hdr & _). exists p, a. split_and!; [done|done| |done].
  - split; cbn.
    + refine (Pool.counted_ext _ _ _ _ Hp). intros l. unfold load_of. rewrite (tally_delete _ _ _ _ Hc). case_decide as Exl.
      * assert (on_loop l c = true) as -> by (unfold on_loop; subst l; apply Nat.eqb_refl). lia.
      * assert (on_loop l c = false) as -> by (apply Nat.eqb_neq; congruence). lia.
    + by rewrite Hst, Hall.
    + by rewrite Hst.
    + by rewrite Hst.
    + done.
    + by apply names_delete.
    + eapply released_peers_ok; [done..|]. destruct Hnames. lia.
    + done.
    + by eapply history_released.
    + by apply limits_released.
Qed.

(** Connections were taken out, and nothing else changed. *)
Record shrunk (s s' : TcpServer) : Prop := {
  sh_next : nextConnId_ s' = nextConnId_ s /\ nextObject s' = nextObject s;
  sh_connections : connections_ s' ⊆ connections_ s;
  sh_flags : started_ s' = started_ s /\ stopped_ s' = stopped_ s /\ stopping s' = stopping s;
  sh_rest : history s' = history s /\ stats s' = stats s /\ driving (auth s') = driving (auth s) /\ rates s' = rates s;
}.

Lemma shrunk_refl s : shrunk s s.
Proof. by split. Qed.

Lemma shrunk_trans s1 s2 s3 : shrunk s1 s2 -> shrunk s2 s3 -> shrunk s1 s3.
Proof.
  intros [(? & ?) ? (? & ? & ?) (? & ? & ? & ?)] [(? & ?) ? (? & ? & ?) (? & ? & ? & ?)].
  split; [split; congruence|by etrans|split_and!; congruence|split_and!; congruence].
Qed.

Lemma dropped_shrunk c p a s : driving a = driving (auth s) -> shrunk s (dropped c p a s).
Proof. intros Hd. split; [done|apply delete_subseteq|done|by split_and!]. Qed.

Lemma drop_connection_ok s c : books s -> connections_ s !! ref_name c = Some c ->
  exists s', (run modify (set_connections (delete (ref_name c) (connections_ s))) ;; drop_connection c) s = (Ok tt, s') /\
    books s' /\ shrunk s s' /\ connections_ s' = delete (ref_name c) (connections_ s).
Proof.
  intros Hb Hc. destruct (drop_ok s c Hb Hc) as (p & a & Ep & Er & Hb' & Hd). exists (dropped c p a s).
  split_and!; [|done|by apply dropped_shrunk|done]. unfold drop_connection, bindM, modify, on_pool. cbn [threadPool_ set_connections]. rewrite Ep.
  rewrite Er by done. reflexivity.
Qed.

(** A post changes nothing here, and throws only when it is not accepted. *)
Lemma queueInLoop_ok r s : exists x, queueInLoop r s = (x, s) /\ (accepts r = true -> x = Ok tt).
Proof. destruct r as [[]|]; by eexists. Qed.

Lemma post_all_ok cs : forall posts s, exists x, post_all cs posts s = (x, s) /\ (forallb accepts posts = true -> x = Ok tt).
Proof.
  induction cs as [|c cs IH]; intros posts s; [by exists (Ok tt)|]. destruct posts as [|p posts]; [by exists (Ok tt)|]. cbn.
  destruct (queueInLoop_ok p s) as (x & E & Hx). unfold bindM. rewrite E. destruct x as [[]|e].
  - destruct (IH posts s) as (y & E' & Hy). exists y. split; [done|]. intros [_ ?]%andb_prop. auto.
  - exists (Throw e). split; [done|]. intros [Ha _]%andb_prop. by specialize (Hx Ha).
Qed.

Definition remove_accepted (p : RemovePosts) : bool := accepts (post_destroy p) && (negb (graceful_pending p) || accepts (post_finish p)).

Lemma remove_ok s p c : books s -> (forall c', connections_ s !! ref_name c = Some c' -> c' = c) ->
  exists r s', removeConnectionInLoop p c s = (r, s') /\ (remove_accepted p = true -> r = Ok tt) /\ books s' /\ shrunk s s' /\
    (stopping s = false -> connections_ s' !! ref_name c = None).
Proof.
  intros Hb Hc. unfold removeConnectionInLoop, bindM at 1, get. destruct (stopping s) eqn:Es; [exists (Ok tt), s; by split_and!; [| | |apply shrunk_refl|]|].
  destruct (connections_ s !! ref_name c) as [c'|] eqn:Ec; [|exists (Ok tt), s; by split_and!; [| | |apply shrunk_refl|]].
  rewrite (Hc c' eq_refl) in Ec. destruct (drop_connection_ok s c Hb Ec) as (s' & E & Hb' & Hs & Hm).
  assert (exists r, (run queueInLoop (post_destroy p) ;; do s <- get ;;
      if graceful_pending p && bool_decide (connections_ s = ∅) then queueInLoop (post_finish p) else ret tt) s' = (r, s') /\
      (remove_accepted p = true -> r = Ok tt)) as (r & Er & Hr).
  { unfold remove_accepted. destruct (queueInLoop_ok (post_destroy p) s') as (x & Ex & Hx), (queueInLoop_ok (post_finish p) s') as (y & Ey & Hy).
    unfold bindM, get. rewrite Ex. destruct x as [[]|e].
    - destruct (graceful_pending p && bool_decide (connections_ s' = ∅)) eqn:Eg; [|by eexists]. exists y. split; [done|].
      apply andb_prop in Eg as [-> _]. intros [_ ?]%andb_prop. auto.
    - exists (Throw e). split; [done|]. intros [Ha _]%andb_prop. by specialize (Hx Ha). }
  exists r, s'. split; [|split_and!; [done..|intros _; rewrite Hm; apply lookup_delete_eq]].
  rewrite <- bindM_assoc. by rewrite (bindM_ok _ _ _ _ _ E).
Qed.

Lemma base_rollback_ok s c : books s ->
  exists s', base_rollback c s = (Ok tt, s') /\ books s' /\ shrunk s s' /\ connections_ s' !! ref_name c <> Some c.
Proof.
  intros Hb. unfold base_rollback, bindM at 1, get. case_bool_decide as Ec; [|exists s; by split_and!; [| |apply shrunk_refl|]].
  destruct (drop_connection_ok s c Hb Ec) as (s' & E & Hb' & Hs & Hm). exists s'. split_and!; [done..|]. by rewrite Hm, lookup_delete_eq.
Qed.

Lemma release_names_ok names : forall s, books s ->
  exists s', release_names names s = (Ok tt, s') /\ books s' /\ shrunk s s' /\ (forall n, n ∈ names -> connections_ s' !! n = None).
Proof.
  induction names as [|n names IH]; intros s Hb; cbn [release_names].
  { exists s. split_and!; [done|done|apply shrunk_refl|]. intros n Hn. by apply elem_of_nil in Hn. }
  unfold bindM at 1, get. destruct (connections_ s !! n) as [c|] eqn:Ec.
  - destruct (na_name _ _ (bk_names _ Hb) n c Ec) as [En _]. subst n. destruct (drop_ok s c Hb Ec) as (p & a & Ep & Er & Hb' & Hd).
    destruct (IH _ Hb') as (s' & E' & Hb'' & Hs' & Hn'). exists s'. split_and!; [|done|eapply shrunk_trans; [by apply dropped_shrunk|done]|].
    + unfold bindM at 1. unfold bindM at 1, on_pool. rewrite Ep. unfold bindM at 1, modify. rewrite Er by done. exact E'.
    + intros n [->|Hn]%elem_of_cons; [|by apply Hn']. destruct (connections_ s' !! ref_name c) eqn:E; [|done].
      pose proof (lookup_weaken _ _ _ _ E (sh_connections _ _ Hs')) as H1. cbn in H1. by rewrite lookup_delete_eq in H1.
  - destruct (IH s Hb) as (s' & E' & Hb'' & Hs' & Hn'). exists s'. split_and!; [exact E'|done|done|].
    intros n' [->|Hn]%elem_of_cons; [|by apply Hn']. destruct (connections_ s' !! n) eqn:E; [|done].
    pose proof (lookup_weaken _ _ _ _ E (sh_connections _ _ Hs')). congruence.
Qed.

(** *** Admitting *)

(** Only the rate limit, the counters and the callback are concerned. *)
Definition quiet (s s' : TcpServer) : Prop :=
  exists r c h, s' = set_rates r (set_stats c h s) /\ authenticated h = authenticated (history s) /\ forced h = forced (history s).

Lemma server_quiet_refl s : quiet s s.
Proof. exists (rates s), (stats s), (history s). split; [by destruct s|done]. Qed.

Lemma server_quiet_trans s1 s2 s3 : quiet s1 s2 -> quiet s2 s3 -> quiet s1 s3.
Proof. intros (r1 & c1 & h1 & -> & E1 & F1) (r2 & c2 & h2 & -> & E2 & F2). exists r2, c2, h2. cbn in *. split; [done|split; congruence]. Qed.

Lemma quiet_rates r s : quiet s (set_rates r s).
Proof. by exists r, (stats s), (history s). Qed.

Lemma quiet_books s s' : quiet s s' -> books s -> books s'.
Proof.
  intros (r & c & h & -> & E & F) [Hpool Hbud Hrun Hun Hstp Hnames Hpeers Hauth [Ho Hd] Hlim]. split; try done. split; cbn; rewrite E, F; done.
Qed.

Lemma count_and_emit_quiet e peer name s : exists s', count_and_emit e peer name s = (Ok tt, s') /\ quiet s s'.
Proof.
  unfold count_and_emit, emitAdmissionMetric, bindM, modify. destruct observed.
  - eexists. split; [done|]. exists (rates s), (count_event e (stats s)). eexists. split; [unfold set_rates, set_stats; cbn; reflexivity|done].
  - eexists. split; [done|]. exists (rates s), (count_event e (stats s)), (history s). split; [reflexivity|done].
Qed.

(** A computation that decides, changing no more than that. *)
Definition decides (m : SM bool) (P : TcpServer -> Prop) : Prop :=
  forall s, exists b s', m s = (Ok b, s') /\ quiet s s' /\ (b = true -> P s).

Lemma admit_rate_decides now peer : decides (admit_rate now peer) (fun _ => True).
Proof.
  intros s. unfold admit_rate. unfold bindM at 1, prunePeerRateBuckets, modify at 1. destruct (prune _ _ _) as [es bs]. set (s1 := set_rates _ s).
  assert (quiet s s1) as H1 by apply quiet_rates. unfold bindM at 1, get. unfold bindM at 1, modify at 1. set (s2 := set_rates _ s1).
  assert (quiet s s2) as H2 by (eapply server_quiet_trans; [exact H1|apply quiet_rates]). clearbody s1 s2.
  destruct (match _ !! peer with Some b => _ | None => _ end !! peer) as [b|]; destruct (_ <=? _).
  - destruct (count_and_emit_quiet RejectedPerPeerRateLimit peer "" s2) as (s' & E & Hq). exists false, s'. rewrite (bindM_ok _ _ _ _ _ E).
    split_and!; [done|by eapply server_quiet_trans|done].
  - eexists true, _. split_and!; [done|eapply server_quiet_trans; [exact H2|apply quiet_rates]|done].
  - destruct (count_and_emit_quiet RejectedPeerTrackingCapacity peer "" s2) as (s' & E & Hq). exists false, s'. rewrite (bindM_ok _ _ _ _ _ E).
    split_and!; [done|by eapply server_quiet_trans|done].
  - eexists true, _. split_and!; [done|eapply server_quiet_trans; [exact H2|apply quiet_rates]|done].
Qed.

(** There is room for one more. *)
Definition room (peer : string) (s : TcpServer) : Prop :=
  (0 < maxConnections admissionOptions_ -> Z.of_nat (size (connections_ s)) < maxConnections admissionOptions_) /\
  (0 < maxConnectionsPerPeer admissionOptions_ -> default 0 (activeConnectionsByPeer_ (peers s) !! peer) < maxConnectionsPerPeer admissionOptions_).

Lemma admitPeer_decides now peer : decides (admitPeer now peer) (room peer).
Proof.
  intros s. unfold admitPeer. assert (exists b s1, (if 0 <? maxConnectionAttemptsPerPeerPerWindow admissionOptions_ then admit_rate now peer else ret true) s = (Ok b, s1) /\ quiet s s1) as (b & s1 & E1 & H1).
  { destruct (0 <? _); [destruct (admit_rate_decides now peer s) as (b & s1 & E & Hq & _); by exists b, s1|]. exists true, s. split; [done|apply server_quiet_refl]. }
  rewrite (bindM_ok _ _ _ _ _ E1). destruct b; cbn [negb]; [|exists false, s1; by split_and!]. unfold bindM at 1, get.
  assert (forall e, exists s', (run count_and_emit e peer "" ;; ret false) s1 = (Ok false, s') /\ quiet s s') as Hrej.
  { intros e. destruct (count_and_emit_quiet e peer "" s1) as (s' & E & Hq). exists s'. rewrite (bindM_ok _ _ _ _ _ E). split; [done|by eapply server_quiet_trans]. }
  assert (connections_ s1 = connections_ s /\ peers s1 = peers s) as [Ec Ep] by (by destruct H1 as (r & c & h & -> & _)).
  destruct ((0 <? maxConnections admissionOptions_) && _) eqn:Ea; [destruct (Hrej RejectedConnectionLimit) as (s' & E & Hq); by exists false, s'|].
  destruct ((0 <? maxConnectionsPerPeer admissionOptions_) && _) eqn:Eb; [destruct (Hrej RejectedPerPeerLimit) as (s' & E & Hq); by exists false, s'|].
  exists true, s1. split_and!; [done|done|]. intros _. unfold room. rewrite Ec, Ep in *.
  split; intros Hpos; [destruct (proj1 (andb_false_iff _ _) Ea)|destruct (proj1 (andb_false_iff _ _) Eb)]; zify_bools; lia.
Qed.

(** *** Tracking *)

Record admission_ok : Prop := {
  ao_valid : validate admissionOptions_ = Ok tt;
  ao_range : authenticationDeadlineResolution admissionOptions_ <= i64_max /\ 0 <= maxAuthenticationTimeoutsPerAdvance admissionOptions_ < usize_lim;
}.

Lemma queue_options_ok : admission_ok -> options_ok queue_options.
Proof.
  intros [Hv Hr]. unfold validate in Hv. repeat (destruct (_ && _); [done|]). destruct (_ <? 0); [done|].
  destruct (_ <=? 0) eqn:E1; [done|]. destruct (_ =? 0) eqn:E2; [done|]. zify_bools. unfold options_ok, queue_options. cbn. lia.
Qed.

(** The deadlines of two states are the same. *)
Record same_deadlines (a a' : Auth) : Prop := {
  sd_map : authenticationDeadlines_ a' = authenticationDeadlines_ a;
  sd_pending : pending a' = pending a;
  sd_driving : driving a' = driving a;
}.

Definition tracked_peers (n x : string) (p : Peers) : Peers :=
  mkPeers (<[x := default 0 (activeConnectionsByPeer_ p !! x) ⊕ 1]> (activeConnectionsByPeer_ p)) (<[n := x]> (peerByConnection_ p)) (activeAdmissionConnections_ p ⊕ 1).

Lemma tally_eq_default x (p : gmap string string) (a : gmap string Z) :
  (forall y, a !! y = if tally (of_peer y) p =? 0 then None else Some (tally (of_peer y) p)) -> default 0 (a !! x) = tally (of_peer x) p.
Proof. intros Ha. rewrite (Ha x). destruct (_ =? 0) eqn:E; cbn; [zify_bools; lia|done]. Qed.

Lemma tracked_peers_ok n x p m c : peers_ok p m -> m !! n = None -> Z.of_nat (size m) < usize_max -> peers_ok (tracked_peers n x p) (<[n := c]> m).
Proof.
  intros [Hd Hs Ha Ht] Hn Hsz.
  assert (peerByConnection_ p !! n = None) as Hpn.
  { destruct (peerByConnection_ p !! n) eqn:E; [|done]. destruct (proj1 (Hd n) (mk_is_Some _ _ E)) as [? ?]. congruence. }
  split; cbn.
  - intros k. destruct (decide (k = n)) as [->|Hk]; [rewrite !lookup_insert_eq; split; intros _; by eexists|]. rewrite !lookup_insert_ne by done. apply Hd.
  - rewrite !map_size_insert_None by done. lia.
  - intros y. rewrite (tally_eq_default x _ _ Ha), tally_new by done. pose proof (tally_bounds (of_peer x) (peerByConnection_ p)) as Hb.
    destruct (decide (x = y)) as [<-|Exy].
    + assert (of_peer x x = true) as -> by (by apply bool_decide_true). rewrite lookup_insert_eq, uwrap_small by lia.
      by assert ((tally (of_peer x) (peerByConnection_ p) + 1 =? 0) = false) as -> by lia.
    + assert (of_peer y x = false) as -> by (by apply bool_decide_false). rewrite lookup_insert_ne, Z.add_0_r by done. apply Ha.
  - rewrite Ht, map_size_insert_None by done. rewrite uwrap_small; lia.
Qed.

Lemma tracked_released n x p m : peers_ok p m -> m !! n = None -> Z.of_nat (size m) < usize_max -> released_peers n (tracked_peers n x p) = p.
Proof.
  intros [Hd Hs Ha Ht] Hn Hsz. destruct p as [act by_ tot]; cbn in *.
  assert (by_ !! n = None) as Hpn.
  { destruct (by_ !! n) eqn:E; [|done]. destruct (proj1 (Hd n) (mk_is_Some _ _ E)) as [? ?]. congruence. }
  unfold released_peers, tracked_peers. cbn. rewrite lookup_insert_eq. rewrite delete_insert_id by done.
  pose proof (tally_bounds (of_peer x) by_) as Hb. rewrite (tally_eq_default x _ _ Ha). unfold one_less. rewrite lookup_insert_eq, uwrap_small by lia. f_equal.
  - specialize (Ha x). destruct (_ <=? 1) eqn:E1; zify_bools.
    + assert ((tally (of_peer x) by_ =? 0) = true) as Ez by lia. rewrite Ez in Ha. by rewrite delete_insert_id.
    + assert ((tally (of_peer x) by_ =? 0) = false) as Ez by lia. rewrite Ez in Ha.
      rewrite insert_insert_eq, uwrap_small by lia. apply insert_id. rewrite Ha. f_equal. lia.
  - rewrite Ht. rewrite (uwrap_small (_ + 1)) by lia. rewrite uwrap_small; lia.
Qed.

Lemma auth_mono a m n n' : auth_ok a m n -> n <= n' -> auth_ok a m n'.
Proof.
  intros [Hq Hd Hx] Hn. split.
  - intros q Eq. destruct (Hq q Eq) as (? & ? & ? & ?). split_and!; try done; lia.
  - intros k t Ht. destruct (Hd k t Ht) as (? & ? & ? & ?). split_and!; try done; lia.
  - intros l b t El Ht. destruct (Hx l b t El Ht). split; [lia|done].
Qed.

Lemma auth_insert a m n k c : auth_ok a m n -> auth_ok a (<[k := c]> m) n.
Proof.
  intros [Hq Hd Hx]. split; [done| |done]. intros k' t Ht. destruct (Hd k' t Ht) as (? & ? & Hm & ?). split_and!; try done; try lia.
  destruct (decide (k' = k)) as [->|Hk]; [rewrite lookup_insert_eq; by eexists|by rewrite lookup_insert_ne by done].
Qed.

Lemma ensure_driver_ok timer a0 m next : admission_ok -> auth_ok a0 m next -> 1 <= next ->
  exists r a, (forall s, auth s = a0 -> ensureAuthenticationDeadlineDriver timer s = (r, set_auth a s)) /\ auth_ok a m next /\ same_deadlines a0 a /\
    (r = Ok tt -> is_Some (authenticationDeadlineQueue_ a)).
Proof.
  intros Hadm Ha Hn. destruct (authenticationDeadlineQueue_ a0) as [q|] eqn:Eq.
  - exists (Ok tt), a0. split_and!; [|done|done|by intros; eexists]. intros s <-. unfold ensureAuthenticationDeadlineDriver, bindM, get. by rewrite Eq, set_auth_id.
  - destruct (df_new_spec _ (queue_options_ok Hadm)) as (q & E & Hi & Habs & Ho & Hnx).
    exists (if timer then Ok tt else Throw logic_error), (mkAuths (authenticationDeadlines_ a0) (Some q) (if timer then true else authenticationDeadlineDriver_ a0) (authenticationDeadlineContinuation_ a0) (driving a0)).
    split_and!.
    + intros s <-. unfold ensureAuthenticationDeadlineDriver, bindM, get, lift. rewrite Eq. unfold queue_options in E. rewrite E. by destruct timer.
    + split; cbn.
      * intros q1 [= <-]. rewrite Ho, Hnx, Habs. split_and!; [done|done|lia|]. intros k g d Hk. by rewrite lookup_empty in Hk.
      * intros k t Ht. destruct (au_deadlines _ _ _ Ha k t Ht) as (? & ? & ? & [(q1 & d & Eq1 & _)|Haw]); [congruence|]. split_and!; try done; try lia. by right.
      * intros l b t El Ht. destruct (au_expired _ _ _ Ha l b t El Ht) as [Hk' Hx]. split; [done|]. intros d. unfold pending. cbn. by rewrite Habs, lookup_empty.
    + split; cbn; [done| |done]. unfold pending. cbn. by rewrite Habs, Eq.
    + intros _. by eexists.
Qed.

Lemma same_deadlines_trans a b c : same_deadlines a b -> same_deadlines b c -> same_deadlines a c.
Proof. intros [] []. split; congruence. Qed.

(** The queue's entries are those of connections. *)
Lemma fresh_key a m next q key : auth_ok a m next -> authenticationDeadlineQueue_ a = Some q -> m !! connName key = None -> di_abs q !! key = None.
Proof.
  intros Ha Eq Hm. destruct (di_abs q !! key) as [[g d]|] eqn:E; [|done]. destruct (au_queue _ _ _ Ha q Eq) as (_ & _ & _ & Habs).
  destruct (au_deadlines _ _ _ Ha _ _ (Habs _ _ _ E)) as (_ & _ & [? ?] & _). congruence.
Qed.

Lemma schedule_ok' a0 m key c now q q' : auth_ok a0 m key -> authenticationDeadlineQueue_ a0 = Some q -> 1 <= key -> m !! connName key = None ->
  di_inv q' -> di_options q' = di_options q -> di_next q' = di_next q + 1 -> di_abs q' = <[key := (di_next q, now)]> (di_abs q) ->
  auth_ok (mkAuths (<[connName key := mkToken key (di_next q)]> (authenticationDeadlines_ a0)) (Some q') (authenticationDeadlineDriver_ a0)
             (authenticationDeadlineContinuation_ a0) (driving a0)) (<[connName key := c]> m) (key + 1).
Proof.
  intros Ha Eq Hk Hm Hi Ho Hn Habs. destruct (au_queue _ _ _ Ha q Eq) as (_ & Ho' & Hn' & Habs'). split; cbn.
  - intros q1 [= <-]. rewrite Ho, Hn. split_and!; [done|done|lia|]. intros k g d. rewrite Habs, lookup_insert_Some.
    intros [[<- [= <- <-]]|[Hne Hkg]]; [apply lookup_insert_eq|]. pose proof (Habs' k g d Hkg) as Hdl.
    destruct (au_deadlines _ _ _ Ha _ _ Hdl) as (_ & Hk' & _). cbn in Hk'. rewrite lookup_insert_ne; [done|]. intros E. apply Hne, connName_inj; [lia|lia|done].
  - intros n t [[<- <-]|[Hne Ht]]%lookup_insert_Some.
    + cbn. split_and!; [done|lia|lia|rewrite lookup_insert_eq; by eexists|]. left. exists q', now. split; [done|]. cbn. rewrite Habs. apply lookup_insert_eq.
    + destruct (au_deadlines _ _ _ Ha _ _ Ht) as (-> & Hkt & Hs & Haw). split_and!; try done; try lia; [by rewrite lookup_insert_ne by done|].
      destruct Haw as [(q1 & d & Eq1 & Hd)|Hdr]; [left|by right]. rewrite Eq in Eq1. injection Eq1 as <-. exists q', d. split; [done|]. rewrite Habs.
      rewrite lookup_insert_ne by lia. done.
  - intros l b t El Ht. destruct (au_expired _ _ _ Ha l b t El Ht) as [Hk' Hx]. split; [lia|]. intros d. specialize (Hx d). unfold pending in *. cbn. rewrite Eq in Hx.
    by rewrite Habs, lookup_insert_ne by lia.
Qed.

Lemma track_deadline_ok mem now key a0 m c : admission_ok -> auth_ok a0 m key -> 1 <= key < usize_max -> m !! connName key = None ->
  (0 < unauthenticatedTimeout admissionOptions_ -> is_time (now + unauthenticatedTimeout admissionOptions_)) ->
  exists r a, (forall s, auth s = a0 -> track_deadline mem now (connName key) key s = (r, set_auth a s)) /\
    driving a = driving a0 /\ (forall k, k <> key -> pending a !! k = pending a0 !! k) /\
    match r with
    | Ok _ => auth_ok a (<[connName key := c]> m) (key + 1) /\ delete (connName key) (authenticationDeadlines_ a) = authenticationDeadlines_ a0
    | Throw _ => auth_ok a m (key + 1) /\ same_deadlines a0 a
    end.
Proof.
  intros Hadm Ha Hk Hm Ht.
  assert (authenticationDeadlines_ a0 !! connName key = None) as Hdl.
  { destruct (authenticationDeadlines_ a0 !! connName key) as [t|] eqn:E; [|done]. destruct (au_deadlines _ _ _ Ha _ _ E) as (_ & _ & [? ?] & _). congruence. }
  destruct (0 <? unauthenticatedTimeout admissionOptions_) eqn:Eto.
  2: { exists (Ok tt), a0. split_and!; [intros s <-; unfold track_deadline; by rewrite Eto, set_auth_id|done|done|eapply auth_mono; [by apply auth_insert|lia]|by apply delete_id]. }
  zify_bools. specialize (Ht Eto). destruct (ensure_driver_ok (driver_ok mem) a0 m key Hadm Ha ltac:(lia)) as (r1 & a1 & E1 & Ha1 & Hs1 & Hq1).
  destruct r1 as [[]|x].
  2: { exists (Throw x), a1. split_and!; [|apply Hs1|intros; by rewrite (sd_pending _ _ Hs1)|eapply auth_mono; [done|lia]|done]. intros s Es. unfold track_deadline.
       assert ((0 <? unauthenticatedTimeout admissionOptions_) = true) as -> by lia. apply bindM_throw. by apply E1. }
  destruct (Hq1 eq_refl) as [q Eq]. destruct (au_queue _ _ _ Ha1 q Eq) as (Hi & Ho & Hn & Habs).
  destruct (di_schedule_spec q key _ Hi Ht ltac:(lia)) as (q' & Es & Hi' & Ho' & Hn' & Habs').
  pose proof (fresh_key _ _ _ _ _ Ha1 Eq Hm) as Hfresh. destruct (entry_ok mem) eqn:Een.
  - exists (Ok tt). eexists. split_and!; [| | |exact (schedule_ok' a1 m key c _ q q' Ha1 Eq ltac:(lia) Hm Hi' Ho' Hn' Habs')|].
    + intros s Es0. unfold track_deadline. assert ((0 <? unauthenticatedTimeout admissionOptions_) = true) as -> by lia.
      rewrite (bindM_ok _ _ _ _ _ (E1 s Es0)). unfold bindM, on_queue. cbn [auth set_auth]. rewrite Eq, Es, Een. reflexivity.
    + apply Hs1.
    + intros k Hk'. rewrite <-(sd_pending _ _ Hs1). unfold pending. cbn. by rewrite Eq, Habs', lookup_insert_ne by done.
    + cbn. rewrite (sd_map _ _ Hs1). by apply delete_insert_id.
  - destruct (di_cancel_spec q' (mkToken key (di_next q)) Hi') as (r & q2 & Ec & Hi2 & Ho2 & Hn2 & Hr).
    assert (di_abs q2 = di_abs q) as Habs2.
    { destruct r; [|exfalso; destruct Hr as [_ Hr]; apply (Hr (now + unauthenticatedTimeout admissionOptions_)); cbn; rewrite Habs'; apply lookup_insert_eq].
      destruct Hr as [_ ->]. cbn. rewrite Habs'. by apply delete_insert_id. }
    exists (Throw bad_alloc), (mkAuths (authenticationDeadlines_ a1) (Some q2) (authenticationDeadlineDriver_ a1) (authenticationDeadlineContinuation_ a1) (driving a1)).
    assert (pending a1 = di_abs q) as Hp1 by (unfold pending; by rewrite Eq).
    split_and!; [|apply Hs1|intros k _; change (di_abs q2 !! k = pending a0 !! k); by rewrite Habs2, <-Hp1, (sd_pending _ _ Hs1)| |].
    + intros s Es0. unfold track_deadline. assert ((0 <? unauthenticatedTimeout admissionOptions_) = true) as -> by lia.
      rewrite (bindM_ok _ _ _ _ _ (E1 s Es0)). unfold bindM, on_queue. cbn [auth set_auth]. rewrite Eq, Es, Een. cbn [auth set_auth authenticationDeadlineQueue_]. rewrite Ec. reflexivity.
    + split; cbn.
      * intros q3 [= <-]. rewrite Ho2, Hn2, Ho', Hn', Habs2. split_and!; [done|done|lia|done].
      * intros n t Ht'. destruct (au_deadlines _ _ _ Ha1 _ _ Ht') as (? & ? & ? & Haw). split_and!; try done; try lia.
        destruct Haw as [(q1 & d & Eq1 & Hd)|Hdr]; [left|by right]. rewrite Eq in Eq1. injection Eq1 as <-. exists q2, d. by rewrite Habs2.
      * intros l b t El Ht'. destruct (au_expired _ _ _ Ha1 l b t El Ht') as [Hk' Hx]. split; [lia|]. intros d. unfold pending. cbn. rewrite Habs2, <-Hp1. apply Hx.
    + eapply same_deadlines_trans; [exact Hs1|]. split; cbn; [done| |done]. unfold pending. cbn. by rewrite Habs2, Eq.
Qed.

Lemma set_peers_id s : set_peers (peers s) (set_auth (auth s) s) = s.
Proof. by destruct s. Qed.

Lemma track_ok mem now peer key a0 p0 m c : admission_ok -> auth_ok a0 m key -> peers_ok p0 m -> ref_name c = connName key -> 1 <= key < usize_max ->
  m !! ref_name c = None -> (0 < unauthenticatedTimeout admissionOptions_ -> is_time (now + unauthenticatedTimeout admissionOptions_)) ->
  Z.of_nat (size m) < usize_max ->
  exists r a, (forall s, auth s = a0 -> peers s = p0 -> trackAcceptedConnection mem now c peer key s =
      (r, set_peers (match r with Ok _ => tracked_peers (ref_name c) peer p0 | Throw _ => p0 end) (set_auth a s))) /\
    driving a = driving a0 /\ (forall k, k <> key -> pending a !! k = pending a0 !! k) /\
    match r with
    | Ok _ => auth_ok a (<[ref_name c := c]> m) (key + 1) /\ delete (ref_name c) (authenticationDeadlines_ a) = authenticationDeadlines_ a0
    | Throw _ => auth_ok a m (key + 1) /\ same_deadlines a0 a
    end.
Proof.
  intros Hadm Ha Hp En Hk Hm Ht Hsz.
  assert (peerByConnection_ p0 !! ref_name c = None) as Hpn.
  { destruct (peerByConnection_ p0 !! ref_name c) eqn:E; [|done]. destruct (proj1 (pe_dom _ _ Hp (ref_name c)) (mk_is_Some _ _ E)) as [? ?]. congruence. }
  assert (forall x, (forall s, auth s = a0 -> peers s = p0 -> trackAcceptedConnection mem now c peer key s = (Throw x, s)) ->
    exists r a, (forall s, auth s = a0 -> peers s = p0 -> trackAcceptedConnection mem now c peer key s =
      (r, set_peers (match r with Ok _ => tracked_peers (ref_name c) peer p0 | Throw _ => p0 end) (set_auth a s))) /\
    driving a = driving a0 /\ (forall k, k <> key -> pending a !! k = pending a0 !! k) /\
    match r with
    | Ok _ => auth_ok a (<[ref_name c := c]> m) (key + 1) /\ delete (ref_name c) (authenticationDeadlines_ a) = authenticationDeadlines_ a0
    | Throw _ => auth_ok a m (key + 1) /\ same_deadlines a0 a
    end) as Hfail.
  { intros x E. exists (Throw x), a0. split_and!; [|done|done|eapply auth_mono; [done|lia]|done]. intros s <- <-. by rewrite set_peers_id, E. }
  destruct (identity_ok mem) eqn:Ei; [|apply (Hfail bad_alloc); intros s _ _; unfold trackAcceptedConnection; by rewrite Ei].
  destruct (peer_ok mem) eqn:Ep.
  2: { apply (Hfail bad_alloc). intros s Es1 Es2. unfold trackAcceptedConnection, bindM, throw_if, ret, get, modify. rewrite Ei, Ep. cbn [negb].
       rewrite bool_decide_false by (rewrite Es2, Hpn; apply is_Some_None). unfold throw, set_peer_maps. cbn. rewrite delete_insert_id by (by rewrite Es2).
       destruct s as [? ? ? ? ? ? ? ? [] ? ? ? ?]. done. }
  rewrite En in Hm. destruct (track_deadline_ok mem now key a0 m c Hadm Ha Hk Hm Ht) as (r & a & E & Hdr & Hpend & Hr). exists r, a.
  rewrite En in *. split_and!; [|done|done|by destruct r]. intros s Es1 Es2.
  unfold trackAcceptedConnection, bindM, throw_if, ret, get, modify. rewrite Ei, Ep, En. cbn [negb].
  rewrite bool_decide_false by (rewrite Es2, Hpn; apply is_Some_None). rewrite E by done. destruct r as [[]|x]; cbn.
  - by rewrite Es2.
  - unfold set_peer_maps. cbn. rewrite Es2. f_equal. pose proof (tracked_released (connName key) peer p0 m Hp Hm Hsz) as Hrel.
    unfold released_peers, tracked_peers in Hrel. cbn in Hrel. rewrite lookup_insert_eq in Hrel. destruct p0 as [act by_ tot]; cbn in *.
    injection Hrel as H1 H2 H3. by rewrite H1, H2.
Qed.

(** *** The transaction *)

(** Nothing is left of an attempt in the books. *)
Record no_trace (s s' : TcpServer) : Prop := {
  nt_connections : connections_ s' = connections_ s;
  nt_peers : peers s' = peers s;
  nt_deadlines : same_deadlines (auth s) (auth s');
}.

(** The rest is as it was. *)
Record steady (s s' : TcpServer) : Prop := {
  st_flags : started_ s' = started_ s /\ stopped_ s' = stopped_ s /\ stopping s' = stopping s;
  st_next : nextConnId_ s' = nextConnId_ s /\ nextObject s' = nextObject s;
  st_history : authenticated (history s') = authenticated (history s) /\ forced (history s') = forced (history s);
  st_driving : driving (auth s') = driving (auth s);
  st_budgets : loopOutputBudgets_ s' = loopOutputBudgets_ s /\ Pool.getAllLoops (threadPool_ s') = Pool.getAllLoops (threadPool_ s) /\
    Pool.started_ (threadPool_ s') = Pool.started_ (threadPool_ s);
}.

Lemma names_insert m key c : names_ok m key -> ref_name c = connName key -> m !! ref_name c = None -> 1 <= key < usize_max -> names_ok (<[ref_name c := c]> m) (key + 1).
Proof.
  intros [Hn Hs Hx] En Hm Hk. split; [|rewrite map_size_insert_None by done; lia|lia].
  intros n c' [[<- <-]|[Hne Hc]]%lookup_insert_Some.
  - split; [done|]. exists key. split; [done|lia].
  - destruct (Hn n c' Hc) as (? & k & ? & ?). split; [done|]. exists k. split; [done|lia].
Qed.

Lemma names_mono m n n' : names_ok m n -> n <= n' <= usize_max -> names_ok m n'.
Proof. intros [Hn Hs Hx] Hle. split; [|lia|lia]. intros k c Hc. destruct (Hn k c Hc) as (? & x & ? & ?). split; [done|]. exists x. split; [done|lia]. Qed.

Lemma limits_tracked n x p m c : peers_ok p m -> limits_ok p m -> m !! n = None ->
  (0 < maxConnections admissionOptions_ -> Z.of_nat (size m) < maxConnections admissionOptions_) ->
  (0 < maxConnectionsPerPeer admissionOptions_ -> default 0 (activeConnectionsByPeer_ p !! x) < maxConnectionsPerPeer admissionOptions_) ->
  limits_ok (tracked_peers n x p) (<[n := c]> m).
Proof.
  intros Hp [Ha Hpp] Hm H1 H2. rewrite (tally_eq_default x _ _ (pe_active _ _ Hp)) in H2.
  assert (peerByConnection_ p !! n = None) as Hpn.
  { destruct (peerByConnection_ p !! n) eqn:E; [|done]. destruct (proj1 (pe_dom _ _ Hp n) (mk_is_Some _ _ E)) as [? ?]. congruence. }
  split; cbn.
  - intros Hpos. rewrite map_size_insert_None by done. specialize (H1 Hpos). lia.
  - intros Hpos y. rewrite tally_new by done. specialize (Hpp Hpos y). specialize (H2 Hpos). unfold of_peer at 2. case_bool_decide as E; [subst; lia|lia].
Qed.

Lemma history_tracked h a a' name key : history_ok h a key -> name = connName key -> 1 <= key -> delete name (authenticationDeadlines_ a') = authenticationDeadlines_ a -> history_ok h a' (key + 1).
Proof.
  intros [Ho Hd] En Hk E. split; [done|]. intros c Hc. destruct (Hd c Hc) as (Hn & k & Ek & Hkk). split; [|exists k; split; [done|lia]].
  rewrite <-E in Hn. apply lookup_delete_None in Hn as [Hn|Hn]; [|done]. rewrite En, Ek in Hn. apply connName_inj in Hn; lia.
Qed.

Lemma history_same h a a' n n' : history_ok h a n -> authenticationDeadlines_ a' = authenticationDeadlines_ a -> n <= n' -> history_ok h a' n'.
Proof. intros [Ho Hd] E Hn. split; [done|]. intros c Hc. rewrite E. destruct (Hd c Hc) as (? & k & ? & ?). split; [done|]. exists k. split; [done|lia]. Qed.

Lemma load_insert m c l : m !! ref_name c = None -> load_of (<[ref_name c := c]> m) l = if decide (l = ref_loop c) then load_of m l + 1 else load_of m l.
Proof.
  intros Hm. unfold load_of. rewrite tally_new by done. case_decide as E.
  - assert (on_loop l c = true) as -> by (unfold on_loop; subst l; apply Nat.eqb_refl). done.
  - assert (on_loop l c = false) as -> by (apply Nat.eqb_neq; congruence). lia.
Qed.

(** The connection is in the books, but for the flags of the transaction. *)
Lemma establish_try_ok a c s0 key : admission_ok -> books s0 -> nextConnId_ s0 = key -> key < usize_max -> 1 <= key ->
  ref_name c = connName key -> Pool.started_ (threadPool_ s0) = true -> Pool.member (threadPool_ s0) (ref_loop c) -> room (att_peer a) s0 ->
  (0 < unauthenticatedTimeout admissionOptions_ -> is_time (att_now a + unauthenticatedTimeout admissionOptions_)) ->
  let s := set_nextObject (S (nextObject s0)) (set_nextConnId (key + 1) s0) in
  exists h s', establish_try a c key s = (Ok h, s') /\ steady s s' /\ books s' /\
    ((h = Established c /\ connections_ s' = <[ref_name c := c]> (connections_ s)) \/ (h = RolledBack c /\ no_trace s s')).
Proof.
  intros Hadm [Hpool Hbud Hrun Hun Hstp Hnames Hpeers Hauth Hhist Hlim] Enx Hkm Hk En Hst Hmem [Hr1 Hr2] Ht. cbv zeta. rewrite Enx in *.
  set (s := set_nextObject _ _). set (n := ref_name c) in *. set (m := connections_ s0) in *.
  assert (m !! n = None) as Hm.
  { destruct (m !! n) as [c'|] eqn:E; [|done]. destruct (names_key _ _ _ _ Hnames E) as (k & Ek & Hkk). rewrite En in Ek. apply connName_inj in Ek; lia. }
  pose proof (na_size _ _ Hnames) as Hsz.
  assert (forall s', set_connections (delete n (<[n := c]> m)) s' = set_connections m s') as Hback by (intros; by rewrite delete_insert_id).
  (* the state with the books of before *)
  assert (forall p' a', Pool.counted p' (load_of m) -> Pool.started_ p' = Pool.started_ (threadPool_ s0) -> Pool.getAllLoops p' = Pool.getAllLoops (threadPool_ s0) ->
    auth_ok a' m (key + 1) -> same_deadlines (auth s0) a' ->
    let s' := set_connections m (set_pool p' (set_peers (peers s0) (set_auth a' s))) in steady s s' /\ books s' /\ no_trace s s') as Hrest.
  { intros p' a' Hp' Hs' Hl' Ha' Hsd. cbv zeta. split_and!; [|split|split]; cbn; try done.
    - split; cbn; try done. by rewrite (sd_driving _ _ Hsd).
    - by rewrite Hs', Hl'.
    - by rewrite Hs'.
    - by rewrite Hs'.
    - eapply names_mono; [done|lia].
    - eapply history_same; [done|by apply sd_map|lia]. }
  pose proof (auth_mono _ _ _ (key + 1) Hauth ltac:(lia)) as Hauth'.
  assert (same_deadlines (auth s0) (auth s0)) as Hsame by done.
  assert (set_connections m (set_pool (threadPool_ s0) (set_peers (peers s0) (set_auth (auth s0) s))) = s) as Hid by (by destruct s0).
  unfold establish_try, guarded at 1. destruct (att_inserted a) eqn:Ein.
  2: { eexists _, _. split; [reflexivity|]. destruct (Hrest _ _ Hpool eq_refl eq_refl Hauth' Hsame) as (? & ? & ?). rewrite Hid in *. split_and!; [done|done|by right]. }
  assert (insert_connection true c s = (Ok tt, set_connections (<[n := c]> m) s)) as ->.
  { unfold insert_connection, bindM, throw_if, ret, get. cbn [negb]. rewrite bool_decide_false; [done|]. change (connections_ s !! ref_name c) with (m !! n). rewrite Hm. apply is_Some_None. }
  unfold guarded at 1, on_pool at 1. cbn [threadPool_ set_connections].
  destruct (Pool.pool_open _ _ _ Hpool Hst Hmem) as [[_ Eo]|(p1 & Eo & Hp1 & Hs1 & Hl1)]; change (threadPool_ s) with (threadPool_ s0); rewrite Eo.
  { eexists _, _. split; [unfold rollbackProvisionalState, bindM, modify, ret; cbn [connections_ set_connections set_pool]; by rewrite Hback|].
    destruct (Hrest _ _ Hpool eq_refl eq_refl Hauth' Hsame) as (? & ? & ?). rewrite <-Hid. split_and!; [done|done|by right]. }
  set (s2 := set_pool p1 _).
  destruct (Pool.pool_close p1 _ (ref_loop c) Hp1) as (p2 & Ec2 & Hp2 & Hs2 & Hl2).
  { rewrite decide_True by done. pose proof (tally_bounds (on_loop (ref_loop c)) m) as Hb. unfold load_of. lia. }
  assert (Pool.counted p2 (load_of m)) as Hp2'.
  { refine (Pool.counted_ext _ _ _ _ Hp2). intros l. cbn. case_decide; lia. }
  destruct (track_ok (att_tracked a) (att_now a) (att_peer a) key (auth s0) (peers s0) m c Hadm Hauth Hpeers En ltac:(lia) Hm Ht ltac:(lia)) as (r & a1 & Et & Hd1 & Hpn1 & Hr).
  unfold guarded. rewrite (Et s2) by done. destruct r as [[]|x].
  2: { destruct Hr as [Ha1 Hsd1]. eexists _, _. split.
       - unfold rollbackProvisionalState, bindM, modify, ret, on_pool. cbn [connections_ set_connections set_pool set_peers set_auth threadPool_]. subst s2.
         cbn [connections_ set_connections set_pool set_peers set_auth threadPool_]. rewrite Ec2. fold n. rewrite Hback. reflexivity.
       - destruct (Hrest _ _ Hp2' ltac:(congruence) ltac:(congruence) Ha1 Hsd1) as (? & ? & ?). split_and!; [done|done|by right]. }
  destruct Hr as [Ha1 Hdl1].
  assert (exists s', rollbackProvisionalState true true true c (set_peers (tracked_peers n (att_peer a) (peers s0)) (set_auth a1 s2)) = (Ok (RolledBack c), s') /\ steady s s' /\ books s' /\ no_trace s s') as (sr & Er & Hsr).
  { destruct (release_ok n a1 (tracked_peers n (att_peer a) (peers s0)) _ c _ Ha1 (tracked_peers_ok n (att_peer a) _ _ c Hpeers Hm ltac:(lia)) (lookup_insert_eq _ _ _)) as (a2 & E2 & Ha2 & Hd2 & Hdr2 & Hpn2).
    rewrite (tracked_released n (att_peer a) _ m Hpeers Hm ltac:(lia)) in E2. rewrite delete_insert_id in Ha2 by done.
    assert (same_deadlines (auth s0) a2) as Hsd2.
    { split; [rewrite Hd2; exact Hdl1| |congruence]. apply map_eq. intros k. destruct (decide (k = key)) as [->|Hne].
      - assert (forall a', auth_ok a' m (key + 1) -> pending a' !! key = None) as Hf.
        { intros a' Ha'. unfold pending. destruct (authenticationDeadlineQueue_ a') as [q|] eqn:Eq; [|apply lookup_empty]. eapply fresh_key; [exact Ha'|done|by rewrite <-En]. }
        by rewrite !Hf.
      - destruct (decide (n = connName k)) as [Ek|Hnk]; [|by rewrite Hpn2, Hpn1].
        assert (forall a', auth_ok a' m (key + 1) -> pending a' !! k = None) as Hf.
        { intros a' Ha'. unfold pending. destruct (authenticationDeadlineQueue_ a') as [q|] eqn:Eq; [|apply lookup_empty]. eapply fresh_key; [exact Ha'|done|by rewrite <-Ek]. }
        by rewrite !Hf. }
    eexists. split.
    - unfold rollbackProvisionalState, bindM, modify, ret, on_pool. cbn [connections_ set_connections set_pool set_peers set_auth threadPool_]. subst s2.
      cbn [connections_ set_connections set_pool set_peers set_auth threadPool_]. rewrite Ec2. fold n. rewrite Hback, E2 by done. reflexivity.
    - apply (Hrest p2 a2); [done|congruence|congruence|done|done]. }
  destruct (match att_posted a with Some PostAccepted => true | _ => false end) eqn:Epost.
  2: { exists (RolledBack c), sr. destruct Hsr as (? & ? & ?). destruct (att_posted a) as [[]|]; try discriminate Epost; (split_and!; [exact Er|done|done|by right]). }
  destruct (att_posted a) as [[]|]; try discriminate Epost.
  destruct (count_and_emit_quiet Accepted (att_peer a) n (set_peers (tracked_peers n (att_peer a) (peers s0)) (set_auth a1 s2))) as (s' & E' & Hq).
  exists (Established c), s'. split; [fold n; by rewrite (bindM_ok _ _ _ _ _ E')|]. split_and!.
  - destruct Hq as (r' & c' & h' & -> & E1 & E2). split; cbn; try done; try split_and!; congruence.
  - apply (quiet_books _ _ Hq). split; cbn.
    + refine (Pool.counted_ext _ _ _ _ Hp1). intros l. symmetry. exact (load_insert m c l Hm).
    + rewrite Hs1, Hl1. done.
    + by rewrite Hs1.
    + by rewrite Hs1.
    + done.
    + apply names_insert; [done|done|done|lia].
    + apply tracked_peers_ok; [done|done|lia].
    + done.
    + eapply history_tracked; [done|exact En|lia|done].
    + by apply limits_tracked.
  - left. split; [done|]. by destruct Hq as (r' & c' & h' & -> & _).
Qed.

(** *** Whole operations *)

(** What an attempt leaves: the books in order, with one more connection or without a
    trace. *)
Record attempt_post (a : Attempt) (s : TcpServer) (r : result Handled) (s' : TcpServer) : Prop := {
  ap_books : books s';
  ap_next : nextConnId_ s <= nextConnId_ s' <= nextConnId_ s + 1;
  ap_driving : driving (auth s') = driving (auth s);
  ap_total : started_ s = true -> key_bytes (att_peer a) <> [] -> exists h, r = Ok h;
  ap_named : forall c, r = Ok (Established c) \/ r = Ok (RolledBack c) -> ref_name c = connName (nextConnId_ s) /\ nextConnId_ s' = nextConnId_ s + 1;
  ap_trace : (exists c, r = Ok (Established c) /\ connections_ s' = <[ref_name c := c]> (connections_ s) /\ connections_ s !! ref_name c = None) \/
    ((forall c, r <> Ok (Established c)) /\ no_trace s s');
}.

Lemma post_none a s r s' : books s' -> nextConnId_ s <= nextConnId_ s' <= nextConnId_ s + 1 -> no_trace s s' ->
  (started_ s = true -> key_bytes (att_peer a) <> [] -> exists h, r = Ok h) -> (forall c, r <> Ok (Established c)) -> (forall c, r <> Ok (RolledBack c)) -> attempt_post a s r s'.
Proof.
  intros Hb Hn Hnt Ht H1 H2. split; [done|done|by apply sd_driving, nt_deadlines|done| |by right]. intros c [E|E]; exfalso; [by apply (H1 c)|by apply (H2 c)].
Qed.

Lemma books_next s : books s -> 1 <= nextConnId_ s < usize_max -> books (set_nextConnId (nextConnId_ s + 1) s).
Proof.
  intros [Hpool Hbud Hrun Hun Hstp Hnames Hpeers Hauth Hhist Hlim] Hk. split; cbn; try done.
  - eapply names_mono; [done|lia].
  - eapply auth_mono; [done|lia].
  - eapply history_same; [done|done|lia].
Qed.

Lemma books_begin_stop s : books s -> exists s', begin_stop s = (Ok tt, s') /\ books s' /\ steady (set_flags (started_ s') (stopped_ s') (stopping s') s) s' /\ no_trace s s'.
Proof.
  intros Hb. unfold begin_stop, modify. destruct (stopping s || stopped_ s) eqn:E; [exists s; split_and!; [done|done|by destruct s; split|by split]|].
  eexists. split; [done|]. destruct Hb as [Hpool Hbud Hrun Hun Hstp Hnames Hpeers Hauth Hhist Hlim]. split_and!; split; try done.
Qed.

Lemma newConnection_ok a s : admission_ok -> books s -> 1 <= nextConnId_ s ->
  (0 < unauthenticatedTimeout admissionOptions_ -> is_time (att_now a + unauthenticatedTimeout admissionOptions_)) ->
  exists r s', newConnection a s = (r, s') /\ attempt_post a s r s'.
Proof.
  intros Hadm Hb Hk Ht.
  assert (steady s s /\ no_trace s s) as [Hss Hns] by (split; split; done).
  unfold newConnection. unfold bindM at 1, get. destruct (stopped_ s) eqn:Esp; [by eexists _, _; split; [done|]; apply post_none; try done; [lia|by eexists]|].
  destruct (admitPeer_decides (att_steady a) (att_peer a) s) as (b & s1 & E1 & Hq & Hroom). rewrite (bindM_ok _ _ _ _ _ E1).
  pose proof (quiet_books _ _ Hq Hb) as Hb1. destruct Hq as (rr & cc & hh & Es1 & Eh1 & Eh2).
  assert (steady s s1 /\ no_trace s s1) as [Hs1 Hn1] by (subst s1; split; split; done).
  assert (nextConnId_ s1 = nextConnId_ s) as Hx1 by apply Hs1.
  destruct b; cbn [negb]; [|by eexists _, _; split; [done|]; apply post_none; try done; [lia|by eexists]]. specialize (Hroom eq_refl).
  destruct (Pool.pool_select (threadPool_ s1) _ (att_snap a) (key_bytes (att_peer a)) (bk_pool _ Hb1)) as (Hp2 & Hst2 & Hl2 & Hm2).
  pose proof (Pool.pool_select_total (threadPool_ s1) (att_snap a) (key_bytes (att_peer a)) (Pool.ct_ok _ _ (bk_pool _ Hb1))) as Htot.
  unfold bindM at 1, on_pool at 1. destruct (Pool.selectLoop (att_snap a) (key_bytes (att_peer a)) (threadPool_ s1)) as [sel p2] eqn:Esel. cbn [fst snd] in *.
  set (s2 := set_pool p2 s1).
  assert (books s2) as Hb2.
  { destruct Hb1 as [Hpool Hbud Hrun Hun Hstp Hnames Hpeers Hauth Hhist Hlim]. split; cbn; try done; rewrite ?Hst2, ?Hl2; done. }
  assert (steady s s2 /\ no_trace s s2) as [Hs2 Hn2].
  { split; [|destruct Hn1; by split]. destruct Hs1 as [? ? ? ? (? & ? & ?)]. split; try done. cbn. rewrite Hst2, Hl2. by split_and!. }
  assert (started_ s = true -> Pool.started_ p2 = true) as Hrun2.
  { intros Hs. apply (bk_running _ Hb2); [by rewrite (proj1 (st_flags _ _ Hs2))|by rewrite (proj1 (proj2 (st_flags _ _ Hs2)))]. }
  destruct sel as [ioLoop|x].
  2: { eexists _, _. split; [done|]. apply post_none; try done; [cbn; lia|]. intros Hs Hkey. destruct Htot as [l Hl]; [by rewrite <-Hst2; apply Hrun2|done|done]. }
  unfold bindM at 1, get. unfold bindM at 1, throw_if. case_bool_decide as Hbud; cbn [negb].
  2: { eexists _, _. split; [done|]. apply post_none; try done; [cbn; lia|]. intros Hs _. exfalso. apply Hbud. rewrite (bk_budgets _ Hb2) by (by apply Hrun2).
       change (Pool.member p2 ioLoop). unfold Pool.member. rewrite Hl2. by apply Hm2. }
  unfold ret at 1. destruct (nextConnId_ s2 =? usize_max) eqn:Emax; [by eexists _, _; split; [done|]; apply post_none; try done; [cbn; lia|by eexists]|]. zify_bools.
  assert (nextConnId_ s2 = nextConnId_ s) as Hx2 by exact Hx1. pose proof (na_next _ _ (bk_names _ Hb2)) as Hmx.
  unfold bindM at 1, modify at 1. pose proof (books_next s2 Hb2 ltac:(lia)) as Hb3. set (s3 := set_nextConnId _ s2) in *.
  assert (no_trace s s3) as Hn3 by (destruct Hn2; by split).
  destruct (att_local a) as [[]|].
  1: { eexists _, _. split; [done|]. apply post_none; try done; [cbn; lia|by eexists]. }
  1: { destruct (books_begin_stop s3 Hb3) as (s4 & E4 & Hb4 & Hst4 & Hn4). rewrite (bindM_ok _ _ _ _ _ E4). eexists _, _. split; [done|]. apply post_none; try done.
       - destruct (st_next _ _ Hst4) as [E _]. cbn in E. rewrite E. cbn. lia.
       - destruct Hn3 as [? ? Hd3], Hn4 as [? ? Hd4]. split; [congruence|congruence|by eapply same_deadlines_trans].
       - by eexists. }
  destruct (negb (att_armed a) || negb (att_constructed a)); [eexists _, _; split; [done|]; apply post_none; try done; [cbn; lia|by eexists]|].
  cbv zeta. unfold bindM at 1, modify.
  assert (Pool.started_ p2 = true) as Hps.
  { destruct (started_ s) eqn:Es; [by apply Hrun2|]. exfalso. destruct (bk_unstarted _ Hb2) as [_ Hno]; [by rewrite (proj1 (st_flags _ _ Hs2))|].
    change (ioLoop ∈ loopOutputBudgets_ s2) in Hbud. rewrite Hno in Hbud. by apply elem_of_nil in Hbud. }
  destruct (establish_try_ok a (mkConn (nextObject s3) (connName (nextConnId_ s2)) ioLoop) s2 (nextConnId_ s2) Hadm Hb2 eq_refl ltac:(lia) ltac:(lia) eq_refl Hps) as (h & s' & E & Hst' & Hb' & Hout); try done.
  { unfold Pool.member. change (threadPool_ s2) with p2. rewrite Hl2. by apply Hm2. }
  { destruct Hs2 as [? ? ? ? ?]. unfold room in *. cbn. destruct Hn2. subst s1. done. }
  exists (Ok h), s'. split; [exact E|]. destruct (st_next _ _ Hst') as [En _]. cbn in En.
  assert (connections_ s2 = connections_ s) as Ec2 by apply Hn2. change (connections_ s1 = connections_ s) in Ec2. split.
  - done.
  - lia.
  - rewrite (st_driving _ _ Hst'). apply Hn3.
  - by eexists.
  - intros c [[= ->]|[= ->]]; (split; [|lia]); destruct Hout as [[[= ->] _]|[[= ->] _]]; cbn; f_equal; exact Hx1.
  - destruct Hout as [[-> Ec]|[-> Hnt]].
    + left. eexists. split; [done|]. cbn in Ec. rewrite Ec2 in Ec. split; [done|]. cbn. rewrite <-Ec2. destruct (connections_ s1 !! connName (nextConnId_ s1)) as [c'|] eqn:Ex; [|done].
      destruct (names_key _ _ _ _ (bk_names _ Hb2) Ex) as (k & Ek & Hkk). apply connName_inj in Ek; lia.
    + right. split; [done|]. destruct Hn3 as [H1 H2 H3], Hnt as [H4 H5 H6]. split; [by rewrite H4|by rewrite H5|by eapply same_deadlines_trans].
Qed.

(** *** Authentication *)

Lemma auth_weaken a m m' n : auth_ok a m' n -> m' ⊆ m -> auth_ok a m n.
Proof.
  intros [Hq Hd Hx] Hm. split; [done| |done]. intros k t Ht. destruct (Hd k t Ht) as (? & ? & [c Hc] & ?). split_and!; try done; try lia.
  exists c. by eapply lookup_weaken.
Qed.

(** Only deadlines, history, counters and the callback change. *)
Record auth_step (s s' : TcpServer) : Prop := {
  as_books : books s';
  as_same : connections_ s' = connections_ s /\ peers s' = peers s /\ nextConnId_ s' = nextConnId_ s /\ nextObject s' = nextObject s /\
    threadPool_ s' = threadPool_ s /\ started_ s' = started_ s /\ stopped_ s' = stopped_ s /\ stopping s' = stopping s;
}.

Lemma books_auth s a c h : books s -> auth_ok a (connections_ s) (nextConnId_ s) -> history_ok h a (nextConnId_ s) -> auth_step s (set_stats c h (set_auth a s)).
Proof. intros [Hpool Hbud Hrun Hun Hstp Hnames Hpeers Hauth Hhist Hlim] Ha Hh. split; [by split|by split_and!]. Qed.

Lemma auth_step_quiet s s1 s2 : auth_step s s1 -> quiet s1 s2 -> auth_step s s2.
Proof.
  intros [Hb Hs] Hq. split; [by eapply quiet_books|]. destruct Hq as (r & c & h & -> & _). exact Hs.
Qed.

Lemma history_add h a n c front : history_ok h a n -> authenticationDeadlines_ a !! ref_name c = None -> (exists k, ref_name c = connName k /\ 1 <= k < n) ->
  ref_name c ∉ (ref_name <$> authenticated h ++ forced h) -> forall ms,
  history_ok (if front : bool then mkHistory ms (c :: authenticated h) (forced h) else mkHistory ms (authenticated h) (c :: forced h)) a n.
Proof.
  intros [Ho Hd] Hn Hk Hc ms.
  assert (forall h' : History, authenticated h' ++ forced h' ≡ₚ c :: (authenticated h ++ forced h) -> history_ok h' a n) as Hperm.
  { intros h' Hp. split.
    - rewrite Hp. cbn. by constructor.
    - intros c' Hc'. rewrite Hp in Hc'. apply elem_of_cons in Hc' as [->|Hc']; [done|by apply Hd]. }
  destruct front; apply Hperm; cbn; [done|]. by rewrite Permutation_middle.
Qed.

Lemma not_in_history h a n c t : history_ok h a n -> authenticationDeadlines_ a !! ref_name c = Some t -> ref_name c ∉ (ref_name <$> authenticated h ++ forced h).
Proof. intros [_ Hd] Ht (c' & E & Hc')%list_elem_of_fmap. destruct (Hd c' Hc') as [Hn _]. congruence. Qed.

Lemma history_fewer h a a' n : history_ok h a n -> (forall x, authenticationDeadlines_ a !! x = None -> authenticationDeadlines_ a' !! x = None) -> history_ok h a' n.
Proof. intros [Ho Hd] Hf. split; [done|]. intros c Hc. destruct (Hd c Hc). split; [by apply Hf|done]. Qed.

Lemma server_mark_ok s c : books s ->
  exists s', markConnectionAuthenticatedInLoop c s = (Ok tt, s') /\ auth_step s s' /\ driving (auth s') = driving (auth s) /\
    (connections_ s !! ref_name c = Some c -> authenticationDeadlines_ (auth s') !! ref_name c = None) /\
    forced (history s') = forced (history s).
Proof.
  intros Hb. pose proof Hb as [Hpool Hbud Hrun Hun Hstp Hnames Hpeers Hauth Hhist Hlim].
  assert (auth_step s s) as Hrefl by (split; [done|by split_and!]).
  unfold markConnectionAuthenticatedInLoop, bindM at 1, get. case_bool_decide as Hc; cbn [negb]; [|exists s; by split_and!].
  destruct (authenticationDeadlines_ (auth s) !! ref_name c) as [t|] eqn:Et; [|exists s; by split_and!].
  destruct (cancel_deadline_ok (ref_name c) (auth s) _ _ Hauth) as (a & E & Ha & Hd & Hdr & _). rewrite (bindM_ok _ _ _ _ _ (E s eq_refl)).
  unfold bindM at 1, modify at 1. set (s1 := set_stats _ _ _).
  assert (auth_step s s1) as H1.
  { apply books_auth; [done| |].
    - eapply auth_weaken; [exact Ha|apply delete_subseteq].
    - apply (history_add (history s) a _ c true).
      + eapply history_released; [exact Hhist|exact Hd].
      + rewrite Hd. apply lookup_delete_eq.
      + exact (names_key _ _ _ _ Hnames Hc).
      + by eapply not_in_history. }
  destruct (count_and_emit_quiet Authenticated (default "" (peerByConnection_ (peers s) !! ref_name c)) (ref_name c) s1) as (s' & E' & Hq).
  exists s'. split_and!; [exact E'|by eapply auth_step_quiet| | |]; destruct Hq as (r & c' & h & -> & E1 & E2).
  - exact Hdr.
  - intros _. cbn. rewrite Hd. apply lookup_delete_eq.
  - exact E2.
Qed.

(** The head of [driveAuthenticationDeadlines]. *)
Definition continue_auth (continued : bool) (a : Auth) : Auth :=
  mkAuths (authenticationDeadlines_ a) (authenticationDeadlineQueue_ a) (authenticationDeadlineDriver_ a)
    (if continued then false else authenticationDeadlineContinuation_ a) None.

Lemma driver_continue_ok s (continued : bool) : books s -> driving (auth s) = None ->
  (if continued then modify (fun s => set_auth (mkAuths (authenticationDeadlines_ (auth s)) (authenticationDeadlineQueue_ (auth s))
                                   (authenticationDeadlineDriver_ (auth s)) false (driving (auth s))) s)
       else ret tt) s = (Ok tt, set_auth (continue_auth continued (auth s)) s) /\
  auth_ok (continue_auth continued (auth s)) (connections_ s) (nextConnId_ s) /\
  history_ok (history s) (continue_auth continued (auth s)) (nextConnId_ s).
Proof.
  intros Hb Hdr. pose proof Hb as [Hpool Hbud Hrun Hun Hstp Hnames Hpeers Hauth Hhist Hlim]. unfold continue_auth. split_and!.
  - destruct continued; unfold modify, ret; do 2 f_equal; [by rewrite Hdr|]. destruct s as [? ? ? ? ? ? ? ? ? ? [? ? ? ? ?] ? ?]. cbn in *. by subst.
  - destruct Hauth as [Hq Hd Hx]. split; [done| |done]. intros n t Hn. destruct (Hd n t Hn) as (? & ? & ? & [Haw|(l & b & El & _)]); [|congruence]. split_and!; try done; try lia. by left.
  - by eapply history_fewer.
Qed.

Lemma drive_throw_ok s continued now : books s -> driving (auth s) = None ->
  exists r s', driveAuthenticationDeadlines continued false now s = (r, s') /\ books s' /\ connections_ s' = connections_ s /\ nextConnId_ s' = nextConnId_ s.
Proof.
  intros Hb Hdr. destruct (driver_continue_ok s continued Hb Hdr) as (E0 & Ha0 & Hh0). unfold driveAuthenticationDeadlines.
  rewrite (bindM_ok _ _ _ _ _ E0). unfold bindM at 1, get. destruct (books_auth s _ (stats s) (history s) Hb Ha0 Hh0) as [Hb' _].
  assert (forall r : result unit, exists r' s', (r, set_auth (continue_auth continued (auth s)) s) = (r', s') /\ books s' /\ connections_ s' = connections_ s /\ nextConnId_ s' = nextConnId_ s)
    as Hany by (intros r; by eexists r, _).
  destruct (authenticationDeadlineQueue_ _); apply Hany.
Qed.

Lemma drive_ok s continued now : books s -> driving (auth s) = None -> is_time now ->
  exists s', driveAuthenticationDeadlines continued true now s = (Ok tt, s') /\ auth_step s s' /\ history s' = history s /\
    authenticationDeadlines_ (auth s') = authenticationDeadlines_ (auth s) /\
    match authenticationDeadlineQueue_ (auth s) with
    | Some q => exists res q', di_advance now q = (Ok res, q') /\ driving (auth s') = Some (expired res, readyRemaining res)
    | None => True
    end.
Proof.
  intros Hb Hdr Ht. pose proof Hb as [Hpool Hbud Hrun Hun Hstp Hnames Hpeers Hauth Hhist Hlim]. unfold driveAuthenticationDeadlines.
  destruct (driver_continue_ok s continued Hb Hdr) as (E0 & Ha0 & Hh0). set (a0 := continue_auth continued (auth s)) in *.
  rewrite (bindM_ok _ _ _ _ _ E0). unfold bindM at 1, get. cbn [auth set_auth].
  change (authenticationDeadlineQueue_ a0) with (authenticationDeadlineQueue_ (auth s)).
  destruct (authenticationDeadlineQueue_ (auth s)) as [q|] eqn:Eq.
  2: { exists (set_auth a0 s). split_and!; [done| |done|done|done]. exact (books_auth s a0 (stats s) (history s) Hb Ha0 Hh0). }
  assert (Eq0 : authenticationDeadlineQueue_ a0 = Some q) by exact Eq.
  destruct (au_queue _ _ _ Ha0 q Eq0) as (Hi & Ho & Hn & Habs). destruct (di_advance_spec q now Hi Ht) as (res & q' & Ea & Hi' & Ho' & Hn' & Hpost).
  pose proof (ad_expired _ _ _ _ _ Hpost) as [Hrest Hdue _ _].
  set (a1 := mkAuths (authenticationDeadlines_ (auth s)) (Some q') (authenticationDeadlineDriver_ (auth s))
               (if continued then false else authenticationDeadlineContinuation_ (auth s)) (Some (expired res, readyRemaining res))).
  exists (set_auth a1 s). split_and!; [| |done|done|by exists res, q'].
  - unfold bindM, on_queue. cbn [auth set_auth throw_if negb]. unfold ret. cbn [auth set_auth]. rewrite Eq0, Ea. reflexivity.
  - refine (books_auth s a1 (stats s) (history s) Hb _ _); [|by eapply history_fewer]. split; cbn.
    + intros q1 [= <-]. rewrite Ho', Hn'. split_and!; [done..|]. intros k g d Hk. rewrite Hrest in Hk. case_bool_decide; [done|]. by eapply Habs.
    + intros n t Hnt. destruct (au_deadlines _ _ _ Ha0 n t Hnt) as (? & ? & ? & [(q1 & d & Eq1 & Hd)|(l & b & El & _)]); [|done]. assert (q1 = q) as -> by congruence.
      split_and!; try done; try lia. destruct (decide (key t ∈ exp_key <$> expired res)) as [Hin|Hin].
      * right. exists (expired res), (readyRemaining res). split; [done|]. apply list_elem_of_fmap in Hin as (x & Ex & Hx).
        apply list_elem_of_fmap. exists x. split; [|done]. destruct (Hdue x Hx) as [Hx1 _]. unfold exp_key, exp_pair in *. rewrite <-Ex, Hd in Hx1.
        injection Hx1 as Hg _. destruct t as [tk tg], (exp_token x) as [xk xg]. cbn in *. congruence.
      * left. exists q', d. split; [done|]. cbn. rewrite Hrest, bool_decide_false by done. exact Hd.
    + intros l b t [= <- _] Hin. assert (key t ∈ exp_key <$> expired res) as Hkey.
      { apply list_elem_of_fmap in Hin as (x & -> & Hx). apply list_elem_of_fmap. by exists x. }
      split; [|intros d; unfold pending; cbn; by rewrite Hrest, bool_decide_true by done].
      apply list_elem_of_fmap in Hkey as (x & Ex & Hx). destruct (Hdue x Hx) as [Hx1 _]. unfold exp_pair, exp_key in *. rewrite <-Ex in Hx1.
      pose proof (Habs _ _ _ Hx1) as Hdl. destruct (au_deadlines _ _ _ Ha0 _ _ Hdl) as (_ & Hkk & _). cbn in Hkk. lia.
Qed.

(** One round: the deadline [x] is dealt with. *)
Lemma time_out_ok s x rest more : books s -> driving (auth s) = Some (x :: rest, more) ->
  exists s', time_out x (set_driving (Some (rest, more)) s) = (Ok tt, s') /\ auth_step s s' /\ driving (auth s') = Some (rest, more) /\
    authenticationDeadlines_ (auth s') = (if bool_decide (authenticationDeadlines_ (auth s) !! connName (key (exp_token x)) = Some (exp_token x))
      then delete (connName (key (exp_token x))) else fun m => m) (authenticationDeadlines_ (auth s)) /\
    (forall c, authenticationDeadlines_ (auth s) !! connName (key (exp_token x)) = Some (exp_token x) ->
       connections_ s !! connName (key (exp_token x)) = Some c -> forced (history s') = c :: forced (history s)).
Proof.
  intros Hb Hdr. pose proof Hb as [Hpool Hbud Hrun Hun Hstp Hnames Hpeers Hauth Hhist Hlim].
  unfold time_out, bindM at 1, get. set (n := connName (key (exp_token x))). cbn [auth set_driving set_auth authenticationDeadlines_].
  set (a0 := mkAuths (authenticationDeadlines_ (auth s)) (authenticationDeadlineQueue_ (auth s)) (authenticationDeadlineDriver_ (auth s)) (authenticationDeadlineContinuation_ (auth s)) (Some (rest, more))).
  assert (forall f, (forall k t, f !! k = Some t -> authenticationDeadlines_ (auth s) !! k = Some t /\ t <> exp_token x) ->
    (forall k g, authenticationDeadlines_ (auth s) !! connName k = Some (mkToken k g) -> (exists q d, authenticationDeadlineQueue_ (auth s) = Some q /\ di_abs q !! k = Some (g, d)) -> f !! connName k = Some (mkToken k g)) ->
    auth_ok (mkAuths f (authenticationDeadlineQueue_ (auth s)) (authenticationDeadlineDriver_ (auth s)) (authenticationDeadlineContinuation_ (auth s)) (Some (rest, more))) (connections_ s) (nextConnId_ s)) as Hok.
  { intros f Hf1 Hf2. split; cbn.
    - intros q Eq. destruct (au_queue _ _ _ Hauth q Eq) as (? & ? & ? & Habs). split_and!; try done. intros k g d Hk. apply Hf2; [by eapply Habs|]. by exists q, d.
    - intros k t Hk. destruct (Hf1 k t Hk) as [Hk' Hne]. destruct (au_deadlines _ _ _ Hauth k t Hk') as (? & ? & ? & [Haw|(l & b & El & Hl)]); (split_and!; try done; try lia); [by left|].
      right. rewrite Hdr in El. injection El as <- <-. exists rest, more. split; [done|]. rewrite fmap_cons in Hl. apply elem_of_cons in Hl as [->|Hl]; [done|done].
    - intros l b t [= <- <-] Ht. apply (au_expired _ _ _ Hauth (x :: rest) more t Hdr). rewrite fmap_cons. by right. }
  case_bool_decide as Ec; cbn [negb].
  - destruct (au_deadlines _ _ _ Hauth n _ Ec) as (_ & Hkk & [c Hc] & Haw).
    unfold bindM at 1, modify at 1. cbn [connections_ set_deadlines set_driving set_auth]. rewrite Hc.
    set (s1 := set_deadlines _ _). destruct (count_and_emit_quiet AuthenticationTimedOut (default "" (peerByConnection_ (peers s) !! n)) n s1) as (s2 & E2 & Hq).
    rewrite (bindM_ok _ _ _ _ _ E2). unfold modify. eexists. split; [done|]. destruct Hq as (r & cs & h & -> & Eh1 & Eh2).
    assert (ref_name c = n) as Ern by (by destruct (na_name _ _ Hnames n c Hc)).
    set (a1 := mkAuths (delete n (authenticationDeadlines_ (auth s))) (authenticationDeadlineQueue_ (auth s)) (authenticationDeadlineDriver_ (auth s)) (authenticationDeadlineContinuation_ (auth s)) (Some (rest, more))).
    assert (auth_ok a1 (connections_ s) (nextConnId_ s)) as Ha1.
    { apply Hok.
      - intros k t [Hne Hk]%lookup_delete_Some. split; [done|]. intros ->. destruct (au_deadlines _ _ _ Hauth k _ Hk) as (Ek & _). done.
      - intros k g Hk (q & d & Eq & Hd). rewrite lookup_delete_ne; [done|]. intros En. rewrite <-En, Ec in Hk. injection Hk as Hk.
destruct (au_expired _ _ _ Hauth _ _ (exp_token x) Hdr) as [_ Hx]; [rewrite fmap_cons; by left|].
        apply (Hx d). unfold pending. by rewrite Eq, Hk. }
    assert (history_ok (mkHistory (metrics (history s)) (authenticated (history s)) (c :: forced (history s))) a1 (nextConnId_ s)) as Hh1.
    { apply (history_add (history s) a1 _ c false).
      - eapply history_released; [exact Hhist|done].
      - rewrite Ern. apply lookup_delete_eq.
      - rewrite Ern. by exists (key (exp_token x)).
      - eapply not_in_history; [done|by rewrite Ern]. }
    split_and!.
    + eapply auth_step_quiet; [exact (books_auth s a1 (stats s) _ Hb Ha1 Hh1)|]. eexists r, cs, _. split; [reflexivity|]. cbn. rewrite Eh1, Eh2. done.
    + done.
    + done.
    + intros c' _ [= <-]. cbn. by rewrite Eh2.
  - eexists. split; [done|]. split_and!; [|done|done|done].
    refine (books_auth s a0 (stats s) (history s) Hb _ _); [|by eapply history_fewer]. apply Hok; [|done].
    intros k t Hk. split; [done|]. intros ->. destruct (au_deadlines _ _ _ Hauth k _ Hk) as (-> & _). done.
Qed.

Lemma drive_next_ok timer s : books s ->
  exists r s', drive_next timer s = (r, s') /\ auth_step s s' /\ (timer = true -> r = Ok tt).
Proof.
  intros Hb. pose proof Hb as [Hpool Hbud Hrun Hun Hstp Hnames Hpeers Hauth Hhist Hlim].
  assert (auth_step s s) as Hrefl by (split; [done|by split_and!]).
  unfold drive_next, bindM at 1, get. destruct (driving (auth s)) as [[[|x rest] more]|] eqn:Ed; [| |by exists (Ok tt), s].
  2: { destruct (time_out_ok s x rest more Hb Ed) as (s' & E & Hs & _). exists (Ok tt), s'. by split_and!. }
  assert (forall d, auth_step s (set_auth (mkAuths (authenticationDeadlines_ (auth s)) (authenticationDeadlineQueue_ (auth s)) (authenticationDeadlineDriver_ (auth s)) d None) s)) as Hfin.
  { intros d. refine (books_auth s _ (stats s) (history s) Hb _ _); [|by eapply history_fewer]. destruct Hauth as [Hq Hd Hx]. split; [done| |done].
    intros n t Hn. destruct (Hd n t Hn) as (? & ? & ? & [Haw|(l & b & El & Hl)]); (split_and!; try done; try lia); [by left|]. rewrite Ed in El. injection El as <- <-. by apply elem_of_nil in Hl. }
  unfold bindM at 1, modify at 1. cbn [auth set_driving set_auth authenticationDeadlineContinuation_ authenticationDeadlineQueue_]. destruct (_ || _).
  - exists (Ok tt). eexists. split; [done|]. split; [apply Hfin|done].
  - unfold bindM, throw_if, modify. destruct timer; cbn [negb]; eexists _, _; (split; [reflexivity|]); (split; [apply Hfin|done]).
Qed.

(** *** Starting and stopping *)

Lemma load_empty l : load_of ∅ l = 0.
Proof. apply tally_empty. Qed.

Lemma cleared s p : books s -> Pool.counted p (fun _ => 0) -> (Pool.started_ p = true -> Pool.started_ (threadPool_ s) = true /\ Pool.getAllLoops p = Pool.getAllLoops (threadPool_ s)) ->
  (started_ s = true -> stopped_ s = false -> Pool.started_ (threadPool_ s) = true -> Pool.started_ p = true) ->
  exists s', clearConnectionAdmission s = (Ok tt, s') /\ threadPool_ s' = threadPool_ s /\ connections_ s' = connections_ s /\
    stopping s' = stopping s /\ stopped_ s' = stopped_ s /\ started_ s' = started_ s /\
    books (set_pool p (set_connections ∅ s')).
Proof.
  intros [Hpool Hbud Hrun Hun Hstp Hnames Hpeers Hauth Hhist Hlim] Hp Hst Hrn. eexists. split; [done|]. split_and!; try done. split; cbn; try done.
  - intros Hs. destruct (Hst Hs) as [H1 H2]. rewrite H2. by apply Hbud.
  - intros H1 H2. apply Hrn; [done|done|by apply Hrun].
  - intros Hs. destruct (Hun Hs) as [H1 H2]. split; [|done]. destruct (Pool.started_ p); [|done]. destruct (Hst eq_refl). congruence.
  - split; [by intros n c; rewrite lookup_empty| |apply Hnames]. rewrite map_size_empty. destruct Hnames as [_ Hs _]. lia.
  - split; cbn.
    + intros n. rewrite !lookup_empty. split; by intros [? ?].
    + by rewrite !map_size_empty.
    + intros x. by rewrite tally_empty, lookup_empty.
    + by rewrite map_size_empty.
  - split; cbn; [done|intros n t; by rewrite lookup_empty|]. intros l b t El Ht. destruct (au_expired _ _ _ Hauth l b t El Ht). split; [done|]. intros d. unfold pending. cbn. by rewrite lookup_empty.
  - eapply history_fewer; [exact Hhist|]. intros x _. apply lookup_empty.
  - split; cbn; [intros; rewrite map_size_empty; lia|]. intros Hpos x. rewrite tally_empty. lia.
Qed.

Lemma server_finish_ok s : books s -> (stopping s = true -> connections_ s = ∅) -> exists s', finish_stop s = (Ok tt, s') /\ books s' /\ nextConnId_ s' = nextConnId_ s /\ connections_ s' = connections_ s /\ driving (auth s') = driving (auth s).
Proof.
  intros Hb He. unfold finish_stop, bindM at 1, get. destruct (stopping s) eqn:Es; cbn [negb]; [|exists s; by split_and!]. specialize (He eq_refl).
  pose proof (bk_pool _ Hb) as Hpool. rewrite He in Hpool.
  assert (Pool.counted (Pool.at_rest (threadPool_ s)) (fun _ => 0)) as Hrest by (apply Pool.rest_counted; [apply (Pool.ct_ok _ _ Hpool)|done]).
  destruct (cleared s _ Hb Hrest) as (s1 & E & Ep & Ec & H1 & H2 & H3 & Hb1); [done|intros _ Hn _; by rewrite (bk_stopping _ Hb Es) in Hn|].
  rewrite (bindM_ok _ _ _ _ _ E). unfold bindM, on_pool, modify. rewrite Ep. rewrite (Pool.pool_stop _ _ Hpool load_empty).
  eexists. split; [done|]. assert (clearConnectionAdmission s = (Ok tt, s1)) as E' by exact E. injection E' as <-.
  destruct Hb1 as [? ? ? ? ? ? ? ? ? ?]. split_and!; try done. split; cbn; rewrite ?He; done.
Qed.

(** The loads of the connections of a list. *)
Lemma close_loads_ok cs : forall s balance, Pool.counted (threadPool_ s) balance -> (forall l, balance l = zsum (fun c => if on_loop l c then 1 else 0) cs) ->
  exists p, close_loads cs s = (Ok tt, set_pool p s) /\ Pool.counted p (fun _ => 0) /\ Pool.started_ p = Pool.started_ (threadPool_ s) /\ Pool.getAllLoops p = Pool.getAllLoops (threadPool_ s).
Proof.
  induction cs as [|c cs IH]; intros s balance Hp Hz; cbn [close_loads].
  { exists (threadPool_ s). split_and!; [by destruct s|by refine (Pool.counted_ext _ _ _ _ Hp)|done|done]. }
  assert (forall l, 0 <= zsum (fun c => if on_loop l c then 1 else 0) cs) as Hpos by (intros; apply zsum_nonneg; intros; case_match; lia).
  destruct (Pool.pool_close _ _ (ref_loop c) Hp) as (p & E & Hp' & Hs & Hl).
  { rewrite Hz. cbn. assert (on_loop (ref_loop c) c = true) as -> by apply Nat.eqb_refl. specialize (Hpos (ref_loop c)). unfold zsum in Hpos. lia. }
  destruct (IH (set_pool p s) (fun l => zsum (fun c => if on_loop l c then 1 else 0) cs)) as (p' & E' & Hc' & Hs' & Hl'); [|done|].
  { refine (Pool.counted_ext _ _ _ _ Hp'). intros l. rewrite Hz. cbn. case_decide as El.
    - assert (on_loop l c = true) as -> by (unfold on_loop; subst l; apply Nat.eqb_refl). unfold zsum; lia.
    - assert (on_loop l c = false) as -> by (apply Nat.eqb_neq; congruence). unfold zsum; lia. }
  exists p'. split_and!; [|done|by rewrite Hs'|by rewrite Hl']. unfold bindM, on_pool. rewrite E, E'. done.
Qed.

Lemma tally_list {A} (f : A -> bool) (m : gmap string A) : tally f m = zsum (fun a => if f a then 1 else 0) (snd <$> map_to_list m).
Proof. unfold tally, msum. rewrite map_fold_foldr. unfold zsum. induction (map_to_list m) as [|[k x] l IH]; cbn; [done|]. by rewrite IH. Qed.

Lemma server_destroy_ok s posts : books s -> exists r s', forceCloseAllConnections posts s = (r, s') /\ (forallb accepts posts = true -> exists b, r = Ok b) /\ books s' /\ nextConnId_ s' = nextConnId_ s /\ connections_ s' = ∅ /\ driving (auth s') = driving (auth s).
Proof.
  intros Hb. pose proof (bk_pool _ Hb) as Hpool. set (cs := snd <$> map_to_list (connections_ s)).
  destruct (close_loads_ok cs s _ Hpool) as (p & E & Hp & Hs & Hl); [intros l; apply tally_list|].
  destruct (cleared s p Hb Hp) as (s1 & E1 & Ep1 & Ec1 & _ & _ & _ & Hb1); [intros Hps; split; congruence|congruence|].
  unfold forceCloseAllConnections. rewrite (bindM_ok _ _ _ _ _ E1). unfold bindM at 1, get. unfold bindM at 1, modify. rewrite Ec1. fold cs.
  destruct (close_loads_ok cs (set_connections ∅ s1) (load_of (connections_ s))) as (p' & E' & Hp' & Hs' & Hl'); [cbn; by rewrite Ep1|intros l; apply tally_list|].
  cbn in Hs', Hl'. rewrite Ep1 in Hs', Hl'.
  destruct (cleared s p' Hb Hp') as (s1' & E1' & _ & _ & _ & _ & _ & Hb1'); [intros Hps; split; congruence|congruence|]. rewrite E1 in E1'. injection E1' as <-.
  assert (clearConnectionAdmission s = (Ok tt, s1)) as E2 by exact E1. injection E2 as <-.
  destruct cs as [|c cs'] eqn:Ecs.
  - exists (Ok false). eexists. split; [done|]. cbn in E'. injection E' as <-. split_and!; try done. by exists false.
  - rewrite (bindM_ok _ _ _ _ _ E'). match goal with |- exists r s', _ ?t = _ /\ _ => destruct (post_all_ok (c :: cs') posts t) as (x & Ex & Hx) end.
    unfold bindM. rewrite Ex. destruct x as [[]|e]; eexists _, _; (split; [done|]); split_and!; try done; [by exists true|].
    intros Ha. by specialize (Hx Ha).
Qed.

Lemma server_start_ok s e : books s -> stopping s = false -> Pool.op_sound (Pool.OStart e true) ->
  exists r s', start e s = (r, s') /\ books s' /\ nextConnId_ s' = nextConnId_ s /\ connections_ s' = connections_ s /\ driving (auth s') = driving (auth s) /\
    (r = Ok tt -> started_ s' = true) /\ (forall x, r = Throw x -> started_ s' = false /\ stopped_ s' = true).
Proof.
  intros Hb Hstop Hsound. pose proof Hb as [Hpool Hbud Hrun Hun Hstp Hnames Hpeers Hauth Hhist Hlim].
  unfold start, bindM at 1, get. destruct (started_ s) eqn:Es; [exists (Ok tt), s; by split_and!|]. destruct (Hun eq_refl) as [Hus Hub].
  unfold bindM, modify. unfold on_pool. cbn [threadPool_ set_flags set_budgets].
  pose proof (Pool.pool_start (threadPool_ s) _ e true Hpool Hsound Hus) as H1. destruct (Pool.start e true (threadPool_ s)) as [[[]|x] p].
  - destruct H1 as [Hp Hps]. eexists _, _. split; [done|]. split_and!; try done. split; cbn; try done; [|congruence].
    refine (Pool.counted_ext _ _ _ _ Hp). intros l. symmetry. apply (Pool.ct_others _ _ Hpool). by left.
  - subst p. eexists _, _. split; [done|]. split_and!; try done. split; cbn; try done. congruence.
Qed.

(** *** The rate limit *)

(** A bucket is as it was, or had expired and is gone. *)
Definition same_or_gone (now : Z) (o n : option PeerRateBucket) : Prop := n = o \/ (n = None /\ exists b, o = Some b /\ expiresAt b <= now).

Lemma same_or_gone_trans now a b c : same_or_gone now a b -> same_or_gone now b c -> same_or_gone now a c.
Proof. intros [->|(-> & x & -> & Hx)] [->|(-> & y & Ey & Hy)]; unfold same_or_gone; eauto; congruence. Qed.

Lemma drop_expired now p (bs : gmap string PeerRateBucket) x b : bs !! p = Some b -> expiresAt b <= now -> same_or_gone now (bs !! x) (delete p bs !! x).
Proof. intros Hb He. destruct (decide (p = x)) as [<-|Hne]; [right; rewrite lookup_delete_eq; eauto|left; by rewrite lookup_delete_ne]. Qed.

Lemma prune_gone now es : forall (bs : gmap string PeerRateBucket) x, same_or_gone now (bs !! x) (snd (prune now es bs) !! x).
Proof.
  induction es as [|e es IH]; intros bs x; [by left|]. cbn [prune]. destruct (_ <=? now); [|by left].
  eapply same_or_gone_trans; [|apply IH]. destruct (bs !! expiry_peer e) as [b|] eqn:Eb; [|by left].
  destruct (_ && _) eqn:E; [|by left]. zify_bools. by eapply drop_expired.
Qed.

Definition window : Z := connectionAttemptWindow admissionOptions_.
Definition most : Z := maxConnectionAttemptsPerPeerPerWindow admissionOptions_.

Lemma admit_rate_effect now peer s :
  let B := peerRateBuckets_ (rates s) in
  exists b s', admit_rate now peer s = (Ok b, s') /\
    let B' := peerRateBuckets_ (rates s') in
    (b = true -> (exists old, B !! peer = Some old /\ now < expiresAt old /\ attempts old < most /\
                    B' !! peer = Some (mkBucket (expiresAt old) (attempts old ⊕ 1) (bucket_generation old))) \/
                 (same_or_gone now (B !! peer) None /\ exists g, B' !! peer = Some (mkBucket (now + window) 1 g))) /\
    (forall x, x <> peer \/ b = false -> same_or_gone now (B !! x) (B' !! x)) /\
    (Z.of_nat (size B) <= maxTrackedPeerAddresses admissionOptions_ -> Z.of_nat (size B') <= maxTrackedPeerAddresses admissionOptions_).
Proof.
  cbv zeta. unfold admit_rate. unfold bindM at 1, prunePeerRateBuckets, modify at 1.
  pose proof (prune_gone now (peerRateExpiries_ (rates s)) (peerRateBuckets_ (rates s))) as Hpr.
  destruct (prune now (peerRateExpiries_ (rates s)) (peerRateBuckets_ (rates s))) as [es bs] eqn:Epr. cbn [snd] in Hpr.
  assert (size bs <= size (peerRateBuckets_ (rates s)))%nat as Hsz.
  { apply map_subseteq_size, map_subseteq_spec. intros x b Hx. destruct (Hpr x) as [E|(E & _)]; congruence. }
  unfold bindM at 1, get. unfold bindM at 1, modify at 1. cbn [rates set_rates peerRateBuckets_ peerRateExpiries_ nextPeerRateGeneration_].
  set (bs1 := match bs !! peer with Some b => if expiresAt b <=? now then delete peer bs else bs | None => bs end).
  assert (forall x, same_or_gone now (peerRateBuckets_ (rates s) !! x) (bs1 !! x)) as H1.
  { intros x. eapply same_or_gone_trans; [apply Hpr|]. subst bs1. destruct (bs !! peer) as [b|] eqn:Eb; [|by left]. destruct (_ <=? now) eqn:E; [|by left]. zify_bools. by eapply drop_expired. }
  assert (size bs1 <= size bs)%nat as Hsz1.
  { subst bs1. destruct (bs !! peer); [|lia]. destruct (_ <=? now); [|lia]. apply map_subseteq_size, delete_subseteq. }
  destruct (bs1 !! peer) as [b|] eqn:Eb; destruct (_ <=? _) eqn:Ecap.
  - destruct (count_and_emit_quiet RejectedPerPeerRateLimit peer "" (set_rates (mkRates bs1 es (nextPeerRateGeneration_ (rates s))) (set_rates (mkRates bs es (nextPeerRateGeneration_ (rates s))) s))) as (s' & E & Hq).
    exists false, s'. rewrite (bindM_ok _ _ _ _ _ E). unfold count_and_emit, emitAdmissionMetric, bindM, modify in E.
    assert (peerRateBuckets_ (rates s') = bs1) as -> by (destruct observed; by injection E as <-).
    split_and!; [done|done|by intros; apply H1|lia].
  - assert (now < expiresAt b /\ peerRateBuckets_ (rates s) !! peer = Some b) as [Hlive Hold].
    { split; [|destruct (H1 peer) as [E|(E & _)]; congruence]. subst bs1. destruct (bs !! peer) as [b'|] eqn:Eb'; [|congruence].
      destruct (_ <=? now) eqn:E; [by rewrite lookup_delete_eq in Eb|]. zify_bools. rewrite Eb' in Eb. by injection Eb as <-. }
    eexists true, _. split; [reflexivity|]. cbn. split_and!.
    + intros _. left. exists b. rewrite lookup_insert_eq. zify_bools. by split_and!.
    + intros x [Hx|Hx]; [|done]. rewrite lookup_insert_ne by done. apply H1.
    + rewrite map_size_insert_Some by done. lia.
  - destruct (count_and_emit_quiet RejectedPeerTrackingCapacity peer "" (set_rates (mkRates bs1 es (nextPeerRateGeneration_ (rates s))) (set_rates (mkRates bs es (nextPeerRateGeneration_ (rates s))) s))) as (s' & E & Hq).
    exists false, s'. rewrite (bindM_ok _ _ _ _ _ E). unfold count_and_emit, emitAdmissionMetric, bindM, modify in E.
    assert (peerRateBuckets_ (rates s') = bs1) as -> by (destruct observed; by injection E as <-).
    split_and!; [done|done|by intros; apply H1|lia].
  - eexists true, _. split; [reflexivity|]. cbn. split_and!.
    + intros _. right. split; [rewrite <-Eb; apply H1|]. eexists. apply lookup_insert_eq.
    + intros x [Hx|Hx]; [|done]. rewrite lookup_insert_ne by done. apply H1.
    + rewrite map_size_insert_None by done. zify_bools. lia.
Qed.

(** The attempts that the rate limit lets through. *)
Fixpoint rate_passes (l : list (Z * string)) (s : TcpServer) : list (Z * string) :=
  match l with
  | [] => []
  | (t, p) :: l =>
      match admit_rate t p s with
      | (Ok true, s') => (t, p) :: rate_passes l s'
      | (_, s') => rate_passes l s'
      end
  end.

(** Attempts of a peer in the window that starts at [t]. *)
Definition in_window (p : string) (t : Z) (x : Z * string) : bool := bool_decide (snd x = p) && (t <=? fst x) && (fst x <? t + window).

Definition passed (p : string) (t : Z) (l : list (Z * string)) : Z := zsum (fun x => if in_window p t x then 1 else 0) l.

(** [n] attempts passed up to [clock], of which the buckets know the rest: [first] is the
    start of the first bucket of the peer made in the window or later. *)
Record window_inv (p : string) (t n clock : Z) (b : option PeerRateBucket) (first : option Z) : Prop := {
  wi_bucket : forall x, b = Some x -> 1 <= attempts x <= most /\ expiresAt x - window <= clock;
  wi_before : clock < t -> n = 0;
  wi_first : match first with
    | None => n <= most /\ forall x, b = Some x -> expiresAt x < t + window /\ n <= attempts x
    | Some s => t <= s /\ n <= 2 * most /\ (b = None -> s + window <= clock) /\
        forall x, b = Some x -> (expiresAt x = s + window /\ n <= most + attempts x) \/ s + 2 * window <= expiresAt x
    end;
}.

Lemma window_gone p t n clock now o b first : 0 < window -> window_inv p t n clock o first -> clock <= now -> same_or_gone now o b -> window_inv p t n now b first.
Proof.
  intros Hw [Hb Hn Hf] Hc [->|(-> & x & -> & Hx)].
  - split; [intros x Hx; destruct (Hb x Hx); lia|intros; apply Hn; lia|]. destruct first as [s|]; [|done].
    destruct Hf as (? & ? & Hnone & ?). split_and!; try done. intros E. specialize (Hnone E). lia.
  - split; [done|intros; apply Hn; lia|]. destruct first as [s|]; [|by destruct Hf]. destruct Hf as (? & ? & _ & Hf).
    split_and!; try done. intros _. destruct (Hf x eq_refl) as [[? ?]|?]; [lia|]. lia.
Qed.

Lemma window_continue p t n clock now old first : 0 < window -> clock <= now -> window_inv p t n clock (Some old) first -> now < expiresAt old -> attempts old < most -> most <= usize_max ->
  exists first', window_inv p t (n + if in_window p t (now, p) then 1 else 0) now (Some (mkBucket (expiresAt old) (attempts old ⊕ 1) (bucket_generation old))) first'.
Proof.
  intros Hw Hc [Hb Hn Hf] Hlive Hmost Hmax. destruct (Hb old eq_refl) as [Hat Hst]. exists first.
  assert (attempts old ⊕ 1 = attempts old + 1) as Eat by (apply uwrap_small; lia). rewrite Eat.
  assert (in_window p t (now, p) = (t <=? now) && (now <? t + window)) as -> by (unfold in_window; cbn; by rewrite bool_decide_true).
  split; cbn.
  - intros x [= <-]. cbn. lia.
  - intros Hlt. rewrite Hn by lia. destruct (t <=? now) eqn:E; [zify_bools; lia|done].
  - destruct first as [s|].
    + destruct Hf as (Hs & Hle & _ & Hx). destruct (Hx old eq_refl) as [[He Ha]|Hx2].
      * split_and!; [done|case_match; lia|done|]. intros x [= <-]. cbn. left. split; [done|case_match; lia].
      * assert ((now <? t + window) = false) as -> by lia. rewrite andb_false_r, Z.add_0_r. split_and!; [done|done|done|]. intros x [= <-]. by right.
    + destruct Hf as [Hle Hx]. destruct (Hx old eq_refl). split; [case_match; lia|]. intros x [= <-]. cbn. split; [done|case_match; lia].
Qed.

Lemma window_new p t n clock now o first g : 0 < window -> 1 <= most -> clock <= now -> window_inv p t n clock o first -> same_or_gone now o None ->
  exists first', window_inv p t (n + if in_window p t (now, p) then 1 else 0) now (Some (mkBucket (now + window) 1 g)) first'.
Proof.
  intros Hw Hmost Hc Hi Hgone. destruct (window_gone _ _ _ _ now _ None _ Hw Hi Hc Hgone) as [_ Hn Hf].
  assert (in_window p t (now, p) = (t <=? now) && (now <? t + window)) as -> by (unfold in_window; cbn; by rewrite bool_decide_true).
  assert (forall x, Some (mkBucket (now + window) 1 g) = Some x -> 1 <= attempts x <= most /\ expiresAt x - window <= now) as Hb by (intros x [= <-]; cbn; lia).
  destruct first as [s|].
  - destruct Hf as (Hs & Hle & Hnone & _). specialize (Hnone eq_refl). exists (Some s). assert ((now <? t + window) = false) as -> by lia.
    rewrite andb_false_r, Z.add_0_r. split; [done|done|]. split_and!; [done|done|done|]. intros x [= <-]. cbn. right. lia.
  - destruct Hf as [Hle _]. destruct (Z.leb_spec t now) as [Hge|Hlt].
    + exists (Some now). split; [done|lia|]. split_and!; [done|case_match; lia|done|]. intros x [= <-]. cbn. left. split; [done|case_match; lia].
    + specialize (Hn Hlt). exists None. cbn. split; [done|lia|]. split; [lia|]. intros x [= <-]. cbn. lia.
Qed.

(** A run of attempts in the order of a steady clock. *)
Fixpoint in_order (clock : Z) (l : list (Z * string)) : Prop := match l with [] => True | (t, _) :: l => clock <= t /\ in_order t l end.

Lemma passed_window p t l : 0 < window -> 1 <= most <= usize_max -> forall s n clock first, in_order clock l ->
  window_inv p t n clock (peerRateBuckets_ (rates s) !! p) first -> n + passed p t (rate_passes l s) <= 2 * most.
Proof.
  intros Hw Hmost. induction l as [|[now q] l IH]; intros s n clock first Hord Hi.
  { unfold passed. cbn. destruct Hi as [_ _ Hf]. destruct first; destruct Hf as [? Hf]; [destruct Hf|]; lia. }
  destruct Hord as [Hc Hord]. cbn [rate_passes]. destruct (admit_rate_effect now q s) as (b & s' & E & Hyes & Hother & _). rewrite E. cbv zeta in *.
  destruct b.
  - unfold passed. cbn [zsum foldr]. change (foldr _ 0 _) with (passed p t (rate_passes l s')).
    assert (exists first', window_inv p t (n + if in_window p t (now, q) then 1 else 0) now (peerRateBuckets_ (rates s') !! p) first') as [first' Hi'].
    { destruct (decide (p = q)) as [<-|Hne].
      - destruct (Hyes eq_refl) as [(old & Eo & Hlive & Hat & ->)|[Hg (g & ->)]]; [|by eapply window_new; [..|exact Hi|]; try done; lia].
        rewrite Eo in Hi. eapply window_continue; [done..|exact Hi|done|done|lia].
      - exists first. assert (in_window p t (now, q) = false) as -> by (unfold in_window; cbn; by rewrite bool_decide_false by done).
        rewrite Z.add_0_r. eapply window_gone; [done|exact Hi|done|apply Hother; by left]. }
    pose proof (IH s' _ now first' Hord Hi'). lia.
  - apply (IH s' n now first Hord). eapply window_gone; [done|exact Hi|done|apply Hother; by right].
Qed.

(** ** The life of a server *)

Inductive ServerOp :=
  | OpStart (e : Pool.Launch)
  | OpNew (a : Attempt)
  | OpRemove (p : RemovePosts) (c : Conn)
  | OpRollback (c : Conn)
  | OpRelease (names : list string)
  | OpMark (c : Conn)
  | OpDrive (continued mem : bool) (now : Z)
  | OpNext (timer : bool)
  | OpBeginStop
  | OpFinish
  | OpDestroy (posts : list (option PostResult)).

(** Of [newConnection], the connection that was made. *)
Definition server_op (o : ServerOp) : SM (list Conn) :=
  match o with
  | OpStart e => run start e ;; ret []
  | OpNew a => do h <- newConnection a ;; ret (match h with ClosedFd => [] | RolledBack c | Established c => [c] end)
  | OpRemove p c => run removeConnectionInLoop p c ;; ret []
  | OpRollback c => run base_rollback c ;; ret []
  | OpRelease names => run release_names names ;; ret []
  | OpMark c => run markConnectionAuthenticatedInLoop c ;; ret []
  | OpDrive continued mem now => run driveAuthenticationDeadlines continued mem now ;; ret []
  | OpNext timer => run drive_next timer ;; ret []
  | OpBeginStop => run begin_stop ;; ret []
  | OpFinish => run finish_stop ;; ret []
  | OpDestroy posts => run forceCloseAllConnections posts ;; ret []
  end.

(** The loops take what the operation posts to them, and its memory is allocated. *)
Definition served (o : ServerOp) : bool :=
  match o with
  | OpRemove p _ => remove_accepted p
  | OpDrive _ mem _ => mem
  | OpNext timer => timer
  | OpDestroy posts => forallb accepts posts
  | _ => true
  end.

(** What holds of the operations: a start meets no stop in progress and distinct loops;
    times are in range; only a connection the server made is removed; the deadlines are not
    driven from within their loop; a stop finishes when the workers have released all
    connections. *)
Definition server_sound (o : ServerOp) (s : TcpServer) (made : list Conn) : Prop :=
  match o with
  | OpStart e => stopping s = false /\ Pool.op_sound (Pool.OStart e true)
  | OpNew a => 0 < unauthenticatedTimeout admissionOptions_ -> is_time (att_now a + unauthenticatedTimeout admissionOptions_)
  | OpRemove _ c => c ∈ made
  | OpDrive _ _ now => driving (auth s) = None /\ is_time now
  | OpFinish => stopping s = true -> connections_ s = ∅
  | _ => True
  end.

Inductive server_life (base threads : nat) (policy : Pool.EventLoopSelectionPolicy) : TcpServer -> list Conn -> Prop :=
  | life_new : server_life base threads policy (TcpServer_new base threads policy) []
  | life_op s made o : server_life base threads policy s made -> server_sound o s made ->
      server_life base threads policy (snd (server_op o s)) (match fst (server_op o s) with Ok cs => cs | Throw _ => [] end ++ made).

(** The connections that were made, by name. *)
Record made_ok (s : TcpServer) (made : list Conn) : Prop := {
  ma_all : forall n c, connections_ s !! n = Some c -> c ∈ made;
  ma_name : forall c, c ∈ made -> exists k, ref_name c = connName k /\ 1 <= k < nextConnId_ s;
  ma_once : forall c c', c ∈ made -> c' ∈ made -> ref_name c = ref_name c' -> c = c';
}.

Lemma books_new base threads policy : books (TcpServer_new base threads policy).
Proof.
  split; cbn; try done.
  - refine (Pool.counted_ext _ (fun _ => 0) _ _ _); [intros; symmetry; apply load_empty|].
    apply (Pool.rest_counted (Pool.set_policy policy (Pool.set_numThreads (Z.of_nat threads) (Pool.EventLoopThreadPool_new base)))); [cbn; lia|done].
  - split; cbn; [intros n; rewrite !lookup_empty; split; by intros [? ?]|by rewrite !map_size_empty|intros; by rewrite tally_empty, lookup_empty|by rewrite map_size_empty].
  - split; [constructor|]. intros c Hc. by apply elem_of_nil in Hc.
  - split; cbn; [intros; rewrite map_size_empty; lia|intros; rewrite tally_empty; lia].
Qed.

(** What any operation does to the books. *)
Record op_post (s : TcpServer) (made : list Conn) (r : result (list Conn)) (s' : TcpServer) : Prop := {
  op_books : books s';
  op_next : nextConnId_ s <= nextConnId_ s';
  op_made : forall cs c, r = Ok cs -> c ∈ cs -> cs = [c] /\ ref_name c = connName (nextConnId_ s) /\ nextConnId_ s' = nextConnId_ s + 1;
  op_connections : forall n c, connections_ s' !! n = Some c -> connections_ s !! n = Some c \/ r = Ok [c];
}.

Lemma post_shrunk s made s' : books s' -> nextConnId_ s' = nextConnId_ s -> connections_ s' ⊆ connections_ s -> op_post s made (Ok []) s'.
Proof.
  intros Hb Hn Hc. split; [done|lia| |].
  - intros cs c [= <-] Hin. by apply elem_of_nil in Hin.
  - intros n c Hx. left. by eapply lookup_weaken.
Qed.

Lemma post_throw s made x s' : books s' -> nextConnId_ s' = nextConnId_ s -> connections_ s' ⊆ connections_ s -> op_post s made (Throw x) s'.
Proof.
  intros Hb Hn Hc. split; [done|lia|done|]. intros n c Hx. left. by eapply lookup_weaken.
Qed.

Lemma server_op_ok o s made : admission_ok -> books s -> 1 <= nextConnId_ s -> made_ok s made -> server_sound o s made ->
  op_post s made (fst (server_op o s)) (snd (server_op o s)) /\
  match o with OpStart _ => True | OpNew a => started_ s = true -> key_bytes (att_peer a) <> [] -> exists cs, fst (server_op o s) = Ok cs | _ => served o = true -> fst (server_op o s) = Ok [] end.
Proof.
  intros Hadm Hb Hk Hm Hsound.
  assert (forall (m : SM unit) s', m s = (Ok tt, s') -> (run m ;; ret (A := list Conn) []) s = (Ok [], s')) as Hrun by (intros m s' E; by rewrite (bindM_ok _ _ _ _ _ E)).
  destruct o as [e|a|p c|c|names|c|continued mem now|timer| | |posts]; cbn [server_op server_sound served] in *.
  - destruct Hsound as [Hst Hl]. destruct (server_start_ok s e Hb Hst Hl) as (r & s' & E & Hb' & En & Ec & _). unfold bindM. rewrite E. destruct r as [[]|x]; (split; [|done]).
    + apply post_shrunk; [done|done|by cbn; rewrite Ec].
    + split; cbn; [done|lia|done|]. intros n c Hx. left. by rewrite <-Ec.
  - destruct (newConnection_ok a s Hadm Hb Hk Hsound) as (r & s' & E & Hp). destruct Hp as [Hb' Hn Hdr Htot Hnam Htr]. unfold bindM. rewrite E. split.
    + split; [by destruct r|destruct r; cbn; lia| |].
      * intros cs c Ecs Hc. destruct r as [[|c'|c']|x]; try discriminate Ecs; injection Ecs as <-; [by apply elem_of_nil in Hc| |];
          apply list_elem_of_singleton in Hc as ->; destruct (Hnam c' ltac:(eauto)); by split_and!.
      * intros n c Hx. assert (connections_ s' !! n = Some c) as Hx' by (by destruct r). destruct Htr as [(c' & -> & Ec & _)|[_ Hnt]].
        -- rewrite Ec in Hx'. apply lookup_insert_Some in Hx' as [[_ <-]|[_ Hx']]; [by right|by left].
        -- left. by rewrite <-(nt_connections _ _ Hnt).
    + intros Hs Hkey. destruct (Htot Hs Hkey) as [h ->]. by eexists.
  - destruct (remove_ok s p c Hb) as (r & s' & E & Hr & Hb' & Hs & _).
    { intros c' Hc'. apply (ma_once _ _ Hm); [by eapply ma_all|done|]. by destruct (na_name _ _ (bk_names _ Hb) _ _ Hc'). }
    unfold bindM. rewrite E. destruct r as [[]|x]; (split; [|try done; intros Ha; by specialize (Hr Ha)]).
    + apply post_shrunk; [done|apply Hs|apply Hs].
    + apply post_throw; [done|apply Hs|apply Hs].
  - destruct (base_rollback_ok s c Hb) as (s' & E & Hb' & Hs & _). rewrite (Hrun _ _ E). split; [|done]. apply post_shrunk; [done|apply Hs|apply Hs].
  - destruct (release_names_ok names s Hb) as (s' & E & Hb' & Hs & _). rewrite (Hrun _ _ E). split; [|done]. apply post_shrunk; [done|apply Hs|apply Hs].
  - destruct (server_mark_ok s c Hb) as (s' & E & [Hb' (Ec & _ & En & _)] & _). rewrite (Hrun _ _ E). split; [|done]. apply post_shrunk; [done|done|by cbn; rewrite Ec].
  - destruct Hsound as [Hd Ht]. destruct mem.
    2: { destruct (drive_throw_ok s continued now Hb Hd) as (r & s' & E & Hb' & Ec & En). unfold bindM. rewrite E.
         destruct r as [[]|x]; (split; [|done]); [apply post_shrunk|apply post_throw]; try done; cbn; by rewrite Ec. }
    destruct (drive_ok s continued now Hb Hd Ht) as (s' & E & [Hb' (Ec & _ & En & _)] & _). rewrite (Hrun _ _ E).
    split; [|done]. apply post_shrunk; [done|done|by cbn; rewrite Ec].
  - destruct (drive_next_ok timer s Hb) as (r & s' & E & [Hb' (Ec & _ & En & _)] & Ht). unfold bindM. rewrite E. destruct r as [[]|x]; (split; [|intros ->; try done; by specialize (Ht eq_refl)]).
    + apply post_shrunk; [done|done|by cbn; rewrite Ec].
    + split; cbn; [done|lia|done|]. intros n c Hx. left. by rewrite <-Ec.
  - destruct (books_begin_stop s Hb) as (s' & E & Hb' & Hst & Hnt). rewrite (Hrun _ _ E). split; [|done].
    apply post_shrunk; [done|by destruct (st_next _ _ Hst)|by cbn; rewrite (nt_connections _ _ Hnt)].
  - destruct (server_finish_ok s Hb Hsound) as (s' & E & Hb' & En & Ec & _). rewrite (Hrun _ _ E). split; [|done]. apply post_shrunk; [done|done|by cbn; rewrite Ec].
  - destruct (server_destroy_ok s posts Hb) as (r & s' & E & Hr & Hb' & En & Ec & _). unfold bindM. rewrite E.
    destruct r as [b|x]; (split; [|try done; intros Ha; by destruct (Hr Ha)]); [apply post_shrunk|apply post_throw]; try done;
      cbn; rewrite Ec; apply map_empty_subseteq.
Qed.

Lemma server_life_ok base threads policy s made : admission_ok -> server_life base threads policy s made -> books s /\ 1 <= nextConnId_ s /\ made_ok s made.
Proof.
  intros Hadm. induction 1 as [|s made o Hl (Hb & Hk & Hm) Hs].
  - split_and!; [apply books_new|done|]. split; [done|intros c Hc; by apply elem_of_nil in Hc|intros c c' Hc; by apply elem_of_nil in Hc].
  - destruct (server_op_ok o s made Hadm Hb Hk Hm Hs) as [[Hb' Hn Hmade Hconn] _]. set (r := fst (server_op o s)) in *. set (s' := snd (server_op o s)) in *. clearbody r s'.
    split_and!; [done|lia|]. split.
    + intros n c Hc. apply elem_of_app. destruct (Hconn n c Hc) as [Hc'|Er]; [right; by eapply ma_all|left]. rewrite Er. by left.
    + intros c [Hc|Hc]%elem_of_app.
      * destruct r as [cs|x]; [|by apply elem_of_nil in Hc]. destruct (Hmade cs c eq_refl Hc) as (_ & E & En). exists (nextConnId_ s). split; [done|lia].
      * destruct (ma_name _ _ Hm c Hc) as (k & ? & ?). exists k. split; [done|lia].
    + assert (forall c c', c ∈ made -> forall cs, r = Ok cs -> c' ∈ cs -> ref_name c = ref_name c' -> False) as Hfresh.
      { intros c c' Hc cs Er Hc' E. destruct (Hmade cs c' Er Hc') as (_ & E' & _). destruct (ma_name _ _ Hm c Hc) as (k & Ek & ?).
        rewrite E', Ek in E. apply connName_inj in E; lia. }
      intros c c' [Hc|Hc]%elem_of_app [Hc'|Hc']%elem_of_app E; [|exfalso|exfalso|by eapply ma_once].
      * destruct r as [cs|x]; [|by apply elem_of_nil in Hc]. destruct (Hmade cs c eq_refl Hc) as (-> & _). apply list_elem_of_singleton in Hc'. by subst.
      * destruct r as [cs|x]; [|by apply elem_of_nil in Hc]. by eapply (Hfresh c' c Hc' cs).
      * destruct r as [cs|x]; [|by apply elem_of_nil in Hc']. by eapply (Hfresh c c' Hc cs).
Qed.

(** ** What the books promise *)

(** C5. The books are exact: at any time in the life of a server, each connection of the
    map has its name and one peer, the count of a peer and the gauge of active connections
    are the numbers of connections, the load of each loop is the number of its
    connections, every deadline in the queue is that of a connection of the map -- also
    after an operation that threw.  No roll-back, release, authentication or stop throws;
    a removal, a destruction and a step of the deadline driver throw only when a loop does
    not take what they post to it or, for the driver, when [advance] finds no memory. *)
Theorem books_are_exact base threads policy s made : admission_ok -> server_life base threads policy s made ->
  (forall n c, connections_ s !! n = Some c -> ref_name c = n /\ c ∈ made) /\
  (forall n, is_Some (peerByConnection_ (peers s) !! n) <-> is_Some (connections_ s !! n)) /\
  (forall x, default 0 (activeConnectionsByPeer_ (peers s) !! x) = tally (of_peer x) (peerByConnection_ (peers s)) /\ activeConnectionsByPeer_ (peers s) !! x <> Some 0) /\
  activeAdmissionConnections_ (peers s) = Z.of_nat (size (connections_ s)) /\
  (forall l, Pool.started_ (threadPool_ s) = true -> Pool.member (threadPool_ s) l ->
     Pool.connectionLoad l (threadPool_ s) = (Ok (load_of (connections_ s) l), threadPool_ s)) /\
  (forall n t, authenticationDeadlines_ (auth s) !! n = Some t -> is_Some (connections_ s !! n)) /\
  (forall k g d, pending (auth s) !! k = Some (g, d) -> authenticationDeadlines_ (auth s) !! connName k = Some (mkToken k g)) /\
  (forall o, server_sound o s made -> match o with OpStart _ | OpNew _ => True | _ => served o = true -> fst (server_op o s) = Ok [] end).
Proof.
  intros Hadm Hl. destruct (server_life_ok _ _ _ _ _ Hadm Hl) as (Hb & Hk & Hm). pose proof Hb as [Hpool _ _ _ _ Hnames Hpeers Hauth _ _]. split_and!.
  - intros n c Hc. split; [by destruct (na_name _ _ Hnames n c Hc)|by eapply ma_all].
  - apply (pe_dom _ _ Hpeers).
  - intros x. split; [apply tally_eq_default, (pe_active _ _ Hpeers)|]. rewrite (pe_active _ _ Hpeers). destruct (_ =? 0) eqn:E; [done|]. zify_bools. congruence.
  - apply (pe_total _ _ Hpeers).
  - intros l Hs (i & Hi & ->)%Pool.member_loop_of. by destruct (Pool.counting _ _ i Hpool Hs Hi) as (_ & E & _).
  - intros n t Ht. by destruct (au_deadlines _ _ _ Hauth n t Ht) as (_ & _ & ? & _).
  - intros k g d Hp. unfold pending in Hp. destruct (authenticationDeadlineQueue_ (auth s)) as [q|] eqn:Eq; [|by rewrite lookup_empty in Hp].
    destruct (au_queue _ _ _ Hauth q Eq) as (_ & _ & _ & Habs). by eapply Habs.
  - intros o Ho. destruct (server_op_ok o s made Hadm Hb Hk Hm Ho) as [_ H1]. by destruct o.
Qed.

(** C29. An attempt is all or nothing: wherever it fails, at a limit, for want of a name or
    a roll-back record, in an allocation, in the pool, the deadline queue or the queue of
    its loop, the maps, the counts of peers, the loads and the deadlines are what they
    were; otherwise there is exactly one more connection, under a new name.  In a running
    server no attempt throws. *)
Theorem failed_attempt_leaves_no_trace base threads policy s made a : admission_ok -> server_life base threads policy s made -> server_sound (OpNew a) s made ->
  let '(r, s') := newConnection a s in
  (started_ s = true -> key_bytes (att_peer a) <> [] -> exists h, r = Ok h) /\
  match r with
  | Ok (Established c) => connections_ s !! ref_name c = None /\ connections_ s' = <[ref_name c := c]> (connections_ s) /\ c ∉ made
  | _ => connections_ s' = connections_ s /\ peers s' = peers s /\ authenticationDeadlines_ (auth s') = authenticationDeadlines_ (auth s) /\
      pending (auth s') = pending (auth s) /\ (forall l, Pool.started_ (threadPool_ s') = true -> Pool.member (threadPool_ s') l ->
        fst (Pool.connectionLoad l (threadPool_ s')) = Ok (load_of (connections_ s) l))
  end.
Proof.
  intros Hadm Hl Ho. destruct (server_life_ok _ _ _ _ _ Hadm Hl) as (Hb & Hk & Hm).
  destruct (newConnection_ok a s Hadm Hb Hk Ho) as (r & s' & -> & [Hb' Hn Hdr Htot Hnam Htr]). split; [done|].
  assert ((forall c, r <> Ok (Established c)) -> no_trace s s' -> connections_ s' = connections_ s /\ peers s' = peers s /\ authenticationDeadlines_ (auth s') = authenticationDeadlines_ (auth s) /\
      pending (auth s') = pending (auth s) /\ (forall l, Pool.started_ (threadPool_ s') = true -> Pool.member (threadPool_ s') l ->
        fst (Pool.connectionLoad l (threadPool_ s')) = Ok (load_of (connections_ s) l))) as Hno.
  { intros _ [Ec Ep [Ed Epd _]]. split_and!; try done. intros l Hs (i & Hi & ->)%Pool.member_loop_of.
    destruct (Pool.counting _ _ i (bk_pool _ Hb') Hs Hi) as (_ & E & _). by rewrite E, Ec. }
  destruct r as [[|c|c]|x]; [destruct Htr as [(? & ? & _)|[]]; [done|by apply Hno]..| |destruct Htr as [(? & ? & _)|[]]; [done|by apply Hno]].
  destruct Htr as [(c' & [= <-] & Ec & Hfr)|[Hne _]]; [|by destruct (Hne c)]. split_and!; [done|done|].
  intros Hc. destruct (ma_name _ _ Hm c Hc) as (k & Ek & Hkk). destruct (Hnam c ltac:(by left)) as [E _]. rewrite Ek in E. apply connName_inj in E; lia.
Qed.

(** The limits hold: a server never has more connections, nor more of one peer, than
    configured; and of attempts in the order of a steady clock, the rate limit lets through
    at most twice its number of one peer in any window, and never tracks more peers than
    configured. *)
Theorem limits_are_kept base threads policy s made : admission_ok -> server_life base threads policy s made ->
  (0 < maxConnections admissionOptions_ -> Z.of_nat (size (connections_ s)) <= maxConnections admissionOptions_) /\
  (0 < maxConnectionsPerPeer admissionOptions_ -> forall x, tally (of_peer x) (peerByConnection_ (peers s)) <= maxConnectionsPerPeer admissionOptions_) /\
  (0 < most <= usize_max -> forall l clock p t, in_order clock l -> passed p t (rate_passes l (set_rates (mkRates ∅ [] 1) s)) <= 2 * most) /\
  (forall now p s, Z.of_nat (size (peerRateBuckets_ (rates s))) <= maxTrackedPeerAddresses admissionOptions_ ->
     Z.of_nat (size (peerRateBuckets_ (rates (snd (admit_rate now p s))))) <= maxTrackedPeerAddresses admissionOptions_).
Proof.
  intros Hadm Hl. destruct (server_life_ok _ _ _ _ _ Hadm Hl) as (Hb & _). destruct (bk_limits _ Hb) as [H1 H2]. split_and!; [done|done| |].
  - intros Hmost l clock p t Hord. assert (0 < window) as Hw.
    { pose proof (ao_valid Hadm) as Hv. unfold validate in Hv. destruct (_ && _) eqn:E; [done|]. unfold window, most in *. zify_bools. lia. }
    refine (passed_window p t l Hw ltac:(lia) _ 0 clock None Hord _). split; [done|done|]. split; [lia|]. intros x Hx. cbn in Hx. by rewrite lookup_empty in Hx.
  - intros now p s0 Hs. destruct (admit_rate_effect now p s0) as (b & s' & E & _ & _ & Hsz). rewrite E. by apply Hsz.
Qed.

(** Authentication and its deadline exclude each other: no connection is counted as
    authenticated and timed out, or either twice; a deadline is taken from the queue only
    when it is due, at most the budget at a time, and if fewer are taken none that is due
    is left. *)
Theorem authentication_wins_or_loses_once base threads policy s made : admission_ok -> server_life base threads policy s made ->
  NoDup (ref_name <$> authenticated (history s) ++ forced (history s)) /\
  (forall c, c ∈ authenticated (history s) ++ forced (history s) -> authenticationDeadlines_ (auth s) !! ref_name c = None) /\
  (forall continued now l more, server_sound (OpDrive continued true now) s made -> authenticationDeadlineQueue_ (auth s) <> None ->
     driving (auth (snd (driveAuthenticationDeadlines continued true now s))) = Some (l, more) ->
     zlen l <= maxAuthenticationTimeoutsPerAdvance admissionOptions_ /\
     (forall x, x ∈ l -> pending (auth s) !! exp_key x = Some (exp_pair x) /\ quantize queue_options (exp_deadline x) <= now) /\
     (more = false -> forall k g d, pending (auth s) !! k = Some (g, d) -> quantize queue_options d <= now -> k ∈ exp_key <$> l)).
Proof.
  intros Hadm Hl. destruct (server_life_ok _ _ _ _ _ Hadm Hl) as (Hb & _). pose proof (bk_history _ Hb) as [Ho Hd]. split_and!; [done|intros c Hc; by apply Hd|].
  intros continued now l more [Hdr Ht] Hq. destruct (authenticationDeadlineQueue_ (auth s)) as [q|] eqn:Eq; [|done].
  destruct (au_queue _ _ _ (bk_auth _ Hb) q Eq) as (Hi & Hopt & _ & _). destruct (di_advance_spec q now Hi Ht) as (res & q' & Ea & _ & _ & _ & Hpost).
  destruct (drive_ok s continued now Hb Hdr Ht) as (s' & E & _ & _ & _ & Hres). rewrite E, Eq, Ea in *. destruct Hres as (res' & q'' & [= <- <-] & Edr).
  cbn. rewrite Edr. intros [= <- <-]. destruct Hpost as [[Hrest Hdue _ _] Hbudget Hrem _ _]. rewrite Hopt in *.
  assert (pending (auth s) = di_abs q) as Hpend by (unfold pending; by rewrite Eq). rewrite Hpend. split_and!.
  - exact Hbudget.
  - exact Hdue.
  - intros Hmore k g d Hk Hle. destruct (decide (k ∈ exp_key <$> expired res)) as [|Hin]; [done|]. exfalso.
    assert (readyRemaining res = true) as Hc; [|congruence]. apply Hrem. exists k, g, d. split; [|done]. by rewrite Hrest, bool_decide_false.
Qed.

End server.

(** ** The bucketed queue, and a small server *)

Global Instance DeadlineQueue_factory : DeadlineFactory DeadlineQueue.
Proof.
  refine {| df_new := DeadlineQueue_new |}. intros o [Hr Hm].
  assert (DeadlineQueue_new o = Ok (mkQueue o 1 ∅ ∅ ∅ 0)) as E.
  { unfold DeadlineQueue_new, DeadlineQueue.validate. assert ((resolution o <=? 0) = false) as -> by lia. by assert ((maxExpiredPerAdvance o =? 0) = false) as -> by lia. }
  exists (mkQueue o 1 ∅ ∅ ∅ 0). split; [done|]. destruct (DeadlineQueue_new_ok o _ ltac:(lia) ltac:(lia) E) as (Hi & Ha & Ho). by split_and!.
Defined.

Definition small_admission : TcpServerAdmissionOptions := mkAdmission 2 1 3 1000 4 500 10 8.
Definition two_loops : Pool.Launch := Pool.mkLaunch (fun i => Ok (S i)) (Ok tt) (Ok tt).
Definition attempt (peer : string) (tracked : TrackAlloc) (posted : option PostResult) : Attempt :=
  mkAttempt peer 0 1000 (fun _ => (0, 0)) None true true true tracked posted.
Definition all_tracked : TrackAlloc := mkTrack true true true true.

Definition small_op (o : ServerOp) (s : TcpServer (Q := DeadlineQueue)) : TcpServer := snd (server_op "srv" small_admission true o s).
Definition small_started : TcpServer := small_op (OpStart two_loops) (TcpServer_new 0 2 Pool.RoundRobin).
Definition small_server : TcpServer := small_op (OpNew (attempt "10.0.0.1" all_tracked (Some PostAccepted))) small_started.

Lemma small_admission_ok : admission_ok small_admission.
Proof. by split. Qed.

Lemma two_loops_distinct : Pool.op_sound (Pool.OStart two_loops true).
Proof. intros i j l; cbn; congruence. Qed.

Lemma small_life : exists made, server_life "srv" small_admission true 0 2 Pool.RoundRobin small_server made.
Proof.
  eexists. unfold small_server, small_op. apply life_op; [|by intros _; vm_compute; split].
  unfold small_started, small_op. apply life_op; [constructor|]. split; [done|exact two_loops_distinct].
Qed.

Lemma books_are_exact_witness : activeAdmissionConnections_ (peers small_server) = 1.
Proof.
  destruct small_life as [made Hl].
  rewrite (proj1 (proj2 (proj2 (proj2 (books_are_exact "srv" small_admission true 0 2 Pool.RoundRobin small_server made small_admission_ok Hl))))). by vm_compute.
Defined.

(** The worker's queue is full. *)
Lemma failed_attempt_leaves_no_trace_witness :
  connections_ (snd (newConnection "srv" small_admission true (attempt "10.0.0.2" all_tracked (Some PostQueueFull)) small_server)) = connections_ small_server.
Proof.
  destruct small_life as [made Hl].
  pose proof (failed_attempt_leaves_no_trace "srv" small_admission true 0 2 Pool.RoundRobin small_server made (attempt "10.0.0.2" all_tracked (Some PostQueueFull)) small_admission_ok Hl ltac:(by intros _; vm_compute; split)) as H.
  destruct (newConnection _ _ _ _ _) as [r s'] eqn:E. destruct H as [_ H].
  assert (r = fst (newConnection "srv" small_admission true (attempt "10.0.0.2" all_tracked (Some PostQueueFull)) small_server)) as Er by (by rewrite E).
  destruct r as [[| |c]|]; [exact (proj1 H)..|by vm_compute in Er|exact (proj1 H)].
Defined.

Lemma limits_are_kept_witness : Z.of_nat (size (connections_ small_server)) <= 2.
Proof.
  destruct small_life as [made Hl].
  exact (proj1 (limits_are_kept "srv" small_admission true 0 2 Pool.RoundRobin small_server made small_admission_ok Hl) ltac:(done)).
Defined.

Lemma authentication_wins_or_loses_once_witness : NoDup (ref_name <$> authenticated (history small_server) ++ forced (history small_server)).
Proof.
  destruct small_life as [made Hl].
  exact (proj1 (authentication_wins_or_loses_once "srv" small_admission true 0 2 Pool.RoundRobin small_server made small_admission_ok Hl)).
Defined.

(** When the first connection that needs a deadline finds the loop without room for the
    repeating timer, the queue stays without a driver: later connections get deadlines
    that no timer looks at. *)
Example deadline_driver_lost :
  let s1 := small_op (OpNew (attempt "10.0.0.1" (mkTrack true true false true) (Some PostAccepted))) small_started in
  let s2 := small_op (OpNew (attempt "10.0.0.2" all_tracked (Some PostAccepted))) s1 in
  size (authenticationDeadlines_ (auth s2)) = 1%nat /\ authenticationDeadlineDriver_ (auth s2) = false.
Proof. vm_compute. by split. Qed.
