(* ===== verification/ServerStop.v ===== *)
(** * Stopping a TCP server

    Model of the stop handshake of [TcpServer] (src/core/net/TcpServer.cc) between the
    base loop, which owns the connection map, and the worker loops, which own the
    connections: a graceful or immediate stop hands every worker its connections, the
    workers close them and report that they are quiet, the base releases them and the
    workers acknowledge before their threads are joined.  The roll-back records of
    connections that are being established take part in it.

    The base loop and each worker are threads; a step of a thread is one critical section
    of a participant's mutex with what the thread does alone before and after it, and the
    lifecycle signal that follows it.  [todo] is what the running callback has still to do.
    The admission books are in ServerAdmission; here a connection is the state of its
    object, its close callback, and its entry of the map.  The workers are threads of
    their own (thread number at least one). *)

From S2P Require Import Prelude.

(** ** Connections as the server drives them *)

(** [Closing]: the write half is sealed, the peer may still send. *)
Inductive ConnState := Connecting | Connected | Closing | Disconnected.

(** The close callback: that of [newConnection], or that of the participant for a stop
    generation. *)
Inductive CloseCallback := NoCallback | ToServer | ToWorker (generation : nat).

Record ConnObject := mkObject { cstate : ConnState; callback : CloseCallback }.

Definition is_open (o : ConnObject) : bool := match cstate o with Connected | Closing => true | _ => false end.

(** ** Participants *)

Inductive Command := NoCommand | Graceful | Force.

Inductive Resolution :=
  | Arming
  | AwaitingOwnerEstablishment
  | OwnerDestroyedAwaitingBaseRollback
  | BaseRollbackInProgress
  | Disarmed
  | DestroyOnOwner.

Record WorkerStopParticipant := mkParticipant {
  generation : nat;
  command : Command;
  callbacksInstalled : bool;
  forceIssued : bool;
  locallyQuiet : bool;
  quietReported : bool;
  baseReleased : bool;
  ackReported : bool;
  connections : list nat;
  pendingConnectionNames : list nat;
  establishmentRollbacks : list (nat * Resolution);
}.

Definition participant_new : WorkerStopParticipant := mkParticipant 0 NoCommand false false false false false false [] [] [].

(** What a worker's callback has still to do. *)
Inductive WorkerOp :=
  | Drain                                                   (** [drainEstablishmentRollbacks] *)
  | Drive (arming : bool)                                   (** the first critical section of [driveWorkerStopParticipant] *)
  | Install (c generation : nat) (cmd : Command)            (** its loop over the connections to install *)
  | ForceClose (c : nat)                                    (** its loop over those to force *)
  | Finish (generation : nat) (arming notify detach : bool) (** its last critical section *)
  | ConnectionClosed (c generation : nat).                  (** [workerConnectionClosed] *)

#[export] Instance WorkerOp_eq_dec : EqDecision WorkerOp.
Proof. unfold EqDecision, Decision. repeat decide equality. Defined.

(** Functors of a worker's queue. *)
Inductive WorkerTask :=
  | Establish (c : nat) (succeeds : bool)
  | Destroy (c : nat).

(** [objects]: the connections of the loop; [signalled]: the lifecycle node; [attached]:
    until the participant is detached. *)
Record Worker := mkWorker {
  participant : WorkerStopParticipant;
  objects : gmap nat ConnObject;
  signalled : bool;
  attached : bool;
  functors : list WorkerTask;
  todo : list WorkerOp;
}.

Definition worker_new : Worker := mkWorker participant_new ∅ false true [] [].

(** ** The base loop *)

(** The last two come from outside the protocol, see [destroy_future] and
    [schedulingFailed]. *)
Inductive TcpServerStopOutcome :=
  | Drained | ForcedAfterTimeout | ForcedByImmediateStop | AlreadyStopped | ServerDestroyed | SchedulingFailed.

Record TcpServerStopResult := mkResult { outcome : TcpServerStopOutcome; initialConnectionCount : nat; forcedConnectionCount : nat }.

(** [GracefulStopState]; [zero_timeout]: [drainTimeout] is zero. *)
Record GracefulStopState := mkGraceful {
  completed : bool;
  begun : bool;
  forceStarted : bool;
  initialCount : nat;
  forcedCount : nat;
  zero_timeout : bool;
  timeoutTimer : bool;
}.

(** [AggregateStopState]; [gracefulState]: it has one. *)
Record AggregateStopState := mkAggregate {
  a_generation : nat;
  a_outcome : TcpServerStopOutcome;
  a_forceStarted : bool;
  a_joined : bool;
  gracefulState : bool;
}.

Inductive BaseOp :=
  | Rollbacks (i : nat)                     (** [driveStopLifecycleInLoop]: the next roll-back of a participant *)
  | RolledBack (i c : nat)                  (** its rest *)
  | BeginGraceful                           (** its check for a graceful stop *)
  | TakeImmediate                           (** its check for an immediate one *)
  | Consume                                 (** the head of [consumeWorkerStopNotificationsInLoop] *)
  | Assign (i : nat) (force : bool)         (** [beginAggregateStopInLoop], for a participant *)
  | GracefulTail                            (** the rest of [beginGracefulStopInLoop] *)
  | ForceWorker (i : nat)                   (** [requestAggregateForceInLoop], for a participant *)
  | Release (i : nat)                       (** [releaseWorkerConnectionsInLoop] *)
  | CheckAcks                               (** the rest of [consumeWorkerStopNotificationsInLoop] *)
  | Join                                    (** [threadPool_->stop()] of [finishAggregateStopInLoop], and its rest *)
  | JoinDrained                             (** the same in [finishGracefulStopInLoop] *)
  | Arm (i c : nat)                         (** [newConnection]: the roll-back record *)
  | Construct (i c : nat)                   (** the connection and its entry of the map *)
  | Await (i c : nat)                       (** the record waits for the owner *)
  | Post (i c : nat) (succeeds : bool)      (** the functor that establishes the connection *)
  | Undo (i c : nat).                       (** [rollbackProvisionalState] *)

Inductive BaseTask := RemoveConnection (c : nat) | FinishGraceful.

(** [due]: calls of other threads that have still to signal the base loop; [joined]: the
    threads of the pool are gone; [fatal]: [LOG_FATAL]; [raced]: a connection was still
    being established when the stop began. *)
Record TcpServer := mkServer {
  workers : list Worker;
  connections_ : gmap nat nat;
  nextConnId_ : nat;
  stopped_ : bool;
  nextStopGeneration_ : nat;
  aggregateStopState_ : option AggregateStopState;
  gracefulStopState_ : option GracefulStopState;
  immediateStopRequested_ : bool;
  base_signalled : bool;
  base_functors : list BaseTask;
  base_todo : list BaseOp;
  due : nat;
  results : list TcpServerStopResult;
  joined : bool;
  fatal : bool;
  raced : bool;
}.

Definition TcpServer_new (n : nat) : TcpServer :=
  mkServer (replicate n worker_new) ∅ 0 false 1 None None false false [] [] 0 [] false false false.

Definition set_workers (f : list Worker -> list Worker) (s : TcpServer) : TcpServer :=
  mkServer (f (workers s)) (connections_ s) (nextConnId_ s) (stopped_ s) (nextStopGeneration_ s) (aggregateStopState_ s) (gracefulStopState_ s) (immediateStopRequested_ s) (base_signalled s) (base_functors s) (base_todo s) (due s) (results s) (joined s) (fatal s) (raced s).
Definition set_connections (f : gmap nat nat -> gmap nat nat) (s : TcpServer) : TcpServer :=
  mkServer (workers s) (f (connections_ s)) (nextConnId_ s) (stopped_ s) (nextStopGeneration_ s) (aggregateStopState_ s) (gracefulStopState_ s) (immediateStopRequested_ s) (base_signalled s) (base_functors s) (base_todo s) (due s) (results s) (joined s) (fatal s) (raced s).
Definition set_nextConnId (n : nat) (s : TcpServer) : TcpServer :=
  mkServer (workers s) (connections_ s) n (stopped_ s) (nextStopGeneration_ s) (aggregateStopState_ s) (gracefulStopState_ s) (immediateStopRequested_ s) (base_signalled s) (base_functors s) (base_todo s) (due s) (results s) (joined s) (fatal s) (raced s).
(** [stopped_], the next generation, the aggregate, and whether an establishment was under way *)
Definition set_aggregate (st : bool) (g : nat) (a : option AggregateStopState) (r : bool) (s : TcpServer) : TcpServer :=
  mkServer (workers s) (connections_ s) (nextConnId_ s) st g a (gracefulStopState_ s) (immediateStopRequested_ s) (base_signalled s) (base_functors s) (base_todo s) (due s) (results s) (joined s) (fatal s) r.
Definition set_graceful (g : option GracefulStopState) (s : TcpServer) : TcpServer :=
  mkServer (workers s) (connections_ s) (nextConnId_ s) (stopped_ s) (nextStopGeneration_ s) (aggregateStopState_ s) g (immediateStopRequested_ s) (base_signalled s) (base_functors s) (base_todo s) (due s) (results s) (joined s) (fatal s) (raced s).
Definition set_requests (im sg : bool) (d : nat) (s : TcpServer) : TcpServer :=
  mkServer (workers s) (connections_ s) (nextConnId_ s) (stopped_ s) (nextStopGeneration_ s) (aggregateStopState_ s) (gracefulStopState_ s) im sg (base_functors s) (base_todo s) d (results s) (joined s) (fatal s) (raced s).
Definition set_functors (l : list BaseTask) (s : TcpServer) : TcpServer :=
  mkServer (workers s) (connections_ s) (nextConnId_ s) (stopped_ s) (nextStopGeneration_ s) (aggregateStopState_ s) (gracefulStopState_ s) (immediateStopRequested_ s) (base_signalled s) l (base_todo s) (due s) (results s) (joined s) (fatal s) (raced s).
Definition set_todo (l : list BaseOp) (s : TcpServer) : TcpServer :=
  mkServer (workers s) (connections_ s) (nextConnId_ s) (stopped_ s) (nextStopGeneration_ s) (aggregateStopState_ s) (gracefulStopState_ s) (immediateStopRequested_ s) (base_signalled s) (base_functors s) l (due s) (results s) (joined s) (fatal s) (raced s).
Definition set_end (rs : list TcpServerStopResult) (j f : bool) (s : TcpServer) : TcpServer :=
  mkServer (workers s) (connections_ s) (nextConnId_ s) (stopped_ s) (nextStopGeneration_ s) (aggregateStopState_ s) (gracefulStopState_ s) (immediateStopRequested_ s) (base_signalled s) (base_functors s) (base_todo s) (due s) rs j f (raced s).

Definition set_participant (p : WorkerStopParticipant) (w : Worker) : Worker := mkWorker p (objects w) (signalled w) (attached w) (functors w) (todo w).
Definition set_objects (m : gmap nat ConnObject) (w : Worker) : Worker := mkWorker (participant w) m (signalled w) (attached w) (functors w) (todo w).
Definition set_signalled (b : bool) (w : Worker) : Worker := mkWorker (participant w) (objects w) b (attached w) (functors w) (todo w).
Definition set_attached (b : bool) (w : Worker) : Worker := mkWorker (participant w) (objects w) (signalled w) b (functors w) (todo w).
Definition set_tasks (l : list WorkerTask) (w : Worker) : Worker := mkWorker (participant w) (objects w) (signalled w) (attached w) l (todo w).
Definition set_ops (l : list WorkerOp) (w : Worker) : Worker := mkWorker (participant w) (objects w) (signalled w) (attached w) (functors w) l.

Definition with_rollbacks (l : list (nat * Resolution)) (p : WorkerStopParticipant) : WorkerStopParticipant :=
  mkParticipant (generation p) (command p) (callbacksInstalled p) (forceIssued p) (locallyQuiet p) (quietReported p) (baseReleased p) (ackReported p) (connections p) (pendingConnectionNames p) l.
Definition with_pending (l : list nat) (p : WorkerStopParticipant) : WorkerStopParticipant :=
  mkParticipant (generation p) (command p) (callbacksInstalled p) (forceIssued p) (locallyQuiet p) (quietReported p) (baseReleased p) (ackReported p) (connections p) l (establishmentRollbacks p).
Definition with_command (c : Command) (p : WorkerStopParticipant) : WorkerStopParticipant :=
  mkParticipant (generation p) c (callbacksInstalled p) (forceIssued p) (locallyQuiet p) (quietReported p) (baseReleased p) (ackReported p) (connections p) (pendingConnectionNames p) (establishmentRollbacks p).
Definition with_issued (installed issued : bool) (p : WorkerStopParticipant) : WorkerStopParticipant :=
  mkParticipant (generation p) (command p) installed issued (locallyQuiet p) (quietReported p) (baseReleased p) (ackReported p) (connections p) (pendingConnectionNames p) (establishmentRollbacks p).
Definition with_quiet (p : WorkerStopParticipant) : WorkerStopParticipant :=
  mkParticipant (generation p) (command p) (callbacksInstalled p) (forceIssued p) true true (baseReleased p) (ackReported p) (connections p) (pendingConnectionNames p) (establishmentRollbacks p).
Definition with_released (p : WorkerStopParticipant) : WorkerStopParticipant :=
  mkParticipant (generation p) (command p) (callbacksInstalled p) (forceIssued p) (locallyQuiet p) (quietReported p) true (ackReported p) (connections p) (pendingConnectionNames p) (establishmentRollbacks p).
Definition with_ack (p : WorkerStopParticipant) : WorkerStopParticipant :=
  mkParticipant (generation p) (command p) (callbacksInstalled p) (forceIssued p) (locallyQuiet p) (quietReported p) (baseReleased p) true [] [] (establishmentRollbacks p).

(** ** The workers *)

(** What a worker's step tells the base loop: a signal, a functor. *)
Record Message := mkMessage { signal_base : bool; post_base : list BaseTask }.
Definition silent : Message := mkMessage false [].

Definition set_state (st : ConnState) (o : ConnObject) : ConnObject := mkObject st (callback o).

(** [connectDestroyed] *)
Definition connectDestroyed (c : nat) (w : Worker) : Worker := set_objects (alter (set_state Disconnected) c (objects w)) w.

(** The connection closes, which calls its close callback. *)
Definition close (c : nat) (w : Worker) : Worker * Message :=
  match objects w !! c with
  | Some o =>
      let w := set_objects (<[c := set_state Disconnected o]> (objects w)) w in
      match callback o with
      | NoCallback => (w, silent)
      | ToServer => (w, mkMessage false [RemoveConnection c])
      | ToWorker g => (set_ops (ConnectionClosed c g :: todo w) w, silent)
      end
  | None => (w, silent)
  end.

(** [tryForceClose] on the owner's thread: before establishment the request is lost. *)
Definition tryForceClose (c : nat) (w : Worker) : Worker * Message :=
  match objects w !! c with
  | Some o => if is_open o then close c w else (w, silent)
  | None => (w, silent)
  end.

(** [tryShutdown] on the owner's thread. *)
Definition tryShutdown (c : nat) (w : Worker) : Worker :=
  match objects w !! c with
  | Some o => if is_open o then set_objects (<[c := set_state Closing o]> (objects w)) w else w
  | None => w
  end.

(** The first record that is resolved for the owner. *)
Definition for_owner (r : nat * Resolution) : bool := match snd r with Disarmed | DestroyOnOwner => true | _ => false end.
Definition for_base (r : nat * Resolution) : bool := match snd r with OwnerDestroyedAwaitingBaseRollback => true | _ => false end.
Definition is_arming (r : nat * Resolution) : bool := match snd r with Arming => true | _ => false end.

(** Erase the first entry that satisfies a test. *)
Fixpoint erase_first (f : nat * Resolution -> bool) (l : list (nat * Resolution)) : option ((nat * Resolution) * list (nat * Resolution)) :=
  match l with
  | [] => None
  | r :: l => if f r then Some (r, l) else match erase_first f l with Some (x, l') => Some (x, r :: l') | None => None end
  end.

(** The record of a connection, if it passes a test, is resolved. *)
Definition resolve (f : Resolution -> bool) (c : nat) (to_ : Resolution) (l : list (nat * Resolution)) : list (nat * Resolution) :=
  (fun r => if (fst r =? c)%nat && f (snd r) then (c, to_) else r) <$> l.

Definition push (l : list WorkerOp) (w : Worker) : Worker := set_ops (l ++ todo w) w.

(** One iteration of [drainEstablishmentRollbacks]. *)
Definition drain (w : Worker) : Worker :=
  let p := participant w in
  match erase_first for_owner (establishmentRollbacks p) with
  | Some ((c, r), rest) =>
      let w := set_participant (with_rollbacks rest p) w in
      push [Drain] (match r with DestroyOnOwner => connectDestroyed c w | _ => w end)
  | None => push [Drive (existsb is_arming (establishmentRollbacks p))] w
  end.

(** The first critical section of [driveWorkerStopParticipant]. *)
Definition drive (arming : bool) (w : Worker) : Worker :=
  let p := participant w in
  if (generation p =? 0)%nat then if arming then set_signalled true w else w
  else
    let install := negb (callbacksInstalled p) in
    let forced := match command p with Force => true | _ => false end in
    let to_install := if install then (fun c => Install c (generation p) (command p)) <$> connections p else [] in
    let to_force := if negb install && forced && negb (forceIssued p) then ForceClose <$> connections p else [] in
    let p := with_issued true (forceIssued p || forced) p in
    let quiet := bool_decide (pendingConnectionNames p = []) in
    let notify := quiet && negb (quietReported p) in
    let p := if quiet then with_quiet p else p in
    let ack := baseReleased p && locallyQuiet p && bool_decide (establishmentRollbacks p = []) && negb (ackReported p) in
    let p := if ack then with_ack p else p in
    push (to_install ++ to_force ++ [Finish (generation p) arming (notify || ack) ack]) (set_participant p w).

(** [workerConnectionClosed] *)
Definition workerConnectionClosed (c g : nat) (w : Worker) : Worker * Message :=
  let w := connectDestroyed c w in
  let p := participant w in
  if negb (generation p =? g)%nat || ackReported p then (w, silent)
  else if negb (bool_decide (c ∈ pendingConnectionNames p)) then (w, silent)
  else
    let rest := filter (fun x => x <> c) (pendingConnectionNames p) in
    let p := with_pending rest p in
    match rest with
    | [] => (set_participant (with_quiet p) w, mkMessage (negb (quietReported p)) [])
    | _ => (set_participant p w, silent)
    end.

(** One connection of the loop that installs the callbacks. *)
Definition install (c g : nat) (cmd : Command) (w : Worker) : Worker * Message :=
  let w := set_objects (alter (fun o => mkObject (cstate o) (ToWorker g)) c (objects w)) w in
  match objects w !! c with
  | Some o =>
      match cstate o with
      | Disconnected => (push [ConnectionClosed c g] w, silent)
      | _ => match cmd with Force => tryForceClose c w | _ => (tryShutdown c w, silent) end
      end
  | None => (w, silent)
  end.

(** The end of [driveWorkerStopParticipant]. *)
Definition finish (g : nat) (arming notify detach : bool) (w : Worker) : Worker * Message :=
  let p := participant w in
  let quiet := (generation p =? g)%nat && bool_decide (pendingConnectionNames p = []) in
  let notify := notify || (quiet && negb (quietReported p)) in
  let w := set_participant (if quiet then with_quiet p else p) w in
  let w := if arming then set_signalled true w else w in
  (if detach then set_attached false w else w, mkMessage notify []).

(** A step of the callback that is running. *)
Definition worker_op (o : WorkerOp) (w : Worker) : Worker * Message :=
  match o with
  | Drain => (drain w, silent)
  | Drive arming => (drive arming w, silent)
  | Install c g cmd => install c g cmd w
  | ForceClose c => tryForceClose c w
  | Finish g arming notify detach => finish g arming notify detach w
  | ConnectionClosed c g => workerConnectionClosed c g w
  end.

(** The record of a connection has one of two resolutions. *)
Definition recorded (f : Resolution -> bool) (c : nat) (l : list (nat * Resolution)) : bool := existsb (fun r => (fst r =? c)%nat && f (snd r)) l.
Definition unresolved (r : Resolution) : bool := match r with Arming | AwaitingOwnerEstablishment => true | _ => false end.
Definition awaiting (r : Resolution) : bool := match r with AwaitingOwnerEstablishment => true | _ => false end.

(** [resolveEstablishmentRollback] *)
Definition resolveEstablishmentRollback (c : nat) (destroyOnOwner : bool) (w : Worker) : Worker :=
  let p := participant w in
  if recorded unresolved c (establishmentRollbacks p) then
    set_signalled true (set_participant (with_rollbacks (resolve unresolved c (if destroyOnOwner then DestroyOnOwner else Disarmed) (establishmentRollbacks p)) p) w)
  else w.

(** [rollbackOwnerEstablishmentFailure] *)
Definition rollbackOwnerEstablishmentFailure (c : nat) (w : Worker) : Worker * Message :=
  let w := connectDestroyed c w in
  let p := participant w in
  if recorded awaiting c (establishmentRollbacks p) then
    (set_participant (with_rollbacks (resolve awaiting c OwnerDestroyedAwaitingBaseRollback (establishmentRollbacks p)) p) w, mkMessage true [])
  else (w, silent).

(** A functor: the establishment, which may fail, or [connectDestroyed]. *)
Definition worker_task (t : WorkerTask) (w : Worker) : Worker * Message :=
  match t with
  | Establish c true =>
      let w := set_objects (alter (fun o => mkObject (match cstate o with Connecting => Connected | st => st end) ToServer) c (objects w)) w in
      (resolveEstablishmentRollback c false w, silent)
  | Establish c false => rollbackOwnerEstablishmentFailure c (set_objects (alter (fun o => mkObject (cstate o) ToServer) c (objects w)) w)
  | Destroy c => (connectDestroyed c w, silent)
  end.

Inductive WorkerLabel :=
  | WRun                    (** the running callback goes on *)
  | WLifecycle              (** the signalled node is served *)
  | WTask                   (** the next functor *)
  | WClose (c : nat).       (** a connection closes of itself *)

Definition worker_step (l : WorkerLabel) (w : Worker) : option (Worker * Message) :=
  match l, todo w with
  | WRun, o :: rest => Some (worker_op o (set_ops rest w))
  | WLifecycle, [] => if signalled w && attached w then Some (set_ops [Drain] (set_signalled false w), silent) else None
  | WTask, [] => match functors w with t :: rest => Some (worker_task t (set_tasks rest w)) | [] => None end
  | WClose c, [] => match objects w !! c with Some o => if is_open o then Some (close c w) else None | None => None end
  | _, _ => None
  end.

(** ** The base loop *)

Definition update_worker (i : nat) (f : Worker -> Worker) (s : TcpServer) : TcpServer := set_workers (alter f i) s.
Definition update_participant (i : nat) (f : WorkerStopParticipant -> WorkerStopParticipant) : TcpServer -> TcpServer :=
  update_worker i (fun w => set_participant (f (participant w)) w).
Definition base_push (l : list BaseOp) (s : TcpServer) : TcpServer := set_todo (l ++ base_todo s) s.

(** For every participant. *)
Definition for_workers (f : nat -> BaseOp) (s : TcpServer) : list BaseOp := f <$> seq 0 (length (workers s)).

(** [GracefulStopState::complete] *)
Definition complete (r : TcpServerStopResult) (s : TcpServer) : TcpServer :=
  match gracefulStopState_ s with
  | Some g =>
      if completed g then s
      else set_end (results s ++ [r]) (joined s) (fatal s) (set_graceful (Some (mkGraceful true (begun g) (forceStarted g) (initialCount g) (forcedCount g) (zero_timeout g) (timeoutTimer g))) s)
  | None => s
  end.

(** What [driveStopLifecycleInLoop] has to do. *)
Definition driveStopLifecycleInLoop (s : TcpServer) : TcpServer :=
  base_push (for_workers Rollbacks s ++ [BeginGraceful; TakeImmediate; Consume]) s.

(** An establishment that has not been resolved. *)
Definition establishing (s : TcpServer) : bool :=
  existsb (fun w => existsb (fun r => unresolved (snd r)) (establishmentRollbacks (participant w))) (workers s).

(** [beginAggregateStopInLoop] *)
Definition beginAggregateStopInLoop (graceful : bool) (o : TcpServerStopOutcome) (force : bool) (s : TcpServer) : TcpServer :=
  base_push (for_workers (fun i => Assign i force) s)
    (set_aggregate true (nextStopGeneration_ s + 1) (Some (mkAggregate (nextStopGeneration_ s) o force false graceful)) (establishing s) s).

(** [requestAggregateForceInLoop] *)
Definition requestAggregateForceInLoop (o : TcpServerStopOutcome) (s : TcpServer) : TcpServer :=
  match aggregateStopState_ s with
  | Some a =>
      if a_joined a then s
      else
        let o := match o with ForcedByImmediateStop => o | _ => if a_forceStarted a then a_outcome a else o end in
        let s := set_aggregate (stopped_ s) (nextStopGeneration_ s) (Some (mkAggregate (a_generation a) o true false (gracefulState a))) (raced s) s in
        if a_forceStarted a then s
        else
          let s :=
            match gracefulState a, gracefulStopState_ s with
            | true, Some g => set_graceful (Some (mkGraceful (completed g) (begun g) true (initialCount g) (size (connections_ s)) (zero_timeout g) (timeoutTimer g))) s
            | _, _ => s
            end in
          base_push (for_workers ForceWorker s) s
  | None => s
  end.

(** [forceGracefulStopInLoop] *)
Definition forceGracefulStopInLoop (g : GracefulStopState) (o : TcpServerStopOutcome) (s : TcpServer) : TcpServer :=
  if completed g || forceStarted g then s
  else requestAggregateForceInLoop o (set_graceful (Some (mkGraceful (completed g) (begun g) true (initialCount g) (size (connections_ s)) (zero_timeout g) false)) s).

(** [beginGracefulStopInLoop], up to the end of [beginAggregateStopInLoop]. *)
Definition beginGracefulStopInLoop (g : GracefulStopState) (s : TcpServer) : TcpServer :=
  if completed g then s
  else if stopped_ s then complete (mkResult AlreadyStopped 0 0) s
  else
    beginAggregateStopInLoop true Drained false
      (base_push [GracefulTail] (set_graceful (Some (mkGraceful (completed g) (begun g) (forceStarted g) (size (connections_ s)) (forcedCount g) (zero_timeout g) (timeoutTimer g))) s)).

(** [stopInLoop] *)
Definition stopInLoop (s : TcpServer) : TcpServer :=
  match aggregateStopState_ s with
  | Some _ => requestAggregateForceInLoop ForcedByImmediateStop s
  | None => if stopped_ s then s else beginAggregateStopInLoop false ForcedByImmediateStop true s
  end.

(** The part of [beginAggregateStopInLoop] for a participant and its connections. *)
Definition assign (g : nat) (force : bool) (cs : list nat) (w : Worker) : Worker :=
  set_signalled true
    (set_participant
       (mkParticipant g (if force then Force else Graceful) false false (bool_decide (cs = [])) false false false cs cs (establishmentRollbacks (participant w))) w).

(** The part of [requestAggregateForceInLoop] for a participant. *)
Definition force_worker (g : nat) (w : Worker) : Worker :=
  let p := participant w in
  if negb (generation p =? g)%nat || ackReported p then w
  else match command p with Force => w | _ => set_signalled true (set_participant (with_command Force p) w) end.

(** The connections of a loop. *)
Definition connections_of (i : nat) (s : TcpServer) : list nat := fst <$> filter (fun e => snd e = i) (map_to_list (connections_ s)).

(** No work of a worker is left. *)
Definition idle (w : Worker) : bool :=
  bool_decide (todo w = []) && bool_decide (functors w = []) && negb (signalled w && attached w).

Definition all_acknowledged (g : nat) (s : TcpServer) : bool :=
  forallb (fun w => (generation (participant w) =? g)%nat && ackReported (participant w)) (workers s).

(** [threadPool_->stop()] returns when the workers are done. *)
Definition pool_stop (s : TcpServer) : option TcpServer :=
  if forallb idle (workers s) || joined s then Some (set_end (results s) true (fatal s) s) else None.

Definition stop_timer (s : TcpServer) : TcpServer :=
  match gracefulStopState_ s with
  | Some g => set_graceful (Some (mkGraceful (completed g) (begun g) (forceStarted g) (initialCount g) (forcedCount g) (zero_timeout g) false)) s
  | None => s
  end.

Definition counts (o : TcpServerStopOutcome) (s : TcpServer) : TcpServerStopResult :=
  match gracefulStopState_ s with
  | Some g => mkResult o (initialCount g) (forcedCount g)
  | None => mkResult o 0 0
  end.

(** The next record to be rolled back is marked. *)
Fixpoint mark_first (l : list (nat * Resolution)) : option (nat * list (nat * Resolution)) :=
  match l with
  | [] => None
  | (c, r) :: l =>
      match r with
      | OwnerDestroyedAwaitingBaseRollback => Some (c, (c, BaseRollbackInProgress) :: l)
      | _ => match mark_first l with Some (x, l') => Some (x, (c, r) :: l') | None => None end
      end
  end.

Definition in_progress (r : Resolution) : bool := match r with BaseRollbackInProgress => true | _ => false end.
Definition arming (r : Resolution) : bool := match r with Arming => true | _ => false end.

(** A step of the stop protocol. *)
Definition stop_op (o : BaseOp) (s : TcpServer) : option TcpServer :=
  match o with
  | Rollbacks i =>
      Some match workers s !! i with
           | Some w =>
               match mark_first (establishmentRollbacks (participant w)) with
               | Some (c, l) => base_push [RolledBack i c; Rollbacks i] (update_participant i (with_rollbacks l) s)
               | None => s
               end
           | None => s
           end
  | RolledBack i c =>
      Some (update_worker i (fun w => set_signalled true (set_participant (with_rollbacks (resolve in_progress c Disarmed (establishmentRollbacks (participant w))) (participant w)) w))
              (set_connections (delete c) s))
  | BeginGraceful =>
      Some match gracefulStopState_ s with
           | Some g =>
               if completed g || begun g then s
               else
                 let g := mkGraceful (completed g) true (forceStarted g) (initialCount g) (forcedCount g) (zero_timeout g) (timeoutTimer g) in
                 beginGracefulStopInLoop g (set_graceful (Some g) s)
           | None => s
           end
  | TakeImmediate =>
      Some (if immediateStopRequested_ s then stopInLoop (set_requests false (base_signalled s) (due s) s) else s)
  | Consume =>
      Some match aggregateStopState_ s with
           | Some a => if a_joined a then s else base_push (for_workers Release s ++ [CheckAcks]) s
           | None => s
           end
  | Assign i force =>
      Some match aggregateStopState_ s with
           | Some a => update_worker i (assign (a_generation a) force (connections_of i s)) s
           | None => s
           end
  | GracefulTail =>
      Some match gracefulStopState_ s with
           | Some g =>
               if completed g then s
               else if zero_timeout g then forceGracefulStopInLoop g ForcedAfterTimeout s
               else set_graceful (Some (mkGraceful (completed g) (begun g) (forceStarted g) (initialCount g) (forcedCount g) (zero_timeout g) true)) s
           | None => s
           end
  | ForceWorker i =>
      Some match aggregateStopState_ s with
           | Some a => update_worker i (force_worker (a_generation a)) s
           | None => s
           end
  | Release i =>
      Some match aggregateStopState_ s, workers s !! i with
           | Some a, Some w =>
               let p := participant w in
               if negb (generation p =? a_generation a)%nat || negb (locallyQuiet p) || baseReleased p then s
               else
                 update_worker i (fun w => set_signalled true (set_participant (with_released (participant w)) w))
                   (set_connections (fun m => foldl (fun m c => delete c m) m (connections p)) s)
           | _, _ => s
           end
  | CheckAcks =>
      Some match aggregateStopState_ s with
           | Some a =>
               if negb (a_joined a) && all_acknowledged (a_generation a) s then
                 let s := if gracefulState a then stop_timer s else s in
                 base_push [Join] (set_aggregate (stopped_ s) (nextStopGeneration_ s) (Some (mkAggregate (a_generation a) (a_outcome a) (a_forceStarted a) true (gracefulState a))) (raced s) s)
               else s
           | None => s
           end
  | Join =>
      match pool_stop s, aggregateStopState_ s with
      | Some s, Some a =>
          Some (set_aggregate (stopped_ s) (nextStopGeneration_ s) None (raced s) (if gracefulState a then complete (counts (a_outcome a) s) s else s))
      | r, _ => r
      end
  | JoinDrained =>
      match pool_stop s with
      | Some s => Some (complete (counts Drained s) s)
      | None => None
      end
  | _ => None
  end.

(** A step of [newConnection]. *)
Definition setup_op (o : BaseOp) (s : TcpServer) : TcpServer :=
  match o with
  | Arm i c => update_worker i (fun w => set_signalled true (set_participant (with_rollbacks (establishmentRollbacks (participant w) ++ [(c, Arming)]) (participant w)) w)) s
  | Construct i c => update_worker i (fun w => set_objects (<[c := mkObject Connecting NoCallback]> (objects w)) w) (set_connections (<[c := i]>) s)
  | Await i c => update_participant i (fun p => with_rollbacks (resolve arming c AwaitingOwnerEstablishment (establishmentRollbacks p)) p) s
  | Post i c succeeds => update_worker i (fun w => set_tasks (functors w ++ [Establish c succeeds]) w) s
  | Undo i c => update_worker i (resolveEstablishmentRollback c true) (set_connections (delete c) s)
  | _ => s
  end.

Definition is_setup (o : BaseOp) : bool := match o with Arm _ _ | Construct _ _ | Await _ _ | Post _ _ _ | Undo _ _ => true | _ => false end.

Definition base_op (o : BaseOp) (s : TcpServer) : option TcpServer := if is_setup o then Some (setup_op o s) else stop_op o s.

(** [removeConnectionInLoop], and the functor it may queue. *)
Definition base_task (t : BaseTask) (s : TcpServer) : TcpServer :=
  match t with
  | RemoveConnection c =>
      if match aggregateStopState_ s with Some a => negb (a_joined a) | None => false end then s
      else
        match connections_ s !! c with
        | None => s
        | Some i =>
            let s := update_worker i (fun w => set_tasks (functors w ++ [Destroy c]) w) (set_connections (delete c) s) in
            match gracefulStopState_ s with
            | Some g => if negb (completed g) && negb (forceStarted g) && bool_decide (connections_ s = ∅) then set_functors (base_functors s ++ [FinishGraceful]) s else s
            | None => s
            end
        end
  | FinishGraceful =>
      match gracefulStopState_ s with
      | Some g =>
          if completed g || forceStarted g || negb (bool_decide (connections_ s = ∅)) then s
          else
            let s := stop_timer s in
            match aggregateStopState_ s with
            | Some a =>
                if gracefulState a then set_aggregate (stopped_ s) (nextStopGeneration_ s) (Some (mkAggregate (a_generation a) Drained (a_forceStarted a) (a_joined a) true)) (raced s) s
                else base_push [JoinDrained] s
            | None => base_push [JoinDrained] s
            end
      | None => s
      end
  end.

(** ** The machine *)

(** How the setting up of an accepted connection ends. *)
Inductive SetUp := NotConstructed | NotPosted | Refused | Posted (succeeds : bool).

Inductive Label :=
  | BRun                                  (** the base loop's callback goes on *)
  | BLifecycle                            (** its lifecycle node is served *)
  | BTask                                 (** its next functor *)
  | BTimer                                (** the drain time-out *)
  | BAccept (i : nat) (e : SetUp)         (** a connection is accepted for a loop *)
  | BStop                                 (** [stop] on the base loop *)
  | BStopGracefully (zero : bool)         (** [stopGracefully] on the base loop *)
  | FStop                                 (** [stop] on another thread, before it signals *)
  | FStopGracefully (zero : bool)         (** [stopGracefully] likewise *)
  | FSignal                               (** one of those signals *)
  | W (i : nat) (l : WorkerLabel).        (** a worker *)

Definition request_graceful (zero : bool) (s : TcpServer) : TcpServer := set_graceful (Some (mkGraceful false false false 0 0 zero false)) s.

(** The rest of [stopGracefully] on another thread when its signal is refused: the base
    loop shuts down.  The machine's signals are accepted. *)
Definition schedulingFailed (s : TcpServer) : TcpServer := set_graceful None (complete (mkResult SchedulingFailed 0 0) s).

(** What the destructor does to the future, before it revokes the lifetime token.  The
    machine's server is not destroyed. *)
Definition destroy_future (s : TcpServer) : TcpServer :=
  match gracefulStopState_ s with
  | Some g => complete (mkResult ServerDestroyed (initialCount g) (size (connections_ s))) s
  | None => s
  end.

Definition setup_ops (i c : nat) (e : SetUp) : list BaseOp :=
  Arm i c ::
  match e with
  | NotConstructed => [Undo i c]
  | NotPosted => [Construct i c; Undo i c]
  | Refused => [Construct i c; Await i c; Undo i c]
  | Posted ok => [Construct i c; Await i c; Post i c ok]
  end.

(** A worker's step and its message. *)
Definition deliver (i : nat) (w : Worker) (m : Message) (s : TcpServer) : TcpServer :=
  let s := set_functors (base_functors s ++ post_base m) (set_workers (<[i := w]>) s) in
  if signal_base m then set_requests (immediateStopRequested_ s) true (due s) s else s.

(** An event of the base loop, which comes while no callback runs. *)
Definition base_event (l : Label) (s : TcpServer) : option TcpServer :=
  match l with
  | BLifecycle => if base_signalled s then Some (driveStopLifecycleInLoop (set_requests (immediateStopRequested_ s) false (due s) s)) else None
  | BTask => match base_functors s with t :: rest => Some (base_task t (set_functors rest s)) | [] => None end
  | BTimer =>
      match gracefulStopState_ s with
      | Some g => if timeoutTimer g then Some (forceGracefulStopInLoop (mkGraceful (completed g) (begun g) (forceStarted g) (initialCount g) (forcedCount g) (zero_timeout g) false) ForcedAfterTimeout (stop_timer s)) else None
      | None => None
      end
  | BAccept i e =>
      if stopped_ s || negb (i <? length (workers s))%nat then None
      else if joined s then Some (set_end (results s) true true s)
      else Some (base_push (setup_ops i (nextConnId_ s) e) (set_nextConnId (S (nextConnId_ s)) s))
  | BStop => Some (driveStopLifecycleInLoop (set_requests true (base_signalled s) (due s) s))
  | BStopGracefully z => match gracefulStopState_ s with None => Some (driveStopLifecycleInLoop (request_graceful z s)) | Some _ => None end
  | _ => None
  end.

(** A step of another thread. *)
Definition foreign_event (l : Label) (s : TcpServer) : option TcpServer :=
  match l with
  | FStop => Some (set_requests true (base_signalled s) (S (due s)) s)
  | FStopGracefully z => match gracefulStopState_ s with None => Some (set_requests (immediateStopRequested_ s) (base_signalled s) (S (due s)) (request_graceful z s)) | Some _ => None end
  | FSignal => match due s with S n => Some (set_requests (immediateStopRequested_ s) true n s) | 0 => None end
  | _ => None
  end.

Definition step (l : Label) (s : TcpServer) : option TcpServer :=
  if fatal s then None
  else
    match l with
    | BRun => match base_todo s with o :: rest => base_op o (set_todo rest s) | [] => None end
    | W i wl =>
        if joined s then None
        else
          match workers s !! i with
          | Some w => match worker_step wl w with Some (w', m) => Some (deliver i w' m s) | None => None end
          | None => None
          end
    | FStop | FStopGracefully _ | FSignal => foreign_event l s
    | _ => match base_todo s with [] => base_event l s | _ => None end
    end.

Fixpoint run_steps (ls : list Label) (s : TcpServer) : option TcpServer :=
  match ls with
  | [] => Some s
  | l :: ls => match step l s with Some s => run_steps ls s | None => None end
  end.

(** The servers that steps lead to from a started server. *)
Inductive reachable (n : nat) : TcpServer -> Prop :=
  | reachable_start : reachable n (TcpServer_new n)
  | reachable_step l s s' : reachable n s -> step l s = Some s' -> reachable n s'.

(** No thread has anything to do. *)
Definition at_rest (s : TcpServer) : bool :=
  bool_decide (base_todo s = []) && bool_decide (base_functors s = []) && negb (base_signalled s) && (due s =? 0)%nat && forallb idle (workers s).

(** ** What a worker's participant promises *)

Abbreviation records w := (establishmentRollbacks (participant w)).
Abbreviation gone o := (cstate o = Disconnected).

Lemma erase_first_spec f l x l' : erase_first f l = Some (x, l') -> f x = true /\ (forall y, y ∈ l <-> y = x \/ y ∈ l').
Proof.
  revert x l'. induction l as [|r l IH]; intros x l'; cbn [erase_first]; [done|].
  destruct (f r) eqn:Hr.
  - intros [= <- <-]. split; [done|]. set_solver.
  - destruct (erase_first f l) as [[y m]|]; [|done]. intros [= <- <-].
    destruct (IH _ _ eq_refl) as [Hy Hm]. split; [done|]. intros z. rewrite !elem_of_cons, Hm. naive_solver.
Qed.

Lemma erase_first_none f l x : erase_first f l = None -> x ∈ l -> f x = false.
Proof.
  revert x. induction l as [|r l IH]; intros x; cbn [erase_first]; [set_solver|].
  destruct (f r) eqn:Hr; [done|]. destruct (erase_first f l) as [[y m]|]; [done|]. intros _ [->|Hx]%elem_of_cons; [done|]. by apply IH.
Qed.

Lemma elem_of_resolve f c t l d r :
  (d, r) ∈ resolve f c t l <-> (d, r) ∈ l /\ (d = c -> f r = false) \/ d = c /\ r = t /\ exists r0, (c, r0) ∈ l /\ f r0 = true.
Proof.
  unfold resolve. rewrite list_elem_of_fmap. split.
  - intros ([d0 r0] & Heq & Hin). cbn in Heq. destruct (d0 =? c)%nat eqn:Hd; cbn in Heq; [apply Nat.eqb_eq in Hd; subst d0|].
    + destruct (f r0) eqn:Hf; cbn in Heq; inversion Heq; subst; [right; eauto|left; eauto].
    + inversion Heq; subst. apply Nat.eqb_neq in Hd. left. split; [done|]. by intros ->.
  - intros [[Hin Hf]|(-> & -> & r0 & Hin & Hf)].
    + exists (d, r). split; [|done]. cbn. destruct (d =? c)%nat eqn:Hd; [|done]. apply Nat.eqb_eq in Hd. by rewrite (Hf Hd).
    + exists (c, r0). split; [|done]. cbn. by rewrite Nat.eqb_refl, Hf.
Qed.

Lemma recorded_spec f c l : recorded f c l = true <-> exists r, (c, r) ∈ l /\ f r = true.
Proof.
  unfold recorded. rewrite existsb_exists. split.
  - intros ([d r] & Hin & Hb). apply andb_prop in Hb as [Hd Hf]. cbn in *. apply Nat.eqb_eq in Hd as ->. exists r. by rewrite list_elem_of_In.
  - intros (r & Hin & Hf). exists (c, r). rewrite <- list_elem_of_In. cbn. by rewrite Nat.eqb_refl, Hf.
Qed.

Lemma mark_first_spec l c l' :
  mark_first l = Some (c, l') ->
  exists l1 l2, l = l1 ++ (c, OwnerDestroyedAwaitingBaseRollback) :: l2 /\ l' = l1 ++ (c, BaseRollbackInProgress) :: l2.
Proof.
  revert c l'. induction l as [|[d r] l IH]; intros c l'; cbn [mark_first]; [done|].
  destruct (mark_first l) as [[x m]|]; destruct r; try done; intros [= <- <-].
  all: try by (exists [], l).
  all: destruct (IH _ _ eq_refl) as (l1 & l2 & -> & ->); by eexists (_ :: l1), l2.
Qed.

Lemma mark_first_none l d : mark_first l = None -> (d, OwnerDestroyedAwaitingBaseRollback) ∉ l.
Proof.
  induction l as [|[e r] l IH]; cbn [mark_first]; [set_solver|].
  destruct r; destruct (mark_first l) as [[x m]|]; try done; intros _ [[=]|Hin]%elem_of_cons; by apply IH.
Qed.

(** A worker in a server: [own] says to which worker a name belongs, [mine] which
    connections of the worker are in the map. *)
Record worker_ok (own : nat -> nat) (i : nat) (st : bool) (next : nat) (mine : nat -> Prop) (w : Worker) : Prop := {
  ok_place : forall c o, objects w !! c = Some o -> cstate o <> Disconnected -> mine c \/ (c, DestroyOnOwner) ∈ records w;
  ok_pending : generation (participant w) <> 0 -> ackReported (participant w) = false ->
    forall c o, objects w !! c = Some o -> cstate o <> Disconnected -> c ∈ connections (participant w) -> c ∈ pendingConnectionNames (participant w);
  ok_assigned : generation (participant w) <> 0 -> forall c, mine c -> baseReleased (participant w) = false /\ c ∈ connections (participant w);
  ok_quiet : locallyQuiet (participant w) = true -> pendingConnectionNames (participant w) = [];
  ok_signal : attached w = true -> existsb for_owner (records w) = true -> signalled w = true \/ Drain ∈ todo w;
  ok_detached : attached w = false -> records w = [] /\ generation (participant w) <> 0;
  ok_ack : ackReported (participant w) = true -> records w = [] /\ baseReleased (participant w) = true /\ generation (participant w) <> 0;
  ok_finish : forall g a n, Finish g a n true ∈ todo w -> records w = [] /\ generation (participant w) <> 0;
  ok_gen : generation (participant w) <> 0 -> st = true;
  ok_destroyed : forall c r o, (c, r) ∈ records w -> r = OwnerDestroyedAwaitingBaseRollback \/ r = BaseRollbackInProgress -> objects w !! c = Some o -> gone o;
  ok_records : forall c r, (c, r) ∈ records w -> own c = i /\ c < next;
  ok_functors : forall c b, Establish c b ∈ functors w -> own c = i /\ c < next;
  ok_objects : forall c o, objects w !! c = Some o -> own c = i /\ c < next;
  ok_connections : forall c, c ∈ connections (participant w) -> own c = i /\ c < next;
}.

(** What another thread may rely on when a worker moves. *)
Record worker_frame (w w' : Worker) : Prop := {
  fr_some : forall c o, objects w !! c = Some o -> exists o', objects w' !! c = Some o' /\ (gone o -> gone o');
  fr_none : forall c, objects w !! c = None -> objects w' !! c = None;
  fr_functors : forall t, t ∈ functors w' -> t ∈ functors w;
  fr_progress : forall c, (c, BaseRollbackInProgress) ∈ records w -> (c, BaseRollbackInProgress) ∈ records w';
  fr_fresh : forall c, (forall b, Establish c b ∉ functors w) -> (forall r, (c, r) ∈ records w -> unresolved r = true) ->
    forall r, (c, r) ∈ records w' <-> (c, r) ∈ records w;
}.

(** *** Primitive changes of a worker *)

(** Connections move on, and are never forgotten. *)
Definition evolves (m m' : gmap nat ConnObject) : Prop :=
  forall c, match m !! c, m' !! c with Some o, Some o' => gone o -> gone o' | None, None => True | _, _ => False end.

Lemma objects_evolve_refl m : evolves m m.
Proof. intros c. by destruct (m !! c). Qed.

Lemma objects_evolve_trans m1 m2 m3 : evolves m1 m2 -> evolves m2 m3 -> evolves m1 m3.
Proof. intros H12 H23 c. specialize (H12 c). specialize (H23 c). destruct (m1 !! c), (m2 !! c), (m3 !! c); naive_solver. Qed.

Lemma evolves_alter f c m : (forall o, gone o -> gone (f o)) -> evolves m (alter f c m).
Proof. intros Hf d. destruct (decide (d = c)) as [->|]; [rewrite lookup_alter_eq|rewrite lookup_alter_ne by done]; destruct (m !! _); cbn; auto. Qed.

Lemma evolves_insert c o o' m : m !! c = Some o -> (gone o -> gone o') -> evolves m (<[c:=o']> m).
Proof. intros Hc Ho d. destruct (decide (d = c)) as [->|]; [rewrite lookup_insert_eq, Hc; auto|rewrite lookup_insert_ne by done; by destruct (m !! d)]. Qed.

Lemma evolves_back m m' c o' : evolves m m' -> m' !! c = Some o' -> exists o, m !! c = Some o /\ (gone o -> gone o').
Proof. intros H Hc. specialize (H c). rewrite Hc in H. destruct (m !! c); naive_solver. Qed.

Lemma evolves_forth m m' c o : evolves m m' -> m !! c = Some o -> exists o', m' !! c = Some o' /\ (gone o -> gone o').
Proof. intros H Hc. specialize (H c). rewrite Hc in H. destruct (m' !! c); naive_solver. Qed.

Lemma evolves_none m m' c : evolves m m' -> m !! c = None -> m' !! c = None.
Proof. intros H Hc. specialize (H c). rewrite Hc in H. by destruct (m' !! c). Qed.

#[local] Hint Resolve objects_evolve_refl evolves_alter : core.

Section Worker.
Context (own : nat -> nat) (i : nat) (st : bool) (next : nat).
Implicit Types (mine : nat -> Prop) (w : Worker).

Lemma ok_set_objects mine m w : evolves (objects w) m -> worker_ok own i st next mine w -> worker_ok own i st next mine (set_objects m w).
Proof.
  intros Hm []; split; cbn; try done.
  - intros c o Hc Ho. destruct (evolves_back _ _ _ _ Hm Hc) as (o1 & Ho1 & ?). eapply ok_place0; eauto.
  - intros ?? c o Hc Ho ?. destruct (evolves_back _ _ _ _ Hm Hc) as (o1 & Ho1 & ?). eapply ok_pending0; eauto.
  - intros c r o Hr Hres Hc. destruct (evolves_back _ _ _ _ Hm Hc) as (o1 & Ho1 & ?). eauto.
  - intros c o Hc. destruct (evolves_back _ _ _ _ Hm Hc) as (o1 & Ho1 & ?). eauto.
Qed.

Lemma ok_set_ops mine l w :
  (forall g a n, Finish g a n true ∈ l -> Finish g a n true ∈ todo w \/ records w = [] /\ generation (participant w) <> 0) ->
  (existsb for_owner (records w) = true -> Drain ∈ todo w -> signalled w = true \/ Drain ∈ l) ->
  worker_ok own i st next mine w -> worker_ok own i st next mine (set_ops l w).
Proof.
  intros Hf Hd []; split; cbn; try done.
  - intros Ha He. destruct (ok_signal0 Ha He); auto.
  - intros g a n Hin. destruct (Hf _ _ _ Hin); eauto.
Qed.

Lemma ok_push mine l w :
  (forall g a n, Finish g a n true ∈ l -> records w = [] /\ generation (participant w) <> 0) ->
  worker_ok own i st next mine w -> worker_ok own i st next mine (push l w).
Proof.
  intros Hf H. apply ok_set_ops; [| |done].
  - intros g a n [Hin|Hin]%elem_of_app; eauto.
  - intros _ Hin. right. set_solver.
Qed.

Lemma ok_set_signalled mine w : worker_ok own i st next mine w -> worker_ok own i st next mine (set_signalled true w).
Proof. intros []; split; cbn; auto. Qed.

Lemma ok_detach mine w : worker_ok own i st next mine w -> records w = [] -> generation (participant w) <> 0 -> worker_ok own i st next mine (set_attached false w).
Proof. intros [] Hr Hg. by split. Qed.

(** The part of a participant that the handshake moves. *)
Lemma ok_set_participant mine p w :
  worker_ok own i st next mine w ->
  establishmentRollbacks p = records w -> generation p = generation (participant w) -> connections p = connections (participant w) ->
  baseReleased p = baseReleased (participant w) -> ackReported p = ackReported (participant w) ->
  (ackReported p = false -> forall c o, objects w !! c = Some o -> cstate o <> Disconnected -> c ∈ pendingConnectionNames (participant w) -> c ∈ pendingConnectionNames p) ->
  (locallyQuiet p = true -> pendingConnectionNames p = []) ->
  worker_ok own i st next mine (set_participant p w).
Proof.
  intros [] Hr Hg Hc Hb Ha Hp Hq. split; cbn; rewrite ?Hr, ?Hg, ?Hc, ?Hb, ?Ha; try done.
  intros Hgen Hack c o Hlk Ho Hin. apply (Hp ltac:(congruence) c o Hlk Ho). by apply (ok_pending0 Hgen Hack c o).
Qed.

Lemma ok_with_quiet mine w : worker_ok own i st next mine w -> pendingConnectionNames (participant w) = [] -> worker_ok own i st next mine (set_participant (with_quiet (participant w)) w).
Proof. intros H Hp. by apply ok_set_participant. Qed.

(** A record is resolved. *)
Lemma ok_resolve mine f c t w :
  worker_ok own i st next mine w -> f DestroyOnOwner = false ->
  (for_owner (c, t) = true -> attached w = true -> recorded f c (records w) = true -> signalled w = true) ->
  (t = OwnerDestroyedAwaitingBaseRollback \/ t = BaseRollbackInProgress -> forall o, objects w !! c = Some o -> gone o) ->
  worker_ok own i st next mine (set_participant (with_rollbacks (resolve f c t (records w)) (participant w)) w).
Proof.
  intros [] Hd Hs Ho. assert (Hnil : records w = [] -> resolve f c t (records w) = []) by (by intros ->).
  split; cbn; try done.
  - intros d o Hlk Hne. destruct (ok_place0 d o Hlk Hne) as [|Hin]; [by left|right]. apply elem_of_resolve. left. done.
  - intros Hatt He. apply existsb_exists in He as ([d r] & Hin%list_elem_of_In & Hr). apply elem_of_resolve in Hin as [[Hin _]|(-> & -> & r0 & Hin & Hf)].
    + apply ok_signal0; [done|]. apply existsb_exists. exists (d, r). by rewrite <- list_elem_of_In.
    + left. apply Hs; [done|done|]. apply recorded_spec. eauto.
  - intros Hatt. destruct (ok_detached0 Hatt). auto.
  - intros Hack. destruct (ok_ack0 Hack) as (? & ? & ?). auto.
  - intros g a n Hin. destruct (ok_finish0 _ _ _ Hin). auto.
  - intros d r o Hin Hr Hlk. apply elem_of_resolve in Hin as [[Hin _]|(-> & -> & r0 & Hin & Hf)]; eauto.
  - intros d r Hin. apply elem_of_resolve in Hin as [[Hin _]|(-> & -> & r0 & Hin & Hf)]; eauto.
Qed.

End Worker.

(** *** Steps of a worker *)

Lemma frame_same w w' :
  evolves (objects w) (objects w') -> (forall t, t ∈ functors w' -> t ∈ functors w) -> records w' = records w -> worker_frame w w'.
Proof.
  intros Ho Hf Hr. split; rewrite ?Hr; try done.
  - intros c o Hc. by eapply evolves_forth.
  - intros c. by apply evolves_none.
Qed.

(** A step keeps the promises, and only closed connections are reported. *)
Definition keeps (own : nat -> nat) (i : nat) (st : bool) (next : nat) (mine : nat -> Prop) (w : Worker) (r : Worker * Message) : Prop :=
  worker_ok own i st next mine (fst r) /\ worker_frame w (fst r) /\
  (forall c, RemoveConnection c ∈ post_base (snd r) -> exists o, objects (fst r) !! c = Some o /\ gone o).

Section Steps.
Context (own : nat -> nat) (i : nat) (st : bool) (next : nat) (mine : nat -> Prop).
Abbreviation ok := (worker_ok own i st next mine).
Abbreviation keeps := (keeps own i st next mine).

Lemma keeps_silent w w' :
  ok w' -> evolves (objects w) (objects w') -> functors w' = functors w -> records w' = records w -> keeps w (w', silent).
Proof. intros Hok Ho Hf Hr. split; [done|]. split; [apply frame_same; [done|cbn; by rewrite Hf|done]|]. intros c. set_solver. Qed.

(** Only the message differs. *)
Lemma keeps_signal b w w' : keeps w (w', silent) -> keeps w (w', mkMessage b []).
Proof. intros (? & ? & ?). done. Qed.

Lemma connectDestroyed_keeps c w : ok w -> ok (connectDestroyed c w) /\ evolves (objects w) (objects (connectDestroyed c w)).
Proof. intros H. split; [apply ok_set_objects; [auto|done]|]. cbn. auto. Qed.

Lemma close_keeps c w : ok w -> keeps w (close c w).
Proof.
  intros H. unfold close. destruct (objects w !! c) as [o|] eqn:Hc; [|by apply keeps_silent].
  assert (Hev : evolves (objects w) (<[c:=set_state Disconnected o]> (objects w))) by by eapply evolves_insert.
  assert (Hok := ok_set_objects own i st next mine _ _ Hev H). destruct (callback o).
  - by apply keeps_silent.
  - split; [done|]. split; [by apply frame_same|]. intros d. cbn. rewrite list_elem_of_singleton. intros [= ->].
    eexists. rewrite lookup_insert_eq. done.
  - apply keeps_silent; [|done..]. apply ok_set_ops; [|set_solver|done]. cbn. intros g a n Hin. left. set_solver.
Qed.

Lemma tryForceClose_keeps c w : ok w -> keeps w (tryForceClose c w).
Proof.
  intros H. unfold tryForceClose. destruct (objects w !! c) as [o|]; [|by apply keeps_silent].
  destruct (is_open o); [by apply close_keeps|by apply keeps_silent].
Qed.

Lemma tryShutdown_keeps c w : ok w -> ok (tryShutdown c w) /\ evolves (objects w) (objects (tryShutdown c w)) /\ functors (tryShutdown c w) = functors w /\ records (tryShutdown c w) = records w.
Proof.
  intros H. unfold tryShutdown. destruct (objects w !! c) as [o|] eqn:Hc; [|auto].
  destruct (is_open o) eqn:Ho; [|auto].
  assert (Hev : evolves (objects w) (<[c:=set_state Closing o]> (objects w))).
  { eapply evolves_insert; [done|]. unfold is_open in Ho. by destruct (cstate o). }
  split; [by apply ok_set_objects|]. auto.
Qed.

(** A step that first moves the connections. *)
Lemma keeps_after w w1 r : evolves (objects w) (objects w1) -> functors w1 = functors w -> records w1 = records w -> keeps w1 r -> keeps w r.
Proof.
  intros Ho Hf Hr (Hok & [] & Hm). split; [done|]. split; [|done]. split.
  - intros c o Hc. destruct (evolves_forth _ _ _ _ Ho Hc) as (o1 & Ho1 & H1). destruct (fr_some0 _ _ Ho1) as (o2 & Ho2 & H2). eauto.
  - intros c Hc. eauto using evolves_none.
  - intros t Ht. rewrite <- Hf. auto.
  - intros c. rewrite <- Hr. auto.
  - intros c Hfr Hun r0. rewrite <- Hf in Hfr. rewrite <- Hr in Hun |- *. auto.
Qed.

Lemma install_keeps c g cmd w : ok w -> keeps w (install c g cmd w).
Proof.
  intros H. unfold install. set (w1 := set_objects _ w).
  assert (Hev : evolves (objects w) (objects w1)) by (cbn; auto).
  assert (H1 : ok w1) by (apply ok_set_objects; [cbn; auto|done]).
  apply (keeps_after w w1); [done..|]. destruct (objects w1 !! c) as [o|] eqn:Hc; [|by apply keeps_silent].
  assert (keeps w1 match cmd with Force => tryForceClose c w1 | _ => (tryShutdown c w1, silent) end).
  { destruct cmd; [| |by apply tryForceClose_keeps]; destruct (tryShutdown_keeps c w1 H1) as (? & ? & ? & ?); by apply keeps_silent. }
  destruct (cstate o); [done..|]. apply keeps_silent; [|done..]. apply ok_push; [|done]. intros ???. set_solver.
Qed.

Lemma closed_keeps c g w : ok w -> keeps w (workerConnectionClosed c g w).
Proof.
  intros H. unfold workerConnectionClosed. set (w1 := connectDestroyed c w).
  destruct (connectDestroyed_keeps c w H) as [H1 Hev]. fold w1 in H1, Hev. apply (keeps_after w w1); [done..|].
  destruct (_ || _); [by apply keeps_silent|]. destruct (negb _); [by apply keeps_silent|].
  set (p := participant w1). set (rest := filter _ _).
  assert (Hp : forall q, q = with_pending rest p -> (rest = [] -> ok (set_participant (with_quiet q) w1)) /\ (locallyQuiet p = false \/ rest = [] -> ok (set_participant q w1))).
  { assert (Hin : forall d o, objects w1 !! d = Some o -> cstate o <> Disconnected -> d ∈ pendingConnectionNames p -> d ∈ rest).
    { intros d o Hd Ho Hd'. apply list_elem_of_filter. split; [|done]. intros ->. cbn in Hd. rewrite lookup_alter_eq in Hd.
      destruct (objects w !! c); [|done]. cbn in Hd. by injection Hd as <-. }
    intros q ->. split; intros Hr; apply ok_set_participant; try done; cbn; try (by intros; eauto).
    intros Hl. destruct Hr as [Hr|Hr]; [|done]. change (locallyQuiet p = true) in Hl. congruence. }
  destruct (Hp _ eq_refl) as [Hq1 Hq2].
  assert (Hq : locallyQuiet p = false \/ rest = []).
  { destruct (locallyQuiet p) eqn:Hl; [right|by left]. assert (Hz := ok_quiet _ _ _ _ _ _ H1 Hl). change (pendingConnectionNames p = []) in Hz. unfold rest. by rewrite Hz. }
  destruct rest as [|x l].
  - apply keeps_signal, keeps_silent; [by apply Hq1|done..].
  - apply keeps_silent; [by apply Hq2|done..].
Qed.

Lemma drain_keeps rest w : ok w -> todo w = Drain :: rest -> keeps w (drain (set_ops rest w), silent).
Proof.
  intros H Ht. unfold drain. cbn [participant set_ops].
  assert (Hfin : forall g a n, Finish g a n true ∈ rest -> Finish g a n true ∈ todo w) by (rewrite Ht; set_solver).
  destruct (erase_first for_owner (records w)) as [[[c r] l]|] eqn:He.
  - destruct (erase_first_spec _ _ _ _ He) as [Hr Hl]. cbn in Hr.
    set (w1 := set_participant _ _).
    set (w2 := match r with DestroyOnOwner => connectDestroyed c w1 | _ => w1 end).
    assert (Hev : evolves (objects w) (objects w2)) by (destruct r; cbn; auto).
    assert (Hgone : r = DestroyOnOwner -> forall o, objects w2 !! c = Some o -> gone o).
    { intros -> o. cbn. rewrite lookup_alter_eq. destruct (objects w !! c); [|done]. by intros [= <-]. }
    assert (Hsame : participant w2 = with_rollbacks l (participant w) /\ todo w2 = rest /\ attached w2 = attached w /\ signalled w2 = signalled w /\ functors w2 = functors w) by by destruct r.
    destruct Hsame as (Hp & Htd & Ha & Hs & Hf).
    assert (Hsub : forall d t, (d, t) ∈ l -> (d, t) ∈ records w) by (intros; apply Hl; auto).
    split; [|split].
    + clearbody w2. destruct H. split; cbn; rewrite ?Hp, ?Ha, ?Hf, ?Htd; cbn; try done.
      * intros d o Hd Ho. destruct (evolves_back _ _ _ _ Hev Hd) as (o1 & Ho1 & Hg). destruct (ok_place0 d o1 Ho1 ltac:(auto)) as [|Hin]; [by left|right].
        apply Hl in Hin as [[= -> <-]|]; [|done]. by destruct Ho; apply Hgone.
      * intros Hgen Hack d o Hd Ho. destruct (evolves_back _ _ _ _ Hev Hd) as (o1 & Ho1 & Hg). eapply ok_pending0; eauto.
      * intros _ _. right. set_solver.
      * intros Hatt. destruct (ok_detached0 Hatt) as [Hnil ?]. rewrite Hnil in He. done.
      * intros Hack. destruct (ok_ack0 Hack) as (Hnil & ? & ?). rewrite Hnil in He. done.
      * intros g a n [Hin|Hin]%elem_of_cons; [done|]. destruct (ok_finish0 g a n (Hfin _ _ _ Hin)) as [Hnil ?]. rewrite Hnil in He. done.
      * intros d t o Hin Hres Hd. destruct (evolves_back _ _ _ _ Hev Hd) as (o1 & Ho1 & Hg). eauto.
      * intros d t Hin. eauto.
      * intros d o Hd. destruct (evolves_back _ _ _ _ Hev Hd) as (o1 & Ho1 & Hg). eauto.
    + clearbody w2. split; cbn; rewrite ?Hp, ?Hf; cbn; try done.
      * intros d o Hd. by eapply evolves_forth.
      * intros d. by apply evolves_none.
      * intros d Hin. apply Hl in Hin as [[= _ <-]|]; [done|done].
      * intros d _ Hun t. split; [apply Hsub|]. intros Hin. destruct (proj1 (Hl _) Hin) as [[= -> ->]|]; [|done].
        specialize (Hun _ Hin). by destruct r.
    + intros d. set_solver.
  - apply keeps_silent; [|auto|done..]. apply ok_push; [intros; set_solver|]. apply ok_set_ops; [by intros; left; eauto| |done].
    intros (x & Hx & Hf)%existsb_exists. apply list_elem_of_In in Hx. by rewrite (erase_first_none _ _ _ He Hx) in Hf.
Qed.

Lemma drive_keeps arming w : ok w -> keeps w (drive arming w, silent).
Proof.
  intros H. unfold drive. destruct (_ =? 0)%nat eqn:Hg.
  { destruct arming; (apply keeps_silent; [|auto|done..]); [by apply ok_set_signalled|done]. }
  apply Nat.eqb_neq in Hg. set (p0 := participant w) in *. set (forced := match command p0 with Force => true | _ => false end).
  set (p1 := with_issued _ _ _).
  assert (H1 : ok (set_participant p1 w)) by (apply ok_set_participant; try done; apply (ok_quiet _ _ _ _ _ _ H)).
  set (p2 := if bool_decide (pendingConnectionNames p1 = []) then with_quiet p1 else p1).
  assert (H2 : ok (set_participant p2 w) /\ establishmentRollbacks p2 = records w /\ generation p2 = generation p0).
  { subst p2. destruct (bool_decide _) eqn:Hq; [|done]. apply bool_decide_eq_true in Hq. split; [|done].
    exact (ok_with_quiet _ _ _ _ _ _ H1 Hq). }
  destruct H2 as (H2 & Hr2 & Hg2). set (ack := baseReleased p2 && _ && _ && _).
  assert (H3 : ok (set_participant (if ack then with_ack p2 else p2) w) /\ establishmentRollbacks (if ack then with_ack p2 else p2) = records w /\ (ack = true -> records w = [])).
  { destruct ack eqn:Hack; [|done]. subst ack. apply andb_prop in Hack as [[[Hb Hl]%andb_prop Hn%bool_decide_eq_true]%andb_prop _].
    split; [|by rewrite <- Hr2]. clearbody p2. destruct H2; cbn in *. split; cbn; rewrite ?Hg2; try done.
    - intros Hgen c Hc. destruct (ok_assigned0 ltac:(by rewrite Hg2) c Hc) as [Hb' _]. congruence.
    - by rewrite <- Hg2.
    - set_solver. }
  destruct H3 as (H3 & Hr3 & Hn). apply keeps_silent; [|auto|done|done]. apply ok_push; [|done].
  intros g a n Hin. cbn. assert (Ha : ack = true).
  { apply elem_of_app in Hin as [Hin|[Hin|Hin]%elem_of_app].
    - destruct (negb (callbacksInstalled p0)); [|by apply elem_of_nil in Hin]. apply list_elem_of_fmap in Hin as (? & ? & ?). done.
    - destruct (negb (negb (callbacksInstalled p0)) && forced && negb (forceIssued p0)); [|by apply elem_of_nil in Hin]. apply list_elem_of_fmap in Hin as (? & ? & ?). done.
    - by apply list_elem_of_singleton in Hin as [= _ _ _ ->]. }
  rewrite Hr3. split; [auto|]. by destruct ack; cbn; rewrite Hg2.
Qed.

Lemma finish_keeps g a n d w : ok w -> (d = true -> records w = [] /\ generation (participant w) <> 0) -> keeps w (finish g a n d w).
Proof.
  intros H Hd. unfold finish. set (quiet := _ && _). set (w1 := set_participant _ w).
  assert (H1 : ok w1 /\ records w1 = records w /\ generation (participant w1) = generation (participant w)).
  { subst w1. destruct quiet eqn:Hq.
    - apply andb_prop in Hq as [_ Hq%bool_decide_eq_true]. split; [by apply ok_with_quiet|done].
    - by destruct w. }
  destruct H1 as (H1 & Hr & Hg). apply keeps_signal, keeps_silent.
  - destruct d, a; try by repeat apply ok_set_signalled.
    all: destruct (Hd eq_refl) as [Hnil Hgen]; apply ok_detach; [solve [exact H1 | by apply ok_set_signalled]|by rewrite <- Hr in Hnil|by rewrite <- Hg in Hgen].
  - by destruct d, a.
  - by destruct d, a.
  - by destruct d, a.
Qed.

Lemma worker_op_keeps o rest w : ok w -> todo w = o :: rest -> keeps w (worker_op o (set_ops rest w)).
Proof.
  intros H Ht. destruct (decide (o = Drain)) as [->|Ho].
  { by apply drain_keeps. }
  assert (H1 : ok (set_ops rest w)).
  { apply ok_set_ops; [| |done]; rewrite Ht; intros; set_solver. }
  apply (keeps_after w (set_ops rest w)); [cbn; auto|done..|].
  destruct o; cbn [worker_op]; [done|by apply drive_keeps|by apply install_keeps|by apply tryForceClose_keeps| |by apply closed_keeps].
  apply finish_keeps; [done|]. intros ->. apply (ok_finish _ _ _ _ _ _ H generation0 arming0 notify). rewrite Ht. set_solver.
Qed.

End Steps.

Section WorkerStep.
Context (own : nat -> nat) (i : nat) (st : bool) (next : nat) (mine : nat -> Prop).
Abbreviation ok := (worker_ok own i st next mine).
Abbreviation keeps := (keeps own i st next mine).

Lemma ok_set_tasks l w : (forall t, t ∈ l -> t ∈ functors w) -> ok w -> ok (set_tasks l w).
Proof. intros Hl []; split; cbn; eauto. Qed.

Lemma frame_resolve f c t w w' :
  evolves (objects w) (objects w') -> (forall t, t ∈ functors w' -> t ∈ functors w) -> (exists b, Establish c b ∈ functors w) -> f BaseRollbackInProgress = false ->
  records w' = resolve f c t (records w) -> worker_frame w w'.
Proof.
  intros Ho Hf [b Hb] Hp Hr. split; [intros d o; by apply evolves_forth|intros d; by apply evolves_none|done|..]; rewrite ?Hr.
  - intros d Hd. apply elem_of_resolve. by left.
  - intros d Hd _ r. rewrite elem_of_resolve. split; [|intros Hin; left; split; [done|intros ->; by destruct (Hd b)]].
    intros [[? _]|(-> & _)]; [done|by destruct (Hd b)].
Qed.

Lemma worker_task_keeps t rest w : ok w -> functors w = t :: rest -> keeps w (worker_task t (set_tasks rest w)).
Proof.
  intros H Ht. assert (H1 : ok (set_tasks rest w)) by (apply ok_set_tasks; [rewrite Ht; set_solver|done]).
  assert (Hsub : forall t, t ∈ rest -> t ∈ functors w) by (rewrite Ht; set_solver).
  destruct t as [c [|]|c]; cbn [worker_task].
  - set (w1 := set_objects _ _).
    assert (Hev : evolves (objects w) (objects w1)) by (apply evolves_alter; intros [[] ?]; done).
    assert (H2 : ok w1) by (apply ok_set_objects; done).
    unfold resolveEstablishmentRollback. destruct (recorded _ _ _) eqn:Hrec.
    + split; [|split].
      * change (ok (set_participant (with_rollbacks (resolve unresolved c Disarmed (records (set_signalled true w1))) (participant w1)) (set_signalled true w1))).
        apply (ok_resolve own i st next mine unresolved c Disarmed (set_signalled true w1)); [by apply ok_set_signalled|done|done|by intros []].
      * eapply (frame_resolve unresolved c Disarmed); [done|done|exists true; rewrite Ht; set_solver|done|done].
      * intros d. set_solver.
    + split; [done|]. split; [by apply frame_same|]. intros d. set_solver.
  - set (w0 := set_objects _ _). unfold rollbackOwnerEstablishmentFailure. set (w1 := connectDestroyed c w0).
    assert (Hev0 : evolves (objects w) (objects w0)) by (apply evolves_alter; intros [[] ?]; done).
    assert (H2 : ok w0) by (apply ok_set_objects; done).
    destruct (connectDestroyed_keeps own i st next mine c w0 H2) as [H3 Hev1]. fold w1 in H3, Hev1.
    assert (Hev := objects_evolve_trans _ _ _ Hev0 Hev1).
    destruct (recorded _ _ _) eqn:Hrec.
    + split; [|split].
      * apply (ok_resolve own i st next mine awaiting c OwnerDestroyedAwaitingBaseRollback w1); [done|done|done|].
        intros _ o. cbn. rewrite lookup_alter_eq. destruct (alter _ _ _ !! _); [|done]. by intros [= <-].
      * eapply (frame_resolve awaiting c OwnerDestroyedAwaitingBaseRollback); [done|done|exists false; rewrite Ht; set_solver|done|done].
      * intros d. set_solver.
    + split; [done|]. split; [by apply frame_same|]. intros d. set_solver.
  - split; [by apply connectDestroyed_keeps|]. split; [apply frame_same; cbn; auto|]. intros d. set_solver.
Qed.

Lemma worker_step_keeps l w w' m : ok w -> worker_step l w = Some (w', m) -> keeps w (w', m).
Proof.
  intros H. unfold worker_step. destruct l, (todo w) as [|o rest] eqn:Ht; try done.
  - intros [= <-]. by apply worker_op_keeps.
  - destruct (signalled w && attached w) eqn:Hs; [|done]. intros [= <- <-].
    apply keeps_silent; [|cbn; auto|done..]. destruct H. split; cbn; try done.
    + intros. right. set_solver.
    + intros g a n. set_solver.
  - destruct (functors w) as [|t rest] eqn:Hf; [done|]. intros [= <-]. by apply worker_task_keeps.
  - destruct (objects w !! c) as [o|]; [|done]. destruct (is_open o); [|done]. intros [= <-]. by apply close_keeps.
Qed.

End WorkerStep.

(** ** The server *)

Definition mine (s : TcpServer) (i : nat) (c : nat) : Prop := connections_ s !! c = Some i.

(** A connection is being set up: what is left of [setup_ops], and what the worker knows. *)
Definition setup_phase (own : nat -> nat) (s : TcpServer) : Prop :=
  exists i c e k, base_todo s = drop k (setup_ops i c e) /\ i < length (workers s) /\ own c = i /\ c < nextConnId_ s /\ stopped_ s = false /\ joined s = false /\
    forall w, workers s !! i = Some w ->
      (forall b, Establish c b ∉ functors w) /\
      (if (k =? 0)%nat then forall r, (c, r) ∉ records w else (exists r, (c, r) ∈ records w) /\ forall r, (c, r) ∈ records w -> unresolved r = true) /\
      (k < 2 -> objects w !! c = None).

Definition results_ok (s : TcpServer) : Prop :=
  match gracefulStopState_ s with
  | None => results s = []
  | Some g => if completed g then exists r, results s = [r] /\ (joined s = true \/ outcome r = AlreadyStopped /\ stopped_ s = true) else results s = []
  end.

(** No roll-back is half-way. *)
Definition no_rolled (l : list BaseOp) : Prop := forall i c, RolledBack i c ∉ l.

Definition stop_ops (l : list BaseOp) : Prop := forall o, o ∈ l -> is_setup o = false.

Record world_ok (own : nat -> nat) (s : TcpServer) : Prop := {
  w_workers : forall i w, workers s !! i = Some w -> worker_ok own i (stopped_ s) (nextConnId_ s) (mine s i) w;
  w_map : forall c i, connections_ s !! c = Some i -> i < length (workers s) /\ own c = i /\ c < nextConnId_ s;
  w_remove : forall c, RemoveConnection c ∈ base_functors s -> exists w o, workers s !! own c = Some w /\ objects w !! c = Some o /\ gone o;
  w_phase : setup_phase own s \/ stop_ops (base_todo s);
  w_rolled : forall i c, RolledBack i c ∈ base_todo s -> exists w, workers s !! i = Some w /\ (c, BaseRollbackInProgress) ∈ records w;
  w_tail : no_rolled (tail (base_todo s));
  w_join : Join ∈ base_todo s \/ JoinDrained ∈ base_todo s -> connections_ s = ∅;
  w_joined : joined s = true -> stop_ops (base_todo s) /\ connections_ s = ∅ /\ forall i w c o, workers s !! i = Some w -> objects w !! c = Some o -> gone o;
  w_gen : nextStopGeneration_ s <> 0 /\ forall a, aggregateStopState_ s = Some a -> a_generation a <> 0 /\ stopped_ s = true;
  w_results : results_ok s;
}.

(** A worker does not notice what does not concern it. *)
Lemma ok_env own own' i st st' next next' (mine mine' : nat -> Prop) w :
  (forall c, c < next -> own' c = own c) -> next <= next' -> (st = true -> st' = true) ->
  (forall c, mine' c -> mine c) -> (forall c o, objects w !! c = Some o -> cstate o <> Disconnected -> mine c -> mine' c \/ (c, DestroyOnOwner) ∈ records w) ->
  worker_ok own i st next mine w -> worker_ok own' i st' next' mine' w.
Proof.
  intros Hown Hnext Hst Hsub Hsup []. assert (Hkey : forall c, own c = i /\ c < next -> own' c = i /\ c < next') by (intros c [<- Hc]; rewrite Hown by done; lia).
  split; try done; eauto.
  intros c o Hc Ho. destruct (ok_place0 c o Hc Ho); eauto.
Qed.

(** A step of the stop protocol, by its effect on the workers and on the base loop. *)
Lemma world_stop own s s' :
  world_ok own s ->
  length (workers s') = length (workers s) ->
  (forall j w', workers s' !! j = Some w' -> exists w, workers s !! j = Some w /\ worker_ok own j (stopped_ s') (nextConnId_ s) (mine s' j) w' /\ evolves (objects w) (objects w')) ->
  (forall c i, connections_ s' !! c = Some i -> connections_ s !! c = Some i) ->
  nextConnId_ s' = nextConnId_ s -> joined s' = joined s ->
  (forall c, RemoveConnection c ∈ base_functors s' -> RemoveConnection c ∈ base_functors s \/ exists w o, workers s' !! own c = Some w /\ objects w !! c = Some o /\ gone o) ->
  stop_ops (base_todo s') ->
  (forall i c, RolledBack i c ∈ base_todo s' -> exists w, workers s' !! i = Some w /\ (c, BaseRollbackInProgress) ∈ records w) ->
  no_rolled (tail (base_todo s')) ->
  (Join ∈ base_todo s' \/ JoinDrained ∈ base_todo s' -> connections_ s' = ∅) ->
  nextStopGeneration_ s' <> 0 -> (forall a, aggregateStopState_ s' = Some a -> a_generation a <> 0 /\ stopped_ s' = true) ->
  results_ok s' ->
  world_ok own s'.
Proof.
  intros H Hlen Hw Hc Hn Hj Hf Ht Hr Htl Hjoin Hg Ha Hres. split; try done; [..|].
  - intros j w' Hj'. rewrite Hn. by destruct (Hw _ _ Hj') as (w & _ & ? & _).
  - intros c i Hci. rewrite Hlen, Hn. by apply (w_map _ _ H c i), Hc.
  - intros c Hin. destruct (Hf c Hin) as [Hin'|?]; [|done]. destruct (w_remove _ _ H c Hin') as (w & o & Hw0 & Ho & Hgone).
    destruct (workers s' !! own c) as [w'|] eqn:Hw'.
    + destruct (Hw _ _ Hw') as (w1 & Hw1 & _ & Hev). rewrite Hw0 in Hw1. injection Hw1 as <-.
      destruct (evolves_forth _ _ _ _ Hev Ho) as (o' & ? & ?). eauto 10.
    + apply lookup_ge_None in Hw'. apply lookup_lt_Some in Hw0. lia.
  - by right.
  - rewrite Hj. intros Hjo. destruct (w_joined _ _ H Hjo) as (_ & Hempty & Hall). split; [done|]. split.
    + apply map_empty. intros c. destruct (connections_ s' !! c) eqn:Hcc; [|done]. apply Hc in Hcc. rewrite Hempty in Hcc. done.
    + intros i w' c o Hw' Ho. destruct (Hw _ _ Hw') as (w & Hw0 & _ & Hev). destruct (evolves_back _ _ _ _ Hev Ho) as (o0 & Ho0 & Hgg). eauto.
Qed.

(** The workers and the map stay. *)
Lemma world_control own s s' :
  world_ok own s ->
  workers s' = workers s -> connections_ s' = connections_ s -> nextConnId_ s' = nextConnId_ s -> joined s' = joined s ->
  (stopped_ s = true -> stopped_ s' = true) ->
  (forall c, RemoveConnection c ∈ base_functors s' -> RemoveConnection c ∈ base_functors s) ->
  stop_ops (base_todo s') ->
  no_rolled (base_todo s') ->
  (Join ∈ base_todo s' \/ JoinDrained ∈ base_todo s' -> Join ∈ base_todo s \/ JoinDrained ∈ base_todo s \/ connections_ s = ∅) ->
  nextStopGeneration_ s' <> 0 -> (forall a, aggregateStopState_ s' = Some a -> a_generation a <> 0 /\ stopped_ s' = true) ->
  results_ok s' ->
  world_ok own s'.
Proof.
  intros H Hw Hc Hn Hj Hs Hf Ht Hr Hjoin Hg Ha Hres. apply (world_stop own s); try done; rewrite ?Hw, ?Hc; auto.
  - intros j w Hjw. exists w. split; [done|]. split; [|auto]. eapply ok_env; [..|by apply (w_workers _ _ H)]; auto; unfold mine; rewrite Hc; auto.
  - intros i c Hin. by destruct (Hr i c).
  - intros i c Hin. apply (Hr i c). destruct (base_todo s'); [done|]. by right.
  - intros Hin. destruct (Hjoin Hin) as [?|[?|?]]; [apply (w_join _ _ H); auto..|done].
Qed.

(** *** Steps of the stop protocol *)

Lemma stop_ops_app l1 l2 : stop_ops l1 -> stop_ops l2 -> stop_ops (l1 ++ l2).
Proof. intros H1 H2 o [Ho|Ho]%elem_of_app; auto. Qed.

Lemma stop_ops_map (f : nat -> BaseOp) (l : list nat) : (forall i, is_setup (f i) = false) -> stop_ops (f <$> l).
Proof. intros Hf o (i & -> & _)%list_elem_of_fmap. apply Hf. Qed.

Lemma not_in_map (f : nat -> BaseOp) (l : list nat) o : (forall i, f i <> o) -> o ∉ f <$> l.
Proof. intros Hf (i & Hi & _)%list_elem_of_fmap. by apply (Hf i). Qed.

(** Operations that neither join nor finish a roll-back. *)
Definition plain (l : list BaseOp) : Prop := forall o, o ∈ l -> match o with Join | JoinDrained | RolledBack _ _ => False | _ => is_setup o = false end.

Lemma plain_nil : plain [].
Proof. by intros o Ho%elem_of_nil. Qed.

Lemma plain_app l1 l2 : plain l1 -> plain l2 -> plain (l1 ++ l2).
Proof. intros H1 H2 o [Ho|Ho]%elem_of_app; [by apply H1|by apply H2]. Qed.

Lemma plain_map (f : nat -> BaseOp) (l : list nat) : (forall i, match f i with Join | JoinDrained | RolledBack _ _ => False | _ => is_setup (f i) = false end) -> plain (f <$> l).
Proof. intros Hf o (i & -> & _)%list_elem_of_fmap. apply Hf. Qed.

Lemma results_ok_stopped s s' :
  results_ok s -> gracefulStopState_ s' = gracefulStopState_ s -> results s' = results s ->
  (joined s = true -> joined s' = true) -> (stopped_ s = true -> stopped_ s' = true) -> results_ok s'.
Proof. unfold results_ok. intros H -> -> Hj Hs. destruct (gracefulStopState_ s) as [g|]; [|done]. destruct (completed g); [|done]. naive_solver. Qed.

(** Only control moves, and plain operations are added. *)
Record control_step (s s' : TcpServer) : Prop := {
  cs_workers : workers s' = workers s;
  cs_connections : connections_ s' = connections_ s;
  cs_next : nextConnId_ s' = nextConnId_ s;
  cs_joined : joined s' = joined s;
  cs_stopped : stopped_ s = true -> stopped_ s' = true;
  cs_functors : base_functors s' = base_functors s;
  cs_todo : exists l, plain l /\ base_todo s' = l ++ base_todo s;
  cs_gen : nextStopGeneration_ s <= nextStopGeneration_ s';
  cs_aggregate : forall a', aggregateStopState_ s' = Some a' ->
    (exists a, aggregateStopState_ s = Some a /\ a_generation a' = a_generation a) \/ a_generation a' = nextStopGeneration_ s /\ stopped_ s' = true;
  cs_results : results_ok s -> results_ok s';
}.

Ltac same_control := split; try done; try (by exists []; split; [apply plain_nil|]); try (cbn; lia); try (by intros a Ha; left; eauto).

Lemma control_refl s : control_step s s.
Proof. same_control. Qed.

Lemma control_trans s1 s2 s3 : control_step s1 s2 -> control_step s2 s3 -> nextStopGeneration_ s1 = nextStopGeneration_ s2 -> control_step s1 s3.
Proof.
  intros [] [] Hn. split; try congruence; [auto|..|auto].
  - destruct cs_todo0 as (l1 & Hl1 & Ht1), cs_todo1 as (l2 & Hl2 & Ht2). rewrite Ht2, Ht1. exists (l2 ++ l1). split; [by apply plain_app|by rewrite app_assoc].
  - intros a3 Ha3. destruct (cs_aggregate1 _ Ha3) as [(a2 & Ha2 & Hg)|[? ?]]; [|right; split; congruence].
    destruct (cs_aggregate0 _ Ha2) as [(a1 & Ha1 & Hg1)|[? ?]]; [left; exists a1; split; congruence|right; split; [congruence|auto]].
Qed.

Lemma world_control_step own s s' : world_ok own s -> stop_ops (base_todo s) -> no_rolled (base_todo s) -> control_step s s' -> world_ok own s'.
Proof.
  intros H Hs Hnr []. destruct cs_todo0 as (l & Hl & Ht). apply (world_control own s); try done; rewrite ?Ht.
  - by rewrite cs_functors0.
  - apply stop_ops_app; [|done]. intros o Ho. specialize (Hl o Ho). by destruct o.
  - intros i c [Hin|Hin]%elem_of_app; [by destruct (Hl _ Hin)|by apply (Hnr i c)].
  - rewrite !elem_of_app. intros [[Hin|?]|[Hin|?]]; [by destruct (Hl _ Hin)|auto|by destruct (Hl _ Hin)|auto].
  - destruct (w_gen _ _ H). lia.
  - intros a Ha. destruct (w_gen _ _ H) as [Hn Hg]. destruct (cs_aggregate0 _ Ha) as [(a1 & Ha1 & ->)|[-> ?]]; [destruct (Hg _ Ha1); auto|done].
  - apply cs_results0, (w_results _ _ H).
Qed.

(** The graceful state may change as long as it is not completed. *)
Lemma control_graceful s g g' :
  gracefulStopState_ s = Some g -> completed g' = completed g -> control_step s (set_graceful (Some g') s).
Proof.
  intros Hg Hc. same_control.
  unfold results_ok. cbn. by rewrite Hg, Hc.
Qed.

Lemma control_push s l : plain l -> control_step s (base_push l s).
Proof. intros Hl. same_control. by exists l. Qed.

Lemma control_requests s im sg d : control_step s (set_requests im sg d s).
Proof. same_control. Qed.

Lemma control_aggregate s a a' r : aggregateStopState_ s = Some a -> a_generation a' = a_generation a -> control_step s (set_aggregate (stopped_ s) (nextStopGeneration_ s) (Some a') r s).
Proof. intros Ha Hg. same_control. cbn. intros ? [= <-]. left. eauto. Qed.

Lemma control_begin s graceful o force : control_step s (beginAggregateStopInLoop graceful o force s).
Proof.
  same_control; cbn.
  - eexists. split; [|done]. apply plain_map. done.
  - intros a [= <-]. right. done.
  - intros H. eapply results_ok_stopped; [exact H|done..].
Qed.

Lemma control_force o s : control_step s (requestAggregateForceInLoop o s).
Proof.
  unfold requestAggregateForceInLoop. destruct (aggregateStopState_ s) as [a|] eqn:Ha; [|apply control_refl].
  destruct (a_joined a); [apply control_refl|]. set (s1 := set_aggregate _ _ _ _ _).
  assert (H1 : control_step s s1) by by eapply control_aggregate.
  destruct (a_forceStarted a); [done|].
  set (s2 := match gracefulState a with true => _ | false => _ end).
  assert (H2 : control_step s1 s2 /\ nextStopGeneration_ s2 = nextStopGeneration_ s1).
  { subst s2. destruct (gracefulState a); [|split; [apply control_refl|done]].
    destruct (gracefulStopState_ s1) as [g|] eqn:Hg; [|split; [apply control_refl|done]]. split; [|done]. by eapply control_graceful. }
  eapply control_trans; [exact H1| |done]. eapply control_trans; [apply H2| |by rewrite (proj2 H2)].
  apply control_push, plain_map. done.
Qed.

Lemma control_forceGraceful g o s : gracefulStopState_ s = Some g \/ (exists g0, gracefulStopState_ s = Some g0 /\ completed g0 = completed g) -> control_step s (forceGracefulStopInLoop g o s).
Proof.
  intros Hg. unfold forceGracefulStopInLoop. destruct (completed g || forceStarted g) eqn:Hc; [apply control_refl|].
  eapply control_trans; [|apply control_force|done].
  destruct Hg as [Hg|(g0 & Hg & H0)]; by eapply control_graceful.
Qed.

Lemma complete_open s r g : gracefulStopState_ s = Some g -> joined s = true \/ outcome r = AlreadyStopped /\ stopped_ s = true -> control_step s (complete r s).
Proof.
  intros Hg Hr. unfold complete. rewrite Hg. destruct (completed g) eqn:Hc; [apply control_refl|].
  same_control. unfold results_ok. rewrite Hg, Hc. cbn. intros ->. eauto.
Qed.

Lemma control_complete s r : joined s = true \/ outcome r = AlreadyStopped /\ stopped_ s = true -> control_step s (complete r s).
Proof.
  intros Hr. destruct (gracefulStopState_ s) as [g|] eqn:Hg; [by eapply complete_open|]. unfold complete. rewrite Hg. apply control_refl.
Qed.

Lemma control_timer s : control_step s (stop_timer s).
Proof. unfold stop_timer. destruct (gracefulStopState_ s) as [g|] eqn:Hg; [by eapply control_graceful|apply control_refl]. Qed.

Lemma control_beginGraceful g s : gracefulStopState_ s = Some g -> control_step s (beginGracefulStopInLoop g s).
Proof.
  intros Hg. unfold beginGracefulStopInLoop. destruct (completed g) eqn:Hc; [apply control_refl|].
  destruct (stopped_ s) eqn:Hst; [apply control_complete; by right|].
  eapply control_trans; [|apply control_begin|done]. eapply control_trans; [|apply control_push|done].
  - eapply control_graceful; [exact Hg|by rewrite Hc].
  - intros o ->%list_elem_of_singleton. done.
Qed.

Lemma results_ok_joined s s' : results_ok s -> gracefulStopState_ s' = gracefulStopState_ s -> results s' = results s -> stopped_ s' = stopped_ s -> (joined s = true -> joined s' = true) -> results_ok s'.
Proof. intros H Hg Hr Hs Hj. eapply results_ok_stopped; [exact H|done..|congruence]. Qed.

(** The next operation of the stop protocol is taken. *)
Lemma world_pop own s o rest :
  world_ok own s -> base_todo s = o :: rest -> is_setup o = false -> world_ok own (set_todo rest s) /\ stop_ops rest /\ no_rolled rest.
Proof.
  intros H Ht Ho. assert (Hs : stop_ops rest).
  { destruct (w_phase _ _ H) as [(i & c & e & k & Htd & _)|Hs].
    - exfalso. assert (Hin : o ∈ setup_ops i c e) by (rewrite <- (take_drop k (setup_ops i c e)), <- Htd, Ht; set_solver).
      unfold setup_ops in Hin. destruct e; repeat (apply elem_of_cons in Hin as [->|Hin]; [done|]); by apply elem_of_nil in Hin.
    - rewrite Ht in Hs. intros x Hx. apply Hs. by right. }
  assert (Hnr : no_rolled rest) by (pose proof (w_tail _ _ H) as Htl; by rewrite Ht in Htl).
  split; [|done]. apply (world_control own s); try done; cbn; auto; rewrite ?Ht.
  - intros [?|?]; [left|right; left]; by right.
  - by destruct (w_gen _ _ H).
  - by destruct (w_gen _ _ H).
  - by apply (w_results _ _ H).
Qed.

(** A worker is changed by the base loop. *)
Lemma world_update own i f s :
  world_ok own s -> stop_ops (base_todo s) -> no_rolled (base_todo s) ->
  (forall w, workers s !! i = Some w -> worker_ok own i (stopped_ s) (nextConnId_ s) (mine s i) w ->
     worker_ok own i (stopped_ s) (nextConnId_ s) (mine s i) (f w) /\ evolves (objects w) (objects (f w))) ->
  world_ok own (update_worker i f s).
Proof.
  intros H Hs Hnr Hf. apply (world_stop own s); try done; cbn; auto.
  - by rewrite length_alter.
  - intros j w' Hj. destruct (decide (j = i)) as [->|Hne].
    + rewrite list_lookup_alter_eq in Hj. destruct (workers s !! i) as [w|] eqn:Hw; [|done]. injection Hj as <-.
      exists w. split; [done|]. apply Hf; [done|]. by apply (w_workers _ _ H).
    + rewrite list_lookup_alter_ne in Hj by done. exists w'. split; [done|]. split; [by apply (w_workers _ _ H)|auto].
  - intros j c Hin. by destruct (Hnr j c).
  - intros j c Hin. apply (Hnr j c). destruct (base_todo s); [done|]. by right.
  - apply (w_join _ _ H).
  - by destruct (w_gen _ _ H).
  - by destruct (w_gen _ _ H).
  - by apply (w_results _ _ H).
Qed.

(** The map loses connections of a worker that have closed. *)
Lemma world_shrink own i f m s :
  world_ok own s -> stop_ops (base_todo s) -> no_rolled (base_todo s) -> i < length (workers s) ->
  (forall c, match m !! c with Some j => connections_ s !! c = Some j | None => True end) ->
  (forall c j, connections_ s !! c = Some j -> m !! c = None -> own c = i) ->
  (forall w, workers s !! i = Some w -> worker_ok own i (stopped_ s) (nextConnId_ s) (mine s i) w ->
     worker_ok own i (stopped_ s) (nextConnId_ s) (fun c => m !! c = Some i) (f w) /\ evolves (objects w) (objects (f w))) ->
  world_ok own (update_worker i f (set_connections (fun _ => m) s)).
Proof.
  intros H Hs Hnr Hi Hm Hown Hf.
  assert (Hsub : forall c j, m !! c = Some j -> connections_ s !! c = Some j) by (intros c j Hc; specialize (Hm c); by rewrite Hc in Hm).
  apply (world_stop own s); try done; cbn; auto.
  - by rewrite length_alter.
  - intros j w' Hj. destruct (decide (j = i)) as [->|Hne].
    + rewrite list_lookup_alter_eq in Hj. destruct (workers s !! i) as [w|] eqn:Hw; [|done]. injection Hj as <-.
      exists w. split; [done|]. apply Hf; [done|]. by apply (w_workers _ _ H).
    + rewrite list_lookup_alter_ne in Hj by done. exists w'. split; [done|]. split; [|auto].
      eapply ok_env; [..|by apply (w_workers _ _ H)]; auto; unfold mine; cbn; auto.
      intros c o Hc Ho Hmine. left. destruct (m !! c) as [k|] eqn:Hk; [apply Hsub in Hk; congruence|].
      exfalso. apply Hne. destruct (w_map _ _ H _ _ Hmine) as (_ & <- & _). by eapply Hown.
  - intros j c Hin. by destruct (Hnr j c).
  - intros j c Hin. apply (Hnr j c). destruct (base_todo s); [done|]. by right.
  - intros Hin. apply map_empty. intros c. destruct (m !! c) as [k|] eqn:Hk; [|done]. apply Hsub in Hk. by rewrite (w_join _ _ H Hin) in Hk.
  - by destruct (w_gen _ _ H).
  - by destruct (w_gen _ _ H).
  - by apply (w_results _ _ H).
Qed.

Lemma elem_of_connections_of i s c : c ∈ connections_of i s <-> mine s i c.
Proof.
  unfold connections_of, mine. rewrite list_elem_of_fmap. split.
  - intros ([d j] & -> & Hin). apply list_elem_of_filter in Hin as [Hj Hin]. cbn in Hj. subst j. by apply elem_of_map_to_list in Hin.
  - intros Hc. exists (c, i). split; [done|]. apply list_elem_of_filter. split; [done|]. by apply elem_of_map_to_list.
Qed.

Lemma assign_ok own i s g force w :
  world_ok own s -> stopped_ s = true -> g <> 0 ->
  worker_ok own i (stopped_ s) (nextConnId_ s) (mine s i) w -> worker_ok own i (stopped_ s) (nextConnId_ s) (mine s i) (assign g force (connections_of i s) w).
Proof.
  intros H Hst Hg []. unfold assign. split; cbn; try done.
  - intros _ c Hc. split; [done|]. by apply elem_of_connections_of.
  - apply bool_decide_eq_true.
  - auto.
  - intros Ha. destruct (ok_detached0 Ha). auto.
  - intros g' a n Hin. destruct (ok_finish0 g' a n Hin). auto.
  - intros c Hc%elem_of_connections_of. destruct (w_map _ _ H _ _ Hc) as (_ & ? & ?). auto.
Qed.

Lemma force_worker_ok own i st next mine g w : worker_ok own i st next mine w -> worker_ok own i st next mine (force_worker g w).
Proof.
  intros H. unfold force_worker. destruct (_ || _); [done|].
  assert (worker_ok own i st next mine (set_signalled true (set_participant (with_command Force (participant w)) w))).
  { apply ok_set_signalled, ok_set_participant; try done. apply (ok_quiet _ _ _ _ _ _ H). }
  by destruct (command (participant w)).
Qed.

Lemma world_mark_ok own i st next mine w c l :
  mark_first (records w) = Some (c, l) -> worker_ok own i st next mine w -> worker_ok own i st next mine (set_participant (with_rollbacks l (participant w)) w).
Proof.
  intros Hm H. destruct (mark_first_spec _ _ _ Hm) as (l1 & l2 & Hr & ->).
  assert (Hin : forall d r, (d, r) ∈ l1 ++ (c, BaseRollbackInProgress) :: l2 -> r <> BaseRollbackInProgress -> (d, r) ∈ records w).
  { intros d r Hd Hne. rewrite Hr. set_solver. }
  assert (Hback : forall d r, (d, r) ∈ records w -> r <> OwnerDestroyedAwaitingBaseRollback -> (d, r) ∈ l1 ++ (c, BaseRollbackInProgress) :: l2).
  { intros d r Hd Hne. rewrite Hr in Hd. set_solver. }
  assert (Hnil : records w <> []) by (rewrite Hr; by destruct l1).
  assert (Hc : (c, OwnerDestroyedAwaitingBaseRollback) ∈ records w) by (rewrite Hr; set_solver).
  assert (Hsub : forall d r, (d, r) ∈ l1 ++ (c, BaseRollbackInProgress) :: l2 -> (d, r) ∈ records w \/ d = c).
  { intros d r Hd. rewrite Hr. set_solver. }
  destruct H. split; cbn; try done.
  - intros d o Hd Ho. destruct (ok_place0 d o Hd Ho); [by left|right]. by apply Hback.
  - intros Ha He. apply ok_signal0; [done|]. apply existsb_exists in He as ([d r] & Hd%list_elem_of_In & Hf). apply existsb_exists. exists (d, r).
    rewrite <- list_elem_of_In. split; [|done]. apply Hin; [done|]. by intros ->.
  - intros Ha. by destruct (ok_detached0 Ha).
  - intros Ha. by destruct (ok_ack0 Ha).
  - intros g a n Hd. by destruct (ok_finish0 g a n Hd).
  - intros d r o Hd Hres Ho. destruct (Hsub _ _ Hd) as [?| ->]; eauto.
  - intros d r Hd. destruct (Hsub _ _ Hd) as [?| ->]; eauto.
Qed.

Lemma rolled_back_world own i c rest s :
  world_ok own s -> base_todo s = RolledBack i c :: rest ->
  world_ok own (update_worker i (fun w => set_signalled true (set_participant (with_rollbacks (resolve in_progress c Disarmed (records w)) (participant w)) w)) (set_connections (delete c) (set_todo rest s))).
Proof.
  intros H Ht. destruct (world_pop _ _ _ _ H Ht eq_refl) as (H1 & Hs & Hnr).
  destruct (w_rolled _ _ H i c) as (w & Hw & Hin); [rewrite Ht; by left|].
  assert (Hok := w_workers _ _ H _ _ Hw). assert (Hown := ok_records _ _ _ _ _ _ Hok _ _ Hin).
  apply (world_shrink own i _ (delete c (connections_ s)) (set_todo rest s)); try done.
  - by eapply lookup_lt_Some.
  - intros d. destruct (delete c (connections_ s) !! d) eqn:Hd; [|done]. by apply lookup_delete_Some in Hd as [_ ?].
  - intros d j Hj Hd. apply lookup_delete_None in Hd as [<-|Hd]; [apply Hown|]. cbn in Hj. congruence.
  - cbn. intros w1 Hw1 Hok1. rewrite Hw1 in Hw. injection Hw as ->. split; [|cbn; auto].
    set (w2 := set_signalled true w).
    change (worker_ok own i (stopped_ s) (nextConnId_ s) (fun d => delete c (connections_ s) !! d = Some i) (set_participant (with_rollbacks (resolve in_progress c Disarmed (records w2)) (participant w2)) w2)).
    apply ok_resolve; [|done|done|by intros []]. apply ok_set_signalled.
    eapply ok_env; [..|exact Hok]; auto.
    + intros d. unfold mine. rewrite lookup_delete_Some. naive_solver.
    + intros d o Hd Ho Hm. left. rewrite lookup_delete_ne; [done|]. intros <-. apply Ho. eapply (ok_destroyed _ _ _ _ _ _ Hok); eauto.
Qed.

Lemma lookup_foldl_delete (l : list nat) (m : gmap nat nat) d : foldl (fun m c => delete c m) m l !! d = if bool_decide (d ∈ l) then None else m !! d.
Proof.
  revert m. induction l as [|c l IH]; intros m; cbn [foldl]; [done|]. rewrite IH.
  destruct (decide (d = c)) as [->|Hne].
  - rewrite lookup_delete_eq. rewrite (bool_decide_eq_true_2 (c ∈ c :: l)) by by left. by destruct (bool_decide _).
  - rewrite lookup_delete_ne by done. rewrite (bool_decide_ext (d ∈ c :: l) (d ∈ l)) by set_solver. done.
Qed.

Lemma release_world own i w s :
  world_ok own s -> stop_ops (base_todo s) -> no_rolled (base_todo s) -> workers s !! i = Some w ->
  generation (participant w) <> 0 -> locallyQuiet (participant w) = true -> baseReleased (participant w) = false ->
  world_ok own (update_worker i (fun w => set_signalled true (set_participant (with_released (participant w)) w))
    (set_connections (fun m => foldl (fun m c => delete c m) m (connections (participant w))) s)).
Proof.
  intros H Hs Hnr Hw Hg Hq Hb. assert (Hok := w_workers _ _ H _ _ Hw).
  apply (world_shrink own i _ (foldl (fun m c => delete c m) (connections_ s) (connections (participant w))) s); try done.
  - by eapply lookup_lt_Some.
  - intros d. rewrite lookup_foldl_delete. destruct (bool_decide _); [done|]. by destruct (connections_ s !! d).
  - intros d j Hj. rewrite lookup_foldl_delete. destruct (bool_decide _) eqn:Hd; [|congruence].
    apply bool_decide_eq_true in Hd. intros _. by apply (ok_connections _ _ _ _ _ _ Hok).
  - intros w1 Hw1 _. rewrite Hw in Hw1. injection Hw1 as <-. split; [|cbn; auto]. apply ok_set_signalled.
    assert (Hgone : forall c, mine s i c -> foldl (fun m c => delete c m) (connections_ s) (connections (participant w)) !! c = None).
    { intros c Hc. rewrite lookup_foldl_delete, bool_decide_eq_true_2; [done|]. by apply (ok_assigned _ _ _ _ _ _ Hok). }
    assert (Hsub : forall c, foldl (fun m c => delete c m) (connections_ s) (connections (participant w)) !! c = Some i -> False).
    { intros c. rewrite lookup_foldl_delete. destruct (bool_decide _) eqn:Hd; [done|]. intros Hc. apply bool_decide_eq_false in Hd.
      apply Hd. by apply (ok_assigned _ _ _ _ _ _ Hok). }
    clear - Hok Hg Hq Hb Hgone Hsub. destruct Hok. split; cbn; try done.
    + intros c o Hc Ho. right. destruct (ok_place0 c o Hc Ho) as [Hm|]; [|done]. exfalso.
      destruct (ok_assigned0 Hg c Hm) as [_ Hin]. destruct (ackReported (participant w)) eqn:Ha.
      * destruct (ok_ack0 eq_refl) as (_ & ? & _). congruence.
      * assert (Hp := ok_pending0 Hg eq_refl c o Hc Ho Hin). rewrite (ok_quiet0 Hq) in Hp. by apply elem_of_nil in Hp.
    + intros _ c Hc. by destruct (Hsub c).
    + intros Ha. destruct (ok_ack0 Ha) as (? & ? & ?). auto.
Qed.

(** The threads of the pool are joined. *)
Lemma pool_stop_world own s s' :
  world_ok own s -> stop_ops (base_todo s) -> no_rolled (base_todo s) -> connections_ s = ∅ -> pool_stop s = Some s' -> world_ok own s' /\ joined s' = true /\
  exists r, s' = set_end r true (fatal s) s.
Proof.
  intros H Hs Hnr Hc. unfold pool_stop. destruct (forallb idle (workers s) || joined s) eqn:Hi; [|done]. intros [= <-]. split; [|eauto].
  destruct H. split; try done; cbn; [by right| |].
  - intros _. split; [done|]. split; [done|]. intros i w c o Hw Ho. apply orb_prop in Hi as [Hi|Hj]; [|by eapply w_joined0].
    destruct (cstate o) eqn:Hst; try done; exfalso.
    all: assert (Hne : cstate o <> Disconnected) by congruence; assert (Hok := w_workers0 _ _ Hw).
    all: destruct (ok_place _ _ _ _ _ _ Hok c o Ho Hne) as [Hm|Hin]; [unfold mine in Hm; by rewrite Hc in Hm|].
    all: rewrite forallb_forall in Hi; assert (Hidle := Hi w (proj1 (list_elem_of_In _ _) (list_elem_of_lookup_2 _ _ _ Hw))).
    all: unfold idle in Hidle; apply andb_prop in Hidle as [[Htd%bool_decide_eq_true _]%andb_prop Hsa%negb_true_iff].
    all: destruct (attached w) eqn:Ha; [|destruct (ok_detached _ _ _ _ _ _ Hok Ha) as [Hnil _]; rewrite Hnil in Hin; by apply elem_of_nil in Hin].
    all: rewrite andb_true_r in Hsa; destruct (ok_signal _ _ _ _ _ _ Hok Ha) as [|Hd]; [apply existsb_exists; exists (c, DestroyOnOwner); by rewrite <- list_elem_of_In|congruence|].
    all: rewrite Htd in Hd; by apply elem_of_nil in Hd.
  - eapply results_ok_joined; [exact w_results0|done..].
Qed.

(** All participants have acknowledged: the map is empty. *)
Lemma acknowledged_empty own s g : world_ok own s -> g <> 0 -> all_acknowledged g s = true -> connections_ s = ∅.
Proof.
  intros H Hg Hall. apply map_empty. intros c. destruct (connections_ s !! c) as [i|] eqn:Hc; [|done]. exfalso.
  destruct (w_map _ _ H _ _ Hc) as (Hi & _ & _). apply lookup_lt_is_Some_2 in Hi as [w Hw].
  unfold all_acknowledged in Hall. rewrite forallb_forall in Hall.
  assert (Hw' := Hall w (proj1 (list_elem_of_In _ _) (list_elem_of_lookup_2 _ _ _ Hw))). apply andb_prop in Hw' as [Hgen%Nat.eqb_eq Hack].
  assert (Hok := w_workers _ _ H _ _ Hw). destruct (ok_ack _ _ _ _ _ _ Hok Hack) as (_ & Hb & Hg0).
  destruct (ok_assigned _ _ _ _ _ _ Hok Hg0 c Hc) as [Hb' _]. congruence.
Qed.

Lemma world_push_join own s o : world_ok own s -> stop_ops (base_todo s) -> no_rolled (base_todo s) -> connections_ s = ∅ -> o = Join \/ o = JoinDrained -> world_ok own (base_push [o] s).
Proof.
  intros H Hs Hnr Hc Ho. apply (world_control own s); try done; cbn; auto.
  - intros x [->|Hx]%elem_of_cons; [by destruct Ho as [->| ->]|auto].
  - intros i c [Heq|Hx]%elem_of_cons; [by destruct Ho as [->| ->]|by apply (Hnr i c)].
  - by destruct (w_gen _ _ H).
  - by destruct (w_gen _ _ H).
  - apply (w_results _ _ H).
Qed.

Lemma plain_checks s : plain (for_workers Release s ++ [CheckAcks]).
Proof. apply plain_app; [by apply plain_map|]. by intros o ->%list_elem_of_singleton. Qed.

Lemma join_world own s s' :
  world_ok own s -> stop_ops (base_todo s) -> no_rolled (base_todo s) -> connections_ s = ∅ -> stop_op Join s = Some s' -> world_ok own s'.
Proof.
  intros H Hs Hnr Hc. cbn [stop_op]. destruct (pool_stop s) as [s1|] eqn:Hp; [|done].
  destruct (pool_stop_world _ _ _ H Hs Hnr Hc Hp) as (H1 & Hj & r & ->).
  destruct (aggregateStopState_ s) as [a|] eqn:Ha; intros [= <-]; [|done].
  set (s1 := set_end r true (fatal s) s) in *. set (s2 := if gracefulState a then _ else s1).
  assert (H2 : control_step s1 s2) by (subst s2; destruct (gracefulState a); [by apply control_complete; left|apply control_refl]).
  assert (Ht2 : base_todo s2 = base_todo s1) by (subst s2; destruct (gracefulState a); [|done]; unfold complete; destruct (gracefulStopState_ s1) as [g|]; [|done]; by destruct (completed g)).
  assert (W2 := world_control_step _ _ _ H1 Hs Hnr H2).
  assert (Hst : stopped_ s2 = stopped_ s1) by (subst s2; destruct (gracefulState a); [|done]; unfold complete; destruct (gracefulStopState_ s1) as [g|]; [|done]; by destruct (completed g)).
  apply (world_control own s2); try done; cbn; rewrite ?Ht2; auto.
  - by rewrite Hst.
  - intros [?|?]; auto.
  - by apply (w_gen _ _ H1).
  - eapply results_ok_stopped; [apply (w_results _ _ W2)|done..|cbn; by rewrite Hst].
Qed.

Lemma stop_op_world own s o rest s' :
  world_ok own s -> base_todo s = o :: rest -> is_setup o = false -> stop_op o (set_todo rest s) = Some s' -> world_ok own s'.
Proof.
  intros H Ht Ho. destruct (world_pop _ _ _ _ H Ht Ho) as (H1 & Hs & Hnr).
  assert (Hcase : (exists i c, o = RolledBack i c) \/ ~ exists i c, o = RolledBack i c).
  { destruct o; try (by right; intros (? & ? & ?)). left. eauto. }
  destruct Hcase as [(i & c & ->)|Hnot].
  { cbn [stop_op]. intros [= <-]. by apply rolled_back_world. }
  assert (Hjoin : o = Join \/ o = JoinDrained -> connections_ (set_todo rest s) = ∅).
  { intros Hj. apply (w_join _ _ H). rewrite Ht. destruct Hj as [->| ->]; [left|right]; by left. }
  change rest with (base_todo (set_todo rest s)) in Hs, Hnr. revert H1 Hs Hnr Hjoin. generalize (set_todo rest s). clear H Ht s. intros s1 H1 Hs Hnr Hjoin.
  destruct o; try done.
  1: { cbn [stop_op]. intros [= <-]. destruct (workers s1 !! i) as [w|] eqn:Hw; [|done].
    destruct (mark_first (records w)) as [[c l]|] eqn:Hm; [|done].
    assert (H2 : world_ok own (update_participant i (with_rollbacks l) s1)).
    { apply world_update; [done..|]. intros w1 Hw1 Hok. rewrite Hw in Hw1. injection Hw1 as <-. split; [by eapply world_mark_ok|cbn; auto]. }
    destruct (mark_first_spec _ _ _ Hm) as (l1 & l2 & _ & Hl).
    apply (world_stop own _ (base_push [RolledBack i c; Rollbacks i] (update_participant i (with_rollbacks l) s1)) H2); try done; cbn; auto.
    - intros j w' Hj. exists w'. split; [done|]. split; [|auto]. by apply (w_workers _ _ H2).
    - intros o [->|[->|Hin]%elem_of_cons]%elem_of_cons; [done..|auto].
    - intros j d [[= -> ->]|[[=]|Hin]%elem_of_cons]%elem_of_cons; [|by destruct (Hnr j d)].
      exists (set_participant (with_rollbacks l (participant w)) w). split; [|cbn; rewrite Hl; set_solver].
      rewrite list_lookup_alter_eq. cbn in Hw. by rewrite Hw.
    - intros j d [[=]|Hin]%elem_of_cons. by apply (Hnr j d).
    - intros [[[=]|[[=]|Hin]%elem_of_cons]%elem_of_cons|[[=]|[[=]|Hin]%elem_of_cons]%elem_of_cons]; apply (w_join _ _ H2); cbn; auto.
    - apply (w_gen _ _ H2).
    - apply (w_gen _ _ H2).
    - apply (w_results _ _ H2). }
  1: { destruct Hnot. eauto. }
  1-3: cbn [stop_op]; intros [= <-]; apply (world_control_step own s1); try done.
  - destruct (gracefulStopState_ s1) as [g|] eqn:Hg; [|apply control_refl]. destruct (completed g || begun g); [apply control_refl|].
    eapply control_trans; [|by apply control_beginGraceful|done]. by eapply control_graceful.
  - destruct (immediateStopRequested_ s1); [|apply control_refl].
    eapply control_trans; [apply control_requests| |done]. unfold stopInLoop. destruct (aggregateStopState_ _); [apply control_force|].
    destruct (stopped_ _); [apply control_refl|apply control_begin].
  - destruct (aggregateStopState_ s1) as [a|]; [|apply control_refl]. destruct (a_joined a); [apply control_refl|]. apply control_push, plain_checks.
  - cbn [stop_op]. intros [= <-]. destruct (aggregateStopState_ s1) as [a|] eqn:Ha; [|done].
    destruct (w_gen _ _ H1) as [_ Hgen]. destruct (Hgen _ Ha) as [Hga Hst].
    apply world_update; [done..|]. intros w Hw Hok. split; [|cbn; auto]. by apply assign_ok.
  - cbn [stop_op]. intros [= <-]. apply (world_control_step own s1); try done.
    destruct (gracefulStopState_ s1) as [g|] eqn:Hg; [|apply control_refl]. destruct (completed g) eqn:Hc; [apply control_refl|].
    destruct (zero_timeout g); [by apply control_forceGraceful; left|]. eapply control_graceful; [exact Hg|by rewrite Hc].
  - cbn [stop_op]. intros [= <-]. destruct (aggregateStopState_ s1) as [a|] eqn:Ha; [|done].
    apply world_update; [done..|]. intros w Hw Hok. split; [by apply force_worker_ok|].
    unfold force_worker. destruct (_ || _); [auto|]. by destruct (command (participant w)).
  - cbn [stop_op]. intros [= <-]. destruct (aggregateStopState_ s1) as [a|] eqn:Ha; [|done].
    destruct (workers s1 !! i) as [w|] eqn:Hw; [|done].
    destruct (_ || _ || _) eqn:Hguard; [done|]. apply orb_false_elim in Hguard as [[Hg%negb_false_iff%Nat.eqb_eq Hq%negb_false_iff]%orb_false_elim Hb].
    destruct (w_gen _ _ H1) as [_ Hgen]. destruct (Hgen _ Ha) as [Hga Hst].
    apply release_world; try done. by rewrite Hg.
  - cbn [stop_op]. intros [= <-]. destruct (aggregateStopState_ s1) as [a|] eqn:Ha; [|done].
    destruct (negb (a_joined a) && all_acknowledged (a_generation a) s1) eqn:Hall; [|done]. apply andb_prop in Hall as [_ Hall].
    destruct (w_gen _ _ H1) as [_ Hgen]. destruct (Hgen _ Ha) as [Hga Hst].
    assert (Hc := acknowledged_empty _ _ _ H1 Hga Hall).
    set (s2 := if gracefulState a then stop_timer s1 else s1).
    assert (H2 : control_step s1 s2) by (subst s2; destruct (gracefulState a); [apply control_timer|apply control_refl]).
    assert (Hsame : base_todo s2 = base_todo s1 /\ aggregateStopState_ s2 = aggregateStopState_ s1).
    { subst s2. destruct (gracefulState a); [|done]. unfold stop_timer. by destruct (gracefulStopState_ s1). }
    destruct Hsame as [Ht2 Ha2]. assert (W2 := world_control_step _ _ _ H1 Hs Hnr H2).
    apply world_push_join; cbn; rewrite ?Ht2; try done; [|by rewrite (cs_connections _ _ H2)|by left].
    apply (world_control_step own s2); rewrite ?Ht2; try done. eapply control_aggregate; [by rewrite Ha2|done].
  - apply join_world; auto.
  - cbn [stop_op]. destruct (pool_stop s1) as [s2|] eqn:Hp; [|done]. intros [= <-].
    assert (Hc : connections_ s1 = ∅) by auto.
    destruct (pool_stop_world _ _ _ H1 Hs Hnr Hc Hp) as (H2 & Hj & r & ->).
    apply (world_control_step own (set_end r true (fatal s1) s1)); try done. apply control_complete. by left.
Qed.

(** *** Steps of other threads *)

Lemma world_move own s s' :
  world_ok own s ->
  base_todo s' = base_todo s -> connections_ s' = connections_ s -> nextConnId_ s' = nextConnId_ s -> joined s' = joined s -> stopped_ s' = stopped_ s ->
  nextStopGeneration_ s' = nextStopGeneration_ s -> aggregateStopState_ s' = aggregateStopState_ s ->
  length (workers s') = length (workers s) ->
  (forall j w', workers s' !! j = Some w' -> exists w, workers s !! j = Some w /\ worker_ok own j (stopped_ s) (nextConnId_ s) (mine s j) w' /\ worker_frame w w') ->
  (forall c, RemoveConnection c ∈ base_functors s' -> RemoveConnection c ∈ base_functors s \/ exists w o, workers s' !! own c = Some w /\ objects w !! c = Some o /\ gone o) ->
  (joined s = true -> workers s' = workers s) ->
  results_ok s' -> world_ok own s'.
Proof.
  intros H Ht Hc Hn Hj Hst Hg Ha Hlen Hw Hf Hjw Hres.
  assert (Hback : forall j w, workers s !! j = Some w -> exists w', workers s' !! j = Some w' /\ worker_frame w w').
  { intros j w Hjw0. destruct (workers s' !! j) as [w'|] eqn:Hw'.
    - destruct (Hw _ _ Hw') as (w1 & Hw1 & _ & ?). rewrite Hjw0 in Hw1. injection Hw1 as <-. eauto.
    - apply lookup_ge_None in Hw'. apply lookup_lt_Some in Hjw0. lia. }
  split; rewrite ?Ht, ?Hst, ?Hn, ?Hg, ?Ha, ?Hc, ?Hlen; try apply H; try done.
  - intros j w' Hj'. destruct (Hw _ _ Hj') as (w & _ & Hok & _). unfold mine. by rewrite Hc.
  - intros c Hin. destruct (Hf c Hin) as [Hin'|?]; [|done]. destruct (w_remove _ _ H c Hin') as (w & o & Hw0 & Ho & Hgone).
    destruct (Hback _ _ Hw0) as (w' & Hw' & Hfr). destruct (fr_some _ _ Hfr _ _ Ho) as (o' & ? & ?). eauto 10.
  - destruct (w_phase _ _ H) as [(i & c & e & k & Htd & Hi & Hown & Hcn & Hs0 & Hj0 & Hall)|]; [left|by right].
    exists i, c, e, k. rewrite Ht, Hlen, Hn, Hst, Hj. do 6 (split; [done|]). intros w' Hw'.
    destruct (Hw _ _ Hw') as (w & Hw0 & _ & Hfr). destruct (Hall w Hw0) as (Hest & Hrec & Hobj). split; [|split].
    + intros b Hb. apply (fr_functors _ _ Hfr) in Hb. by apply (Hest b).
    + destruct (k =? 0)%nat.
      * intros r Hr. apply (fr_fresh _ _ Hfr) in Hr; [by apply (Hrec r)|done|]. intros r' Hr'. by destruct (Hrec r').
      * destruct Hrec as [[r Hr] Hun]. assert (Hiff := fr_fresh _ _ Hfr c Hest Hun). split; [exists r; by apply Hiff|]. intros r' Hr'. by apply Hun, Hiff.
    + intros Hk. by apply (fr_none _ _ Hfr), Hobj.
  - intros i c Hin. destruct (w_rolled _ _ H i c Hin) as (w & Hw0 & Hr). destruct (Hback _ _ Hw0) as (w' & Hw' & Hfr). exists w'. split; [done|]. by apply (fr_progress _ _ Hfr).
  - rewrite Hj. intros Hjo. destruct (w_joined _ _ H Hjo) as (? & ? & ?). rewrite (Hjw Hjo). done.
Qed.

Lemma world_worker own s i wl w w' m :
  world_ok own s -> joined s = false -> workers s !! i = Some w -> worker_step wl w = Some (w', m) -> world_ok own (deliver i w' m s).
Proof.
  intros H Hj Hw Hstep. assert (Hok := w_workers _ _ H _ _ Hw).
  destruct (worker_step_keeps _ _ _ _ _ _ _ _ _ Hok Hstep) as (Hok' & Hfr & Hm). cbn in Hok', Hfr, Hm.
  assert (Hi : i < length (workers s)) by by eapply lookup_lt_Some.
  apply (world_move own s); try done; unfold deliver; try (by destruct (signal_base m)).
  - destruct (signal_base m); cbn; by rewrite length_insert.
  - intros j w1 Hj1. assert (Hj2 : <[i := w']> (workers s) !! j = Some w1) by by destruct (signal_base m).
    destruct (decide (j = i)) as [->|Hne].
    + rewrite list_lookup_insert_eq in Hj2 by done. injection Hj2 as <-. eauto.
    + rewrite list_lookup_insert_ne in Hj2 by done. exists w1. split; [done|]. split; [by apply (w_workers _ _ H)|]. by apply frame_same.
  - intros c Hin. assert (Hin2 : RemoveConnection c ∈ base_functors s ++ post_base m) by by destruct (signal_base m).
    apply elem_of_app in Hin2 as [?|Hin2]; [by left|right]. destruct (Hm c Hin2) as (o & Ho & Hgone).
    destruct (ok_objects _ _ _ _ _ _ Hok' _ _ Ho) as [Hown _]. exists w', o. split; [|done].
    rewrite Hown. destruct (signal_base m); cbn; by rewrite list_lookup_insert_eq.
  - congruence.
  - unfold results_ok. assert (Hr := w_results _ _ H). unfold results_ok in Hr. by destruct (signal_base m).
Qed.

Lemma world_foreign own s s' l : world_ok own s -> foreign_event l s = Some s' -> world_ok own s'.
Proof.
  intros H Hs.
  assert (Hsame : workers s' = workers s /\ base_todo s' = base_todo s /\ connections_ s' = connections_ s /\ nextConnId_ s' = nextConnId_ s /\ joined s' = joined s /\
    stopped_ s' = stopped_ s /\ nextStopGeneration_ s' = nextStopGeneration_ s /\ aggregateStopState_ s' = aggregateStopState_ s /\ base_functors s' = base_functors s /\ results_ok s').
  { assert (Hr := w_results _ _ H). destruct l; try done; cbn in Hs.
    - by injection Hs as <-.
    - destruct (gracefulStopState_ s) eqn:Hg; [done|]. injection Hs as <-. do 9 (split; [done|]). unfold results_ok in *. rewrite Hg in Hr. done.
    - destruct (due s); [done|]. by injection Hs as <-. }
  destruct Hsame as (Hw & Ht & Hc & Hn & Hj & Hst & Hg & Ha & Hf & Hr).
  apply (world_move own s); try done; rewrite ?Hw, ?Hf; auto.
  intros j w Hjw. exists w. split; [done|]. split; [by apply (w_workers _ _ H)|by apply frame_same].
Qed.

(** *** Events of the base loop *)

Lemma no_rolled_nil : no_rolled [].
Proof. intros i c Hin. by apply elem_of_nil in Hin. Qed.
Lemma stop_ops_nil : stop_ops [].
Proof. intros o Hin. by apply elem_of_nil in Hin. Qed.
#[local] Hint Resolve no_rolled_nil stop_ops_nil : core.

Lemma world_event_control own s s' : world_ok own s -> base_todo s = [] -> control_step s s' -> world_ok own s'.
Proof. intros H Ht. apply world_control_step; [done|..]; by rewrite Ht. Qed.

Lemma control_drive s : control_step s (driveStopLifecycleInLoop s).
Proof. apply control_push, plain_app; [by apply plain_map|]. intros o Ho. repeat (apply elem_of_cons in Ho as [->|Ho]; [done|]). by apply elem_of_nil in Ho. Qed.

(** The next functor is taken. *)
Lemma world_functors own s l : world_ok own s -> base_todo s = [] -> (forall c, RemoveConnection c ∈ l -> RemoveConnection c ∈ base_functors s) -> world_ok own (set_functors l s).
Proof.
  intros H Ht Hl. apply (world_control own s); try done; cbn; rewrite ?Ht; auto.
  - intros [?|?]; auto.
  - by destruct (w_gen _ _ H).
  - by destruct (w_gen _ _ H).
  - apply (w_results _ _ H).
Qed.

Lemma base_task_world own s t rest : world_ok own s -> base_todo s = [] -> base_functors s = t :: rest -> world_ok own (base_task t (set_functors rest s)).
Proof.
  intros H Ht Hf. assert (H1 : world_ok own (set_functors rest s)) by (apply world_functors; [done..|rewrite Hf; set_solver]).
  assert (Hrem : forall c, t = RemoveConnection c -> exists w o, workers (set_functors rest s) !! own c = Some w /\ objects w !! c = Some o /\ gone o).
  { intros c ->. apply (w_remove _ _ H). rewrite Hf. by left. }
  assert (Ht1 : base_todo (set_functors rest s) = []) by exact Ht. revert H1 Hrem Ht1. generalize (set_functors rest s). clear H Ht Hf s. intros s H Hrem Ht.
  destruct t as [c|]; cbn [base_task].
  - destruct (match aggregateStopState_ s with Some a => _ | None => _ end); [done|]. destruct (connections_ s !! c) as [i|] eqn:Hc; [|done].
    destruct (Hrem c eq_refl) as (w & o & Hw & Ho & Hgone). destruct (w_map _ _ H _ _ Hc) as (Hi & Hown & _). rewrite Hown in Hw.
    set (s1 := update_worker i _ _).
    assert (H1 : world_ok own s1).
    { apply (world_shrink own i _ (delete c (connections_ s)) s); rewrite ?Ht; try done.
      - intros d. destruct (delete c (connections_ s) !! d) eqn:Hd; [|done]. by apply lookup_delete_Some in Hd as [_ ?].
      - intros d j Hj Hd. apply lookup_delete_None in Hd as [<-|Hd]; [done|]. congruence.
      - intros w1 Hw1 Hok. rewrite Hw in Hw1. injection Hw1 as <-. split; [|cbn; auto].
        assert (Hok' : worker_ok own i (stopped_ s) (nextConnId_ s) (fun d => delete c (connections_ s) !! d = Some i) w).
        { eapply ok_env; [..|exact Hok]; auto.
          - intros d. unfold mine. rewrite lookup_delete_Some. naive_solver.
          - intros d o' Hd Ho' Hm. left. rewrite lookup_delete_ne; [done|]. intros <-. congruence. }
        destruct Hok'. split; cbn; try done. intros d b [Hin|Hin]%elem_of_app; [by eapply ok_functors0|]. by apply list_elem_of_singleton in Hin. }
    assert (Ht1 : base_todo s1 = []) by done.
    destruct (gracefulStopState_ s1) as [g|]; [|done]. destruct (_ && _ && _); [|done].
    apply world_functors; [done..|]. intros d [?|Hin]%elem_of_app; [done|]. by apply list_elem_of_singleton in Hin.
  - destruct (gracefulStopState_ s) as [g|]; [|done]. destruct (completed g || forceStarted g || _) eqn:Hguard; [done|].
    apply orb_false_elim in Hguard as [_ Hc%negb_false_iff%bool_decide_eq_true].
    set (s1 := stop_timer s). assert (H1 : control_step s s1) by apply control_timer.
    assert (W1 := world_event_control _ _ _ H Ht H1).
    assert (Ht1 : base_todo s1 = []) by (unfold s1, stop_timer; by destruct (gracefulStopState_ s)).
    assert (Hc1 : connections_ s1 = ∅) by by rewrite (cs_connections _ _ H1).
    assert (Hj : world_ok own (base_push [JoinDrained] s1)) by (apply world_push_join; rewrite ?Ht1; auto).
    destruct (aggregateStopState_ s1) as [a|] eqn:Ha; [|done]. destruct (gracefulState a); [|done].
    apply (world_event_control own s1); [done..|]. by eapply control_aggregate.
Qed.

Lemma accept_world own s i e :
  world_ok own s -> base_todo s = [] -> stopped_ s = false -> i < length (workers s) -> joined s = false ->
  exists own', world_ok own' (base_push (setup_ops i (nextConnId_ s) e) (set_nextConnId (S (nextConnId_ s)) s)).
Proof.
  intros H Ht Hs Hi Hj. set (c := nextConnId_ s).
  exists (fun d => if (d =? c)%nat then i else own d).
  assert (Hown : forall d, d < c -> (if (d =? c)%nat then i else own d) = own d).
  { intros d Hd. destruct (d =? c)%nat eqn:He; [|done]. apply Nat.eqb_eq in He. lia. }
  assert (Hr := w_results _ _ H). destruct (w_gen _ _ H) as [Hg Ha].
  assert (Hin : forall o, o ∈ setup_ops i c e ++ base_todo s -> is_setup o = true).
  { rewrite Ht, app_nil_r. unfold setup_ops. intros o Ho. destruct e; repeat (apply elem_of_cons in Ho as [->|Ho]; [done|]); by apply elem_of_nil in Ho. }
  assert (Hfresh : forall w, workers s !! i = Some w -> (forall b, Establish c b ∉ functors w) /\ (forall r, (c, r) ∉ records w) /\ objects w !! c = None).
  { intros w Hw. assert (Hok := w_workers _ _ H _ _ Hw). split; [|split].
    - intros b Hb. destruct (ok_functors _ _ _ _ _ _ Hok _ _ Hb). unfold c in *. lia.
    - intros r Hb. destruct (ok_records _ _ _ _ _ _ Hok _ _ Hb). unfold c in *. lia.
    - destruct (objects w !! c) eqn:Ho; [|done]. destruct (ok_objects _ _ _ _ _ _ Hok _ _ Ho). unfold c in *. lia. }
  split; cbn; try done.
  - intros j w Hw. eapply ok_env; [exact Hown|..|by apply (w_workers _ _ H)]; unfold c; auto.
  - intros d j Hd. destruct (w_map _ _ H _ _ Hd) as (? & ? & ?). rewrite Hown by done. unfold c in *. split; [done|]. split; [done|]. lia.
  - intros d Hd. destruct (w_remove _ _ H d Hd) as (w & o & Hw & Ho & Hgone). assert (Hok := w_workers _ _ H _ _ Hw).
    destruct (ok_objects _ _ _ _ _ _ Hok _ _ Ho) as [_ Hdc]. rewrite Hown by done. eauto.
  - left. exists i, c, e, 0. split; [cbn; by rewrite Ht, app_nil_r|]. split; [done|]. split; [by rewrite Nat.eqb_refl|]. split; [unfold c; cbn; lia|].
    split; [done|]. split; [done|]. intros w Hw. destruct (Hfresh w Hw) as (? & ? & ?). done.
  - intros j d Hd. by apply Hin in Hd.
  - intros j d Hd. assert (Hd' : RolledBack j d ∈ setup_ops i c e ++ base_todo s) by by right. by apply Hin in Hd'.
  - intros [Hd|Hd]; by apply (Hin _) in Hd.
  - rewrite Hj. done.
Qed.

Lemma base_event_world own s l s' : world_ok own s -> base_todo s = [] -> base_event l s = Some s' -> exists own', world_ok own' s'.
Proof.
  intros H Ht. destruct l; try done; cbn [base_event].
  - destruct (base_signalled s); [|done]. intros [= <-]. exists own. apply (world_event_control own s); [done..|].
    eapply control_trans; [apply control_requests|apply control_drive|done].
  - destruct (base_functors s) as [|t rest] eqn:Hf; [done|]. intros [= <-]. exists own. by apply base_task_world.
  - destruct (gracefulStopState_ s) as [g|] eqn:Hg; [|done]. destruct (timeoutTimer g); [|done]. intros [= <-]. exists own.
    apply (world_event_control own s); [done..|]. eapply control_trans; [apply control_timer| |unfold stop_timer; by rewrite Hg].
    apply control_forceGraceful. right. unfold stop_timer. rewrite Hg. eexists. done.
  - destruct (stopped_ s || _) eqn:Hst; [done|]. apply orb_false_elim in Hst as [Hst Hi%negb_false_iff%Nat.ltb_lt].
    destruct (joined s) eqn:Hj; intros [= <-]; [|by eapply accept_world]. exists own.
    apply (world_control own s); try done; cbn; rewrite ?Ht; auto; [intros [?|?]; auto|by destruct (w_gen _ _ H)..|]. eapply results_ok_joined; [apply (w_results _ _ H)|done..].
  - intros [= <-]. exists own. apply (world_event_control own s); [done..|]. eapply control_trans; [apply control_requests|apply control_drive|done].
  - destruct (gracefulStopState_ s) eqn:Hg; [done|]. intros [= <-]. exists own. apply (world_event_control own s); [done..|].
    eapply control_trans; [|apply control_drive|done]. same_control. unfold results_ok. by rewrite Hg.
Qed.

(** *** Setting a connection up *)

(** What the worker of a connection that is being set up knows of it. *)
Definition known (c k : nat) (w : Worker) : Prop :=
  (forall b, Establish c b ∉ functors w) /\
  (if (k =? 0)%nat then forall r, (c, r) ∉ records w else (exists r, (c, r) ∈ records w) /\ forall r, (c, r) ∈ records w -> unresolved r = true) /\
  (k < 2 -> objects w !! c = None).

Lemma setup_ops_setup i c e k o : o ∈ drop k (setup_ops i c e) -> is_setup o = true.
Proof.
  intros Ho. assert (Hin : o ∈ setup_ops i c e) by (rewrite <- (take_drop k (setup_ops i c e)); apply elem_of_app; by right).
  clear Ho. unfold setup_ops in Hin. destruct e; repeat (apply elem_of_cons in Hin as [->|Hin]; [done|]); by apply elem_of_nil in Hin.
Qed.

Lemma world_setup own s i c e k (f : Worker -> Worker) m :
  world_ok own s -> base_todo s = drop k (setup_ops i c e) -> i < length (workers s) -> own c = i -> c < nextConnId_ s -> stopped_ s = false -> joined s = false ->
  (forall d, d <> c -> m !! d = connections_ s !! d) -> (forall j, m !! c = Some j -> j = i) ->
  (forall w, workers s !! i = Some w -> worker_ok own i false (nextConnId_ s) (mine s i) w ->
     worker_ok own i false (nextConnId_ s) (fun d => m !! d = Some i) (f w) /\
     (forall d o, objects w !! d = Some o -> gone o -> exists o', objects (f w) !! d = Some o' /\ gone o') /\ (drop (S k) (setup_ops i c e) <> [] -> known c (S k) (f w))) ->
  world_ok own (update_worker i f (set_connections (fun _ => m) (set_todo (drop (S k) (setup_ops i c e)) s))).
Proof.
  remember (drop (S k) (setup_ops i c e)) as l eqn:Hl. intros H Ht Hi Hown Hc Hs Hj Hm Hmc Hf.
  assert (Hin : forall o, o ∈ l -> is_setup o = true) by (intros o; rewrite Hl; apply setup_ops_setup).
  assert (Htl : no_rolled (tail l)).
  { intros j d Hd. assert (Hd' : RolledBack j d ∈ l) by (destruct l; [done|by right]). by apply Hin in Hd'. }
  destruct (w_gen _ _ H) as [Hg Ha]. assert (Hr := w_results _ _ H).
  assert (Hback : forall d, d <> c -> forall j, m !! d = Some j <-> connections_ s !! d = Some j) by (intros d Hd j; by rewrite (Hm d Hd)).
  split; try done; cbn; rewrite ?length_alter.
  - intros j w Hjw. destruct (decide (j = i)) as [->|Hne].
    + rewrite list_lookup_alter_eq in Hjw. destruct (workers s !! i) as [w0|] eqn:Hw0; [|done]. injection Hjw as <-.
      assert (Hok := w_workers _ _ H _ _ Hw0). rewrite Hs in Hok |- *. by apply Hf.
    + rewrite list_lookup_alter_ne in Hjw by done. assert (Hok := w_workers _ _ H _ _ Hjw). eapply ok_env; [..|exact Hok]; auto.
      * intros d. unfold mine. cbn. destruct (decide (d = c)) as [->|Hd]; [|by rewrite (Hm d Hd)]. intros Hj'. by apply Hmc in Hj'.
      * intros d o Hd _ Hmine. left. unfold mine in *. cbn. destruct (decide (d = c)) as [->|Hd']; [|by apply Hback].
        destruct (w_map _ _ H _ _ Hmine) as (_ & Ho & _). congruence.
  - intros d j Hd. destruct (decide (d = c)) as [->|Hne]; [apply Hmc in Hd as ->; auto|]. apply (Hback d Hne) in Hd. apply (w_map _ _ H _ _ Hd).
  - intros d Hd. destruct (w_remove _ _ H d Hd) as (w & o & Hw & Ho & Hgone). destruct (decide (own d = i)) as [He|Hne].
    + rewrite He in *. rewrite list_lookup_alter_eq, Hw. assert (Hok := w_workers _ _ H _ _ Hw). rewrite Hs in Hok.
      destruct (Hf w Hw Hok) as (_ & Hp & _). destruct (Hp _ _ Ho Hgone) as (o' & ? & ?). eexists _, o'. by split.
    + rewrite list_lookup_alter_ne by done. eauto.
  - destruct l as [|x l]; [right; cbn; intros o Ho; by apply elem_of_nil in Ho|]. left.
    exists i, c, e, (S k). split; [exact Hl|]. cbn. rewrite length_alter. do 5 (split; [done|]). intros w Hw. rewrite list_lookup_alter_eq in Hw.
    destruct (workers s !! i) as [w0|] eqn:Hw0; [|done]. injection Hw as <-. assert (Hok := w_workers _ _ H _ _ Hw0). rewrite Hs in Hok.
    destruct (Hf w0 eq_refl Hok) as (_ & _ & Hk). by apply Hk.
  - intros j d Hd. by apply (Hin (RolledBack j d)) in Hd.
  - intros [Hd|Hd]; by apply (Hin _) in Hd.
  - rewrite Hj. done.
Qed.

(** The steps of [setup_ops]. *)
Lemma setup_step i c e k o rest :
  drop k (setup_ops i c e) = o :: rest ->
  rest = drop (S k) (setup_ops i c e) /\
  (k = 0 /\ o = Arm i c \/ k = 1 /\ o = Construct i c \/ k = 2 /\ o = Await i c \/ (exists b, o = Post i c b) /\ k <> 0 /\ rest = [] \/ o = Undo i c /\ k <> 0 /\ rest = []).
Proof.
  intros H. split.
  - rewrite <- Nat.add_1_l, Nat.add_comm, <- drop_drop, H. done.
  - destruct k as [|[|[|[|k]]]], e; cbn in H; rewrite ?drop_nil in H; try done; injection H as <- <-; naive_solver.
Qed.

Lemma setup_ok own i next mine mine' w :
  worker_ok own i false next mine w -> (forall c, mine c -> mine' c) -> (generation (participant w) <> 0 -> False) -> worker_ok own i false next mine' w.
Proof. intros [] Hm Hg. split; try done. intros c o Hc Ho. destruct (ok_place0 c o Hc Ho); auto. Qed.

Lemma arm_ok own i next mine c w :
  worker_ok own i false next mine w -> own c = i -> c < next -> known c 0 w ->
  worker_ok own i false next mine (set_signalled true (set_participant (with_rollbacks (records w ++ [(c, Arming)]) (participant w)) w)) /\
  known c 1 (set_signalled true (set_participant (with_rollbacks (records w ++ [(c, Arming)]) (participant w)) w)).
Proof.
  intros H Hown Hc (He & Hr & Ho). cbn in Hr. assert (Hgen : generation (participant w) <> 0 -> False) by (intros Hg; by apply (ok_gen _ _ _ _ _ _ H) in Hg).
  split.
  - destruct H. split; cbn; try done.
    + intros d o Hd Hne. destruct (ok_place0 d o Hd Hne); [by left|right]. set_solver.
    + auto.
    + intros Ha. by destruct (ok_detached0 Ha).
    + intros Ha. by destruct (ok_ack0 Ha) as (_ & _ & ?).
    + intros g a n Hin. by destruct (ok_finish0 g a n Hin).
    + intros d r o [Hin|Hin]%elem_of_app Hres Hd; [eauto|]. apply list_elem_of_singleton in Hin as [= -> ->]. by destruct Hres.
    + intros d r [Hin|Hin]%elem_of_app; [eauto|]. by apply list_elem_of_singleton in Hin as [= -> ->].
  - split; [done|]. split; [|auto]. cbn. split; [exists Arming; set_solver|].
    intros r [Hin|Hin]%elem_of_app; [by destruct (Hr r)|]. by apply list_elem_of_singleton in Hin as [= ->].
Qed.

Lemma construct_ok own i next mine c w :
  worker_ok own i false next mine w -> own c = i -> c < next -> known c 1 w ->
  worker_ok own i false next (fun d => d = c \/ mine d) (set_objects (<[c := mkObject Connecting NoCallback]> (objects w)) w).
Proof.
  intros H Hown Hc (He & [_ Hr] & Ho). assert (Hgen : generation (participant w) <> 0 -> False) by (intros Hg; by apply (ok_gen _ _ _ _ _ _ H) in Hg).
  destruct H. split; cbn; try done.
  - intros d o Hd Hne. destruct (decide (d = c)) as [->|Hdc]; [left; by left|]. rewrite lookup_insert_ne in Hd by done.
    destruct (ok_place0 d o Hd Hne); [left; by right|by right].
  - intros d r o Hd Hres Hl. destruct (decide (d = c)) as [->|Hdc]; [specialize (Hr r Hd); by destruct Hres; subst r|].
    rewrite lookup_insert_ne in Hl by done. eauto.
  - intros d o Hd. destruct (decide (d = c)) as [->|Hdc]; [done|]. rewrite lookup_insert_ne in Hd by done. eauto.
Qed.

Lemma known_set_participant c k f t w :
  (k =? 0)%nat = false -> known c k w -> (forall r, f r = true -> unresolved r = true) -> unresolved t = true ->
  known c k (set_participant (with_rollbacks (resolve f c t (records w)) (participant w)) w).
Proof.
  intros Hk (He & Hr & Ho) Hf Ht. split; [done|]. split; [|done]. rewrite Hk in *. destruct Hr as [[r Hr] Hun]. cbn. split.
  - destruct (f r) eqn:Hfr.
    + exists t. apply elem_of_resolve. right. eauto.
    + exists r. apply elem_of_resolve. left. done.
  - intros r0 Hin. apply elem_of_resolve in Hin as [[Hin _]|(_ & -> & _)]; auto.
Qed.

Lemma undo_ok own i next mine c k w :
  worker_ok own i false next mine w -> own c = i -> known c k w -> (k =? 0)%nat = false ->
  worker_ok own i false next (fun d => d <> c /\ mine d) (resolveEstablishmentRollback c true w).
Proof.
  intros H Hown (He & Hr & Ho) Hk. rewrite Hk in Hr. destruct Hr as [[r Hr] Hun].
  unfold resolveEstablishmentRollback. rewrite (proj2 (recorded_spec unresolved c (records w))) by eauto.
  set (w1 := set_signalled true w). set (w2 := set_participant (with_rollbacks (resolve unresolved c DestroyOnOwner (records w1)) (participant w1)) w1).
  assert (H2 : worker_ok own i false next mine w2).
  { apply ok_resolve; [by apply ok_set_signalled|done|done|by intros []]. }
  change (worker_ok own i false next (fun d => d <> c /\ mine d) w2).
  eapply ok_env; [..|exact H2]; [auto|auto|auto|naive_solver|]. intros d o Hd _ Hm. destruct (decide (d = c)) as [->|Hdc]; [right|by left].
  apply elem_of_resolve. right. split; [done|]. split; [done|]. exists r. auto.
Qed.

Lemma setup_op_world own s o rest s' :
  world_ok own s -> base_todo s = o :: rest -> is_setup o = true -> s' = setup_op o (set_todo rest s) -> world_ok own s'.
Proof.
  intros H Ht Ho ->. destruct (w_phase _ _ H) as [(i & c & e & k & Htd & Hi & Hown & Hc & Hs & Hj & Hall)|Hs].
  2: { specialize (Hs o). rewrite Ht in Hs. rewrite Hs in Ho; [done|by left]. }
  rewrite Ht in Htd. destruct (setup_step i c e k o rest (eq_sym Htd)) as [Hrest Hk].
  assert (Hgen : forall w, workers s !! i = Some w -> worker_ok own i false (nextConnId_ s) (mine s i) w -> generation (participant w) <> 0 -> False).
  { intros w Hw Hok Hg. by apply (ok_gen _ _ _ _ _ _ Hok) in Hg. }
  rewrite Hrest. assert (Hbase := world_setup own s i c e k). rewrite <- Htd, Ht in Hbase.
  destruct Hk as [[-> ->]|[[-> ->]|[[-> ->]|[([b ->] & Hk & Hnil)|(-> & Hk & Hnil)]]]]; cbn [setup_op].
  - apply (Hbase _ (connections_ s)); try done.
    + intros j Hcj. destruct (w_map _ _ H _ _ Hcj) as (_ & ? & _). congruence.
    + intros w Hw Hok. destruct (arm_ok _ _ _ _ _ _ Hok Hown Hc (Hall w Hw)) as [Hok' Hkn]. split; [done|]. split; [eauto|done].
  - apply (Hbase _ (<[c := i]> (connections_ s))); try done.
    + intros d Hd. by rewrite lookup_insert_ne.
    + intros j. rewrite lookup_insert_eq. by intros [= <-].
    + intros w Hw Hok. assert (Hkn := Hall w Hw). fold (known c 1 w) in Hkn. split; [|split].
      * eapply setup_ok; [exact (construct_ok _ _ _ _ _ _ Hok Hown Hc Hkn)| |exact (Hgen w Hw Hok)]. intros d [->|Hd]; [by rewrite lookup_insert_eq|].
        destruct (decide (d = c)) as [->|]; [by rewrite lookup_insert_eq|by rewrite lookup_insert_ne].
      * intros d o Hd Hgone. destruct (decide (d = c)) as [->|]; [|exists o; cbn; by rewrite lookup_insert_ne].
        destruct Hkn as (_ & _ & Hno). rewrite Hno in Hd by lia. done.
      * intros _. destruct Hkn as (He & Hr & _). split; [done|]. split; [done|lia].
  - apply (Hbase _ (connections_ s)); try done.
    + intros j Hcj. destruct (w_map _ _ H _ _ Hcj) as (_ & ? & _). congruence.
    + intros w Hw Hok. assert (Hkn := Hall w Hw). fold (known c 2 w) in Hkn. split; [|split; [eauto|]].
      * apply ok_resolve; [done|done|done|by intros []].
      * intros _. change (known c 3) with (known c 3). assert (Hkn' : known c 3 w) by (destruct Hkn as (? & ? & ?); split; [done|split; [done|lia]]).
        apply known_set_participant; [done|done|by intros []|done].
  - rewrite <- Hrest, Hnil in Hbase |- *. apply (Hbase _ (connections_ s)); try done.
    + intros j Hcj. destruct (w_map _ _ H _ _ Hcj) as (_ & ? & _). congruence.
    + intros w Hw Hok. split; [|split; [eauto|done]]. destruct Hok. split; cbn; try done.
      intros d b' [Hin|Hin]%elem_of_app; [eauto|]. by apply list_elem_of_singleton in Hin as [= -> _].
  - rewrite <- Hrest, Hnil in Hbase |- *. apply (Hbase _ (delete c (connections_ s))); try done.
    + intros d Hd. by rewrite lookup_delete_ne.
    + intros j. by rewrite lookup_delete_eq.
    + intros w Hw Hok. assert (Hkn := Hall w Hw). fold (known c k w) in Hkn. split; [|split; [|done]].
      * eapply ok_env; [..|eapply undo_ok; [exact Hok|done|exact Hkn|by apply Nat.eqb_neq]]; auto.
        -- intros d [? ?]%lookup_delete_Some. split; [by intros ->|done].
        -- intros d o _ _ [Hd Hm]. left. by rewrite lookup_delete_ne.
      * intros d o Hd Hgone. exists o. unfold resolveEstablishmentRollback. by destruct (recorded _ _ _).
Qed.

Lemma world_new n : world_ok (fun _ => 0) (TcpServer_new n).
Proof.
  split; try done; cbn; auto.
  - intros i w [-> _]%lookup_replicate. split; cbn; try done; try set_solver.
  - intros c Hc. by apply elem_of_nil in Hc.
  - intros i c Hc. by apply elem_of_nil in Hc.
Qed.

Lemma step_world own s l s' : world_ok own s -> step l s = Some s' -> exists own', world_ok own' s'.
Proof.
  intros H. unfold step. destruct (fatal s); [done|].
  assert (Hev : forall l, match base_todo s with [] => base_event l s | _ => None end = Some s' -> exists own', world_ok own' s').
  { intros l0. destruct (base_todo s) eqn:Ht; [|done]. by apply base_event_world with own. }
  destruct l; try exact (Hev _).
  - destruct (base_todo s) as [|o rest] eqn:Ht; [done|]. unfold base_op. destruct (is_setup o) eqn:Ho.
    + intros [= <-]. exists own. by eapply setup_op_world.
    + intros Hs. exists own. by eapply stop_op_world.
  - intros Hs. exists own. exact (world_foreign _ _ _ _ H Hs).
  - intros Hs. exists own. exact (world_foreign _ _ _ _ H Hs).
  - intros Hs. exists own. exact (world_foreign _ _ _ _ H Hs).
  - destruct (joined s) eqn:Hj; [done|]. destruct (workers s !! i) as [w|] eqn:Hw; [|done].
    destruct (worker_step l w) as [[w' m]|] eqn:Hs; [|done]. intros [= <-]. exists own. by eapply world_worker.
Qed.

Lemma reachable_world n s : reachable n s -> exists own, world_ok own s.
Proof. induction 1 as [|l s s' _ [own IH] Hs]; [exists (fun _ => 0); apply world_new|by eapply step_world]. Qed.

(** ** Properties *)

(** How a future is completed while its server lives and the base loop runs. *)
Definition completed_by_stop (s : TcpServer) (r : TcpServerStopResult) : Prop :=
  joined s = true \/ outcome r = AlreadyStopped /\ stopped_ s = true.

Lemma complete_once s o a b :
  results_ok s -> is_Some (gracefulStopState_ s) ->
  exists r, results (complete (mkResult o a b) s) = [r] /\ (completed_by_stop s r \/ outcome r = o).
Proof.
  unfold results_ok, completed_by_stop, complete. intros H [g Hg]. rewrite Hg in *.
  destruct (completed g); [naive_solver|]. rewrite H. cbn. eauto.
Qed.

(** C6. The threads of the pool are joined only when no connection is left in the map
    and every connection any worker ever had is closed, however connections are set up,
    fail, close and are stopped meanwhile.  The future of a graceful stop is completed at
    most once: after the join, or, when another stop had begun before it, with
    [AlreadyStopped], which may be before that stop's join.  The two completions outside
    the protocol keep to once: the destructor's gives [ServerDestroyed], and that of a
    request whose signal is refused gives [SchedulingFailed] and forgets the request,
    unless the future was completed already. *)
Theorem stop_is_safe n s :
  reachable n s ->
  (joined s = true -> connections_ s = ∅ /\ forall i w c o, workers s !! i = Some w -> objects w !! c = Some o -> cstate o = Disconnected) /\
  (results s = [] \/ exists r, results s = [r] /\ completed_by_stop s r) /\
  (is_Some (gracefulStopState_ s) ->
   (exists r, results (destroy_future s) = [r] /\ (completed_by_stop s r \/ outcome r = ServerDestroyed)) /\
   (exists r, results (schedulingFailed s) = [r] /\ (completed_by_stop s r \/ outcome r = SchedulingFailed) /\
      gracefulStopState_ (schedulingFailed s) = None)).
Proof.
  intros [own H]%reachable_world. assert (Hr := w_results _ _ H). split_and!.
  - intros Hj. destruct (w_joined _ _ H Hj) as (_ & ? & ?). done.
  - unfold results_ok in Hr. destruct (gracefulStopState_ s) as [g|]; [|by left].
    destruct (completed g); [by right|by left].
  - intros Hg. split.
    + unfold destroy_future. assert (Hg' := Hg). destruct Hg' as [g ->]. by apply complete_once.
    + destruct (complete_once s SchedulingFailed 0 0 Hr Hg) as (r & ? & ?). by exists r.
Qed.

(** *** Schedules *)

Lemma server_run_reachable n ls s s' : reachable n s -> run_steps ls s = Some s' -> reachable n s'.
Proof.
  revert s. induction ls as [|l ls IH]; intros s Hs; cbn [run_steps]; [by intros [= <-]|].
  destruct (step l s) as [s1|] eqn:H1; [|done]. apply IH. by eapply reachable_step.
Qed.

(** A connection is accepted and established. *)
Definition accept_one : list Label := [BAccept 0 (Posted true); BRun; BRun; BRun; BRun].
Definition base_runs (k : nat) : list Label := repeat BRun k.
Definition worker_runs (i k : nat) : list Label := repeat (W i WRun) k.
Definition establish : list Label := [W 0 WTask; W 0 WLifecycle] ++ worker_runs 0 3.

(** A graceful stop whose connection closes in time. *)
Definition graceful_schedule : list Label :=
  accept_one ++ establish ++ [BStopGracefully false] ++ base_runs 8 ++
  [W 0 WLifecycle] ++ worker_runs 0 4 ++ [W 0 (WClose 0)] ++ worker_runs 0 1 ++
  [BLifecycle] ++ base_runs 6 ++ [W 0 WLifecycle] ++ worker_runs 0 3 ++ [BLifecycle] ++ base_runs 7.

Definition graceful_end : TcpServer := default (TcpServer_new 1) (run_steps graceful_schedule (TcpServer_new 1)).

Lemma stop_is_safe_witness :
  joined graceful_end = true /\ results graceful_end = [mkResult Drained 1 0] /\
  (connections_ graceful_end = ∅ /\ forall i w c o, workers graceful_end !! i = Some w -> objects w !! c = Some o -> cstate o = Disconnected).
Proof.
  assert (Hj : joined graceful_end = true) by by vm_compute. split; [done|]. split; [by vm_compute|].
  refine (proj1 (stop_is_safe 1 graceful_end _) Hj).
  apply (server_run_reachable 1 graceful_schedule (TcpServer_new 1)); [apply reachable_start|]. by vm_compute.
Defined.

(** *** A stop that meets a connection being established *)

(** The worker serves its lifecycle node before the functor that establishes. *)
Definition race_schedule : list Label :=
  accept_one ++ [BStopGracefully true] ++ base_runs 9 ++
  [W 0 WLifecycle] ++ worker_runs 0 4 ++ [W 0 WTask; W 0 (WClose 0); W 0 WLifecycle] ++ worker_runs 0 4 ++ [BTask].

Definition raced_end : TcpServer := default (TcpServer_new 1) (run_steps race_schedule (TcpServer_new 1)).

(** A worker whose pending connection has lost the participant's callback. *)
Record stuck_worker (w : Worker) : Prop := {
  sw_generation : generation (participant w) = 1;
  sw_installed : callbacksInstalled (participant w) = true;
  sw_issued : forceIssued (participant w) = true;
  sw_quiet : locallyQuiet (participant w) = false;
  sw_ack : ackReported (participant w) = false;
  sw_pending : pendingConnectionNames (participant w) = [0];
  sw_records : records w = [];
  sw_objects : objects w = {[ 0 := mkObject Disconnected ToServer ]};
  sw_functors : functors w = [];
  sw_todo : forall o, o ∈ todo w -> match o with Drain | Drive _ => True | Finish 1 _ false false => True | _ => False end;
}.

(** A forced stop that waits for it. *)
Record stuck (s : TcpServer) : Prop := {
  st_worker : exists w, workers s = [w] /\ stuck_worker w;
  st_stopped : stopped_ s = true;
  st_aggregate : exists a, aggregateStopState_ s = Some a /\ a_generation a = 1 /\ a_joined a = false /\ a_forceStarted a = true;
  st_graceful : exists g, gracefulStopState_ s = Some g /\ completed g = false /\ begun g = true /\ forceStarted g = true;
  st_todo : forall o, o ∈ base_todo s -> match o with Rollbacks _ | BeginGraceful | TakeImmediate | Consume | Release _ | CheckAcks => True | _ => False end;
  st_results : results s = [];
  st_joined : joined s = false;
}.

Lemma stuck_worker_step l w w' m : stuck_worker w -> worker_step l w = Some (w', m) -> stuck_worker w'.
Proof.
  intros []. unfold worker_step. destruct l, (todo w) as [|o rest] eqn:Ht; try done.
  - intros [= Hs]. assert (Ho := sw_todo0 o ltac:(by left)).
    assert (Hrest : forall x, x ∈ rest -> match x with Drain | Drive _ => True | Finish 1 _ false false => True | _ => False end) by (intros x Hx; apply sw_todo0; by right).
    destruct o as [|arm| | |[|[|g]] arm [|] [|]|]; try done; cbn [worker_op] in Hs.
    + unfold drain in Hs. cbn [set_ops participant] in Hs. rewrite sw_records0 in Hs. injection Hs as <- <-. split; try done.
      intros x [->|Hx]%elem_of_cons; [done|by apply Hrest].
    + unfold drive in Hs. cbn [set_ops participant] in Hs. rewrite sw_generation0, sw_installed0, sw_issued0 in Hs. cbn in Hs.
      assert (Hbd : bool_decide (pendingConnectionNames (participant w) = []) = false) by by rewrite sw_pending0.
      rewrite Hbd in Hs. cbn in Hs. rewrite sw_quiet0, andb_false_r in Hs. cbn in Hs. rewrite ?andb_false_r in Hs. cbn in Hs.
      replace (match command (participant w) with Force => true | _ => false end && false) with false in Hs by (by destruct (command (participant w))).
      injection Hs as <- <-. split; cbn; try done. intros x [->|Hx]%elem_of_cons; [by rewrite sw_generation0|by apply Hrest].
    + unfold finish in Hs. cbn [set_ops participant] in Hs. rewrite sw_pending0 in Hs. cbn in Hs.
      rewrite andb_false_r in Hs. cbn in Hs. injection Hs as <- <-. by destruct arm.
  - destruct (_ && _); [|done]. intros [= <- <-]. split; try done. cbn. by intros x ->%list_elem_of_singleton.
  - by rewrite sw_functors0.
  - rewrite sw_objects0. destruct (decide (c = 0)) as [->|]; [by rewrite lookup_singleton_eq|by rewrite lookup_singleton_ne].
Qed.

Lemma stuck_force s : stuck s -> stuck (requestAggregateForceInLoop ForcedByImmediateStop s).
Proof.
  intros []. destruct st_aggregate0 as (a & Ha & Hg & Hj & Hf). unfold requestAggregateForceInLoop. rewrite Ha, Hj, Hf.
  split; try done. by eexists.
Qed.

Lemma stuck_rest s o rest : stuck s -> base_todo s = o :: rest -> stuck (set_todo rest s).
Proof. intros [] Ht. split; try done. intros x Hx. apply st_todo0. rewrite Ht. by right. Qed.

Lemma stuck_push s l : stuck s -> (forall o, o ∈ l -> match o with Rollbacks _ | BeginGraceful | TakeImmediate | Consume | Release _ | CheckAcks => True | _ => False end) -> stuck (base_push l s).
Proof. intros [] Hl. split; try done. cbn. intros x [Hx|Hx]%elem_of_app; [exact (Hl x Hx)|exact (st_todo0 x Hx)]. Qed.

Lemma stuck_requests s im sg d : stuck s -> stuck (set_requests im sg d s).
Proof. by intros []. Qed.

Lemma stuck_drive s : stuck s -> stuck (driveStopLifecycleInLoop s).
Proof.
  intros H. apply stuck_push; [done|]. intros o [(i & -> & _)%list_elem_of_fmap|Ho]%elem_of_app; [done|].
  repeat (apply elem_of_cons in Ho as [->|Ho]; [done|]). by apply elem_of_nil in Ho.
Qed.

Lemma stuck_op s o rest s' : stuck s -> base_todo s = o :: rest -> base_op o (set_todo rest s) = Some s' -> stuck s'.
Proof.
  intros H Ht. assert (H1 := stuck_rest _ _ _ H Ht). assert (Ho := st_todo _ H o ltac:(rewrite Ht; by left)).
  revert H1. generalize (set_todo rest s). clear H Ht s rest. intros s H. assert (H1 := H). destruct H1 as [(w & Hw & [])  Hst (a & Ha & Hga & Hja & Hfa) (g & Hg & Hcg & Hbg & Hfg) _ _ _].
  destruct o; try done; unfold base_op; cbn [is_setup stop_op].
  - rewrite Hw. intros [= <-]. destruct i as [|i]; [|done]. cbn. by rewrite sw_records0.
  - rewrite Hg, Hcg, Hbg. by intros [= <-].
  - intros [= <-]. destruct (immediateStopRequested_ s); [|done]. unfold stopInLoop. cbn [aggregateStopState_ set_requests]. rewrite Ha.
    by apply stuck_force, stuck_requests.
  - rewrite Ha, Hja. intros [= <-]. apply stuck_push; [done|]. intros o [(i & -> & _)%list_elem_of_fmap| ->%list_elem_of_singleton]%elem_of_app; done.
  - rewrite Ha, Hw. intros [= <-]. destruct i as [|i]; [|done]. cbn. by rewrite sw_quiet0, orb_true_r.
  - rewrite Ha. unfold all_acknowledged. rewrite Hw. cbn. rewrite sw_ack0, andb_false_r. cbn. rewrite andb_false_r. by intros [= <-].
Qed.

Lemma stuck_step l s s' : stuck s -> step l s = Some s' -> stuck s'.
Proof.
  intros H. assert (H1 := H). destruct H1 as [(w & Hw & Hsw) Hst (a & Ha & Hga & Hja & Hfa) (g & Hg & Hcg & Hbg & Hfg) _ Hr Hj].
  unfold step. destruct (fatal s); [done|]. destruct l; cbn [base_event foreign_event].
  - destruct (base_todo s) as [|o rest] eqn:Ht; [done|]. by eapply stuck_op.
  - destruct (base_todo s); [|done]. destruct (base_signalled s); [|done]. intros [= <-]. by apply stuck_drive, stuck_requests.
  - destruct (base_todo s) eqn:Ht; [|done]. destruct (base_functors s) as [|t rest]; [done|]. intros [= <-].
    assert (stuck (set_functors rest s)) by by destruct H. destruct t; cbn [base_task aggregateStopState_ gracefulStopState_ set_functors].
    + by rewrite Ha, Hja.
    + by rewrite Hg, Hcg, Hfg.
  - destruct (base_todo s); [|done]. rewrite Hg. destruct (timeoutTimer g); [|done]. intros [= <-]. unfold forceGracefulStopInLoop. cbn. rewrite Hcg, Hfg. cbn.
    unfold stop_timer. rewrite Hg. destruct H. split; try done. eexists. split; [done|]. done.
  - destruct (base_todo s); [|done]. by rewrite Hst.
  - destruct (base_todo s); [|done]. intros [= <-]. by apply stuck_drive, stuck_requests.
  - destruct (base_todo s); [|done]. by rewrite Hg.
  - intros [= <-]. by apply stuck_requests.
  - by rewrite Hg.
  - destruct (due s); [done|]. intros [= <-]. by apply stuck_requests.
  - rewrite Hj, Hw. destruct i as [|i]; [|done]. cbn. destruct (worker_step l w) as [[w' m]|] eqn:Hstep; [|done]. intros [= <-].
    assert (Hsw' := stuck_worker_step _ _ _ _ Hsw Hstep). unfold deliver. replace (set_workers (<[0 := w']>) s) with (set_workers (fun _ => [w']) s) by (unfold set_workers; by rewrite Hw).
    assert (stuck (set_functors (base_functors s ++ post_base m) (set_workers (fun _ => [w']) s))) by (destruct H; split; try done; by exists w').
    destruct (signal_base m); [|done]. by apply (stuck_requests (set_functors (base_functors s ++ post_base m) (set_workers (fun _ => [w']) s))).
Qed.

Lemma stuck_forever ls s s' : stuck s -> run_steps ls s = Some s' -> stuck s'.
Proof.
  revert s. induction ls as [|l ls IH]; intros s H; cbn [run_steps]; [by intros [= <-]|].
  destruct (step l s) as [s1|] eqn:H1; [|done]. apply IH. by eapply stuck_step.
Qed.

(** C30. A stop that meets a connection being established may never end: the worker
    serves the stop before the functor that establishes the connection, which then
    replaces the close callback of the stop by that of the server; every connection is
    closed and no thread has anything to do, and yet, although the stop is forced, its
    future is never completed and the threads are never joined, whatever anybody does
    afterwards. *)
Theorem stop_racing_establishment_hangs :
  exists s, reachable 1 s /\ at_rest s = true /\
    (forall i w c o, workers s !! i = Some w -> objects w !! c = Some o -> cstate o = Disconnected) /\
    (exists a, aggregateStopState_ s = Some a /\ a_forceStarted a = true) /\
    forall ls s', run_steps ls s = Some s' -> results s' = [] /\ joined s' = false.
Proof.
  exists raced_end. split; [|split; [by vm_compute|split; [|split]]].
  - apply (server_run_reachable 1 race_schedule (TcpServer_new 1)); [apply reachable_start|]. by vm_compute.
  - assert (Hs : forallb (fun w => forallb (fun e => match cstate (snd e) with Disconnected => true | _ => false end) (map_to_list (objects w))) (workers raced_end) = true) by by vm_compute.
    intros i w c o Hw Ho. rewrite forallb_forall in Hs. assert (H1 := Hs w (proj1 (list_elem_of_In _ _) (list_elem_of_lookup_2 _ _ _ Hw))).
    rewrite forallb_forall in H1. assert (H2 := H1 (c, o) (proj1 (list_elem_of_In _ _) (proj2 (elem_of_map_to_list _ _ _) Ho))). cbn in H2. by destruct (cstate o).
  - eexists. split; [vm_compute; reflexivity|]. done.
  - intros ls s' Hrun. assert (Hst : stuck raced_end).
    { split; [|by vm_compute|eexists; split; [vm_compute; reflexivity|done]|eexists; split; [vm_compute; reflexivity|done]| |by vm_compute|by vm_compute].
      - eexists. split; [vm_compute; reflexivity|]. split; try done; cbn. intros o Ho. by apply elem_of_nil in Ho.
      - assert (base_todo raced_end = []) as -> by by vm_compute. intros o Ho. by apply elem_of_nil in Ho. }
    destruct (stuck_forever _ _ _ Hst Hrun). done.
Qed.

(** *** A graceful stop that finishes too early *)

(** The last connection leaves after [stopGracefully] has published its state on another
    thread and before its signal. *)
Definition early_schedule : list Label :=
  accept_one ++ establish ++ [FStopGracefully false; W 0 (WClose 0); BTask; BTask; W 0 WTask] ++ base_runs 1.

Definition early_end : TcpServer := default (TcpServer_new 1) (run_steps early_schedule (TcpServer_new 1)).

(** A graceful stop may report that the server is drained without having stopped it:
    when the last connection leaves between the publication of the stop and its signal,
    the threads are joined and the future is completed as [Drained] while the server is
    not stopped and still accepts, and the next connection is fatal. *)
Theorem graceful_stop_may_end_early :
  exists s, reachable 1 s /\ results s = [mkResult Drained 0 0] /\ joined s = true /\ stopped_ s = false /\ fatal s = false /\
    forall e, exists s', step (BAccept 0 e) s = Some s' /\ fatal s' = true.
Proof.
  exists early_end. repeat split; try by vm_compute.
  - apply (server_run_reachable 1 early_schedule (TcpServer_new 1)); [apply reachable_start|]. by vm_compute.
  - intros e. eexists. split; [vm_compute; reflexivity|]. done.
Qed.
