(* ===== verification/TcpClient.v ===== *)
(** * TCP client

    Model of [TcpClient] and [TcpClientControl] (src/core/net/TcpClient.cc): requests to
    connect, disconnect and stop from any thread, the connector's events, the one
    connection, retry and the mail box of the control handle.

    A step is what a thread does between two accesses to state it shares: the owner's
    functions are cut at the critical sections of [admissionMutex_] and at the reads of
    [activeConnectRequestId_], and [todo] holds what the running callback has still to
    do.  User callbacks and synchronous results of the connector come in tail position,
    except between the end of a connection and its removal, where the user may call the
    client as well.  Connector and connections are what the client sees of them:
    [engaged] says that the connector has been started and owes a result, which
    [Connector.request_not_forgotten] and [Connector.connector_coherent] are about.  Steps
    in which a 64-bit counter would wrap around are left out. *)

From S2P Require Import Prelude Transport Connector.

Local Open Scope Z_scope.

(** ** State *)

(** What the client sees of a connection; [Disconnected]: its close callback is due. *)
Inductive ConnState := Connected | Disconnecting | Disconnected.

#[export] Instance ConnState_eq_dec : EqDecision ConnState.
Proof. solve_decision. Defined.

Inductive Operation := Connect | Disconnect | Stop.

(** Functors of the owner's queue. *)
Inductive Functor :=
  | ConnectInLoop (requestId generation : Z)
  | DisconnectInLoop (generation : Z)
  | StopInLoop (generation : Z)
  | SetRetryInLoop (enabled : bool).

(** How the hand-over of a descriptor goes: the addresses cannot be read, the connection
    cannot be set up or established, or it is established. *)
Inductive HandOver := NoAddress | NotEstablished | Established.

(** What the owner's callback has still to do. *)
Inductive Todo :=
  | CheckLatest (f : Functor)                       (** [isLatestAcceptedOperation] *)
  | ConnectBody (requestId : Z)                     (** [connectInLoop] after it *)
  | DisconnectBody                                  (** [disconnectInLoop] after it *)
  | StopBody                                        (** [stopInLoop] after it *)
  | NewConnection (h : HandOver)                    (** [newConnection] *)
  | Adopt (requestId : Z) (h : HandOver)            (** [newConnection] after its check *)
  | ReleaseRequest (requestId : Z)                  (** [finishTerminalConnectFailure]: the critical section *)
  | RemoveConnection (k : nat)                      (** [removeConnection] *)
  | Reconnect (requestId pendingReconnectId : Z)    (** its check for a pending request *)
  | Retry (requestId : Z)                           (** its check for a retry *)
  | ReleaseRemoved (requestId : Z).                 (** its last critical section *)

(** [TcpClientControl::State]; [accepting] and [target] change together. *)
Record Control := mkControl {
  accepting : bool;
  pendingOperation : option Operation;
  nextGeneration : Z;
  pendingGeneration : Z;
}.

(** [alive]: [lifetimeToken_]; [failures]: the requests whose terminal failure was
    reported. *)
Record TcpClient := mkClient {
  retry_ : bool;
  nextConnectRequestId_ : Z;
  activeConnectRequestId_ : Z;
  connect_ : bool;
  connectorRequestId_ : Z;
  connectionRequestId_ : Z;
  pendingReconnectRequestId_ : Z;
  pendingTerminalConnectRequestId_ : Z;
  pendingTerminalConnectEvent_ : ConnectorEvent;
  nextOperationGeneration_ : Z;
  latestAcceptedOperationGeneration_ : Z;
  nextConnId_ : nat;
  connection_ : option nat;
  control : Control;
  alive : bool;
  failures : list Z;
}.

(** The client in its loop.  [connections]: those not yet removed; [asserted]: an
    assertion of [removeConnection] has failed; [signalled]: the lifecycle node;
    [open]: the executor accepts functors, until the loop is asked to quit. *)
Record World := mkWorld {
  client : TcpClient;
  engaged : bool;
  connector_state : Connector.StateE;
  connections : gmap nat ConnState;
  queue : list Functor;
  todo : list Todo;
  signalled : bool;
  asserted : bool;
  open : bool;
}.

Definition TcpClient_new (retry : bool) : TcpClient :=
  mkClient retry 1 0 false 0 0 0 0 ConnectFailed 1 0 1 None (mkControl true None 1 0) true [].
Definition World_new (retry : bool) : World := mkWorld (TcpClient_new retry) false kDisconnected ∅ [] [] false false true.

Definition set_client (f : TcpClient -> TcpClient) (s : World) : World :=
  mkWorld (f (client s)) (engaged s) (connector_state s) (connections s) (queue s) (todo s) (signalled s) (asserted s) (open s).
Definition set_connector (e : bool) (st : Connector.StateE) (s : World) : World :=
  mkWorld (client s) e st (connections s) (queue s) (todo s) (signalled s) (asserted s) (open s).
Definition set_connections (m : gmap nat ConnState) (s : World) : World :=
  mkWorld (client s) (engaged s) (connector_state s) m (queue s) (todo s) (signalled s) (asserted s) (open s).
Definition set_queue (l : list Functor) (s : World) : World :=
  mkWorld (client s) (engaged s) (connector_state s) (connections s) l (todo s) (signalled s) (asserted s) (open s).
Definition set_todo (l : list Todo) (s : World) : World :=
  mkWorld (client s) (engaged s) (connector_state s) (connections s) (queue s) l (signalled s) (asserted s) (open s).
Definition set_signalled (b : bool) (s : World) : World :=
  mkWorld (client s) (engaged s) (connector_state s) (connections s) (queue s) (todo s) b (asserted s) (open s).
Definition set_asserted (b : bool) (s : World) : World :=
  mkWorld (client s) (engaged s) (connector_state s) (connections s) (queue s) (todo s) (signalled s) b (open s).
Definition set_open (b : bool) (s : World) : World :=
  mkWorld (client s) (engaged s) (connector_state s) (connections s) (queue s) (todo s) (signalled s) (asserted s) b.

(** The next counters. *)
Definition set_counters (request generation : Z) (c : TcpClient) : TcpClient :=
  mkClient (retry_ c) request (activeConnectRequestId_ c) (connect_ c) (connectorRequestId_ c) (connectionRequestId_ c) (pendingReconnectRequestId_ c) (pendingTerminalConnectRequestId_ c) (pendingTerminalConnectEvent_ c) generation (latestAcceptedOperationGeneration_ c) (nextConnId_ c) (connection_ c) (control c) (alive c) (failures c).
(** The active request and the latest accepted operation. *)
Definition set_accepted (active latest : Z) (c : TcpClient) : TcpClient :=
  mkClient (retry_ c) (nextConnectRequestId_ c) active (connect_ c) (connectorRequestId_ c) (connectionRequestId_ c) (pendingReconnectRequestId_ c) (pendingTerminalConnectRequestId_ c) (pendingTerminalConnectEvent_ c) (nextOperationGeneration_ c) latest (nextConnId_ c) (connection_ c) (control c) (alive c) (failures c).
Definition set_connect (b : bool) (c : TcpClient) : TcpClient :=
  mkClient (retry_ c) (nextConnectRequestId_ c) (activeConnectRequestId_ c) b (connectorRequestId_ c) (connectionRequestId_ c) (pendingReconnectRequestId_ c) (pendingTerminalConnectRequestId_ c) (pendingTerminalConnectEvent_ c) (nextOperationGeneration_ c) (latestAcceptedOperationGeneration_ c) (nextConnId_ c) (connection_ c) (control c) (alive c) (failures c).
Definition set_connectorRequest (r : Z) (c : TcpClient) : TcpClient :=
  mkClient (retry_ c) (nextConnectRequestId_ c) (activeConnectRequestId_ c) (connect_ c) r (connectionRequestId_ c) (pendingReconnectRequestId_ c) (pendingTerminalConnectRequestId_ c) (pendingTerminalConnectEvent_ c) (nextOperationGeneration_ c) (latestAcceptedOperationGeneration_ c) (nextConnId_ c) (connection_ c) (control c) (alive c) (failures c).
(** The connection, its request and the request that waits for its end. *)
Definition set_connection (k : option nat) (r p : Z) (c : TcpClient) : TcpClient :=
  mkClient (retry_ c) (nextConnectRequestId_ c) (activeConnectRequestId_ c) (connect_ c) (connectorRequestId_ c) r p (pendingTerminalConnectRequestId_ c) (pendingTerminalConnectEvent_ c) (nextOperationGeneration_ c) (latestAcceptedOperationGeneration_ c) (nextConnId_ c) k (control c) (alive c) (failures c).
Definition set_terminal (r : Z) (e : ConnectorEvent) (c : TcpClient) : TcpClient :=
  mkClient (retry_ c) (nextConnectRequestId_ c) (activeConnectRequestId_ c) (connect_ c) (connectorRequestId_ c) (connectionRequestId_ c) (pendingReconnectRequestId_ c) r e (nextOperationGeneration_ c) (latestAcceptedOperationGeneration_ c) (nextConnId_ c) (connection_ c) (control c) (alive c) (failures c).
Definition set_retry (b : bool) (c : TcpClient) : TcpClient :=
  mkClient b (nextConnectRequestId_ c) (activeConnectRequestId_ c) (connect_ c) (connectorRequestId_ c) (connectionRequestId_ c) (pendingReconnectRequestId_ c) (pendingTerminalConnectRequestId_ c) (pendingTerminalConnectEvent_ c) (nextOperationGeneration_ c) (latestAcceptedOperationGeneration_ c) (nextConnId_ c) (connection_ c) (control c) (alive c) (failures c).
Definition set_nextConnId (n : nat) (c : TcpClient) : TcpClient :=
  mkClient (retry_ c) (nextConnectRequestId_ c) (activeConnectRequestId_ c) (connect_ c) (connectorRequestId_ c) (connectionRequestId_ c) (pendingReconnectRequestId_ c) (pendingTerminalConnectRequestId_ c) (pendingTerminalConnectEvent_ c) (nextOperationGeneration_ c) (latestAcceptedOperationGeneration_ c) n (connection_ c) (control c) (alive c) (failures c).
Definition set_control (k : Control) (c : TcpClient) : TcpClient :=
  mkClient (retry_ c) (nextConnectRequestId_ c) (activeConnectRequestId_ c) (connect_ c) (connectorRequestId_ c) (connectionRequestId_ c) (pendingReconnectRequestId_ c) (pendingTerminalConnectRequestId_ c) (pendingTerminalConnectEvent_ c) (nextOperationGeneration_ c) (latestAcceptedOperationGeneration_ c) (nextConnId_ c) (connection_ c) k (alive c) (failures c).
Definition set_alive (b : bool) (c : TcpClient) : TcpClient :=
  mkClient (retry_ c) (nextConnectRequestId_ c) (activeConnectRequestId_ c) (connect_ c) (connectorRequestId_ c) (connectionRequestId_ c) (pendingReconnectRequestId_ c) (pendingTerminalConnectRequestId_ c) (pendingTerminalConnectEvent_ c) (nextOperationGeneration_ c) (latestAcceptedOperationGeneration_ c) (nextConnId_ c) (connection_ c) (control c) b (failures c).
Definition report_failure (r : Z) (c : TcpClient) : TcpClient :=
  mkClient (retry_ c) (nextConnectRequestId_ c) (activeConnectRequestId_ c) (connect_ c) (connectorRequestId_ c) (connectionRequestId_ c) (pendingReconnectRequestId_ c) (pendingTerminalConnectRequestId_ c) (pendingTerminalConnectEvent_ c) (nextOperationGeneration_ c) (latestAcceptedOperationGeneration_ c) (nextConnId_ c) (connection_ c) (control c) (alive c) (failures c ++ [r]).

(** ** Admission *)

(** The connection of the active request has ended and waits to be removed. *)
Definition endedLifecycleAwaitingRemoval (s : World) : bool :=
  match connection_ (client s) with
  | Some k => bool_decide (connections s !! k = Some Disconnected)
  | None => false
  end && (connectionRequestId_ (client s) =? activeConnectRequestId_ (client s)) && (pendingReconnectRequestId_ (client s) =? 0).

(** A request to connect that needs no new lifecycle. *)
Definition coalesced (s : World) : bool :=
  negb (activeConnectRequestId_ (client s) =? 0) && negb (endedLifecycleAwaitingRemoval s).

(** The functor of an operation, with the next identities. *)
Definition functor_of (o : Operation) (c : TcpClient) : Functor :=
  match o with
  | Connect => ConnectInLoop (nextConnectRequestId_ c) (nextOperationGeneration_ c)
  | Disconnect => DisconnectInLoop (nextOperationGeneration_ c)
  | Stop => StopInLoop (nextOperationGeneration_ c)
  end.

(** The critical section of [tryConnect], [tryDisconnect] and [tryStop]: the identities
    are taken, and the operation is published if it is accepted. *)
Definition admit_operation (o : Operation) (accepted : bool) (c : TcpClient) : TcpClient :=
  let r := nextConnectRequestId_ c in
  let g := nextOperationGeneration_ c in
  let c := set_counters (match o with Connect => r ⊕ 1 | _ => r end) (g ⊕ 1) c in
  if accepted then set_accepted (match o with Connect => r | _ => 0 end) g c else c.

Definition is_connect (o : Operation) : bool := match o with Connect => true | _ => false end.

(** On another thread: the functor is posted, with the result of the executor. *)
Definition try_posted (o : Operation) (posted : PostResult) (s : World) : World * PostResult :=
  if is_connect o && coalesced s then (s, PostAccepted)
  else
    let ok := match posted with PostAccepted => true | _ => false end in
    let s' := set_client (admit_operation o ok) s in
    (if ok then set_queue (queue s ++ [functor_of o (client s)]) s' else s', posted).

(** On the owner's thread: the operation is carried out at once, unless the executor is
    closed. *)
Definition try_inline (o : Operation) (s : World) : World * PostResult :=
  if negb (open s) then try_posted o PostShutdown s
  else if is_connect o && coalesced s then (s, PostAccepted)
  else (set_todo (CheckLatest (functor_of o (client s)) :: todo s) (set_client (admit_operation o true) s), PostAccepted).

(** [TcpClientControl::post], with the result of the signal. *)
Definition control_post (o : Operation) (signal : PostResult) (s : World) : World * PostResult :=
  let k := control (client s) in
  if negb (accepting k) then (s, PostOwnerUnavailable)
  else if nextGeneration k =? 0 then (s, PostShutdown)
  else
    match signal with
    | PostAccepted => (set_signalled true (set_client (set_control (mkControl true (Some o) (nextGeneration k ⊕ 1) (nextGeneration k))) s), PostAccepted)
    | r => (set_client (set_control (mkControl true None (nextGeneration k ⊕ 1) 0)) s, r)
    end.

(** ** The owner *)

Definition generation_of (f : Functor) : option Z :=
  match f with ConnectInLoop _ g | DisconnectInLoop g | StopInLoop g => Some g | SetRetryInLoop _ => None end.

(** [setRetryInLoop] is not subject to the check. *)
Definition setRetryInLoop (b : bool) (s : World) : World := set_client (set_retry b) s.

(** [isLatestAcceptedOperation], at the start of the three operations. *)
Definition check_latest (f : Functor) (s : World) : World :=
  match generation_of f with
  | Some g =>
      if latestAcceptedOperationGeneration_ (client s) =? g then
        set_todo (match f with ConnectInLoop r _ => ConnectBody r | DisconnectInLoop _ => DisconnectBody | _ => StopBody end :: todo s) s
      else s
  | None => s
  end.

(** The connector is started, restarted or stopped; a start changes nothing when it has
    connected, which a restart undoes first. *)
Definition connector_start (s : World) : World :=
  match connector_state s with
  | kConnected => s
  | _ => set_connector true kConnecting s
  end.
Definition connector_restart (s : World) : World :=
  connector_start (match connector_state s with kConnected => set_connector (engaged s) kDisconnected s | _ => s end).
Definition connector_stop (s : World) : World := set_connector false kDisconnected s.

(** [connectInLoop] *)
Definition connect_body (r : Z) (s : World) : World :=
  if negb (activeConnectRequestId_ (client s) =? r) then s
  else
    let s := set_client (set_connect true) s in
    match connection_ (client s) with
    | Some k =>
        if bool_decide (connections s !! k = Some Connected) then set_client (set_connection (Some k) r 0) s
        else set_client (set_connection (Some k) (connectionRequestId_ (client s)) r) s
    | None =>
        let s := set_client (set_connectorRequest r) s in
        match connector_state s with
        | kConnecting => connector_start s
        | kConnected => connector_restart s
        | kDisconnected => connector_start s
        end
    end.

(** [TcpConnection::shutdown] *)
Definition shutdown (k : nat) (s : World) : World :=
  match connections s !! k with
  | Some Connected => set_connections (<[k := Disconnecting]> (connections s)) s
  | _ => s
  end.

(** [disconnectInLoop] *)
Definition disconnect_body (s : World) : World :=
  let s := set_client (set_connect false) s in
  match connection_ (client s) with
  | Some k => shutdown k s
  | None => connector_stop s
  end.

(** [stopInLoop] *)
Definition stop_body (s : World) : World := connector_stop (set_client (set_connect false) s).

(** The first part of [finishTerminalConnectFailure]. *)
Definition finishTerminalConnectFailure (r : Z) (s : World) : World :=
  let c := client s in
  if negb (pendingTerminalConnectRequestId_ c =? r) then s
  else
    let c := set_terminal 0 (pendingTerminalConnectEvent_ c) c in
    let c := if connectorRequestId_ c =? r then set_connectorRequest 0 c else c in
    set_todo (ReleaseRequest r :: todo s) (set_client (fun _ => c) s).

(** Its critical section, and the callback. *)
Definition release_request (r : Z) (s : World) : World :=
  if activeConnectRequestId_ (client s) =? r then
    set_client (fun c => report_failure r (set_accepted 0 (latestAcceptedOperationGeneration_ c) c)) s
  else s.

(** [handleConnectorEvent] *)
Definition handleConnectorEvent (e : ConnectorEvent) (s : World) : World :=
  let c := client s in
  match e with
  | RetryScheduled | ConnectSuccess => set_client (set_terminal 0 (pendingTerminalConnectEvent_ c)) s
  | TerminalFailure => if pendingTerminalConnectRequestId_ c =? 0 then s else finishTerminalConnectFailure (pendingTerminalConnectRequestId_ c) s
  | ConnectAttempt => s
  | _ => if connectorRequestId_ c =? 0 then s else set_client (set_terminal (connectorRequestId_ c) e) s
  end.

(** [newConnection]: its check, *)
Definition new_connection (h : HandOver) (s : World) : World :=
  let r := connectorRequestId_ (client s) in
  if (r =? 0) || negb (activeConnectRequestId_ (client s) =? r) then s
  else set_todo (Adopt r h :: todo s) s.

(** and the rest. *)
Definition adopt (r : Z) (h : HandOver) (s : World) : World :=
  let c := client s in
  match h with
  | NoAddress =>
      if retry_ c && connect_ c then connector_restart (set_client (set_connectorRequest r) s)
      else finishTerminalConnectFailure r (set_client (set_terminal r (pendingTerminalConnectEvent_ c)) s)
  | NotEstablished =>
      finishTerminalConnectFailure r
        (set_client (fun c => set_terminal r ConnectFailed (set_connection None 0 0 (set_nextConnId (S (nextConnId_ c)) c))) s)
  | Established =>
      set_connections (<[nextConnId_ c := Connected]> (connections s))
        (set_client (fun c => set_connection (Some (nextConnId_ c)) r 0 (set_nextConnId (S (nextConnId_ c)) c)) s)
  end.

(** [removeConnection]: the connection is let go, *)
Definition remove_connection (k : nat) (s : World) : World :=
  let c := client s in
  if bool_decide (connection_ c = Some k) then
    set_todo (Reconnect (connectionRequestId_ c) (pendingReconnectRequestId_ c) :: todo s)
      (set_connections (delete k (connections s)) (set_client (set_connection None 0 0) s))
  else set_asserted true s.

(** a pending request is served, *)
Definition reconnect (r p : Z) (s : World) : World :=
  let c := client s in
  if negb (p =? 0) && (activeConnectRequestId_ c =? p) && connect_ c then connector_restart (set_client (set_connectorRequest p) s)
  else set_todo (Retry r :: todo s) s.

(** or the connection is retried, *)
Definition retry_removed (r : Z) (s : World) : World :=
  let c := client s in
  if negb (r =? 0) && (activeConnectRequestId_ c =? r) && retry_ c && connect_ c then connector_restart (set_client (set_connectorRequest r) s)
  else set_todo (ReleaseRemoved r :: todo s) s.

(** or its request is over. *)
Definition release_removed (r : Z) (s : World) : World :=
  if activeConnectRequestId_ (client s) =? r then set_client (fun c => set_accepted 0 (latestAcceptedOperationGeneration_ c) c) s else s.

Definition owner_step (t : Todo) (s : World) : World :=
  match t with
  | CheckLatest f => check_latest f s
  | ConnectBody r => connect_body r s
  | DisconnectBody => disconnect_body s
  | StopBody => stop_body s
  | NewConnection h => new_connection h s
  | Adopt r h => adopt r h s
  | ReleaseRequest r => release_request r s
  | RemoveConnection k => remove_connection k s
  | Reconnect r p => reconnect r p s
  | Retry r => retry_removed r s
  | ReleaseRemoved r => release_removed r s
  end.

(** The next functor; after destruction they do nothing. *)
Definition run_functor (f : Functor) (s : World) : World :=
  if negb (alive (client s)) then s
  else match f with SetRetryInLoop b => setRetryInLoop b s | _ => set_todo (CheckLatest f :: todo s) s end.

(** [driveControlInLoop] *)
Definition driveControlInLoop (s : World) : World :=
  let k := control (client s) in
  if negb (accepting k) then s
  else
    let s := set_client (set_control (mkControl true None (nextGeneration k) 0)) s in
    match pendingOperation k with Some o => fst (try_inline o s) | None => s end.

(** The destructor: connections close with a callback of their own. *)
Definition TcpClient_destroy (s : World) : World :=
  let c := client s in
  let c := set_control (mkControl false None (nextGeneration (control c)) 0) c in
  let c := set_accepted 0 (nextOperationGeneration_ c) (set_counters (nextConnectRequestId_ c) (nextOperationGeneration_ c ⊕ 1) (set_alive false c)) in
  let c := set_terminal 0 (pendingTerminalConnectEvent_ c) (set_connection None (connectionRequestId_ c) 0 c) in
  connector_stop (set_connections ∅ (set_client (fun _ => c) s)).

(** ** The machine *)

Inductive Label :=
  | Post (o : Operation) (r : PostResult)           (** an operation on another thread *)
  | PostRetry (b : bool) (r : PostResult)           (** [trySetRetry] on another thread *)
  | ControlPost (o : Operation) (r : PostResult)    (** an operation through a control handle *)
  | Inline (o : Operation)                          (** an operation on the owner's thread *)
  | InlineRetry (b : bool)                          (** [trySetRetry] on the owner's thread *)
  | Run                                             (** the owner's callback goes on *)
  | Next                                            (** the next functor *)
  | Control_                                        (** the lifecycle node is served *)
  | ConnectorMoves (st : Connector.StateE)          (** the connector's state changes *)
  | FailRetried (e : ConnectorEvent)                (** an attempt fails and is retried *)
  | FailTerminal (e : ConnectorEvent)               (** an attempt fails for good *)
  | Deliver (h : HandOver)                          (** the connector hands a descriptor over *)
  | ShutDown (k : nat)                              (** the connection is shut down by the user *)
  | Down (k : nat)                                  (** a connection ends, before its close callback *)
  | Quit                                            (** the loop is asked to quit *)
  | Destroy.

Definition is_failure (e : ConnectorEvent) : bool := match e with ConnectFailed | SelfConnectDetected | ConnectTimeout => true | _ => false end.

(** User code may run: no callback is running, or that of a connection's end. *)
Definition user_code (s : World) : bool := match todo s with [] | RemoveConnection _ :: _ => true | _ => false end.

(** No counter is at its end. *)
Definition counters_left (s : World) : bool :=
  (nextConnectRequestId_ (client s) <? usize_max) && (nextOperationGeneration_ (client s) <? usize_max).

(** A closed executor accepts nothing. *)
Definition posts (r : PostResult) (s : World) : bool := match r with PostAccepted => open s | _ => true end.

(** A step of another thread. *)
Definition other_step (l : Label) (s : World) : option World :=
  match l with
  | Post o r => if alive (client s) && counters_left s && posts r s then Some (fst (try_posted o r s)) else None
  | PostRetry b r => if alive (client s) && posts r s then Some (match r with PostAccepted => set_queue (queue s ++ [SetRetryInLoop b]) s | _ => s end) else None
  | ControlPost o r => Some (fst (control_post o r s))
  | Quit => Some (set_open false s)
  | _ => None
  end.

(** An event of the owner's loop. *)
Definition loop_event (l : Label) (s : World) : option World :=
  match l with
  | Next => match queue s with f :: rest => Some (run_functor f (set_queue rest s)) | [] => None end
  | Control_ => if signalled s && counters_left s then Some (driveControlInLoop (set_signalled false s)) else None
  | ConnectorMoves st => Some (set_connector (engaged s) st s)
  | FailRetried e => if engaged s && is_failure e then Some (handleConnectorEvent RetryScheduled (handleConnectorEvent e s)) else None
  | FailTerminal e => if engaged s && is_failure e then Some (handleConnectorEvent TerminalFailure (handleConnectorEvent e (set_connector false kDisconnected s))) else None
  | Deliver h => if engaged s then let s := handleConnectorEvent ConnectSuccess (set_connector false kConnected s) in Some (set_todo (NewConnection h :: todo s) s) else None
  | ShutDown k => Some (shutdown k s)
  | Down k =>
      match connections s !! k with
      | Some Disconnected | None => None
      | Some _ => Some (set_todo (RemoveConnection k :: todo s) (set_connections (<[k := Disconnected]> (connections s)) s))
      end
  | Destroy => if alive (client s) && counters_left s then Some (TcpClient_destroy s) else None
  | _ => None
  end.

Definition step (l : Label) (s : World) : option World :=
  match l with
  | Post _ _ | PostRetry _ _ | ControlPost _ _ | Quit => other_step l s
  | Run => match todo s with t :: rest => Some (owner_step t (set_todo rest s)) | [] => None end
  | Inline o => if user_code s && alive (client s) && counters_left s then Some (fst (try_inline o s)) else None
  | InlineRetry b => if user_code s && alive (client s) then Some (if open s then setRetryInLoop b s else s) else None
  | _ => match todo s with [] => loop_event l s | _ => None end
  end.

Fixpoint run_steps (ls : list Label) (s : World) : option World :=
  match ls with
  | [] => Some s
  | l :: ls => match step l s with Some s => run_steps ls s | None => None end
  end.

(** The worlds that steps lead to from a new client. *)
Inductive reachable (retry : bool) : World -> Prop :=
  | reachable_new : reachable retry (World_new retry)
  | reachable_step l s s' : reachable retry s -> step l s = Some s' -> reachable retry s'.

(** ** The invariant *)

(** Operations under way. *)
Definition pending_op (f : Functor) (s : World) : Prop := f ∈ queue s \/ CheckLatest f ∈ todo s.

(** The active request is about to be carried out. *)
Definition coming (s : World) : Prop :=
  pending_op (ConnectInLoop (activeConnectRequestId_ (client s)) (latestAcceptedOperationGeneration_ (client s))) s \/
  ConnectBody (activeConnectRequestId_ (client s)) ∈ todo s.

Definition ending (t : Todo) : bool := match t with DisconnectBody | StopBody => true | _ => false end.

(** Somebody works on request [a]. *)
Definition served (a : Z) (s : World) : Prop :=
  (engaged s = true /\ connectorRequestId_ (client s) = a) \/
  (exists h, NewConnection h ∈ todo s /\ connectorRequestId_ (client s) = a) \/
  (exists h, Adopt a h ∈ todo s) \/
  ReleaseRequest a ∈ todo s \/
  (exists k, connection_ (client s) = Some k /\ (connectionRequestId_ (client s) = a \/ pendingReconnectRequestId_ (client s) = a)) \/
  (exists r p, Reconnect r p ∈ todo s /\ (r = a \/ p = a)) \/
  Retry a ∈ todo s \/ ReleaseRemoved a ∈ todo s.

(** The latest accepted operation has still to take effect. *)
Definition latest_pending (s : World) : Prop :=
  (exists f, pending_op f s /\ generation_of f = Some (latestAcceptedOperationGeneration_ (client s))) \/
  (exists t, t ∈ todo s /\ ending t = true) \/
  ConnectBody (activeConnectRequestId_ (client s)) ∈ todo s.

Definition is_operation (t : Todo) : bool := match t with CheckLatest _ | ConnectBody _ | DisconnectBody | StopBody => true | _ => false end.
(** The parts of the owner's functions that run with nothing below them. *)
Definition is_phase (t : Todo) : bool := match t with NewConnection _ | Adopt _ _ | ReleaseRequest _ | Reconnect _ _ | Retry _ | ReleaseRemoved _ => true | _ => false end.

Definition shape (l : list Todo) : Prop :=
  match l with
  | [] | [_] => True
  | [t; RemoveConnection _] => is_operation t = true
  | _ => False
  end.

(** Requests that have been carried out. *)
Definition ids (t : Todo) : list Z :=
  match t with Adopt r _ | ReleaseRequest r | Retry r | ReleaseRemoved r => [r] | Reconnect r p => [r; p] | _ => [] end.

Definition used (r : Z) (s : World) : Prop :=
  r = connectorRequestId_ (client s) \/ r = connectionRequestId_ (client s) \/ r = pendingReconnectRequestId_ (client s) \/
  r = pendingTerminalConnectRequestId_ (client s) \/ exists t, t ∈ todo s /\ r ∈ ids t.

Definition checked (t : Todo) : option Functor := match t with CheckLatest f => Some f | _ => None end.
(** The generations of the operations under way. *)
Definition generations (s : World) : list Z := omap generation_of (omap checked (todo s) ++ queue s).

Record ok (s : World) : Prop := {
  ok_shape : shape (todo s);
  ok_request : 1 <= nextConnectRequestId_ (client s) <= usize_max;
  ok_active : 0 <= activeConnectRequestId_ (client s) < nextConnectRequestId_ (client s);
  ok_next : 0 <= latestAcceptedOperationGeneration_ (client s) < nextOperationGeneration_ (client s) /\ nextOperationGeneration_ (client s) <= usize_max;
  ok_ops : forall f g, pending_op f s -> generation_of f = Some g ->
    g < nextOperationGeneration_ (client s) /\
    (g = latestAcceptedOperationGeneration_ (client s) ->
     match f with ConnectInLoop r _ => activeConnectRequestId_ (client s) = r | _ => activeConnectRequestId_ (client s) = 0 end);
  ok_unique : NoDup (generations s);
  ok_connects : forall r g, pending_op (ConnectInLoop r g) s -> 0 < r < nextConnectRequestId_ (client s);
  ok_bodies : forall r, ConnectBody r ∈ todo s -> 0 < r < nextConnectRequestId_ (client s) /\
    (r = activeConnectRequestId_ (client s) -> latestAcceptedOperationGeneration_ (client s) ∉ generations s);
  ok_used : forall r, used r s -> r < nextConnectRequestId_ (client s) /\
    (r = activeConnectRequestId_ (client s) -> r <> 0 -> ~ coming s);
  ok_engaged : engaged s = true -> connection_ (client s) = None /\ connectorRequestId_ (client s) <> 0;
  ok_phase : forall t, t ∈ todo s -> is_phase t = true -> engaged s = false /\ connection_ (client s) = None;
  ok_adopt : forall r h, Adopt r h ∈ todo s -> r <> 0 /\ (r = activeConnectRequestId_ (client s) \/ latest_pending s);
  ok_release : forall r, ReleaseRequest r ∈ todo s -> r <> 0;
  ok_connection : forall k, is_Some (connections s !! k) <-> connection_ (client s) = Some k;
  ok_conn_id : forall k, connection_ (client s) = Some k -> (k < nextConnId_ (client s))%nat;
  ok_down : forall k, connections s !! k = Some Disconnected <-> RemoveConnection k ∈ todo s;
  ok_ending : forall t, t ∈ todo s -> ending t = true ->
    activeConnectRequestId_ (client s) = 0 \/ ConnectInLoop (activeConnectRequestId_ (client s)) (latestAcceptedOperationGeneration_ (client s)) ∈ queue s;
  ok_served : activeConnectRequestId_ (client s) <> 0 -> coming s \/ connect_ (client s) = true /\ served (activeConnectRequestId_ (client s)) s;
  ok_quiet : engaged s = true -> connectorRequestId_ (client s) = activeConnectRequestId_ (client s) \/ latest_pending s;
  ok_failures : NoDup (failures (client s)) /\ forall r, r ∈ failures (client s) -> 0 < r < nextConnectRequestId_ (client s) /\ r <> activeConnectRequestId_ (client s);
  ok_asserted : asserted s = false;
  ok_dead : alive (client s) = false -> todo s = [] /\ engaged s = false /\ connection_ (client s) = None /\ accepting (control (client s)) = false /\ activeConnectRequestId_ (client s) = 0;
}.

(** *** Small facts *)

Lemma ok_new retry : ok (World_new retry).
Proof.
  split; unfold pending_op; cbn; try done; try lia; try set_solver.
  - constructor.
  - intros r Hr. split; [|intros -> Hne; by destruct Hne]. unfold used in Hr. cbn in Hr. destruct Hr as [?|[?|[?|[?|(t & Ht & _)]]]]; [lia..|]. by apply elem_of_nil in Ht.
  - intros k. rewrite lookup_empty. by split; [intros []|].
  - split; [constructor|]. set_solver.
Qed.

(** Only what the invariant does not mention has changed. *)
Lemma ok_same s s' :
  ok s -> todo s' = todo s -> queue s' = queue s -> engaged s' = engaged s -> connections s' = connections s -> asserted s' = asserted s ->
  activeConnectRequestId_ (client s') = activeConnectRequestId_ (client s) -> latestAcceptedOperationGeneration_ (client s') = latestAcceptedOperationGeneration_ (client s) ->
  nextConnectRequestId_ (client s) <= nextConnectRequestId_ (client s') <= usize_max -> nextOperationGeneration_ (client s) <= nextOperationGeneration_ (client s') <= usize_max ->
  connect_ (client s') = connect_ (client s) -> connectorRequestId_ (client s') = connectorRequestId_ (client s) -> connectionRequestId_ (client s') = connectionRequestId_ (client s) ->
  pendingReconnectRequestId_ (client s') = pendingReconnectRequestId_ (client s) ->
  (pendingTerminalConnectRequestId_ (client s') = 0 \/ used (pendingTerminalConnectRequestId_ (client s')) s) -> connection_ (client s') = connection_ (client s) -> nextConnId_ (client s') = nextConnId_ (client s) ->
  failures (client s') = failures (client s) -> alive (client s') = alive (client s) ->
  (accepting (control (client s)) = false -> accepting (control (client s')) = false) -> ok s'.
Proof.
  intros [] Ht Hq He Hc Has Ha Hl Hr Hg Hco Hcr Hcn Hpr Hpt Hk Hn Hf Hal Hac.
  assert (Hu : forall r, used r s' -> r = 0 \/ used r s).
  { intros r. unfold used. rewrite Hcr, Hcn, Hpr, Ht. intros [?|[?|[?|[->|?]]]]; [auto..| |auto 10]. destruct Hpt; auto. }
  split; unfold coming, served, latest_pending, pending_op, generations in *;
    rewrite ?Ht, ?Hq, ?He, ?Hc, ?Has, ?Ha, ?Hl, ?Hco, ?Hcr, ?Hcn, ?Hpr, ?Hk, ?Hn, ?Hf, ?Hal; try done; try lia.
  - intros f g Hp Hgen. destruct (ok_ops0 f g Hp Hgen). split; [lia|done].
  - intros r g Hp. specialize (ok_connects0 r g Hp). lia.
  - intros r Hr'. destruct (ok_bodies0 r Hr'). split; [lia|done].
  - intros r Hr'. destruct (Hu r Hr') as [->|Hr2]; [split; [lia|done]|]. destruct (ok_used0 r Hr2). split; [lia|done].
  - split; [apply ok_failures0|]. intros r Hin. destruct (proj2 ok_failures0 r Hin). split; [lia|done].
  - intros Hd. destruct (ok_dead0 Hd) as (? & ? & ? & ? & ?). auto 10.
Qed.

Lemma coalesced_false s : coalesced s = false ->
  activeConnectRequestId_ (client s) = 0 \/ exists k, connection_ (client s) = Some k /\ connections s !! k = Some Disconnected.
Proof.
  unfold coalesced, endedLifecycleAwaitingRemoval. intros H. apply andb_false_iff in H as [H|H]; [left; apply negb_false_iff, Z.eqb_eq in H; done|right].
  apply negb_false_iff in H. apply andb_prop in H as [[H _]%andb_prop _]. destruct (connection_ (client s)) as [k|]; [|done].
  apply bool_decide_eq_true in H. eauto.
Qed.

Lemma counters_left_spec s : ok s -> counters_left s = true -> nextConnectRequestId_ (client s) < usize_max /\ nextOperationGeneration_ (client s) < usize_max.
Proof. intros H Hc. apply andb_prop in Hc as [H1%Z.ltb_lt H2%Z.ltb_lt]. done. Qed.

(** Nothing is accepted: identities are used up. *)
Lemma ok_refused o s : ok s -> counters_left s = true -> ok (set_client (admit_operation o false) s).
Proof.
  intros H Hc. destruct (counters_left_spec _ H Hc). assert (Hr := ok_request _ H). assert (Hg := ok_next _ H). assert (Ha := ok_active _ H).
  apply (ok_same s); try done; cbn; [| |right; unfold used; auto 10].
  - destruct o; unwrap; lia.
  - unwrap. lia.
Qed.

(** Names for what an accepted operation publishes. *)
Lemma admit_fields o c :
  nextConnectRequestId_ c < usize_max -> nextOperationGeneration_ c < usize_max -> 0 <= nextConnectRequestId_ c -> 0 <= nextOperationGeneration_ c ->
  activeConnectRequestId_ (admit_operation o true c) = (if is_connect o then nextConnectRequestId_ c else 0) /\
  latestAcceptedOperationGeneration_ (admit_operation o true c) = nextOperationGeneration_ c /\
  nextConnectRequestId_ (admit_operation o true c) = (if is_connect o then nextConnectRequestId_ c + 1 else nextConnectRequestId_ c) /\
  nextOperationGeneration_ (admit_operation o true c) = nextOperationGeneration_ c + 1.
Proof. intros. unfold admit_operation. cbn. destruct o; cbn; unwrap; done. Qed.

(** An accepted operation is published together with its functor or its execution. *)
Lemma ok_accepted o s s' :
  ok s -> counters_left s = true -> alive (client s) = true -> (is_connect o = true -> coalesced s = false) ->
  client s' = admit_operation o true (client s) -> engaged s' = engaged s -> connections s' = connections s -> asserted s' = asserted s ->
  (queue s' = queue s ++ [functor_of o (client s)] /\ todo s' = todo s \/
   queue s' = queue s /\ todo s' = CheckLatest (functor_of o (client s)) :: todo s /\ user_code s = true) ->
  ok s'.
Proof.
  intros H Hcl Hal Hco Hc He Hcs Has Hwhere. destruct (counters_left_spec _ H Hcl) as [Hr Hg].
  assert (Hreq := ok_request _ H). assert (Hnext := ok_next _ H). assert (Hact := ok_active _ H).
  destruct (admit_fields o (client s)) as (HA & HL & HR & HG); [lia..|]. rewrite <- Hc in HA, HL, HR, HG.
  set (f := functor_of o (client s)) in *.
  assert (Hf : generation_of f = Some (latestAcceptedOperationGeneration_ (client s'))) by (rewrite HL; unfold f; by destruct o).
  assert (Hpend : pending_op f s') by (unfold pending_op; destruct Hwhere as [[-> _]|(_ & -> & _)]; [left|right]; set_solver).
  assert (Hold : forall g, pending_op g s' -> pending_op g s \/ g = f).
  { unfold pending_op. intros g. destruct Hwhere as [[-> ->]|(-> & -> & _)]; set_solver. }
  assert (Hmem : forall t, t ∈ todo s' -> t ∈ todo s \/ t = CheckLatest f) by (intros t; destruct Hwhere as [[_ ->]|(_ & -> & _)]; set_solver).
  assert (Hsub : forall t, t ∈ todo s -> t ∈ todo s') by (intros t; destruct Hwhere as [[_ ->]|(_ & -> & _)]; set_solver).
  assert (Hshape : shape (todo s')).
  { destruct Hwhere as [[_ ->]|(_ & -> & Hu)]; [apply H|]. unfold user_code in Hu. assert (Hsh := ok_shape _ H).
    destruct (todo s) as [|[] [|[] []]]; done. }
  assert (Hnoend : forall t, t ∈ todo s' -> ending t = true -> (exists l, queue s' = l ++ [f])).
  { destruct Hwhere as [[-> ->]|(-> & -> & Hu)]; [eauto|]. intros t Ht Hend. exfalso. apply elem_of_cons in Ht as [->|Ht]; [done|].
    unfold user_code in Hu. assert (Hsh := ok_shape _ H). destruct (todo s) as [|[] [|[] []]]; try done; set_solver. }
  assert (Hsame : connection_ (client s') = connection_ (client s) /\ connectorRequestId_ (client s') = connectorRequestId_ (client s) /\
    nextConnId_ (client s') = nextConnId_ (client s) /\ failures (client s') = failures (client s) /\ alive (client s') = alive (client s) /\
    connectionRequestId_ (client s') = connectionRequestId_ (client s) /\ pendingReconnectRequestId_ (client s') = pendingReconnectRequestId_ (client s) /\
    pendingTerminalConnectRequestId_ (client s') = pendingTerminalConnectRequestId_ (client s)) by (rewrite Hc; by destruct o).
  destruct Hsame as (Hk & Hcr & Hn & Hfl & Hali & Hcn & Hpr & Hpt).
  assert (Hu : forall r, used r s' -> used r s).
  { intros r. unfold used. rewrite Hcr, Hcn, Hpr, Hpt. intros [?|[?|[?|[?|(t & Ht & Hrt)]]]]; [auto..|]. apply Hmem in Ht as [Ht| ->]; [eauto 10|]. by apply elem_of_nil in Hrt. }
  assert (Hgens : generations s' ≡ₚ latestAcceptedOperationGeneration_ (client s') :: generations s).
  { unfold generations. destruct Hwhere as [[-> ->]|(-> & -> & _)].
    - rewrite !omap_app. cbn. rewrite Hf. by rewrite app_assoc, <- Permutation_cons_append.
    - cbn. rewrite Hf. done. }
  assert (Hnew : forall n, n ∈ generations s -> n < nextOperationGeneration_ (client s)).
  { intros n Hin. apply list_elem_of_omap in Hin as (g & Hin & Hgn). apply (ok_ops _ H g n); [|done]. apply elem_of_app in Hin as [Hin|Hin]; [right|by left].
    apply list_elem_of_omap in Hin as (t & Hin & Hct). destruct t; try done. by injection Hct as ->. }
  destruct H. split; rewrite ?HA, ?HL, ?HR, ?HG, ?He, ?Hcs, ?Has, ?Hk, ?Hcr, ?Hn, ?Hfl, ?Hali; try done.
  - destruct o; cbn; lia.
  - destruct o; cbn; lia.
  - lia.
  - intros g n Hp Hgen. destruct (Hold g Hp) as [Hp'| ->].
    + destruct (ok_ops0 g n Hp' Hgen). split; [lia|intros; exfalso; lia].
    + rewrite Hf in Hgen. injection Hgen as <-. rewrite HL. split; [lia|]. intros _. unfold f. by destruct o.
  - rewrite Hgens. apply NoDup_cons. split; [|done]. rewrite HL. intros Hin. apply Hnew in Hin. lia.
  - intros r g Hp. destruct (Hold _ Hp) as [Hp'|Heq]; [specialize (ok_connects0 _ _ Hp'); destruct o; cbn; lia|].
    unfold f in Heq. destruct o; try done. injection Heq as -> ->. cbn. lia.
  - intros r Hr'. apply Hmem in Hr' as [Hr'|?]; [|done]. destruct (ok_bodies0 r Hr') as [? _]. split; [destruct o; cbn; lia|]. destruct o; cbn; lia.
  - intros r Hr'. apply Hu in Hr'. destruct (ok_used0 r Hr') as [? _]. split; [destruct o; cbn; lia|]. destruct o; cbn; lia.
  - intros t Ht Hph. apply Hmem in Ht as [?| ->]; [eauto|done].
  - intros r h Hin. apply Hmem in Hin as [Hin|?]; [|done]. split; [by apply (ok_adopt0 r h)|]. right. left. eauto.
  - intros r Hin. apply Hmem in Hin as [Hin|?]; [|done]. by apply (ok_release0 r).
  - intros k. rewrite ok_down0. split; [apply Hsub|]. intros Hin. by apply Hmem in Hin as [?|?].
  - intros t Ht Hend. destruct (Hnoend t Ht Hend) as [l ->]. destruct o; cbn; [right|by left..].
    apply elem_of_app. right. apply list_elem_of_singleton. done.
  - intros Hne. left. left. rewrite HA, HL. destruct o; cbn in *; done.
  - intros _. right. left. eauto.
  - split; [apply ok_failures0|]. intros r Hin. destruct (proj2 ok_failures0 r Hin). destruct o; cbn; lia.
  - intros Hd. congruence.
Qed.

Lemma try_posted_ok o r s : ok s -> counters_left s = true -> alive (client s) = true -> ok (fst (try_posted o r s)).
Proof.
  intros H Hc Ha. unfold try_posted. destruct (is_connect o && coalesced s) eqn:Hco; [done|].
  assert (Hco' : is_connect o = true -> coalesced s = false) by (intros Ho; by rewrite Ho in Hco).
  destruct r; try (by apply ok_refused). by eapply (ok_accepted o s); [..|left].
Qed.

Lemma try_inline_ok o s : ok s -> counters_left s = true -> alive (client s) = true -> user_code s = true -> ok (fst (try_inline o s)).
Proof.
  intros H Hc Ha Hu. unfold try_inline. destruct (negb (open s)); [by apply try_posted_ok|].
  destruct (is_connect o && coalesced s) eqn:Hco; [done|].
  assert (Hco' : is_connect o = true -> coalesced s = false) by (intros Ho; by rewrite Ho in Hco).
  by eapply (ok_accepted o s); [..|right].
Qed.

(** *** Steps of the owner *)

(** What is below a part of a function. *)
Lemma shape_rest t rest : shape (t :: rest) -> rest = [] \/ is_operation t = true /\ exists k, rest = [RemoveConnection k].
Proof. destruct rest as [|[] []]; cbn; intros H; try done; eauto. Qed.

(** Memberships in lists of at most one element. *)
Ltac nomem :=
  intros; try match goal with |- ~ _ => intro end; repeat match goal with
  | H : _ ∈ [] |- _ => by apply elem_of_nil in H
  | H : _ ∈ [_] |- _ => apply list_elem_of_singleton in H
  end; try done.

(** Counters that only grow. *)
#[local] Hint Extern 0 (_ <= _)%nat => apply Nat.le_refl : core.

(** The top of the stack is replaced by [l]. *)
Record replaces (t : Todo) (rest l : list Todo) (s s' : World) : Prop := {
  rp_old : todo s = t :: rest;
  rp_new : todo s' = l ++ rest;
  rp_queue : queue s' = queue s;
  rp_asserted : asserted s' = asserted s;
  rp_shape : shape (l ++ rest);
  rp_alive : alive (client s') = alive (client s);
  rp_request : nextConnectRequestId_ (client s') = nextConnectRequestId_ (client s);
  rp_generation : nextOperationGeneration_ (client s') = nextOperationGeneration_ (client s);
  rp_latest : latestAcceptedOperationGeneration_ (client s') = latestAcceptedOperationGeneration_ (client s);
  rp_checks : forall f, CheckLatest f ∉ l;
}.

Section Replace.
Context (t : Todo) (rest l : list Todo) (s s' : World).
Hypothesis R : replaces t rest l s s'.

Lemma in_new x : x ∈ todo s' <-> x ∈ l \/ x ∈ rest.
Proof. destruct R. rewrite rp_new0. apply elem_of_app. Qed.

Lemma in_old x : x ∈ todo s <-> x = t \/ x ∈ rest.
Proof. destruct R. rewrite rp_old0. apply elem_of_cons. Qed.

(** [rest] holds at most the removal of the connection. *)
Lemma in_rest x : ok s -> x ∈ rest -> exists k, x = RemoveConnection k.
Proof.
  intros H. assert (Hsh := ok_shape _ H). rewrite (rp_old _ _ _ _ _ R) in Hsh. destruct (shape_rest _ _ Hsh) as [->|(_ & k & ->)]; [nomem|].
  intros ->%list_elem_of_singleton. eauto.
Qed.

(** Operations under way stay, but for the top. *)
Lemma pending_below f : pending_op f s -> t <> CheckLatest f -> pending_op f s'.
Proof.
  intros [Hq|Ht] Hne; [left; by rewrite (rp_queue _ _ _ _ _ R)|right].
  apply in_new. apply in_old in Ht as [?|?]; [congruence|auto].
Qed.

Lemma pending_above f : pending_op f s' -> pending_op f s.
Proof.
  intros [Hq|Ht]; [left; by rewrite <- (rp_queue _ _ _ _ _ R)|right].
  apply in_old. apply in_new in Ht as [Hl|?]; [by apply (rp_checks _ _ _ _ _ R) in Hl|auto].
Qed.

Lemma generations_below : generations s = omap generation_of (omap checked [t]) ++ generations s'.
Proof.
  destruct R. unfold generations. rewrite rp_old0, rp_new0, rp_queue0.
  assert (omap checked l = []) as Hl.
  { assert (forall x, x ∈ l -> checked x = None) as Hx by (intros [] ?; try done; by destruct (rp_checks0 f)).
    clear - Hx. induction l as [|x m IH]; [done|]. cbn. rewrite (Hx x) by set_solver. apply IH. intros y Hy. apply Hx. set_solver. }
  rewrite !omap_app, Hl. cbn. destruct (checked t) as [f|]; cbn; [|done]. by destruct (generation_of f).
Qed.

(** The active request is no longer coming unless it was. *)
Lemma coming_above :
  activeConnectRequestId_ (client s') = activeConnectRequestId_ (client s) -> ConnectBody (activeConnectRequestId_ (client s)) ∉ l -> coming s' -> coming s.
Proof.
  intros HA Hl [Hp|Hb].
  - left. rewrite HA, (rp_latest _ _ _ _ _ R) in Hp. by apply pending_above.
  - right. rewrite HA in Hb. apply in_old. apply in_new in Hb as [?|?]; auto. done.
Qed.

(** A step of the owner that keeps the active request and the connections. *)
Lemma ok_replace :
  ok s ->
  (forall k, is_Some (connections s' !! k) <-> is_Some (connections s !! k)) ->
  (forall k, connections s' !! k = Some Disconnected <-> connections s !! k = Some Disconnected) ->
  connection_ (client s') = connection_ (client s) -> (nextConnId_ (client s) <= nextConnId_ (client s'))%nat ->
  (forall k, t <> RemoveConnection k) -> (forall k, RemoveConnection k ∉ l) ->
  activeConnectRequestId_ (client s') = activeConnectRequestId_ (client s) -> failures (client s') = failures (client s) ->
  (forall r, ConnectBody r ∈ l -> 0 < r < nextConnectRequestId_ (client s) /\ (r = activeConnectRequestId_ (client s) -> latestAcceptedOperationGeneration_ (client s) ∉ generations s')) ->
  (forall r, used r s' -> r < nextConnectRequestId_ (client s) /\ (r = activeConnectRequestId_ (client s) -> r <> 0 -> ~ coming s')) ->
  (engaged s' = true -> connection_ (client s) = None /\ connectorRequestId_ (client s') <> 0) ->
  (forall x, x ∈ l -> is_phase x = true -> engaged s' = false /\ connection_ (client s) = None) ->
  (forall r h, Adopt r h ∈ l -> r <> 0 /\ (r = activeConnectRequestId_ (client s) \/ latest_pending s')) ->
  (forall r, ReleaseRequest r ∈ l -> r <> 0) ->
  (forall x, x ∈ l -> ending x = true -> activeConnectRequestId_ (client s) = 0 \/ ConnectInLoop (activeConnectRequestId_ (client s)) (latestAcceptedOperationGeneration_ (client s)) ∈ queue s) ->
  (activeConnectRequestId_ (client s) <> 0 -> coming s' \/ connect_ (client s') = true /\ served (activeConnectRequestId_ (client s)) s') ->
  (engaged s' = true -> connectorRequestId_ (client s') = activeConnectRequestId_ (client s) \/ latest_pending s') ->
  ok s'.
Proof.
  intros H Hcs1 Hcs2 Hk Hn Htr Hlr HA Hfl Hbody Hus Heng Hph Had Hrel Hend Hserved Hquiet.
  assert (Hdead : alive (client s) = false -> False) by (intros Hd; destruct (ok_dead _ H Hd) as [Ht _]; by rewrite (rp_old _ _ _ _ _ R) in Ht).
  assert (Hpend := pending_above). assert (Hin := in_new). assert (Hio := in_old). assert (Hir := fun x => in_rest x H). assert (Hgen := generations_below).
  destruct H. destruct R. split; rewrite ?rp_request0, ?rp_generation0, ?rp_latest0, ?rp_asserted0, ?rp_alive0, ?rp_queue0, ?HA, ?Hk, ?Hfl; try done.
  - by rewrite rp_new0.
  - intros f g Hp. auto.
  - rewrite Hgen in ok_unique0. by apply NoDup_app in ok_unique0 as (_ & _ & ?).
  - intros r g Hp. eauto.
  - intros r. rewrite Hin. intros [?|Hr]; [by apply Hbody|]. by apply Hir in Hr as [k ?].
  - intros x. rewrite Hin. intros [?|Hr]; [by apply Hph|]. apply Hir in Hr as [k ->]. done.
  - intros r h. rewrite Hin. intros [Hl|Hr]; [exact (Had r h Hl)|]. by apply Hir in Hr as [k ?].
  - intros r. rewrite Hin. intros [Hl|Hr]; [exact (Hrel r Hl)|]. by apply Hir in Hr as [k ?].
  - intros k. rewrite Hcs1. apply ok_connection0.
  - intros k Hk'. specialize (ok_conn_id0 k Hk'). lia.
  - intros k. rewrite Hcs2, ok_down0, Hin, Hio. split; [intros [Heq|?]; [by destruct (Htr k)|auto]|intros [Hl|?]; [by apply Hlr in Hl|auto]].
  - intros x. rewrite Hin. intros [?|Hr]; [by apply Hend|]. apply Hir in Hr as [k ->]. done.
Qed.

(** What serves a request does not depend on the top of the stack, unless it is a phase. *)
Lemma served_below a :
  ok s -> served a s -> is_phase t = false ->
  engaged s' = engaged s -> connectorRequestId_ (client s') = connectorRequestId_ (client s) -> connection_ (client s') = connection_ (client s) ->
  connectionRequestId_ (client s') = connectionRequestId_ (client s) -> pendingReconnectRequestId_ (client s') = pendingReconnectRequestId_ (client s) ->
  served a s'.
Proof.
  intros H Hs Hp He Hcr Hk Hc Hpr. assert (Hkeep : forall x, x ∈ todo s -> is_phase x = true -> x ∈ todo s').
  { intros x Hx Hph. apply in_old in Hx as [->|Hx]; [congruence|]. apply in_new. auto. }
  unfold served in *. rewrite He, Hcr, Hk, Hc, Hpr.
  destruct Hs as [?|[(h & ? & ?)|[(h & ?)|[?|[?|[(r & p & ? & ?)|[?|?]]]]]]]; eauto 15.
Qed.

(** Requests used before. *)
Lemma used_below r :
  used r s' -> connectorRequestId_ (client s') = connectorRequestId_ (client s) -> connectionRequestId_ (client s') = connectionRequestId_ (client s) ->
  pendingReconnectRequestId_ (client s') = pendingReconnectRequestId_ (client s) -> pendingTerminalConnectRequestId_ (client s') = pendingTerminalConnectRequestId_ (client s) ->
  (forall x, x ∈ l -> ids x = []) -> used r s.
Proof.
  unfold used. intros Hu E1 E2 E3 E4 Hl. rewrite E1, E2, E3, E4 in Hu. destruct Hu as [?|[?|[?|[?|(x & Hx & Hr)]]]]; [auto..|].
  apply in_new in Hx as [Hx|Hx]; [rewrite (Hl x Hx) in Hr; by apply elem_of_nil in Hr|]. do 4 right. exists x. split; [|done]. apply in_old. auto.
Qed.

End Replace.

Section OwnerSteps.
Context (s : World) (rest : list Todo) (H : ok s).

(** The top of the stack is dropped, and something else has to answer for it. *)
Lemma replaces_drop t : todo s = t :: rest -> replaces t rest [] s (set_todo rest s).
Proof.
  intros Ht. assert (Hsh := ok_shape _ H). rewrite Ht in Hsh. split; try done; [|nomem]. cbn. destruct (shape_rest _ _ Hsh) as [->|(_ & k & ->)]; done.
Qed.

(** A new top of the same kind. *)
Lemma replaces_op t u : todo s = t :: rest -> is_operation u = true -> (forall f, u <> CheckLatest f) -> replaces t rest [u] s (set_todo (u :: rest) s).
Proof.
  intros Ht Hu Hn. assert (Hsh := ok_shape _ H). rewrite Ht in Hsh. split; try done; cbn.
  - destruct (shape_rest _ _ Hsh) as [->|(_ & k & ->)]; done.
  - intros f Hf%list_elem_of_singleton. by apply (Hn f).
Qed.

Lemma check_latest_ok f : todo s = CheckLatest f :: rest -> ok (check_latest f (set_todo rest s)).
Proof.
  intros Ht. assert (Hpf : pending_op f s) by (right; rewrite Ht; by left).
  unfold check_latest. cbn [client set_todo].
  assert (Hskip : generation_of f <> Some (latestAcceptedOperationGeneration_ (client s)) -> ok (set_todo rest s)).
  { intros Hne. assert (R := replaces_drop _ Ht). assert (Hin := in_old _ _ _ _ _ R).
    assert (Hother : forall r, f <> ConnectInLoop r (latestAcceptedOperationGeneration_ (client s))) by (intros r ->; by apply Hne).
    eapply (ok_replace _ _ _ _ _ R H); try done; nomem.
    - assert (Hu : used r s) by (eapply (used_below _ _ _ _ _ R); try done; nomem). destruct (ok_used _ H r Hu) as [? Hc].
      split; [done|]. intros Hr Hz Hcm. apply Hc; [done..|]. eapply (coming_above _ _ _ _ _ R); try done. nomem.
    - by apply (ok_engaged _ H).
    - destruct (ok_served _ H) as [[Hp|Hb]|[Hco Hs]]; [done|..].
      + left. left. eapply (pending_below _ _ _ _ _ R); [done|]. intros [= Heq]. by apply (Hother (activeConnectRequestId_ (client s))).
      + left. right. by apply Hin in Hb as [?|?].
      + right. split; [done|]. by eapply (served_below _ _ _ _ _ R).
    - destruct (ok_quiet _ H) as [?|[(f' & Hp & Hg)|[(x & Hx & He)|Hx]]]; [done|by left|right..].
      + left. exists f'. split; [|done]. eapply (pending_below _ _ _ _ _ R); [done|]. intros [= ->]. by apply Hne.
      + right. left. apply Hin in Hx as [->|Hx]; [done|]. by exists x.
      + right. right. by apply Hin in Hx as [?|Hx]. }
  destruct (generation_of f) as [g|] eqn:Hg; [|by apply Hskip]. destruct (_ =? g) eqn:Heq; [|apply Hskip; intros [= ->]; by rewrite Z.eqb_refl in Heq].
  apply Z.eqb_eq in Heq. subst g. destruct (ok_ops _ H f _ Hpf Hg) as [_ HA]. specialize (HA eq_refl). clear Hskip.
  set (b := match f with ConnectInLoop r _ => ConnectBody r | DisconnectInLoop _ => DisconnectBody | _ => StopBody end).
  assert (R : replaces (CheckLatest f) rest [b] s (set_todo (b :: rest) s)) by (apply replaces_op; [done|clear; subst b; by destruct f|clear; subst b; intros f'; by destruct f]).
  assert (Hfacts : is_phase b = false /\ (forall k, b <> RemoveConnection k) /\ (forall r h, b <> Adopt r h) /\ (forall r, b <> ReleaseRequest r) /\ ids b = []) by (unfold b; by destruct f).
  destruct Hfacts as (Hb & Hb1 & Hb2 & Hb4 & Hb3).
  assert (Hone : (exists r g, f = ConnectInLoop r g) /\ b = ConnectBody (activeConnectRequestId_ (client s)) \/ ending b = true /\ activeConnectRequestId_ (client s) = 0).
  { unfold b. destruct f; [left; rewrite HA; eauto|by right|by right|done]. }
  assert (HL : latestAcceptedOperationGeneration_ (client s) ∉ generations (set_todo (b :: rest) s)).
  { assert (Hu := ok_unique _ H). rewrite (generations_below _ _ _ _ _ R) in Hu. cbn in Hu. rewrite Hg in Hu. by apply NoDup_cons in Hu as [? _]. }
  clearbody b. eapply (ok_replace _ _ _ _ _ R H); try done; nomem.
  - by apply (Hb1 k).
  - subst b. destruct Hone as [[(r' & g' & ->) [= ->]]|[? _]]; [|done]. split; [cbn in HA; rewrite HA; exact (ok_connects _ H _ _ Hpf)|done].
  - assert (Hu : used r s) by (eapply (used_below _ _ _ _ _ R); try done; nomem; by subst). destruct (ok_used _ H r Hu) as [? Hc].
    split; [done|]. intros Hr Hz Hcm. apply Hc; [done..|]. destruct Hone as [[(r' & g' & ->) _]|[_ Hz']]; [|cbn in Hr; lia].
    left. rewrite HA. assert (g' = latestAcceptedOperationGeneration_ (client s)) as -> by (cbn in Hg; congruence). done.
  - by apply (ok_engaged _ H).
  - congruence.
  - by destruct (Hb2 r h).
  - by destruct (Hb4 r).
  - destruct Hone as [[_ ?]|[_ ?]]; [by subst|by left].
  - left. right. destruct Hone as [[_ ->]|[_ ?]]; [by left|done].
  - right. right. destruct Hone as [[_ ->]|[He _]]; [right; by left|left]. exists b. split; [by left|done].
Qed.

Lemma pending_generation f g s1 : pending_op f s1 -> generation_of f = Some g -> g ∈ generations s1.
Proof.
  intros Hp Hg. unfold generations. apply list_elem_of_omap. exists f. split; [|done]. apply elem_of_app. destruct Hp as [?|Ht]; [by right|left].
  apply list_elem_of_omap. by exists (CheckLatest f).
Qed.

(** The request of a body is not coming any more once the body is taken. *)
Lemma body_taken r l s' :
  replaces (ConnectBody r) rest l s s' -> r = activeConnectRequestId_ (client s) -> activeConnectRequestId_ (client s') = r -> ConnectBody r ∉ l -> ~ coming s'.
Proof.
  intros R Hr HA Hl. destruct (ok_bodies _ H r) as [_ Hb]; [apply (in_old _ _ _ _ _ R); by left|]. specialize (Hb Hr).
  intros [Hp|Hc].
  - apply Hb. rewrite HA, (rp_latest _ _ _ _ _ R) in Hp. eapply pending_generation; [by eapply (pending_above _ _ _ _ _ R)|done].
  - rewrite HA in Hc. apply (in_new _ _ _ _ _ R) in Hc as [?|Hc]; [done|]. by apply (in_rest _ _ _ _ _ R _ H) in Hc as [k ?].
Qed.

Lemma connect_body_ok r : todo s = ConnectBody r :: rest -> ok (connect_body r (set_todo rest s)).
Proof.
  intros Ht. assert (R := replaces_drop _ Ht). assert (Hin := in_old _ _ _ _ _ R).
  unfold connect_body. cbn [client set_todo]. destruct (_ =? r) eqn:HA; cbn [negb].
  - apply Z.eqb_eq in HA. destruct (ok_bodies _ H r) as [Hr0 _]; [rewrite Ht; by left|].
    set (s1 := set_client (set_connect true) (set_todo rest s)).
    assert (Hfresh : forall s', replaces (ConnectBody r) rest [] s s' -> activeConnectRequestId_ (client s') = r -> ~ coming s').
    { intros s' R' HA'. by eapply body_taken; [exact R'|..|nomem]. }
    change (connection_ (client s1)) with (connection_ (client s)). change (connections s1) with (connections s).
    assert (Hold : forall r', used r' s -> r' < nextConnectRequestId_ (client s)) by (intros r' Hu; by apply (ok_used _ H)).
    destruct (connection_ (client s)) as [k|] eqn:Hk.
    + assert (He : engaged s = false) by (destruct (engaged s) eqn:He; [|done]; destruct (ok_engaged _ H He); congruence).
      set (s2 := if bool_decide _ then _ else _).
      assert (R2 : replaces (ConnectBody r) rest [] s s2) by (destruct R; unfold s2; by destruct (bool_decide _)).
      assert (Hs2 : connections s2 = connections s /\ connection_ (client s2) = Some k /\ nextConnId_ (client s2) = nextConnId_ (client s) /\ failures (client s2) = failures (client s) /\
        activeConnectRequestId_ (client s2) = activeConnectRequestId_ (client s) /\ engaged s2 = false /\ connect_ (client s2) = true /\ todo s2 = rest /\
        (connectionRequestId_ (client s2) = r \/ pendingReconnectRequestId_ (client s2) = r) /\
        (forall r', used r' s2 -> r' = r \/ r' = 0 \/ used r' s)).
      { assert (forall x, x ∈ rest -> x ∈ todo s) by (rewrite Ht; by right).
        unfold s2. destruct (bool_decide _); cbn; rewrite He; (do 8 (split; [done|])); (split; [auto|]); intros r' Hu; unfold used in *; cbn in Hu.
        - destruct Hu as [?|[?|[?|[?|(t & ? & ?)]]]]; eauto 10.
        - destruct Hu as [?|[?|[?|[?|(t & ? & ?)]]]]; eauto 10. }
      destruct Hs2 as (Hc2 & Hk2 & Hn2 & Hf2 & HA2 & He2 & Hco2 & Ht2 & Hid & Hu2). clearbody s2.
      apply (ok_replace _ _ _ _ _ R2 H); rewrite ?Hc2, ?Hk2, ?Hn2, ?Hf2, ?HA2, ?He2; try done; nomem.
      * split; [destruct (Hu2 _ H0) as [->|[->|?]]; [lia..|auto]|]. intros _ _. apply Hfresh; congruence.
      * right. split; [done|]. do 4 right. left. exists k. rewrite HA. auto.
    + set (s2 := set_client (set_connectorRequest r) s1).
      replace (match connector_state s2 with kConnecting => _ | kConnected => _ | kDisconnected => _ end) with (set_connector true kConnecting s2)
        by (unfold connector_restart, connector_start; by destruct (connector_state s2) eqn:Econ; rewrite ?Econ).
      assert (R2 : replaces (ConnectBody r) rest [] s (set_connector true kConnecting s2)) by (by destruct R).
      apply (ok_replace _ _ _ _ _ R2 H); try done; nomem.
      * assert (Hu : r0 = r \/ used r0 s).
        { unfold used in *. cbn in H0. destruct H0 as [?|[?|[?|[?|(t & Htt & ?)]]]]; [auto|auto 10..|]. right. do 4 right. exists t. rewrite Ht. split; [by right|done]. }
        split; [destruct Hu as [->|?]; [lia|auto]|]. intros Hr _. apply Hfresh; [done|]. cbn. congruence.
      * split; [done|]. cbn. lia.
      * right. split; [done|]. left. split; [done|]. cbn. congruence.
      * left. cbn. congruence.
  - apply Z.eqb_neq in HA. apply (ok_replace _ _ _ _ _ R H); try done; nomem.
    + assert (Hu : used r0 s) by (eapply (used_below _ _ _ _ _ R); try done; nomem). destruct (ok_used _ H r0 Hu) as [? Hc].
      split; [done|]. intros Hr Hz Hcm. apply Hc; [done..|]. eapply (coming_above _ _ _ _ _ R); try done. nomem.
    + by apply (ok_engaged _ H).
    + destruct (ok_served _ H) as [[Hp|Hb]|[Hco Hs]]; [done|..].
      * left. left. by eapply (pending_below _ _ _ _ _ R).
      * left. right. apply Hin in Hb as [[= ?]|?]; [congruence|done].
      * right. split; [done|]. by eapply (served_below _ _ _ _ _ R).
    + destruct (ok_quiet _ H) as [?|[(f' & Hp & Hg)|[(x & Hx & He)|Hx]]]; [done|by left|right..].
      * left. exists f'. split; [|done]. by eapply (pending_below _ _ _ _ _ R).
      * right. left. apply Hin in Hx as [->|Hx]; [done|]. by exists x.
      * right. right. apply Hin in Hx as [[= ?]|Hx]; [congruence|done].
Qed.

Lemma shutdown_is_Some k s1 j : is_Some (connections (shutdown k s1) !! j) <-> is_Some (connections s1 !! j).
Proof.
  unfold shutdown. destruct (connections s1 !! k) as [[]|] eqn:Hk; try done. cbn. destruct (decide (k = j)) as [<-|Hne]; [|by rewrite lookup_insert_ne].
  rewrite lookup_insert_eq, Hk. by split; intros _.
Qed.

Lemma shutdown_Disconnected k s1 j : connections (shutdown k s1) !! j = Some Disconnected <-> connections s1 !! j = Some Disconnected.
Proof.
  unfold shutdown. destruct (connections s1 !! k) as [[]|] eqn:Hk; try done. cbn. destruct (decide (k = j)) as [<-|Hne]; [|by rewrite lookup_insert_ne].
  by rewrite lookup_insert_eq, Hk.
Qed.

(** The end of a body that gives a request up: another one is queued, if any. *)
Lemma ending_body_ok t s' :
  replaces t rest [] s s' -> is_operation t = true -> ending t = true -> engaged s' = false ->
  (forall k, is_Some (connections s' !! k) <-> is_Some (connections s !! k)) ->
  (forall k, connections s' !! k = Some Disconnected <-> connections s !! k = Some Disconnected) ->
  connection_ (client s') = connection_ (client s) -> (nextConnId_ (client s) <= nextConnId_ (client s'))%nat ->
  activeConnectRequestId_ (client s') = activeConnectRequestId_ (client s) -> failures (client s') = failures (client s) ->
  connectorRequestId_ (client s') = connectorRequestId_ (client s) -> connectionRequestId_ (client s') = connectionRequestId_ (client s) ->
  pendingReconnectRequestId_ (client s') = pendingReconnectRequestId_ (client s) -> pendingTerminalConnectRequestId_ (client s') = pendingTerminalConnectRequestId_ (client s) ->
  ok s'.
Proof.
  intros R Hop Hend He Hc1 Hc2 Hk Hn HA Hf E1 E2 E3 E4. assert (Ht : t ∈ todo s) by (apply (in_old _ _ _ _ _ R); auto).
  apply (ok_replace _ _ _ _ _ R H); try done; nomem.
  - by subst t.
  - destruct (ok_used _ H r) as [? Hc]; [eapply (used_below _ _ _ _ _ R); try done; nomem|].
    split; [done|]. intros Hr Hz Hcm. apply Hc; [done..|]. eapply (coming_above _ _ _ _ _ R); try done. nomem.
  - congruence.
  - destruct (ok_ending _ H t Ht Hend) as [?|Hq]; [done|]. left. left. rewrite HA, (rp_latest _ _ _ _ _ R). left. by rewrite (rp_queue _ _ _ _ _ R).
  - congruence.
Qed.

Lemma disconnect_body_ok : todo s = DisconnectBody :: rest -> ok (disconnect_body (set_todo rest s)).
Proof.
  intros Ht. assert (R := replaces_drop _ Ht). unfold disconnect_body. cbn [client set_client set_todo connection_ set_connect].
  destruct (connection_ (client s)) as [k|] eqn:Hk.
  - set (s1 := set_client (set_connect false) (set_todo rest s)).
    assert (He : engaged s = false) by (destruct (engaged s) eqn:He; [|done]; destruct (ok_engaged _ H He); congruence).
    assert (Hsh : todo (shutdown k s1) = rest /\ queue (shutdown k s1) = queue s /\ asserted (shutdown k s1) = asserted s /\ client (shutdown k s1) = client s1 /\ engaged (shutdown k s1) = engaged s)
      by (unfold shutdown; by destruct (connections s1 !! k) as [[]|]).
    destruct Hsh as (E1 & E2 & E3 & E4 & E5).
    eapply (ending_body_ok DisconnectBody); rewrite ?E4, ?E5; try done.
    + destruct R. split; rewrite ?E1, ?E2, ?E3, ?E4; done.
    + intros j. by rewrite shutdown_is_Some.
    + intros j. by rewrite shutdown_Disconnected.
  - eapply (ending_body_ok DisconnectBody); try done. by destruct R.
Qed.

Lemma stop_body_ok : todo s = StopBody :: rest -> ok (stop_body (set_todo rest s)).
Proof.
  intros Ht. assert (R := replaces_drop _ Ht). eapply (ending_body_ok StopBody); try done. by destruct R.
Qed.

(** *** Phases, with nothing below them *)

Lemma phase_alone t : todo s = t :: rest -> is_phase t = true -> rest = [].
Proof.
  intros Ht Hp. assert (Hsh := ok_shape _ H). rewrite Ht in Hsh. destruct (shape_rest _ _ Hsh) as [?|[Ho _]]; [done|]. by destruct t.
Qed.

(** What serves a request when a phase runs. *)
Lemma served_phase t a :
  todo s = [t] -> is_phase t = true -> served a s ->
  match t with NewConnection _ => connectorRequestId_ (client s) = a | Reconnect r p => r = a \/ p = a | _ => ids t = [a] end.
Proof.
  intros Ht Hp Hs. destruct (ok_phase _ H t) as [He Hk]; [rewrite Ht; by left|done|]. unfold served in Hs. rewrite He, Hk, Ht in Hs.
  destruct Hs as [[? _]|[(h & Hin & ?)|[(h & Hin)|[Hin|[(k & ? & _)|[(r & p & Hin & ?)|[Hin|Hin]]]]]]]; try done;
    apply list_elem_of_singleton in Hin; by subst t.
Qed.

Lemma latest_phase t s' : todo s = [t] -> is_phase t = true -> queue s' = queue s -> latestAcceptedOperationGeneration_ (client s') = latestAcceptedOperationGeneration_ (client s) -> latest_pending s -> latest_pending s'.
Proof.
  intros Ht Hp Hq Hl Hlp. unfold latest_pending, pending_op in *. rewrite Ht in Hlp.
  destruct Hlp as [(f & [Hf|Hf] & Hg)|[(x & Hx & He)|Hb]].
  - left. exists f. rewrite Hq, Hl. auto.
  - apply list_elem_of_singleton in Hf. by subst t.
  - apply list_elem_of_singleton in Hx. subst x. by destruct t.
  - apply list_elem_of_singleton in Hb. by subst t.
Qed.

Lemma client_phase_ok t l s' :
  todo s = [t] -> rest = [] -> is_phase t = true -> replaces t [] l s s' -> connections s' = connections s ->
  connection_ (client s') = connection_ (client s) -> (nextConnId_ (client s) <= nextConnId_ (client s'))%nat ->
  activeConnectRequestId_ (client s') = activeConnectRequestId_ (client s) -> failures (client s') = failures (client s) ->
  (forall x, x ∈ l -> is_phase x = true) -> (forall r, used r s' -> r = 0 \/ used r s) ->
  (engaged s' = true -> l = [] /\ connectorRequestId_ (client s') <> 0 /\ (connectorRequestId_ (client s') = activeConnectRequestId_ (client s) \/ latest_pending s)) ->
  (forall r, ReleaseRequest r ∈ l -> r <> 0) ->
  (forall r h, Adopt r h ∈ l -> r <> 0 /\ r = activeConnectRequestId_ (client s)) ->
  (activeConnectRequestId_ (client s) <> 0 -> connect_ (client s) = true -> served (activeConnectRequestId_ (client s)) s ->
   connect_ (client s') = true /\ served (activeConnectRequestId_ (client s)) s') ->
  ok s'.
Proof.
  intros Ht -> Hp R Hc Hk Hn HA Hf Hl Hu He Hrel Had Hserved.
  destruct (ok_phase _ H t) as [He0 Hk0]; [rewrite Ht; by left|done|].
  assert (Hb : forall r, ConnectBody r ∉ l) by (intros r Hr; by specialize (Hl _ Hr)).
  assert (Hcm : coming s' -> coming s) by (apply (coming_above _ _ _ _ _ R); auto).
  eapply (ok_replace _ _ _ _ _ R H); rewrite ?Hc, ?Hk; try done.
  - intros k ->. done.
  - intros k Hr. by specialize (Hl _ Hr).
  - intros r Hr. by apply Hb in Hr.
  - intros r Hr. assert (Hact := ok_active _ H). destruct (Hu r Hr) as [->|Hr']; [split; [lia|done]|]. destruct (ok_used _ H r Hr') as [? Hnc]. split; [done|]. intros Heq Hz Hcm'. by apply Hnc; auto.
  - intros Het. by destruct (He Het) as (_ & ? & _).
  - intros x Hx _. split; [|done]. destruct (engaged s'); [|done]. destruct (He eq_refl) as [-> _]. by apply elem_of_nil in Hx.
  - intros r h Hr. destruct (Had r h Hr). auto.
  - intros x Hx Hex. apply Hl in Hx. by destruct x.
  - intros Hne. destruct (ok_served _ H Hne) as [[Hpo|Hcb]|[Hco Hs]]; [..|right; by apply Hserved].
    + left. left. rewrite HA, (rp_latest _ _ _ _ _ R). eapply (pending_below _ _ _ _ _ R); [done|]. by intros ->.
    + rewrite Ht in Hcb. apply list_elem_of_singleton in Hcb. by subst t.
  - intros Het. destruct (He Het) as (_ & _ & [?|Hlp]); [by left|right]. eapply latest_phase; [done..| | |done]; apply R.
Qed.

(** Phases follow each other. *)
Lemma replaces_phase t l s' :
  todo s = [t] -> todo s' = l -> (length l <= 1)%nat -> queue s' = queue s -> asserted s' = asserted s -> alive (client s') = alive (client s) ->
  nextConnectRequestId_ (client s') = nextConnectRequestId_ (client s) -> nextOperationGeneration_ (client s') = nextOperationGeneration_ (client s) ->
  latestAcceptedOperationGeneration_ (client s') = latestAcceptedOperationGeneration_ (client s) -> (forall x, x ∈ l -> is_phase x = true) -> replaces t [] l s s'.
Proof.
  intros Ht Hl Hlen Hq Has Hal Hr Hg Hla Hp. split; try done; rewrite ?app_nil_r; try done.
  - by destruct l as [|x [|]]; [| |cbn in Hlen; lia].
  - intros f Hf. by specialize (Hp _ Hf).
Qed.

Ltac stack := solve [apply replaces_phase; try done; try (cbn; lia); nomem; by subst].

Lemma client_new_connection_ok h : todo s = NewConnection h :: rest -> ok (new_connection h (set_todo rest s)).
Proof.
  intros Ht. assert (Hr := phase_alone _ Ht eq_refl). rewrite Hr in *. unfold new_connection. cbn [client set_todo].
  set (r := connectorRequestId_ (client s)). destruct ((r =? 0) || negb (activeConnectRequestId_ (client s) =? r)) eqn:Hc.
  - apply (client_phase_ok (NewConnection h) []); try done; nomem; try stack.
    + right. unfold used in *. cbn in *. destruct H0 as [?|[?|[?|[?|(x & Hx & _)]]]]; [auto..|nomem].
    + destruct (ok_phase _ H (NewConnection h)) as [He _]; [rewrite Ht; by left|done|]. cbn in *. congruence.
    + exfalso. apply (served_phase _ _ Ht eq_refl) in H2. fold r in H2. rewrite <- H2, Z.eqb_refl in Hc. apply orb_prop in Hc as [Hc%Z.eqb_eq|?]; [congruence|done].
  - apply orb_false_iff in Hc as [Hz Ha%negb_false_iff]. apply Z.eqb_neq in Hz. apply Z.eqb_eq in Ha.
    apply (client_phase_ok (NewConnection h) [Adopt r h]); try done; nomem; try stack.
    + by subst x.
    + right. unfold used in *. cbn in *. destruct H0 as [?|[?|[?|[?|(x & Hx & Hi)]]]]; [auto..|nomem]. subst x. cbn in Hi. apply list_elem_of_singleton in Hi as ->. by left.
    + destruct (ok_phase _ H (NewConnection h)) as [He _]; [rewrite Ht; by left|done|]. cbn in *. congruence.
    + injection H0 as -> ->. auto.
    + split; [done|]. right. right. left. exists h. rewrite Ha. by left.
Qed.

(** The active request is released by the phase that works on it. *)
Lemma released_ok t r fl :
  todo s = [t] -> is_phase t = true -> ids t = [r] -> activeConnectRequestId_ (client s) = r ->
  (fl = failures (client s) \/ r <> 0 /\ fl = failures (client s) ++ [r]) ->
  forall s', s' = set_client (fun c => set_accepted 0 (latestAcceptedOperationGeneration_ c) c) (set_todo [] s) \/
    s' = set_client (fun c => report_failure r (set_accepted 0 (latestAcceptedOperationGeneration_ c) c)) (set_todo [] s) ->
  failures (client s') = fl -> ok s'.
Proof.
  intros Ht Hp Hi Ha Hfl s' Hs' Hf. destruct (ok_phase _ H t) as [He Hk]; [rewrite Ht; by left|done|].
  assert (Hnc : r <> 0 -> ~ coming s) by (intros Hz; apply (ok_used _ H r); [do 4 right; exists t; rewrite Ht, Hi; split; by left|done..]).
  assert (Hs : todo s' = [] /\ queue s' = queue s /\ activeConnectRequestId_ (client s') = 0 /\ latestAcceptedOperationGeneration_ (client s') = latestAcceptedOperationGeneration_ (client s) /\
    nextConnectRequestId_ (client s') = nextConnectRequestId_ (client s) /\ nextOperationGeneration_ (client s') = nextOperationGeneration_ (client s) /\
    engaged s' = engaged s /\ connections s' = connections s /\ asserted s' = asserted s /\ connection_ (client s') = connection_ (client s) /\
    nextConnId_ (client s') = nextConnId_ (client s) /\ alive (client s') = alive (client s) /\ connectorRequestId_ (client s') = connectorRequestId_ (client s) /\
    connectionRequestId_ (client s') = connectionRequestId_ (client s) /\ pendingReconnectRequestId_ (client s') = pendingReconnectRequestId_ (client s) /\
    pendingTerminalConnectRequestId_ (client s') = pendingTerminalConnectRequestId_ (client s)) by (by destruct Hs' as [->| ->]).
  clear Hs'. destruct Hs as (E1 & E2 & E3 & E4 & E5 & E6 & E7 & E8 & E9 & E10 & E11 & E12 & E13 & E14 & E15 & E16).
  assert (Hpend : forall f, pending_op f s' -> pending_op f s) by (unfold pending_op; rewrite E1, E2; intros f [?|?]; [auto|nomem]).
  assert (Hgen : generations s' = generations s) by (unfold generations; rewrite E1, E2, Ht; by destruct t).
  assert (Hact := ok_active _ H). assert (Hnt : forall x, x ∉ todo s') by (intros x; rewrite E1; nomem).
  assert (Hrs : forall x, x ∈ todo s -> is_phase x = true) by (intros x; rewrite Ht; intros ->%list_elem_of_singleton; done).
  destruct H. split; rewrite ?E4, ?E5, ?E6, ?E7, ?E8, ?E9, ?E10, ?E11, ?E12, ?E13; try done; try (intros; by destruct (Hnt _ H0)).
  - by rewrite E1.
  - lia.
  - intros f g Hpf Hg. destruct (ok_ops0 f g (Hpend f Hpf) Hg) as [? Hx]. split; [done|]. intros ->. specialize (Hx eq_refl). rewrite E3.
    destruct f; [|done..]. injection Hg as ->. exfalso. apply Hnc; [|by left; rewrite Hx; apply Hpend].
    specialize (ok_connects0 _ _ (Hpend _ Hpf)). lia.
  - by rewrite Hgen.
  - intros r' g Hpf. eauto.
  - intros r' Hu. rewrite E3. split; [|done]. apply ok_used0. unfold used in *. rewrite E13, E14, E15, E16 in Hu. destruct Hu as [?|[?|[?|[?|(x & Hx & _)]]]]; [auto..|by destruct (Hnt _ Hx)].
  - intros k. rewrite ok_down0. split; intros Hin; [by apply Hrs in Hin|by destruct (Hnt _ Hin)].
  - congruence.
  - rewrite Hf, E3. destruct ok_failures0 as [Hnd Hfr]. destruct Hfl as [->|[Hz ->]].
    + split; [done|]. intros r' Hin. destruct (Hfr r' Hin). split; [done|lia].
    + split.
      * apply NoDup_app. split; [done|]. split; [|apply NoDup_singleton]. intros x Hx ->%list_elem_of_singleton. by destruct (Hfr r Hx).
      * intros r' Hin. apply elem_of_app in Hin as [Hin|Hin%list_elem_of_singleton]; [destruct (Hfr r' Hin); split; [done|lia]|]. subst r'. split; lia.
  - intros Hd. destruct (ok_dead0 Hd) as (? & ? & ? & ? & ?). rewrite Ht in H0. done.
Qed.


(** Three ways in which a phase ends: with nothing, with the connector, with another. *)
Lemma phase_over t : todo s = [t] -> rest = [] -> is_phase t = true -> (activeConnectRequestId_ (client s) <> 0 -> connect_ (client s) = true -> ~ served (activeConnectRequestId_ (client s)) s) -> ok (set_todo [] s).
Proof.
  intros Ht Hr Hp Hn. apply (client_phase_ok t []); try done; nomem; try stack.
  - right. unfold used in *. cbn in *. destruct H0 as [?|[?|[?|[?|(x & Hx & _)]]]]; [auto..|nomem].
  - destruct (ok_phase _ H t) as [He _]; [rewrite Ht; by left|done|]. cbn in *. congruence.
  - by destruct Hn.
Qed.

Lemma connector_restart_eq s0 : connector_restart s0 = set_connector true kConnecting s0.
Proof. unfold connector_restart, connector_start. by destruct (connector_state s0) eqn:E; rewrite ?E. Qed.

Lemma phase_restart t r :
  todo s = [t] -> rest = [] -> is_phase t = true -> r ∈ ids t -> r <> 0 -> (r = activeConnectRequestId_ (client s) \/ latest_pending s) -> connect_ (client s) = true ->
  (served (activeConnectRequestId_ (client s)) s -> r = activeConnectRequestId_ (client s)) ->
  ok (connector_restart (set_client (set_connectorRequest r) (set_todo [] s))).
Proof.
  intros Ht Hre Hp Hi Hz Hq Hc Hs. rewrite connector_restart_eq. apply (client_phase_ok t []); try done; nomem; try stack.
  - right. unfold used in *. cbn in *. destruct H0 as [->|[?|[?|[?|(x & Hx & _)]]]]; [|auto..|nomem]. do 4 right. exists t. rewrite Ht. split; [by left|done].
  - split; [done|]. left. split; [done|]. by apply Hs.
Qed.

Lemma phase_next t u :
  todo s = [t] -> rest = [] -> is_phase t = true -> is_phase u = true -> (forall r, r ∈ ids u -> r ∈ ids t) -> (forall r h, u <> Adopt r h) -> (forall r, u <> ReleaseRequest r) ->
  (activeConnectRequestId_ (client s) <> 0 -> connect_ (client s) = true -> served (activeConnectRequestId_ (client s)) s -> served (activeConnectRequestId_ (client s)) (set_todo [u] s)) ->
  ok (set_todo [u] s).
Proof.
  intros Ht Hre Hp Hpu Hi Ha Hr Hs. apply (client_phase_ok t [u]); try done; nomem; try stack.
  - by subst x.
  - right. unfold used in *. cbn in *. destruct H0 as [?|[?|[?|[?|(x & Hx & Hx2)]]]]; [auto..|]. apply list_elem_of_singleton in Hx as ->. do 4 right. exists t. rewrite Ht. split; [by left|auto].
  - destruct (ok_phase _ H t) as [He _]; [rewrite Ht; by left|done|]. cbn in *. congruence.
  - by destruct (Hr r).
  - by destruct (Ha r h).
  - split; [done|]. by apply Hs.
Qed.

(** The failure of a request that a phase works on is about to be reported. *)
Lemma phase_fails t r s' :
  todo s = [t] -> rest = [] -> is_phase t = true -> ids t = [r] -> r <> 0 -> connections s' = connections s -> connection_ (client s') = None ->
  (nextConnId_ (client s) <= nextConnId_ (client s'))%nat -> activeConnectRequestId_ (client s') = activeConnectRequestId_ (client s) -> failures (client s') = failures (client s) ->
  engaged s' = engaged s -> todo s' = [ReleaseRequest r] -> queue s' = queue s -> asserted s' = asserted s -> alive (client s') = alive (client s) -> connect_ (client s') = connect_ (client s) ->
  nextConnectRequestId_ (client s') = nextConnectRequestId_ (client s) -> nextOperationGeneration_ (client s') = nextOperationGeneration_ (client s) ->
  latestAcceptedOperationGeneration_ (client s') = latestAcceptedOperationGeneration_ (client s) ->
  (connectorRequestId_ (client s') = 0 \/ connectorRequestId_ (client s') = connectorRequestId_ (client s)) -> (connectionRequestId_ (client s') = 0 \/ connectionRequestId_ (client s') = connectionRequestId_ (client s)) ->
  (pendingReconnectRequestId_ (client s') = 0 \/ pendingReconnectRequestId_ (client s') = pendingReconnectRequestId_ (client s)) -> pendingTerminalConnectRequestId_ (client s') = 0 ->
  ok s'.
Proof.
  intros Ht Hre Hp Hi Hz E1 E2 E3 E4 E5 E6 E7 E8 E9 E10 E11 E12 E13 E14 E15 E16 E17 E18.
  destruct (ok_phase _ H t) as [He Hk]; [rewrite Ht; by left|done|].
  apply (client_phase_ok t [ReleaseRequest r]); try done; try congruence; nomem; try (by subst x).
  - apply replaces_phase; try done; nomem. by subst x.
  - unfold used in H0. rewrite E7, E18 in H0. destruct H0 as [->|[->|[->|[->|(x & Hx & Hx2)]]]].
    + destruct E15 as [->| ->]; [by left|right; by left].
    + destruct E16 as [->| ->]; [by left|right; right; by left].
    + destruct E17 as [->| ->]; [by left|right; do 2 right; by left].
    + by left.
    + apply list_elem_of_singleton in Hx as ->. apply list_elem_of_singleton in Hx2 as ->. right. do 4 right. exists t. rewrite Ht, Hi. split; by left.
  - congruence.
  - rewrite E11. split; [done|]. apply (served_phase _ _ Ht Hp) in H2. do 3 right. left. rewrite E7.
    assert (r = activeConnectRequestId_ (client s)) as <-; [|by left]. destruct t; try done; cbn in *; congruence.
Qed.

Lemma adopt_not_established_ok r : todo s = [Adopt r NotEstablished] -> rest = [] -> ok (adopt r NotEstablished (set_todo [] s)).
Proof.
  intros Ht Hr. destruct (ok_adopt _ H r NotEstablished) as [Hz _]; [rewrite Ht; by left|]. unfold adopt, finishTerminalConnectFailure. cbn. rewrite Z.eqb_refl. cbn.
  apply (phase_fails (Adopt r NotEstablished) r); try done; cbn; destruct (connectorRequestId_ (client s) =? r); cbn; auto.
Qed.

Lemma adopt_no_address_ok r : todo s = [Adopt r NoAddress] -> rest = [] -> ok (adopt r NoAddress (set_todo [] s)).
Proof.
  intros Ht Hr. destruct (ok_adopt _ H r NoAddress) as [Hz Hq]; [rewrite Ht; by left|]. unfold adopt. cbn [client set_todo]. destruct (retry_ _ && connect_ _) eqn:Hc.
  - apply andb_prop in Hc as [_ Hc]. apply (phase_restart (Adopt r NoAddress)); try done; [by left|]. intros Hs. by apply (served_phase _ _ Ht) in Hs as [= ->].
  - destruct (ok_phase _ H (Adopt r NoAddress)) as [_ Hk]; [rewrite Ht; by left|done|]. unfold finishTerminalConnectFailure. cbn. rewrite Z.eqb_refl. cbn.
    apply (phase_fails (Adopt r NoAddress) r); try done; cbn; destruct (connectorRequestId_ (client s) =? r); cbn; auto.
Qed.

(** *** The connection comes and goes *)

(** Another connection, with nothing running or the check for a pending request. *)
Lemma ok_exchange t l s' :
  todo s = [t] -> (forall f, t <> CheckLatest f) -> (forall r, t <> ConnectBody r) -> todo s' = l -> l = [] \/ (exists r p, l = [Reconnect r p] /\ used r s /\ used p s /\ connection_ (client s') = None) ->
  queue s' = queue s -> asserted s' = asserted s -> engaged s = false -> engaged s' = false -> alive (client s') = alive (client s) -> failures (client s') = failures (client s) ->
  nextConnectRequestId_ (client s') = nextConnectRequestId_ (client s) -> nextOperationGeneration_ (client s') = nextOperationGeneration_ (client s) ->
  latestAcceptedOperationGeneration_ (client s') = latestAcceptedOperationGeneration_ (client s) -> activeConnectRequestId_ (client s') = activeConnectRequestId_ (client s) ->
  connect_ (client s') = connect_ (client s) ->
  (forall r, used r s' -> r = 0 \/ used r s) ->
  (forall k, is_Some (connections s' !! k) <-> connection_ (client s') = Some k) ->
  (forall k, connection_ (client s') = Some k -> (k < nextConnId_ (client s'))%nat) ->
  (forall k, connections s' !! k <> Some Disconnected) ->
  (activeConnectRequestId_ (client s) <> 0 -> served (activeConnectRequestId_ (client s)) s -> served (activeConnectRequestId_ (client s)) s') ->
  ok s'.
Proof.
  intros Ht Hnf Hnb Hl Hls Eq Eas Ee0 Ee Eal Efl Er Eg El Ea Eco Hu Hc Hid Hd Hs.
  assert (Hpend : forall f, pending_op f s' <-> pending_op f s).
  { unfold pending_op. rewrite Eq, Ht, Hl. intros f. assert (CheckLatest f ∉ l) by (destruct Hls as [->|(r & p & -> & _)]; nomem).
    split; intros [?|Hf]; auto; [done|]. apply list_elem_of_singleton in Hf as <-. by destruct (Hnf f). }
  assert (Hgen : generations s' = generations s).
  { unfold generations. rewrite Hl, Eq, Ht. destruct Hls as [->|(r & p & -> & _)]; destruct t; try done; by edestruct Hnf. }
  assert (Hcm : coming s' <-> coming s).
  { unfold coming. rewrite Ea, El, Hpend, Hl, Ht. assert (forall r, ConnectBody r ∉ l) by (intros r; destruct Hls as [->|(r' & p & -> & _)]; nomem).
    split; intros [?|Hf]; auto; [by destruct (H0 _ Hf)|]. apply list_elem_of_singleton in Hf. by destruct (Hnb _ (eq_sym Hf)). }
  assert (Hin : forall x, x ∈ todo s' -> exists r p, x = Reconnect r p /\ connection_ (client s') = None).
  { rewrite Hl. intros x Hx. destruct Hls as [->|(r & p & -> & _ & _ & ?)]; [nomem|]. apply list_elem_of_singleton in Hx. eauto. }
  destruct H. split; rewrite ?Er, ?Eg, ?El, ?Ea, ?Eas, ?Ee, ?Efl, ?Eal, ?Hgen, ?Eco; try done;
    try (intros; match goal with Hx : _ ∈ todo s' |- _ => apply Hin in Hx as (? & ? & ? & ?); by subst end).
  - rewrite Hl. by destruct Hls as [->|(r & p & -> & _)].
  - intros f g Hp. apply Hpend in Hp. eauto.
  - intros r g Hp. apply Hpend in Hp. eauto.
  - intros r Hr. rewrite Hcm. destruct (Hu r Hr) as [->|?]; [split; [lia|done]|auto].
  - intros k. split; [intros Hk; by destruct (Hd k)|]. intros Hk. by apply Hin in Hk as (? & ? & ? & _).
  - intros Hne. rewrite Hcm. destruct (ok_served0 Hne) as [?|[? ?]]; auto.
  - intros Hdd. destruct (ok_dead0 Hdd) as [Hnil _]. by rewrite Ht in Hnil.
Qed.

Lemma adopt_established_ok r : todo s = [Adopt r Established] -> rest = [] -> ok (adopt r Established (set_todo [] s)).
Proof.
  intros Ht Hr. destruct (ok_phase _ H (Adopt r Established)) as [He Hk]; [rewrite Ht; by left|done|].
  assert (Hnone : forall k, connections s !! k = None).
  { intros k. destruct (connections s !! k) eqn:Hc; [|done]. assert (connection_ (client s) = Some k) by (apply (ok_connection _ H); by rewrite Hc). congruence. }
  apply (ok_exchange (Adopt r Established) []); try done; try (by left); cbn.
  - intros r' Hu. unfold used in *. cbn in *. destruct Hu as [?|[->|[?|[?|(x & Hx & _)]]]]; [auto| |by left|auto 10|nomem].
    right. do 4 right. exists (Adopt r Established). rewrite Ht. split; by left.
  - intros k. destruct (decide (nextConnId_ (client s) = k)) as [<-|Hne]; [by rewrite lookup_insert_eq|]. rewrite lookup_insert_ne, Hnone by done. split; [by intros []|congruence].
  - intros k [= <-]. lia.
  - intros k. destruct (decide (nextConnId_ (client s) = k)) as [<-|Hne]; [by rewrite lookup_insert_eq|]. by rewrite lookup_insert_ne, Hnone.
  - intros _ Hs. apply (served_phase _ _ Ht) in Hs as [= <-]; [|done]. do 4 right. left. eexists. split; [done|]. by left.
Qed.

Lemma remove_connection_ok k : todo s = RemoveConnection k :: rest -> ok (remove_connection k (set_todo rest s)).
Proof.
  intros Ht. assert (Hsh := ok_shape _ H). rewrite Ht in Hsh. destruct (shape_rest _ _ Hsh) as [Hr|[? _]]; [|done]. rewrite Hr in *. clear Hsh.
  assert (Hd : connections s !! k = Some Disconnected) by (apply (ok_down _ H); rewrite Ht; by left).
  assert (Hk : connection_ (client s) = Some k) by (apply (ok_connection _ H); by rewrite Hd).
  assert (He : engaged s = false) by (destruct (engaged s) eqn:He; [|done]; destruct (ok_engaged _ H He); congruence).
  unfold remove_connection. cbn [client set_todo]. rewrite bool_decide_true by done.
  assert (Hnone : forall j, delete k (connections s) !! j = None).
  { intros j. destruct (decide (k = j)) as [<-|Hne]; [by rewrite lookup_delete_eq|]. rewrite lookup_delete_ne by done.
    destruct (connections s !! j) eqn:Hc; [|done]. assert (connection_ (client s) = Some j) by (apply (ok_connection _ H); by rewrite Hc). congruence. }
  eapply (ok_exchange (RemoveConnection k)); try done; cbn.
  - right. do 2 eexists. split; [done|]. unfold used. auto 10.
  - intros r' Hu. unfold used in *. cbn in *. destruct Hu as [?|[?|[?|[?|(x & Hx & Hx2)]]]]; [auto 10..|]. apply list_elem_of_singleton in Hx as ->. cbn in Hx2.
    right. apply elem_of_cons in Hx2 as [->|Hx2%list_elem_of_singleton]; auto.
  - intros j. rewrite Hnone. by split; [intros []|].
  - intros j. by rewrite Hnone.
  - intros Hz Hs. unfold served in Hs. rewrite He, Ht in Hs. do 5 right. left. do 2 eexists. split; [by left|].
    destruct Hs as [[? _]|[(h & Hin & ?)|[(h & Hin)|[Hin|[(j & _ & ?)|[(r & p & Hin & ?)|[Hin|Hin]]]]]]]; try done; by apply list_elem_of_singleton in Hin.
Qed.

Lemma reconnect_ok r p : todo s = [Reconnect r p] -> rest = [] -> ok (reconnect r p (set_todo [] s)).
Proof.
  intros Ht Hr. unfold reconnect. cbn [client set_todo].
  destruct (negb (p =? 0) && (activeConnectRequestId_ (client s) =? p) && connect_ (client s)) eqn:Hc.
  - apply andb_prop in Hc as [[Hz%negb_true_iff%Z.eqb_neq Ha%Z.eqb_eq]%andb_prop Hco].
    apply (phase_restart (Reconnect r p)); try done; [right; by left|by left].
  - apply (phase_next (Reconnect r p)); try done; [intros x Hx%list_elem_of_singleton; subst; by left|].
    intros Hne Hco [Hs|Hs]%(served_phase _ _ Ht); [|subst p|done]; [do 6 right; left; rewrite Hs; by left|].
    rewrite Z.eqb_refl, Hco, andb_true_r in Hc. rewrite andb_true_r in Hc. apply negb_false_iff, Z.eqb_eq in Hc. done.
Qed.

Lemma retry_removed_ok r : todo s = [Retry r] -> rest = [] -> ok (retry_removed r (set_todo [] s)).
Proof.
  intros Ht Hr. unfold retry_removed. cbn [client set_todo].
  destruct (negb (r =? 0) && (activeConnectRequestId_ (client s) =? r) && retry_ (client s) && connect_ (client s)) eqn:Hc.
  - apply andb_prop in Hc as [[[Hz%negb_true_iff%Z.eqb_neq Ha%Z.eqb_eq]%andb_prop _]%andb_prop Hco].
    apply (phase_restart (Retry r)); try done; [by left|by left].
  - apply (phase_next (Retry r)); try done. intros _ _ Hs. apply (served_phase _ _ Ht) in Hs as [= ->]; [|done]. do 7 right. by left.
Qed.

Lemma release_removed_ok r : todo s = [ReleaseRemoved r] -> rest = [] -> ok (release_removed r (set_todo [] s)).
Proof.
  intros Ht Hr. unfold release_removed. cbn [client set_todo]. destruct (_ =? r) eqn:Ha.
  - apply Z.eqb_eq in Ha. by apply (released_ok (ReleaseRemoved r) r (failures (client s))); auto.
  - apply Z.eqb_neq in Ha. apply (phase_over (ReleaseRemoved r)); try done. intros _ _ Hs. by apply (served_phase _ _ Ht) in Hs as [= ->].
Qed.

Lemma release_request_ok r : todo s = [ReleaseRequest r] -> rest = [] -> ok (release_request r (set_todo [] s)).
Proof.
  intros Ht Hr. unfold release_request. cbn [client set_todo]. destruct (_ =? r) eqn:Ha.
  - apply Z.eqb_eq in Ha. assert (r <> 0) by (apply (ok_release _ H); rewrite Ht; by left).
    by apply (released_ok (ReleaseRequest r) r (failures (client s) ++ [r])); auto.
  - apply Z.eqb_neq in Ha. apply (phase_over (ReleaseRequest r)); try done. intros _ _ Hs. by apply (served_phase _ _ Ht) in Hs as [= ->].
Qed.

Lemma client_owner_step_ok t : todo s = t :: rest -> ok (owner_step t (set_todo rest s)).
Proof.
  intros Ht. assert (Hr : is_phase t = true -> rest = []) by (by apply phase_alone).
  destruct t; cbn [owner_step]; try specialize (Hr eq_refl).
  - by apply check_latest_ok.
  - by apply connect_body_ok.
  - by apply disconnect_body_ok.
  - by apply stop_body_ok.
  - by apply client_new_connection_ok.
  - rewrite Hr in *. destruct h; [by apply adopt_no_address_ok|by apply adopt_not_established_ok|by apply adopt_established_ok].
  - rewrite Hr in *. by apply release_request_ok.
  - by apply remove_connection_ok.
  - rewrite Hr in *. by apply reconnect_ok.
  - rewrite Hr in *. by apply retry_removed_ok.
  - rewrite Hr in *. by apply release_removed_ok.
Qed.

End OwnerSteps.

(** *** Events, with no callback running *)

Section Events.
Context (s : World) (H : ok s) (Hempty : todo s = []).

Lemma idle_mem x : x ∉ todo s.
Proof. rewrite Hempty. nomem. Qed.

(** The connector is done: a descriptor or a failure is on its way. *)
Lemma connector_done_ok u s' :
  engaged s = true -> engaged s' = false -> todo s' = [u] -> queue s' = queue s -> asserted s' = asserted s -> connections s' = connections s ->
  ((exists h, u = NewConnection h) /\ connectorRequestId_ (client s') = connectorRequestId_ (client s) \/ u = ReleaseRequest (connectorRequestId_ (client s)) /\ connectorRequestId_ (client s') = 0) ->
  activeConnectRequestId_ (client s') = activeConnectRequestId_ (client s) -> latestAcceptedOperationGeneration_ (client s') = latestAcceptedOperationGeneration_ (client s) ->
  nextConnectRequestId_ (client s') = nextConnectRequestId_ (client s) -> nextOperationGeneration_ (client s') = nextOperationGeneration_ (client s) -> connect_ (client s') = connect_ (client s) ->
  connectionRequestId_ (client s') = connectionRequestId_ (client s) -> pendingReconnectRequestId_ (client s') = pendingReconnectRequestId_ (client s) -> pendingTerminalConnectRequestId_ (client s') = 0 ->
  connection_ (client s') = connection_ (client s) -> nextConnId_ (client s') = nextConnId_ (client s) -> failures (client s') = failures (client s) -> alive (client s') = alive (client s) ->
  ok s'.
Proof.
  intros He He' Ht Hq Has Hc Hu Ea El Er Eg Eco Ecr Epr Ept Ek En Ef Eal. assert (Hnt := idle_mem). destruct (ok_engaged _ H He) as [Hk Hz].
  assert (Hpend : forall f, pending_op f s' <-> pending_op f s).
  { unfold pending_op. rewrite Hq, Ht, Hempty. intros f. split; intros [?|Hf]; auto; [|nomem]. apply list_elem_of_singleton in Hf as <-. by destruct Hu as [[[h ?] _]|[? _]]. }
  assert (Hgen : generations s' = generations s) by (unfold generations; rewrite Ht, Hq, Hempty; by destruct Hu as [[[h ->] _]|[-> _]]).
  assert (Hin : forall x, x ∈ todo s' -> x = u) by (rewrite Ht; intros x Hx; by apply list_elem_of_singleton in Hx).
  assert (Hcm : coming s' <-> coming s).
  { unfold coming. rewrite Ea, El, Hpend. split; intros [?|Hb]; auto; [|by apply Hnt in Hb]. apply Hin in Hb. by destruct Hu as [[[h ?] _]|[? _]]; subst. }
  assert (Hused : forall r, used r s' -> r = 0 \/ used r s).
  { unfold used. intros r. rewrite Ecr, Epr, Ept. intros [->|[?|[?|[?|(x & Hx & Hr)]]]]; auto 10.
    - destruct Hu as [[_ ->]|[_ ->]]; auto.
    - apply Hin in Hx as ->. destruct Hu as [[[h ->] _]|[-> _]]; [by apply elem_of_nil in Hr|]. apply list_elem_of_singleton in Hr. auto. }
  destruct H. split; rewrite ?Er, ?Eg, ?El, ?Ea, ?Has, ?He', ?Ef, ?Eal, ?Hgen, ?Eco, ?Ek, ?En, ?Hc; try done;
    try (intros; match goal with Hx : _ ∈ todo s' |- _ => apply Hin in Hx; by destruct Hu as [[[? ?] _]|[? _]]; subst end).
  - by rewrite Ht.
  - intros f g Hp. apply Hpend in Hp. eauto.
  - intros r g Hp. apply Hpend in Hp. eauto.
  - intros r Hr. rewrite Hcm. destruct (Hused r Hr) as [->|?]; [split; [lia|done]|auto].
  - intros r Hr. apply Hin in Hr. destruct Hu as [[[h ?] _]|[? _]]; congruence.
  - intros k. rewrite ok_down0. split; intros Hx; [by apply Hnt in Hx|]. apply Hin in Hx. by destruct Hu as [[[h ?] _]|[? _]]; subst.
  - intros Hne. rewrite Hcm. destruct (ok_served0 Hne) as [?|[? Hs]]; [auto|right]. split; [done|].
    assert (connectorRequestId_ (client s) = activeConnectRequestId_ (client s)) as Heq.
    { unfold served in Hs. destruct Hs as [[_ ?]|[(h & Hx & _)|[(h & Hx)|[Hx|[(j & Hj & _)|[(r & p & Hx & _)|[Hx|Hx]]]]]]]; solve [done|congruence|by apply Hnt in Hx]. }
    destruct Hu as [[[h ->] E]|[-> E]].
    + right. left. exists h. rewrite Ht, E. split; [by left|done].
    + do 3 right. left. rewrite Ht, Heq. by left.
  - intros Hd. destruct (ok_dead0 Hd) as (_ & ? & _). congruence.
Qed.

(** A connection is shut down, or ends. *)
Lemma connection_state_ok k st l :
  connections s !! k = Some Connected \/ connections s !! k = Some Disconnecting -> (st = Disconnecting /\ l = [] \/ st = Disconnected /\ l = [RemoveConnection k]) ->
  ok (set_todo l (set_connections (<[k := st]> (connections s)) s)).
Proof.
  intros Hk Hl. assert (Hnt := idle_mem). set (s' := set_todo _ _).
  assert (Hc : connection_ (client s) = Some k) by (apply (ok_connection _ H); destruct Hk as [->| ->]; eauto).
  assert (Hin : forall x, x ∈ todo s' -> x = RemoveConnection k) by (cbn; intros x Hx; destruct Hl as [[_ ->]|[_ ->]]; [nomem|by apply list_elem_of_singleton in Hx]).
  assert (Hpend : forall f, pending_op f s' <-> pending_op f s).
  { unfold pending_op. intros f. split; intros [?|Hf]; auto; [by apply Hin in Hf|by apply Hnt in Hf]. }
  assert (Hgen : generations s' = generations s) by (unfold generations; rewrite Hempty; by destruct Hl as [[_ ->]|[_ ->]]).
  assert (Hcm : coming s' <-> coming s).
  { unfold coming. change (client s') with (client s). rewrite Hpend. split; intros [?|Hb]; auto; [by apply Hin in Hb|by apply Hnt in Hb]. }
  assert (Hused : forall r, used r s' -> used r s).
  { unfold used. intros r [?|[?|[?|[?|(x & Hx & Hr)]]]]; auto 10. apply Hin in Hx as ->. by apply elem_of_nil in Hr. }
  assert (He : engaged s = false) by (destruct (engaged s) eqn:He; [|done]; destruct (ok_engaged _ H He); congruence).
  destruct H. split; change (client s') with (client s); change (engaged s') with (engaged s); change (asserted s') with (asserted s); change (queue s') with (queue s); rewrite ?Hgen, ?Hcm; try done;
    try (intros; match goal with Hx : _ ∈ todo s' |- _ => by apply Hin in Hx end).
  - unfold s'. cbn. by destruct Hl as [[_ ->]|[_ ->]].
  - intros f g Hp. apply Hpend in Hp. eauto.
  - intros r g Hp. apply Hpend in Hp. eauto.
  - intros r Hr. rewrite Hcm. auto.
  - intros t Ht. apply Hin in Ht. by subst.
  - intros j. rewrite <- ok_connection0. cbn. destruct (decide (k = j)) as [<-|Hne]; [|by rewrite lookup_insert_ne]. rewrite lookup_insert_eq.
    split; intros _; [|done]. destruct Hk as [->| ->]; eauto.
  - intros j. cbn. destruct (decide (k = j)) as [<-|Hne].
    + rewrite lookup_insert_eq. destruct Hl as [[-> ->]|[-> ->]]; split; intros Hx; try done; [nomem|by left].
    + rewrite lookup_insert_ne by done. rewrite ok_down0. split; intros Hx; [by apply Hnt in Hx|]. destruct Hl as [[_ ->]|[_ ->]]; [nomem|]. apply list_elem_of_singleton in Hx. congruence.
  - intros t Ht. apply Hin in Ht. by subst.
  - intros Hne. destruct (ok_served0 Hne) as [?|[? Hs]]; [by left|right]. split; [done|].
    do 4 right. left. exists k. split; [done|]. unfold served in Hs. rewrite He in Hs.
    destruct Hs as [[? _]|[(h & Hx & _)|[(h & Hx)|[Hx|[(j & Hj & Hor)|[(r & p & Hx & _)|[Hx|Hx]]]]]]]; solve [done|exact Hor|by apply Hnt in Hx].
  - intros Hq. congruence.
  - intros Hd. destruct (ok_dead0 Hd) as (_ & _ & ? & _). congruence.
Qed.

(** The next functor. *)
Lemma next_ok f rest : queue s = f :: rest -> ok (run_functor f (set_queue rest s)).
Proof.
  intros Hq. unfold run_functor. cbn [client set_queue]. destruct (alive (client s)) eqn:Hal; cbn [negb].
  - set (l := match f with SetRetryInLoop _ => [] | _ => [CheckLatest f] end).
    set (s' := match f with SetRetryInLoop b => _ | _ => _ end).
    assert (Hs' : todo s' = l /\ queue s' = rest /\ engaged s' = engaged s /\ connections s' = connections s /\ asserted s' = asserted s /\
      (client s' = client s \/ exists b, client s' = set_retry b (client s))) by (unfold s', l; destruct f; cbn; rewrite ?Hempty; eauto 10).
    destruct Hs' as (Et & Eq & Ee & Ec & Eas & Ecl). clearbody s'. assert (Hnt := idle_mem).
    assert (Hin : forall x, x ∈ l -> x = CheckLatest f) by (unfold l; intros x; destruct f; nomem).
    assert (Hpend : forall g n, generation_of g = Some n -> pending_op g s' <-> pending_op g s).
    { unfold pending_op. rewrite Et, Eq, Hq, Hempty. intros g n Hg. split.
      - intros [Hr|Hx]; [left; by right|]. apply Hin in Hx. injection Hx as ->. left. by left.
      - intros [Hr|Hx]; [|nomem]. apply elem_of_cons in Hr as [->|Hr]; [right|by left]. unfold l. destruct f; [by left..|done]. }
    assert (Hgen : generations s' = generations s) by (unfold generations; rewrite Et, Eq, Hq, Hempty; unfold l; by destruct f).
    assert (Hf : forall r g, pending_op (ConnectInLoop r g) s' <-> pending_op (ConnectInLoop r g) s) by (intros r g; by apply (Hpend _ g)).
    assert (Hcl : activeConnectRequestId_ (client s') = activeConnectRequestId_ (client s) /\ latestAcceptedOperationGeneration_ (client s') = latestAcceptedOperationGeneration_ (client s) /\
      nextConnectRequestId_ (client s') = nextConnectRequestId_ (client s) /\ nextOperationGeneration_ (client s') = nextOperationGeneration_ (client s) /\
      connect_ (client s') = connect_ (client s) /\ connectorRequestId_ (client s') = connectorRequestId_ (client s) /\ connectionRequestId_ (client s') = connectionRequestId_ (client s) /\
      pendingReconnectRequestId_ (client s') = pendingReconnectRequestId_ (client s) /\ pendingTerminalConnectRequestId_ (client s') = pendingTerminalConnectRequestId_ (client s) /\
      connection_ (client s') = connection_ (client s) /\ nextConnId_ (client s') = nextConnId_ (client s) /\ failures (client s') = failures (client s) /\ alive (client s') = alive (client s)).
    { destruct Ecl as [->|[b ->]]; done. }
    destruct Hcl as (E1 & E2 & E3 & E4 & E5 & E6 & E7 & E8 & E9 & E10 & E11 & E12 & E13).
    assert (Hcm : coming s' <-> coming s).
    { unfold coming. rewrite E1, E2, Hf, Et. split; intros [?|Hb]; auto; [by apply Hin in Hb|by apply Hnt in Hb]. }
    assert (Hlp : latest_pending s -> latest_pending s').
    { unfold latest_pending. rewrite E1, E2. intros [(g & Hp & Hg)|[(x & Hx & _)|Hx]]; [|by apply Hnt in Hx..]. left. exists g. split; [by eapply Hpend|done]. }
    destruct H. split; rewrite ?E1, ?E2, ?E3, ?E4, ?E5, ?E6, ?E10, ?E11, ?E12, ?E13, ?Ee, ?Ec, ?Eas, ?Hgen, ?Hcm; try done;
      try (intros; match goal with Hx : _ ∈ todo s' |- _ => rewrite Et in Hx; by apply Hin in Hx end).
    + rewrite Et. unfold l. by destruct f.
    + intros g n Hp Hg. apply (Hpend _ _ Hg) in Hp. eauto.
    + intros r g Hp. apply Hf in Hp. eauto.
    + intros r Hr. rewrite Hcm. apply ok_used0. unfold used in *. rewrite E6, E7, E8, E9, Et in Hr. destruct Hr as [?|[?|[?|[?|(x & Hx & Hi)]]]]; [auto..|]. apply Hin in Hx as ->. by apply elem_of_nil in Hi.
    + intros t Hx. rewrite Et in Hx. apply Hin in Hx as ->. done.
    + intros k. rewrite ok_down0, Et. split; intros Hx; [by apply Hnt in Hx|by apply Hin in Hx].
    + intros t Hx. rewrite Et in Hx. apply Hin in Hx as ->. done.
    + intros Hne. destruct (ok_served0 Hne) as [?|[? Hs]]; [by left|right]. split; [done|]. unfold served in *. rewrite Ee, E6, E10, E7, E8.
      destruct Hs as [?|[(h & Hx & _)|[(h & Hx)|[Hx|[?|[(r & p & Hx & _)|[Hx|Hx]]]]]]]; solve [by left|by apply Hnt in Hx|auto 10].
    + intros Hen. destruct (ok_quiet0 Hen); auto.
    + intros Hd. congruence.
  - destruct (ok_dead _ H Hal) as (_ & He & Hk & Hac & Ha0).
    assert (Hpend : forall g, pending_op g (set_queue rest s) -> pending_op g s) by (unfold pending_op; cbn; rewrite Hq; intros g [?|?]; [left; by right|auto]).
    destruct H. split; cbn [set_queue client todo engaged connections asserted alive]; try done.
    + intros g n Hp Hg. auto.
    + unfold generations in *. cbn. rewrite Hempty, Hq in *. cbn in *. destruct (generation_of f); [by apply NoDup_cons in ok_unique0 as [_ ?]|done].
    + intros r g Hp. eauto.
    + intros r Hx. rewrite Hempty in Hx. nomem.
    + intros r Hr. destruct (ok_used0 r Hr) as [? _]. split; [done|]. intros; congruence.
    + intros r h Hx. rewrite Hempty in Hx. nomem.
    + intros t Hx. rewrite Hempty in Hx. nomem.
    + congruence.
Qed.

(** The client is destroyed. *)
Lemma client_destroy_ok : counters_left s = true -> ok (TcpClient_destroy s).
Proof.
  intros Hc. destruct (counters_left_spec _ H Hc). assert (Hnt := idle_mem). assert (Ha := ok_active _ H). assert (Hn := ok_next _ H). assert (Hrq := ok_request _ H).
  assert (E1 : nextOperationGeneration_ (client s) ⊕ 1 = nextOperationGeneration_ (client s) + 1) by (unwrap; done).
  assert (Hpend : forall g, pending_op g (TcpClient_destroy s) <-> pending_op g s) by done.
  split; unfold TcpClient_destroy, connector_stop; cbn [set_connector set_connections set_client client todo engaged connections asserted alive
    set_terminal set_connection set_accepted set_counters set_alive set_control activeConnectRequestId_ latestAcceptedOperationGeneration_ nextConnectRequestId_ nextOperationGeneration_
    connection_ failures connect_ control accepting nextConnId_ queue connectorRequestId_]; rewrite ?E1; try done; try lia; try (intros; match goal with Hx : _ ∈ todo s |- _ => by apply Hnt in Hx end).
  - by rewrite Hempty.
  - intros f g Hp Hg. destruct (ok_ops _ H f g Hp Hg). lia.
  - apply H.
  - intros r g Hp. exact (ok_connects _ H r g Hp).
  - intros r Hr. split; [|done]. unfold used in Hr. cbn in Hr. destruct Hr as [?|[?|[?|[?|(x & Hx & _)]]]]; [apply (ok_used _ H); unfold used; auto 10..|lia|lia|by apply Hnt in Hx].
  - intros k. rewrite lookup_empty. by split; [intros []|].
  - intros k. rewrite lookup_empty. split; [done|]. intros Hx. by apply Hnt in Hx.
  - split; [apply H|]. intros r Hr. destruct (proj2 (ok_failures _ H) r Hr). split; [done|lia].
  - apply H.
Qed.

End Events.

(** Changes that the invariant does not see. *)
Lemma ok_control k s : ok s -> (accepting (control (client s)) = false -> accepting k = false) -> ok (set_client (set_control k) s).
Proof.
  intros H Hk. assert (Hr := ok_request _ H). assert (Hn := ok_next _ H). apply (ok_same s); try done; cbn; [lia|lia|right; unfold used; auto 10].
Qed.

Lemma ok_setRetry b s : ok s -> ok (setRetryInLoop b s).
Proof.
  intros H. assert (Hr := ok_request _ H). assert (Hn := ok_next _ H). apply (ok_same s); try done; cbn; [lia|lia|right; unfold used; auto 10].
Qed.

(** [World] fields that the invariant does not mention. *)
Lemma ok_outside s s' : ok s -> client s' = client s -> todo s' = todo s -> queue s' = queue s -> engaged s' = engaged s -> connections s' = connections s -> asserted s' = asserted s -> ok s'.
Proof.
  intros H Hc Ht Hq He Hcs Has. assert (Hr := ok_request _ H). assert (Hn := ok_next _ H). apply (ok_same s); rewrite ?Hc; try done; [lia|lia|right; unfold used; auto 10].
Qed.

Lemma control_post_ok o r s : ok s -> ok (fst (control_post o r s)).
Proof.
  intros H. unfold control_post. destruct (accepting _) eqn:Ha; [|done]. cbn [negb]. destruct (nextGeneration _ =? 0); [done|].
  set (k := control (client s)). destruct r; cbn [fst]; try (by apply ok_control; [|congruence]).
  by apply (ok_outside (set_client (set_control (mkControl true (Some o) (nextGeneration k ⊕ 1) (nextGeneration k))) s)); [apply ok_control; [|congruence]|..].
Qed.

Lemma post_retry_ok b s : ok s -> ok (set_queue (queue s ++ [SetRetryInLoop b]) s).
Proof.
  intros H. set (s' := set_queue _ s).
  assert (Hpend : forall f n, generation_of f = Some n -> pending_op f s' <-> pending_op f s).
  { unfold pending_op. intros f n Hf. cbn. rewrite elem_of_app. split; [|tauto]. intros [[?|Hx]|?]; [auto| |auto]. by apply list_elem_of_singleton in Hx as ->. }
  assert (Hgen : generations s' = generations s) by (unfold generations; cbn; rewrite app_assoc, (omap_app _ _ [SetRetryInLoop b]); apply app_nil_r).
  assert (Hcm : coming s' <-> coming s) by (unfold coming; by rewrite (Hpend (ConnectInLoop (activeConnectRequestId_ (client s')) (latestAcceptedOperationGeneration_ (client s'))) _ eq_refl)).
  assert (Hlp : latest_pending s -> latest_pending s').
  { intros [(f & Hp & Hf)|?]; [left|by right]. exists f. split; [by eapply Hpend|done]. }
  destruct H. split; rewrite ?Hgen, ?Hcm; try done.
  - intros f n Hp Hf. apply (Hpend _ _ Hf) in Hp. eauto.
  - intros r g Hp. apply (Hpend (ConnectInLoop r g) g eq_refl) in Hp. eauto.
  - intros r Hr. rewrite Hcm. by apply ok_used0.
  - intros r h Hx. destruct (ok_adopt0 r h Hx) as [? [?|?]]; auto.
  - intros t Ht He. destruct (ok_ending0 t Ht He) as [?|?]; [by left|right]. cbn. apply elem_of_app. by left.
  - intros He. destruct (ok_quiet0 He); auto.
Qed.

Lemma other_step_ok l s s' : ok s -> other_step l s = Some s' -> ok s'.
Proof.
  intros H Hs. destruct l; cbn in Hs; try done.
  - destruct (alive (client s)) eqn:Ha; [|done]. destruct (counters_left s) eqn:Hc; [|done]. destruct (posts r s); [|done]. injection Hs as <-. by apply try_posted_ok.
  - destruct (_ && _); [|done]. injection Hs as <-. destruct r; try done. by apply post_retry_ok.
  - injection Hs as <-. by apply control_post_ok.
  - injection Hs as <-. by eapply ok_outside.
Qed.

Lemma alive_accepting s : ok s -> accepting (control (client s)) = true -> alive (client s) = true.
Proof. intros H Ha. destruct (alive (client s)) eqn:Hal; [done|]. destruct (ok_dead _ H Hal) as (_ & _ & _ & ? & _). congruence. Qed.

Lemma driveControlInLoop_ok s : ok s -> todo s = [] -> counters_left s = true -> ok (driveControlInLoop s).
Proof.
  intros H Ht Hc. unfold driveControlInLoop. destruct (accepting _) eqn:Ha; [|done]. cbn [negb].
  assert (Hk : forall k, accepting k = true -> ok (set_client (set_control k) s)) by (intros k Hk; by apply ok_control; [|congruence]).
  assert (Hal := alive_accepting _ H Ha). destruct (pendingOperation _) as [o|]; [|by apply Hk].
  apply try_inline_ok; [by apply Hk|done|done|]. unfold user_code. cbn. by rewrite Ht.
Qed.

(** A failure, retried or not. *)
Lemma handle_failure e s : is_failure e = true -> connectorRequestId_ (client s) <> 0 -> handleConnectorEvent e s = set_client (set_terminal (connectorRequestId_ (client s)) e) s.
Proof. intros He Hz%Z.eqb_neq. destruct e; try done; unfold handleConnectorEvent; cbn; by rewrite Hz. Qed.

Lemma fail_retried_ok e s : ok s -> is_failure e = true -> engaged s = true -> ok (handleConnectorEvent RetryScheduled (handleConnectorEvent e s)).
Proof.
  intros H He Hen. destruct (ok_engaged _ H Hen) as [_ Hz]. assert (Hr := ok_request _ H). assert (Hn := ok_next _ H).
  rewrite (handle_failure e s He Hz). apply (ok_same s); try done; cbn; [lia|lia|by left].
Qed.

Lemma fail_terminal_ok e s : ok s -> todo s = [] -> is_failure e = true -> engaged s = true -> ok (handleConnectorEvent TerminalFailure (handleConnectorEvent e (set_connector false kDisconnected s))).
Proof.
  intros H Ht He Hen. destruct (ok_engaged _ H Hen) as [_ Hz]. assert (Hz' := Hz). apply Z.eqb_neq in Hz'.
  rewrite (handle_failure e (set_connector false kDisconnected s) He Hz). unfold handleConnectorEvent. cbn. rewrite Hz'. unfold finishTerminalConnectFailure. cbn. rewrite !Z.eqb_refl. cbn. rewrite Ht.
  by eapply (connector_done_ok s H Ht (ReleaseRequest (connectorRequestId_ (client s)))); try done; right.
Qed.

Lemma client_deliver_ok h s : ok s -> todo s = [] -> engaged s = true ->
  ok (let s1 := handleConnectorEvent ConnectSuccess (set_connector false kConnected s) in set_todo (NewConnection h :: todo s1) s1).
Proof.
  intros H Ht Hen. cbn. rewrite Ht. eapply (connector_done_ok s H Ht (NewConnection h)); try done. left. eauto.
Qed.

Lemma loop_event_ok l s s' : ok s -> todo s = [] -> loop_event l s = Some s' -> ok s'.
Proof.
  intros H Ht Hs. destruct l; cbn -[handleConnectorEvent] in Hs; try done.
  - destruct (queue s) as [|f rest] eqn:Hq; [done|]. injection Hs as <-. by apply next_ok.
  - destruct (signalled s && counters_left s) eqn:Hc; [|done]. apply andb_prop in Hc as [_ Hc]. injection Hs as <-.
    apply driveControlInLoop_ok; [|done..]. by eapply ok_outside.
  - injection Hs as <-. by eapply ok_outside.
  - destruct (engaged s && is_failure e) eqn:He; [|done]. apply andb_prop in He as [He Hf]. injection Hs as <-. by apply fail_retried_ok.
  - destruct (engaged s && is_failure e) eqn:He; [|done]. apply andb_prop in He as [He Hf]. injection Hs as <-. by apply fail_terminal_ok.
  - destruct (engaged s) eqn:He; [|done]. injection Hs as <-. by apply client_deliver_ok.
  - injection Hs as <-. unfold shutdown. destruct (connections s !! k) as [[]|] eqn:Hk; try done.
    replace (set_connections _ s) with (set_todo [] (set_connections (<[k := Disconnecting]> (connections s)) s)) by (destruct s; cbn in *; by subst).
    apply connection_state_ok; auto.
  - destruct (connections s !! k) as [[]|] eqn:Hk; try done; injection Hs as <-; rewrite Ht; apply connection_state_ok; auto.
  - destruct (alive (client s)); [|done]. destruct (counters_left s) eqn:Hc; [|done]. injection Hs as <-. by apply client_destroy_ok.
Qed.

Lemma client_step_ok l s s' : ok s -> step l s = Some s' -> ok s'.
Proof.
  intros H Hs. assert (Hev : forall l', match todo s with [] => loop_event l' s | _ => None end = Some s' -> ok s').
  { intros l'. destruct (todo s) eqn:Ht; [|done]. by apply loop_event_ok. }
  destruct l; cbn [step] in Hs; try (by eapply other_step_ok); try (by eapply Hev).
  - destruct (user_code s) eqn:Hu; [|done]. destruct (alive (client s)) eqn:Ha; [|done]. destruct (counters_left s) eqn:Hc; [|done]. injection Hs as <-. by apply try_inline_ok.
  - destruct (_ && _); [|done]. injection Hs as <-. destruct (open s); [by apply ok_setRetry|done].
  - destruct (todo s) as [|t rest] eqn:Ht; [done|]. injection Hs as <-. by apply client_owner_step_ok.
Qed.

Lemma client_reachable_ok retry s : reachable retry s -> ok s.
Proof. induction 1; [apply ok_new|by eapply client_step_ok]. Qed.

Lemma client_run_reachable retry ls s s' : reachable retry s -> run_steps ls s = Some s' -> reachable retry s'.
Proof.
  revert s. induction ls as [|l ls IH]; intros s H; cbn [run_steps]; [by intros [= <-]|].
  destruct (step l s) as [s1|] eqn:H1; [|done]. apply IH. by eapply reachable_step.
Qed.

(** ** Properties *)

(** At rest, neither a callback nor a functor of the owner is left. *)
Definition at_rest (s : World) : bool := match todo s, queue s with [], [] => true | _, _ => false end.

Lemma at_rest_spec s : at_rest s = true -> todo s = [] /\ queue s = [].
Proof. unfold at_rest. by destruct (todo s), (queue s). Qed.

Lemma at_rest_pending s f : at_rest s = true -> ~ pending_op f s.
Proof. intros [Ht Hq]%at_rest_spec. unfold pending_op. rewrite Ht, Hq. intros [?|?]; nomem. Qed.

(** C7. A request to connect that was accepted is not forgotten: whenever no callback runs
    and no functor waits, the active request is the one the connector works on or that of
    the client's connection, which has not ended, and the client wants to be connected; and
    the connector works on no other request than the active one. *)
Theorem request_not_lost retry s :
  reachable retry s -> at_rest s = true ->
  let a := activeConnectRequestId_ (client s) in
  (a <> 0 ->
   connect_ (client s) = true /\
   ((engaged s = true /\ connectorRequestId_ (client s) = a) \/
    (exists k st, connection_ (client s) = Some k /\ connections s !! k = Some st /\ st <> Disconnected /\
       (connectionRequestId_ (client s) = a \/ pendingReconnectRequestId_ (client s) = a)))) /\
  (engaged s = true -> a <> 0 /\ connectorRequestId_ (client s) = a).
Proof.
  intros Hr Hrest a. assert (H := client_reachable_ok _ _ Hr). assert (Hp := fun f => at_rest_pending s f Hrest). destruct (at_rest_spec _ Hrest) as [Ht _]. split.
  - intros Ha. destruct (ok_served _ H Ha) as [[Hc|Hb]|[Hco Hs]]; [by apply Hp in Hc|rewrite Ht in Hb; nomem|]. split; [done|].
    unfold served in Hs. rewrite Ht in Hs.
    destruct Hs as [?|[(h & Hx & _)|[(h & Hx)|[Hx|[(k & Hk & Hor)|[(r & p & Hx & _)|[Hx|Hx]]]]]]]; try (by apply elem_of_nil in Hx); [by left|right].
    destruct (proj2 (ok_connection _ H k) Hk) as [st Hst]. exists k, st. repeat split; try done. intros ->. apply (ok_down _ H) in Hst. rewrite Ht in Hst. nomem.
  - intros He. destruct (ok_engaged _ H He) as [_ Hz]. destruct (ok_quiet _ H He) as [Heq|[(f & Hf & _)|[(x & Hx & _)|Hx]]].
    + unfold a. by rewrite <- Heq.
    + by apply Hp in Hf.
    + rewrite Ht in Hx. nomem.
    + rewrite Ht in Hx. nomem.
Qed.

(** A connection is lost, asked for again in its last callback, and retried. *)
Definition reconnect_schedule : list Label :=
  [Post Connect PostAccepted; Next; Run; Run; Deliver Established; Run; Run; Post Disconnect PostAccepted; Next; Run; Run; Down 1; Inline Connect; Run; Run; Run; Run].
Definition reconnect_end : World := default (World_new false) (run_steps reconnect_schedule (World_new false)).

Lemma reconnect_run : run_steps reconnect_schedule (World_new false) = Some reconnect_end.
Proof. by vm_compute. Qed.

Lemma request_not_lost_witness :
  activeConnectRequestId_ (client reconnect_end) = 2 /\ engaged reconnect_end = true /\ connectorRequestId_ (client reconnect_end) = 2.
Proof.
  assert (He : engaged reconnect_end = true) by by vm_compute. split; [by vm_compute|]. split; [done|].
  assert (Ha : activeConnectRequestId_ (client reconnect_end) = 2) by by vm_compute. rewrite <- Ha at 1.
  refine (proj2 (proj2 (request_not_lost false reconnect_end _ _) He)); [|by vm_compute].
  exact (client_run_reachable false reconnect_schedule _ _ (reachable_new false) reconnect_run).
Defined.

(** There is at most one connection: the client refers to the only connection that has
    not been removed, the connector is never at work while there is one, and the assertion
    of the removal that the connection is the client's never fails. *)
Theorem at_most_one_connection retry s :
  reachable retry s ->
  asserted s = false /\ (forall k, is_Some (connections s !! k) <-> connection_ (client s) = Some k) /\
  (engaged s = true -> connections s = ∅).
Proof.
  intros Hr. assert (H := client_reachable_ok _ _ Hr). split; [apply H|]. split; [apply H|]. intros He. destruct (ok_engaged _ H He) as [Hk _].
  apply map_empty. intros k. destruct (connections s !! k) eqn:Hc; [|done]. assert (connection_ (client s) = Some k) by (apply (ok_connection _ H); eauto). congruence.
Qed.

Lemma at_most_one_connection_witness : engaged reconnect_end = true /\ connections reconnect_end = ∅.
Proof.
  assert (He : engaged reconnect_end = true) by by vm_compute. split; [done|].
  refine (proj2 (proj2 (at_most_one_connection false reconnect_end _)) He).
  exact (client_run_reachable false reconnect_schedule _ _ (reachable_new false) reconnect_run).
Defined.

(** The terminal failure of a request is reported at most once, only for a request
    that was made, and never for the one that is active after the report. *)
Theorem failure_reported_once retry s :
  reachable retry s ->
  NoDup (failures (client s)) /\
  forall r, r ∈ failures (client s) -> 0 < r < nextConnectRequestId_ (client s) /\ r <> activeConnectRequestId_ (client s).
Proof. intros Hr. apply (ok_failures _ (client_reachable_ok _ _ Hr)). Qed.

Definition failure_schedule : list Label :=
  [Post Connect PostAccepted; Next; Run; Run; FailTerminal ConnectTimeout; Run; Inline Connect; Run; Run; FailTerminal ConnectFailed; Run].
Definition failure_end : World := default (World_new false) (run_steps failure_schedule (World_new false)).

Lemma failure_reported_once_witness : failures (client failure_end) = [1; 2] /\ NoDup (failures (client failure_end)).
Proof.
  split; [by vm_compute|]. refine (proj1 (failure_reported_once false failure_end _)).
  refine (client_run_reachable false failure_schedule _ _ (reachable_new false) _). by vm_compute.
Defined.

(** *** After destruction *)

(** Nothing is left that could touch a destroyed client. *)
Lemma dead_step l s s' : ok s -> alive (client s) = false -> step l s = Some s' -> client s' = client s.
Proof.
  intros H Hd Hs. destruct (ok_dead _ H Hd) as (Ht & He & Hk & Hac & _).
  assert (Hnone : forall k, connections s !! k = None).
  { intros k. destruct (connections s !! k) eqn:Hc; [|done]. assert (connection_ (client s) = Some k) by (apply (ok_connection _ H); eauto). congruence. }
  destruct l; cbn in Hs; rewrite ?Ht, ?He, ?Hd, ?Hnone in Hs; cbn in Hs; try done; try (by injection Hs as <-).
  - injection Hs as <-. unfold control_post. by rewrite Hac.
  - by rewrite andb_false_r in Hs.
  - by rewrite andb_false_r in Hs.
  - destruct (queue s) as [|f q]; [done|]. injection Hs as <-. unfold run_functor. cbn. by rewrite Hd.
  - destruct (_ && _); [|done]. injection Hs as <-. unfold driveControlInLoop. cbn. by rewrite Hac.
  - injection Hs as <-. unfold shutdown. by rewrite Hnone.
Qed.

Lemma dead_run ls s s' : ok s -> alive (client s) = false -> run_steps ls s = Some s' -> ok s' /\ client s' = client s.
Proof.
  revert s. induction ls as [|l ls IH]; intros s H Hd; cbn [run_steps]; [by intros [= <-]|].
  destruct (step l s) as [s1|] eqn:H1; [|done]. intros Hs. assert (Hc := dead_step _ _ _ H Hd H1).
  destruct (IH s1) as [? ->]; [by eapply client_step_ok|by rewrite Hc|done|done].
Qed.

(** A destroyed client is not touched any more: whatever was posted before or is asked
    of a control handle afterwards, its members stay as they are, no connection is made or
    removed, no failure is reported, and a handle is told that the owner is gone. *)
Theorem destroyed_client_untouched retry s ls s' :
  reachable retry s -> alive (client s) = false -> run_steps ls s = Some s' ->
  client s' = client s /\ engaged s' = false /\ connections s' = ∅ /\
  forall o r, control_post o r s' = (s', PostOwnerUnavailable).
Proof.
  intros Hr Hd Hs. destruct (dead_run ls s s' (client_reachable_ok _ _ Hr) Hd Hs) as [H Hc]. split; [done|].
  assert (Hd' : alive (client s') = false) by (by rewrite Hc). destruct (ok_dead _ H Hd') as (_ & He & Hk & Hac & _). split; [done|]. split.
  - apply map_empty. intros k. destruct (connections s' !! k) eqn:Hcc; [|done]. assert (connection_ (client s') = Some k) by (apply (ok_connection _ H); eauto). congruence.
  - intros o r. unfold control_post. by rewrite Hac.
Qed.

(** Destruction with an operation queued and a control request signalled. *)
Definition destroyed_schedule : list Label := [Post Connect PostAccepted; ControlPost Stop PostAccepted; Destroy].
Definition destroyed : World := default (World_new true) (run_steps destroyed_schedule (World_new true)).
Definition destroyed_end : World := default (World_new true) (run_steps [Next; Control_; ControlPost Connect PostAccepted] destroyed).

Lemma destroyed_client_untouched_witness : queue destroyed <> [] /\ client destroyed_end = client destroyed /\ queue destroyed_end = [].
Proof.
  split; [by vm_compute|]. split; [|by vm_compute].
  refine (proj1 (destroyed_client_untouched true destroyed [Next; Control_; ControlPost Connect PostAccepted] destroyed_end _ _ _)); [|by vm_compute..].
  refine (client_run_reachable true destroyed_schedule _ _ (reachable_new true) _). by vm_compute.
Defined.

(** *** A control request that is dropped *)

Definition dropped_schedule : list Label :=
  [Post Connect PostAccepted; Next; Run; Run; Deliver Established; Run; Run; ControlPost Disconnect PostAccepted; Quit; Control_].
Definition dropped_end : World := default (World_new false) (run_steps dropped_schedule (World_new false)).

(** A request that a control handle accepted may be dropped without a newer one: when
    the loop is asked to quit before it serves the request, the client finds the executor
    closed, and the mail box is empty while the connection stays up and active. *)
Theorem accepted_control_request_dropped :
  exists before s, reachable false before /\
    snd (control_post Disconnect PostAccepted before) = PostAccepted /\
    run_steps [ControlPost Disconnect PostAccepted; Quit; Control_] before = Some s /\
    at_rest s = true /\ signalled s = false /\ pendingOperation (control (client s)) = None /\
    connections s !! 1%nat = Some Connected /\ activeConnectRequestId_ (client s) = 1 /\ connect_ (client s) = true.
Proof.
  set (before := default (World_new false) (run_steps (take 7 dropped_schedule) (World_new false))). exists before, dropped_end. split.
  - refine (client_run_reachable false (take 7 dropped_schedule) _ _ (reachable_new false) _). by vm_compute.
  - do 7 (split; [by vm_compute|]). by vm_compute.
Qed.
