(* ===== verification/Acceptor.v ===== *)
(** * Acceptor

    Model of [Acceptor] (src/core/net/Acceptor.cc) on both platforms: on POSIX the
    listening channel is drained until [accept] would block, on Windows a fixed pool of
    [AcceptEx] operations is kept submitted.  After an error the acceptor waits 100 ms, and
    on Windows also for the operations of the failed generation, before it goes on.

    Every event of the loop is one function.  What the system answers, and what the user's
    callbacks do, is a script that the event takes along: a call of the system takes the
    next answer, a callback the next reaction, and callbacks may call the acceptor.  Of the
    loop the model has the registration of the channel, the retry timer, and for each
    operation the flags of IocpOperationState.h and IocpPoller.cc: submitted and retained,
    or dequeued with a notice that waits for its consumer.  Generations do not
    reach 2^64. *)

From S2P Require Import Prelude.

Local Open Scope Z_scope.
Local Open Scope usize_scope.

(** ** State *)

Inductive Platform := Posix | Windows.

#[export] Instance Platform_eq_dec : EqDecision Platform.
Proof. solve_decision. Defined.

Inductive AcceptorErrorStage := StageAccept | StageAcceptedSocketCreate | StageAcceptedSocketSetup.

Inductive AcceptorErrorAction := ActionRetry | ActionStop.

(** [IocpAcceptState::Phase] *)
Inductive Phase := Accepting | Retrying | Stopped.

#[export] Instance Phase_eq_dec : EqDecision Phase.
Proof. solve_decision. Defined.

(** [IocpAcceptSlot].  Of its operation: [channel], [submitted] ([submissionAccepted], and
    the lease of the poller), [obligation] ([shutdownObligation]), [error], and [notice]:
    dequeued with its observer registered or not, and not yet consumed. *)
Record Slot := mkSlot {
  accepted : option nat;
  generation : Z;
  pending : bool;
  completionPending : bool;
  cancelling : bool;
  channel : bool;
  submitted : bool;
  obligation : bool;
  error : bool;
  notice : option bool;
}.

Definition Slot_new : Slot := mkSlot None 0 false false false false false false false None.

(** What a callback calls, and how it ends. *)
Inductive Call := CallStop | CallSetNewConnection (b : bool) | CallSetError (b : bool) | CallSetDepth (n : N).
Inductive Answer := Returns (act : AcceptorErrorAction) | Throws.
Record Reaction := mkReaction { calls : list Call; answer : Answer }.

(** [IocpAcceptState]; [acceptEx]: its function pointer is set. *)
Record Pool := mkPool { slots : list Slot; acceptEx : bool; phase : Phase; retryDelayElapsed : bool }.

(** Descriptors made, given to the new-connection callback, and closed; [connfd]: that of
    [handleRead]'s local variable. *)
Record Fds := mkFds { nextFd : nat; given : list nat; closed : list nat; connfd : option nat }.

(** The script: reactions of the user and answers of the system; [reported]: the errors
    that the error callback was told. *)
Record Env := mkEnv { reactions : list Reaction; answers : list bool; reported : list AcceptorErrorStage }.

(** [listener]: the descriptor of [acceptSocket_]; [registered], [reading]: its channel;
    [iocpAccept_]: the pointer is set, and with it the pool's [owner]; the pool itself
    lives on while its operations are submitted. *)
Record Acceptor := mkAcceptor {
  platform : Platform;
  alive : bool;
  listening_ : bool;
  listener : bool;
  registered : bool;
  reading : bool;
  newConnectionCallback_ : bool;
  errorCallback_ : bool;
  retryTimer_ : bool;
  iocpAcceptDepth_ : Z;
  iocpAccept_ : bool;
  pool : Pool;
  fds : Fds;
  env : Env;
}.

Definition Acceptor_new (p : Platform) : Acceptor :=
  mkAcceptor p true false true false false false false false 4 false (mkPool [] false Accepting false) (mkFds 0 [] [] None) (mkEnv [] [] []).

Definition set_listening (l r rd : bool) (a : Acceptor) : Acceptor :=
  mkAcceptor (platform a) (alive a) l (listener a) r rd (newConnectionCallback_ a) (errorCallback_ a) (retryTimer_ a) (iocpAcceptDepth_ a) (iocpAccept_ a) (pool a) (fds a) (env a).
Definition set_listener (al l : bool) (a : Acceptor) : Acceptor :=
  mkAcceptor (platform a) al (listening_ a) l (registered a) (reading a) (newConnectionCallback_ a) (errorCallback_ a) (retryTimer_ a) (iocpAcceptDepth_ a) (iocpAccept_ a) (pool a) (fds a) (env a).
Definition set_user (n e : bool) (d : Z) (a : Acceptor) : Acceptor :=
  mkAcceptor (platform a) (alive a) (listening_ a) (listener a) (registered a) (reading a) n e (retryTimer_ a) d (iocpAccept_ a) (pool a) (fds a) (env a).
Definition set_timer (t : bool) (a : Acceptor) : Acceptor :=
  mkAcceptor (platform a) (alive a) (listening_ a) (listener a) (registered a) (reading a) (newConnectionCallback_ a) (errorCallback_ a) t (iocpAcceptDepth_ a) (iocpAccept_ a) (pool a) (fds a) (env a).
Definition set_pool (i : bool) (p : Pool) (a : Acceptor) : Acceptor :=
  mkAcceptor (platform a) (alive a) (listening_ a) (listener a) (registered a) (reading a) (newConnectionCallback_ a) (errorCallback_ a) (retryTimer_ a) (iocpAcceptDepth_ a) i p (fds a) (env a).
Definition set_fds (f : Fds) (a : Acceptor) : Acceptor :=
  mkAcceptor (platform a) (alive a) (listening_ a) (listener a) (registered a) (reading a) (newConnectionCallback_ a) (errorCallback_ a) (retryTimer_ a) (iocpAcceptDepth_ a) (iocpAccept_ a) (pool a) f (env a).
Definition set_env (e : Env) (a : Acceptor) : Acceptor :=
  mkAcceptor (platform a) (alive a) (listening_ a) (listener a) (registered a) (reading a) (newConnectionCallback_ a) (errorCallback_ a) (retryTimer_ a) (iocpAcceptDepth_ a) (iocpAccept_ a) (pool a) (fds a) e.

Definition set_slots (l : list Slot) (a : Acceptor) : Acceptor :=
  set_pool (iocpAccept_ a) (mkPool l (acceptEx (pool a)) (phase (pool a)) (retryDelayElapsed (pool a))) a.
Definition set_phase (p : Phase) (e : bool) (a : Acceptor) : Acceptor :=
  set_pool (iocpAccept_ a) (mkPool (slots (pool a)) (acceptEx (pool a)) p e) a.

Definition set_accepted (fd : option nat) (s : Slot) : Slot :=
  mkSlot fd (generation s) (pending s) (completionPending s) (cancelling s) (channel s) (submitted s) (obligation s) (error s) (notice s).
Definition set_cancelling (s : Slot) : Slot :=
  mkSlot (accepted s) (generation s) (pending s) (completionPending s) true (channel s) (submitted s) (obligation s) (error s) (notice s).
Definition set_obligation (s : Slot) : Slot :=
  mkSlot (accepted s) (generation s) (pending s) (completionPending s) (cancelling s) (channel s) (submitted s) true (error s) (notice s).
Definition set_channel (b : bool) (s : Slot) : Slot :=
  mkSlot (accepted s) (generation s) (pending s) (completionPending s) (cancelling s) b (submitted s) (obligation s) (error s) (notice s).
(** The next submission is prepared, and succeeds. *)
Definition set_prepared (s : Slot) : Slot :=
  let g := generation s ⊕ 1 in
  mkSlot (accepted s) (if g =? 0 then g ⊕ 1 else g) (pending s) false false true (submitted s) (obligation s) false (notice s).
Definition set_submitted (s : Slot) : Slot :=
  mkSlot (accepted s) (generation s) true (completionPending s) (cancelling s) (channel s) true (obligation s) (error s) (notice s).
(** The completion is consumed. *)
Definition set_consumed (s : Slot) : Slot :=
  mkSlot (accepted s) (generation s) (pending s) false false (channel s) (submitted s) (obligation s) (error s) (notice s).

(** ** The system and the user *)

Definition next_answer : M Acceptor bool :=
  do a <- get ;;
  match answers (env a) with
  | b :: l => run modify (set_env (mkEnv (reactions (env a)) l (reported (env a)))) ;; ret b
  | [] => ret true
  end.

Definition next_reaction : M Acceptor Reaction :=
  do a <- get ;;
  match reactions (env a) with
  | r :: l => run modify (set_env (mkEnv l (answers (env a)) (reported (env a)))) ;; ret r
  | [] => ret (mkReaction [] (Returns ActionRetry))
  end.

Definition new_fd : M Acceptor nat :=
  do a <- get ;;
  run modify (set_fds (mkFds (S (nextFd (fds a))) (given (fds a)) (closed (fds a)) (connfd (fds a)))) ;;
  ret (nextFd (fds a)).

Definition sockets_close (fd : nat) : M Acceptor unit :=
  modify (fun a => set_fds (mkFds (nextFd (fds a)) (given (fds a)) (closed (fds a) ++ [fd]) (connfd (fds a))) a).

Definition update_slot (i : nat) (f : Slot -> Slot) : M Acceptor unit :=
  modify (fun a => set_slots (alter f i (slots (pool a))) a).

Definition the_slot (i : nat) (a : Acceptor) : Slot := default Slot_new (slots (pool a) !! i).

(** The socket of a slot is closed, if it has one. *)
Definition close_accepted (i : nat) : M Acceptor unit :=
  do a <- get ;;
  match accepted (the_slot i a) with
  | Some fd => run sockets_close fd ;; update_slot i (set_accepted None)
  | None => ret tt
  end.

Fixpoint for_each (f : nat -> M Acceptor unit) (l : list nat) : M Acceptor unit :=
  match l with
  | [] => ret tt
  | i :: l => run f i ;; for_each f l
  end.

(** ** Stopping *)

(** [if (retryTimer_.valid()) { loop_->cancel(retryTimer_); retryTimer_ = {}; }] *)
Definition cancel_timer : M Acceptor unit := modify (set_timer false).

(** [EventLoop::trackCompletionOperation], called where nothing may be thrown. *)
Definition trackCompletionOperation (i : nat) : M Acceptor unit :=
  do a <- get ;;
  run throw_if (negb (submitted (the_slot i a))) log_fatal ;;
  update_slot i set_obligation.

Definition cancel_slot (shutdown : bool) (i : nat) : M Acceptor unit :=
  run (if shutdown then update_slot i (set_channel false) else ret tt) ;;
  do a <- get ;;
  if negb (pending (the_slot i a)) then (if shutdown then close_accepted i else ret tt)
  else
    run (if cancelling (the_slot i a) then ret tt
         else run update_slot i set_cancelling ;; trackCompletionOperation i) ;;
    if shutdown then close_accepted i else ret tt.

Definition cancelPendingAccepts (shutdown : bool) : M Acceptor unit :=
  do a <- get ;;
  if iocpAccept_ a then for_each (cancel_slot shutdown) (seq 0 (length (slots (pool a)))) else ret tt.

Definition closePendingAccept : M Acceptor unit :=
  do a <- get ;;
  if iocpAccept_ a then
    run modify (fun a => set_phase Stopped (retryDelayElapsed (pool a)) a) ;;
    run cancelPendingAccepts true ;;
    modify (fun a => set_pool false (pool a) a)
  else ret tt.

Definition on_windows (m : M Acceptor unit) : M Acceptor unit :=
  do a <- get ;;
  match platform a with Windows => m | Posix => ret tt end.

Definition stop : M Acceptor unit :=
  do a <- get ;;
  if negb (listening_ a) then ret tt
  else
    run modify (fun a => set_listening false (registered a) (reading a) a) ;;
    run cancel_timer ;;
    run on_windows closePendingAccept ;;
    run modify (fun a => set_listening (listening_ a) false false a) ;;
    modify (fun a => set_listener (alive a) false a).

(** ** Configuration *)

Definition setNewConnectionCallback (b : bool) : M Acceptor unit :=
  do a <- get ;;
  run throw_if (listening_ a) logic_error ;;
  modify (fun a => set_user b (errorCallback_ a) (iocpAcceptDepth_ a) a).

Definition setErrorCallback (b : bool) : M Acceptor unit :=
  do a <- get ;;
  run throw_if (listening_ a) logic_error ;;
  modify (fun a => set_user (newConnectionCallback_ a) b (iocpAcceptDepth_ a) a).

Definition kMaxIocpAcceptDepth : Z := 64.

Definition setIocpAcceptDepth (depth : Z) : M Acceptor unit :=
  do a <- get ;;
  run throw_if ((depth =? 0) || (kMaxIocpAcceptDepth <? depth)) invalid_argument ;;
  run throw_if (listening_ a) logic_error ;;
  modify (fun a => set_user (newConnectionCallback_ a) (errorCallback_ a) depth a).

Definition run_call (c : Call) : M Acceptor unit :=
  match c with
  | CallStop => stop
  | CallSetNewConnection b => setNewConnectionCallback b
  | CallSetError b => setErrorCallback b
  | CallSetDepth n => setIocpAcceptDepth (Z.of_N n)
  end.

Fixpoint run_calls (l : list Call) : M Acceptor unit :=
  match l with
  | [] => ret tt
  | c :: l => run run_call c ;; run_calls l
  end.

(** A callback of the user. *)
Definition callback : M Acceptor AcceptorErrorAction :=
  do r <- next_reaction ;;
  run run_calls (calls r) ;;
  match answer r with Returns act => ret act | Throws => throw runtime_error end.

(** ** Errors *)

Definition beginAcceptRetry : M Acceptor unit :=
  do a <- get ;;
  if negb (listening_ a) || negb (iocpAccept_ a) || bool_decide (phase (pool a) = Retrying) then ret tt
  else
    run modify (set_phase Retrying false) ;;
    run cancelPendingAccepts false ;;
    modify (set_timer true).

Definition scheduleAcceptRetry : M Acceptor unit :=
  do a <- get ;;
  if negb (listening_ a) || retryTimer_ a then ret tt
  else
    run modify (fun a => set_listening (listening_ a) (registered a) false a) ;;
    modify (set_timer true).

Definition report (stage : AcceptorErrorStage) : M Acceptor unit :=
  modify (fun a => set_env (mkEnv (reactions (env a)) (answers (env a)) (reported (env a) ++ [stage])) a).

Definition handleAcceptError (stage : AcceptorErrorStage) : M Acceptor unit :=
  do a <- get ;;
  if negb (listening_ a) then ret tt
  else
    do act <- (if errorCallback_ a then run report stage ;; try_or callback ActionStop else ret ActionRetry) ;;
    match act with
    | ActionStop => stop
    | ActionRetry => match platform a with Windows => beginAcceptRetry | Posix => scheduleAcceptRetry end
    end.

(** ** The pool of AcceptEx operations *)

Definition postAccept (i : nat) : M Acceptor bool :=
  do a <- get ;;
  let s := the_slot i a in
  if negb (listening_ a) || negb (iocpAccept_ a) || negb (bool_decide (phase (pool a) = Accepting)) || pending s || completionPending s then ret false
  else
    run close_accepted i ;;
    do made <- next_answer ;;
    if negb made then run handleAcceptError StageAcceptedSocketCreate ;; ret false
    else
      do fd <- new_fd ;;
      run update_slot i (set_accepted (Some fd)) ;;
      run update_slot i set_prepared ;;
      run throw_if (submitted s) log_fatal ;;
      run throw_if (negb (acceptEx (pool a))) undefined_behaviour ;;
      do ok <- next_answer ;;
      if negb ok then
        run close_accepted i ;;
        run handleAcceptError StageAccept ;;
        ret false
      else run update_slot i set_submitted ;; ret true.

(** The loop of [fillAcceptPool]. *)
Fixpoint fill (l : list nat) : M Acceptor unit :=
  match l with
  | [] => ret tt
  | i :: l =>
      do a <- get ;;
      if pending (the_slot i a) then fill l
      else
        do ok <- postAccept i ;;
        do a <- get ;;
        if negb ok || negb (iocpAccept_ a) || negb (bool_decide (phase (pool a) = Accepting)) then ret tt else fill l
  end.

Definition fillAcceptPool : M Acceptor unit :=
  do a <- get ;;
  if negb (listening_ a) || negb (iocpAccept_ a) || negb (bool_decide (phase (pool a) = Accepting)) then ret tt
  else fill (seq 0 (length (slots (pool a)))).

Definition busy (s : Slot) : bool := pending s || completionPending s.

Definition maybeResumeAccept : M Acceptor unit :=
  do a <- get ;;
  if negb (listening_ a) || negb (iocpAccept_ a) || negb (bool_decide (phase (pool a) = Retrying)) || negb (retryDelayElapsed (pool a)) then ret tt
  else if existsb busy (slots (pool a)) then ret tt
  else run modify (set_phase Accepting false) ;; fillAcceptPool.

(** The retry timer fires. *)
Definition resumeAccept : M Acceptor unit :=
  run modify (set_timer false) ;;
  do a <- get ;;
  if negb (listening_ a) then ret tt
  else
    run modify (fun a => set_listening (listening_ a) (registered a) true a) ;;
    on_windows (do a <- get ;; if negb (iocpAccept_ a) then ret tt else run modify (fun a => set_phase (phase (pool a)) true a) ;; maybeResumeAccept).

(** ** Accepted connections *)

(** The new-connection callback, which owns the descriptor from now on. *)
Definition hand_over : M Acceptor unit :=
  do a <- get ;;
  let fd := option_list (connfd (fds a)) in
  if newConnectionCallback_ a then
    run modify (set_fds (mkFds (nextFd (fds a)) (given (fds a) ++ fd) (closed (fds a)) None)) ;;
    run callback ;;
    ret tt
  else modify (set_fds (mkFds (nextFd (fds a)) (given (fds a)) (closed (fds a) ++ fd) None)).

(** [accept] has made a descriptor. *)
Definition accept_fd : M Acceptor unit :=
  modify (fun a => set_fds (mkFds (S (nextFd (fds a))) (given (fds a)) (closed (fds a)) (Some (nextFd (fds a)))) a).

(** The descriptor of a slot is moved out. *)
Definition take_accepted (i : nat) : M Acceptor unit :=
  do a <- get ;;
  run modify (set_fds (mkFds (nextFd (fds a)) (given (fds a)) (closed (fds a)) (accepted (the_slot i a)))) ;;
  update_slot i (set_accepted None).

Inductive AcceptResult := Connected | Interrupted | Failed.

(** [handleRead] on POSIX, with the results of [accept] until it would block. *)
Fixpoint accept_loop (l : list AcceptResult) : M Acceptor unit :=
  do a <- get ;;
  if negb (listener a) then handleAcceptError StageAccept
  else
    match l with
    | [] => ret tt
    | Connected :: l => run accept_fd ;; run hand_over ;; accept_loop l
    | Interrupted :: l => accept_loop l
    | Failed :: _ => handleAcceptError StageAccept
    end.

(** [handleRead] on Windows, for the completion of a slot. *)
Definition handleRead (i : nat) : M Acceptor unit :=
  do a <- get ;;
  let s := the_slot i a in
  if negb (iocpAccept_ a) || negb (completionPending s) then ret tt
  else
    run update_slot i set_consumed ;;
    if cancelling s || bool_decide (phase (pool a) = Retrying) then run close_accepted i ;; maybeResumeAccept
    else if negb (bool_decide (phase (pool a) = Accepting)) || negb (listening_ a) then close_accepted i
    else if error s then run close_accepted i ;; handleAcceptError StageAccept
    else
      do updated <- next_answer ;;
      if negb updated then run close_accepted i ;; handleAcceptError StageAcceptedSocketSetup
      else
        do peer <- next_answer ;;
        if negb peer then run close_accepted i ;; handleAcceptError StageAcceptedSocketSetup
        else
          run take_accepted i ;;
          do a <- get ;;
          run (if listening_ a && bool_decide (phase (pool a) = Accepting) then do _ <- postAccept i ;; ret tt else ret tt) ;;
          hand_over.

(** The consumer of a slot's operation; [current]: its observer is still registered. *)
Definition consume (i : nat) (current : bool) : M Acceptor unit :=
  do a <- get ;;
  if negb (completionPending (the_slot i a)) then ret tt
  else if negb current || negb (iocpAccept_ a) then run update_slot i set_consumed ;; close_accepted i
  else handleRead i.

(** The poller dequeues the packet of a slot's operation, which retires it. *)
Definition dequeue (failed : bool) (r : bool) (s : Slot) : Slot :=
  let observed := channel s && r in
  mkSlot (accepted s) (generation s) false (completionPending s || pending s) (cancelling s) (channel s) false false failed (Some observed).

Definition set_notice (s : Slot) : Slot :=
  mkSlot (accepted s) (generation s) (pending s) (completionPending s) (cancelling s) (channel s) (submitted s) (obligation s) (error s) None.

(** ** Listening and destruction *)

(** The pool is allocated and its functions are loaded. *)
Definition make_pool : M Acceptor unit :=
  run modify (fun a => set_pool true (mkPool (replicate (Z.to_nat (iocpAcceptDepth_ a)) Slot_new) false Accepting false) a) ;;
  do loaded <- next_answer ;;
  run throw_if (negb loaded) runtime_error ;;
  run modify (fun a => set_pool true (mkPool (slots (pool a)) true (phase (pool a)) (retryDelayElapsed (pool a))) a) ;;
  do loaded <- next_answer ;;
  run throw_if (negb loaded) runtime_error ;;
  modify (fun a => set_slots (set_channel true <$> slots (pool a)) a).

Definition listen : M Acceptor unit :=
  do a <- get ;;
  run throw_if (negb (listener a)) runtime_error ;;
  do ok <- next_answer ;;
  run throw_if (negb ok) runtime_error ;;
  run on_windows
    (run (if iocpAccept_ a then ret tt else make_pool) ;;
     modify (fun a => set_phase Accepting (retryDelayElapsed (pool a)) a)) ;;
  run modify (set_listening true true true) ;;
  on_windows fillAcceptPool.

(** The destructor; afterwards only the pool is left. *)
Definition Acceptor_destroy : M Acceptor unit :=
  run cancel_timer ;;
  run on_windows closePendingAccept ;;
  run modify (set_listening false false false) ;;
  modify (set_listener false false).

(** ** The machine *)

Inductive Label :=
  | Listen
  | CallOwner (c : Call)                    (** one of the other functions, outside callbacks *)
  | Readable (l : list AcceptResult)        (** POSIX: the channel is readable *)
  | TimerFires                              (** the retry timer *)
  | Dequeue (i : nat) (failed : bool)       (** Windows: the packet of a slot's operation *)
  | Consume (i : nat)                       (** Windows: its notice *)
  | Destroy.

(** The function that an event runs. *)
Definition event (l : Label) (a : Acceptor) : option (M Acceptor unit) :=
  match l with
  | Listen => if alive a then Some listen else None
  | CallOwner c => if alive a then Some (run_call c) else None
  | Readable r => if bool_decide (platform a = Posix) && registered a && reading a then Some (accept_loop r) else None
  | TimerFires => if retryTimer_ a then Some resumeAccept else None
  | Dequeue i failed => if submitted (the_slot i a) then Some (update_slot i (dequeue failed (registered a))) else None
  | Consume i =>
      match notice (the_slot i a) with
      | Some observed => Some (run update_slot i set_notice ;; consume i (observed && registered a))
      | None => None
      end
  | Destroy => if alive a then Some Acceptor_destroy else None
  end.

(** An event with its script. *)
Record Step := mkStep { label : Label; user : list Reaction; system : list bool }.

Definition step (l : Step) (a : Acceptor) : option (result unit * Acceptor) :=
  match event (label l) a with
  | Some m => Some (m (set_env (mkEnv (user l) (system l) (reported (env a))) a))
  | None => None
  end.

(** The discipline of the owner, which the code does not check: [listen] is called while
    not listening, and not again once it has failed to load [AcceptEx] (the server calls
    it once; [listen_after_failed_load] is what happens otherwise). *)
Definition well_timed (l : Label) (a : Acceptor) : bool :=
  match l with
  | Listen => negb (listening_ a) && (negb (iocpAccept_ a) || acceptEx (pool a))
  | _ => true
  end.

Fixpoint run_steps (ls : list Step) (a : Acceptor) : option Acceptor :=
  match ls with
  | [] => Some a
  | l :: ls =>
      if well_timed (label l) a then
        match step l a with
        | Some (_, a) => run_steps ls a
        | None => None
        end
      else None
  end.

(** The acceptors that well-timed steps lead to. *)
Inductive reachable (p : Platform) : Acceptor -> Prop :=
  | reachable_new : reachable p (Acceptor_new p)
  | reachable_step l a r a' :
      reachable p a -> well_timed (label l) a = true -> step l a = Some (r, a') -> reachable p a'.

(** ** The invariant *)

Definition held (a : Acceptor) : list nat := omap accepted (slots (pool a)).

(** Every descriptor made is given away, closed, in the local variable, or in a slot. *)
Definition fds_ok (a : Acceptor) : Prop := given (fds a) ++ closed (fds a) ++ option_list (connfd (fds a)) ++ held a ≡ₚ seq 0 (nextFd (fds a)).

(** A slot, with its operation; [o]: the acceptor still has the pool. *)
Record slot_ok (o : bool) (p : Phase) (s : Slot) : Prop := {
  so_submitted : submitted s = pending s;
  so_notice : is_Some (notice s) <-> completionPending s = true;
  so_exclusive : pending s = true -> completionPending s = false;
  so_accepted : is_Some (accepted s) <-> o = true /\ busy s = true;
  so_cancelling : cancelling s = true -> busy s = true /\ p <> Accepting;
  so_obligation : obligation s = true -> pending s = true;
  so_channel : busy s = true -> channel s = o;
  so_observed : o = true -> forall b, notice s = Some b -> b = true;
}.

(** What holds whenever the acceptor runs. *)
Record core (a : Acceptor) : Prop := {
  co_posix : platform a = Posix -> slots (pool a) = [] /\ iocpAccept_ a = false;
  co_fds : fds_ok a;
  co_slots : Forall (slot_ok (iocpAccept_ a) (phase (pool a))) (slots (pool a));
  co_depth : 1 <= iocpAcceptDepth_ a <= kMaxIocpAcceptDepth;
  co_pool : platform a = Windows -> listening_ a = true -> iocpAccept_ a = true /\ acceptEx (pool a) = true /\ slots (pool a) <> [] /\ phase (pool a) <> Stopped;
  co_fresh : iocpAccept_ a = false -> listener a = true -> slots (pool a) = [];
  co_alive : alive a = false -> listening_ a = false /\ listener a = false;
  co_listener : listening_ a = true -> listener a = true /\ registered a = true;
}.

(** Not listening: before [listen], after a failed one, or for good. *)
Record off (a : Acceptor) : Prop := {
  off_listening : listening_ a = false;
  off_registered : registered a = false;
  off_reading : reading a = false;
  off_timer : retryTimer_ a = false;
  off_idle : iocpAccept_ a = true -> listener a = true /\ Forall (fun s => busy s = false) (slots (pool a)) /\ retryDelayElapsed (pool a) = false /\ slots (pool a) <> [] /\ phase (pool a) = Accepting;
}.

(** Every slot is at work. *)
Definition filled (a : Acceptor) : Prop :=
  phase (pool a) = Accepting /\ retryTimer_ a = false /\ retryDelayElapsed (pool a) = false /\ Forall (fun s => busy s = true) (slots (pool a)).

(** The pool waits for the timer, or for its operations. *)
Definition waiting (a : Acceptor) : Prop :=
  phase (pool a) = Retrying /\
  (retryTimer_ a = true /\ retryDelayElapsed (pool a) = false \/
   retryTimer_ a = false /\ retryDelayElapsed (pool a) = true /\ Exists (fun s => busy s = true) (slots (pool a))).

(** Between events. *)
Definition settled (a : Acceptor) : Prop :=
  core a /\
  (off a \/
   listening_ a = true /\ platform a = Posix /\ reading a = negb (retryTimer_ a) \/
   listening_ a = true /\ platform a = Windows /\ reading a = true /\ (filled a \/ waiting a)).

(** During callbacks. *)
Definition run_ok (a : Acceptor) : Prop := core a /\ (listening_ a = false -> off a).

(** Before the pool is filled, or an error is handled. *)
Definition ready (a : Acceptor) : Prop :=
  run_ok a /\
  (listening_ a = true -> retryTimer_ a = false /\ (platform a = Windows -> reading a = true /\ phase (pool a) = Accepting /\ retryDelayElapsed (pool a) = false)).

(** What most functions leave alone. *)
Definition keep (a : Acceptor) : Platform * option nat := (platform a, connfd (fds a)).

Lemma keep_platform a a' : keep a' = keep a -> platform a' = platform a.
Proof. by intros [= ->]. Qed.

(** What a function may end with. *)
Definition harmless {A} (r : result A) : Prop := r <> Throw log_fatal /\ r <> Throw undefined_behaviour.

Lemma settled_new p : settled (Acceptor_new p).
Proof. split; [|left]; split; try done; cbn. by constructor. Qed.

Lemma settled_run a : settled a -> run_ok a.
Proof. intros [H [Ho|[(Hl & _)|(Hl & _)]]]; split; try done; congruence. Qed.

Lemma off_settled a : core a -> off a -> settled a.
Proof. intros H Ho. split; [done|by left]. Qed.

Lemma off_run a : core a -> off a -> run_ok a.
Proof. intros H Ho. by split. Qed.

(** *** Slots by position *)

Lemma alter_middle {A} (f : A -> A) (l : list A) x m : alter f (length l) (l ++ x :: m) = l ++ f x :: m.
Proof. induction l as [|y l IH]; [done|]. cbn. f_equal. apply IH. Qed.

Lemma lookup_middle {A} (l : list A) x m : (l ++ x :: m) !! length l = Some x.
Proof. by apply list_lookup_middle. Qed.

Lemma set_fds_id a : set_fds (fds a) a = a.
Proof. by destruct a. Qed.

Lemma set_fds_eta f : mkFds (nextFd f) (given f) (closed f) (connfd f) = f.
Proof. by destruct f. Qed.

Lemma the_slot_middle pre s l a : slots (pool a) = pre ++ s :: l -> the_slot (length pre) a = s.
Proof. intros H. unfold the_slot. by rewrite H, lookup_middle. Qed.

(** A change of a slot. *)
Lemma update_slot_eq f pre s l a : slots (pool a) = pre ++ s :: l -> update_slot (length pre) f a = (Ok tt, set_slots (pre ++ f s :: l) a).
Proof. intros H. unfold update_slot, modify. by rewrite H, alter_middle. Qed.

Lemma set_slots_twice l l' a : set_slots l (set_slots l' a) = set_slots l a.
Proof. done. Qed.

Definition add_closed (l : list nat) (a : Acceptor) : Acceptor := set_fds (mkFds (nextFd (fds a)) (given (fds a)) (closed (fds a) ++ l) (connfd (fds a))) a.

Lemma close_accepted_eq pre s l a :
  slots (pool a) = pre ++ s :: l ->
  close_accepted (length pre) a = (Ok tt, set_slots (pre ++ set_accepted None s :: l) (add_closed (option_list (accepted s)) a)).
Proof.
  intros H. unfold close_accepted, bindM, get. rewrite (the_slot_middle _ _ _ _ H). destruct (accepted s) as [fd|] eqn:Ha; cbn [option_list].
  - by apply update_slot_eq.
  - unfold ret. f_equal. unfold add_closed. rewrite app_nil_r, set_fds_eta, set_fds_id. destruct a as [? ? ? ? ? ? ? ? ? ? ? [sl ? ? ?] ? ?]. cbn in *. subst sl. unfold set_slots, set_pool. cbn.
    by destruct s; cbn in *; subst.
Qed.

(** What cancelling does to a slot. *)
Definition cancelled (shutdown : bool) (s : Slot) : Slot :=
  let s := if shutdown then set_channel false s else s in
  let s := if pending s && negb (cancelling s) then set_obligation (set_cancelling s) else s in
  if shutdown then set_accepted None s else s.

Definition dropped (shutdown : bool) (l : list Slot) : list nat := if shutdown then omap accepted l else [].

Lemma add_closed_nil a : add_closed [] a = a.
Proof. unfold add_closed. by rewrite app_nil_r, set_fds_eta, set_fds_id. Qed.

Lemma set_slots_id a l : slots (pool a) = l -> set_slots l a = a.
Proof. intros <-. by destruct a as [? ? ? ? ? ? ? ? ? ? ? [] ? ?]. Qed.

Lemma cancel_slot_eq sd pre s l a :
  slots (pool a) = pre ++ s :: l -> submitted s = pending s ->
  cancel_slot sd (length pre) a = (Ok tt, set_slots (pre ++ cancelled sd s :: l) (add_closed (dropped sd [s]) a)).
Proof.
  intros H Hsub. set (s1 := if sd then set_channel false s else s).
  assert (E1 : (if sd then update_slot (length pre) (set_channel false) else ret tt) a = (Ok tt, set_slots (pre ++ s1 :: l) a)).
  { destruct sd; [by apply update_slot_eq|]. unfold ret. f_equal. by rewrite set_slots_id. }
  unfold cancel_slot. rewrite (bindM_ok _ _ _ _ _ E1). set (a1 := set_slots _ a).
  assert (H1 : slots (pool a1) = pre ++ s1 :: l) by done.
  unfold bindM at 1, get. rewrite (the_slot_middle _ _ _ _ H1).
  assert (Hp : pending s1 = pending s /\ cancelling s1 = cancelling s /\ accepted s1 = accepted s /\ submitted s1 = submitted s) by (unfold s1; by destruct sd).
  destruct Hp as (Hp & Hc & Ha & Hs). unfold cancelled. fold s1. rewrite Hp, Hc.
  assert (Hfin : forall b x, slots (pool b) = pre ++ x :: l -> accepted x = accepted s ->
    (if sd then close_accepted (length pre) else ret tt) b = (Ok tt, set_slots (pre ++ (if sd then set_accepted None x else x) :: l) (add_closed (dropped sd [s]) b))).
  { intros b x Hb Hx. destruct sd; [rewrite (close_accepted_eq _ _ _ _ Hb), Hx; cbn; by destruct (accepted s)|].
    unfold ret, dropped. by rewrite add_closed_nil, set_slots_id. }
  destruct (pending s) eqn:Hpend; cbn [negb andb].
  - destruct (cancelling s) eqn:Hcan; cbn [negb].
    + rewrite (bindM_ok _ _ a1 tt a1 eq_refl). by rewrite (Hfin a1 s1).
    + rewrite (bindM_ok _ _ a1 tt (set_slots (pre ++ set_obligation (set_cancelling s1) :: l) a1)).
      * by rewrite (Hfin _ (set_obligation (set_cancelling s1))).
      * rewrite (bindM_ok _ _ _ _ _ (update_slot_eq set_cancelling _ _ _ _ H1)). unfold trackCompletionOperation.
        set (a2 := set_slots _ a1). assert (H2 : slots (pool a2) = pre ++ set_cancelling s1 :: l) by done.
        unfold bindM at 1, get. rewrite (the_slot_middle _ _ _ _ H2). cbn [submitted set_cancelling]. rewrite Hs, Hsub. cbn [negb throw_if].
        rewrite (bindM_ok _ _ a2 tt a2 eq_refl). by rewrite (update_slot_eq _ _ _ _ _ H2).
  - by rewrite (Hfin a1 s1).
Qed.

Lemma cancel_all_eq sd pre l a :
  slots (pool a) = pre ++ l -> Forall (fun s => submitted s = pending s) l ->
  for_each (cancel_slot sd) (seq (length pre) (length l)) a = (Ok tt, set_slots (pre ++ (cancelled sd <$> l)) (add_closed (dropped sd l) a)).
Proof.
  revert pre a. induction l as [|s l IH]; intros pre a H Hl.
  - cbn. unfold ret. f_equal. rewrite app_nil_r in *. unfold dropped. destruct sd; cbn; by rewrite add_closed_nil, set_slots_id.
  - apply Forall_cons in Hl as [Hs Hl]. cbn [length seq for_each]. rewrite (bindM_ok _ _ _ _ _ (cancel_slot_eq _ _ _ _ _ H Hs)).
    set (a1 := set_slots _ _). assert (H1 : slots (pool a1) = (pre ++ [cancelled sd s]) ++ l) by (cbn; by rewrite <- app_assoc).
    specialize (IH (pre ++ [cancelled sd s]) a1 H1 Hl). rewrite length_app in IH. cbn in IH. rewrite Nat.add_1_r in IH. rewrite IH.
    f_equal. unfold a1. rewrite <- app_assoc. cbn. unfold add_closed. cbn. unfold set_slots, set_fds, set_pool. cbn. do 2 f_equal.
    rewrite <- app_assoc. do 2 f_equal. destruct sd; [|done]. cbn. by destruct (accepted s).
Qed.

Lemma cancelPendingAccepts_eq sd a :
  iocpAccept_ a = true -> Forall (fun s => submitted s = pending s) (slots (pool a)) ->
  cancelPendingAccepts sd a = (Ok tt, set_slots (cancelled sd <$> slots (pool a)) (add_closed (dropped sd (slots (pool a))) a)).
Proof. intros Hi Hs. unfold cancelPendingAccepts, bindM, get. rewrite Hi. by apply (cancel_all_eq sd [] (slots (pool a))). Qed.

(** *** The invariant under changes *)

Lemma core_change a a' :
  core a -> platform a' = platform a -> alive a' = alive a -> listening_ a' = listening_ a -> listener a' = listener a -> registered a' = registered a ->
  iocpAccept_ a' = iocpAccept_ a -> acceptEx (pool a') = acceptEx (pool a) -> 1 <= iocpAcceptDepth_ a' <= kMaxIocpAcceptDepth ->
  length (slots (pool a')) = length (slots (pool a)) -> fds_ok a' -> Forall (slot_ok (iocpAccept_ a) (phase (pool a'))) (slots (pool a')) ->
  (phase (pool a) <> Stopped -> phase (pool a') <> Stopped) -> core a'.
Proof.
  intros [] Hp Hal Hl Hli Hr Hi He Hd Hlen Hf Hs Hph.
  assert (Hnil : slots (pool a) = [] <-> slots (pool a') = []) by (rewrite <- !length_zero_iff_nil; lia).
  split; rewrite ?Hp, ?Hal, ?Hl, ?Hli, ?Hr, ?Hi, ?He; try done.
  - intros Hpx. destruct (co_posix0 Hpx). split; [by apply Hnil|done].
  - intros Hw Hlt. destruct (co_pool0 Hw Hlt) as (? & ? & Hne & ?). split_and!; [done..| |auto]. by rewrite <- Hnil.
  - intros H1 H2. apply Hnil. auto.
Qed.

Lemma core_env e a : core a -> core (set_env e a).
Proof. intros H. apply (core_change a); try done; apply H. Qed.

Lemma off_env e a : off a -> off (set_env e a).
Proof. by intros []. Qed.

Lemma run_env e a : run_ok a -> run_ok (set_env e a).
Proof. intros [H Ho]. split; [by apply core_env|]. intros Hl. apply off_env. by apply Ho. Qed.

Lemma ready_env e a : ready a -> ready (set_env e a).
Proof. intros [H Ho]. split; [by apply run_env|done]. Qed.

Lemma settled_env e a : settled a -> settled (set_env e a).
Proof. intros [H Ho]. split; [by apply core_env|]. destruct Ho as [?|[?|?]]; [left; by apply off_env|auto..]. Qed.

Lemma slots_submitted o p l : Forall (slot_ok o p) l -> Forall (fun s => submitted s = pending s) l.
Proof. intros H. eapply Forall_impl; [exact H|]. by intros s []. Qed.

Lemma cancelled_busy sd s : busy (cancelled sd s) = busy s.
Proof. by destruct s as [? ? [] ? [] ? ? ? ? ?], sd. Qed.

Lemma is_Some_None {A} : is_Some (@None A) <-> false = true.
Proof. split; [by intros []|done]. Qed.

Lemma cancelled_ok o p s : slot_ok o p s -> slot_ok false Stopped (cancelled true s).
Proof.
  destruct s as [acc g pe c k ch sub ob er n]. intros []. cbn in *. unfold busy in *. cbn in *. unfold cancelled. destruct pe, k; split; unfold busy; cbn; try done; try tauto;
    try (rewrite is_Some_None; tauto); intros; split; try done; by apply so_cancelling0.
Qed.

Lemma retried_ok o p s : slot_ok o p s -> slot_ok o Retrying (cancelled false s).
Proof.
  destruct s as [acc g pe c k ch sub ob er n]. intros []. cbn in *. unfold busy in *. cbn in *. unfold cancelled. destruct pe, k; split; unfold busy; cbn; try done; try tauto;
    intros; split; try done; by apply so_cancelling0.
Qed.

Lemma cancelled_accepted sd s : accepted (cancelled sd s) = if sd then None else accepted s.
Proof. by destruct s as [? ? [] ? [] ? ? ? ? ?], sd. Qed.

Lemma cancelled_held sd (l : list Slot) : omap accepted (cancelled sd <$> l) = if sd then [] else omap accepted l.
Proof. induction l as [|s l IH]; [by destruct sd|]. cbn -[cancelled]. rewrite cancelled_accepted. destruct sd; [done|]. by rewrite IH. Qed.

(** The pool is given up. *)
Definition shut_pool (a : Acceptor) : Acceptor :=
  if iocpAccept_ a then set_pool false (mkPool (cancelled true <$> slots (pool a)) (acceptEx (pool a)) Stopped (retryDelayElapsed (pool a))) (add_closed (held a) a) else a.

Lemma bind_modify {A} (f : Acceptor -> Acceptor) (k : unit -> M Acceptor A) a : bindM (modify f) k a = k tt (f a).
Proof. done. Qed.

Lemma closePendingAccept_eq a : Forall (fun s => submitted s = pending s) (slots (pool a)) -> closePendingAccept a = (Ok tt, shut_pool a).
Proof.
  intros Hs. unfold closePendingAccept, shut_pool, bindM at 1, get. destruct (iocpAccept_ a) eqn:Hi; [|done].
  rewrite bind_modify.
  by rewrite (bindM_ok _ _ _ _ _ (cancelPendingAccepts_eq true (set_phase Stopped (retryDelayElapsed (pool a)) a) Hi Hs)).
Qed.

Lemma on_windows_close_eq a : core a -> on_windows closePendingAccept a = (Ok tt, shut_pool a).
Proof.
  intros H. unfold on_windows, bindM, get. destruct (platform a) eqn:Hp.
  - unfold shut_pool. by destruct (co_posix _ H Hp) as [_ ->].
  - apply closePendingAccept_eq. eapply slots_submitted. apply H.
Qed.

(** The end of [stop] and of the destructor: nothing is left but submitted operations. *)
Lemma shut_pool_facts a :
  core a -> Forall (slot_ok false (phase (pool (shut_pool a)))) (slots (pool (shut_pool a))) /\ fds_ok (shut_pool a) /\ iocpAccept_ (shut_pool a) = false /\
  platform (shut_pool a) = platform a /\ alive (shut_pool a) = alive a /\ iocpAcceptDepth_ (shut_pool a) = iocpAcceptDepth_ a /\
  (platform a = Posix -> slots (pool (shut_pool a)) = []) /\ given (fds (shut_pool a)) = given (fds a) /\ connfd (fds (shut_pool a)) = connfd (fds a) /\ env (shut_pool a) = env a.
Proof.
  intros []. unfold shut_pool. destruct (iocpAccept_ a) eqn:Hi; cbn; split_and!; try done.
  - apply Forall_fmap. eapply Forall_impl; [exact co_slots0|]. intros s Hs. by eapply cancelled_ok.
  - unfold fds_ok in *. unfold held. cbn. rewrite cancelled_held, app_nil_r, <- co_fds0, <- !app_assoc. do 2 apply Permutation_app_head. apply Permutation_app_comm.
  - intros Hp. by destruct (co_posix0 Hp) as [-> _].
  - intros Hp. by destruct (co_posix0 Hp) as [-> _].
Qed.

Definition stopped (a : Acceptor) : Acceptor :=
  set_listener (alive a) false (set_listening false false false (shut_pool (set_timer false (set_listening false (registered a) (reading a) a)))).

Lemma core_not_listening a : core a -> core (set_timer false (set_listening false (registered a) (reading a) a)).
Proof. intros []. split; cbn; try done. intros Hd. by destruct (co_alive0 Hd). Qed.

Lemma acceptor_stop_eq a : core a -> stop a = (Ok tt, if listening_ a then stopped a else a).
Proof.
  intros H. unfold stop, bindM at 1, get. destruct (listening_ a) eqn:Hl; [|done]. cbn [negb].
  rewrite bind_modify. unfold cancel_timer. rewrite bind_modify.
  rewrite (bindM_ok _ _ _ _ _ (on_windows_close_eq _ (core_not_listening _ H))).
  unfold bindM, modify, stopped. f_equal. unfold shut_pool. cbn. by destruct (iocpAccept_ a).
Qed.

Lemma stopped_core a : core a -> core (stopped a) /\ off (stopped a) /\ listener (stopped a) = false.
Proof.
  intros H. destruct (shut_pool_facts _ (core_not_listening _ H)) as (Hs & Hf & Hi & Hp & Hal & Hd & Hnil & Hg & Hcf & He).
  unfold stopped. set (b := shut_pool _) in *. cbn in Hp, Hal, Hd, Hnil. split; [|split; [|done]].
  - split; cbn; rewrite ?Hi; try done.
    + intros Hx. split; [|done]. apply Hnil. congruence.
    + rewrite Hd. apply H.
  - split; try done; cbn; [|by rewrite Hi]. clear. unfold b, shut_pool. cbn. by destruct (iocpAccept_ a).
Qed.

Lemma stop_spec a : run_ok a -> wp stop (fun r a' => r = Ok tt /\ settled a' /\ (a' = a \/ listening_ a = true /\ off a') /\ keep a' = keep a /\ (listening_ a = true -> listener a' = false)) a.
Proof.
  intros [H Ho]. unfold wp. rewrite (acceptor_stop_eq a H). cbn. split; [done|]. destruct (listening_ a) eqn:Hl.
  - destruct (stopped_core _ H) as (Hc & Hoff & Hli). split; [by apply off_settled|]. split; [by right|]. split; [|done].
    unfold stopped, shut_pool. cbn. by destruct (iocpAccept_ a).
  - split; [by apply off_settled; auto|]. split; [by left|done].
Qed.

(** *** Callbacks and errors *)

Lemma harmless_ok {A} (x : A) : harmless (Ok x).
Proof. done. Qed.

Lemma harmless_throw {A} e : e <> log_fatal -> e <> undefined_behaviour -> harmless (@Throw A e).
Proof. split; congruence. Qed.

Lemma harmless_cast {A B} e : harmless (@Throw A e) -> harmless (@Throw B e).
Proof. intros [H1 H2]. split; congruence. Qed.

#[local] Hint Resolve harmless_ok harmless_throw harmless_cast : core.

(** What user code may do to the acceptor: nothing, or stop it; when it does not listen,
    configure it. *)
Definition used (a a' : Acceptor) : Prop :=
  run_ok a' /\ keep a' = keep a /\ ((exists e, a' = set_env e a) \/ off a') /\ (listening_ a = true -> listening_ a' = false -> listener a' = false) /\
  (listening_ a = false -> listening_ a' = false /\ listener a' = listener a).

Lemma used_refl a : run_ok a -> used a a.
Proof. intros H. split_and!; try done; [left; exists (env a); by destruct a|intros; congruence]. Qed.

Lemma used_env a e : run_ok a -> used a (set_env e a).
Proof. intros H. split_and!; try done; [by apply run_env|left; by exists e|cbn; intros; congruence]. Qed.

Lemma off_not_listening a : off a -> listening_ a = false.
Proof. apply off_listening. Qed.

Lemma used_trans a b c : used a b -> used b c -> used a c.
Proof.
  intros (H1 & P1 & E1 & L1 & N1) (H2 & P2 & E2 & L2 & N2). split_and!; [done|congruence| | |].
  - destruct E2 as [[e ->]|?]; [|by right]. destruct E1 as [[e' ->]|?]; [left; by exists e|right; by apply off_env].
  - intros Ha Hc. destruct (listening_ b) eqn:Hb; [by apply L2|]. destruct (N2 eq_refl) as [_ ->]. by apply L1.
  - intros Ha. destruct (N1 Ha) as [Hb Hb']. destruct (N2 Hb) as [? ?]. split; [done|congruence].
Qed.

Lemma configured n e d a : run_ok a -> listening_ a = false -> 1 <= d <= kMaxIocpAcceptDepth -> used a (set_user n e d a).
Proof.
  intros [H Ho] Hl Hd. assert (Hoff : off (set_user n e d a)) by (by destruct (Ho Hl)).
  assert (Hc : core (set_user n e d a)) by (apply (core_change a); try done; apply H).
  split_and!; try done; [by right|]. intros; congruence.
Qed.

Lemma run_call_spec c a : run_ok a -> wp (run_call c) (fun r a' => harmless r /\ used a a') a.
Proof.
  intros H. assert (Hd := co_depth _ (proj1 H)). destruct c as [|b|b|n]; cbn.
  - eapply wp_weaken; [by apply stop_spec|]. cbn. intros r a' (-> & Hs & [->|[Hl Ho]] & Hp & Hli); [split; [done|by apply used_refl]|].
    split; [done|]. split_and!; [by apply settled_run|done|by right|auto|intros; congruence].
  - apply wp_get, wp_bind, wp_throw_if; intros Hl; [|split; [auto|by apply used_refl]]. apply wp_modify. split; [done|by apply configured].
  - apply wp_get, wp_bind, wp_throw_if; intros Hl; [|split; [auto|by apply used_refl]]. apply wp_modify. split; [done|by apply configured].
  - apply wp_get, wp_bind, wp_throw_if; intros Hn; [|split; [auto|by apply used_refl]]. apply wp_bind, wp_throw_if; intros Hl; [|split; [auto|by apply used_refl]].
    apply wp_modify. split; [done|]. apply configured; [done..|]. unfold kMaxIocpAcceptDepth in *. zify_bools. lia.
Qed.

Lemma run_calls_spec l a : run_ok a -> wp (run_calls l) (fun r a' => harmless r /\ used a a') a.
Proof.
  revert a. induction l as [|c l IH]; intros a H; cbn; [split; [done|by apply used_refl]|].
  apply wp_bind. eapply wp_weaken; [by apply run_call_spec|]. cbn. intros r a' [Hr Hu]. destruct r as [[]|e]; [|done].
  eapply wp_weaken; [apply IH; apply Hu|]. cbn. intros r a2 [? ?]. split; [done|by eapply used_trans].
Qed.

Lemma callback_spec a : run_ok a -> wp callback (fun r a' => harmless r /\ used a a') a.
Proof.
  intros H. unfold callback. apply wp_bind. unfold next_reaction. apply wp_get.
  assert (Hc : forall e x, wp (run run_calls (calls x) ;; match answer x with Returns act => ret act | Throws => throw runtime_error end) (fun r a' => harmless r /\ used a a') (set_env e a)).
  { intros e x. apply wp_bind. eapply wp_weaken; [apply run_calls_spec; by apply run_env|]. cbn. intros r a' [Hr Hu].
    assert (used a a') by (eapply used_trans; [by apply used_env|done]). destruct r as [[]|ex]; [|by eauto]. destruct (answer x); (split; [|done]); cbn; auto. }
  destruct (reactions (env a)) as [|x l] eqn:Hre.
  - apply wp_ret. assert (Hx := Hc (env a) (mkReaction [] (Returns ActionRetry))). by replace (set_env (env a) a) with a in Hx by (by destruct a).
  - apply wp_bind, wp_modify, wp_ret. apply Hc.
Qed.

Lemma cancelPendingAccepts_core a :
  core a -> iocpAccept_ a = true ->
  cancelPendingAccepts false a = (Ok tt, set_slots (cancelled false <$> slots (pool a)) a).
Proof.
  intros H Hi. rewrite (cancelPendingAccepts_eq false a Hi); [|eapply slots_submitted; apply H]. unfold dropped. by rewrite add_closed_nil.
Qed.

(** The acceptor waits before it goes on. *)
Lemma begin_retry_spec a : ready a -> platform a = Windows -> wp beginAcceptRetry (fun r a' => r = Ok tt /\ settled a' /\ keep a' = keep a) a.
Proof.
  intros [[H Ho] Hl] Hp. unfold beginAcceptRetry. apply wp_get. destruct (listening_ a) eqn:Hli; cbn; [|by split_and!; [|apply off_settled; auto|]].
  destruct (Hl eq_refl) as [Ht Hw]. destruct (Hw Hp) as (Hr & Hph & He). destruct (co_pool _ H Hp Hli) as (Hi & Hx & Hne & Hst).
  rewrite Hi. cbn. rewrite bool_decide_false by congruence. apply wp_bind, wp_modify. apply wp_bind.
  unfold wp at 1. rewrite cancelPendingAccepts_eq; [|done|eapply slots_submitted; apply H]. cbn. unfold dropped. rewrite add_closed_nil. split; [done|]. split; [|done]. split.
  - apply (core_change a); try done; cbn.
    + apply H.
    + by rewrite length_fmap.
    + assert (Hf := co_fds _ H). unfold fds_ok, held in *. cbn. by rewrite cancelled_held.
    + apply Forall_fmap. eapply Forall_impl; [exact (co_slots _ H)|]. intros s Hs. by eapply retried_ok.
  - right. right. split_and!; try done. right. split; [done|]. left. done.
Qed.

Lemma schedule_retry_spec a : ready a -> platform a = Posix -> wp scheduleAcceptRetry (fun r a' => r = Ok tt /\ settled a' /\ keep a' = keep a) a.
Proof.
  intros [[H Ho] Hl] Hp. unfold scheduleAcceptRetry. apply wp_get. destruct (listening_ a) eqn:Hli; cbn; [|by split_and!; [|apply off_settled; auto|]].
  destruct (Hl eq_refl) as [Ht _]. rewrite Ht. cbn. split; [done|]. split; [|done]. split.
  - apply (core_change a); try done; apply H.
  - right. left. done.
Qed.

Lemma ready_used a a' : ready a -> used a a' -> ready a'.
Proof.
  intros [H Hl] (Hr & _ & [[e ->]|Ho] & _); [by apply ready_env|]. split; [done|]. intros Hl'. destruct Ho. congruence.
Qed.

Lemma handleAcceptError_spec stage a : ready a -> wp (handleAcceptError stage) (fun r a' => r = Ok tt /\ settled a' /\ keep a' = keep a) a.
Proof.
  intros H. unfold handleAcceptError. apply wp_get. destruct (listening_ a) eqn:Hl; cbn [negb].
  - apply wp_bind.
    assert (Hact : forall act a', used a a' -> wp (match act with ActionStop => stop | ActionRetry => match platform a with Windows => beginAcceptRetry | Posix => scheduleAcceptRetry end end)
              (fun r a' => r = Ok tt /\ settled a' /\ keep a' = keep a) a').
    { intros act a' Hu. assert (Hr := ready_used _ _ H Hu). assert (Hp : keep a' = keep a) by apply Hu. rewrite <- (keep_platform _ _ Hp). destruct act.
      - destruct (platform a') eqn:Hpa; eapply wp_weaken; [by apply schedule_retry_spec| |by apply begin_retry_spec|]; cbn; intros r b (? & ? & ?); split_and!; congruence || done.
      - eapply wp_weaken; [apply stop_spec; apply Hr|]. cbn. intros r b (? & ? & _ & ? & _). split_and!; [done..|congruence]. }
    destruct (errorCallback_ a); [|apply wp_ret; exact (Hact ActionRetry a (used_refl a (proj1 H)))].
    apply wp_bind, wp_modify. apply wp_try. eapply wp_weaken; [apply callback_spec; apply run_env; apply H|]. cbn. intros r a' [_ Hu].
    assert (Hu' : used a a') by (eapply used_trans; [|exact Hu]; apply used_env; apply H). destruct r as [act|e]; [exact (Hact act a' Hu')|exact (Hact ActionStop a' Hu')].
  - apply wp_ret. split; [done|]. split; [|done]. apply off_settled; [apply H|]. by apply H.
Qed.

(** *** Submitting operations *)

Lemma wp_next_answer (Q : result bool -> Acceptor -> Prop) a : (forall b e, Q (Ok b) (set_env e a)) -> wp next_answer Q a.
Proof.
  intros H. unfold next_answer. apply wp_get. destruct (answers (env a)) as [|b l]; [|apply wp_bind, wp_modify, wp_ret; apply H].
  apply wp_ret. replace a with (set_env (env a) a) by (by destruct a). apply H.
Qed.

Lemma wp_update_slot f pre s l (Q : result unit -> Acceptor -> Prop) a : slots (pool a) = pre ++ s :: l -> Q (Ok tt) (set_slots (pre ++ f s :: l) a) -> wp (update_slot (length pre) f) Q a.
Proof. intros H HQ. unfold wp. by rewrite (update_slot_eq _ _ _ _ _ H). Qed.

(** Descriptors of one slot among all. *)
Lemma held_middle pre s (l : list Slot) : omap accepted (pre ++ s :: l) = omap accepted pre ++ option_list (accepted s) ++ omap accepted l.
Proof. rewrite omap_app. cbn. by destruct (accepted s). Qed.

Lemma fds_move g c k pre s s' l n :
  g ++ c ++ k ++ omap accepted (pre ++ s :: l) ≡ₚ seq 0 n -> accepted s' = None -> g ++ (c ++ option_list (accepted s)) ++ k ++ omap accepted (pre ++ s' :: l) ≡ₚ seq 0 n.
Proof.
  rewrite !held_middle. intros <- ->. cbn. rewrite <- !app_assoc. do 2 apply Permutation_app_head. rewrite (Permutation_app_swap_app _ k). apply Permutation_app_head, Permutation_app_swap_app.
Qed.

Lemma fds_take g c pre s s' l n :
  g ++ c ++ omap accepted (pre ++ s :: l) ≡ₚ seq 0 n -> accepted s' = None -> g ++ c ++ option_list (accepted s) ++ omap accepted (pre ++ s' :: l) ≡ₚ seq 0 n.
Proof. rewrite !held_middle. intros <- ->. cbn. do 2 apply Permutation_app_head. apply Permutation_app_swap_app. Qed.

Lemma fds_make g c k pre s s' l n :
  g ++ c ++ k ++ omap accepted (pre ++ s :: l) ≡ₚ seq 0 n -> accepted s = None -> accepted s' = Some n -> g ++ c ++ k ++ omap accepted (pre ++ s' :: l) ≡ₚ seq 0 (S n).
Proof.
  rewrite seq_S, !held_middle. cbn. intros <- -> ->. cbn. rewrite <- !app_assoc. do 4 apply Permutation_app_head. by rewrite <- Permutation_cons_append.
Qed.

(** A slot and its descriptor change. *)
Lemma core_slot a e f pre s s' l :
  core a -> slots (pool a) = pre ++ s :: l -> slot_ok (iocpAccept_ a) (phase (pool a)) s' ->
  given f ++ closed f ++ option_list (connfd f) ++ omap accepted (pre ++ s' :: l) ≡ₚ seq 0 (nextFd f) ->
  core (set_env e (set_slots (pre ++ s' :: l) (set_fds f a))).
Proof.
  intros H Hs Hok Hf. apply (core_change a); try done; cbn.
  - apply H.
  - rewrite Hs, !length_app. done.
  - assert (Ha := co_slots _ H). rewrite Hs in Ha. apply Forall_app in Ha as [H1 H2]. apply Forall_cons in H2 as [_ H2]. apply Forall_app. split; [done|]. by apply Forall_cons.
Qed.

Lemma ready_slot a e f pre s s' l :
  ready a -> listening_ a = true -> slots (pool a) = pre ++ s :: l -> slot_ok (iocpAccept_ a) (phase (pool a)) s' ->
  given f ++ closed f ++ option_list (connfd f) ++ omap accepted (pre ++ s' :: l) ≡ₚ seq 0 (nextFd f) ->
  ready (set_env e (set_slots (pre ++ s' :: l) (set_fds f a))).
Proof.
  intros [[H Ho] Hr] Hl Hs Hok Hf. split; [|by auto]. split; [by eapply core_slot|]. cbn. congruence.
Qed.

Lemma wp_close_accepted pre s l (Q : result unit -> Acceptor -> Prop) a :
  slots (pool a) = pre ++ s :: l -> Q (Ok tt) (set_slots (pre ++ set_accepted None s :: l) (add_closed (option_list (accepted s)) a)) -> wp (close_accepted (length pre)) Q a.
Proof. intros H HQ. unfold wp. by rewrite (close_accepted_eq _ _ _ _ H). Qed.

Lemma slot_in a pre s l : core a -> slots (pool a) = pre ++ s :: l -> slot_ok (iocpAccept_ a) (phase (pool a)) s.
Proof. intros H Hs. assert (Ha := co_slots _ H). rewrite Hs in Ha. apply Forall_app in Ha as [_ Ha]. by apply Forall_cons in Ha as [? _]. Qed.

Definition posted (pre l : list Slot) (k : Platform * option nat) (r : result bool) (a : Acceptor) : Prop :=
  keep a = k /\
  match r with
  | Ok true => ready a /\ listening_ a = true /\ exists s, slots (pool a) = pre ++ s :: l /\ busy s = true
  | Ok false => settled a
  | Throw _ => False
  end.

(** The error is handled, and nothing was submitted. *)
Lemma post_fails stage pre l k a : ready a -> keep a = k -> wp (run handleAcceptError stage ;; ret false) (posted pre l k) a.
Proof. intros H <-. apply wp_bind. eapply wp_weaken; [by apply handleAcceptError_spec|]. cbn. intros r a' (-> & ? & ?). by apply wp_ret. Qed.

Lemma idle_slot o p s : slot_ok o p s -> busy s = false -> accepted s = None /\ submitted s = false /\ notice s = None /\ obligation s = false /\ pending s = false /\ completionPending s = false.
Proof.
  intros [] Hb. assert (Hpc := Hb). apply orb_false_iff in Hpc as [Hp Hc]. rewrite Hb, Hp, Hc in *. split_and!; try done.
  - destruct (accepted s); [|done]. by destruct (proj1 so_accepted0) as [_ ?]; [eexists|].
  - destruct (notice s); [|done]. by assert (false = true) by (apply so_notice0; eauto).
  - destruct (obligation s); [|done]. by specialize (so_obligation0 eq_refl).
Qed.

Lemma prepared_ok o s fd : slot_ok o Accepting s -> busy s = false -> o = true -> slot_ok o Accepting (set_submitted (set_prepared (set_accepted (Some fd) s))).
Proof.
  intros H Hb ->. destruct (idle_slot _ _ _ H Hb) as (Ha & Hs & Hn & Ho & Hp & Hc). split; cbn; unfold busy; cbn; try done; rewrite ?Hn, ?Ho; done.
Qed.

Lemma rejected_ok o s : slot_ok o Accepting s -> busy s = false -> slot_ok o Accepting (set_accepted None (set_prepared s)).
Proof.
  intros H Hb. destruct (idle_slot _ _ _ H Hb) as (Ha & Hs & Hn & Ho & Hp & Hc). split; cbn; unfold busy; cbn; rewrite ?Hn, ?Hp, ?Hs, ?Ho; try done.
  split; [by intros []|by intros [_ ?]].
Qed.

Lemma postAccept_spec pre s l a :
  ready a -> listening_ a = true -> platform a = Windows -> slots (pool a) = pre ++ s :: l -> busy s = false ->
  wp (postAccept (length pre)) (posted pre l (keep a)) a.
Proof.
  intros H Hl Hp Hs Hb. assert (Hc : core a) by apply H. destruct H as [Hrun Hr]. destruct (Hr Hl) as [Ht Hw]. destruct (Hw Hp) as (Hrd & Hph & Hel).
  destruct (co_pool _ Hc Hp Hl) as (Hi & Hx & _). assert (Hok := slot_in _ _ _ _ Hc Hs). rewrite Hi, Hph in Hok. destruct (idle_slot _ _ _ Hok Hb) as (Hac & Hsu & _ & _ & Hpe & Hcp).
  assert (Hready : forall e f s', slot_ok (iocpAccept_ a) (phase (pool a)) s' -> given f ++ closed f ++ option_list (connfd f) ++ omap accepted (pre ++ s' :: l) ≡ₚ seq 0 (nextFd f) -> ready (set_env e (set_slots (pre ++ s' :: l) (set_fds f a)))).
  { intros e f s' H1 H2. by apply (ready_slot a e f pre s). }
  assert (Hf := co_fds _ Hc). unfold fds_ok, held in Hf. rewrite Hs in Hf.
  unfold postAccept. apply wp_get. rewrite (the_slot_middle _ _ _ _ Hs), Hl, Hi, Hph, Hpe, Hcp. cbn [negb orb]. rewrite bool_decide_true by done. cbn [negb orb].
  apply wp_bind, (wp_close_accepted pre s l); [done|]. rewrite Hac. cbn [option_list]. rewrite add_closed_nil.
  assert (Heq : set_slots (pre ++ set_accepted None s :: l) a = a) by (apply set_slots_id; rewrite Hs; do 2 f_equal; destruct s; cbn in *; by subst). rewrite Heq.
  apply wp_bind, wp_next_answer. intros made e1. destruct made; cbn [negb]; [|apply post_fails; [by apply ready_env|done]].
  apply wp_bind. unfold new_fd. apply wp_get, wp_bind, wp_modify, wp_ret.
  apply wp_bind, (wp_update_slot _ pre s l); [done|]. apply wp_bind, (wp_update_slot _ pre (set_accepted (Some (nextFd (fds a))) s) l); [done|].
  rewrite Hsu, Hx. apply wp_bind, wp_throw_if; [intros _|done]. apply wp_bind, wp_throw_if; [intros _|done].
  apply wp_bind, wp_next_answer. intros ok e2. destruct ok; cbn [negb].
  - apply wp_bind, (wp_update_slot _ pre (set_prepared (set_accepted (Some (nextFd (fds a))) s)) l); [done|]. apply wp_ret. split; [done|].
    set (s' := set_submitted _). split; [|split; [done|by exists s']].
    apply (Hready e2 (mkFds (S (nextFd (fds a))) (given (fds a)) (closed (fds a)) (connfd (fds a))) s').
    + rewrite Hph. apply prepared_ok; [by rewrite Hi|done..].
    + by apply (fds_make _ _ _ _ s).
  - apply wp_bind, (wp_close_accepted pre (set_prepared (set_accepted (Some (nextFd (fds a))) s)) l); [done|]. apply post_fails; [|done].
    apply (Hready e2 (mkFds (S (nextFd (fds a))) (given (fds a)) (closed (fds a) ++ [nextFd (fds a)]) (connfd (fds a))) (set_accepted None (set_prepared s))).
    + rewrite Hph, Hi. by apply rejected_ok.
    + eapply (fds_move _ _ _ _ (set_accepted (Some (nextFd (fds a))) s)); [|done]. by apply (fds_make _ _ _ _ s).
Qed.

(** *** Filling the pool *)

Lemma settled_filled a : ready a -> listening_ a = true -> platform a = Windows -> Forall (fun s => busy s = true) (slots (pool a)) -> settled a.
Proof.
  intros [[H _] Hr] Hl Hp Hb. split; [done|]. destruct (Hr Hl) as [Ht Hw]. destruct (Hw Hp) as (? & ? & ?). right. right. split_and!; try done. by left.
Qed.

Definition idle (s : Slot) : Prop := busy s = false.

Lemma fill_spec pre l a :
  ready a -> listening_ a = true -> platform a = Windows -> slots (pool a) = pre ++ l -> Forall (fun s => busy s = true) pre -> Forall idle l ->
  wp (fill (seq (length pre) (length l))) (fun r a' => r = Ok tt /\ settled a' /\ keep a' = keep a) a.
Proof.
  revert pre a. induction l as [|s l IH]; intros pre a H Hl Hp Hs Hpre Hidle.
  - apply wp_ret. split; [done|]. split; [|done]. apply settled_filled; try done. by rewrite Hs, app_nil_r.
  - apply Forall_cons in Hidle as [Hsi Hidle]. cbn [length seq fill]. apply wp_get. rewrite (the_slot_middle _ _ _ _ Hs).
    assert (Hpe : pending s = false) by (by apply orb_false_iff in Hsi as [? _]). rewrite Hpe. apply wp_bind.
    eapply wp_weaken; [by apply (postAccept_spec pre s l)|]. intros r a' [Hk Hpost]. assert (Hp' : platform a' = Windows) by (rewrite (keep_platform _ _ Hk); done). destruct r as [[]|]; [| |done].
    + destruct Hpost as (H' & Hl' & s' & Hs' & Hb'). apply wp_get. cbn [negb orb].
      assert (Hc : core a') by apply H'. destruct (co_pool _ Hc Hp' Hl') as (Hi & _). destruct H' as [Hrun Hr]. destruct (Hr Hl') as [_ Hw]. destruct (Hw Hp') as (_ & Hph & _).
      rewrite Hi, Hph. cbn [negb orb]. rewrite bool_decide_true by done. cbn [negb].
      replace (S (length pre)) with (length (pre ++ [s'])) by (rewrite length_app; cbn; lia).
      eapply wp_weaken; [apply IH; try done; [by rewrite <- app_assoc|]; apply Forall_app; split; [done|]; by constructor|].
      cbn. intros r b (? & ? & ?). split_and!; [done..|congruence].
    + apply wp_get. cbn [negb orb]. by apply wp_ret.
Qed.

Lemma fillAcceptPool_spec a :
  ready a -> (listening_ a = true -> platform a = Windows /\ Forall idle (slots (pool a))) -> wp fillAcceptPool (fun r a' => r = Ok tt /\ settled a' /\ keep a' = keep a) a.
Proof.
  intros H Hw. unfold fillAcceptPool. apply wp_get. destruct (listening_ a) eqn:Hl; cbn [negb orb].
  - destruct (Hw eq_refl) as [Hp Hidle]. assert (Hc : core a) by apply H. destruct (co_pool _ Hc Hp Hl) as (Hi & _). destruct H as [Hrun Hr]. destruct (Hr Hl) as [? Hx]. destruct (Hx Hp) as (_ & Hph & _).
    rewrite Hi, Hph. cbn [negb orb]. rewrite bool_decide_true by done. cbn [negb]. by apply (fill_spec []).
  - apply wp_ret. split; [done|]. split; [|done]. apply off_settled; [apply H|]. by apply H.
Qed.

(** The slots survive a new phase unless some are cancelling. *)
Lemma slots_idle_ok o p l : Forall (slot_ok o p) l -> Forall idle l -> Forall (slot_ok o Accepting) l.
Proof.
  intros H Hi. rewrite Forall_forall in *. intros s Hs. destruct (H s Hs). split; try done. intros Hc. destruct (so_cancelling0 Hc) as [Hb _]. specialize (Hi s Hs). congruence.
Qed.

Lemma existsb_busy l : existsb busy l = false -> Forall idle l.
Proof. intros H. apply Forall_forall. intros s Hs. unfold idle. destruct (busy s) eqn:Hb; [|done]. assert (existsb busy l = true) by (apply existsb_exists; exists s; split; [by apply list_elem_of_In|done]). congruence. Qed.

Lemma existsb_busy_true l : existsb busy l = true -> Exists (fun s => busy s = true) l.
Proof. intros (s & Hs & Hb)%existsb_exists. apply Exists_exists. exists s. split; [by apply list_elem_of_In|done]. Qed.

Lemma ready_resumed a :
  core a -> listening_ a = true -> platform a = Windows -> reading a = true -> retryTimer_ a = false -> Forall idle (slots (pool a)) -> ready (set_phase Accepting false a).
Proof.
  intros H Hl Hp Hr Ht Hi. split; [|done]. split; [|cbn; congruence].
  apply (core_change a); try done; [apply H..|]. cbn. eapply slots_idle_ok; [apply H|done].
Qed.

(** What is between a retry and the next submission: the timer, or the operations. *)
Definition resting (a : Acceptor) : Prop :=
  core a /\ listening_ a = true /\ platform a = Windows /\ reading a = true /\ phase (pool a) = Retrying /\ retryTimer_ a = negb (retryDelayElapsed (pool a)).

Lemma maybeResumeAccept_spec a : resting a -> wp maybeResumeAccept (fun r a' => r = Ok tt /\ settled a' /\ keep a' = keep a) a.
Proof.
  intros (H & Hl & Hp & Hr & Hph & Ht). unfold maybeResumeAccept. apply wp_get. destruct (co_pool _ H Hp Hl) as (Hi & _). rewrite Hl, Hi, Hph. cbn [negb orb].
  rewrite bool_decide_true by done. cbn [negb orb].
  assert (Hset : (retryTimer_ a = true /\ retryDelayElapsed (pool a) = false \/ retryTimer_ a = false /\ retryDelayElapsed (pool a) = true /\ Exists (fun s => busy s = true) (slots (pool a))) -> settled a).
  { intros Hw. split; [done|]. right. right. split_and!; try done. by right. }
  destruct (retryDelayElapsed (pool a)) eqn:He; cbn [negb] in *.
  - destruct (existsb busy (slots (pool a))) eqn:Hb.
    + apply wp_ret. split; [done|]. split; [|done]. apply Hset. right. split_and!; [done..|]. by apply existsb_busy_true.
    + apply wp_bind, wp_modify. apply existsb_busy in Hb. eapply wp_weaken; [apply fillAcceptPool_spec; [by apply ready_resumed|done]|]. cbn. done.
  - apply wp_ret. split; [done|]. split; [|done]. apply Hset. by left.
Qed.

Lemma resumeAccept_spec a : settled a -> retryTimer_ a = true -> wp resumeAccept (fun r a' => r = Ok tt /\ settled a' /\ keep a' = keep a) a.
Proof.
  intros [H Hs] Ht. unfold resumeAccept. apply wp_bind, wp_modify, wp_get. cbn [listening_ set_timer].
  destruct Hs as [Ho|[(Hl & Hp & Hr)|(Hl & Hp & Hr & [Hf|Hw])]].
  - destruct Ho. congruence.
  - rewrite Hl. cbn [negb]. apply wp_bind, wp_modify. unfold on_windows. apply wp_get. cbn. rewrite Hp. apply wp_ret. split; [done|]. split; [|done]. split.
    + apply (core_change a); try done; apply H.
    + right. left. done.
  - destruct Hf as (_ & ? & _). congruence.
  - destruct Hw as [Hph [[_ He]|[? _]]]; [|congruence]. rewrite Hl. cbn [negb]. apply wp_bind, wp_modify. unfold on_windows. apply wp_get. cbn. rewrite Hp.
    apply wp_get. cbn. destruct (co_pool _ H Hp Hl) as (Hi & _). rewrite Hi. cbn [negb]. apply wp_bind, wp_modify.
    eapply wp_weaken; [apply maybeResumeAccept_spec|done]. split_and!; try done. apply (core_change a); try done; try apply H.
Qed.

(** *** Events *)

Lemma settled_used a a' : settled a -> used a a' -> settled a'.
Proof. intros H (Hr & _ & [[e ->]|Ho] & _); [by apply settled_env|]. apply off_settled; [apply Hr|done]. Qed.

(** The descriptors move, with nothing else. *)
Lemma settled_fds f a : settled a -> given f ++ closed f ++ option_list (connfd f) ++ held a ≡ₚ seq 0 (nextFd f) -> settled (set_fds f a).
Proof.
  intros [H Hs] Hf. split.
  - apply (core_change a); try done; apply H.
  - destruct Hs as [Ho|[?|(? & ? & ? & ?)]]; [left|by right; left|right; right; by split_and!]. by destruct Ho.
Qed.

Lemma ready_fds f a : ready a -> given f ++ closed f ++ option_list (connfd f) ++ held a ≡ₚ seq 0 (nextFd f) -> ready (set_fds f a).
Proof.
  intros [[H Ho] Hr] Hf. split; [|done]. split.
  - apply (core_change a); try done; apply H.
  - intros Hl. by destruct (Ho Hl).
Qed.

Definition quiet (a a' : Acceptor) : Prop := settled a' /\ platform a' = platform a /\ connfd (fds a') = None.

Lemma hand_over_spec a : settled a -> wp hand_over (fun r a' => harmless r /\ quiet a a' /\ (ready a -> ready a')) a.
Proof.
  intros H. assert (Hf := co_fds _ (proj1 H)). unfold fds_ok in Hf. unfold hand_over. apply wp_get.
  assert (Hmove : forall f, given f ++ closed f ++ option_list (connfd f) ++ held a ≡ₚ seq 0 (nextFd f) -> settled (set_fds f a) /\ (ready a -> ready (set_fds f a))).
  { intros f Hff. split; [by apply settled_fds|]. intros Hr. by apply ready_fds. }
  destruct (newConnectionCallback_ a).
  - apply wp_bind, wp_modify. set (f := mkFds _ _ _ _). destruct (Hmove f) as [Hs Hr].
    { unfold f. cbn. rewrite <- Hf, <- !app_assoc. apply Permutation_app_head. apply Permutation_app_swap_app. }
    apply wp_bind. eapply wp_weaken; [apply callback_spec; by apply settled_run|]. cbn. intros r a' [Hh Hu].
    assert (Hq : quiet a a' /\ (ready a -> ready a')).
    { split; [|intros Hra; eapply ready_used; [by apply Hr|done]]. split; [by eapply settled_used|]. destruct Hu as (_ & Hk & _). injection Hk as Hk1 Hk2. split; [done|]. by rewrite Hk2. }
    destruct r as [act|e]; [|by split; [eapply harmless_cast|]]. cbn. by split.
  - apply wp_modify. set (f := mkFds _ _ _ _). destruct (Hmove f) as [Hs Hr].
    { unfold f. cbn. rewrite <- Hf, <- !app_assoc. done. }
    by split.
Qed.

Lemma settled_ready_posix a : settled a -> platform a = Posix -> reading a = true -> ready a.
Proof.
  intros H Hp Hr. split; [by apply settled_run|]. intros Hl. split; [|congruence]. destruct H as [_ [[]|[(_ & _ & Ht)|(_ & ? & _)]]]; [congruence| |congruence].
  rewrite Hr in Ht. by destruct (retryTimer_ a).
Qed.

(** POSIX: every descriptor is handed over or closed before the next one is accepted. *)
Lemma accept_loop_spec l a : settled a -> ready a -> connfd (fds a) = None -> wp (accept_loop l) (fun r a' => harmless r /\ quiet a a') a.
Proof.
  revert a. assert (Herr : forall stage a, ready a -> connfd (fds a) = None -> wp (handleAcceptError stage) (fun r a' => harmless r /\ quiet a a') a).
  { intros stage a H Hc. eapply wp_weaken; [by apply handleAcceptError_spec|]. cbn. intros r a' (-> & Hs & [= Hp Hk]). split; [done|]. split_and!; [done..|]. by rewrite Hk. }
  induction l as [|x l IH]; intros a H Hr Hc; cbn [accept_loop]; apply wp_get; destruct (listener a); cbn [negb]; try by apply Herr.
  - by apply wp_ret.
  - destruct x; [|by apply IH|by apply Herr]. apply wp_bind, wp_modify. set (f := mkFds _ _ _ _).
    assert (Hf : given f ++ closed f ++ option_list (connfd f) ++ held a ≡ₚ seq 0 (nextFd f)).
    { assert (Hf := co_fds _ (proj1 H)). unfold fds_ok in Hf. rewrite Hc in Hf. cbn [option_list app] in Hf. unfold f. cbn [nextFd given closed connfd option_list]. rewrite seq_S, <- Hf, <- !app_assoc. do 2 apply Permutation_app_head. cbn. apply Permutation_cons_append. }
    apply wp_bind. eapply wp_weaken; [apply hand_over_spec; by apply settled_fds|]. cbn. intros r a' (Hh & (Hs & Hp & Hk) & Hra).
    destruct r as [[]|e]; [|done]. eapply wp_weaken; [apply IH; [done| |done]; apply Hra; by apply ready_fds|]. cbn. intros r b (? & ? & Hpb & ?). split; [done|]. split_and!; [done|by rewrite Hpb|done].
Qed.

(** A consumed slot. *)
Lemma consumed_ok o p s : slot_ok o p s -> completionPending s = true -> slot_ok o p (set_accepted None (set_consumed (set_notice s))) /\ busy (set_accepted None (set_consumed (set_notice s))) = false.
Proof.
  intros [] Hc. assert (Hp : pending s = false) by (destruct (pending s); [by specialize (so_exclusive0 eq_refl); congruence|done]).
  assert (Ho : obligation s = false) by (destruct (obligation s); [by specialize (so_obligation0 eq_refl); congruence|done]).
  split; [|unfold busy; cbn; by rewrite Hp]. split; cbn; unfold busy; cbn; rewrite ?Hp, ?Ho; try done; try (split; [by intros []|done]).
  - congruence.
  - split; [by intros []|by intros [_ ?]].
Qed.

(** A slot that is at work belongs to an acceptor that listens, or has been left behind. *)
Lemma at_work_listens a pre s l : settled a -> slots (pool a) = pre ++ s :: l -> busy s = true -> iocpAccept_ a = true -> listening_ a = true /\ platform a = Windows.
Proof.
  intros [H Hs] Hsl Hb Hi. destruct (platform a) eqn:Hp; [by destruct (co_posix _ H Hp); congruence|]. split; [|done].
  destruct Hs as [[]|[(? & ? & _)|(? & _)]]; [|done..]. destruct (off_idle0 Hi) as (_ & Hidle & _). rewrite Hsl in Hidle. apply Forall_app in Hidle as [_ Hidle]. apply Forall_cons in Hidle as [Hx _]. congruence.
Qed.

(** Windows: the completion of a slot that the listening acceptor consumes. *)
Section Completion.
Context (a0 : Acceptor) (pre l : list Slot) (s : Slot).
Hypothesis H : settled a0.
Hypothesis Hs : slots (pool a0) = pre ++ s :: l.
Hypothesis Hc : completionPending s = true.
Hypothesis Hk : connfd (fds a0) = None.

Definition emptied : Slot := set_accepted None (set_consumed (set_notice s)).

Lemma slot_completed : slot_ok (iocpAccept_ a0) (phase (pool a0)) s.
Proof. exact (slot_in _ _ _ _ (proj1 H) Hs). Qed.

Lemma emptied_ok : slot_ok (iocpAccept_ a0) (phase (pool a0)) emptied /\ busy emptied = false.
Proof. apply consumed_ok; [exact slot_completed|done]. Qed.

Lemma completed_fds g c k f :
  given f = g -> closed f = c -> connfd f = k -> nextFd f = nextFd (fds a0) ->
  (g = given (fds a0) /\ c = closed (fds a0) ++ option_list (accepted s) /\ k = None \/ g = given (fds a0) /\ c = closed (fds a0) /\ k = accepted s) ->
  given f ++ closed f ++ option_list (connfd f) ++ omap accepted (pre ++ emptied :: l) ≡ₚ seq 0 (nextFd f).
Proof.
  intros -> -> -> -> Hm. assert (Hf := co_fds _ (proj1 H)). unfold fds_ok, held in Hf. rewrite Hs, Hk in Hf. cbn [option_list app] in Hf.
  destruct Hm as [(-> & -> & ->)|(-> & -> & ->)].
  - rewrite <- !app_assoc. cbn. rewrite <- Hf. rewrite !held_middle. cbn. do 2 apply Permutation_app_head. apply Permutation_app_swap_app.
  - eapply fds_take; [exact Hf|done].
Qed.

(** The slot is emptied and its socket closed. *)
Definition closed_slot (e : Env) : Acceptor :=
  set_env e (set_slots (pre ++ emptied :: l) (set_fds (mkFds (nextFd (fds a0)) (given (fds a0)) (closed (fds a0) ++ option_list (accepted s)) None) a0)).

Lemma closed_slot_core e : core (closed_slot e).
Proof. eapply core_slot; [apply H|exact Hs|apply emptied_ok|]. eapply completed_fds; try done. by left. Qed.

(** Its state before the socket is closed. *)
Definition consumed (e : Env) : Acceptor := set_env e (set_slots (pre ++ set_consumed (set_notice s) :: l) a0).

Lemma consumed_closed e : set_slots (pre ++ emptied :: l) (add_closed (option_list (accepted s)) (consumed e)) = closed_slot e.
Proof. unfold closed_slot, add_closed, consumed. cbn. by rewrite Hk. Qed.

Lemma close_consumed e {A} (k : M Acceptor A) Q : wp k Q (closed_slot e) -> wp (run close_accepted (length pre) ;; k) Q (consumed e).
Proof.
  intros Hq. apply wp_bind. apply (wp_close_accepted pre (set_consumed (set_notice s)) l); [done|]. cbn [accepted set_consumed set_notice].
  assert (E := consumed_closed e). unfold emptied in E. by rewrite E.
Qed.

Hypothesis Hl : listening_ a0 = true.
Hypothesis Hp : platform a0 = Windows.

Lemma closed_ready e : filled a0 -> ready (closed_slot e).
Proof.
  intros (Hph & Ht & He & _). destruct H as [Hcore [[]|[(_ & ? & _)|(_ & _ & Hr & _)]]]; [congruence..|].
  split; [split; [apply closed_slot_core|cbn; congruence]|]. intros _. by split_and!.
Qed.

Lemma error_spec stage e : filled a0 -> wp (run close_accepted (length pre) ;; handleAcceptError stage) (fun r a' => harmless r /\ quiet a0 a') (consumed e).
Proof.
  intros Hf. apply close_consumed. eapply wp_weaken; [apply handleAcceptError_spec; by apply closed_ready|]. cbn. intros r a' (-> & ? & [= ? ?]). done.
Qed.

Lemma handleRead_spec e0 : wp (handleRead (length pre)) (fun r a' => harmless r /\ quiet a0 a') (set_env e0 (set_slots (pre ++ set_notice s :: l) a0)).
Proof.
  destruct (co_pool _ (proj1 H) Hp Hl) as (Hi & Hx & _). unfold handleRead. apply wp_get.
  assert (Hsl : forall e, slots (pool (set_env e (set_slots (pre ++ set_notice s :: l) a0))) = pre ++ set_notice s :: l) by done.
  rewrite (the_slot_middle _ _ _ _ (Hsl e0)). cbn [iocpAccept_ set_env set_slots set_pool completionPending set_notice]. rewrite Hi, Hc. cbn [negb orb].
  apply wp_bind. apply (wp_update_slot _ pre (set_notice s) l); [done|].
  change (set_slots (pre ++ set_consumed (set_notice s) :: l) (set_env e0 (set_slots (pre ++ set_notice s :: l) a0))) with (consumed e0).
  cbn [cancelling set_notice phase pool set_env set_slots set_pool listening_ error].
  assert (Hok := slot_completed). destruct H as [Hcore [[]|[(_ & ? & _)|(_ & _ & Hr & Hfw)]]]; [congruence..|].
  destruct Hfw as [Hf|Hw].
  - assert (Hf' := Hf). destruct Hf' as (Hph & Ht & He & Hb). assert (Hcan : cancelling s = false).
    { destruct (cancelling s) eqn:Hcan; [|done]. destruct (so_cancelling _ _ _ Hok Hcan). congruence. }
    rewrite Hcan, Hph, Hl. cbn [orb negb]. rewrite bool_decide_false by done. rewrite bool_decide_true by done. cbn [orb negb].
    destruct (error s); [by apply error_spec|].
    apply wp_bind, wp_next_answer. intros updated e1. change (set_env e1 (consumed e0)) with (consumed e1). destruct updated; cbn [negb]; [|by apply error_spec].
    apply wp_bind, wp_next_answer. intros peer e2. change (set_env e2 (consumed e1)) with (consumed e2). destruct peer; cbn [negb]; [|by apply error_spec].
    set (f := mkFds (nextFd (fds a0)) (given (fds a0)) (closed (fds a0)) (accepted s)). set (taken := set_env e2 (set_slots (pre ++ emptied :: l) (set_fds f a0))).
    assert (Htake : wp (take_accepted (length pre)) (fun r a' => r = Ok tt /\ a' = taken) (consumed e2)).
    { unfold take_accepted. apply wp_get. rewrite (the_slot_middle pre (set_consumed (set_notice s)) l) by done. apply wp_bind, wp_modify. by apply (wp_update_slot _ pre (set_consumed (set_notice s)) l). }
    apply wp_bind. eapply wp_weaken; [exact Htake|]. cbn beta. intros r a' [-> ->]. clear Htake.
    assert (Hready : ready taken).
    { split; [split|intros _; by split_and!].
      - eapply core_slot; [exact Hcore|exact Hs|apply emptied_ok|]. eapply completed_fds; try done. by right.
      - cbn. congruence. }
    apply wp_get. cbn [listening_ taken set_env set_slots set_pool set_fds phase pool]. rewrite Hl, Hph. rewrite bool_decide_true by done. cbn [andb].
    apply wp_bind, wp_bind. eapply wp_weaken; [apply (postAccept_spec pre emptied l taken Hready Hl Hp eq_refl); apply emptied_ok|].
    intros r a' [Hka Hpost]. assert (Hpa := keep_platform _ _ Hka). cbn in Hpa.
    assert (Hset : match r with Ok _ => settled a' | Throw _ => False end).
    { destruct r as [[]|]; [|done..]. destruct Hpost as (Hra & Hla & s' & Hsa & Hba). apply settled_filled; [done..|by rewrite Hpa|].
      rewrite Hsa. rewrite Hs in Hb. apply Forall_app in Hb as [Hb1 Hb2]. apply Forall_cons in Hb2 as [_ Hb2]. apply Forall_app. split; [done|]. by apply Forall_cons. }
    destruct r as [b|]; [|done]. cbn. eapply wp_weaken; [by apply hand_over_spec|]. cbn. intros r b' (Hh & (Hsb & Hpb & Hkb) & _). split; [done|]. split_and!; [done|by rewrite Hpb|done].
  - assert (Hw' := Hw). destruct Hw as [Hph Hw]. rewrite Hph. rewrite bool_decide_true by done. rewrite orb_true_r.
    apply close_consumed. eapply wp_weaken; [apply maybeResumeAccept_spec|].
    + split_and!; try done; [apply closed_slot_core|]. cbn. destruct Hw as [[-> ->]|(-> & -> & _)]; done.
    + cbn. intros r a' (-> & ? & [= ? ?]). done.
Qed.

End Completion.

Lemma consume_spec pre s l a e b :
  settled a -> slots (pool a) = pre ++ s :: l -> notice s = Some b -> connfd (fds a) = None ->
  wp (consume (length pre) (b && registered a)) (fun r a' => harmless r /\ quiet a a') (set_env e (set_slots (pre ++ set_notice s :: l) a)).
Proof.
  intros H Hs Hn Hk. assert (Hok := slot_in _ _ _ _ (proj1 H) Hs).
  assert (Hc : completionPending s = true) by (apply (so_notice _ _ _ Hok); eauto). assert (Hb : busy s = true) by (unfold busy; by rewrite Hc, orb_true_r).
  unfold consume. apply wp_get. rewrite (the_slot_middle pre (set_notice s) l) by done. cbn [completionPending set_notice]. rewrite Hc. cbn [negb iocpAccept_ set_env set_slots set_pool].
  destruct (iocpAccept_ a) eqn:Hi; cbn [negb].
  - destruct (at_work_listens _ _ _ _ H Hs Hb Hi) as [Hl Hp]. assert (b = true) as -> by (by eapply (so_observed _ _ _ Hok)).
    destruct (co_listener _ (proj1 H) Hl) as [_ ->]. cbn [andb negb orb]. by apply handleRead_spec.
  - rewrite orb_true_r. apply wp_bind. apply (wp_update_slot _ pre (set_notice s) l); [done|].
    change (set_slots (pre ++ set_consumed (set_notice s) :: l) (set_env e (set_slots (pre ++ set_notice s :: l) a))) with (consumed a pre l s e).
    assert (Hcl : forall Q : result unit -> Acceptor -> Prop, Q (Ok tt) (closed_slot a pre l s e) -> wp (close_accepted (length pre)) Q (consumed a pre l s e)).
    { intros Q HQ. apply (wp_close_accepted pre (set_consumed (set_notice s)) l); [done|]. cbn [accepted set_consumed set_notice]. assert (E := consumed_closed a pre l s Hk e). unfold emptied in E. by rewrite E. }
    apply Hcl. split; [done|]. split; [|done]. split; [by apply closed_slot_core|].
    destruct H as [Hcore [Ho|[?|(Hl & Hp & _)]]]; [left|by right; left|].
    + destruct Ho. split; try done. cbn. by rewrite Hi.
    + destruct (co_pool _ Hcore Hp Hl). congruence.
Qed.

(** A packet is dequeued. *)
Lemma dequeue_spec pre s l a e failed :
  settled a -> slots (pool a) = pre ++ s :: l -> submitted s = true -> connfd (fds a) = None ->
  quiet a (set_env e (set_slots (pre ++ dequeue failed (registered a) s :: l) a)).
Proof.
  intros H Hs Hsu Hk. assert (Hok := slot_in _ _ _ _ (proj1 H) Hs). assert (Hp : pending s = true) by (by rewrite <- (so_submitted _ _ _ Hok)).
  assert (Hb : busy s = true) by (unfold busy; by rewrite Hp).
  assert (Hbd : busy (dequeue failed (registered a) s) = true) by (unfold busy; cbn; by rewrite Hp, !orb_true_r).
  split; [|done]. split.
  - apply (core_slot a e (fds a) pre s _ l (proj1 H) Hs).
    + assert (Hobs : iocpAccept_ a = true -> channel s && registered a = true).
      { intros Hi. rewrite (so_channel _ _ _ Hok Hb), Hi. destruct (at_work_listens _ _ _ _ H Hs Hb Hi) as [Hl _]. by destruct (co_listener _ (proj1 H) Hl) as [_ ->]. }
      destruct Hok. split; cbn; unfold busy in *; cbn; rewrite ?Hp, ?orb_true_r in *; try done.
      intros Ho b Hx. rewrite (Hobs Ho) in Hx. congruence.
    + assert (Hf := co_fds _ (proj1 H)). unfold fds_ok, held in Hf. rewrite Hs in Hf. by rewrite held_middle in *.
  - destruct H as [_ [Ho|[Hx|(Hl & Hpl & Hr & Hfw)]]]; [left|by right; left|right; right].
    + destruct Ho. split; try done. cbn. intros Hi. destruct (off_idle0 Hi) as (? & Hidle & ? & ?). rewrite Hs in Hidle. apply Forall_app in Hidle as [_ Hidle]. apply Forall_cons in Hidle as [? _]. congruence.
    + split_and!; try done. destruct Hfw as [(? & ? & ? & Hall)|(? & Hw)]; [left|right].
      * split_and!; try done. cbn. rewrite Hs in Hall. apply Forall_app in Hall as [Hall1 Hall2]. apply Forall_cons in Hall2 as [_ Hall2]. apply Forall_app. split; [done|]. by apply Forall_cons.
      * split; [done|]. destruct Hw as [?|(? & ? & _)]; [by left|right]. split_and!; try done. cbn. apply Exists_app. right. by left.
Qed.

(** *** Listening *)

Lemma slot_new_ok o p b : slot_ok o p (set_channel b Slot_new).
Proof. split; cbn; try done; split; try by intros []. Qed.

Lemma off_user a e : off a -> off (set_env e a).
Proof. by intros []. Qed.

(** A pool that has just been made; the descriptors are as they were. *)
Lemma new_pool_core a e l x b :
  core a -> off a -> platform a = Windows -> listener a = true -> iocpAccept_ a = false -> l <> [] -> Forall (fun s => exists b, s = set_channel b Slot_new) l ->
  core (set_pool true (mkPool l x Accepting b) (set_env e a)) /\ omap accepted l = [] /\ Forall idle l.
Proof.
  intros H Ho Hp Hl Hi Hne Hnew.
  assert (Hacc : omap accepted l = []).
  { clear Hne. induction l as [|s l IH]; [done|]. apply Forall_cons in Hnew as [[c ->] Hnew]. cbn. by apply IH. }
  split; [|split; [done|]].
  - assert (Hf := co_fds _ H). unfold fds_ok, held in Hf. rewrite (co_fresh _ H Hi Hl) in Hf. destruct H, Ho. split; cbn; try done.
    + congruence.
    + unfold fds_ok, held. cbn. by rewrite Hacc.
    + eapply Forall_impl; [exact Hnew|]. intros s [c ->]. apply slot_new_ok.
    + congruence.
  - eapply Forall_impl; [exact Hnew|]. by intros s [c ->].
Qed.

(** What [listen] needs of the pool before it listens. *)
Definition pool_ready (a : Acceptor) : Prop :=
  core a /\ off a /\ listener a = true /\
  (platform a = Windows -> iocpAccept_ a = true /\ acceptEx (pool a) = true /\ Forall idle (slots (pool a)) /\ slots (pool a) <> [] /\ phase (pool a) = Accepting /\ retryDelayElapsed (pool a) = false).

Lemma make_pool_spec a :
  core a -> off a -> platform a = Windows -> listener a = true -> iocpAccept_ a = false ->
  wp make_pool (fun r a' => keep a' = keep a /\ alive a' = alive a /\ core a' /\ off a' /\ match r with Ok _ => pool_ready a' | Throw e => e = runtime_error end) a.
Proof.
  intros H Ho Hp Hl Hi. assert (Hd := co_depth _ H). set (n := Z.to_nat (iocpAcceptDepth_ a)). assert (Hn : n <> 0%nat) by (unfold n; lia).
  assert (Hnew : forall b, set_channel b <$> replicate n Slot_new = replicate n (set_channel b Slot_new)) by (intros b; by rewrite fmap_replicate).
  assert (Hrep : forall b, replicate n (set_channel b Slot_new) <> [] /\ Forall (fun s => exists b, s = set_channel b Slot_new) (replicate n (set_channel b Slot_new))).
  { intros b. split; [by destruct n|]. apply Forall_replicate. by exists b. }
  assert (Hoff : forall e b x, off (set_pool true (mkPool (replicate n (set_channel b Slot_new)) x Accepting false) (set_env e a))).
  { intros e b x. destruct (Hrep b) as [H1 H2]. destruct (new_pool_core a e _ x false H Ho Hp Hl Hi H1 H2) as (_ & _ & Hid). destruct Ho. by split. }
  assert (Hcore : forall e b x, core (set_pool true (mkPool (replicate n (set_channel b Slot_new)) x Accepting false) (set_env e a))).
  { intros e b x. destruct (Hrep b) as [H1 H2]. by apply new_pool_core. }
  unfold make_pool. apply wp_bind, wp_modify. fold n.
  apply wp_bind, wp_next_answer. intros ok1 e1. destruct ok1; cbn [negb]; [|apply wp_bind, wp_throw; split_and!; [done|done|exact (Hcore e1 false false)|exact (Hoff e1 false false)|done]].
  apply wp_bind, wp_ret, wp_bind, wp_modify. apply wp_bind, wp_next_answer. intros ok2 e2.
  destruct ok2; cbn [negb]; [|apply wp_bind, wp_throw; split_and!; [done|done|exact (Hcore e2 false true)|exact (Hoff e2 false true)|done]].
  apply wp_bind, wp_ret, wp_modify. set (a' := set_slots _ _).
  assert (Ea : a' = set_pool true (mkPool (replicate n (set_channel true Slot_new)) true Accepting false) (set_env e2 a)) by (unfold a'; cbn; rewrite <- Hnew; done).
  rewrite Ea. split_and!; [done|done|apply Hcore|apply Hoff|]. split_and!; [apply Hcore|apply Hoff|done|]. intros _. destruct (Hrep true) as [H1 H2].
  destruct (new_pool_core a e2 _ true false H Ho Hp Hl Hi H1 H2) as (_ & _ & Hid). done.
Qed.

Lemma listen_from a : pool_ready a -> alive a = true -> wp (run modify (set_listening true true true) ;; on_windows fillAcceptPool) (fun r a' => r = Ok tt /\ settled a' /\ keep a' = keep a) a.
Proof.
  intros (H & Ho & Hl & Hw) Hal. apply wp_bind, wp_modify. unfold on_windows. apply wp_get. cbn [platform set_listening].
  assert (Hc : core (set_listening true true true a)).
  { destruct H. split; try done; cbn; [|congruence]. intros Hp _. destruct (Hw Hp) as (? & ? & ? & ? & ? & ?). split_and!; try done. congruence. }
  destruct Ho. destruct (platform a) eqn:Hp.
  - apply wp_ret. split; [done|]. split; [|done]. split; [done|]. right. left. split_and!; try done. cbn. by rewrite off_timer0.
  - destruct (Hw eq_refl) as (? & ? & ? & ? & ? & ?). eapply wp_weaken; [apply fillAcceptPool_spec|].
    + split; [by split|]. intros _. by split.
    + done.
    + done.
Qed.

Lemma listen_spec a :
  settled a -> listening_ a = false -> alive a = true -> (iocpAccept_ a = true -> acceptEx (pool a) = true) -> connfd (fds a) = None ->
  wp listen (fun r a' => harmless r /\ quiet a a') a.
Proof.
  intros H Hl Hal Hx Hk. assert (Ho : off a) by (destruct H as [_ [?|[(? & _)|(? & _)]]]; [done|congruence..]). assert (Hc : core a) by apply H.
  assert (Hq : forall e, quiet a (set_env e a)) by (intros e; split; [by apply settled_env|done]).
  unfold listen. apply wp_get, wp_bind. destruct (listener a) eqn:Hli; cbn [negb throw_if]; [|apply wp_throw; split; [auto|done]].
  apply wp_ret, wp_bind, wp_next_answer. intros ok e. destruct ok; cbn [negb throw_if]; [|apply wp_bind, wp_throw; split; [auto|apply Hq]].
  apply wp_bind, wp_ret, wp_bind. unfold on_windows at 1. apply wp_get. cbn [platform set_env].
  assert (Hdone : forall b, keep b = keep a -> pool_ready b -> alive b = true -> wp (run modify (set_listening true true true) ;; on_windows fillAcceptPool) (fun r a' => harmless r /\ quiet a a') b).
  { intros b Hkb Hb Halb. eapply wp_weaken; [by apply listen_from|]. cbn. intros r a' (-> & Hs & Hka). rewrite Hkb in Hka. injection Hka as Hp' Hk'. split; [done|]. split_and!; [done..|by rewrite Hk']. }
  destruct (platform a) eqn:Hp.
  - apply wp_ret. apply Hdone; [unfold keep; cbn; by rewrite Hp|split_and!; [by apply core_env|by apply off_env|done|cbn; congruence]|done].
  - apply wp_bind. cbn [iocpAccept_ set_env]. 
    assert (Hafter : forall b, keep b = keep a -> pool_ready b -> alive b = true -> wp (modify (fun a => set_phase Accepting (retryDelayElapsed (pool a)) a)) (fun r a' => match r with Ok _ => wp (run modify (set_listening true true true) ;; on_windows fillAcceptPool) (fun r a' => harmless r /\ quiet a a') a' | Throw e => harmless (Throw e : result unit) /\ quiet a a' end) b).
    { intros b Hkb (Hcb & Hob & Hlb & Hwb) Halb. apply wp_modify. assert (Hpb : platform b = Windows) by (rewrite (keep_platform _ _ Hkb); done).
      destruct (Hwb Hpb) as (H1 & H2 & H3 & H4 & H5 & H6). replace (set_phase Accepting _ b) with b; [by apply Hdone|].
      unfold set_phase. rewrite <- H5. by destruct b as [? ? ? ? ? ? ? ? ? ? ? [] ? ?]. }
    destruct (iocpAccept_ a) eqn:Hi.
    + apply wp_ret. apply Hafter; [done| |done]. destruct (off_idle _ Ho Hi) as (_ & ? & ? & ? & ?). split_and!; [by apply core_env|by apply off_env|done|]. intros _. split_and!; auto.
    + eapply wp_weaken; [apply make_pool_spec; [by apply core_env|by apply off_env|done..]|]. cbn. intros r b (Hkb & Hab & Hcb & Hob & Hr). destruct r as [[]|x].
      * apply Hafter; [done..|]. by rewrite Hab.
      * subst x. split; [auto|]. injection Hkb as Hpb Hkb. split_and!; [by apply off_settled|done|by rewrite Hkb].
Qed.

Lemma acceptor_destroy_spec a : settled a -> connfd (fds a) = None -> wp Acceptor_destroy (fun r a' => harmless r /\ quiet a a' /\ off a') a.
Proof.
  intros [H _] Hk. unfold Acceptor_destroy. apply wp_bind, wp_modify. assert (Hc : core (set_timer false a)) by (by destruct H).
  apply wp_bind. unfold wp at 1. rewrite (on_windows_close_eq _ Hc). cbn [fst snd]. destruct (shut_pool_facts _ Hc) as (Hs & Hf & Hi & Hp & Hal & Hd & Hnil & Hg & Hcf & He).
  set (b := shut_pool _) in *. apply wp_bind, wp_modify, wp_modify. cbn in Hp, Hd, Hnil, Hcf.
  assert (Ho : off (set_listener false false (set_listening false false false b))).
  { split; try done; cbn; [|by rewrite Hi]. unfold b, shut_pool. cbn. by destruct (iocpAccept_ a). }
  split; [done|]. split; [|done]. split_and!; [|done|by cbn; rewrite Hcf]. apply off_settled; [|done]. split; cbn; rewrite ?Hi; try done.
  - intros Hx. split; [|done]. apply Hnil. congruence.
  - rewrite Hd. apply H.
Qed.

(** Between events nothing is in a local variable. *)
Definition good (a : Acceptor) : Prop := settled a /\ connfd (fds a) = None.

Lemma slot_at a i : busy (the_slot i a) = true -> exists pre l, slots (pool a) = pre ++ the_slot i a :: l /\ length pre = i.
Proof.
  intros Hb. unfold the_slot in *. destruct (slots (pool a) !! i) as [s|] eqn:Hs; [|done]. cbn in *. exists (take i (slots (pool a))), (drop (S i) (slots (pool a))).
  split; [by symmetry; apply take_drop_middle|]. rewrite length_take. apply lookup_lt_Some in Hs. lia.
Qed.

Lemma slot_at_ok a i : settled a -> slot_ok (iocpAccept_ a) (phase (pool a)) (the_slot i a) \/ the_slot i a = Slot_new.
Proof.
  intros [H _]. unfold the_slot. destruct (slots (pool a) !! i) as [s|] eqn:Hs; [left|by right]. cbn. assert (Ha := co_slots _ H). rewrite Forall_lookup in Ha. by eapply Ha.
Qed.

Lemma step_spec l a r a' :
  good a -> well_timed (label l) a = true -> step l a = Some (r, a') -> harmless r /\ quiet a a'.
Proof.
  intros [H Hk] Hw Hs. unfold step in Hs. destruct (event (label l) a) as [m|] eqn:He; [|done]. injection Hs as Hs. set (e := mkEnv _ _ _) in Hs.
  assert (He' : settled (set_env e a)) by (by apply settled_env). assert (Hk' : connfd (fds (set_env e a)) = None) by done.
  assert (Hgoal : wp m (fun r a' => harmless r /\ quiet a a') (set_env e a)); [|unfold wp in Hgoal; by rewrite Hs in Hgoal]. clear Hs.
  assert (Hkeep : forall r a', r = Ok tt /\ settled a' /\ keep a' = keep (set_env e a) -> harmless r /\ quiet a a').
  { intros r0 b (-> & Hsb & [= Hp Hkb]). split; [done|]. split_and!; [done..|by rewrite Hkb]. }
  destruct (label l) as [|c|x| |i failed|i|]; cbn in He.
  - destruct (alive a) eqn:Hal; [|done]. cbn in Hw. destruct (listening_ a) eqn:Hl; [done|]. destruct (negb (iocpAccept_ a) || acceptEx (pool a)) eqn:Hx; [|done]. injection He as <-.
    eapply wp_weaken; [apply (listen_spec (set_env e a)); try done|by intros]. cbn. intros Hi. by rewrite Hi in Hx.
  - destruct (alive a); [|done]. injection He as <-. eapply wp_weaken; [apply run_call_spec; by apply settled_run|]. cbn. intros r0 b [Hr Hu]. split; [done|].
    assert (Hq : settled b) by (by eapply settled_used). destruct Hu as (_ & [= Hp Hkb] & _). split_and!; [done..|by rewrite Hkb].
  - destruct (bool_decide (platform a = Posix)) eqn:Hp; [|done]. apply bool_decide_eq_true in Hp. destruct (registered a); [|done]. destruct (reading a) eqn:Hrd; [|done]. injection He as <-.
    eapply wp_weaken; [apply (accept_loop_spec x (set_env e a)); [done| |done]|by intros]. by apply settled_ready_posix.
  - destruct (retryTimer_ a) eqn:Ht; [|done]. injection He as <-. eapply wp_weaken; [by apply resumeAccept_spec|]. exact Hkeep.
  - destruct (submitted (the_slot i a)) eqn:Hsu; [|done]. injection He as <-.
    assert (Hb : busy (the_slot i a) = true).
    { destruct (slot_at_ok a i H) as [Hok|Hn]; [|by rewrite Hn in Hsu]. unfold busy. rewrite <- (so_submitted _ _ _ Hok). by rewrite Hsu. }
    destruct (slot_at a i Hb) as (pre & t & Hsl & <-). unfold update_slot. apply wp_modify. cbn [slots pool set_env]. rewrite Hsl, alter_middle. split; [done|].
    by apply (dequeue_spec pre _ t a e failed H Hsl Hsu Hk).
  - destruct (notice (the_slot i a)) as [b|] eqn:Hn; [|done]. injection He as <-.
    assert (Hb : busy (the_slot i a) = true).
    { destruct (slot_at_ok a i H) as [Hok|Hnew]; [|by rewrite Hnew in Hn]. unfold busy. apply orb_true_iff. right. apply (so_notice _ _ _ Hok). eauto. }
    destruct (slot_at a i Hb) as (pre & t & Hsl & <-). apply wp_bind, (wp_update_slot _ pre (the_slot (length pre) a) t); [done|]. exact (consume_spec pre _ t a e b H Hsl Hn Hk).
  - destruct (alive a); [|done]. injection He as <-. eapply wp_weaken; [by apply acceptor_destroy_spec|]. cbn. intros r0 b (? & ? & _). done.
Qed.

Lemma acceptor_good p a : reachable p a -> good a /\ platform a = p.
Proof.
  induction 1 as [|l a r a' _ [IH Hp] Hw Hs]; [split; [split; [apply settled_new|done]|done]|].
  destruct (step_spec l a r a' IH Hw Hs) as [_ (? & Hpa & ?)]. split; [done|congruence].
Qed.

Lemma acceptor_run p ls a a' : reachable p a -> run_steps ls a = Some a' -> reachable p a'.
Proof.
  revert a. induction ls as [|l ls IH]; intros a H; cbn [run_steps]; [by intros [= <-]|].
  destruct (well_timed (label l) a) eqn:Hw; [|done].
  destruct (step l a) as [[r b]|] eqn:Hs; [|done]. apply IH. by eapply reachable_step.
Qed.

(** *** Once stopped *)

(** Stopped for good. *)
Definition finished (a : Acceptor) : Prop := good a /\ listening_ a = false /\ listener a = false.

Lemma finished_facts a : finished a -> off a /\ iocpAccept_ a = false.
Proof.
  intros ([[Hc Hs] _] & Hl & Hli). assert (Ho : off a) by (destruct Hs as [?|[(? & _)|(? & _)]]; [done|congruence..]). split; [done|].
  destruct (iocpAccept_ a) eqn:Hi; [|done]. destruct (off_idle _ Ho Hi). congruence.
Qed.

(** What the user has seen. *)
Definition seen_by_user (a : Acceptor) : list nat * list AcceptorErrorStage := (given (fds a), reported (env a)).

Lemma finished_calls c a : listening_ a = false -> exists n e d, snd (run_call c a) = set_user n e d a.
Proof.
  intros Hl. assert (Hid : a = set_user (newConnectionCallback_ a) (errorCallback_ a) (iocpAcceptDepth_ a) a) by (by destruct a).
  destruct c as [|b|b|n]; cbn.
  - do 3 eexists. rewrite <- Hid. unfold stop, bindM, get. by rewrite Hl.
  - do 3 eexists. unfold setNewConnectionCallback, bindM, get. by rewrite Hl.
  - do 3 eexists. unfold setErrorCallback, bindM, get. by rewrite Hl.
  - unfold setIocpAcceptDepth, bindM, get. rewrite Hl. destruct (_ || _); do 3 eexists; [exact Hid|done].
Qed.

Lemma finished_step l a r a' : finished a -> step l a = Some (r, a') -> finished a' /\ seen_by_user a' = seen_by_user a.
Proof.
  intros Hf Hs. assert (Hf' := Hf). destruct Hf' as (Hg & Hl & Hli). destruct (finished_facts _ Hf) as [Ho Hi]. assert (Hw : well_timed (label l) a = true) by (destruct (label l); [cbn; by rewrite Hl, Hi|done..]). destruct (step_spec _ _ _ _ Hg Hw Hs) as [_ (Hset & _ & Hk)].
  assert (Hgoal : listening_ a' = false /\ listener a' = false /\ seen_by_user a' = seen_by_user a); [|destruct Hgoal as (? & ? & ?); done].
  clear Hset Hk. unfold step in Hs. destruct (event (label l) a) as [m|] eqn:He; [|done]. injection Hs as Hs. set (e := mkEnv _ _ _) in Hs.
  assert (Hclose : forall i b, listening_ b = false -> listener b = false -> seen_by_user b = seen_by_user a -> listening_ (snd (close_accepted i b)) = false /\ listener (snd (close_accepted i b)) = false /\ seen_by_user (snd (close_accepted i b)) = seen_by_user a).
  { intros i b H1 H2 H3. unfold close_accepted, bindM, get. by destruct (accepted (the_slot i b)). }
  destruct (label l) as [|c|x| |i failed|i|]; cbn in He.
  - destruct (alive a); [|done]. injection He as <-. unfold listen, bindM, get in Hs. cbn in Hs. rewrite Hli in Hs. cbn in Hs. injection Hs as _ <-. done.
  - destruct (alive a); [|done]. injection He as <-. destruct (finished_calls c (set_env e a) Hl) as (n & er & d & Hc). rewrite Hs in Hc. cbn in Hc. by subst a'.
  - rewrite (off_registered _ Ho), andb_false_r in He. done.
  - by rewrite (off_timer _ Ho) in He.
  - destruct (submitted _); [|done]. injection He as <-. unfold update_slot, modify in Hs. injection Hs as _ <-. done.
  - destruct (notice _) as [b|]; [|done]. injection He as <-. unfold bindM at 1, update_slot, modify, consume in Hs. unfold bindM at 1, get in Hs.
    set (c := set_slots _ _) in Hs. assert (Hi' : iocpAccept_ c = false) by done. rewrite Hi', orb_true_r in Hs.
    destruct (negb (completionPending (the_slot i c))); [by injection Hs as _ <-|]. unfold bindM, update_slot, modify in Hs. set (d := set_slots _ c) in Hs.
    destruct (Hclose i d) as (H1 & H2 & H3); [done..|]. rewrite Hs in H1, H2, H3. done.
  - destruct (alive a); [|done]. injection He as <-. unfold Acceptor_destroy in Hs. unfold cancel_timer in Hs. rewrite bind_modify in Hs.
    assert (Hc : core (set_timer false (set_env e a))) by (destruct Hg as [[[] _] _]; done). rewrite (bindM_ok _ _ _ _ _ (on_windows_close_eq _ Hc)) in Hs. rewrite bind_modify in Hs. unfold modify in Hs. injection Hs as _ <-.
    split_and!; [done..|]. unfold shut_pool. cbn. by rewrite Hi.
Qed.

(** ** Properties *)

(** C31. Every descriptor that [accept] or the pool makes is exactly once given to the
    new-connection callback, closed, or the socket of a slot whose operation is submitted
    or whose completion waits; only a listening acceptor on Windows has such slots. *)
Theorem accepted_descriptors_exact p a :
  reachable p a ->
  given (fds a) ++ closed (fds a) ++ held a ≡ₚ seq 0 (nextFd (fds a)) /\
  forall s fd, s ∈ slots (pool a) -> accepted s = Some fd -> listening_ a = true /\ p = Windows /\ (pending s = true \/ completionPending s = true).
Proof.
  intros H. destruct (acceptor_good _ _ H) as [[Hs Hk] Hp]. assert (Hf := co_fds _ (proj1 Hs)). unfold fds_ok in Hf. rewrite Hk in Hf. split; [done|].
  intros s fd Hin Ha. assert (Hall := co_slots _ (proj1 Hs)). rewrite Forall_forall in Hall. destruct (proj1 (so_accepted _ _ _ (Hall s Hin))) as [Hi Hb]; [eauto|].
  apply list_elem_of_split in Hin as (pre & l & Hsl). destruct (at_work_listens _ _ _ _ Hs Hsl Hb Hi). split_and!; [done|congruence|]. by apply orb_prop.
Qed.

(** C32. A listening acceptor never stalls and never dies: on POSIX it polls for
    connections or its retry timer is armed; on Windows every slot of its pool is at work,
    or it retries and waits for the timer, or for an operation that is at work; a slot at
    work is submitted or its notice waits to be consumed; and no well-timed event is fatal
    or undefined, so no operation is submitted again before its completion was consumed.
    Well-timed: the owner calls [listen] only while not listening and not again after a
    call that could not load [AcceptEx]; every other event is. *)
Theorem acceptor_never_stalls p a :
  reachable p a ->
  (forall l r a', well_timed (label l) a = true -> step l a = Some (r, a') -> harmless r) /\
  (listening_ a = true ->
   registered a = true /\
   match p with
   | Posix => reading a = negb (retryTimer_ a)
   | Windows =>
       reading a = true /\ slots (pool a) <> [] /\ Forall (fun s => busy s = true -> submitted s = true \/ is_Some (notice s)) (slots (pool a)) /\
       ((phase (pool a) = Accepting /\ Forall (fun s => busy s = true) (slots (pool a))) \/
        (phase (pool a) = Retrying /\ (retryTimer_ a = true \/ retryDelayElapsed (pool a) = true /\ Exists (fun s => busy s = true) (slots (pool a)))))
   end).
Proof.
  intros H. destruct (acceptor_good _ _ H) as [Hg Hp]. split; [intros l r a' Hw Hs; by destruct (step_spec _ _ _ _ Hg Hw Hs)|]. intros Hl.
  destruct Hg as [[Hc Hs] _]. destruct (co_listener _ Hc Hl) as [_ Hr]. split; [done|].
  destruct Hs as [[]|[(_ & Hpp & Ht)|(_ & Hpp & Hrd & Hfw)]]; [congruence|by rewrite <- Hp, Hpp|]. rewrite <- Hp, Hpp. destruct (co_pool _ Hc Hpp Hl) as (_ & _ & Hne & _).
  split_and!; [done..| |].
  - eapply Forall_impl; [exact (co_slots _ Hc)|]. intros s Hok [Hb|Hb]%orb_prop; [left; by rewrite (so_submitted _ _ _ Hok)|right; by apply (so_notice _ _ _ Hok)].
  - destruct Hfw as [(? & _ & _ & ?)|(? & [[? _]|(_ & ? & ?)])]; auto.
Qed.

(** A pool of four slots: one accepts, one fails, the others are cancelled and consumed,
    the timer fires and the pool is filled again. *)
Definition retry_schedule : list Step :=
  [mkStep (CallOwner (CallSetNewConnection true)) [] []; mkStep Listen [] []; mkStep (Dequeue 0 false) [] []; mkStep (Consume 0) [] [];
   mkStep (Dequeue 1 true) [] []; mkStep (Consume 1) [] []; mkStep (Dequeue 0 true) [] []; mkStep (Consume 0) [] []; mkStep TimerFires [] [];
   mkStep (Dequeue 2 true) [] []; mkStep (Consume 2) [] []].
Definition retrying : Acceptor := default (Acceptor_new Windows) (run_steps retry_schedule (Acceptor_new Windows)).
Definition refilled : Acceptor := default (Acceptor_new Windows) (run_steps [mkStep (Dequeue 3 false) [] []; mkStep (Consume 3) [] []] retrying).

Lemma retrying_reachable : reachable Windows retrying.
Proof. apply (acceptor_run Windows retry_schedule (Acceptor_new Windows)); [apply reachable_new|]. by vm_compute. Qed.

Lemma accepted_descriptors_exact_witness :
  given (fds retrying) = [0%nat] /\ held retrying = [3%nat] /\ given (fds retrying) ++ closed (fds retrying) ++ held retrying ≡ₚ seq 0 5.
Proof.
  split; [by vm_compute|]. split; [by vm_compute|]. assert (Hn : nextFd (fds retrying) = 5%nat) by by vm_compute. rewrite <- Hn.
  exact (proj1 (accepted_descriptors_exact Windows retrying retrying_reachable)).
Defined.

Lemma acceptor_never_stalls_witness :
  listening_ retrying = true /\ phase (pool retrying) = Retrying /\ retryTimer_ retrying = false /\ registered retrying = true /\ phase (pool refilled) = Accepting.
Proof.
  assert (Hl : listening_ retrying = true) by by vm_compute. split; [done|]. split; [by vm_compute|]. split; [by vm_compute|]. split; [|by vm_compute].
  exact (proj1 (proj2 (acceptor_never_stalls Windows retrying retrying_reachable) Hl)).
Defined.

(** A stopped acceptor is silent for good: once it does not listen and its descriptor
    is closed, neither callback is called again whatever happens, it cannot be made to
    listen, no timer is armed and no slot keeps a socket. *)
Theorem stopped_acceptor_is_silent p a ls a' :
  reachable p a -> listening_ a = false -> listener a = false -> run_steps ls a = Some a' ->
  given (fds a') = given (fds a) /\ reported (env a') = reported (env a) /\ listening_ a' = false /\ registered a' = false /\ retryTimer_ a' = false /\ held a' = [].
Proof.
  intros H Hl Hli. assert (Hf : finished a) by (split; [apply (acceptor_good _ _ H)|done]). clear H Hl Hli. revert a Hf. induction ls as [|l ls IH]; intros a Hf; cbn [run_steps].
  - intros [= <-]. destruct (finished_facts _ Hf) as [[] Hi]. split_and!; try done. destruct Hf as [[[Hc _] _] _]. unfold held.
    assert (Hall := co_slots _ Hc). rewrite Hi in Hall. clear - Hall. induction Hall as [|s l Hok _ IH]; [done|]. cbn. destruct (accepted s) eqn:Ha; [|done]. by destruct (proj1 (so_accepted _ _ _ Hok)) as [? _]; [eexists|].
  - destruct (well_timed (label l) a); [|done]. destruct (step l a) as [[r b]|] eqn:Hs; [|done]. destruct (finished_step _ _ _ _ Hf Hs) as [Hb [= Hgv Hrp]]. intros Hrun. destruct (IH b Hb Hrun) as (-> & -> & ?). split_and!; by try apply H.
Qed.

(** Stopped by its callback, with three operations still submitted. *)
Definition stop_schedule : list Step :=
  [mkStep (CallOwner (CallSetNewConnection true)) [] []; mkStep Listen [] []; mkStep (Dequeue 0 false) [] []; mkStep (Consume 0) [mkReaction [CallStop] (Returns ActionRetry)] []].
Definition stopping : Acceptor := default (Acceptor_new Windows) (run_steps stop_schedule (Acceptor_new Windows)).
Definition stop_drained : Acceptor := default (Acceptor_new Windows) (run_steps [mkStep (Dequeue 1 false) [] []; mkStep (Consume 1) [] []; mkStep (Dequeue 0 true) [] []; mkStep Destroy [] []] stopping).

Lemma stopped_acceptor_is_silent_witness :
  listening_ stopping = false /\ count_occ Nat.eq_dec (given (fds stop_drained)) 0%nat = 1%nat /\ given (fds stop_drained) = given (fds stopping).
Proof.
  split; [by vm_compute|]. split; [by vm_compute|].
  refine (proj1 (stopped_acceptor_is_silent Windows stopping [mkStep (Dequeue 1 false) [] []; mkStep (Consume 1) [] []; mkStep (Dequeue 0 true) [] []; mkStep Destroy [] []] stop_drained _ _ _ _)); [|by vm_compute..].
  apply (acceptor_run Windows stop_schedule (Acceptor_new Windows)); [apply reachable_new|]. by vm_compute.
Defined.

(** Listening again after [AcceptEx] could not be loaded calls a null pointer: the pool is
    published before its functions are loaded, and the second call does not load them. *)
Theorem listen_after_failed_load :
  exists a, run_steps [mkStep Listen [] [true; false]] (Acceptor_new Windows) = Some a /\ listening_ a = false /\ listener a = true /\
    fst (listen a) = Throw undefined_behaviour.
Proof. eexists. split; [vm_compute; reflexivity|]. repeat split; by vm_compute. Qed.
