(* ===== verification/CompletionPort.v ===== *)
(** * The completion port

    Model of [IocpPoller] (src/core/net/poller/IocpPoller.cc), of the state of its
    operations (src/core/net/detail/IocpOperationState.h), and of the Windows half of
    [PollerIoEngineAdapter] with the calls of [EventLoop] that reach it: registration of
    channels, association of sockets, submission and cancellation of operations, the wait
    that turns native packets into typed notices, their delivery to the consumers, and
    wake-ups.

    The owner thread, the other threads that wake it and the system are one machine.  The
    owner decodes one packet per step, and inside a consumer it may call whatever it may
    call outside.  Operations live in blocks of storage shared by reference counts: a block
    is there while its owner refers to it, or a lease of the poller does; whatever touches
    an operation of another block has no defined behaviour.  Addresses, of channels and of
    operations, are used again.  [ticket]s number the submissions; they, [submissions],
    [delivered], [consumed], [asked] and [cancelled] are there for the statements only. *)

From S2P Require Import Prelude ReadinessPort Reactor.

Local Open Scope Z_scope.

(** ** Operations *)

Inductive IocpOperationKind := Accept | Connect | Read | Write.

Inductive CompletionTerminalStatus := Succeeded | Failed | Cancelled.

(** The sockets and keys of Windows are unsigned: both constants are [-1]. *)
Definition kInvalidSocket : Z := usize_max.
Definition kWakeupCompletionKey : Z := usize_max.

Definition kStatusCancelled : Z := 3221225760.
Definition ERROR_GEN_FAILURE : Z := 31.
Definition ERROR_OPERATION_ABORTED : Z := 995.
Definition WSAEALREADY : Z := 10037.

(** [Internal]: the status that the system leaves in [overlapped]; [terminalObserver],
    [completionConsumer]: whether there is one. *)
Record IocpOperation := mkOperation {
  kind : IocpOperationKind;
  channel : option nat;
  Internal : Z;
  bytesTransferred : Z;
  error : Z;
  generation : Z;
  terminalGeneration : Z;
  observerSource : Z;
  observerRegistrationGeneration : Z;
  terminalObserver : bool;
  completionConsumer : bool;
  submissionPrepared : bool;
  submissionAccepted : bool;
  observerIdentityCaptured : bool;
  shutdownObligation : bool;
  completionObserved : bool;
}.

Definition IocpOperation_new (k : IocpOperationKind) (terminal consumer : bool) : IocpOperation :=
  mkOperation k None 0 0 0 0 0 kInvalidSocket 0 terminal consumer false false false false false.

Definition set_request (c : option nat) (op : IocpOperation) : IocpOperation :=
  mkOperation (kind op) c 0 0 0 (generation op) (terminalGeneration op) (observerSource op) (observerRegistrationGeneration op)
    (terminalObserver op) (completionConsumer op) (submissionPrepared op) (submissionAccepted op)
    (observerIdentityCaptured op) (shutdownObligation op) (completionObserved op).
Definition set_channel (c : option nat) (op : IocpOperation) : IocpOperation :=
  mkOperation (kind op) c (Internal op) (bytesTransferred op) (error op) (generation op) (terminalGeneration op) (observerSource op)
    (observerRegistrationGeneration op) (terminalObserver op) (completionConsumer op) (submissionPrepared op)
    (submissionAccepted op) (observerIdentityCaptured op) (shutdownObligation op) (completionObserved op).
Definition set_status (st bytes err : Z) (op : IocpOperation) : IocpOperation :=
  mkOperation (kind op) (channel op) st bytes err (generation op) (terminalGeneration op) (observerSource op)
    (observerRegistrationGeneration op) (terminalObserver op) (completionConsumer op) (submissionPrepared op)
    (submissionAccepted op) (observerIdentityCaptured op) (shutdownObligation op) (completionObserved op).
Definition set_submission (g tg : Z) (prepared accepted observed : bool) (op : IocpOperation) : IocpOperation :=
  mkOperation (kind op) (channel op) (Internal op) (bytesTransferred op) (error op) g tg (observerSource op)
    (observerRegistrationGeneration op) (terminalObserver op) (completionConsumer op) prepared
    accepted (observerIdentityCaptured op) (shutdownObligation op) observed.
Definition set_observer (source rg : Z) (op : IocpOperation) : IocpOperation :=
  mkOperation (kind op) (channel op) (Internal op) (bytesTransferred op) (error op) (generation op) (terminalGeneration op) source
    rg (terminalObserver op) (completionConsumer op) (submissionPrepared op)
    (submissionAccepted op) true (shutdownObligation op) (completionObserved op).
Definition set_obligation (b : bool) (op : IocpOperation) : IocpOperation :=
  mkOperation (kind op) (channel op) (Internal op) (bytesTransferred op) (error op) (generation op) (terminalGeneration op) (observerSource op)
    (observerRegistrationGeneration op) (terminalObserver op) (completionConsumer op) (submissionPrepared op)
    (submissionAccepted op) (observerIdentityCaptured op) b (completionObserved op).

Definition prepareIocpOperationSubmission (op : IocpOperation) : bool * IocpOperation :=
  if submissionPrepared op || submissionAccepted op || (generation op =? usize_max) then (false, op)
  else (true, set_status (Internal op) 0 0 (set_submission (generation op + 1) (terminalGeneration op) true (submissionAccepted op) false op)).

Definition commitIocpOperationSubmission (op : IocpOperation) : bool * IocpOperation :=
  if submissionAccepted op then (false, op)
  else
    let '(ok, op) := if submissionPrepared op then (true, op) else prepareIocpOperationSubmission op in
    if ok then (true, set_submission (generation op) (terminalGeneration op) false true (completionObserved op) op)
    else (false, op).

Definition rejectIocpOperationSubmission (op : IocpOperation) : bool * IocpOperation :=
  if negb (submissionPrepared op) || submissionAccepted op then (false, op)
  else (true, set_submission (generation op) (terminalGeneration op) false (submissionAccepted op) false op).

Definition retireIocpOperationSubmission (op : IocpOperation) : bool * IocpOperation :=
  if negb (submissionAccepted op) || (generation op =? 0) || (terminalGeneration op =? generation op) then (false, op)
  else (true, set_submission (generation op) (generation op) false false true op).

Definition completionStatus (e : Z) : CompletionTerminalStatus :=
  if e =? 0 then Succeeded else if e =? ERROR_OPERATION_ABORTED then Cancelled else Failed.

(** ** State *)

(** [identity]: address and generation of the operation; [context]: the block
    [consumerContext] points into. *)
Record CompletionNotice := mkNotice {
  identity : nat * Z;
  notice_kind : IocpOperationKind;
  observer : option nat;
  notice_source : Z;
  observerGeneration : Z;
  notice_bytes : Z;
  nativeError : Z;
  status : CompletionTerminalStatus;
  consumer : bool;
  context : nat;
  notice_ticket : nat;
}.

(** [deliveredNotices] is the number of notices at the end of a wait. *)
Record CompletionWaitProgress := mkProgress {
  nativePackets : nat;
  deliveredNotices : nat;
  invalidPackets : nat;
  wakeupPackets : nat;
  budgetExhausted : bool;
}.

(** What the system queues: a wake-up, or an operation that has ended, with the key of its
    socket. *)
Inductive Packet := Wakeup | Completion (key : Z) (o : nat) (bytes : Z).

(** Storage of an operation: its block, and its present submission. *)
Record Cell := mkCell { block : nat; ticket : nat; op : IocpOperation }.

(** Operations, the poller's members that are about them, and the system's: [owned], the
    blocks their owners refer to; [inflight], the operations the system has, with the
    socket; [packets], its queue; [nativeEntries], what a wait has still to decode;
    [consuming], the block whose consumer is running.  [submissions] has for each the channel
    and the generation under which it was registered, if it was. *)
Record Engine := mkEngine {
  storage : gmap nat Cell;
  owned : gset nat;
  retainedOperations_ : gmap nat nat;
  outstandingOperationCount_ : Z;
  notices : list CompletionNotice;
  noticeLifetimes : list (option nat);
  directNoticeCursor : nat;
  progress : CompletionWaitProgress;
  inflight : gmap nat Z;
  packets : list Packet;
  nativeEntries : option (list Packet);
  consuming : option nat;
  submissions : list (option nat * option Z);
  delivered : list (nat * bool);
  consumed : list nat;
}.

(** Channels, the poller's members that are about them, and the sockets that are open and
    those the system has associated with the port. *)
Record Registry := mkRegistry {
  channels : gmap nat Channel;
  channels_ : gmap Z nat;
  associatedFds_ : gset Z;
  nextRegistrationGeneration : Z;
  sockets : gset Z;
  associated : gset Z;
}.

(** [posting]: the threads inside [wakeup] that are to post a packet; [asked]: a wake-up has
    been asked for since the owner left its last wait; [cancelled]: the submissions whose
    end a shutdown is to wait for. *)
Record World := mkWorld {
  engine : Engine;
  registry : Registry;
  phase_ : IoEnginePhase;
  wakeupPending_ : bool;
  posting : nat;
  asked : bool;
  cancelled : list nat;
}.

Definition no_progress : CompletionWaitProgress := mkProgress 0 0 0 0 false.

Definition initial : World :=
  mkWorld (mkEngine ∅ ∅ ∅ 0 [] [] 0 no_progress ∅ [] None None [] [] []) (mkRegistry ∅ ∅ ∅ 1 ∅ ∅) Running false 0 false [].

Definition IocpPoller_new (completionBatchSize : nat) : result World :=
  if (completionBatchSize =? 0)%nat || (64 <? completionBatchSize)%nat then Throw invalid_argument else Ok initial.

Definition set_storage (m : gmap nat Cell) (e : Engine) : Engine :=
  mkEngine m (owned e) (retainedOperations_ e) (outstandingOperationCount_ e) (notices e) (noticeLifetimes e) (directNoticeCursor e)
    (progress e) (inflight e) (packets e) (nativeEntries e) (consuming e) (submissions e) (delivered e) (consumed e).
Definition set_owned (s : gset nat) (e : Engine) : Engine :=
  mkEngine (storage e) s (retainedOperations_ e) (outstandingOperationCount_ e) (notices e) (noticeLifetimes e) (directNoticeCursor e)
    (progress e) (inflight e) (packets e) (nativeEntries e) (consuming e) (submissions e) (delivered e) (consumed e).
Definition set_retained (m : gmap nat nat) (n : Z) (e : Engine) : Engine :=
  mkEngine (storage e) (owned e) m n (notices e) (noticeLifetimes e) (directNoticeCursor e)
    (progress e) (inflight e) (packets e) (nativeEntries e) (consuming e) (submissions e) (delivered e) (consumed e).
Definition set_notices (l : list CompletionNotice) (ls : list (option nat)) (c : nat) (e : Engine) : Engine :=
  mkEngine (storage e) (owned e) (retainedOperations_ e) (outstandingOperationCount_ e) l ls c
    (progress e) (inflight e) (packets e) (nativeEntries e) (consuming e) (submissions e) (delivered e) (consumed e).
Definition set_progress (p : CompletionWaitProgress) (e : Engine) : Engine :=
  mkEngine (storage e) (owned e) (retainedOperations_ e) (outstandingOperationCount_ e) (notices e) (noticeLifetimes e) (directNoticeCursor e)
    p (inflight e) (packets e) (nativeEntries e) (consuming e) (submissions e) (delivered e) (consumed e).
Definition set_system (m : gmap nat Z) (ps : list Packet) (en : option (list Packet)) (e : Engine) : Engine :=
  mkEngine (storage e) (owned e) (retainedOperations_ e) (outstandingOperationCount_ e) (notices e) (noticeLifetimes e) (directNoticeCursor e)
    (progress e) m ps en (consuming e) (submissions e) (delivered e) (consumed e).
Definition set_consuming (c : option nat) (l : list nat) (e : Engine) : Engine :=
  mkEngine (storage e) (owned e) (retainedOperations_ e) (outstandingOperationCount_ e) (notices e) (noticeLifetimes e) (directNoticeCursor e)
    (progress e) (inflight e) (packets e) (nativeEntries e) c (submissions e) (delivered e) l.
Definition set_submissions (n : list (option nat * option Z)) (l : list (nat * bool)) (e : Engine) : Engine :=
  mkEngine (storage e) (owned e) (retainedOperations_ e) (outstandingOperationCount_ e) (notices e) (noticeLifetimes e) (directNoticeCursor e)
    (progress e) (inflight e) (packets e) (nativeEntries e) (consuming e) n l (consumed e).

Definition tickets (e : Engine) : nat := length (submissions e).

Definition set_engine (e : Engine) (w : World) : World :=
  mkWorld e (registry w) (phase_ w) (wakeupPending_ w) (posting w) (asked w) (cancelled w).
Definition set_registry (r : Registry) (w : World) : World :=
  mkWorld (engine w) r (phase_ w) (wakeupPending_ w) (posting w) (asked w) (cancelled w).
Definition set_phase (p : IoEnginePhase) (w : World) : World :=
  mkWorld (engine w) (registry w) p (wakeupPending_ w) (posting w) (asked w) (cancelled w).
Definition set_wakeup (b : bool) (n : nat) (a : bool) (w : World) : World :=
  mkWorld (engine w) (registry w) (phase_ w) b n a (cancelled w).
Definition note_cancelled (o : nat) (w : World) : World :=
  mkWorld (engine w) (registry w) (phase_ w) (wakeupPending_ w) (posting w) (asked w)
    (cancelled w ++ match storage (engine w) !! o with Some x => [ticket x] | None => [] end).

Definition set_channels (m : gmap nat Channel) (r : Registry) : Registry :=
  mkRegistry m (channels_ r) (associatedFds_ r) (nextRegistrationGeneration r) (sockets r) (associated r).
Definition set_registered_channels (m : gmap Z nat) (r : Registry) : Registry :=
  mkRegistry (channels r) m (associatedFds_ r) (nextRegistrationGeneration r) (sockets r) (associated r).
Definition set_associatedFds (s : gset Z) (r : Registry) : Registry :=
  mkRegistry (channels r) (channels_ r) s (nextRegistrationGeneration r) (sockets r) (associated r).
Definition set_next (g : Z) (r : Registry) : Registry :=
  mkRegistry (channels r) (channels_ r) (associatedFds_ r) g (sockets r) (associated r).
Definition set_sockets (s a : gset Z) (r : Registry) : Registry :=
  mkRegistry (channels r) (channels_ r) (associatedFds_ r) (nextRegistrationGeneration r) s a.

Definition on_engine {A} (m : M Engine A) : M World A :=
  fun w => let '(r, e) := m (engine w) in (r, set_engine e w).
Definition on_registry {A} (m : M Registry A) : M World A :=
  fun w => let '(r, g) := m (registry w) in (r, set_registry g w).

(** *** Storage *)

(** Somebody refers to the block. *)
Definition held (b : nat) (e : Engine) : bool :=
  bool_decide (b ∈ owned e) || existsb (fun x => (x.2 =? b)%nat) (map_to_list (retainedOperations_ e)) ||
  existsb (fun l => bool_decide (l = Some b)) (noticeLifetimes e).

Definition cell (o : nat) : M Engine Cell :=
  do e <- get ;;
  match storage e !! o with
  | Some x => if held (block x) e then ret x else throw undefined_behaviour
  | None => throw undefined_behaviour
  end.

Definition store (o : nat) (f : IocpOperation -> IocpOperation) : M Engine unit :=
  do x <- cell o ;;
  modify (fun e => set_storage (<[o := mkCell (block x) (ticket x) (f (op x))]> (storage e)) e).

(** Access through a [Channel*]. *)
Definition the_channel (c : nat) : M World Channel :=
  do w <- get ;;
  match channels (registry w) !! c with Some ch => ret ch | None => throw undefined_behaviour end.

(** ** Submission, cancellation *)

(** [channels_.find(source)] is the channel [c]. *)
Definition registered_at (source : Z) (c : nat) (r : Registry) : bool :=
  bool_decide (channels_ r !! source = Some c).

Definition commitNativeCompletionSubmission (o : nat) (lifetime : nat) : M World bool :=
  do w <- get ;;
  if bool_decide (is_Some (retainedOperations_ (engine w) !! o)) then ret false
  else
    run on_engine (modify (fun e => set_retained (<[o := lifetime]> (retainedOperations_ e)) (outstandingOperationCount_ e) e)) ;;
    run on_engine (store o (set_observer kInvalidSocket 0)) ;;
    do x <- on_engine (cell o) ;;
    run match channel (op x) with
        | None => ret tt
        | Some c =>
            do ch <- the_channel c ;;
            do w <- get ;;
            if registered_at (fd_ ch) c (registry w)
            then on_engine (store o (set_observer (fd_ ch) (registrationGeneration_ ch)))
            else ret tt
        end ;;
    do x <- on_engine (cell o) ;;
    let '(ok, completion) := commitIocpOperationSubmission (op x) in
    run on_engine (store o (fun _ => completion)) ;;
    if ok then ret true
    else run on_engine (modify (fun e => set_retained (delete o (retainedOperations_ e)) (outstandingOperationCount_ e) e)) ;; ret false.

Definition commitNativeCompletionCancellation (o : nat) : M World bool :=
  do x <- on_engine (cell o) ;;
  let completion := op x in
  if negb (submissionAccepted completion) || completionObserved completion ||
     (terminalGeneration completion =? generation completion) then ret false
  else
    run (if shutdownObligation completion then ret tt
         else
           run on_engine (store o (set_obligation true)) ;;
           on_engine (modify (fun e => set_retained (retainedOperations_ e) (outstandingOperationCount_ e + 1) e))) ;;
    ret true.

Definition hasPendingCompletionOperations (e : Engine) : bool := negb (outstandingOperationCount_ e =? 0).

(** [PollerIoEngineAdapter]; the lifetime is not empty. *)
Definition commitCompletionSubmission (o lifetime : nat) : M World IoEngineOperationResult :=
  do w <- get ;;
  if bool_decide (phase_ w = EngineShutdown) then ret IoRejectedShutdown
  else
    do ok <- commitNativeCompletionSubmission o lifetime ;;
    ret (if ok then IoAccepted else IoRejectedConflict).

Definition commitCompletionCancellation (o : nat) : M World IoEngineOperationResult :=
  do w <- get ;;
  if bool_decide (phase_ w = EngineShutdown) then ret IoRejectedShutdown
  else
    do ok <- commitNativeCompletionCancellation o ;;
    ret (if ok then IoAccepted else IoRejectedConflict).

Definition quiescent (e : Engine) : bool := negb (hasPendingCompletionOperations e).

(** [EventLoop] *)
Definition ioEngineAcceptedOrUnsupported (r : IoEngineOperationResult) : bool :=
  bool_decide (r = IoAccepted) || bool_decide (r = IoRejectedUnsupported).

Definition retainCompletionOperation (o lifetime : nat) : M World unit :=
  do r <- commitCompletionSubmission o lifetime ;;
  throw_if (negb (ioEngineAcceptedOrUnsupported r)) logic_error.

Definition trackCompletionOperation (o : nat) : M World unit :=
  do r <- commitCompletionCancellation o ;;
  throw_if (negb (ioEngineAcceptedOrUnsupported r)) logic_error.

(** ** The wait *)

Definition retireCompletionNoticeLeases (e : Engine) : Engine :=
  set_notices (notices e) (map (fun _ => None) (noticeLifetimes e)) (directNoticeCursor e) e.

(** Up to the decoding of the packets; the system hands [n] of them over, none when the
    time is up. *)
Definition wait_begin (completionBatchSize_ n : nat) (e : Engine) : Engine :=
  let e := set_notices [] [] 0 (retireCompletionNoticeLeases e) in
  set_progress (mkProgress n 0 0 0 (bool_decide (n = completionBatchSize_)))
    (set_system (inflight e) (drop n (packets e)) (Some (take n (packets e))) e).

Definition count_invalid (e : Engine) : Engine :=
  let p := progress e in
  set_progress (mkProgress (nativePackets p) (deliveredNotices p) (S (invalidPackets p)) (wakeupPackets p) (budgetExhausted p)) e.

Definition count_wakeup (e : Engine) : Engine :=
  let p := progress e in
  set_progress (mkProgress (nativePackets p) (deliveredNotices p) (invalidPackets p) (S (wakeupPackets p)) (budgetExhausted p)) e.

(** [overlapped]: what [WSAGetOverlappedResult] reports, 0 for success. *)
Definition completionError (overlapped : Z) (o : IocpOperation) (channelRegistered : bool) : M World Z :=
  if Internal o =? 0 then ret 0
  else if Internal o =? kStatusCancelled then ret ERROR_OPERATION_ABORTED
  else
    match channel o with
    | Some c => if channelRegistered then run the_channel c ;; ret overlapped else ret ERROR_GEN_FAILURE
    | None => ret ERROR_GEN_FAILURE
    end.

(** The notice, with the lease of the operation. *)
Definition deliver (n : CompletionNotice) (e : Engine) : Engine :=
  set_submissions (submissions e) (delivered e ++ [(notice_ticket n, consumer n)])
    (set_notices (notices e ++ [n]) (noticeLifetimes e ++ [retainedOperations_ e !! (identity n).1]) (directNoticeCursor e)
       (set_retained (delete (identity n).1 (retainedOperations_ e)) (outstandingOperationCount_ e) e)).

(** The obligation of an operation that has ended. *)
Definition release_obligation (o : nat) (completion : IocpOperation) : M World unit :=
  if shutdownObligation completion then
    run on_engine (store o (set_obligation false)) ;;
    do w <- get ;;
    run throw_if (outstandingOperationCount_ (engine w) =? 0) log_fatal ;;
    on_engine (modify (fun e => set_retained (retainedOperations_ e) (outstandingOperationCount_ e - 1) e))
  else ret tt.

(** The terminal observer, if there is one, changes only flags of the owner's block
    ([IocpTransport] and [Acceptor] have theirs); it is not called here. *)
Definition decode_operation (completionBatchSize_ : nat) (overlapped key : Z) (o : nat) (bytes : Z) : M World unit :=
  do x <- on_engine (cell o) ;;
  let completion := op x in
  if negb (submissionAccepted completion) || (generation completion =? 0) ||
     (terminalGeneration completion =? generation completion) then on_engine (modify count_invalid)
  else
    let captured := observerIdentityCaptured completion in
    let source := if captured then observerSource completion else key in
    do g <- match channel completion with
            | Some c =>
                if captured then ret (observerRegistrationGeneration completion)
                else do ch <- the_channel c ;; ret (registrationGeneration_ ch)
            | None => ret (if captured then observerRegistrationGeneration completion else 0)
            end ;;
    do w <- get ;;
    let channelRegistered :=
      (negb captured || (key =? source)) && negb (source =? kInvalidSocket) &&
      match channel completion with Some c => registered_at source c (registry w) | None => false end in
    run on_engine (store o (fun p => set_status (Internal p) bytes (error p) p)) ;;
    do e <- completionError overlapped completion channelRegistered ;;
    run on_engine (store o (fun p => set_status (Internal p) bytes e p)) ;;
    do x <- on_engine (cell o) ;;
    let '(ok, retired) := retireIocpOperationSubmission (op x) in
    run on_engine (store o (fun _ => retired)) ;;
    if negb ok then on_engine (modify count_invalid)
    else
      run release_obligation o retired ;;
      do w <- get ;;
      run throw_if (completionBatchSize_ <=? length (notices (engine w)))%nat log_fatal ;;
      on_engine (modify (deliver
        (mkNotice (o, generation completion) (kind completion) (if channelRegistered then channel completion else None) source g
           bytes e (completionStatus e) (completionConsumer completion) (block x) (ticket x)))).

Definition decode (completionBatchSize_ : nat) (overlapped : Z) (p : Packet) : M World unit :=
  match p with
  | Wakeup =>
      run modify (fun w => set_wakeup false (posting w) (asked w) w) ;;
      on_engine (modify count_wakeup)
  | Completion key o bytes => decode_operation completionBatchSize_ overlapped key o bytes
  end.

(** ** Delivery *)

Definition pending (e : Engine) : list CompletionNotice := drop (directNoticeCursor e) (notices e).

Definition pendingDirectCompletionNoticeCount (e : Engine) : nat := length (filter (fun n => consumer n = true) (pending e)).

Fixpoint next_direct (l : list CompletionNotice) (cursor : nat) : option CompletionNotice * nat :=
  match l with
  | [] => (None, cursor)
  | n :: l => if consumer n then (Some n, S cursor) else next_direct l (S cursor)
  end.

Definition takeNextDirectCompletionNotice : M Engine (option CompletionNotice) :=
  do e <- get ;;
  let '(n, cursor) := next_direct (pending e) (directNoticeCursor e) in
  run modify (set_notices (notices e) (noticeLifetimes e) cursor) ;;
  ret n.

Definition completionObserverCurrent (n : CompletionNotice) : M World bool :=
  match observer n with
  | None => ret false
  | Some c =>
      do w <- get ;;
      if registered_at (notice_source n) c (registry w) then
        do ch <- the_channel c ;; ret (registrationGeneration_ ch =? observerGeneration n)
      else ret false
  end.

(** A round of [EventLoop::dispatchActiveChannels]: the consumer is called with
    whether its observer is current; that of a channel whose owner is gone is not. *)
Definition dispatch_notice : M World (option bool) :=
  do next <- on_engine takeNextDirectCompletionNotice ;;
  match next with
  | None => ret None
  | Some n =>
      do current <- completionObserverCurrent n ;;
      do guarded <- match observer n with
                    | Some c =>
                        if current then do ch <- the_channel c ;; ret (negb (tied_ ch) || tie_ ch) else ret false
                    | None => ret false
                    end ;;
      do w <- get ;;
      run throw_if (negb (held (context n) (engine w))) undefined_behaviour ;;
      run on_engine (modify (fun e => set_consuming (Some (context n)) (consumed e ++ [notice_ticket n]) e)) ;;
      ret (Some guarded)
  end.

(** ** Channels and sockets *)

Definition change (c : nat) (f : Channel -> Channel) : M World unit :=
  on_registry (modify (fun r => set_channels (alter f c (channels r)) r)).

(** [CreateIoCompletionPort] takes an open socket once; [taken]: it does not refuse it for
    want of resources. *)
Definition associateChannel (taken : bool) (fd : Z) : M World unit :=
  do w <- get ;;
  run throw_if (negb taken || negb (bool_decide (fd ∈ sockets (registry w))) || bool_decide (fd ∈ associated (registry w))) log_fatal ;;
  on_registry (modify (fun r => set_sockets (sockets r) ({[fd]} ∪ associated r) r)).

Definition kNew : Z := -1.
Definition kAdded : Z := 1.
Definition kDeleted : Z := 2.

Definition poller_updateChannel (taken : bool) (c : nat) : M World unit :=
  do ch <- the_channel c ;;
  let fd := fd_ ch in
  do w <- get ;;
  let existing := channels_ (registry w) !! fd in
  if (index_ ch =? kNew) || (index_ ch =? kDeleted) then
    let alreadyAssociated := bool_decide (fd ∈ associatedFds_ (registry w)) in
    run (if index_ ch =? kNew then
           run throw_if (bool_decide (is_Some existing)) logic_error ;;
           on_registry (modify (fun r => set_registered_channels (<[fd := c]> (channels_ r)) r))
         else throw_if (negb (bool_decide (existing = Some c))) logic_error) ;;
    run (if alreadyAssociated then ret tt
         else
           run associateChannel taken fd ;;
           on_registry (modify (fun r => set_associatedFds ({[fd]} ∪ associatedFds_ r) r))) ;;
    change c (setIndex (if isNoneEvent ch then kDeleted else kAdded))
  else
    run throw_if (negb (bool_decide (existing = Some c))) logic_error ;;
    change c (setIndex (if isNoneEvent ch then kDeleted else kAdded)).

Definition poller_removeChannel (c : nat) : M World unit :=
  do ch <- the_channel c ;;
  do w <- get ;;
  run throw_if (negb (registered_at (fd_ ch) c (registry w))) logic_error ;;
  run on_registry (modify (fun r => set_registered_channels (delete (fd_ ch) (channels_ r)) r)) ;;
  run on_registry (modify (fun r => set_associatedFds (associatedFds_ r ∖ {[fd_ ch]}) r)) ;;
  change c (setIndex kNew).

Definition preserveSocketAssociation (fd : Z) (r : Registry) : Registry := set_associatedFds ({[fd]} ∪ associatedFds_ r) r.
Definition forgetSocketAssociation (fd : Z) (r : Registry) : Registry := set_associatedFds (associatedFds_ r ∖ {[fd]}) r.

(** [PollerIoEngineAdapter] *)
Definition hasReadiness (c : nat) : M World bool :=
  do ch <- the_channel c ;; gets (fun w => registered_at (fd_ ch) c (registry w)).

Definition on_conflict (m : M World unit) : M World IoEngineOperationResult :=
  fun w => match m w with
           | (Ok _, w) => (Ok IoAccepted, w)
           | (Throw logic_error, w) => (Ok IoRejectedConflict, w)
           | (Throw e, w) => (Throw e, w)
           end.

Definition registerOrUpdateReadiness (taken : bool) (c : nat) : M World IoEngineOperationResult :=
  do w <- get ;;
  do known <- hasReadiness c ;;
  if bool_decide (phase_ w = EngineShutdown) && negb known then ret IoRejectedShutdown
  else on_conflict (poller_updateChannel taken c).

Definition cancelReadiness (c : nat) : M World IoEngineOperationResult :=
  do w <- get ;;
  if bool_decide (phase_ w = EngineShutdown) then ret IoRejectedShutdown
  else
    do known <- hasReadiness c ;;
    if negb known then ret IoRejectedNotRegistered
    else run poller_removeChannel c ;; ret IoAccepted.

Definition commitSocketAssociationPreservation (fd : Z) : M World IoEngineOperationResult :=
  do w <- get ;;
  if fd =? kInvalidSocket then ret IoRejectedInvalid
  else if bool_decide (phase_ w = EngineShutdown) then ret IoRejectedShutdown
  else run on_registry (modify (preserveSocketAssociation fd)) ;; ret IoAccepted.

Definition commitSocketAssociationForget (fd : Z) : M World IoEngineOperationResult :=
  do w <- get ;;
  if fd =? kInvalidSocket then ret IoRejectedInvalid
  else if bool_decide (phase_ w = EngineShutdown) then ret IoRejectedShutdown
  else run on_registry (modify (forgetSocketAssociation fd)) ;; ret IoAccepted.

Definition markShutdown (w : World) : World := set_phase EngineShutdown w.

(** [EventLoop]; its batch of active channels stays empty on Windows. *)
Definition allocateRegistrationGeneration : M Registry Z :=
  do r <- get ;;
  let g := nextRegistrationGeneration r in
  run modify (set_next (uwrap (g + 1))) ;;
  if g =? 0 then
    do r <- get ;;
    run modify (set_next (uwrap (nextRegistrationGeneration r + 1))) ;; ret (nextRegistrationGeneration r)
  else ret g.

Definition advanceRegistrationGeneration (c : nat) (added : bool) : M World unit :=
  do g <- on_registry allocateRegistrationGeneration ;;
  change c (set_registered added g).

Definition updateChannel (taken : bool) (c : nat) : M World unit :=
  do ch <- the_channel c ;;
  do r <- registerOrUpdateReadiness taken c ;;
  run throw_if (negb (bool_decide (r = IoAccepted))) logic_error ;;
  if addedToLoop_ ch then ret tt else advanceRegistrationGeneration c true.

Definition removeChannel (c : nat) : M World unit :=
  do ch <- the_channel c ;;
  run throw_if (negb (addedToLoop_ ch)) logic_error ;;
  run throw_if (negb (isNoneEvent ch)) logic_error ;;
  do known <- hasReadiness c ;;
  run throw_if (negb known) logic_error ;;
  do r <- cancelReadiness c ;;
  run throw_if (negb (bool_decide (r = IoAccepted))) logic_error ;;
  advanceRegistrationGeneration c false.

Definition loop_preserveSocketAssociation (fd : Z) : M World unit :=
  do r <- commitSocketAssociationPreservation fd ;;
  throw_if (negb (ioEngineAcceptedOrUnsupported r)) logic_error.

Definition loop_forgetSocketAssociation (fd : Z) : M World unit :=
  do r <- commitSocketAssociationForget fd ;;
  throw_if (negb (ioEngineAcceptedOrUnsupported r)) log_fatal.

(** ** Wake-ups *)

(** Any thread: the exchange; it posts in a later step if it won. *)
Definition wakeup_exchange (w : World) : World :=
  if wakeupPending_ w then set_wakeup true (posting w) true w
  else set_wakeup true (S (posting w)) true w.

Definition wakeup_post (w : World) : World :=
  let e := engine w in
  set_engine (set_system (inflight e) (packets e ++ [Wakeup]) (nativeEntries e) e)
    (set_wakeup (wakeupPending_ w) (pred (posting w)) (asked w) w).

(** ** The machine *)

Definition new_cells (b : nat) (ops : list (nat * IocpOperation)) (m : gmap nat Cell) : gmap nat Cell :=
  foldr (fun '(o, p) m => <[o := mkCell b 0 p]> m) m ops.

(** The generation under which a channel is registered. *)
Definition registration_of (c : option nat) (r : Registry) : option Z :=
  match c with
  | Some c =>
      match channels r !! c with
      | Some ch => if addedToLoop_ ch then Some (registrationGeneration_ ch) else None
      | None => None
      end
  | None => None
  end.

(** The system has taken the operation. *)
Definition start (o : nat) (key : Z) (sub : option nat * option Z) (e : Engine) : Engine :=
  set_submissions (submissions e ++ [sub]) (delivered e)
    (set_system (<[o := key]> (inflight e)) (packets e) (nativeEntries e)
       (set_storage (alter (fun x => mkCell (block x) (tickets e) (op x)) o (storage e)) e)).

(** How the owner of an operation, whose channel is [c], submits it: as [startRead] and
    [startWrite] of IocpTcpTransport_win.cc, [postAccept] of Acceptor.cc and [connect] of
    Connector.cc do.  The system refuses it with an error, or takes it. *)
Definition submit (o : nat) (c : option nat) (key : Z) (refused : option Z) : M World Z :=
  run on_engine (store o (set_request c)) ;;
  do x <- on_engine (cell o) ;;
  let '(ok, prepared) := prepareIocpOperationSubmission (op x) in
  run on_engine (store o (fun _ => prepared)) ;;
  if negb ok then ret WSAEALREADY
  else
    match refused with
    | Some err =>
        run on_engine (store o (fun p => (rejectIocpOperationSubmission p).2)) ;;
        run on_engine (store o (fun p => set_status (Internal p) (bytesTransferred p) err p)) ;;
        ret err
    | None =>
        do w <- get ;;
        run on_engine (modify (start o key (c, registration_of c (registry w)))) ;;
        run retainCompletionOperation o (block x) ;;
        ret 0
    end.

(** What is called where nothing may be thrown. *)
Definition noexcept {A} (m : M World A) : M World A :=
  fun w => match m w with (Throw _, w) => (Throw log_fatal, w) | r => r end.

(** An operation of the system ends. *)
Definition complete (o : nat) (key st bytes : Z) : M Engine unit :=
  run store o (fun p => set_status st (bytesTransferred p) (error p) p) ;;
  modify (fun e => set_system (delete o (inflight e)) (packets e ++ [Completion key o bytes]) (nativeEntries e) e).

(** [Channel::update] after a change of the events. *)
Definition update (c : nat) (events : Z) (taken : bool) : M World unit :=
  run change c (set_events events) ;; updateChannel taken c.

(** [Channel::~Channel] *)
Definition destroy (c : nat) : M World unit :=
  do ch <- the_channel c ;;
  run throw_if (addedToLoop_ ch) log_fatal ;;
  on_registry (modify (fun r => set_channels (delete c (channels r)) r)).

Inductive Label :=
  | LNewBlock (b : nat) (ops : list (nat * IocpOperation))
  | LDropBlock (b : nat)
  | LSubmit (o : nat) (c : option nat) (key : Z) (refused : option Z)
  | LClearChannel (o : nat)
  | LCancel (o : nat) (known : bool)         (** [known]: the system knows the socket *)
  | LNewChannel (c : nat) (fd : Z)
  | LUpdate (c : nat) (events : Z)
  | LRemove (c : nat)
  | LDestroy (c : nat)
  | LTie (c : nat) (tied alive : bool)
  | LOpen (fd : Z)
  | LClose (fd : Z)
  | LPreserve (fd : Z)
  | LForget (fd : Z)
  | LWait (n : nat)                          (** the system hands [n] packets over *)
  | LDecode (overlapped : Z)
  | LWaited
  | LDispatch
  | LConsumed
  | LRetire
  | LShutdown
  | LOtherLoop                               (** a channel of another loop is registered *)
  | LWake
  | LPost
  | LComplete (o : nat) (st bytes : Z).

Definition perform (completionBatchSize_ : nat) (lb : Label) : M World unit :=
  match lb with
  | LNewBlock b ops =>
      on_engine (modify (fun e => set_storage (new_cells b ops (storage e)) (set_owned ({[b]} ∪ owned e) e)))
  | LDropBlock b => on_engine (modify (fun e => set_owned (owned e ∖ {[b]}) e))
  | LSubmit o c key refused => run submit o c key refused ;; ret tt
  | LClearChannel o => on_engine (store o (set_channel None))
  | LCancel o known => if known then run noexcept (trackCompletionOperation o) ;; modify (note_cancelled o) else ret tt
  | LNewChannel c fd => on_registry (modify (fun r => set_channels (<[c := Channel_new fd]> (channels r)) r))
  | LUpdate c events => update c events true
  | LRemove c => removeChannel c
  | LDestroy c => destroy c
  | LTie c tied alive => change c (set_tie tied alive)
  | LOpen fd => on_registry (modify (fun r => set_sockets ({[fd]} ∪ sockets r) (associated r) r))
  | LClose fd => on_registry (modify (fun r => set_sockets (sockets r ∖ {[fd]}) (associated r ∖ {[fd]}) r))
  | LPreserve fd => loop_preserveSocketAssociation fd
  | LForget fd => loop_forgetSocketAssociation fd
  | LWait n => on_engine (modify (wait_begin completionBatchSize_ n))
  | LDecode overlapped =>
      do w <- get ;;
      match nativeEntries (engine w) with
      | Some (p :: ps) =>
          run on_engine (modify (fun e => set_system (inflight e) (packets e) (Some ps) e)) ;;
          decode completionBatchSize_ overlapped p
      | _ => ret tt
      end
  | LWaited =>
      run on_engine (modify (fun e =>
        let p := progress e in
        set_progress (mkProgress (nativePackets p) (length (notices e)) (invalidPackets p) (wakeupPackets p) (budgetExhausted p))
          (set_system (inflight e) (packets e) None e))) ;;
      modify (fun w => set_wakeup (wakeupPending_ w) (posting w) false w)
  | LDispatch => run dispatch_notice ;; ret tt
  | LConsumed => on_engine (modify (fun e => set_consuming None (consumed e) e))
  | LRetire => on_engine (modify retireCompletionNoticeLeases)
  | LShutdown => modify markShutdown
  | LOtherLoop => run on_registry allocateRegistrationGeneration ;; ret tt
  | LWake => modify wakeup_exchange
  | LPost => modify wakeup_post
  | LComplete o st bytes =>
      do w <- get ;;
      match inflight (engine w) !! o with
      | Some key => on_engine (complete o key st bytes)
      | None => ret tt
      end
  end.

(** The owner runs, and is not inside a wait. *)
Definition running (w : World) : bool :=
  bool_decide (phase_ w <> EngineShutdown) && bool_decide (nativeEntries (engine w) = None).

(** It does not run a consumer either. *)
Definition idle (w : World) : bool := running w && bool_decide (consuming (engine w) = None).

(** The operation is there, and submitted as [b] says. *)
Definition submitted (o : nat) (b : bool) (e : Engine) : bool :=
  match storage e !! o with
  | Some x => held (block x) e && Bool.eqb (submissionAccepted (op x)) b
  | None => false
  end.

Definition exists_channel (c : nat) (w : World) : bool := bool_decide (is_Some (channels (registry w) !! c)).

(** There is room for another generation. *)
Definition generations_left (w : World) : bool := nextRegistrationGeneration (registry w) <? usize_max.

(** No operation of the block is there, and the addresses are free. *)
Definition block_free (b : nat) (ops : list nat) (e : Engine) : bool :=
  negb (held b e) && forallb (fun x => negb (block x.2 =? b)%nat) (map_to_list (storage e)) && bool_decide (NoDup ops) &&
  forallb (fun o => match storage e !! o with Some x => negb (held (block x) e) | None => true end) ops.

Definition new_operation (p : IocpOperation) : bool :=
  (generation p =? 0) && (terminalGeneration p =? 0) && negb (submissionPrepared p) && negb (submissionAccepted p) &&
  negb (shutdownObligation p).

(** A new channel is made for an open socket: one that has never had a channel, or whose
    association was preserved. *)
Definition may_register (c : nat) (r : Registry) : bool :=
  match channels r !! c with
  | Some ch =>
      negb (index_ ch =? kNew) ||
      bool_decide (fd_ ch ∈ sockets r) && (negb (bool_decide (fd_ ch ∈ associated r)) || bool_decide (fd_ ch ∈ associatedFds_ r))
  | None => false
  end.

(** The channel asks the system to associate its socket with the port. *)
Definition wants_association (c : nat) (r : Registry) : bool :=
  match channels r !! c with
  | Some ch => (index_ ch =? kNew) && bool_decide (channels_ r !! fd_ ch = None) && negb (bool_decide (fd_ ch ∈ associatedFds_ r))
  | None => false
  end.

(** The system turns the socket of the channel down. *)
Definition turned_down (c : nat) (taken : bool) (r : Registry) : bool :=
  match channels r !! c with
  | Some ch => negb taken || negb (bool_decide (fd_ ch ∈ sockets r)) || bool_decide (fd_ ch ∈ associated r)
  | None => false
  end.

(** What the owners of operations and channels keep to, and the laws of the system, which
    takes the sockets and the wake-up packets it is given. *)
Definition enabled (completionBatchSize_ : nat) (lb : Label) (w : World) : bool :=
  let e := engine w in
  let r := registry w in
  match lb with
  | LNewBlock b ops => running w && block_free b (ops.*1) e && forallb new_operation (ops.*2)
  | LDropBlock b => running w && bool_decide (b ∈ owned e)
  | LSubmit o c key _ =>
      running w && submitted o false e && match c with Some c => exists_channel c w | None => true end &&
      negb (key =? kWakeupCompletionKey)
  | LClearChannel o => running w && match storage e !! o with Some x => held (block x) e | None => false end
  | LCancel o _ => running w && submitted o true e
  | LNewChannel c fd => running w && negb (exists_channel c w) && negb (fd =? kInvalidSocket)
  | LUpdate c _ => running w && generations_left w && may_register c r
  | LRemove c => running w && generations_left w && exists_channel c w
  | LDestroy c => running w && match channels r !! c with Some ch => negb (addedToLoop_ ch) | None => false end
  | LTie c _ _ => running w && exists_channel c w
  | LOpen fd => negb (bool_decide (fd ∈ sockets r)) && negb (fd =? kInvalidSocket)
  | LClose fd => running w && negb (bool_decide (fd ∈ associatedFds_ r))
  | LPreserve fd => running w && bool_decide (fd ∈ associated r)
  | LForget fd => running w && bool_decide (channels_ r !! fd = None) && negb (fd =? kInvalidSocket)
  | LWait n =>
      idle w && (pendingDirectCompletionNoticeCount e =? 0)%nat && (n <=? completionBatchSize_)%nat && (n <=? length (packets e))%nat
  | LDecode _ => match nativeEntries e with Some (_ :: _) => true | _ => false end
  | LWaited => match nativeEntries e with Some [] => true | _ => false end
  | LDispatch => idle w
  | LConsumed => running w && bool_decide (is_Some (consuming e))
  | LRetire => idle w && (pendingDirectCompletionNoticeCount e =? 0)%nat
  | LShutdown => idle w
  | LOtherLoop => generations_left w
  | LWake => true
  | LPost => (0 <? posting w)%nat
  | LComplete o _ _ => bool_decide (is_Some (inflight e !! o))
  end.

(** The owner survives a refusal. *)
Definition step (completionBatchSize_ : nat) (lb : Label) (w : World) : option (result World) :=
  if enabled completionBatchSize_ lb w then
    match perform completionBatchSize_ lb w with
    | (Ok _, w) | (Throw logic_error, w) => Some (Ok w)
    | (Throw e, _) => Some (Throw e)
    end
  else None.

Fixpoint steps (completionBatchSize_ : nat) (lbs : list Label) (w : World) : option (result World) :=
  match lbs with
  | [] => Some (Ok w)
  | lb :: lbs =>
      match step completionBatchSize_ lb w with
      | Some (Ok w) => steps completionBatchSize_ lbs w
      | r => r
      end
  end.

(** ** The invariant *)

Definition about (o : nat) (p : Packet) : bool := match p with Completion _ o' _ => (o' =? o)%nat | Wakeup => false end.
Definition is_wakeup (p : Packet) : bool := match p with Wakeup => true | _ => false end.

Definition occurrences (f : Packet -> bool) (l : list Packet) : nat := length (List.filter f l).

Definition entries (e : Engine) : list Packet := default [] (nativeEntries e).

(** How often the system has the operation, or its packet is to be decoded. *)
Definition tokens (o : nat) (e : Engine) : nat :=
  (if inflight e !! o is Some _ then 1 else 0) + occurrences (about o) (packets e) + occurrences (about o) (entries e).

Definition wakeups (e : Engine) : nat := occurrences is_wakeup (packets e) + occurrences is_wakeup (entries e).

Record op_ok (p : IocpOperation) : Prop := {
  op_generations : 0 <= terminalGeneration p <= generation p;
  op_prepared : submissionPrepared p = false;
  op_accepted : submissionAccepted p = true ->
    terminalGeneration p < generation p /\ completionObserved p = false /\ observerIdentityCaptured p = true;
  op_obligation : shutdownObligation p = true -> submissionAccepted p = true;
}.

Definition direct (e : Engine) : list CompletionNotice := List.filter consumer (pending e).

(** The operations that are submitted, with their block and ticket. *)
Definition live (e : Engine) : gmap nat (nat * nat) :=
  omap (fun x => if submissionAccepted (op x) then Some (block x, ticket x) else None) (storage e).

(** Leases, packets and obligations are those of the submitted operations. *)
Definition table_ok (e : Engine) : Prop :=
  retainedOperations_ e = fst <$> live e /\
  (forall o x, storage e !! o = Some x -> op_ok (op x)) /\
  (forall o, tokens o e = if live e !! o is Some _ then 1%nat else 0%nat) /\
  outstandingOperationCount_ e = tally (fun x => shutdownObligation (op x)) (storage e).

(** The notices of a wait fit in the batch, those to be delivered have their lease, and so
    has the one being consumed. *)
Definition batch_ok (n : nat) (e : Engine) : Prop :=
  length (noticeLifetimes e) = length (notices e) /\ (directNoticeCursor e <= length (notices e))%nat /\
  (length (notices e) + length (entries e) <= n)%nat /\
  (forall i nt, (directNoticeCursor e <= i)%nat -> notices e !! i = Some nt -> consumer nt = true ->
     noticeLifetimes e !! i = Some (Some (context nt))) /\
  (forall b, consuming e = Some b -> nativeEntries e = None /\ Some b ∈ noticeLifetimes e).

(** A submission is delivered once, or is under way. *)
Definition tickets_ok (e : Engine) : Prop :=
  (forall o b t, live e !! o = Some (b, t) -> (t < tickets e)%nat /\ t ∉ (delivered e).*1) /\
  (forall o b o' b' t, live e !! o = Some (b, t) -> live e !! o' = Some (b', t) -> o = o') /\
  NoDup (delivered e).*1 /\ (forall t, t ∈ (delivered e).*1 -> (t < tickets e)%nat) /\
  (forall t, (t < tickets e)%nat -> t ∈ (delivered e).*1 \/ exists o b, live e !! o = Some (b, t)).

(** Consumers are called once for each notice, in the order of delivery. *)
Definition consumed_ok (e : Engine) : Prop :=
  (List.filter snd (delivered e)).*1 = consumed e ++ map notice_ticket (direct e).

Definition engine_ok (n : nat) (e : Engine) : Prop :=
  table_ok e /\ batch_ok n e /\ tickets_ok e /\ consumed_ok e.

(** One wake-up packet at most is on its way, and exactly while the flag is set. *)
Record wakeups_ok (w : World) : Prop := {
  ok_wakeups : (wakeups (engine w) + posting w)%nat = if wakeupPending_ w then 1%nat else 0%nat;
  ok_asked : nativeEntries (engine w) = None -> asked w = true -> wakeupPending_ w = true;
}.

Record registry_ok (r : Registry) : Prop := {
  ok_registered : forall fd c, channels_ r !! fd = Some c ->
    exists ch, channels r !! c = Some ch /\ fd_ ch = fd /\ addedToLoop_ ch = true /\ (index_ ch = kAdded \/ index_ ch = kDeleted);
  ok_added : forall c ch, channels r !! c = Some ch -> addedToLoop_ ch = true \/ index_ ch <> kNew -> channels_ r !! fd_ ch = Some c;
  ok_channel_fds : forall c ch, channels r !! c = Some ch -> fd_ ch <> kInvalidSocket;
  ok_associated : (forall fd c, channels_ r !! fd = Some c -> fd ∈ associatedFds_ r) /\ associatedFds_ r ⊆ associated r /\
    associated r ⊆ sockets r /\ kInvalidSocket ∉ sockets r;
  ok_generations : 1 <= nextRegistrationGeneration r <= usize_max /\
    forall c ch, channels r !! c = Some ch -> 0 <= registrationGeneration_ ch < nextRegistrationGeneration r;
  ok_unique : forall c ch c' ch', channels r !! c = Some ch -> channels r !! c' = Some ch' ->
    addedToLoop_ ch = true -> registrationGeneration_ ch = registrationGeneration_ ch' -> c = c';
  ok_positive : forall c ch, channels r !! c = Some ch -> addedToLoop_ ch = true -> 1 <= registrationGeneration_ ch;
}.

(** What is known of an observer is what was so at the submission. *)
Definition observers_ok (e : Engine) : Prop :=
  (forall o x, storage e !! o = Some x -> submissionAccepted (op x) = true ->
     exists c rg, submissions e !! ticket x = Some (c, rg) /\ (channel (op x) = c \/ channel (op x) = None) /\
       (observerSource (op x) <> kInvalidSocket -> rg = Some (observerRegistrationGeneration (op x)))) /\
  (forall nt c, nt ∈ notices e -> observer nt = Some c ->
     submissions e !! notice_ticket nt = Some (Some c, Some (observerGeneration nt))).

(** An operation that a shutdown waits for has been delivered, or is marked. *)
Definition cancelled_ok (l : list nat) (e : Engine) : Prop :=
  forall t, t ∈ l -> t ∈ (delivered e).*1 \/
    exists o x, storage e !! o = Some x /\ submissionAccepted (op x) = true /\ shutdownObligation (op x) = true /\ ticket x = t.

Record world_ok (n : nat) (w : World) : Prop := {
  ok_engine : engine_ok n (engine w);
  ok_observers : observers_ok (engine w);
  ok_cancelled : cancelled_ok (cancelled w) (engine w);
  ok_wake : wakeups_ok w;
  ok_registry : registry_ok (registry w);
}.

(** ** Lemmas *)

Lemma occurrences_app f l l' : occurrences f (l ++ l') = (occurrences f l + occurrences f l')%nat.
Proof. unfold occurrences. by rewrite List.filter_app, length_app. Qed.

Lemma occurrences_cons f p l : occurrences f (p :: l) = ((if f p then 1 else 0) + occurrences f l)%nat.
Proof. unfold occurrences. cbn. by destruct (f p). Qed.

Lemma occurrences_split f n l : (occurrences f (take n l) + occurrences f (drop n l))%nat = occurrences f l.
Proof. by rewrite <- occurrences_app, take_drop. Qed.

Lemma held_spec b e :
  held b e = true <-> b ∈ owned e \/ (exists o, retainedOperations_ e !! o = Some b) \/ Some b ∈ noticeLifetimes e.
Proof.
  assert ((exists o, retainedOperations_ e !! o = Some b) <-> existsb (fun x => (x.2 =? b)%nat) (map_to_list (retainedOperations_ e)) = true) as Hr.
  { rewrite existsb_exists. split.
    - intros [o Ho]. exists (o, b). split; [by apply list_elem_of_In, elem_of_map_to_list|]. apply Nat.eqb_refl.
    - intros [[o b'] [Hin Hb]]. cbn in Hb. apply Nat.eqb_eq in Hb as ->. exists o. by apply elem_of_map_to_list, list_elem_of_In. }
  assert (Some b ∈ noticeLifetimes e <-> existsb (fun l => bool_decide (l = Some b)) (noticeLifetimes e) = true) as Hl.
  { rewrite existsb_exists. split.
    - intros Hl. exists (Some b). split; [by apply list_elem_of_In|]. by apply bool_decide_eq_true.
    - intros [l [Hin Hl]]. apply bool_decide_eq_true in Hl as ->. by apply list_elem_of_In. }
  unfold held. rewrite !orb_true_iff, bool_decide_eq_true, Hr, Hl. tauto.
Qed.

Lemma held_owned b e : b ∈ owned e -> held b e = true.
Proof. intros. apply held_spec. auto. Qed.
Lemma held_retained b o e : retainedOperations_ e !! o = Some b -> held b e = true.
Proof. intros. apply held_spec. eauto. Qed.
Lemma held_lease b e : Some b ∈ noticeLifetimes e -> held b e = true.
Proof. intros. apply held_spec. auto. Qed.

Lemma live_spec e o b t :
  live e !! o = Some (b, t) <->
  exists x, storage e !! o = Some x /\ submissionAccepted (op x) = true /\ block x = b /\ ticket x = t.
Proof.
  unfold live. rewrite lookup_omap_Some. split.
  - intros (x & Hx & Hs). destruct (submissionAccepted (op x)) eqn:E; [|done]. injection Hx as <- <-. eauto.
  - intros (x & Hs & Ha & <- & <-). exists x. by rewrite Ha.
Qed.

Lemma live_accepted e o x : storage e !! o = Some x ->
  live e !! o = if submissionAccepted (op x) then Some (block x, ticket x) else None.
Proof. intros Hx. unfold live. by rewrite lookup_omap, Hx. Qed.

Lemma accepted_held e o x :
  table_ok e -> storage e !! o = Some x -> submissionAccepted (op x) = true ->
  retainedOperations_ e !! o = Some (block x) /\ held (block x) e = true.
Proof.
  intros (Hr & _) Hx Ha. assert (retainedOperations_ e !! o = Some (block x)) as H.
  { rewrite Hr, lookup_fmap, (live_accepted e o x Hx), Ha. done. }
  split; [done|by eapply held_retained].
Qed.

Lemma unaccepted_not_retained e o x :
  table_ok e -> storage e !! o = Some x -> submissionAccepted (op x) = false -> retainedOperations_ e !! o = None.
Proof. intros (Hr & _) Hx Ha. by rewrite Hr, lookup_fmap, (live_accepted e o x Hx), Ha. Qed.

(** *** An operation in the world *)

Definition with_op (o : nat) (x : Cell) (p : IocpOperation) (w : World) : World :=
  set_engine (set_storage (<[o := mkCell (block x) (ticket x) p]> (storage (engine w))) (engine w)) w.

Lemma with_op_id o x w : storage (engine w) !! o = Some x -> w = with_op o x (op x) w.
Proof. intros H. unfold with_op. destruct x. cbn. rewrite insert_id by done. by destruct w as [[]]. Qed.

Lemma cell_ok o x p w : held (block x) (engine w) = true ->
  on_engine (cell o) (with_op o x p w) = (Ok (mkCell (block x) (ticket x) p), with_op o x p w).
Proof.
  intros H. unfold on_engine, cell, bindM, get. cbn -[held]. rewrite lookup_insert_eq.
  change (held _ _) with (held (block x) (engine w)). rewrite H. done.
Qed.

Lemma store_ok o x p f w : held (block x) (engine w) = true ->
  on_engine (store o f) (with_op o x p w) = (Ok tt, with_op o x (f p) w).
Proof.
  intros H. unfold store. pose proof (cell_ok o x p w H) as Hc. unfold on_engine in *.
  destruct (cell o _) as [r e] eqn:E. injection Hc as -> He. rewrite (bindM_ok _ _ _ _ _ E). cbn.
  unfold with_op. f_equal. unfold set_engine in He |- *. cbn in He. destruct e. cbn in *. injection He; intros; subst.
  rewrite insert_insert_eq. done.
Qed.

Lemma on_engine_modify f w : on_engine (modify f) w = (Ok tt, set_engine (f (engine w)) w).
Proof. done. Qed.

Lemma on_registry_modify f w : on_registry (modify f) w = (Ok tt, set_registry (f (registry w)) w).
Proof. done. Qed.

(** *** Submission and cancellation *)

Lemma bind_get {A} (k : World -> M World A) w : bindM get k w = k w w.
Proof. done. Qed.

(** The identity of the observer that a submission captures. *)
Definition captured (c : option nat) (r : Registry) : Z * Z :=
  match c with
  | Some c =>
      match channels r !! c with
      | Some ch => if registered_at (fd_ ch) c r then (fd_ ch, registrationGeneration_ ch) else (kInvalidSocket, 0)
      | None => (kInvalidSocket, 0)
      end
  | None => (kInvalidSocket, 0)
  end.

Definition committed (r : Registry) (p : IocpOperation) : IocpOperation :=
  let '(source, rg) := captured (channel p) r in
  set_submission (generation p) (terminalGeneration p) false true (completionObserved p) (set_observer source rg p).

Definition leased (o b : nat) (w : World) : World :=
  set_engine (set_retained (<[o := b]> (retainedOperations_ (engine w))) (outstandingOperationCount_ (engine w)) (engine w)) w.

Definition channel_ok (c : option nat) (r : Registry) : Prop := forall c', c = Some c' -> is_Some (channels r !! c').

Lemma retain_spec o x p w :
  phase_ w <> EngineShutdown -> retainedOperations_ (engine w) !! o = None -> held (block x) (engine w) = true ->
  submissionPrepared p = true -> submissionAccepted p = false -> channel_ok (channel p) (registry w) ->
  retainCompletionOperation o (block x) (with_op o x p w) = (Ok tt, with_op o x (committed (registry w) p) (leased o (block x) w)).
Proof.
  intros Hp Hr Hh Hprep Hacc Hc.
  assert (held (block x) (engine (leased o (block x) w)) = true) as Hh' by (eapply held_retained; apply lookup_insert_eq).
  assert (commitNativeCompletionSubmission o (block x) (with_op o x p w) =
    (Ok true, with_op o x (committed (registry w) p) (leased o (block x) w))) as Hcommit.
  { unfold commitNativeCompletionSubmission. unfold bindM at 1. cbn [get].
    rewrite bool_decide_false by (cbn; rewrite Hr; intros [? ?]; done).
    rewrite (bindM_ok _ _ _ tt (with_op o x p (leased o (block x) w))) by done.
    rewrite (bindM_ok _ _ _ _ _ (store_ok _ _ _ _ _ Hh')), (bindM_ok _ _ _ _ _ (cell_ok _ _ _ _ Hh')). cbn [op].
    set (src := captured (channel p) (registry w)).
    rewrite (bindM_ok _ _ _ tt (with_op o x (set_observer src.1 src.2 p) (leased o (block x) w))).
    2:{ subst src. cbn. destruct (channel p) as [c|] eqn:Ec; [|done]. destruct (Hc c eq_refl) as [ch Hch].
        unfold the_channel, bindM at 1 2. cbn [get]. cbn. rewrite Hch. cbn.
        destruct (registered_at (fd_ ch) c (registry w)); [|done]. exact (store_ok o x (set_observer kInvalidSocket 0 p) _ _ Hh'). }
    rewrite (bindM_ok _ _ _ _ _ (cell_ok _ _ _ _ Hh')). cbn [op]. unfold commitIocpOperationSubmission. cbn. rewrite Hacc, Hprep.
    rewrite (bindM_ok _ _ _ _ _ (store_ok _ _ _ _ _ Hh')). cbn. unfold committed, with_op. fold src. destruct src; done. }
  unfold retainCompletionOperation. rewrite (bindM_ok _ _ _ IoAccepted (with_op o x (committed (registry w) p) (leased o (block x) w))); [done|].
  unfold commitCompletionSubmission. rewrite bind_get, bool_decide_false by done. by rewrite (bindM_ok _ _ _ _ _ Hcommit).
Qed.

(** What a submission that the system takes makes of the operation. *)
Definition submitted_op (c : option nat) (r : Registry) (p : IocpOperation) : IocpOperation :=
  committed r (prepareIocpOperationSubmission (set_request c p)).2.

Definition refused_op (c : option nat) (err : Z) (p : IocpOperation) : IocpOperation :=
  let p := (rejectIocpOperationSubmission (prepareIocpOperationSubmission (set_request c p)).2).2 in
  set_status (Internal p) (bytesTransferred p) err p.

(** The world after it. *)
Definition taken (o : nat) (x : Cell) (c : option nat) (key : Z) (w : World) : World :=
  set_engine (start o key (c, registration_of c (registry w)) (engine (with_op o x (submitted_op c (registry w) (op x)) (leased o (block x) w)))) w.

Definition ready (p : IocpOperation) : Prop := submissionPrepared p = false /\ submissionAccepted p = false /\ generation p <> usize_max.

Lemma prepare_ready c p : ready p ->
  (prepareIocpOperationSubmission (set_request c p)).1 = true.
Proof.
  intros (H1 & H2 & H3). unfold prepareIocpOperationSubmission. cbn. rewrite H1, H2. cbn. by destruct (Z.eqb_spec (generation p) usize_max).
Qed.

Definition started (o : nat) (key : Z) (sub : option nat * option Z) (w : World) : World :=
  let e := engine w in
  set_engine (set_submissions (submissions e ++ [sub]) (delivered e) (set_system (<[o := key]> (inflight e)) (packets e) (nativeEntries e) e)) w.

Lemma start_with_op o key sub x p w :
  start o key sub (engine (with_op o x p w)) =
    engine (with_op o (mkCell (block x) (tickets (engine w)) (op x)) p (started o key sub w)).
Proof. unfold start, with_op, set_engine, set_storage. cbn. by rewrite alter_insert_eq. Qed.

Lemma submit_spec o x c key refused w :
  storage (engine w) !! o = Some x -> held (block x) (engine w) = true -> phase_ w <> EngineShutdown ->
  retainedOperations_ (engine w) !! o = None -> submissionPrepared (op x) = false -> submissionAccepted (op x) = false ->
  channel_ok c (registry w) ->
  submit o c key refused w =
    if generation (op x) =? usize_max then (Ok WSAEALREADY, with_op o x (set_request c (op x)) w)
    else match refused with
         | Some err => (Ok err, with_op o x (refused_op c err (op x)) w)
         | None => (Ok 0, taken o x c key w)
         end.
Proof.
  intros Hx Hh Hp Hr Hprep Hacc Hc. rewrite (with_op_id o x w Hx) at 1. unfold submit.
  rewrite (bindM_ok _ _ _ _ _ (store_ok _ _ _ _ _ Hh)), (bindM_ok _ _ _ _ _ (cell_ok _ _ _ _ Hh)). cbn [op block].
  destruct (Z.eqb_spec (generation (op x)) usize_max) as [Hg|Hg].
  { unfold prepareIocpOperationSubmission. cbn. rewrite Hprep, Hacc, Hg. cbn.
    by rewrite (bindM_ok _ _ _ _ _ (store_ok _ _ _ _ _ Hh)). }
  assert (ready (op x)) as Hready by done.
  pose proof (prepare_ready c (op x) Hready) as Hok. destruct (prepareIocpOperationSubmission (set_request c (op x))) as [ok p] eqn:Ep.
  cbn in Hok. subst ok. rewrite (bindM_ok _ _ _ _ _ (store_ok _ _ _ _ _ Hh)). cbn [negb].
  destruct refused as [err|].
  { rewrite (bindM_ok _ _ _ _ _ (store_ok _ _ _ _ _ Hh)), (bindM_ok _ _ _ _ _ (store_ok _ _ _ _ _ Hh)).
    unfold refused_op. rewrite Ep. done. }
  set (wk := started o key (c, registration_of c (registry w)) w). set (y := mkCell (block x) (tickets (engine w)) (op x)).
  rewrite bind_get, (bindM_ok _ _ _ tt (with_op o y p wk)).
  2:{ rewrite on_engine_modify, start_with_op. done. }
  change (block x) with (block y).
  assert (submissionPrepared p = true /\ submissionAccepted p = false /\ channel p = c) as (H1 & H2 & H3).
  { unfold prepareIocpOperationSubmission in Ep. cbn in Ep. rewrite Hprep, Hacc in Ep. cbn in Ep.
    destruct (Z.eqb_spec (generation (op x)) usize_max); [done|]. injection Ep as <-. done. }
  erewrite bindM_ok by (apply retain_spec; [done|done|done|done|done|by rewrite H3]).
  unfold ret, taken, submitted_op. rewrite Ep, start_with_op. done.
Qed.

Lemma track_spec o x w :
  storage (engine w) !! o = Some x -> held (block x) (engine w) = true -> phase_ w <> EngineShutdown ->
  op_ok (op x) -> submissionAccepted (op x) = true ->
  noexcept (trackCompletionOperation o) w =
    (Ok tt, if shutdownObligation (op x) then w
            else with_op o x (set_obligation true (op x))
              (set_engine (set_retained (retainedOperations_ (engine w)) (outstandingOperationCount_ (engine w) + 1) (engine w)) w)).
Proof.
  intros Hx Hh Hp Hok Ha. destruct (op_accepted _ Hok Ha) as (Hg & Ho & _).
  assert (commitNativeCompletionCancellation o w =
    (Ok true, if shutdownObligation (op x) then w
            else with_op o x (set_obligation true (op x))
              (set_engine (set_retained (retainedOperations_ (engine w)) (outstandingOperationCount_ (engine w) + 1) (engine w)) w))) as Hc.
  { rewrite (with_op_id o x w Hx) at 1. unfold commitNativeCompletionCancellation.
    rewrite (bindM_ok _ _ _ _ _ (cell_ok _ _ _ _ Hh)). cbn [op]. rewrite Ha, Ho. cbn.
    destruct (Z.eqb_spec (terminalGeneration (op x)) (generation (op x))); [lia|].
    destruct (shutdownObligation (op x)).
    - unfold bindM, ret. by rewrite <- (with_op_id o x w Hx).
    - erewrite bindM_ok; [done|]. by rewrite (bindM_ok _ _ _ _ _ (store_ok _ _ _ _ _ Hh)). }
  set (w' := if shutdownObligation (op x) then w else _) in Hc |- *. unfold noexcept, trackCompletionOperation.
  rewrite (bindM_ok _ _ _ IoAccepted w'); [done|].
  unfold commitCompletionCancellation. rewrite bind_get, bool_decide_false by done. by rewrite (bindM_ok _ _ _ _ _ Hc).
Qed.

(** *** Decoding a completion *)

(** The observer is still registered for the socket it was captured with. *)
Definition observed (key : Z) (p : IocpOperation) (r : Registry) : bool :=
  (key =? observerSource p) && negb (observerSource p =? kInvalidSocket) &&
  match channel p with Some c => registered_at (observerSource p) c r | None => false end.

Definition error_of (overlapped : Z) (p : IocpOperation) (registered : bool) : Z :=
  if Internal p =? 0 then 0
  else if Internal p =? kStatusCancelled then ERROR_OPERATION_ABORTED
  else if registered then overlapped else ERROR_GEN_FAILURE.

Definition ended (bytes err : Z) (p : IocpOperation) : IocpOperation :=
  set_obligation false (set_submission (generation p) (generation p) false false true (set_status (Internal p) bytes err p)).

Definition notice_of (overlapped key : Z) (o : nat) (bytes : Z) (x : Cell) (r : Registry) : CompletionNotice :=
  let p := op x in
  let registered := observed key p r in
  let err := error_of overlapped p registered in
  mkNotice (o, generation p) (kind p) (if registered then channel p else None) (observerSource p) (observerRegistrationGeneration p)
    bytes err (completionStatus err) (completionConsumer p) (block x) (ticket x).

Definition less (x : Cell) (w : World) : World :=
  set_engine (set_retained (retainedOperations_ (engine w))
    (outstandingOperationCount_ (engine w) - (if shutdownObligation (op x) then 1 else 0)) (engine w)) w.

Definition decoded (overlapped key : Z) (o : nat) (bytes : Z) (x : Cell) (w : World) : World :=
  let nt := notice_of overlapped key o bytes x (registry w) in
  set_engine (deliver nt (engine (with_op o x (ended bytes (nativeError nt) (op x)) (less x w)))) w.

Lemma completion_error_spec overlapped p registered w :
  (registered = true -> exists c, channel p = Some c /\ is_Some (channels (registry w) !! c)) ->
  completionError overlapped p registered w = (Ok (error_of overlapped p registered), w).
Proof.
  intros H. unfold completionError, error_of. destruct (Internal p =? 0); [done|].
  destruct (Internal p =? kStatusCancelled); [done|].
  destruct registered; [|by destruct (channel p)]. destruct H as (c & -> & ch & Hch); [done|].
  unfold the_channel. rewrite (bindM_ok _ _ _ ch w); [done|]. rewrite bind_get, Hch. done.
Qed.

Lemma observed_channel key p r : registry_ok r -> observed key p r = true ->
  exists c, channel p = Some c /\ is_Some (channels r !! c).
Proof.
  intros Hr Ho. unfold observed in Ho. destruct (channel p) as [c|]; [|by rewrite andb_false_r in Ho].
  apply andb_prop in Ho as [_ Ho]. unfold registered_at in Ho. apply bool_decide_eq_true in Ho.
  destruct (ok_registered r Hr _ _ Ho) as (ch & Hch & _). eauto.
Qed.

Lemma release_spec o x p w :
  held (block x) (engine w) = true -> shutdownObligation p = shutdownObligation (op x) ->
  (shutdownObligation p = true -> outstandingOperationCount_ (engine w) <> 0) ->
  release_obligation o p (with_op o x p w) = (Ok tt, with_op o x (set_obligation false p) (less x w)).
Proof.
  intros Hh Hob Hne. unfold release_obligation. destruct (shutdownObligation p) eqn:E.
  - rewrite (bindM_ok _ _ _ _ _ (store_ok _ _ _ _ _ Hh)), bind_get. cbn.
    destruct (Z.eqb_spec (outstandingOperationCount_ (engine w)) 0); [by destruct Hne|].
    unfold less. rewrite <- Hob. done.
  - unfold ret, less. rewrite <- Hob, Z.sub_0_r. f_equal. unfold with_op, set_obligation. destruct p; cbn in *; subst. by destruct w as [[]].
Qed.

Lemma decode_operation_spec n overlapped key o bytes x w :
  storage (engine w) !! o = Some x -> held (block x) (engine w) = true -> op_ok (op x) -> submissionAccepted (op x) = true ->
  registry_ok (registry w) -> (length (notices (engine w)) < n)%nat ->
  (shutdownObligation (op x) = true -> outstandingOperationCount_ (engine w) <> 0) ->
  decode_operation n overlapped key o bytes w = (Ok tt, decoded overlapped key o bytes x w).
Proof.
  intros Hx Hh Hok Ha Hr Hn Hout. destruct (op_accepted _ Hok Ha) as (Hg & Hobs & Hcap). pose proof (op_generations _ Hok).
  rewrite (with_op_id o x w Hx) at 1. unfold decode_operation.
  rewrite (bindM_ok _ _ _ _ _ (cell_ok _ _ _ _ Hh)). cbn [op block ticket]. rewrite Ha, Hcap. cbn [negb orb].
  destruct (Z.eqb_spec (generation (op x)) 0); [lia|]. destruct (Z.eqb_spec (terminalGeneration (op x)) (generation (op x))); [lia|]. cbn [orb].
  rewrite (bindM_ok _ _ _ (observerRegistrationGeneration (op x)) (with_op o x (op x) w)) by (by destruct (channel (op x))).
  rewrite bind_get. fold (observed key (op x) (registry (with_op o x (op x) w))). change (registry (with_op o x (op x) w)) with (registry w).
  set (reg := observed key (op x) (registry w)).
  rewrite (bindM_ok _ _ _ _ _ (store_ok _ _ _ _ _ Hh)).
  rewrite (bindM_ok _ _ _ _ _ (completion_error_spec overlapped (op x) reg (with_op o x (set_status (Internal (op x)) bytes (error (op x)) (op x)) w) (observed_channel key (op x) (registry w) Hr))).
  set (err := error_of overlapped (op x) reg).
  rewrite (bindM_ok _ _ _ _ _ (store_ok _ _ _ _ _ Hh)), (bindM_ok _ _ _ _ _ (cell_ok _ _ _ _ Hh)). cbn [op].
  unfold retireIocpOperationSubmission. cbn. rewrite Ha. cbn.
  destruct (Z.eqb_spec (generation (op x)) 0); [lia|]. destruct (Z.eqb_spec (terminalGeneration (op x)) (generation (op x))); [lia|]. cbn.
  rewrite (bindM_ok _ _ _ _ _ (store_ok _ _ _ _ _ Hh)).
  erewrite bindM_ok by (apply release_spec; [done|done|done]). rewrite bind_get.
  cbn [engine with_op set_engine notices set_storage less set_retained]. destruct (Nat.leb_spec n (length (notices (engine w)))); [lia|].
  unfold throw_if, bindM, ret. rewrite on_engine_modify. unfold decoded, notice_of. fold reg err. done.
Qed.

(** *** The table of operations *)

Definition put (o : nat) (x : Cell) (p : IocpOperation) (e : Engine) : Engine :=
  set_storage (<[o := mkCell (block x) (ticket x) p]> (storage e)) e.

Lemma live_put o x p e :
  live (put o x p e) = if submissionAccepted p then <[o := (block x, ticket x)]> (live e) else delete o (live e).
Proof. unfold live. cbn. rewrite omap_insert. cbn. by destruct (submissionAccepted p). Qed.

Lemma live_put_same o x p e :
  storage e !! o = Some x -> submissionAccepted p = submissionAccepted (op x) -> live (put o x p e) = live e.
Proof.
  intros Hx Hp. rewrite live_put, Hp. pose proof (live_accepted e o x Hx) as Hl. destruct (submissionAccepted (op x)).
  - by apply insert_id.
  - by apply delete_id.
Qed.

Lemma ops_put o x p e :
  (forall o x, storage e !! o = Some x -> op_ok (op x)) -> op_ok p -> forall o' x', storage (put o x p e) !! o' = Some x' -> op_ok (op x').
Proof. intros H Hp o' x' Hx. cbn in Hx. apply lookup_insert_Some in Hx as [[<- <-]|[_ Hx]]; eauto. Qed.

Lemma obligations_put o x p e :
  storage e !! o = Some x ->
  tally (fun x => shutdownObligation (op x)) (storage (put o x p e)) =
  tally (fun x => shutdownObligation (op x)) (storage e) - (if shutdownObligation (op x) then 1 else 0) + (if shutdownObligation p then 1 else 0).
Proof. intros Hx. unfold tally. cbn. by rewrite (msum_update _ _ _ x). Qed.

Lemma engine_live n e e' :
  engine_ok n e -> table_ok e' -> live e' = live e -> notices e' = notices e -> noticeLifetimes e' = noticeLifetimes e ->
  directNoticeCursor e' = directNoticeCursor e -> nativeEntries e' = nativeEntries e -> consuming e' = consuming e ->
  submissions e' = submissions e -> delivered e' = delivered e -> consumed e' = consumed e -> engine_ok n e'.
Proof.
  intros (_ & Hb & Ht & Hc) H Hl Hn Hnl Hcur Hen Hcons Htk Hd Hcd. split; [done|].
  unfold batch_ok, entries, tickets_ok, tickets, consumed_ok, direct, pending in *. rewrite Hl, Hn, Hnl, Hcur, Hen, Hcons, Htk, Hd, Hcd. done.
Qed.

(** An operation changes, but neither its submission nor its obligation. *)
Lemma engine_put n o x p e :
  engine_ok n e -> storage e !! o = Some x -> op_ok p -> submissionAccepted p = submissionAccepted (op x) ->
  shutdownObligation p = shutdownObligation (op x) -> engine_ok n (put o x p e).
Proof.
  intros H Hx Hp Ha Ho. pose proof (live_put_same o x p e Hx Ha) as Hl. eapply engine_live; try done.
  destruct H as [(Hr & Hops & Ht & Hout) _]. split_and!.
  - by rewrite Hl.
  - by apply ops_put.
  - intros o'. rewrite Hl. apply Ht.
  - rewrite (obligations_put o x p e Hx), Ho, <- Hout. cbn. lia.
Qed.

(** A shutdown waits for it from now on. *)
Lemma engine_track n o x e :
  engine_ok n e -> storage e !! o = Some x -> submissionAccepted (op x) = true -> shutdownObligation (op x) = false ->
  engine_ok n (put o x (set_obligation true (op x)) (set_retained (retainedOperations_ e) (outstandingOperationCount_ e + 1) e)).
Proof.
  intros H Hx Ha Ho. set (p := set_obligation true (op x)).
  assert (live (put o x p e) = live e) as Hl by (by apply live_put_same).
  eapply engine_live; try done. destruct H as [(Hr & Hops & Ht & Hout) _]. split_and!.
  - change (retainedOperations_ e = fst <$> live (put o x p e)). by rewrite Hl.
  - apply (ops_put o x p e Hops). destruct (Hops o x Hx). constructor; try done.
  - intros o'. change (tokens o' e = if live (put o x p e) !! o' is Some _ then 1%nat else 0%nat). rewrite Hl. apply Ht.
  - change (outstandingOperationCount_ e + 1 = tally (fun x => shutdownObligation (op x)) (storage (put o x p e))).
    rewrite (obligations_put o x p e Hx), Ho, <- Hout. cbn. lia.
Qed.

Lemma tokens_none e o : table_ok e -> live e !! o = None ->
  inflight e !! o = None /\ occurrences (about o) (packets e) = 0%nat /\ occurrences (about o) (entries e) = 0%nat.
Proof.
  intros (_ & _ & Ht & _) Hl. specialize (Ht o). rewrite Hl in Ht. unfold tokens in Ht. destruct (inflight e !! o); [lia|]. split; [done|lia].
Qed.

(** The system takes a submission. *)
Lemma engine_taken n o x p key sub e :
  engine_ok n e -> storage e !! o = Some x -> submissionAccepted (op x) = false -> shutdownObligation p = false ->
  op_ok p -> submissionAccepted p = true ->
  engine_ok n (start o key sub (put o x p (set_retained (<[o := block x]> (retainedOperations_ e)) (outstandingOperationCount_ e) e))).
Proof.
  intros (Htab & Hb & Ht & Hc) Hx Ha Hob Hp Hacc.
  set (e' := start _ _ _ _). set (y := mkCell (block x) (tickets e) p).
  assert (storage e' = <[o := y]> (storage e)) as Hs by (subst e'; cbn; rewrite alter_insert_eq; done).
  assert (live e !! o = None) as Hl0 by (by rewrite (live_accepted e o x Hx), Ha).
  assert (live e' = <[o := (block x, tickets e)]> (live e)) as Hl.
  { unfold live. rewrite Hs, omap_insert. cbn. by rewrite Hacc. }
  destruct (tokens_none e o Htab Hl0) as (Hi0 & Hp0 & He0).
  destruct Htab as (Hr & Hops & Htok & Hout). split_and!.
  - split_and!.
    + rewrite Hl, fmap_insert, <- Hr. done.
    + intros o' x' Hx'. rewrite Hs in Hx'. apply lookup_insert_Some in Hx' as [[<- <-]|[_ Hx']]; eauto.
    + intros o'. rewrite Hl. specialize (Htok o'). unfold tokens in *.
      change (inflight e') with (<[o := key]> (inflight e)). change (packets e') with (packets e). change (entries e') with (entries e).
      destruct (decide (o' = o)) as [->|Hne].
      * rewrite !lookup_insert_eq. lia.
      * rewrite !lookup_insert_ne by done. exact Htok.
    + rewrite Hs. unfold tally. rewrite (msum_update _ _ _ x) by done. cbn. rewrite Hob.
      assert (shutdownObligation (op x) = false) as ->.
      { destruct (shutdownObligation (op x)) eqn:E; [|done]. apply (op_obligation _ (Hops o x Hx)) in E. congruence. }
      rewrite Hout. unfold tally. lia.
  - exact Hb.
  - destruct Ht as (T1 & T2 & T3 & T4 & T5).
    assert (tickets e' = S (tickets e)) as Hn by (unfold tickets; cbn; rewrite length_app; cbn; lia). assert (delivered e' = delivered e) as Hd by done.
    unfold tickets_ok. rewrite Hl, Hn, Hd. split_and!.
    + intros o' b t Hl'. apply lookup_insert_Some in Hl' as [[<- [= <- <-]]|[_ Hl']].
      * split; [lia|]. intros Hin. specialize (T4 _ Hin). lia.
      * destruct (T1 _ _ _ Hl'). split; [lia|done].
    + intros o1 b1 o2 b2 t H1 H2. apply lookup_insert_Some in H1 as [[<- [= <- <-]]|[_ H1]]; apply lookup_insert_Some in H2 as [[<- [= <-]]|[_ H2]]; try done.
      * destruct (T1 _ _ _ H2). lia.
      * subst. destruct (T1 _ _ _ H1). lia.
      * by eapply T2.
    + done.
    + intros t Hin. specialize (T4 _ Hin). lia.
    + intros t Hlt. destruct (decide (t = tickets e)) as [->|Hne]; [right; exists o, (block x); apply lookup_insert_eq|].
      destruct (T5 t ltac:(lia)) as [?|(o' & b & Ho')]; [by left|right]. exists o', b. rewrite lookup_insert_ne; [done|]. intros <-. congruence.
  - exact Hc.
Qed.

(** *** Packets *)

(** Packets move, and tokens do not change. *)
Lemma engine_system n m ps en e :
  engine_ok n e -> (forall o, tokens o (set_system m ps en e) = tokens o e) ->
  (length (notices e) + length (default [] en) <= n)%nat -> (forall b, consuming e = Some b -> en = None) ->
  engine_ok n (set_system m ps en e).
Proof.
  intros ((Hr & Hops & Ht & Hout) & (B1 & B2 & B3 & B4 & B5) & Htk & Hc) Htok Hlen Hcons. split_and!; [|split_and!| |]; try done.
  - split_and!; try done. intros o. rewrite Htok. apply Ht.
  - intros b Hb. split; [by eapply Hcons|by apply B5].
Qed.

Lemma engine_complete n o key st bytes e :
  engine_ok n e -> inflight e !! o = Some key ->
  exists x, storage e !! o = Some x /\ submissionAccepted (op x) = true /\
    complete o key st bytes e = (Ok tt, set_system (delete o (inflight e)) (packets e ++ [Completion key o bytes]) (nativeEntries e)
      (put o x (set_status st (bytesTransferred (op x)) (error (op x)) (op x)) e)) /\
    engine_ok n (complete o key st bytes e).2.
Proof.
  intros H Hi. destruct H as [Htab Hrest] eqn:E. clear E. destruct Htab as (Hr & Hops & Ht & Hout) eqn:E. clear E.
  assert (is_Some (live e !! o)) as [[b t] Hl].
  { specialize (Ht o). unfold tokens in Ht. rewrite Hi in Ht. destruct (live e !! o); [done|lia]. }
  apply live_spec in Hl as (x & Hx & Ha & _). exists x. split; [done|]. split; [done|].
  destruct (accepted_held e o x Htab Hx Ha) as [_ Hh].
  assert (complete o key st bytes e = (Ok tt, set_system (delete o (inflight e)) (packets e ++ [Completion key o bytes]) (nativeEntries e)
      (put o x (set_status st (bytesTransferred (op x)) (error (op x)) (op x)) e))) as Heq.
  { unfold complete, store, cell, bindM, get. cbn -[held]. by rewrite Hx, Hh. }
  split; [done|]. rewrite Heq. cbn [snd]. apply engine_system.
  - apply engine_put; [done|done| |done|done]. destruct (Hops o x Hx). by constructor.
  - intros o'. unfold tokens. cbn [inflight set_system put set_storage packets entries nativeEntries].
    rewrite occurrences_app, occurrences_cons. cbn [about]. change (occurrences (about o') []) with 0%nat.
    destruct (decide (o' = o)) as [->|Hne].
    + rewrite lookup_delete_eq, Hi, Nat.eqb_refl. unfold entries. cbn. lia.
    + rewrite lookup_delete_ne by done. destruct (Nat.eqb_spec o o'); [congruence|]. unfold entries. cbn. lia.
  - apply Hrest.
  - intros b' Hb. destruct Hrest as ((_ & _ & _ & _ & B5) & _). by apply (B5 b').
Qed.

Lemma pending_direct_none e : pendingDirectCompletionNoticeCount e = 0%nat -> direct e = [].
Proof.
  unfold pendingDirectCompletionNoticeCount, direct. intros H. apply nil_length_inv in H.
  induction (pending e) as [|nt l IH]; [done|]. rewrite filter_cons in H. destruct (decide (consumer nt = true)) as [Hc|Hc]; [done|].
  cbn [List.filter]. destruct (consumer nt); [done|]. by apply IH.
Qed.

Lemma engine_retire n e :
  engine_ok n e -> direct e = [] -> consuming e = None -> engine_ok n (retireCompletionNoticeLeases e).
Proof.
  intros (Htab & (B1 & B2 & B3 & B4 & B5) & Htk & Hc) Hd Hcons. split_and!; try done. split_and!; try done.
  - cbn. by rewrite length_map.
  - intros i nt Hi Hnt Hct. exfalso. cbn in Hi, Hnt.
    assert (nt ∈ direct e) as Hin; [|rewrite Hd in Hin; by apply elem_of_nil in Hin].
    unfold direct. apply list_elem_of_In, List.filter_In. split; [|done]. apply list_elem_of_In. unfold pending.
    apply (list_elem_of_lookup_2 _ (i - directNoticeCursor e)). rewrite lookup_drop. rewrite <- Hnt. f_equal. lia.
  - intros b Hb. cbn in Hb. congruence.
Qed.

Lemma engine_wait n k e :
  engine_ok n e -> nativeEntries e = None -> direct e = [] -> consuming e = None -> (k <= n)%nat -> engine_ok n (wait_begin n k e).
Proof.
  intros (Htab & (B1 & B2 & B3 & B4 & B5) & Htk & Hc) Hen Hd Hcons Hk.
  assert (engine_ok n (set_notices [] [] 0 e)) as H0.
  { split_and!; try done.
    - split_and!; try done. { cbn. unfold entries. cbn. rewrite Hen. cbn. lia. } { intros b Hb. cbn in Hb. congruence. }
    - unfold consumed_ok. change (delivered _) with (delivered e). rewrite Hc, Hd. done. }
  unfold wait_begin. change (set_notices [] [] 0 (retireCompletionNoticeLeases e)) with (set_notices [] [] 0 e).
  change (inflight (set_notices [] [] 0 e)) with (inflight e). change (packets (set_notices [] [] 0 e)) with (packets e).
  assert (engine_ok n (set_system (inflight e) (drop k (packets e)) (Some (take k (packets e))) (set_notices [] [] 0 e))) as H1; [|exact H1].
  apply engine_system; [done| | |].
  - intros o. unfold tokens, entries. cbn [inflight set_system set_notices packets nativeEntries default]. rewrite Hen. cbn [default].
    rewrite <- (occurrences_split (about o) k (packets e)). unfold occurrences. cbn. lia.
  - cbn. rewrite length_take. lia.
  - intros b Hb. cbn in Hb. congruence.
Qed.

(** The first entry, a wake-up, has been taken off. *)
Lemma engine_skip n ps e :
  engine_ok n e -> nativeEntries e = Some (Wakeup :: ps) -> engine_ok n (set_system (inflight e) (packets e) (Some ps) e).
Proof.
  intros H Hen. apply engine_system; [done| | |].
  - intros o. unfold tokens, entries. cbn [inflight set_system packets nativeEntries default]. rewrite Hen. cbn. done.
  - destruct H as (_ & (_ & _ & B3 & _) & _). unfold entries in B3. rewrite Hen in B3. cbn in B3 |- *. lia.
  - intros b Hb. destruct H as (_ & (_ & _ & _ & _ & B5) & _). destruct (B5 b Hb). congruence.
Qed.

Lemma engine_post n e : engine_ok n e -> engine_ok n (set_system (inflight e) (packets e ++ [Wakeup]) (nativeEntries e) e).
Proof.
  intros H. apply engine_system; [done| | |].
  - intros o. unfold tokens, entries. cbn [inflight set_system packets nativeEntries]. rewrite occurrences_app. unfold occurrences. cbn. lia.
  - apply H.
  - intros b Hb. destruct H as (_ & (_ & _ & _ & _ & B5) & _). by apply (B5 b).
Qed.

(** The wait returns. *)
Lemma engine_waited n e : engine_ok n e -> nativeEntries e = Some [] -> engine_ok n (set_system (inflight e) (packets e) None e).
Proof.
  intros H Hen. apply engine_system; [done| | |done].
  - intros o. unfold tokens, entries. cbn [inflight set_system packets nativeEntries]. by rewrite Hen.
  - destruct H as (_ & (_ & _ & B3 & _) & _). cbn in *. lia.
Qed.

(** *** Notices *)

Lemma direct_app nt e ls r out :
  (directNoticeCursor e <= length (notices e))%nat ->
  direct (set_notices (notices e ++ [nt]) ls (directNoticeCursor e) (set_retained r out e)) = direct e ++ (if consumer nt then [nt] else []).
Proof.
  intros Hc. unfold direct, pending. cbn. rewrite drop_app_le by done. rewrite List.filter_app. cbn. by destruct (consumer nt).
Qed.

Lemma engine_delivered n key o bytes ps x p nt e :
  engine_ok n e -> nativeEntries e = Some (Completion key o bytes :: ps) -> storage e !! o = Some x -> submissionAccepted (op x) = true ->
  op_ok p -> submissionAccepted p = false -> shutdownObligation p = false ->
  (identity nt).1 = o -> context nt = block x -> notice_ticket nt = ticket x ->
  engine_ok n (deliver nt (put o x p (set_retained (retainedOperations_ e)
    (outstandingOperationCount_ e - (if shutdownObligation (op x) then 1 else 0)) (set_system (inflight e) (packets e) (Some ps) e)))).
Proof.
  intros (Htab & (B1 & B2 & B3 & B4 & B5) & (T1 & T2 & T3 & T4 & T5) & Hc) Hen Hx Ha Hp Hpa Hpo Hid Hctx Htkt.
  destruct (accepted_held e o x Htab Hx Ha) as [Hret Hheld].
  assert (live e !! o = Some (block x, ticket x)) as Hlo by (by rewrite (live_accepted e o x Hx), Ha).
  set (e' := deliver _ _).
  assert (live e' = delete o (live e)) as Hl.
  { change (live e') with (live (put o x p e)). by rewrite live_put, Hpa. }
  destruct Htab as (Hr & Hops & Htok & Hout). split_and!.
  - split_and!.
    + rewrite Hl, fmap_delete, <- Hr. cbn. by rewrite Hid.
    + change (storage e') with (storage (put o x p e)). by apply ops_put.
    + intros o'. rewrite Hl. specialize (Htok o'). unfold tokens in *. assert (entries e = Completion key o bytes :: ps) as He by (unfold entries; by rewrite Hen).
      rewrite He, occurrences_cons in Htok. cbn [about] in Htok. change (inflight e') with (inflight e). change (packets e') with (packets e).
      change (entries e') with ps. destruct (decide (o' = o)) as [->|Hne].
      * rewrite lookup_delete_eq. rewrite Hlo, Nat.eqb_refl in Htok. lia.
      * rewrite lookup_delete_ne by done. destruct (Nat.eqb_spec o o'); [congruence|]. exact Htok.
    + change (storage e') with (storage (put o x p e)). rewrite (obligations_put o x p e Hx), Hpo, <- Hout.
      change (outstandingOperationCount_ e') with (outstandingOperationCount_ e - (if shutdownObligation (op x) then 1 else 0)). lia.
  - change (noticeLifetimes e') with (noticeLifetimes e ++ [retainedOperations_ e !! (identity nt).1]).
    change (notices e') with (notices e ++ [nt]).
    assert (entries e' = ps) as He by done. unfold entries in B3. rewrite Hen in B3. cbn in B3.
    unfold batch_ok. change (noticeLifetimes e') with (noticeLifetimes e ++ [retainedOperations_ e !! (identity nt).1]).
    change (notices e') with (notices e ++ [nt]). change (directNoticeCursor e') with (directNoticeCursor e).
    change (consuming e') with (consuming e). rewrite He, Hid, Hret, !length_app. cbn. split_and!; [lia|lia|lia| |].
    + intros i nt' Hi Hnt Hct. apply lookup_app_Some in Hnt as [Hnt|[Hge Hnt]].
      * apply lookup_app_l_Some. by apply B4.
      * rewrite lookup_app_r by lia. rewrite B1. destruct (i - length (notices e))%nat; cbn in *; [|done]. injection Hnt as <-. by rewrite Hctx.
    + intros b Hb. destruct (B5 b Hb). congruence.
  - unfold tickets_ok. rewrite Hl. change (tickets e') with (tickets e). change (delivered e') with (delivered e ++ [(notice_ticket nt, consumer nt)]).
    rewrite fmap_app. cbn. rewrite Htkt. destruct (T1 _ _ _ Hlo) as [Hlt Hnin]. split_and!.
    + intros o' b t Hl'. apply lookup_delete_Some in Hl' as [Hne Hl']. destruct (T1 _ _ _ Hl'). split; [done|].
      rewrite not_elem_of_app. split; [done|]. intros Hin. apply list_elem_of_singleton in Hin as ->. apply Hne. by eapply T2.
    + intros o1 b1 o2 b2 t H1 H2. apply lookup_delete_Some in H1 as [_ H1]. apply lookup_delete_Some in H2 as [_ H2]. by eapply T2.
    + apply NoDup_app. split; [done|]. split; [|apply NoDup_singleton]. intros t Hin Hin2. apply list_elem_of_singleton in Hin2 as ->. done.
    + intros t Hin. apply elem_of_app in Hin as [Hin|Hin]; [by apply T4|]. by apply list_elem_of_singleton in Hin as ->.
    + intros t Hlt'. destruct (T5 t Hlt') as [Hin|(o' & b & Ho')].
      * left. apply elem_of_app. by left.
      * destruct (decide (o' = o)) as [->|Hne].
        -- left. apply elem_of_app. right. rewrite Hlo in Ho'. injection Ho' as _ <-. by apply list_elem_of_singleton.
        -- right. exists o', b. by rewrite lookup_delete_ne.
  - unfold consumed_ok. change (delivered e') with (delivered e ++ [(notice_ticket nt, consumer nt)]). change (consumed e') with (consumed e).
    rewrite List.filter_app, fmap_app, Hc.
    pose proof (direct_app nt e (noticeLifetimes e') (retainedOperations_ e') (outstandingOperationCount_ e') B2) as Hd.
    change (direct e') with (direct (set_notices (notices e ++ [nt]) (noticeLifetimes e') (directNoticeCursor e) (set_retained (retainedOperations_ e') (outstandingOperationCount_ e') e))).
    rewrite Hd, map_app, app_assoc. f_equal. cbn. by destruct (consumer nt).
Qed.

Lemma next_direct_spec l cur :
  match next_direct l cur with
  | (Some nt, cur') => consumer nt = true /\ exists pre post, l = pre ++ nt :: post /\ cur' = (cur + S (length pre))%nat /\
      List.filter consumer pre = []
  | (None, cur') => List.filter consumer l = [] /\ cur' = (cur + length l)%nat
  end.
Proof.
  revert cur. induction l as [|nt l IH]; intros cur; cbn; [split; [done|lia]|].
  destruct (consumer nt) eqn:E.
  - split; [done|]. exists [], l. cbn. split_and!; [done|lia|done].
  - specialize (IH (S cur)). destruct (next_direct l (S cur)) as [[nt'|] cur'].
    + destruct IH as [Hc (pre & post & -> & -> & Hf)]. split; [done|]. exists (nt :: pre), post. cbn. rewrite E. split_and!; [done|lia|done].
    + destruct IH as [Hf ->]. split; [done|lia].
Qed.

(** What [takeNextDirectCompletionNotice] leaves behind. *)
Lemma take_spec n e :
  engine_ok n e -> consuming e = None -> nativeEntries e = None ->
  match takeNextDirectCompletionNotice e with
  | (Ok (Some nt), e') => nt ∈ direct e /\ consumer nt = true /\ Some (context nt) ∈ noticeLifetimes e /\ (exists c, e' = set_notices (notices e) (noticeLifetimes e) c e) /\
      engine_ok n (set_consuming (Some (context nt)) (consumed e ++ [notice_ticket nt]) e')
  | (Ok None, e') => engine_ok n e' /\ direct e = [] /\ exists c, e' = set_notices (notices e) (noticeLifetimes e) c e
  | _ => False
  end.
Proof.
  intros (Htab & (B1 & B2 & B3 & B4 & B5) & Htk & Hc) Hcons Hen. unfold takeNextDirectCompletionNotice, bindM, get, modify, ret.
  pose proof (next_direct_spec (pending e) (directNoticeCursor e)) as Hnext.
  destruct (next_direct (pending e) (directNoticeCursor e)) as [[nt|] cur].
  - destruct Hnext as [Hcn (pre & post & Hpend & -> & Hpre)].
    assert (notices e !! (directNoticeCursor e + length pre)%nat = Some nt) as Hat.
    { rewrite <- lookup_drop. fold (pending e). rewrite Hpend. rewrite lookup_app_r by lia. by rewrite Nat.sub_diag. }
    assert (direct e = nt :: List.filter consumer post) as Hdir by (unfold direct; rewrite Hpend, List.filter_app, Hpre; cbn; by rewrite Hcn).
    assert (Some (context nt) ∈ noticeLifetimes e) as Hlease by (eapply list_elem_of_lookup_2, B4; [|done|done]; lia).
    assert (drop (directNoticeCursor e + S (length pre)) (notices e) = post) as Hdrop.
    { rewrite <- drop_drop. fold (pending e). rewrite Hpend. change (nt :: post) with ([nt] ++ post). rewrite app_assoc.
      rewrite drop_app_length'; [done|]. rewrite length_app. cbn. lia. }
    split; [rewrite Hdir; by constructor|]. split; [done|]. split; [done|]. split; [by eexists|]. split_and!; [done| |done|].
    + split_and!; [done| |exact B3| |].
      * cbn. apply lookup_lt_Some in Hat. lia.
      * intros i nt' Hi. cbn in Hi |- *. intros Hnt. apply B4; [lia|done].
      * intros b [= <-]. done.
    + unfold consumed_ok, direct, pending. cbn. rewrite Hdrop, Hc, Hdir. cbn. by rewrite <- app_assoc.
  - destruct Hnext as [Hf ->]. split; [|split; [done|by eexists]]. split_and!; [done| |done|].
    + split_and!; [done| |exact B3| |exact B5].
      * cbn. unfold pending. rewrite length_drop. lia.
      * intros i nt' Hi. cbn in Hi |- *. intros Hnt. apply B4; [lia|done].
    + unfold consumed_ok, direct, pending in *. cbn. rewrite drop_ge by (rewrite length_drop; lia). rewrite Hc, Hf. done.
Qed.

(** *** Blocks *)

Lemma engine_fresh n o b p e :
  engine_ok n e -> (forall x, storage e !! o = Some x -> submissionAccepted (op x) = false) -> op_ok p -> submissionAccepted p = false ->
  engine_ok n (set_storage (<[o := mkCell b 0 p]> (storage e)) e).
Proof.
  intros H Ho Hp Hpa. set (e' := set_storage _ e).
  assert (shutdownObligation p = false) as Hpo.
  { destruct (shutdownObligation p) eqn:E; [|done]. apply (op_obligation _ Hp) in E. congruence. }
  assert (live e' = live e) as Hl.
  { unfold live. cbn. rewrite omap_insert. cbn. rewrite Hpa. apply delete_id. rewrite lookup_omap.
    destruct (storage e !! o) as [x|] eqn:Hx; [|done]. cbn. by rewrite (Ho x eq_refl). }
  eapply engine_live; try done. destruct H as [(Hr & Hops & Ht & Hout) _]. split_and!.
  - by rewrite Hl.
  - intros o' x' Hx'. cbn in Hx'. apply lookup_insert_Some in Hx' as [[<- <-]|[_ Hx']]; eauto.
  - intros o'. rewrite Hl. apply Ht.
  - change (outstandingOperationCount_ e') with (outstandingOperationCount_ e). rewrite Hout. subst e'. cbn. unfold tally.
    destruct (storage e !! o) as [x|] eqn:Hx.
    + rewrite (msum_update _ _ _ x) by done. cbn. rewrite Hpo. destruct (shutdownObligation (op x)) eqn:E; [|lia].
      apply (op_obligation _ (Hops o x Hx)) in E. rewrite (Ho x eq_refl) in E. done.
    + rewrite msum_new by done. cbn. rewrite Hpo. lia.
Qed.

Lemma new_operation_ok p : new_operation p = true -> op_ok p /\ submissionAccepted p = false.
Proof.
  unfold new_operation. rewrite !andb_true_iff, !negb_true_iff, !Z.eqb_eq. intros ((((H1 & H2) & H3) & H4) & H5).
  split; [|done]. constructor; [lia|done| |]; congruence.
Qed.

(** The addresses of a new block are those of no submitted operation. *)
Lemma block_free_dead n b l e o x :
  engine_ok n e -> block_free b l e = true -> o ∈ l -> storage e !! o = Some x -> submissionAccepted (op x) = false.
Proof.
  intros H Hfree Hin Hx. destruct (submissionAccepted (op x)) eqn:Ha; [|done]. exfalso.
  destruct (accepted_held e o x (proj1 H) Hx Ha) as [_ Hh].
  unfold block_free in Hfree. apply andb_prop in Hfree as [_ Hfree]. rewrite forallb_forall in Hfree.
  specialize (Hfree o ltac:(by apply list_elem_of_In)). rewrite Hx, Hh in Hfree. done.
Qed.

Lemma engine_new_block n b ops e :
  engine_ok n e -> block_free b (ops.*1) e = true -> forallb new_operation (ops.*2) = true ->
  engine_ok n (set_storage (new_cells b ops (storage e)) (set_owned ({[b]} ∪ owned e) e)).
Proof.
  intros H Hfree Hnew.
  assert (forall o x, o ∈ ops.*1 -> storage e !! o = Some x -> submissionAccepted (op x) = false) as Hdead by (intros o x; by eapply block_free_dead).
  clear Hfree. induction ops as [|[o p] ops IH]; [exact H|].
  cbn in Hnew. apply andb_prop in Hnew as [Hp Hnew]. destruct (new_operation_ok p Hp) as [Hok Hacc].
  assert (engine_ok n (set_storage (new_cells b ops (storage e)) (set_owned ({[b]} ∪ owned e) e))) as H1.
  { apply IH; [done|]. intros o' x Hin. apply Hdead. cbn. by constructor 2. }
  apply (engine_fresh n o b p _ H1); [|done|done]. cbn. intros x Hx.
  assert (forall m : gmap nat Cell, (forall x, m !! o = Some x -> submissionAccepted (op x) = false) ->
    forall l, forallb new_operation (l.*2) = true -> forall x, new_cells b l m !! o = Some x -> submissionAccepted (op x) = false) as Hgen.
  { intros m Hm l. induction l as [|[o' p'] l IHl]; [intros _; exact Hm|]. cbn. intros Hl y Hy. apply andb_prop in Hl as [Hp' Hl].
    apply lookup_insert_Some in Hy as [[_ <-]|[_ Hy]]; [cbn; by apply new_operation_ok|by eapply IHl]. }
  eapply (Hgen (storage e)); [|exact Hnew|exact Hx]. intros y Hy. apply (Hdead o); [cbn; by constructor|done].
Qed.

(** *** Channels *)

(** Channel [c] is registered under generation [g]. *)
Definition live_registration (c : nat) (g : Z) (r : Registry) : Prop :=
  exists ch, channels r !! c = Some ch /\ addedToLoop_ ch = true /\ registrationGeneration_ ch = g.

(** Generations go on, and no registration comes back. *)
Definition evolves (r r' : Registry) : Prop :=
  nextRegistrationGeneration r <= nextRegistrationGeneration r' /\
  forall c g, g < nextRegistrationGeneration r -> live_registration c g r' -> live_registration c g r.

Lemma evolves_reflexive r : evolves r r.
Proof. split; [lia|auto]. Qed.

Lemma evolves_transitive r1 r2 r3 : evolves r1 r2 -> evolves r2 r3 -> evolves r1 r3.
Proof. intros [H1 H2] [H3 H4]. split; [lia|]. intros c g Hg Hl. apply H2; [done|]. apply H4; [lia|done]. Qed.

Lemma alter_known {A} (f : A -> A) (c : nat) (m : gmap nat A) x : m !! c = Some x -> alter f c m = <[c := f x]> m.
Proof.
  intros Hx. apply map_eq. intros i. destruct (decide (i = c)) as [->|Hne].
  - by rewrite lookup_alter_eq, lookup_insert_eq, Hx.
  - by rewrite lookup_alter_ne, lookup_insert_ne.
Qed.

(** A channel changes, but not its registration. *)
Lemma registry_change r c ch ch' :
  registry_ok r -> channels r !! c = Some ch -> fd_ ch' = fd_ ch -> addedToLoop_ ch' = addedToLoop_ ch ->
  registrationGeneration_ ch' = registrationGeneration_ ch -> (index_ ch' = kNew <-> index_ ch = kNew) ->
  (index_ ch <> kNew -> index_ ch' = kAdded \/ index_ ch' = kDeleted) ->
  registry_ok (set_channels (<[c := ch']> (channels r)) r) /\ evolves r (set_channels (<[c := ch']> (channels r)) r).
Proof.
  intros [H1 H2 H3 H4 H5 H6 H7] Hch Hfd Hadd Hgen Hnew Hidx. split; [|split; [cbn; lia|]].
  - constructor; cbn.
    + intros fd c' Hc'. destruct (H1 fd c' Hc') as (y & Hy & Hyfd & Hya & Hyi). destruct (decide (c' = c)) as [->|Hne].
      * rewrite lookup_insert_eq. exists ch'. rewrite Hch in Hy. injection Hy as <-. split_and!; [done|congruence|congruence|].
        apply Hidx. unfold kNew, kAdded, kDeleted in *. lia.
      * rewrite lookup_insert_ne by done. eauto.
    + intros c' y Hy Hor. apply lookup_insert_Some in Hy as [[<- <-]|[_ Hy]]; [|eauto]. rewrite Hfd. apply H2; [done|]. rewrite Hadd in Hor.
      destruct Hor as [?|Hor]; [by left|right; tauto].
    + intros c' y Hy. apply lookup_insert_Some in Hy as [[<- <-]|[_ Hy]]; [rewrite Hfd|]; eauto.
    + done.
    + split; [apply H5|]. intros c' y Hy. apply lookup_insert_Some in Hy as [[<- <-]|[_ Hy]]; [rewrite Hgen|]; eapply H5; eauto.
    + intros c1 y1 c2 y2 Hy1 Hy2. apply lookup_insert_Some in Hy1 as [[<- <-]|[_ Hy1]]; apply lookup_insert_Some in Hy2 as [[<- <-]|[_ Hy2]]; [done| | |eauto].
      * rewrite Hadd, Hgen. by apply (H6 _ _ _ _ Hch Hy2).
      * rewrite Hgen. by apply (H6 _ _ _ _ Hy1 Hch).
    + intros c' y Hy. apply lookup_insert_Some in Hy as [[<- <-]|[_ Hy]]; [rewrite Hgen, Hadd|]; eauto.
  - intros c' g _ (y & Hy & Ha & Hg). cbn in Hy. apply lookup_insert_Some in Hy as [[<- <-]|[_ Hy]]; [|exists y; done].
    exists ch. split_and!; congruence.
Qed.

(** The registry a registration leaves. *)
Definition registered (c : nat) (ch : Channel) (r : Registry) : Registry :=
  mkRegistry (<[c := set_registered true (nextRegistrationGeneration r) (setIndex (if isNoneEvent ch then kDeleted else kAdded) ch)]> (channels r))
    (<[fd_ ch := c]> (channels_ r)) ({[fd_ ch]} ∪ associatedFds_ r) (nextRegistrationGeneration r + 1)
    (sockets r) ({[fd_ ch]} ∪ associated r).

Definition removed (c : nat) (ch : Channel) (r : Registry) : Registry :=
  mkRegistry (<[c := set_registered false (nextRegistrationGeneration r) (setIndex kNew ch)]> (channels r))
    (delete (fd_ ch) (channels_ r)) (associatedFds_ r ∖ {[fd_ ch]}) (nextRegistrationGeneration r + 1)
    (sockets r) (associated r).

Lemma registered_ok r c ch :
  registry_ok r -> channels r !! c = Some ch -> index_ ch = kNew -> channels_ r !! fd_ ch = None -> fd_ ch ∈ sockets r ->
  nextRegistrationGeneration r < usize_max -> registry_ok (registered c ch r) /\ evolves r (registered c ch r).
Proof.
  intros [H1 H2 H3 H4 H5 H6 H7] Hch Hidx Hfree Hs Hg.
  assert (addedToLoop_ ch = false) as Hna.
  { destruct (addedToLoop_ ch) eqn:E; [|done]. specialize (H2 c ch Hch (or_introl E)). congruence. }
  set (ch' := set_registered true (nextRegistrationGeneration r) (setIndex (if isNoneEvent ch then kDeleted else kAdded) ch)).
  assert (forall fd, channels_ r !! fd <> Some c) as Hnotc.
  { intros fd Hc. destruct (H1 fd c Hc) as (y & Hy & _ & Hya & _). congruence. }
  split; [constructor; cbn; fold ch'|split; [cbn; lia|]].
  - intros fd c' Hc'. apply lookup_insert_Some in Hc' as [[<- <-]|[Hne Hc']].
    + rewrite lookup_insert_eq. exists ch'. split_and!; [done|done|done|]. cbn. destruct (isNoneEvent ch); auto.
    + destruct (H1 fd c' Hc') as (y & Hy & Hrest). assert (c' <> c) by congruence. rewrite lookup_insert_ne by done. eauto.
  - intros c' y Hy Hor. apply lookup_insert_Some in Hy as [[<- <-]|[Hne Hy]]; [by rewrite lookup_insert_eq|].
    specialize (H2 c' y Hy Hor). assert (fd_ y <> fd_ ch) by congruence. by rewrite lookup_insert_ne.
  - intros c' y Hy. apply lookup_insert_Some in Hy as [[<- <-]|[_ Hy]]; [exact (H3 c ch Hch)|exact (H3 c' y Hy)].
  - destruct H4 as (A1 & A2 & A3 & A4). split_and!; [|set_solver|set_solver|done].
    intros fd c' Hc'. apply lookup_insert_Some in Hc' as [[<- <-]|[_ Hc']]; [set_solver|]. specialize (A1 fd c' Hc'). set_solver.
  - destruct H5 as [H5 H5']. split; [lia|]. intros c' y Hy. apply lookup_insert_Some in Hy as [[<- <-]|[_ Hy]]; [cbn; lia|]. specialize (H5' c' y Hy). lia.
  - intros c1 y1 c2 y2 Hy1 Hy2 Ha Heq. apply lookup_insert_Some in Hy1 as [[<- <-]|[_ Hy1]]; apply lookup_insert_Some in Hy2 as [[<- <-]|[_ Hy2]]; [done| | |eauto].
    + cbn in Heq. destruct H5 as [_ H5]. specialize (H5 _ _ Hy2). lia.
    + cbn in Heq. destruct H5 as [_ H5]. specialize (H5 _ _ Hy1). lia.
  - intros c' y Hy Ha. apply lookup_insert_Some in Hy as [[<- <-]|[_ Hy]]; [cbn; lia|eauto].
  - intros c' g Hlt (y & Hy & Ha & Hgy). cbn in Hy. apply lookup_insert_Some in Hy as [[<- <-]|[_ Hy]]; [cbn in Hgy; lia|by exists y].
Qed.

Lemma removed_registry_ok r c ch :
  registry_ok r -> channels r !! c = Some ch -> channels_ r !! fd_ ch = Some c ->
  nextRegistrationGeneration r < usize_max -> registry_ok (removed c ch r) /\ evolves r (removed c ch r).
Proof.
  intros [H1 H2 H3 H4 H5 H6 H7] Hch Hreg Hg.
  assert (forall fd c', channels_ r !! fd = Some c' -> fd <> fd_ ch -> c' <> c) as Hother.
  { intros fd c' Hc' Hne ->. destruct (H1 fd c Hc') as (y & Hy & Hfd & _). congruence. }
  set (ch' := set_registered false (nextRegistrationGeneration r) (setIndex kNew ch)).
  split; [constructor; cbn; fold ch'|split; [cbn; lia|]].
  - intros fd c' Hc'. apply lookup_delete_Some in Hc' as [Hne Hc']. rewrite lookup_insert_ne by (intros <-; by eapply Hother). by apply H1.
  - intros c' y Hy Hor. apply lookup_insert_Some in Hy as [[<- <-]|[Hne Hy]]; [by destruct Hor|].
    specialize (H2 c' y Hy Hor). rewrite lookup_delete_ne; [done|]. congruence.
  - intros c' y Hy. apply lookup_insert_Some in Hy as [[<- <-]|[_ Hy]]; [exact (H3 c ch Hch)|exact (H3 c' y Hy)].
  - destruct H4 as (A1 & A2 & A3 & A4). split_and!; [|set_solver|done|done].
    intros fd c' Hc'. apply lookup_delete_Some in Hc' as [Hne Hc']. specialize (A1 fd c' Hc'). set_solver.
  - destruct H5 as [H5 H5']. split; [lia|]. intros c' y Hy. apply lookup_insert_Some in Hy as [[<- <-]|[_ Hy]]; [cbn; lia|]. specialize (H5' c' y Hy). lia.
  - intros c1 y1 c2 y2 Hy1 Hy2 Ha Heq. apply lookup_insert_Some in Hy1 as [[<- <-]|[_ Hy1]]; [done|]. apply lookup_insert_Some in Hy2 as [[<- <-]|[_ Hy2]]; [|eauto].
    cbn in Heq. destruct H5 as [_ H5]. specialize (H5 _ _ Hy1). lia.
  - intros c' y Hy Ha. apply lookup_insert_Some in Hy as [[<- <-]|[_ Hy]]; [done|eauto].
  - intros c' g Hlt (y & Hy & Ha & Hgy). cbn in Hy. apply lookup_insert_Some in Hy as [[<- <-]|[_ Hy]]; [done|by exists y].
Qed.

Lemma the_channel_ok c ch w : channels (registry w) !! c = Some ch -> the_channel c w = (Ok ch, w).
Proof. intros H. unfold the_channel. by rewrite bind_get, H. Qed.

Lemma allocate_ok r : 1 <= nextRegistrationGeneration r -> nextRegistrationGeneration r < usize_max ->
  allocateRegistrationGeneration r = (Ok (nextRegistrationGeneration r), set_next (nextRegistrationGeneration r + 1) r).
Proof.
  intros H1 H2. unfold allocateRegistrationGeneration, bindM, get, modify. rewrite uwrap_small by lia.
  by destruct (Z.eqb_spec (nextRegistrationGeneration r) 0); [lia|].
Qed.

(** The result is an answer of the library, and only the registry changes, and stays well formed. *)
Definition registry_step (w : World) (res : result unit) (w' : World) : Prop :=
  (res = Ok tt \/ res = Throw logic_error) /\
  exists r, w' = set_registry r w /\ registry_ok r /\ evolves (registry w) r.

Lemma registry_step_same w res : registry_ok (registry w) -> res = Ok tt \/ res = Throw logic_error -> registry_step w res w.
Proof. intros Hr Hres. split; [done|]. exists (registry w). split_and!; [by destruct w|done|apply evolves_reflexive]. Qed.

Lemma registry_step_to w r : registry_ok r /\ evolves (registry w) r -> registry_step w (Ok tt) (set_registry r w).
Proof. intros [H1 H2]. split; [by left|]. by exists r. Qed.

Lemma advance_generation_ok c b ch w :
  registry_ok (registry w) -> nextRegistrationGeneration (registry w) < usize_max -> channels (registry w) !! c = Some ch ->
  advanceRegistrationGeneration c b w =
    (Ok tt, set_registry (set_channels (<[c := set_registered b (nextRegistrationGeneration (registry w)) ch]> (channels (registry w)))
       (set_next (nextRegistrationGeneration (registry w) + 1) (registry w))) w).
Proof.
  intros Hr Hg Hch. unfold advanceRegistrationGeneration.
  assert (on_registry allocateRegistrationGeneration w =
    (Ok (nextRegistrationGeneration (registry w)), set_registry (set_next (nextRegistrationGeneration (registry w) + 1) (registry w)) w)) as Ha.
  { unfold on_registry. rewrite allocate_ok; [done| |done]. apply (ok_generations _ Hr). }
  rewrite (bindM_ok _ _ _ _ _ Ha). unfold change. rewrite on_registry_modify. cbn.
  by rewrite (alter_known _ c _ ch).
Qed.

Lemma has_readiness_ok c ch w : channels (registry w) !! c = Some ch ->
  hasReadiness c w = (Ok (registered_at (fd_ ch) c (registry w)), w).
Proof. intros H. unfold hasReadiness. by rewrite (bindM_ok _ _ _ _ _ (the_channel_ok c ch w H)). Qed.

(** The poller and a channel that is new to it, or is not. *)
Lemma poller_update_new taken c ch w : (taken = false -> fd_ ch ∈ associatedFds_ (registry w)) ->
  channels (registry w) !! c = Some ch -> index_ ch = kNew -> channels_ (registry w) !! fd_ ch = None -> fd_ ch ∈ sockets (registry w) ->
  associatedFds_ (registry w) ⊆ associated (registry w) -> (fd_ ch ∈ associated (registry w) -> fd_ ch ∈ associatedFds_ (registry w)) ->
  poller_updateChannel taken c w =
    (Ok tt, set_registry (mkRegistry (<[c := setIndex (if isNoneEvent ch then kDeleted else kAdded) ch]> (channels (registry w)))
       (<[fd_ ch := c]> (channels_ (registry w))) ({[fd_ ch]} ∪ associatedFds_ (registry w)) (nextRegistrationGeneration (registry w))
       (sockets (registry w)) ({[fd_ ch]} ∪ associated (registry w))) w).
Proof.
  intros Htk Hch Hidx Hfree Hs Hsub Hass. unfold poller_updateChannel.
  rewrite (bindM_ok _ _ _ _ _ (the_channel_ok c ch w Hch)), bind_get, Hidx, Hfree. cbn [Z.eqb orb kNew Pos.eqb].
  rewrite bool_decide_false by (intros [? ?]; done). unfold throw_if at 1.
  set (w1 := set_registry (set_registered_channels (<[fd_ ch := c]> (channels_ (registry w))) (registry w)) w).
  rewrite (bindM_ok _ _ _ tt w1) by done. unfold change.
  destruct (bool_decide_reflect (fd_ ch ∈ associatedFds_ (registry w))) as [Hin|Hin].
  - rewrite (bindM_ok _ _ _ tt w1) by done. rewrite on_registry_modify. cbn. rewrite (alter_known _ c _ ch) by done.
    unfold set_registry, set_channels. cbn. repeat f_equal; set_solver.
  - set (w2 := set_registry (set_sockets (sockets (registry w)) ({[fd_ ch]} ∪ associated (registry w))
        (set_registered_channels (<[fd_ ch := c]> (channels_ (registry w))) (registry w))) w).
    rewrite (bindM_ok _ _ _ tt (set_registry (set_associatedFds ({[fd_ ch]} ∪ associatedFds_ (registry w)) (registry w2)) w2)).
    2:{ rewrite (bindM_ok _ _ _ tt w2); [done|]. unfold associateChannel. rewrite bind_get. cbn.
        rewrite bool_decide_true by done. rewrite bool_decide_false by tauto. destruct taken; [done|tauto]. }
    rewrite on_registry_modify. cbn. by rewrite (alter_known _ c _ ch).
Qed.

Lemma poller_update_known taken c ch w :
  channels (registry w) !! c = Some ch -> (index_ ch = kAdded \/ index_ ch = kDeleted) -> channels_ (registry w) !! fd_ ch = Some c ->
  fd_ ch ∈ associatedFds_ (registry w) ->
  poller_updateChannel taken c w =
    (Ok tt, set_registry (set_channels (<[c := setIndex (if isNoneEvent ch then kDeleted else kAdded) ch]> (channels (registry w))) (registry w)) w).
Proof.
  intros Hch Hidx Hreg Hass. unfold poller_updateChannel.
  rewrite (bindM_ok _ _ _ _ _ (the_channel_ok c ch w Hch)), bind_get, Hreg. unfold change.
  assert (forall m, (run throw_if (negb (bool_decide (Some c = Some c))) logic_error ;; m : M World unit) w = m w) as Hskip
    by (intros m; by rewrite bool_decide_true).
  destruct Hidx as [-> | ->]; cbn [Z.eqb orb kNew kAdded kDeleted Pos.eqb].
  - rewrite Hskip, on_registry_modify. by rewrite (alter_known _ c _ ch).
  - rewrite bool_decide_true by done. cbn [negb]. rewrite (bindM_ok _ _ _ tt w) by done.
    rewrite bool_decide_true by done. rewrite (bindM_ok _ _ _ tt w) by done. rewrite on_registry_modify. by rewrite (alter_known _ c _ ch).
Qed.

Lemma update_channel_step taken c w :
  registry_ok (registry w) -> may_register c (registry w) = true -> (taken = false -> wants_association c (registry w) = false) ->
  nextRegistrationGeneration (registry w) < usize_max ->
  wp (updateChannel taken c) (registry_step w) w.
Proof.
  intros Hr Hmay Htk Hg. unfold may_register in Hmay. destruct (channels (registry w) !! c) as [ch|] eqn:Hch; [|done].
  unfold updateChannel. apply wp_bind. apply (wp_eq _ _ _ _ _ (the_channel_ok c ch w Hch)). apply wp_bind.
  unfold registerOrUpdateReadiness. apply wp_get, wp_bind. apply (wp_eq _ _ _ _ _ (has_readiness_ok c ch w Hch)).
  unfold registered_at.
  destruct (decide (index_ ch = kNew)) as [Hidx|Hidx].
  - rewrite Hidx in Hmay. cbn in Hmay.
    destruct (channels_ (registry w) !! fd_ ch) as [c'|] eqn:Hex.
    + destruct (bool_decide (phase_ w = EngineShutdown) && _).
      { apply wp_ret, wp_bind. apply registry_step_same; auto. }
      assert (poller_updateChannel taken c w = (Throw logic_error, w)) as Hthrow.
      { unfold poller_updateChannel. rewrite (bindM_ok _ _ _ _ _ (the_channel_ok c ch w Hch)), bind_get, Hex, Hidx. cbn [Z.eqb orb kNew Pos.eqb].
        rewrite bool_decide_true by done. done. }
      apply (wp_eq _ _ _ (Ok IoRejectedConflict) w); [unfold on_conflict; by rewrite Hthrow|]. apply wp_bind. apply registry_step_same; auto.
    + rewrite (bool_decide_false (None = Some c)) by done. destruct (bool_decide (phase_ w = EngineShutdown)).
      { apply wp_ret, wp_bind. apply registry_step_same; auto. }
      cbn [andb negb]. apply andb_prop in Hmay as [Hs Hass]. apply bool_decide_eq_true in Hs.
      assert (fd_ ch ∈ associated (registry w) -> fd_ ch ∈ associatedFds_ (registry w)) as Hass'.
      { intros Hin. rewrite bool_decide_true in Hass by done. by apply bool_decide_eq_true in Hass. }
      assert (taken = false -> fd_ ch ∈ associatedFds_ (registry w)) as Htk'.
      { intros E. specialize (Htk E). unfold wants_association in Htk. rewrite Hch, Hidx, Hex in Htk. cbn in Htk.
        by destruct (bool_decide_reflect (fd_ ch ∈ associatedFds_ (registry w))). }
      pose proof (poller_update_new taken c ch w Htk' Hch Hidx Hex Hs (proj1 (proj2 (ok_associated _ Hr))) Hass') as Hp.
      match type of Hp with _ = (_, ?x) => set (w1 := x) in Hp end.
      apply (wp_eq _ _ _ (Ok IoAccepted) w1); [unfold on_conflict; by rewrite Hp|].
      apply wp_bind. apply wp_eq with (r := Ok tt) (s' := w1); [done|].
      destruct (registered_ok (registry w) c ch Hr Hch Hidx Hex Hs Hg) as [Hr' Hev].
      assert (addedToLoop_ ch = false) as ->.
      { destruct (addedToLoop_ ch) eqn:E; [|done]. pose proof (ok_added _ Hr c ch Hch (or_introl E)). congruence. }
      assert (advanceRegistrationGeneration c true w1 = (Ok tt, set_registry (registered c ch (registry w)) w)) as Hadv.
      { unfold advanceRegistrationGeneration.
        assert (on_registry allocateRegistrationGeneration w1 =
          (Ok (nextRegistrationGeneration (registry w)), set_registry (set_next (nextRegistrationGeneration (registry w) + 1) (registry w1)) w1)) as Ha.
        { unfold on_registry. rewrite allocate_ok; [done| |done]. apply (ok_generations _ Hr). }
        rewrite (bindM_ok _ _ _ _ _ Ha). unfold change. rewrite on_registry_modify. cbn.
        rewrite (alter_known _ c _ _ (lookup_insert_eq _ _ _)), insert_insert_eq. done. }
      apply (wp_eq _ _ _ _ _ Hadv). by apply registry_step_to.
  - pose proof (ok_added _ Hr c ch Hch (or_intror Hidx)) as Hreg. rewrite Hreg, (bool_decide_true (Some c = Some c)) by done. rewrite andb_false_r.
    destruct (ok_registered _ Hr _ _ Hreg) as (y & Hy & _ & Hadd & Hi). rewrite Hch in Hy. injection Hy as <-.
    pose proof (poller_update_known taken c ch w Hch Hi Hreg (proj1 (ok_associated _ Hr) _ _ Hreg)) as Hp.
    match type of Hp with _ = (_, ?x) => set (w1 := x) in Hp end.
    apply (wp_eq _ _ _ (Ok IoAccepted) w1); [unfold on_conflict; by rewrite Hp|]. apply wp_bind. apply (wp_eq _ _ _ (Ok tt) w1); [done|].
    rewrite Hadd. apply wp_ret. apply registry_step_to. apply (registry_change _ c ch); try done.
    + split; [|done]. cbn. destruct (isNoneEvent ch); unfold kNew, kAdded, kDeleted; lia.
    + intros _. cbn. destruct (isNoneEvent ch); auto.
Qed.

(** An update dies exactly when it asks for an association that is turned down. *)
Lemma update_fatal taken c w :
  registry_ok (registry w) -> is_Some (channels (registry w) !! c) -> phase_ w <> EngineShutdown ->
  nextRegistrationGeneration (registry w) < usize_max ->
  let r := fst (updateChannel taken c w) in
  if wants_association c (registry w) && turned_down c taken (registry w) then r = Throw log_fatal else r = Ok tt \/ r = Throw logic_error.
Proof.
  intros Hr [ch Hch] Hph Hg. cbn zeta. destruct (_ && _) eqn:E.
  - apply andb_prop in E as [Hw Ht]. unfold wants_association in Hw. unfold turned_down in Ht. rewrite Hch in Hw, Ht.
    rewrite !andb_true_iff in Hw. destruct Hw as [[Hidx Hex] Hass]. apply Z.eqb_eq in Hidx. apply bool_decide_eq_true in Hex. apply negb_true_iff in Hass.
    unfold updateChannel. rewrite (bindM_ok _ _ _ _ _ (the_channel_ok c ch w Hch)). unfold registerOrUpdateReadiness. unfold bindM at 1. rewrite bind_get.
    rewrite (bindM_ok _ _ _ _ _ (has_readiness_ok c ch w Hch)), (bool_decide_false (phase_ w = _)) by done. cbn [andb]. unfold on_conflict, poller_updateChannel.
    rewrite (bindM_ok _ _ _ _ _ (the_channel_ok c ch w Hch)), bind_get, Hidx, Hex, Hass. cbn [Z.eqb orb kNew Pos.eqb].
    rewrite (bool_decide_false (is_Some None)) by (intros [? ?]; done).
    set (w1 := set_registry (set_registered_channels (<[fd_ ch := c]> (channels_ (registry w))) (registry w)) w).
    rewrite (bindM_ok _ _ _ tt w1) by done. assert (Hth : associateChannel taken (fd_ ch) w1 = (Throw log_fatal, w1)).
    { unfold associateChannel. rewrite bind_get. change (sockets (registry w1)) with (sockets (registry w)).
      change (associated (registry w1)) with (associated (registry w)). by rewrite Ht. }
    unfold bindM. by rewrite Hth.
  - assert (may_register c (registry w) = true -> (taken = false -> wants_association c (registry w) = false) ->
      fst (updateChannel taken c w) = Ok tt \/ fst (updateChannel taken c w) = Throw logic_error) as Hgo.
    { intros H1 H2. pose proof (update_channel_step taken c w Hr H1 H2 Hg) as Hwp. unfold wp, registry_step in Hwp.
      destruct (updateChannel taken c w). by destruct Hwp. }
    destruct (decide (index_ ch = kNew)) as [Hidx|Hidx].
    2:{ apply Hgo; [unfold may_register; rewrite Hch; apply Z.eqb_neq in Hidx; by rewrite Hidx|].
        intros _. unfold wants_association. rewrite Hch. apply Z.eqb_neq in Hidx. by rewrite Hidx. }
    destruct (channels_ (registry w) !! fd_ ch) as [c'|] eqn:Hex.
    { right. unfold updateChannel. rewrite (bindM_ok _ _ _ _ _ (the_channel_ok c ch w Hch)). unfold registerOrUpdateReadiness. unfold bindM at 1. rewrite bind_get.
      rewrite (bindM_ok _ _ _ _ _ (has_readiness_ok c ch w Hch)), (bool_decide_false (phase_ w = _)) by done. cbn [andb]. unfold on_conflict, poller_updateChannel.
      rewrite (bindM_ok _ _ _ _ _ (the_channel_ok c ch w Hch)), bind_get, Hidx, Hex. cbn [Z.eqb orb kNew Pos.eqb].
      rewrite (bool_decide_true (is_Some _)) by done. done. }
    pose proof (ok_associated _ Hr) as (_ & A2 & A3 & _). unfold wants_association, turned_down in *. unfold may_register in Hgo. rewrite Hch, Hidx, Hex in E, Hgo.
    cbn in E, Hgo. apply Hgo; clear Hgo.
    + destruct (bool_decide_reflect (fd_ ch ∈ associatedFds_ (registry w))) as [Hin|Hin].
      * rewrite (bool_decide_true (fd_ ch ∈ sockets _)) by set_solver. by rewrite orb_true_r.
      * cbn in E. rewrite !orb_false_iff in E. destruct E as [[_ Hs] ->]. apply negb_false_iff in Hs. by rewrite Hs.
    + intros ->. cbn in E. rewrite andb_true_r in E. exact E.
Qed.

Lemma remove_channel_step c w :
  registry_ok (registry w) -> is_Some (channels (registry w) !! c) -> nextRegistrationGeneration (registry w) < usize_max ->
  wp (removeChannel c) (registry_step w) w.
Proof.
  intros Hr [ch Hch] Hg. unfold removeChannel. apply wp_bind. apply (wp_eq _ _ _ _ _ (the_channel_ok c ch w Hch)).
  apply wp_bind, wp_throw_if; intros Hadd; [|apply registry_step_same; auto].
  apply wp_bind, wp_throw_if; intros Hnone; [|apply registry_step_same; auto].
  apply negb_false_iff in Hadd. pose proof (ok_added _ Hr c ch Hch (or_introl Hadd)) as Hreg.
  apply wp_bind. apply (wp_eq _ _ _ _ _ (has_readiness_ok c ch w Hch)). unfold registered_at. rewrite bool_decide_true by done.
  apply wp_bind. apply (wp_eq _ _ _ (Ok tt) w); [done|]. apply wp_bind. unfold cancelReadiness. apply wp_get.
  destruct (bool_decide (phase_ w = EngineShutdown)).
  { apply wp_ret. apply wp_bind. apply registry_step_same; auto. }
  apply wp_bind. apply (wp_eq _ _ _ _ _ (has_readiness_ok c ch w Hch)). unfold registered_at. rewrite bool_decide_true by done. cbn [negb].
  set (w1 := set_registry (mkRegistry (<[c := setIndex kNew ch]> (channels (registry w))) (delete (fd_ ch) (channels_ (registry w)))
    (associatedFds_ (registry w) ∖ {[fd_ ch]}) (nextRegistrationGeneration (registry w)) (sockets (registry w)) (associated (registry w))) w).
  assert (poller_removeChannel c w = (Ok tt, w1)) as Hp.
  { unfold poller_removeChannel. rewrite (bindM_ok _ _ _ _ _ (the_channel_ok c ch w Hch)), bind_get. unfold registered_at.
    rewrite bool_decide_true by done. cbn [negb]. unfold throw_if, change. unfold bindM, ret. rewrite !on_registry_modify. cbn.
    by rewrite (alter_known _ c _ ch). }
  apply wp_bind. apply (wp_eq _ _ _ _ _ Hp). apply wp_ret. apply wp_bind. apply (wp_eq _ _ _ (Ok tt) w1); [done|].
  assert (advanceRegistrationGeneration c false w1 = (Ok tt, set_registry (removed c ch (registry w)) w)) as Hadv.
  { unfold advanceRegistrationGeneration.
    assert (on_registry allocateRegistrationGeneration w1 =
      (Ok (nextRegistrationGeneration (registry w)), set_registry (set_next (nextRegistrationGeneration (registry w) + 1) (registry w1)) w1)) as Ha.
    { unfold on_registry. rewrite allocate_ok; [done| |done]. apply (ok_generations _ Hr). }
    rewrite (bindM_ok _ _ _ _ _ Ha). unfold change. rewrite on_registry_modify. cbn.
    rewrite (alter_known _ c _ _ (lookup_insert_eq _ _ _)), insert_insert_eq. done. }
  apply (wp_eq _ _ _ _ _ Hadv). apply registry_step_to. by apply removed_registry_ok.
Qed.

(** Sockets and associations. *)
Lemma registry_sets r s a af :
  registry_ok r -> (forall fd c, channels_ r !! fd = Some c -> fd ∈ af) -> af ⊆ a -> a ⊆ s -> kInvalidSocket ∉ s ->
  registry_ok (set_sockets s a (set_associatedFds af r)) /\ evolves r (set_sockets s a (set_associatedFds af r)).
Proof. intros [H1 H2 H3 H4 H5 H6 H7] ? ? ? ?. split; [by constructor|]. split; [cbn; lia|done]. Qed.

Lemma registry_new_channel r c fd :
  registry_ok r -> channels r !! c = None -> fd <> kInvalidSocket ->
  registry_ok (set_channels (<[c := Channel_new fd]> (channels r)) r) /\ evolves r (set_channels (<[c := Channel_new fd]> (channels r)) r).
Proof.
  intros [H1 H2 H3 H4 H5 H6 H7] Hc Hfd.
  assert (forall c1 y, <[c := Channel_new fd]> (channels r) !! c1 = Some y -> c1 = c /\ y = Channel_new fd \/ c1 <> c /\ channels r !! c1 = Some y) as Hinv.
  { intros c1 y Hy. apply lookup_insert_Some in Hy as [[<- <-]|[? ?]]; auto. }
  split; [constructor; cbn -[Channel_new]|split; [cbn; lia|]].
  - intros fd' c' Hc'. destruct (H1 fd' c' Hc') as (y & Hy & Hrest). assert (c' <> c) by congruence. rewrite lookup_insert_ne by done. eauto.
  - intros c' y Hy Hor. destruct (Hinv c' y Hy) as [[-> ->]|[_ Hy']]; [by destruct Hor|by apply H2].
  - intros c' y Hy. destruct (Hinv c' y Hy) as [[-> ->]|[_ Hy']]; [done|by eapply H3].
  - done.
  - split; [apply H5|]. intros c' y Hy. destruct (Hinv c' y Hy) as [[-> ->]|[_ Hy']]; [cbn; lia|by eapply H5].
  - intros c1 y1 c2 y2 Hy1 Hy2 Ha Heq. destruct (Hinv c1 y1 Hy1) as [[-> ->]|[_ Hy1']]; [done|].
    destruct (Hinv c2 y2 Hy2) as [[-> ->]|[_ Hy2']]; [|by eapply H6]. pose proof (H7 _ _ Hy1' Ha). cbn in Heq. lia.
  - intros c' y Hy Ha. destruct (Hinv c' y Hy) as [[-> ->]|[_ Hy']]; [done|by eapply H7].
  - intros c' g _ (y & Hy & Ha & Hg). cbn -[Channel_new] in Hy. destruct (Hinv c' y Hy) as [[-> ->]|[_ Hy']]; [done|by exists y].
Qed.

Lemma registry_destroy r c ch :
  registry_ok r -> channels r !! c = Some ch -> addedToLoop_ ch = false ->
  registry_ok (set_channels (delete c (channels r)) r) /\ evolves r (set_channels (delete c (channels r)) r).
Proof.
  intros [H1 H2 H3 H4 H5 H6 H7] Hc Hna.
  split; [constructor; cbn|split; [cbn; lia|]].
  - intros fd' c' Hc'. destruct (H1 fd' c' Hc') as (y & Hy & Hrest). assert (c' <> c).
    { intros ->. destruct Hrest as (_ & Ha & _). congruence. }
    rewrite lookup_delete_ne by done. eauto.
  - intros c' y Hy. apply lookup_delete_Some in Hy as [_ Hy]. by apply H2.
  - intros c' y Hy. apply lookup_delete_Some in Hy as [_ Hy]. by eapply H3.
  - done.
  - split; [apply H5|]. intros c' y Hy. apply lookup_delete_Some in Hy as [_ Hy]. by eapply H5.
  - intros c1 y1 c2 y2 Hy1 Hy2. apply lookup_delete_Some in Hy1 as [_ Hy1]. apply lookup_delete_Some in Hy2 as [_ Hy2]. by eapply H6.
  - intros c' y Hy. apply lookup_delete_Some in Hy as [_ Hy]. by eapply H7.
  - intros c' g _ (y & Hy & Ha & Hg). cbn in Hy. apply lookup_delete_Some in Hy as [_ Hy]. by exists y.
Qed.

Lemma registry_other r :
  registry_ok r -> nextRegistrationGeneration r < usize_max ->
  registry_ok (set_next (nextRegistrationGeneration r + 1) r) /\ evolves r (set_next (nextRegistrationGeneration r + 1) r).
Proof.
  intros [H1 H2 H3 H4 H5 H6 H7] Hg. split; [constructor; try done|split; [cbn; lia|done]].
  cbn. split; [lia|]. intros c ch Hc. destruct H5 as [_ H5]. specialize (H5 c ch Hc). lia.
Qed.

(** *** Observers *)

Lemma observers_put o x p e :
  observers_ok e -> storage e !! o = Some x -> submissionAccepted p = submissionAccepted (op x) ->
  (channel p = channel (op x) \/ channel p = None \/ submissionAccepted p = false) -> observerSource p = observerSource (op x) ->
  observerRegistrationGeneration p = observerRegistrationGeneration (op x) -> observers_ok (put o x p e).
Proof.
  intros [H1 H2] Hx Ha Hc Hs Hg. split; [|exact H2]. intros o' x' Hx' Hacc. cbn in Hx'. apply lookup_insert_Some in Hx' as [[<- <-]|[_ Hx']]; [|by eapply H1].
  cbn in Hacc. destruct (H1 o x Hx ltac:(congruence)) as (c & rg & Hsub & Hch & Hrg). exists c, rg. cbn. rewrite Hs, Hg. split_and!; [done| |done].
  destruct Hc as [-> |[-> | ?]]; [done|by right|congruence].
Qed.

Lemma observers_taken n o x c r e key l :
  engine_ok n e -> observers_ok e -> registry_ok r -> storage e !! o = Some x -> ready (op x) ->
  observers_ok (start o key (c, registration_of c r) (put o x (submitted_op c r (op x)) (set_retained l (outstandingOperationCount_ e) e))).
Proof.
  intros He [H1 H2] Hr Hx Hready. set (e' := start _ _ _ _).
  assert (submissions e' = submissions e ++ [(c, registration_of c r)]) as Hsub by done.
  assert (storage e' = <[o := mkCell (block x) (tickets e) (submitted_op c r (op x))]> (storage e)) as Hst by (subst e'; cbn; by rewrite alter_insert_eq).
  split.
  - intros o' x' Hx' Ha. rewrite Hst in Hx'. rewrite Hsub. apply lookup_insert_Some in Hx' as [[<- <-]|[_ Hx']].
    + exists c, (registration_of c r). cbn [ticket op]. split; [unfold tickets; rewrite lookup_app_r, Nat.sub_diag by lia; done|].
      unfold submitted_op, committed. assert (channel (prepareIocpOperationSubmission (set_request c (op x))).2 = c) as Hpc
        by (unfold prepareIocpOperationSubmission; by destruct (_ || _ || _)).
      rewrite Hpc. destruct (captured c r) as [src rg] eqn:Hcap. cbn. split; [by left|]. intros Hne.
      unfold captured in Hcap. destruct c as [c|]; [|injection Hcap as <- <-; done]. cbn.
      destruct (channels r !! c) as [ch|] eqn:Hch; [|injection Hcap as <- <-; done].
      unfold registered_at in Hcap. destruct (bool_decide_reflect (channels_ r !! fd_ ch = Some c)) as [Hreg|_]; [|injection Hcap as <- <-; done].
      injection Hcap as <- <-. destruct (ok_registered r Hr _ _ Hreg) as (y & Hy & _ & Hya & _). rewrite Hch in Hy. injection Hy as <-. by rewrite Hya.
    + destruct (H1 o' x' Hx' Ha) as (c' & rg & Hs & Hrest). exists c', rg. split; [by apply lookup_app_l_Some|done].
  - intros nt c' Hin Ho. rewrite Hsub. apply lookup_app_l_Some. by apply H2.
Qed.

Lemma observers_delivered overlapped key o bytes x p r l k m ps e :
  observers_ok e -> storage e !! o = Some x -> submissionAccepted (op x) = true -> submissionAccepted p = false ->
  observers_ok (deliver (notice_of overlapped key o bytes x r) (put o x p (set_retained l k (set_system m (packets e) ps e)))).
Proof.
  intros [H1 H2] Hx Ha Hp. split.
  - intros o' x' Hx' Ha'. cbn in Hx'. apply lookup_insert_Some in Hx' as [[<- <-]|[_ Hx']]; [cbn in Ha'; congruence|]. by eapply H1.
  - intros nt c Hin Ho. cbn -[notice_of] in Hin. apply elem_of_app in Hin as [Hin|Hin]; [by apply H2|].
    apply list_elem_of_singleton in Hin as ->. cbn in Ho. destruct (observed key (op x) r) eqn:E; [|done].
    destruct (H1 o x Hx Ha) as (c' & rg & Hs & Hch & Hrg). cbn -[submissions]. change (submissions (deliver _ _)) with (submissions e). rewrite Hs.
    unfold observed in E. apply andb_prop in E as [E _]. apply andb_prop in E as [_ E]. apply negb_true_iff, Z.eqb_neq in E.
    rewrite (Hrg E). destruct Hch as [<- | Hch]; congruence.
Qed.

(** *** Cancelled operations *)

Lemma cancelled_put l o x p e :
  cancelled_ok l e -> storage e !! o = Some x -> submissionAccepted p = submissionAccepted (op x) ->
  (shutdownObligation (op x) = true -> shutdownObligation p = true) -> cancelled_ok l (put o x p e).
Proof.
  intros H Hx Ha Ho t Ht. destruct (H t Ht) as [Hd|(o' & x' & Hx' & Ha' & Ho' & Htk)]; [by left|right].
  destruct (decide (o' = o)) as [->|Hne].
  - rewrite Hx in Hx'. injection Hx' as <-. exists o, (mkCell (block x) (ticket x) p). cbn. rewrite lookup_insert_eq.
    split_and!; [done|congruence|by apply Ho|done].
  - exists o', x'. cbn. by rewrite lookup_insert_ne.
Qed.

(** Only a cell that is not submitted is overwritten. *)
Lemma cancelled_fresh l o y e e' :
  cancelled_ok l e -> (forall x, storage e !! o = Some x -> submissionAccepted (op x) = false) ->
  storage e' = <[o := y]> (storage e) -> delivered e' = delivered e -> cancelled_ok l e'.
Proof.
  intros H Hx Hs Hd t Ht. rewrite Hd. destruct (H t Ht) as [?|(o' & x' & Hx' & Ha' & Hrest)]; [by left|right].
  exists o', x'. rewrite Hs, lookup_insert_ne; [done|]. intros <-. rewrite (Hx x' Hx') in Ha'. done.
Qed.

Lemma cancelled_delivered l nt o x p e e' :
  cancelled_ok l e -> storage e !! o = Some x -> storage e' = <[o := mkCell (block x) (ticket x) p]> (storage e) ->
  notice_ticket nt = ticket x -> delivered e' = delivered e ++ [(notice_ticket nt, consumer nt)] -> cancelled_ok l e'.
Proof.
  intros H Hx Hs Hn Hd t Ht. rewrite Hd, fmap_app, elem_of_app. destruct (H t Ht) as [?|(o' & x' & Hx' & Hrest)]; [by left; left|].
  destruct (decide (o' = o)) as [->|Hne].
  - left. right. rewrite Hx in Hx'. injection Hx' as <-. destruct Hrest as (_ & _ & <-). rewrite <- Hn. cbn. by apply list_elem_of_singleton.
  - right. exists o', x'. by rewrite Hs, lookup_insert_ne.
Qed.

(** *** Steps *)

Definition good (n : nat) (w : World) (res : result unit) (w' : World) : Prop :=
  (res = Ok tt \/ res = Throw logic_error) /\ world_ok n w' /\ evolves (registry w) (registry w') /\
  submissions (engine w) `prefix_of` submissions (engine w').

Lemma good_registry n w res w' : world_ok n w -> registry_step w res w' -> good n w res w'.
Proof.
  intros [He Ho Hca [Hw1 Hw2] Hr] (Hres & r & -> & Hr' & Hev). split; [done|]. split; [|done]. by constructor.
Qed.

(** An engine step that leaves the packets alone. *)
Lemma good_engine n w e' :
  world_ok n w -> engine_ok n e' -> observers_ok e' -> cancelled_ok (cancelled w) e' -> packets e' = packets (engine w) -> nativeEntries e' = nativeEntries (engine w) ->
  submissions (engine w) `prefix_of` submissions e' -> good n w (Ok tt) (set_engine e' w).
Proof.
  intros [He Ho Hca [Hw1 Hw2] Hr] He' Ho' Hca' Hp Hn Hs. split; [by left|]. split; [|split; [apply evolves_reflexive|done]].
  constructor; try done. split; cbn.
  - unfold wakeups, entries in *. by rewrite Hp, Hn.
  - by rewrite Hn.
Qed.

Lemma good_put n w o x p :
  world_ok n w -> storage (engine w) !! o = Some x -> op_ok p -> submissionAccepted p = submissionAccepted (op x) ->
  shutdownObligation p = shutdownObligation (op x) -> observerSource p = observerSource (op x) ->
  observerRegistrationGeneration p = observerRegistrationGeneration (op x) ->
  (channel p = channel (op x) \/ channel p = None \/ submissionAccepted p = false) ->
  good n w (Ok tt) (with_op o x p w).
Proof.
  intros H Hx Hp Ha Ho Hs Hg Hc. apply good_engine; [done| | | |done|done|done].
  - apply (engine_put n o x p (engine w)); [apply H|done..].
  - apply (observers_put o x p (engine w)); try done; apply H.
  - apply (cancelled_put _ o x p (engine w)); try done; [apply H|congruence].
Qed.

Lemma submitted_spec o b e : submitted o b e = true ->
  exists x, storage e !! o = Some x /\ held (block x) e = true /\ submissionAccepted (op x) = b.
Proof.
  unfold submitted. destruct (storage e !! o) as [x|]; [|done]. intros H. apply andb_prop in H as [Hh Ha].
  apply Bool.eqb_prop in Ha. eauto.
Qed.

Lemma running_spec w : running w = true -> phase_ w <> EngineShutdown /\ nativeEntries (engine w) = None.
Proof. unfold running. rewrite andb_true_iff, !bool_decide_eq_true. done. Qed.

Lemma idle_spec w : idle w = true -> phase_ w <> EngineShutdown /\ nativeEntries (engine w) = None /\ consuming (engine w) = None.
Proof. unfold idle. rewrite andb_true_iff, bool_decide_eq_true. intros [[? ?]%running_spec ?]. done. Qed.

Lemma op_request c p : op_ok p -> submissionAccepted p = false -> op_ok (set_request c p).
Proof. intros [H1 H2 H3 H4] Ha. by constructor. Qed.

Lemma op_refused c err p : op_ok p -> ready p -> op_ok (refused_op c err p) /\ submissionAccepted (refused_op c err p) = false /\
  shutdownObligation (refused_op c err p) = shutdownObligation p /\ observerSource (refused_op c err p) = observerSource p /\
  observerRegistrationGeneration (refused_op c err p) = observerRegistrationGeneration p.
Proof.
  intros [H1 H2 H3 H4] (R1 & R2 & R3).
  assert (refused_op c err p = set_status 0 0 err (set_submission (generation p + 1) (terminalGeneration p) false false false (set_request c p))) as Heq.
  { unfold refused_op, prepareIocpOperationSubmission. cbn. rewrite R1, R2. cbn. by destruct (Z.eqb_spec (generation p) usize_max). }
  rewrite Heq. split_and!; try done. constructor; cbn; [lia|done|done|]. intros Ho. rewrite (H4 Ho) in R2. done.
Qed.

Lemma op_taken c r p : op_ok p -> ready p -> op_ok (submitted_op c r p) /\ submissionAccepted (submitted_op c r p) = true /\
  shutdownObligation (submitted_op c r p) = false /\ generation (submitted_op c r p) = generation p + 1.
Proof.
  intros [H1 H2 H3 H4] (R1 & R2 & R3).
  assert (shutdownObligation p = false) as Hob by (destruct (shutdownObligation p) eqn:E; [rewrite (H4 eq_refl) in R2|]; done).
  unfold submitted_op, prepareIocpOperationSubmission. cbn. rewrite R1, R2. cbn. destruct (Z.eqb_spec (generation p) usize_max); [done|]. cbn.
  unfold committed. cbn. destruct (captured c r). split_and!; [constructor|..]; cbn; try done; try lia.
Qed.

Lemma submit_step n w o c key refused :
  world_ok n w -> enabled n (LSubmit o c key refused) w = true -> wp (perform n (LSubmit o c key refused)) (good n w) w.
Proof.
  intros H Hen. cbn in Hen. rewrite !andb_true_iff in Hen. destruct Hen as (((Hrun & Hsub) & Hc) & _).
  apply running_spec in Hrun as [Hph Hent]. apply submitted_spec in Hsub as (x & Hx & Hh & Ha).
  destruct (proj1 (ok_engine n w H)) as (Hret & Hops & _). pose proof (Hops o x Hx) as Hok.
  assert (channel_ok c (registry w)) as Hco.
  { intros c' ->. by apply bool_decide_eq_true in Hc. }
  pose proof (submit_spec o x c key refused w Hx Hh Hph (unaccepted_not_retained _ o x (proj1 (ok_engine n w H)) Hx Ha) (op_prepared _ Hok) Ha Hco) as Hs.
  unfold perform. apply wp_bind.
  destruct (Z.eqb_spec (generation (op x)) usize_max) as [Hg|Hg].
  { apply (wp_eq _ _ _ _ _ Hs). apply wp_ret. apply good_put; try done; [by apply op_request|..]; auto. }
  assert (ready (op x)) as Hready by (split_and!; [apply Hok|done|done]).
  destruct refused as [err|]; apply (wp_eq _ _ _ _ _ Hs), wp_ret.
  - destruct (op_refused c err (op x) Hok Hready) as (R1 & R2 & R3 & R4 & R5). apply good_put; try done; [by rewrite R2|..]; auto.
  - destruct (op_taken c (registry w) (op x) Hok Hready) as (R1 & R2 & R3 & _). apply good_engine; [done| | | |done|done|].
    + apply engine_taken; [apply H|done..].
    + eapply observers_taken; [apply H..|done|done].
    + eapply (cancelled_fresh _ o _ (engine w)); [apply H| |cbn; by rewrite alter_insert_eq|done]. intros x' Hx'. congruence.
    + exists [(c, registration_of c (registry w))]. done.
Qed.

Lemma track_step n w o known :
  world_ok n w -> enabled n (LCancel o known) w = true -> wp (perform n (LCancel o known)) (good n w) w.
Proof.
  intros H Hen. cbn in Hen. apply andb_prop in Hen as [Hrun Hsub].
  apply running_spec in Hrun as [Hph Hent]. apply submitted_spec in Hsub as (x & Hx & Hh & Ha).
  destruct (proj1 (ok_engine n w H)) as (Hret & Hops & _). pose proof (Hops o x Hx) as Hok.
  unfold perform. destruct known; [|split; [by left|]; split_and!; [done|apply evolves_reflexive|done]]. apply wp_bind. apply (wp_eq _ _ _ _ _ (track_spec o x w Hx Hh Hph Hok Ha)). apply wp_modify.
  destruct H as [He Ho Hca [Hw1 Hw2] Hr]. split; [by left|]. destruct (shutdownObligation (op x)) eqn:Hob.
  - split; [|split; [apply evolves_reflexive|done]]. constructor; try done. cbn. rewrite Hx. intros t Ht. apply elem_of_app in Ht as [Ht|Ht]; [by apply Hca|].
    apply list_elem_of_singleton in Ht as ->. right. by exists o, x.
  - split; [|split; [apply evolves_reflexive|done]]. constructor; [| | |done|done].
    + by apply (engine_track n o x (engine w)).
    + apply (observers_put o x (set_obligation true (op x)) (engine w)); try done. by left.
    + cbn. rewrite lookup_insert_eq. intros t Ht. apply elem_of_app in Ht as [Ht|Ht].
      * apply (cancelled_put (cancelled w) o x (set_obligation true (op x)) (engine w)); done.
      * apply list_elem_of_singleton in Ht as ->. right. exists o, (mkCell (block x) (ticket x) (set_obligation true (op x))). cbn.
        by rewrite lookup_insert_eq.
Qed.

Lemma decode_step n w overlapped :
  world_ok n w -> enabled n (LDecode overlapped) w = true -> wp (perform n (LDecode overlapped)) (good n w) w.
Proof.
  intros H Hen. cbn in Hen. destruct (nativeEntries (engine w)) as [[|p ps]|] eqn:Hent; [done| |done]. clear Hen.
  destruct H as [He Ho Hca [Hw1 Hw2] Hr]. unfold perform. apply wp_get. rewrite Hent. apply wp_bind. set (e := engine w) in *.
  set (w1 := set_engine (set_system (inflight e) (packets e) (Some ps) e) w). apply wp_eq with (r := Ok tt) (s' := w1); [done|].
  destruct p as [|key o bytes].
  - apply wp_bind, wp_modify. apply (wp_eq _ _ _ _ _ (on_engine_modify _ _)).
    assert (engine_ok n (engine w1)) as He1 by (by apply engine_skip).
    split; [by left|]. split; [|split; [apply evolves_reflexive|done]]. constructor; [|done|done| |done].
    + exact He1.
    + assert (entries e = Wakeup :: ps) as Hentr by (unfold entries; by rewrite Hent).
      unfold wakeups in Hw1. rewrite Hentr, occurrences_cons in Hw1. cbn [is_wakeup] in Hw1.
      split; [|done]. unfold wakeups. cbn. change (occurrences is_wakeup (packets e) + occurrences is_wakeup ps + posting w = 0)%nat.
      destruct (wakeupPending_ w); lia.
  - assert (is_Some (live e !! o)) as [[b t] Hl].
    { destruct (proj1 He) as (_ & _ & Ht & _). specialize (Ht o). unfold tokens in Ht.
      assert (entries e = Completion key o bytes :: ps) as Hentr by (unfold entries; by rewrite Hent). rewrite Hentr, occurrences_cons in Ht. cbn [about] in Ht. rewrite Nat.eqb_refl in Ht. destruct (live e !! o); [done|lia]. }
    apply live_spec in Hl as (x & Hx & Ha & _). destruct (accepted_held e o x (proj1 He) Hx Ha) as [_ Hh].
    destruct (proj1 He) as (_ & Hops & _ & Hout).
    assert (shutdownObligation (op x) = true -> outstandingOperationCount_ e <> 0) as Hne.
    { intros Hob. rewrite Hout. pose proof (tally_member (fun x => shutdownObligation (op x)) (storage e) o x Hx Hob). lia. }
    assert (length (notices e) < n)%nat as Hlen.
    { destruct He as (_ & (_ & _ & B3 & _) & _). unfold entries in B3. rewrite Hent in B3. cbn in B3. lia. }
    unfold decode. apply (wp_eq _ _ _ _ _ (decode_operation_spec n overlapped key o bytes x w1 Hx Hh (Hops o x Hx) Ha Hr Hlen Hne)).
    set (p' := ended bytes (nativeError (notice_of overlapped key o bytes x (registry w1))) (op x)).
    assert (op_ok p') as Hended.
    { destruct (Hops o x Hx) as [G1 G2 G3 G4]. constructor; cbn; [lia|done|done|done]. }
    split; [by left|]. split; [|split; [apply evolves_reflexive|done]]. constructor; [| | | |done].
    + exact (engine_delivered n key o bytes ps x p' (notice_of overlapped key o bytes x (registry w1)) e He Hent Hx Ha Hended eq_refl eq_refl eq_refl eq_refl eq_refl).
    + exact (observers_delivered overlapped key o bytes x p' (registry w1) (retainedOperations_ e)
        (outstandingOperationCount_ e - (if shutdownObligation (op x) then 1 else 0)) (inflight e) (Some ps) e Ho Hx Ha eq_refl).
    + by apply (cancelled_delivered _ (notice_of overlapped key o bytes x (registry w1)) o x p' e).
    + assert (entries e = Completion key o bytes :: ps) as Hentr by (unfold entries; by rewrite Hent).
      unfold wakeups in Hw1. rewrite Hentr, occurrences_cons in Hw1. cbn [is_wakeup] in Hw1. split; [exact Hw1|done].
Qed.

(** What [completionObserverCurrent] answers. *)
Definition current (nt : CompletionNotice) (r : Registry) : bool :=
  match observer nt with
  | Some c =>
      registered_at (notice_source nt) c r &&
      match channels r !! c with Some ch => registrationGeneration_ ch =? observerGeneration nt | None => false end
  | None => false
  end.

Lemma current_spec nt w : registry_ok (registry w) -> completionObserverCurrent nt w = (Ok (current nt (registry w)), w).
Proof.
  intros Hr. unfold completionObserverCurrent, current. destruct (observer nt) as [c|]; [|done]. rewrite bind_get. unfold registered_at.
  destruct (bool_decide_reflect (channels_ (registry w) !! notice_source nt = Some c)) as [Hreg|_]; [|done].
  destruct (ok_registered _ Hr _ _ Hreg) as (ch & Hch & _). rewrite (bindM_ok _ _ _ _ _ (the_channel_ok c ch w Hch)), Hch. done.
Qed.

Lemma dispatch_step n w :
  world_ok n w -> enabled n LDispatch w = true -> wp (perform n LDispatch) (good n w) w.
Proof.
  intros H Hen. destruct (idle_spec w Hen) as (Hph & Hent & Hcons). destruct H as [He Ho Hca Hwk Hr] eqn:E. clear E.
  unfold perform. apply wp_bind. unfold dispatch_notice. apply wp_bind.
  pose proof (take_spec n (engine w) He Hcons Hent) as Ht.
  destruct (takeNextDirectCompletionNotice (engine w)) as [[[nt|]|ex] e'] eqn:Etake; [| |done].
  - destruct Ht as (Hdir & Hcn & Hlease & (cur & ->) & Hok). set (w1 := set_engine (set_notices (notices (engine w)) (noticeLifetimes (engine w)) cur (engine w)) w).
    apply wp_eq with (r := Ok (Some nt)) (s' := w1); [unfold on_engine; by rewrite Etake|].
    apply wp_bind. apply (wp_eq _ _ _ _ _ (current_spec nt w1 Hr)). apply wp_bind.
    assert (exists g, match observer nt with
      | Some c => if current nt (registry w1) then do ch <- the_channel c ;; ret (negb (tied_ ch) || tie_ ch) else ret false
      | None => ret false end w1 = (Ok g, w1)) as [g Hg].
    { unfold current. destruct (observer nt) as [c|]; [|by eexists]. destruct (registered_at _ c _); [|by eexists]. cbn [andb].
      destruct (channels (registry w1) !! c) as [ch|] eqn:Hch; [|by eexists]. destruct (_ =? _); [|by eexists].
      rewrite (bindM_ok _ _ _ _ _ (the_channel_ok c ch w1 Hch)). by eexists. }
    apply (wp_eq _ _ _ _ _ Hg). apply wp_get, wp_bind. rewrite (held_lease (context nt) (engine w1)) by done.
    apply wp_eq with (r := Ok tt) (s' := w1); [done|]. apply wp_bind. apply (wp_eq _ _ _ _ _ (on_engine_modify _ _)).
    apply wp_ret. apply wp_ret. apply (good_engine n w); done.
  - destruct Ht as (Hok & _ & cur & ->).
    apply wp_eq with (r := Ok None) (s' := set_engine (set_notices (notices (engine w)) (noticeLifetimes (engine w)) cur (engine w)) w); [unfold on_engine; by rewrite Etake|].
    apply wp_ret. apply wp_ret. apply (good_engine n w); done.
Qed.

Lemma observers_cells b ops e :
  observers_ok e -> forallb new_operation (ops.*2) = true -> observers_ok (set_storage (new_cells b ops (storage e)) (set_owned ({[b]} ∪ owned e) e)).
Proof.
  intros [H1 H2] Hnew. split; [|exact H2]. cbn. induction ops as [|[o p] ops IH]; [exact H1|]. cbn in Hnew. apply andb_prop in Hnew as [Hp Hnew].
  cbn. intros o' x' Hx' Ha. apply lookup_insert_Some in Hx' as [[<- <-]|[_ Hx']]; [|by apply (IH Hnew o')].
  cbn in Ha. destruct (new_operation_ok p Hp) as [_ Hf]. congruence.
Qed.

Lemma cancelled_cells n l b ops e :
  cancelled_ok l e -> engine_ok n e -> block_free b (ops.*1) e = true ->
  cancelled_ok l (set_storage (new_cells b ops (storage e)) (set_owned ({[b]} ∪ owned e) e)).
Proof.
  intros H He Hfree.
  assert (forall o x, o ∈ ops.*1 -> storage e !! o = Some x -> submissionAccepted (op x) = false) as Hdead by (intros o x; by eapply block_free_dead).
  clear Hfree. intros t Ht. destruct (H t Ht) as [?|(o' & x' & Hx' & Ha' & Hrest)]; [by left|right]. exists o', x'. split; [|done]. cbn.
  assert (o' ∉ ops.*1) as Hnin by (intros Hin; rewrite (Hdead o' x' Hin Hx') in Ha'; done). clear Hdead.
  induction ops as [|[o p] ops IH]; [done|]. cbn in Hnin |- *. apply not_elem_of_cons in Hnin as [Hne Hnin]. rewrite lookup_insert_ne by done. by apply IH.
Qed.

(** Steps of the owner and of others that change one thing. *)
Lemma block_step n w lb :
  match lb with LNewBlock _ _ | LDropBlock _ | LClearChannel _ | LConsumed => True | _ => False end ->
  world_ok n w -> enabled n lb w = true -> wp (perform n lb) (good n w) w.
Proof.
  intros Hlb H Hen. destruct lb; try done; clear Hlb; cbn in Hen; unfold perform.
  - apply andb_prop in Hen as [Hen Hnew]. apply andb_prop in Hen as [_ Hfree]. apply (wp_eq _ _ _ _ _ (on_engine_modify _ _)).
    apply good_engine; [done| | | |done|done|done]; [apply engine_new_block; [apply H|done..]|apply observers_cells; [apply H|done]|].
    apply (cancelled_cells n (cancelled w)); [apply H..|done].
  - apply (wp_eq _ _ _ _ _ (on_engine_modify _ _)). apply good_engine; [done|apply (ok_engine n w H)|apply (ok_observers n w H)|apply (ok_cancelled n w H)|done|done|done].
  - apply andb_prop in Hen as [_ Hh]. destruct (storage (engine w) !! o) as [x|] eqn:Hx; [|done].
    assert (on_engine (store o (set_channel None)) w = (Ok tt, with_op o x (set_channel None (op x)) w)) as Hs
      by (rewrite (with_op_id o x w Hx) at 1; by apply store_ok).
    apply (wp_eq _ _ _ _ _ Hs).
    destruct (proj1 (ok_engine n w H)) as (_ & Hops & _). apply (good_put n w o x (set_channel None (op x))); auto.
    destruct (Hops o x Hx). by constructor.
  - apply (wp_eq _ _ _ _ _ (on_engine_modify _ _)). apply good_engine; [done| |apply (ok_observers n w H)|apply (ok_cancelled n w H)|done|done|done].
    destruct (ok_engine n w H) as (? & (B1 & B2 & B3 & B4 & B5) & ? & ?). by split_and!.
Qed.

Lemma pair_step n w lb :
  match lb with LWait _ | LWaited | LRetire | LPost | LWake | LShutdown | LComplete _ _ _ => True | _ => False end ->
  world_ok n w -> enabled n lb w = true -> wp (perform n lb) (good n w) w.
Proof.
  intros Hlb H Hen. destruct H as [He Ho Hca [Hw1 Hw2] Hr]. set (e := engine w) in *.
  destruct lb; try done; clear Hlb; cbn in Hen; fold e in Hen; unfold perform.
  - rewrite !andb_true_iff in Hen. destruct Hen as (((Hid & Hdir) & Hk) & Hlen). apply idle_spec in Hid as (_ & Hent & Hcons).
    apply Nat.eqb_eq, pending_direct_none in Hdir. apply Nat.leb_le in Hk. apply (wp_eq _ _ _ _ _ (on_engine_modify _ _)).
    split; [by left|]. split; [|split; [apply evolves_reflexive|done]]. constructor; [by apply engine_wait| |done|split; [|done]|done].
    + destruct Ho as [O1 O2]. split; [exact O1|]. cbn. intros nt c Hin. by apply elem_of_nil in Hin.
    + assert (wakeups (wait_begin n n0 e) = wakeups e) as Hwk.
      { assert (entries (wait_begin n n0 e) = take n0 (packets e) /\ packets (wait_begin n n0 e) = drop n0 (packets e)) as [He1 He2] by done.
        assert (entries e = []) as He3 by (unfold entries, e; by rewrite Hent).
        unfold wakeups. rewrite He1, He2, He3, <- (occurrences_split is_wakeup n0 (packets e)). change (occurrences is_wakeup []) with 0%nat. lia. }
      change ((wakeups (wait_begin n n0 e) + posting w)%nat = if wakeupPending_ w then 1%nat else 0%nat). by rewrite Hwk.
  - destruct (nativeEntries e) as [[|]|] eqn:Hent; try done. apply wp_bind. apply (wp_eq _ _ _ _ _ (on_engine_modify _ _)), wp_modify.
    split; [by left|]. split; [|split; [apply evolves_reflexive|done]]. constructor; [exact (engine_waited n e He Hent)|done|done| |done].
    split; [|done]. assert (entries e = []) as Hentr by (unfold entries; by rewrite Hent).
    unfold wakeups in Hw1. rewrite Hentr in Hw1. exact Hw1.
  - apply andb_prop in Hen as [Hid Hdir]. apply idle_spec in Hid as (_ & Hent & Hcons). apply Nat.eqb_eq, pending_direct_none in Hdir.
    apply (wp_eq _ _ _ _ _ (on_engine_modify _ _)). apply good_engine; [by constructor|by apply engine_retire|done|done|done|done|done].
  - apply wp_modify. split; [by left|]. split; [|split; [apply evolves_reflexive|done]]. by constructor.
  - apply wp_modify. unfold wakeup_exchange. split; [by left|].
    destruct (wakeupPending_ w) eqn:Hp; (split; [|split; [apply evolves_reflexive|done]]); (constructor; [done|done|done| |done]); (split; [|done]);
      cbn; fold e; rewrite ?Hp in Hw1; lia.
  - apply wp_modify. assert (0 < posting w)%nat as Hpos by (destruct (posting w); [done|lia]). split; [by left|]. split; [|split; [apply evolves_reflexive|done]].
    constructor; [by apply (engine_post n e)|done|done| |done]. split; [|done].
    change ((occurrences is_wakeup (packets e ++ [Wakeup]) + occurrences is_wakeup (entries e) + pred (posting w))%nat =
      if wakeupPending_ w then 1%nat else 0%nat).
    rewrite occurrences_app. change (occurrences is_wakeup [Wakeup]) with 1%nat. unfold wakeups in Hw1. lia.
  - apply bool_decide_eq_true in Hen as [key Hi]. apply wp_get. fold e. rewrite Hi.
    destruct (engine_complete n o key st bytes e He Hi) as (x & Hx & Ha & Hc & Hok). rewrite Hc in Hok. cbn [snd] in Hok.
    apply (wp_eq _ _ _ (Ok tt) (set_engine (set_system (delete o (inflight e)) (packets e ++ [Completion key o bytes]) (nativeEntries e)
      (put o x (set_status st (bytesTransferred (op x)) (error (op x)) (op x)) e)) w)); [unfold on_engine; fold e; by rewrite Hc|].
    split; [by left|]. split; [|split; [apply evolves_reflexive|done]]. constructor; [done| | | |done].
    + apply (observers_put o x (set_status st (bytesTransferred (op x)) (error (op x)) (op x)) e); try done. by left.
    + by apply (cancelled_put (cancelled w) o x (set_status st (bytesTransferred (op x)) (error (op x)) (op x)) e).
    + split; [|done].
      change ((occurrences is_wakeup (packets e ++ [Completion key o bytes]) + occurrences is_wakeup (entries e) + posting w)%nat =
        if wakeupPending_ w then 1%nat else 0%nat).
      rewrite occurrences_app. change (occurrences is_wakeup [_]) with 0%nat. unfold wakeups in Hw1. lia.
Qed.

Lemma channel_step n w lb :
  match lb with LNewChannel _ _ | LUpdate _ _ | LRemove _ | LDestroy _ | LTie _ _ _ | LOpen _ | LClose _ | LPreserve _ | LForget _ | LOtherLoop => True
  | _ => False end ->
  world_ok n w -> enabled n lb w = true -> wp (perform n lb) (good n w) w.
Proof.
  intros Hlb H Hen. pose proof (ok_registry n w H) as Hr. pose proof (ok_associated _ Hr) as (A1 & A2 & A3 & A4).
  apply (wp_weaken _ (registry_step w)); [|intros res w'; by apply good_registry].
  destruct lb; try done; clear Hlb; cbn in Hen; unfold perform.
  - rewrite !andb_true_iff in Hen. destruct Hen as [[_ Hc] Hfd]. apply negb_true_iff, bool_decide_eq_false in Hc.
    apply negb_true_iff, Z.eqb_neq in Hfd. apply (wp_eq _ _ _ _ _ (on_registry_modify _ _)). apply registry_step_to, registry_new_channel; [done| |done].
    by apply eq_None_not_Some.
  - rewrite !andb_true_iff in Hen. destruct Hen as [[_ Hg] Hm]. apply Z.ltb_lt in Hg.
    assert (exists ch, channels (registry w) !! c = Some ch) as [ch Hch].
    { unfold may_register in Hm. destruct (channels (registry w) !! c) as [ch|]; [by exists ch|done]. }
    destruct (registry_change (registry w) c ch (set_events events ch) Hr Hch) as [Hr1 Hev1]; try done.
    { intros Hidx. destruct (ok_registered _ Hr _ _ (ok_added _ Hr c ch Hch (or_intror Hidx))) as (y & Hy & _ & _ & Hi). rewrite Hch in Hy. by injection Hy as <-. }
    set (w1 := set_registry (set_channels (<[c := set_events events ch]> (channels (registry w))) (registry w)) w).
    apply wp_bind. apply wp_eq with (r := Ok tt) (s' := w1).
    { unfold change. rewrite on_registry_modify. by rewrite (alter_known _ c _ ch). }
    eapply wp_weaken; [apply (update_channel_step true c w1); [done| |done|done]|].
    + unfold may_register in *. cbn. rewrite lookup_insert_eq. rewrite Hch in Hm. exact Hm.
    + intros res w' (Hres & r & -> & Hr' & Hev). split; [done|]. exists r. split_and!; [done|done|by eapply evolves_transitive].
  - rewrite !andb_true_iff in Hen. destruct Hen as [[_ Hg] Hc]. apply Z.ltb_lt in Hg. apply bool_decide_eq_true in Hc. by apply remove_channel_step.
  - apply andb_prop in Hen as [_ Hc]. destruct (channels (registry w) !! c) as [ch|] eqn:Hch; [|done]. apply negb_true_iff in Hc.
    unfold destroy. apply wp_bind. apply (wp_eq _ _ _ _ _ (the_channel_ok c ch w Hch)). rewrite Hc. apply wp_bind. apply (wp_eq _ _ _ (Ok tt) w); [done|].
    apply (wp_eq _ _ _ _ _ (on_registry_modify _ _)). apply registry_step_to. by eapply registry_destroy.
  - apply andb_prop in Hen as [_ Hc]. apply bool_decide_eq_true in Hc as [ch Hch]. unfold change. apply (wp_eq _ _ _ _ _ (on_registry_modify _ _)).
    rewrite (alter_known _ c _ ch) by done. apply registry_step_to. apply (registry_change _ c ch); try done.
    intros Hidx. destruct (ok_registered _ Hr _ _ (ok_added _ Hr c ch Hch (or_intror Hidx))) as (y & Hy & _ & _ & Hi). rewrite Hch in Hy. by injection Hy as <-.
  - apply andb_prop in Hen as [_ Hfd]. apply negb_true_iff, Z.eqb_neq in Hfd. apply (wp_eq _ _ _ _ _ (on_registry_modify _ _)). apply registry_step_to.
    apply (registry_sets (registry w) ({[fd]} ∪ sockets (registry w)) (associated (registry w)) (associatedFds_ (registry w))); [done|done|done|set_solver|set_solver].
  - apply andb_prop in Hen as [_ Hfd]. apply negb_true_iff, bool_decide_eq_false in Hfd. apply (wp_eq _ _ _ _ _ (on_registry_modify _ _)). apply registry_step_to.
    apply (registry_sets (registry w) (sockets (registry w) ∖ {[fd]}) (associated (registry w) ∖ {[fd]}) (associatedFds_ (registry w))); [done|done|set_solver|set_solver|set_solver].
  - apply andb_prop in Hen as [Hrun Hfd]. apply running_spec in Hrun as [Hph _]. apply bool_decide_eq_true in Hfd.
    assert (loop_preserveSocketAssociation fd w = (Ok tt, set_registry (preserveSocketAssociation fd (registry w)) w)) as Hp.
    { unfold loop_preserveSocketAssociation, commitSocketAssociationPreservation.
      rewrite (bindM_ok _ _ _ IoAccepted (set_registry (preserveSocketAssociation fd (registry w)) w)); [done|]. rewrite bind_get.
      destruct (Z.eqb_spec fd kInvalidSocket) as [->|_]; [set_solver|]. by rewrite bool_decide_false. }
    apply (wp_eq _ _ _ _ _ Hp). apply registry_step_to.
    change (preserveSocketAssociation fd (registry w)) with (set_sockets (sockets (registry w)) (associated (registry w)) (set_associatedFds ({[fd]} ∪ associatedFds_ (registry w)) (registry w))).
    apply (registry_sets (registry w) (sockets (registry w)) (associated (registry w)) ({[fd]} ∪ associatedFds_ (registry w))); [done| |set_solver|done|done].
    intros fd' c Hc. specialize (A1 fd' c Hc). set_solver.
  - rewrite !andb_true_iff in Hen. destruct Hen as [[Hrun Hfd] Hne]. apply running_spec in Hrun as [Hph _]. apply bool_decide_eq_true in Hfd.
    apply negb_true_iff, Z.eqb_neq in Hne.
    assert (loop_forgetSocketAssociation fd w = (Ok tt, set_registry (forgetSocketAssociation fd (registry w)) w)) as Hp.
    { unfold loop_forgetSocketAssociation, commitSocketAssociationForget.
      rewrite (bindM_ok _ _ _ IoAccepted (set_registry (forgetSocketAssociation fd (registry w)) w)); [done|]. rewrite bind_get.
      destruct (Z.eqb_spec fd kInvalidSocket) as [->|_]; [done|]. by rewrite bool_decide_false. }
    apply (wp_eq _ _ _ _ _ Hp). apply registry_step_to.
    change (forgetSocketAssociation fd (registry w)) with (set_sockets (sockets (registry w)) (associated (registry w)) (set_associatedFds (associatedFds_ (registry w) ∖ {[fd]}) (registry w))).
    apply (registry_sets (registry w) (sockets (registry w)) (associated (registry w)) (associatedFds_ (registry w) ∖ {[fd]})); [done| |set_solver|done|done].
    intros fd' c Hc. specialize (A1 fd' c Hc). assert (fd' <> fd) by congruence. set_solver.
  - apply Z.ltb_lt in Hen. apply wp_bind.
    assert (on_registry allocateRegistrationGeneration w =
      (Ok (nextRegistrationGeneration (registry w)), set_registry (set_next (nextRegistrationGeneration (registry w) + 1) (registry w)) w)) as Ha.
    { unfold on_registry. rewrite allocate_ok; [done| |done]. apply (ok_generations _ Hr). }
    apply (wp_eq _ _ _ _ _ Ha). apply wp_ret. apply registry_step_to. by apply registry_other.
Qed.

Lemma perform_good n lb w : world_ok n w -> enabled n lb w = true -> wp (perform n lb) (good n w) w.
Proof.
  intros H Hen. destruct lb;
    first [ by apply block_step | by apply pair_step | by apply channel_step | by apply submit_step | by apply track_step
          | by apply decode_step | by apply dispatch_step ].
Qed.

(** ** Runs *)

Definition follows (n : nat) (w w' : World) : Prop :=
  world_ok n w' /\ evolves (registry w) (registry w') /\ submissions (engine w) `prefix_of` submissions (engine w').

Lemma step_follows n lb w res :
  world_ok n w -> step n lb w = Some res -> exists w', res = Ok w' /\ follows n w w'.
Proof.
  intros H Hs. unfold step in Hs. destruct (enabled n lb w) eqn:Hen; [|done].
  pose proof (perform_good n lb w H Hen) as Hwp. unfold wp, good in Hwp.
  destruct (perform n lb w) as [r w']. cbn in Hwp. destruct Hwp as [[-> | ->] Hrest]; injection Hs as <-; eauto.
Qed.

Lemma steps_follow n lbs w res :
  world_ok n w -> steps n lbs w = Some res -> exists w', res = Ok w' /\ follows n w w'.
Proof.
  revert w. induction lbs as [|lb lbs IH]; intros w H Hs; cbn in Hs.
  - injection Hs as <-. exists w. split; [done|]. split; [done|]. split; [apply evolves_reflexive|done].
  - destruct (step n lb w) as [r|] eqn:E; [|done]. destruct (step_follows n lb w r H E) as (w1 & -> & H1 & E1 & P1).
    destruct (IH w1 H1 Hs) as (w2 & -> & H2 & E2 & P2). exists w2. split; [done|]. split; [done|].
    split; [by eapply evolves_transitive|by etrans].
Qed.

Lemma steps_app n l1 l2 w w1 : steps n l1 w = Some (Ok w1) -> steps n (l1 ++ l2) w = steps n l2 w1.
Proof.
  revert w. induction l1 as [|lb l1 IH]; intros w H; cbn in H |- *; [by injection H as ->|].
  destruct (step n lb w) as [[w'|e]|]; [by apply IH|done|done].
Qed.

Lemma initial_world_ok n w : IocpPoller_new n = Ok w -> world_ok n w.
Proof.
  unfold IocpPoller_new. destruct (_ || _)%bool eqn:E; [done|]. intros [= <-].
  constructor; cbn.
  - split; [|split; [|split]].
    + split; [done|]. split; [intros o x Hx; cbn in Hx; by rewrite lookup_empty in Hx|]. split; [|done]. intros o. unfold tokens, entries, live. cbn.
      by rewrite lookup_omap, !lookup_empty.
    + unfold batch_ok, entries. cbn. split_and!; [done|lia|lia| |]; done.
    + unfold tickets_ok, tickets, live. cbn. split; [intros o b t Hl; by rewrite lookup_omap, lookup_empty in Hl|].
      split; [intros o b o' b' t Hl; by rewrite lookup_omap, lookup_empty in Hl|]. split; [constructor|]. split; [intros t Ht; by apply elem_of_nil in Ht|lia].
    + done.
  - split; [intros o x Hx; cbn in Hx; by rewrite lookup_empty in Hx|]. intros nt c Hin. by apply elem_of_nil in Hin.
  - intros t Ht. by apply elem_of_nil in Ht.
  - by split.
  - constructor; cbn; try (intros *; by rewrite lookup_empty); try set_solver.
    + split; [lia|]. intros c ch Hc. by rewrite lookup_empty in Hc.
Qed.

Lemma run_ok n w0 lbs res :
  IocpPoller_new n = Ok w0 -> steps n lbs w0 = Some res -> exists w, res = Ok w /\ world_ok n w.
Proof. intros H0 Hs. destruct (steps_follow n lbs w0 res (initial_world_ok n w0 H0) Hs) as (w & -> & Hw & _). eauto. Qed.

(** ** What the properties need *)

Lemma inflight_accepted e o key :
  table_ok e -> inflight e !! o = Some key -> exists x, storage e !! o = Some x /\ submissionAccepted (op x) = true.
Proof.
  intros (_ & _ & Ht & _) Hi. specialize (Ht o). unfold tokens in Ht. rewrite Hi in Ht.
  destruct (live e !! o) as [[b t]|] eqn:Hl; [|lia]. apply live_spec in Hl as (x & ? & ? & _). eauto.
Qed.

Lemma direct_lookup e nt : nt ∈ direct e ->
  exists i, (directNoticeCursor e <= i)%nat /\ notices e !! i = Some nt /\ consumer nt = true.
Proof.
  intros Hin. apply list_elem_of_In, List.filter_In in Hin as [Hin Hc]. apply list_elem_of_In, list_elem_of_lookup_1 in Hin as [i Hi].
  unfold pending in Hi. rewrite lookup_drop in Hi. exists (directNoticeCursor e + i)%nat. split; [lia|done].
Qed.

Lemma tally_witness (f : Cell -> bool) (m : gmap nat Cell) : tally f m <> 0 -> exists i x, m !! i = Some x /\ f x = true.
Proof.
  intros H. destruct (decide (map_Exists (fun _ x => f x = true) m)) as [(i & x & Hx & Hf)|Hno]; [eauto|].
  exfalso. apply H. apply msum_zero. intros i x Hx. destruct (f x) eqn:E; [|done]. exfalso. apply Hno. by exists i, x.
Qed.

Lemma occurrences_wakeup l : (0 < occurrences is_wakeup l)%nat -> Wakeup ∈ l.
Proof.
  induction l as [|p l IH]; [cbn; lia|]. rewrite occurrences_cons. destruct p; [by constructor|]. intros H. constructor 2. by apply IH.
Qed.

Lemma registration_of_spec c g r : registration_of (Some c) r = Some g ->
  exists ch, channels r !! c = Some ch /\ addedToLoop_ ch = true /\ registrationGeneration_ ch = g.
Proof.
  unfold registration_of. destruct (channels r !! c) as [ch|]; [|done]. destruct (addedToLoop_ ch) eqn:E; [|done]. intros [= <-]. eauto.
Qed.

(** What a submission that is taken records. *)
Lemma submission_recorded n w1 o c key w2 :
  world_ok n w1 -> step n (LSubmit o c key None) w1 = Some (Ok w2) -> tickets (engine w2) = S (tickets (engine w1)) ->
  submissions (engine w2) !! tickets (engine w1) = Some (c, registration_of c (registry w1)) /\ registry w2 = registry w1.
Proof.
  intros H Hs Htk. unfold step in Hs. destruct (enabled n _ w1) eqn:Hen; [|done]. cbn in Hen. rewrite !andb_true_iff in Hen.
  destruct Hen as (((Hrun & Hsub) & Hc) & _). apply running_spec in Hrun as [Hph Hent]. apply submitted_spec in Hsub as (x & Hx & Hh & Ha).
  destruct (proj1 (ok_engine n w1 H)) as (_ & Hops & _).
  assert (channel_ok c (registry w1)) as Hco by (intros c' ->; by apply bool_decide_eq_true in Hc).
  pose proof (submit_spec o x c key None w1 Hx Hh Hph (unaccepted_not_retained _ o x (proj1 (ok_engine n w1 H)) Hx Ha)
    (op_prepared _ (Hops o x Hx)) Ha Hco) as Heq.
  unfold perform in Hs. destruct (generation (op x) =? usize_max).
  - rewrite (bindM_ok _ _ _ _ _ Heq) in Hs. injection Hs as <-. cbn in Htk. unfold tickets in Htk. cbn in Htk. lia.
  - rewrite (bindM_ok _ _ _ _ _ Heq) in Hs. injection Hs as <-. split; [|done]. cbn. unfold tickets.
    rewrite lookup_app_r, Nat.sub_diag by lia. done.
Qed.

(** ** Properties *)

(** An update that dies, and one that does not. *)
Lemma update_dies n w c events taken :
  world_ok n w -> running w = true -> generations_left w = true -> exists_channel c w = true ->
  let r := fst (update c events taken w) in
  (r = Ok tt \/ r = Throw logic_error \/ r = Throw log_fatal) /\
  (r = Throw log_fatal <-> wants_association c (registry w) = true /\ turned_down c taken (registry w) = true).
Proof.
  intros Hw Hrun Hg Hc. cbn zeta. pose proof (ok_registry n w Hw) as Hr. apply running_spec in Hrun as [Hph _]. apply Z.ltb_lt in Hg.
  apply bool_decide_eq_true in Hc as [ch Hch].
  set (r1 := set_channels (<[c := set_events events ch]> (channels (registry w))) (registry w)).
  destruct (registry_change (registry w) c ch (set_events events ch) Hr Hch) as [Hr1 _]; try done.
  { intros Hidx. destruct (ok_registered _ Hr _ _ (ok_added _ Hr c ch Hch (or_intror Hidx))) as (y & Hy & _ & _ & Hi). rewrite Hch in Hy. by injection Hy as <-. }
  assert (change c (set_events events) w = (Ok tt, set_registry r1 w)) as E1.
  { unfold change. rewrite on_registry_modify. by rewrite (alter_known _ c _ ch). }
  unfold update. rewrite (bindM_ok _ _ _ _ _ E1).
  assert (wants_association c r1 = wants_association c (registry w) /\ turned_down c taken r1 = turned_down c taken (registry w)) as [Ew Et].
  { unfold wants_association, turned_down, r1. cbn. by rewrite lookup_insert_eq, Hch. }
  assert (is_Some (channels r1 !! c)) as Hc1 by (unfold r1; cbn; rewrite lookup_insert_eq; by eexists).
  pose proof (update_fatal taken c (set_registry r1 w) Hr1 Hc1 Hph Hg) as Hf. cbn zeta in Hf.
  change (registry (set_registry r1 w)) with r1 in Hf. rewrite Ew, Et in Hf.
  destruct (wants_association c (registry w)), (turned_down c taken (registry w)); cbn in Hf; [rewrite Hf; split; [by auto|by split]|..].
  all: destruct Hf as [-> | ->]; (split; [by auto|split; [discriminate|by intros [? ?]]]).
Qed.

(** C8. Memory safety, and none of the fatal checks: from its construction on, as long as the
    owners of operations and channels keep to [enabled], and whatever the other threads and
    the operations of the system do, no run ends in undefined behaviour, nor in a failed
    association, an underflow of obligations or an overflow of the batch.  Whatever operation
    the system has is in storage that is held, so is the context of every notice to come and of
    the consumer that runs; no wait has more notices than its batch; and the socket of a
    registered channel is associated with the port.  In runs the system takes the sockets that
    owners associate; and at any moment the update of a channel, of whatever owner, dies
    exactly if it asks for an association and the socket is closed, is with the port already,
    or is refused by the system. *)
Theorem completion_port_is_safe n w0 lbs res :
  IocpPoller_new n = Ok w0 -> steps n lbs w0 = Some res ->
  exists w, res = Ok w /\
    (forall o key, inflight (engine w) !! o = Some key -> exists x, storage (engine w) !! o = Some x /\ held (block x) (engine w) = true) /\
    (forall nt, nt ∈ direct (engine w) -> held (context nt) (engine w) = true) /\
    (forall b, consuming (engine w) = Some b -> held b (engine w) = true) /\
    (length (notices (engine w)) <= n)%nat /\
    (forall fd c, channels_ (registry w) !! fd = Some c -> fd ∈ associated (registry w) /\
       exists ch, channels (registry w) !! c = Some ch /\ fd_ ch = fd /\ addedToLoop_ ch = true) /\
    (forall c events taken, running w = true -> generations_left w = true -> exists_channel c w = true ->
       let r := fst (update c events taken w) in
       (r = Ok tt \/ r = Throw logic_error \/ r = Throw log_fatal) /\
       (r = Throw log_fatal <-> wants_association c (registry w) = true /\ turned_down c taken (registry w) = true)).
Proof.
  intros H0 Hs. destruct (run_ok n w0 lbs res H0 Hs) as (w & -> & Hw). exists w. split; [done|].
  destruct (ok_engine n w Hw) as (Htab & (B1 & B2 & B3 & B4 & B5) & _). pose proof (ok_registry n w Hw) as Hr.
  split; [|split; [|split; [|split; [|split]]]].
  - intros o key Hi. destruct (inflight_accepted _ o key Htab Hi) as (x & Hx & Ha). exists x. split; [done|].
    by eapply accepted_held.
  - intros nt Hin. destruct (direct_lookup _ _ Hin) as (i & Hi & Hnt & Hc). eapply held_lease, list_elem_of_lookup_2. by eapply B4.
  - intros b Hb. apply held_lease. by apply B5.
  - lia.
  - intros fd c Hc. destruct (ok_associated _ Hr) as (A1 & A2 & _). split; [apply A2; by eapply A1|].
    destruct (ok_registered _ Hr fd c Hc) as (ch & ? & ? & ? & _). eauto.
  - intros c events taken. by apply update_dies with n.
Qed.

(** C33. Every submission that the system has taken is delivered as a notice exactly once: a
    ticket has been delivered, or its operation is still submitted, and then the system has it
    exactly once and the poller its lease; and the consumers have been called exactly for the
    notices delivered to them, once each and in the order of delivery, but for those that still
    wait in the batch. *)
Theorem submissions_are_delivered_once n w0 lbs res :
  IocpPoller_new n = Ok w0 -> steps n lbs w0 = Some res ->
  exists w, res = Ok w /\ (let e := engine w in
    NoDup (delivered e).*1 /\
    (forall t, (t < tickets e)%nat <-> t ∈ (delivered e).*1 \/
       exists o x, storage e !! o = Some x /\ submissionAccepted (op x) = true /\ ticket x = t) /\
    (forall o x, storage e !! o = Some x -> submissionAccepted (op x) = true ->
       ticket x ∉ ((delivered e).*1) /\ tokens o e = 1%nat /\ retainedOperations_ e !! o = Some (block x)) /\
    (List.filter snd (delivered e)).*1 = consumed e ++ map notice_ticket (direct e)).
Proof.
  intros H0 Hs. destruct (run_ok n w0 lbs res H0 Hs) as (w & -> & Hw). exists w. split; [done|]. cbn zeta.
  destruct (ok_engine n w Hw) as (Htab & _ & (T1 & T2 & T3 & T4 & T5) & Hc). split_and!; [done| | |done].
  - intros t. split.
    + intros Hlt. destruct (T5 t Hlt) as [?|(o & b & Hl)]; [by left|right].
      apply live_spec in Hl as (x & Hx & Ha & _ & Ht). eauto.
    + intros [Hin|(o & x & Hx & Ha & <-)]; [by apply T4|]. eapply T1, live_spec. eauto.
  - intros o x Hx Ha. assert (live (engine w) !! o = Some (block x, ticket x)) as Hl by (apply live_spec; eauto).
    split; [by eapply T1|]. split; [|by eapply accepted_held]. destruct Htab as (_ & _ & Ht & _). by rewrite Ht, Hl.
Qed.

(** C34. Quiescence: when the poller reports that no completion is outstanding, every operation
    whose cancellation was tracked has been delivered; when it reports some, there is one that
    has not, and the system still has it or its packet. *)
Theorem quiescence_is_exact n w0 lbs res :
  IocpPoller_new n = Ok w0 -> steps n lbs w0 = Some res ->
  exists w, res = Ok w /\ (let e := engine w in
    (quiescent e = true -> forall t, t ∈ cancelled w -> t ∈ (delivered e).*1) /\
    (quiescent e = false -> exists o x, storage e !! o = Some x /\ shutdownObligation (op x) = true /\
       ticket x ∉ ((delivered e).*1) /\ tokens o e = 1%nat) /\
    0 <= outstandingOperationCount_ e <= Z.of_nat (size (storage e))).
Proof.
  intros H0 Hs. destruct (run_ok n w0 lbs res H0 Hs) as (w & -> & Hw). exists w. split; [done|]. cbn zeta.
  destruct (ok_engine n w Hw) as ((Hret & Hops & Ht & Hout) & _ & (T1 & _) & _). unfold quiescent, hasPendingCompletionOperations.
  rewrite negb_involutive. split; [|split].
  - intros Hq t Hin. apply Z.eqb_eq in Hq. destruct (ok_cancelled n w Hw t Hin) as [?|(o & x & Hx & Ha & Ho & _)]; [done|].
    pose proof (tally_member (fun x => shutdownObligation (op x)) (storage (engine w)) o x Hx Ho). lia.
  - intros Hq. apply Z.eqb_neq in Hq. rewrite Hout in Hq. destruct (tally_witness _ _ Hq) as (o & x & Hx & Ho).
    assert (live (engine w) !! o = Some (block x, ticket x)) as Hl by (apply live_spec; exists x; split_and!; try done; by apply (Hops o x Hx)).
    exists o, x. split_and!; [done|done|by eapply T1|by rewrite Ht, Hl].
  - rewrite Hout. apply tally_bounds.
Qed.

(** C35. No wake-up is lost: when the owner is outside a wait and a wake-up has been asked for
    since its last one, a wake-up packet is in the queue of the system, or a thread is about to
    post it; and there is never more than one. *)
Theorem completion_wakeup_not_lost n w0 lbs res :
  IocpPoller_new n = Ok w0 -> steps n lbs w0 = Some res ->
  exists w, res = Ok w /\ (wakeups (engine w) + posting w <= 1)%nat /\
    (nativeEntries (engine w) = None -> asked w = true -> Wakeup ∈ packets (engine w) \/ posting w = 1%nat).
Proof.
  intros H0 Hs. destruct (run_ok n w0 lbs res H0 Hs) as (w & -> & Hw). exists w. split; [done|].
  destruct (ok_wake n w Hw) as [Hw1 Hw2]. split; [destruct (wakeupPending_ w); lia|]. intros Hent Ha. rewrite (Hw2 Hent Ha) in Hw1.
  destruct (decide (posting w = 1%nat)) as [?|Hne]; [by right|left].
  assert (entries (engine w) = []) as He by (unfold entries; by rewrite Hent). unfold wakeups in Hw1. rewrite He in Hw1.
  change (occurrences is_wakeup []) with 0%nat in Hw1. apply occurrences_wakeup. lia.
Qed.

(** C36. A consumer is told that its observer is current only if that is so: the channel was
    registered when the operation was submitted, and has been registered ever since under the
    same generation, whatever happened to it, to other channels at its address or to other
    sockets of the same number. *)
Theorem current_observer_never_revoked n w0 lbs1 w1 o c key w2 lbs2 w3 nt :
  IocpPoller_new n = Ok w0 -> steps n lbs1 w0 = Some (Ok w1) -> step n (LSubmit o c key None) w1 = Some (Ok w2) ->
  tickets (engine w2) = S (tickets (engine w1)) -> steps n lbs2 w2 = Some (Ok w3) ->
  nt ∈ notices (engine w3) -> notice_ticket nt = tickets (engine w1) -> completionObserverCurrent nt w3 = (Ok true, w3) ->
  exists c', c = Some c' /\ observer nt = Some c' /\
    forall pre post w, lbs2 = pre ++ post -> steps n pre w2 = Some (Ok w) -> live_registration c' (observerGeneration nt) (registry w).
Proof.
  intros H0 H1 Hsub Htk H2 Hin Hnt Hcur.
  destruct (run_ok n w0 lbs1 _ H0 H1) as (? & [= <-] & Hw1).
  destruct (step_follows n _ w1 _ Hw1 Hsub) as (? & [= <-] & Hw2 & _ & _).
  destruct (steps_follow n lbs2 w2 _ Hw2 H2) as (? & [= <-] & Hw3 & _ & P3).
  pose proof (submission_recorded n w1 o c key w2 Hw1 Hsub Htk) as (Hrec & Hreg12).
  rewrite (current_spec nt w3 (ok_registry n w3 Hw3)) in Hcur. injection Hcur as Hcur. unfold current in Hcur.
  destruct (observer nt) as [c'|] eqn:Hobs; [|done]. apply andb_prop in Hcur as [Hat Hgen].
  destruct (ok_observers n w3 Hw3) as [_ Hn]. specialize (Hn nt c' Hin Hobs). rewrite Hnt in Hn.
  pose proof (prefix_lookup_Some _ _ _ _ Hrec P3) as Hn'. rewrite Hn' in Hn. injection Hn as -> Hrg.
  exists c'. split; [done|]. split; [done|]. intros pre post w -> Hpre.
  unfold registered_at in Hat. apply bool_decide_eq_true in Hat.
  destruct (ok_registered _ (ok_registry n w3 Hw3) _ _ Hat) as (ch & Hch & _ & Hadd & _). rewrite Hch in Hgen. apply Z.eqb_eq in Hgen.
  destruct (steps_follow n pre w2 _ Hw2 Hpre) as (? & [= <-] & Hw & [Ev _] & _).
  rewrite (steps_app n pre post w2 w Hpre) in H2. destruct (steps_follow n post w _ Hw H2) as (? & [= <-] & _ & [_ Ev3] & _).
  apply Ev3; [|by exists ch]. apply registration_of_spec in Hrg as (ch1 & Hch1 & _ & <-). rewrite <- Hreg12 in Hch1.
  pose proof (proj2 (ok_generations _ (ok_registry n w2 Hw2)) _ _ Hch1). lia.
Qed.

(** ** Examples *)

(** A connection: its channel is registered, a read and a write are submitted, the first
    attempt of the write is refused; two threads wake the owner; the read ends, and its
    consumer submits the next one. *)
Definition demo_open : list Label :=
  [LOpen 100; LNewChannel 5 100; LUpdate 5 1;
   LNewBlock 1 [(10%nat, IocpOperation_new Read true true); (11%nat, IocpOperation_new Write true true)];
   LSubmit 11 (Some 5%nat) 100 (Some 10054); LSubmit 11 (Some 5%nat) 100 None].
Definition demo_read : Label := LSubmit 10 (Some 5%nat) 100 None.
Definition demo_wait : list Label := [LWake; LPost; LWake; LComplete 10 0 42; LWait 2; LDecode 0; LDecode 0; LWaited].

(** Inside the consumer the connection is closed; its operations end as cancelled, their
    observer is gone, and their block is released after the last notice. *)
Definition demo_close : list Label :=
  [LDispatch; demo_read; LCancel 10 true; LCancel 11 true; LUpdate 5 0; LRemove 5; LDestroy 5; LClose 100; LConsumed; LRetire;
   LDropBlock 1; LComplete 10 kStatusCancelled 0; LComplete 11 5 0].
Definition demo_drain : list Label := [LWait 2; LDecode 0; LDecode 0; LWaited; LDispatch; LConsumed; LDispatch; LConsumed; LWake].
Definition demo_all : list Label := demo_open ++ demo_read :: demo_wait ++ demo_close ++ demo_drain.

(** The world after a run. *)
Definition after (lbs : list Label) : World := match steps 8 lbs initial with Some (Ok w) => w | _ => initial end.

Example demo_consumed : consumed (engine (after demo_all)) = [1; 2; 0]%nat /\
  map observer (notices (engine (after demo_all))) = [None; None] /\
  map status (notices (engine (after demo_all))) = [Cancelled; Failed].
Proof. by vm_compute. Qed.

Lemma completion_port_is_safe_witness :
  steps 8 demo_all initial = Some (Ok (after demo_all)) /\ exists w, Ok (after demo_all) = Ok w /\ (length (notices (engine w)) <= 8)%nat.
Proof.
  assert (steps 8 demo_all initial = Some (Ok (after demo_all))) as H by (vm_compute; reflexivity).
  split; [exact H|]. destruct (completion_port_is_safe 8 initial demo_all _ eq_refl H) as (w & Hw & _ & _ & _ & Hn & _). exists w. exact (conj Hw Hn).
Defined.

Lemma submissions_are_delivered_once_witness :
  steps 8 demo_all initial = Some (Ok (after demo_all)) /\ exists w, Ok (after demo_all) = Ok w /\ NoDup (delivered (engine w)).*1.
Proof.
  assert (steps 8 demo_all initial = Some (Ok (after demo_all))) as H by (vm_compute; reflexivity).
  split; [exact H|]. destruct (submissions_are_delivered_once 8 initial demo_all _ eq_refl H) as (w & Hw & Hn & _). exists w. exact (conj Hw Hn).
Defined.

Lemma quiescence_is_exact_witness :
  steps 8 demo_all initial = Some (Ok (after demo_all)) /\ cancelled (after demo_all) = [2; 0]%nat /\
  exists w, Ok (after demo_all) = Ok w /\ (quiescent (engine w) = true -> forall t, t ∈ cancelled w -> t ∈ (delivered (engine w)).*1).
Proof.
  assert (steps 8 demo_all initial = Some (Ok (after demo_all))) as H by (vm_compute; reflexivity).
  split; [exact H|]. split; [vm_compute; reflexivity|].
  destruct (quiescence_is_exact 8 initial demo_all _ eq_refl H) as (w & Hw & Hq & _). exists w. exact (conj Hw Hq).
Defined.

Lemma completion_wakeup_not_lost_witness :
  steps 8 demo_all initial = Some (Ok (after demo_all)) /\ asked (after demo_all) = true /\
  exists w, Ok (after demo_all) = Ok w /\ (wakeups (engine w) + posting w <= 1)%nat /\
  (nativeEntries (engine w) = None -> asked w = true -> Wakeup ∈ packets (engine w) \/ posting w = 1%nat).
Proof.
  assert (steps 8 demo_all initial = Some (Ok (after demo_all))) as H by (vm_compute; reflexivity).
  split; [exact H|]. split; [vm_compute; reflexivity|]. exact (completion_wakeup_not_lost 8 initial demo_all _ eq_refl H).
Defined.

Definition demo_notice : CompletionNotice :=
  match notices (engine (after (demo_open ++ demo_read :: demo_wait))) with
  | nt :: _ => nt
  | [] => mkNotice (0%nat, 0) Read None 0 0 0 0 Failed false 0 0
  end.

Lemma current_observer_never_revoked_witness :
  observer demo_notice = Some 5%nat /\
  exists c', Some 5%nat = Some c' /\ observer demo_notice = Some c' /\
  forall pre post w, demo_wait = pre ++ post -> steps 8 pre (after (demo_open ++ [demo_read])) = Some (Ok w) ->
      live_registration c' (observerGeneration demo_notice) (registry w).
Proof.
  split; [vm_compute; reflexivity|].
  refine (current_observer_never_revoked 8 initial demo_open (after demo_open) 10 (Some 5%nat) 100 (after (demo_open ++ [demo_read]))
    demo_wait (after (demo_open ++ demo_read :: demo_wait)) demo_notice eq_refl _ _ _ _ _ _ _).
  - vm_compute. reflexivity.
  - vm_compute. reflexivity.
  - vm_compute. reflexivity.
  - vm_compute. reflexivity.
  - vm_compute. constructor.
  - vm_compute. reflexivity.
  - vm_compute. reflexivity.
Defined.
