(* ===== verification/MemoryRetention.v ===== *)
(** * Accounting of fixed network storage

    Model of the process-wide counters of src/core/net/NetworkMemoryRetention.cc.  The
    functions are called by any thread; every atomic operation of theirs is a step of its
    own, so the calls of several clients interleave in every way.  A client is an owner of
    storage of one category (a read block, an AcceptEx pool, a batch of completions), whose
    own calls do not overlap.  The counters are atomics, which have a single order of
    modifications each; that the operations are relaxed only concerns other memory. *)

From S2P Require Import Prelude.

Local Open Scope Z_scope.
Local Open Scope usize_scope.

Inductive NetworkFixedStorageCategory := AcceptExFixedPool | IocpCompletionBatch | ConnectionLocalRead.

#[export] Instance NetworkFixedStorageCategory_eq_dec : EqDecision NetworkFixedStorageCategory.
Proof. solve_decision. Defined.

Definition kCategoryCount : nat := 3.

Definition categoryIndex (category : NetworkFixedStorageCategory) : nat :=
  match category with
  | AcceptExFixedPool => 0
  | IocpCompletionBatch => 1
  | ConnectionLocalRead => 2
  end.

(** The counters. *)
Record Tracker := mkTracker {
  currentBytes : list Z;
  peakBytes : list Z;
  totalBytes : Z;
  peakTotalBytes : Z;
}.

Definition Tracker_new : Tracker := mkTracker (replicate kCategoryCount 0) (replicate kCategoryCount 0) 0 0.

Definition set_current (c : NetworkFixedStorageCategory) (v : Z) (t : Tracker) : Tracker :=
  mkTracker (<[categoryIndex c := v]> (currentBytes t)) (peakBytes t) (totalBytes t) (peakTotalBytes t).
Definition set_peak (c : NetworkFixedStorageCategory) (v : Z) (t : Tracker) : Tracker :=
  mkTracker (currentBytes t) (<[categoryIndex c := v]> (peakBytes t)) (totalBytes t) (peakTotalBytes t).
Definition set_total (v : Z) (t : Tracker) : Tracker := mkTracker (currentBytes t) (peakBytes t) v (peakTotalBytes t).
Definition set_peak_total (v : Z) (t : Tracker) : Tracker := mkTracker (currentBytes t) (peakBytes t) (totalBytes t) v.

Definition loadCurrent (c : NetworkFixedStorageCategory) (t : Tracker) : Z := currentBytes t !!! categoryIndex c.
Definition loadPeak (c : NetworkFixedStorageCategory) (t : Tracker) : Z := peakBytes t !!! categoryIndex c.

(** One atomic step of [updatePeak]: the load, or a [compare_exchange_weak], with the test of
    the loop that follows it.  [observed]: what has been seen of the peak, once it has been
    loaded; [weak]: the exchange fails for no reason.  [None]: the function returns. *)
Definition updatePeak (weak : bool) (value : Z) (observed : option Z) (peak : Z) : Z * option Z :=
  let again := if peak <? value then Some peak else None in
  match observed with
  | None => (peak, again)
  | Some o => if negb weak && (peak =? o) then (value, None) else (peak, again)
  end.

(** Where a call of a client is. *)
Inductive Op :=
  | Idle
  | RetainCategory (bytes : Z)
  | PeakCategory (bytes value : Z) (observed : option Z)
  | RetainTotal (bytes : Z)
  | PeakTotal (bytes value : Z) (observed : option Z)
  | ReleaseCategory (bytes : Z)
  | ReleaseTotal (bytes categoryPrevious : Z).

(** [held]: what the client has retained with calls that have returned, less what it has
    released. *)
Record Client := mkClient { category : NetworkFixedStorageCategory; held : Z; op : Op }.

(** [retainNetworkFixedStorage] and [releaseNetworkFixedStorage] up to their first atomic
    operation. *)
Definition retainNetworkFixedStorage (bytes : Z) (x : Client) : Client :=
  if bytes =? 0 then x else mkClient (category x) (held x) (RetainCategory bytes).
Definition releaseNetworkFixedStorage (bytes : Z) (x : Client) : Client :=
  if bytes =? 0 then x else mkClient (category x) (held x - bytes) (ReleaseCategory bytes).

(** The next atomic operation of a call. *)
Definition advance (weak : bool) (x : Client) (t : Tracker) : result (Client * Tracker) :=
  let c := category x in
  let goto o := mkClient c (held x) o in
  match op x with
  | Idle => Ok (x, t)
  | RetainCategory bytes =>
      let categoryCurrent := loadCurrent c t ⊕ bytes in
      Ok (goto (PeakCategory bytes categoryCurrent None), set_current c categoryCurrent t)
  | PeakCategory bytes value observed =>
      let '(peak, next) := updatePeak weak value observed (loadPeak c t) in
      Ok (goto (match next with Some o => PeakCategory bytes value (Some o) | None => RetainTotal bytes end), set_peak c peak t)
  | RetainTotal bytes =>
      let totalCurrent := totalBytes t ⊕ bytes in
      Ok (goto (PeakTotal bytes totalCurrent None), set_total totalCurrent t)
  | PeakTotal bytes value observed =>
      let '(peak, next) := updatePeak weak value observed (peakTotalBytes t) in
      Ok (match next with Some o => goto (PeakTotal bytes value (Some o)) | None => mkClient c (held x + bytes) Idle end, set_peak_total peak t)
  | ReleaseCategory bytes =>
      let categoryPrevious := loadCurrent c t in
      Ok (goto (ReleaseTotal bytes categoryPrevious), set_current c (categoryPrevious ⊖ bytes) t)
  | ReleaseTotal bytes categoryPrevious =>
      let totalPrevious := totalBytes t in
      let t := set_total (totalPrevious ⊖ bytes) t in
      if (categoryPrevious <? bytes) || (totalPrevious <? bytes) then Throw log_fatal else Ok (goto Idle, t)
  end.

(** [networkFixedStorageRetentionSnapshot] on Windows; the [n]-th load sees the counters as
    they are at its instant [at_ n]. *)
Record NetworkFixedStorageRetentionSnapshot := mkSnapshot {
  sharedReadPoolBytes : Z; sharedReadSlabBytes : Z;
  acceptExFixedPoolBytes : Z; peakAcceptExFixedPoolBytes : Z;
  iocpCompletionBatchBytes : Z; peakIocpCompletionBatchBytes : Z;
  connectionLocalReadBytes : Z; peakConnectionLocalReadBytes : Z;
  totalRetainedBytes : Z; peakTotalRetainedBytes : Z;
  acceptExSlotLimitPerAcceptor : Z; iocpCompletionBatchEntriesPerLoop : Z; connectionLocalReadChunkLimitBytes : Z;
}.

Definition networkFixedStorageRetentionSnapshot (at_ : nat -> Tracker) : NetworkFixedStorageRetentionSnapshot :=
  mkSnapshot 0 0
    (loadCurrent AcceptExFixedPool (at_ 0%nat)) (loadPeak AcceptExFixedPool (at_ 1%nat))
    (loadCurrent IocpCompletionBatch (at_ 2%nat)) (loadPeak IocpCompletionBatch (at_ 3%nat))
    (loadCurrent ConnectionLocalRead (at_ 4%nat)) (loadPeak ConnectionLocalRead (at_ 5%nat))
    (totalBytes (at_ 6%nat)) (peakTotalBytes (at_ 7%nat)) 64 64 (4 * 1024).

(** ** The machine *)

(** A counter: that of a category, or the total. *)
Definition key : Type := option NetworkFixedStorageCategory.

Definition cur (k : key) (t : Tracker) : Z := match k with Some c => loadCurrent c t | None => totalBytes t end.
Definition peak (k : key) (t : Tracker) : Z := match k with Some c => loadPeak c t | None => peakTotalBytes t end.

(** [high]: the highest value that a counter has ever had. *)
Record World := mkWorld { tracker : Tracker; high : key -> Z; clients : gmap nat Client }.

Definition World_new : World := mkWorld Tracker_new (fun _ => 0) ∅.

(** The storage that a client has or asks for. *)
Definition reserve (x : Client) : Z :=
  held x + match op x with
           | Idle => 0
           | RetainCategory b | PeakCategory b _ _ | RetainTotal b | PeakTotal b _ _ | ReleaseCategory b | ReleaseTotal b _ => b
           end.

Inductive Label :=
  | Join (i : nat) (c : NetworkFixedStorageCategory)
  | CallRetain (i : nat) (bytes : Z)
  | CallRelease (i : nat) (bytes : Z)
  | Advance (i : nat) (weak : bool).

Definition put (i : nat) (x : Client) (w : World) : World := mkWorld (tracker w) (high w) (<[i:=x]> (clients w)).

Definition is_idle (x : Client) : bool := match op x with Idle => true | _ => false end.

(** A client releases what it holds; and all storage there is has a size. *)
Definition step (lb : Label) (w : World) : option (result World) :=
  match lb with
  | Join i c => match clients w !! i with Some _ => None | None => Some (Ok (put i (mkClient c 0 Idle) w)) end
  | CallRetain i b =>
      x ← clients w !! i;
      if is_idle x && (0 <=? b) && (msum reserve (clients w) + b <? usize_lim) then Some (Ok (put i (retainNetworkFixedStorage b x) w)) else None
  | CallRelease i b =>
      x ← clients w !! i;
      if is_idle x && (0 <=? b) && (b <=? held x) then Some (Ok (put i (releaseNetworkFixedStorage b x) w)) else None
  | Advance i weak =>
      x ← clients w !! i;
      Some (match advance weak x (tracker w) with
            | Ok (x, t) => Ok (mkWorld t (fun k => Z.max (high w k) (cur k t)) (<[i:=x]> (clients w)))
            | Throw e => Throw e
            end)
  end.

Fixpoint steps (ls : list Label) (w : World) : option (result World) :=
  match ls with
  | [] => Some (Ok w)
  | lb :: ls => match step lb w with Some (Ok w) => steps ls w | r => r end
  end.

(** ** What a client adds to a counter *)

(** What the operations done so far by a client leave in the counter [k]. *)
Definition contribution (k : key) (x : Client) : Z :=
  match k with
  | Some c =>
      if decide (category x = c) then
        held x + match op x with PeakCategory b _ _ | RetainTotal b | PeakTotal b _ _ | ReleaseCategory b => b | _ => 0 end
      else 0
  | None => held x + match op x with PeakTotal b _ _ | ReleaseCategory b | ReleaseTotal b _ => b | _ => 0 end
  end.

(** The value that a client is about to raise the peak of [k] to. *)
Definition raising (k : key) (x : Client) : option Z :=
  match k, op x with
  | Some c, PeakCategory _ v _ => if decide (category x = c) then Some v else None
  | None, PeakTotal _ v _ => Some v
  | _, _ => None
  end.

(** A step as one counter sees it: its value [c], its peak [p], the contribution [n] of the
    client that moves, and what that client is about to raise the peak to. *)
Inductive cell_step (c p n : Z) (r : option Z) : Z -> Z -> Z -> option Z -> Prop :=
  | cell_same : cell_step c p n r c p n r
  | cell_add b : 0 <= b -> r = None -> cell_step c p n r (c + b) p (n + b) (Some (c + b))
  | cell_sub b : 0 <= b -> r = None -> cell_step c p n r (c - b) p (n - b) None
  | cell_raised v : r = Some v -> cell_step c p n r c (Z.max p v) n None.

Definition seen_below (value : Z) (observed : option Z) : Prop := match observed with Some o => o < value | None => True end.

Definition client_ok (x : Client) : Prop :=
  0 <= held x /\
  match op x with
  | Idle => True
  | RetainCategory b | RetainTotal b | ReleaseCategory b => 0 < b
  | PeakCategory b v o | PeakTotal b v o => 0 < b /\ seen_below v o
  | ReleaseTotal b previous => 0 < b <= previous
  end.

Definition sizes_ok (t : Tracker) : Prop := length (currentBytes t) = kCategoryCount /\ length (peakBytes t) = kCategoryCount.

Lemma index_bound c : (categoryIndex c < kCategoryCount)%nat.
Proof. destruct c; unfold kCategoryCount; cbn; lia. Qed.

Lemma index_inj c d : c <> d -> categoryIndex c <> categoryIndex d.
Proof. destruct c, d; done. Qed.

Lemma contribution_bounds k x : client_ok x -> 0 <= contribution k x <= reserve x.
Proof. destruct x as [c h o]. intros [Hh Ho]. unfold contribution, reserve. cbn in *. destruct k; [destruct (decide _)|]; destruct o; lia. Qed.

(** *** One counter at a time *)

Lemma cur_set_current k c v t : sizes_ok t -> cur k (set_current c v t) = if decide (k = Some c) then v else cur k t.
Proof.
  intros [H _]. destruct k as [d|]; cbn; [|done]. unfold loadCurrent. cbn. destruct (decide (d = c)) as [->|Hne].
  - rewrite decide_True by done. apply list_lookup_total_insert_eq. rewrite H. apply index_bound.
  - rewrite decide_False by congruence. by apply list_lookup_total_insert_ne, index_inj.
Qed.

Lemma peak_set_peak k c v t : sizes_ok t -> peak k (set_peak c v t) = if decide (k = Some c) then v else peak k t.
Proof.
  intros [_ H]. destruct k as [d|]; cbn; [|done]. unfold loadPeak. cbn. destruct (decide (d = c)) as [->|Hne].
  - rewrite decide_True by done. apply list_lookup_total_insert_eq. rewrite H. apply index_bound.
  - rewrite decide_False by congruence. by apply list_lookup_total_insert_ne, index_inj.
Qed.

Lemma sizes_current c v t : sizes_ok t -> sizes_ok (set_current c v t).
Proof. unfold sizes_ok. cbn. by rewrite length_insert. Qed.

Lemma sizes_peak c v t : sizes_ok t -> sizes_ok (set_peak c v t).
Proof. unfold sizes_ok. cbn. by rewrite length_insert. Qed.

(** A step of [updatePeak] leaves the peak alone and has seen less than the value, or
    returns with the peak raised. *)
Lemma updatePeak_spec weak value observed p : seen_below value observed ->
  let '(p', next) := updatePeak weak value observed p in
  match next with Some o => p' = p /\ o < value | None => p' = Z.max p value end.
Proof.
  unfold updatePeak. destruct observed as [o|]; cbn.
  - destruct weak; cbn; [|destruct (Z.eqb_spec p o)]; try (destruct (Z.ltb_spec p value)); lia.
  - destruct (Z.ltb_spec p value); lia.
Qed.

Lemma cell_same' c p n r c' p' n' r' : c' = c -> p' = p -> n' = n -> r' = r -> cell_step c p n r c' p' n' r'.
Proof. intros -> -> -> ->. apply cell_same. Qed.
Lemma cell_add' b c p n r c' p' n' r' : 0 <= b -> r = None -> c' = c + b -> p' = p -> n' = n + b -> r' = Some c' -> cell_step c p n r c' p' n' r'.
Proof. intros Hb Hr -> -> -> ->. by apply cell_add. Qed.
Lemma cell_sub' b c p n r c' p' n' r' : 0 <= b -> r = None -> c' = c - b -> p' = p -> n' = n - b -> r' = None -> cell_step c p n r c' p' n' r'.
Proof. intros Hb Hr -> -> -> ->. by apply cell_sub. Qed.
Lemma cell_raised' v c p n r c' p' n' r' : r = Some v -> c' = c -> p' = Z.max p v -> n' = n -> r' = None -> cell_step c p n r c' p' n' r'.
Proof. intros Hr -> -> -> ->. by apply cell_raised. Qed.

(** Every operation of a client is one of these steps for every counter. *)
Lemma advance_spec weak x t : client_ok x -> sizes_ok t ->
  (forall k, contribution k x <= cur k t) -> (forall k, cur k t - contribution k x + reserve x < usize_lim) ->
  exists x' t', advance weak x t = Ok (x', t') /\ client_ok x' /\ sizes_ok t' /\ reserve x' <= reserve x /\
    forall k, cell_step (cur k t) (peak k t) (contribution k x) (raising k x) (cur k t') (peak k t') (contribution k x') (raising k x').
Proof.
  intros [Hh Hop] Hs Hlow Hhigh. destruct x as [c h o]. unfold advance. cbn [category held op] in *.
  pose proof (Hlow (Some c)) as Lc. pose proof (Hlow None) as Lt. pose proof (Hhigh (Some c)) as Uc. pose proof (Hhigh None) as Ut.
  unfold contribution, reserve in Lc, Lt, Uc, Ut. cbn [category held op] in Lc, Lt, Uc, Ut. rewrite decide_True in Lc, Uc by done.
  unfold cur in Lc, Lt, Uc, Ut.
  destruct o as [|b|b v o|b|b v o|b|b previous].
  - exists (mkClient c h Idle), t. split_and!; try done. intros k. apply cell_same.
  - eexists _, _. split; [reflexivity|]. split; [by split|]. split; [by apply sizes_current|]. split; [unfold reserve; cbn; lia|]. unwrap.
    intros k. destruct k as [d|]; [|by apply cell_same]. rewrite cur_set_current by done. unfold contribution, raising. cbn.
    destruct (decide (c = d)) as [<-|Hne]; [rewrite decide_True by done; apply (cell_add' b); cbn; done || lia|].
    rewrite decide_False by congruence. by apply cell_same'.
  - destruct Hop as [Hb Ho]. pose proof (updatePeak_spec weak v o (loadPeak c t) Ho) as Hu. destruct (updatePeak weak v o (loadPeak c t)) as [p next].
    eexists _, _. split; [reflexivity|]. split; [destruct next; split; cbn; try done; lia|]. split; [by apply sizes_peak|]. split; [unfold reserve; destruct next; cbn; lia|].
    intros k. destruct k as [d|]; [|by destruct next; apply cell_same]. rewrite peak_set_peak by done. unfold contribution, raising. cbn.
    destruct (decide (c = d)) as [<-|Hne].
    + rewrite decide_True by done. destruct next as [o'|]; cbn; rewrite ?decide_True by done; [destruct Hu as [-> _]; by apply cell_same'|].
      by apply (cell_raised' v).
    + rewrite decide_False by congruence. destruct next; cbn; rewrite ?decide_False by congruence; by apply cell_same'.
  - eexists _, _. split; [reflexivity|]. split; [by split|]. split; [done|]. split; [unfold reserve; cbn; lia|]. unwrap.
    intros k. destruct k as [d|]; [apply cell_same|]. apply (cell_add' b); cbn; done || lia.
  - destruct Hop as [Hb Ho]. pose proof (updatePeak_spec weak v o (peakTotalBytes t) Ho) as Hu. destruct (updatePeak weak v o (peakTotalBytes t)) as [p next].
    eexists _, _. split; [reflexivity|]. split; [destruct next; split; cbn; try done; lia|]. split; [done|]. split; [unfold reserve; destruct next; cbn; lia|].
    intros k. destruct k as [d|].
    + unfold contribution, raising. destruct next; cbn; [by apply cell_same'|]. destruct (decide (c = d)); apply cell_same'; done || lia.
    + destruct next as [o'|]; [destruct Hu as [-> _]; by apply cell_same'|]. apply (cell_raised' v); cbn; done || lia.
  - eexists _, _. split; [reflexivity|]. split; [split; cbn; lia|]. split; [by apply sizes_current|]. split; [unfold reserve; cbn; lia|]. unwrap.
    intros k. destruct k as [d|]; [|by apply cell_same]. rewrite cur_set_current by done. unfold contribution, raising. cbn.
    destruct (decide (c = d)) as [<-|Hne]; [rewrite decide_True by done; apply (cell_sub' b); cbn; done || lia|].
    rewrite decide_False by congruence. by apply cell_same'.
  - destruct (Z.ltb_spec previous b); [lia|]. destruct (Z.ltb_spec (totalBytes t) b); [lia|]. cbn [orb].
    eexists _, _. split; [reflexivity|]. split; [by split|]. split; [done|]. split; [unfold reserve; cbn; lia|]. unwrap.
    intros k. destruct k as [d|]; [apply cell_same|]. apply (cell_sub' b); cbn; done || lia.
Qed.

(** ** The invariant *)

Record cell_ok (k : key) (w : World) : Prop := {
  c_exact : cur k (tracker w) = msum (contribution k) (clients w);
  c_high : cur k (tracker w) <= high w k;
  c_below : peak k (tracker w) <= high w k;
  c_raising i x v : clients w !! i = Some x -> raising k x = Some v -> v <= high w k;
  c_peak : peak k (tracker w) = high w k \/ exists i x, clients w !! i = Some x /\ raising k x = Some (high w k);
}.

Record world_ok (w : World) : Prop := {
  w_sizes : sizes_ok (tracker w);
  w_clients i x : clients w !! i = Some x -> client_ok x;
  w_room : msum reserve (clients w) < usize_lim;
  w_cells k : cell_ok k w;
}.

Lemma cell_preserved k w i x x' t' :
  cell_ok k w -> clients w !! i = Some x ->
  cell_step (cur k (tracker w)) (peak k (tracker w)) (contribution k x) (raising k x) (cur k t') (peak k t') (contribution k x') (raising k x') ->
  cell_ok k (mkWorld t' (fun k => Z.max (high w k) (cur k t')) (<[i:=x']> (clients w))) /\ peak k (tracker w) <= peak k t'.
Proof.
  intros [E1 E2 E3 E4 E5] Hi Hs.
  assert (forall j y, <[i:=x']> (clients w) !! j = Some y -> j = i /\ y = x' \/ clients w !! j = Some y) as Hold.
  { intros j y Hj. destruct (decide (j = i)) as [->|Hne]; [left|right]; [rewrite lookup_insert_eq in Hj; by injection Hj|by rewrite lookup_insert_ne in Hj]. }
  assert (forall v j y, clients w !! j = Some y -> raising k y = Some v -> raising k x' = raising k x \/ raising k x <> Some v ->
    exists j' y', <[i:=x']> (clients w) !! j' = Some y' /\ raising k y' = Some v) as Hkeep.
  { intros v j y Hj Hy Hx. destruct (decide (j = i)) as [->|Hne]; [|exists j, y; by rewrite lookup_insert_ne].
    rewrite Hi in Hj. injection Hj as <-. destruct Hx as [Hx|Hx]; [|done]. exists i, x'. rewrite lookup_insert_eq. by rewrite Hx. }
  remember (raising k x) as r eqn:Er. remember (raising k x') as r' eqn:Er'. remember (contribution k x) as n eqn:En. remember (contribution k x') as n' eqn:En'.
  remember (cur k (tracker w)) as c eqn:Ec. remember (peak k (tracker w)) as p eqn:Ep. remember (cur k t') as c' eqn:Ec'. remember (peak k t') as p' eqn:Ep'.
  assert (msum (contribution k) (<[i:=x']> (clients w)) = c - n + n') as Hsum by (rewrite (msum_update _ _ i x x') by done; lia).
  assert (forall v, r = Some v -> v <= high w k) as Hr by (intros v Hv; rewrite Er in Hv; by eapply E4).
  cut ((cur k t' = c - n + n' /\ p <= p' /\ p' <= Z.max (high w k) c' /\ (forall v, r' = Some v -> v <= Z.max (high w k) c') /\
    (p' = Z.max (high w k) c' \/ exists j y, <[i:=x']> (clients w) !! j = Some y /\ raising k y = Some (Z.max (high w k) c')))).
  { intros (K1 & K2 & K3 & K4 & K5). split; [|done]. constructor; cbn; rewrite <- ?Ec', <- ?Ep'; try done; try lia.
    intros j y v Hj Hv. destruct (Hold j y Hj) as [[-> ->]|Hj']; [apply K4; congruence|]. pose proof (E4 j y v Hj' Hv). lia. }
  rewrite <- Ec'. destruct Hs as [|b Hb Hnone|b Hb Hnone|v Hv].
  - split; [lia|]. split; [lia|]. split; [lia|]. split; [intros v Hv; pose proof (Hr v Hv); lia|].
    replace (Z.max (high w k) c) with (high w k) by lia. destruct E5 as [E5|(j & y & Hj & Hy)]; [by left|]. right. apply (Hkeep _ j y Hj Hy). left. congruence.
  - split; [lia|]. split; [lia|]. split; [lia|]. split; [intros v [= <-]; lia|]. destruct (Z.max_spec (high w k) (c + b)) as [[_ ->]|[Hle ->]].
    + right. exists i, x'. rewrite lookup_insert_eq. by split.
    + destruct E5 as [E5|(j & y & Hj & Hy)]; [by left|]. right. apply (Hkeep _ j y Hj Hy). right. congruence.
  - split; [lia|]. split; [lia|]. split; [lia|]. split; [done|].
    replace (Z.max (high w k) (c - b)) with (high w k) by lia. destruct E5 as [E5|(j & y & Hj & Hy)]; [by left|]. right. apply (Hkeep _ j y Hj Hy). left. congruence.
  - pose proof (Hr v Hv). split; [lia|]. split; [lia|]. split; [lia|]. split; [done|].
    replace (Z.max (high w k) c) with (high w k) by lia. destruct E5 as [E5|(j & y & Hj & Hy)]; [left; lia|].
    destruct (decide (v = high w k)) as [->|Hne]; [left; lia|]. right. apply (Hkeep _ j y Hj Hy). right. congruence.
Qed.

Lemma cell_put k w i x x' :
  cell_ok k w -> clients w !! i = Some x -> contribution k x' = contribution k x -> raising k x' = raising k x -> cell_ok k (put i x' w).
Proof.
  intros H Hi Hc Hr. pose proof (c_high k w H) as Hh.
  destruct (cell_preserved k w i x x' (tracker w) H Hi) as [[K1 K2 K3 K4 K5] _]; [by apply cell_same'|].
  cbn in *. rewrite Z.max_l in K2, K3, K5 by done. constructor; cbn; try done.
  intros j y v Hj Hy. specialize (K4 j y v Hj Hy). lia.
Qed.

Lemma room_update w i x x' b : world_ok w -> clients w !! i = Some x -> reserve x' <= reserve x + b ->
  msum reserve (<[i:=x']> (clients w)) <= msum reserve (clients w) + b.
Proof. intros _ Hi Hb. rewrite (msum_update _ _ i x x' Hi). lia. Qed.

Lemma insert_client_ok (m : gmap nat Client) i x : (forall j y, m !! j = Some y -> client_ok y) -> client_ok x ->
  forall j y, <[i:=x]> m !! j = Some y -> client_ok y.
Proof.
  intros Hm Hx j y Hj. destruct (decide (j = i)) as [->|Hne]; [rewrite lookup_insert_eq in Hj; by injection Hj as <-|].
  rewrite lookup_insert_ne in Hj by done. eauto.
Qed.

(** The call of an idle client. *)
Lemma call_ok w i x x' b : world_ok w -> clients w !! i = Some x -> is_idle x = true -> client_ok x' ->
  (forall k, contribution k x' = contribution k x) -> (forall k, raising k x' = None) ->
  reserve x' <= reserve x + b -> msum reserve (clients w) + b < usize_lim -> world_ok (put i x' w).
Proof.
  intros H Hi Hidle Hx' Hc Hr Hb Hroom. pose proof H as [H1 H2 H3 H4]. constructor; cbn; [done| | |].
  - by apply insert_client_ok.
  - pose proof (room_update w i x x' b H Hi Hb). lia.
  - intros k. apply (cell_put k w i x x'); try done. rewrite Hr. destruct x as [c h []]; try done. by destruct k.
Qed.

Lemma join_ok w i c : world_ok w -> clients w !! i = None -> world_ok (put i (mkClient c 0 Idle) w).
Proof.
  intros [H1 H2 H3 H4] Hi. constructor; cbn; [done|by apply insert_client_ok| |].
  - rewrite msum_new by done. unfold reserve. cbn. rewrite Z.add_0_r. exact H3.
  - intros k. destruct (H4 k) as [E1 E2 E3 E4 E5]. assert (contribution k (mkClient c 0 Idle) = 0) as Hz by (destruct k; cbn; [by destruct (decide _)|done]).
    constructor; cbn; [|done|done| |].
    + rewrite msum_new, Hz by done. lia.
    + intros j y v Hj Hy. destruct (decide (j = i)) as [->|Hne]; [rewrite lookup_insert_eq in Hj; injection Hj as <-; by destruct k|].
      rewrite lookup_insert_ne in Hj by done. eauto.
    + destruct E5 as [E5|(j & y & Hj & Hy)]; [by left|]. right. exists j, y. rewrite lookup_insert_ne; [done|]. intros ->. congruence.
Qed.

(** Beside a client there is room for what it has and asks for. *)
Lemma room_beside w i x k : world_ok w -> clients w !! i = Some x ->
  contribution k x <= cur k (tracker w) /\ cur k (tracker w) - contribution k x + reserve x < usize_lim.
Proof.
  intros [H1 H2 H3 H4] Hi. rewrite (c_exact k w (H4 k)). split.
  - apply (msum_member _ _ i); [|done]. intros j y Hj. apply (contribution_bounds k y). eauto.
  - assert (msum (contribution k) (delete i (clients w)) <= msum reserve (delete i (clients w))) as Hle.
    { apply msum_ind_le. intros j y Hj. apply lookup_delete_Some in Hj as [_ Hj]. apply contribution_bounds. eauto. }
    rewrite !(msum_delete _ _ i x Hi) in Hle. lia.
Qed.

Lemma retention_step_ok lb w r : world_ok w -> step lb w = Some r ->
  exists w', r = Ok w' /\ world_ok w' /\ forall k, peak k (tracker w) <= peak k (tracker w').
Proof.
  intros H Hs. pose proof H as [H1 H2 H3 H4]. destruct lb as [i c|i b|i b|i weak]; cbn in Hs; destruct (clients w !! i) as [x|] eqn:Hi; try done; cbn in Hs.
  - injection Hs as <-. eexists. split; [done|]. split; [by apply join_ok|done].
  - destruct (_ && _) eqn:E in Hs; [|done]. injection Hs as <-. zify_bools. eexists. split; [done|]. split; [|done].
    unfold retainNetworkFixedStorage. destruct (H2 i x Hi) as [Hh Ho]. destruct (Z.eqb_spec b 0) as [Hz|Hz].
    + apply (call_ok w i x x 0); try done; [|lia|lia]. destruct x as [c h []]; try done. by destruct k.
    + destruct x as [c h []]; try done. cbn in Hh. apply (call_ok w i (mkClient c h Idle) _ b); [done|done|done|split; cbn; lia|by intros []|by intros []| |done].
      unfold reserve. cbn. lia.
  - destruct (_ && _) eqn:E in Hs; [|done]. injection Hs as <-. zify_bools. eexists. split; [done|]. split; [|done].
    unfold releaseNetworkFixedStorage. destruct (H2 i x Hi) as [Hh Ho]. destruct (Z.eqb_spec b 0) as [Hz|Hz].
    + apply (call_ok w i x x 0); try done; [|lia|lia]. destruct x as [c h []]; try done. by destruct k.
    + destruct x as [c h []]; try done. cbn in Hh, H3 |- *. match goal with Hb : b <= held _ |- _ => cbn in Hb end. apply (call_ok w i (mkClient c h Idle) _ 0); [done|done|done|split; cbn; lia| |by intros []|unfold reserve; cbn; lia|lia].
      intros [d|]; cbn; [destruct (decide (c = d))|]; lia.
  - injection Hs as <-. destruct (advance_spec weak x (tracker w)) as (x' & t' & -> & Hx' & Hs' & Hr & Hcell); [eauto|done|intros k; by apply (room_beside w i)..|].
    eexists. split; [done|]. split; [|intros k; by apply (cell_preserved k w i x x' t' (H4 k) Hi)].
    constructor; cbn; [done|by apply insert_client_ok| |intros k; by apply (cell_preserved k w i x x' t' (H4 k) Hi)].
    pose proof (room_update w i x x' 0 H Hi). lia.
Qed.

Lemma new_world_ok : world_ok World_new.
Proof.
  constructor; [done| |unfold World_new; cbn [clients]; by rewrite msum_empty|].
  - intros i x Hi. unfold World_new in Hi. cbn [clients] in Hi. by rewrite lookup_empty in Hi.
  - intros k. assert (cur k Tracker_new = 0) as Hc by (destruct k as [[]|]; done). assert (peak k Tracker_new = 0) as Hp by (destruct k as [[]|]; done).
    constructor; unfold World_new; cbn [tracker high clients]; rewrite ?Hc, ?Hp; [by rewrite msum_empty|done|done| |by left].
    intros i x v Hi. by rewrite lookup_empty in Hi.
Qed.

Lemma retention_steps_ok ls : forall w r, world_ok w -> steps ls w = Some r -> exists w', r = Ok w' /\ world_ok w'.
Proof.
  induction ls as [|lb ls IH]; cbn; intros w r H Hs; [injection Hs as <-; eauto|].
  destruct (step lb w) as [r1|] eqn:E; [|done]. destruct (retention_step_ok lb w r1 H E) as (w1 & -> & H1 & _). eauto.
Qed.

(** ** Histories *)

Lemma retention_steps_app ls1 : forall ls2 w, steps (ls1 ++ ls2) w = match steps ls1 w with Some (Ok w1) => steps ls2 w1 | r => r end.
Proof.
  induction ls1 as [|lb ls1 IH]; intros ls2 w; cbn; [done|]. destruct (step lb w) as [[w1|e]|]; [apply IH|done..].
Qed.

(** What a run has had: the highest values only grow, and are those of some instant. *)
Lemma high_step lb w w' k : world_ok w -> step lb w = Some (Ok w') ->
  high w k <= high w' k /\ (high w' k = high w k \/ high w' k = cur k (tracker w')).
Proof.
  intros _ Hs. destruct lb as [i c|i b|i b|i weak]; cbn in Hs; destruct (clients w !! i) as [x|]; try done; cbn in Hs.
  - injection Hs as <-. split; [done|by left].
  - destruct (_ && _) in Hs; [|done]. injection Hs as <-. split; [done|by left].
  - destruct (_ && _) in Hs; [|done]. injection Hs as <-. split; [done|by left].
  - destruct (advance weak x (tracker w)) as [[x' t']|e]; [|done]. injection Hs as <-. cbn. lia.
Qed.

Lemma run_grows ls : forall w w' k, world_ok w -> steps ls w = Some (Ok w') ->
  world_ok w' /\ high w k <= high w' k /\ peak k (tracker w) <= peak k (tracker w').
Proof.
  induction ls as [|lb ls IH]; cbn; intros w w' k H Hs; [injection Hs as <-; split; [done|lia]|].
  destruct (step lb w) as [r1|] eqn:E; [|done]. destruct (retention_step_ok lb w r1 H E) as (w1 & -> & H1 & Hp).
  destruct (high_step lb w w1 k H E) as [Hh _]. destruct (IH w1 w' k H1 Hs) as (H' & Hh' & Hp'). specialize (Hp k). split; [done|lia].
Qed.

Lemma high_attained ls : forall w k, steps ls World_new = Some (Ok w) ->
  exists pre post w1, ls = pre ++ post /\ steps pre World_new = Some (Ok w1) /\ cur k (tracker w1) = high w k.
Proof.
  induction ls as [|lb ls IH] using rev_ind; intros w k Hs.
  { injection Hs as <-. exists [], [], World_new. by destruct k as [[]|]. }
  pose proof Hs as Hs'. rewrite retention_steps_app in Hs. destruct (steps ls World_new) as [[w0|e]|] eqn:E0; [|done..]. cbn in Hs.
  destruct (step lb w0) as [[w1|e]|] eqn:E1; [injection Hs as ->|done..].
  destruct (retention_steps_ok ls World_new _ new_world_ok E0) as (w0' & [= <-] & H0). destruct (high_step lb w0 w k H0 E1) as [_ [Hh|Hh]].
  - destruct (IH w0 k eq_refl) as (pre & post & w1 & -> & Hw1 & Hc). exists pre, (post ++ [lb]), w1. rewrite app_assoc. split; [done|]. split; [done|congruence].
  - exists (ls ++ [lb]), [], w. rewrite app_nil_r. by split_and!.
Qed.

(** *** A call alone *)

(** How many more operations a call needs when nothing comes between them. *)
Definition rank (x : Client) (t : Tracker) : nat :=
  match op x with
  | Idle => 0
  | RetainCategory _ => 6
  | PeakCategory _ _ (Some o) => if loadPeak (category x) t =? o then 4 else 5
  | PeakCategory _ _ None => 5
  | RetainTotal _ => 3
  | PeakTotal _ _ (Some o) => if peakTotalBytes t =? o then 1 else 2
  | PeakTotal _ _ None => 2
  | ReleaseCategory _ => 2
  | ReleaseTotal _ _ => 1
  end.

Lemma rank_bound x t : (rank x t <= 6)%nat.
Proof. unfold rank. destruct (op x) as [|?|? ? []|?|? ? []|?|?]; try lia; case_match; lia. Qed.

Lemma rank_idle x t : (rank x t <= 0)%nat -> op x = Idle.
Proof. unfold rank. destruct (op x) as [|?|? ? []|?|? ? []|?|?]; try done; try lia; case_match; lia. Qed.

Lemma advance_rank x t x' t' : sizes_ok t -> advance false x t = Ok (x', t') -> (rank x' t' <= pred (rank x t))%nat.
Proof.
  intros Hs Ha. pose proof (fun v => peak_set_peak (Some (category x)) (category x) v t Hs) as Hp. cbn [peak] in Hp.
  destruct x as [c h o]. unfold advance in Ha. cbn [category held op] in *. unfold rank. cbn [category op].
  destruct o as [|b|b v o|b|b v o|b|b previous].
  - by injection Ha as <- <-.
  - injection Ha as <- <-. cbn. lia.
  - destruct (updatePeak false v o (loadPeak c t)) as [p next] eqn:E. injection Ha as <- <-. cbn [category op].
    specialize (Hp p). rewrite decide_True in Hp by done. unfold updatePeak in E. cbn in E. destruct o as [o|].
    + destruct (loadPeak c t =? o) eqn:E1; [injection E as <- <-; cbn; lia|].
      destruct (_ <? _); injection E as <- <-; cbn [op category]; [|lia]. rewrite Hp, Z.eqb_refl. lia.
    + destruct (_ <? _); injection E as <- <-; cbn [op category]; [|lia]. rewrite Hp, Z.eqb_refl. lia.
  - injection Ha as <- <-. cbn. lia.
  - destruct (updatePeak false v o (peakTotalBytes t)) as [p next] eqn:E. injection Ha as <- <-.
    unfold updatePeak in E. cbn in E. destruct o as [o|].
    + destruct (peakTotalBytes t =? o) eqn:E1; [injection E as <- <-; cbn; lia|].
      destruct (_ <? _); injection E as <- <-; cbn [op category peakTotalBytes set_peak_total]; [|lia]. rewrite Z.eqb_refl. lia.
    + destruct (_ <? _); injection E as <- <-; cbn [op category peakTotalBytes set_peak_total]; [|lia]. rewrite Z.eqb_refl. lia.
  - injection Ha as <- <-. cbn. lia.
  - cbn in Ha. destruct (_ || _); [done|]. injection Ha as <- <-. cbn. lia.
Qed.

Lemma alone_returns n : forall w i x, world_ok w -> clients w !! i = Some x -> (rank x (tracker w) <= n)%nat ->
  exists w' x', steps (replicate n (Advance i false)) w = Some (Ok w') /\ world_ok w' /\ clients w' !! i = Some x' /\ op x' = Idle /\
    forall j, j <> i -> clients w' !! j = clients w !! j.
Proof.
  induction n as [|n IH]; intros w i x H Hi Hr; [exists w, x; split_and!; try done; by eapply rank_idle|].
  pose proof H as [H1 H2 H3 H4].
  destruct (advance_spec false x (tracker w)) as (x1 & t1 & Ha & _); [eauto|done|intros k; by apply (room_beside w i)..|].
  set (w1 := mkWorld t1 (fun k => Z.max (high w k) (cur k t1)) (<[i:=x1]> (clients w))).
  assert (step (Advance i false) w = Some (Ok w1)) as Hs by (cbn; by rewrite Hi; cbn; rewrite Ha).
  destruct (retention_step_ok _ _ _ H Hs) as (w1' & [= <-] & Hw1 & _). pose proof (advance_rank _ _ _ _ H1 Ha) as Hrank.
  destruct (IH w1 i x1) as (w' & x' & Hs' & Hw' & Hi' & Hid & Ho); [done|apply lookup_insert_eq|cbn; lia|].
  exists w', x'. split; [|split; [done|split; [done|split; [done|]]]].
  - change (replicate (S n) (Advance i false)) with (Advance i false :: replicate n (Advance i false)). cbn [steps]. by rewrite Hs.
  - intros j Hj. rewrite Ho by done. by apply lookup_insert_ne.
Qed.

(** ** The claims *)

Definition holds_of (c : NetworkFixedStorageCategory) (x : Client) : Z := if decide (category x = c) then held x else 0.

Definition all_idle (w : World) : Prop := forall i x, clients w !! i = Some x -> op x = Idle.

Lemma held_by_category x : held x = holds_of AcceptExFixedPool x + holds_of IocpCompletionBatch x + holds_of ConnectionLocalRead x.
Proof. unfold holds_of. destruct (category x); repeat case_decide; done || lia. Qed.

(** C37. The accounting is exact and never aborts: however the calls of any clients
    interleave, no release finds a counter too small, and no counter wraps around; a counter
    always has what the operations done so far have put there.  When no call is under way, a
    category has what its clients hold, and the total has the sum of the three categories. *)
Theorem retention_is_exact ls r : steps ls World_new = Some r ->
  exists w, r = Ok w /\ (forall k, cur k (tracker w) = msum (contribution k) (clients w)) /\
    (all_idle w ->
      (forall c, loadCurrent c (tracker w) = msum (holds_of c) (clients w)) /\
      totalBytes (tracker w) = loadCurrent AcceptExFixedPool (tracker w) + loadCurrent IocpCompletionBatch (tracker w) +
        loadCurrent ConnectionLocalRead (tracker w)).
Proof.
  intros Hs. destruct (retention_steps_ok ls _ _ new_world_ok Hs) as (w & -> & H). exists w. split; [done|].
  assert (forall k, cur k (tracker w) = msum (contribution k) (clients w)) as Hc by (intros k; apply (c_exact k w), w_cells, H).
  split; [done|]. intros Hidle.
  assert (forall c, loadCurrent c (tracker w) = msum (holds_of c) (clients w)) as Hcat.
  { intros c. change (cur (Some c) (tracker w) = msum (holds_of c) (clients w)). rewrite Hc. apply msum_ext. intros i x Hi. unfold contribution, holds_of.
    rewrite (Hidle i x Hi). destruct (decide _); lia. }
  split; [done|]. rewrite !Hcat, <- !msum_add. change (cur None (tracker w) = msum (fun x => holds_of AcceptExFixedPool x + holds_of IocpCompletionBatch x + holds_of ConnectionLocalRead x) (clients w)).
  rewrite Hc. apply msum_ext. intros i x Hi. unfold contribution. rewrite (Hidle i x Hi), <- held_by_category. lia.
Qed.

(** C38. The peaks are exact high-water marks, although they are kept by a loop of exchanges
    beside the counters: a peak never falls, it is never higher than the counter has once
    been, and when no client is about to raise it, it is as high as the counter has ever
    been. *)
Theorem retention_peaks_are_exact ls w k : steps ls World_new = Some (Ok w) ->
  (forall pre post w1, ls = pre ++ post -> steps pre World_new = Some (Ok w1) -> peak k (tracker w1) <= peak k (tracker w)) /\
  (exists pre post w1, ls = pre ++ post /\ steps pre World_new = Some (Ok w1) /\ peak k (tracker w) <= cur k (tracker w1)) /\
  ((forall i x, clients w !! i = Some x -> raising k x = None) ->
    forall pre post w1, ls = pre ++ post -> steps pre World_new = Some (Ok w1) -> cur k (tracker w1) <= peak k (tracker w)).
Proof.
  intros Hs. destruct (retention_steps_ok ls _ _ new_world_ok Hs) as (w' & [= <-] & H). pose proof (w_cells w H k) as Hcell.
  assert (forall pre post w1, ls = pre ++ post -> steps pre World_new = Some (Ok w1) ->
    world_ok w1 /\ high w1 k <= high w k /\ peak k (tracker w1) <= peak k (tracker w)) as Hpre.
  { intros pre post w1 -> Hw1. rewrite retention_steps_app, Hw1 in Hs. destruct (retention_steps_ok pre _ _ new_world_ok Hw1) as (w1' & [= <-] & H1).
    split; [done|]. by destruct (run_grows post w1 w k H1 Hs) as (_ & ? & ?). }
  split; [|split].
  - intros pre post w1 He Hw1. by destruct (Hpre pre post w1 He Hw1) as (_ & _ & ?).
  - destruct (high_attained ls w k Hs) as (pre & post & w1 & He & Hw1 & Hc). exists pre, post, w1. split; [done|]. split; [done|].
    rewrite Hc. apply (c_below k w Hcell).
  - intros Hr pre post w1 He Hw1. destruct (Hpre pre post w1 He Hw1) as (H1 & Hh & _). pose proof (c_high k w1 (w_cells w1 H1 k)).
    destruct (c_peak k w Hcell) as [->|(i & x & Hi & Hx)]; [lia|]. by rewrite (Hr i x Hi) in Hx.
Qed.

(** A call returns: from wherever a client is, six operations of its own that nothing
    comes between are enough, and they change nothing of the other clients. *)
Theorem retention_call_returns ls w i x : steps ls World_new = Some (Ok w) -> clients w !! i = Some x ->
  exists w' x', steps (replicate 6 (Advance i false)) w = Some (Ok w') /\ clients w' !! i = Some x' /\ op x' = Idle /\
    forall j, j <> i -> clients w' !! j = clients w !! j.
Proof.
  intros Hs Hi. destruct (retention_steps_ok ls _ _ new_world_ok Hs) as (w1 & [= <-] & H).
  destruct (alone_returns 6 w i x H Hi (rank_bound x (tracker w))) as (w' & x' & Hs' & _ & Hx'). eauto.
Qed.

(** ** Concrete runs *)

Definition after (ls : list Label) : World := match steps ls World_new with Some (Ok w) => w | _ => World_new end.

Definition runs (ls : list Label) : bool := match steps ls World_new with Some (Ok _) => true | _ => false end.

Lemma runs_after ls : runs ls = true -> steps ls World_new = Some (Ok (after ls)).
Proof. unfold runs, after. by destruct (steps ls World_new) as [[w|e]|]. Qed.

(** Two read blocks and a pool; the calls interleave, an exchange fails for no reason, and the
    second finds the peak changed. *)
Definition demo_overlap : list Label :=
  [Join 0 ConnectionLocalRead; Join 1 ConnectionLocalRead; Join 2 AcceptExFixedPool;
   CallRetain 0 4096; CallRetain 1 100; CallRetain 2 50; Advance 0 false; Advance 1 false; Advance 0 false; Advance 1 false;
   Advance 0 true; Advance 1 false; Advance 2 false; Advance 0 false].
Definition demo_finish : list Label :=
  flat_map (fun i => replicate 6 (Advance i false)) [0; 1; 2]%nat ++ CallRelease 0 4096 :: replicate 2 (Advance 0 false).

Example demo_counters :
  currentBytes (tracker (after (demo_overlap ++ demo_finish))) = [50; 0; 100] /\
  peakBytes (tracker (after (demo_overlap ++ demo_finish))) = [50; 0; 4196] /\
  peakTotalBytes (tracker (after (demo_overlap ++ demo_finish))) = 4246.
Proof. by vm_compute. Qed.

Example demo_snapshot :
  let s := networkFixedStorageRetentionSnapshot (fun n => tracker (after (take (n + 30) (demo_overlap ++ demo_finish)))) in
  connectionLocalReadBytes s = 100 /\ totalRetainedBytes s = 150 /\ connectionLocalReadChunkLimitBytes s = 4096.
Proof. by vm_compute. Qed.

Lemma retention_is_exact_witness :
  steps (demo_overlap ++ demo_finish) World_new = Some (Ok (after (demo_overlap ++ demo_finish))) /\
  exists w, Ok (after (demo_overlap ++ demo_finish)) = Ok w /\ forall k, cur k (tracker w) = msum (contribution k) (clients w).
Proof.
  assert (steps (demo_overlap ++ demo_finish) World_new = Some (Ok (after (demo_overlap ++ demo_finish)))) as H by (apply runs_after; vm_compute; reflexivity).
  split; [exact H|]. destruct (retention_is_exact _ _ H) as (w & Hw & Hc & _). exists w. exact (conj Hw Hc).
Defined.

Lemma retention_peaks_are_exact_witness :
  steps (demo_overlap ++ demo_finish) World_new = Some (Ok (after (demo_overlap ++ demo_finish))) /\
  exists pre post w1, demo_overlap ++ demo_finish = pre ++ post /\ steps pre World_new = Some (Ok w1) /\
    peak None (tracker (after (demo_overlap ++ demo_finish))) <= cur None (tracker w1).
Proof.
  assert (steps (demo_overlap ++ demo_finish) World_new = Some (Ok (after (demo_overlap ++ demo_finish)))) as H by (apply runs_after; vm_compute; reflexivity).
  split; [exact H|]. destruct (retention_peaks_are_exact _ _ None H) as (_ & Ha & _). exact Ha.
Defined.

Definition demo_client : Client := mkClient AcceptExFixedPool 0 (PeakCategory 50 50 None).

Lemma retention_call_returns_witness :
  steps demo_overlap World_new = Some (Ok (after demo_overlap)) /\ clients (after demo_overlap) !! 2%nat = Some demo_client /\
  exists w' x', steps (replicate 6 (Advance 2 false)) (after demo_overlap) = Some (Ok w') /\ clients w' !! 2%nat = Some x' /\ op x' = Idle.
Proof.
  assert (steps demo_overlap World_new = Some (Ok (after demo_overlap))) as H by (apply runs_after; vm_compute; reflexivity).
  assert (clients (after demo_overlap) !! 2%nat = Some demo_client) as Hi by (vm_compute; reflexivity).
  split; [exact H|]. split; [exact Hi|]. destruct (retention_call_returns _ _ 2 demo_client H Hi) as (w' & x' & Hs & Hx & Ho & _).
  exists w', x'. exact (conj Hs (conj Hx Ho)).
Defined.
