(* ===== verification/IocpTransport.v ===== *)
(** * The Windows TCP transport

    Model of [IocpTcpTransport] (src/core/net/platform/IocpTcpTransport_win.cc): the read
    and the write operation of a connection, the storage a read goes to, and the segments
    that wait to be written.  Its two halves share nothing but the connection, and are two
    records.  Of the port it has what [CompletionPort] shows: a submission that the system
    takes is committed, its end makes [CompletionPort.ended] of the operation and calls the
    terminal observer, and later the consumer runs.

    The connection (src/core/net/TcpConnection.cc) is the user: its consumers call
    [completeRead] and [completeWrite] while the channel is current, and [beginCloseInLoop]
    cancels what is pending or closes the transport.  The system is a label as well: it may
    report any count of written bytes, and of read bytes no more than it was given room
    for.  Memory may run out wherever the code allocates, and the engine may refuse to lease
    an operation that the system has already taken; then an exception leaves the transport,
    and the connection may go on with it, except after a refused lease. *)

From S2P Require Import Prelude ReadinessPort Reactor CompletionPort.

Local Open Scope Z_scope.
Local Open Scope usize_scope.

Definition kReadChunkBytes : Z := 4096.
Definition ulong_max : Z := 4294967295.

Definition WSA_IO_PENDING : Z := 997.
Definition WSAEFAULT : Z := 10014.
Definition WSAEINVAL : Z := 10022.
Definition WSAECONNRESET : Z := 10054.
Definition WSAENOBUFS : Z := 10055.

(** ** Reading *)

(** [readStorage_]: the contents of the block, if there is one; [readBuffer_]: the length
    given to the system; [retained]: what this connection has added to the counter of
    NetworkMemoryRetention.cc; [input]: the connection's input buffer; [received]: what the
    system has read for it; [dropped]: the end of a read was not looked at, or the input
    buffer could not take it. *)
Record ReadSide := mkRead {
  readOperation_ : IocpOperation;
  readStorage_ : option (list byte);
  readStorageBytes_ : Z;
  peakReadStorageBytes_ : Z;
  readBuffer_ : Z;
  readPending_ : bool;
  readCompletionPending_ : bool;
  retained : Z;
  input : list byte;
  received : list byte;
  dropped : bool;
}.

Definition ReadSide_new (c : nat) : ReadSide :=
  mkRead (CompletionPort.set_channel (Some c) (IocpOperation_new Read true true)) None 0 0 0 false false 0 [] [] false.

Definition set_read_op (p : IocpOperation) (r : ReadSide) : ReadSide :=
  mkRead p (readStorage_ r) (readStorageBytes_ r) (peakReadStorageBytes_ r) (readBuffer_ r) (readPending_ r) (readCompletionPending_ r) (retained r) (input r) (received r) (dropped r).
Definition set_storage (s : option (list byte)) (n peak ret : Z) (r : ReadSide) : ReadSide :=
  mkRead (readOperation_ r) s n peak (readBuffer_ r) (readPending_ r) (readCompletionPending_ r) ret (input r) (received r) (dropped r).
Definition set_read (buf : Z) (pending completion : bool) (r : ReadSide) : ReadSide :=
  mkRead (readOperation_ r) (readStorage_ r) (readStorageBytes_ r) (peakReadStorageBytes_ r) buf pending completion (retained r) (input r) (received r) (dropped r).
Definition set_data (i rc : list byte) (d : bool) (r : ReadSide) : ReadSide :=
  mkRead (readOperation_ r) (readStorage_ r) (readStorageBytes_ r) (peakReadStorageBytes_ r) (readBuffer_ r) (readPending_ r) (readCompletionPending_ r) (retained r) i rc d.

(** [overlapped], [bytesTransferred] and [error] are reset. *)
Definition reset (p : IocpOperation) : IocpOperation := set_request (CompletionPort.channel p) p.

(** The storage is replaced when it is too small; [alloc]: the allocation succeeds. *)
Definition grow (submissionBytes : Z) (alloc : bool) : M ReadSide bool :=
  do r <- get ;;
  if readStorageBytes_ r <? submissionBytes then
    if negb alloc then ret false
    else
      run modify (fun r => set_storage (Some (zeros submissionBytes)) submissionBytes (Z.max (peakReadStorageBytes_ r) submissionBytes)
        (retained r ⊕ (submissionBytes ⊖ readStorageBytes_ r)) r) ;;
      ret true
  else ret true.

(** What the engine does with the lease of an operation: it refuses when it is shut down or
    has the operation already, and the table may find no memory for the entry.  The
    submission is committed behind both. *)
Inductive Lease := Leased | LeaseRejected | LeaseNoMemory.

Global Instance Lease_eq_dec : EqDecision Lease.
Proof. solve_decision. Defined.

Definition refusal (lease : Lease) : option exn :=
  match lease with Leased => None | LeaseRejected => Some logic_error | LeaseNoMemory => Some bad_alloc end.

(** [EventLoop::retainCompletionOperation] *)
Definition retain_read (lease : Lease) : M ReadSide unit :=
  match refusal lease with
  | Some x => throw x
  | None =>
      do r <- get ;;
      let '(ok, p) := commitIocpOperationSubmission (readOperation_ r) in
      run modify (set_read_op p) ;;
      throw_if (negb ok) logic_error
  end.

(** [rc]: the error of [WSARecv], if it does not succeed at once. *)
Definition startRead (maxBytes : Z) (alloc : bool) (rc : option Z) (lease : Lease) : M ReadSide Z :=
  do r <- get ;;
  if readPending_ r || readCompletionPending_ r then ret 0
  else if maxBytes =? 0 then ret WSAEINVAL
  else
    run modify (fun r => set_read_op (reset (readOperation_ r)) r) ;;
    let submissionBytes := Z.min kReadChunkBytes maxBytes in
    do enough <- grow submissionBytes alloc ;;
    if negb enough then ret WSAENOBUFS
    else
      run modify (fun r => set_read submissionBytes (readPending_ r) (readCompletionPending_ r) r) ;;
      do r <- get ;;
      let '(ok, p) := prepareIocpOperationSubmission (readOperation_ r) in
      run modify (set_read_op p) ;;
      if negb ok then ret WSAEALREADY
      else
        run modify (fun r => set_read (readBuffer_ r) true (readCompletionPending_ r) r) ;;
        let err := default WSA_IO_PENDING rc in
        if err =? WSA_IO_PENDING then run retain_read lease ;; ret 0
        else
          run modify (fun r =>
            let p := (rejectIocpOperationSubmission (readOperation_ r)).2 in
            set_read_op (set_status (Internal p) (bytesTransferred p) err p) (set_read 0 false (readCompletionPending_ r) r)) ;;
          ret err.

(** The result, and the error code of a negative one.  [append]: what [Buffer::append] of the
    input buffer throws, which then is as it was. *)
Definition completeRead (append : option exn) : M ReadSide (Z * Z) :=
  run modify (set_read 0 false false) ;;
  do r <- get ;;
  let p := readOperation_ r in
  if negb (error p =? 0) then ret (-1, error p)
  else
    let n := bytesTransferred p in
    run (if 0 <? n then
           match readStorage_ r with
           | Some s =>
               run throw_if (zlen s <? n) undefined_behaviour ;;
               match append with
               | Some x => run modify (fun r => set_data (input r) (received r) true r) ;; throw x
               | None => modify (fun r => set_data (input r ++ slice 0 n s) (received r) (dropped r) r)
               end
           | None => throw undefined_behaviour
           end
         else ret tt) ;;
    ret (n, 0).

Definition releaseReadStorage : M ReadSide unit :=
  do r <- get ;;
  run throw_if (readPending_ r) log_fatal ;;
  if readStorageBytes_ r =? 0 then ret tt
  else
    run throw_if (retained r <? readStorageBytes_ r) log_fatal ;;
    modify (fun r => set_read 0 (readPending_ r) (readCompletionPending_ r)
      (set_storage None 0 (peakReadStorageBytes_ r) (retained r - readStorageBytes_ r) r)).

(** [observeTerminal] *)
Definition observe_read (r : ReadSide) : ReadSide := set_read (readBuffer_ r) false true r.

(** [consumeReadCompletion], with the consumer of the connection; [current]: it looks at the
    end of the read, since the channel is current and the input buffer has room. *)
Definition consumeReadCompletion (current : bool) (append : option exn) : M ReadSide (Z * Z) :=
  run modify (fun r => set_read (readBuffer_ r) (readPending_ r) false r) ;;
  if current then completeRead append
  else run modify (fun r => set_data (input r) (received r) true r) ;; ret (0, 0).

(** The system ends the read, with [data] in the storage, or with an error; the packet is
    decoded. *)
Definition read_ends (err : Z) (data : list byte) : M ReadSide unit :=
  do r <- get ;;
  match readStorage_ r with
  | Some s =>
      run throw_if (zlen s <? zlen data) undefined_behaviour ;;
      modify (fun r => observe_read (set_data (input r) (if err =? 0 then received r ++ data else received r) (dropped r)
        (set_storage (Some (blit 0 data s)) (readStorageBytes_ r) (peakReadStorageBytes_ r) (retained r)
          (set_read_op (ended (zlen data) err (readOperation_ r)) r))))
  | None => throw undefined_behaviour
  end.

(** ** Writing *)

Record WriteSegment := mkSegment { bytes : list byte; offset : Z }.

(** [writeBuffer_]: the bytes given to the system; [enqueued]: all bytes that have been
    enqueued; [sent]: those that the system has written; [failed]: a write has failed, or its
    end was not looked at any more, or the rest was discarded. *)
Record WriteSide := mkWrite {
  writeOperation_ : IocpOperation;
  writeSegments_ : list WriteSegment;
  bufferedWriteBytes_ : Z;
  writeBuffer_ : list byte;
  submittedWriteBytes_ : Z;
  writePending_ : bool;
  writeCompletionPending_ : bool;
  enqueued : list byte;
  sent : list byte;
  failed : bool;
}.

Definition WriteSide_new (c : nat) : WriteSide :=
  mkWrite (CompletionPort.set_channel (Some c) (IocpOperation_new Write true true)) [] 0 [] 0 false false [] [] false.

Definition set_write_op (p : IocpOperation) (w : WriteSide) : WriteSide :=
  mkWrite p (writeSegments_ w) (bufferedWriteBytes_ w) (writeBuffer_ w) (submittedWriteBytes_ w) (writePending_ w) (writeCompletionPending_ w) (enqueued w) (sent w) (failed w).
Definition set_segments (l : list WriteSegment) (n : Z) (w : WriteSide) : WriteSide :=
  mkWrite (writeOperation_ w) l n (writeBuffer_ w) (submittedWriteBytes_ w) (writePending_ w) (writeCompletionPending_ w) (enqueued w) (sent w) (failed w).
Definition set_write (buf : list byte) (n : Z) (pending completion : bool) (w : WriteSide) : WriteSide :=
  mkWrite (writeOperation_ w) (writeSegments_ w) (bufferedWriteBytes_ w) buf n pending completion (enqueued w) (sent w) (failed w).
Definition set_stream (e s : list byte) (f : bool) (w : WriteSide) : WriteSide :=
  mkWrite (writeOperation_ w) (writeSegments_ w) (bufferedWriteBytes_ w) (writeBuffer_ w) (submittedWriteBytes_ w) (writePending_ w) (writeCompletionPending_ w) e s f.

(** [mem]: the deque finds the memory it may need. *)
Definition enqueueWrite (payload : list byte) (mem : bool) : M WriteSide unit :=
  match payload with
  | [] => ret tt
  | _ =>
      run throw_if (negb mem) bad_alloc ;;
      modify (fun w => set_stream (enqueued w ++ payload) (sent w) (failed w)
        (set_segments (writeSegments_ w ++ [mkSegment payload 0]) (bufferedWriteBytes_ w ⊕ zlen payload) w))
  end.

Definition retain_write (lease : Lease) : M WriteSide unit :=
  match refusal lease with
  | Some x => throw x
  | None =>
      do w <- get ;;
      let '(ok, p) := commitIocpOperationSubmission (writeOperation_ w) in
      run modify (set_write_op p) ;;
      throw_if (negb ok) logic_error
  end.

(** [rc]: the error of [WSASend], if it does not succeed at once. *)
Definition startWrite (rc : option Z) (lease : Lease) : M WriteSide Z :=
  do w <- get ;;
  if writePending_ w || writeCompletionPending_ w then ret 0
  else
    match writeSegments_ w with
    | [] => ret WSAEINVAL
    | front :: _ =>
        run modify (fun w => set_write_op (reset (writeOperation_ w)) w) ;;
        let remaining := zlen (bytes front) ⊖ offset front in
        let submissionBytes := Z.min remaining ulong_max in
        run modify (fun w => set_write (slice (offset front) (offset front + submissionBytes) (bytes front)) submissionBytes
          (writePending_ w) (writeCompletionPending_ w) w) ;;
        do w <- get ;;
        let '(ok, p) := prepareIocpOperationSubmission (writeOperation_ w) in
        run modify (set_write_op p) ;;
        if negb ok then
          run modify (fun w => set_write [] 0 (writePending_ w) (writeCompletionPending_ w) w) ;; ret WSAEALREADY
        else
          run modify (fun w => set_write (writeBuffer_ w) (submittedWriteBytes_ w) true (writeCompletionPending_ w) w) ;;
          let err := default WSA_IO_PENDING rc in
          if err =? WSA_IO_PENDING then run retain_write lease ;; ret 0
          else
            run modify (fun w =>
              let p := (rejectIocpOperationSubmission (writeOperation_ w)).2 in
              set_write_op (set_status (Internal p) (bytesTransferred p) err p) (set_write [] 0 false (writeCompletionPending_ w) w)) ;;
            ret err
    end.

Definition completeWrite : M WriteSide (Z * Z) :=
  do w <- get ;;
  let submittedBytes := submittedWriteBytes_ w in
  run modify (set_write [] 0 false false) ;;
  let p := writeOperation_ w in
  if negb (error p =? 0) then ret (-1, error p)
  else
    let completed := bytesTransferred p in
    match writeSegments_ w with
    | [] => ret (-1, WSAECONNRESET)
    | front :: rest =>
        if (completed =? 0) || (submittedBytes <? completed) then ret (-1, WSAECONNRESET)
        else
          let remaining := zlen (bytes front) ⊖ offset front in
          if (remaining <? completed) || (bufferedWriteBytes_ w <? completed) then ret (-1, WSAEFAULT)
          else
            let front := mkSegment (bytes front) (offset front ⊕ completed) in
            run modify (set_segments (if offset front =? zlen (bytes front) then rest else front :: rest) (bufferedWriteBytes_ w ⊖ completed)) ;;
            ret (completed, 0)
    end.

Definition discardBufferedWrites : M WriteSide Z :=
  do w <- get ;;
  run throw_if (writePending_ w) log_fatal ;;
  run modify (fun w => set_stream (enqueued w) (sent w) true
    (set_segments [] 0 (set_write [] 0 (writePending_ w) (writeCompletionPending_ w) w))) ;;
  ret (bufferedWriteBytes_ w).

Definition observe_write (w : WriteSide) : WriteSide := set_write (writeBuffer_ w) (submittedWriteBytes_ w) false true w.

Definition consumeWriteCompletion (current : bool) : M WriteSide (Z * Z) :=
  run modify (fun w => set_write (writeBuffer_ w) (submittedWriteBytes_ w) (writePending_ w) false w) ;;
  if current then completeWrite
  else run modify (fun w => set_stream (enqueued w) (sent w) true w) ;; ret (0, 0).

(** The system ends the write; it has written the first [n] of the bytes it was given,
    or it reports nonsense. *)
Definition write_ends (err n : Z) (w : WriteSide) : WriteSide :=
  let good := (err =? 0) && (0 <? n) && (n <=? submittedWriteBytes_ w) in
  observe_write (set_stream (enqueued w) (if good then sent w ++ ztake n (writeBuffer_ w) else sent w) (failed w || negb good)
    (set_write_op (ended n err (writeOperation_ w)) w)).

(** ** The transport *)

Record IocpTcpTransport := mkTransport { reading : ReadSide; writing : WriteSide; closed : bool }.

Definition IocpTcpTransport_new (c : nat) : IocpTcpTransport := mkTransport (ReadSide_new c) (WriteSide_new c) false.

Definition hasPendingOperations (t : IocpTcpTransport) : bool :=
  readPending_ (reading t) || writePending_ (writing t) || readCompletionPending_ (reading t) || writeCompletionPending_ (writing t).

Definition on_read {A} (m : M ReadSide A) : M IocpTcpTransport A :=
  fun t => let '(r, s) := m (reading t) in (r, mkTransport s (writing t) (closed t)).
Definition on_write {A} (m : M WriteSide A) : M IocpTcpTransport A :=
  fun t => let '(r, s) := m (writing t) in (r, mkTransport (reading t) s (closed t)).

(** What [CancelIoEx] answers. *)
Inductive Cancel := CancelAccepted | CancelNotFound | CancelInvalidHandle.

(** [EventLoop::trackCompletionOperation], called where nothing may be thrown: an exception
    there terminates the process. *)
Definition track {S} (p : IocpOperation) (set : IocpOperation -> S -> S) : M S unit :=
  if negb (submissionAccepted p) || completionObserved p || (terminalGeneration p =? generation p) then throw log_fatal
  else modify (set (set_obligation true p)).

Definition cancelOne {S} (pending : bool) (p : IocpOperation) (set : IocpOperation -> S -> S) (answer : Cancel) : M S unit :=
  if negb pending then ret tt
  else match answer with
       | CancelAccepted | CancelNotFound => track p set
       | CancelInvalidHandle => ret tt
       end.

Definition cancelPendingOperations (r w : Cancel) : M IocpTcpTransport unit :=
  do t <- get ;;
  run on_read (cancelOne (readPending_ (reading t)) (readOperation_ (reading t)) set_read_op r) ;;
  on_write (cancelOne (writePending_ (writing t)) (writeOperation_ (writing t)) set_write_op w).

(** [TcpConnection::clearBufferedOutputInLoop] *)
Definition clearBufferedOutput : M WriteSide unit :=
  do w <- get ;;
  let buffered := bufferedWriteBytes_ w in
  if buffered =? 0 then ret tt
  else
    do discarded <- discardBufferedWrites ;;
    throw_if (negb (discarded =? buffered)) log_fatal.

(** [TcpConnection::finishClose], [beginCloseInLoop] and [connectDestroyed], as far as the
    transport is concerned.  The closed transport belongs to a connection that is
    disconnected. *)
Definition close_transport : M IocpTcpTransport unit :=
  run on_read releaseReadStorage ;;
  run on_write clearBufferedOutput ;;
  modify (fun t => mkTransport (reading t) (writing t) true).

Definition beginClose (r w : Cancel) : M IocpTcpTransport unit :=
  do t <- get ;;
  if closed t then ret tt
  else if hasPendingOperations t then cancelPendingOperations r w
  else close_transport.

Definition connectDestroyed : M IocpTcpTransport unit := on_write clearBufferedOutput.

(** [~IocpTcpTransport] *)
Definition destroy : M IocpTcpTransport unit := on_read releaseReadStorage.

(** ** The machine *)

Inductive Label :=
  | StartRead (maxBytes : Z) (alloc : bool) (rc : option Z) (lease : Lease)
  | ReadEnds (err : Z) (data : list byte)
  | ConsumeRead (current : bool) (append : option exn)
  | Enqueue (payload : list byte) (mem : bool)
  | StartWrite (rc : option Z) (lease : Lease)
  | WriteEnds (err n : Z)
  | ConsumeWrite (current : bool)
  | BeginClose (r w : Cancel).

(** What the input buffer may throw when it has to grow. *)
Definition append_throws (append : option exn) : bool :=
  match append with None | Some bad_alloc | Some length_error => true | _ => false end.

Definition enabled (lb : Label) (t : IocpTcpTransport) : bool :=
  match lb with
  | StartRead n _ _ _ => negb (closed t) && (0 <=? n)
  | ReadEnds _ data => readPending_ (reading t) && (zlen data <=? readBuffer_ (reading t))
  | ConsumeRead _ append => readCompletionPending_ (reading t) && append_throws append
  | Enqueue payload _ => negb (closed t) && (bufferedWriteBytes_ (writing t) + zlen payload <? usize_lim)
  | StartWrite _ _ => negb (closed t)
  | WriteEnds _ n => writePending_ (writing t) && (0 <=? n)
  | ConsumeWrite _ => writeCompletionPending_ (writing t)
  | BeginClose _ _ => true
  end.

Definition perform (lb : Label) : M IocpTcpTransport unit :=
  match lb with
  | StartRead n alloc rc lease => run on_read (startRead n alloc rc lease) ;; ret tt
  | ReadEnds err data => on_read (read_ends err data)
  | ConsumeRead current append => run on_read (consumeReadCompletion current append) ;; ret tt
  | Enqueue payload mem => on_write (enqueueWrite payload mem)
  | StartWrite rc lease => run on_write (startWrite rc lease) ;; ret tt
  | WriteEnds err n => on_write (modify (write_ends err n))
  | ConsumeWrite current => run on_write (consumeWriteCompletion current) ;; ret tt
  | BeginClose r w => beginClose r w
  end.

(** The failure that a label brings with it, if any, and whether it is that of a lease. *)
Definition injected (lb : Label) : option exn :=
  match lb with
  | StartRead _ _ _ lease | StartWrite _ lease => refusal lease
  | ConsumeRead _ append => append
  | Enqueue _ false => Some bad_alloc
  | _ => None
  end.

Definition refused (lb : Label) : bool :=
  match lb with StartRead _ _ _ lease | StartWrite _ lease => negb (bool_decide (lease = Leased)) | _ => false end.

(** The system has taken an operation that was never leased: the port will not recognise its
    packet, and the operation stays pending. *)
Definition stranded (t : IocpTcpTransport) : bool :=
  submissionPrepared (readOperation_ (reading t)) || submissionPrepared (writeOperation_ (writing t)).

(** Runs go on after an exception, unless it is the end of the process or an operation is
    stranded. *)
Definition goes_on (res : result unit) (t : IocpTcpTransport) : bool :=
  match res with Throw log_fatal | Throw undefined_behaviour => false | _ => negb (stranded t) end.

Inductive reachable (c : nat) : result unit -> IocpTcpTransport -> Prop :=
  | reachable_new : reachable c (Ok tt) (IocpTcpTransport_new c)
  | reachable_step lb t res res' t' :
      reachable c res t -> goes_on res t = true -> enabled lb t = true -> perform lb t = (res', t') -> reachable c res' t'.

(** ** Operations of the transport *)

(** An operation at rest or in the system's hands. *)
Definition own_ok (pending : bool) (p : IocpOperation) : Prop :=
  0 <= terminalGeneration p <= generation p /\ submissionPrepared p = false /\ submissionAccepted p = pending /\
  (pending = true -> terminalGeneration p < generation p /\ completionObserved p = false).

Lemma own_request p : own_ok false p -> own_ok false (reset p).
Proof. done. Qed.

Lemma own_ended n err p : own_ok true p -> own_ok false (ended n err p).
Proof. intros (H1 & H2 & H3 & H4). split_and!; cbn; done || lia. Qed.

Lemma own_obligation b pending p : own_ok pending p -> own_ok pending (set_obligation b p).
Proof. done. Qed.

(** What [prepareIocpOperationSubmission] does with an operation at rest. *)
Lemma prepare_own p : own_ok false p ->
  match prepareIocpOperationSubmission p with
  | (false, q) => q = p
  | (true, q) =>
      submissionPrepared q = true /\ own_ok true (commitIocpOperationSubmission q).2 /\ (commitIocpOperationSubmission q).1 = true /\
      forall e, let q := (rejectIocpOperationSubmission q).2 in own_ok false (set_status (Internal q) (bytesTransferred q) e q)
  end.
Proof.
  intros (H1 & H2 & H3 & _). unfold prepareIocpOperationSubmission. rewrite H2, H3. cbn.
  destruct (generation p =? usize_max); [done|].
  unfold commitIocpOperationSubmission, rejectIocpOperationSubmission. cbn. rewrite ?H3. cbn.
  split; [done|]. split; [|split; [done|]].
  - split_and!; cbn; try done; lia.
  - intros e. split_and!; cbn; done || lia.
Qed.

Lemma track_own {S} p (set : IocpOperation -> S -> S) s : own_ok true p -> track p set s = (Ok tt, set (set_obligation true p) s).
Proof.
  intros (H1 & H2 & H3 & H4). destruct (H4 eq_refl) as [H5 H6]. unfold track. rewrite H3, H6. cbn.
  by destruct (Z.eqb_spec (terminalGeneration p) (generation p)); [lia|].
Qed.

Lemma cancel_own {S} pending p (set : IocpOperation -> S -> S) answer s : own_ok pending p ->
  exists s', cancelOne pending p set answer s = (Ok tt, s') /\ (s' = s \/ s' = set (set_obligation true p) s).
Proof.
  intros H. unfold cancelOne. destruct pending; cbn [negb]; [|eauto].
  destruct answer; [rewrite track_own by done; eauto..|eauto].
Qed.

(** ** Reading *)

Definition storage_size (s : option (list byte)) : Z := match s with Some s => zlen s | None => 0 end.

(** What the end of a read has left in the storage. *)
Definition arrived (r : ReadSide) : list byte :=
  if readCompletionPending_ r && (error (readOperation_ r) =? 0)
  then slice 0 (bytesTransferred (readOperation_ r)) (default [] (readStorage_ r)) else [].

Record read_ok (r : ReadSide) : Prop := {
  r_op : own_ok (readPending_ r) (readOperation_ r);
  r_one : readPending_ r = true -> readCompletionPending_ r = false;
  r_storage : readStorageBytes_ r = storage_size (readStorage_ r) /\ 0 <= readStorageBytes_ r <= peakReadStorageBytes_ r /\
    peakReadStorageBytes_ r <= kReadChunkBytes /\ retained r = readStorageBytes_ r;
  r_buffer : readPending_ r = true -> 0 < readBuffer_ r <= readStorageBytes_ r;
  r_done : readCompletionPending_ r = true ->
    is_Some (readStorage_ r) /\ (error (readOperation_ r) = 0 -> 0 <= bytesTransferred (readOperation_ r) <= readStorageBytes_ r);
  r_data : dropped r = false -> received r = input r ++ arrived r;
}.

Definition at_rest (r : ReadSide) : Prop := read_ok r /\ readPending_ r = false /\ readCompletionPending_ r = false.

Lemma arrived_none r : readCompletionPending_ r = false -> arrived r = [].
Proof. intros H. unfold arrived. by rewrite H. Qed.

(** At rest, an operation at rest can be put in place of the other, and any buffer. *)
Lemma rest_op r p buf : at_rest r -> own_ok false p -> at_rest (set_read_op p (set_read buf (readPending_ r) (readCompletionPending_ r) r)).
Proof.
  intros [[H1 H2 H3 H4 H5 H6] [Hp Hc]] Hop. split; [|done]. constructor; cbn; rewrite ?Hp, ?Hc; try done.
  intros Hd. rewrite (H6 Hd), (arrived_none r Hc). unfold arrived. cbn. by rewrite ?Hc.
Qed.

Lemma read_grow_spec n alloc r : at_rest r -> 0 < n <= kReadChunkBytes ->
  wp (grow n alloc) (fun res r' => exists b, res = Ok b /\ at_rest r' /\ input r' = input r /\ (b = true -> n <= readStorageBytes_ r')) r.
Proof.
  intros H Hn. pose proof H as [[H1 H2 (S1 & S2 & S3 & S4) H4 H5 H6] [Hp Hc]]. unfold grow. apply wp_get.
  destruct (Z.ltb_spec (readStorageBytes_ r) n) as [Hlt|Hge]; [|apply wp_ret; exists true; split_and!; [done|done|done|lia]].
  destruct alloc; cbn [negb]; [|apply wp_ret; exists false; done].
  apply wp_bind, wp_modify, wp_ret. exists true. split; [done|]. split; [|split; [done|cbn; lia]]. split; [|done].
  unfold kReadChunkBytes in *. constructor; cbn; rewrite ?Hp, ?Hc; try done.
  - unfold own_ok in *. by rewrite Hp in H1.
  - rewrite zlen_zeros by lia. unwrap. unfold kReadChunkBytes. split_and!; lia.
  - intros Hd. rewrite (H6 Hd), (arrived_none r Hc). unfold arrived. cbn. by rewrite ?Hc.
Qed.

(** A start answers, or its lease is refused and the operation stays prepared. *)
Definition started {S} (lease : Lease) (p : S -> IocpOperation) (Q : Z -> S -> Prop) (res : result Z) (s : S) : Prop :=
  match res with
  | Ok e => Q e s
  | Throw x => refusal lease = Some x /\ submissionPrepared (p s) = true
  end.

Lemma start_read_spec n alloc rc lease r : read_ok r -> 0 <= n ->
  wp (startRead n alloc rc lease) (started lease readOperation_ (fun e r' => read_ok r' /\ input r' = input r /\
    (rc <> Some 0 -> e = 0 <-> readPending_ r' = true \/ readCompletionPending_ r' = true))) r.
Proof.
  intros H Hn. unfold startRead. apply wp_get. destruct (readPending_ r || readCompletionPending_ r) eqn:E.
  { apply wp_ret. split; [done|]. split; [done|]. intros _. split; [|done]. intros _. by apply orb_true_iff. }
  apply orb_false_iff in E as [Hp Hc]. assert (at_rest r) as Hr by done.
  assert (forall r' e, at_rest r' -> input r' = input r -> (rc <> Some 0 -> e <> 0) ->
    read_ok r' /\ input r' = input r /\
      (rc <> Some 0 -> e = 0 <-> readPending_ r' = true \/ readCompletionPending_ r' = true)) as Hrefused.
  { intros r' e [Hr' [Hp' Hc']] Hi He. split; [done|]. split; [done|]. intros Hrc. rewrite Hp', Hc'. specialize (He Hrc). intuition congruence. }
  destruct (Z.eqb_spec n 0) as [->|Hn0]; [apply wp_ret; by apply Hrefused|].
  apply wp_bind, wp_modify. set (r1 := set_read_op _ _).
  assert (at_rest r1) as H1.
  { replace r1 with (set_read_op (reset (readOperation_ r)) (set_read (readBuffer_ r) (readPending_ r) (readCompletionPending_ r) r)) by (by destruct r).
    apply rest_op; [done|]. apply own_request. pose proof (r_op r H). by rewrite Hp in *. }
  assert (0 < Z.min kReadChunkBytes n <= kReadChunkBytes) as Hmin by (unfold kReadChunkBytes; lia).
  apply wp_bind. eapply wp_weaken; [by apply read_grow_spec|]. intros res r2 (b & -> & H2 & Hi2 & Hsize). cbn beta iota.
  destruct b; cbn [negb]; [|apply wp_ret, Hrefused; done].
  set (k := Z.min kReadChunkBytes n) in *. specialize (Hsize eq_refl). destruct H2 as [Hok2 [Hp2 Hc2]] eqn:E. clear E.
  assert (own_ok false (readOperation_ r2)) as Hop2 by (pose proof (r_op r2 Hok2); by rewrite Hp2 in *).
  apply wp_bind, wp_modify, wp_get. change (readOperation_ (set_read k _ _ r2)) with (readOperation_ r2).
  pose proof (prepare_own (readOperation_ r2) Hop2) as Hprep. destruct (prepareIocpOperationSubmission (readOperation_ r2)) as [[|] p].
  - apply wp_bind, wp_modify. cbn [negb]. apply wp_bind, wp_modify. destruct Hprep as (Hpre & Hcom & Hcom1 & Hrej).
    destruct (Z.eqb_spec (default WSA_IO_PENDING rc) WSA_IO_PENDING) as [_|Hne].
    + unfold retain_read. apply wp_bind. destruct (refusal lease) as [x|] eqn:El; [by apply wp_throw|].
      apply wp_get. cbn [readOperation_ set_read set_read_op].
      destruct (commitIocpOperationSubmission p) as [ok q]. cbn in Hcom1. subst ok. apply wp_bind, wp_modify. apply wp_throw_if; [intros _|done].
      apply wp_ret. split; [|split; [done|intros _; split; [by left|done]]].
      destruct Hok2 as [K1 K2 K3 K4 K5 K6]. constructor; cbn; rewrite ?Hc2; try done; try lia.
      intros Hd. rewrite (K6 Hd), (arrived_none r2 Hc2). unfold arrived. cbn. by rewrite ?Hc2.
    + apply wp_bind, wp_modify, wp_ret. apply Hrefused; [|done|].
      * pose proof (rest_op r2 _ 0 (conj Hok2 (conj Hp2 Hc2)) (Hrej (default WSA_IO_PENDING rc))) as Hx. cbn in Hx |- *. rewrite Hp2 in Hx. exact Hx.
      * destruct rc as [e|]; cbn; [congruence|done].
  - apply wp_bind, wp_modify. cbn [negb]. apply wp_ret. subst p. apply Hrefused; [|done|done].
    by apply (rest_op r2 (readOperation_ r2) k).
Qed.

Lemma read_ends_spec err data r : read_ok r -> readPending_ r = true -> zlen data <= readBuffer_ r ->
  wp (read_ends err data) (fun res r' => res = Ok tt /\ read_ok r' /\ input r' = input r /\ readPending_ r' = false) r.
Proof.
  intros [H1 H2 (S1 & S2 & S3 & S4) H4 H5 H6] Hp Hlen. specialize (H4 Hp). unfold read_ends. apply wp_get.
  destruct (readStorage_ r) as [s|] eqn:Es; [|cbn in S1; lia]. cbn in S1.
  apply wp_bind, wp_throw_if; [intros _|intros Hlt; zify_bools; lia]. apply wp_modify. split; [done|]. split; [|done].
  pose proof (zlen_nonneg data). assert (zlen (blit 0 data s) = zlen s) as Hblit by (apply zlen_blit; lia). rewrite Hp in H1.
  constructor; cbn; try done.
  - exact (own_ended _ _ _ H1).
  - rewrite Hblit. done.
  - intros _. split; [done|]. intros _. lia.
  - intros Hd. rewrite (H6 Hd), (arrived_none r (H2 Hp)), app_nil_r. unfold arrived. cbn. destruct (err =? 0); [|by rewrite app_nil_r].
    f_equal. symmetry. change (slice 0 (0 + zlen data) (blit 0 data s) = data). apply slice_blit_in; lia.
Qed.

(** The end of a read is looked at, unless the input buffer throws; then its bytes are lost
    and the transport is as good as before. *)
Lemma consume_read_spec current append r : read_ok r -> readCompletionPending_ r = true ->
  wp (consumeReadCompletion current append) (fun res r' => read_ok r' /\ readCompletionPending_ r' = false /\
    match res with
    | Ok _ => current = true -> input r' = input r ++ arrived r
    | Throw x => append = Some x /\ input r' = input r /\ dropped r' = true
    end) r.
Proof.
  intros [H1 H2 (S1 & S2 & S3 & S4) H4 H5 H6] Hc. destruct (H5 Hc) as [[s Hs] Hn]. rewrite Hs in S1. cbn in S1.
  assert (readPending_ r = false) as Hp by (destruct (readPending_ r); [by rewrite H2 in Hc|done]). rewrite Hp in H1.
  unfold consumeReadCompletion. apply wp_bind, wp_modify. destruct current.
  - unfold completeRead. apply wp_bind, wp_modify, wp_get. cbn [readOperation_ set_read].
    assert (forall i, (dropped r = false -> received r = i) -> read_ok (set_data i (received r) (dropped r) (set_read 0 false false r))) as Hok.
    { intros i Hi. constructor; cbn; try done. { rewrite Hs. done. } intros Hd. rewrite (Hi Hd). unfold arrived. cbn. by rewrite app_nil_r. }
    destruct (Z.eqb_spec (error (readOperation_ r)) 0) as [He|He]; cbn [negb].
    + specialize (Hn He). assert (arrived r = slice 0 (bytesTransferred (readOperation_ r)) s) as Harr by (unfold arrived; by rewrite Hc, He, Hs).
      apply wp_bind. destruct (Z.ltb_spec 0 (bytesTransferred (readOperation_ r))) as [Hpos|Hzero].
      * cbn [readStorage_ set_read]. rewrite Hs. apply wp_bind, wp_throw_if; [intros _|intros Hlt; zify_bools; lia].
        destruct append as [x|].
        { apply wp_bind, wp_modify, wp_throw. split; [|done]. constructor; cbn; try done. by rewrite Hs. }
        apply wp_modify, wp_ret. split; [|split; [done|intros _; by rewrite Harr]].
        apply (Hok (input r ++ slice 0 (bytesTransferred (readOperation_ r)) s)). intros Hd. by rewrite (H6 Hd), Harr.
      * apply wp_ret, wp_ret. assert (arrived r = []) as Hnil by (rewrite Harr; replace (bytesTransferred (readOperation_ r)) with 0 by lia; apply slice_empty).
        split; [|split; [done|intros _; by rewrite Hnil, app_nil_r]].
        pose proof (Hok (input r)) as Hok'. destruct r; cbn in *. apply Hok'. intros Hd. by rewrite (H6 Hd), Hnil, app_nil_r.
    + apply wp_ret. assert (arrived r = []) as Hnil by (unfold arrived; rewrite Hc; by destruct (Z.eqb_spec (error (readOperation_ r)) 0)).
      split; [|split; [done|intros _; by rewrite Hnil, app_nil_r]].
      pose proof (Hok (input r)) as Hok'. destruct r; cbn in *. apply Hok'. intros Hd. by rewrite (H6 Hd), Hnil, app_nil_r.
  - apply wp_bind, wp_modify, wp_ret. split; [|done]. constructor; cbn; rewrite ?Hp; try done. by rewrite Hs.
Qed.

Lemma release_read_spec r : at_rest r ->
  wp releaseReadStorage (fun res r' => res = Ok tt /\ at_rest r' /\ readStorageBytes_ r' = 0 /\ retained r' = 0 /\ input r' = input r) r.
Proof.
  intros H. pose proof H as [[H1 H2 (S1 & S2 & S3 & S4) H4 H5 H6] [Hp Hc]]. unfold releaseReadStorage. apply wp_get, wp_bind. rewrite Hp.
  apply wp_throw_if; [intros _|done].
  destruct (Z.eqb_spec (readStorageBytes_ r) 0) as [Hz|Hz].
  { apply wp_ret. split; [done|]. split; [done|]. by rewrite S4. }
  apply wp_bind, wp_throw_if; [intros _|intros Hlt; zify_bools; lia]. apply wp_modify.
  split; [done|]. split; [|split; [done|split; [cbn; lia|done]]]. split; [|done].
  rewrite Hp in H1. constructor; cbn; rewrite ?Hp, ?Hc; try done.
  - split_and!; try done; lia.
  - intros Hd. rewrite (H6 Hd), (arrived_none r Hc). unfold arrived. cbn. by rewrite ?Hc.
Qed.

(** ** Writing *)

(** What is left of a segment, and of all. *)
Definition rest_of (s : WriteSegment) : list byte := zdrop (offset s) (bytes s).
Definition unsent (w : WriteSide) : list byte := mjoin (rest_of <$> writeSegments_ w).

Definition segment_ok (s : WriteSegment) : Prop := 0 <= offset s < zlen (bytes s) /\ zlen (bytes s) < usize_lim.

(** What the system has written of the front segment, and the transport has not yet taken
    away from it. *)
Definition written (w : WriteSide) : Z := if writeCompletionPending_ w then bytesTransferred (writeOperation_ w) else 0.

Definition in_flight (w : WriteSide) : bool := writePending_ w || writeCompletionPending_ w.

Record write_ok (w : WriteSide) : Prop := {
  w_op : own_ok (writePending_ w) (writeOperation_ w);
  w_one : writePending_ w = true -> writeCompletionPending_ w = false;
  w_segments : Forall segment_ok (writeSegments_ w);
  w_count : bufferedWriteBytes_ w = zlen (unsent w) /\ zlen (unsent w) < usize_lim;
  w_buffer : in_flight w = true -> exists front, head (writeSegments_ w) = Some front /\
    0 < submittedWriteBytes_ w <= zlen (rest_of front) /\ submittedWriteBytes_ w <= ulong_max /\
    writeBuffer_ w = slice (offset front) (offset front + submittedWriteBytes_ w) (bytes front);
  w_done : writeCompletionPending_ w = true -> failed w = false ->
    error (writeOperation_ w) = 0 /\ 0 < bytesTransferred (writeOperation_ w) <= submittedWriteBytes_ w;
  w_transferred : writeCompletionPending_ w = true -> 0 <= bytesTransferred (writeOperation_ w);
  w_data : failed w = false -> enqueued w = sent w ++ zdrop (written w) (unsent w);
}.

Lemma rest_of_len s : segment_ok s -> zlen (rest_of s) = zlen (bytes s) - offset s.
Proof. intros [H _]. apply zlen_zdrop. lia. Qed.

Definition quiet (w : WriteSide) : Prop := write_ok w /\ writePending_ w = false /\ writeCompletionPending_ w = false.

Lemma unsent_front w front rest : writeSegments_ w = front :: rest -> unsent w = rest_of front ++ mjoin (rest_of <$> rest).
Proof. unfold unsent. by intros ->. Qed.

Lemma written_le w : write_ok w -> failed w = false -> 0 <= written w <= zlen (unsent w).
Proof.
  intros H Hf. unfold written. destruct (writeCompletionPending_ w) eqn:Hc; [|pose proof (zlen_nonneg (unsent w)); lia].
  destruct (w_done w H Hc Hf) as [_ Hb]. destruct (w_buffer w H) as (front & Hh & Hs & _); [unfold in_flight; by rewrite Hc, orb_true_r|].
  destruct (writeSegments_ w) as [|f rest] eqn:E; [done|]. injection Hh as ->. rewrite (unsent_front w front rest E), zlen_app.
  pose proof (zlen_nonneg (mjoin (rest_of <$> rest))). lia.
Qed.

Lemma enqueue_ok payload mem w : write_ok w -> bufferedWriteBytes_ w + zlen payload < usize_lim ->
  wp (enqueueWrite payload mem) (fun res w' => write_ok w' /\ (forall x, res = Throw x -> mem = false /\ x = bad_alloc /\ w' = w)) w.
Proof.
  intros H Hlim. pose proof (written_le w H) as Hwr. pose proof H as [H1 H2 H3 [C1 C2] H5 H6 H7 H8]. unfold enqueueWrite.
  destruct payload as [|b payload]; [by apply wp_ret|].
  apply wp_bind, wp_throw_if; [intros _|intros Hm; apply negb_true_iff in Hm; split; [done|]; by intros x [= <-]].
  apply wp_modify. split; [|done].
  set (data := b :: payload) in *. assert (0 < zlen data) as Hpos by (unfold data, zlen; cbn; lia).
  set (w' := set_stream _ _ _ _). assert (unsent w' = unsent w ++ data) as Hu.
  { unfold w', unsent. cbn [writeSegments_ set_stream set_segments]. rewrite fmap_app, join_app. f_equal. unfold data. cbn. by rewrite app_nil_r. }
  pose proof (zlen_nonneg (unsent w)). constructor; try (rewrite Hu, zlen_app); try done.
  - apply Forall_app. split; [done|]. apply Forall_singleton. unfold segment_ok. cbn [offset bytes]. lia.
  - cbn. rewrite C1 in *. unwrap. lia.
  - intros Hf. destruct (H5 Hf) as (front & Hh & Hrest). exists front. split; [|done]. cbn. by destruct (writeSegments_ w).
  - intros Hf. change (enqueued w ++ data = sent w ++ zdrop (written w) (unsent w')). rewrite Hu, zdrop_app by (apply Hwr; exact Hf).
    rewrite (H8 Hf). by rewrite app_assoc.
Qed.

Lemma quiet_op w p buf n : quiet w -> own_ok false p -> quiet (set_write_op p (set_write buf n (writePending_ w) (writeCompletionPending_ w) w)).
Proof.
  intros [[H1 H2 H3 H4 H5 H6 H7 H8] [Hp Hc]] Hop. split; [|done]. constructor; unfold in_flight; cbn; rewrite ?Hp, ?Hc; try done.
  intros Hf. rewrite (H8 Hf). unfold written. cbn. by rewrite Hc.
Qed.

Lemma start_write_spec rc lease w : write_ok w ->
  wp (startWrite rc lease) (started lease writeOperation_ (fun e w' => write_ok w' /\ enqueued w' = enqueued w /\ sent w' = sent w /\
    (rc <> Some 0 -> e = 0 <-> in_flight w' = true))) w.
Proof.
  intros H. unfold startWrite. apply wp_get. destruct (writePending_ w || writeCompletionPending_ w) eqn:E.
  { apply wp_ret. by split_and!. }
  apply orb_false_iff in E as [Hp Hc]. assert (quiet w) as Hq by done.
  assert (forall w' e, quiet w' -> enqueued w' = enqueued w -> sent w' = sent w -> (rc <> Some 0 -> e <> 0) ->
    write_ok w' /\ enqueued w' = enqueued w /\ sent w' = sent w /\ (rc <> Some 0 -> e = 0 <-> in_flight w' = true)) as Hrefused.
  { intros w' e [Hw' [Hp' Hc']] Hen Hse He. split_and!; try done. intros Hrc. unfold in_flight. rewrite Hp', Hc'. specialize (He Hrc). cbn. intuition congruence. }
  destruct (writeSegments_ w) as [|front rest] eqn:Eseg; [apply wp_ret; by apply Hrefused|].
  assert (segment_ok front) as Hfront by (pose proof (w_segments w H) as Hx; rewrite Eseg in Hx; by apply Forall_cons in Hx as [? _]).
  pose proof (rest_of_len front Hfront) as Hrest. destruct Hfront as [Hoff Hlen]. unwrap.
  set (n := Z.min (zlen (bytes front) - offset front) ulong_max). assert (0 < n <= zlen (rest_of front) /\ n <= ulong_max) as Hn by (unfold n, ulong_max; lia).
  apply wp_bind, wp_modify, wp_bind, wp_modify, wp_get. set (buf := slice (offset front) (offset front + n) (bytes front)).
  set (w1 := set_write buf n _ _ _). assert (own_ok false (writeOperation_ w)) as Hop by (pose proof (w_op w H); by rewrite Hp in *).
  assert (quiet w1) as [Hok1 [Hp1 Hc1]].
  { replace w1 with (set_write_op (reset (writeOperation_ w)) (set_write buf n (writePending_ w) (writeCompletionPending_ w) w)) by (by destruct w).
    apply quiet_op; [done|]. by apply own_request. }
  assert (own_ok false (writeOperation_ w1)) as Hop1 by done.
  pose proof (prepare_own (writeOperation_ w1) Hop1) as Hprep. destruct (prepareIocpOperationSubmission (writeOperation_ w1)) as [[|] p].
  - apply wp_bind, wp_modify. cbn [negb]. apply wp_bind, wp_modify. destruct Hprep as (Hpre & Hcom & Hcom1 & Hrej).
    destruct (Z.eqb_spec (default WSA_IO_PENDING rc) WSA_IO_PENDING) as [_|Hne].
    + unfold retain_write. apply wp_bind. destruct (refusal lease) as [x|] eqn:El; [by apply wp_throw|].
      apply wp_get. cbn [writeOperation_ set_write set_write_op].
      destruct (commitIocpOperationSubmission p) as [ok q]. cbn in Hcom1. subst ok. apply wp_bind, wp_modify. apply wp_throw_if; [intros _|done].
      apply wp_ret. split; [|split; [done|split; [done|intros _; done]]].
      destruct Hok1 as [K1 K2 K3 K4 K5 K6 K7 K8]. constructor; unfold in_flight; cbn; rewrite ?Hc; try done.
      * intros _. exists front. rewrite Eseg. split; [done|]. split; [apply Hn|]. split; [apply Hn|done].
      * intros Hf. etrans; [exact (K8 Hf)|]. unfold written. cbn. by rewrite Hc.
    + apply wp_bind, wp_modify, wp_ret. apply Hrefused; [|done|done|].
      * pose proof (quiet_op w1 _ [] 0 (conj Hok1 (conj Hp1 Hc1)) (Hrej (default WSA_IO_PENDING rc))) as Hx. cbn in Hx |- *. rewrite Hp in Hx. exact Hx.
      * destruct rc as [e|]; cbn; [congruence|done].
  - apply wp_bind, wp_modify. cbn [negb]. apply wp_bind, wp_modify, wp_ret. subst p. apply Hrefused; [|done|done|done].
    by apply (quiet_op w1 (writeOperation_ w1) [] 0).
Qed.

Lemma write_ends_ok err n w : write_ok w -> writePending_ w = true -> 0 <= n -> write_ok (write_ends err n w).
Proof.
  intros H Hp Hn. pose proof (w_one w H Hp) as Hc. destruct H as [H1 H2 H3 H4 H5 H6 H7 H8]. rewrite Hp in H1.
  destruct H5 as (front & Hh & Hb & Hb2 & Hbuf); [unfold in_flight; by rewrite Hp|].
  destruct (writeSegments_ w) as [|f rest] eqn:E; [done|]. injection Hh as ->. pose proof (unsent_front w front rest E) as Hu.
  apply Forall_cons in H3 as Hf. destruct Hf as [Hfront _]. pose proof (rest_of_len front Hfront) as Hlen. destruct Hfront as [Hoff Hsz].
  unfold write_ends. set (good := (err =? 0) && (0 <? n) && (n <=? submittedWriteBytes_ w)).
  constructor; unfold in_flight; cbn; try done.
  - exact (own_ended _ _ _ H1).
  - by rewrite E.
  - intros _. exists front. by rewrite E.
  - intros _ Hf. apply orb_false_iff in Hf as [_ Hg]. apply negb_false_iff in Hg. unfold good in Hg. zify_bools. lia.
  - intros Hf. apply orb_false_iff in Hf as [Hf Hg]. apply negb_false_iff in Hg. rewrite Hg, (H8 Hf). unfold good in Hg. zify_bools.
    rewrite <- app_assoc. f_equal. change (zdrop (written w) (unsent w) = ztake n (writeBuffer_ w) ++ zdrop n (unsent w)).
    unfold written. rewrite Hc, Hu, zdrop_0, zdrop_app, Hbuf, app_assoc by lia. f_equal.
    unfold rest_of. symmetry. apply slice_zdrop; lia.
Qed.

Lemma consume_write_spec current w : write_ok w -> writeCompletionPending_ w = true ->
  wp (consumeWriteCompletion current) (fun res w' => exists n e, res = Ok (n, e) /\ write_ok w' /\ in_flight w' = false /\
    enqueued w' = enqueued w /\ sent w' = sent w /\ writeOperation_ w' = writeOperation_ w /\ (current = true -> failed w' = failed w)) w.
Proof.
  intros H Hc. assert (writePending_ w = false) as Hp by (destruct (writePending_ w) eqn:E; [by rewrite (w_one w H E) in Hc|done]).
  pose proof H as [H1 H2 H3 [C1 C2] H5 H6 H7 H8]. rewrite Hp in H1. specialize (H7 Hc).
  assert (forall buf k f l m, Forall segment_ok l -> m = zlen (mjoin (rest_of <$> l)) -> m < usize_lim ->
    (f = false -> failed w = false /\ enqueued w = sent w ++ mjoin (rest_of <$> l)) ->
    write_ok (set_stream (enqueued w) (sent w) f (set_segments l m (set_write buf k false false w)))) as Hok.
  { intros buf k f l m Hl Hm Hlim Hf. constructor; unfold in_flight; cbn; try done; [by subst m|]. intros Hx. by destruct (Hf Hx) as [_ ->]. }
  assert (forall buf k f, (f = false -> failed w = false /\ False) -> write_ok (set_stream (enqueued w) (sent w) f (set_write buf k false false w))) as Hbad.
  { intros buf k f Hf. pose proof (Hok buf k f (writeSegments_ w) (bufferedWriteBytes_ w) H3 C1) as Hx. rewrite C1 in Hx. specialize (Hx C2).
    destruct w; cbn in *. subst. apply Hx. intros Hy. destruct (Hf Hy) as [_ []]. }
  unfold consumeWriteCompletion. apply wp_bind, wp_modify. destruct current.
  2: { apply wp_bind, wp_modify, wp_ret. exists 0, 0. split; [done|]. split; [|by unfold in_flight; cbn; rewrite Hp].
       pose proof (Hbad (writeBuffer_ w) (submittedWriteBytes_ w) true) as Hx. cbn in Hx |- *. rewrite Hp. by apply Hx. }
  unfold completeWrite. apply wp_get, wp_bind, wp_modify. cbn [submittedWriteBytes_ set_write writeOperation_ writeSegments_ bufferedWriteBytes_].
  assert (forall n e (m : M WriteSide (Z * Z)) st, m = ret (n, e) -> st = set_write [] 0 false false w ->
    (failed w = true) -> wp m (fun res w' => exists n e, res = Ok (n, e) /\ write_ok w' /\ in_flight w' = false /\
      enqueued w' = enqueued w /\ sent w' = sent w /\ writeOperation_ w' = writeOperation_ w /\ (true = true -> failed w' = failed w)) st) as Hlost.
  { intros n e m st -> -> Hf. apply wp_ret. exists n, e. split; [done|]. split; [|by split_and!].
    pose proof (Hbad [] 0 (failed w)) as Hx. destruct w; cbn in *. apply Hx. congruence. }
  assert (failed w = false \/ failed w = true) as Hcases by (destruct (failed w); auto).
  destruct (Z.eqb_spec (error (writeOperation_ w)) 0) as [He|He]; cbn [negb]; [|destruct Hcases as [Hf|Hf]; [by destruct (H6 Hc Hf)|by eapply Hlost]].
  destruct H5 as (front & Hh & Hb & Hb2 & Hbuf); [unfold in_flight; by rewrite Hc, orb_true_r|].
  destruct (writeSegments_ w) as [|f rest] eqn:E; [done|]. injection Hh as ->. pose proof (unsent_front w front rest E) as Hu.
  apply Forall_cons in H3 as [Hfront Hrest]. pose proof (rest_of_len front Hfront) as Hlen. pose proof Hfront as [Hoff Hsz].
  set (n := bytesTransferred (writeOperation_ w)) in *.
  destruct ((n =? 0) || (submittedWriteBytes_ w <? n)) eqn:E1.
  { destruct Hcases as [Hf|Hf]; [|by eapply Hlost]. destruct (H6 Hc Hf) as [_ ?]. apply orb_true_iff in E1 as [?|?]; zify_bools; lia. }
  zify_bools. pose proof (zlen_app (rest_of front) (mjoin (rest_of <$> rest))) as Hul. rewrite <- Hu in Hul.
  pose proof (zlen_nonneg (mjoin (rest_of <$> rest))). unwrap.
  destruct (_ || _) eqn:E2; [apply orb_true_iff in E2 as [?|?]; zify_bools; lia|]. clear E2.
  apply wp_bind, wp_modify, wp_ret. exists n, 0. split; [done|]. split; [|by split_and!].
  set (front' := mkSegment (bytes front) (offset front + n)). rewrite C1. unwrap.
  assert (rest_of front' = zdrop n (rest_of front)) as Hr' by (unfold rest_of, front'; cbn; by rewrite zdrop_zdrop by lia).
  assert (zlen (rest_of front') = zlen (rest_of front) - n) as Hl' by (rewrite Hr'; apply zlen_zdrop; lia).
  assert (mjoin (rest_of <$> if offset front' =? zlen (bytes front') then rest else front' :: rest) = zdrop n (unsent w)) as Hu'.
  { rewrite Hu, zdrop_app, <- Hr' by lia. destruct (Z.eqb_spec (offset front') (zlen (bytes front'))) as [Hz|Hz]; [|done].
    rewrite (zlen_nil_inv (rest_of front')); [done|]. cbn in Hz. lia. }
  pose proof (Hok [] 0 (failed w) (if offset front' =? zlen (bytes front') then rest else front' :: rest) (zlen (unsent w) - n)) as Hx.
  rewrite Hu', zlen_zdrop in Hx by lia. destruct w; cbn in *. apply Hx; [|done|lia|].
  - destruct (Z.eqb_spec (offset front + n) (zlen (bytes front))) as [Hz|Hz]; [done|]. apply Forall_cons. split; [|done]. unfold segment_ok. cbn. lia.
  - intros Hf. split; [done|]. unfold written in H8. cbn in H8. rewrite Hc in H8. by apply H8.
Qed.

Lemma discard_spec w : quiet w ->
  wp discardBufferedWrites (fun res w' => res = Ok (bufferedWriteBytes_ w) /\ quiet w' /\ bufferedWriteBytes_ w' = 0 /\ writeSegments_ w' = []) w.
Proof.
  intros [[H1 H2 H3 [C1 C2] H5 H6 H7 H8] [Hp Hc]]. unfold discardBufferedWrites. apply wp_get, wp_bind. rewrite Hp. apply wp_throw_if; [intros _|done].
  apply wp_bind, wp_modify, wp_ret. split; [done|]. split; [|done]. split; [|done]. rewrite Hp in H1. constructor; unfold in_flight; cbn; rewrite ?Hp, ?Hc; done.
Qed.

(** Nothing is under way: the rest of the output is discarded, if there is any. *)
Lemma clear_spec w : quiet w -> wp clearBufferedOutput (fun res w' => res = Ok tt /\ quiet w' /\ writeSegments_ w' = []) w.
Proof.
  intros H. unfold clearBufferedOutput. apply wp_get. destruct (Z.eqb_spec (bufferedWriteBytes_ w) 0) as [Hz|Hz].
  - apply wp_ret. split; [done|]. split; [done|]. destruct H as [Hok _]. destruct (w_count w Hok) as [Hc _]. rewrite Hz in Hc.
    pose proof (w_segments w Hok) as Hs. destruct (writeSegments_ w) as [|f l] eqn:E; [done|]. apply Forall_cons in Hs as [Hf _].
    rewrite (unsent_front w f l E), zlen_app, rest_of_len in Hc by done. destruct Hf as [Hf _]. pose proof (zlen_nonneg (mjoin (rest_of <$> l))). lia.
  - apply wp_bind. eapply wp_weaken; [by apply discard_spec|]. intros res w' (-> & Hq & _ & Hs). cbn beta iota.
    apply wp_throw_if; [done|]. intros Hx. by rewrite Z.eqb_refl in Hx.
Qed.

(** A write under way has bytes that are buffered, so they are not discarded in silence. *)
Lemma clear_fatal w : write_ok w -> (clearBufferedOutput w).1 = if writePending_ w then Throw log_fatal else Ok tt.
Proof.
  intros H. unfold clearBufferedOutput, discardBufferedWrites, bindM, get. cbn beta iota zeta.
  destruct (writePending_ w) eqn:Hp.
  - destruct (w_buffer w H) as (front & Hh & Hb & _); [unfold in_flight; by rewrite Hp|]. destruct (w_count w H) as [Hc _].
    destruct (writeSegments_ w) as [|f l] eqn:E; [done|]. injection Hh as ->. rewrite (unsent_front w front l E), zlen_app in Hc.
    pose proof (zlen_nonneg (mjoin (rest_of <$> l))). destruct (Z.eqb_spec (bufferedWriteBytes_ w) 0) as [?|_]; [lia|].
    by rewrite Hp.
  - destruct (Z.eqb_spec (bufferedWriteBytes_ w) 0) as [_|_]; [done|]. rewrite Hp. cbn. by rewrite Z.eqb_refl.
Qed.

(** ** The transport *)

Record transport_ok (t : IocpTcpTransport) : Prop := {
  t_read : read_ok (reading t);
  t_write : write_ok (writing t);
  t_closed : closed t = true ->
    hasPendingOperations t = false /\ readStorageBytes_ (reading t) = 0 /\ writeSegments_ (writing t) = [];
}.

Lemma wp_on_read {A} (m : M ReadSide A) (Q : result A -> IocpTcpTransport -> Prop) t :
  wp m (fun res r => Q res (mkTransport r (writing t) (closed t))) (reading t) -> wp (on_read m) Q t.
Proof. unfold wp, on_read. by destruct (m (reading t)). Qed.

Lemma wp_on_write {A} (m : M WriteSide A) (Q : result A -> IocpTcpTransport -> Prop) t :
  wp m (fun res w => Q res (mkTransport (reading t) w (closed t))) (writing t) -> wp (on_write m) Q t.
Proof. unfold wp, on_write. by destruct (m (writing t)). Qed.

Lemma idle_parts t : hasPendingOperations t = false ->
  readPending_ (reading t) = false /\ writePending_ (writing t) = false /\
  readCompletionPending_ (reading t) = false /\ writeCompletionPending_ (writing t) = false.
Proof. unfold hasPendingOperations. intros H. zify_bools. done. Qed.

Lemma read_obligation r : read_ok r -> read_ok (set_read_op (set_obligation true (readOperation_ r)) r).
Proof. intros [H1 H2 H3 H4 H5 H6]. constructor; done. Qed.

Lemma write_obligation w : write_ok w -> write_ok (set_write_op (set_obligation true (writeOperation_ w)) w).
Proof. intros [H1 H2 H3 H4 H5 H6 H7 H8]. constructor; done. Qed.

Lemma transport_cancel_ok r w t : transport_ok t -> wp (cancelPendingOperations r w) (fun res t' => res = Ok tt /\ transport_ok t') t.
Proof.
  intros [H1 H2 H3]. unfold cancelPendingOperations. apply wp_get, wp_bind, wp_on_read.
  destruct (cancel_own (readPending_ (reading t)) _ set_read_op r (reading t) (r_op _ H1)) as (r' & Hr & Hr').
  eapply wp_eq; [exact Hr|]. cbn beta iota. apply wp_on_write. cbn [writing].
  destruct (cancel_own (writePending_ (writing t)) _ set_write_op w (writing t) (w_op _ H2)) as (w' & Hw & Hw').
  eapply wp_eq; [exact Hw|]. split; [done|].
  assert (read_ok r') by (destruct Hr' as [->| ->]; [done|by apply read_obligation]).
  assert (write_ok w') by (destruct Hw' as [->| ->]; [done|by apply write_obligation]).
  constructor; [done|done|]. cbn [closed reading writing]. intros Hcl. destruct (H3 Hcl) as (K1 & K2 & K3).
  destruct Hr' as [->| ->], Hw' as [->| ->]; done.
Qed.

Lemma transport_close_ok t : transport_ok t -> hasPendingOperations t = false -> wp close_transport (fun res t' => res = Ok tt /\ transport_ok t') t.
Proof.
  intros [H1 H2 _] Hidle. apply idle_parts in Hidle as (P1 & P2 & P3 & P4). unfold close_transport. apply wp_bind, wp_on_read.
  eapply wp_weaken; [by apply release_read_spec|]. intros res r (-> & [Hr [Q1 Q2]] & Hs & _). cbn beta iota.
  apply wp_bind, wp_on_write. cbn [writing].
  eapply wp_weaken; [by apply clear_spec|]. intros res w (-> & [Hw [Q3 Q4]] & Hseg). cbn beta iota. apply wp_modify. split; [done|].
  constructor; [done|done|]. intros _. unfold hasPendingOperations. cbn. by rewrite Q1, Q2, Q3, Q4.
Qed.

Lemma transport_begin_close_ok r w t : transport_ok t -> wp (beginClose r w) (fun res t' => res = Ok tt /\ transport_ok t') t.
Proof.
  intros H. unfold beginClose. apply wp_get. destruct (closed t); [by apply wp_ret|].
  destruct (hasPendingOperations t) eqn:E; [by apply transport_cancel_ok|by apply transport_close_ok].
Qed.

Lemma ok_not_stranded t : transport_ok t -> stranded t = false.
Proof. intros [H1 H2 _]. unfold stranded. destruct (r_op _ H1) as (_ & -> & _), (w_op _ H2) as (_ & -> & _). done. Qed.

Lemma refusal_refused lease x : refusal lease = Some x ->
  negb (bool_decide (lease = Leased)) = true /\ (x = logic_error \/ x = bad_alloc).
Proof. destruct lease; [done|intros [= <-]; auto..]. Qed.

(** The end of a label: the transport is as good as before, or a lease was refused and the
    operation is stranded; and nothing is thrown but the failure that came with the label. *)
Definition label_ends (lb : Label) (res : result unit) (t : IocpTcpTransport) : Prop :=
  match res with
  | Ok _ => transport_ok t
  | Throw x => injected lb = Some x /\
      if refused lb then stranded t = true /\ (x = logic_error \/ x = bad_alloc)
      else transport_ok t /\ (x = bad_alloc \/ x = length_error)
  end.

Lemma transport_perform_ok lb t : transport_ok t -> enabled lb t = true -> wp (perform lb) (label_ends lb) t.
Proof.
  intros H He. pose proof H as [H1 H2 H3].
  assert (hasPendingOperations t = true -> closed t = false) as Hopen.
  { intros Hp. destruct (closed t); [|done]. by destruct (H3 eq_refl) as [? _]; congruence. }
  assert (forall r w, read_ok r -> write_ok w -> closed t = false -> transport_ok (mkTransport r w (closed t))) as Hok.
  { intros r w Hr Hw Hcl. constructor; [done|done|]. cbn. congruence. }
  unfold hasPendingOperations in Hopen.
  destruct lb as [n alloc rc lease|err data|current append|payload mem|rc lease|err n|current|r w]; cbn [enabled] in He; cbn [perform]; zify_bools.
  - apply wp_bind, wp_on_read. eapply wp_weaken; [by apply start_read_spec|]. intros [e|x] r; cbn beta iota.
    + intros [Hr _]. apply wp_ret, Hok; done.
    + intros [Hx Hs]. destruct (refusal_refused lease x Hx) as [Hre Hk]. split; [done|]. cbn. rewrite Hre. split; [|done]. unfold stranded. cbn. by rewrite Hs.
  - apply wp_on_read. eapply wp_weaken; [by apply read_ends_spec|]. intros res r (-> & Hr & _). apply Hok; [done..|]. apply Hopen. by rewrite H0.
  - assert (closed t = false) as Hcl by (apply Hopen; rewrite H0, !orb_true_r; done).
    apply wp_bind, wp_on_read. eapply wp_weaken; [by apply consume_read_spec|]. intros [[n e]|x] r (Hr & _ & Hx); cbn beta iota.
    + apply wp_ret, Hok; done.
    + destruct Hx as [-> _]. split; [done|]. split; [by apply Hok|]. destruct x; by auto.
  - apply wp_on_write. eapply wp_weaken; [by apply enqueue_ok|]. intros [[]|x] w [Hw Hx]; [by apply Hok|].
    destruct (Hx x eq_refl) as (-> & -> & _). split; [done|]. split; [by apply Hok|]. by left.
  - apply wp_bind, wp_on_write. eapply wp_weaken; [by apply start_write_spec|]. intros [e|x] w; cbn beta iota.
    + intros [Hw _]. apply wp_ret, Hok; done.
    + intros [Hx Hs]. destruct (refusal_refused lease x Hx) as [Hre Hk]. split; [done|]. cbn. rewrite Hre. split; [|done]. unfold stranded. cbn. by rewrite Hs, orb_true_r.
  - apply wp_on_write, wp_modify. apply Hok; [done| |]. { by apply write_ends_ok. } apply Hopen. rewrite H0, !orb_true_r. done.
  - apply wp_bind, wp_on_write. eapply wp_weaken; [by apply consume_write_spec|]. intros res w (n & e & -> & Hw & _). cbn beta iota. apply wp_ret.
    apply Hok; [done..|]. apply Hopen. rewrite He, !orb_true_r. done.
  - eapply wp_weaken; [by apply transport_begin_close_ok|]. by intros res t' [-> ?].
Qed.

Lemma new_transport_ok c : transport_ok (IocpTcpTransport_new c).
Proof.
  constructor; [| |done].
  - by constructor.
  - by constructor.
Qed.

(** Either nothing is stranded and the transport is in order, or a refused lease ended the run. *)
Definition survivor (res : result unit) : Prop := res = Ok tt \/ res = Throw bad_alloc \/ res = Throw length_error.
Definition run_ends (res : result unit) (t : IocpTcpTransport) : Prop :=
  (transport_ok t /\ survivor res) \/ (stranded t = true /\ (res = Throw logic_error \/ res = Throw bad_alloc)).

Lemma label_ends_run lb res t : label_ends lb res t -> run_ends res t.
Proof.
  unfold label_ends, run_ends, survivor. destruct res as [[]|x]; [by auto|]. intros [_ Hx].
  destruct (refused lb); destruct Hx as [? [->| ->]]; auto.
Qed.

Lemma transport_inv c res t : reachable c res t -> run_ends res t.
Proof.
  induction 1 as [|lb t res res' t' _ IH Hg He Hp]; [left; split; [apply new_transport_ok|by left]|].
  destruct IH as [[IH _]|[IH Hr]]; [|unfold goes_on in Hg; rewrite IH in Hg; by destruct Hr as [->| ->]]. apply (label_ends_run lb).
  pose proof (transport_perform_ok lb t IH He) as Hwp. unfold wp in Hwp. by rewrite Hp in Hwp.
Qed.

Lemma transport_inv_ok c t : reachable c (Ok tt) t -> transport_ok t.
Proof. intros H. by destruct (transport_inv c _ t H) as [[? _]|[_ [?|?]]]. Qed.

(** What the destructor finds. *)
Lemma transport_destroy_spec t : transport_ok t ->
  (destroy t).1 = (if readPending_ (reading t) then Throw log_fatal else Ok tt) /\
  (readPending_ (reading t) = false -> readStorageBytes_ (reading (destroy t).2) = 0 /\ retained (reading (destroy t).2) = 0).
Proof.
  intros [[H1 H2 (S1 & S2 & S3 & S4) H4 H5 H6] _ _]. unfold destroy, on_read, releaseReadStorage, bindM, get, throw_if.
  destruct (readPending_ (reading t)); [done|]. destruct (Z.eqb_spec (readStorageBytes_ (reading t)) 0) as [Hz|Hz]; [cbn; split; [done|]; intros _; lia|].
  destruct (Z.ltb_spec (retained (reading t)) (readStorageBytes_ (reading t))) as [?|_]; [lia|]. cbn. split; [done|]. intros _. lia.
Qed.

(** ** Draining

    A round of the connection and the system: a write is started, the system writes [k] of the
    bytes, or as many as it was given, and the end is looked at. *)
Definition round (k : Z) : M WriteSide unit :=
  do e <- startWrite None Leased ;;
  if negb (e =? 0) then ret tt
  else
    run modify (fun w => write_ends 0 (Z.min k (submittedWriteBytes_ w)) w) ;;
    run consumeWriteCompletion true ;;
    ret tt.

Fixpoint rounds (ks : list Z) : M WriteSide unit :=
  match ks with
  | [] => ret tt
  | k :: ks => run round k ;; rounds ks
  end.

Lemma start_write_goes w : quiet w -> writeSegments_ w <> [] -> generation (writeOperation_ w) <> usize_max ->
  wp (startWrite None Leased) (fun res w' => res = Ok 0 /\ write_ok w' /\ writePending_ w' = true /\ failed w' = failed w /\
    writeSegments_ w' = writeSegments_ w /\ enqueued w' = enqueued w /\ sent w' = sent w /\
    generation (writeOperation_ w') = generation (writeOperation_ w) + 1) w.
Proof.
  intros [H [Hp Hc]] Hs Hg. pose proof (start_write_spec None Leased w H) as Hspec. unfold wp in *.
  assert (exists w', startWrite None Leased w = (Ok 0, w') /\ writePending_ w' = true /\ failed w' = failed w /\ writeSegments_ w' = writeSegments_ w /\
    enqueued w' = enqueued w /\ sent w' = sent w /\ generation (writeOperation_ w') = generation (writeOperation_ w) + 1) as (w' & He & Hw').
  { destruct (w_op w H) as (_ & O2 & O3 & _). rewrite Hp in O3. unfold startWrite. cbn. rewrite Hp, Hc. cbn.
    destruct (writeSegments_ w) as [|front rest] eqn:E; [done|]. unfold bindM, modify, get, retain_write, refusal. cbn.
    unfold prepareIocpOperationSubmission. cbn. rewrite O2, O3. cbn. destruct (Z.eqb_spec (generation (writeOperation_ w)) usize_max) as [?|_]; [done|].
    cbn. unfold bindM, get, commitIocpOperationSubmission. cbn. rewrite ?O3. cbn. eexists. split; [reflexivity|]. cbn. by rewrite E. }
  rewrite He in *. cbn in *. destruct Hspec as (e & _ & Hok & _). tauto.
Qed.

Lemma round_spec k w : 0 < k -> quiet w -> failed w = false -> generation (writeOperation_ w) <> usize_max ->
  wp (round k) (fun res w' => res = Ok tt /\ quiet w' /\ failed w' = false /\ enqueued w' = enqueued w /\
    generation (writeOperation_ w') <= generation (writeOperation_ w) + 1 /\
    (unsent w = [] \/ zlen (unsent w') < zlen (unsent w)) /\ zlen (unsent w') <= zlen (unsent w)) w.
Proof.
  intros Hk Hq Hf Hg. unfold round. destruct (decide (writeSegments_ w = [])) as [He|Hne].
  { destruct Hq as [Hok [Hp Hc]] eqn:E. clear E. apply wp_bind. eapply wp_eq.
    { unfold startWrite. cbn. rewrite Hp, Hc, He. reflexivity. }
    cbn. apply wp_ret. split; [done|]. split; [done|]. split; [done|]. split; [done|]. split; [lia|]. split; [|lia]. left. unfold unsent. by rewrite He. }
  apply wp_bind. eapply wp_weaken; [by apply start_write_goes|]. intros res w1 (-> & Hok1 & Hp1 & Hf1 & Hs1 & He1 & Hse1 & Hg1). cbn.
  destruct (w_buffer w1 Hok1) as (front & Hh & Hb & _); [unfold in_flight; by rewrite Hp1|].
  set (n := Z.min k (submittedWriteBytes_ w1)). assert (0 < n <= submittedWriteBytes_ w1) as Hn by (unfold n; lia).
  assert (0 <= n) as Hn0 by lia. pose proof (write_ends_ok 0 n w1 Hok1 Hp1 Hn0) as Hok2.
  assert (failed (write_ends 0 n w1) = false) as Hf2.
  { cbn. rewrite Hf1, Hf. destruct (Z.ltb_spec 0 n), (Z.leb_spec n (submittedWriteBytes_ w1)); done || lia. }
  apply wp_bind, wp_modify, wp_bind. cbn beta. fold n. eapply wp_weaken; [by apply consume_write_spec|].
  intros res w3 (m & e & -> & Hok3 & Hfl3 & He3 & Hse3 & Hop3 & Hf3). cbn. apply wp_ret. specialize (Hf3 eq_refl). rewrite Hf2 in Hf3.
  pose proof (w_data _ Hok2 Hf2) as D2. pose proof (w_data _ Hok3 Hf3) as D3. pose proof (written_le _ Hok2 Hf2) as Hw2.
  apply orb_false_iff in Hfl3 as [Hp3 Hc3]. rewrite He3, Hse3, D2 in D3. apply app_inv_head in D3. unfold written at 2 in D3. rewrite Hc3, zdrop_0 in D3.
  change (written (write_ends 0 n w1)) with n in *. change (unsent (write_ends 0 n w1)) with (unsent w1) in *.
  assert (unsent w1 = unsent w) as Hu by (unfold unsent; by rewrite Hs1). rewrite Hu in *.
  split; [done|]. split; [done|]. split; [done|]. split; [by rewrite He3|]. split; [rewrite Hop3; cbn; lia|].
  rewrite <- D3, zlen_zdrop by lia. split; [right|]; lia.
Qed.

Lemma rounds_spec ks : forall w, Forall (fun k => 0 < k) ks -> quiet w -> failed w = false ->
  generation (writeOperation_ w) + Z.of_nat (length ks) <= usize_max ->
  wp (rounds ks) (fun res w' => res = Ok tt /\ quiet w' /\ failed w' = false /\ enqueued w' = enqueued w /\
    zlen (unsent w') <= Z.max 0 (zlen (unsent w) - Z.of_nat (length ks))) w.
Proof.
  induction ks as [|k ks IH]; intros w Hks Hq Hf Hg; cbn [rounds length].
  { apply wp_ret. pose proof (zlen_nonneg (unsent w)). split; [done|]. split; [done|]. split; [done|]. split; [done|]. cbn. lia. }
  apply Forall_cons in Hks as [Hk Hks]. cbn [length] in Hg. apply wp_bind. eapply wp_weaken; [apply (round_spec k w); try done; lia|].
  intros res w1 (-> & Hq1 & Hf1 & He1 & Hg1 & Hu & Hle). cbn beta iota. eapply wp_weaken; [apply (IH w1); try done; lia|].
  intros res w2 (-> & Hq2 & Hf2 & He2 & Hu2). split; [done|]. split; [done|]. split; [done|]. split; [congruence|].
  destruct Hu as [Hnil|Hlt]; [|lia]. assert (zlen (unsent w) = 0) by (by rewrite Hnil). lia.
Qed.

(** ** The claims *)

(** C39. The transport is safe, whatever the connection and the system do, wherever memory
    runs out, and when the engine refuses a lease: no run ends in an abort or in undefined
    behaviour, the closing of the connection included.  An operation throws only the failure
    it was given (no memory for the queue, for the input buffer or for the lease, or a refused
    lease), and after all of them but a refused lease the transport is as good as before: the
    counter of fixed storage has exactly the block of the transport, which never exceeds 4096
    bytes; a read in the system's hands fits into the block, and a write is a part of the
    segment at the front, which stays in the queue; never are two operations of a kind under
    way; nothing is left after the end; the destructor dies if a read is under way, and returns
    the block otherwise, and [connectDestroyed] dies if a write is under way.  After a refused
    lease an operation is stranded, and nothing is said of what follows. *)
Theorem iocp_transport_is_safe c res t : reachable c res t ->
  (res = Ok tt \/ res = Throw bad_alloc \/ res = Throw length_error \/ (res = Throw logic_error /\ stranded t = true)) /\
  (stranded t = false ->
    retained (reading t) = storage_size (readStorage_ (reading t)) /\ storage_size (readStorage_ (reading t)) <= 4096 /\
    (readPending_ (reading t) = true -> 0 < readBuffer_ (reading t) <= storage_size (readStorage_ (reading t)) /\
      readCompletionPending_ (reading t) = false) /\
    (writePending_ (writing t) = true -> writeCompletionPending_ (writing t) = false /\
      exists front, head (writeSegments_ (writing t)) = Some front /\
        0 < submittedWriteBytes_ (writing t) <= zlen (bytes front) - offset front /\
        writeBuffer_ (writing t) = slice (offset front) (offset front + submittedWriteBytes_ (writing t)) (bytes front)) /\
    (closed t = true -> hasPendingOperations t = false /\ retained (reading t) = 0 /\ writeSegments_ (writing t) = []) /\
    (forall lb res' t', enabled lb t = true -> perform lb t = (res', t') ->
      match res' with
      | Ok _ => stranded t' = false
      | Throw x => injected lb = Some x /\ stranded t' = refused lb
      end) /\
    (destroy t).1 = (if readPending_ (reading t) then Throw log_fatal else Ok tt) /\
    (readPending_ (reading t) = false -> retained (reading (destroy t).2) = 0) /\
    (connectDestroyed t).1 = (if writePending_ (writing t) then Throw log_fatal else Ok tt)).
Proof.
  intros H. pose proof (transport_inv c res t H) as Hinv. split.
  { destruct Hinv as [[_ [->|[->| ->]]]|[? [->| ->]]]; auto. }
  intros Hst. destruct Hinv as [[Hok _]|[? _]]; [|congruence]. destruct (transport_destroy_spec t Hok) as [Hd1 Hd2].
  pose proof Hok as [H1 H2 H3]. destruct H1 as [R1 R2 (R3 & R4 & R5 & R6) R7 R8 R9].
  split; [congruence|]. split; [unfold kReadChunkBytes in *; lia|]. split; [intros Hp; split; [rewrite <- R3|]; auto|]. split; [|split; [|split]].
  - intros Hp. split; [by apply w_one|]. destruct (w_buffer _ H2) as (front & Hh & Hb & _ & Hbuf); [unfold in_flight; by rewrite Hp|].
    exists front. split; [done|]. split; [|done]. pose proof (w_segments _ H2) as Hs. destruct (writeSegments_ (writing t)) as [|f l]; [done|]. injection Hh as ->.
    apply Forall_cons in Hs as [Hs _]. rewrite rest_of_len in Hb by done. done.
  - intros Hcl. destruct (H3 Hcl) as (K1 & K2 & K3). split; [done|]. split; [congruence|done].
  - intros lb res' t' He Hp. pose proof (transport_perform_ok lb t Hok He) as Hwp. unfold wp in Hwp. rewrite Hp in Hwp. cbn in Hwp.
    destruct res' as [u|x]; cbn in Hwp; [by apply ok_not_stranded|]. destruct Hwp as [Hi Hx]. split; [done|].
    destruct (refused lb), Hx as [Hx _]; [done|]. by apply ok_not_stranded.
  - split; [done|]. split; [by apply Hd2|]. pose proof (clear_fatal (writing t) H2) as Hc. unfold connectDestroyed, on_write.
    by destruct (clearBufferedOutput (writing t)).
Qed.

(** C9. Both streams are in order, while no operation is stranded by a refused lease.  What
    the system has read is what the input buffer has received, followed by what the last read
    has left in the storage, as long as every end of a read was looked at and the input buffer
    could take its bytes.  What was enqueued is what the system has written, followed by what
    is left of the segments (less the part that has just been written), and the counter of
    buffered bytes is exact, as long as no write has failed or was ignored and no rest was
    discarded. *)
Theorem iocp_streams_in_order c res t : reachable c res t -> stranded t = false ->
  (dropped (reading t) = false -> received (reading t) = input (reading t) ++ arrived (reading t)) /\
  (failed (writing t) = false ->
    enqueued (writing t) = sent (writing t) ++ zdrop (written (writing t)) (unsent (writing t)) /\
    bufferedWriteBytes_ (writing t) = zlen (enqueued (writing t)) - zlen (sent (writing t)) + written (writing t)).
Proof.
  intros H Hst. destruct (transport_inv c res t H) as [[[H1 H2 _] _]|[? _]]; [|congruence]. split; [apply (r_data _ H1)|]. intros Hf.
  pose proof (w_data _ H2 Hf) as Hd. split; [done|]. pose proof (written_le _ H2 Hf). destruct (w_count _ H2) as [-> _].
  rewrite Hd, zlen_app, zlen_zdrop by lia. lia.
Qed.

(** The answers of the transport are exact: it reports success of a start if and only if an
    operation of that kind is under way or its end has not been looked at, so that a
    consumer will be called; and a start that is refused leaves the streams alone.  (An error
    code 0 of a call that failed is left out.) *)
Theorem iocp_start_is_exact c t n alloc rc : reachable c (Ok tt) t -> 0 <= n -> rc <> Some 0 ->
  (exists e r, startRead n alloc rc Leased (reading t) = (Ok e, r) /\
    (e = 0 <-> readPending_ r = true \/ readCompletionPending_ r = true) /\ input r = input (reading t)) /\
  (exists e w, startWrite rc Leased (writing t) = (Ok e, w) /\
    (e = 0 <-> writePending_ w = true \/ writeCompletionPending_ w = true) /\
    enqueued w = enqueued (writing t) /\ sent w = sent (writing t)).
Proof.
  intros H Hn Hrc. destruct (transport_inv_ok c t H) as [H1 H2 _]. split.
  - pose proof (start_read_spec n alloc rc Leased _ H1 Hn) as Hx. unfold wp in Hx. destruct (startRead n alloc rc Leased (reading t)) as [[e|x] r]; [|by destruct Hx].
    cbn in Hx. destruct Hx as (_ & Hi & He). exists e, r. split; [done|]. split; [by apply He|done].
  - pose proof (start_write_spec rc Leased _ H2) as Hx. unfold wp in Hx. destruct (startWrite rc Leased (writing t)) as [[e|x] w]; [|by destruct Hx].
    cbn in Hx. destruct Hx as (_ & Hi & Hs & He). exists e, w. split; [done|]. split; [|done]. rewrite (He Hrc). apply orb_true_iff.
Qed.

(** C40. Output drains: when no write is under way and none has failed, it is enough that the
    system keeps writing, however little at a time.  After as many rounds as there are bytes
    left, all that was enqueued has been written, in order, and nothing is buffered. *)
Theorem iocp_output_drains c t ks : reachable c (Ok tt) t ->
  writePending_ (writing t) = false -> writeCompletionPending_ (writing t) = false -> failed (writing t) = false ->
  Forall (fun k => 0 < k) ks -> bufferedWriteBytes_ (writing t) <= Z.of_nat (length ks) ->
  generation (writeOperation_ (writing t)) + Z.of_nat (length ks) <= usize_max ->
  exists w, rounds ks (writing t) = (Ok tt, w) /\ enqueued w = enqueued (writing t) /\ sent w = enqueued w /\ bufferedWriteBytes_ w = 0.
Proof.
  intros H Hp Hc Hf Hks Hlen Hg. destruct (transport_inv_ok c t H) as [_ H2 _].
  pose proof (rounds_spec ks (writing t) Hks (conj H2 (conj Hp Hc)) Hf Hg) as Hx. unfold wp in Hx. destruct (rounds ks (writing t)) as [res w].
  cbn in Hx. destruct Hx as (-> & [Hok [Hp' Hc']] & Hf' & He & Hu). destruct (w_count _ H2) as [Hcount _]. destruct (w_count _ Hok) as [Hcount' _].
  pose proof (zlen_nonneg (unsent w)). assert (zlen (unsent w) = 0) as Hz by lia.
  exists w. split; [done|]. split; [done|]. split; [|lia]. rewrite (w_data _ Hok Hf'), (zlen_nil_inv _ Hz). unfold zdrop. by rewrite drop_nil, app_nil_r.
Qed.

(** ** Concrete runs *)

Fixpoint play (ls : list Label) (s : result unit * IocpTcpTransport) : option (result unit * IocpTcpTransport) :=
  match ls with
  | [] => Some s
  | lb :: ls => if goes_on s.1 s.2 && enabled lb s.2 then play ls (perform lb s.2) else None
  end.

Lemma play_reachable c ls : forall s s', reachable c s.1 s.2 -> play ls s = Some s' -> reachable c s'.1 s'.2.
Proof.
  induction ls as [|lb ls IH]; cbn; intros [res t] s' H Hp; [by injection Hp as <-|]. cbn in *.
  destruct (goes_on res t && enabled lb t) eqn:E; [|done]. zify_bools.
  apply (IH (perform lb t)); [|done]. eapply reachable_step; [exact H|done|done|]. by destruct (perform lb t).
Qed.

Definition demo_message : list byte := [Byte.x61; Byte.x62; Byte.x63].

(** A message is read, two are written, the first in two parts, after memory has run out for
    the second; a read is under way when the connection is closed. *)
Definition demo_busy : list Label :=
  [StartRead 10 true None Leased; Enqueue demo_message true; StartWrite (Some WSA_IO_PENDING) Leased; ReadEnds 0 demo_message;
   Enqueue demo_message false; Enqueue demo_message true; ConsumeRead true None; WriteEnds 0 2; ConsumeWrite true; StartWrite None Leased;
   StartRead 5000 true None Leased; BeginClose CancelAccepted CancelNotFound; WriteEnds 0 1].
Definition demo_end : list Label :=
  [ConsumeWrite true; StartWrite (Some WSAENOBUFS) Leased; ReadEnds 995 []; ConsumeRead false None; BeginClose CancelAccepted CancelNotFound;
   BeginClose CancelAccepted CancelNotFound].

Definition after_play (ls : list Label) : IocpTcpTransport :=
  default (IocpTcpTransport_new 3) (snd <$> play ls (Ok tt, IocpTcpTransport_new 3)).

Lemma demo_reachable ls res t : play ls (Ok tt, IocpTcpTransport_new 3) = Some (res, t) -> reachable 3 res (after_play ls).
Proof.
  intros H. unfold after_play. rewrite H. pose proof (play_reachable 3 ls (Ok tt, IocpTcpTransport_new 3) (res, t)) as Hp.
  cbn in *. apply Hp; [apply reachable_new|done].
Qed.

(** A refused lease: the read is in the system's hands, and the closing of the connection
    terminates the process, since the engine rejects the cancellation where nothing may be
    thrown. *)
Example refused_lease_is_fatal :
  let s := perform (StartRead 10 true None LeaseNoMemory) (IocpTcpTransport_new 3) in
  s.1 = Throw bad_alloc /\ readPending_ (reading s.2) = true /\ stranded s.2 = true /\
  (perform (BeginClose CancelAccepted CancelAccepted) s.2).1 = Throw log_fatal.
Proof. by vm_compute. Qed.

(** No memory for the input buffer: what was read is lost. *)
Example failed_append_loses_bytes :
  let t := after_play [StartRead 10 true None Leased; ReadEnds 0 demo_message; ConsumeRead true (Some bad_alloc)] in
  received (reading t) = demo_message /\ input (reading t) = [] /\ dropped (reading t) = true /\ hasPendingOperations t = false.
Proof. by vm_compute. Qed.

Example demo_progress :
  let t := after_play demo_busy in
  input (reading t) = demo_message /\ sent (writing t) = demo_message /\ enqueued (writing t) = demo_message ++ demo_message /\
  bufferedWriteBytes_ (writing t) = 4 /\ retained (reading t) = 4096 /\ closed (after_play (demo_busy ++ demo_end)) = true.
Proof. by vm_compute. Qed.

Lemma iocp_transport_is_safe_witness :
  reachable 3 (Ok tt) (after_play demo_busy) /\ writeCompletionPending_ (writing (after_play demo_busy)) = true /\
  retained (reading (after_play demo_busy)) = storage_size (readStorage_ (reading (after_play demo_busy))).
Proof.
  assert (reachable 3 (Ok tt) (after_play demo_busy)) as H by (eapply demo_reachable; vm_compute; reflexivity).
  assert (stranded (after_play demo_busy) = false) as Hs by (vm_compute; reflexivity).
  split; [exact H|]. split; [vm_compute; reflexivity|]. destruct (iocp_transport_is_safe 3 _ _ H) as (_ & Hr). exact (proj1 (Hr Hs)).
Defined.

Lemma iocp_streams_in_order_witness :
  reachable 3 (Ok tt) (after_play demo_busy) /\ failed (writing (after_play demo_busy)) = false /\
  enqueued (writing (after_play demo_busy)) = sent (writing (after_play demo_busy)) ++ zdrop (written (writing (after_play demo_busy))) (unsent (writing (after_play demo_busy))).
Proof.
  assert (reachable 3 (Ok tt) (after_play demo_busy)) as H by (eapply demo_reachable; vm_compute; reflexivity).
  assert (failed (writing (after_play demo_busy)) = false) as Hf by (vm_compute; reflexivity).
  split; [exact H|]. split; [exact Hf|]. assert (stranded (after_play demo_busy) = false) as Hs by (vm_compute; reflexivity).
  destruct (iocp_streams_in_order 3 _ _ H Hs) as [_ Hw]. exact (proj1 (Hw Hf)).
Defined.

Lemma iocp_start_is_exact_witness :
  reachable 3 (Ok tt) (after_play demo_busy) /\
  exists e w, startWrite None Leased (writing (after_play demo_busy)) = (Ok e, w) /\ (e = 0 <-> writePending_ w = true \/ writeCompletionPending_ w = true).
Proof.
  assert (reachable 3 (Ok tt) (after_play demo_busy)) as H by (eapply demo_reachable; vm_compute; reflexivity).
  assert (@None Z <> Some 0) as Hrc by discriminate. assert (0 <= 100) as Hn by lia.
  split; [exact H|]. destruct (iocp_start_is_exact 3 _ 100 true None H Hn Hrc) as [_ (e & w & He & Hx & _)]. exists e, w. exact (conj He Hx).
Defined.

Definition demo_queued : list Label :=
  [Enqueue demo_message true; Enqueue demo_message true; StartWrite (Some WSAENOBUFS) Leased].

Lemma iocp_output_drains_witness :
  reachable 3 (Ok tt) (after_play demo_queued) /\ bufferedWriteBytes_ (writing (after_play demo_queued)) = 6 /\
  exists w, rounds [2; 1; 5; 1; 1; 1] (writing (after_play demo_queued)) = (Ok tt, w) /\ sent w = demo_message ++ demo_message.
Proof.
  assert (reachable 3 (Ok tt) (after_play demo_queued)) as H by (eapply demo_reachable; vm_compute; reflexivity).
  split; [exact H|]. split; [vm_compute; reflexivity|].
  assert (Forall (fun k => 0 < k) [2; 1; 5; 1; 1; 1]) as Hks by (repeat constructor).
  destruct (iocp_output_drains 3 _ [2; 1; 5; 1; 1; 1] H eq_refl eq_refl eq_refl Hks) as (w & Hr & He & Hs & _).
  - vm_compute. discriminate.
  - vm_compute. discriminate.
  - exists w. split; [exact Hr|]. rewrite Hs, He. vm_compute. reflexivity.
Defined.
